(* ===== verification/_CoqProject ===== *)
-Q . S2P
Prelude.v
Str.v
BTreeMap.v
FileMode.v
VirtualPath.v
FsTypes.v
PathSecurity.v
Host.v
Common.v
OverlayState.v
Overlay.v
OverlayOps.v
TreeHost.v
OverlayInv.v
OverlayStep.v
OverlayProps.v
OverlayTree.v
OverlayHost.v
Direct.v
MountTable.v
Fnmatch.v
Glob.v
GlobProps.v
OverlayKeys.v
Scan.v
ScanProps.v
MountProps.v
Import.v
HashTable.v
HashTableProps.v
HashProbe.v
Resource.v
ResourceProps.v
ResourceClock.v
Timsort.v
TimsortOrder.v
TimsortRuns.v
TimsortMerge.v
TimsortMergeHi.v
TimsortStack.v
TimsortProps.v
Number.v
Permute.v
Sorting.v
SortingProps.v
StableHeap.v
Heap.v
Collector.v
HeapInv.v
HeapProps.v
CollectorPaint.v
CollectorProps.v
HeapRun.v
HeapData.v
HeapPayload.v
HeapClaims.v
Scheduler.v
AsyncExec.v
AsyncInv.v
AsyncSafe.v
AsyncCommit.v
AsyncCleanup.v
AsyncProps.v
Opcode.v
Code.v
Builder.v
Fetch.v
BuilderTyping.v
BuilderRun.v
BuilderProps.v
Slice.v
Range.v
Bytes.v
Base64.v
Base64Props.v
BaseNProps.v
A85Props.v
Binascii.v
HexUuProps.v
QpProps.v
