(* ===== verification/Prelude.v ===== *)
(** * The filesystem layer, the heap, the scheduler and the core algorithms of monty

    monty is a Python interpreter for untrusted code. This development models the
    parts of it on which the host's safety and the guest's results rest: the
    mounts that answer the sandbox's file calls ([crates/monty-fs], with the types
    of [crates/monty-types] they are written against), and, of [crates/monty], the
    reference-counted heap with its cycle collector, the async executor, the
    resource tracker, the bytecode with its builder and its fetch loop, the sort, the hash table behind
    [dict] and [set], slices and ranges, and the byte codecs of its [base64] and
    [binascii] modules.

    ** The parts and how they interact

    A file call of the sandbox is an [OsFunctionCall]. The mount table checks its
    path, routes it to the mount with the longest matching virtual path and runs it
    there: as an [FsRequest] on one of two backends, or, for a directory scan,
    across the whole table. A direct mount runs the request on the host directory;
    a read-only one refuses writes first; an overlay mount keeps every change in
    memory over a host directory it only reads. Both backends resolve paths with
    the policy of [path_security.rs], read the host through a [cap_std] directory
    handle, and charge memory and written bytes against limits.

    The compiler hands a function's code to the builder, which emits bytes, patches
    jumps and records locations; the fetch loop of the virtual machine decodes
    those bytes. The values the machine works on live in the heap: entries with a
    reference count, reclaimed when it reaches zero or, in a cycle, by the
    collector, which the heap starts as allocations add up. Every allocation and
    many steps of the interpreter ask the resource tracker first. A task of async
    code runs in the machine until it awaits something unsettled; the executor then
    saves its context with the scheduler and loads the next one that is ready. A
    coroutine, a call the host has yet to answer and a gather are heap objects that
    name who waits for them, and a result travels up that chain. The sort calls
    guest code to compare; so does a lookup of the hash table.

    ** Files

    Shared: [Prelude] (results, the state-and-error monad [M] with [ensures],
    [observes], [atomic], machine integers with saturation, the bounded loop
    [iterate], tactics and the hint database [monty]), [Str] (Rust's string
    operations, UTF-8 validation, lossy decoding, characters), [BTreeMap] (the
    ordered map, a sorted association list).

    Types: [FileMode] is file_mode.rs; [VirtualPath] is virtual_path.rs; [FsTypes]
    holds the calls of os.rs, the objects they return, error.rs, and the requests of
    dispatch.rs.

    Mounts: [PathSecurity] is path_security.rs; [Host] is the interface of the
    host directory handle with its laws; [Common] is common.rs; [OverlayState] is
    overlay_state.rs; [Overlay] and [OverlayOps] are overlay.rs, the queries and the operations that change the
    overlay; [Direct] is direct.rs, mount_mode.rs and the dispatch between the
    backends; [MountTable] is mount_table.rs, but for the calls on a whole
    table, which end [Scan].

    Scans: [Fnmatch] and [Glob] are scan.rs of monty-types, the name patterns, and
    the selector, replies, recorder and index; [Scan] is scan.rs of monty-fs.
    [Import] is import.rs and the module reads of the mount table.

    Hash table: [HashTable] and [HashProbe] are types/hash_table.rs, the table with
    its cursors, and the lookups that run guest code while they compare.
    [HashTable] ends with the entries of dict.rs and set.rs.

    Resources: [Resource] is resource.rs and resource/execution_clock.rs of
    monty-types, the limits, the tracker and its clocks; [ResourceProps]
    and [ResourceClock] hold its theorems.

    Sorting: [Timsort] is sorting/timsort.rs, with its theorems in [TimsortOrder],
    [TimsortRuns], [TimsortMerge], [TimsortMergeHi], [TimsortStack] and
    [TimsortProps]; [Number] is the integer and float comparison, [Permute] the
    in-place permutation, and [Sorting] the fast paths and the entry point of
    sorting/mod.rs, with [SortingProps].

    Heap: [StableHeap] is stable_heap.rs and free_list.rs, the arena; [Heap] and
    [Collector] are heap/mod.rs, the counts and indexes, and the cycle collector.
    [HeapInv] states the graph of references and the invariants; [HeapProps] shows
    what the operations keep and that they leak nothing, [CollectorPaint] and
    [CollectorProps] the phases of a collection, [HeapRun] any sequence of
    operations, and dumps with their loading. [HeapData] and [HeapPayload] are
    heap_data.rs and the walkers over each payload; [HeapClaims] has the properties.

    Async: [Scheduler] is asyncio.rs, the awaitables, and bytecode/vm/scheduler.rs;
    [AsyncExec] is bytecode/vm/async_exec.rs with the frame operations of vm/mod.rs it
    uses, and gather() of modules/asyncio.rs. [AsyncInv] states the invariant and what
    each change does to it, [AsyncSafe] and [AsyncCommit] that the operations keep it,
    [AsyncCleanup] that cancelling ends, and [AsyncProps] has the properties of a run.

    Bytecode: [Opcode] is op.rs, [Code] is code.rs, [Builder] is builder.rs,
    [Fetch] the operand fetches, the dispatch of operands and the relative jumps of
    vm/mod.rs. It, [BuilderTyping], [BuilderRun] and [BuilderProps] hold the theorems
    about them.

    Slices and ranges: [Slice] is slice.rs and [Range] is range.rs.

    Byte codecs: [Bytes] has bytes, bit operations, chunks and the size check of
    resource_checks.rs; [Base64] is modules/base64.rs and [Binascii] is
    modules/binascii.rs. [Base64Props],
    [BaseNProps], [A85Props], [HexUuProps] and [QpProps] hold the theorems.

    A definition carries the name of the function it translates where that name is
    free; state is a record threaded through [M] (an overlay operation threads the
    pair of [OverlayState] and [MountContext]), errors are values of [result], a
    machine integer is a [Z] with its wrap-around, saturation or check written out,
    a string is the list of its bytes.

    ** What the theorems show

    - Paths ([VirtualPath], [PathSecurity]): normalization computes the component
      stack whatever its fast path does; a resolved path is relative, plain and
      free of null bytes, drives and UNC prefixes; the length limits hold.
    - Overlay mounts: [OverlayStep] states an abstract transition system, one
      checked replacement of entries or one checked append per request, and
      [OverlayProps] that every request refines it, so that over any sequence of
      requests the memory estimate is exact and within the limit, the quota is
      kept, and the host directory is untouched. A failed request changes nothing
      ([OverlayInv]). Writing, appending, removing, creating and renaming do what
      they say to every path of the tree, and reads see what was written
      ([OverlayProps], [OverlayTree]). Listings merge overlay and host, and the walk
      of a renamed host directory ends ([OverlayHost]). Every entry is recorded under a
      normalized relative path, and what is read of the host is read at a path whose
      components are all there and no links ([OverlayKeys]).
    - The table ([MountProps]): mounts stay sorted and disjoint, routing finds the
      longest prefix, a call changes no mount but its own and a read changes none,
      read-only mounts are never written, limits hold after every call, and
      renames across mounts and unusable paths are refused.
    - Scans ([Fnmatch], [GlobProps], [ScanProps]): the matcher that backtracks over
      one star and the dynamic program for several parts decide the declarative
      relations [denotes] and [multi_denotes]; a scan ends within its memory,
      visit and handle limits; its replies hold only plain relative paths and
      decode to themselves.
    - Imports ([Import]): candidates stay below the search path, and the search
      returns the first readable one.
    - The hash table ([HashTableProps], [HashProbe]): every operation keeps slots
      and buckets in agreement and the insertion order; lookups find what is
      stored; a cursor yields the live entries; dumps restore; a lookup that runs
      guest code returns an index that is valid in the table the guest left.
    - Resources ([ResourceProps], [ResourceClock]): an exceeded
      budget stays exceeded, the nested clocks add up to the time that passed, a
      run that keeps checking is stopped once its time is over, and limits are
      only ever tightened.
    - Sorting ([TimsortProps], [SortingProps]): whatever the comparisons of the
      guest answer or raise, the result is a permutation of the input; for a
      comparison that is a strict weak order it is the stable sort of it; and the
      fast paths, which take numbers and short interned or heap strings, agree with the
      sort they replace.
    - The heap ([HeapClaims]): over any sequence of operations of a client that
      releases only what it owns nothing faults, what is reached is alive and every
      count is the number of references that exist; releasing a reference, as long as
      what is being read has another owner, frees nothing that is still reached; a collection frees garbage only, and where
      untracked entries are on no cycle it leaves none; a dump restores the heap it
      was taken from, and a dump with any other contents is refused or gives a heap
      whose colours and weak indexes are sound. The two walkers over a payload
      report the same references.
    - Async ([AsyncProps]): over any sequence of what a program and its host can ask
      for, from a fresh machine, the executor panics on nothing but a counter past its
      width; every task runs, is queued once or is blocked on the one awaitable that
      will wake it; a gather waits for exactly the children its empty slots belong to,
      and completes with its results in the order of its items whatever order they
      arrive in; the loop that commits nested gathers is the recursive walk, also when
      the resource tracker stops it; while no
      task can run a call of the host is pending, so the run never stalls; and
      cleaning up ends and leaves nothing behind.
    - Bytecode ([BuilderProps]): code the builder finishes is typed: in every state
      the machine reaches there is an instruction to fetch, its stack depth is
      within the counter and the same on every path, and its jump stays in the
      address space; the fetch loop decodes what was emitted, a jump lands at its target
      or where it was patched to; the location table gives each instruction its own position.
    - Slices and ranges ([Slice], [Range]): a slice collects the elements that
      the definition by indices selects; length, membership, indexing,
      iteration, equality and hash of a range agree with the list of its elements; a slice of a range
      is the range of the sliced elements as long as its length fits an [i64].
    - Byte codecs: what base64, base32, base16, base85, Z85 ([Base64Props],
      [BaseNProps]), Ascii85 ([A85Props]), hexadecimal, uuencoding ([HexUuProps]) and
      quoted-printable ([QpProps]) encode decodes to the same bytes, under every
      option; the sizes reserved are exact or enough, and lines are as long as
      promised, or how much longer they get; the table-driven CRC-32 is the
      register of its polynomial and detects bursts of up to 32 bits ([HexUuProps]).

    ** Bounds

    A loop of the source that is not structural runs under a bound, and a theorem
    shows that the bound is not what ends it: [collect_fuel] (a directory walk pays
    512 bytes of its budget for every entry), the loops of [segment_new], [matches]
    and [selector_new] (bounded by the pattern and the name), [scan_fuel] (every
    turn of a scan is a visit or a charge), [handle] (the length of the path) and
    the restarts of [find_index] (for comparisons that leave the table alone). In
    the sort, runs and galloping are bounded by the length of the list. In the
    heap, releasing an entry is bounded by the sum of the counts plus one (every
    turn lowers it), a pass of the collector over its gray list by the number of
    entries plus one, the white scans by the references they follow. In the async
    executor a chain of awaiters goes through ever younger gathers ([chain_fuel]), a
    round of a commit opens or settles a gather ([commit_fuel]), the walk of a
    cancelled gather goes through ever older ones, of which one of id [n] outweighs
    all below it ([walk_fuel], [cancel_fuel]), and activating a task from within ends
    one first. Binary
    searches are bounded by the length of what they search. The decoders of
    uuencoded and quoted-printable text are bounded by twice the promised length
    and by the length of the input.

    ** Assumptions

    What is not under the sources is a parameter. [HostDir] lists the operations of
    a [cap_std] directory, [HostLaws] what its documentation promises of them, and
    [HostLookup] how it finds a path; [TreeHost] is a directory tree that satisfies them. [AmbientHost] opens mount
    roots. [OverlayLayout] and [StateLayout] are sizes the compiler chooses,
    [CharCase] the Unicode case tables, [Identifiers] the identifier test of the
    parser library, [Probing] the order in which the bucket table yields
    candidates, [Guest] the comparisons that run guest code. [Machine] and [Interp]
    are what the tracker reads of its machine and the sort asks of the interpreter.
    [KeyOrder] is the order a hash map yields its keys in, [Interns] which functions
    are internal, and [Tracker] what the resource tracker answers a commit and a call.
    [Payload] with [PayloadLaws] is the interface the heap has to its payloads, and
    [HeapPayload] discharges it for the modelled ones. [NumInteger] is the rounding
    division of the number library. The memory limit of a mount is below the value
    at which the saturating estimate stops, and a rename's plan fits the counter
    ([request_fits]). Counters of the async executor are checked, as in a build with
    overflow checks. The typing of built code is for a client that patches every
    jump it emits, opens the handlers it registers and ends in dead code, and for a
    build that keeps the debug assertions.

    ** Not modelled

    The parser, the compiler, the meaning of the instructions, the type checker,
    the process pool, the wire protocol and the language bindings; the text of
    messages that quotes paths and byte counts; the run loop between two operations of
    the async executor, and the freeing of its objects: references are counted, but
    an object stays in the executor's store; reference counting in the hash
    table and the memory preflight before it grows. Files are not truncated or
    changed by others while a call runs, as the source assumes.

    ** Plan

    Next: the selector against a declarative semantics of patterns, and against the index of a reply;
    the methods of dict and set over the table and the heap; that the references the
    async executor takes are the ones it gives back; the compiler's regions over the
    builder. *)
From Stdlib Require Export ZArith Lia Ascii String.
From stdpp Require Export base list strings sets gmap.

Declare Scope monty_scope.
Delimit Scope monty_scope with monty.

(** ** Results

    Rust's [Result<A, E>] and the combinators the sources use. *)
Inductive result (A E : Type) : Type :=
| Ok (a : A)
| Err (e : E).
Arguments Ok {A E} a.
Arguments Err {A E} e.

#[export] Instance result_eq_dec {A E} `{EqDecision A, EqDecision E} :
  EqDecision (result A E).
Proof. solve_decision. Defined.

(** The [?] operator. *)
Definition rbind {A B E} (m : result A E) (k : A -> result B E) : result B E :=
  match m with Ok a => k a | Err e => Err e end.

Lemma rbind_Ok {A B E} (m : result A E) (k : A -> result B E) b :
  rbind m k = Ok b -> exists a, m = Ok a /\ k a = Ok b.
Proof. destruct m; cbn; [eauto|done]. Qed.

(** [m.map_err(f)]. *)
Definition map_err {A E F} (f : E -> F) (m : result A E) : result A F :=
  match m with Ok a => Ok a | Err e => Err (f e) end.

Lemma map_err_Ok {A E F} (f : E -> F) (m : result A E) a : map_err f m = Ok a -> m = Ok a.
Proof. destruct m; cbn; [by intros [= ->]|done]. Qed.

(** [o.ok_or(e)]. *)
Definition ok_or {A E} (o : option A) (e : E) : result A E :=
  match o with Some a => Ok a | None => Err e end.

(** [m.is_ok()]. *)
Definition is_ok {A E} (m : result A E) : bool :=
  match m with Ok _ => true | Err _ => false end.

(** [m.is_ok_and(p)]. *)
Definition is_ok_and {A E} (p : A -> bool) (m : result A E) : bool :=
  match m with Ok a => p a | Err _ => false end.

(** [m.ok()]. *)
Definition rok {A E} (m : result A E) : option A :=
  match m with Ok a => Some a | Err _ => None end.

Notation "'let?' x ':=' m 'in' k" := (rbind m (fun x => k))
  (at level 10, x pattern, m at level 99, k at level 200) : monty_scope.
Notation "m ';?' k" := (rbind m (fun _ => k))
  (at level 100, k at level 200, right associativity) : monty_scope.

(** ** Fallible computations over a mutable state

    A Rust function that takes [&mut S] and returns [Result<A, E>] is a
    function [S -> result A E * S]: the state it leaves behind is there on the
    error paths too. *)
Definition M (S E A : Type) : Type := S -> result A E * S.

Definition sret {S E A} (a : A) : M S E A := fun s => (Ok a, s).
Definition sfail {S E A} (e : E) : M S E A := fun s => (Err e, s).
Definition slift {S E A} (m : result A E) : M S E A := fun s => (m, s).
Definition sget {S E} : M S E S := fun s => (Ok s, s).
Definition smodify {S E} (f : S -> S) : M S E unit := fun s => (Ok tt, f s).
Definition sbind {S E A B} (m : M S E A) (k : A -> M S E B) : M S E B :=
  fun s => match m s with
           | (Ok a, s') => k a s'
           | (Err e, s') => (Err e, s')
           end.

Notation "'do' x '<-' m ';;' k" := (sbind m (fun x => k))
  (at level 10, x pattern, m at level 99, k at level 200) : monty_scope.
Notation "m ';;;' k" := (sbind m (fun _ => k))
  (at level 100, k at level 200, right associativity) : monty_scope.

(** [keeps P m]: the computation [m] preserves [P], whether it succeeds or not. *)
Definition keeps {S E A} (P : S -> Prop) (m : M S E A) : Prop :=
  forall s, P s -> P (m s).2.

Lemma keeps_ret {S E A} (P : S -> Prop) (a : A) : keeps P (sret (E := E) a).
Proof. by intros s Hs. Qed.

Lemma keeps_fail {S E A} (P : S -> Prop) (e : E) : keeps P (sfail (A := A) e).
Proof. by intros s Hs. Qed.

Lemma keeps_lift {S E A} (P : S -> Prop) (m : result A E) : keeps P (slift m).
Proof. by intros s Hs. Qed.

Lemma keeps_get {S E} (P : S -> Prop) : keeps P (sget (S := S) (E := E)).
Proof. by intros s Hs. Qed.

Lemma keeps_bind {S E A B} (P : S -> Prop) (m : M S E A) (k : A -> M S E B) :
  keeps P m -> (forall a, keeps P (k a)) -> keeps P (sbind m k).
Proof.
  intros Hm Hk s Hs. unfold sbind. specialize (Hm s Hs).
  destruct (m s) as [[a|e] s']; [by apply Hk | done].
Qed.

(** [observes m]: [m] leaves the state as it is. *)
Definition observes {S E A} (m : M S E A) : Prop := forall s, (m s).2 = s.

(** [atomic m]: when [m] fails it has changed nothing. *)
Definition atomic {S E A} (m : M S E A) : Prop :=
  forall s e s', m s = (Err e, s') -> s' = s.

(** [succeeds m]: [m] cannot fail. *)
Definition succeeds {S E A} (m : M S E A) : Prop := forall s, exists a, (m s).1 = Ok a.

Lemma observes_ret {S E A} (a : A) : observes (sret (S := S) (E := E) a).
Proof. by intros s. Qed.
Lemma observes_fail {S E A} (e : E) : observes (sfail (S := S) (A := A) e).
Proof. by intros s. Qed.
Lemma observes_lift {S E A} (m : result A E) : observes (slift (S := S) m).
Proof. by intros s. Qed.
Lemma observes_get {S E} : observes (sget (S := S) (E := E)).
Proof. by intros s. Qed.

Lemma observes_bind {S E A B} (m : M S E A) (k : A -> M S E B) :
  observes m -> (forall a, observes (k a)) -> observes (sbind m k).
Proof.
  intros Hm Hk s. unfold sbind. specialize (Hm s).
  destruct (m s) as [[a|e] s']; cbn in *; subst; [apply Hk | done].
Qed.

Lemma observes_keeps {S E A} (P : S -> Prop) (m : M S E A) : observes m -> keeps P m.
Proof. intros Hm s Hs. by rewrite Hm. Qed.

Lemma observes_atomic {S E A} (m : M S E A) : observes m -> atomic m.
Proof. intros Hm s e s' Heq. specialize (Hm s). by rewrite Heq in Hm. Qed.

Lemma succeeds_ret {S E A} (a : A) : succeeds (sret (S := S) (E := E) a).
Proof. intros s. by exists a. Qed.

Lemma succeeds_atomic {S E A} (m : M S E A) : succeeds m -> atomic m.
Proof. intros Hm s e s' Heq. destruct (Hm s) as [a Ha]. by rewrite Heq in Ha. Qed.

Lemma succeeds_bind {S E A B} (m : M S E A) (k : A -> M S E B) :
  succeeds m -> (forall a, succeeds (k a)) -> succeeds (sbind m k).
Proof.
  intros Hm Hk s. unfold sbind. destruct (Hm s) as [a Ha].
  destruct (m s) as [r s']; cbn in Ha; subst. apply Hk.
Qed.

(** Looking before an atomic computation is atomic. *)
Lemma atomic_observes_bind {S E A B} (m : M S E A) (k : A -> M S E B) :
  observes m -> (forall a, atomic (k a)) -> atomic (sbind m k).
Proof.
  intros Hm Hk s e s'. unfold sbind. specialize (Hm s).
  destruct (m s) as [[a|e'] s1]; cbn in *; subst; [apply Hk | congruence].
Qed.

(** So is continuing it with steps that cannot fail. *)
Lemma atomic_bind_succeeds {S E A B} (m : M S E A) (k : A -> M S E B) :
  atomic m -> (forall a, succeeds (k a)) -> atomic (sbind m k).
Proof.
  intros Hm Hk s e s'. unfold sbind. destruct (m s) as [[a|e'] s1] eqn:E1.
  - intros E2. destruct (Hk a s1) as [b Hb]. by rewrite E2 in Hb.
  - intros [= -> <-]. by eapply Hm.
Qed.

(** Inverting a successful run. *)
Lemma sbind_Ok {S E A B} (m : M S E A) (k : A -> M S E B) s b s' :
  sbind m k s = (Ok b, s') -> exists a s1, m s = (Ok a, s1) /\ k a s1 = (Ok b, s').
Proof. unfold sbind. destruct (m s) as [[a|e] s1]; [eauto|done]. Qed.

Lemma sret_Ok {S E A} (a b : A) (s s' : S) :
  sret (E := E) a s = (Ok b, s') -> b = a /\ s' = s.
Proof. by intros [= <- <-]. Qed.

Lemma slift_Ok {S E A} (m : result A E) (b : A) (s s' : S) :
  slift m s = (Ok b, s') -> m = Ok b /\ s' = s.
Proof. by intros [= <- <-]. Qed.

Lemma sget_Ok {S E} (s b s' : S) : sget (E := E) s = (Ok b, s') -> b = s /\ s' = s.
Proof. by intros [= <- <-]. Qed.

Lemma observes_Ok {S E A} (m : M S E A) s b s' : observes m -> m s = (Ok b, s') -> s' = s.
Proof. intros Hm Heq. specialize (Hm s). by rewrite Heq in Hm. Qed.

Lemma sbind_ext {S E A B} (m m' : M S E A) (k k' : A -> M S E B) s :
  m s = m' s -> (forall a s, k a s = k' a s) -> sbind m k s = sbind m' k' s.
Proof. intros Hm Hk. unfold sbind. rewrite Hm. destruct (m' s) as [[a|e] s']; [apply Hk|done]. Qed.

(** [ensures m s Q R]: run from [s], [m] succeeds with a value and a state in
    [Q], or fails with an error and a state in [R]. *)
Definition ensures {S E A} (m : M S E A) (s : S) (Q : A -> S -> Prop) (R : E -> S -> Prop) : Prop :=
  match m s with (Ok a, s') => Q a s' | (Err e, s') => R e s' end.

Lemma ensures_bind {S E A B} (m : M S E A) (k : A -> M S E B) s Q R :
  ensures m s (fun a s' => ensures (k a) s' Q R) R -> ensures (sbind m k) s Q R.
Proof. unfold ensures, sbind. by destruct (m s) as [[a|e] s']. Qed.

Lemma ensures_ret {S E A} (a : A) s (Q : A -> S -> Prop) (R : E -> S -> Prop) :
  Q a s -> ensures (sret a) s Q R.
Proof. done. Qed.

Lemma ensures_get {S E} s (Q : S -> S -> Prop) (R : E -> S -> Prop) : Q s s -> ensures sget s Q R.
Proof. done. Qed.

Lemma ensures_modify {S E} (f : S -> S) s (Q : unit -> S -> Prop) (R : E -> S -> Prop) :
  Q tt (f s) -> ensures (smodify f) s Q R.
Proof. done. Qed.

Lemma ensures_mono {S E A} (m : M S E A) s (Q Q' : A -> S -> Prop) (R R' : E -> S -> Prop) :
  ensures m s Q R -> (forall a s', Q a s' -> Q' a s') -> (forall e s', R e s' -> R' e s') ->
  ensures m s Q' R'.
Proof. unfold ensures. destruct (m s) as [[a|e] s']; auto. Qed.

(** ** Machine integers

    A [usize], [u64] or [i64] is a [Z] together with its range; the targets
    the crate supports have 64-bit [usize]. *)
Definition u64_max : Z := 18446744073709551615.
Definition usize_max : Z := u64_max.
Definition i64_max : Z := 9223372036854775807.
Definition i64_min : Z := -9223372036854775808.

(** [u64::saturating_add], [saturating_sub] and [saturating_mul] (and the
    [usize] ones, which have the same width). *)
Definition sat_add (x y : Z) : Z := Z.min (x + y) u64_max.
Definition sat_sub (x y : Z) : Z := Z.max (x - y) 0.
Definition sat_mul (x y : Z) : Z := Z.min (x * y) u64_max.

(** [u64::checked_sub]. *)
Definition checked_sub (x y : Z) : option Z :=
  if (x <? y)%Z then None else Some (x - y)%Z.

(** [i64::try_from(n).unwrap_or(i64::MAX)] of an unsigned [n]. *)
Definition to_i64_sat (n : Z) : Z := if (n <=? i64_max)%Z then n else i64_max.

(** The length of a list as a [usize]. *)
Definition zlen {A} (l : list A) : Z := Z.of_nat (length l).

Lemma zlen_nonneg {A} (l : list A) : (0 <= zlen l)%Z.
Proof. unfold zlen. lia. Qed.

Lemma zlen_app {A} (l k : list A) : zlen (l ++ k) = (zlen l + zlen k)%Z.
Proof. unfold zlen. rewrite length_app. lia. Qed.

Lemma zlen_snoc {A} (l : list A) x : zlen (l ++ [x]) = (zlen l + 1)%Z.
Proof. by rewrite zlen_app. Qed.

Lemma sat_add_exact x y : (x + y <= u64_max)%Z -> sat_add x y = (x + y)%Z.
Proof. unfold sat_add. lia. Qed.

Lemma sat_sub_exact x y : (y <= x)%Z -> sat_sub x y = (x - y)%Z.
Proof. unfold sat_sub. lia. Qed.

Lemma sat_add_nonneg x y : (0 <= x)%Z -> (0 <= y)%Z -> (0 <= sat_add x y)%Z.
Proof. unfold sat_add, u64_max. lia. Qed.

Lemma sat_add_le x y : (sat_add x y <= x + y)%Z.
Proof. unfold sat_add. lia. Qed.

Lemma sat_add_max x y : (sat_add x y <= u64_max)%Z.
Proof. unfold sat_add. lia. Qed.

(** ** Bounded loops

    A loop whose body gives the next state ([inl]) or the result ([inr]), run at
    most [n] times. The count is binary, so a large bound costs nothing when the
    loop ends early. *)
Fixpoint iterate {A B} (body : A -> A + B) (n : positive) (a : A) : A + B :=
  match n with
  | xH => body a
  | xO n => match iterate body n a with
            | inl a => iterate body n a
            | inr b => inr b
            end
  | xI n => match body a with
            | inl a => match iterate body n a with
                       | inl a => iterate body n a
                       | inr b => inr b
                       end
            | inr b => inr b
            end
  end.

(** Whatever the body preserves holds where the loop stops. *)
Lemma iterate_inv {A B} (body : A -> A + B) (P : A -> Prop) (Q : B -> Prop) n a :
  (forall a, P a -> match body a with inl a' => P a' | inr b => Q b end) ->
  P a -> match iterate body n a with inl a' => P a' | inr b => Q b end.
Proof.
  intros Hb. revert a. induction n as [n IH|n IH|]; intros a Ha; cbn; [| |by apply Hb].
  - specialize (Hb a Ha). destruct (body a) as [a1|b]; [|done].
    specialize (IH a1 Hb) as H1. destruct (iterate body n a1); [by apply IH|done].
  - specialize (IH a Ha) as H1. destruct (iterate body n a); [by apply IH|done].
Qed.

(** A loop that counts a measure down has used up as much of it as it ran. *)
Lemma iterate_measure {A B} (body : A -> A + B) (P : A -> Prop) (mu : A -> Z) n a :
  (forall a, P a -> match body a with inl a' => P a' /\ mu a' < mu a | inr _ => True end)%Z ->
  P a -> match iterate body n a with inl a' => P a' /\ (mu a' + Zpos n <= mu a)%Z | inr _ => True end.
Proof.
  intros Hb. revert a. induction n as [n IH|n IH|]; intros a Ha; cbn.
  - specialize (Hb a Ha). destruct (body a) as [a1|b]; [|done]. destruct Hb as [H1 Hlt].
    specialize (IH a1 H1) as H2. destruct (iterate body n a1) as [a2|]; [|done]. destruct H2 as [H2 H3].
    specialize (IH a2 H2) as H4. destruct (iterate body n a2); [|done]. split; [naive_solver|lia].
  - specialize (IH a Ha) as H2. destruct (iterate body n a) as [a2|]; [|done]. destruct H2 as [H2 H3].
    specialize (IH a2 H2) as H4. destruct (iterate body n a2); [|done]. split; [naive_solver|lia].
  - specialize (Hb a Ha). destruct (body a); [|done]. split; [naive_solver|lia].
Qed.

(** So it ends when the bound exceeds the measure. *)
Lemma iterate_ends {A B} (body : A -> A + B) (P : A -> Prop) (mu : A -> Z) n a :
  (forall a, P a -> 0 <= mu a)%Z ->
  (forall a, P a -> match body a with inl a' => P a' /\ mu a' < mu a | inr _ => True end)%Z ->
  P a -> (mu a < Zpos n)%Z -> exists b, iterate body n a = inr b.
Proof.
  intros Hmu Hb Ha Hn. pose proof (iterate_measure body P mu n a Hb Ha) as Hm.
  destruct (iterate body n a) as [a'|b]; [|by exists b]. destruct Hm as [Ha' Hle].
  specialize (Hmu a' Ha'). lia.
Qed.

(** The loop one step at a time. *)
Fixpoint run_steps {A B} (body : A -> A + B) (k : nat) (a : A) : A + B :=
  match k with
  | O => inl a
  | S k => match body a with inl a' => run_steps body k a' | inr b => inr b end
  end.

Lemma run_steps_add {A B} (body : A -> A + B) j k a :
  run_steps body (j + k) a = match run_steps body j a with inl a' => run_steps body k a' | inr b => inr b end.
Proof. revert a. induction j as [|j IH]; intros a; cbn; [done|]. by destruct (body a). Qed.

Lemma iterate_run {A B} (body : A -> A + B) n a : iterate body n a = run_steps body (Pos.to_nat n) a.
Proof.
  revert a. induction n as [n IH|n IH|]; intros a; cbn.
  - replace (Pos.to_nat n~1) with (S (Pos.to_nat n + Pos.to_nat n)) by lia. cbn. destruct (body a) as [a'|b]; [|done].
    rewrite run_steps_add, <- !IH. by destruct (iterate body n a').
  - replace (Pos.to_nat n~0) with (Pos.to_nat n + Pos.to_nat n) by lia.
    rewrite run_steps_add, <- !IH. by destruct (iterate body n a).
  - change (Pos.to_nat 1) with 1. cbn. by destruct (body a).
Qed.

(** A bound that covers the steps the loop takes does not show. *)
Lemma iterate_enough {A B} (body : A -> A + B) k n a b :
  run_steps body k a = inr b -> (Z.of_nat k <= Zpos n)%Z -> iterate body n a = inr b.
Proof.
  intros Hk Hn. rewrite iterate_run. replace (Pos.to_nat n) with (k + (Pos.to_nat n - k)) by lia.
  by rewrite run_steps_add, Hk.
Qed.

(** ** Lists *)

Lemma NoDup_map_filter {A B} (f : A -> B) (P : A -> bool) l :
  NoDup (List.map f l) -> NoDup (List.map f (List.filter P l)).
Proof.
  induction l as [|x l IH]; cbn; [done|]. intros Hnd. inversion Hnd as [|? ? Hx Hnd']; subst.
  destruct (P x); [|by apply IH]. cbn. constructor; [|by apply IH].
  intros Hin. apply Hx. rewrite list_elem_of_In, in_map_iff in *.
  destruct Hin as (y & Hy & Hin). apply filter_In in Hin as [Hin _]. eauto.
Qed.

(** ** Automation

    [monty] holds the facts the components' proofs close their routine goals
    with. *)
Create HintDb monty discriminated.
#[export] Hint Resolve keeps_ret keeps_fail keeps_lift keeps_get : monty.
#[export] Hint Resolve observes_ret observes_fail observes_lift observes_get : monty.
#[export] Hint Resolve succeeds_ret succeeds_atomic observes_atomic observes_keeps | 10 : monty.
#[export] Hint Resolve ensures_ret ensures_get ensures_modify : monty.
#[export] Hint Resolve zlen_nonneg sat_add_nonneg sat_add_max : monty.

(** Splits the matches and conditionals of hypotheses that must end in a
    success. *)
Ltac inv_ok :=
  repeat match goal with
  | H : Err _ = Ok _ |- _ => discriminate H
  | H : Ok _ = Err _ |- _ => discriminate H
  | H : Ok _ = Ok _ |- _ => injection H as H; subst
  | H : Err _ = Err _ |- _ => injection H as H; subst
  | H : (_, _) = (_, _) |- _ => injection H as H; subst
  | H : rbind ?m _ = Ok _ |- _ =>
      let E := fresh "Hm" in destruct m eqn:E; cbn [rbind] in H; [| discriminate H]
  | H : (if ?b then _ else _) = Ok _ |- _ =>
      let E := fresh "Hb" in destruct b eqn:E; try discriminate H
  end.

(** Runs through the steps of a computation that succeeded. *)
Ltac inv_step :=
  match goal with
  | H : sbind _ _ _ = (Ok _, _) |- _ =>
      let a := fresh "a" in let s1 := fresh "s" in let Hm := fresh "Hm" in
      apply sbind_Ok in H as (a & s1 & Hm & H)
  | H : sret _ _ = (Ok _, _) |- _ => apply sret_Ok in H as [? ?]; subst
  | H : sfail _ _ = (Ok _, _) |- _ => discriminate H
  | H : slift _ _ = (Ok _, _) |- _ => apply slift_Ok in H as [? ?]; subst
  | H : sget _ = (Ok _, _) |- _ => apply sget_Ok in H as [? ?]; subst
  end.

(** Runs through the [?]s of a result that is a success, leaving their
    operands whole. *)
Ltac inv_binds H :=
  repeat (let a := fresh "a" in let Hm := fresh "Hm" in
          apply rbind_Ok in H as (a & Hm & H)).

Ltac units := repeat match goal with u : unit |- _ => destruct u end.

(** Turns boolean tests on integers into the propositions they decide. *)
Ltac zbool :=
  repeat match goal with
  | H : (_ <? _)%Z = true |- _ => apply Z.ltb_lt in H
  | H : (_ <? _)%Z = false |- _ => apply Z.ltb_ge in H
  | H : (_ <=? _)%Z = true |- _ => apply Z.leb_le in H
  | H : (_ <=? _)%Z = false |- _ => apply Z.leb_gt in H
  | H : (_ =? _)%Z = true |- _ => apply Z.eqb_eq in H
  | H : (_ =? _)%Z = false |- _ => apply Z.eqb_neq in H
  | H : (_ >? _)%Z = _ |- _ => rewrite Z.gtb_ltb in H
  | H : negb _ = true |- _ => apply negb_true_iff in H
  | H : negb _ = false |- _ => apply negb_false_iff in H
  | H : _ && _ = true |- _ => apply andb_true_iff in H as [? ?]
  | H : _ || _ = false |- _ => apply orb_false_iff in H as [? ?]
  end.
