(* ===== verification/Str.v ===== *)
(** Rust's [str] and the string operations the sources call.

    A [str] is the list of its UTF-8 bytes, so lengths, indices and ordering
    are the byte lengths, byte offsets and byte order Rust uses.  *)
From S2P Require Import Prelude.

Abbreviation str := (list ascii).

(** A string literal. *)
Definition lit (s : string) : str := list_ascii_of_string s.
Arguments lit s%_string.

Definition slash : ascii := "/"%char.
Definition nul : ascii := Ascii.zero.

(** ** Searching and splitting *)

(** [s.contains(c)]. *)
Definition contains (c : ascii) (s : str) : bool := existsb (Ascii.eqb c) s.

(** [s.strip_prefix(p)]. *)
Fixpoint strip_prefix (p s : str) : option str :=
  match p, s with
  | [], _ => Some s
  | x :: p', y :: s' => if Ascii.eqb x y then strip_prefix p' s' else None
  | _ :: _, [] => None
  end.

(** [s.starts_with(p)]. *)
Definition starts_with (p s : str) : bool :=
  match strip_prefix p s with Some _ => true | None => false end.

(** [s.ends_with(c)]. *)
Definition ends_with_char (c : ascii) (s : str) : bool :=
  match last s with Some x => Ascii.eqb x c | None => false end.

(** [s.split(c)]: never empty, [""] splits into one empty segment. *)
Fixpoint split (c : ascii) (s : str) : list str :=
  match s with
  | [] => [[]]
  | x :: s' =>
      if Ascii.eqb x c then [] :: split c s'
      else match split c s' with
           | [] => [[x]]
           | h :: t => (x :: h) :: t
           end
  end.

(** [segments.join(sep)]. *)
Fixpoint join (c : ascii) (l : list str) : str :=
  match l with
  | [] => []
  | [x] => x
  | x :: l' => x ++ c :: join c l'
  end.

(** [s.rfind(c)]: the byte offset of the last [c]. *)
Fixpoint rfind (c : ascii) (s : str) : option nat :=
  match s with
  | [] => None
  | x :: s' =>
      match rfind c s' with
      | Some i => Some (S i)
      | None => if Ascii.eqb x c then Some 0 else None
      end
  end.

(** [s.rsplit_once(c)]. *)
Definition rsplit_once (c : ascii) (s : str) : option (str * str) :=
  match rfind c s with
  | Some i => Some (take i s, drop (S i) s)
  | None => None
  end.

(** [s.trim_end_matches(c)]. *)
Fixpoint trim_end_matches (c : ascii) (s : str) : str :=
  match s with
  | [] => []
  | x :: s' =>
      match trim_end_matches c s' with
      | [] => if Ascii.eqb x c then [] else [x]
      | t => x :: t
      end
  end.

(** ** Byte order

    [str]'s [Ord], which [BTreeMap<String, _>] sorts by. *)
Fixpoint str_ltb (a b : str) : bool :=
  match a, b with
  | _, [] => false
  | [], _ :: _ => true
  | x :: a', y :: b' => if Ascii.eqb x y then str_ltb a' b' else Ascii.ltb x y
  end.

(** ** Characters

    A byte [10xxxxxx] continues a character, every other byte starts one. *)
Definition is_continuation (c : ascii) : bool :=
  let n := N_of_ascii c in (128 <=? n)%N && (n <? 192)%N.

(** [s.is_char_boundary(i)]. *)
Definition is_char_boundary (s : str) (i : nat) : bool :=
  match s !! i with
  | Some c => negb (is_continuation c)
  | None => i =? length s
  end.

(** [s.chars().count()]. *)
Definition chars_count (s : str) : Z :=
  zlen (List.filter (fun c => negb (is_continuation c)) s).

(** The offsets [s.char_indices()] yields. *)
Definition char_indices (s : str) : list nat :=
  List.filter (is_char_boundary s) (seq 0 (length s)).

(** [c.is_ascii_alphabetic()]. *)
Definition is_ascii_alphabetic (c : ascii) : bool :=
  let n := N_of_ascii c in
  ((65 <=? n) && (n <=? 90) || (97 <=? n) && (n <=? 122))%N.

(** ** Lemmas *)

Lemma contains_spec c s : contains c s = true <-> c ∈ s.
Proof.
  unfold contains. rewrite existsb_exists, list_elem_of_In.
  split; [intros (x & Hin & ->%Ascii.eqb_eq); done | intros Hin].
  exists c. by rewrite Ascii.eqb_refl.
Qed.

Lemma contains_false c s : contains c s = false <-> c ∉ s.
Proof. rewrite <- contains_spec, not_true_iff_false. done. Qed.

Lemma strip_prefix_Some p s r : strip_prefix p s = Some r <-> s = p ++ r.
Proof.
  revert s. induction p as [|x p IH]; intros s; cbn.
  - naive_solver.
  - destruct s as [|y s]; [naive_solver|].
    destruct (Ascii.eqb_spec x y) as [->|]; rewrite ?IH; naive_solver.
Qed.

Lemma starts_with_spec p s : starts_with p s = true <-> p `prefix_of` s.
Proof.
  unfold starts_with, prefix. destruct (strip_prefix p s) eqn:E.
  - apply strip_prefix_Some in E. naive_solver.
  - split; [done|]. intros [r ->].
    rewrite (proj2 (strip_prefix_Some p (p ++ r) r) eq_refl) in E. done.
Qed.

Lemma split_not_nil c s : split c s <> [].
Proof. destruct s as [|x s]; cbn; [done|]. by destruct (Ascii.eqb x c), (split c s). Qed.

Lemma join_cons c x l : l <> [] -> join c (x :: l) = x ++ c :: join c l.
Proof. by destruct l. Qed.

(** Splitting and joining are inverse. *)
Lemma join_split c s : join c (split c s) = s.
Proof.
  induction s as [|x s IH]; [done|]. cbn [split].
  destruct (Ascii.eqb_spec x c) as [->|Hne].
  - rewrite join_cons by apply split_not_nil. by rewrite IH.
  - pose proof (split_not_nil c s) as Hn.
    destruct (split c s) as [|h [|h' t]] eqn:E; [done| |]; cbn in *; by subst.
Qed.

Lemma split_no_sep c s : Forall (fun seg => c ∉ seg) (split c s).
Proof.
  induction s as [|x s IH]; cbn.
  - constructor; [apply not_elem_of_nil | done].
  - destruct (Ascii.eqb_spec x c) as [->|Hne].
    + constructor; [apply not_elem_of_nil | done].
    + destruct (split c s) as [|h t].
      * constructor; [|done]. rewrite list_elem_of_singleton. naive_solver.
      * inversion IH; subst. constructor; [|done]. rewrite elem_of_cons. naive_solver.
Qed.

Lemma split_app_sep c a b : c ∉ a -> split c (a ++ c :: b) = a :: split c b.
Proof.
  induction a as [|x a IH]; intros Hn; cbn.
  - by rewrite Ascii.eqb_refl.
  - rewrite not_elem_of_cons in Hn. destruct Hn as [Hx Ha].
    destruct (Ascii.eqb_spec x c); [congruence|]. by rewrite IH.
Qed.

Lemma split_single c a : c ∉ a -> split c a = [a].
Proof.
  induction a as [|x a IH]; intros Hn; [done|]. cbn.
  rewrite not_elem_of_cons in Hn. destruct Hn as [Hx Ha].
  destruct (Ascii.eqb_spec x c); [congruence|]. by rewrite IH.
Qed.

Lemma split_join c l : l <> [] -> Forall (fun seg => c ∉ seg) l -> split c (join c l) = l.
Proof.
  induction l as [|x [|y l] IH]; intros Hl HF; [done| |].
  - inversion HF; subst. by apply split_single.
  - inversion HF; subst. rewrite join_cons by done.
    rewrite split_app_sep by done. by rewrite IH.
Qed.

Lemma rfind_None c s : rfind c s = None <-> c ∉ s.
Proof.
  induction s as [|x s IH]; cbn; [set_solver|].
  rewrite not_elem_of_cons. destruct (rfind c s) as [i|].
  - naive_solver.
  - destruct (Ascii.eqb_spec x c) as [->|]; naive_solver.
Qed.

Lemma rfind_app c a b : c ∉ b -> rfind c (a ++ c :: b) = Some (length a).
Proof.
  intros Hb%rfind_None. induction a as [|x a IH]; cbn.
  - by rewrite Hb, Ascii.eqb_refl.
  - by rewrite IH.
Qed.

Lemma rfind_Some c s i :
  rfind c s = Some i -> s = take i s ++ c :: drop (S i) s /\ c ∉ drop (S i) s.
Proof.
  revert i. induction s as [|x s IH]; intros i; cbn; [done|].
  destruct (rfind c s) as [j|] eqn:E.
  - intros [= <-]. destruct (IH j eq_refl) as [Heq Hn]. cbn. by rewrite <- Heq.
  - destruct (Ascii.eqb_spec x c) as [->|]; [|done]. intros [= <-].
    cbn. rewrite drop_0. split; [done|]. by apply rfind_None.
Qed.

Lemma rsplit_once_Some c s a b :
  rsplit_once c s = Some (a, b) <-> s = a ++ c :: b /\ c ∉ b.
Proof.
  unfold rsplit_once. split.
  - destruct (rfind c s) eqn:E; [|done]. intros [= <- <-]. by apply rfind_Some.
  - intros [-> Hb]. rewrite rfind_app by done.
    rewrite take_app_length. replace (S (length a)) with (length a + 1) by lia.
    rewrite drop_app_add'; [done|done].
Qed.

Lemma rsplit_once_None c s : rsplit_once c s = None <-> c ∉ s.
Proof.
  unfold rsplit_once. rewrite <- rfind_None. by destruct (rfind c s).
Qed.

(** UTF-8 validation as [core::str::from_utf8] performs it, and the lossy
    decoding of [OsStr::to_string_lossy]. *)

Abbreviation bytes := (list ascii).

(** A byte as a number. *)
Definition code (c : ascii) : N := N_of_ascii c.

Definition in_range (lo hi : N) (c : ascii) : bool := ((lo <=? code c) && (code c <=? hi))%N.

(** [Utf8Error]: how much of the input is valid, and the length of the invalid
    sequence after it ([None] when the input ends inside a character). *)
Record Utf8Error := { valid_up_to : nat; error_len : option nat }.

(** The length of the character a lead byte announces. *)
Definition utf8_char_width (c : ascii) : nat :=
  if in_range 0 127 c then 1
  else if in_range 194 223 c then 2
  else if in_range 224 239 c then 3
  else if in_range 240 244 c then 4
  else 0.

(** The second bytes a three- or four-byte lead byte admits. *)
Definition second_byte_ok (first next : ascii) : bool :=
  if (code first =? 224)%N then in_range 160 191 next
  else if (code first =? 237)%N then in_range 128 159 next
  else if (code first =? 240)%N then in_range 144 191 next
  else if (code first =? 244)%N then in_range 128 143 next
  else in_range 128 191 next.

(** [run_utf8_validation] from offset [pos] on. *)
Fixpoint run_utf8_validation (pos : nat) (s : bytes) : option Utf8Error :=
  let bad n := Some {| valid_up_to := pos; error_len := Some n |} in
  let short := Some {| valid_up_to := pos; error_len := None |} in
  match s with
  | [] => None
  | a :: s1 =>
      match utf8_char_width a with
      | 1 => run_utf8_validation (pos + 1) s1
      | 2 => match s1 with
             | [] => short
             | b :: s2 =>
                 if is_continuation b then run_utf8_validation (pos + 2) s2 else bad 1
             end
      | 3 => match s1 with
             | [] => short
             | b :: s2 =>
                 if second_byte_ok a b then
                   match s2 with
                   | [] => short
                   | c :: s3 =>
                       if is_continuation c then run_utf8_validation (pos + 3) s3 else bad 2
                   end
                 else bad 1
             end
      | 4 => match s1 with
             | [] => short
             | b :: s2 =>
                 if second_byte_ok a b then
                   match s2 with
                   | [] => short
                   | c :: s3 =>
                       if is_continuation c then
                         match s3 with
                         | [] => short
                         | d :: s4 =>
                             if is_continuation d then run_utf8_validation (pos + 4) s4
                             else bad 3
                         end
                       else bad 2
                   end
                 else bad 1
             end
      | _ => bad 1
      end
  end.

(** ** Characters

    A [char] is its code point. *)
Abbreviation char := N.

Definition low6 (c : ascii) : N := (code c mod 64)%N.

(** [s.chars()], on a valid string. *)
Fixpoint chars (s : str) : list char :=
  match s with
  | [] => []
  | a :: s1 =>
      match utf8_char_width a, s1 with
      | 2, b :: s2 => (code a mod 32 * 64 + low6 b)%N :: chars s2
      | 3, b :: c :: s3 => ((code a mod 16 * 64 + low6 b) * 64 + low6 c)%N :: chars s3
      | 4, b :: c :: d :: s4 =>
          (((code a mod 8 * 64 + low6 b) * 64 + low6 c) * 64 + low6 d)%N :: chars s4
      | _, _ => code a :: chars s1
      end
  end.

(** [String::from_utf8]. *)
Definition from_utf8 (s : bytes) : result str Utf8Error :=
  match run_utf8_validation 0 s with None => Ok s | Some e => Err e end.

(** [OsStr::to_str]. *)
Definition to_str (s : bytes) : option str := rok (from_utf8 s).

(** U+FFFD, the replacement character. *)
Definition replacement : str := List.map ascii_of_N [239; 191; 189]%N.

Fixpoint lossy_aux (fuel : nat) (s : bytes) : str :=
  match fuel with
  | 0 => []
  | S fuel' =>
      match run_utf8_validation 0 s with
      | None => s
      | Some e =>
          take (valid_up_to e) s ++ replacement ++
          match error_len e with
          | None => []
          | Some n => lossy_aux fuel' (drop (valid_up_to e + n) s)
          end
      end
  end.

(** [OsStr::to_string_lossy]. *)
Definition to_string_lossy (s : bytes) : str := lossy_aux (S (length s)) s.

(** A valid string is its own lossy decoding. *)
Lemma to_string_lossy_valid s n : to_str s = Some n -> to_string_lossy s = s /\ n = s.
Proof.
  unfold to_str, from_utf8, to_string_lossy. cbn.
  destruct (run_utf8_validation 0 s); cbn; [done|]. by intros [= <-].
Qed.

Lemma to_str_Some s n : to_str s = Some n -> n = s.
Proof. intros H. by destruct (to_string_lossy_valid _ _ H). Qed.
