(* ===== verification/BTreeMap.v ===== *)
(** [BTreeMap<String, V>], the ordered map behind overlay mounts.

    A map is the list of its entries in increasing byte order of their keys,
    which is the order [iter] and [range] yield them in. *)
From Stdlib Require Import Sorted.
From S2P Require Import Prelude Str.

Abbreviation btree V := (list (str * V)).

Section BTree.
Context {V : Type}.
Implicit Types (m : btree V) (k j : str) (v : V).

(** [map.get(k)]. *)
Fixpoint bget m k : option V :=
  match m with
  | [] => None
  | (j, v) :: m' => if bool_decide (j = k) then Some v else bget m' k
  end.

(** [map.insert(k, v)]. *)
Fixpoint binsert m k v : btree V :=
  match m with
  | [] => [(k, v)]
  | (j, w) :: m' =>
      if bool_decide (j = k) then (k, v) :: m'
      else if str_ltb k j then (k, v) :: m
      else (j, w) :: binsert m' k v
  end.

(** [map.remove(k)], without the value it returns. *)
Fixpoint bremove m k : btree V :=
  match m with
  | [] => []
  | (j, w) :: m' => if bool_decide (j = k) then bremove m' k else (j, w) :: bremove m' k
  end.

(** [map.range(lo..hi)]: [lo] included, [hi] excluded. *)
Definition brange (lo hi : str) m : btree V :=
  List.filter (fun e => negb (str_ltb e.1 lo) && str_ltb e.1 hi) m.

(** Keys increase strictly. *)
Definition bsorted m : Prop := StronglySorted (fun a b => str_ltb a.1 b.1 = true) m.
End BTree.

(** ** The key order is a strict total order *)

Lemma ascii_ltb_spec x y : Ascii.ltb x y = true <-> (N_of_ascii x < N_of_ascii y)%N.
Proof. unfold Ascii.ltb, Ascii.compare, N.lt. by destruct (_ ?= _)%N. Qed.

Lemma ascii_ltb_false x y : Ascii.ltb x y = false <-> (N_of_ascii y <= N_of_ascii x)%N.
Proof. rewrite <- not_true_iff_false, ascii_ltb_spec. lia. Qed.

Lemma ascii_N_inj x y : N_of_ascii x = N_of_ascii y -> x = y.
Proof. intros H. by rewrite <- (ascii_N_embedding x), <- (ascii_N_embedding y), H. Qed.

Lemma str_ltb_irrefl a : str_ltb a a = false.
Proof. induction a as [|x a IH]; [done|]. cbn. by rewrite Ascii.eqb_refl. Qed.

Lemma str_ltb_trans a b c : str_ltb a b = true -> str_ltb b c = true -> str_ltb a c = true.
Proof.
  revert b c. induction a as [|x a IH]; intros [|y b] [|z c]; cbn; try done.
  destruct (Ascii.eqb_spec x y) as [->|Hxy], (Ascii.eqb_spec y z) as [->|Hyz].
  - apply IH.
  - by destruct (Ascii.eqb_spec y z).
  - intros. by destruct (Ascii.eqb_spec x z).
  - rewrite !ascii_ltb_spec. intros H1 H2.
    destruct (Ascii.eqb_spec x z) as [->|]; [lia|]. apply ascii_ltb_spec. lia.
Qed.

Lemma str_ltb_total a b : str_ltb a b = false -> str_ltb b a = false -> a = b.
Proof.
  revert b. induction a as [|x a IH]; intros [|y b]; cbn; try done.
  destruct (Ascii.eqb_spec x y) as [->|Hxy].
  - rewrite Ascii.eqb_refl. intros. f_equal. by apply IH.
  - destruct (Ascii.eqb_spec y x) as [->|]; [done|]. rewrite !ascii_ltb_false.
    intros. destruct Hxy. apply ascii_N_inj. lia.
Qed.

Lemma str_ltb_app q a b : str_ltb (q ++ a) (q ++ b) = str_ltb a b.
Proof. induction q as [|x q IH]; [done|]. cbn. by rewrite Ascii.eqb_refl. Qed.

(** The successor trick of [OverlayState::prefix_iter]: the keys from [q ++ "/"]
    up to [q ++ "0"] are the keys with prefix [q ++ "/"]. *)
Lemma slash_range q k :
  negb (str_ltb k (q ++ lit "/")) && str_ltb k (q ++ lit "0") = starts_with (q ++ lit "/") k.
Proof.
  revert k. induction q as [|x q IH]; intros [|y k].
  - done.
  - cbn [app]. unfold starts_with. cbn -[Ascii.eqb Ascii.ltb].
    destruct (Ascii.eqb_spec y "/") as [->|Hy]; [by destruct k; vm_compute|].
    destruct (Ascii.eqb_spec "/" y) as [E|_]; [congruence|].
    destruct (Ascii.eqb_spec y "0") as [->|H0]; [by destruct k; vm_compute|].
    destruct (Ascii.ltb y "/") eqn:E1; [done|]. cbn.
    apply not_true_iff_false. rewrite ascii_ltb_spec.
    rewrite ascii_ltb_false in E1. cbn in *. intros E2.
    apply Hy. apply ascii_N_inj. cbn. lia.
  - done.
  - specialize (IH k). revert IH. unfold starts_with. cbn -[Ascii.eqb Ascii.ltb].
    destruct (Ascii.eqb_spec y x) as [->|Hne].
    + by rewrite Ascii.eqb_refl.
    + destruct (Ascii.eqb_spec x y) as [E|_]; [congruence|]. by destruct (Ascii.ltb y x).
Qed.

(** ** Lookups *)

Section BTreeFacts.
Context {V : Type}.
Implicit Types (m : btree V) (k j : str) (v : V).

Lemma bget_insert_eq m k v : bget (binsert m k v) k = Some v.
Proof.
  induction m as [|[j w] m IH]; cbn; [by rewrite bool_decide_true|].
  case_bool_decide as E; cbn; [by rewrite bool_decide_true|].
  destruct (str_ltb k j); cbn; [by rewrite bool_decide_true|].
  by rewrite bool_decide_false.
Qed.

Lemma bget_insert_ne m k j v : k <> j -> bget (binsert m k v) j = bget m j.
Proof.
  intros Hne. induction m as [|[i w] m IH]; cbn; [by rewrite bool_decide_false|].
  case_bool_decide as E; cbn.
  - subst. by rewrite bool_decide_false.
  - destruct (str_ltb k i); cbn; [by rewrite bool_decide_false|]. by rewrite IH.
Qed.

Lemma bget_insert m k j v :
  bget (binsert m k v) j = if bool_decide (k = j) then Some v else bget m j.
Proof.
  case_bool_decide; [subst; apply bget_insert_eq | by apply bget_insert_ne].
Qed.

Lemma bget_remove m k j :
  bget (bremove m k) j = if bool_decide (k = j) then None else bget m j.
Proof.
  induction m as [|[i w] m IH]; cbn; [by case_bool_decide|].
  repeat case_bool_decide; subst; cbn; rewrite ?IH; try done;
    repeat case_bool_decide; congruence.
Qed.

Lemma bget_elem_of m k v : bget m k = Some v -> (k, v) ∈ m.
Proof.
  induction m as [|[j w] m IH]; cbn; [done|].
  case_bool_decide as E; [intros [= <-]; subst; left | right; auto].
Qed.

Lemma elem_of_bget m k v : bsorted m -> (k, v) ∈ m -> bget m k = Some v.
Proof.
  induction 1 as [|[j w] m Hs IH HF]; [by rewrite elem_of_nil|].
  rewrite elem_of_cons. intros [[= -> ->]|Hin]; cbn; [by rewrite bool_decide_true|].
  case_bool_decide as E; [|auto]. subst j.
  rewrite Forall_forall in HF. specialize (HF _ Hin). cbn in HF.
  by rewrite str_ltb_irrefl in HF.
Qed.

Lemma elem_of_binsert m k v e :
  e ∈ binsert m k v -> e = (k, v) \/ e ∈ m.
Proof.
  induction m as [|[j w] m IH]; cbn; [set_solver|].
  case_bool_decide; [set_solver|]. destruct (str_ltb k j); set_solver.
Qed.

Lemma elem_of_bremove m k e : e ∈ bremove m k <-> e ∈ m /\ e.1 <> k.
Proof.
  induction m as [|[j w] m IH]; cbn; [set_solver|].
  case_bool_decide as E; rewrite ?elem_of_cons, IH; [subst|]; split; intros Hx.
  - naive_solver.
  - destruct Hx as [[->|?] ?]; naive_solver.
  - destruct Hx as [->|?]; naive_solver.
  - naive_solver.
Qed.

Lemma bsorted_insert m k v : bsorted m -> bsorted (binsert m k v).
Proof.
  unfold bsorted. induction 1 as [|[j w] m Hs IH HF]; cbn; [by repeat constructor|].
  case_bool_decide as E; [subst; by constructor|].
  destruct (str_ltb k j) eqn:Hlt.
  - constructor; [by constructor|]. constructor; [done|].
    eapply Forall_impl; [exact HF|]. intros e He. cbn in *. eapply str_ltb_trans; eauto.
  - constructor; [done|]. apply Forall_forall. intros e [->|He]%elem_of_binsert; cbn.
    + destruct (str_ltb j k) eqn:Hjk; [done|]. destruct E. by apply str_ltb_total.
    + rewrite Forall_forall in HF. by apply HF.
Qed.

Lemma bsorted_remove m k : bsorted m -> bsorted (bremove m k).
Proof.
  unfold bsorted. induction 1 as [|[j w] m Hs IH HF]; cbn; [constructor|].
  case_bool_decide; [done|]. constructor; [done|].
  apply Forall_forall. intros e [He _]%elem_of_bremove.
  rewrite Forall_forall in HF. by apply HF.
Qed.

Lemma bsorted_filter (P : str * V -> bool) m : bsorted m -> bsorted (List.filter P m).
Proof.
  unfold bsorted. induction 1 as [|e m Hs IH HF]; cbn; [constructor|].
  destruct (P e); [|done]. constructor; [done|].
  rewrite Forall_forall in *. intros x Hx. apply HF.
  rewrite list_elem_of_In in *. by apply List.filter_In in Hx as [? _].
Qed.

(** A map is determined by its lookups. *)
Lemma bsorted_ext m1 m2 :
  bsorted m1 -> bsorted m2 -> (forall k, bget m1 k = bget m2 k) -> m1 = m2.
Proof.
  intros Hs1. revert m2. induction Hs1 as [|[k1 v1] m1 Hs1 IH HF1]; intros m2 Hs2 Heq.
  - destruct m2 as [|[k v] m2]; [done|]. specialize (Heq k). cbn in Heq.
    by rewrite bool_decide_true in Heq.
  - destruct m2 as [|[k2 v2] m2].
    { specialize (Heq k1). cbn in Heq. by rewrite bool_decide_true in Heq. }
    inversion Hs2 as [|? ? Hs2' HF2]; subst.
    assert (Hlt : forall (m : btree V) k, Forall (fun e => str_ltb k e.1 = true) m -> bget m k = None).
    { intros m k HF. induction HF as [|[j v] m Hk HF IHm]; cbn; [done|].
      rewrite bool_decide_false; [done|]. intros ->. by rewrite str_ltb_irrefl in Hk. }
    assert (k1 = k2) as ->.
    { destruct (decide (k1 = k2)) as [|Hne]; [done|].
      pose proof (Heq k1) as H1. pose proof (Heq k2) as H2. cbn in H1, H2.
      rewrite bool_decide_true in H1 by done. rewrite (bool_decide_false (k2 = k1)) in H1 by congruence.
      rewrite (bool_decide_true (k2 = k2)) in H2 by done. rewrite bool_decide_false in H2 by done.
      apply str_ltb_total; apply not_true_iff_false; intros Hl.
      - rewrite Hlt in H1; [done|]. eapply Forall_impl; [exact HF2|].
        intros e He. cbn in *. by eapply str_ltb_trans.
      - rewrite Hlt in H2; [done|]. eapply Forall_impl; [exact HF1|].
        intros e He. cbn in *. by eapply str_ltb_trans. }
    f_equal.
    + specialize (Heq k2). cbn in Heq. rewrite !bool_decide_true in Heq by done. congruence.
    + apply IH; [done|]. intros k. pose proof (Heq k) as Hk. cbn in Hk.
      case_bool_decide as E; [|done]. subst. by rewrite !Hlt.
Qed.

Lemma bsorted_NoDup m : bsorted m -> NoDup (List.map fst m).
Proof.
  induction 1 as [|[k v] m Hs IH HF]; cbn; [constructor|]. constructor; [|done].
  rewrite list_elem_of_In, in_map_iff. intros ([j w] & <- & Hin). cbn in *.
  rewrite Forall_forall in HF. specialize (HF (j, w)). cbn in HF.
  rewrite list_elem_of_In in HF. by rewrite str_ltb_irrefl in HF; specialize (HF Hin).
Qed.

(** ** Totals over the entries *)

Fixpoint btotal (w : str -> V -> Z) m : Z :=
  match m with
  | [] => 0
  | (k, v) :: m' => w k v + btotal w m'
  end%Z.

(** What the entry at [k], if any, weighs. *)
Definition bweight (w : str -> V -> Z) m k : Z :=
  match bget m k with Some v => w k v | None => 0%Z end.

Lemma bget_lt m k : Forall (fun e => str_ltb k e.1 = true) m -> bget m k = None.
Proof.
  induction 1 as [|[j v] m Hk HF IH]; cbn; [done|].
  rewrite bool_decide_false; [done|]. intros ->. by rewrite str_ltb_irrefl in Hk.
Qed.

Lemma btotal_insert w m k v :
  bsorted m -> btotal w (binsert m k v) = (btotal w m - bweight w m k + w k v)%Z.
Proof.
  unfold bweight. induction 1 as [|[j u] m Hs IH HF]; cbn; [lia|].
  case_bool_decide as E; cbn; [subst; lia|].
  destruct (str_ltb k j) eqn:Hlt; cbn; [|lia].
  rewrite bget_lt; [lia|].
  eapply Forall_impl; [exact HF|]. intros e He. cbn in *. eapply str_ltb_trans; eauto.
Qed.

Lemma btotal_remove w m k :
  bsorted m -> btotal w (bremove m k) = (btotal w m - bweight w m k)%Z.
Proof.
  unfold bweight. induction 1 as [|[j u] m Hs IH HF]; cbn; [lia|].
  case_bool_decide as E; cbn; [subst|lia].
  rewrite IH, bget_lt by done. lia.
Qed.

Lemma btotal_nonneg w m : (forall k v, 0 <= w k v)%Z -> (0 <= btotal w m)%Z.
Proof. intros Hw. induction m as [|[k v] m IH]; cbn; [lia|]. specialize (Hw k v). lia. Qed.

Lemma bweight_le w m k : (forall k v, 0 <= w k v)%Z -> (bweight w m k <= btotal w m)%Z.
Proof.
  intros Hw. unfold bweight. induction m as [|[j v] m IH]; cbn; [lia|].
  pose proof (btotal_nonneg w m Hw). pose proof (Hw j v).
  case_bool_decide as E; [subst; lia|]. destruct (bget m k); lia.
Qed.

Lemma bweight_nonneg w m k : (forall k v, 0 <= w k v)%Z -> (0 <= bweight w m k)%Z.
Proof. intros Hw. unfold bweight. destruct (bget m k); [apply Hw | lia]. Qed.
End BTreeFacts.

#[export] Hint Resolve bsorted_insert bsorted_remove bsorted_filter : monty.
