(* ===== verification/FileMode.v ===== *)
(** Parsed [open()] modes ([crates/monty-types/src/file_mode.rs]). *)
From S2P Require Import Prelude Str.
Local Open Scope monty_scope.

(** The payload is [true] for binary. *)
Inductive FileMode :=
| Read (binary : bool)
| ReadUpdate (binary : bool)
| Write (binary : bool)
| WriteUpdate (binary : bool)
| Append (binary : bool)
| AppendUpdate (binary : bool).

#[export] Instance FileMode_eq_dec : EqDecision FileMode.
Proof. solve_decision. Defined.

Definition as_str (m : FileMode) : str :=
  lit match m with
      | Read false => "r"
      | Read true => "rb"
      | ReadUpdate false => "r+"
      | ReadUpdate true => "rb+"
      | Write false => "w"
      | Write true => "wb"
      | WriteUpdate false => "w+"
      | WriteUpdate true => "wb+"
      | Append false => "a"
      | Append true => "ab"
      | AppendUpdate false => "a+"
      | AppendUpdate true => "ab+"
      end.

Definition is_binary (m : FileMode) : bool :=
  match m with
  | Read b | ReadUpdate b | Write b | WriteUpdate b | Append b | AppendUpdate b => b
  end.

Definition readable (m : FileMode) : bool :=
  match m with
  | Read _ | ReadUpdate _ | WriteUpdate _ | AppendUpdate _ => true
  | _ => false
  end.

Definition writable (m : FileMode) : bool :=
  match m with
  | Write _ | WriteUpdate _ | Append _ | AppendUpdate _ | ReadUpdate _ => true
  | _ => false
  end.

Definition is_append (m : FileMode) : bool :=
  match m with Append _ | AppendUpdate _ => true | _ => false end.

Definition truncate (m : FileMode) : bool :=
  match m with Write _ | WriteUpdate _ => true | _ => false end.

Definition create (m : FileMode) : bool :=
  match m with
  | Write _ | WriteUpdate _ | Append _ | AppendUpdate _ => true
  | _ => false
  end.

Definition type_name (m : FileMode) : str :=
  if negb (is_binary m) then lit "TextIOWrapper"
  else match m with
       | ReadUpdate _ | WriteUpdate _ | AppendUpdate _ => lit "BufferedRandom"
       | Read _ => lit "BufferedReader"
       | Write _ | Append _ => lit "BufferedWriter"
       end.

Definition file_type_name (m : FileMode) : str :=
  if negb (is_binary m) then lit "_io.TextIOWrapper"
  else match m with
       | ReadUpdate _ | WriteUpdate _ | AppendUpdate _ => lit "_io.BufferedRandom"
       | Read _ => lit "_io.BufferedReader"
       | Write _ | Append _ => lit "_io.BufferedWriter"
       end.

(** The messages of [from_str]'s error. [InvalidModeChar] is the one that
    quotes the offending character, given here by its first byte. *)
Inductive ModeError :=
| DuplicateAction
| ExclusiveUnsupported
| BinaryTwice
| TextTwice
| UpdateUnsupported
| InvalidModeChar (c : ascii)
| TextAndBinary
| MissingAction.

#[export] Instance ModeError_eq_dec : EqDecision ModeError.
Proof. solve_decision. Defined.

(** The variables of the parsing loop. *)
Record ModeState := { action : option ascii; binary : bool; text : bool }.

(** One iteration of the loop over the characters. *)
Definition mode_char (st : ModeState) (ch : ascii) : result ModeState ModeError :=
  if contains ch (lit "rwa") then
    match action st with
    | Some _ => Err DuplicateAction
    | None => Ok {| action := Some ch; binary := binary st; text := text st |}
    end
  else if Ascii.eqb ch "x" then Err ExclusiveUnsupported
  else if Ascii.eqb ch "b" then
    if binary st then Err BinaryTwice
    else Ok {| action := action st; binary := true; text := text st |}
  else if Ascii.eqb ch "t" then
    if text st then Err TextTwice
    else Ok {| action := action st; binary := binary st; text := true |}
  else if Ascii.eqb ch "+" then Err UpdateUnsupported
  else Err (InvalidModeChar ch).

Fixpoint mode_loop (st : ModeState) (mode : str) : result ModeState ModeError :=
  match mode with
  | [] => Ok st
  | ch :: rest => let? st' := mode_char st ch in mode_loop st' rest
  end.

Definition from_str (mode : str) : result FileMode ModeError :=
  let? st := mode_loop {| action := None; binary := false; text := false |} mode in
  if binary st && text st then Err TextAndBinary
  else
    match action st with
    | None => Err MissingAction
    | Some a =>
        Ok (if Ascii.eqb a "w" then Write (binary st)
            else if Ascii.eqb a "a" then Append (binary st)
            else Read (binary st))
    end.

(** ** Properties *)

(** How often a character occurs in a mode string. *)
Definition occurrences (c : ascii) (s : str) : nat := count_occ Ascii.ascii_dec s c.

(** The accepted mode strings: characters among [rwabt], exactly one of
    [r], [w] and [a], at most one [b] and one [t], and not both. *)
Definition valid_mode (mode : str) : Prop :=
  Forall (fun c => contains c (lit "rwabt") = true) mode
  /\ occurrences "r" mode + occurrences "w" mode + occurrences "a" mode = 1
  /\ occurrences "b" mode + occurrences "t" mode <= 1.

(** What the loop has seen. *)
Definition loop_inv (seen : str) (st : ModeState) : Prop :=
  Forall (fun c => contains c (lit "rwabt") = true) seen
  /\ occurrences "r" seen + occurrences "w" seen + occurrences "a" seen
     = (if action st then 1 else 0)
  /\ (forall a, action st = Some a -> contains a (lit "rwa") = true /\ occurrences a seen = 1)
  /\ occurrences "b" seen = (if binary st then 1 else 0)
  /\ occurrences "t" seen = (if text st then 1 else 0).

Lemma occurrences_snoc c s x :
  occurrences c (s ++ [x]) = occurrences c s + (if Ascii.eqb x c then 1 else 0).
Proof.
  unfold occurrences. rewrite count_occ_app. cbn.
  destruct (Ascii.ascii_dec x c), (Ascii.eqb_spec x c); congruence.
Qed.

Lemma occurrences_app c s t : occurrences c (s ++ t) = occurrences c s + occurrences c t.
Proof. apply count_occ_app. Qed.

Lemma occurrences_pos c s x t : Ascii.eqb x c = true -> 1 <= occurrences c (s ++ x :: t).
Proof.
  intros ->%Ascii.eqb_eq. rewrite occurrences_app. unfold occurrences at 2. cbn.
  destruct (Ascii.ascii_dec c c); [lia | done].
Qed.

(** Case analysis on which of the recognized characters a character is. *)
Ltac mode_char_cases ch :=
  destruct (Ascii.eqb_spec ch "r") as [->|?]; [|
  destruct (Ascii.eqb_spec ch "w") as [->|?]; [|
  destruct (Ascii.eqb_spec ch "a") as [->|?]; [|
  destruct (Ascii.eqb_spec ch "x") as [->|?]; [|
  destruct (Ascii.eqb_spec ch "b") as [->|?]; [|
  destruct (Ascii.eqb_spec ch "t") as [->|?]; [|
  destruct (Ascii.eqb_spec ch "+") as [->|?]; [|]]]]]]].

Lemma contains_rwabt ch :
  contains ch (lit "rwabt") = true <->
  ch = "r"%char \/ ch = "w"%char \/ ch = "a"%char \/ ch = "b"%char \/ ch = "t"%char.
Proof. rewrite contains_spec. cbn. set_solver. Qed.

Lemma contains_rwa ch :
  contains ch (lit "rwa") = true <-> ch = "r"%char \/ ch = "w"%char \/ ch = "a"%char.
Proof. rewrite contains_spec. cbn. set_solver. Qed.

Lemma contains_rwa_other ch :
  ch <> "r"%char -> ch <> "w"%char -> ch <> "a"%char -> contains ch (lit "rwa") = false.
Proof. intros. apply not_true_iff_false. rewrite contains_rwa. naive_solver. Qed.

Lemma mode_char_other st ch :
  ch <> "r"%char -> ch <> "w"%char -> ch <> "a"%char -> ch <> "x"%char -> ch <> "b"%char ->
  ch <> "t"%char -> ch <> "+"%char -> mode_char st ch = Err (InvalidModeChar ch).
Proof.
  intros. unfold mode_char. rewrite contains_rwa_other by done.
  by repeat match goal with |- context [Ascii.eqb ch ?c] => destruct (Ascii.eqb_spec ch c) end.
Qed.

Lemma mode_char_ok seen st ch st' :
  loop_inv seen st -> mode_char st ch = Ok st' -> loop_inv (seen ++ [ch]) st'.
Proof.
  intros (Hall & Hsum & Hact & Hb & Ht) Hok. destruct st as [act bin tx].
  mode_char_cases ch; try (rewrite mode_char_other in Hok by done; done);
    cbn in *; unfold mode_char in Hok; cbn in Hok; try discriminate;
    repeat case_match; simplify_eq; unfold loop_inv; rewrite !occurrences_snoc; cbn in *;
    (split; [apply Forall_app_2; [done | by constructor]|]);
    (repeat split; try lia; try done);
    intros; simplify_eq; rewrite ?occurrences_snoc; cbn; try (lia || done).
  all: destruct (Hact _ eq_refl) as [Hc Ho]; apply contains_rwa in Hc;
    destruct Hc as [->|[->| ->]]; cbn; (lia || done).
Qed.

Lemma mode_char_err seen st ch e rest :
  loop_inv seen st -> mode_char st ch = Err e -> ~ valid_mode (seen ++ ch :: rest).
Proof.
  intros (Hall & Hsum & Hact & Hb & Ht) Herr (Vall & Vact & Vbt). destruct st as [act bin tx].
  assert (Hch : contains ch (lit "rwabt") = true).
  { rewrite Forall_app in Vall. destruct Vall as [_ Vall]. by inversion Vall. }
  rewrite (occurrences_app "r"), (occurrences_app "w"), (occurrences_app "a") in Vact.
  rewrite (occurrences_app "b"), (occurrences_app "t") in Vbt.
  assert (Hself : 1 <= occurrences ch (ch :: rest)) by (apply (occurrences_pos ch []), Ascii.eqb_refl).
  apply contains_rwabt in Hch.
  destruct Hch as [->|[->|[->|[->| ->]]]]; unfold mode_char in Herr; cbn in Herr;
    repeat case_match; simplify_eq; cbn in Hsum, Hb, Ht; lia.
Qed.

Lemma mode_loop_spec seen st mode :
  loop_inv seen st ->
  match mode_loop st mode with
  | Ok st' => loop_inv (seen ++ mode) st'
  | Err _ => ~ valid_mode (seen ++ mode)
  end.
Proof.
  revert seen st. induction mode as [|ch mode IH]; intros seen st Hinv; cbn.
  - by rewrite app_nil_r.
  - destruct (mode_char st ch) as [st'|e] eqn:E; cbn.
    + specialize (IH (seen ++ [ch]) st' (mode_char_ok _ _ _ _ Hinv E)).
      by rewrite <- app_assoc in IH.
    + by eapply mode_char_err.
Qed.

Lemma loop_inv_init : loop_inv [] {| action := None; binary := false; text := false |}.
Proof. unfold loop_inv. cbn. by repeat split. Qed.

(** [FileMode::from_str] accepts exactly the strings made of [r], [w], [a],
    [b] and [t] with one action and at most one of [b] and [t], and the mode it
    gives has that action and is binary exactly when [b] occurs. *)
Theorem from_str_accepts mode :
  match from_str mode with
  | Ok m => valid_mode mode
            /\ m = (if 0 <? occurrences "w" mode then Write
                    else if 0 <? occurrences "a" mode then Append else Read)
                   (0 <? occurrences "b" mode)
  | Err _ => ~ valid_mode mode
  end.
Proof.
  unfold from_str. pose proof (mode_loop_spec [] _ mode loop_inv_init) as H.
  destruct (mode_loop _ mode) as [[act bin tx]|e]; cbn in *; [|done].
  destruct H as (Hall & Hsum & Hact & Hb & Ht); cbn in *. unfold valid_mode.
  destruct bin, tx; cbn; try lia; (destruct act as [a|]; cbn; [|lia]);
    destruct (Hact a eq_refl) as [Hc%contains_rwa Ho];
    destruct Hc as [->|[->| ->]]; cbn; (split; [repeat split; [done | lia | lia]|]);
    rewrite Hb; destruct (occurrences "w" mode), (occurrences "a" mode); (lia || done).
Qed.

(** Printing a mode and parsing it back gives the mode, for every mode
    [from_str] can produce; the reserved update modes are refused. *)
Theorem from_str_as_str m :
  from_str (as_str m)
  = match m with
    | ReadUpdate _ | WriteUpdate _ | AppendUpdate _ => Err UpdateUnsupported
    | _ => Ok m
    end.
Proof. by destruct m as [[]|[]|[]|[]|[]|[]]. Qed.
