(* ===== verification/VirtualPath.v ===== *)
(** Lexical normalization of sandbox paths
    ([crates/monty-types/src/virtual_path.rs]).

    [normalize_virtual_path] edits a byte buffer in place, and skips the work
    for paths [is_normalized] recognizes. [resolve_segments] is the reference
    definition, on the stack of the path's components; the theorems show that
    the two agree and that the result has no [.], [..] or empty component. *)
From S2P Require Import Prelude Str.
Local Open Scope monty_scope.

Definition dot : str := lit ".".
Definition dotdot : str := lit "..".

(** ** The code *)

(** The segments normalization removes: [matches!(segment, "" | "." | "..")]. *)
Definition special_segment (seg : str) : bool :=
  bool_decide (seg = []) || bool_decide (seg = dot) || bool_decide (seg = dotdot).

Definition is_normalized (path : str) : bool :=
  bool_decide (path = [slash])
  || (starts_with [slash] path
      && negb (ends_with_char slash path)
      && forallb (fun seg => negb (special_segment seg)) (drop 1 (split slash path))).

(** One iteration of the loop over the segments. *)
Definition push_segment (out seg : str) : str :=
  if bool_decide (seg = []) || bool_decide (seg = dot) then out
  else if bool_decide (seg = dotdot) then
    take (match rfind slash out with Some i => i | None => 0 end) out
  else (out ++ [slash]) ++ seg.

Definition normalize_virtual_path (path : str) : str :=
  if is_normalized path then path
  else
    let out := fold_left push_segment (split slash path) [] in
    match out with [] => [slash] | _ => out end.

(** The messages quote the path with [{:?}], which is not modelled: an error
    is the violated condition and the path. *)
Inductive CwdError :=
| CwdNul (cwd : str)
| CwdNotAbsolute (cwd : str).

Definition validate_cwd (cwd : str) : result str CwdError :=
  if contains nul cwd then Err (CwdNul cwd)
  else if negb (starts_with [slash] cwd) then Err (CwdNotAbsolute cwd)
  else
    let trimmed := trim_end_matches slash cwd in
    Ok (match trimmed with [] => [slash] | _ => trimmed end).

(** ** The reference definition *)

(** One component applied to the stack of components above it. *)
Definition step_segment (st : list str) (seg : str) : list str :=
  if bool_decide (seg = []) || bool_decide (seg = dot) then st
  else if bool_decide (seg = dotdot) then removelast st
  else st ++ [seg].

Definition resolve_segments (segs : list str) : list str := fold_left step_segment segs [].

(** The absolute path with components [st], empty for the root. *)
Definition abspath (st : list str) : str := flat_map (cons slash) st.

Definition render (st : list str) : str :=
  match st with [] => [slash] | _ => abspath st end.

(** A component normalization keeps. *)
Definition plain_segment (seg : str) : Prop := special_segment seg = false /\ slash ∉ seg.

(** ** Facts *)

Lemma special_segment_false seg :
  special_segment seg = false <-> seg <> [] /\ seg <> dot /\ seg <> dotdot.
Proof.
  unfold special_segment. rewrite !orb_false_iff, !bool_decide_eq_false. tauto.
Qed.

Lemma abspath_app a b : abspath (a ++ b) = abspath a ++ abspath b.
Proof. apply flat_map_app. Qed.

Lemma abspath_cons_join x l : abspath (x :: l) = slash :: join slash (x :: l).
Proof.
  revert x. induction l as [|y l IH]; intros x; cbn [abspath flat_map].
  - by rewrite app_nil_r.
  - rewrite join_cons by done. cbn. f_equal. f_equal. apply IH.
Qed.

Lemma split_abspath x l :
  Forall (fun seg => slash ∉ seg) (x :: l) -> split slash (abspath (x :: l)) = [] :: x :: l.
Proof.
  intros HF. rewrite abspath_cons_join.
  change (slash :: join slash (x :: l)) with ([] ++ slash :: join slash (x :: l)).
  rewrite split_app_sep by apply not_elem_of_nil. by rewrite split_join.
Qed.

Lemma removelast_Forall {A} (P : A -> Prop) l : Forall P l -> Forall P (removelast l).
Proof.
  induction 1 as [|x [|y l] Hx HF IH]; cbn; [done|constructor|]. constructor; done.
Qed.

(** The buffer edits of [push_segment] are the stack operations of
    [step_segment]. *)
Lemma push_segment_abspath st seg :
  Forall (fun s => slash ∉ s) st ->
  push_segment (abspath st) seg = abspath (step_segment st seg).
Proof.
  intros HF. unfold push_segment, step_segment.
  destruct (bool_decide (seg = []) || bool_decide (seg = dot)); [done|].
  case_bool_decide as Hdd.
  - destruct st as [|x st'] using rev_ind; [done|]. clear IHst'.
    rewrite removelast_app by done. cbn [removelast]. rewrite app_nil_r, abspath_app.
    apply Forall_app in HF as [_ HF]. inversion HF; subst.
    cbn [abspath flat_map]. rewrite app_nil_r, rfind_app by done.
    apply take_app_length.
  - rewrite abspath_app. cbn. by rewrite app_nil_r, <- app_assoc.
Qed.

Lemma step_segment_slash st seg :
  Forall (fun s => slash ∉ s) st -> slash ∉ seg ->
  Forall (fun s => slash ∉ s) (step_segment st seg).
Proof.
  intros HF Hs. unfold step_segment.
  repeat case_match; auto using removelast_Forall. by apply Forall_app_2; [|constructor].
Qed.

Lemma fold_push_abspath segs st :
  Forall (fun s => slash ∉ s) segs -> Forall (fun s => slash ∉ s) st ->
  fold_left push_segment segs (abspath st) = abspath (fold_left step_segment segs st).
Proof.
  revert st. induction segs as [|seg segs IH]; intros st Hsegs Hst; [done|].
  inversion Hsegs; subst. cbn. rewrite push_segment_abspath by done.
  apply IH; [done|]. by apply step_segment_slash.
Qed.

Lemma step_segment_plain st seg :
  Forall plain_segment st -> slash ∉ seg -> Forall plain_segment (step_segment st seg).
Proof.
  intros HF Hs. unfold step_segment.
  destruct (bool_decide (seg = []) || bool_decide (seg = dot)) eqn:E; [done|].
  destruct (bool_decide (seg = dotdot)) eqn:Hdd; [by apply removelast_Forall|].
  apply Forall_app_2; [done|]. constructor; [|done]. split; [|done].
  unfold special_segment. by rewrite E, Hdd.
Qed.

Lemma resolve_segments_plain segs :
  Forall (fun s => slash ∉ s) segs -> Forall plain_segment (resolve_segments segs).
Proof.
  unfold resolve_segments. intros Hsegs.
  assert (Hst : Forall plain_segment []) by constructor. revert Hst.
  generalize (@nil str) as st. induction Hsegs as [|seg segs Hs HF IH]; intros st Hst; [done|].
  cbn. apply IH. by apply step_segment_plain.
Qed.

Lemma fold_step_plain segs st :
  Forall (fun s => special_segment s = false) segs ->
  fold_left step_segment segs st = st ++ segs.
Proof.
  intros HF. revert st. induction HF as [|seg segs Hs HF IH]; intros st; cbn;
    [by rewrite app_nil_r|].
  rewrite IH. apply special_segment_false in Hs as (H1 & H2 & H3).
  unfold step_segment. rewrite !bool_decide_false by done. cbn. by rewrite <- app_assoc.
Qed.

Lemma is_normalized_cases path :
  is_normalized path = true ->
  path = [slash] \/
  exists q, path = slash :: q /\ Forall (fun s => special_segment s = false) (split slash q).
Proof.
  unfold is_normalized. rewrite orb_true_iff, !andb_true_iff, bool_decide_eq_true.
  intros [->|[[Hst _] Hall]]; [by left|right].
  apply starts_with_spec in Hst as [q ->]. exists q. split; [done|].
  cbn [app] in Hall. change (slash :: q) with ([] ++ slash :: q) in Hall.
  rewrite split_app_sep in Hall by apply not_elem_of_nil. cbn in Hall.
  rewrite forallb_forall in Hall. apply Forall_forall. intros s Hs.
  apply negb_true_iff, Hall. by apply list_elem_of_In.
Qed.

Lemma split_slash_cons q : split slash (slash :: q) = [] :: split slash q.
Proof. apply (split_app_sep slash [] q), not_elem_of_nil. Qed.

Lemma render_plain st : Forall plain_segment st -> is_normalized (render st) = true.
Proof.
  intros HF. destruct st as [|x l]; [done|]. unfold render, is_normalized.
  apply orb_true_iff. right. rewrite !andb_true_iff. split; [split; [done|]|].
  - destruct (exists_last (l := x :: l)) as (l' & z & E); [done|].
    rewrite E in *. apply Forall_app in HF as [_ HF].
    inversion HF as [|? ? [Hz Hsl] _]; subst.
    apply special_segment_false in Hz as (Hne & _).
    rewrite abspath_app. cbn. rewrite app_nil_r.
    destruct z as [|c z] using rev_ind; [done|]. clear IHz.
    unfold ends_with_char. rewrite app_comm_cons, app_assoc, last_snoc.
    apply negb_true_iff. apply not_elem_of_app in Hsl as [_ Hsl].
    rewrite list_elem_of_singleton in Hsl.
    destruct (Ascii.eqb_spec c slash); congruence.
  - rewrite split_abspath.
    + cbn [drop]. apply forallb_forall. intros s Hs%list_elem_of_In.
      rewrite Forall_forall in HF. apply negb_true_iff. by apply HF.
    + eapply Forall_impl; [exact HF|]. by intros ? [? ?].
Qed.

Lemma normalize_virtual_path_render path :
  normalize_virtual_path path = render (resolve_segments (split slash path)).
Proof.
  unfold normalize_virtual_path. destruct (is_normalized path) eqn:E.
  - destruct (is_normalized_cases _ E) as [->|(q & -> & HF)]; [done|].
    rewrite split_slash_cons. unfold resolve_segments. cbn [fold_left].
    change (step_segment [] []) with (@nil str). rewrite fold_step_plain by done. cbn.
    pose proof (split_not_nil slash q). destruct (split slash q) as [|x l] eqn:Hq; [done|].
    unfold render. by rewrite abspath_cons_join, <- Hq, join_split.
  - assert (Hout : fold_left push_segment (split slash path) []
                   = abspath (resolve_segments (split slash path))).
    { apply (fold_push_abspath _ []); [apply split_no_sep | constructor]. }
    rewrite Hout. by destruct (resolve_segments (split slash path)).
Qed.

Lemma normalize_virtual_path_is_normalized path :
  is_normalized (normalize_virtual_path path) = true.
Proof.
  rewrite normalize_virtual_path_render.
  apply render_plain, resolve_segments_plain, split_no_sep.
Qed.

Lemma normalize_virtual_path_fixed path :
  is_normalized path = true -> normalize_virtual_path path = path.
Proof. unfold normalize_virtual_path. by intros ->. Qed.

Lemma trim_end_matches_app c s : exists n, s = trim_end_matches c s ++ replicate n c.
Proof.
  induction s as [|x s [n IH]]; cbn; [by exists 0|].
  destruct (trim_end_matches c s) as [|y t] eqn:E.
  - destruct (Ascii.eqb_spec x c) as [->|]; [exists (S n)|exists n]; cbn in *; by rewrite <- IH.
  - exists n. cbn in *. by rewrite <- IH.
Qed.

Lemma trim_end_matches_last c s : ends_with_char c (trim_end_matches c s) = false.
Proof.
  induction s as [|x s IH]; cbn; [done|].
  destruct (trim_end_matches c s) as [|y t] eqn:E.
  - destruct (Ascii.eqb_spec x c) as [->|]; [done|]. unfold ends_with_char. cbn.
    by destruct (Ascii.eqb_spec x c).
  - exact IH.
Qed.

#[export] Hint Resolve normalize_virtual_path_is_normalized normalize_virtual_path_fixed : monty.

(** ** The properties *)

(** normalizing a path is resolving the stack of its components: the
    in-place buffer edits and the fast path that returns the input unchanged
    both give the absolute path whose components are what is left after
    dropping [.] and empty segments and popping one component per [..]. *)
Theorem normalize_refines_stack path :
  normalize_virtual_path path = render (resolve_segments (split slash path))
  /\ Forall plain_segment (resolve_segments (split slash path)).
Proof.
  split; [apply normalize_virtual_path_render|].
  apply resolve_segments_plain, split_no_sep.
Qed.

(** [is_normalized] recognizes exactly the paths normalization leaves
    unchanged, and normalizing twice is normalizing once. *)
Theorem is_normalized_iff_fixed path :
  (is_normalized path = true <-> normalize_virtual_path path = path)
  /\ normalize_virtual_path (normalize_virtual_path path) = normalize_virtual_path path.
Proof.
  split; [split; auto with monty|].
  - intros <-. auto with monty.
  - auto with monty.
Qed.
