(* ===== verification/FsTypes.v ===== *)
(** The values and errors the filesystem layer exchanges with the interpreter:
    [MontyObject] results and the [stat_result] builders and [OsFunctionCall]
    ([crates/monty-types/src/os.rs]), [MountError]
    ([crates/monty-fs/src/error.rs]), and the typed requests of the backends
    ([crates/monty-fs/src/dispatch.rs]), the owned projection of an [OsFunctionCall]. *)
From Stdlib Require Import SpecFloat.
From S2P Require Import Prelude Str FileMode VirtualPath.
Local Open Scope Z_scope.

(** ** Floats and time

    An [f64] is a binary64 value of Rocq's specification floats. *)
Abbreviation f64 := spec_float.

Definition f64_of_Z (z : Z) : f64 := binary_normalize 53 1024 z 0 false.
Definition f64_add : f64 -> f64 -> f64 := SFadd 53 1024.
Definition f64_div : f64 -> f64 -> f64 := SFdiv 53 1024.
Definition f64_zero : f64 := S754_zero false.

#[export] Instance f64_eq_dec : EqDecision f64.
Proof. solve_decision. Defined.

(** A [SystemTime], in nanoseconds from the Unix epoch. *)
Abbreviation SystemTime := Z.

(** [t.duration_since(UNIX_EPOCH).map_or(0.0, |d| d.as_secs_f64())]. *)
Definition secs_since_epoch (t : SystemTime) : f64 :=
  if t <? 0 then f64_zero
  else f64_add (f64_of_Z (t / 1000000000))
               (f64_div (f64_of_Z (t mod 1000000000)) (f64_of_Z 1000000000)).

(** ** Results returned to the sandbox *)

Record MontyFileHandle := { fh_path : str; fh_mode : FileMode; fh_position : Z }.

#[export] Instance MontyFileHandle_eq_dec : EqDecision MontyFileHandle.
Proof. solve_decision. Defined.

(** The [MontyObject]s filesystem calls produce. The source keeps the nodes in an
    arena; an object is the tree its root spans. *)
Inductive MontyObject :=
| ONone
| OBool (b : bool)
| OInt (n : Z)
| OFloat (x : f64)
| OString (s : str)
| OBytes (b : bytes)
| OPath (p : str)
| OList (items : list MontyObject)
| OTuple (items : list MontyObject)
| ODict (pairs : list (MontyObject * MontyObject))
| OFileHandle (h : MontyFileHandle)
| OStat (type_name : str) (fields : list str) (ints : list Z) (floats : list f64).

(** A list of paths, what directory listings return. *)
Definition OPathList (paths : list str) : MontyObject := OList (List.map OPath paths).

Definition STAT_RESULT_TYPE_NAME : str := lit "StatResult".
Definition STAT_RESULT_FIELDS : list str :=
  List.map lit
    ["st_mode"; "st_ino"; "st_dev"; "st_nlink"; "st_uid"; "st_gid"; "st_size"; "st_atime";
     "st_mtime"; "st_ctime"]%string.

(** The named tuple's values are the seven integers followed by the three
    floats. *)
Definition stat_result (st_mode st_ino st_dev st_nlink st_uid st_gid st_size : Z)
    (st_atime st_mtime st_ctime : f64) : MontyObject :=
  OStat STAT_RESULT_TYPE_NAME STAT_RESULT_FIELDS
        [st_mode; st_ino; st_dev; st_nlink; st_uid; st_gid; st_size]
        [st_atime; st_mtime; st_ctime].

Definition file_stat (mode size : Z) (mtime : f64) : MontyObject :=
  let mode := if mode <? 512 then Z.lor mode 32768 else mode in
  stat_result mode 0 0 1 0 0 size mtime mtime mtime.

Definition dir_stat (mode : Z) (mtime : f64) : MontyObject :=
  let mode := if mode <? 512 then Z.lor mode 16384 else mode in
  stat_result mode 0 0 2 0 0 4096 mtime mtime mtime.

Definition symlink_stat (mode : Z) (mtime : f64) : MontyObject :=
  let mode := if mode <? 512 then Z.lor mode 40960 else mode in
  stat_result mode 0 0 1 0 0 0 mtime mtime mtime.

(** ** I/O errors *)

Inductive ErrorKind :=
| NotFound | PermissionDenied | AlreadyExists | IsADirectory | NotADirectory
| DirectoryNotEmpty | InvalidFilename | InvalidInput | InvalidData | OtherKind (n : Z).

#[export] Instance ErrorKind_eq_dec : EqDecision ErrorKind.
Proof. solve_decision. Defined.

(** [std::io::Error]; an error the program constructs has no OS code. *)
Record IoError := { kind : ErrorKind; raw_os_error : option Z; display : str }.

#[export] Instance IoError_eq_dec : EqDecision IoError.
Proof. solve_decision. Defined.

Definition io_error_new (k : ErrorKind) (msg : str) : IoError :=
  {| kind := k; raw_os_error := None; display := msg |}.

(** ** Mount errors *)

(** [ExcData] as [UnicodeErrorData::decode] builds it. *)
Inductive ExcData :=
| NoExcData
| UnicodeDecode (encoding : str) (object : bytes) (start end_ : nat) (reason : str).

#[export] Instance ExcData_eq_dec : EqDecision ExcData.
Proof. solve_decision. Defined.

Definition MAX_OBJECT_LEN : Z := 64 * 1024.

Definition decode_error_data (encoding : str) (object : bytes) (start end_ : nat)
    (reason : str) : ExcData :=
  if zlen object <=? MAX_OBJECT_LEN then UnicodeDecode encoding object start end_ reason
  else NoExcData.

Inductive MountError :=
| NoMountPoint (path : str)
| PathEscape (virtual_path : str)
| EmbeddedNullByte (message : str)
| ReadOnlyError (path : str)
| CrossMountRename (src dst : str)
| InvalidArgument (message : str)
| Io (err : IoError) (path : str)
| InvalidUtf8 (start end_ : nat) (first_byte : ascii) (reason : str) (data : ExcData)
| InvalidMount (message : str)
| OverlappingMounts (virtual_path : str) (host_path : list bytes)
    (existing_virtual_path : str) (existing_host_path : list bytes)
| WriteLimitExceeded (limit : Z)
| MemoryUsageLimitExceeded (limit : Z)
| ScanLimitExceeded (limit : Z).

#[export] Instance MountError_eq_dec : EqDecision MountError.
Proof. solve_decision. Defined.

Definition io_err (k : ErrorKind) (msg : str) (vpath : str) : MountError :=
  Io (io_error_new k msg) vpath.

Definition not_found (vpath : str) : MountError :=
  io_err NotFound (lit "No such file or directory") vpath.

(** The sandbox exception an error becomes. A message is kept as the pieces the
    source's [format!] assembles: the quoting of paths ([StringRepr]) and of
    byte counts ([format_bytes_pretty]) is not applied. *)
Inductive ExcType :=
| PermissionError | ValueError | OSError | FileNotFoundError | FileExistsError
| IsADirectoryError | NotADirectoryError | UnicodeDecodeError | TypeError | MemoryError
| RuntimeError.

#[export] Instance ExcType_eq_dec : EqDecision ExcType.
Proof. solve_decision. Defined.

Inductive Message :=
| Errno (code : Z) (text : str) (paths : list str)
| Text (text : str)
| IoText (text : str) (path : str)
| DecodeText (first_byte : ascii) (start end_ : nat) (reason : str)
| OverlapText (host_path : list bytes) (virtual_path : str) (existing_host_path : list bytes)
    (existing_virtual_path : str)
| LimitText (before : str) (limit : Z) (after : str).

Record MontyException := { exc_type : ExcType; message : Message; data : ExcData }.

Definition new_exception (t : ExcType) (m : Message) : MontyException :=
  {| exc_type := t; message := m; data := NoExcData |}.

Definition into_exception (e : MountError) : MontyException :=
  match e with
  | NoMountPoint path | PathEscape path =>
      new_exception PermissionError (Errno 13 (lit "Permission denied") [path])
  | EmbeddedNullByte msg => new_exception ValueError (Text msg)
  | InvalidArgument msg => new_exception ValueError (Text msg)
  | ReadOnlyError path =>
      new_exception PermissionError (Errno 30 (lit "Read-only file system") [path])
  | CrossMountRename src dst =>
      new_exception OSError (Errno 18 (lit "Invalid cross-device link") [src; dst])
  | Io err path =>
      match kind err with
      | NotFound =>
          new_exception FileNotFoundError (Errno 2 (lit "No such file or directory") [path])
      | AlreadyExists => new_exception FileExistsError (Errno 17 (lit "File exists") [path])
      | PermissionDenied =>
          new_exception PermissionError (Errno 13 (lit "Permission denied") [path])
      | IsADirectory => new_exception IsADirectoryError (Errno 21 (lit "Is a directory") [path])
      | NotADirectory =>
          new_exception NotADirectoryError (Errno 20 (lit "Not a directory") [path])
      | DirectoryNotEmpty =>
          new_exception OSError (Errno 39 (lit "Directory not empty") [path])
      | InvalidFilename => new_exception OSError (Errno 36 (lit "File name too long") [path])
      | _ => new_exception OSError (IoText (display err) path)
      end
  | InvalidUtf8 start end_ first_byte reason d =>
      {| exc_type := UnicodeDecodeError;
         message := DecodeText first_byte start end_ reason;
         data := d |}
  | InvalidMount msg => new_exception TypeError (Text msg)
  | OverlappingMounts virtual_path host_path existing_virtual_path existing_host_path =>
      new_exception ValueError
        (OverlapText host_path virtual_path existing_host_path existing_virtual_path)
  | WriteLimitExceeded limit =>
      new_exception OSError (LimitText (lit "disk write limit of ") limit (lit " exceeded"))
  | MemoryUsageLimitExceeded limit =>
      new_exception MemoryError
        (LimitText (lit "mount memory usage limit of ") limit (lit " exceeded"))
  | ScanLimitExceeded limit =>
      new_exception RuntimeError
        (LimitText (lit "directory scan examined more than ") limit (lit " entries"))
  end.

(** [utf8_error_reason] ([crates/monty-types/src/format.rs]). *)
Definition utf8_error_reason (first_bad_byte : ascii) (elen : option nat) : str :=
  match elen with
  | None => lit "unexpected end of data"
  | Some _ =>
      if in_range 194 244 first_bad_byte then lit "invalid continuation byte"
      else lit "invalid start byte"
  end.

(** ** Operating-system calls *)

(** The calls that name no path; their arguments play no part here. *)
Inductive NonFsCall :=
| Getenv | GetEnviron | DateToday | DateTimeNow | Urandom | Time | Sleep | SystemSleep
| AsyncSleep | AsyncSystemSleep | Import | ImportStubs | GetTypeHints.

Record ScanArgs := {
  sc_path : str;
  sc_max_depth : option Z;
  sc_follow_symlinks : bool;
  sc_pattern : option (list str);
  sc_case_sensitive : option bool;
  sc_recurse_symlinks : bool }.

Inductive OsFunctionCall :=
| CExists (path : str)
| CIsFile (path : str)
| CIsDir (path : str)
| CIsSymlink (path : str)
| CReadText (path : str)
| CReadBytes (path : str)
| CStat (path : str)
| CIterdir (path : str)
| CScan (args : ScanArgs)
| CResolve (path : str)
| CAbsolute (path : str)
| CWriteText (path : str) (data : str)
| CAppendText (path : str) (data : str)
| CWriteBytes (path : str) (data : bytes)
| CAppendBytes (path : str) (data : bytes)
| COpen (path : str) (mode : FileMode)
| CCreateExclusive (path : str) (mode : FileMode) (permissions : Z)
| CMkdir (path : str) (parents exist_ok : bool)
| CUnlink (path : str)
| CRmdir (path : str)
| CRename (src dst : str)
| CNonFs (call : NonFsCall).

Definition call_is_write (c : OsFunctionCall) : bool :=
  match c with
  | CWriteText _ _ | CWriteBytes _ _ | CAppendText _ _ | CAppendBytes _ _ | CMkdir _ _ _
  | CCreateExclusive _ _ _ | CUnlink _ | CRmdir _ | CRename _ _ => true
  | COpen _ mode => create mode
  | _ => false
  end.

Definition is_existence_check (c : OsFunctionCall) : bool :=
  match c with
  | CExists _ | CIsFile _ | CIsDir _ | CIsSymlink _ => true
  | _ => false
  end.

Definition fs_primary_path (c : OsFunctionCall) : option str :=
  match c with
  | CExists p | CIsFile p | CIsDir p | CIsSymlink p | CReadText p | CReadBytes p | CStat p
  | CIterdir p | CResolve p | CAbsolute p | CUnlink p | CRmdir p
  | CWriteText p _ | CAppendText p _ | CWriteBytes p _ | CAppendBytes p _
  | COpen p _ | CCreateExclusive p _ _ | CMkdir p _ _ | CRename p _ => Some p
  | CScan a => Some (sc_path a)
  | CNonFs _ => None
  end.

Definition rename_destination (c : OsFunctionCall) : option str :=
  match c with CRename _ dst => Some dst | _ => None end.

Definition embedded_null_message (c : OsFunctionCall) (for_destination : bool) : str :=
  lit match c with
      | CMkdir _ _ _ => "mkdir: embedded null character in path"
      | CUnlink _ => "unlink: embedded null character in path"
      | CRmdir _ => "rmdir: embedded null character in path"
      | CStat _ => "stat: embedded null character in path"
      | CIterdir _ | CScan _ => "scandir: embedded null character in path"
      | CRename _ _ =>
          if for_destination then "rename: embedded null character in dst"
          else "rename: embedded null character in src"
      | CResolve _ => "lstat: embedded null character in path"
      | _ => "embedded null byte"
      end.

Definition opt_is_and {A} (p : A -> bool) (o : option A) : bool :=
  match o with Some a => p a | None => false end.

Definition check_path_null_bytes (c : OsFunctionCall) : result unit str :=
  if opt_is_and (contains nul) (fs_primary_path c) then Err (embedded_null_message c false)
  else if opt_is_and (contains nul) (rename_destination c) then
    Err (embedded_null_message c true)
  else Ok tt.

Definition is_empty_str (s : str) : bool := match s with [] => true | _ => false end.

Definition has_empty_path (c : OsFunctionCall) : bool :=
  opt_is_and is_empty_str (fs_primary_path c) || opt_is_and is_empty_str (rename_destination c).

(** [CreateExclusiveCallArgs::validate]. *)
Definition validate_create_exclusive (mode : FileMode) (permissions : Z) : result unit str :=
  if 511 <? permissions then Err (lit "permissions must be between 0 and 0o777")
  else if negb (Z.land permissions 73 =? 0) then
    Err (lit "execute permission bits are not supported")
  else match mode with
       | ReadUpdate _ | WriteUpdate _ | AppendUpdate _ =>
           Err (lit "update modes ('+') are not yet supported")
       | _ => Ok tt
       end.

(** ** Requests *)

Inductive FsRequest :=
| RExists (path : str)
| RIsFile (path : str)
| RIsDir (path : str)
| RIsSymlink (path : str)
| RReadText (path : str)
| RReadBytes (path : str)
| RWriteText (path : str) (data : str)
| RWriteBytes (path : str) (data : bytes)
| RAppendText (path : str) (data : str)
| RAppendBytes (path : str) (data : bytes)
| RMkdir (path : str) (parents exist_ok : bool)
| RUnlink (path : str)
| RRmdir (path : str)
| RIterdir (path : str)
| RStat (path : str)
| RRename (src dst : str)
| RResolve (path : str)
| RAbsolute (path : str)
| RCreateExclusive (path : str) (mode : FileMode) (permissions : Z)
| ROpen (path : str) (mode : FileMode).

Definition primary_path (r : FsRequest) : str :=
  match r with
  | RExists path | RIsFile path | RIsDir path | RIsSymlink path | RReadText path
  | RReadBytes path | RWriteText path _ | RWriteBytes path _ | RAppendText path _
  | RAppendBytes path _ | RMkdir path _ _ | RUnlink path | RRmdir path | RIterdir path
  | RStat path | RResolve path | RAbsolute path | ROpen path _ | RCreateExclusive path _ _
  | RRename path _ => path
  end.

Definition is_write (r : FsRequest) : bool :=
  match r with
  | RWriteText _ _ | RWriteBytes _ _ | RAppendText _ _ | RAppendBytes _ _ | RMkdir _ _ _
  | RCreateExclusive _ _ _ | RUnlink _ | RRmdir _ | RRename _ _ => true
  | ROpen _ mode => create mode
  | _ => false
  end.

(** [None] is the [unreachable!] of the calls no single mount runs. *)
Definition fs_request_from_call (call : OsFunctionCall) : option FsRequest :=
  match call with
  | CExists path => Some (RExists path)
  | CIsFile path => Some (RIsFile path)
  | CIsDir path => Some (RIsDir path)
  | CIsSymlink path => Some (RIsSymlink path)
  | CReadText path => Some (RReadText path)
  | CReadBytes path => Some (RReadBytes path)
  | CWriteText path data => Some (RWriteText path data)
  | CWriteBytes path data => Some (RWriteBytes path data)
  | CAppendText path data => Some (RAppendText path data)
  | CAppendBytes path data => Some (RAppendBytes path data)
  | CCreateExclusive path mode permissions => Some (RCreateExclusive path mode permissions)
  | CMkdir path parents exist_ok => Some (RMkdir path parents exist_ok)
  | CUnlink path => Some (RUnlink path)
  | CRmdir path => Some (RRmdir path)
  | CIterdir path => Some (RIterdir path)
  | CStat path => Some (RStat path)
  | CRename src dst => Some (RRename src dst)
  | CResolve path => Some (RResolve path)
  | CAbsolute path => Some (RAbsolute path)
  | COpen path mode => Some (ROpen path mode)
  | CNonFs _ | CScan _ => None
  end.

Definition file_handle_result (path : str) (mode : FileMode) : MontyObject :=
  OFileHandle {| fh_path := normalize_virtual_path path; fh_mode := mode; fh_position := 0 |}.

(** A call is a write exactly when the request it becomes is one. *)
Lemma fs_request_is_write call r :
  fs_request_from_call call = Some r -> is_write r = call_is_write call.
Proof. destruct call; cbn; intros [=]; by subst. Qed.

Lemma fs_request_primary_path call r :
  fs_request_from_call call = Some r -> fs_primary_path call = Some (primary_path r).
Proof. destruct call; cbn; intros [=]; by subst. Qed.
