(* ===== verification/PathSecurity.v ===== *)
(** Path policy of the filesystem mounts
    ([crates/monty-fs/src/path_security.rs]): mapping a sandbox path onto its
    mount-relative form, and the null-byte, drive-prefix and length checks. *)
From S2P Require Import Prelude Str FileMode FsTypes VirtualPath.
Local Open Scope monty_scope.

Definition PATH_MAX : Z := 4096.
Definition NAME_MAX : Z := 255.
Definition DEPTH_MAX : nat := 64.
Definition ERROR_PATH_EDGE : nat := 20.

Definition backslash : ascii := "\"%char.
Definition colon : ascii := ":"%char.

(** ** The code *)

Record MountRelativePath := { relative : str }.

Definition for_dir_op (p : MountRelativePath) : str :=
  if is_empty_str (relative p) then dot else relative p.

Definition is_mount_root (p : MountRelativePath) : bool := is_empty_str (relative p).

Definition contains_null_byte (virtual_path : str) : bool := contains nul virtual_path.

Definition reject_null_bytes (virtual_path : str) : result unit MountError :=
  if contains_null_byte virtual_path then Err (EmbeddedNullByte (lit "embedded null byte"))
  else Ok tt.

Definition strip_mount_prefix (normalized_path mount_virtual_path : str) : option str :=
  if bool_decide (mount_virtual_path = [slash]) then
    Some (default normalized_path (strip_prefix [slash] normalized_path))
  else if bool_decide (normalized_path = mount_virtual_path) then Some []
  else strip_prefix mount_virtual_path normalized_path ≫= strip_prefix [slash].

Definition is_windows_drive_prefix (segment : str) : bool :=
  match segment with
  | b0 :: b1 :: _ => is_ascii_alphabetic b0 && Ascii.eqb b1 colon
  | _ => false
  end.

Definition has_escape_prefix (relative : str) : bool :=
  contains backslash relative || existsb is_windows_drive_prefix (split slash relative).

Definition reject_drive_or_unc_segments (relative normalized_virtual_path : str) :
    result unit MountError :=
  if has_escape_prefix relative then Err (PathEscape normalized_virtual_path) else Ok tt.

Definition resolve_virtual_path (virtual_path mount_virtual_path : str) :
    result MountRelativePath MountError :=
  reject_null_bytes virtual_path ;?
  let normalized := normalize_virtual_path virtual_path in
  let? relative := ok_or (strip_mount_prefix normalized mount_virtual_path)
                         (NoMountPoint virtual_path) in
  reject_drive_or_unc_segments relative normalized ;?
  Ok {| relative := relative |}.

(** [iter.nth(n)] on the boundaries leaves the iterator after the one it
    returns, so [nth_back] counts from the end of what is left. *)
Definition elide_middle (path : str) : option str :=
  let boundaries := char_indices path in
  boundaries !! ERROR_PATH_EDGE ≫= fun head_end =>
  rev (drop (S ERROR_PATH_EDGE) boundaries) !! (ERROR_PATH_EDGE - 1) ≫= fun tail_start =>
  Some (take head_end path ++ lit "…" ++ drop tail_start path).

Definition path_too_long (path : str) : bool :=
  let components := split slash path in
  (PATH_MAX <? zlen path)%Z
  || existsb (fun c => (NAME_MAX <? zlen c)%Z) (take DEPTH_MAX components)
  || match drop DEPTH_MAX components with [] => false | _ => true end.

Definition reject_overlong_path (path : str) : result unit MountError :=
  if path_too_long path then
    Err (io_err InvalidFilename (lit "File name too long") (default path (elide_middle path)))
  else Ok tt.

(** ** Facts *)

(** The components a mount-relative path names, none for the mount root. *)
Definition components (rel : str) : list str :=
  match rel with [] => [] | _ => split slash rel end.

(** The virtual path of the entry [rel] of the mount at [m]. *)
Definition under_mount (m rel : str) : str :=
  match rel with
  | [] => m
  | _ => if bool_decide (m = [slash]) then slash :: rel else m ++ slash :: rel
  end.

(** Everything a mount-relative path promises the code it is handed to. *)
Record safe_relative (rel : str) : Prop := {
  safe_plain : Forall plain_segment (components rel);
  safe_nul : nul ∉ rel;
  safe_backslash : backslash ∉ rel;
  safe_drive : Forall (fun s => is_windows_drive_prefix s = false) (components rel) }.

Lemma is_normalized_abs p : is_normalized p = true -> exists q, p = slash :: q.
Proof. intros [->|(q & -> & _)]%is_normalized_cases; eauto. Qed.

(** Splitting distributes over a separator. *)
Lemma split_app_slash c a b : split c (a ++ c :: b) = split c a ++ split c b.
Proof.
  induction a as [|x a IH]; cbn.
  - by rewrite Ascii.eqb_refl.
  - destruct (Ascii.eqb_spec x c); [by rewrite IH|]. rewrite IH.
    pose proof (split_not_nil c a). by destruct (split c a).
Qed.

(** What follows a slash of a normalized path is made of plain components. *)
Lemma is_normalized_suffix a rel :
  is_normalized (a ++ slash :: rel) = true -> Forall plain_segment (components rel).
Proof.
  intros Hn. destruct (decide (rel = [])) as [->|Hne]; [constructor|].
  assert (HF : Forall (fun s => special_segment s = false) (split slash rel)).
  { apply is_normalized_cases in Hn as [E|(q & E & HF)].
    - destruct a as [|x [|]]; cbn in E; by simplify_eq.
    - destruct a as [|x a]; cbn in E; simplify_eq; [done|].
      rewrite split_app_slash in HF. by apply Forall_app in HF as [_ HF]. }
  pose proof (split_no_sep slash rel) as Hs.
  replace (components rel) with (split slash rel) by by destruct rel.
  rewrite Forall_forall in *. intros s Hin. split; auto.
Qed.

(** Stripping the mount's prefix is the inverse of [under_mount]. *)
Lemma strip_mount_prefix_under p m rel :
  is_normalized p = true -> is_normalized m = true ->
  strip_mount_prefix p m = Some rel ->
  p = under_mount m rel /\ Forall plain_segment (components rel).
Proof.
  intros Hp Hm. unfold strip_mount_prefix, under_mount.
  destruct (is_normalized_abs _ Hp) as [q ->].
  destruct (bool_decide (m = [slash])) eqn:Hroot.
  - apply bool_decide_eq_true in Hroot as ->. cbn. intros [= ->].
    split; [by destruct rel | by apply (is_normalized_suffix [])].
  - destruct (bool_decide (slash :: q = m)) eqn:Heq.
    + apply bool_decide_eq_true in Heq as <-. intros [= <-]. split; [done|constructor].
    + intros (r & Hr & Hrel)%bind_Some. apply strip_prefix_Some in Hr as Hr'.
      apply strip_prefix_Some in Hrel as ->. cbn in Hr'. rewrite Hr' in Hp |- *.
      apply is_normalized_suffix in Hp as Hplain. split; [|done].
      destruct rel as [|c rel]; [|done]. exfalso.
      apply is_normalized_cases in Hp as [E|(q' & E & HF)].
      * destruct m as [|x [|]]; cbn in E; [done|by simplify_eq..].
      * destruct m as [|x m]; [done|]. cbn in E. injection E as -> E. subst q'.
        rewrite split_app_slash in HF. apply Forall_app in HF as [_ HF].
        inversion HF as [|? ? Hbad _]. by apply special_segment_false in Hbad as [].
Qed.

Lemma reject_null_bytes_Ok p : reject_null_bytes p = Ok tt <-> nul ∉ p.
Proof.
  unfold reject_null_bytes, contains_null_byte. rewrite <- contains_false.
  by destruct (contains nul p).
Qed.

Lemma has_escape_prefix_false rel :
  has_escape_prefix rel = false ->
  backslash ∉ rel /\ Forall (fun s => is_windows_drive_prefix s = false) (components rel).
Proof.
  unfold has_escape_prefix. rewrite orb_false_iff, contains_false. intros [Hb He].
  split; [done|]. destruct rel as [|c rel]; [constructor|]. cbn [components].
  apply Forall_forall. intros s Hs. apply not_true_iff_false. intros Ht.
  apply (eq_true_false_abs _ (proj2 (existsb_exists _ _)
    (ex_intro _ s (conj (proj1 (list_elem_of_In _ _) Hs) Ht))) He).
Qed.

(** Resolution of components keeps a subsequence of the segments. *)
Lemma resolve_segments_sublist segs : resolve_segments segs `sublist_of` segs.
Proof.
  unfold resolve_segments. rewrite <- (app_nil_l segs) at 2.
  generalize (@nil str) as st. induction segs as [|seg segs IH]; intros st; cbn.
  - by rewrite app_nil_r.
  - etrans; [apply IH|]. rewrite <- (app_nil_l segs) at 1.
    replace (st ++ seg :: segs) with ((st ++ [seg]) ++ segs) by by rewrite <- app_assoc.
    apply sublist_app; [|done]. unfold step_segment. repeat case_match.
    + by apply sublist_inserts_r.
    + apply sublist_inserts_r. clear. induction st as [|y [|z st] IH]; cbn; [done| |].
      * constructor. constructor.
      * by constructor.
    + done.
Qed.

Lemma elem_of_abspath c st : c <> slash -> c ∈ abspath st -> exists s, s ∈ st /\ c ∈ s.
Proof.
  intros Hc. induction st as [|s st IH]; cbn; [by intros ?%elem_of_nil|].
  intros [->|[H|H]%elem_of_app]%elem_of_cons; [done| |].
  - exists s. split; [left|done].
  - destruct (IH H) as (s' & ? & ?). exists s'. split; [by right|done].
Qed.

Lemma elem_of_join c d l s : s ∈ l -> c ∈ s -> c ∈ join d l.
Proof.
  induction l as [|x [|y l] IH]; intros Hs Hcs; cbn.
  - by apply elem_of_nil in Hs.
  - by apply list_elem_of_singleton in Hs as ->.
  - apply elem_of_app. apply elem_of_cons in Hs as [->|Hs]; [by left|right; right; auto].
Qed.

(** Normalizing introduces no byte but the separator. *)
Lemma normalize_virtual_path_elem c p :
  c <> slash -> c ∈ normalize_virtual_path p -> c ∈ p.
Proof.
  intros Hc. rewrite normalize_virtual_path_render. intros Hin.
  assert (Hin' : c ∈ abspath (resolve_segments (split slash p))).
  { revert Hin. unfold render. destruct (resolve_segments _); [|done].
    by intros Hin%list_elem_of_singleton. }
  apply elem_of_abspath in Hin' as (s & Hs & Hcs); [|done].
  rewrite <- (join_split slash p). eapply elem_of_join; [|exact Hcs].
  eapply elem_of_sublist; [exact Hs|apply resolve_segments_sublist].
Qed.

Lemma nul_slash : nul <> slash.
Proof. done. Qed.

Lemma under_mount_elem c m rel : c ∈ rel -> c ∈ under_mount m rel.
Proof.
  destruct rel as [|x rel]; [by intros ?%elem_of_nil|]. intros Hc. cbn [under_mount].
  case_bool_decide; [by right|]. apply elem_of_app. right. by right.
Qed.

(** What a successful resolution gives. *)
Lemma resolve_virtual_path_Ok p m t :
  is_normalized m = true -> resolve_virtual_path p m = Ok t ->
  safe_relative (relative t) /\ normalize_virtual_path p = under_mount m (relative t).
Proof.
  intros Hm. unfold resolve_virtual_path.
  destruct (reject_null_bytes p) as [[]|] eqn:Hnul; cbn [rbind]; [|done].
  destruct (strip_mount_prefix _ m) as [rel|] eqn:Hs; cbn [ok_or rbind]; [|done].
  unfold reject_drive_or_unc_segments.
  destruct (has_escape_prefix rel) eqn:He; cbn [rbind]; [done|].
  intros [= <-]. cbn [relative].
  apply strip_mount_prefix_under in Hs as [Hp Hplain]; auto with monty.
  apply has_escape_prefix_false in He as [Hb Hd]. apply reject_null_bytes_Ok in Hnul.
  split; [|done]. constructor; try done.
  intros Hin. apply Hnul, (normalize_virtual_path_elem nul _ nul_slash).
  rewrite Hp. by apply under_mount_elem.
Qed.

Lemma path_too_long_false p :
  path_too_long p = false ->
  (zlen p <= PATH_MAX)%Z /\ length (split slash p) <= DEPTH_MAX
  /\ Forall (fun c => zlen c <= NAME_MAX)%Z (split slash p).
Proof.
  unfold path_too_long. rewrite !orb_false_iff. intros [[Hl He] Hd]. zbool.
  split; [done|].
  assert (Hlen : length (split slash p) <= DEPTH_MAX).
  { destruct (drop DEPTH_MAX (split slash p)) eqn:E; [|done].
    apply (f_equal length) in E. rewrite length_drop in E. cbn in E. lia. }
  split; [done|]. rewrite take_ge in He by done.
  apply Forall_forall. intros s Hs. destruct (NAME_MAX <? zlen s)%Z eqn:E; [|by zbool].
  rewrite (proj2 (existsb_exists _ _)) in He; [done|].
  exists s. split; [by apply list_elem_of_In|done].
Qed.

(** ** The properties *)

(** C17: a path that resolves in a mount resolves to a relative path with no
    empty, [.] or [..] component, no null byte, no backslash and no drive
    prefix, and appending it to the mount's own path gives back the normalized
    sandbox path: no spelling climbs out of the mount. *)
Theorem resolve_virtual_path_safe p m t :
  is_normalized m = true -> resolve_virtual_path p m = Ok t ->
  safe_relative (relative t) /\ normalize_virtual_path p = under_mount m (relative t).
Proof. apply resolve_virtual_path_Ok. Qed.

Lemma resolve_virtual_path_safe_witness :
  safe_relative (lit "b") /\ normalize_virtual_path (lit "/m/a/../b") = under_mount (lit "/m") (lit "b").
Proof.
  apply (resolve_virtual_path_safe (lit "/m/a/../b") (lit "/m") {| relative := lit "b" |});
    vm_compute; reflexivity.
Defined.

(** a path the length checks accept names at most 64 components of at most
    255 bytes, and so does the path normalization collapses it to: checking the
    bytes as sent bounds the walk over the collapsed path. *)
Theorem reject_overlong_path_bounds p :
  reject_overlong_path p = Ok tt ->
  (zlen p <= PATH_MAX)%Z
  /\ length (resolve_segments (split slash p)) <= DEPTH_MAX
  /\ Forall (fun c => zlen c <= NAME_MAX)%Z (resolve_segments (split slash p)).
Proof.
  unfold reject_overlong_path. destruct (path_too_long p) eqn:E; [done|]. intros _.
  apply path_too_long_false in E as (Hl & Hd & HF).
  pose proof (resolve_segments_sublist (split slash p)) as Hsub.
  split; [done|]. split; [etrans; [by apply sublist_length|done]|].
  rewrite Forall_forall in *. intros s Hs. apply HF. by eapply elem_of_sublist.
Qed.

Lemma reject_overlong_path_bounds_witness :
  length (resolve_segments (split slash (lit "/a/./b/.."))) <= DEPTH_MAX.
Proof.
  apply (reject_overlong_path_bounds (lit "/a/./b/..")). vm_compute. reflexivity.
Defined.
