(* ===== verification/Host.v ===== *)
(** The host filesystem as the mounts see it: a [cap_std::fs::Dir].

    [cap-std] is a library the sources only call, so its directory handle is a
    parameter: [HostDir] lists the operations the mounts use. A value of [Dir]
    is the descriptor together with the host's current state; an operation that
    changes the host returns the handle in the state it leaves. A call sees one
    host state from its start to its end, the code's own stated assumption
    (concurrent changes to the backing directory are unsupported); the clock is
    read several times and may answer differently each time. *)
From S2P Require Import Prelude Str FileMode VirtualPath FsTypes.
Local Open Scope Z_scope.

Inductive FileKind := KFile | KDir | KSymlink | KOther.

#[export] Instance FileKind_eq_dec : EqDecision FileKind.
Proof. solve_decision. Defined.

(** [cap_std::fs::Metadata]: its file type, length and modification time. *)
Record Metadata := { m_kind : FileKind; m_size : N; m_modified : result SystemTime IoError }.

(** [meta.len()]. *)
Definition m_len (m : Metadata) : Z := Z.of_N (m_size m).

Definition kind_is (k : FileKind) (k' : FileKind) : bool := bool_decide (k = k').
Definition m_is_dir (m : Metadata) : bool := kind_is KDir (m_kind m).
Definition m_is_file (m : Metadata) : bool := kind_is KFile (m_kind m).
Definition m_is_symlink (m : Metadata) : bool := kind_is KSymlink (m_kind m).

(** [cap_std::fs::DirEntry]: the raw name and what [file_type] answers. *)
Record DirEntry := { file_name : bytes; file_type : result FileKind IoError }.

(** A listing: each step of the iterator may fail. *)
Abbreviation ReadDir := (list (result DirEntry IoError)).

(** [cap_std::fs::OpenOptions]. *)
Record OpenOptions := {
  o_read : bool; o_write : bool; o_append : bool; o_truncate : bool; o_create : bool;
  o_create_new : bool; o_nonblock : bool; o_mode : option Z }.

(** [OpenOptions::new()]. *)
Definition open_options : OpenOptions :=
  {| o_read := false; o_write := false; o_append := false; o_truncate := false;
     o_create := false; o_create_new := false; o_nonblock := false; o_mode := None |}.

(** The operations of a [Dir], and of the [File]s it opens. *)
Class HostDir := {
  Dir : Type;
  File : Type;
  symlink_metadata : Dir -> str -> result Metadata IoError;
  metadata : Dir -> str -> result Metadata IoError;
  dir_exists : Dir -> str -> bool;
  open_dir : Dir -> str -> result Dir IoError;
  read_dir : Dir -> str -> result ReadDir IoError;
  open_with : OpenOptions -> str -> Dir -> result File IoError * Dir;
  file_metadata : Dir -> File -> result Metadata IoError;
  (** [file.take(n).read_to_end(&mut content)] *)
  take_read_to_end : Dir -> File -> Z -> result bytes IoError;
  write_all : File -> bytes -> Dir -> result unit IoError * Dir;
  create_dir : str -> Dir -> result unit IoError * Dir;
  create_dir_all : str -> Dir -> result unit IoError * Dir;
  remove_file : str -> Dir -> result unit IoError * Dir;
  remove_dir : str -> Dir -> result unit IoError * Dir;
  dir_rename : str -> str -> Dir -> result unit IoError * Dir }.

(** The options that ask for no change of the host. *)
Definition only_reads (o : OpenOptions) : bool :=
  o_read o && negb (o_write o || o_append o || o_truncate o || o_create o || o_create_new o).

(** Documented behaviour of the library that some properties rely on. *)
Class HostLaws `{HostDir} : Prop := {
  (** Opening a file for reading changes nothing. *)
  open_read_pure : forall o rel d, only_reads o = true -> (open_with o rel d).2 = d;
  (** A failed creation, removal or rename changes nothing. *)
  create_dir_err : forall rel d e d', create_dir rel d = (Err e, d') -> d' = d;
  remove_file_err : forall rel d e d', remove_file rel d = (Err e, d') -> d' = d;
  remove_dir_err : forall rel d e d', remove_dir rel d = (Err e, d') -> d' = d;
  rename_err : forall a b d e d', dir_rename a b d = (Err e, d') -> d' = d;
  (** A read that stops short of its limit has reached the end of the file. *)
  read_to_end : forall d f n b, take_read_to_end d f n = Ok b -> zlen b < n ->
    forall n' b', take_read_to_end d f n' = Ok b' -> zlen b' < n' -> b' = b;
  (** A file that opens for reading has metadata: [stat] needs no more than
      [open] does. *)
  open_metadata : forall o rel d f, only_reads o = true -> (open_with o rel d).1 = Ok f ->
    exists m, metadata d rel = Ok m;
  (** Following a final component that is not a link changes nothing. *)
  stat_lstat : forall d rel m, symlink_metadata d rel = Ok m -> m_is_symlink m = false ->
    metadata d rel = Ok m;
  (** A directory lists its entries by component names, [.] and [..] left out. *)
  read_dir_names : forall d rel rd e, read_dir d rel = Ok rd -> Ok e ∈ rd ->
    plain_segment (file_name e) }.

(** How the library finds a path: component by component, each but the last leading
    to a directory. *)
Class HostLookup `{HostDir} : Prop := {
  (** What has metadata is there, as a link or as itself. *)
  lookup_found : forall d rel m, metadata d rel = Ok m -> exists m', symlink_metadata d rel = Ok m';
  (** Past a first component that is no link, a path is looked up in the directory
      that component is. *)
  lookup_first : forall d c rest m, plain_segment c -> Forall plain_segment rest -> rest <> [] ->
    metadata d (Str.join slash (c :: rest)) = Ok m ->
    exists m', symlink_metadata d c = Ok m' /\
      (m_is_symlink m' = false -> m_is_dir m' = true /\
         forall next, open_dir d c = Ok next -> metadata next (Str.join slash rest) = Ok m);
  (** A directory that is there may not open, but it is found. *)
  lookup_dir : forall d c m e, symlink_metadata d c = Ok m -> m_is_dir m = true ->
    open_dir d c = Err e -> kind e <> NotFound }.
