(* ===== verification/Common.v ===== *)
(** Helpers shared by the direct and overlay backends
    ([crates/monty-fs/src/common.rs]). *)
From S2P Require Import Prelude Str FileMode VirtualPath FsTypes Host.
Local Open Scope Z_scope.
Local Open Scope monty_scope.

Definition LISTING_ENTRY_MEMORY_USAGE : Z := 128.
Definition DIRECTORY_WRITE_BYTES : Z := 4096.

(** [u64::try_from(bytes).unwrap_or(u64::MAX)]. *)
Definition as_u64 (bytes : Z) : Z := if bytes <=? u64_max then bytes else u64_max.

(** ** Memory budgets *)

Record MemoryBudget := { available : Z; limit : Z }.

Definition full (limit : Z) : MemoryBudget := {| available := limit; limit := limit |}.

Definition check (b : MemoryBudget) (bytes : Z) : result unit MountError :=
  if available b <? bytes then Err (MemoryUsageLimitExceeded (limit b)) else Ok tt.

Definition shrink (b : MemoryBudget) (bytes : Z) : result MemoryBudget MountError :=
  match checked_sub (available b) bytes with
  | Some available => Ok {| available := available; limit := limit b |}
  | None => Err (MemoryUsageLimitExceeded (limit b))
  end.

Definition halved (b : MemoryBudget) : MemoryBudget :=
  {| available := available b / 2; limit := limit b |}.

(** ** Errors, text and time *)

Definition map_io (err : IoError) (vpath : str) : MountError :=
  if bool_decide (kind err = PermissionDenied) && bool_decide (raw_os_error err = None)
  then PathEscape vpath
  else Io err vpath.

Definition bytes_to_utf8 (b : bytes) : result str MountError :=
  map_err (fun e =>
    let start := valid_up_to e in
    let end_ := match error_len e with Some len => (start + len)%nat | None => length b end in
    let first_byte := nth start b nul in
    let reason := utf8_error_reason first_byte (error_len e) in
    InvalidUtf8 start end_ first_byte reason (decode_error_data (lit "utf-8") b start end_ reason))
  (from_utf8 b).

(** [current_timestamp()] when the clock reads [now]. *)
Definition current_timestamp (now : SystemTime) : f64 := secs_since_epoch now.

Definition UNIX_EPOCH : SystemTime := 0.

Definition mtime_secs (m : Metadata) : f64 :=
  secs_since_epoch (match m_modified m with Ok t => t | Err _ => UNIX_EPOCH end).

Definition join_mount_relative (rel child : str) : str :=
  if is_empty_str rel || bool_decide (rel = dot) then child else rel ++ slash :: child.

Definition format_child_path (parent child : str) : str :=
  if ends_with_char slash parent then parent ++ child else parent ++ slash :: child.

(** ** Path descriptions *)

(** [monty_types::scan::EntryInfo]. *)
Record EntryInfo := { is_dir : bool; is_file : bool; is_symlink : bool }.

#[export] Instance EntryInfo_eq_dec : EqDecision EntryInfo.
Proof. solve_decision. Defined.

Record PathInfo := { info : EntryInfo; pi_exists : bool }.

#[export] Instance PathInfo_eq_dec : EqDecision PathInfo.
Proof. solve_decision. Defined.

Definition ABSENT : PathInfo :=
  {| info := {| is_dir := false; is_file := false; is_symlink := false |}; pi_exists := false |}.

Section Common.
Context `{HostDir}.

(** Per-call mount context; [clock] gives the readings of the system clock the
    call takes, each place that reads it at an index of its own. *)
Record MountContext := {
  mount_virtual : str;
  mount_dir : Dir;
  write_bytes_used : Z;
  write_bytes_limit : option Z;
  memory_usage_limit : Z;
  clock : nat -> SystemTime }.

Definition set_write_bytes_used (used : Z) (ctx : MountContext) : MountContext :=
  {| mount_virtual := mount_virtual ctx; mount_dir := mount_dir ctx;
     write_bytes_used := used; write_bytes_limit := write_bytes_limit ctx;
     memory_usage_limit := memory_usage_limit ctx; clock := clock ctx |}.

Definition set_mount_dir (d : Dir) (ctx : MountContext) : MountContext :=
  {| mount_virtual := mount_virtual ctx; mount_dir := d;
     write_bytes_used := write_bytes_used ctx; write_bytes_limit := write_bytes_limit ctx;
     memory_usage_limit := memory_usage_limit ctx; clock := clock ctx |}.

Definition from_host (dir : Dir) (rel : str) : PathInfo :=
  let followed := rok (metadata dir rel) in
  {| info := {| is_dir := opt_is_and m_is_dir followed;
                is_file := opt_is_and m_is_file followed;
                is_symlink := is_ok_and m_is_symlink (symlink_metadata dir rel) |};
     pi_exists := match followed with Some _ => true | None => false end |}.

Definition host_is_dir (dir : Dir) (rel : str) : bool := is_ok_and m_is_dir (metadata dir rel).
Definition host_is_file (dir : Dir) (rel : str) : bool := is_ok_and m_is_file (metadata dir rel).

(** [host_dir_mtime] with the clock reading it falls back to. *)
Definition host_dir_mtime (dir : Dir) (rel : str) (now : SystemTime) : f64 :=
  secs_since_epoch
    (match rbind (metadata dir rel) m_modified with Ok t => t | Err _ => now end).

(** ** Opening files *)

Definition is_a_directory (vpath : str) : MountError :=
  io_err IsADirectory (lit "Is a directory") vpath.
Definition permission_denied (vpath : str) : MountError :=
  io_err PermissionDenied (lit "Permission denied") vpath.
Definition file_exists (vpath : str) : MountError :=
  io_err AlreadyExists (lit "File exists") vpath.

Definition reject_non_regular (dir : Dir) (rel vpath : str) : result unit MountError :=
  match metadata dir rel with
  | Ok meta =>
      if m_is_dir meta then Err (is_a_directory vpath)
      else if negb (m_is_file meta) then Err (permission_denied vpath)
      else Ok tt
  | Err _ => Ok tt
  end.

(** The Unix [non_blocking]. *)
Definition non_blocking (o : OpenOptions) : OpenOptions :=
  {| o_read := o_read o; o_write := o_write o; o_append := o_append o;
     o_truncate := o_truncate o; o_create := o_create o; o_create_new := o_create_new o;
     o_nonblock := true; o_mode := o_mode o |}.

(** A host call whose error is reported for [vpath]. *)
Definition host_call {A} (vpath : str) (m : Dir -> result A IoError * Dir) :
    M Dir MountError A :=
  fun d => let '(r, d') := m d in (map_err (fun err => map_io err vpath) r, d').

Definition open_regular (rel vpath : str) (options : OpenOptions) : M Dir MountError File :=
  do file <- host_call vpath (open_with (non_blocking options) rel) ;;
  do d <- sget ;;
  do meta <- slift (map_err (fun err => map_io err vpath) (file_metadata d file)) ;;
  if m_is_file meta then sret file
  else if m_is_dir meta then sfail (is_a_directory vpath)
  else sfail (permission_denied vpath).

Definition read_options : OpenOptions :=
  {| o_read := true; o_write := false; o_append := false; o_truncate := false;
     o_create := false; o_create_new := false; o_nonblock := false; o_mode := None |}.

Definition read_file_limited (rel vpath : str) (budget : MemoryBudget) :
    M Dir MountError bytes :=
  do d <- sget ;;
  slift (reject_non_regular d rel vpath) ;;;
  do file <- open_regular rel vpath read_options ;;
  do d <- sget ;;
  do meta <- slift (map_err (fun err => map_io err vpath) (file_metadata d file)) ;;
  slift (check budget (m_len meta)) ;;;
  do content <- slift (map_err (fun err => map_io err vpath)
                  (take_read_to_end d file (sat_add (available budget) 1))) ;;
  slift (check budget (as_u64 (zlen content))) ;;;
  sret content.

Definition host_read_text (rel vpath : str) (budget : MemoryBudget) : M Dir MountError MontyObject :=
  do b <- read_file_limited rel vpath budget ;;
  do content <- slift (bytes_to_utf8 b) ;;
  sret (OString content).

Definition host_read_bytes (rel vpath : str) (budget : MemoryBudget) :
    M Dir MountError MontyObject :=
  do b <- read_file_limited rel vpath budget ;;
  sret (OBytes b).

(** ** Writing files *)

Definition write_options : OpenOptions :=
  {| o_read := false; o_write := true; o_append := false; o_truncate := true;
     o_create := true; o_create_new := false; o_nonblock := false; o_mode := None |}.

Definition append_options : OpenOptions :=
  {| o_read := false; o_write := false; o_append := true; o_truncate := false;
     o_create := true; o_create_new := false; o_nonblock := false; o_mode := None |}.

Definition write_bytes_to_file (rel : str) (content : bytes) (vpath : str) :
    M Dir MountError unit :=
  do d <- sget ;;
  slift (reject_non_regular d rel vpath) ;;;
  do file <- open_regular rel vpath write_options ;;
  host_call vpath (write_all file content).

Definition append_bytes_to_file (rel : str) (content : bytes) (vpath : str) :
    M Dir MountError unit :=
  do d <- sget ;;
  slift (reject_non_regular d rel vpath) ;;;
  do file <- open_regular rel vpath append_options ;;
  host_call vpath (write_all file content).

Definition host_write_text (rel : str) (content : str) (vpath : str) : M Dir MountError MontyObject :=
  write_bytes_to_file rel content vpath ;;;
  sret (OInt (to_i64_sat (chars_count content))).

Definition host_write_bytes (rel : str) (content : bytes) (vpath : str) :
    M Dir MountError MontyObject :=
  write_bytes_to_file rel content vpath ;;;
  sret (OInt (to_i64_sat (zlen content))).

Definition host_append_text (rel : str) (content : str) (vpath : str) :
    M Dir MountError MontyObject :=
  append_bytes_to_file rel content vpath ;;;
  sret (OInt (to_i64_sat (chars_count content))).

Definition host_append_bytes (rel : str) (content : bytes) (vpath : str) :
    M Dir MountError MontyObject :=
  append_bytes_to_file rel content vpath ;;;
  sret (OInt (to_i64_sat (zlen content))).

(** On Unix. *)
Definition host_create_exclusive (rel : str) (permissions : Z) (vpath : str) :
    M Dir MountError unit :=
  let options :=
    {| o_read := false; o_write := true; o_append := false; o_truncate := false;
       o_create := false; o_create_new := true; o_nonblock := false;
       o_mode := Some permissions |} in
  do _ <- host_call vpath (open_with options rel) ;;
  sret tt.

(** ** Directories *)

(** The tail of [host_mkdir], given the outcome of the creation. *)
Definition mkdir_result (rel : str) (exist_ok : bool) (vpath : str)
    (create : Dir -> result unit IoError * Dir) : M Dir MountError MontyObject :=
  fun d =>
    match create d with
    | (Ok _, d') => (Ok ONone, d')
    | (Err err, d') =>
        if bool_decide (kind err = AlreadyExists) && exist_ok && host_is_dir d' rel
        then (Ok ONone, d')
        else (Err (map_io err vpath), d')
    end.

Definition host_mkdir (rel : str) (parents exist_ok : bool) (vpath : str) :
    M Dir MountError MontyObject :=
  if parents then
    do d <- sget ;;
    match metadata d rel with
    | Ok meta =>
        if m_is_dir meta then
          if exist_ok then sret ONone else sfail (file_exists vpath)
        else sfail (file_exists vpath)
    | Err _ => mkdir_result rel exist_ok vpath (create_dir_all rel)
    end
  else mkdir_result rel exist_ok vpath (create_dir rel).

Definition host_unlink (rel vpath : str) : M Dir MountError MontyObject :=
  host_call vpath (remove_file rel) ;;; sret ONone.

Definition host_rmdir (rel vpath : str) : M Dir MountError MontyObject :=
  host_call vpath (remove_dir rel) ;;; sret ONone.

(** [0o755] and [0o644] are 493 and 420. *)
Definition host_stat (dir : Dir) (rel vpath : str) : result MontyObject MountError :=
  let? meta := map_err (fun err => map_io err vpath) (metadata dir rel) in
  let mtime := mtime_secs meta in
  let size := to_i64_sat (m_len meta) in
  if m_is_dir meta then Ok (dir_stat 493 mtime) else Ok (file_stat 420 size mtime).

(** The loop of [visible_entries]; [memory_usage] is what the entries before
    have been charged. *)
Fixpoint visible_entries_loop (entries : ReadDir) (mount_dir : Dir) (rel vpath : str)
    (budget : MemoryBudget) (memory_usage : Z) : result (list (str * EntryInfo)) MountError :=
  match entries with
  | [] => Ok []
  | entry :: entries' =>
      let? entry := map_err (fun err => map_io err vpath) entry in
      let? ftype := map_err (fun err => map_io err vpath) (file_type entry) in
      match to_str (file_name entry) with
      | None => visible_entries_loop entries' mount_dir rel vpath budget memory_usage
      | Some name =>
          let info :=
            if kind_is KSymlink ftype then
              match metadata mount_dir (join_mount_relative rel name) with
              | Err _ => None
              | Ok target =>
                  Some {| is_dir := m_is_dir target; is_file := m_is_file target;
                          is_symlink := true |}
              end
            else
              Some {| is_dir := kind_is KDir ftype; is_file := kind_is KFile ftype;
                      is_symlink := false |} in
          match info with
          | None => visible_entries_loop entries' mount_dir rel vpath budget memory_usage
          | Some info =>
              let memory_usage :=
                sat_add (sat_add memory_usage (as_u64 (zlen name))) LISTING_ENTRY_MEMORY_USAGE in
              check budget memory_usage ;?
              let? rest := visible_entries_loop entries' mount_dir rel vpath budget memory_usage in
              Ok ((name, info) :: rest)
          end
      end
  end.

Definition visible_entries (entries : ReadDir) (mount_dir : Dir) (rel vpath : str)
    (budget : MemoryBudget) : result (list (str * EntryInfo)) MountError :=
  visible_entries_loop entries mount_dir rel vpath budget 0.

Definition host_list_visible_dir_entries (dir : Dir) (rel vpath : str) (budget : MemoryBudget) :
    result (list (str * EntryInfo)) MountError :=
  let? entries := map_err (fun err =>
                    map_io (match metadata dir rel with Err e => e | Ok _ => err end) vpath)
                  (read_dir dir rel) in
  visible_entries entries dir rel vpath budget.

(** The charge for holding one name of a listing. *)
Definition charge_name (usage : Z) (name : str) : Z :=
  sat_add (sat_add usage (as_u64 (zlen name))) LISTING_ENTRY_MEMORY_USAGE.

(** The loop that builds the paths of [host_iterdir]. *)
Fixpoint iterdir_paths (names : list str) (vpath : str) (budget : MemoryBudget)
    (memory_usage : Z) : result (list str) MountError :=
  match names with
  | [] => Ok []
  | name :: names' =>
      let path := format_child_path vpath name in
      let memory_usage := charge_name memory_usage path in
      check budget memory_usage ;?
      let? rest := iterdir_paths names' vpath budget memory_usage in
      Ok (path :: rest)
  end.

Definition host_iterdir (dir : Dir) (rel vpath : str) (budget : MemoryBudget) :
    result MontyObject MountError :=
  let? entries := host_list_visible_dir_entries dir rel vpath (halved budget) in
  let names := List.map fst entries in
  let memory_usage := fold_left charge_name names 0 in
  let? result := iterdir_paths names vpath budget memory_usage in
  Ok (OPathList result).

(** ** The write quota *)

Definition check_write_limit (bytes : Z) (ctx : MountContext) : result unit MountError :=
  match write_bytes_limit ctx with
  | Some limit =>
      if limit <? sat_add (write_bytes_used ctx) (as_u64 bytes)
      then Err (WriteLimitExceeded limit) else Ok tt
  | None => Ok tt
  end.

Definition commit_write_bytes (bytes : Z) (ctx : MountContext) : MountContext :=
  match write_bytes_limit ctx with
  | Some _ => set_write_bytes_used (sat_add (write_bytes_used ctx) (as_u64 bytes)) ctx
  | None => ctx
  end.

End Common.
