(* ===== verification/OverlayState.v ===== *)
(** Storage of in-memory overlay mounts
    ([crates/monty-fs/src/overlay_state.rs]): an ordered map from mount-relative
    paths to entries, with a running estimate of the memory it retains.

    [wf_state] is the accounting invariant: the estimate is the sum of what the
    entries are charged. *)
From S2P Require Import Prelude Str BTreeMap FileMode FsTypes Host Common.
Local Open Scope Z_scope.
Local Open Scope monty_scope.

Definition ENTRY_MEMORY_USAGE : Z := 256.

(** [mem::size_of::<OverlayEntry>()], which the compiler chooses. *)
Class OverlayLayout := {
  size_of_overlay_entry : Z;
  size_of_overlay_entry_nonneg : 0 <= size_of_overlay_entry }.

(** ** Data *)

Record OverlayFile := { content : bytes; f_mtime : f64 }.
Record OverlayFileRef := { ref_relative : str; ref_mtime : f64; ref_size : Z }.

Inductive OverlayEntry :=
| EFile (file : OverlayFile)
| ERealFileRef (file_ref : OverlayFileRef)
| EDirectory (mtime : f64)
| EDeleted.

#[export] Instance OverlayFile_eq_dec : EqDecision OverlayFile.
Proof. solve_decision. Defined.
#[export] Instance OverlayFileRef_eq_dec : EqDecision OverlayFileRef.
Proof. solve_decision. Defined.
#[export] Instance OverlayEntry_eq_dec : EqDecision OverlayEntry.
Proof. solve_decision. Defined.

Definition is_deleted (e : OverlayEntry) : bool :=
  match e with EDeleted => true | _ => false end.

Record OverlayState := { entries : btree OverlayEntry; memory_usage : Z }.

Definition new_state : OverlayState := {| entries := []; memory_usage := 0 |}.

Definition from_relative `{HostDir} (dir : Dir) (relative : str) : option OverlayFileRef :=
  match symlink_metadata dir relative with
  | Ok meta =>
      if m_is_file meta then
        Some {| ref_relative := relative; ref_mtime := mtime_secs meta;
                ref_size := to_i64_sat (m_len meta) |}
      else None
  | Err _ => None
  end.

Section State.
Context `{OverlayLayout}.

(** ** The code *)

Definition base_entry_memory_usage (relative_path : str) : Z :=
  sat_add (sat_add ENTRY_MEMORY_USAGE (as_u64 (zlen relative_path)))
          (as_u64 size_of_overlay_entry).

Definition entry_memory_usage (relative_path : str) (entry : OverlayEntry) : Z :=
  let variable := match entry with
                  | EFile file => zlen (content file)
                  | ERealFileRef file_ref => zlen (ref_relative file_ref)
                  | EDirectory _ | EDeleted => 0
                  end in
  sat_add (base_entry_memory_usage relative_path) (as_u64 variable).

Definition get (st : OverlayState) (relative_path : str) : option OverlayEntry :=
  bget (entries st) relative_path.

Definition old_usage (st : OverlayState) (relative_path : str) : Z :=
  match bget (entries st) relative_path with
  | Some old => entry_memory_usage relative_path old
  | None => 0
  end.

Definition projected_usage (st : OverlayState) (relative_path : str) (entry : OverlayEntry) : Z :=
  sat_add (sat_sub (memory_usage st) (old_usage st relative_path))
          (entry_memory_usage relative_path entry).

Definition remove (relative_path : str) (st : OverlayState) : option OverlayEntry * OverlayState :=
  match bget (entries st) relative_path with
  | None => (None, st)
  | Some entry =>
      (Some entry,
       {| entries := bremove (entries st) relative_path;
          memory_usage := sat_sub (memory_usage st) (entry_memory_usage relative_path entry) |})
  end.

Definition insert (relative_path : str) (entry : OverlayEntry) (limit : Z) :
    M OverlayState MountError unit :=
  fun st =>
    let projected := projected_usage st relative_path entry in
    if limit <? projected then (Err (MemoryUsageLimitExceeded limit), st)
    else (Ok tt, {| entries := binsert (entries st) relative_path entry;
                    memory_usage := projected |}).

Definition insert_unchecked (relative_path : str) (entry : OverlayEntry) (st : OverlayState) :
    OverlayState :=
  {| entries := binsert (entries st) relative_path entry;
     memory_usage := projected_usage st relative_path entry |}.

Definition append_file (relative_path : str) (data : bytes) (mtime : f64) (limit : Z) :
    M OverlayState MountError bool :=
  fun st =>
    match bget (entries st) relative_path with
    | Some (EFile file) =>
        let projected := sat_add (memory_usage st) (as_u64 (zlen data)) in
        if limit <? projected then (Err (MemoryUsageLimitExceeded limit), st)
        else
          let file' := {| content := content file ++ data; f_mtime := mtime |} in
          (Ok true, {| entries := binsert (entries st) relative_path (EFile file');
                       memory_usage := projected |})
    | _ => (Ok false, st)
    end.

Definition check_file_replacement (st : OverlayState) (relative_path : str) (content_len limit : Z) :
    result unit MountError :=
  let new_usage := sat_add (base_entry_memory_usage relative_path) (as_u64 content_len) in
  let projected := sat_add (sat_sub (memory_usage st) (old_usage st relative_path)) new_usage in
  if limit <? projected then Err (MemoryUsageLimitExceeded limit) else Ok tt.

(** The loop of [check_replacements]: [replaced] is what the paths already
    visited would be charged. *)
Fixpoint replacements_usage (st : OverlayState) (projected : Z) (replaced : btree Z)
    (replacements : list (str * OverlayEntry)) : Z :=
  match replacements with
  | [] => projected
  | (path, entry) :: rest =>
      let old := match bget replaced path with
                 | Some usage => usage
                 | None => old_usage st path
                 end in
      let new_usage := entry_memory_usage path entry in
      replacements_usage st (sat_add (sat_sub projected old) new_usage)
                         (binsert replaced path new_usage) rest
  end.

Definition check_replacements (st : OverlayState) (replacements : list (str * OverlayEntry))
    (limit : Z) : result unit MountError :=
  if limit <? replacements_usage st (memory_usage st) [] replacements
  then Err (MemoryUsageLimitExceeded limit) else Ok tt.

Definition prefix_iter (st : OverlayState) (prefix : str) : btree OverlayEntry :=
  match prefix with
  | [] => entries st
  | _ => let upper := removelast prefix ++ lit "0" in brange prefix upper (entries st)
  end.

(** ** The accounting invariant *)

Record wf_state (st : OverlayState) : Prop := {
  wf_sorted : bsorted (entries st);
  wf_usage : memory_usage st = btotal entry_memory_usage (entries st) }.

(** Several replacements, in order. *)
Definition insert_all (replacements : list (str * OverlayEntry)) (st : OverlayState) : OverlayState :=
  fold_left (fun st r => insert_unchecked r.1 r.2 st) replacements st.

Lemma as_u64_min n : as_u64 n = Z.min n u64_max.
Proof. unfold as_u64. destruct (n <=? u64_max) eqn:E; zbool; lia. Qed.

(** The charge for one entry, as one sum capped once. *)
Lemma entry_memory_usage_eq k e :
  entry_memory_usage k e =
  Z.min (ENTRY_MEMORY_USAGE + zlen k + size_of_overlay_entry +
         match e with
         | EFile f => zlen (content f)
         | ERealFileRef r => zlen (ref_relative r)
         | _ => 0
         end) u64_max.
Proof.
  unfold entry_memory_usage, base_entry_memory_usage, sat_add. rewrite !as_u64_min.
  pose proof (zlen_nonneg k). pose proof size_of_overlay_entry_nonneg.
  unfold ENTRY_MEMORY_USAGE, u64_max.
  destruct e as [f|r|t|]; [pose proof (zlen_nonneg (content f))
    |pose proof (zlen_nonneg (ref_relative r))| |]; lia.
Qed.

Lemma entry_memory_usage_nonneg k e : 0 <= entry_memory_usage k e.
Proof.
  rewrite entry_memory_usage_eq. pose proof (zlen_nonneg k).
  pose proof size_of_overlay_entry_nonneg. unfold ENTRY_MEMORY_USAGE, u64_max.
  destruct e as [f|r|t|]; [pose proof (zlen_nonneg (content f))
    |pose proof (zlen_nonneg (ref_relative r))| |]; lia.
Qed.

Lemma wf_usage_nonneg st : wf_state st -> 0 <= memory_usage st.
Proof. intros [_ ->]. apply btotal_nonneg, entry_memory_usage_nonneg. Qed.

Lemma old_usage_weight st k : old_usage st k = bweight entry_memory_usage (entries st) k.
Proof. done. Qed.

Lemma old_usage_bounds st k : wf_state st -> 0 <= old_usage st k <= memory_usage st.
Proof.
  intros [_ ->]. rewrite old_usage_weight.
  split; [apply bweight_nonneg|apply bweight_le]; apply entry_memory_usage_nonneg.
Qed.

(** Without saturation, the projection is the exact total after the insertion. *)
Lemma projected_usage_exact st k e :
  wf_state st -> projected_usage st k e < u64_max ->
  projected_usage st k e = btotal entry_memory_usage (binsert (entries st) k e).
Proof.
  intros Hwf. pose proof (old_usage_bounds st k Hwf). destruct Hwf as [Hs Hu].
  rewrite btotal_insert, <- Hu, <- old_usage_weight by done.
  unfold projected_usage, sat_add, sat_sub. lia.
Qed.

Lemma insert_unchecked_wf st k e :
  wf_state st -> projected_usage st k e < u64_max -> wf_state (insert_unchecked k e st).
Proof.
  intros Hwf Hp. pose proof Hwf as [Hs _].
  constructor; cbn; [by apply bsorted_insert|by apply projected_usage_exact].
Qed.

Lemma insert_wf limit st k e :
  limit < u64_max -> wf_state st -> wf_state (insert k e limit st).2.
Proof.
  intros Hl Hwf. unfold insert. destruct (limit <? _) eqn:E; [done|]. zbool. cbn.
  apply (insert_unchecked_wf st k e); [done|lia].
Qed.

Lemma insert_limit limit st k e :
  memory_usage st <= limit -> memory_usage (insert k e limit st).2 <= limit.
Proof. intros Hm. unfold insert. destruct (limit <? _) eqn:E; cbn; zbool; lia. Qed.

Lemma insert_Ok limit st k e st' :
  insert k e limit st = (Ok tt, st') -> st' = insert_unchecked k e st.
Proof. unfold insert. destruct (limit <? _); intros [=]; by subst. Qed.

Lemma insert_Err limit st k e err st' : insert k e limit st = (Err err, st') -> st' = st.
Proof. unfold insert. destruct (limit <? _); by intros [=]. Qed.

Lemma get_insert_unchecked k e st j :
  get (insert_unchecked k e st) j = if bool_decide (k = j) then Some e else get st j.
Proof. apply bget_insert. Qed.

Lemma append_file_wf limit st k d t :
  limit < u64_max -> wf_state st -> wf_state (append_file k d t limit st).2.
Proof.
  intros Hl Hwf. unfold append_file. destruct (bget (entries st) k) as [[f| | |]|] eqn:E; try done.
  destruct (limit <? _) eqn:El; [done|]. zbool. cbn.
  pose proof (old_usage_bounds st k Hwf) as Hb. destruct Hwf as [Hs Hu].
  constructor; cbn; [by apply bsorted_insert|].
  rewrite btotal_insert, <- Hu by done. rewrite <- old_usage_weight. revert Hb.
  unfold old_usage. rewrite E. rewrite !entry_memory_usage_eq. cbn [content].
  rewrite zlen_app. revert El. unfold sat_add. rewrite as_u64_min.
  pose proof (zlen_nonneg d). lia.
Qed.

Lemma append_file_limit limit st k d t :
  memory_usage st <= limit -> memory_usage (append_file k d t limit st).2 <= limit.
Proof.
  intros Hm. unfold append_file. destruct (bget _ _) as [[f| | |]|]; try done.
  destruct (limit <? _) eqn:E; cbn; zbool; lia.
Qed.

Lemma remove_wf st k : wf_state st -> wf_state (remove k st).2.
Proof.
  intros Hwf. unfold remove. destruct (bget (entries st) k) as [e|] eqn:E; [|done]. cbn.
  pose proof (old_usage_bounds st k Hwf) as Hb. destruct Hwf as [Hs Hu].
  constructor; cbn; [by apply bsorted_remove|].
  rewrite btotal_remove, <- Hu by done. rewrite <- old_usage_weight. revert Hb.
  unfold old_usage. rewrite E. unfold sat_sub. lia.
Qed.

Lemma get_remove st k j :
  get (remove k st).2 j = if bool_decide (k = j) then None else get st j.
Proof.
  unfold remove, get. destruct (bget (entries st) k) as [e|] eqn:E; cbn.
  - apply bget_remove.
  - case_bool_decide; [by subst|done].
Qed.

(** What [check_replacements] computes is the usage the insertions leave. *)
Lemma replacements_usage_inserts st st' replaced rs :
  (forall k, match bget replaced k with Some u => u | None => old_usage st k end
             = old_usage st' k) ->
  replacements_usage st (memory_usage st') replaced rs = memory_usage (insert_all rs st').
Proof.
  unfold insert_all. revert st' replaced.
  induction rs as [|[p e] rs IH]; intros st' replaced Hr; [done|].
  cbn [replacements_usage fold_left fst snd]. rewrite Hr.
  change (sat_add (sat_sub (memory_usage st') (old_usage st' p)) (entry_memory_usage p e))
    with (memory_usage (insert_unchecked p e st')).
  apply IH. intros k. unfold old_usage at 2. cbn [insert_unchecked entries].
  rewrite !bget_insert. case_bool_decide as Hk; [by subst|apply Hr].
Qed.

Lemma check_replacements_inserts st rs limit :
  check_replacements st rs limit =
  if limit <? memory_usage (insert_all rs st) then Err (MemoryUsageLimitExceeded limit) else Ok tt.
Proof. unfold check_replacements. by rewrite (replacements_usage_inserts st st []). Qed.

(** No insertion of the sequence saturates the estimate. *)
Fixpoint exact (rs : list (str * OverlayEntry)) (st : OverlayState) : Prop :=
  match rs with
  | [] => True
  | (k, e) :: rs => projected_usage st k e < u64_max /\ exact rs (insert_unchecked k e st)
  end.

Lemma insert_all_wf rs st : wf_state st -> exact rs st -> wf_state (insert_all rs st).
Proof.
  unfold insert_all. revert st. induction rs as [|[k e] rs IH]; intros st Hwf Hex; [done|].
  destruct Hex as [Hp Hex]. cbn. apply IH; [by apply insert_unchecked_wf|done].
Qed.

Lemma insert_all_app rs1 rs2 st : insert_all (rs1 ++ rs2) st = insert_all rs2 (insert_all rs1 st).
Proof. apply fold_left_app. Qed.

(** The last replacement of a key wins. *)
Fixpoint replaced_by (rs : list (str * OverlayEntry)) (k : str) : option OverlayEntry :=
  match rs with
  | [] => None
  | (j, e) :: rs => match replaced_by rs k with
                    | Some e' => Some e'
                    | None => if bool_decide (j = k) then Some e else None
                    end
  end.

Lemma get_insert_all rs st k :
  get (insert_all rs st) k =
  match replaced_by rs k with Some e => Some e | None => get st k end.
Proof.
  unfold insert_all. revert st. induction rs as [|[j e] rs IH]; intros st; [done|]. cbn.
  rewrite IH. destruct (replaced_by rs k); [done|]. rewrite get_insert_unchecked.
  by case_bool_decide.
Qed.

Lemma replaced_by_None rs k : replaced_by rs k = None <-> k ∉ List.map fst rs.
Proof.
  induction rs as [|[j e] rs IH]; cbn; [set_solver|].
  rewrite not_elem_of_cons. destruct (replaced_by rs k).
  - naive_solver.
  - case_bool_decide; naive_solver.
Qed.

Lemma insert_all_sorted rs st : bsorted (entries st) -> bsorted (entries (insert_all rs st)).
Proof.
  unfold insert_all. revert st. induction rs as [|[k e] rs IH]; intros st Hs; [done|].
  apply IH. by apply bsorted_insert.
Qed.

(** Equal lookups and a faithful estimate make equal states. *)
Lemma wf_state_ext st1 st2 :
  wf_state st1 -> wf_state st2 -> (forall k, get st1 k = get st2 k) -> st1 = st2.
Proof.
  intros [Hs1 Hu1] [Hs2 Hu2] Hg. pose proof (bsorted_ext _ _ Hs1 Hs2 Hg) as He.
  destruct st1, st2; cbn in *. by subst.
Qed.

(** [check_file_replacement] anticipates [insert] of a file of that length. *)
Lemma check_file_replacement_insert st k f limit :
  check_file_replacement st k (zlen (content f)) limit = (insert k (EFile f) limit st).1.
Proof.
  unfold check_file_replacement, insert, projected_usage, entry_memory_usage.
  by destruct (limit <? _).
Qed.

(** The range query of [prefix_iter] is the filter by prefix. *)
Lemma prefix_iter_filter st prefix :
  prefix = [] \/ ends_with_char slash prefix = true ->
  prefix_iter st prefix = List.filter (fun e => starts_with prefix e.1) (entries st).
Proof.
  intros [->|Hp].
  - cbn. induction (entries st) as [|e m IH]; [done|]. cbn. by rewrite IH at 1.
  - destruct prefix as [|c p] using rev_ind; [done|]. clear IHp.
    unfold ends_with_char in Hp. rewrite last_snoc in Hp. apply Ascii.eqb_eq in Hp as ->.
    unfold prefix_iter, brange. rewrite removelast_last.
    destruct (p ++ [slash]) as [|x q] eqn:E; [by destruct p|]. rewrite <- E. clear E x q.
    induction (entries st) as [|e m IH]; [done|]. cbn [List.filter].
    pose proof (slash_range p e.1) as Hr. change (lit "/") with [slash] in Hr.
    by rewrite Hr, IH.
Qed.

Lemma elem_of_prefix_iter st prefix k e :
  wf_state st -> prefix = [] \/ ends_with_char slash prefix = true ->
  (k, e) ∈ prefix_iter st prefix <-> get st k = Some e /\ prefix `prefix_of` k.
Proof.
  intros [Hs _] Hp. rewrite prefix_iter_filter by done.
  rewrite list_elem_of_In, filter_In, <- list_elem_of_In. cbn. rewrite starts_with_spec.
  unfold get. split; intros [H1 H2]; split; auto using elem_of_bget, bget_elem_of.
Qed.
End State.

#[export] Hint Resolve insert_wf append_file_wf remove_wf insert_limit append_file_limit : monty.

(** A layout to evaluate examples with. *)
Definition example_layout : OverlayLayout :=
  {| size_of_overlay_entry := 48; size_of_overlay_entry_nonneg := ltac:(lia) |}.
