(* ===== verification/Overlay.v ===== *)
(** The copy-on-write overlay backend ([crates/monty-fs/src/overlay.rs]).

    Reads consult the overlay's entries and fall through to the host; writes and
    deletions stay in the overlay. An operation that changes the overlay is a
    computation over the overlay's state and the mount's context; one that only
    looks is a function of them. *)
From S2P Require Import Prelude Str BTreeMap FileMode VirtualPath FsTypes PathSecurity Host Common OverlayState.
Local Open Scope Z_scope.
Local Open Scope monty_scope.

Definition REAL_DESCENDANT_MEMORY_USAGE : Z := 512.

Inductive OnLookupFailure := LMissing | LPropagate.
Inductive RealPathState := Present (rel : str) | Missing.
Inductive RealTarget := TDir | TFile | TSymlink | TAbsent.

#[export] Instance RealTarget_eq_dec : EqDecision RealTarget.
Proof. solve_decision. Defined.

Definition directory_prefix (relative : str) : str :=
  match relative with [] => [] | _ => relative ++ [slash] end.

Definition not_a_directory (vpath : str) : MountError :=
  io_err NotADirectory (lit "Not a directory") vpath.
Definition directory_not_empty (vpath : str) : MountError :=
  io_err DirectoryNotEmpty (lit "Directory not empty") vpath.

Definition SYMLINK_ONLY : EntryInfo :=
  {| is_dir := false; is_file := false; is_symlink := true |}.

Definition reject_mount_root (relative vpath : str) : result unit MountError :=
  if is_empty_str relative then Err (PathEscape vpath) else Ok tt.

Section Overlay.
Context `{HostDir} `{OverlayLayout}.

(** ** Paths *)

Definition relative_path (path : str) (ctx : MountContext) : result str MountError :=
  reject_null_bytes path ;?
  let normalized := normalize_virtual_path path in
  let? relative := ok_or (strip_mount_prefix normalized (mount_virtual ctx))
                         (NoMountPoint path) in
  reject_drive_or_unc_segments relative normalized ;?
  Ok relative.

Definition classify_target (dir : Dir) (rel vpath : str) : result RealTarget MountError :=
  match symlink_metadata dir rel with
  | Ok meta =>
      if m_is_symlink meta then Ok TSymlink
      else if m_is_dir meta then Ok TDir
      else Ok TFile
  | Err err =>
      if bool_decide (kind err = NotFound) then Ok TAbsent else Err (map_io err vpath)
  end.

Record ComponentWalk := { root : Dir; current : option Dir; exhausted : bool }.

Definition new_walk (dir : Dir) : ComponentWalk :=
  {| root := dir; current := None; exhausted := false |}.

Definition here (w : ComponentWalk) : Dir :=
  match current w with Some d => d | None => root w end.

Definition exhaust (w : ComponentWalk) : ComponentWalk :=
  {| root := root w; current := current w; exhausted := true |}.

Definition step (w : ComponentWalk) (component vpath : str) :
    result (RealTarget * ComponentWalk) MountError :=
  if exhausted w then Ok (TAbsent, w)
  else
    let? target := classify_target (here w) component vpath in
    if bool_decide (target = TDir) then
      match open_dir (here w) component with
      | Ok next => Ok (target, {| root := root w; current := Some next; exhausted := false |})
      | Err err =>
          if bool_decide (kind err = NotFound) then Ok (TAbsent, exhaust w)
          else Err (map_io err vpath)
      end
    else Ok (target, exhaust w).

Fixpoint reject_symlink_loop (w : ComponentWalk) (comps : list str) (vpath : str) :
    result unit MountError :=
  match comps with
  | [] => Ok tt
  | component :: rest =>
      let? (target, w) := step w component vpath in
      match target with
      | TSymlink => Err (PathEscape vpath)
      | TAbsent | TFile => Ok tt
      | TDir => reject_symlink_loop w rest vpath
      end
  end.

Definition reject_symlink_chain (dir : Dir) (rel vpath : str) : result unit MountError :=
  if is_empty_str rel || bool_decide (rel = dot) then Ok tt
  else reject_symlink_loop (new_walk dir) (split slash rel) vpath.

Definition resolve_real (vpath : str) (ctx : MountContext) : result MountRelativePath MountError :=
  let? target := resolve_virtual_path vpath (mount_virtual ctx) in
  reject_symlink_chain (mount_dir ctx) (for_dir_op target) vpath ;?
  Ok target.

Definition checked_ref_path (file_ref : OverlayFileRef) (ctx : MountContext) (vpath : str) :
    result str MountError :=
  reject_symlink_chain (mount_dir ctx) (ref_relative file_ref) vpath ;?
  Ok (ref_relative file_ref).

Definition available_memory (st : OverlayState) (ctx : MountContext) :
    result MemoryBudget MountError :=
  let? available := ok_or (checked_sub (memory_usage_limit ctx) (memory_usage st))
                          (MemoryUsageLimitExceeded (memory_usage_limit ctx)) in
  Ok {| available := available; limit := memory_usage_limit ctx |}.

Definition resolve_real_path_state (vpath : str) (ctx : MountContext)
    (on_failure : OnLookupFailure) : result RealPathState MountError :=
  match resolve_real vpath ctx with
  | Err err => match on_failure with LMissing => Ok Missing | LPropagate => Err err end
  | Ok target =>
      let rel := for_dir_op target in
      match metadata (mount_dir ctx) rel with
      | Ok _ => Ok (Present rel)
      | Err err =>
          if bool_decide (kind err = NotFound) then Ok Missing
          else match on_failure with
               | LMissing => Ok Missing
               | LPropagate => Err (map_io err vpath)
               end
      end
  end.

(** ** Predicates *)

Definition exists_ (st : OverlayState) (relative : str) (ctx : MountContext) (vpath : str) :
    result MontyObject MountError :=
  let? b :=
    match get st relative with
    | Some (EFile _ | ERealFileRef _ | EDirectory _) => Ok true
    | Some EDeleted => Ok false
    | None =>
        let? s := resolve_real_path_state vpath ctx LMissing in
        Ok (match s with Present _ => true | Missing => false end)
    end in
  Ok (OBool b).

Definition is_file_ (st : OverlayState) (relative : str) (ctx : MountContext) (vpath : str) :
    result MontyObject MountError :=
  let? b :=
    match get st relative with
    | Some (EFile _ | ERealFileRef _) => Ok true
    | Some (EDirectory _ | EDeleted) => Ok false
    | None =>
        let? s := resolve_real_path_state vpath ctx LMissing in
        Ok (match s with Present rel => host_is_file (mount_dir ctx) rel | Missing => false end)
    end in
  Ok (OBool b).

Definition is_dir_ (st : OverlayState) (relative : str) (ctx : MountContext) (vpath : str) :
    result MontyObject MountError :=
  let? b :=
    match get st relative with
    | Some (EDirectory _) => Ok true
    | Some (EFile _ | ERealFileRef _ | EDeleted) => Ok false
    | None =>
        let? s := resolve_real_path_state vpath ctx LMissing in
        Ok (match s with Present rel => host_is_dir (mount_dir ctx) rel | Missing => false end)
    end in
  Ok (OBool b).

(** [rel.rsplit_once('/').map_or("", |(parent, _)| parent)]. *)
Definition parent_of (rel : str) : str :=
  match rsplit_once slash rel with Some (parent, _) => parent | None => [] end.

Definition real_is_symlink (ctx : MountContext) (vpath : str) : bool :=
  is_ok_and (fun target =>
    let rel := for_dir_op target in
    is_ok (reject_symlink_chain (mount_dir ctx) (parent_of rel) vpath)
    && is_ok_and m_is_symlink (symlink_metadata (mount_dir ctx) rel))
  (resolve_virtual_path vpath (mount_virtual ctx)).

Definition is_symlink_ (st : OverlayState) (relative : str) (ctx : MountContext) (vpath : str) :
    MontyObject :=
  OBool (match get st relative with
         | Some _ => false
         | None => real_is_symlink ctx vpath
         end).

Definition described (is_dir is_file pi_exists : bool) : PathInfo :=
  {| info := {| is_dir := is_dir; is_file := is_file; is_symlink := false |};
     pi_exists := pi_exists |}.

Definition real_path_info (vpath : str) (ctx : MountContext) : PathInfo :=
  match resolve_virtual_path vpath (mount_virtual ctx) with
  | Err _ => ABSENT
  | Ok target =>
      let rel := for_dir_op target in
      if negb (is_ok (reject_symlink_chain (mount_dir ctx) (parent_of rel) vpath)) then ABSENT
      else match classify_target (mount_dir ctx) rel vpath with
           | Ok TSymlink => {| info := SYMLINK_ONLY; pi_exists := false |}
           | Ok TDir => described true false true
           | Ok TFile => described false (host_is_file (mount_dir ctx) rel) true
           | Ok TAbsent | Err _ => ABSENT
           end
  end.

(** [lstat_real] is the caller's closure. *)
Definition path_info (path : str) (ctx : MountContext) (st : OverlayState)
    (lstat_real : str -> option (result Metadata IoError)) : result PathInfo MountError :=
  let? relative := relative_path path ctx in
  Ok (match get st relative with
      | Some (EFile _ | ERealFileRef _) => described false true true
      | Some (EDirectory _) => described true false true
      | Some EDeleted => ABSENT
      | None =>
          match rok (resolve_virtual_path path (mount_virtual ctx))
                ≫= (fun target => lstat_real (for_dir_op target)) with
          | Some (Ok meta) =>
              if m_is_symlink meta then {| info := SYMLINK_ONLY; pi_exists := false |}
              else described (m_is_dir meta) (m_is_file meta) true
          | Some (Err _) => ABSENT
          | None => real_path_info path ctx
          end
      end).

(** ** Existing files and parents *)

Definition file_len (dir : Dir) (rel vpath : str) : result Z MountError :=
  let? meta := map_err (fun error => map_io error vpath) (metadata dir rel) in
  Ok (if m_len meta <=? usize_max then m_len meta else usize_max).

Definition existing_file_len (st : OverlayState) (relative : str) (ctx : MountContext) (vpath : str) :
    result Z MountError :=
  match get st relative with
  | Some (EFile file) => Ok (zlen (content file))
  | Some EDeleted => Ok 0
  | Some (ERealFileRef file_ref) =>
      let? rel := checked_ref_path file_ref ctx vpath in
      file_len (mount_dir ctx) rel vpath
  | Some (EDirectory _) => Err (is_a_directory vpath)
  | None =>
      let? s := resolve_real_path_state vpath ctx LPropagate in
      match s with
      | Present rel => file_len (mount_dir ctx) rel vpath
      | Missing => Ok 0
      end
  end.

Definition reject_directory_target (st : OverlayState) (relative : str) (ctx : MountContext)
    (vpath : str) : result unit MountError :=
  match get st relative with
  | Some (EDirectory _) => Err (is_a_directory vpath)
  | Some _ => Ok tt
  | None =>
      let? target := resolve_real vpath ctx in
      let? t := classify_target (mount_dir ctx) (for_dir_op target) vpath in
      match t with
      | TDir => Err (is_a_directory vpath)
      | TSymlink => Err (PathEscape vpath)
      | TFile | TAbsent => Ok tt
      end
  end.

(** [current] extended with one more component. *)
Definition push_component (current component : str) : str :=
  match current with [] => component | _ => current ++ slash :: component end.

Fixpoint ensure_parent_loop (st : OverlayState) (w : ComponentWalk) (current : str)
    (comps : list str) (vpath : str) : result unit MountError :=
  match comps with
  | [] => Ok tt
  | component :: rest =>
      let current := push_component current component in
      let? (real, w) := step w component vpath in
      match get st current with
      | Some (EDirectory _) => ensure_parent_loop st w current rest vpath
      | Some _ => Err (not_found vpath)
      | None =>
          match real with
          | TDir => ensure_parent_loop st w current rest vpath
          | TSymlink => Err (PathEscape vpath)
          | TFile | TAbsent => Err (not_found vpath)
          end
      end
  end.

Definition ensure_parent_exists (st : OverlayState) (relative : str) (ctx : MountContext)
    (vpath : str) : result unit MountError :=
  match rsplit_once slash relative with
  | None => Ok tt
  | Some (parents, _) =>
      ensure_parent_loop st (new_walk (mount_dir ctx)) [] (split slash parents) vpath
  end.

(** ** Listing *)

Definition overlay_directory_has_children (st : OverlayState) (relative : str) : bool :=
  existsb (fun e => negb (bool_decide (e.1 = relative)) && negb (is_deleted e.2))
          (prefix_iter st (directory_prefix relative)).

Definition real_directory_has_visible_children (st : OverlayState) (relative : str) (dir : Dir)
    (rel vpath : str) : result bool MountError :=
  let prefix := directory_prefix relative in
  let? es := map_err (fun err => map_io err vpath) (read_dir dir rel) in
  Ok (existsb (fun entry =>
        match entry with
        | Err _ => false
        | Ok entry =>
            let name := to_string_lossy (file_name entry) in
            negb (match get st (prefix ++ name) with Some EDeleted => true | _ => false end)
        end) es).

Definition real_dir_to_merge (st : OverlayState) (relative : str) (ctx : MountContext)
    (vpath : str) : result (option str) MountError :=
  match get st relative with
  | Some (EDirectory _) => Ok None
  | Some (EFile _ | ERealFileRef _) => Err (not_a_directory vpath)
  | Some EDeleted => Err (not_found vpath)
  | None =>
      let? target := resolve_real vpath ctx in
      if host_is_dir (mount_dir ctx) (for_dir_op target) then Ok (Some (for_dir_op target))
      else if negb (dir_exists (mount_dir ctx) (for_dir_op target)) then Err (not_found vpath)
      else Err (not_a_directory vpath)
  end.

Definition overlay_children (st : OverlayState) (prefix : str) : list (str * OverlayEntry) :=
  omap (fun e =>
    let rest := drop (length prefix) e.1 in
    if negb (is_empty_str rest) && negb (contains slash rest) then Some (rest, e.2) else None)
  (prefix_iter st prefix).

(** The charge for a name held in the dedup set and cloned. *)
Definition charge_child (usage : Z) (name : str) : Z :=
  sat_add (sat_add usage (as_u64 (sat_mul (zlen name) 2))) LISTING_ENTRY_MEMORY_USAGE.

(** The loop of [iterdir] over the overlay's children: the paths it pushes and
    the usage after it. *)
Fixpoint iterdir_overlay (children : list (str * OverlayEntry)) (vpath : str)
    (budget : MemoryBudget) (transient_usage : Z) : result (list str * Z) MountError :=
  match children with
  | [] => Ok ([], transient_usage)
  | (child_name, entry) :: rest =>
      let transient_usage := charge_child transient_usage child_name in
      check budget transient_usage ;?
      if negb (is_deleted entry) then
        let child_path := format_child_path vpath child_name in
        let transient_usage := charge_name transient_usage child_path in
        check budget transient_usage ;?
        let? (paths, usage) := iterdir_overlay rest vpath budget transient_usage in
        Ok (child_path :: paths, usage)
      else iterdir_overlay rest vpath budget transient_usage
  end.

Definition iterdir (st : OverlayState) (relative : str) (ctx : MountContext) (vpath : str) :
    result MontyObject MountError :=
  let? host_dir_to_merge := real_dir_to_merge st relative ctx vpath in
  let children := overlay_children st (directory_prefix relative) in
  let? budget := available_memory st ctx in
  let? (paths, transient_usage) := iterdir_overlay children vpath budget 0 in
  match host_dir_to_merge with
  | None => Ok (OPathList paths)
  | Some host_dir =>
      let seen_names := List.map fst children in
      let? remaining := shrink budget transient_usage in
      let? names := host_list_visible_dir_entries (mount_dir ctx) host_dir vpath (halved remaining) in
      let names := List.map fst names in
      let transient_usage := fold_left charge_name names transient_usage in
      let fresh := List.filter (fun name => negb (bool_decide (name ∈ seen_names))) names in
      let? real_paths := iterdir_paths fresh vpath budget transient_usage in
      Ok (OPathList (paths ++ real_paths))
  end.

(** The loop of [scan_list] over the overlay's children. *)
Fixpoint scan_overlay (children : list (str * OverlayEntry)) (budget : MemoryBudget)
    (transient_usage : Z) : result (list (str * EntryInfo) * Z) MountError :=
  match children with
  | [] => Ok ([], transient_usage)
  | (name, entry) :: rest =>
      let transient_usage := charge_child transient_usage name in
      check budget transient_usage ;?
      let? (listed, usage) := scan_overlay rest budget transient_usage in
      Ok (match entry with
          | EDeleted => listed
          | EDirectory _ =>
              (name, {| is_dir := true; is_file := false; is_symlink := false |}) :: listed
          | EFile _ | ERealFileRef _ =>
              (name, {| is_dir := false; is_file := true; is_symlink := false |}) :: listed
          end, usage)
  end.

(** [open_real] is the caller's closure. *)
Definition scan_list (path : str) (ctx : MountContext) (st : OverlayState) (budget : MemoryBudget)
    (open_real : str -> option ReadDir) : result (list (str * EntryInfo)) MountError :=
  let? relative := relative_path path ctx in
  let opened :=
    match get st relative with
    | None =>
        rok (resolve_virtual_path path (mount_virtual ctx)) ≫= fun target =>
        open_real (for_dir_op target) ≫= fun rd => Some (for_dir_op target, Some rd)
    | Some _ => None
    end in
  let? host_dir_to_merge :=
    match opened with
    | Some opened => Ok (Some opened)
    | None =>
        let? rel := real_dir_to_merge st relative ctx path in
        Ok (match rel with Some rel => Some (rel, None) | None => None end)
    end in
  let children := overlay_children st (directory_prefix relative) in
  let? (listed, transient_usage) := scan_overlay children budget 0 in
  match host_dir_to_merge with
  | None => Ok listed
  | Some (host_dir, rd) =>
      let seen_names := List.map fst children in
      let? remaining := shrink budget transient_usage in
      let? listing :=
        match rd with
        | Some rd => visible_entries rd (mount_dir ctx) host_dir path remaining
        | None => host_list_visible_dir_entries (mount_dir ctx) host_dir path remaining
        end in
      let fresh := List.filter (fun e => negb (bool_decide (e.1 ∈ seen_names))) listing in
      Ok (listed ++ List.map (fun e => (e.1, if is_symlink e.2 then SYMLINK_ONLY else e.2)) fresh)
  end.

Definition stat (st : OverlayState) (relative : str) (ctx : MountContext) (vpath : str) :
    result MontyObject MountError :=
  match get st relative with
  | Some (EFile file) => Ok (file_stat 420 (to_i64_sat (zlen (content file))) (f_mtime file))
  | Some (ERealFileRef file_ref) =>
      checked_ref_path file_ref ctx vpath ;?
      Ok (file_stat 420 (ref_size file_ref) (ref_mtime file_ref))
  | Some (EDirectory mtime) => Ok (dir_stat 493 mtime)
  | Some EDeleted => Err (not_found vpath)
  | None =>
      let? target := resolve_real vpath ctx in
      host_stat (mount_dir ctx) (for_dir_op target) vpath
  end.

End Overlay.
