(* ===== verification/OverlayOps.v ===== *)
(** The operations of the overlay backend that read file contents or change the
    overlay ([crates/monty-fs/src/overlay.rs]), and [execute] over them. *)
From S2P Require Import Prelude Str BTreeMap FileMode VirtualPath FsTypes PathSecurity Host Common OverlayState Overlay.
Local Open Scope Z_scope.
Local Open Scope monty_scope.

(** ** Plan of a rename *)

(** What [rename] decides before it changes anything. *)
Record RenamePlan := {
  p_src : str;
  p_dst : str;
  p_source_is_overlay : bool;
  p_source_entry : OverlayEntry;
  p_overlay_moves : list (str * str);
  p_real_moves : list (str * str * OverlayEntry) }.

Section Ops.
Context `{HostDir} `{OverlayLayout}.

(** A computation over the overlay and the mount's context. *)
Definition OM (A : Type) : Type := M (OverlayState * MountContext) MountError A.

Definition query {A} (f : OverlayState -> MountContext -> result A MountError) : OM A :=
  fun s => (f s.1 s.2, s).

Definition on_dir {A} (m : M Dir MountError A) : OM A :=
  fun s => let '(r, d) := m (mount_dir s.2) in (r, (s.1, set_mount_dir d s.2)).

Definition on_state {A} (m : M OverlayState MountError A) : OM A :=
  fun s => let '(r, st) := m s.1 in (r, (st, s.2)).

Definition modify_state (f : OverlayState -> OverlayState) : OM unit :=
  fun s => (Ok tt, (f s.1, s.2)).

Definition commit (bytes : Z) : OM unit :=
  fun s => (Ok tt, (s.1, commit_write_bytes bytes s.2)).

(** [state.insert(relative, entry, ctx.memory_usage_limit)]. *)
Definition insert_entry (relative : str) (entry : OverlayEntry) : OM unit :=
  fun s => on_state (insert relative entry (memory_usage_limit s.2)) s.

(** [OverlayEntry::File] with the given content, stamped by a clock reading. *)
Definition new_file (content : bytes) (now : SystemTime) : OverlayEntry :=
  EFile {| content := content; f_mtime := current_timestamp now |}.

(** ** Reading *)

Definition read_text (relative vpath : str) : OM MontyObject :=
  do (st, ctx) <- sget ;;
  match get st relative with
  | Some (EFile file) =>
      do budget <- slift (available_memory st ctx) ;;
      slift (check budget (as_u64 (zlen (content file)))) ;;;
      do text <- slift (bytes_to_utf8 (content file)) ;;
      sret (OString text)
  | Some (ERealFileRef file_ref) =>
      do rel <- slift (checked_ref_path file_ref ctx vpath) ;;
      do budget <- slift (available_memory st ctx) ;;
      on_dir (host_read_text rel vpath budget)
  | Some (EDirectory _) => sfail (is_a_directory vpath)
  | Some EDeleted => sfail (not_found vpath)
  | None =>
      do target <- slift (resolve_real vpath ctx) ;;
      do budget <- slift (available_memory st ctx) ;;
      on_dir (host_read_text (for_dir_op target) vpath budget)
  end.

Definition read_bytes (relative vpath : str) : OM MontyObject :=
  do (st, ctx) <- sget ;;
  match get st relative with
  | Some (EFile file) =>
      do budget <- slift (available_memory st ctx) ;;
      slift (check budget (as_u64 (zlen (content file)))) ;;;
      sret (OBytes (content file))
  | Some (ERealFileRef file_ref) =>
      do rel <- slift (checked_ref_path file_ref ctx vpath) ;;
      do budget <- slift (available_memory st ctx) ;;
      on_dir (host_read_bytes rel vpath budget)
  | Some (EDirectory _) => sfail (is_a_directory vpath)
  | Some EDeleted => sfail (not_found vpath)
  | None =>
      do target <- slift (resolve_real vpath ctx) ;;
      do budget <- slift (available_memory st ctx) ;;
      on_dir (host_read_bytes (for_dir_op target) vpath budget)
  end.

Definition existing_file_bytes (relative vpath : str) (budget : MemoryBudget) : OM bytes :=
  do (st, ctx) <- sget ;;
  match get st relative with
  | Some (EFile file) =>
      slift (check budget (as_u64 (zlen (content file)))) ;;;
      sret (content file)
  | Some EDeleted => sret []
  | Some (ERealFileRef file_ref) =>
      do rel <- slift (checked_ref_path file_ref ctx vpath) ;;
      on_dir (read_file_limited rel vpath budget)
  | Some (EDirectory _) => sfail (is_a_directory vpath)
  | None =>
      do s <- slift (resolve_real_path_state vpath ctx LPropagate) ;;
      match s with
      | Present rel => on_dir (read_file_limited rel vpath budget)
      | Missing => sret []
      end
  end.

(** ** Writing *)

(** The common part of [write_text] and [write_bytes]. *)
Definition write_content (vpath : str) (data : bytes) : OM unit :=
  let byte_len := zlen data in
  query (fun _ ctx => check_write_limit byte_len ctx) ;;;
  do relative <- query (fun _ ctx => relative_path vpath ctx) ;;
  query (fun st ctx => ensure_parent_exists st relative ctx vpath) ;;;
  query (fun st ctx => reject_directory_target st relative ctx vpath) ;;;
  query (fun st ctx => check_file_replacement st relative byte_len (memory_usage_limit ctx)) ;;;
  do (_, ctx) <- sget ;;
  insert_entry relative (new_file data (clock ctx 0%nat)) ;;;
  commit byte_len.

Definition write_text (vpath : str) (data : str) : OM MontyObject :=
  write_content vpath data ;;; sret (OInt (to_i64_sat (chars_count data))).

Definition write_bytes (vpath : str) (data : bytes) : OM MontyObject :=
  write_content vpath data ;;; sret (OInt (to_i64_sat (zlen data))).

Definition is_overlay_file (st : OverlayState) (relative : str) : bool :=
  match get st relative with Some (EFile _) => true | _ => false end.

Definition append_bytes (vpath : str) (data : bytes) : OM MontyObject :=
  do relative <- query (fun _ ctx => relative_path vpath ctx) ;;
  query (fun st ctx => ensure_parent_exists st relative ctx vpath) ;;;
  query (fun st ctx => reject_directory_target st relative ctx vpath) ;;;
  do (st, ctx) <- sget ;;
  let target_is_overlay_file := is_overlay_file st relative in
  do existing_len <- slift (existing_file_len st relative ctx vpath) ;;
  let charged_bytes :=
    if negb (bool_decide (write_bytes_limit ctx = None)) && negb target_is_overlay_file
    then sat_add existing_len (zlen data) else zlen data in
  slift (check_write_limit charged_bytes ctx) ;;;
  do appended <- on_state (append_file relative data (current_timestamp (clock ctx 0%nat))
                             (memory_usage_limit ctx)) ;;
  (if negb appended then
     let final_len := sat_add existing_len (zlen data) in
     query (fun st ctx => check_file_replacement st relative final_len (memory_usage_limit ctx)) ;;;
     do budget <- query available_memory ;;
     slift (check budget (as_u64 final_len)) ;;;
     do shrunk <- slift (shrink budget (as_u64 (zlen data))) ;;
     do old <- existing_file_bytes relative vpath shrunk ;;
     insert_entry relative (new_file (old ++ data) (clock ctx 1%nat))
   else sret tt) ;;;
  commit charged_bytes ;;;
  sret (OInt (to_i64_sat (zlen data))).

Definition append_text (vpath : str) (data : str) : OM MontyObject :=
  append_bytes vpath data ;;; sret (OInt (to_i64_sat (chars_count data))).

Definition create_exclusive (path : str) (mode : FileMode) : OM MontyObject :=
  do relative <- query (fun _ ctx => relative_path path ctx) ;;
  query (fun st ctx => ensure_parent_exists st relative ctx path) ;;;
  do (st, ctx) <- sget ;;
  do occupied <-
    match get st relative with
    | Some EDeleted => sret false
    | Some _ => sret true
    | None =>
        do target <- slift (resolve_virtual_path path (mount_virtual ctx)) ;;
        do t <- slift (classify_target (mount_dir ctx) (for_dir_op target) path) ;;
        sret (negb (bool_decide (t = TAbsent)))
    end ;;
  if (occupied : bool) then sfail (file_exists path)
  else
    slift (check_write_limit 0 ctx) ;;;
    insert_entry relative (new_file [] (clock ctx 0%nat)) ;;;
    sret (file_handle_result path mode).

Definition ensure_append_target_exists (vpath : str) : OM unit :=
  do relative <- query (fun _ ctx => relative_path vpath ctx) ;;
  do (st, ctx) <- sget ;;
  match get st relative with
  | Some (EFile _ | ERealFileRef _) => sret tt
  | Some (EDirectory _) => sfail (is_a_directory vpath)
  | Some EDeleted =>
      slift (ensure_parent_exists st relative ctx vpath) ;;;
      insert_entry relative (new_file [] (clock ctx 0%nat))
  | None =>
      do target <- slift (resolve_real vpath ctx) ;;
      do t <- slift (classify_target (mount_dir ctx) (for_dir_op target) vpath) ;;
      match t with
      | TDir => sfail (is_a_directory vpath)
      | TSymlink => sfail (PathEscape vpath)
      | TFile => slift (ensure_parent_exists st relative ctx vpath)
      | TAbsent =>
          slift (ensure_parent_exists st relative ctx vpath) ;;;
          insert_entry relative (new_file [] (clock ctx 0%nat))
      end
  end.

(** The [Read] arm of [open]. *)
Definition open_check_readable (st : OverlayState) (ctx : MountContext) (path : str) :
    result unit MountError :=
  let? relative := relative_path path ctx in
  match get st relative with
  | Some (EFile _ | ERealFileRef _) => Ok tt
  | Some (EDirectory _) => Err (is_a_directory path)
  | Some EDeleted => Err (not_found path)
  | None =>
      let? s := resolve_real_path_state path ctx LPropagate in
      match s with
      | Present rel => if host_is_dir (mount_dir ctx) rel then Err (is_a_directory path) else Ok tt
      | Missing => Err (not_found path)
      end
  end.

Definition open_ (path : str) (file_mode : FileMode) : OM MontyObject :=
  match file_mode with
  | Read _ | ReadUpdate _ => query (fun st ctx => open_check_readable st ctx path)
  | Write _ | WriteUpdate _ => write_text path [] ;;; sret tt
  | Append _ | AppendUpdate _ => ensure_append_target_exists path
  end ;;;
  sret (file_handle_result path file_mode).

(** ** Directories *)

Fixpoint dirs_to_create_loop (st : OverlayState) (ctx : MountContext) (w : ComponentWalk)
    (current : str) (comps : list str) : result (list str) MountError :=
  match comps with
  | [] => Ok []
  | component :: rest =>
      let current := push_component current component in
      let current_vpath := format_child_path (mount_virtual ctx) current in
      let? (real, w) := step w component current_vpath in
      let record := let? more := dirs_to_create_loop st ctx w current rest in
                    Ok (current :: more) in
      match get st current with
      | Some (EDirectory _) => dirs_to_create_loop st ctx w current rest
      | Some (EFile _ | ERealFileRef _) => Err (not_a_directory current_vpath)
      | Some EDeleted => record
      | None =>
          match real with
          | TDir => dirs_to_create_loop st ctx w current rest
          | TSymlink => Err (PathEscape current_vpath)
          | TFile => Err (not_a_directory current_vpath)
          | TAbsent => record
          end
      end
  end.

Definition overlay_dirs_to_create (st : OverlayState) (relative : str) (ctx : MountContext) :
    result (list str) MountError :=
  dirs_to_create_loop st ctx (new_walk (mount_dir ctx)) [] (split slash relative).

(** The guards of [mkdir] that answer without creating: [Some] is an early
    return. *)
Definition mkdir_early (st : OverlayState) (relative : str) (exist_ok : bool) (ctx : MountContext)
    (vpath : str) : result (option MontyObject) MountError :=
  match get st relative with
  | Some (EDirectory _) => if exist_ok then Ok (Some ONone) else Err (file_exists vpath)
  | Some (EFile _ | ERealFileRef _) => Err (file_exists vpath)
  | Some EDeleted => Ok None
  | None =>
      let? target := resolve_real vpath ctx in
      let? t := classify_target (mount_dir ctx) (for_dir_op target) vpath in
      match t with
      | TDir => if exist_ok then Ok (Some ONone) else Err (file_exists vpath)
      | TFile => Err (file_exists vpath)
      | TSymlink => Err (PathEscape vpath)
      | TAbsent => Ok None
      end
  end.

Definition mkdir (relative : str) (parents exist_ok : bool) (vpath : str) : OM MontyObject :=
  do early <- query (fun st ctx => mkdir_early st relative exist_ok ctx vpath) ;;
  match early with
  | Some r => sret r
  | None =>
      do to_create <-
        query (fun st ctx =>
          if parents then overlay_dirs_to_create st relative ctx
          else ensure_parent_exists st relative ctx vpath ;? Ok [relative]) ;;
      let charge := sat_mul (zlen to_create) DIRECTORY_WRITE_BYTES in
      do (_, ctx) <- sget ;;
      slift (check_write_limit charge ctx) ;;;
      let entry := EDirectory (current_timestamp (clock ctx 0%nat)) in
      query (fun st ctx =>
        check_replacements st (List.map (fun dir => (dir, entry)) to_create)
                           (memory_usage_limit ctx)) ;;;
      modify_state (fun st =>
        fold_left (fun st dir => insert_unchecked dir entry st) to_create st) ;;;
      commit charge ;;;
      sret ONone
  end.

Definition unlink (relative vpath : str) : OM MontyObject :=
  do (st, ctx) <- sget ;;
  match get st relative with
  | Some (EFile _ | ERealFileRef _) => insert_entry relative EDeleted ;;; sret ONone
  | Some (EDirectory _) => sfail (is_a_directory vpath)
  | Some EDeleted => sfail (not_found vpath)
  | None =>
      slift (ensure_parent_exists st relative ctx vpath) ;;;
      do resolved <- slift (resolve_real vpath ctx) ;;
      do t <- slift (classify_target (mount_dir ctx) (for_dir_op resolved) vpath) ;;
      match t with
      | TFile => insert_entry relative EDeleted ;;; sret ONone
      | TDir => sfail (is_a_directory vpath)
      | TSymlink => sfail (PathEscape vpath)
      | TAbsent => sfail (not_found vpath)
      end
  end.

Definition rmdir (relative vpath : str) : OM MontyObject :=
  slift (reject_mount_root relative vpath) ;;;
  do (st, ctx) <- sget ;;
  match get st relative with
  | Some (EDirectory _) =>
      if overlay_directory_has_children st relative then sfail (directory_not_empty vpath)
      else insert_entry relative EDeleted ;;; sret ONone
  | Some (EFile _ | ERealFileRef _) => sfail (not_a_directory vpath)
  | Some EDeleted => sfail (not_found vpath)
  | None =>
      slift (ensure_parent_exists st relative ctx vpath) ;;;
      do resolved <- slift (resolve_real vpath ctx) ;;
      let rel := for_dir_op resolved in
      if negb (host_is_dir (mount_dir ctx) rel) then
        sfail (if dir_exists (mount_dir ctx) rel then not_a_directory vpath else not_found vpath)
      else
        do b <- slift (real_directory_has_visible_children st relative (mount_dir ctx) rel vpath) ;;
        if (b : bool) then sfail (directory_not_empty vpath)
        else if overlay_directory_has_children st relative then sfail (directory_not_empty vpath)
        else insert_entry relative EDeleted ;;; sret ONone
  end.

(** ** Renaming *)

Definition reject_rename_type_mismatch (st : OverlayState) (dst_rel : str) (src_is_dir : bool)
    (ctx : MountContext) (dst_vpath : str) : result unit MountError :=
  let dst_is_dir :=
    match get st dst_rel with
    | Some (EDirectory _) => Some true
    | Some (EFile _ | ERealFileRef _) => Some false
    | Some EDeleted => None
    | None =>
        match resolve_virtual_path dst_vpath (mount_virtual ctx) with
        | Ok target =>
            if host_is_dir (mount_dir ctx) (for_dir_op target) then Some true
            else if dir_exists (mount_dir ctx) (for_dir_op target) then Some false
            else None
        | Err _ => None
        end
    end in
  match dst_is_dir with
  | Some true => if negb src_is_dir then Err (is_a_directory dst_vpath) else Ok tt
  | Some false => if src_is_dir then Err (not_a_directory dst_vpath) else Ok tt
  | None => Ok tt
  end.

Definition reject_rename_onto_nonempty_dir (st : OverlayState) (dst_rel : str)
    (ctx : MountContext) (dst_vpath : str) : result unit MountError :=
  let dst_is_dir :=
    match get st dst_rel with
    | Some (EDirectory _) => true
    | Some (EDeleted | EFile _ | ERealFileRef _) => false
    | None => is_ok_and (fun target => host_is_dir (mount_dir ctx) (for_dir_op target))
                        (resolve_virtual_path dst_vpath (mount_virtual ctx))
    end in
  if negb dst_is_dir then Ok tt
  else if overlay_directory_has_children st dst_rel then Err (directory_not_empty dst_vpath)
  else match resolve_virtual_path dst_vpath (mount_virtual ctx) with
       | Ok target =>
           if host_is_dir (mount_dir ctx) (for_dir_op target) then
             let? b := real_directory_has_visible_children st dst_rel (mount_dir ctx)
                         (for_dir_op target) dst_vpath in
             if b : bool then Err (directory_not_empty dst_vpath) else Ok tt
           else Ok tt
       | Err _ => Ok tt
       end.

(** The state of the collection: usage so far, the entries found and the
    directories still to list (the last is the next popped). *)
Record Collect := {
  c_usage : Z;
  c_result : list (str * OverlayEntry);
  c_dirs : list (str * str) }.

(** One entry of a listing of [current_rel]. *)
Definition collect_entry (ctx : MountContext) (current_rel rel_prefix : str) (st : OverlayState)
    (already_handled : list str) (vpath : str) (budget : MemoryBudget) (c : Collect)
    (entry : result DirEntry IoError) : result Collect MountError :=
  let? entry := map_err (fun error => map_io error vpath) entry in
  match to_str (file_name entry) with
  | None =>
      Err (io_err InvalidData (lit "directory contains an entry with a non-UTF-8 name") vpath)
  | Some name =>
      let rel_key := rel_prefix ++ name in
      if (match get st rel_key with Some _ => true | None => false end)
         || bool_decide (rel_key ∈ already_handled) then Ok c
      else
        let? ftype := map_err (fun error => Io error vpath) (file_type entry) in
        if kind_is KSymlink ftype then Err (PathEscape vpath)
        else
          let child_rel := join_mount_relative current_rel name in
          if kind_is KFile ftype then
            match from_relative (mount_dir ctx) child_rel with
            | None => Ok c
            | Some file_ref =>
                let usage :=
                  sat_add (sat_add (sat_add (c_usage c) (as_u64 (zlen rel_key)))
                                   (as_u64 (zlen (ref_relative file_ref))))
                          REAL_DESCENDANT_MEMORY_USAGE in
                check budget usage ;?
                Ok {| c_usage := usage;
                      c_result := c_result c ++ [(rel_key, ERealFileRef file_ref)];
                      c_dirs := c_dirs c |}
            end
          else if kind_is KDir ftype then
            let usage :=
              sat_add (sat_add (sat_add (c_usage c) (as_u64 (sat_mul (zlen rel_key) 2)))
                               (as_u64 (zlen child_rel)))
                      REAL_DESCENDANT_MEMORY_USAGE in
            check budget usage ;?
            let mtime := host_dir_mtime (mount_dir ctx) child_rel
                           (clock ctx (S (length (c_result c)))) in
            Ok {| c_usage := usage;
                  c_result := c_result c ++ [(rel_key, EDirectory mtime)];
                  c_dirs := c_dirs c ++ [(child_rel, rel_key ++ [slash])] |}
          else Ok c
  end.

Fixpoint collect_entries (ctx : MountContext) (current_rel rel_prefix : str) (st : OverlayState)
    (already_handled : list str) (vpath : str) (budget : MemoryBudget) (c : Collect)
    (listing : ReadDir) : result Collect MountError :=
  match listing with
  | [] => Ok c
  | entry :: rest =>
      let? c := collect_entry ctx current_rel rel_prefix st already_handled vpath budget c entry in
      collect_entries ctx current_rel rel_prefix st already_handled vpath budget c rest
  end.

(** The [while let Some(..) = dirs.pop()] loop; [None] is running out of fuel. *)
Fixpoint collect_loop (fuel : nat) (ctx : MountContext) (st : OverlayState)
    (already_handled : list str) (vpath : str) (budget : MemoryBudget) (c : Collect) :
    option (result (list (str * OverlayEntry)) MountError) :=
  match last (c_dirs c) with
  | None => Some (Ok (c_result c))
  | Some (current_rel, rel_prefix) =>
      match fuel with
      | O => None
      | S fuel =>
          match map_err (fun error => map_io error vpath) (read_dir (mount_dir ctx) current_rel) with
          | Err e => Some (Err e)
          | Ok listing =>
              let c := {| c_usage := c_usage c; c_result := c_result c;
                          c_dirs := removelast (c_dirs c) |} in
              match collect_entries ctx current_rel rel_prefix st already_handled vpath budget c
                      listing with
              | Err e => Some (Err e)
              | Ok c => collect_loop fuel ctx st already_handled vpath budget c
              end
          end
      end
  end.

(** Every directory queued is charged at least [REAL_DESCENDANT_MEMORY_USAGE]
    within the budget, so this many rounds are enough. *)
Definition collect_fuel (budget : MemoryBudget) : nat :=
  S (Z.to_nat (available budget / REAL_DESCENDANT_MEMORY_USAGE)).

Definition collect_start (root_rel prefix : str) : Collect :=
  {| c_usage := as_u64 (sat_add (zlen root_rel) (zlen prefix));
     c_result := [];
     c_dirs := [(root_rel, prefix)] |}.

Definition collect_real_descendants (ctx : MountContext) (root_rel prefix : str)
    (st : OverlayState) (already_handled : list str) (vpath : str) (budget : MemoryBudget) :
    option (result (list (str * OverlayEntry)) MountError) :=
  collect_loop (collect_fuel budget) ctx st already_handled vpath budget
               (collect_start root_rel prefix).

(** Which collection errors fail the rename; the others leave no real children. *)
Definition real_children (r : option (result (list (str * OverlayEntry)) MountError)) (limit : Z) :
    result (list (str * OverlayEntry)) MountError :=
  match r with
  | None => Err (MemoryUsageLimitExceeded limit)
  | Some (Ok children) => Ok children
  | Some (Err error) =>
      match error with
      | MemoryUsageLimitExceeded _ | PathEscape _ => Err error
      | Io io_error _ => if bool_decide (kind io_error = InvalidData) then Err error else Ok []
      | _ => Ok []
      end
  end.

(** [plan_usage], the charge for moving the overlay's own descendants. *)
Definition rename_plan_usage (st : OverlayState) (src_prefix dst_prefix : str) : Z :=
  fold_left (fun usage e =>
    let suffix_len := sat_sub (zlen e.1) (zlen src_prefix) in
    sat_add (sat_add (sat_add usage (as_u64 (sat_mul (zlen e.1) 2)))
                     (as_u64 (sat_add (zlen dst_prefix) suffix_len)))
            ENTRY_MEMORY_USAGE) (prefix_iter st src_prefix) 0.

(** The moves of a directory rename: the overlay's descendants, then the real
    ones. *)
Definition rename_moves (st : OverlayState) (ctx : MountContext) (src_rel dst_rel src_vpath : str) :
    result (list (str * str) * list (str * str * OverlayEntry)) MountError :=
  let src_prefix := src_rel ++ [slash] in
  let dst_prefix := dst_rel ++ [slash] in
  let? budget := available_memory st ctx in
  let? remaining := shrink budget (rename_plan_usage st src_prefix dst_prefix) in
  let child_keys := List.map fst (prefix_iter st src_prefix) in
  let overlay_moves :=
    List.map (fun key => (key, dst_prefix ++ drop (length src_prefix) key)) child_keys in
  let? real_moves :=
    match resolve_real src_vpath ctx with
    | Ok target =>
        if host_is_dir (mount_dir ctx) (for_dir_op target) then
          let? children :=
            real_children (collect_real_descendants ctx (for_dir_op target) src_prefix st child_keys
                             src_vpath remaining) (limit remaining) in
          Ok (List.map (fun e =>
                (e.1, dst_prefix ++ default e.1 (strip_prefix src_prefix e.1), e.2)) children)
        else Ok []
    | Err _ => Ok []
    end in
  Ok (overlay_moves, real_moves).

(** The entry the source becomes, and whether the overlay held it. *)
Definition rename_source (st : OverlayState) (ctx : MountContext) (src_rel src_vpath : str) :
    result (bool * OverlayEntry) MountError :=
  match get st src_rel with
  | Some e => Ok (true, e)
  | None =>
      let? target := resolve_real src_vpath ctx in
      let rel := for_dir_op target in
      let? t := classify_target (mount_dir ctx) rel src_vpath in
      match t with
      | TFile =>
          let? r := ok_or (from_relative (mount_dir ctx) rel) (not_found src_vpath) in
          Ok (false, ERealFileRef r)
      | TDir => Ok (false, EDirectory (host_dir_mtime (mount_dir ctx) rel (clock ctx 0%nat)))
      | TSymlink => Err (PathEscape src_vpath)
      | TAbsent => Err (not_found src_vpath)
      end
  end.

(** The replacements a plan makes, as [check_replacements] is given them. A key
    of an overlay move is a key of the map, so the lookup does not fail. *)
Definition plan_replacements (st : OverlayState) (p : RenamePlan) : list (str * OverlayEntry) :=
  [(p_src p, EDeleted); (p_dst p, p_source_entry p)]
  ++ flat_map (fun m => [(m.1, EDeleted); (m.2, default EDeleted (get st m.1))])
              (p_overlay_moves p)
  ++ flat_map (fun m => [(m.1.1, EDeleted); (m.1.2, m.2)]) (p_real_moves p).

(** Whether the source of a rename is a directory. *)
Definition rename_src_is_dir (st : OverlayState) (ctx : MountContext) (src_rel src_vpath : str) :
    result bool MountError :=
  match get st src_rel with
  | Some (EDirectory _) => Ok true
  | Some (EFile _ | ERealFileRef _) => Ok false
  | Some EDeleted => Err (not_found src_vpath)
  | None =>
      let? target := resolve_real src_vpath ctx in
      Ok (host_is_dir (mount_dir ctx) (for_dir_op target))
  end.

(** [rename] up to its preflight check. *)
Definition rename_plan (st : OverlayState) (ctx : MountContext) (src_vpath dst_vpath : str) :
    result RenamePlan MountError :=
  let? src_rel := relative_path src_vpath ctx in
  let? dst_rel := relative_path dst_vpath ctx in
  reject_mount_root src_rel src_vpath ;?
  reject_mount_root dst_rel dst_vpath ;?
  ensure_parent_exists st dst_rel ctx dst_vpath ;?
  (match get st dst_rel with None => resolve_real dst_vpath ctx ;? Ok tt | Some _ => Ok tt end) ;?
  ensure_parent_exists st src_rel ctx src_vpath ;?
  let? src_is_dir := rename_src_is_dir st ctx src_rel src_vpath in
  reject_rename_type_mismatch st dst_rel src_is_dir ctx dst_vpath ;?
  (if src_is_dir : bool then reject_rename_onto_nonempty_dir st dst_rel ctx dst_vpath
   else Ok tt) ;?
  (if src_is_dir && starts_with (src_rel ++ [slash]) dst_rel
   then Err (io_err InvalidInput (lit "Invalid argument") src_vpath) else Ok tt) ;?
  let? (source_is_overlay, source_entry) := rename_source st ctx src_rel src_vpath in
  let? (overlay_moves, real_moves) :=
    if src_is_dir : bool then rename_moves st ctx src_rel dst_rel src_vpath else Ok ([], []) in
  let plan := {| p_src := src_rel; p_dst := dst_rel; p_source_is_overlay := source_is_overlay;
                 p_source_entry := source_entry; p_overlay_moves := overlay_moves;
                 p_real_moves := real_moves |} in
  check_replacements st (plan_replacements st plan) (memory_usage_limit ctx) ;?
  Ok plan.

(** Removes the overlay's own descendants, pairing each with its entry. *)
Fixpoint take_moves (moves : list (str * str)) (st : OverlayState) :
    list (str * str * OverlayEntry) * OverlayState :=
  match moves with
  | [] => ([], st)
  | (old_rel, new_rel) :: rest =>
      let '(e, st) := remove old_rel st in
      let '(taken, st) := take_moves rest st in
      ((old_rel, new_rel, default EDeleted e) :: taken, st)
  end.

(** [rename] after its preflight check. *)
Definition rename_commit (p : RenamePlan) (st : OverlayState) : OverlayState :=
  let '(entry, st) :=
    if p_source_is_overlay p then
      let '(e, st) := remove (p_src p) st in (default EDeleted e, st)
    else (p_source_entry p, st) in
  let '(taken, st) := take_moves (p_overlay_moves p) st in
  let descendants := taken ++ p_real_moves p in
  let st := insert_unchecked (p_src p) EDeleted st in
  let st := insert_unchecked (p_dst p) entry st in
  fold_left (fun st m => insert_unchecked m.1.2 m.2 (insert_unchecked m.1.1 EDeleted st))
            descendants st.

Definition rename (src_vpath dst_vpath : str) : OM MontyObject :=
  do plan <- query (fun st ctx => rename_plan st ctx src_vpath dst_vpath) ;;
  modify_state (rename_commit plan) ;;;
  sret ONone.

(** ** Dispatch *)

Definition execute (request : FsRequest) : OM MontyObject :=
  let rel path := query (fun _ ctx => relative_path path ctx) in
  match request with
  | RExists path => do r <- rel path ;; query (fun st ctx => exists_ st r ctx path)
  | RIsFile path => do r <- rel path ;; query (fun st ctx => is_file_ st r ctx path)
  | RIsDir path => do r <- rel path ;; query (fun st ctx => is_dir_ st r ctx path)
  | RIsSymlink path => do r <- rel path ;; query (fun st ctx => Ok (is_symlink_ st r ctx path))
  | RReadText path => do r <- rel path ;; read_text r path
  | RReadBytes path => do r <- rel path ;; read_bytes r path
  | RWriteText path data => write_text path data
  | RWriteBytes path data => write_bytes path data
  | RAppendText path data => append_text path data
  | RAppendBytes path data => append_bytes path data
  | RMkdir path parents exist_ok => do r <- rel path ;; mkdir r parents exist_ok path
  | RUnlink path => do r <- rel path ;; unlink r path
  | RRmdir path => do r <- rel path ;; rmdir r path
  | RIterdir path => do r <- rel path ;; query (fun st ctx => iterdir st r ctx path)
  | RStat path => do r <- rel path ;; query (fun st ctx => stat st r ctx path)
  | RRename src dst => rename src dst
  | RResolve path | RAbsolute path => sret (OPath (normalize_virtual_path path))
  | RCreateExclusive path mode _ => create_exclusive path mode
  | ROpen path mode => open_ path mode
  end.

End Ops.
