(* ===== verification/TreeHost.v ===== *)
(** A host that satisfies the [HostDir] interface: a directory tree in memory.

    It shows that the laws the mounts rely on can hold, and gives the examples
    a filesystem to run on. Its symbolic links all lead out of the mount, so
    resolving through one is the library's escape error. *)
From S2P Require Import Prelude Str FileMode VirtualPath FsTypes Host.
Local Open Scope monty_scope.

Inductive tree :=
| File_ (data : bytes) (modified : SystemTime)
| Dir_ (children : list (bytes * tree)) (modified : SystemTime)
| Link_
| Special_.

Definition os_error (k : ErrorKind) (code : Z) : IoError :=
  {| kind := k; raw_os_error := Some code; display := [] |}.
Definition enoent : IoError := os_error NotFound 2.
Definition eexist : IoError := os_error AlreadyExists 17.
Definition enotdir : IoError := os_error NotADirectory 20.
Definition eisdir : IoError := os_error IsADirectory 21.
Definition enotempty : IoError := os_error DirectoryNotEmpty 39.
Definition escape_error : IoError :=
  {| kind := PermissionDenied; raw_os_error := None; display := [] |}.

Fixpoint child (name : bytes) (l : list (bytes * tree)) : option tree :=
  match l with
  | [] => None
  | (n, t) :: l' => if bool_decide (n = name) then Some t else child name l'
  end.

Fixpoint set_child (name : bytes) (t : tree) (l : list (bytes * tree)) : list (bytes * tree) :=
  match l with
  | [] => [(name, t)]
  | (n, u) :: l' => if bool_decide (n = name) then (n, t) :: l' else (n, u) :: set_child name t l'
  end.

Definition del_child (name : bytes) (l : list (bytes * tree)) : list (bytes * tree) :=
  List.filter (fun e => negb (bool_decide (e.1 = name))) l.

Definition tree_kind (t : tree) : FileKind :=
  match t with File_ _ _ => KFile | Dir_ _ _ => KDir | Link_ => KSymlink | Special_ => KOther end.

Definition tree_meta (t : tree) : Metadata :=
  {| m_kind := tree_kind t;
     m_size := match t with File_ d _ => N.of_nat (length d) | _ => 0%N end;
     m_modified := match t with File_ _ m | Dir_ _ m => Ok m | _ => Ok 0%Z end |}.

(** A name a directory can list. *)
Definition plain_name (name : bytes) : bool :=
  negb (special_segment name) && negb (contains slash name).

(** The components of a path relative to the handle. *)
Definition tree_path (rel : str) : list str :=
  if bool_decide (rel = dot) then [] else split slash rel.

Fixpoint walk (t : tree) (comps : list str) : result tree IoError :=
  match comps with
  | [] => Ok t
  | c :: rest =>
      match t with
      | Dir_ l _ => match child c l with Some u => walk u rest | None => Err enoent end
      | Link_ => Err escape_error
      | _ => Err enotdir
      end
  end.

(** Follows a final link, which leads outside. *)
Definition follow (t : tree) : result tree IoError :=
  match t with Link_ => Err escape_error | _ => Ok t end.

(** Rewrites the entry at a path: [f] maps what is there, if anything, to what
    replaces it. *)
Fixpoint alter (t : tree) (comps : list str) (f : option tree -> result (option tree) IoError) :
    result tree IoError :=
  match comps with
  | [] => Err eisdir
  | c :: rest =>
      match t with
      | Dir_ l m =>
          match rest with
          | [] =>
              let? r := f (child c l) in
              Ok (Dir_ (match r with Some u => set_child c u l | None => del_child c l end) m)
          | _ =>
              match child c l with
              | Some u => let? u' := alter u rest f in Ok (Dir_ (set_child c u' l) m)
              | None => Err enoent
              end
          end
      | Link_ => Err escape_error
      | _ => Err enotdir
      end
  end.

(** An update that leaves the tree alone when it fails. *)
Definition updating {A} (a : A) (t : tree) (r : result tree IoError) : result A IoError * tree :=
  match r with Ok t' => (Ok a, t') | Err e => (Err e, t) end.

(** An open file: its path and whether it appends. *)
Definition tree_file : Type := str * bool.

Definition tree_open (o : OpenOptions) (rel : str) (t : tree) : result tree_file IoError * tree :=
  if only_reads o then
    (let? u := walk t (tree_path rel) in let? _ := follow u in Ok (rel, false), t)
  else
    updating (rel, o_append o) t
      (alter t (tree_path rel) (fun u =>
         match u with
         | None => if o_create o || o_create_new o then Ok (Some (File_ [] 0)) else Err enoent
         | Some (File_ d m) =>
             if o_create_new o then Err eexist
             else Ok (Some (File_ (if o_truncate o then [] else d) m))
         | Some (Dir_ _ _) => Err (if o_create_new o then eexist else eisdir)
         | Some Link_ => Err (if o_create_new o then eexist else escape_error)
         | Some Special_ => if o_create_new o then Err eexist else Ok u
         end)).

Definition tree_write (f : tree_file) (data : bytes) (t : tree) : result unit IoError * tree :=
  updating tt t
    (alter t (tree_path f.1) (fun u =>
       match u with
       | Some (File_ d m) =>
           Ok (Some (File_ (if f.2 then d ++ data else data ++ drop (length data) d) m))
       | _ => Err enoent
       end)).

Definition tree_metadata (t : tree) (rel : str) : result Metadata IoError :=
  let? u := walk t (tree_path rel) in let? v := follow u in Ok (tree_meta v).

Definition tree_create_dir (rel : str) (t : tree) : result unit IoError * tree :=
  updating tt t
    (alter t (tree_path rel)
       (fun u => match u with None => Ok (Some (Dir_ [] 0)) | Some _ => Err eexist end)).

(** Creates the prefixes of the path that are missing, shortest first. *)
Fixpoint tree_create_prefixes (fuel : nat) (pre rest : list str) (t : tree) :
    result unit IoError * tree :=
  match fuel, rest with
  | S fuel, c :: rest =>
      let pre := pre ++ [c] in
      match walk t pre with
      | Ok (Dir_ _ _) => tree_create_prefixes fuel pre rest t
      | _ => match tree_create_dir (join slash pre) t with
             | (Ok _, t) => tree_create_prefixes fuel pre rest t
             | (Err e, t) => (Err e, t)
             end
      end
  | _, _ => (Ok tt, t)
  end.

#[export] Instance tree_host : HostDir := {|
  Dir := tree;
  File := tree_file;
  symlink_metadata t rel := let? u := walk t (tree_path rel) in Ok (tree_meta u);
  metadata := tree_metadata;
  dir_exists t rel := is_ok (tree_metadata t rel);
  open_dir t rel :=
    let? u := walk t (tree_path rel) in
    match u with Dir_ _ _ => Ok u | Link_ => Err escape_error | _ => Err enotdir end;
  read_dir t rel :=
    let? u := walk t (tree_path rel) in
    match u with
    | Dir_ l _ =>
        Ok (List.map (fun e => Ok {| file_name := e.1; file_type := Ok (tree_kind e.2) |})
              (List.filter (fun e => plain_name e.1) l))
    | Link_ => Err escape_error
    | _ => Err enotdir
    end;
  open_with := tree_open;
  file_metadata t f := tree_metadata t f.1;
  take_read_to_end t f n :=
    let? u := walk t (tree_path f.1) in
    match u with File_ d _ => Ok (take (Z.to_nat n) d) | _ => Err eisdir end;
  write_all := tree_write;
  create_dir := tree_create_dir;
  create_dir_all rel t :=
    tree_create_prefixes (length (tree_path rel)) [] (tree_path rel) t;
  remove_file rel t :=
    updating tt t (alter t (tree_path rel)
      (fun u => match u with
                | None => Err enoent
                | Some (Dir_ _ _) => Err eisdir
                | Some _ => Ok None
                end));
  remove_dir rel t :=
    updating tt t (alter t (tree_path rel)
      (fun u => match u with
                | None => Err enoent
                | Some (Dir_ [] _) => Ok None
                | Some (Dir_ _ _) => Err enotempty
                | Some _ => Err enotdir
                end));
  dir_rename src dst t :=
    updating tt t
      (let? u := walk t (tree_path src) in
       let? t1 := alter t (tree_path src) (fun _ => Ok None) in
       alter t1 (tree_path dst) (fun v =>
         match u, v with
         | Dir_ _ _, Some (Dir_ [] _) | Dir_ _ _, None => Ok (Some u)
         | Dir_ _ _, Some (Dir_ _ _) => Err enotempty
         | Dir_ _ _, Some _ => Err enotdir
         | _, Some (Dir_ _ _) => Err eisdir
         | _, _ => Ok (Some u)
         end)) |}.

Lemma updating_err {A} (a : A) t r e t' : updating a t r = (Err e, t') -> t' = t.
Proof. destruct r; by intros [=]. Qed.

#[export] Instance tree_host_laws : HostLaws.
Proof.
  constructor; intros *; cbn; try apply updating_err.
  - unfold tree_open. by intros ->.
  - destruct (walk d _) as [[data m| | |]|]; cbn; try done.
    intros [= <-] Hn n' b' [= <-] Hn'. unfold zlen in *. rewrite length_take in *.
    rewrite !take_ge by lia. done.
  - intros Ho. unfold tree_open, tree_metadata. rewrite Ho. cbn.
    destruct (walk d _) as [[]|]; cbn; naive_solver.
  - unfold tree_metadata. destruct (walk d _) as [[]|]; cbn; try done; by intros [= <-].
  - destruct (walk d _) as [[| l ? | |]|]; cbn; try done. intros [= <-].
    rewrite list_elem_of_In, in_map_iff. intros ([n t] & [= <-] & Hin).
    apply filter_In in Hin as [_ Hp]. apply andb_true_iff in Hp as [Hs Hc]. cbn in *.
    split; [by apply negb_true_iff|]. by apply contains_false, negb_true_iff.
Qed.

Lemma tree_path_plain c rest :
  plain_segment c -> Forall plain_segment rest -> tree_path (join slash (c :: rest)) = c :: rest.
Proof.
  intros Hc HF. unfold tree_path.
  assert (split slash (join slash (c :: rest)) = c :: rest) as E.
  { apply split_join; [done|]. apply Forall_cons. split; [apply Hc|]. eapply Forall_impl; [exact HF|]. by intros x []. }
  rewrite bool_decide_false; [exact E|]. intros Hd. rewrite Hd in E. injection E as <- _. by destruct Hc as [Hs _].
Qed.

#[export] Instance tree_host_lookup : HostLookup.
Proof.
  constructor; intros *; cbn -[join]; unfold tree_metadata.
  - destruct (walk d _) as [u|]; [|done]. by eexists.
  - intros Hc HF Hr. rewrite tree_path_plain by done.
    pose proof (tree_path_plain c [] Hc (List.Forall_nil _)) as Ec. cbn [join] in Ec. rewrite !Ec.
    destruct rest as [|c' rest]; [done|]. inversion HF; subst. rewrite tree_path_plain by done. cbn [walk].
    destruct d as [| l mt | |]; try done. destruct (child c l) as [u|]; [|done]. intros Hm.
    exists (tree_meta u). split; [done|]. intros Hns. destruct u; try done. split; [done|]. by intros next [= <-].
  - destruct (walk d _) as [[]|]; cbn; try done; by intros [= <-].
Qed.
