(* ===== verification/OverlayInv.v ===== *)
(** What every request on an overlay mount preserves: the host, the memory
    accounting, the quota counters and, when it fails, the whole overlay. *)
From S2P Require Import Prelude Str BTreeMap FileMode VirtualPath FsTypes PathSecurity Host Common OverlayState Overlay OverlayOps TreeHost.
Local Open Scope Z_scope.
Local Open Scope monty_scope.

Section Inv.
Context `{HostLaws} `{OverlayLayout}.

(** ** Host reads change nothing *)

Lemma observes_host_open o rel vpath :
  only_reads o = true -> observes (host_call vpath (open_with o rel)).
Proof.
  intros Ho d. unfold host_call. pose proof (open_read_pure o rel d Ho) as Hd.
  by destruct (open_with o rel d).
Qed.

Lemma observes_open_regular o rel vpath :
  only_reads o = true -> observes (open_regular rel vpath o).
Proof.
  intros Ho. apply observes_bind; [by apply observes_host_open|]. intros f.
  apply observes_bind; [auto with monty|]. intros d.
  apply observes_bind; [auto with monty|]. intros m.
  destruct (m_is_file m), (m_is_dir m); auto with monty.
Qed.

Lemma observes_read_file_limited rel vpath budget :
  observes (read_file_limited rel vpath budget).
Proof.
  unfold read_file_limited.
  repeat (apply observes_bind; [auto using observes_open_regular with monty|intros ?]).
  auto with monty.
Qed.

Lemma observes_host_read_text rel vpath budget : observes (host_read_text rel vpath budget).
Proof.
  repeat (apply observes_bind; [auto using observes_read_file_limited with monty|intros ?]).
  auto with monty.
Qed.

Lemma observes_host_read_bytes rel vpath budget : observes (host_read_bytes rel vpath budget).
Proof.
  repeat (apply observes_bind; [auto using observes_read_file_limited with monty|intros ?]).
  auto with monty.
Qed.

Lemma set_mount_dir_same ctx : set_mount_dir (mount_dir ctx) ctx = ctx.
Proof. by destruct ctx. Qed.

Lemma observes_on_dir {A} (m : M Dir MountError A) : observes m -> observes (on_dir m).
Proof.
  intros Hm [st ctx]. unfold on_dir. cbn. specialize (Hm (mount_dir ctx)).
  destruct (m (mount_dir ctx)) as [r d]; cbn in *; subst. by rewrite set_mount_dir_same.
Qed.

Lemma observes_query {A} (f : OverlayState -> MountContext -> result A MountError) :
  observes (query f).
Proof. by intros s. Qed.

Lemma succeeds_commit n : succeeds (commit n).
Proof. intros s. by exists tt. Qed.

Lemma succeeds_modify f : succeeds (modify_state f).
Proof. intros s. by exists tt. Qed.

Lemma atomic_insert_entry k e : atomic (insert_entry k e).
Proof.
  intros [st ctx] err [st' ctx']. unfold insert_entry, on_state. cbn.
  destruct (insert k e _ st) as [[[]|e'] st1] eqn:E; intros [=]; subst.
  by apply insert_Err in E as ->.
Qed.

Lemma atomic_append_file k d t limit : atomic (on_state (append_file k d t limit)).
Proof.
  intros [st ctx] err [st' ctx']. unfold on_state, append_file. cbn.
  destruct (bget _ _) as [[f| | |]|]; try by intros [=].
  destruct (limit <? _); intros [=]; by subst.
Qed.
End Inv.

#[export] Hint Resolve observes_read_file_limited observes_host_read_text observes_host_read_bytes
  observes_query observes_on_dir succeeds_commit succeeds_modify atomic_insert_entry
  atomic_append_file : monty.

(** Splits a computation at its first step or its first case distinction. *)
Ltac case_op :=
  match goal with
  | |- context [match ?x with _ => _ end] =>
      lazymatch x with
      | context [match _ with _ => _ end] => fail
      | _ => destruct x
      end
  end.

Ltac solve_observes :=
  repeat first
    [ solve [auto with monty]
    | apply observes_bind; [|intros ?]
    | case_op ].

Ltac solve_atomic :=
  repeat first
    [ solve [auto with monty]
    | apply atomic_observes_bind; [solve [solve_observes]|intros ?]
    | apply atomic_bind_succeeds; [|intros ?; solve [repeat first
        [solve [auto with monty] | apply succeeds_bind; [|intros ?] ]] ]
    | case_op ].

Section Atomic.
Context `{HostLaws} `{OverlayLayout}.

Lemma observes_existing_file_bytes k p b : observes (existing_file_bytes k p b).
Proof. unfold existing_file_bytes. solve_observes. Qed.

Lemma observes_read_text k p : observes (read_text k p).
Proof. unfold read_text. solve_observes. Qed.

Lemma observes_read_bytes k p : observes (read_bytes k p).
Proof. unfold read_bytes. solve_observes. Qed.

Lemma atomic_write_content p d : atomic (write_content p d).
Proof. unfold write_content. solve_atomic. Qed.

Lemma atomic_write_text p d : atomic (write_text p d).
Proof. unfold write_text. pose proof (atomic_write_content p d). solve_atomic. Qed.

Lemma atomic_write_bytes p d : atomic (write_bytes p d).
Proof. unfold write_bytes. pose proof (atomic_write_content p d). solve_atomic. Qed.

(** [append_file] answers [false] only when it changed nothing. *)
Lemma atomic_append_then {A} k d t limit (next : bool -> OM A) :
  atomic (next false) -> succeeds (next true) ->
  atomic (sbind (on_state (append_file k d t limit)) next).
Proof.
  intros Hf Ht [st ctx] e s'. unfold sbind, on_state, append_file. cbn [fst snd].
  destruct (bget _ _) as [[f| | |]|]; try apply Hf.
  destruct (limit <? _); [by intros [= _ <-]|]. intros Heq.
  exfalso. match type of Heq with next true ?s1 = _ => destruct (Ht s1) as [a Ha] end.
  by rewrite Heq in Ha.
Qed.

Lemma atomic_append_bytes p d : atomic (append_bytes p d).
Proof.
  unfold append_bytes.
  repeat (apply atomic_observes_bind; [solve [solve_observes]|intros ?]).
  case_op.
  repeat (apply atomic_observes_bind; [solve [solve_observes]|intros ?]).
  apply atomic_append_then; cbn [negb].
  - pose proof observes_existing_file_bytes. solve_atomic.
  - repeat (apply succeeds_bind; [solve [auto with monty]|intros ?]). auto with monty.
Qed.

Lemma atomic_append_text p d : atomic (append_text p d).
Proof. unfold append_text. pose proof (atomic_append_bytes p d). solve_atomic. Qed.

Lemma atomic_create_exclusive p m : atomic (create_exclusive p m).
Proof. unfold create_exclusive. solve_atomic. Qed.

Lemma atomic_ensure_append p : atomic (ensure_append_target_exists p).
Proof. unfold ensure_append_target_exists. solve_atomic. Qed.

Lemma atomic_open p m : atomic (open_ p m).
Proof.
  unfold open_. pose proof (atomic_write_text p []). pose proof (atomic_ensure_append p).
  destruct m; solve_atomic.
Qed.

Lemma atomic_mkdir k a b p : atomic (mkdir k a b p).
Proof. unfold mkdir. solve_atomic. Qed.

Lemma atomic_unlink k p : atomic (unlink k p).
Proof. unfold unlink. solve_atomic. Qed.

Lemma atomic_rmdir k p : atomic (rmdir k p).
Proof. unfold rmdir. solve_atomic. Qed.

Lemma atomic_rename a b : atomic (rename a b).
Proof. unfold rename. solve_atomic. Qed.
End Atomic.

#[export] Hint Resolve observes_read_text observes_read_bytes atomic_write_text atomic_write_bytes
  atomic_append_text atomic_append_bytes atomic_create_exclusive atomic_open atomic_mkdir
  atomic_unlink atomic_rmdir atomic_rename : monty.

Lemma atomic_execute `{HostLaws} `{OverlayLayout} r : atomic (execute r).
Proof. destruct r; unfold execute; solve_atomic. Qed.

(** A request that is not a write leaves the overlay and its mount alone. *)
Lemma overlay_read_observes `{HostLaws} `{OverlayLayout} r : is_write r = false -> observes (execute r).
Proof.
  destruct r; try done; intros Hw; unfold execute; try solve [solve_observes].
  unfold open_. destruct mode; try done; solve_observes.
Qed.
