(* ===== verification/OverlayStep.v ===== *)
(** The overlay backend as a transition system.

    [ostep] is the abstract specification of what one request may do to an
    overlay mount: nothing, extend one of its files, or replace a list of
    entries that was checked against the memory limit as a whole; the quota
    counter moves only by an amount that was checked against the quota.
    [execute_ostep] shows that every request is such a step. The invariants
    are proved of [ostep]. *)
From S2P Require Import Prelude Str BTreeMap FileMode VirtualPath FsTypes PathSecurity Host Common OverlayState Overlay OverlayOps TreeHost OverlayInv.
Local Open Scope Z_scope.
Local Open Scope monty_scope.

(** ** The abstract steps *)

Section Spec.
Context `{HostDir} `{OverlayLayout}.

(** The context after a request that paid for [n] bytes, or for none. *)
Definition charged (ctx ctx' : MountContext) : Prop :=
  ctx' = ctx \/
  exists n, 0 <= n /\ check_write_limit n ctx = Ok tt /\ ctx' = commit_write_bytes n ctx.

(** [st] with the file at [k] extended by [d]. *)
Definition append_state (st : OverlayState) (k : str) (f : OverlayFile) (d : bytes) (t : f64) :
    OverlayState :=
  {| entries := binsert (entries st) k (EFile {| content := content f ++ d; f_mtime := t |});
     memory_usage := sat_add (memory_usage st) (as_u64 (zlen d)) |}.

Inductive ostep (st : OverlayState) (ctx : MountContext) : OverlayState -> MountContext -> Prop :=
| ostep_none : ostep st ctx st ctx
| ostep_append k f d t ctx' :
    get st k = Some (EFile f) ->
    sat_add (memory_usage st) (as_u64 (zlen d)) <= memory_usage_limit ctx ->
    charged ctx ctx' ->
    ostep st ctx (append_state st k f d t) ctx'
| ostep_replace rs ctx' :
    check_replacements st rs (memory_usage_limit ctx) = Ok tt ->
    exact rs st ->
    charged ctx ctx' ->
    ostep st ctx (insert_all rs st) ctx'.

(** The overlay accounts for its memory and stays within its limit; the limit
    is below the value the saturating estimate stops at. *)
Record overlay_inv (st : OverlayState) (ctx : MountContext) : Prop := {
  inv_wf : wf_state st;
  inv_usage : memory_usage st <= memory_usage_limit ctx;
  inv_limit : memory_usage_limit ctx < u64_max }.

(** The quota counter is within the quota. *)
Definition quota_ok (ctx : MountContext) : Prop :=
  match write_bytes_limit ctx with Some l => write_bytes_used ctx <= l | None => True end.

(** Everything of the context but the counter. *)
Definition same_mount (ctx ctx' : MountContext) : Prop :=
  mount_virtual ctx' = mount_virtual ctx /\ mount_dir ctx' = mount_dir ctx
  /\ write_bytes_limit ctx' = write_bytes_limit ctx
  /\ memory_usage_limit ctx' = memory_usage_limit ctx /\ clock ctx' = clock ctx.

Lemma same_mount_commit n ctx : same_mount ctx (commit_write_bytes n ctx).
Proof. unfold commit_write_bytes, same_mount. destruct ctx as [? ? ? [l|] ? ?]; by cbn. Qed.

Lemma same_mount_charged ctx ctx' : charged ctx ctx' -> same_mount ctx ctx'.
Proof. intros [->|(n & _ & _ & ->)]; [done|apply same_mount_commit]. Qed.

Lemma commit_write_bytes_ok n ctx :
  quota_ok ctx -> check_write_limit n ctx = Ok tt -> quota_ok (commit_write_bytes n ctx).
Proof.
  unfold quota_ok, check_write_limit, commit_write_bytes.
  destruct (write_bytes_limit ctx) as [l|] eqn:E; cbn; [|by rewrite E].
  rewrite E. destruct (l <? _) eqn:El; [done|]. zbool. lia.
Qed.

Lemma quota_charged ctx ctx' : charged ctx ctx' -> quota_ok ctx -> quota_ok ctx'.
Proof. intros [->|(n & _ & Hn & ->)] Hq; [done|by apply commit_write_bytes_ok]. Qed.

Lemma charge_needs_limit ctx ctx' :
  charged ctx ctx' -> write_bytes_limit ctx = None -> ctx' = ctx.
Proof. intros [->|(n & _ & _ & ->)] Hn; [done|]. unfold commit_write_bytes. by rewrite Hn. Qed.

Lemma ostep_same_mount st ctx st' ctx' : ostep st ctx st' ctx' -> same_mount ctx ctx'.
Proof. destruct 1; [done|by apply same_mount_charged..]. Qed.

Lemma append_state_eq st k f d t limit :
  get st k = Some (EFile f) -> sat_add (memory_usage st) (as_u64 (zlen d)) <= limit ->
  append_file k d t limit st = (Ok true, append_state st k f d t).
Proof.
  unfold get, append_file. intros -> Hl. destruct (limit <? _) eqn:E; zbool; [lia|done].
Qed.

Lemma ostep_inv st ctx st' ctx' :
  ostep st ctx st' ctx' -> overlay_inv st ctx -> overlay_inv st' ctx'.
Proof.
  intros Hs [Hwf Hu Hl]. pose proof (ostep_same_mount _ _ _ _ Hs) as (_ & _ & _ & Hm & _).
  destruct Hs as [|k f d t ctx' Hg Hle _|rs ctx' Hc Hex _]; [done|..];
    constructor; rewrite ?Hm; try done.
  - pose proof (append_file_wf _ st k d t Hl Hwf) as Hw.
    by rewrite (append_state_eq st k f d t _ Hg Hle) in Hw.
  - by apply insert_all_wf.
  - rewrite check_replacements_inserts in Hc. destruct (_ <? _) eqn:E; [done|]. by zbool.
Qed.

Lemma ostep_quota st ctx st' ctx' : ostep st ctx st' ctx' -> quota_ok ctx -> quota_ok ctx'.
Proof. destruct 1; [done|by apply quota_charged..]. Qed.

(** ** Single insertions *)

Lemma insert_all_single k e st : insert_all [(k, e)] st = insert_unchecked k e st.
Proof. done. Qed.

Lemma ostep_insert st ctx ctx' k e :
  memory_usage_limit ctx < u64_max ->
  projected_usage st k e <= memory_usage_limit ctx -> charged ctx ctx' ->
  ostep st ctx (insert_unchecked k e st) ctx'.
Proof.
  intros Hl Hp Hc. rewrite <- insert_all_single. apply ostep_replace; [|cbn; lia|done].
  rewrite check_replacements_inserts, insert_all_single.
  destruct (_ <? _) eqn:E; [|done]. zbool. cbn in E. lia.
Qed.

(** ** Inverting the primitive steps *)

Lemma query_Ok {A} (f : OverlayState -> MountContext -> result A MountError) s a s' :
  query f s = (Ok a, s') -> f s.1 s.2 = Ok a /\ s' = s.
Proof. unfold query. by intros [= <- <-]. Qed.

Lemma insert_entry_Ok k e s u s' :
  insert_entry k e s = (Ok u, s') ->
  s' = (insert_unchecked k e s.1, s.2) /\ projected_usage s.1 k e <= memory_usage_limit s.2.
Proof.
  destruct u. destruct s as [st ctx]. unfold insert_entry, on_state. cbn.
  destruct (insert k e _ st) as [r st1] eqn:E. intros [= -> <-].
  pose proof (insert_Ok _ _ _ _ _ E) as ->. split; [done|].
  unfold insert in E. destruct (_ <? _) eqn:Hl; [done|]. by zbool.
Qed.

Lemma commit_Ok n s u s' : commit n s = (Ok u, s') -> s' = (s.1, commit_write_bytes n s.2).
Proof. by intros [= _ <-]. Qed.

Lemma modify_state_Ok f s u s' : modify_state f s = (Ok u, s') -> s' = (f s.1, s.2).
Proof. by intros [= _ <-]. Qed.
End Spec.

Ltac inv_run :=
  repeat (cbn [fst snd] in *; first
    [ inv_step
    | match goal with
      | H : query _ _ = (Ok _, _) |- _ => apply query_Ok in H as [? ?]; subst
      | H : insert_entry _ _ _ = (Ok _, _) |- _ => apply insert_entry_Ok in H as [? ?]; subst
      | H : commit _ _ = (Ok _, _) |- _ => apply commit_Ok in H; subst
      | H : modify_state _ _ = (Ok _, _) |- _ => apply modify_state_Ok in H; subst
      | H : false = true |- _ => discriminate H
      | H : true = false |- _ => discriminate H
      end ]); units; cbn [fst snd] in *.

Section Runs.
Context `{HostLaws} `{OverlayLayout}.

(** ** What each operation does when it succeeds *)

Lemma write_content_Ok p d st ctx u s' :
  write_content p d (st, ctx) = (Ok u, s') ->
  exists rel, relative_path p ctx = Ok rel /\ ensure_parent_exists st rel ctx p = Ok tt
    /\ reject_directory_target st rel ctx p = Ok tt
    /\ check_write_limit (zlen d) ctx = Ok tt
    /\ projected_usage st rel (new_file d (clock ctx 0%nat)) <= memory_usage_limit ctx
    /\ s' = (insert_unchecked rel (new_file d (clock ctx 0%nat)) st,
             commit_write_bytes (zlen d) ctx).
Proof.
  unfold write_content. intros Hr. inv_run. units. eauto 10.
Qed.

Lemma create_exclusive_Ok p mode st ctx r s' :
  create_exclusive p mode (st, ctx) = (Ok r, s') ->
  exists rel, relative_path p ctx = Ok rel /\ ensure_parent_exists st rel ctx p = Ok tt
    /\ r = file_handle_result p mode
    /\ projected_usage st rel (new_file [] (clock ctx 0%nat)) <= memory_usage_limit ctx
    /\ s' = (insert_unchecked rel (new_file [] (clock ctx 0%nat)) st, ctx)
    /\ (get st rel = Some EDeleted \/
        get st rel = None /\ exists t, resolve_virtual_path p (mount_virtual ctx) = Ok t
          /\ classify_target (mount_dir ctx) (for_dir_op t) p = Ok TAbsent).
Proof.
  unfold create_exclusive. intros Hr. inv_run. rename a into rel.
  destruct a1; inv_run.
  destruct (get st rel) as [[]|] eqn:Hg; inv_run; eauto 10.
  exists rel. repeat split; eauto. right. split; [done|]. eexists. split; [eassumption|].
  match goal with Hb : context [bool_decide (?t = TAbsent)] |- _ =>
    destruct t; vm_compute in Hb; try discriminate Hb end; done.
Qed.

Lemma ensure_append_target_exists_Ok p st ctx u s' :
  ensure_append_target_exists p (st, ctx) = (Ok u, s') ->
  s' = (st, ctx) \/
  exists rel, relative_path p ctx = Ok rel
    /\ projected_usage st rel (new_file [] (clock ctx 0%nat)) <= memory_usage_limit ctx
    /\ s' = (insert_unchecked rel (new_file [] (clock ctx 0%nat)) st, ctx).
Proof.
  unfold ensure_append_target_exists. intros Hr. inv_run. rename a into rel.
  destruct (get st rel) as [[]|]; inv_run; eauto 10.
  match goal with H : match ?t with _ => _ end _ = _ |- _ => destruct t; inv_run end; eauto 10.
Qed.

Lemma on_append_file_Ok k d t s b s' :
  on_state (append_file k d t (memory_usage_limit s.2)) s = (Ok b, s') ->
  (exists f, get s.1 k = Some (EFile f) /\ b = true
     /\ sat_add (memory_usage s.1) (as_u64 (zlen d)) <= memory_usage_limit s.2
     /\ s' = (append_state s.1 k f d t, s.2))
  \/ (is_overlay_file s.1 k = false /\ b = false /\ s' = s).
Proof.
  destruct s as [st ctx]. unfold on_state, append_file, is_overlay_file, get. cbn [fst snd].
  destruct (bget (entries st) k) as [[f| | |]|]; [|by intros [= <- <-]; right..].
  destruct (memory_usage_limit ctx <? _) eqn:E; intros [= <- <-]. zbool. left. by exists f.
Qed.

Lemma shrink_le b n b' : 0 <= n -> shrink b n = Ok b' -> available b' <= available b.
Proof.
  unfold shrink, checked_sub. intros Hn. destruct (_ <? _); [done|]. intros [= <-]. cbn. lia.
Qed.

Lemma as_u64_nonneg n : 0 <= n -> 0 <= as_u64 n.
Proof. rewrite as_u64_min. unfold u64_max. lia. Qed.

Lemma existing_file_len_nonneg st rel ctx p n : existing_file_len st rel ctx p = Ok n -> 0 <= n.
Proof.
  assert (Hf : forall d r n', file_len d r p = Ok n' -> 0 <= n').
  { intros d r n' Hf. unfold file_len, m_len in Hf. inv_binds Hf. injection Hf as <-.
    destruct (_ <=? _); unfold usize_max, u64_max; lia. }
  unfold existing_file_len. destruct (get st rel) as [[]|]; intros Hr.
  - injection Hr as <-. apply zlen_nonneg.
  - apply rbind_Ok in Hr as (r & _ & Hr). by eapply Hf.
  - done.
  - by injection Hr as <-.
  - apply rbind_Ok in Hr as ([r|] & _ & Hr); [by eapply Hf|by injection Hr as <-].
Qed.

Lemma append_bytes_Ok p d st ctx r s' :
  append_bytes p d (st, ctx) = (Ok r, s') ->
  exists rel n, relative_path p ctx = Ok rel /\ r = OInt (to_i64_sat (zlen d))
    /\ 0 <= n /\ check_write_limit n ctx = Ok tt /\ s'.2 = commit_write_bytes n ctx
    /\ ((exists f, get st rel = Some (EFile f) /\ n = zlen d
          /\ sat_add (memory_usage st) (as_u64 (zlen d)) <= memory_usage_limit ctx
          /\ s'.1 = append_state st rel f d (current_timestamp (clock ctx 0%nat)))
       \/ (is_overlay_file st rel = false /\
          exists old b, (exists b0, available_memory st ctx = Ok b0 /\ available b <= available b0)
          /\ existing_file_bytes rel p b (st, ctx) = (Ok old, (st, ctx))
          /\ projected_usage st rel (new_file (old ++ d) (clock ctx 1%nat)) <= memory_usage_limit ctx
          /\ s'.1 = insert_unchecked rel (new_file (old ++ d) (clock ctx 1%nat)) st)).
Proof.
  unfold append_bytes. intros Hr. inv_run. rename a into rel.
  match goal with H : existing_file_len _ _ _ _ = Ok ?n |- _ =>
    pose proof (existing_file_len_nonneg _ _ _ _ _ H) as Hlen end.
  match goal with H : check_write_limit ?n _ = _ |- _ => assert (Hn : 0 <= n) end.
  { pose proof (zlen_nonneg d). destruct (_ && _); auto with monty. }
  match goal with H : on_state _ _ = _ |- _ =>
    apply (on_append_file_Ok _ _ _ (st, ctx)) in H; cbn [fst snd] in H;
    destruct H as [(f & Hg & -> & Hl & ->)|(Hf & -> & ->)] end; cbn [negb] in *; inv_run.
  - exists rel. eexists. do 2 (split; [done|]). split; [exact Hn|]. split; [eassumption|].
    split; [done|]. left. exists f. unfold is_overlay_file in *. rewrite Hg, andb_false_r in *. done.
  - exists rel. eexists. do 2 (split; [done|]). split; [exact Hn|]. split; [eassumption|].
    match goal with H : existing_file_bytes _ _ _ _ = _ |- _ =>
      pose proof (observes_Ok _ _ _ _ (observes_existing_file_bytes _ _ _) H) as Heq end.
    subst. split; [done|]. right. split; [done|].
    match goal with H : shrink ?b0 _ = Ok ?b |- _ =>
      eexists _, b; split; [exists b0; split; [done|by eapply shrink_le; [|exact H]; apply as_u64_nonneg, zlen_nonneg]|] end.
    split; [eassumption|]. done.
Qed.

Lemma unlink_Ok rel p st ctx r s' :
  unlink rel p (st, ctx) = (Ok r, s') ->
  r = ONone /\ s' = (insert_unchecked rel EDeleted st, ctx)
  /\ projected_usage st rel EDeleted <= memory_usage_limit ctx.
Proof.
  unfold unlink. intros Hr. inv_run. destruct (get st rel) as [[]|]; inv_run; try done.
  match goal with H : match ?t with _ => _ end _ = _ |- _ => destruct t; inv_run end; done.
Qed.

Lemma rmdir_Ok rel p st ctx r s' :
  rmdir rel p (st, ctx) = (Ok r, s') ->
  r = ONone /\ s' = (insert_unchecked rel EDeleted st, ctx)
  /\ projected_usage st rel EDeleted <= memory_usage_limit ctx
  /\ rel <> [] /\ overlay_directory_has_children st rel = false.
Proof.
  unfold rmdir. intros Hr. inv_run.
  assert (rel <> []) by (by intros ->).
  destruct (get st rel) as [[]|]; inv_run; try done.
  - destruct (overlay_directory_has_children st rel); inv_run; done.
  - destruct (negb _); inv_run.
    match goal with H : (if ?b then _ else _) _ = _ |- _ => destruct b; inv_run end.
    destruct (overlay_directory_has_children st rel); inv_run; done.
Qed.

(** The entries [mkdir] records. *)
Definition new_dirs (dirs : list str) (t : f64) : list (str * OverlayEntry) :=
  List.map (fun dir => (dir, EDirectory t)) dirs.

Lemma insert_all_new_dirs dirs t st :
  fold_left (fun st dir => insert_unchecked dir (EDirectory t) st) dirs st
  = insert_all (new_dirs dirs t) st.
Proof.
  unfold insert_all, new_dirs. revert st. induction dirs as [|k dirs IH]; intros st; [done|].
  cbn. apply IH.
Qed.

Lemma mkdir_Ok rel parents exist_ok p st ctx r s' :
  mkdir rel parents exist_ok p (st, ctx) = (Ok r, s') ->
  r = ONone /\
  (s' = (st, ctx) /\ mkdir_early st rel exist_ok ctx p = Ok (Some ONone) \/
   exists dirs, mkdir_early st rel exist_ok ctx p = Ok None
    /\ (if parents then overlay_dirs_to_create st rel ctx
        else ensure_parent_exists st rel ctx p ;? Ok [rel]) = Ok dirs
    /\ let n := sat_mul (zlen dirs) DIRECTORY_WRITE_BYTES in
       let rs := new_dirs dirs (current_timestamp (clock ctx 0%nat)) in
       check_write_limit n ctx = Ok tt
       /\ check_replacements st rs (memory_usage_limit ctx) = Ok tt
       /\ s' = (insert_all rs st, commit_write_bytes n ctx)).
Proof.
  unfold mkdir. intros Hr. inv_run.
  match goal with H : match ?e with _ => _ end _ = _ |- _ => destruct e as [early|] end; inv_run.
  - assert (early = ONone) as ->.
    { match goal with H : mkdir_early _ _ _ _ _ = _ |- _ => revert H end.
      unfold mkdir_early. destruct (get st rel) as [[]|]; try done; try (destruct exist_ok; congruence).
      destruct (resolve_real p ctx); cbn; [|done].
      destruct (classify_target _ _ _) as [[]|]; cbn; try done; destruct exist_ok; congruence. }
    auto.
  - rewrite insert_all_new_dirs. split; [done|]. right. eexists. repeat split; eauto.
Qed.

Lemma rename_Ok src dst st ctx r s' :
  rename src dst (st, ctx) = (Ok r, s') ->
  r = ONone /\ exists p, rename_plan st ctx src dst = Ok p /\ s' = (rename_commit p st, ctx).
Proof. unfold rename. intros Hr. inv_run. eauto. Qed.

(** A name [mkdir] may record: free, deleted or already a directory. *)
Definition dir_slot (st : OverlayState) (k : str) : Prop :=
  match get st k with Some (EFile _ | ERealFileRef _) => False | _ => True end.

Lemma dir_slot_usage st k t : dir_slot st k -> old_usage st k <= entry_memory_usage k (EDirectory t).
Proof.
  unfold dir_slot, get, old_usage. destruct (bget (entries st) k) as [[]|]; try done.
  intros _. apply entry_memory_usage_nonneg.
Qed.

Lemma dir_slot_insert st k j t : dir_slot st k -> dir_slot (insert_unchecked j (EDirectory t) st) k.
Proof. unfold dir_slot. rewrite get_insert_unchecked. by case_bool_decide. Qed.

(** Recording directories never lowers the estimate. *)
Lemma new_dirs_mono dirs t st :
  memory_usage st <= u64_max -> Forall (dir_slot st) dirs ->
  memory_usage st <= memory_usage (insert_all (new_dirs dirs t) st).
Proof.
  unfold insert_all. revert st. induction dirs as [|k dirs IH]; intros st Hm HF; [done|].
  inversion HF as [|? ? Hk HF']; subst. cbn.
  assert (Hle : memory_usage st <= memory_usage (insert_unchecked k (EDirectory t) st)).
  { change (memory_usage st <= projected_usage st k (EDirectory t)).
    unfold projected_usage, sat_add, sat_sub. pose proof (dir_slot_usage st k t Hk). lia. }
  etrans; [exact Hle|]. apply IH; [apply sat_add_max|].
  eapply Forall_impl; [exact HF'|]. intros j. apply dir_slot_insert.
Qed.

Lemma new_dirs_exact dirs t st limit :
  limit < u64_max -> Forall (dir_slot st) dirs ->
  memory_usage (insert_all (new_dirs dirs t) st) <= limit -> exact (new_dirs dirs t) st.
Proof.
  intros Hl. revert st. induction dirs as [|k dirs IH]; intros st HF Hm; [done|].
  inversion HF as [|? ? Hk HF']; subst.
  assert (HF2 : Forall (dir_slot (insert_unchecked k (EDirectory t) st)) dirs).
  { eapply Forall_impl; [exact HF'|]. intros j. apply dir_slot_insert. }
  split; [|by apply IH].
  change (memory_usage (insert_unchecked k (EDirectory t) st) < u64_max).
  pose proof (new_dirs_mono dirs t (insert_unchecked k (EDirectory t) st)) as Hmono.
  specialize (Hmono (sat_add_max _ _) HF2).
  change (insert_all (new_dirs (k :: dirs) t) st)
    with (insert_all (new_dirs dirs t) (insert_unchecked k (EDirectory t) st)) in Hm. lia.
Qed.

Lemma dirs_to_create_slots st ctx w current comps dirs :
  dirs_to_create_loop st ctx w current comps = Ok dirs -> Forall (dir_slot st) dirs.
Proof.
  revert w current dirs. induction comps as [|c comps IH]; intros w current dirs; cbn.
  { intros [= <-]. constructor. }
  set (cur := push_component current c). destruct (step w c _) as [[real w']|]; cbn; [|done].
  assert (Hrec : forall l, get st cur = None \/ get st cur = Some EDeleted ->
    (let? more := dirs_to_create_loop st ctx w' cur comps in Ok (cur :: more)) = Ok l ->
    Forall (dir_slot st) l).
  { intros l Hcur Hl. destruct (dirs_to_create_loop st ctx w' cur comps) eqn:E; [|done].
    injection Hl as <-. constructor; [|by eapply IH].
    unfold dir_slot. by destruct Hcur as [->| ->]. }
  destruct (get st cur) as [[]|] eqn:Hg; try done; [apply IH|apply Hrec; auto|].
  destruct real; try done; [apply IH|apply Hrec; auto].
Qed.

Lemma mkdir_early_slot st rel exist_ok ctx p :
  mkdir_early st rel exist_ok ctx p = Ok None -> dir_slot st rel.
Proof.
  unfold mkdir_early, dir_slot. destruct (get st rel) as [[]|]; done.
Qed.

Lemma mkdir_slots st rel (parents exist_ok : bool) ctx p dirs :
  mkdir_early st rel exist_ok ctx p = Ok None ->
  (if parents then overlay_dirs_to_create st rel ctx
   else ensure_parent_exists st rel ctx p ;? Ok [rel]) = Ok dirs ->
  Forall (dir_slot st) dirs.
Proof.
  intros He. destruct parents; [apply dirs_to_create_slots|].
  destruct (ensure_parent_exists _ _ _ _); cbn; [|done]. intros [= <-].
  constructor; [by eapply mkdir_early_slot|constructor].
Qed.

(** ** Renaming *)

(** The plan's entries together fit the counter. *)
Definition plan_fits (st : OverlayState) (p : RenamePlan) : Prop :=
  memory_usage st + foldr (fun r n => entry_memory_usage r.1 r.2 + n) 0 (plan_replacements st p)
  < u64_max.

Lemma exact_fits rs st :
  wf_state st ->
  memory_usage st + foldr (fun r n => entry_memory_usage r.1 r.2 + n) 0 rs < u64_max ->
  exact rs st.
Proof.
  revert st. induction rs as [|[k e] rs IH]; intros st Hwf Hf; [done|]. cbn in Hf.
  assert (Hrs : 0 <= foldr (fun r n => entry_memory_usage r.1 r.2 + n) 0 rs).
  { clear. induction rs as [|[k e] rs IH]; cbn; [done|].
    pose proof (entry_memory_usage_nonneg k e). lia. }
  pose proof (old_usage_bounds st k Hwf). pose proof (entry_memory_usage_nonneg k e).
  assert (Hp : projected_usage st k e <= memory_usage st + entry_memory_usage k e).
  { unfold projected_usage, sat_add, sat_sub. lia. }
  split; [lia|]. apply IH; [apply insert_unchecked_wf; [done|lia]|]. cbn. lia.
Qed.

Lemma remove_usage st k : wf_state st -> memory_usage (remove k st).2 <= memory_usage st.
Proof.
  intros Hwf. unfold remove. destruct (bget (entries st) k) as [e|]; cbn; [|done].
  pose proof (entry_memory_usage_nonneg k e). pose proof (wf_usage_nonneg st Hwf).
  unfold sat_sub. lia.
Qed.

Lemma take_moves_spec moves st :
  wf_state st -> NoDup (List.map fst moves) ->
  (take_moves moves st).1 = List.map (fun m => (m.1, m.2, default EDeleted (get st m.1))) moves
  /\ wf_state (take_moves moves st).2
  /\ memory_usage (take_moves moves st).2 <= memory_usage st
  /\ forall k, k ∉ List.map fst moves -> get (take_moves moves st).2 k = get st k.
Proof.
  revert st. induction moves as [|[a b] moves IH]; intros st Hwf Hnd; [done|].
  cbn in Hnd. inversion Hnd as [|? ? Ha Hnd']; subst. cbn.
  pose proof (remove_wf st a Hwf) as Hwf1. pose proof (remove_usage st a Hwf) as Hu.
  pose proof (get_remove st a) as Hg.
  assert (He : (remove a st).1 = get st a).
  { unfold remove, get. by destruct (bget (entries st) a). }
  destruct (remove a st) as [e st1]. cbn in *. subst e.
  destruct (IH st1 Hwf1 Hnd') as (H1' & H2' & H3' & H4').
  destruct (take_moves moves st1) as [taken st2]. cbn in *. subst taken.
  split; [|split; [done|split; [lia|]]].
  - f_equal. apply map_ext_in. intros [x y] Hin. cbn. rewrite Hg.
    case_bool_decide as Hax; [|done]. subst x. exfalso. apply Ha.
    rewrite list_elem_of_In. apply in_map_iff. by exists (a, y).
  - intros k Hk. apply not_elem_of_cons in Hk as [Hka Hk]. rewrite H4' by done. rewrite Hg.
    by rewrite bool_decide_false by congruence.
Qed.

(** What a plan that passed its checks is made of. *)
Record plan_ok (st : OverlayState) (ctx : MountContext) (p : RenamePlan) : Prop := {
  plan_source :
    if p_source_is_overlay p then get st (p_src p) = Some (p_source_entry p)
    else get st (p_src p) = None;
  plan_moves :
    p_overlay_moves p = [] \/
    p_overlay_moves p =
      List.map (fun key => (key, (p_dst p ++ [slash]) ++ drop (length (p_src p ++ [slash])) key))
               (List.map fst (prefix_iter st (p_src p ++ [slash])));
  plan_checked :
    check_replacements st (plan_replacements st p) (memory_usage_limit ctx) = Ok tt }.

Lemma rename_source_Ok st ctx rel vpath b e :
  rename_source st ctx rel vpath = Ok (b, e) ->
  if b then get st rel = Some e else get st rel = None.
Proof.
  unfold rename_source. destruct (get st rel) as [e'|]; [by intros [= <- <-]|].
  intros Hr. inv_ok. destruct (classify_target _ _ _) as [[]|]; cbn in Hr; try done; inv_ok; done.
Qed.

Lemma rename_moves_Ok st ctx src dst vpath om rm :
  rename_moves st ctx src dst vpath = Ok (om, rm) ->
  om = List.map (fun key => (key, (dst ++ [slash]) ++ drop (length (src ++ [slash])) key))
                (List.map fst (prefix_iter st (src ++ [slash]))).
Proof. unfold rename_moves. intros Hr. inv_ok. congruence. Qed.

Lemma rename_plan_Ok st ctx src dst p :
  rename_plan st ctx src dst = Ok p ->
  plan_ok st ctx p /\ relative_path src ctx = Ok (p_src p) /\ relative_path dst ctx = Ok (p_dst p).
Proof.
  unfold rename_plan. intros Hr. inv_binds Hr.
  match goal with Hs : rename_source _ _ _ _ = Ok ?x |- _ => destruct x as [b e] end.
  inv_binds Hr.
  match goal with Hm : (if ?d then rename_moves _ _ _ _ _ else _) = Ok ?x |- _ =>
    destruct x as [om rm]; rename Hm into Hmv; destruct d end; inv_binds Hr; units;
    injection Hr as <-; (split; [constructor|done]); cbn [p_src p_dst p_source_is_overlay
      p_source_entry p_overlay_moves p_real_moves]; try done;
    try by eapply rename_source_Ok.
  - right. by eapply rename_moves_Ok.
  - injection Hmv as <- <-. by left.
Qed.

(** The keys a directory rename moves are distinct and below the source. *)
Lemma plan_moves_keys st ctx p :
  wf_state st -> plan_ok st ctx p ->
  NoDup (List.map fst (p_overlay_moves p)) /\ p_src p ∉ List.map fst (p_overlay_moves p).
Proof.
  intros Hwf Hp. destruct (plan_moves _ _ _ Hp) as [->| ->].
  { split; [constructor|apply not_elem_of_nil]. }
  rewrite List.map_map. cbn [fst]. rewrite map_id. split.
  - apply bsorted_NoDup. rewrite prefix_iter_filter; [by apply bsorted_filter, Hwf|].
    right. unfold ends_with_char. by rewrite last_snoc.
  - rewrite list_elem_of_In, in_map_iff. intros ([k e] & <- & Hin).
    rewrite <- list_elem_of_In, elem_of_prefix_iter in Hin; [|done|].
    + destruct Hin as [_ [r Hr]]. apply (f_equal length) in Hr. cbn in Hr.
      rewrite !length_app in Hr. cbn in Hr. lia.
    + right. unfold ends_with_char. by rewrite last_snoc.
Qed.

(** The replacements of the moves, as [rename_commit] inserts them. *)
Lemma insert_moves (moves : list (str * str * OverlayEntry)) st :
  fold_left (fun st m => insert_unchecked m.1.2 m.2 (insert_unchecked m.1.1 EDeleted st)) moves st
  = insert_all (flat_map (fun m => [(m.1.1, EDeleted); (m.1.2, m.2)]) moves) st.
Proof.
  unfold insert_all. revert st. induction moves as [|m moves IH]; intros st; [done|]. cbn. apply IH.
Qed.

(** Taking the moved entries out and putting them back under their new names is
    the list of replacements that was checked. *)
Lemma rename_commit_replaces st ctx p :
  wf_state st -> plan_ok st ctx p -> plan_fits st p ->
  rename_commit p st = insert_all (plan_replacements st p) st.
Proof.
  intros Hwf Hp Hfit. pose proof (plan_moves_keys st ctx p Hwf Hp) as [Hnd Hsrc].
  pose proof (plan_source _ _ _ Hp) as Hs.
  set (st1 := if p_source_is_overlay p then (remove (p_src p) st).2 else st).
  assert (Hst1 : wf_state st1 /\ memory_usage st1 <= memory_usage st
    /\ forall k, k <> p_src p -> get st1 k = get st k).
  { unfold st1. destruct (p_source_is_overlay p); [|done].
    split; [by apply remove_wf|]. split; [by apply remove_usage|].
    intros k Hk. rewrite get_remove. by rewrite bool_decide_false by congruence. }
  destruct Hst1 as (Hwf1 & Hu1 & Hg1).
  destruct (take_moves_spec (p_overlay_moves p) st1 Hwf1 Hnd) as (Ht & Hwf2 & Hu2 & Hg2).
  assert (Hc : rename_commit p st =
    insert_all (plan_replacements st p) (take_moves (p_overlay_moves p) st1).2).
  { unfold rename_commit. replace (if p_source_is_overlay p then _ else _) with
      (p_source_entry p, st1).
    2:{ unfold st1. destruct (p_source_is_overlay p); [|done].
        unfold remove. unfold get in Hs. by rewrite Hs. }
    destruct (take_moves (p_overlay_moves p) st1) as [taken st2]. cbn [fst snd] in *.
    rewrite insert_moves. subst taken. unfold plan_replacements.
    rewrite flat_map_app. cbn [app]. unfold insert_all at 2. cbn [fold_left fst snd].
    fold (insert_all (flat_map (fun m => [(m.1, EDeleted); (m.2, default EDeleted (get st m.1))])
      (p_overlay_moves p) ++ flat_map (fun m => [(m.1.1, EDeleted); (m.1.2, m.2)]) (p_real_moves p))).
    f_equal. f_equal. rewrite !flat_map_concat_map, List.map_map. f_equal.
    apply map_ext_in. intros [a b] Hin. cbn [fst snd]. rewrite Hg1; [done|].
    intros ->. apply Hsrc. rewrite list_elem_of_In. apply in_map_iff. by exists (p_src p, b). }
  rewrite Hc. apply wf_state_ext.
  - apply insert_all_wf; [done|]. apply exact_fits; [done|]. unfold plan_fits in Hfit. lia.
  - apply insert_all_wf; [done|]. by apply exact_fits.
  - intros k. rewrite !get_insert_all.
    destruct (replaced_by (plan_replacements st p) k) eqn:E; [done|].
    apply replaced_by_None in E. unfold plan_replacements in E. cbn in E.
    rewrite !not_elem_of_cons, List.map_app, not_elem_of_app in E.
    destruct E as (Hk & _ & Hmv & _). rewrite Hg2, Hg1; [done|done|].
    intros Hin. apply Hmv. rewrite list_elem_of_In in *. apply in_map_iff in Hin as ([a b] & <- & Hin).
    apply in_map_iff. exists (a, EDeleted). split; [done|]. apply in_flat_map.
    exists (a, b). split; [done|]. by left.
Qed.

(** ** Every request is a step *)

(** A rename's plan fits the counter; other requests need nothing. *)
Definition request_fits (r : FsRequest) (st : OverlayState) (ctx : MountContext) : Prop :=
  match r with
  | RRename src dst => forall p, rename_plan st ctx src dst = Ok p -> plan_fits st p
  | _ => True
  end.

Lemma charged_none ctx : charged ctx ctx.
Proof. by left. Qed.

Lemma charged_commit n ctx :
  0 <= n -> check_write_limit n ctx = Ok tt -> charged ctx (commit_write_bytes n ctx).
Proof. intros Hp Hn. right. eauto. Qed.

Lemma write_content_ostep p d st ctx u st' ctx' :
  memory_usage_limit ctx < u64_max ->
  write_content p d (st, ctx) = (Ok u, (st', ctx')) -> ostep st ctx st' ctx'.
Proof.
  intros Hl (rel & _ & _ & _ & Hc & Hp & [= -> ->])%write_content_Ok.
  apply ostep_insert; [done..|apply charged_commit; auto with monty].
Qed.

Lemma append_bytes_ostep p d st ctx r st' ctx' :
  memory_usage_limit ctx < u64_max ->
  append_bytes p d (st, ctx) = (Ok r, (st', ctx')) -> ostep st ctx st' ctx'.
Proof.
  intros Hl (rel & n & _ & _ & Hn & Hc & Hctx & Hst)%append_bytes_Ok. cbn in *. subst.
  destruct Hst as [(f & Hg & -> & Hle & ->)|(_ & old & b & _ & _ & Hp & ->)].
  - apply ostep_append; [done..|by apply charged_commit].
  - apply ostep_insert; [done..|by apply charged_commit].
Qed.

Lemma mkdir_ostep rel parents exist_ok p st ctx r st' ctx' :
  memory_usage_limit ctx < u64_max ->
  mkdir rel parents exist_ok p (st, ctx) = (Ok r, (st', ctx')) -> ostep st ctx st' ctx'.
Proof.
  intros Hl [_ [[[= -> ->] _]|(dirs & He & Hd & Hn & Hc & [= -> ->])]]%mkdir_Ok; [constructor|].
  apply ostep_replace; [done| |].
  2:{ apply charged_commit; [|done]. pose proof (zlen_nonneg dirs).
      unfold sat_mul, DIRECTORY_WRITE_BYTES, u64_max. lia. }
  eapply new_dirs_exact; [exact Hl|by eapply mkdir_slots|].
  rewrite check_replacements_inserts in Hc. destruct (_ <? _) eqn:E; [done|]. by zbool.
Qed.

Lemma rename_ostep src dst st ctx r st' ctx' :
  wf_state st -> request_fits (RRename src dst) st ctx ->
  rename src dst (st, ctx) = (Ok r, (st', ctx')) -> ostep st ctx st' ctx'.
Proof.
  intros Hwf Hfit (_ & p & Hp & [= -> ->])%rename_Ok. specialize (Hfit p Hp).
  apply rename_plan_Ok in Hp as [Hp _]. rewrite (rename_commit_replaces st ctx) by done.
  apply ostep_replace; [apply Hp|by apply exact_fits|apply charged_none].
Qed.

Lemma ensure_append_ostep p st ctx u st' ctx' :
  memory_usage_limit ctx < u64_max ->
  ensure_append_target_exists p (st, ctx) = (Ok u, (st', ctx')) -> ostep st ctx st' ctx'.
Proof.
  intros Hl [[= -> ->]|(rel & _ & Hp & [= -> ->])]%ensure_append_target_exists_Ok;
    [constructor|by apply ostep_insert; [..|apply charged_none]].
Qed.

Lemma observes_ostep {A} (m : OM A) st ctx r st' ctx' :
  observes m -> m (st, ctx) = (r, (st', ctx')) -> ostep st ctx st' ctx'.
Proof. intros Hm Heq. specialize (Hm (st, ctx)). rewrite Heq in Hm. injection Hm as -> ->. constructor. Qed.

Lemma execute_ostep_ok r v st ctx st' ctx' :
  overlay_inv st ctx -> request_fits r st ctx ->
  execute r (st, ctx) = (Ok v, (st', ctx')) -> ostep st ctx st' ctx'.
Proof.
  intros [Hwf _ Hl] Hfit.
  destruct r; cbn [execute]; try solve [apply observes_ostep; solve_observes];
    try (unfold write_text, write_bytes, append_text); intros Hr; inv_run.
  - by eapply write_content_ostep.
  - by eapply write_content_ostep.
  - by eapply append_bytes_ostep.
  - by eapply append_bytes_ostep.
  - by eapply mkdir_ostep.
  - apply unlink_Ok in Hr as (_ & [= -> ->] & Hp). by apply ostep_insert; [..|apply charged_none].
  - apply rmdir_Ok in Hr as (_ & [= -> ->] & Hp & _).
    by apply ostep_insert; [..|apply charged_none].
  - by eapply rename_ostep.
  - apply create_exclusive_Ok in Hr as (rel & _ & _ & _ & Hp & [= -> ->] & _).
    by apply ostep_insert; [..|apply charged_none].
  - unfold open_, write_text in Hr. destruct mode; inv_run; simplify_eq;
      solve [constructor | by eapply write_content_ostep | by eapply ensure_append_ostep].
Qed.

Lemma execute_ostep_any r st ctx :
  overlay_inv st ctx -> request_fits r st ctx ->
  let s' := (execute r (st, ctx)).2 in ostep st ctx s'.1 s'.2.
Proof.
  intros Hinv Hfit. destruct (execute r (st, ctx)) as [[v|e] [st' ctx']] eqn:Heq; cbn.
  - by eapply execute_ostep_ok.
  - apply atomic_execute in Heq as [= -> ->]. constructor.
Qed.
End Runs.
