(* ===== verification/OverlayProps.v ===== *)
(** The properties of overlay mounts: the refinement of the abstract steps, the
    invariants over sequences of requests, and what each operation does. *)
From S2P Require Import Prelude Str BTreeMap FileMode VirtualPath FsTypes PathSecurity Host Common OverlayState Overlay OverlayOps TreeHost OverlayInv OverlayStep.
Local Open Scope Z_scope.
Local Open Scope monty_scope.

(** ** A mount to evaluate on *)

Definition demo_tree : tree :=
  Dir_ [(lit "a.txt", File_ (lit "hello") 7000000000);
        (lit "d", Dir_ [(lit "b.txt", File_ (lit "bye") 0)] 0);
        (lit "ln", Link_)] 0.

Definition demo_ctx : MountContext :=
  {| mount_virtual := lit "/m"; mount_dir := demo_tree; write_bytes_used := 0;
     write_bytes_limit := Some 100000; memory_usage_limit := 50000000;
     clock := fun _ => 5000000000 |}.

#[local] Existing Instance example_layout.

Lemma new_state_inv `{HostDir} `{OverlayLayout} ctx :
  0 <= memory_usage_limit ctx < u64_max -> overlay_inv new_state ctx.
Proof. intros Hl. constructor; [by repeat constructor|cbn; lia|lia]. Qed.

Section Props.
Context `{HostLaws} `{OverlayLayout}.

(** The state after a sequence of requests, whatever their outcomes. *)
Fixpoint run (rs : list FsRequest) (s : OverlayState * MountContext) : OverlayState * MountContext :=
  match rs with
  | [] => s
  | r :: rs => run rs (execute r s).2
  end.

Fixpoint run_fits (rs : list FsRequest) (s : OverlayState * MountContext) : Prop :=
  match rs with
  | [] => True
  | r :: rs => request_fits r s.1 s.2 /\ run_fits rs (execute r s).2
  end.

(** C1: every request on an overlay mount, successful or not, is one of the
    abstract steps: it does nothing, extends one overlay file, or makes a list
    of replacements that passed the memory check as a whole; and it charges the
    quota only with an amount the quota check accepted. *)
Theorem execute_refines_ostep r st ctx :
  overlay_inv st ctx -> request_fits r st ctx ->
  let s' := (execute r (st, ctx)).2 in ostep st ctx s'.1 s'.2.
Proof. apply execute_ostep_any. Qed.

(** C2: whatever requests run on a fresh overlay mount, its memory estimate is
    exactly the sum of what its entries are charged and never exceeds the
    mount's limit, the bytes written never exceed the quota, and the host
    directory is untouched. *)
Theorem overlay_run_invariant rs ctx :
  0 <= memory_usage_limit ctx < u64_max -> quota_ok ctx -> run_fits rs (new_state, ctx) ->
  let s' := run rs (new_state, ctx) in
  wf_state s'.1 /\ memory_usage s'.1 <= memory_usage_limit ctx
  /\ quota_ok s'.2 /\ same_mount ctx s'.2.
Proof.
  intros Hl Hq. assert (Hinv : overlay_inv new_state ctx) by by apply new_state_inv.
  assert (Hsm : same_mount ctx ctx) by done.
  cut (forall st ctx', overlay_inv st ctx' -> quota_ok ctx' -> same_mount ctx ctx' ->
    run_fits rs (st, ctx') -> let s' := run rs (st, ctx') in
    wf_state s'.1 /\ memory_usage s'.1 <= memory_usage_limit ctx
    /\ quota_ok s'.2 /\ same_mount ctx s'.2); [by eauto|].
  clear Hinv Hsm Hq Hl. induction rs as [|r rs IH]; intros st ctx' Hinv Hq Hsm Hfit; cbn.
  - destruct Hinv as [Hwf Hu _]. pose proof Hsm as (_ & _ & _ & <- & _). done.
  - destruct Hfit as [Hf Hfit]. pose proof (execute_ostep_any r st ctx' Hinv Hf) as Hstep.
    cbn in Hstep, Hfit. destruct (execute r (st, ctx')) as [v [st1 ctx1]]. cbn in *.
    apply IH; [by eapply ostep_inv|by eapply ostep_quota| |done].
    apply ostep_same_mount in Hstep. unfold same_mount in *. intuition congruence.
Qed.

(** C33: a request that fails leaves the overlay, its memory estimate, the quota
    counter and the host exactly as they were. *)
Theorem failed_request_changes_nothing r st ctx e s' :
  execute r (st, ctx) = (Err e, s') -> s' = (st, ctx).
Proof. apply atomic_execute. Qed.

(** The quota counter never goes down. *)
Lemma charged_mono ctx ctx' :
  write_bytes_used ctx <= u64_max -> charged ctx ctx' ->
  write_bytes_used ctx <= write_bytes_used ctx'.
Proof.
  intros Hu [->|(n & Hn & _ & ->)]; [done|]. unfold commit_write_bytes.
  destruct (write_bytes_limit ctx); [|done]. cbn. rewrite as_u64_min.
  unfold sat_add, u64_max in *. lia.
Qed.

(** a write that succeeds raises the quota counter by exactly the number of
    bytes written, and one that would push the counter past the quota fails
    before anything is stored. *)
Theorem write_quota_exact p d st ctx l :
  write_bytes_limit ctx = Some l -> 0 <= write_bytes_used ctx -> l < u64_max ->
  let '(r, (_, ctx')) := execute (RWriteBytes p d) (st, ctx) in
  if l <? write_bytes_used ctx + zlen d then r = Err (WriteLimitExceeded l)
  else is_ok r = true -> write_bytes_used ctx' = write_bytes_used ctx + zlen d.
Proof.
  intros Hlim Hu Hl. cbn [execute].
  assert (Hsat : sat_add (write_bytes_used ctx) (as_u64 (zlen d))
                 = Z.min (write_bytes_used ctx + zlen d) u64_max).
  { rewrite as_u64_min. pose proof (zlen_nonneg d). unfold sat_add, u64_max. lia. }
  destruct (write_bytes p d (st, ctx)) as [r [st' ctx']] eqn:Heq.
  destruct (l <? write_bytes_used ctx + zlen d) eqn:El; zbool.
  - revert Heq. unfold write_bytes, write_content, sbind, query. cbn [fst snd].
    unfold check_write_limit. rewrite Hlim, Hsat.
    destruct (l <? _) eqn:E; [by intros [= <- _ _]|zbool; lia].
  - destruct r as [v|e]; [intros _|done]. unfold write_bytes in Heq. inv_run. simplify_eq.
    match goal with H : write_content _ _ _ = _ |- _ => apply write_content_Ok in H end.
    destruct Hm as (rel & _ & _ & _ & _ & _ & [= -> ->]).
    unfold commit_write_bytes. rewrite Hlim. cbn. rewrite Hsat. lia.
Qed.

(** ** Reading back *)

(** The budget of a result alongside the retained state. *)
Lemma available_memory_inv st ctx :
  overlay_inv st ctx ->
  available_memory st ctx = Ok {| available := memory_usage_limit ctx - memory_usage st;
                                  limit := memory_usage_limit ctx |}.
Proof.
  intros [_ Hu _]. unfold available_memory, checked_sub.
  destruct (_ <? _) eqn:E; zbool; [lia|done].
Qed.

Lemma read_bytes_file rel p st ctx f :
  overlay_inv st ctx -> get st rel = Some (EFile f) ->
  (read_bytes rel p (st, ctx)).1 =
  if memory_usage_limit ctx - memory_usage st <? zlen (content f)
  then Err (MemoryUsageLimitExceeded (memory_usage_limit ctx)) else Ok (OBytes (content f)).
Proof.
  intros Hinv Hg. unfold read_bytes, sbind, sget, slift. cbn [fst snd]. rewrite Hg.
  rewrite (available_memory_inv st ctx Hinv). unfold check. cbn [available limit].
  pose proof (zlen_nonneg (content f)). pose proof (wf_usage_nonneg st (inv_wf _ _ Hinv)).
  destruct Hinv as [_ _ Hl]. rewrite as_u64_min.
  destruct (_ <? Z.min _ _) eqn:E1; destruct (_ <? zlen _) eqn:E2; zbool; try lia; done.
Qed.

Lemma read_text_file rel p st ctx f t :
  overlay_inv st ctx -> get st rel = Some (EFile f) -> from_utf8 (content f) = Ok t ->
  (read_text rel p (st, ctx)).1 =
  if memory_usage_limit ctx - memory_usage st <? zlen (content f)
  then Err (MemoryUsageLimitExceeded (memory_usage_limit ctx)) else Ok (OString t).
Proof.
  intros Hinv Hg Ht. unfold read_text, sbind, sget, slift. cbn [fst snd]. rewrite Hg.
  rewrite (available_memory_inv st ctx Hinv). unfold check. cbn [available limit].
  pose proof (zlen_nonneg (content f)). pose proof (wf_usage_nonneg st (inv_wf _ _ Hinv)).
  destruct Hinv as [_ _ Hl]. rewrite as_u64_min. unfold bytes_to_utf8. rewrite Ht.
  destruct (_ <? Z.min _ _) eqn:E1; destruct (_ <? zlen _) eqn:E2; zbool; try lia; done.
Qed.

Lemma relative_path_same p ctx ctx' :
  same_mount ctx ctx' -> relative_path p ctx' = relative_path p ctx.
Proof. intros (Hv & _). unfold relative_path. by rewrite Hv. Qed.

(** A read of a path the overlay holds a file at. *)
Lemma execute_read_bytes_file p rel st ctx f :
  overlay_inv st ctx -> relative_path p ctx = Ok rel -> get st rel = Some (EFile f) ->
  (execute (RReadBytes p) (st, ctx)).1 =
  if memory_usage_limit ctx - memory_usage st <? zlen (content f)
  then Err (MemoryUsageLimitExceeded (memory_usage_limit ctx)) else Ok (OBytes (content f)).
Proof.
  intros Hinv Hrel Hg. cbn [execute]. unfold sbind, query. cbn [fst snd]. rewrite Hrel.
  by apply read_bytes_file.
Qed.

(** Reading a file back gives the bytes last written to it, provided the
    copy fits the memory the mount has left; otherwise the read fails with the
    memory limit, and never gives anything else. *)
Theorem write_then_read p d st ctx v st' ctx' :
  overlay_inv st ctx ->
  execute (RWriteBytes p d) (st, ctx) = (Ok v, (st', ctx')) ->
  (execute (RReadBytes p) (st', ctx')).1 =
  if memory_usage_limit ctx' - memory_usage st' <? zlen d
  then Err (MemoryUsageLimitExceeded (memory_usage_limit ctx')) else Ok (OBytes d).
Proof.
  intros Hinv Heq.
  assert (Hstep : ostep st ctx st' ctx') by by eapply (execute_ostep_ok (RWriteBytes p d)).
  cbn [execute] in Heq. unfold write_bytes in Heq. inv_run. simplify_eq.
  apply write_content_Ok in Hm as (rel & Hrel & _ & _ & _ & _ & [= -> ->]).
  apply (execute_read_bytes_file p rel _ _ {| content := d; f_mtime := current_timestamp (clock ctx 0%nat) |}).
  - by eapply ostep_inv.
  - erewrite relative_path_same; [exact Hrel|]. apply same_mount_commit.
  - rewrite get_insert_unchecked. by rewrite bool_decide_true.
Qed.

(** The same for text: a [str] is valid UTF-8, so it reads back as itself. *)
Theorem write_then_read_text p t st ctx v st' ctx' :
  overlay_inv st ctx -> from_utf8 t = Ok t ->
  execute (RWriteText p t) (st, ctx) = (Ok v, (st', ctx')) ->
  v = OInt (to_i64_sat (chars_count t)) /\
  (execute (RReadText p) (st', ctx')).1 =
  if memory_usage_limit ctx' - memory_usage st' <? zlen t
  then Err (MemoryUsageLimitExceeded (memory_usage_limit ctx')) else Ok (OString t).
Proof.
  intros Hinv Ht Heq.
  assert (Hstep : ostep st ctx st' ctx') by by eapply (execute_ostep_ok (RWriteText p t)).
  cbn [execute] in Heq. unfold write_text in Heq. inv_run. simplify_eq. split; [done|].
  apply write_content_Ok in Hm as (rel & Hrel & _ & _ & _ & _ & [= -> ->]).
  cbn [execute]. unfold sbind, query. cbn [fst snd].
  rewrite (relative_path_same p ctx) by apply same_mount_commit. rewrite Hrel.
  apply (read_text_file rel p _ _ {| content := t; f_mtime := current_timestamp (clock ctx 0%nat) |});
    [by eapply ostep_inv| |done].
  rewrite get_insert_unchecked. by rewrite bool_decide_true.
Qed.

(** ** Appending *)

Lemma check_Ok b n u : check b n = Ok u -> n <= available b.
Proof. unfold check. destruct (_ <? _) eqn:E; [done|]. by zbool. Qed.

Lemma open_regular_Ok rel p o d f d' :
  open_regular rel p o d = (Ok f, d') -> (open_with (non_blocking o) rel d).1 = Ok f.
Proof.
  unfold open_regular. intros Hr. inv_run. unfold host_call in *.
  destruct (open_with _ rel d) as [r d1]. simplify_eq.
  destruct (m_is_file _); [|destruct (m_is_dir _)]; inv_run.
  cbn. by eapply map_err_Ok.
Qed.

Lemma read_file_limited_Ok rel p b d v d' :
  available b < u64_max -> read_file_limited rel p b d = (Ok v, d') ->
  exists f, (open_with (non_blocking read_options) rel d).1 = Ok f
    /\ exists n, take_read_to_end d f n = Ok v /\ zlen v < n.
Proof.
  intros Hb Hr. pose proof (observes_Ok _ _ _ _ (observes_read_file_limited rel p b) Hr) as ->.
  unfold read_file_limited in Hr. inv_run.
  match goal with H : open_regular _ _ _ _ = (Ok ?f, _) |- _ =>
    apply open_regular_Ok in H; exists f end.
  split; [done|]. eexists. split; [by eapply map_err_Ok|].
  match goal with H : check b (as_u64 _) = _ |- _ => apply check_Ok in H; rewrite as_u64_min in H end.
  unfold sat_add. lia.
Qed.

(** Two limited reads of one file that both succeed read the same bytes. *)
Lemma read_file_limited_agree rel p b p' b' d v v' d1 d2 :
  available b < u64_max -> available b' < u64_max ->
  read_file_limited rel p b d = (Ok v, d1) -> read_file_limited rel p' b' d = (Ok v', d2) -> v' = v.
Proof.
  intros Hb Hb' (f & Hf & n & Hn & Hl)%read_file_limited_Ok
    (f' & Hf' & n' & Hn' & Hl')%read_file_limited_Ok; [|done..].
  assert (f' = f) as -> by congruence. by eapply read_to_end.
Qed.

Lemma host_read_bytes_Ok rel p b d v d' :
  host_read_bytes rel p b d = (Ok v, d') ->
  exists c, v = OBytes c /\ read_file_limited rel p b d = (Ok c, d').
Proof. unfold host_read_bytes. intros Hr. inv_run. eauto. Qed.

Lemma on_dir_Ok {A} (m : M Dir MountError A) s a s' :
  on_dir m s = (Ok a, s') -> exists d, m (mount_dir s.2) = (Ok a, d).
Proof. unfold on_dir. destruct (m _) as [r d]. intros [= -> <-]. eauto. Qed.

Lemma available_memory_lt st ctx b :
  overlay_inv st ctx -> available_memory st ctx = Ok b -> available b < u64_max.
Proof.
  intros Hinv Hb. rewrite (available_memory_inv st ctx Hinv) in Hb. injection Hb as <-. cbn.
  pose proof (wf_usage_nonneg st (inv_wf _ _ Hinv)). destruct Hinv. lia.
Qed.

(** What appending extends is what reading gives. *)
Lemma existing_is_read rel p st ctx b old v s1 s2 :
  overlay_inv st ctx -> available b < u64_max ->
  existing_file_bytes rel p b (st, ctx) = (Ok old, s1) ->
  read_bytes rel p (st, ctx) = (Ok v, s2) -> v = OBytes old.
Proof.
  intros Hinv Hb He Hr. unfold existing_file_bytes in He. unfold read_bytes in Hr. inv_run.
  destruct (get st rel) as [[f|r|t|]|]; inv_run; try done.
  - repeat match goal with H : on_dir _ _ = _ |- _ => apply on_dir_Ok in H as [? H] end.
    apply host_read_bytes_Ok in Hr as (c & -> & Hc). cbn [fst snd] in *. f_equal.
    match goal with H1 : checked_ref_path _ _ _ = Ok ?x, H2 : checked_ref_path _ _ _ = Ok ?y |- _ =>
      assert (x = y) as -> by congruence end.
    eapply (read_file_limited_agree _ p b); [done| |exact He|exact Hc].
    by eapply available_memory_lt.
  - apply on_dir_Ok in Hr as [? (c & -> & Hc)%host_read_bytes_Ok]. cbn [fst snd] in Hc.
    match goal with H : available_memory st ctx = Ok _ |- _ =>
      pose proof (available_memory_lt _ _ _ Hinv H) as Hlt end.
    destruct (read_file_limited_Ok _ _ _ _ _ _ Hlt Hc) as (f & Hf & _).
    destruct (open_metadata (non_blocking read_options) _ _ _ eq_refl Hf) as [m Hmeta].
    unfold resolve_real_path_state in *.
    match goal with H : resolve_real p ctx = Ok _ |- _ => rewrite H in * end.
    rewrite Hmeta in *. simplify_eq. apply on_dir_Ok in He as [? He]. f_equal. cbn [fst snd] in He.
    by eapply (read_file_limited_agree _ p b); [..|exact He|exact Hc].
Qed.

(** appending extends what the path reads as: if reading a file gives
    [old] and appending [d] succeeds, the overlay then holds [old] followed by
    [d] there, whether the file was the overlay's own, a moved host file or an
    untouched host file. *)
Theorem append_extends p d st ctx old v st' ctx' :
  overlay_inv st ctx ->
  (execute (RReadBytes p) (st, ctx)).1 = Ok (OBytes old) ->
  execute (RAppendBytes p d) (st, ctx) = (Ok v, (st', ctx')) ->
  v = OInt (to_i64_sat (zlen d)) /\
  (execute (RReadBytes p) (st', ctx')).1 =
  if memory_usage_limit ctx' - memory_usage st' <? zlen (old ++ d)
  then Err (MemoryUsageLimitExceeded (memory_usage_limit ctx')) else Ok (OBytes (old ++ d)).
Proof.
  intros Hinv Hread Happ.
  assert (Hstep : ostep st ctx st' ctx') by by eapply (execute_ostep_ok (RAppendBytes p d)).
  cbn [execute] in Happ.
  apply append_bytes_Ok in Happ as (rel & n & Hrel & -> & _ & _ & Hctx & Hst). cbn in Hctx, Hst.
  split; [done|]. subst ctx'.
  cbn [execute] in Hread. unfold sbind, query in Hread. cbn [fst snd] in Hread. rewrite Hrel in Hread.
  destruct (read_bytes rel p (st, ctx)) as [r s2] eqn:Hr. cbn in Hread. subst r.
  assert (Hf : exists f, get st' rel = Some (EFile f) /\ content f = old ++ d).
  { destruct Hst as [(f & Hg & _ & _ & ->)|(_ & old' & b & (b0 & Hb0 & Hle) & He & _ & ->)].
    - pose proof (read_bytes_file rel p st ctx f Hinv Hg) as Hr'. rewrite Hr in Hr'. cbn in Hr'.
      destruct (_ <? _); simplify_eq. eexists. split; [apply bget_insert_eq|done].
    - rewrite get_insert_unchecked, bool_decide_true by done. eexists. split; [done|]. cbn.
      f_equal. pose proof (available_memory_lt _ _ _ Hinv Hb0).
      pose proof (existing_is_read rel p st ctx b old' (OBytes old) _ _ Hinv ltac:(lia) He Hr).
      congruence. }
  destruct Hf as (f & Hg & <-). apply (execute_read_bytes_file p rel); [by eapply ostep_inv| |done].
  erewrite relative_path_same; [exact Hrel|]. apply same_mount_commit.
Qed.
End Props.

(** ** Examples *)

Lemma demo_inv : overlay_inv new_state demo_ctx.
Proof. apply new_state_inv. by vm_compute. Qed.

Definition demo_path : str := lit "/m/new.txt".
Definition demo_write : result MontyObject MountError * (OverlayState * MountContext) :=
  execute (RWriteBytes demo_path (lit "hi")) (new_state, demo_ctx).
Definition demo_append : result MontyObject MountError * (OverlayState * MountContext) :=
  execute (RAppendBytes (lit "/m/a.txt") (lit "!")) (new_state, demo_ctx).
Definition demo_text : result MontyObject MountError * (OverlayState * MountContext) :=
  execute (RWriteText demo_path (lit "hé")) (new_state, demo_ctx).

Example demo_reads :
  (execute (RReadBytes demo_path) demo_write.2).1 = Ok (OBytes (lit "hi"))
  /\ (execute (RReadText (lit "/m/a.txt")) demo_append.2).1 = Ok (OString (lit "hello!"))
  /\ (execute (RReadText (lit "/m/ln")) (new_state, demo_ctx)).1 = Err (PathEscape (lit "/m/ln"))
  /\ demo_text.1 = Ok (OInt 2).
Proof. by vm_compute. Qed.

Lemma execute_refines_ostep_witness : ostep new_state demo_ctx demo_write.2.1 demo_write.2.2.
Proof.
  exact (execute_refines_ostep (RWriteBytes demo_path (lit "hi")) new_state demo_ctx demo_inv I).
Defined.

Lemma overlay_run_invariant_witness :
  wf_state demo_write.2.1 /\ memory_usage demo_write.2.1 <= memory_usage_limit demo_ctx
  /\ quota_ok demo_write.2.2 /\ same_mount demo_ctx demo_write.2.2.
Proof.
  apply (overlay_run_invariant [RWriteBytes demo_path (lit "hi")] demo_ctx);
    [by vm_compute|by vm_compute|done].
Defined.

Lemma failed_request_changes_nothing_witness :
  (execute (RReadText (lit "/m/ln")) (new_state, demo_ctx)).2 = (new_state, demo_ctx).
Proof.
  apply (failed_request_changes_nothing (RReadText (lit "/m/ln")) new_state demo_ctx
           (PathEscape (lit "/m/ln"))). vm_compute. reflexivity.
Defined.

Lemma write_quota_exact_witness :
  write_bytes_used demo_write.2.2 = 2.
Proof.
  pose proof (write_quota_exact demo_path (lit "hi") new_state demo_ctx 100000 eq_refl
    ltac:(by vm_compute) ltac:(by vm_compute)) as Hq.
  vm_compute in Hq |- *. by apply Hq.
Defined.

Lemma write_then_read_witness :
  (execute (RReadBytes demo_path) (demo_write.2.1, demo_write.2.2)).1 = Ok (OBytes (lit "hi")).
Proof.
  rewrite (write_then_read demo_path (lit "hi") new_state demo_ctx (OInt 2) demo_write.2.1
             demo_write.2.2 demo_inv); vm_compute; reflexivity.
Defined.

Lemma write_then_read_text_witness :
  (execute (RReadText demo_path) (demo_text.2.1, demo_text.2.2)).1 = Ok (OString (lit "hé")).
Proof.
  rewrite (proj2 (write_then_read_text demo_path (lit "hé") new_state demo_ctx (OInt 2)
             demo_text.2.1 demo_text.2.2 demo_inv eq_refl ltac:(vm_compute; reflexivity)));
    vm_compute; reflexivity.
Defined.

Lemma append_extends_witness :
  (execute (RReadBytes (lit "/m/a.txt")) (demo_append.2.1, demo_append.2.2)).1
  = Ok (OBytes (lit "hello!")).
Proof.
  rewrite (proj2 (append_extends (lit "/m/a.txt") (lit "!") new_state demo_ctx (lit "hello") (OInt 1)
             demo_append.2.1 demo_append.2.2 demo_inv ltac:(vm_compute; reflexivity)
             ltac:(vm_compute; reflexivity))); vm_compute; reflexivity.
Defined.
