(* ===== verification/OverlayTree.v ===== *)
(** Properties of the overlay backend's namespace operations: deletion,
    directories, renames, listings and symbolic links. *)
From S2P Require Import Prelude Str BTreeMap FileMode VirtualPath FsTypes PathSecurity Host Common OverlayState Overlay OverlayOps TreeHost OverlayInv OverlayStep OverlayProps.
Local Open Scope Z_scope.
Local Open Scope monty_scope.

#[local] Existing Instance example_layout.

Section Tree.
Context `{HostLaws} `{OverlayLayout}.

(** ** The map *)

(** Walking the overlay's entries below a directory by the range from
    ["dir/"] to ["dir0"] visits exactly the entries whose path starts with
    ["dir/"]. *)
Theorem prefix_iter_exact st prefix k e :
  wf_state st -> prefix = [] \/ ends_with_char slash prefix = true ->
  (k, e) ∈ prefix_iter st prefix <-> get st k = Some e /\ prefix `prefix_of` k.
Proof. apply elem_of_prefix_iter. Qed.

(** the preflight check of a multi-entry update is exact: it accepts a list
    of replacements, repeated paths included, precisely when performing them
    one after the other leaves the memory estimate within the limit. *)
Theorem check_replacements_exact st rs limit :
  check_replacements st rs limit = Ok tt <-> memory_usage (insert_all rs st) <= limit.
Proof.
  rewrite check_replacements_inserts. destruct (_ <? _) eqn:E; zbool; split; done || lia.
Qed.

(** ** Deletion *)

Lemma directory_prefix_slash rel : rel <> [] -> directory_prefix rel = rel ++ [slash].
Proof. by destruct rel. Qed.

Lemma directory_prefix_ok rel :
  directory_prefix rel = [] \/ ends_with_char slash (directory_prefix rel) = true.
Proof.
  destruct rel as [|c rel]; [by left|right]. cbn [directory_prefix].
  unfold ends_with_char. by rewrite last_snoc.
Qed.

Lemma overlay_directory_has_children_false st rel :
  wf_state st -> rel <> [] -> overlay_directory_has_children st rel = false ->
  forall k e, get st k = Some e -> (rel ++ [slash]) `prefix_of` k -> e = EDeleted.
Proof.
  intros Hwf Hne Hc k e Hg Hp. unfold overlay_directory_has_children in Hc.
  assert (Hin : (k, e) ∈ prefix_iter st (directory_prefix rel)).
  { apply elem_of_prefix_iter; [done|apply directory_prefix_ok|].
    by rewrite directory_prefix_slash. }
  destruct (is_deleted e) eqn:He; [by destruct e|]. exfalso.
  rewrite (proj2 (existsb_exists _ _)) in Hc; [done|].
  exists (k, e). split; [by apply list_elem_of_In|]. cbn. rewrite He, andb_true_r.
  apply negb_true_iff, bool_decide_eq_false. intros ->. destruct Hp as [r Hr].
  apply (f_equal length) in Hr. rewrite !length_app in Hr. cbn in Hr. lia.
Qed.

(** a file that was unlinked is gone: it does not exist any more, reading
    and unlinking it fail with [FileNotFoundError], and no other entry of the
    overlay changed. *)
Theorem unlink_hides p st ctx v st' ctx' :
  execute (RUnlink p) (st, ctx) = (Ok v, (st', ctx')) ->
  (execute (RExists p) (st', ctx')).1 = Ok (OBool false)
  /\ (execute (RReadBytes p) (st', ctx')).1 = Err (not_found p)
  /\ (execute (RUnlink p) (st', ctx')).1 = Err (not_found p)
  /\ exists rel, relative_path p ctx = Ok rel /\ forall k, k <> rel -> get st' k = get st k.
Proof.
  intros Heq. cbn [execute] in *. inv_run. rename a into rel.
  apply unlink_Ok in Heq as (_ & [= -> ->] & _).
  assert (Hg : get (insert_unchecked rel EDeleted st) rel = Some EDeleted).
  { rewrite get_insert_unchecked. by rewrite bool_decide_true. }
  unfold sbind, query, exists_, read_bytes, unlink, sbind, sget. cbn [fst snd].
  match goal with H : relative_path p ctx = _ |- _ => rewrite H end. cbn [fst snd]. rewrite Hg.
  repeat split; try done. exists rel. split; [done|]. intros k Hk.
  rewrite get_insert_unchecked. by rewrite bool_decide_false by congruence.
Qed.

(** [rmdir] only removes an empty directory, never the mount root: when it
    succeeds everything the overlay held below it was deleted already, and the
    directory itself is gone afterwards. *)
Theorem rmdir_only_empty p st ctx v st' ctx' :
  wf_state st -> execute (RRmdir p) (st, ctx) = (Ok v, (st', ctx')) ->
  exists rel, relative_path p ctx = Ok rel /\ rel <> []
    /\ (forall k e, get st k = Some e -> (rel ++ [slash]) `prefix_of` k -> e = EDeleted)
    /\ get st' rel = Some EDeleted
    /\ (execute (RIsDir p) (st', ctx')).1 = Ok (OBool false).
Proof.
  intros Hwf Heq. cbn [execute] in *. inv_run. rename a into rel.
  apply rmdir_Ok in Heq as (_ & [= -> ->] & _ & Hne & Hc).
  assert (Hg : get (insert_unchecked rel EDeleted st) rel = Some EDeleted).
  { rewrite get_insert_unchecked. by rewrite bool_decide_true. }
  exists rel. split; [done|]. split; [done|].
  split; [by apply overlay_directory_has_children_false|]. split; [done|].
  unfold sbind, query, is_dir_. cbn [fst snd].
  match goal with H : relative_path p ctx = _ |- _ => rewrite H end. cbn [fst snd]. by rewrite Hg.
Qed.

(** ** Directories *)

(** The outcome of a step does not depend on the path it is reported for. *)
Lemma step_vpath w c p p' x : step w c p = Ok x -> step w c p' = Ok x.
Proof.
  unfold step, classify_target. destruct (exhausted w); [done|].
  destruct (symlink_metadata (here w) c) as [m|e]; [|destruct (bool_decide (kind e = NotFound)); done].
  destruct (m_is_symlink m); [done|]. destruct (m_is_dir m); [|done]. cbn.
  destruct (open_dir (here w) c) as [n|e]; [done|]. destruct (bool_decide (kind e = NotFound)); done.
Qed.

Lemma replaced_by_new_dirs dirs t k :
  replaced_by (new_dirs dirs t) k = if bool_decide (k ∈ dirs) then Some (EDirectory t) else None.
Proof.
  induction dirs as [|j dirs IH]; [done|].
  change (new_dirs (j :: dirs) t) with ((j, EDirectory t) :: new_dirs dirs t).
  cbn [replaced_by]. rewrite IH.
  destruct (decide (k ∈ dirs)) as [Hk|Hk].
  - rewrite !bool_decide_true by (done || by right). done.
  - rewrite (bool_decide_false (k ∈ dirs)) by done. destruct (decide (j = k)) as [->|Hj].
    + by rewrite !bool_decide_true by set_solver.
    + by rewrite !bool_decide_false by set_solver.
Qed.

Lemma get_new_dirs dirs t st k :
  get (insert_all (new_dirs dirs t) st) k =
  if bool_decide (k ∈ dirs) then Some (EDirectory t) else get st k.
Proof. rewrite get_insert_all, replaced_by_new_dirs. by case_bool_decide. Qed.

(** Recording the missing directories makes every component a directory. *)
Lemma dirs_to_create_complete st ctx t all vpath comps : forall w current dirs,
  dirs_to_create_loop st ctx w current comps = Ok dirs -> dirs ⊆ all ->
  ensure_parent_loop (insert_all (new_dirs all t) st) w current comps vpath = Ok tt.
Proof.
  induction comps as [|c comps IH]; intros w current dirs; [done|].
  cbn [dirs_to_create_loop ensure_parent_loop]. set (cur := push_component current c).
  destruct (step w c _) as [[real w']|] eqn:Hs; cbn [rbind]; [|done].
  rewrite (step_vpath _ _ _ vpath _ Hs). cbn [rbind]. rewrite get_new_dirs. intros Hd Hsub.
  assert (Hrec : (let? more := dirs_to_create_loop st ctx w' cur comps in Ok (cur :: more)) = Ok dirs ->
    cur ∈ all /\ exists more, dirs_to_create_loop st ctx w' cur comps = Ok more /\ more ⊆ all).
  { intros (more & Hmore & [= <-])%rbind_Ok. split; [apply Hsub; left|].
    exists more. split; [done|]. intros k Hk. apply Hsub. by right. }
  destruct (get st cur) as [[| | |]|]; try done.
  - case_bool_decide; by eapply IH.
  - destruct (Hrec Hd) as (Hin & more & Hmore & Hsub'). rewrite bool_decide_true by done.
    by eapply IH.
  - destruct real; try done.
    + case_bool_decide; by eapply IH.
    + destruct (Hrec Hd) as (Hin & more & Hmore & Hsub'). rewrite bool_decide_true by done.
      by eapply IH.
Qed.

(** [mkdir(parents=True)] on a path that does not exist yet leaves every
    component of the path a directory the overlay may write beneath: creating
    any entry directly inside it passes the parent check. It records only names
    that were free or deleted, and pays one block for each. *)
Theorem mkdir_parents_complete p rel exist_ok child vpath st ctx v st' ctx' :
  relative_path p ctx = Ok rel -> mkdir_early st rel exist_ok ctx p = Ok None ->
  slash ∉ child ->
  execute (RMkdir p true exist_ok) (st, ctx) = (Ok v, (st', ctx')) ->
  ensure_parent_exists st' (rel ++ slash :: child) ctx vpath = Ok tt
  /\ exists dirs, overlay_dirs_to_create st rel ctx = Ok dirs
     /\ Forall (dir_slot st) dirs
     /\ ctx' = commit_write_bytes (sat_mul (zlen dirs) DIRECTORY_WRITE_BYTES) ctx
     /\ forall k, get st' k = if bool_decide (k ∈ dirs)
          then Some (EDirectory (current_timestamp (clock ctx 0%nat))) else get st k.
Proof.
  intros Hrel He Hch Heq. cbn [execute] in Heq. inv_run.
  assert (a = rel) as -> by congruence.
  apply mkdir_Ok in Heq as (_ & [[_ Hx]|(dirs & _ & Hd & _ & _ & [= -> ->])]); [congruence|].
  split.
  - unfold ensure_parent_exists.
    rewrite (proj2 (rsplit_once_Some slash (rel ++ slash :: child) rel child)) by done.
    by eapply dirs_to_create_complete.
  - exists dirs. split; [done|]. split; [by eapply dirs_to_create_slots|].
    split; [done|]. intros k. apply get_new_dirs.
Qed.

(** ** Renames *)

Lemma replaced_by_elem rs k e : replaced_by rs k = Some e -> (k, e) ∈ rs.
Proof.
  induction rs as [|[j e'] rs IH]; cbn; [done|]. destruct (replaced_by rs k).
  - intros [= ->]. right. by apply IH.
  - case_bool_decide; [|done]. intros [= ->]. subst. left.
Qed.

(** A path all of whose replacements agree ends up with that entry. *)
Lemma replaced_by_unique rs k e :
  (k, e) ∈ rs -> (forall e', (k, e') ∈ rs -> e' = e) -> replaced_by rs k = Some e.
Proof.
  intros Hin Hu. destruct (replaced_by rs k) as [e'|] eqn:E.
  - apply replaced_by_elem in E. f_equal. by apply Hu.
  - apply replaced_by_None in E. exfalso. apply E. rewrite list_elem_of_In, in_map_iff.
    exists (k, e). split; [done|]. by apply list_elem_of_In.
Qed.

(** Two directories share a descendant only if one lies inside the other. *)
Lemma shared_descendant (a b x y : str) :
  a ++ slash :: x = b ++ slash :: y ->
  a = b \/ (a ++ [slash]) `prefix_of` b \/ (b ++ [slash]) `prefix_of` a.
Proof.
  revert b. induction a as [|c a IH]; intros b Heq.
  - destruct b as [|d b]; [by left|]. cbn in Heq. injection Heq as -> _. right. left.
    by exists b.
  - destruct b as [|d b].
    + cbn in Heq. injection Heq as -> _. right. right. by exists a.
    + cbn in Heq. injection Heq as -> Heq. destruct (IH b Heq) as [->|[[r ->]|[r ->]]].
      * by left.
      * right. left. by exists r.
      * right. right. by exists r.
Qed.

Definition below (a k : str) : Prop := (a ++ [slash]) `prefix_of` k.

Lemma below_app a x : below a (a ++ slash :: x).
Proof. exists x. by rewrite <- app_assoc. Qed.

Lemma below_inv a k : below a k -> exists x, k = a ++ slash :: x.
Proof. intros [x ->]. exists x. by rewrite <- app_assoc. Qed.

(** What the collection of real descendants keeps: keys below the source that
    the overlay does not hold. *)
Definition collect_inv (st : OverlayState) (src : str) (c : Collect) : Prop :=
  Forall (fun r => get st r.1 = None /\ below src r.1) (c_result c)
  /\ Forall (fun d => (src ++ [slash]) `prefix_of` d.2) (c_dirs c).

Lemma collect_entry_inv st src ctx cur pre handled vpath budget c entry c' :
  collect_inv st src c -> (src ++ [slash]) `prefix_of` pre ->
  collect_entry ctx cur pre st handled vpath budget c entry = Ok c' -> collect_inv st src c'.
Proof.
  intros [Hr Hd] Hp. unfold collect_entry. intros Hc.
  apply rbind_Ok in Hc as (e & _ & Hc). destruct (to_str (file_name e)) as [name|]; [|done].
  destruct (get st (pre ++ name)) eqn:Hg; [by injection Hc as <-|]. cbn [orb] in Hc.
  destruct (bool_decide _); [by injection Hc as <-|].
  assert (Hb : below src (pre ++ name)).
  { destruct Hp as [r ->]. exists (r ++ name). by rewrite app_assoc. }
  apply rbind_Ok in Hc as (k & _ & Hc). destruct (kind_is KSymlink k); [done|].
  destruct (kind_is KFile k).
  { destruct (from_relative _ _); [|by injection Hc as <-].
    apply rbind_Ok in Hc as (u & _ & [= <-]). split; cbn; [|done].
    apply Forall_app_2; [done|]. by repeat constructor. }
  destruct (kind_is KDir k); [|by injection Hc as <-].
  apply rbind_Ok in Hc as (u & _ & [= <-]).
  split; cbn; (apply Forall_app_2; [done|]); repeat constructor; try done.
  cbn. destruct Hb as [r Hr']. rewrite Hr'. exists (r ++ [slash]). by rewrite <- !app_assoc.
Qed.

Lemma collect_entries_inv st src ctx cur pre handled vpath budget listing : forall c c',
  collect_inv st src c -> (src ++ [slash]) `prefix_of` pre ->
  collect_entries ctx cur pre st handled vpath budget c listing = Ok c' -> collect_inv st src c'.
Proof.
  induction listing as [|e listing IH]; intros c c' Hc Hp; cbn; [by intros [= <-]|].
  intros (c1 & Hc1 & Hrest)%rbind_Ok. eapply IH; [|done|exact Hrest].
  by eapply collect_entry_inv.
Qed.

Lemma collect_loop_inv st src ctx handled vpath budget fuel : forall c children,
  collect_inv st src c -> collect_loop fuel ctx st handled vpath budget c = Some (Ok children) ->
  Forall (fun r => get st r.1 = None /\ below src r.1) children.
Proof.
  induction fuel as [|fuel IH]; intros c children Hc; cbn;
    destruct (last (c_dirs c)) as [[cur pre]|] eqn:Hl; try done;
    try (intros [= <-]; apply Hc).
  destruct (map_err _ _) as [listing|]; [|done].
  destruct (collect_entries _ _ _ _ _ _ _ _ _) as [c'|] eqn:Hce; [|done]. apply IH.
  destruct Hc as [Hr Hd]. eapply collect_entries_inv; [|..|exact Hce].
  - split; cbn; [done|]. by apply removelast_Forall.
  - apply last_Some in Hl as [l Hl]. rewrite Hl in Hd. apply Forall_app in Hd as [_ Hd].
    by inversion Hd.
Qed.

Lemma real_children_Ok r l children :
  real_children r l = Ok children -> children = [] \/ r = Some (Ok children).
Proof.
  unfold real_children. destruct r as [[c|e]|]; [by intros [= <-]; right| |done].
  destruct e; try (by intros [= <-]; left); try done. destruct (bool_decide _); [done|].
  by intros [= <-]; left.
Qed.

Lemma rename_moves_real st ctx src dst vpath om rm :
  rename_moves st ctx src dst vpath = Ok (om, rm) ->
  Forall (fun m => get st m.1.1 = None /\ exists x, m.1.1 = src ++ slash :: x
                   /\ m.1.2 = dst ++ slash :: x) rm.
Proof.
  unfold rename_moves. intros (b & _ & (b' & _ & (rm' & Hrm & [= _ <-])%rbind_Ok)%rbind_Ok)%rbind_Ok.
  destruct (resolve_real vpath ctx) as [t|]; [|by injection Hrm as <-].
  destruct (host_is_dir _ _); [|by injection Hrm as <-].
  apply rbind_Ok in Hrm as (children & Hch & [= <-]).
  apply real_children_Ok in Hch as [->|Hch]; [constructor|].
  assert (HF : Forall (fun r => get st r.1 = None /\ below src r.1) children).
  { eapply collect_loop_inv; [|exact Hch]. split; cbn; [constructor|]. by repeat constructor. }
  apply Forall_map. eapply Forall_impl; [exact HF|]. intros [k e] [Hg Hb]. cbn in *.
  split; [done|]. destruct (below_inv _ _ Hb) as [x ->]. exists x. split; [done|].
  replace (src ++ slash :: x) with ((src ++ [slash]) ++ x) by by rewrite <- app_assoc.
  rewrite (proj2 (strip_prefix_Some (src ++ [slash]) _ x)) by done.
  cbn. by rewrite <- app_assoc.
Qed.

(** The plan for a directory the overlay holds. *)
Lemma rename_plan_overlay_dir st ctx src dst p t :
  rename_plan st ctx src dst = Ok p -> get st (p_src p) = Some (EDirectory t) ->
  p_source_entry p = EDirectory t
  /\ ~ below (p_src p) (p_dst p)
  /\ p_overlay_moves p =
      List.map (fun key => (key, (p_dst p ++ [slash]) ++ drop (length (p_src p ++ [slash])) key))
               (List.map fst (prefix_iter st (p_src p ++ [slash])))
  /\ Forall (fun m => get st m.1.1 = None /\ exists x, m.1.1 = p_src p ++ slash :: x
                   /\ m.1.2 = p_dst p ++ slash :: x) (p_real_moves p).
Proof.
  unfold rename_plan. intros Hr Hg. inv_binds Hr.
  match goal with Hs : rename_source _ _ _ _ = Ok ?x |- _ => destruct x as [b e]; rename Hs into Hsrc end.
  inv_binds Hr.
  match goal with Hm : (if ?d then rename_moves _ _ _ _ _ else _) = Ok ?x |- _ =>
    destruct x as [om rm]; rename Hm into Hmv; rename d into src_is_dir end.
  inv_binds Hr. injection Hr as <-. cbn [p_src p_dst p_source_entry p_overlay_moves p_real_moves] in *.
  unfold rename_source in Hsrc. rewrite Hg in Hsrc. injection Hsrc as <- <-.
  match goal with Hd : rename_src_is_dir _ _ _ _ = Ok _ |- _ =>
    unfold rename_src_is_dir in Hd; rewrite Hg in Hd; injection Hd as <- end.
  split; [done|]. split; [|split; [by eapply rename_moves_Ok|by eapply rename_moves_real]].
  intros Hb%starts_with_spec.
  match goal with Hi : (if true && _ then _ else _) = Ok _ |- _ => by rewrite Hb in Hi end.
Qed.

(** The replacements of such a plan, by the shape of their paths. *)
Inductive planned (st : OverlayState) (p : RenamePlan) : str -> OverlayEntry -> Prop :=
| planned_src : planned st p (p_src p) EDeleted
| planned_dst : planned st p (p_dst p) (p_source_entry p)
| planned_old x : planned st p (p_src p ++ slash :: x) EDeleted
| planned_overlay x e :
    get st (p_src p ++ slash :: x) = Some e -> planned st p (p_dst p ++ slash :: x) e
| planned_real x e :
    get st (p_src p ++ slash :: x) = None -> planned st p (p_dst p ++ slash :: x) e.

Lemma slash_suffix (a x : str) : a ++ slash :: x = (a ++ [slash]) ++ x.
Proof. by rewrite <- app_assoc. Qed.

Lemma elem_of_overlay_moves st p (m : str * str) :
  wf_state st ->
  m ∈ List.map (fun key => (key, (p_dst p ++ [slash]) ++ drop (length (p_src p ++ [slash])) key))
               (List.map fst (prefix_iter st (p_src p ++ [slash]))) <->
  exists x e, get st (p_src p ++ slash :: x) = Some e
    /\ m = (p_src p ++ slash :: x, p_dst p ++ slash :: x).
Proof.
  intros Hwf.
  assert (Hends : p_src p ++ [slash] = [] \/ ends_with_char slash (p_src p ++ [slash]) = true).
  { right. unfold ends_with_char. by rewrite last_snoc. }
  rewrite List.map_map, list_elem_of_In, in_map_iff. split.
  - intros ([k e] & <- & Hin). rewrite <- list_elem_of_In, elem_of_prefix_iter in Hin by done.
    destruct Hin as [Hg [x ->]]. exists x, e. cbn. rewrite drop_app_length.
    by rewrite (slash_suffix (p_src p) x), (slash_suffix (p_dst p) x).
  - intros (x & e & Hg & ->). exists (p_src p ++ slash :: x, e). split.
    + cbn. by rewrite (slash_suffix (p_src p) x), (slash_suffix (p_dst p) x), drop_app_length.
    + rewrite <- list_elem_of_In, elem_of_prefix_iter by done. split; [done|].
      rewrite (slash_suffix (p_src p) x). by exists x.
Qed.

Lemma elem_of_planned st ctx src dst p t k e :
  wf_state st -> rename_plan st ctx src dst = Ok p -> get st (p_src p) = Some (EDirectory t) ->
  (k, e) ∈ plan_replacements st p -> planned st p k e.
Proof.
  intros Hwf Hplan Hg.
  destruct (rename_plan_overlay_dir _ _ _ _ _ _ Hplan Hg) as (_ & _ & Hom & Hrm).
  unfold plan_replacements. rewrite !elem_of_app, !elem_of_cons, elem_of_nil.
  intros [[[= -> ->]|[[= -> ->]|[]]]|[Hin|Hin]]; [constructor..| |].
  - rewrite list_elem_of_In, in_flat_map in Hin. destruct Hin as (m & Hm & Hin).
    rewrite Hom, <- list_elem_of_In, elem_of_overlay_moves in Hm by done.
    destruct Hm as (x & e' & Hx & ->). cbn in Hin.
    destruct Hin as [[= <- <-]|[[= <- <-]|[]]]; [constructor|]. rewrite Hx. by constructor.
  - rewrite list_elem_of_In, in_flat_map in Hin. destruct Hin as (m & Hm & Hin).
    rewrite Forall_forall in Hrm. apply list_elem_of_In in Hm.
    destruct (Hrm m Hm) as (Hn & x & H1' & H2'). rewrite H1' in Hn. cbn in Hin.
    destruct Hin as [[= <- <-]|[[= <- <-]|[]]]; rewrite ?H1', ?H2'; by constructor.
Qed.

Lemma planned_elem st ctx src dst p t x e :
  wf_state st -> rename_plan st ctx src dst = Ok p -> get st (p_src p) = Some (EDirectory t) ->
  get st (p_src p ++ slash :: x) = Some e ->
  (p_src p ++ slash :: x, EDeleted) ∈ plan_replacements st p
  /\ (p_dst p ++ slash :: x, e) ∈ plan_replacements st p.
Proof.
  intros Hwf Hplan Hg Hx.
  destruct (rename_plan_overlay_dir _ _ _ _ _ _ Hplan Hg) as (_ & _ & Hom & _).
  assert (Hin : (p_src p ++ slash :: x, p_dst p ++ slash :: x) ∈ p_overlay_moves p).
  { rewrite Hom, elem_of_overlay_moves by done. by exists x, e. }
  unfold plan_replacements. rewrite !elem_of_app. split; right; left;
    rewrite list_elem_of_In, in_flat_map; (eexists; split; [by apply list_elem_of_In|]); cbn;
    rewrite ?Hx; auto.
Qed.

Lemma not_self_below (a x : str) : a <> a ++ slash :: x.
Proof. intros Heq. apply (f_equal length) in Heq. rewrite length_app in Heq. cbn in Heq. lia. Qed.

(** No path is planned twice with different entries, when neither directory is
    inside the other. *)
Lemma planned_functional st p k e1 e2 :
  p_src p <> p_dst p -> ~ below (p_src p) (p_dst p) -> ~ below (p_dst p) (p_src p) ->
  planned st p k e1 -> planned st p k e2 ->
  (forall x, k = p_dst p ++ slash :: x -> get st (p_src p ++ slash :: x) <> None) -> e1 = e2.
Proof.
  intros Hne Hn1 Hn2 H1' H2' Hx.
  assert (Hd : forall x y, p_src p ++ slash :: x <> p_dst p ++ slash :: y).
  { intros x y [Heq|[Hb|Hb]]%shared_descendant; done. }
  assert (Ha : forall x, p_dst p <> p_src p ++ slash :: x).
  { intros x Heq. apply Hn1. rewrite Heq. apply below_app. }
  assert (Hb : forall x, p_src p <> p_dst p ++ slash :: x).
  { intros x Heq. apply Hn2. rewrite Heq. apply below_app. }
  pose proof not_self_below as Hs.
  destruct H1' as [| |x|x e He|x e He]; inversion H2'; subst; try done; try naive_solver.
Qed.

(** C34: renaming a directory of the overlay moves its whole subtree: the
    directory and every overlay entry below it, tombstones included, appear
    unchanged under the new name, the old names are deleted, and no entry
    outside the two directories changes. *)
Theorem rename_moves_subtree src dst st ctx v st' ctx' p t :
  wf_state st -> rename_plan st ctx src dst = Ok p -> plan_fits st p ->
  get st (p_src p) = Some (EDirectory t) ->
  p_src p <> p_dst p -> ~ below (p_dst p) (p_src p) ->
  execute (RRename src dst) (st, ctx) = (Ok v, (st', ctx')) ->
  get st' (p_dst p) = Some (EDirectory t) /\ get st' (p_src p) = Some EDeleted
  /\ (forall x e, get st (p_src p ++ slash :: x) = Some e ->
       get st' (p_dst p ++ slash :: x) = Some e
       /\ get st' (p_src p ++ slash :: x) = Some EDeleted)
  /\ (forall k, k <> p_src p -> k <> p_dst p -> ~ below (p_src p) k -> ~ below (p_dst p) k ->
       get st' k = get st k).
Proof.
  intros Hwf Hplan Hfit Hg Hne Hnb Heq. cbn [execute] in Heq.
  apply rename_Ok in Heq as (_ & p' & Hp' & [= -> ->]). assert (p' = p) as -> by congruence.
  pose proof (rename_plan_Ok _ _ _ _ _ Hplan) as [Hok _].
  destruct (rename_plan_overlay_dir _ _ _ _ _ _ Hplan Hg) as (He & Hnb' & Hom & Hrm).
  rewrite (rename_commit_replaces st ctx) by done.
  assert (Hdst : forall x, get st (p_src p ++ slash :: x) <> None -> forall e, (p_dst p ++ slash :: x, e) ∈ plan_replacements st p ->
    replaced_by (plan_replacements st p) (p_dst p ++ slash :: x) = Some e).
  { intros x Hx e Hin. apply replaced_by_unique; [done|]. intros e' Hin'.
    eapply (planned_functional st p); [done..| | |];
      [by eapply elem_of_planned|by eapply elem_of_planned|].
    intros y Heq%app_inv_head. by injection Heq as <-. }
  assert (Hother : forall k e, (forall x, k <> p_dst p ++ slash :: x) -> (k, e) ∈ plan_replacements st p ->
    replaced_by (plan_replacements st p) k = Some e).
  { intros k e Hk Hin. apply replaced_by_unique; [done|]. intros e' Hin'.
    eapply (planned_functional st p); [done..| | |];
      [by eapply elem_of_planned|by eapply elem_of_planned|].
    intros y Heq. by specialize (Hk y). }
  rewrite !get_insert_all. split; [|split; [|split]].
  - rewrite (Hother _ (p_source_entry p)); [by rewrite He|apply not_self_below|].
    unfold plan_replacements. right. left.
  - rewrite (Hother _ EDeleted); [done| |left]. intros x Hx. apply Hnb. rewrite Hx. apply below_app.
  - intros x e Hx. rewrite !get_insert_all.
    destruct (planned_elem _ _ _ _ _ _ _ _ Hwf Hplan Hg Hx) as [Hold Hnew].
    rewrite (Hdst x ltac:(congruence) e Hnew), (Hother _ EDeleted); [done| |done].
    intros y [?|[?|?]]%shared_descendant; done.
  - intros k Hk1 Hk2 Hk3 Hk4. rewrite get_insert_all.
    destruct (replaced_by _ k) as [e|] eqn:E; [|done]. exfalso.
    apply replaced_by_elem in E. eapply elem_of_planned in E; [|done..].
    inversion E; subst; try done; first [apply Hk3, below_app|apply Hk4, below_app].
Qed.
End Tree.

(** ** Examples *)

Lemma wf_by_run rs : run_fits rs (new_state, demo_ctx) -> wf_state (run rs (new_state, demo_ctx)).1.
Proof.
  cut (forall st ctx, overlay_inv st ctx -> run_fits rs (st, ctx) -> wf_state (run rs (st, ctx)).1).
  { intros Hc. apply Hc, demo_inv. }
  induction rs as [|r rs IH]; intros st ctx Hinv Hfit; [by destruct Hinv|].
  destruct Hfit as [Hf Hfit]. cbn. pose proof (execute_ostep_any r st ctx Hinv Hf) as Hs.
  cbn in Hs, Hfit. destruct (execute r (st, ctx)) as [v [st' ctx']]. cbn in *.
  apply IH; [by eapply ostep_inv|done].
Qed.

(** An overlay with a directory, a file in it and a deleted host file. *)
Definition demo_setup : list FsRequest :=
  [RMkdir (lit "/m/x/y") true false; RWriteBytes (lit "/m/x/y/f") (lit "data");
   RUnlink (lit "/m/a.txt")].
Definition demo_state : OverlayState * MountContext := run demo_setup (new_state, demo_ctx).

Lemma demo_state_wf : wf_state demo_state.1.
Proof. apply wf_by_run. by vm_compute. Qed.

Lemma prefix_iter_exact_witness :
  (lit "x/y/f", default EDeleted (get demo_state.1 (lit "x/y/f"))) ∈ prefix_iter demo_state.1 (lit "x/").
Proof.
  apply (prefix_iter_exact demo_state.1 (lit "x/"));
    [apply demo_state_wf|right; vm_compute; reflexivity|].
  split; [vm_compute; reflexivity|]. exists (lit "y/f"). reflexivity.
Defined.

Definition demo_unlink : result MontyObject MountError * (OverlayState * MountContext) :=
  execute (RUnlink (lit "/m/d/b.txt")) (new_state, demo_ctx).

Lemma unlink_hides_witness :
  (execute (RExists (lit "/m/d/b.txt")) (demo_unlink.2.1, demo_unlink.2.2)).1 = Ok (OBool false).
Proof.
  apply (unlink_hides (lit "/m/d/b.txt") new_state demo_ctx ONone). vm_compute. reflexivity.
Defined.

Definition demo_rmdir : result MontyObject MountError * (OverlayState * MountContext) :=
  execute (RRmdir (lit "/m/d")) demo_unlink.2.

Lemma demo_unlink_wf : wf_state demo_unlink.2.1.
Proof. apply (wf_by_run [RUnlink (lit "/m/d/b.txt")]). by vm_compute. Qed.

Lemma rmdir_only_empty_witness :
  exists rel, relative_path (lit "/m/d") demo_ctx = Ok rel /\ get demo_rmdir.2.1 rel = Some EDeleted.
Proof.
  destruct (rmdir_only_empty (lit "/m/d") demo_unlink.2.1 demo_unlink.2.2 ONone
    demo_rmdir.2.1 demo_rmdir.2.2) as (rel & Hrel & _ & _ & Hg & _);
    [apply demo_unlink_wf|vm_compute; reflexivity|].
  exists rel. split; [exact Hrel|exact Hg].
Defined.

Lemma mkdir_parents_complete_witness :
  ensure_parent_exists
    (execute (RMkdir (lit "/m/x/y") true false) (new_state, demo_ctx)).2.1
    (lit "x/y" ++ slash :: lit "f") demo_ctx (lit "/m/x/y/f") = Ok tt.
Proof.
  apply (mkdir_parents_complete (lit "/m/x/y") (lit "x/y") false (lit "f") (lit "/m/x/y/f")
    new_state demo_ctx ONone _ (execute (RMkdir (lit "/m/x/y") true false) (new_state, demo_ctx)).2.2);
    [vm_compute; reflexivity|vm_compute; reflexivity| |vm_compute; reflexivity].
  vm_compute. set_solver.
Defined.

Definition demo_plan : RenamePlan :=
  {| p_src := lit "x"; p_dst := lit "z"; p_source_is_overlay := true;
     p_source_entry := default EDeleted (get demo_state.1 (lit "x"));
     p_overlay_moves := [(lit "x/y", lit "z/y"); (lit "x/y/f", lit "z/y/f")]; p_real_moves := [] |}.

Definition demo_rename : result MontyObject MountError * (OverlayState * MountContext) :=
  execute (RRename (lit "/m/x") (lit "/m/z")) demo_state.

Lemma rename_moves_subtree_witness :
  get demo_rename.2.1 (lit "z/y/f") = get demo_state.1 (lit "x/y/f")
  /\ get demo_rename.2.1 (lit "x/y/f") = Some EDeleted.
Proof.
  destruct (rename_moves_subtree (lit "/m/x") (lit "/m/z") demo_state.1 demo_state.2 ONone
    demo_rename.2.1 demo_rename.2.2 demo_plan (current_timestamp 5000000000)) as (_ & _ & Hx & _).
  - apply demo_state_wf.
  - vm_compute; reflexivity.
  - by vm_compute.
  - vm_compute; reflexivity.
  - by vm_compute.
  - intros [r Hr]. by vm_compute in Hr.
  - vm_compute; reflexivity.
  - apply (Hx (lit "y/f") (new_file (lit "data") 5000000000)). vm_compute. reflexivity.
Defined.

(** ** Corner cases on the host side

    A host directory holding a special file and a regular one. *)
Definition special_ctx : MountContext :=
  {| mount_virtual := lit "/m";
     mount_dir := Dir_ [(lit "d", Dir_ [(lit "p", Special_); (lit "f", File_ (lit "x") 0)] 0)] 0;
     write_bytes_used := 0; write_bytes_limit := None; memory_usage_limit := 50000000;
     clock := fun _ => 5000000000 |}.

Definition special_rename : result MontyObject MountError * (OverlayState * MountContext) :=
  execute (RRename (lit "/m/d") (lit "/m/e")) (new_state, special_ctx).

(** The special file does not follow the rename: the old directory is gone, but
    the file still exists under it, and not under the new name. *)
Example rename_leaves_special_file :
  special_rename.1 = Ok ONone
  /\ (execute (RExists (lit "/m/d")) special_rename.2).1 = Ok (OBool false)
  /\ (execute (RExists (lit "/m/d/p")) special_rename.2).1 = Ok (OBool true)
  /\ (execute (RExists (lit "/m/e/p")) special_rename.2).1 = Ok (OBool false)
  /\ (execute (RExists (lit "/m/e/f")) special_rename.2).1 = Ok (OBool true).
Proof. by vm_compute. Qed.

(** A directory that is not empty cannot be renamed to itself. *)
Example rename_onto_itself_refused :
  (execute (RRename (lit "/m/d") (lit "/m/d")) (new_state, special_ctx)).1
  = Err (directory_not_empty (lit "/m/d")).
Proof. by vm_compute. Qed.

(** A special file can be opened and overwritten through an overlay; only reading
    its content and appending to it are refused. *)
Example special_file_opens_and_writes :
  let at_special r := (execute r (new_state, special_ctx)).1 in
  is_ok (at_special (ROpen (lit "/m/d/p") (Read false))) = true
  /\ is_ok (at_special (ROpen (lit "/m/d/p") (Append false))) = true
  /\ at_special (RWriteBytes (lit "/m/d/p") (lit "x")) = Ok (OInt 1)
  /\ at_special (RReadBytes (lit "/m/d/p")) = Err (permission_denied (lit "/m/d/p"))
  /\ at_special (RAppendBytes (lit "/m/d/p") (lit "x")) = Err (permission_denied (lit "/m/d/p")).
Proof. by vm_compute. Qed.
