(* ===== verification/OverlayHost.v ===== *)
(** Properties of the overlay backend's fall-through to the host: its walk of a
    host directory terminates, and its listings merge the two sides. *)
From S2P Require Import Prelude Str BTreeMap FileMode VirtualPath FsTypes PathSecurity Host Common OverlayState Overlay OverlayOps TreeHost OverlayInv OverlayStep OverlayProps OverlayTree.
Local Open Scope Z_scope.
Local Open Scope monty_scope.

#[local] Existing Instance example_layout.

Section HostSide.
Context `{HostLaws} `{OverlayLayout}.

Lemma relative_path_resolve p ctx rel :
  relative_path p ctx = Ok rel ->
  resolve_virtual_path p (mount_virtual ctx) = Ok {| relative := rel |}.
Proof.
  unfold relative_path, resolve_virtual_path. intros Hr.
  destruct (reject_null_bytes p); cbn [rbind] in *; [|done].
  destruct (strip_mount_prefix _ _) as [r|]; cbn [ok_or rbind] in *; [|done].
  destruct (reject_drive_or_unc_segments _ _); cbn [rbind] in *; [|done]. by injection Hr as ->.
Qed.

(** ** Termination of the collection *)

(** [n] rounds done or queued are paid for: every directory after the first was
    charged within the budget. *)
Definition paid (budget : MemoryBudget) (n : Z) (usage : Z) : Prop :=
  0 <= usage /\ (n <= 1 \/ REAL_DESCENDANT_MEMORY_USAGE * (n - 1) <= usage <= available budget).

Lemma charge_step budget u a b :
  available budget < u64_max -> 0 <= u -> 0 <= a -> 0 <= b ->
  sat_add (sat_add (sat_add u a) b) REAL_DESCENDANT_MEMORY_USAGE <= available budget ->
  u + REAL_DESCENDANT_MEMORY_USAGE
  <= sat_add (sat_add (sat_add u a) b) REAL_DESCENDANT_MEMORY_USAGE.
Proof. unfold sat_add, REAL_DESCENDANT_MEMORY_USAGE. lia. Qed.

Lemma collect_entry_paid budget done_ ctx cur pre st handled vpath c entry c' :
  available budget < u64_max ->
  collect_entry ctx cur pre st handled vpath budget c entry = Ok c' ->
  paid budget (done_ + zlen (c_dirs c)) (c_usage c) ->
  paid budget (done_ + zlen (c_dirs c')) (c_usage c').
Proof.
  intros Hb Hc Hp. unfold collect_entry in Hc.
  apply rbind_Ok in Hc as (e & _ & Hc). destruct (to_str (file_name e)) as [name|]; [|done].
  destruct (_ || _); [by injection Hc as <-|].
  apply rbind_Ok in Hc as (k & _ & Hc). destruct (kind_is KSymlink k); [done|].
  set (key := pre ++ name) in *. set (child := join_mount_relative cur name) in *.
  pose proof (zlen_nonneg key) as Hkey. destruct Hp as [Hu Hp].
  destruct (kind_is KFile k).
  { destruct (from_relative _ child) as [r|]; [|by injection Hc as <-].
    apply rbind_Ok in Hc as (u & Hck & [= <-]). apply check_Ok in Hck. cbn [c_usage c_dirs].
    assert (Hst := charge_step budget (c_usage c) (as_u64 (zlen key)) (as_u64 (zlen (ref_relative r)))
      Hb Hu (as_u64_nonneg _ Hkey) (as_u64_nonneg _ (zlen_nonneg _)) Hck).
    unfold paid, REAL_DESCENDANT_MEMORY_USAGE in *. lia. }
  destruct (kind_is KDir k); [|by injection Hc as <-].
  apply rbind_Ok in Hc as (u & Hck & [= <-]). apply check_Ok in Hck. cbn [c_usage c_dirs].
  assert (Hmul : 0 <= sat_mul (zlen key) 2) by (unfold sat_mul, u64_max; lia).
  assert (Hst := charge_step budget (c_usage c) (as_u64 (sat_mul (zlen key) 2)) (as_u64 (zlen child))
    Hb Hu (as_u64_nonneg _ Hmul) (as_u64_nonneg _ (zlen_nonneg _)) Hck).
  rewrite zlen_app. change (zlen [(child, key ++ [slash])]) with 1.
  unfold paid, REAL_DESCENDANT_MEMORY_USAGE in *. lia.
Qed.

Lemma collect_entries_paid budget done_ ctx cur pre st handled vpath listing : forall c c',
  available budget < u64_max ->
  collect_entries ctx cur pre st handled vpath budget c listing = Ok c' ->
  paid budget (done_ + zlen (c_dirs c)) (c_usage c) ->
  paid budget (done_ + zlen (c_dirs c')) (c_usage c').
Proof.
  induction listing as [|e listing IH]; intros c c' Hb; cbn; [by intros [= <-]|].
  intros (c1 & Hc1 & Hrest)%rbind_Ok Hp. eapply IH; [done|exact Hrest|].
  by eapply collect_entry_paid.
Qed.

Lemma zlen_removelast {A} (l : list A) x : last l = Some x -> zlen l = zlen (removelast l) + 1.
Proof. intros [l' ->]%last_Some. rewrite removelast_last, zlen_app. done. Qed.

Lemma collect_loop_terminates budget ctx st handled vpath fuel : forall done_ c,
  0 <= available budget < u64_max -> 0 <= done_ ->
  done_ + Z.of_nat fuel = 1 + available budget / REAL_DESCENDANT_MEMORY_USAGE ->
  paid budget (done_ + zlen (c_dirs c)) (c_usage c) ->
  collect_loop fuel ctx st handled vpath budget c <> None.
Proof.
  induction fuel as [|fuel IH]; intros done_ c Hb Hd Hf Hp; cbn;
    destruct (last (c_dirs c)) as [[cur pre]|] eqn:Hl; try done;
    apply zlen_removelast in Hl; pose proof (zlen_nonneg (removelast (c_dirs c))).
  - exfalso. destruct Hp as [_ Hp]. unfold REAL_DESCENDANT_MEMORY_USAGE in *.
    pose proof (Z.div_mod (available budget) 512 ltac:(lia)).
    pose proof (Z.mod_pos_bound (available budget) 512 ltac:(lia)).
    pose proof (Z.div_pos (available budget) 512 ltac:(lia) ltac:(lia)). lia.
  - destruct (map_err _ _) as [listing|]; [|done].
    destruct (collect_entries _ _ _ _ _ _ _ _ _) as [c'|] eqn:Hce; [|done].
    apply (IH (done_ + 1)); [done|lia|lia|].
    eapply collect_entries_paid; [lia|exact Hce|]. cbn [c_dirs c_usage].
    by replace (done_ + 1 + zlen (removelast (c_dirs c))) with (done_ + zlen (c_dirs c)) by lia.
Qed.

(** Collecting the host descendants of a renamed directory terminates on
    any host, cyclic or endless trees included: every directory it queues is
    charged to the memory budget, so at most one more than a 512th of the
    budget is listed before the collection ends or fails. *)
Theorem collect_real_descendants_terminates ctx root_rel prefix st handled vpath budget :
  0 <= available budget < u64_max ->
  collect_real_descendants ctx root_rel prefix st handled vpath budget <> None.
Proof.
  intros Hb. unfold collect_real_descendants.
  apply (collect_loop_terminates budget _ _ _ _ _ 0); [done|lia| |].
  - unfold collect_fuel, REAL_DESCENDANT_MEMORY_USAGE.
    pose proof (Z.div_pos (available budget) 512 ltac:(lia) ltac:(lia)). lia.
  - split; [|left; done]. cbn [collect_start c_usage].
    apply as_u64_nonneg, sat_add_nonneg; apply zlen_nonneg.
Qed.

(** ** Listings *)

Definition is_child_name (name : str) : Prop := name <> [] /\ slash ∉ name.

Lemma elem_of_overlay_children st rel name e :
  wf_state st ->
  (name, e) ∈ overlay_children st (directory_prefix rel) <->
  get st (directory_prefix rel ++ name) = Some e /\ is_child_name name.
Proof.
  intros Hwf. unfold overlay_children. rewrite list_elem_of_omap. split.
  - intros ([k e'] & Hin & Hx). apply elem_of_prefix_iter in Hin as [Hg [r ->]];
      [|done|apply directory_prefix_ok]. cbn [fst snd] in Hx. rewrite drop_app_length in Hx.
    destruct (is_empty_str r) eqn:Hr; [done|]. destruct (contains slash r) eqn:Hc; [done|].
    cbn in Hx. injection Hx as -> ->. split; [done|]. split; [by intros ->|by apply contains_false].
  - intros [Hg [Hne Hs]]. exists (directory_prefix rel ++ name, e). split.
    + apply elem_of_prefix_iter; [done|apply directory_prefix_ok|]. split; [done|by exists name].
    + cbn [fst snd]. rewrite drop_app_length. apply contains_false in Hs. rewrite Hs.
      by destruct name.
Qed.

Lemma overlay_children_NoDup st rel :
  wf_state st -> NoDup (List.map fst (overlay_children st (directory_prefix rel))).
Proof.
  intros Hwf. set (pre := directory_prefix rel).
  assert (Hnd : NoDup (List.map fst (prefix_iter st pre))).
  { apply bsorted_NoDup. rewrite prefix_iter_filter by apply directory_prefix_ok.
    by apply bsorted_filter, Hwf. }
  assert (Hpre : Forall (fun e => pre `prefix_of` e.1) (prefix_iter st pre)).
  { apply Forall_forall. intros [k e] Hin.
    by apply elem_of_prefix_iter in Hin as [_ Hp]; [|done|apply directory_prefix_ok]. }
  unfold overlay_children. induction (prefix_iter st pre) as [|[k e] m IH]; [constructor|].
  cbn [List.map] in Hnd. inversion Hnd as [|? ? Hk Hnd']; subst.
  inversion Hpre as [|? ? [r Hr] Hpre']; subst. cbn [fst] in *. subst k.
  cbn [omap list_omap fst snd]. rewrite drop_app_length.
  destruct (_ && _); [|by apply IH]. cbn [List.map fst]. constructor; [|by apply IH].
  rewrite list_elem_of_In, in_map_iff. intros ([r' e'] & Heq & Hin). cbn in Heq. subst r'.
  apply list_elem_of_In, list_elem_of_omap in Hin as ([k' e2] & Hin & Hx). cbn [fst snd] in Hx.
  rewrite Forall_forall in Hpre'. destruct (Hpre' _ Hin) as [r' Hr']. cbn in Hr'. subst k'.
  rewrite drop_app_length in Hx. destruct (_ && _); [|done]. injection Hx as -> ->.
  apply Hk. rewrite list_elem_of_In, in_map_iff. exists (pre ++ r, e').
  split; [done|by apply list_elem_of_In].
Qed.

(** The names of the children that are not deleted. *)
Definition visible_names (children : list (str * OverlayEntry)) : list str :=
  List.map fst (List.filter (fun e => negb (is_deleted e.2)) children).

Lemma iterdir_overlay_Ok children vpath budget : forall u paths u',
  iterdir_overlay children vpath budget u = Ok (paths, u') ->
  paths = List.map (format_child_path vpath) (visible_names children).
Proof.
  unfold visible_names. induction children as [|[n e] children IH]; intros u paths u'; cbn;
    [by intros [= <- _]|].
  intros ([] & _ & Hr)%rbind_Ok. destruct (is_deleted e); cbn [negb List.filter snd] in *; cbn in Hr.
  - by eapply IH.
  - apply rbind_Ok in Hr as ([] & _ & Hr). apply rbind_Ok in Hr as ([ps u1] & Hps & Hr).
    injection Hr as <- _. cbn. f_equal. by eapply IH.
Qed.

Lemma iterdir_paths_Ok names vpath budget : forall u paths,
  iterdir_paths names vpath budget u = Ok paths -> paths = List.map (format_child_path vpath) names.
Proof.
  induction names as [|n names IH]; intros u paths; cbn; [by intros [= <-]|].
  intros ([] & _ & (ps & Hps & [= <-])%rbind_Ok)%rbind_Ok. f_equal. by eapply IH.
Qed.

(** What a listing takes from the host. *)
Definition merged_from (st : OverlayState) (rel : str) (ctx : MountContext) (p : str)
    (real : list str) : Prop :=
  (exists t, get st rel = Some (EDirectory t)) /\ real = [] \/
  get st rel = None /\ exists t b listing, resolve_real p ctx = Ok t
    /\ host_list_visible_dir_entries (mount_dir ctx) (for_dir_op t) p b = Ok listing
    /\ real = List.map fst listing.

Lemma iterdir_Ok st rel ctx p v :
  iterdir st rel ctx p = Ok v ->
  exists real, merged_from st rel ctx p real /\
    let children := overlay_children st (directory_prefix rel) in
    v = OPathList (List.map (format_child_path p)
          (visible_names children ++
           List.filter (fun name => negb (bool_decide (name ∈ List.map fst children))) real)).
Proof.
  unfold iterdir. intros (hd & Hhd & (budget & _ & ([paths u] & Hp & Hr)%rbind_Ok)%rbind_Ok)%rbind_Ok.
  apply iterdir_overlay_Ok in Hp as ->. unfold real_dir_to_merge in Hhd.
  destruct (get st rel) as [[| |t|]|] eqn:Hg; try done.
  - injection Hhd as <-. injection Hr as <-. exists []. split; [left; by eauto|].
    cbn. by rewrite app_nil_r.
  - apply rbind_Ok in Hhd as (t & Ht & Hhd).
    destruct (host_is_dir _ _); [|destruct (negb _); done]. injection Hhd as <-.
    apply rbind_Ok in Hr as (rem & _ & Hr). apply rbind_Ok in Hr as (listing & Hl & Hr).
    apply rbind_Ok in Hr as (rp & Hrp & [= <-]). apply iterdir_paths_Ok in Hrp as ->.
    exists (List.map fst listing). split; [right; eauto 10|]. cbn. by rewrite List.map_app.
Qed.

Lemma elem_of_visible_names st rel name :
  wf_state st ->
  name ∈ visible_names (overlay_children st (directory_prefix rel)) <->
  is_child_name name /\ exists e, get st (directory_prefix rel ++ name) = Some e
    /\ is_deleted e = false.
Proof.
  intros Hwf. unfold visible_names. rewrite list_elem_of_In, in_map_iff. split.
  - intros ([n e] & <- & Hin). apply filter_In in Hin as [Hin Hd]. cbn in *.
    apply list_elem_of_In, elem_of_overlay_children in Hin as [Hg Hc]; [|done].
    apply negb_true_iff in Hd. eauto.
  - intros (Hc & e & Hg & Hd). exists (name, e). split; [done|]. apply filter_In.
    split; [|by cbn; rewrite Hd]. apply list_elem_of_In. by apply elem_of_overlay_children.
Qed.

Lemma elem_of_child_names st rel name :
  wf_state st ->
  name ∈ List.map fst (overlay_children st (directory_prefix rel)) <->
  is_child_name name /\ exists e, get st (directory_prefix rel ++ name) = Some e.
Proof.
  intros Hwf. rewrite list_elem_of_In, in_map_iff. split.
  - intros ([n e] & <- & Hin). apply list_elem_of_In, elem_of_overlay_children in Hin as [Hg Hc];
      [|done]. eauto.
  - intros (Hc & e & Hg). exists (name, e). split; [done|]. apply list_elem_of_In.
    by apply elem_of_overlay_children.
Qed.

(** Listing a directory merges the two sides: it names every entry the
    overlay holds directly inside that is not deleted, and every entry the host
    lists that the overlay neither replaces nor deletes, and nothing else; no
    name appears twice if the host lists none twice. *)
Theorem iterdir_merges st rel ctx p v :
  wf_state st -> iterdir st rel ctx p = Ok v ->
  exists names real, v = OPathList (List.map (format_child_path p) names)
  /\ merged_from st rel ctx p real
  /\ (NoDup real -> NoDup names)
  /\ forall name, name ∈ names <->
      let e := get st (directory_prefix rel ++ name) in
      is_child_name name /\ (exists e', e = Some e' /\ is_deleted e' = false)
      \/ name ∈ real /\ (is_child_name name -> e = None).
Proof.
  intros Hwf (real & Hm & Hv)%iterdir_Ok. cbn in Hv. eexists _, real. split; [exact Hv|].
  split; [done|]. pose proof (overlay_children_NoDup st rel Hwf) as Hnd.
  pose proof (elem_of_visible_names st rel) as Hvis.
  pose proof (elem_of_child_names st rel) as Hall.
  set (children := overlay_children st (directory_prefix rel)) in *.
  assert (Hfil : forall name,
    name ∈ List.filter (fun name => negb (bool_decide (name ∈ List.map fst children))) real <->
    name ∈ real /\ name ∉ List.map fst children).
  { intros name. rewrite !list_elem_of_In, filter_In, negb_true_iff, bool_decide_eq_false.
    by rewrite <- (list_elem_of_In (List.map fst children)). }
  split.
  - intros Hreal. apply NoDup_app. split; [by apply NoDup_map_filter|]. split.
    + intros x (Hc & e & Hg & _)%Hvis [_ Hx]%Hfil; [|done]. apply Hx, Hall; [done|]. eauto.
    + rewrite <- (map_id (List.filter _ real)). apply NoDup_map_filter. by rewrite map_id.
  - intros name. cbn. rewrite elem_of_app, Hvis, Hfil, Hall by done.
    destruct (get st _) as [e|]; naive_solver.
Qed.
End HostSide.

(** ** Examples *)

Lemma collect_real_descendants_terminates_witness :
  collect_real_descendants demo_ctx (lit "d") (lit "d/") new_state [] (lit "/m/d")
    {| available := 100000; limit := 100000 |} <> None.
Proof. apply collect_real_descendants_terminates. by vm_compute. Defined.

Lemma iterdir_merges_witness :
  exists names real,
    iterdir demo_state.1 [] demo_state.2 (lit "/m")
    = Ok (OPathList (List.map (format_child_path (lit "/m")) names))
    /\ merged_from demo_state.1 [] demo_state.2 (lit "/m") real.
Proof.
  destruct (iterdir_merges demo_state.1 [] demo_state.2 (lit "/m")
    (OPathList (List.map lit ["/m/x"; "/m/d"]%string)))
    as (names & real & Hv & Hm & _).
  - apply demo_state_wf.
  - vm_compute. reflexivity.
  - exists names, real. split; [rewrite <- Hv; vm_compute; reflexivity|exact Hm].
Defined.
