(* ===== verification/Direct.v ===== *)
(** The direct backend of read-write and read-only mounts
    ([crates/monty-fs/src/direct.rs]) and the dispatch of a request to the
    backend of its mount ([crates/monty-fs/src/dispatch.rs],
    [crates/monty-fs/src/mount_mode.rs]). *)
From S2P Require Import Prelude Str BTreeMap FileMode VirtualPath FsTypes PathSecurity Host Common OverlayState Overlay OverlayOps TreeHost OverlayInv OverlayStep.
Local Open Scope Z_scope.
Local Open Scope monty_scope.

Module Direct.
Section Direct.
Context `{HostDir}.

(** A computation over the mount's context, host included. *)
Definition DM (A : Type) : Type := M MountContext MountError A.

Definition on_host {A} (m : M Dir MountError A) : DM A :=
  fun ctx => let '(r, d) := m (mount_dir ctx) in (r, set_mount_dir d ctx).

Definition query {A} (f : MountContext -> result A MountError) : DM A :=
  fun ctx => (f ctx, ctx).

Definition commit (bytes : Z) : DM unit := fun ctx => (Ok tt, commit_write_bytes bytes ctx).

Definition resolve (path : str) : DM MountRelativePath :=
  query (fun ctx => resolve_virtual_path path (mount_virtual ctx)).

Definition reject_mount_root (target : MountRelativePath) (vpath : str) : result unit MountError :=
  if is_mount_root target then Err (PathEscape vpath) else Ok tt.

Definition bool_query (path : str) (q : Dir -> str -> bool) : DM MontyObject :=
  do target <- resolve path ;;
  query (fun ctx => Ok (OBool (q (mount_dir ctx) (for_dir_op target)))).

Definition write_text (path data : str) : DM MontyObject :=
  query (check_write_limit (zlen data)) ;;;
  do target <- resolve path ;;
  do result <- on_host (host_write_text (for_dir_op target) data path) ;;
  commit (zlen data) ;;;
  sret result.

Definition write_bytes (path : str) (data : bytes) : DM MontyObject :=
  query (check_write_limit (zlen data)) ;;;
  do target <- resolve path ;;
  do result <- on_host (host_write_bytes (for_dir_op target) data path) ;;
  commit (zlen data) ;;;
  sret result.

Definition append_text (path data : str) : DM MontyObject :=
  query (check_write_limit (zlen data)) ;;;
  do target <- resolve path ;;
  do result <- on_host (host_append_text (for_dir_op target) data path) ;;
  commit (zlen data) ;;;
  sret result.

Definition append_bytes (path : str) (data : bytes) : DM MontyObject :=
  query (check_write_limit (zlen data)) ;;;
  do target <- resolve path ;;
  do result <- on_host (host_append_bytes (for_dir_op target) data path) ;;
  commit (zlen data) ;;;
  sret result.

(** [(1..=len).find(..)]: the first prefix length whose path is absent. *)
Fixpoint first_absent (dir : Dir) (pre rest : list str) : option nat :=
  match rest with
  | [] => None
  | c :: rest =>
      let pre := pre ++ [c] in
      if negb (is_ok (symlink_metadata dir (join slash pre))) then Some (length pre)
      else first_absent dir pre rest
  end.

Definition missing_dirs (dir : Dir) (rel : str) (parents : bool) : Z :=
  if parents then
    let components := split slash rel in
    match first_absent dir [] components with
    | Some n => zlen components + 1 - Z.of_nat n
    | None => 0
    end
  else if negb (is_ok (symlink_metadata dir rel)) then 1 else 0.

Definition mkdir (path : str) (parents exist_ok : bool) : DM MontyObject :=
  do target <- resolve path ;;
  let rel := for_dir_op target in
  do charge <- query (fun ctx =>
    Ok (match write_bytes_limit ctx with
        | Some _ => sat_mul (missing_dirs (mount_dir ctx) rel parents) DIRECTORY_WRITE_BYTES
        | None => 0
        end)) ;;
  query (check_write_limit charge) ;;;
  do result <- on_host (host_mkdir rel parents exist_ok path) ;;
  commit charge ;;;
  sret result.

Definition rename (src dst : str) : DM MontyObject :=
  do src_target <- resolve src ;;
  do dst_target <- resolve dst ;;
  slift (reject_mount_root src_target src) ;;;
  slift (reject_mount_root dst_target dst) ;;;
  on_host (host_call src (dir_rename (for_dir_op src_target) (for_dir_op dst_target))) ;;;
  sret ONone.

Definition open_ (path : str) (mode : FileMode) : DM MontyObject :=
  do target <- resolve path ;;
  let rel := for_dir_op target in
  match mode with
  | Read _ | ReadUpdate _ =>
      query (fun ctx => map_err (fun err => map_io err path) (metadata (mount_dir ctx) rel)) ;;;
      query (fun ctx => reject_non_regular (mount_dir ctx) rel path)
  | Write _ | WriteUpdate _ =>
      query (check_write_limit 0) ;;;
      on_host (host_write_text rel [] path) ;;;
      commit 0
  | Append _ | AppendUpdate _ =>
      on_host (host_append_bytes rel [] path) ;;; sret tt
  end ;;;
  sret (file_handle_result path mode).

Definition full_budget (ctx : MountContext) : MemoryBudget := full (memory_usage_limit ctx).

Definition execute (request : FsRequest) : DM MontyObject :=
  match request with
  | RExists path => bool_query path dir_exists
  | RIsFile path => bool_query path host_is_file
  | RIsDir path => bool_query path host_is_dir
  | RIsSymlink path =>
      bool_query path (fun dir rel => is_ok_and m_is_symlink (symlink_metadata dir rel))
  | RReadText path =>
      do target <- resolve path ;;
      do ctx <- sget ;;
      on_host (host_read_text (for_dir_op target) path (full_budget ctx))
  | RReadBytes path =>
      do target <- resolve path ;;
      do ctx <- sget ;;
      on_host (host_read_bytes (for_dir_op target) path (full_budget ctx))
  | RWriteText path data => write_text path data
  | RWriteBytes path data => write_bytes path data
  | RAppendText path data => append_text path data
  | RAppendBytes path data => append_bytes path data
  | RMkdir path parents exist_ok => mkdir path parents exist_ok
  | RUnlink path =>
      do target <- resolve path ;;
      on_host (host_unlink (for_dir_op target) path)
  | RRmdir path =>
      do target <- resolve path ;;
      slift (reject_mount_root target path) ;;;
      on_host (host_rmdir (for_dir_op target) path)
  | RIterdir path =>
      do target <- resolve path ;;
      query (fun ctx => host_iterdir (mount_dir ctx) (for_dir_op target) path (full_budget ctx))
  | RStat path =>
      do target <- resolve path ;;
      query (fun ctx => host_stat (mount_dir ctx) (for_dir_op target) path)
  | RRename src dst => rename src dst
  | RResolve path | RAbsolute path => sret (OPath (normalize_virtual_path path))
  | RCreateExclusive path mode permissions =>
      do target <- resolve path ;;
      query (check_write_limit 0) ;;;
      on_host (host_create_exclusive (for_dir_op target) permissions path) ;;;
      sret (file_handle_result path mode)
  | ROpen path mode => open_ path mode
  end.

Definition path_info (path : str) (ctx : MountContext) : result PathInfo MountError :=
  let? target := resolve_virtual_path path (mount_virtual ctx) in
  Ok (from_host (mount_dir ctx) (for_dir_op target)).

Definition scan_list (path : str) (ctx : MountContext) (budget : MemoryBudget) :
    result (list (str * EntryInfo)) MountError :=
  let? target := resolve_virtual_path path (mount_virtual ctx) in
  host_list_visible_dir_entries (mount_dir ctx) (for_dir_op target) path budget.
End Direct.
End Direct.

(** ** Access modes *)

Inductive MountMode := ReadWrite | ReadOnly | OverlayMemory (state : OverlayState).

Definition from_mode_str (mode : str) : option MountMode :=
  if bool_decide (mode = lit "read-only") then Some ReadOnly
  else if bool_decide (mode = lit "read-write") then Some ReadWrite
  else if bool_decide (mode = lit "overlay") then Some (OverlayMemory new_state)
  else None.

Definition mode_as_str (m : MountMode) : str :=
  match m with
  | ReadWrite => lit "read-write"
  | ReadOnly => lit "read-only"
  | OverlayMemory _ => lit "overlay"
  end.

Section Dispatch.
Context `{HostDir} `{OverlayLayout}.

Definition dispatch_execute (request : FsRequest) (ctx : MountContext) (mode : MountMode) :
    result MontyObject MountError * (MountContext * MountMode) :=
  if is_write request && (match mode with ReadOnly => true | _ => false end) then
    (Err (ReadOnlyError (primary_path request)), (ctx, mode))
  else match mode with
       | ReadWrite | ReadOnly =>
           let '(r, ctx) := Direct.execute request ctx in (r, (ctx, mode))
       | OverlayMemory state =>
           let '(r, (state, ctx)) := OverlayOps.execute request (state, ctx) in
           (r, (ctx, OverlayMemory state))
       end.

Definition dispatch_path_info (path : str) (ctx : MountContext) (mode : MountMode) :
    result PathInfo MountError :=
  match mode with
  | ReadWrite | ReadOnly => Direct.path_info path ctx
  | OverlayMemory state => Overlay.path_info path ctx state (fun _ => None)
  end.

Definition dispatch_scan_list (path : str) (ctx : MountContext) (mode : MountMode)
    (budget : MemoryBudget) : result (list (str * EntryInfo)) MountError :=
  match mode with
  | ReadWrite | ReadOnly => Direct.scan_list path ctx budget
  | OverlayMemory state => Overlay.scan_list path ctx state budget (fun _ => None)
  end.
End Dispatch.

(** ** Facts *)

Section Facts.
Context `{HostLaws} `{OverlayLayout}.

Lemma observes_on_host {A} (m : M Dir MountError A) : observes m -> observes (Direct.on_host m).
Proof.
  intros Hm ctx. unfold Direct.on_host. specialize (Hm (mount_dir ctx)).
  destruct (m (mount_dir ctx)) as [r d]; cbn in *; subst. apply set_mount_dir_same.
Qed.

Lemma observes_direct_query {A} (f : MountContext -> result A MountError) :
  observes (Direct.query f).
Proof. by intros s. Qed.
End Facts.

#[export] Hint Resolve observes_on_host observes_direct_query : monty.

Section DirectProps.
Context `{HostLaws} `{OverlayLayout}.

(** A request that is not a write leaves the host and the counters alone. *)
Lemma direct_read_observes r : is_write r = false -> observes (Direct.execute r).
Proof.
  destruct r; try done; intros Hw; cbn [Direct.execute];
    unfold Direct.bool_query, Direct.open_, Direct.resolve; try solve [solve_observes].
  destruct mode; try done; solve_observes.
Qed.
End DirectProps.
