(* ===== verification/MountTable.v ===== *)
(** The mount table ([crates/monty-fs/src/mount_table.rs]): mounts kept longest
    virtual path first, the overlap check, and the routing of a call to the
    mount that covers it. *)
From Stdlib Require Import Sorted.
From S2P Require Import Prelude Str BTreeMap FileMode VirtualPath FsTypes PathSecurity Host Common OverlayState Overlay OverlayOps TreeHost OverlayInv OverlayStep Direct.
Local Open Scope Z_scope.
Local Open Scope monty_scope.

Definition DEFAULT_MEMORY_USAGE_LIMIT : Z := 50000000.

(** The ambient authority a mount's root is opened with, on Unix: [cap-std] and
    [std::fs] functions of the host's own paths. *)
Class AmbientHost `{HostDir} := {
  open_ambient_dir : bytes -> result Dir IoError;
  canonicalize : bytes -> result (list bytes) IoError;
  dir_metadata_id : Dir -> result (Z * Z) IoError }.

Section Table.
Context `{HostDir} `{OverlayLayout}.

(** ** Data *)

(** [host_path] is the canonical host path as its components. *)
Record MountRoot := {
  virtual_path : str;
  host_path : list bytes;
  identity : option (Z * Z);
  root_dir : Dir }.

Record Mount := {
  m_root : MountRoot;
  m_mode : MountMode;
  m_write_bytes_used : Z;
  m_write_bytes_limit : option Z;
  m_memory_usage_limit : Z }.

Inductive MountCallOutcome :=
| Handled (r : result MontyObject MountError)
| NotHandled (call : OsFunctionCall).

(** ** Opening a root *)

(** The messages of [MountRoot::open] after the virtual path is accepted. *)
Definition host_message (what : string) (host : bytes) (e : IoError) : str :=
  lit what ++ lit " '" ++ to_string_lossy host ++ lit "': " ++ display e.

Definition open_root `{!AmbientHost} (virtual : str) (host : bytes) : result MountRoot MountError :=
  if negb (starts_with [slash] virtual) then
    Err (InvalidMount (lit "virtual path must be absolute, got: '" ++ virtual ++ lit "'"))
  else
    let normalized_virtual := normalize_virtual_path virtual in
    let? dir := map_err (fun e => InvalidMount (host_message "cannot open host path" host e))
                        (open_ambient_dir host) in
    let? canonical_host :=
      map_err (fun e => InvalidMount (host_message "cannot resolve host path" host e))
              (canonicalize host) in
    let? id := map_err (fun e => InvalidMount (host_message "cannot stat host path" host e))
                       (dir_metadata_id dir) in
    Ok {| virtual_path := normalized_virtual; host_path := canonical_host;
          identity := Some id; root_dir := dir |}.

Definition with_root (root : MountRoot) (mode : MountMode) (write_bytes_limit : option Z) : Mount :=
  {| m_root := root; m_mode := mode; m_write_bytes_used := 0;
     m_write_bytes_limit := write_bytes_limit;
     m_memory_usage_limit := DEFAULT_MEMORY_USAGE_LIMIT |}.

Definition new_mount `{!AmbientHost} (virtual : str) (host : bytes) (mode : MountMode)
    (write_bytes_limit : option Z) : result Mount MountError :=
  let? root := open_root virtual host in
  Ok (with_root root mode write_bytes_limit).

Definition with_memory_usage_limit (limit : Z) (m : Mount) : Mount :=
  {| m_root := m_root m; m_mode := m_mode m; m_write_bytes_used := m_write_bytes_used m;
     m_write_bytes_limit := m_write_bytes_limit m; m_memory_usage_limit := limit |}.

Definition mount_memory_usage (m : Mount) : Z :=
  match m_mode m with
  | OverlayMemory state => memory_usage state
  | ReadWrite | ReadOnly => 0
  end.

Definition vpath_of (m : Mount) : str := virtual_path (m_root m).

(** ** Adding mounts *)

(** [Path::starts_with] compares whole components. *)
Definition path_starts_with (a b : list bytes) : bool := bool_decide (b `prefix_of` a).

Definition mounts_overlap (a b : Mount) : bool :=
  let same_dir := negb (bool_decide (identity (m_root a) = None))
                  && bool_decide (identity (m_root a) = identity (m_root b)) in
  same_dir
  || path_starts_with (host_path (m_root a)) (host_path (m_root b))
  || path_starts_with (host_path (m_root b)) (host_path (m_root a))
  || bool_decide (vpath_of a = vpath_of b).

(** [partition_point(|existing| existing.len() > mount.len())] and the insertion
    there. *)
Fixpoint insert_mount (mounts : list Mount) (mount : Mount) : list Mount :=
  match mounts with
  | [] => [mount]
  | existing :: rest =>
      if zlen (vpath_of mount) <? zlen (vpath_of existing) then existing :: insert_mount rest mount
      else mount :: mounts
  end.

Definition push_mount (mount : Mount) : M (list Mount) MountError unit :=
  fun mounts =>
    match List.find (fun existing => mounts_overlap existing mount) mounts with
    | Some existing =>
        (Err (OverlappingMounts (vpath_of mount) (host_path (m_root mount))
                (vpath_of existing) (host_path (m_root existing))), mounts)
    | None => (Ok tt, insert_mount mounts mount)
    end.

(** ** Routing *)

Definition path_matches_mount (normalized_path mount_virtual_path : str) : bool :=
  if bool_decide (mount_virtual_path = [slash]) || bool_decide (normalized_path = mount_virtual_path)
  then true
  else starts_with mount_virtual_path normalized_path
       && bool_decide (normalized_path !! length mount_virtual_path = Some slash).

Fixpoint position {A} (f : A -> bool) (l : list A) : option nat :=
  match l with
  | [] => None
  | x :: l => if f x then Some O else S <$> position f l
  end.

Definition find_mount (mounts : list Mount) (vp : str) : option nat :=
  let normalized := normalize_virtual_path vp in
  position (fun mount => path_matches_mount normalized (vpath_of mount)) mounts.

Definition route_call (mounts : list Mount) (path : str) (call : OsFunctionCall) :
    option (result nat MountError) :=
  let src_mount_index := find_mount mounts path in
  match rename_destination call with
  | Some dst_path =>
      match reject_overlong_path dst_path with
      | Err e => Some (Err e)
      | Ok _ =>
          if contains_null_byte dst_path then
            Some (Err (EmbeddedNullByte (embedded_null_message call true)))
          else
            match src_mount_index, find_mount mounts dst_path with
            | None, None => None
            | Some src, Some dst =>
                if Nat.eqb src dst then Some (Ok src) else Some (Err (CrossMountRename path dst_path))
            | _, _ => Some (Err (CrossMountRename path dst_path))
            end
      end
  | None => Ok <$> src_mount_index
  end.

(** ** Running a call *)

(** The context of a call on a mount, with the clock readings it takes. *)
Definition backend (now : nat -> SystemTime) (m : Mount) : MountContext :=
  {| mount_virtual := vpath_of m; mount_dir := root_dir (m_root m);
     write_bytes_used := m_write_bytes_used m; write_bytes_limit := m_write_bytes_limit m;
     memory_usage_limit := m_memory_usage_limit m; clock := now |}.

(** The mount a call leaves: its counter, its overlay and the host behind its
    descriptor. *)
Definition after_call (m : Mount) (ctx : MountContext) (mode : MountMode) : Mount :=
  {| m_root := {| virtual_path := vpath_of m; host_path := host_path (m_root m);
                  identity := identity (m_root m); root_dir := mount_dir ctx |};
     m_mode := mode; m_write_bytes_used := write_bytes_used ctx;
     m_write_bytes_limit := m_write_bytes_limit m;
     m_memory_usage_limit := m_memory_usage_limit m |}.

(** The last case is the [unreachable!] of [fs_request_from_call]. *)
Definition mount_execute (now : nat -> SystemTime) (call : OsFunctionCall) :
    M Mount MountError MontyObject :=
  fun m =>
    match (match call with
           | CCreateExclusive _ mode permissions =>
               map_err InvalidArgument (validate_create_exclusive mode permissions)
           | _ => Ok tt
           end) with
    | Err e => (Err e, m)
    | Ok _ =>
        match fs_request_from_call call with
        | Some request =>
            let '(r, (ctx, mode)) := dispatch_execute request (backend now m) (m_mode m) in
            (r, after_call m ctx mode)
        | None => (Err (InvalidArgument (lit "unreachable")), m)
        end
    end.
End Table.
