(* ===== verification/Fnmatch.v ===== *)
(** Name patterns ([SegmentPattern] and [MultiPattern] in
    [crates/monty-types/src/scan.rs]): the compilation of [fnmatch] patterns, the
    matcher that backtracks over one star, and the dynamic program that matches
    several parts against a path.

    The reference definitions are the relations [denotes] and [multi_denotes];
    the theorems show that the matchers decide them. Positions in a name count
    characters, where the source counts the bytes up to the same boundary. *)
From S2P Require Import Prelude Str.
Local Open Scope monty_scope.

(** The standard library's Unicode case tables. *)
Class CharCase := {
  to_lowercase : char -> list char;
  to_uppercase : char -> list char }.

Inductive Token :=
| TChar (c : char)
| TAny
| TStar
| TClass (negated : bool) (items : list (char * char)).

#[export] Instance Token_eq_dec : EqDecision Token.
Proof. solve_decision. Defined.

Record SegmentPattern := { tokens : list Token; case_sensitive : bool }.

(** The characters with a meaning: [*], [?], [\[], [\]], [!] and [-]. *)
Definition c_star : char := 42%N.
Definition c_any : char := 63%N.
Definition c_open : char := 91%N.
Definition c_close : char := 93%N.
Definition c_bang : char := 33%N.
Definition c_dash : char := 45%N.

(** ** Compilation *)

(** The length of the run of characters before the next [\]]. *)
Fixpoint until_close (cs : list char) : nat :=
  match cs with
  | [] => 0
  | c :: cs => if (c =? c_close)%N then 0 else S (until_close cs)
  end.

(** The ranges of a class body. *)
Fixpoint class_items (body : list char) : list (char * char) :=
  match body with
  | [] => []
  | c :: rest =>
      match rest with
      | dash :: high :: rest' =>
          if (dash =? c_dash)%N then (c, high) :: class_items rest' else (c, c) :: class_items rest
      | _ => (c, c) :: class_items rest
      end
  end.

Definition parse_class (cs : list char) (start : nat) : option (Token * nat) :=
  let skip c end_ := if bool_decide (cs !! end_ = Some c) then S end_ else end_ in
  let end_ := skip c_close (skip c_bang start) in
  let end_ := end_ + until_close (drop end_ cs) in
  if length cs <=? end_ then None
  else
    let slice := take (end_ - start) (drop start cs) in
    let '(negated, body) :=
      match slice with
      | c :: body => if (c =? c_bang)%N then (true, body) else (false, slice)
      | [] => (false, slice)
      end in
    Some (TClass negated (class_items body), S end_).

(** One turn of the compilation loop: the position, whether a [\[] was found
    unterminated, and the tokens so far. *)
Definition compile_char (cs : list char) (st : nat * bool * list Token) :
    nat * bool * list Token + list Token :=
  let '(i, unterminated, toks) := st in
  match cs !! i with
  | None => inr toks
  | Some c =>
      let i := S i in
      inl (if (c =? c_star)%N then
             (i, unterminated, if bool_decide (last toks = Some TStar) then toks else toks ++ [TStar])
           else if (c =? c_any)%N then (i, unterminated, toks ++ [TAny])
           else if (c =? c_open)%N && negb unterminated then
             match parse_class cs i with
             | Some (token, end_) => (end_, unterminated, toks ++ [token])
             | None => (i, true, toks ++ [TChar c_open])
             end
           else (i, unterminated, toks ++ [TChar c]))
  end.

(** Every turn moves on by a character at least. *)
Definition segment_new (pattern : str) (case_sensitive : bool) : SegmentPattern :=
  let cs := chars pattern in
  {| tokens := match iterate (compile_char cs) (Pos.of_succ_nat (length cs)) (0, false, []) with
               | inr toks => toks
               | inl _ => []
               end;
     case_sensitive := case_sensitive |}.

(** [part.contains(\['*', '?', '\['\])]. *)
Definition has_magic (part : str) : bool :=
  existsb (fun c => (c =? c_star) || (c =? c_any) || (c =? c_open))%N (chars part).

(** ** Matching *)

Section Matching.
Context `{CharCase}.

Definition simple_lower (c : char) : char :=
  match to_lowercase c with l :: _ => l | [] => c end.

Definition simple_upper (c : char) : char :=
  match to_uppercase c with [u] => u | _ => c end.

Definition variants (sensitive : bool) (c : char) : list char :=
  if sensitive then [c; c; c; c]
  else let lower := simple_lower c in
       [c; lower; simple_upper lower; simple_lower (simple_upper c)].

Definition token_matches (sensitive : bool) (token : Token) (c : char) : bool :=
  match token with
  | TChar expected =>
      existsb (fun v => (v =? expected)%N
                        || negb sensitive && (simple_lower expected =? simple_lower v)%N)
              (variants sensitive c)
  | TAny => true
  | TStar => false
  | TClass negated items =>
      let hit := existsb (fun v => existsb (fun r => (r.1 <=? v)%N && (v <=? r.2)%N) items)
                         (variants sensitive c) in
      negb (eqb hit negated)
  end.

Definition is_star (token : Token) : bool := bool_decide (token = TStar).

(** One turn of the matching loop: the pattern and text positions, and the last
    star with the text position it absorbs up to. *)
Definition match_step (sp : SegmentPattern) (cs : list char) (st : nat * nat * option (nat * nat)) :
    nat * nat * option (nat * nat) + bool :=
  let '(p, t, star) := st in
  let backtrack :=
    match star with
    | Some (star_p, star_t) => inl (S star_p, S star_t, Some (star_p, S star_t))
    | None => inr false
    end in
  match cs !! t with
  | None => inr (forallb is_star (drop p (tokens sp)))
  | Some c =>
      match tokens sp !! p with
      | Some token =>
          if is_star token then inl (S p, t, Some (p, t))
          else if token_matches (case_sensitive sp) token c then inl (S p, S t, star)
          else backtrack
      | None => backtrack
      end
  end.

(** At most this many turns are taken: pattern length times name length, and a
    margin linear in them. *)
Definition match_bound (sp : SegmentPattern) (cs : list char) : positive :=
  Pos.of_succ_nat ((length cs + 1) * (length (tokens sp) + 2) + length (tokens sp)).

Definition matches (sp : SegmentPattern) (name : str) : bool :=
  match iterate (match_step sp (chars name)) (match_bound sp (chars name)) (0, 0, None) with
  | inr b => b
  | inl _ => false
  end.

(** ** The reference relation *)

Inductive denotes (sensitive : bool) : list Token -> list char -> Prop :=
| d_nil : denotes sensitive [] []
| d_skip ts cs : denotes sensitive ts cs -> denotes sensitive (TStar :: ts) cs
| d_absorb ts c cs :
    denotes sensitive (TStar :: ts) cs -> denotes sensitive (TStar :: ts) (c :: cs)
| d_token tok ts c cs :
    token_matches sensitive tok c = true -> denotes sensitive ts cs ->
    denotes sensitive (tok :: ts) (c :: cs).

Lemma denotes_star b ts cs :
  denotes b (TStar :: ts) cs <-> exists k, k <= length cs /\ denotes b ts (drop k cs).
Proof.
  split.
  - intros Hd. remember (TStar :: ts) as l eqn:Hl. induction Hd as [|ts' cs Hd _|ts' c cs Hd IH|]; try done.
    + injection Hl as ->. exists 0. rewrite drop_0. split; [lia|done].
    + destruct (IH Hl) as (k & Hk & Hx). exists (S k). split; [cbn; lia|done].
    + by injection Hl as ->.
  - intros (k & Hk & Hd). revert cs Hk Hd. induction k as [|k IH]; intros cs Hk Hd.
    + rewrite drop_0 in Hd. by constructor.
    + destruct cs as [|c cs]; [cbn in Hk; lia|]. apply d_absorb, IH; [cbn in Hk; lia|done].
Qed.

Lemma denotes_stars b ts : denotes b ts [] <-> forallb is_star ts = true.
Proof.
  induction ts as [|t ts IH]; cbn; [split; [done|constructor]|]. unfold is_star at 1.
  rewrite andb_true_iff, bool_decide_eq_true, <- IH. split.
  - intros Hd. by inversion Hd; subst.
  - intros [-> Hd]. by constructor.
Qed.
End Matching.

(** ** The matcher decides the relation *)

Section Correct.
Context `{CharCase} (sp : SegmentPattern) (cs : list char).

Abbreviation toks := (tokens sp).
Abbreviation ok := (token_matches (case_sensitive sp)).

(** The pattern from [p] on denotes the text from [t] on. *)
Definition denotes_at (p t : nat) : Prop := denotes (case_sensitive sp) (drop p toks) (drop t cs).

Lemma denotes_at_token p t tok :
  toks !! p = Some tok -> tok <> TStar ->
  denotes_at p t <-> exists c, cs !! t = Some c /\ ok tok c = true /\ denotes_at (S p) (S t).
Proof.
  intros Hp Hns. unfold denotes_at. rewrite (drop_S _ tok) by done. split.
  - intros Hd. inversion Hd as [| | |tok' ts c cs' Hok Hd' Ht]; subst; try done.
    assert (Hc : cs !! t = Some c) by (by rewrite <- (Nat.add_0_r t), <- lookup_drop, <- H1).
    exists c. repeat split; [done..|]. rewrite (drop_S _ c) in H1 by done. by injection H1 as ->.
  - intros (c & Hc & Hok & Hd). rewrite (drop_S _ c) by done. by constructor.
Qed.

Lemma denotes_at_star p t :
  toks !! p = Some TStar -> t <= length cs ->
  denotes_at p t <-> exists t', t <= t' <= length cs /\ denotes_at (S p) t'.
Proof.
  intros Hp Ht. unfold denotes_at. rewrite (drop_S _ TStar) by done. rewrite denotes_star.
  rewrite length_drop. setoid_rewrite drop_drop. split.
  - intros (k & Hk & Hd). exists (t + k). split; [lia|]. done.
  - intros (t' & Ht' & Hd). exists (t' - t). split; [lia|]. by replace (t + (t' - t)) with t' by lia.
Qed.

Lemma denotes_at_end p t c : toks !! p = None -> cs !! t = Some c -> ~ denotes_at p t.
Proof.
  intros Hp Hc. unfold denotes_at. apply lookup_ge_None in Hp.
  rewrite drop_ge, (drop_S _ c) by done. intros Hd. inversion Hd.
Qed.

(** What a state of the loop has established: the parts after the last star
    matched, one character each, the text from the star's position on. *)
Definition loop_ok (st : nat * nat * option (nat * nat)) : Prop :=
  let '(p, t, star) := st in
  p <= length toks /\ t <= length cs /\
  match star with
  | None => True
  | Some (q, s) =>
      toks !! q = Some TStar /\ s <= t /\ p = S q + (t - s)
      /\ forall i, q < i < p -> toks !! i <> Some TStar
  end.

(** What is still to be decided: the rest matches here, or after the last star
    has absorbed more. *)
Definition pending (st : nat * nat * option (nat * nat)) : Prop :=
  let '(p, t, star) := st in
  denotes_at p t \/
  match star with
  | None => False
  | Some (q, s) => exists t', s < t' <= length cs /\ denotes_at (S q) t'
  end.

Definition loop_measure (st : nat * nat * option (nat * nat)) : Z :=
  let '(p, t, star) := st in
  let left := match star with None => length cs + 1 | Some (_, s) => length cs - s end in
  Z.of_nat (left * (length toks + 2) + (length toks - p)).

(** A run of single-character parts matched further right leaves room there. *)
Lemma denotes_at_shift d : forall p t,
  (forall i, p <= i < p + d -> i < length toks /\ toks !! i <> Some TStar) ->
  t <= length cs -> denotes_at p t -> t + d <= length cs /\ denotes_at (p + d) (t + d).
Proof.
  induction d as [|d IH]; intros p t Hns Ht Hd; [rewrite !Nat.add_0_r; split; [lia|done]|].
  destruct (Hns p ltac:(lia)) as [Hlt Hp]. destruct (lookup_lt_is_Some_2 toks p Hlt) as [tok Htok].
  rewrite denotes_at_token in Hd by (done || congruence). destruct Hd as (c & Hc & _ & Hd).
  apply lookup_lt_Some in Hc.
  destruct (IH (S p) (S t)) as [H1 H2]; [|lia|done|].
  - intros i Hi. apply Hns. lia.
  - rewrite !Nat.add_succ_r. split; [lia|]. done.
Qed.

(** Backtracking to the last star decides what was pending. *)
Lemma backtrack_step p t q s c :
  loop_ok (p, t, Some (q, s)) -> cs !! t = Some c -> ~ denotes_at p t ->
  let st' := (S q, S s, Some (q, S s)) in
  loop_ok st' /\ (pending (p, t, Some (q, s)) <-> pending st')
  /\ (loop_measure st' < loop_measure (p, t, Some (q, s)))%Z.
Proof.
  intros (Hp & Ht & Hsp & Hs & Hpeq & Hns) Hc Hnd. apply lookup_lt_Some in Hc.
  pose proof (lookup_lt_Some _ _ _ Hsp) as Hlt. split; [|split].
  - cbn. repeat split; [lia|lia|done|lia|lia|]. intros i Hi. lia.
  - cbn. split.
    + intros [?|(t' & Ht' & Hd)]; [done|]. destruct (decide (t' = S s)) as [->|Hne]; [by left|].
      right. exists t'. split; [lia|done].
    + intros [Hd|(t' & Ht' & Hd)]; right; [exists (S s)|exists t']; (split; [lia|done]).
  - unfold loop_measure. apply Nat2Z.inj_lt. assert (s < length cs) by lia. nia.
Qed.

(** A turn decides nothing more and counts down. *)
Definition turn_ok (st st' : nat * nat * option (nat * nat)) : Prop :=
  loop_ok st' /\ (pending st <-> pending st') /\ (loop_measure st' < loop_measure st)%Z.

(** At the end of the text only stars may be left, and no star helps. *)
Lemma match_end p t star :
  loop_ok (p, t, star) -> cs !! t = None ->
  forallb is_star (drop p toks) = true <-> pending (p, t, star).
Proof.
  intros (Hp & Ht & Hstar) Hc%lookup_ge_None.
  rewrite <- (denotes_stars (case_sensitive sp)). unfold pending.
  unfold denotes_at at 1. rewrite (drop_ge cs t) by lia. split; [by left|].
  intros [?|Hx]; [done|]. destruct star as [[q s]|]; [|done].
  destruct Hx as (t' & Ht' & Hd). destruct Hstar as (Hq & Hs & Hpeq & Hns).
  destruct (denotes_at_shift (t - s) (S q) t') as [Hle _]; [|lia|done|lia].
  intros i Hi. split; [lia|]. apply Hns. lia.
Qed.

(** A new star makes the one before it unnecessary. *)
Lemma match_star p t star c :
  loop_ok (p, t, star) -> cs !! t = Some c -> toks !! p = Some TStar ->
  turn_ok (p, t, star) (S p, t, Some (p, t)).
Proof.
  intros (Hp & Ht & Hstar) Hc%lookup_lt_Some Htok. pose proof (lookup_lt_Some _ _ _ Htok) as Hplt.
  split; [|split].
  - cbn. repeat split; [lia|lia|done|lia|lia|]. intros i Hi. lia.
  - unfold pending. rewrite (denotes_at_star p t) by (done || lia). split.
    + assert (Hgo : (exists t', t <= t' <= length cs /\ denotes_at (S p) t') ->
        denotes_at (S p) t \/ (exists t', t < t' <= length cs /\ denotes_at (S p) t')).
      { intros (t' & Ht' & Hd). destruct (decide (t' = t)) as [->|]; [by left|].
        right. exists t'. split; [lia|done]. }
      intros [?|Hx]; [by apply Hgo|]. destruct star as [[q s]|]; [|done].
      destruct Hx as (t' & Ht' & Hd). destruct Hstar as (Hq & Hs & Hpeq & Hns). apply Hgo.
      destruct (denotes_at_shift (t - s) (S q) t') as [Hle Hd']; [|lia|done|].
      { intros i Hi. split; [lia|]. apply Hns. lia. }
      replace (S q + (t - s)) with p in Hd' by lia.
      rewrite (denotes_at_star p) in Hd' by (done || lia). destruct Hd' as (t'' & Ht'' & Hd').
      exists t''. split; [lia|done].
    + intros [Hd|(t' & Ht' & Hd)]; left; [exists t|exists t']; (split; [lia|done]).
  - unfold loop_measure. apply Nat2Z.inj_lt. destruct star as [[q s]|]; nia.
Qed.

(** A part that accepts the character moves both positions on. *)
Lemma match_token p t star tok c :
  loop_ok (p, t, star) -> cs !! t = Some c -> toks !! p = Some tok -> tok <> TStar -> ok tok c = true ->
  turn_ok (p, t, star) (S p, S t, star).
Proof.
  intros (Hp & Ht & Hstar) Hc Htok Hst Hm.
  pose proof (lookup_lt_Some _ _ _ Hc) as Htlt. pose proof (lookup_lt_Some _ _ _ Htok) as Hplt.
  split; [|split].
  - cbn. split; [lia|]. split; [lia|]. destruct star as [[q s]|]; [|done].
    destruct Hstar as (Hq & Hs & Hpeq & Hns). repeat split; [done|lia|lia|].
    intros i Hi. destruct (decide (i = p)) as [->|]; [congruence|]. apply Hns. lia.
  - unfold pending. rewrite (denotes_at_token p t tok) by done.
    split; (intros [Hd|Hd]; [left|by right]); [|by exists c].
    destruct Hd as (c' & _ & _ & Hd). done.
  - unfold loop_measure. apply Nat2Z.inj_lt. destruct star as [[q s]|]; nia.
Qed.

Lemma match_step_ok st :
  loop_ok st ->
  match match_step sp cs st with
  | inl st' => turn_ok st st'
  | inr b => b = true <-> pending st
  end.
Proof.
  destruct st as [[p t] star]. intros Hok. unfold match_step.
  destruct (cs !! t) as [c|] eqn:Hc; [|by apply match_end].
  assert (Hback : ~ denotes_at p t ->
    match (match star with
           | Some (star_p, star_t) => inl (S star_p, S star_t, Some (star_p, S star_t))
           | None => inr false end) with
    | inl st' => turn_ok (p, t, star) st'
    | inr b => b = true <-> pending (p, t, star)
    end).
  { intros Hnd. destruct star as [[q s]|]; [by apply (backtrack_step p t q s c)|].
    split; [done|]. by intros [?|?]. }
  destruct (toks !! p) as [tok|] eqn:Htok; [|apply Hback; by eapply denotes_at_end].
  unfold is_star. case_bool_decide as Hst; [subst tok; by eapply match_star|].
  destruct (ok tok c) eqn:Hm; [by eapply match_token|].
  apply Hback. rewrite (denotes_at_token p t tok) by done.
intros (c' & Hc' & Hok' & _). congruence.
Qed.
End Correct.

Section Results.
Context `{CharCase}.

Lemma matches_denotes sp name :
  matches sp name = true <-> denotes (case_sensitive sp) (tokens sp) (chars name).
Proof.
  unfold matches. set (cs := chars name). set (st0 := (0, 0, None)).
  assert (H0 : loop_ok sp cs st0) by (cbn; split; [lia|]; split; [lia|done]).
  assert (Hstep : forall st, loop_ok sp cs st ->
    match match_step sp cs st with
    | inl st' => loop_ok sp cs st' /\ (loop_measure sp cs st' < loop_measure sp cs st)%Z
    | inr _ => True end).
  { intros st Hst. pose proof (match_step_ok sp cs st Hst) as Hx. unfold turn_ok in Hx.
    destruct (match_step sp cs st); [naive_solver|done]. }
  destruct (iterate_ends (match_step sp cs) (loop_ok sp cs) (loop_measure sp cs)
    (match_bound sp cs) st0) as [b Hb]; [|exact Hstep|done| |].
  { intros [[p t] star] _. unfold loop_measure. lia. }
  { unfold loop_measure, match_bound. cbn. lia. }
  rewrite Hb.
  pose proof (iterate_inv (match_step sp cs)
    (fun st => loop_ok sp cs st /\ (pending sp cs st <-> pending sp cs st0))
    (fun b => b = true <-> pending sp cs st0) (match_bound sp cs) st0) as Hinv.
  rewrite Hb in Hinv. rewrite Hinv; [|clear Hinv|done].
  - cbn. unfold denotes_at. rewrite !drop_0. naive_solver.
  - intros st [Hst Heq]. pose proof (match_step_ok sp cs st Hst) as Hx. unfold turn_ok in Hx.
    destruct (match_step sp cs st); naive_solver.
Qed.

(** C39: the matcher that backtracks over the last star only decides the
    [fnmatch] relation, in which every star may absorb any run of characters,
    and always ends within a number of turns bounded by pattern length times
    name length. *)
Theorem matches_correct sp name :
  (exists b, iterate (match_step sp (chars name)) (match_bound sp (chars name)) (0, 0, None) = inr b)
  /\ (matches sp name = true <-> denotes (case_sensitive sp) (tokens sp) (chars name)).
Proof.
  split; [|apply matches_denotes]. set (cs := chars name).
  apply (iterate_ends (match_step sp cs) (loop_ok sp cs) (loop_measure sp cs)).
  - intros [[p t] star] _. unfold loop_measure. lia.
  - intros st Hst. pose proof (match_step_ok sp cs st Hst) as Hx. unfold turn_ok in Hx.
    destruct (match_step sp cs st); [naive_solver|done].
  - cbn. split; [lia|]. split; [lia|done].
  - unfold loop_measure, match_bound. cbn. lia.
Qed.

(** ** Patterns without wildcards *)

Lemma compile_literal part b :
  has_magic part = false -> tokens (segment_new part b) = List.map TChar (chars part).
Proof.
  intros Hm. cbn. set (cs := chars part).
  assert (Hc : forall i c, cs !! i = Some c ->
    (c =? c_star)%N = false /\ (c =? c_any)%N = false /\ (c =? c_open)%N = false).
  { intros i c Hi. apply list_elem_of_lookup_2, list_elem_of_In in Hi.
    unfold has_magic in Hm. rewrite <- not_true_iff_false, existsb_exists in Hm.
    destruct (c =? c_star)%N eqn:H1; [exfalso; apply Hm; exists c; by rewrite H1|].
    destruct (c =? c_any)%N eqn:H2; [exfalso; apply Hm; exists c; by rewrite H1, H2|].
    destruct (c =? c_open)%N eqn:H3; [exfalso; apply Hm; exists c; by rewrite H1, H2, H3|]. done. }
  set (P st := let '(i, un, toks) := (st : nat * bool * list Token) in i <= length cs /\ toks = List.map TChar (take i cs)).
  set (mu st := let '(i, un, toks) := (st : nat * bool * list Token) in Z.of_nat (length cs - i)).
  assert (Hstep : forall st, P st -> match compile_char cs st with
    | inl st' => P st' /\ (mu st' < mu st)%Z | inr toks => toks = List.map TChar cs end).
  { intros [[i un] toks] [Hi ->]. unfold compile_char. destruct (cs !! i) as [c|] eqn:Hci.
    - destruct (Hc i c Hci) as (-> & -> & ->). cbn [andb]. apply lookup_lt_Some in Hci as Hlt.
      split; [|cbn; lia]. split; [lia|]. by rewrite (take_S_r _ _ c), List.map_app.
    - apply lookup_ge_None in Hci. by rewrite take_ge. }
  destruct (iterate_ends (compile_char cs) P mu (Pos.of_succ_nat (length cs)) (0, false, []))
    as [toks Ht].
  - intros [[i un] toks] _. cbn. lia.
  - intros st Hst. specialize (Hstep st Hst). by destruct (compile_char cs st).
  - split; [lia|done].
  - cbn. lia.
  - rewrite Ht.
    pose proof (iterate_inv (compile_char cs) P (fun toks => toks = List.map TChar cs)
      (Pos.of_succ_nat (length cs)) (0, false, [])) as Hinv. rewrite Ht in Hinv. apply Hinv.
    + intros st Hst. specialize (Hstep st Hst). destruct (compile_char cs st); naive_solver.
    + split; [lia|done].
Qed.

Lemma denotes_literal l cs : denotes true (List.map TChar l) cs <-> cs = l.
Proof.
  revert cs. induction l as [|x l IH]; intros cs; cbn.
  - split; [by inversion 1|intros ->; constructor].
  - split.
    + intros Hd. inversion Hd as [| | |tok ts c cs' Hok Hd']; subst.
      apply IH in Hd' as ->. cbn in Hok. rewrite !orb_false_r, !orb_diag in Hok.
      by apply N.eqb_eq in Hok as ->.
    + intros ->. constructor; [|by apply IH]. cbn. by rewrite N.eqb_refl.
Qed.

(** A part without wildcards matches exactly its own name, so looking it up
    directly and listing the directory to match it select the same entry. *)
Theorem literal_matches_itself part name :
  has_magic part = false ->
  matches (segment_new part true) name = true <-> chars name = chars part.
Proof.
  intros Hm. rewrite matches_denotes, compile_literal by done. apply denotes_literal.
Qed.

End Results.

(** ** Several parts *)

Inductive MultiPart := MRecursive | MSegment (p : SegmentPattern).

Abbreviation MultiPattern := (list MultiPart).

Definition multi_compile (part : str) (case_sensitive : bool) : MultiPart :=
  if bool_decide (part = lit "**") then MRecursive else MSegment (segment_new part case_sensitive).

Section Multi.
Context `{CharCase}.

(** The slots a [**] reaches, [any] being whether an earlier one was reachable. *)
Fixpoint recursive_slots (at_least_one any : bool) (reachable : list bool) : list bool :=
  match reachable with
  | [] => []
  | r :: rs =>
      let any := if at_least_one then any else any || r in
      any :: recursive_slots at_least_one (if at_least_one then any || r else any) rs
  end.

Definition multi_step (is_last : bool) (part : MultiPart) (segments : list str)
    (reachable : list bool) : list bool :=
  match part with
  | MRecursive => recursive_slots is_last false reachable
  | MSegment pattern =>
      false :: zip_with (fun r segment => r && matches pattern segment) reachable segments
  end.

Fixpoint multi_loop (parts : MultiPattern) (segments : list str) (reachable : list bool) : list bool :=
  match parts with
  | [] => reachable
  | part :: rest =>
      multi_loop rest segments
        (multi_step (match rest with [] => true | _ => false end) part segments reachable)
  end.

Definition path_segments (path : str) : list str :=
  match path with [] => [] | _ => split slash path end.

Definition multi_matches (parts : MultiPattern) (path : str) : bool :=
  let segments := path_segments path in
  default false (multi_loop parts segments (true :: replicate (length segments) false)
                 !! length segments).

(** [**] stands for any number of segments, for at least one at the end. *)
Inductive multi_denotes : MultiPattern -> list str -> Prop :=
| md_nil : multi_denotes [] []
| md_segment p ps s ss :
    matches p s = true -> multi_denotes ps ss -> multi_denotes (MSegment p :: ps) (s :: ss)
| md_last ss : ss <> [] -> multi_denotes [MRecursive] ss
| md_recursive ps pre ss :
    ps <> [] -> multi_denotes ps ss -> multi_denotes (MRecursive :: ps) (pre ++ ss).

Lemma recursive_slots_lookup at_least_one reachable : forall any k,
  recursive_slots at_least_one any reachable !! k = Some true <->
  k < length reachable /\
  (any = true \/ exists j, (if at_least_one then j < k else j <= k) /\ reachable !! j = Some true).
Proof.
  induction reachable as [|r rs IH]; intros any k; cbn [recursive_slots length].
  { rewrite lookup_nil. split; [done|lia]. }
  destruct k as [|k]; cbn [lookup list_lookup].
  - destruct at_least_one.
    + split; [intros [= ->]; split; [lia|by left]|].
      intros [_ [->|(j & Hj & _)]]; [done|lia].
    + split.
      * intros [= Hor]. split; [lia|]. apply orb_true_iff in Hor as [->| ->]; [by left|].
        right. exists 0. split; [lia|done].
      * intros [_ [->|(j & Hj & Hx)]]; [done|]. replace j with 0 in Hx by lia.
        injection Hx as ->. by rewrite orb_true_r.
  - fold (recursive_slots at_least_one). 
    assert (Hs : recursive_slots at_least_one
      (if at_least_one then (if at_least_one then any else any || r) || r
       else if at_least_one then any else any || r) rs !! k = Some true <->
      k < length rs /\ (any || r = true \/
        exists j, (if at_least_one then j < k else j <= k) /\ rs !! j = Some true)).
    { rewrite IH. by destruct at_least_one. }
    rewrite Hs, orb_true_iff. split.
    + intros [Hk Hx]. split; [lia|]. destruct Hx as [[->| ->]|(j & Hj & Hx)]; [by left| |].
      * right. exists 0. split; [destruct at_least_one; lia|done].
      * right. exists (S j). split; [destruct at_least_one; lia|done].
    + intros [Hk Hx]. split; [lia|]. destruct Hx as [->|([|j] & Hj & Hx)]; [by left; left| |].
      * injection Hx as ->. left. by right.
      * right. exists j. split; [destruct at_least_one; lia|done].
Qed.

Lemma recursive_slots_length b reachable : forall any,
  length (recursive_slots b any reachable) = length reachable.
Proof. induction reachable as [|r rs IH]; intros any; cbn; [done|]. by rewrite IH. Qed.

Lemma multi_step_length b part segments reachable :
  length reachable = S (length segments) ->
  length (multi_step b part segments reachable) = S (length segments).
Proof.
  intros Hl. destruct part; cbn; [by rewrite recursive_slots_length|].
  rewrite length_zip_with. lia.
Qed.

Lemma multi_denotes_recursive ps l : ps <> [] ->
  multi_denotes (MRecursive :: ps) l <-> exists j, j <= length l /\ multi_denotes ps (drop j l).
Proof.
  intros Hps. split.
  - intros Hd. inversion Hd as [| | |ps' pre ss _ Hd']; subst; [done|].
    exists (length pre). rewrite length_app, drop_app_length. split; [lia|done].
  - intros (j & Hj & Hd). rewrite <- (take_drop j l). by constructor.
Qed.

(** One part moves the reachable positions on by what it stands for. *)
Lemma multi_step_correct part rest segments reachable :
  length reachable = S (length segments) ->
  (exists k, multi_step (match rest with [] => true | _ => false end) part segments reachable !! k
             = Some true /\ multi_denotes rest (drop k segments)) <->
  exists k, reachable !! k = Some true /\ multi_denotes (part :: rest) (drop k segments).
Proof.
  intros Hl. destruct part as [|p]; cbn [multi_step].
  - setoid_rewrite recursive_slots_lookup. destruct rest as [|part' rest].
    + split.
      * intros (k & [Hk [?|(j & Hj & Hr)]] & Hd); [done|]. inversion Hd as [Hn| | |]; subst.
        exists j. split; [done|]. constructor. intros Hx. apply (f_equal length) in Hx.
        rewrite length_drop in Hx. cbn in Hx. lia.
      * intros (j & Hr & Hd). assert (Hne : drop j segments <> []) by (by inversion Hd).
        exists (length segments). split; [|rewrite drop_all; constructor]. split; [lia|]. right.
        exists j. split; [|done].
        destruct (decide (j < length segments)); [done|]. by rewrite drop_ge in Hne by lia.
    + assert (Hps : part' :: rest <> []) by done. split.
      * intros (k & [Hk [?|(j & Hj & Hr)]] & Hd); [done|]. exists j. split; [done|].
        rewrite multi_denotes_recursive by done. exists (k - j). rewrite length_drop, drop_drop.
        replace (j + (k - j)) with k by lia. split; [lia|done].
      * intros (j & Hr & Hd). rewrite multi_denotes_recursive in Hd by done.
        destruct Hd as (d & Hd & Hx). rewrite length_drop, drop_drop in *.
        apply lookup_lt_Some in Hr as Hlt. exists (j + d). split; [|done]. split; [lia|]. right.
        exists j. split; [lia|done].
  - split.
    + intros ([|k] & Hk & Hd); [done|]. cbn in Hk. apply lookup_zip_with_Some in Hk
        as (r & seg & Hrm & Hr & Hseg). symmetry in Hrm. apply andb_true_iff in Hrm as [-> Hm].
      exists k. split; [done|]. rewrite (drop_S _ seg) by done. by constructor.
    + intros (k & Hr & Hd). inversion Hd as [|p' ps seg ss Hm Hd' Hp Hs| |]; subst.
      assert (Hseg : segments !! k = Some seg).
      { by rewrite <- (Nat.add_0_r k), <- lookup_drop, <- Hs. }
      exists (S k). split; [|rewrite (drop_S _ seg) in Hs by done; by injection Hs as <-].
      cbn. apply lookup_zip_with_Some. exists true, seg. by rewrite Hm.
Qed.

Lemma multi_loop_correct segments parts : forall reachable,
  length reachable = S (length segments) ->
  multi_loop parts segments reachable !! length segments = Some true <->
  exists k, reachable !! k = Some true /\ multi_denotes parts (drop k segments).
Proof.
  induction parts as [|part rest IH]; intros reachable Hl; cbn [multi_loop].
  - split.
    + intros Hr. exists (length segments). rewrite drop_all. by split; [|constructor].
    + intros (k & Hr & Hd). apply lookup_lt_Some in Hr as Hlt.
      assert (Hn : drop k segments = []) by (by inversion Hd). apply (f_equal length) in Hn. rewrite length_drop in Hn. cbn in Hn.
      by replace (length segments) with k by lia.
  - rewrite IH by (by apply multi_step_length). by apply multi_step_correct.
Qed.

(** matching several parts against a path by dynamic programming decides
    the relation in which [**] stands for any number of whole segments, for at
    least one when it comes last, and every other part for exactly one segment
    its pattern matches. *)
Theorem multi_matches_correct parts path :
  multi_matches parts path = true <-> multi_denotes parts (path_segments path).
Proof.
  unfold multi_matches. set (segs := path_segments path).
  assert (Hl : length (true :: replicate (length segs) false) = S (length segs))
    by (cbn; by rewrite length_replicate).
  pose proof (multi_loop_correct segs parts _ Hl) as Hm.
  destruct (multi_loop parts segs _ !! length segs) as [b|]; cbn [default].
  - rewrite <- (inj_iff Some b true), Hm. clear Hm. split.
    + intros ([|k] & Hk & Hd); [by rewrite drop_0 in Hd|]. cbn in Hk.
      by apply lookup_replicate in Hk as [? _].
    + intros Hd. exists 0. by rewrite drop_0.
  - split; [done|]. intros Hd. discriminate (proj2 Hm). exists 0. by rewrite drop_0.
Qed.
End Multi.

(** ** Examples

    Case tables that know the ASCII letters. *)
Definition ascii_case : CharCase := {|
  to_lowercase c := [if (65 <=? c) && (c <=? 90) then c + 32 else c]%N;
  to_uppercase c := [if (97 <=? c) && (c <=? 122) then c - 32 else c]%N |}.

#[local] Existing Instance ascii_case.

Example matches_examples :
  matches (segment_new (lit "a*[!x-z]?") true) (lit "abqc") = true
  /\ matches (segment_new (lit "a*[!x-z]?") true) (lit "abzc") = false
  /\ matches (segment_new (lit "*.PY") false) (lit "main.py") = true
  /\ matches (segment_new (lit "[]-a]x") true) (lit "^x") = true
  /\ matches (segment_new (lit "[ab") true) (lit "[ab") = true
  /\ multi_matches [MRecursive; multi_compile (lit "*.rs") true] (lit "src/a/b.rs") = true
  /\ multi_matches [MRecursive] [] = false.
Proof. vm_compute. repeat split. Qed.

Lemma literal_matches_itself_witness : matches (segment_new (lit "README") true) (lit "README") = true.
Proof. apply (literal_matches_itself (lit "README") (lit "README")); reflexivity. Defined.
