(* ===== verification/Glob.v ===== *)
(** Directory scans and the glob selector ([crates/monty-types/src/scan.rs]):
    scan arguments and replies, the interface a tree is read through, the
    selector that runs a [Path.glob] pattern over it, and the recorder hosts
    answer scans with.

    The loops run under a bound, [fuel]; [OutOfFuel] is the outcome when it is
    used up. [GlobProps] shows which bounds are enough. *)
From S2P Require Import Prelude Str BTreeMap FileMode VirtualPath FsTypes Host Common Fnmatch.
Local Open Scope monty_scope.

(** ** Relative paths *)

(** [is_special]. *)
Definition is_special (part : str) : bool := special_segment part.

Definition starstar : str := lit "**".

(** [join]. *)
Definition scan_join (dir name : str) : str :=
  if bool_decide (dir = []) || ends_with_char slash dir then dir ++ name else dir ++ slash :: name.

(** The loop over the components, [parts] being the stack. *)
Fixpoint normalize_loop (parts segs : list str) : option (list str) :=
  match segs with
  | [] => Some parts
  | part :: rest =>
      if bool_decide (part = []) || bool_decide (part = dot) then normalize_loop parts rest
      else if bool_decide (part = dotdot) then
        match parts with
        | [] => None
        | _ => normalize_loop (removelast parts) rest
        end
      else normalize_loop (parts ++ [part]) rest
  end.

Definition normalize_relative (path : str) : option str :=
  if bool_decide (path = []) || forallb (fun part => negb (is_special part)) (split slash path)
  then Some path
  else Str.join slash <$> normalize_loop [] (split slash path).

(** ** Arguments *)

Definition listing_args (path : str) (max_depth : option Z) (follow_symlinks : bool) : ScanArgs :=
  {| sc_path := path; sc_max_depth := max_depth; sc_follow_symlinks := follow_symlinks;
     sc_pattern := None; sc_case_sensitive := None; sc_recurse_symlinks := false |}.

Definition u32_max : Z := 4294967295.

Definition glob_args (path : str) (parts : list str) (case_sensitive : option bool)
    (recurse_symlinks : bool) : ScanArgs :=
  let recursive := existsb (fun part => bool_decide (part = starstar)) parts in
  let depth := zlen (List.filter (fun part => negb (is_special part)) parts) in
  let descends_wildcard :=
    existsb (fun part => negb (bool_decide (part = starstar)) && negb (is_special part))
            (take (length parts - 1) parts) in
  {| sc_path := path;
     sc_max_depth := if recursive then None else Some (if (depth <=? u32_max)%Z then depth else u32_max);
     sc_follow_symlinks := recurse_symlinks || descends_wildcard;
     sc_pattern := Some parts; sc_case_sensitive := case_sensitive;
     sc_recurse_symlinks := recurse_symlinks |}.

(** The leading parts resolved without listing, joined, and the rest. *)
Fixpoint split_literal_loop (prefix : str) (parts : list str) (case_sensitive : option bool) :
    str * list str :=
  match parts with
  | part :: tail =>
      if negb (bool_decide (part = starstar))
         && (is_special part || bool_decide (case_sensitive = None) && negb (has_magic part))
      then
        let prefix := if negb (bool_decide (prefix = [])) || bool_decide (part = [])
                      then prefix ++ [slash] else prefix in
        split_literal_loop (prefix ++ part) tail case_sensitive
      else (prefix, parts)
  | [] => (prefix, parts)
  end.

Definition split_literal_prefix (parts : list str) (case_sensitive : option bool) : str * list str :=
  split_literal_loop [] parts case_sensitive.

(** ** Replies *)

Record ScanEntry := { se_path : str; se_info : EntryInfo }.

Inductive ScanReply := Tree (entries : list ScanEntry) | Matches (matches : list str).

Definition MATCHES_KEY : str := lit "matches".

Definition entry_object (entry : ScanEntry) : MontyObject :=
  OTuple [OString (se_path entry); OBool (is_dir (se_info entry)); OBool (is_file (se_info entry));
          OBool (is_symlink (se_info entry))].

Definition scan_reply (entries : list ScanEntry) : MontyObject := OList (List.map entry_object entries).

Definition into_object (reply : ScanReply) : MontyObject :=
  match reply with
  | Tree entries => scan_reply entries
  | Matches matches => ODict [(OString MATCHES_KEY, OList (List.map OString matches))]
  end.

(** What was wrong with a reply; the messages name the offending type or path. *)
Inductive ReplyError :=
| NotAReply
| DifferentDict
| NotAPath
| NotAnEntry
| NotRelative (path : str).

(** The items of a tuple, list or named tuple. *)
Definition sequence_items (o : MontyObject) : option (list MontyObject) :=
  match o with
  | OTuple items | OList items => Some items
  | OStat _ _ ints floats => Some (List.map OInt ints ++ List.map OFloat floats)
  | _ => None
  end.

Definition path_text (o : MontyObject) : option str :=
  match o with OString path | OPath path => Some path | _ => None end.

Definition matches_list (pairs : list (MontyObject * MontyObject)) : option (list MontyObject) :=
  match pairs with
  | [(OString key, OList ids)] => if bool_decide (key = MATCHES_KEY) then Some ids else None
  | _ => None
  end.

Definition parse_match (o : MontyObject) : result str ReplyError :=
  match path_text o with
  | None => Err NotAPath
  | Some path =>
      let trimmed := trim_end_matches slash path in
      let? normalized := ok_or (if starts_with [slash] path then None else normalize_relative trimmed)
                               (NotRelative path) in
      Ok (if (length trimmed <? length path) && negb (bool_decide (normalized = []))
          then normalized ++ [slash] else normalized)
  end.

Definition parse_flag (o : MontyObject) : result bool ReplyError :=
  match o with OBool b => Ok b | _ => Err NotAnEntry end.

Definition parse_entry (o : MontyObject) : result ScanEntry ReplyError :=
  match sequence_items o with
  | Some [path; d; f; l] =>
      match path_text path with
      | None => Err NotAnEntry
      | Some path =>
          let? normalized := ok_or (if starts_with [slash] path then None else normalize_relative path)
                                   (NotRelative path) in
          let? d := parse_flag d in
          let? f := parse_flag f in
          let? l := parse_flag l in
          Ok {| se_path := normalized;
                se_info := {| is_dir := d; is_file := f; is_symlink := l |} |}
      end
  | _ => Err NotAnEntry
  end.

(** [iter().map(f).collect::<Result<_, _>>()]. *)
Fixpoint collect_results {A B E} (f : A -> result B E) (l : list A) : result (list B) E :=
  match l with
  | [] => Ok []
  | x :: l => let? y := f x in let? ys := collect_results f l in Ok (y :: ys)
  end.

Definition parse_scan_reply (reply : MontyObject) : result ScanReply ReplyError :=
  match reply with
  | OList ids => let? entries := collect_results parse_entry ids in Ok (Tree entries)
  | ODict pairs =>
      match matches_list pairs with
      | Some ids => let? matches := collect_results parse_match ids in Ok (Matches matches)
      | None => Err DifferentDict
      end
  | _ => Err NotAReply
  end.

(** The bytes parsing and indexing a reply allocates, roughly. *)
Definition indexed_size (reply : MontyObject) : Z :=
  let ids := match reply with
             | OList ids => ids
             | ODict pairs => default [] (matches_list pairs)
             | _ => []
             end in
  let path_len o :=
    match path_text o with
    | Some path => zlen path
    | None => match sequence_items o with
              | Some (path :: _) => default 0%Z (zlen <$> path_text path)
              | _ => 0%Z
              end
    end in
  fold_left (fun n o => sat_add n (sat_add (sat_mul (path_len o) 3) 160)) ids 0%Z.

(** ** Sources *)

Abbreviation Listing := (list (str * EntryInfo)).

(** [trait ScanSource], over the state [S] of a source. *)
Class ScanSource (S E : Type) := {
  src_list : str -> M S E (option Listing);
  src_lookup : str -> M S E (option EntryInfo);
  src_visit : M S E unit;
  src_charge : Z -> M S E unit;
  src_match_capacity : S -> Z }.

(** How a loop over a source fails: it used up its bound, it panicked, or the
    source failed. *)
Inductive stop (E : Type) := OutOfFuel | Panicked | Raised (e : E).
Arguments OutOfFuel {E}.
Arguments Panicked {E}.
Arguments Raised {E} e.

Definition raising {S E A} (m : M S E A) : M S (stop E) A :=
  fun s => let '(r, s) := m s in (map_err Raised r, s).

(** Runs a loop body at most [fuel] times. *)
Definition loop {S E A B} (fuel : positive) (body : A -> M S (stop E) (A + B)) (a : A) : M S (stop E) B :=
  fun s =>
    match iterate (fun st => match body st.1 st.2 with
                             | (Ok (inl a), s) => inl (a, s)
                             | (Ok (inr b), s) => inr (Ok b, s)
                             | (Err e, s) => inr (Err e, s)
                             end) fuel (a, s) with
    | inl (_, s) => (Err OutOfFuel, s)
    | inr r => r
    end.

(** ** The selector *)

Inductive Step :=
| SExists
| SSpecial
| SLiteral (joined : str) (next : nat)
| SWildcard (matcher : option SegmentPattern) (next : nat)
| SRecursive (matcher : option MultiPattern) (next : nat).

(** The length of the longest prefix whose elements satisfy [f]. *)
Fixpoint run_length {A} (f : A -> bool) (l : list A) : nat :=
  match l with
  | x :: l => if f x then S (run_length f l) else 0
  | [] => 0
  end.

Definition compile_step (parts : list str) (index : nat) (case_sensitive : option bool)
    (recurse_symlinks : bool) : Step :=
  match parts !! index with
  | None => SExists
  | Some part =>
      let pedantic := negb (bool_decide (case_sensitive = None)) in
      let sensitive := default true case_sensitive in
      if bool_decide (part = starstar) then
        let next := index + 1 + run_length (fun p => bool_decide (p = starstar)) (drop (index + 1) parts) in
        let merged_len :=
          if recurse_symlinks then run_length (fun p => negb (is_special p)) (drop next parts) else 0 in
        let merged :=
          MRecursive :: List.map (fun p => multi_compile p sensitive) (take merged_len (drop next parts)) in
        SRecursive (if 1 <? length merged then Some merged else None) (next + merged_len)
      else if is_special part then SSpecial
      else if negb pedantic && negb (has_magic part) then
        let more := run_length (fun p => negb (has_magic p)) (drop (index + 1) parts) in
        let next := index + 1 + more in
        let joined := part ++ flat_map (cons slash) (take more (drop (index + 1) parts)) in
        SLiteral (if next <? length parts then joined ++ [slash] else joined) next
      else
        SWildcard (if bool_decide (part = lit "*") then None else Some (segment_new part sensitive))
                  (index + 1)
  end.

Definition step_next (step : Step) (index : nat) : option nat :=
  match step with
  | SExists => None
  | SSpecial => Some (index + 1)
  | SLiteral _ next | SWildcard _ next | SRecursive _ next => Some next
  end.

Record GlobSelector := {
  g_parts : list str;
  g_steps : list (option Step);
  g_recurse_symlinks : bool }.

(** One turn of the compilation loop, at [index] with the steps so far. *)
Definition compile_turn (parts : list str) (case_sensitive : option bool) (recurse_symlinks : bool)
    (st : nat * list (option Step)) : nat * list (option Step) + list (option Step) :=
  let '(index, steps) := st in
  let step := compile_step parts index case_sensitive recurse_symlinks in
  let steps := <[index := Some step]> steps in
  match step_next step index with
  | Some next => inl (next, steps)
  | None => inr steps
  end.

(** Every turn moves on by a part at least. *)
Definition selector_new (parts : list str) (case_sensitive : option bool) (recurse_symlinks : bool) :
    GlobSelector :=
  {| g_parts := parts;
     g_steps :=
       match iterate (compile_turn parts case_sensitive recurse_symlinks)
                     (Pos.of_succ_nat (length parts)) (0, replicate (length parts + 1) None) with
       | inr steps => steps
       | inl (_, steps) => steps
       end;
     g_recurse_symlinks := recurse_symlinks |}.

(** [State]: part index, normalized path so far, known to exist. *)
Abbreviation State := (nat * str * bool)%type.

(** [size_of::<State>()], which the compiler chooses. *)
Class StateLayout := {
  size_of_state : Z;
  size_of_state_pos : (0 < size_of_state)%Z }.

Definition STATE_OVERHEAD `{StateLayout} : Z := (2 * size_of_state + 2 * 8)%Z.

(** The states still to process (the last is the next popped), every state ever
    queued, and the matches until they outgrow the source's capacity. *)
Record Run := {
  stack : list State;
  seen : list State;
  out : option (list str) }.

(** The path a state is keyed by: normalized, keeping a trailing [/] below the
    root. *)
Definition state_path (path : str) : option str :=
  let trimmed := trim_end_matches slash path in
  let is_dir := (0 <? length trimmed) && (length trimmed <? length path) in
  (fun normalized => if is_dir && negb (bool_decide (normalized = [])) then normalized ++ [slash]
                     else normalized) <$> normalize_relative trimmed.

Section Selector.
Context {S E : Type} `{!ScanSource S E} `{StateLayout} `{CharCase}.

(** [Run::push]. *)
Definition run_push (index : nat) (path : str) (exists_ : bool) (run : Run) : M S E Run :=
  match state_path path with
  | None => sret run
  | Some normalized =>
      let state := (index, normalized, exists_) in
      if bool_decide (state ∈ seen run) then sret run
      else
        src_charge (STATE_OVERHEAD + zlen normalized)%Z ;;;
        sret {| stack := stack run ++ [state]; seen := seen run ++ [state]; out := out run |}
  end.

(** [Run::emit]. *)
Definition run_emit (path : str) (run : Run) : M S E Run :=
  fun s =>
    (Ok match out run with
        | None => run
        | Some o =>
            {| stack := stack run; seen := seen run;
               out := if (zlen o <? src_match_capacity s)%Z then Some (o ++ [path]) else None |}
        end, s).

Definition lexists (path : str) : M S E bool :=
  do info <- src_lookup (trim_end_matches slash path) ;;
  sret (match info with
        | Some i => if bool_decide (path = []) || ends_with_char slash path then is_dir i else true
        | None => false
        end).

Definition is_none_or {A} (f : A -> bool) (o : option A) : bool :=
  match o with Some a => f a | None => true end.

(** The children of a wildcard step's directory. *)
Fixpoint select_children (matcher : option SegmentPattern) (next : nat) (dir_only : bool) (path : str)
    (children : Listing) (run : Run) : M S E Run :=
  match children with
  | [] => sret run
  | (name, info) :: rest =>
      src_visit ;;;
      do run <-
        (if is_none_or (fun m => matches m name) matcher then
           let entry := scan_join path name in
           if negb dir_only then run_emit entry run
           else if is_dir info then run_push next (entry ++ [slash]) true run
           else sret run
         else sret run) ;;
      select_children matcher next dir_only path rest run
  end.

(** The children of one directory a [**] step descends into, [dirs] being the
    directories still to list. *)
Fixpoint select_descendants (g : GlobSelector) (matcher : option MultiPattern) (next match_pos : nat)
    (dir_only : bool) (dir : str) (children : Listing) (st : list str * Run) : M S E (list str * Run) :=
  match children with
  | [] => sret st
  | (name, info) :: rest =>
      src_visit ;;;
      let is_dir := Common.is_dir info && (g_recurse_symlinks g || negb (is_symlink info)) in
      do st <-
        (if is_dir || negb dir_only then
           let entry := scan_join dir name in
           let matched := is_none_or (fun m => multi_matches m (drop match_pos entry)) matcher in
           let entry := if dir_only then entry ++ [slash] else entry in
           let '(dirs, run) := st in
           if is_dir then
             do run <- (if matched then
                          if dir_only then run_push next entry true run else run_emit entry run
                        else sret run) ;;
             sret (dirs ++ [entry], run)
           else if matched then do run <- run_emit entry run ;; sret (dirs, run)
           else sret st
         else sret st) ;;
      select_descendants g matcher next match_pos dir_only dir rest st
  end.

(** [select_recursive]. *)
Definition select_recursive (fuel : positive) (g : GlobSelector) (matcher : option MultiPattern)
    (next : nat) (path : str) (exists_ : bool) (run : Run) : M S (stop E) Run :=
  let dir_only := next <? length (g_parts g) in
  do run <- (if is_none_or (fun m => multi_matches m []) matcher
             then raising (run_push next path exists_ run) else sret run) ;;
  loop fuel (fun st : list str * Run =>
    let '(dirs, run) := st in
    match last dirs with
    | None => sret (inr run)
    | Some dir =>
        raising (
          do children <- src_list (trim_end_matches slash dir) ;;
          do st <- select_descendants g matcher next (length path) dir_only dir (default [] children)
                     (removelast dirs, run) ;;
          sret (inl st))
    end) ([path], run).

(** One step of the selection loop. A state whose part was not compiled is the
    [expect] of the source. *)
Definition run_step (fuel : positive) (g : GlobSelector) (state : State) (run : Run) : M S (stop E) Run :=
  let '(index, path, exists_) := state in
  match g_steps g !! index ≫= (fun step => step) with
  | None => sfail Panicked
  | Some SExists =>
      raising (do there <- (if exists_ : bool then sret true else lexists path) ;;
               if there : bool then run_emit path run else sret run)
  | Some SSpecial =>
      let path := path ++ default [] (g_parts g !! index) in
      let path := if index + 1 <? length (g_parts g) then path ++ [slash] else path in
      raising (run_push (index + 1) path exists_ run)
  | Some (SLiteral joined next) => raising (run_push next (path ++ joined) false run)
  | Some (SWildcard matcher next) =>
      raising (
        do children <- src_list (trim_end_matches slash path) ;;
        select_children matcher next (next <? length (g_parts g)) path (default [] children) run)
  | Some (SRecursive matcher next) => select_recursive fuel g matcher next path exists_ run
  end.

(** [GlobSelector::run]. *)
Definition run_loop (fuel : positive) (g : GlobSelector) (run : Run) : M S (stop E) Run :=
  do run <- raising (run_push 0 [] false run) ;;
  loop fuel (fun run : Run =>
    match last (stack run) with
    | None => sret (inr run)
    | Some state =>
        do run <- run_step fuel g state
                    {| stack := removelast (stack run); seen := seen run; out := out run |} ;;
        sret (inl run)
    end) run.

(** [GlobSelector::select]. *)
Definition select (fuel : positive) (g : GlobSelector) : M S (stop E) (option (list str)) :=
  do run <- run_loop fuel g {| stack := []; seen := []; out := Some [] |} ;;
  sret (out run).

(** ** Plain walks *)

(** The children of one directory of a walk. *)
Fixpoint walk_children (follow_symlinks : bool) (dir : str) (depth : Z) (children : Listing)
    (stack : list (str * Z)) : M S E (list (str * Z)) :=
  match children with
  | [] => sret stack
  | (name, info) :: rest =>
      src_visit ;;;
      walk_children follow_symlinks dir depth rest
        (if is_dir info && (follow_symlinks || negb (is_symlink info))
         then stack ++ [(scan_join dir name, (depth + 1)%Z)] else stack)
  end.

Definition walk_to_depth (fuel : positive) (max_depth : option Z) (follow_symlinks : bool) :
    M S (stop E) unit :=
  loop fuel (fun stack : list (str * Z) =>
    match last stack with
    | None => sret (inr tt)
    | Some (dir, depth) =>
        let stack := removelast stack in
        if match max_depth with Some max => (max <=? depth)%Z | None => false end then sret (inl stack)
        else raising (
          do children <- src_list dir ;;
          do stack <- walk_children follow_symlinks dir depth (default [] children) stack ;;
          sret (inl stack))
    end) [([], 0%Z)].
End Selector.

(** ** The recorder *)

(** [sort_by(|(a, _), (b, _)| a.cmp(b))], which is stable. *)
Fixpoint insert_child (c : str * EntryInfo) (l : Listing) : Listing :=
  match l with
  | [] => [c]
  | d :: l' => if str_ltb d.1 c.1 then d :: insert_child c l' else c :: l
  end.

Definition sort_children (l : Listing) : Listing := fold_right insert_child [] l.

(** [is_sorted_by(|(a, _), (b, _)| a <= b)]. *)
Fixpoint sorted_children (l : Listing) : bool :=
  match l with
  | a :: ((b :: _) as l') => negb (str_ltb b.1 a.1) && sorted_children l'
  | _ => true
  end.

Record Recorder (S : Type) := {
  source : S;
  listed : btree (option Listing);
  entries : btree EntryInfo }.
Arguments source {S} _.
Arguments listed {S} _.
Arguments entries {S} _.

Section Recording.
Context {S E : Type} `{!ScanSource S E}.

(** Runs an operation of the source under the recorder. *)
Definition on_source {A} (m : M S E A) : M (Recorder S) E A :=
  fun r => let '(a, s) := m (source r) in
           (a, {| source := s; listed := listed r; entries := entries r |}).

Definition record_entry (path : str) (info : EntryInfo) : M (Recorder S) E unit :=
  smodify (fun r => {| source := source r; listed := listed r;
                       entries := binsert (entries r) path info |}).

Definition record_listing (dir : str) (listing : option Listing) : M (Recorder S) E unit :=
  smodify (fun r => {| source := source r; listed := binsert (listed r) dir listing;
                       entries := entries r |}).

Definition recorder_lookup (path : str) : M (Recorder S) E (option EntryInfo) :=
  match normalize_relative path with
  | None => sret None
  | Some path =>
      do r <- sget ;;
      match bget (entries r) path with
      | Some info => sret (Some info)
      | None =>
          do info <- on_source (src_lookup path) ;;
          (match info with Some info => record_entry path info | None => sret tt end) ;;;
          sret info
      end
  end.

(** Every child of a listing, recorded under its path. *)
Fixpoint record_children (dir : str) (children : Listing) : M (Recorder S) E unit :=
  match children with
  | [] => sret tt
  | (name, info) :: rest => record_entry (scan_join dir name) info ;;; record_children dir rest
  end.

Definition recorder_list (dir : str) : M (Recorder S) E (option Listing) :=
  match normalize_relative dir with
  | None => sret None
  | Some dir =>
      do r <- sget ;;
      match bget (listed r) dir with
      | Some listing => sret listing
      | None =>
          do info <- recorder_lookup dir ;;
          if is_none_or (fun i => negb (is_dir i)) info then
            record_listing dir None ;;; sret None
          else
            do listing <- on_source (src_list dir) ;;
            let listing :=
              (fun children => if sorted_children children then children else sort_children children)
                <$> listing in
            record_children dir (default [] listing) ;;;
            record_listing dir listing ;;;
            sret listing
      end
  end.

#[export] Instance recorder_source : ScanSource (Recorder S) E := {
  src_list := recorder_list;
  src_lookup := recorder_lookup;
  src_visit := on_source src_visit;
  src_charge bytes := on_source (src_charge bytes);
  src_match_capacity r := zlen (entries r) }.
End Recording.

Section Collect.
Context {S E : Type} `{!ScanSource S E} `{StateLayout} `{CharCase}.

(** [collect_scan] on a fresh recorder. *)
Definition collect_recorded (fuel : positive) (args : ScanArgs) :
    M (Recorder S) (stop E) (option ScanReply) :=
  do root <- raising (recorder_lookup []) ;;
  match root with
  | None => sret None
  | Some root =>
      do reply <-
        (if is_dir root then
           match sc_pattern args with
           | Some parts =>
               do found <- select fuel (selector_new parts (sc_case_sensitive args)
                                          (sc_recurse_symlinks args)) ;;
               sret (Matches <$> found)
           | None => walk_to_depth fuel (sc_max_depth args) (sc_follow_symlinks args) ;;; sret None
           end
         else sret None) ;;
      do r <- sget ;;
      sret (Some (default (Tree (List.map (fun e => {| se_path := e.1; se_info := e.2 |}) (entries r)))
                          reply))
  end.

Definition collect_scan (fuel : positive) (args : ScanArgs) : M S (stop E) (option ScanReply) :=
  fun s => let '(reply, r) := collect_recorded fuel args {| source := s; listed := []; entries := [] |} in
           (reply, source r).
End Collect.

(** ** The sandbox's index of a reply *)

Record ScanTree := { t_entries : btree EntryInfo }.

(** A later duplicate of a path replaces the earlier one. *)
Definition scan_tree_new (es : list ScanEntry) : ScanTree :=
  {| t_entries := fold_left (fun m e => binsert m (se_path e) (se_info e)) es [] |}.

Definition described_root (t : ScanTree) : option EntryInfo := bget (t_entries t) [].

Definition tree_root (t : ScanTree) : EntryInfo :=
  default {| is_dir := true; is_file := false; is_symlink := false |} (described_root t).

(** The children of a directory, sorted by name. The source builds all listings
    at once when the tree is indexed. *)
Definition tree_children (t : ScanTree) (dir : str) : Listing :=
  sort_children (omap (fun e =>
    if bool_decide (e.1 = []) then None
    else let '(parent, name) := default ([], e.1) (rsplit_once slash e.1) in
         if bool_decide (parent = dir) then Some (name, e.2) else None) (t_entries t)).

Definition tree_get (t : ScanTree) (path : str) : option EntryInfo :=
  if bool_decide (path = []) then Some (tree_root t) else bget (t_entries t) path.

#[export] Instance tree_source : ScanSource ScanTree Empty_set := {
  src_list dir t :=
    (Ok (normalize_relative dir ≫= fun dir =>
           if match tree_get t dir with Some i => is_dir i | None => false end
           then Some (tree_children t dir) else None), t);
  src_lookup path t := (Ok (normalize_relative path ≫= tree_get t), t);
  src_visit := sret tt;
  src_charge _ := sret tt;
  src_match_capacity _ := usize_max }.
