(* ===== verification/GlobProps.v ===== *)
(** Properties of directory scans: the normalization of relative paths, the
    encoding of replies, and that scans of a source with limits end. *)
From S2P Require Import Prelude Str BTreeMap FileMode VirtualPath FsTypes Host Common Fnmatch Glob.
Local Open Scope monty_scope.

(** ** Relative paths *)

Lemma normalize_loop_resolve segs : forall parts r,
  normalize_loop parts segs = Some r -> r = fold_left step_segment segs parts.
Proof.
  induction segs as [|seg segs IH]; intros parts r; cbn [normalize_loop fold_left];
    [by intros [= ->]|]. unfold step_segment.
  destruct (bool_decide (seg = []) || bool_decide (seg = dot)); [apply IH|].
  case_bool_decide; [|apply IH]. destruct parts; [done|]. apply IH.
Qed.

(** The loop fails exactly when some [..] finds the stack empty. *)
Lemma normalize_loop_None segs : forall parts,
  normalize_loop parts segs = None <->
  exists a b, segs = a ++ dotdot :: b /\ fold_left step_segment a parts = [].
Proof.
  induction segs as [|seg segs IH]; intros parts; cbn [normalize_loop].
  { split; [done|]. by intros ([|? ?] & b & ? & _). }
  assert (Hcons : forall parts',
    (forall b, ~ (seg = dotdot /\ parts = [] /\ segs = b)) -> step_segment parts seg = parts' ->
    (exists a b, segs = a ++ dotdot :: b /\ fold_left step_segment a parts' = []) <->
    exists a b, seg :: segs = a ++ dotdot :: b /\ fold_left step_segment a parts = []).
  { intros parts' Hno Hst. split.
    - intros (a & b & -> & Hf). exists (seg :: a), b. cbn. by rewrite Hst.
    - intros ([|x a] & b & Heq & Hf); cbn in Heq; injection Heq as -> ->.
      + cbn in Hf. subst parts. by destruct (Hno b).
      + exists a, b. cbn in Hf. by rewrite Hst in Hf. }
  unfold step_segment in Hcons.
  destruct (bool_decide (seg = []) || bool_decide (seg = dot)) eqn:Hd.
  - rewrite IH. apply Hcons; [|done]. intros b (-> & _). done.
  - case_bool_decide as Hdd.
    + destruct parts as [|x parts].
      * split; [|done]. intros _. subst seg. by exists [], segs.
      * rewrite IH. apply Hcons; [|done]. by intros b (_ & ? & _).
    + rewrite IH. apply Hcons; [|done]. by intros b (? & _).
Qed.

Lemma join_abspath l : l <> [] -> abspath l = slash :: Str.join slash l.
Proof. destruct l as [|x l]; [done|]. intros _. apply abspath_cons_join. Qed.

Lemma join_nil_iff l : Forall plain_segment l -> Str.join slash l = [] <-> l = [].
Proof.
  intros HF. destruct l as [|x l]; [done|]. split; [|done]. intros Hj. exfalso.
  inversion HF as [|? ? [Hx _] _]; subst. apply special_segment_false in Hx as (Hx & _ & _).
  destruct l as [|y l]; [done|]. rewrite join_cons in Hj by done. by destruct x.
Qed.

(** The result of a successful normalization is the resolved components, joined. *)
Lemma normalize_relative_Some path p :
  normalize_relative path = Some p -> p = Str.join slash (resolve_segments (split slash path)).
Proof.
  unfold normalize_relative. destruct (_ || _) eqn:Hb.
  - intros [= <-]. apply orb_true_iff in Hb as [Hb|Hb].
    + apply bool_decide_eq_true in Hb. by subst.
    + unfold resolve_segments. rewrite fold_step_plain; [cbn [app]; by rewrite join_split|].
      apply Forall_forall. intros seg Hin. rewrite forallb_forall in Hb.
      apply negb_true_iff, Hb. by apply list_elem_of_In.
  - destruct (normalize_loop [] (split slash path)) as [l|] eqn:Hl; [|done]. intros [= <-].
    by apply normalize_loop_resolve in Hl as ->.
Qed.

Lemma split_plain_join l : Forall plain_segment l -> l <> [] -> split slash (Str.join slash l) = l.
Proof.
  intros HF Hl. apply split_join; [done|]. eapply Forall_impl; [exact HF|]. by intros s [_ Hs].
Qed.

Lemma normalize_relative_plain l : Forall plain_segment l ->
  normalize_relative (Str.join slash l) = Some (Str.join slash l).
Proof.
  intros HF. unfold normalize_relative. destruct (decide (l = [])) as [->|Hl]; [done|].
  rewrite split_plain_join by done.
  assert (Hb : forallb (fun part => negb (is_special part)) l = true); [|by rewrite Hb, orb_true_r].
  apply forallb_forall. intros s Hs. rewrite <- list_elem_of_In in Hs.
  rewrite Forall_forall in HF. destruct (HF s Hs) as [Hsp _]. by apply negb_true_iff.
Qed.

(** normalizing a relative path agrees with normalizing the absolute path
    below the root: it gives the same components, none of them special, is
    stable under repetition, and fails exactly when some [..] climbs above the
    root. *)
Theorem normalize_relative_correct path :
  match normalize_relative path with
  | Some p => normalize_virtual_path (slash :: path) = slash :: p
              /\ normalize_relative p = Some p
              /\ (p = [] \/ Forall plain_segment (split slash p))
  | None => exists a b, split slash path = a ++ dotdot :: b /\ resolve_segments a = []
  end.
Proof.
  assert (Hplain : Forall plain_segment (resolve_segments (split slash path))).
  { apply resolve_segments_plain, split_no_sep. }
  destruct (normalize_relative path) as [p|] eqn:Hn.
  - apply normalize_relative_Some in Hn as ->. split; [|split].
    + rewrite normalize_virtual_path_render, split_slash_cons.
      change (resolve_segments ([] :: split slash path)) with (resolve_segments (split slash path)).
      destruct (resolve_segments (split slash path)) as [|x l]; [done|]. apply abspath_cons_join.
    + by apply normalize_relative_plain.
    + destruct (resolve_segments (split slash path)) as [|x l]; [by left|right].
      by rewrite split_plain_join.
  - unfold normalize_relative in Hn. destruct (_ || _); [done|].
    destruct (normalize_loop [] (split slash path)) eqn:Hl; [done|]. by apply normalize_loop_None.
Qed.

(** ** Replies *)

(** The paths of a reply: plain components, and for a match a trailing [/] below
    the root. *)
Definition reply_path (p : str) : Prop := exists l, Forall plain_segment l /\ p = Str.join slash l.

Definition match_path (p : str) : Prop :=
  exists l, Forall plain_segment l /\ (p = Str.join slash l \/ l <> [] /\ p = Str.join slash l ++ [slash]).

Definition reply_ok (reply : ScanReply) : Prop :=
  match reply with
  | Tree es => Forall (fun e => reply_path (se_path e)) es
  | Matches ms => Forall match_path ms
  end.

Lemma reply_match_path p : reply_path p -> match_path p.
Proof. intros (l & Hl & ->). exists l. by split; [|left]. Qed.

(** Components that are joined neither begin nor end with a separator. *)
Lemma join_no_slash l : Forall plain_segment l -> l <> [] ->
  starts_with [slash] (Str.join slash l) = false /\ ends_with_char slash (Str.join slash l) = false
  /\ Str.join slash l <> [].
Proof.
  intros HF Hl. split; [|split; [|by rewrite join_nil_iff]].
  - apply not_true_iff_false. rewrite starts_with_spec. intros [q Hq]. cbn in Hq.
    apply (f_equal (split slash)) in Hq. rewrite split_plain_join, split_slash_cons in Hq by done.
    subst l. inversion HF as [|? ? [Hs _] _]. by apply special_segment_false in Hs as [].
  - apply not_true_iff_false. unfold ends_with_char. intros He.
    destruct l as [|x l'] using rev_ind; [done|]. clear IHl'.
    apply Forall_app in HF as [_ HF]. inversion HF as [|? ? [Hx Hs] _]; subst.
    assert (Hlast : last (Str.join slash (l' ++ [x])) = last x).
    { destruct x as [|c x] using rev_ind; [by apply special_segment_false in Hx as []|].
      rewrite last_snoc. clear. induction l' as [|y l' IH]; [cbn; by rewrite last_snoc|].
      cbn [app]. rewrite join_cons by (by destruct l').
      rewrite last_app_cons, last_cons, IH. done. }
    rewrite Hlast in He. destruct (last x) as [c|] eqn:Hc; [|done].
    apply Ascii.eqb_eq in He as ->. apply Hs. by apply last_Some_elem_of.
Qed.

Lemma trim_end_id c s : ends_with_char c s = false -> trim_end_matches c s = s.
Proof.
  intros He. destruct (trim_end_matches_app c s) as [n Hn]. destruct n as [|n].
  - by rewrite app_nil_r in Hn.
  - exfalso. rewrite Hn, replicate_S_end, app_assoc in He. unfold ends_with_char in He.
    by rewrite last_snoc, Ascii.eqb_refl in He.
Qed.

Lemma trim_end_snoc c s : trim_end_matches c (s ++ [c]) = trim_end_matches c s.
Proof.
  induction s as [|x s IH]; cbn; [by rewrite Ascii.eqb_refl|]. by rewrite IH.
Qed.

Lemma trim_end_plain l : Forall plain_segment l -> trim_end_matches slash (Str.join slash l) = Str.join slash l.
Proof.
  intros HF. destruct (decide (l = [])) as [->|Hl]; [done|].
  destruct (join_no_slash l HF Hl) as (_ & He & _). by apply trim_end_id.
Qed.

Lemma reply_path_starts p : reply_path p -> starts_with [slash] p = false.
Proof.
  intros (l & HF & ->). destruct (decide (l = [])) as [->|Hl]; [done|]. by apply join_no_slash.
Qed.

Lemma match_path_trim p : match_path p -> reply_path (trim_end_matches slash p).
Proof.
  intros (l & HF & [->|[Hl ->]]); exists l; rewrite ?trim_end_snoc, trim_end_plain; done.
Qed.

Lemma collect_results_map {A B E} (f : A -> B) (g : B -> result A E) l :
  Forall (fun x => g (f x) = Ok x) l -> collect_results g (List.map f l) = Ok l.
Proof. induction 1 as [|x l Hx HF IH]; cbn; [done|]. by rewrite Hx, IH. Qed.

Lemma parse_entry_object e : reply_path (se_path e) -> parse_entry (entry_object e) = Ok e.
Proof.
  intros Hp. destruct e as [p [d f l]]. cbn in *. rewrite (reply_path_starts p Hp).
  destruct Hp as (ls & HF & ->). by rewrite normalize_relative_plain.
Qed.

Lemma parse_match_object p : match_path p -> parse_match (OString p) = Ok p.
Proof.
  intros Hm. unfold parse_match. cbn [path_text].
  assert (Hs : starts_with [slash] p = false).
  { destruct Hm as (l & HF & [->|[Hl ->]]); [by apply reply_path_starts; exists l|].
    destruct (join_no_slash l HF Hl) as (Hs & _ & Hne). revert Hs.
    destruct (Str.join slash l) as [|c q]; [done|]. unfold starts_with.
    cbn [strip_prefix app]. by destruct (Ascii.eqb slash c). }
  rewrite Hs. destruct Hm as (l & HF & [->|[Hl ->]]).
  - rewrite trim_end_plain by done. rewrite normalize_relative_plain by done. cbn [ok_or rbind].
    by rewrite Nat.ltb_irrefl.
  - rewrite trim_end_snoc, trim_end_plain by done. rewrite normalize_relative_plain by done.
    cbn [ok_or rbind]. rewrite length_app. cbn [length].
    rewrite (proj2 (Nat.ltb_lt _ _)) by lia.
    destruct (join_no_slash l HF Hl) as (_ & _ & Hne). by rewrite bool_decide_false.
Qed.

Lemma reply_roundtrip reply : reply_ok reply -> parse_scan_reply (into_object reply) = Ok reply.
Proof.
  destruct reply as [es|ms]; intros Hok;
    cbn [into_object scan_reply parse_scan_reply matches_list]; unfold scan_reply.
  - rewrite collect_results_map; [done|]. eapply Forall_impl; [exact Hok|]. intros e.
    apply parse_entry_object.
  - rewrite bool_decide_true by done. rewrite collect_results_map; [done|].
    eapply Forall_impl; [exact Hok|]. intros m. apply parse_match_object.
Qed.

(** ** Sources with limits *)

(** What a host's source promises: every visit and every charge uses up some of a
    finite allowance and, where [plain_names] holds, its listings name plain
    components. *)
Class SourceLaws (S E : Type) `{!ScanSource S E} := {
  plain_names : Prop;
  src_inv : S -> Prop;
  work : S -> Z;
  work_nonneg : forall s, (0 <= work s)%Z;
  list_law : forall dir s, src_inv s ->
    ensures (src_list dir) s (fun l s' => src_inv s' /\ (work s' <= work s)%Z
      /\ (plain_names -> Forall (fun c => plain_segment c.1) (default [] l))) (fun (_ : E) _ => True);
  lookup_law : forall path s, src_inv s ->
    ensures (src_lookup path) s (fun _ s' => src_inv s' /\ (work s' <= work s)%Z) (fun (_ : E) _ => True);
  visit_law : forall s, src_inv s ->
    ensures src_visit s (fun _ s' => src_inv s' /\ (work s' < work s)%Z) (fun (_ : E) _ => True);
  charge_law : forall b s, (0 < b)%Z -> src_inv s ->
    ensures (src_charge b) s (fun _ s' => src_inv s' /\ (work s' < work s)%Z) (fun (_ : E) _ => True) }.

(** The failures that are the source's own. *)
Definition raised {E} (e : stop E) : Prop := exists e', e = Raised e'.

Lemma ensures_raising {S E A} (m : M S E A) s Q R :
  ensures m s Q R -> ensures (raising m) s Q (fun e _ => raised e).
Proof. unfold ensures, raising. destruct (m s) as [[a|e] s']; [done|]. intros _. by exists e. Qed.

(** A loop whose turns preserve [P] and count [mu] down ends in [Q] when its
    bound exceeds the measure. *)
Lemma ensures_loop {S E A B} (P : A -> S -> Prop) (Q : B -> S -> Prop) (mu : A -> S -> Z)
    fuel (body : A -> M S (stop E) (A + B)) a s :
  (forall a s, P a s -> 0 <= mu a s)%Z ->
  (forall a s, P a s -> ensures (body a) s
     (fun r s' => match r with inl a' => P a' s' /\ (mu a' s' < mu a s)%Z | inr b => Q b s' end)
     (fun e _ => raised e)) ->
  P a s -> (mu a s < Zpos fuel)%Z -> ensures (loop fuel body a) s Q (fun e _ => raised e).
Proof.
  intros Hmu Hbody Ha Hf. unfold ensures, loop.
  set (f := fun st : A * S => match body st.1 st.2 with
    | (Ok (inl a), s) => inl (a, s) | (Ok (inr b), s) => inr (Ok b, s) | (Err e, s) => inr (Err e, s) end).
  assert (Hstep : forall st, P st.1 st.2 -> match f st with
    | inl st' => P st'.1 st'.2 /\ (mu st'.1 st'.2 < mu st.1 st.2)%Z
    | inr (Ok b, s') => Q b s' | inr (Err e, _) => raised e end).
  { intros [a1 s1] H1. specialize (Hbody a1 s1 H1). unfold ensures in Hbody. unfold f. cbn.
    destruct (body a1 s1) as [[[a2|b]|e] s2]; done. }
  destruct (iterate_ends f (fun st => P st.1 st.2) (fun st => mu st.1 st.2) fuel (a, s)) as [r Hr].
  - intros [a1 s1]. apply Hmu.
  - intros st Hst. specialize (Hstep st Hst). by destruct (f st).
  - done.
  - done.
  - pose proof (iterate_inv f (fun st => P st.1 st.2)
      (fun r => match r with (Ok b, s') => Q b s' | (Err e, _) => raised e end) fuel (a, s)) as Hinv.
    rewrite Hr in *. destruct r as [[b|e] s']; apply Hinv; try done;
      intros st Hst; specialize (Hstep st Hst); destruct (f st); naive_solver.
Qed.

(** ** The compiled pattern *)

Lemma run_length_le {A} (f : A -> bool) l : run_length f l <= length l.
Proof. induction l as [|x l IH]; cbn; [done|]. destruct (f x); cbn; lia. Qed.

(** Every step leads on, to a part of the pattern or to its end. *)
Lemma step_next_bounds parts index cs rs n :
  step_next (compile_step parts index cs rs) index = Some n -> index < n <= length parts.
Proof.
  unfold compile_step. destruct (parts !! index) as [part|] eqn:Hp; [|done].
  apply lookup_lt_Some in Hp.
  assert (Hrun : forall f, run_length f (drop (index + 1) parts) <= length parts - (index + 1)).
  { intros f. pose proof (run_length_le f (drop (index + 1) parts)) as Hle. by rewrite length_drop in Hle. }
  case_bool_decide.
  - cbn [step_next]. set (n1 := run_length _ (drop (index + 1) parts)).
    set (n2 := if rs then _ else _). intros [= <-].
    assert (n1 <= length parts - (index + 1)) by apply Hrun.
    assert (n2 <= length parts - (index + 1 + n1)); [|lia].
    unfold n2. destruct rs; [|lia]. rewrite <- (length_drop parts). apply run_length_le.
  - destruct (is_special part); [cbn; intros [= <-]; lia|].
    destruct (_ && _); cbn [step_next]; intros [= <-]; [|lia]. specialize (Hrun (fun p => negb (has_magic p))). lia.
Qed.

(** A part some state may be at. *)
Definition compiled (steps : list (option Step)) (i : nat) : Prop :=
  exists step, steps !! i = Some (Some step).

Definition steps_closed (steps : list (option Step)) (pending : option nat) : Prop :=
  forall i step n, steps !! i = Some (Some step) -> step_next step i = Some n ->
    pending = Some n \/ compiled steps n.

Lemma selector_new_closed parts cs rs :
  let steps := g_steps (selector_new parts cs rs) in compiled steps 0 /\ steps_closed steps None.
Proof.
  cbn. set (len := length parts).
  set (P := fun st : nat * list (option Step) =>
    length st.2 = len + 1 /\ st.1 <= len /\ (st.1 = 0 \/ compiled st.2 0) /\ steps_closed st.2 (Some st.1)).
  set (Q := fun steps => compiled steps 0 /\ steps_closed steps None).
  assert (Hstep : forall st, P st -> match compile_turn parts cs rs st with
    | inl st' => P st' /\ (Z.of_nat (len - st'.1) < Z.of_nat (len - st.1))%Z
    | inr steps => Q steps end).
  { intros [index steps] (Hlen & Hi & H0 & Hc). cbn in *. unfold compile_turn.
    set (step := compile_step parts index cs rs).
    assert (Hhit : compiled (<[index := Some step]> steps) index).
    { exists step. apply list_lookup_insert_eq. lia. }
    assert (Hkeep : forall n, compiled steps n -> compiled (<[index := Some step]> steps) n).
    { intros n [st' Hn]. destruct (decide (n = index)) as [->|]; [done|].
      exists st'. by rewrite list_lookup_insert_ne. }
    assert (Hclosed : steps_closed (<[index := Some step]> steps) (step_next step index)).
    { intros i st' n Hin Hnext. destruct (decide (i = index)) as [->|Hne].
      - rewrite list_lookup_insert_eq in Hin by lia. injection Hin as <-. by left.
      - rewrite list_lookup_insert_ne in Hin by done. right.
        destruct (Hc i st' n Hin Hnext) as [[= ->]|Hn]; [done|by apply Hkeep]. }
    assert (Hfirst : compiled (<[index := Some step]> steps) 0).
    { destruct H0 as [->|H0]; [done|by apply Hkeep]. }
    destruct (step_next step index) as [n|] eqn:Hn.
    - apply step_next_bounds in Hn. fold len in Hn. split; [|cbn; lia].
      split; [cbn; by rewrite length_insert|]. cbn. split; [lia|]. by split; [right|].
    - done. }
  destruct (iterate_ends (compile_turn parts cs rs) P (fun st => Z.of_nat (len - st.1))
    (Pos.of_succ_nat len) (0, replicate (len + 1) None)) as [steps Hs].
  - intros st _. lia.
  - intros st Hst. specialize (Hstep st Hst). by destruct (compile_turn parts cs rs st).
  - split; [cbn; by rewrite length_replicate|]. cbn. split; [lia|]. split; [by left|].
    intros i step n Hi. by apply lookup_replicate in Hi as [? _].
  - cbn. lia.
  - rewrite Hs. pose proof (iterate_inv (compile_turn parts cs rs) P Q (Pos.of_succ_nat len)
      (0, replicate (len + 1) None)) as Hinv. rewrite Hs in Hinv. apply Hinv.
    + intros st Hst. specialize (Hstep st Hst). destruct (compile_turn parts cs rs st); naive_solver.
    + split; [cbn; by rewrite length_replicate|]. cbn. split; [lia|]. split; [by left|].
      intros i step n Hi. by apply lookup_replicate in Hi as [? _].
Qed.

(** ** The paths of a selection *)

Lemma state_path_match path p : state_path path = Some p -> match_path p.
Proof.
  unfold state_path. destruct (normalize_relative (trim_end_matches slash path)) as [n|] eqn:Hn; [|done].
  cbn. intros [= <-]. apply normalize_relative_Some in Hn as ->.
  set (l := resolve_segments _). assert (HF : Forall plain_segment l).
  { apply resolve_segments_plain, split_no_sep. }
  exists l. split; [done|]. destruct (_ && negb _) eqn:Hb; [|by left]. right.
  apply andb_true_iff in Hb as [_ Hb]. apply negb_true_iff, bool_decide_eq_false in Hb.
  split; [|done]. intros ->. by apply Hb.
Qed.

Lemma join_snoc l x : Str.join slash (l ++ [x]) = if bool_decide (l = []) then x else Str.join slash l ++ slash :: x.
Proof.
  induction l as [|y l IH]; [done|]. cbn [app]. rewrite join_cons by (by destruct l).
  rewrite IH. destruct l as [|z l]; [done|]. rewrite !bool_decide_false by done.
  rewrite (join_cons _ y) by done. by rewrite <- app_assoc.
Qed.

Lemma scan_join_reply dir name :
  match_path dir -> plain_segment name -> reply_path (scan_join dir name).
Proof.
  intros (l & HF & Hdir) Hn. exists (l ++ [name]). split; [by apply Forall_app_2; [|constructor]|].
  rewrite join_snoc. unfold scan_join. destruct (decide (l = [])) as [->|Hl].
  - destruct Hdir as [->|[? _]]; done.
  - rewrite (bool_decide_false (l = [])) by done. destruct (join_no_slash l HF Hl) as (_ & He & Hne). destruct Hdir as [->|[_ ->]].
    + by rewrite bool_decide_false, He.
    + rewrite bool_decide_false by (by destruct (Str.join slash l)).
      unfold ends_with_char. rewrite last_snoc, Ascii.eqb_refl. cbn. by rewrite <- app_assoc.
Qed.

Lemma scan_join_dir dir name :
  match_path dir -> plain_segment name -> match_path (scan_join dir name ++ [slash]).
Proof.
  intros Hd Hn. destruct (scan_join_reply dir name Hd Hn) as (l & HF & Hl). exists l.
  split; [done|]. rewrite Hl. right. split; [|done]. intros ->. cbn in Hl.
  unfold scan_join in Hl. destruct Hn as [Hs _]. apply special_segment_false in Hs as (Hs & _ & _).
  destruct (_ || _); apply app_eq_nil in Hl as [_ Hl]; done.
Qed.

(** ** Selection ends *)

Section Bounded.
Context {S E : Type} `{!ScanSource S E} `{SL : !SourceLaws S E} `{StateLayout} `{CharCase}.

Abbreviation any_error := (fun (_ : E) (_ : S) => True).
Abbreviation plain := (plain_names (S := S) (E := E)).

(** Well-formed, if the source names plain components. *)
Definition ok_match (p : str) : Prop := plain -> match_path p.
Definition ok_children (l : Listing) : Prop := plain -> Forall (fun c => plain_segment c.1) l.

(** The states queued are at compiled parts, their paths and the matches are
    well-formed. *)
Definition run_ok (g : GlobSelector) (run : Run) : Prop :=
  Forall (fun st : State => compiled (g_steps g) st.1.1 /\ ok_match st.1.2) (stack run)
  /\ (forall o, out run = Some o -> Forall ok_match o).

(** The run is in order, and its queue and the source's allowance come to at
    most [c]. *)
Definition within (g : GlobSelector) (c : Z) (run : Run) (s : S) : Prop :=
  run_ok g run /\ src_inv s /\ (zlen (stack run) + work s <= c)%Z.

Lemma STATE_OVERHEAD_pos n : (0 <= n -> 0 < STATE_OVERHEAD + n)%Z.
Proof. unfold STATE_OVERHEAD. pose proof size_of_state_pos. lia. Qed.

Lemma run_push_within g c index path exists_ run s :
  compiled (g_steps g) index -> within g c run s ->
  ensures (run_push index path exists_ run) s (within g c) any_error.
Proof.
  intros Hi ((Hst & Hout) & Hs & Hw). unfold run_push.
  destruct (state_path path) as [p|] eqn:Hp; [|by apply ensures_ret].
  apply state_path_match in Hp. case_bool_decide; [by apply ensures_ret|].
  apply ensures_bind. eapply ensures_mono;
    [apply charge_law; [apply STATE_OVERHEAD_pos; auto with monty|done]| |done].
  intros _ s' [Hs' Hlt]. apply ensures_ret. split; [|split; [done|]].
  - split; [|done]. apply Forall_app_2; [done|]. repeat constructor; [done|]. by intros _.
  - cbn. rewrite zlen_snoc. lia.
Qed.

Lemma run_emit_within g c path run s :
  ok_match path -> within g c run s -> ensures (run_emit path run) s (within g c) any_error.
Proof.
  intros Hp ((Hst & Hout) & Hs & Hw). unfold ensures, run_emit.
  destruct (out run) as [o|] eqn:Ho.
  - split; [|split; [done|done]]. split; [done|]. cbn. destruct (_ <? _)%Z; [|done].
    intros o' [= <-]. apply Forall_app_2; [by apply Hout|by repeat constructor].
  - split; [|done]. split; [done|]. by rewrite Ho.
Qed.

Lemma ok_children_cons name info children :
  ok_children ((name, info) :: children) -> (plain -> plain_segment name) /\ ok_children children.
Proof. intros HF. split; intros Hp; by apply (Forall_cons_1 _ _ _ (HF Hp)). Qed.

Lemma scan_join_ok dir name :
  ok_match dir -> (plain -> plain_segment name) -> ok_match (scan_join dir name).
Proof. intros Hd Hn Hp. apply reply_match_path, scan_join_reply; auto. Qed.

Lemma scan_join_dir_ok dir name :
  ok_match dir -> (plain -> plain_segment name) -> ok_match (scan_join dir name ++ [slash]).
Proof. intros Hd Hn Hp. apply scan_join_dir; auto. Qed.

Lemma select_children_within g c matcher next dir_only path children : forall run s,
  compiled (g_steps g) next -> ok_match path -> ok_children children ->
  within g c run s ->
  ensures (select_children matcher next dir_only path children run) s (within g c) any_error.
Proof.
  induction children as [|[name info] children IH]; intros run s Hn Hp HF Hw; cbn [select_children].
  { by apply ensures_ret. }
  apply ok_children_cons in HF as [Hname HF']. destruct Hw as (Hrun & Hs & Hw).
  apply ensures_bind. eapply ensures_mono; [by apply visit_law| |done]. intros _ s1 [Hs1 Hlt].
  assert (Hw1 : within g c run s1) by (split; [done|]; split; [done|lia]).
  apply ensures_bind. apply (ensures_mono _ _ (within g c) _ any_error);
    [|intros run' s' Hw'; by apply IH|done].
  destruct (is_none_or _ matcher); [|by apply ensures_ret].
  destruct (negb dir_only).
  - apply run_emit_within; [|done]. by apply scan_join_ok.
  - destruct (is_dir info); [by apply run_push_within|by apply ensures_ret].
Qed.

(** The same with the directories a [**] step has still to list. *)
Definition within_dirs (g : GlobSelector) (c : Z) (st : list str * Run) (s : S) : Prop :=
  Forall ok_match st.1 /\ within g (c - zlen st.1) st.2 s.

Lemma select_descendants_within g c matcher next match_pos dir_only dir children : forall st s,
  compiled (g_steps g) next -> ok_match dir -> ok_children children ->
  within_dirs g c st s ->
  ensures (select_descendants g matcher next match_pos dir_only dir children st) s (within_dirs g c) any_error.
Proof.
  induction children as [|[name info] children IH]; intros [dirs run] s Hn Hd HF Hw;
    cbn [select_descendants]; [by apply ensures_ret|].
  apply ok_children_cons in HF as [Hname HF']. destruct Hw as (Hdirs & Hrun & Hs & Hw).
  cbn [fst snd] in *.
  apply ensures_bind. eapply ensures_mono; [by apply visit_law| |done]. intros _ s1 [Hs1 Hlt].
  assert (Hw1 : within g (c - 1 - zlen dirs) run s1) by (split; [done|]; split; [done|lia]).
  assert (Hkeep : within_dirs g c (dirs, run) s1).
  { split; [done|]. destruct Hw1 as (? & ? & ?). split; [done|]. split; [done|]. cbn. lia. }
  apply ensures_bind. apply (ensures_mono _ _ (within_dirs g c) _ any_error);
    [|intros st' s' Hw'; by apply IH|done].
  set (isd := _ && _). set (ent := if dir_only then scan_join dir name ++ [slash] else scan_join dir name).
  assert (Hent : ok_match ent).
  { unfold ent. destruct dir_only; [by apply scan_join_dir_ok|]. by apply scan_join_ok. }
  destruct (isd || negb dir_only); [|by apply ensures_ret]. destruct isd.
  - apply ensures_bind. apply (ensures_mono _ _ (within g (c - 1 - zlen dirs)) _ any_error); [| |done].
    + destruct (is_none_or _ matcher); [|by apply ensures_ret].
      destruct dir_only; [by apply run_push_within|by apply run_emit_within].
    + intros run' s' (Hr' & Hs' & Hw'). apply ensures_ret. split; [cbn; apply Forall_app_2; [done|by constructor]|].
      split; [done|]. split; [done|]. cbn. rewrite zlen_snoc. lia.
  - destruct (is_none_or _ matcher); [|by apply ensures_ret].
    apply ensures_bind. eapply ensures_mono; [by apply run_emit_within; [|apply Hkeep]| |done].
    intros run' s' Hw'. apply ensures_ret. by split.
Qed.

Lemma zlen_last_removelast {A} (l : list A) x : last l = Some x -> zlen l = (zlen (removelast l) + 1)%Z.
Proof.
  destruct l as [|y l] using rev_ind; [done|]. intros _. rewrite removelast_app by done. cbn.
  rewrite app_nil_r, zlen_app. done.
Qed.

Lemma Forall_last {A} (P : A -> Prop) l x : last l = Some x -> Forall P l -> P x.
Proof. intros Hl HF. rewrite Forall_forall in HF. by apply HF, last_Some_elem_of. Qed.

Lemma select_recursive_within fuel g c matcher next path exists_ run s :
  compiled (g_steps g) next -> ok_match path -> within g c run s -> (c + 1 < Zpos fuel)%Z ->
  ensures (select_recursive fuel g matcher next path exists_ run) s (within g c) (fun e _ => raised e).
Proof.
  intros Hn Hp Hw Hf. unfold select_recursive. apply ensures_bind.
  apply (ensures_mono _ _ (within g c) _ (fun e _ => raised e)); [| |done].
  { destruct (is_none_or _ matcher); [|by apply ensures_ret]. apply (ensures_raising _ _ _ any_error).
    by apply run_push_within. }
  clear run s Hw. intros run s Hw.
  apply (ensures_loop
    (fun st s => within_dirs g (c + 1) st s /\ (st.1 <> [] \/ within_dirs g c st s))
    (within g c) (fun st s => zlen st.1 + zlen (stack st.2) + work s)%Z).
  - intros [dirs run'] s' _. cbn. pose proof (zlen_nonneg dirs). pose proof (zlen_nonneg (stack run')).
    pose proof (work_nonneg s'). lia.
  - clear run s Hw. intros [dirs run] s [[Hdirs Hw] Hor]. cbn [fst snd] in *.
    destruct (last dirs) as [dir|] eqn:Hl.
    + apply (ensures_raising _ _ _ any_error), ensures_bind. destruct Hw as (Hrun & Hs & Hw).
      eapply ensures_mono; [by apply list_law| |done]. intros l s1 (Hs1 & Hle & HF).
      apply ensures_bind. apply zlen_last_removelast in Hl as Hz.
      assert (Hw1 : within_dirs g (zlen dirs + zlen (stack run) + work s - 1) (removelast dirs, run) s1).
      { split; [by apply removelast_Forall|]. split; [done|]. split; [done|]. cbn. lia. }
      eapply ensures_mono; [by apply select_descendants_within; [|eapply Forall_last| |]| |done].
      intros [dirs' run'] s2 (Hd2 & Hr2 & Hs2 & Hw2). apply ensures_ret. cbn [fst snd] in *.
      split; [|lia]. assert (Hc : within_dirs g c (dirs', run') s2).
      { split; [done|]. split; [done|]. split; [done|]. cbn [fst snd]. lia. }
      split; [|by right]. split; [done|]. split; [done|]. split; [done|]. cbn [fst snd]. lia.
    + apply ensures_ret. apply last_None in Hl as ->. destruct Hor as [?|[_ Hx]]; [done|].
      cbn in Hx. by rewrite Z.sub_0_r in Hx.
  - destruct Hw as (Hrun & Hs & Hw). split; [|by left]. split; [by repeat constructor|].
    split; [done|]. split; [done|]. cbn. unfold zlen at 2. cbn. lia.
  - destruct Hw as (Hrun & Hs & Hw). cbn. unfold zlen at 1. cbn. lia.
Qed.

Lemma lexists_within g c path run s :
  within g c run s -> ensures (lexists path) s (fun _ s' => within g c run s') any_error.
Proof.
  intros (Hr & Hs & Hw). unfold lexists. apply ensures_bind.
  eapply ensures_mono; [by apply lookup_law| |done]. intros i s' [Hs' Hle]. apply ensures_ret.
  split; [done|]. split; [done|lia].
Qed.

(** What a pattern's selector guarantees. *)
Definition selector_ok (g : GlobSelector) : Prop :=
  compiled (g_steps g) 0 /\ steps_closed (g_steps g) None.

Lemma run_step_within fuel g c state run s :
  selector_ok g -> compiled (g_steps g) state.1.1 -> ok_match state.1.2 -> within g c run s ->
  (c + 1 < Zpos fuel)%Z -> ensures (run_step fuel g state run) s (within g c) (fun e _ => raised e).
Proof.
  destruct state as [[index path] exists_]. intros [_ Hclosed] [step Hstep] Hp Hw Hf. cbn in Hp, Hstep.
  unfold run_step. rewrite Hstep. cbn [mbind option_bind].
  assert (Hnext : forall n, step_next step index = Some n -> compiled (g_steps g) n).
  { intros n Hn. by destruct (Hclosed index step n Hstep Hn). }
  destruct step as [| |joined next|matcher next|matcher next]; cbn in Hnext.
  - apply (ensures_raising _ _ _ any_error), ensures_bind.
    apply (ensures_mono _ _ (fun _ s' => within g c run s') _ any_error); [| |done].
    { destruct exists_; [by apply ensures_ret|]. by apply lexists_within. }
    intros [] s' Hw'; [by apply run_emit_within|by apply ensures_ret].
  - apply (ensures_raising _ _ _ any_error). apply run_push_within; [by apply Hnext|done].
  - apply (ensures_raising _ _ _ any_error). apply run_push_within; [by apply Hnext|done].
  - apply (ensures_raising _ _ _ any_error), ensures_bind. destruct Hw as (Hr & Hs & Hw).
    eapply ensures_mono; [by apply list_law| |done]. intros l s1 (Hs1 & Hle & HF).
    apply select_children_within; [by apply Hnext|done|done|]. split; [done|]. split; [done|lia].
  - apply select_recursive_within; [by apply Hnext|done|done|done].
Qed.

Lemma select_ends fuel g s :
  selector_ok g -> src_inv s -> (work s + 1 < Zpos fuel)%Z ->
  ensures (select fuel g) s (fun o s' => src_inv s' /\ forall ms, o = Some ms -> Forall ok_match ms)
    (fun e _ => raised e).
Proof.
  intros Hg Hs Hf. unfold select, run_loop. apply ensures_bind, ensures_bind.
  set (run0 := {| stack := []; seen := []; out := Some [] |}).
  assert (Hw0 : within g (work s) run0 s).
  { split; [split; [constructor|by intros o [= <-]]|]. split; [done|]. unfold zlen; cbn; lia. }
  eapply ensures_mono; [apply (ensures_raising _ _ _ any_error), run_push_within; [apply Hg|exact Hw0]| |done].
  intros run1 s1 H1.
  apply (ensures_mono _ _ (fun run s' => run_ok g run /\ src_inv s') _ (fun e _ => raised e)); [| |done].
  - apply (ensures_loop (fun run s' => within g (work s) run s') _
      (fun run s' => zlen (stack run) + work s')%Z); [| |done|].
    + intros run s' _. pose proof (zlen_nonneg (stack run)). pose proof (work_nonneg s'). lia.
    + clear run1 s1 H1. intros run s1 (Hrun & Hs1 & Hw). destruct (last (stack run)) as [state|] eqn:Hl.
      * apply ensures_bind. apply zlen_last_removelast in Hl as Hz.
        destruct (Forall_last _ _ _ Hl (proj1 Hrun)) as [Hci Hmp].
        eapply ensures_mono;
          [apply (run_step_within fuel g (zlen (stack run) + work s1 - 1) state); [done|done|done| |lia]| |done].
        -- split; [|split; [done|cbn; lia]]. destruct Hrun as [HF Ho]. split; [|done].
           by apply removelast_Forall.
        -- intros run' s' (Hr' & Hs' & Hw'). apply ensures_ret. split; [|lia].
           split; [done|]. split; [done|lia].
      * apply ensures_ret. by split.
    + destruct H1 as (_ & _ & Hw1). lia.
  - intros run s' [[_ Ho] Hs']. apply ensures_ret. by split.
Qed.
(** ** Plain walks end *)

Lemma walk_children_ends follow dir depth children : forall stack s,
  src_inv s ->
  ensures (walk_children follow dir depth children stack) s
    (fun stack' s' => src_inv s' /\ (zlen stack' + work s' <= zlen stack + work s)%Z) any_error.
Proof.
  induction children as [|[name info] children IH]; intros stack s Hs; cbn [walk_children].
  { apply ensures_ret. split; [done|lia]. }
  apply ensures_bind. eapply ensures_mono; [by apply visit_law| |done]. intros _ s1 [Hs1 Hlt].
  eapply ensures_mono; [by apply IH| |done]. intros stack' s2 [Hs2 Hle]. split; [done|].
  destruct (_ && _); [rewrite zlen_snoc in Hle|]; lia.
Qed.

Lemma walk_to_depth_ends fuel max_depth follow s :
  src_inv s -> (work s + 1 < Zpos fuel)%Z ->
  ensures (walk_to_depth fuel max_depth follow) s (fun _ s' => src_inv s') (fun e _ => raised e).
Proof.
  intros Hs Hf. apply (ensures_loop (fun _ s => src_inv s) _
    (fun stack s => zlen stack + work s)%Z); [| |done|].
  - intros stack s' _. pose proof (zlen_nonneg stack). pose proof (work_nonneg s'). lia.
  - clear s Hs Hf. intros stack s Hs. destruct (last stack) as [[dir depth]|] eqn:Hl; [|by apply ensures_ret].
    apply zlen_last_removelast in Hl as Hz.
    destruct (match max_depth with Some max => _ | None => _ end).
    { apply ensures_ret. split; [done|lia]. }
    apply (ensures_raising _ _ _ any_error), ensures_bind.
    eapply ensures_mono; [by apply list_law| |done]. intros l s1 (Hs1 & Hle & _). apply ensures_bind.
    eapply ensures_mono; [by apply walk_children_ends| |done]. intros stack' s2 [Hs2 Hle2].
    apply ensures_ret. split; [done|lia].
  - unfold zlen. cbn. lia.
Qed.

(** ** The recorder keeps the source's promises *)


Lemma Forall_binsert {V} (P : str * V -> Prop) m k v :
  Forall P m -> P (k, v) -> Forall P (binsert m k v).
Proof.
  intros HF Hkv. induction HF as [|[j w] m Hj HF IH]; cbn; [by constructor|].
  case_bool_decide; [by constructor|].
  destruct (str_ltb k j); [by constructor; [|constructor]|by constructor].
Qed.

Lemma insert_child_plain c l :
  plain_segment c.1 -> Forall (fun c => plain_segment c.1) l ->
  Forall (fun c => plain_segment c.1) (insert_child c l).
Proof.
  intros Hc HF. induction HF as [|d l Hd HF IH]; cbn; [by constructor|].
  destruct (str_ltb _ _); [by constructor|by constructor; [|constructor]].
Qed.

Lemma sort_children_plain l : ok_children l -> ok_children (sort_children l).
Proof.
  intros Hl Hp. specialize (Hl Hp). unfold sort_children. induction Hl as [|c l Hc HF IH]; [constructor|]. cbn. by apply insert_child_plain.
Qed.

Definition recorder_inv (r : Recorder S) : Prop :=
  src_inv (source r) /\ Forall (fun e => plain -> reply_path e.1) (entries r)
  /\ Forall (fun e => ok_children (default [] e.2)) (listed r).

Abbreviation any_failure := (fun (_ : E) (_ : Recorder S) => True).

(** An operation of the source leaves the records alone. *)
Lemma on_source_ensures {A} (m : M S E A) (r : Recorder S) (Q : A -> S -> Prop) :
  ensures m (source r) Q any_error ->
  ensures (on_source m) r (fun a r' => Q a (source r') /\ entries r' = entries r /\ listed r' = listed r)
    any_failure.
Proof. unfold ensures, on_source. destruct (m (source r)) as [[a|e] s]; done. Qed.

Lemma recorder_lookup_law path r :
  recorder_inv r ->
  ensures (recorder_lookup path) r
    (fun _ r' => recorder_inv r' /\ (work (source r') <= work (source r))%Z) any_failure.
Proof.
  intros (Hs & He & Hl). unfold recorder_lookup.
  destruct (normalize_relative path) as [p|] eqn:Hp; [|by apply ensures_ret; split; [split|]].
  apply ensures_bind, ensures_get. destruct (bget (entries r) p); [by apply ensures_ret; split; [split|]|].
  apply ensures_bind. eapply ensures_mono; [apply on_source_ensures, lookup_law, Hs| |done].
  intros o r1 ([Hs1 Hle] & He1 & Hl1). apply ensures_bind.
  assert (Hinv1 : recorder_inv r1) by (split; [done|]; by rewrite He1, Hl1).
  destruct o as [i|]; [|by apply ensures_ret, ensures_ret].
  apply ensures_modify, ensures_ret. split; [|done]. split; [done|]. cbn. rewrite He1, Hl1. split; [|done].
  apply Forall_binsert; [done|]. intros _. exists (resolve_segments (split slash path)).
  split; [apply resolve_segments_plain, split_no_sep|by apply normalize_relative_Some].
Qed.

Lemma record_children_ensures dir children : forall r,
  ok_match dir -> ok_children children -> recorder_inv r ->
  ensures (record_children dir children) r
    (fun _ r' => recorder_inv r' /\ source r' = source r) any_failure.
Proof.
  induction children as [|[name i] children IH]; intros r Hd HF Hr; cbn [record_children].
  { by apply ensures_ret. }
  apply ok_children_cons in HF as [Hn HF']. apply ensures_bind, ensures_modify.
  apply (IH {| source := source r; listed := listed r; entries := binsert (entries r) (scan_join dir name) i |});
    [done|done|].
  destruct Hr as (Hs & He & Hl). split; [done|]. split; [|done]. cbn.
  apply Forall_binsert; [done|]. intros Hp. apply scan_join_reply; auto.
Qed.

Lemma recorder_list_law dir r :
  recorder_inv r ->
  ensures (recorder_list dir) r
    (fun l r' => recorder_inv r' /\ (work (source r') <= work (source r))%Z /\ ok_children (default [] l))
    any_failure.
Proof.
  intros Hr. unfold recorder_list.
  destruct (normalize_relative dir) as [d|] eqn:Hd; [|by apply ensures_ret; split; [|split; [|by intros _]]].
  assert (Hdp : ok_match d).
  { intros _. apply reply_match_path. exists (resolve_segments (split slash dir)).
    split; [apply resolve_segments_plain, split_no_sep|by apply normalize_relative_Some]. }
  apply ensures_bind, ensures_get. destruct (bget (listed r) d) as [l|] eqn:Hb.
  { apply ensures_ret. split; [done|]. split; [done|]. destruct Hr as (_ & _ & Hl).
    apply bget_elem_of in Hb. rewrite Forall_forall in Hl. exact (Hl _ Hb). }
  apply ensures_bind. eapply ensures_mono; [by apply recorder_lookup_law| |done].
  intros o r1 [Hr1 Hle1]. destruct (is_none_or _ o).
  { apply ensures_bind, ensures_modify, ensures_ret. split; [|split; [done|by intros _]].
    destruct Hr1 as (Hs & He & Hl). split; [done|]. split; [done|]. cbn.
    apply Forall_binsert; [done|by intros _]. }
  apply ensures_bind. eapply ensures_mono; [apply on_source_ensures, list_law, Hr1| |done].
  intros l r2 ((Hs2 & Hle2 & HF) & He2 & Hl2).
  set (l' := _ <$> l). assert (HF' : ok_children (default [] l')).
  { destruct l as [ch|]; [|by intros _]. cbn. destruct (sorted_children ch); [done|].
    by apply sort_children_plain. }
  assert (Hr2 : recorder_inv r2) by (split; [done|]; rewrite He2, Hl2; apply Hr1).
  apply ensures_bind. eapply ensures_mono; [by apply record_children_ensures| |done].
  intros _ r3 [Hr3 Hs3]. apply ensures_bind, ensures_modify, ensures_ret.
  destruct Hr3 as (Hs & He & Hl). split; [|split; [cbn; rewrite Hs3; lia|done]].
  split; [done|]. split; [done|]. cbn. by apply Forall_binsert.
Qed.

Lemma recorder_visit_law r :
  recorder_inv r ->
  ensures src_visit r (fun _ r' => recorder_inv r' /\ (work (source r') < work (source r))%Z) any_failure.
Proof.
  intros Hr. eapply ensures_mono; [apply on_source_ensures, visit_law, Hr| |done].
  intros _ r1 ([Hs Hlt] & He & Hl). split; [|done]. split; [done|]. rewrite He, Hl. apply Hr.
Qed.

Lemma recorder_charge_law b r :
  (0 < b)%Z -> recorder_inv r ->
  ensures (src_charge b) r (fun _ r' => recorder_inv r' /\ (work (source r') < work (source r))%Z) any_failure.
Proof.
  intros Hb Hr. eapply ensures_mono; [apply on_source_ensures, charge_law; [done|apply Hr]| |done].
  intros _ r1 ([Hs Hlt] & He & Hl). split; [|done]. split; [done|]. rewrite He, Hl. apply Hr.
Qed.
End Bounded.

#[export] Instance recorder_laws {S E} `{SourceLaws S E} : SourceLaws (Recorder S) E := {
  plain_names := plain_names (S := S);
  src_inv := recorder_inv;
  work r := work (source r);
  work_nonneg r := work_nonneg (source r);
  list_law := recorder_list_law;
  lookup_law := recorder_lookup_law;
  visit_law := recorder_visit_law;
  charge_law := recorder_charge_law }.

Section Collect.
Context {S E : Type} `{!ScanSource S E} `{SL : !SourceLaws S E} `{StateLayout} `{CharCase}.

Lemma collect_recorded_ends fuel args r :
  recorder_inv r -> (work (source r) + 1 < Zpos fuel)%Z ->
  ensures (collect_recorded fuel args) r
    (fun reply r' => src_inv (source r')
       /\ forall v, reply = Some v -> plain_names (S := S) -> reply_ok v) (fun e _ => raised e).
Proof.
  intros Hr Hf. unfold collect_recorded. apply ensures_bind.
  eapply ensures_mono; [eapply ensures_raising; by apply recorder_lookup_law| |done].
  intros [root|] r1 [Hr1 Hle]; [|by apply ensures_ret; split; [apply Hr1|]].
  apply ensures_bind.
  apply (ensures_mono _ _ (fun reply r' => recorder_inv r'
    /\ forall v, reply = Some v -> plain_names (S := S) -> reply_ok v) _
    (fun e _ => raised e)); [| |done].
  - assert (Hf1 : (work r1 + 1 < Zpos fuel)%Z) by (cbn; lia).
    destruct (is_dir root); [|by apply ensures_ret]. destruct (sc_pattern args) as [parts|].
    + apply ensures_bind. eapply ensures_mono; [apply select_ends; [apply selector_new_closed|done|done]| |done].
      intros o r2 [Hr2 Ho]. apply ensures_ret. split; [done|]. destruct o as [ms|]; [|done].
      intros v [= <-] Hp. eapply Forall_impl; [by apply Ho|]. by intros m Hm; apply Hm.
    + apply ensures_bind. eapply ensures_mono; [by apply walk_to_depth_ends| |done].
      intros u r2 Hr2. apply ensures_ret. by split.
  - intros reply r2 [Hr2 Hv]. apply ensures_bind, ensures_get, ensures_ret. split; [apply Hr2|].
    intros v [= <-] Hp. destruct reply as [v|]; [by apply Hv|]. cbn.
    pose proof (proj1 (proj2 Hr2)) as He. apply Forall_fmap.
    eapply Forall_impl; [exact He|]. by intros e Hx; apply Hx.
Qed.

(** A scan of a source with a finite allowance ends, whatever the pattern: with a
    bound above the allowance it never runs out of turns and never reaches a part
    that was not compiled. If the source names plain components, the reply is
    well-formed and decodes to itself. *)
Lemma collect_scan_ensures fuel args s :
  src_inv s -> (work s + 1 < Zpos fuel)%Z ->
  ensures (collect_scan fuel args) s
    (fun reply s' => src_inv s' /\ forall v, reply = Some v -> plain_names (S := S) ->
       reply_ok v /\ parse_scan_reply (into_object v) = Ok v) (fun e _ => raised e).
Proof.
  intros Hs Hf. unfold ensures, collect_scan. set (r := {| source := s; listed := []; entries := [] |}).
  assert (Hr : recorder_inv r) by (by repeat split; try constructor).
  pose proof (collect_recorded_ends fuel args r Hr Hf) as Hc. unfold ensures in Hc.
  destruct (collect_recorded fuel args r) as [[reply|e] r']; [|done]. destruct Hc as [Hs' Hv].
  split; [done|]. intros v -> Hp. split; [by apply Hv|]. by apply reply_roundtrip, Hv.
Qed.

End Collect.
