(* ===== verification/OverlayKeys.v ===== *)
(** The keys of an overlay are normalized relative paths, whatever requests it
    serves: what the listings of [iterdir] and of scans rely on to report plain
    names. So are the host paths of the files that were moved into it, and reading
    the host never goes through a symbolic link. *)
From S2P Require Import Prelude Str BTreeMap FileMode VirtualPath FsTypes PathSecurity Host Common OverlayState Overlay OverlayOps TreeHost OverlayInv OverlayStep OverlayProps OverlayTree OverlayHost Fnmatch Glob GlobProps.
Local Open Scope Z_scope.
Local Open Scope monty_scope.

(** ** Normalized relative paths *)

Lemma reply_path_components rel : Forall plain_segment (components rel) -> reply_path rel.
Proof.
  intros HF. exists (components rel). split; [done|]. destruct rel; [done|]. symmetry. apply join_split.
Qed.

Lemma components_reply_path rel : reply_path rel -> Forall plain_segment (components rel).
Proof.
  intros (l & HF & ->). destruct (decide (l = [])) as [->|Hl]; [constructor|].
  destruct (join_no_slash l HF Hl) as (_ & _ & Hne). destruct (Str.join slash l) as [|c s] eqn:E; [done|].
  cbn [components]. rewrite <- E, split_plain_join; done.
Qed.

Lemma components_split rel : rel <> [] -> components rel = split slash rel.
Proof. by destruct rel. Qed.

(** Two non-empty paths join, and a join comes apart at any separator. *)
Lemma reply_path_app a x :
  a <> [] -> x <> [] -> reply_path (a ++ slash :: x) <-> reply_path a /\ reply_path x.
Proof.
  intros Ha Hx.
  assert (Heq : components (a ++ slash :: x) = components a ++ components x).
  { rewrite !components_split by (done || by destruct a). apply split_app_slash. }
  split.
  - intros Hr%components_reply_path. rewrite Heq in Hr. apply Forall_app in Hr as [H1 H2].
    split; by apply reply_path_components.
  - intros [H1%components_reply_path H2%components_reply_path]. apply reply_path_components.
    rewrite Heq. by apply Forall_app.
Qed.

(** The parts of a path around a separator are not empty. *)
Lemma reply_path_parts a x : reply_path (a ++ slash :: x) -> a <> [] /\ x <> [].
Proof.
  intros Hr%components_reply_path. rewrite components_split, split_app_slash in Hr by (by destruct a).
  apply Forall_app in Hr as [H1 H2].
  assert (Hempty : ~ Forall plain_segment (split slash [])).
  { intros HF. inversion HF as [|? ? [Hs _] _]. by apply special_segment_false in Hs as []. }
  split; intros ->; done.
Qed.

Lemma reply_path_plain s : plain_segment s -> reply_path s.
Proof. intros Hs. exists [s]. split; [by constructor; [|constructor]|done]. Qed.

Lemma plain_not_nil s : plain_segment s -> s <> [].
Proof. intros [Hs _] ->. by apply special_segment_false in Hs as []. Qed.

Section Keys.
Context `{HostLaws} `{OverlayLayout}.

(** Every entry is recorded under a normalized path. *)
Definition keys_plain (st : OverlayState) : Prop := forall k e, get st k = Some e -> reply_path k.

Lemma keys_plain_insert k e st : reply_path k -> keys_plain st -> keys_plain (insert_unchecked k e st).
Proof.
  intros Hk Hst j e'. rewrite get_insert_unchecked. case_bool_decide; [by subst|apply Hst].
Qed.

Lemma keys_plain_insert_all rs st :
  Forall (fun r => reply_path r.1) rs -> keys_plain st -> keys_plain (insert_all rs st).
Proof.
  unfold insert_all. intros HF. revert st. induction HF as [|r rs Hr HF IH]; intros st Hst; [done|].
  cbn. by apply IH, keys_plain_insert.
Qed.

Lemma relative_path_plain p ctx rel :
  is_normalized (mount_virtual ctx) = true -> relative_path p ctx = Ok rel -> reply_path rel.
Proof.
  intros Hm Hr%relative_path_resolve. apply resolve_virtual_path_Ok in Hr as [Hs _]; [|done].
  by apply reply_path_components, Hs.
Qed.

(** ** The directories [mkdir] creates *)

Lemma push_component_plain current c :
  reply_path current -> plain_segment c -> reply_path (push_component current c).
Proof.
  intros Hcur Hc. destruct current as [|x current]; [by apply reply_path_plain|].
  apply reply_path_app; [done|by apply plain_not_nil|]. split; [done|by apply reply_path_plain].
Qed.

Lemma dirs_to_create_plain st ctx : forall comps w current dirs,
  reply_path current -> Forall plain_segment comps ->
  dirs_to_create_loop st ctx w current comps = Ok dirs -> Forall reply_path dirs.
Proof.
  induction comps as [|c comps IH]; intros w current dirs Hcur HF; cbn; [by intros [= <-]|].
  inversion HF as [|? ? Hc HF']; subst. set (cur := push_component current c).
  assert (Hp : reply_path cur) by by apply push_component_plain.
  destruct (step w c _) as [[real w']|]; cbn; [|done].
  assert (Hrec : forall l, (let? more := dirs_to_create_loop st ctx w' cur comps in Ok (cur :: more)) = Ok l ->
    Forall reply_path l).
  { intros l Hl. destruct (dirs_to_create_loop st ctx w' cur comps) eqn:E; [|done].
    injection Hl as <-. constructor; [done|by eapply IH]. }
  destruct (get st cur) as [[]|]; try done; [by apply IH|apply Hrec|].
  destruct real; try done; [by apply IH|apply Hrec].
Qed.

Lemma overlay_dirs_to_create_plain st rel ctx dirs :
  reply_path rel -> overlay_dirs_to_create st rel ctx = Ok dirs -> Forall reply_path dirs.
Proof.
  intros Hr%components_reply_path. unfold overlay_dirs_to_create. destruct rel as [|c rel].
  - change (split slash []) with [@nil ascii]. cbn [dirs_to_create_loop push_component].
    destruct (step _ _ _) as [[real w]|]; cbn [rbind]; [|done].
    assert (Hn : Forall reply_path [[]]) by (constructor; [by exists []|constructor]).
    destruct (get st []) as [[]|]; try done; [by intros [= <-]..|].
    destruct real; try done; by intros [= <-].
  - apply dirs_to_create_plain; [by exists []|done].
Qed.

(** ** The entries [rename] records *)

(** The prefix of a directory that is listed. *)
Definition dir_prefix (pre : str) : Prop := exists x, x <> [] /\ reply_path x /\ pre = x ++ [slash].

Lemma dir_prefix_name pre name : dir_prefix pre -> plain_segment name -> reply_path (pre ++ name).
Proof.
  intros (x & Hx & Hr & ->) Hn. rewrite <- app_assoc. apply reply_path_app; [done|by apply plain_not_nil|].
  split; [done|by apply reply_path_plain].
Qed.

Definition collect_plain (c : Collect) : Prop :=
  Forall (fun r => reply_path r.1) (c_result c) /\ Forall (fun d => dir_prefix d.2) (c_dirs c).

Lemma collect_entry_plain ctx cur pre st handled vpath budget c e c' :
  collect_plain c -> dir_prefix pre -> (forall x, e = Ok x -> plain_segment (file_name x)) ->
  collect_entry ctx cur pre st handled vpath budget c e = Ok c' -> collect_plain c'.
Proof.
  intros [Hr Hd] Hp Hn. unfold collect_entry. intros Hc. destruct e as [e|]; [|done]. cbn [map_err rbind] in Hc.
  specialize (Hn e eq_refl). destruct (to_str (file_name e)) as [name|] eqn:Ht; [|done].
  apply to_string_lossy_valid in Ht as [_ ->].
  destruct (_ || _); [by injection Hc as <-|].
  assert (Hb : reply_path (pre ++ file_name e)) by by apply dir_prefix_name.
  apply rbind_Ok in Hc as (k & _ & Hc). destruct (kind_is KSymlink k); [done|].
  destruct (kind_is KFile k).
  { destruct (from_relative _ _); [|by injection Hc as <-].
    apply rbind_Ok in Hc as (u & _ & [= <-]). split; cbn; [|done].
    apply Forall_app_2; [done|]. by constructor; [|constructor]. }
  destruct (kind_is KDir k); [|by injection Hc as <-].
  apply rbind_Ok in Hc as (u & _ & [= <-]).
  split; cbn; (apply Forall_app_2; [done|]); (constructor; [|constructor]); [done|].
  exists (pre ++ file_name e). split; [|done]. intros [_ Hnil]%app_eq_nil.
  by apply plain_not_nil in Hnil.
Qed.

Lemma collect_entries_plain ctx cur pre st handled vpath budget listing : forall c c',
  collect_plain c -> dir_prefix pre -> (forall x, Ok x ∈ listing -> plain_segment (file_name x)) ->
  collect_entries ctx cur pre st handled vpath budget c listing = Ok c' -> collect_plain c'.
Proof.
  induction listing as [|e listing IH]; intros c c' Hc Hp Hn; cbn; [by intros [= <-]|].
  intros (c1 & Hc1 & Hrest)%rbind_Ok. eapply IH; [|done| |exact Hrest].
  - eapply collect_entry_plain; [done|done| |exact Hc1]. intros x ->. apply Hn. by left.
  - intros x Hx. apply Hn. by right.
Qed.

Lemma collect_loop_plain st ctx handled vpath budget fuel : forall c children,
  collect_plain c -> collect_loop fuel ctx st handled vpath budget c = Some (Ok children) ->
  Forall (fun r => reply_path r.1) children.
Proof.
  induction fuel as [|fuel IH]; intros c children Hc; cbn;
    destruct (last (c_dirs c)) as [[cur pre]|] eqn:Hl; try done;
    try (intros [= <-]; apply Hc).
  destruct (read_dir _ cur) as [listing|] eqn:Hrd; cbn; [|done].
  destruct (collect_entries _ _ _ _ _ _ _ _ _) as [c'|] eqn:Hce; [|done]. apply IH.
  destruct Hc as [Hr Hd]. eapply collect_entries_plain; [|..|exact Hce].
  - split; cbn; [done|]. by apply removelast_Forall.
  - apply last_Some in Hl as [l Hl]. rewrite Hl in Hd. apply Forall_app in Hd as [_ Hd]. by inversion Hd.
  - intros x Hx. by eapply read_dir_names.
Qed.
(** The source and destination of a planned rename are not the mount's root. *)
Lemma rename_plan_ends st ctx src dst p :
  rename_plan st ctx src dst = Ok p -> p_src p <> [] /\ p_dst p <> [].
Proof.
  unfold rename_plan. intros Hr. inv_binds Hr.
  match goal with Hs : rename_source _ _ _ _ = Ok ?x |- _ => destruct x as [b e] end. inv_binds Hr.
  match goal with Hm : (if _ then rename_moves _ _ _ _ _ else _) = Ok ?x |- _ => destruct x as [om rm] end.
  inv_binds Hr. injection Hr as <-. cbn. split; intros ->; done.
Qed.

Lemma rename_plan_real st ctx src dst p :
  rename_plan st ctx src dst = Ok p -> reply_path (p_src p) -> reply_path (p_dst p) ->
  Forall (fun m => reply_path m.1.1 /\ reply_path m.1.2) (p_real_moves p).
Proof.
  intros Hplan Hs Hd. pose proof (rename_plan_ends _ _ _ _ _ Hplan) as [Hsn Hdn].
  revert Hplan Hs Hd Hsn Hdn. unfold rename_plan. intros Hr. inv_binds Hr.
  match goal with Hs : rename_source _ _ _ _ = Ok ?x |- _ => destruct x as [b e] end. inv_binds Hr.
  match goal with Hm : (if ?d then rename_moves _ _ _ _ _ else _) = Ok ?x |- _ =>
    destruct x as [om rm]; rename Hm into Hmv; destruct d end; inv_binds Hr; injection Hr as <-;
    cbn [p_src p_dst p_real_moves]; intros Hs Hd Hsn Hdn; [|by injection Hmv as <- <-; constructor].
  pose proof (rename_moves_real _ _ _ _ _ _ _ Hmv) as HF.
  assert (Hkeys : Forall (fun m : str * str * OverlayEntry => reply_path m.1.1) rm).
  { unfold rename_moves in Hmv.
    apply rbind_Ok in Hmv as (b1 & _ & (b2 & _ & (rm' & Hrm & [= _ <-])%rbind_Ok)%rbind_Ok).
    destruct (resolve_real src ctx) as [t|]; [|by injection Hrm as <-].
    destruct (host_is_dir _ _); [|by injection Hrm as <-].
    apply rbind_Ok in Hrm as (children & Hch & [= <-]). apply Forall_map.
    apply real_children_Ok in Hch as [->|Hch]; [constructor|].
    eapply collect_loop_plain; [|exact Hch]. split; cbn; [constructor|].
    constructor; [|constructor]. eexists. split; [exact Hsn|]. by split. }
  rewrite Forall_forall in *. intros m Hin. specialize (Hkeys m Hin).
  destruct (HF m Hin) as (_ & x & H1' & H2'). split; [done|]. rewrite H1' in Hkeys. rewrite H2'.
  pose proof (reply_path_parts _ _ Hkeys) as [_ Hx]. apply reply_path_app in Hkeys as [_ Hk]; [|done..].
  by apply reply_path_app.
Qed.

Lemma rename_plan_plain st ctx src dst p :
  wf_state st -> keys_plain st -> rename_plan st ctx src dst = Ok p ->
  reply_path (p_src p) -> reply_path (p_dst p) ->
  Forall (fun r => reply_path r.1) (plan_replacements st p).
Proof.
  intros Hwf Hk Hplan Hs Hd. pose proof (rename_plan_ends _ _ _ _ _ Hplan) as [Hsn Hdn].
  pose proof (rename_plan_Ok _ _ _ _ _ Hplan) as [Hok _].
  unfold plan_replacements. apply Forall_app. split; [by repeat constructor|]. apply Forall_app. split.
  - apply Forall_flat_map. destruct (plan_moves _ _ _ Hok) as [->| ->]; [constructor|].
    apply Forall_forall. intros m (x & e & Hg & ->)%elem_of_overlay_moves; [|done]. cbn.
    apply Hk in Hg. pose proof (reply_path_parts _ _ Hg) as [_ Hx].
    pose proof Hg as [_ Hxp]%reply_path_app; [|done..].
    repeat constructor; [done|]. by apply reply_path_app.
  - apply Forall_flat_map. eapply Forall_impl; [by eapply rename_plan_real|].
    intros m [H1' H2']. by repeat constructor.
Qed.

(** ** Every request *)

Section Requests.
Context (st : OverlayState) (ctx : MountContext).
Hypothesis (mount_normalized : is_normalized (mount_virtual ctx) = true) (st_plain : keys_plain st).

Lemma insert_relative_plain p rel e :
  relative_path p ctx = Ok rel -> keys_plain (insert_unchecked rel e st).
Proof. intros Hr. apply keys_plain_insert; [by eapply relative_path_plain|done]. Qed.

Lemma write_content_plain p d u s : write_content p d (st, ctx) = (Ok u, s) -> keys_plain s.1.
Proof. intros (rel & Hr & _ & _ & _ & _ & ->)%write_content_Ok. by eapply insert_relative_plain. Qed.

Lemma append_bytes_plain p d v s : append_bytes p d (st, ctx) = (Ok v, s) -> keys_plain s.1.
Proof.
  intros (rel & n & Hr & _ & _ & _ & _ & [(f & _ & _ & _ & ->)|(_ & old & b & _ & _ & _ & ->)])%append_bytes_Ok;
    by eapply insert_relative_plain.
Qed.

Lemma ensure_append_plain p u s : ensure_append_target_exists p (st, ctx) = (Ok u, s) -> keys_plain s.1.
Proof.
  intros [->|(rel & Hr & _ & ->)]%ensure_append_target_exists_Ok; [done|]. by eapply insert_relative_plain.
Qed.

Lemma mkdir_plain p rel parents exist_ok v s :
  relative_path p ctx = Ok rel -> mkdir rel parents exist_ok p (st, ctx) = (Ok v, s) -> keys_plain s.1.
Proof.
  intros Hr%relative_path_plain; [|done].
  intros [_ [[-> _]|(dirs & _ & Hdirs & _ & _ & ->)]]%mkdir_Ok; [done|].
  apply keys_plain_insert_all; [|done]. unfold new_dirs. apply Forall_map. cbn.
  assert (HF : Forall reply_path dirs); [|done].
  destruct parents; [by eapply overlay_dirs_to_create_plain|].
  inv_binds Hdirs. injection Hdirs as <-. by constructor; [|constructor].
Qed.

Lemma rename_plain src dst v s :
  wf_state st -> request_fits (RRename src dst) st ctx ->
  rename src dst (st, ctx) = (Ok v, s) -> keys_plain s.1.
Proof.
  intros Hwf Hfit (_ & p & Hp & ->)%rename_Ok. pose proof (rename_plan_Ok _ _ _ _ _ Hp) as (Hok & Hs & Hd).
  cbn. rewrite (rename_commit_replaces st ctx p Hwf Hok (Hfit p Hp)).
  apply keys_plain_insert_all; [|done]. eapply rename_plan_plain; eauto using relative_path_plain.
Qed.

(** Every request keeps the keys normalized. *)
Lemma execute_keys_plain r :
  wf_state st -> request_fits r st ctx -> keys_plain (execute r (st, ctx)).2.1.
Proof.
  intros Hwf Hfit. destruct (execute r (st, ctx)) as [[v|e] [st' ctx']] eqn:Heq; cbn.
  2:{ by apply atomic_execute in Heq as [= -> ->]. }
  destruct (is_write r) eqn:Hw.
  2:{ pose proof (overlay_read_observes r Hw (st, ctx)) as Ho. rewrite Heq in Ho. by injection Ho as -> ->. }
  destruct r; try done; cbn [execute] in Heq;
    try (unfold write_text, write_bytes, append_text in Heq); inv_run.
  all: try match goal with
    | Hr : write_content _ _ _ = _ |- _ => by apply write_content_plain in Hr
    | Hr : append_bytes _ _ _ = _ |- _ => by apply append_bytes_plain in Hr
    | Hr : mkdir _ _ _ _ _ = _ |- _ => by eapply mkdir_plain in Hr
    | Hr : rename _ _ _ = _ |- _ => by apply rename_plain in Hr
    end.
  - apply unlink_Ok in Heq as (_ & [= -> ->] & _). by eapply insert_relative_plain.
  - apply rmdir_Ok in Heq as (_ & [= -> ->] & _). by eapply insert_relative_plain.
  - apply create_exclusive_Ok in Heq as (rel & Hr & _ & _ & _ & [= -> ->] & _). by eapply insert_relative_plain.
  - unfold open_, write_text in Heq. destruct mode; try done; inv_run; simplify_eq;
      match goal with
      | Hr : write_content _ _ _ = _ |- _ => by apply write_content_plain in Hr
      | Hr : ensure_append_target_exists _ _ = _ |- _ => by apply ensure_append_plain in Hr
      end.
Qed.
End Requests.
End Keys.

(** ** The host paths of moved files *)

Section Refs.
Context `{HostLaws} `{OverlayLayout}.

Definition entry_plain (e : OverlayEntry) : Prop :=
  match e with ERealFileRef r => reply_path (ref_relative r) | _ => True end.

(** Every file that was moved into the overlay is read at a normalized path. *)
Definition refs_plain (st : OverlayState) : Prop := forall k e, get st k = Some e -> entry_plain e.

Lemma refs_plain_insert k e st : entry_plain e -> refs_plain st -> refs_plain (insert_unchecked k e st).
Proof.
  intros He Hst j e'. rewrite get_insert_unchecked. case_bool_decide; [by intros [= <-]|apply Hst].
Qed.

Lemma refs_plain_insert_all rs st :
  Forall (fun r => entry_plain r.2) rs -> refs_plain st -> refs_plain (insert_all rs st).
Proof.
  unfold insert_all. intros HF. revert st. induction HF as [|r rs Hr HF IH]; intros st Hst; [done|].
  cbn. by apply IH, refs_plain_insert.
Qed.

Lemma from_relative_plain dir rel r : from_relative dir rel = Some r -> reply_path rel -> entry_plain (ERealFileRef r).
Proof.
  unfold from_relative. destruct (symlink_metadata dir rel); [|done]. destruct (m_is_file _); [|done]. by intros [= <-].
Qed.

(** A directory of the host that is listed, other than the mount's root. *)
Definition host_plain (rel : str) : Prop := reply_path rel /\ rel <> [] /\ rel <> dot.

Lemma plain_not_dot s : plain_segment s -> s <> dot.
Proof. intros [Hs _] ->. by vm_compute in Hs. Qed.

Lemma join_plain rel name : host_plain rel -> plain_segment name -> host_plain (join_mount_relative rel name).
Proof.
  intros (Hr & Hne & Hnd) Hn. unfold join_mount_relative. rewrite bool_decide_false by done.
  destruct rel as [|c rel]; [done|]. cbn [is_empty_str orb]. split; [|split; [done|]].
  - apply reply_path_app; [done|by apply plain_not_nil|]. split; [done|by apply reply_path_plain].
  - intros [= _ E]. by destruct rel.
Qed.

Lemma resolved_plain p ctx t :
  is_normalized (mount_virtual ctx) = true -> resolve_virtual_path p (mount_virtual ctx) = Ok t -> reply_path (relative t).
Proof. intros Hm Ht. apply resolve_virtual_path_Ok in Ht as [Hs _]; [|done]. by apply reply_path_components, Hs. Qed.

Lemma reply_path_not_dot rel : reply_path rel -> rel <> dot.
Proof. intros Hr%components_reply_path ->. inversion Hr as [|? ? [Hs _] _]. by vm_compute in Hs. Qed.

Definition collect_refs (c : Collect) : Prop :=
  Forall (fun r => entry_plain r.2) (c_result c) /\ Forall (fun d => host_plain d.1) (c_dirs c).

Lemma collect_entry_refs ctx cur pre st handled vpath budget c e c' :
  collect_refs c -> host_plain cur -> (forall x, e = Ok x -> plain_segment (file_name x)) ->
  collect_entry ctx cur pre st handled vpath budget c e = Ok c' -> collect_refs c'.
Proof.
  intros [Hr Hd] Hcur Hn. unfold collect_entry. intros Hc. destruct e as [e|]; [|done]. cbn [map_err rbind] in Hc.
  specialize (Hn e eq_refl). destruct (to_str (file_name e)) as [name|] eqn:Ht; [|done].
  apply to_string_lossy_valid in Ht as [_ ->].
  destruct (_ || _); [by injection Hc as <-|].
  pose proof (join_plain _ _ Hcur Hn) as Hj.
  apply rbind_Ok in Hc as (k & _ & Hc). destruct (kind_is KSymlink k); [done|].
  destruct (kind_is KFile k).
  { destruct (from_relative _ _) as [r|] eqn:Hf; [|by injection Hc as <-].
    apply rbind_Ok in Hc as (u & _ & [= <-]). split; cbn; [|done].
    apply Forall_app_2; [done|]. constructor; [|constructor]. eapply from_relative_plain; [exact Hf|apply Hj]. }
  destruct (kind_is KDir k); [|by injection Hc as <-].
  apply rbind_Ok in Hc as (u & _ & [= <-]).
  split; cbn; (apply Forall_app_2; [done|]); (constructor; [|constructor]); done.
Qed.

Lemma collect_entries_refs ctx cur pre st handled vpath budget listing : forall c c',
  collect_refs c -> host_plain cur -> (forall x, Ok x ∈ listing -> plain_segment (file_name x)) ->
  collect_entries ctx cur pre st handled vpath budget c listing = Ok c' -> collect_refs c'.
Proof.
  induction listing as [|e listing IH]; intros c c' Hc Hp Hn; cbn; [by intros [= <-]|].
  intros (c1 & Hc1 & Hrest)%rbind_Ok. eapply IH; [|done| |exact Hrest].
  - eapply collect_entry_refs; [done|done| |exact Hc1]. intros x ->. apply Hn. by left.
  - intros x Hx. apply Hn. by right.
Qed.

Lemma collect_loop_refs st ctx handled vpath budget fuel : forall c children,
  collect_refs c -> collect_loop fuel ctx st handled vpath budget c = Some (Ok children) ->
  Forall (fun r => entry_plain r.2) children.
Proof.
  induction fuel as [|fuel IH]; intros c children Hc; cbn;
    destruct (last (c_dirs c)) as [[cur pre]|] eqn:Hl; try done;
    try (intros [= <-]; apply Hc).
  destruct (read_dir _ cur) as [listing|] eqn:Hrd; cbn; [|done].
  destruct (collect_entries _ _ _ _ _ _ _ _ _) as [c'|] eqn:Hce; [|done]. apply IH.
  destruct Hc as [Hr Hd]. eapply collect_entries_refs; [|..|exact Hce].
  - split; cbn; [done|]. by apply removelast_Forall.
  - apply last_Some in Hl as [l Hl]. rewrite Hl in Hd. apply Forall_app in Hd as [_ Hd]. by inversion Hd.
  - intros x Hx. by eapply read_dir_names.
Qed.

Section Rename.
Context (st : OverlayState) (ctx : MountContext) (src dst : str).
Hypothesis (mount_normalized : is_normalized (mount_virtual ctx) = true) (st_refs : refs_plain st).

(** The source of a rename, as the host has it. *)
Lemma source_host_plain rel t :
  relative_path src ctx = Ok rel -> rel <> [] -> resolve_real src ctx = Ok t -> host_plain (for_dir_op t).
Proof.
  intros Hr Hne (t' & Ht & (u & _ & [= <-])%rbind_Ok)%rbind_Ok. pose proof (resolved_plain _ _ _ mount_normalized Ht) as Hp.
  rewrite (relative_path_resolve _ _ _ Hr) in Ht. injection Ht as <-. cbn in *. unfold for_dir_op. cbn [relative].
  destruct rel as [|c rel]; [done|]. cbn [is_empty_str]. split; [done|]. split; [done|]. by apply reply_path_not_dot.
Qed.

Lemma rename_plan_refs p :
  rename_plan st ctx src dst = Ok p -> Forall (fun r => entry_plain r.2) (plan_replacements st p).
Proof.
  intros Hplan. pose proof (rename_plan_ends _ _ _ _ _ Hplan) as [Hsn _]. revert Hplan Hsn.
  unfold rename_plan. intros Hr. inv_binds Hr.
  match goal with Hs : rename_source _ _ ?r _ = Ok ?x |- _ => destruct x as [b e]; rename Hs into Hsrc, r into rel end.
  inv_binds Hr.
  match goal with Hm : (if ?d then rename_moves _ _ _ _ _ else _) = Ok ?x |- _ =>
    destruct x as [om rm]; rename Hm into Hmv; destruct d end; inv_binds Hr; injection Hr as <-;
    cbn [p_src]; intros Hsn;
    (assert (relative_path src ctx = Ok rel) as Hrel by done);
    (assert (entry_plain e) as He by
      (unfold rename_source in Hsrc; destruct (get st rel) as [e0|] eqn:Hg;
       [injection Hsrc as _ <-; by eapply st_refs|];
       apply rbind_Ok in Hsrc as (t & Ht & Hsrc); apply rbind_Ok in Hsrc as (k & _ & Hsrc);
       destruct k; try done; [by injection Hsrc as _ <-|];
       apply rbind_Ok in Hsrc as (r & Hf & [= _ <-]);
       destruct (from_relative _ _) eqn:Hf'; [|done]; injection Hf as ->;
       eapply from_relative_plain; [exact Hf'|]; by eapply (source_host_plain rel)));
    unfold plan_replacements; cbn [p_src p_dst p_source_entry p_overlay_moves p_real_moves];
    (apply Forall_app; split; [by repeat constructor|]); apply Forall_app; split.
  - apply Forall_flat_map, Forall_forall. intros m _. repeat constructor. cbn.
    destruct (get st m.1) as [e0|] eqn:Hg; [by eapply st_refs|done].
  - apply Forall_flat_map.
    unfold rename_moves in Hmv.
    apply rbind_Ok in Hmv as (b1 & _ & (b2 & _ & (rm' & Hrm & [= _ <-])%rbind_Ok)%rbind_Ok).
    destruct (resolve_real src ctx) as [t|] eqn:Ht; [|injection Hrm as <-; constructor].
    destruct (host_is_dir _ _); [|injection Hrm as <-; constructor].
    apply rbind_Ok in Hrm as (children & Hch & [= <-]). apply Forall_map.
    apply real_children_Ok in Hch as [->|Hch]; [constructor|].
    eapply Forall_impl; [eapply collect_loop_refs; [|exact Hch]|]; [split; cbn; [constructor|]|].
    + constructor; [|constructor]. cbn. by eapply (source_host_plain rel).
    + intros x Hx. by repeat constructor.
  - injection Hmv as <- <-. constructor.
  - injection Hmv as <- <-. constructor.
Qed.
End Rename.

(** Every request keeps the host paths of moved files normalized. *)
Lemma execute_refs_plain st ctx r :
  is_normalized (mount_virtual ctx) = true -> refs_plain st -> wf_state st -> request_fits r st ctx ->
  refs_plain (execute r (st, ctx)).2.1.
Proof.
  intros Hm Hrefs Hwf Hfit. destruct (execute r (st, ctx)) as [[v|e] [st' ctx']] eqn:Heq; cbn.
  2:{ by apply atomic_execute in Heq as [= -> ->]. }
  destruct (is_write r) eqn:Hw.
  2:{ pose proof (overlay_read_observes r Hw (st, ctx)) as Ho. rewrite Heq in Ho. by injection Ho as -> ->. }
  assert (forall p d u s, write_content p d (st, ctx) = (Ok u, s) -> refs_plain s.1) as Hwrite.
  { intros p d u s (rel & Hr & _ & _ & _ & _ & ->)%write_content_Ok. by apply refs_plain_insert. }
  assert (forall p d v s, append_bytes p d (st, ctx) = (Ok v, s) -> refs_plain s.1) as Happend.
  { intros p d u s (rel & n & Hr & _ & _ & _ & _ & [(f & _ & _ & _ & ->)|(_ & old & b & _ & _ & _ & ->)])%append_bytes_Ok;
      by apply refs_plain_insert. }
  destruct r; try done; cbn [execute] in Heq;
    try (unfold write_text, write_bytes, append_text in Heq); inv_run.
  all: try match goal with
    | Hr : write_content _ _ _ = _ |- _ => by apply Hwrite in Hr
    | Hr : append_bytes _ _ _ = _ |- _ => by apply Happend in Hr
    end.
  - apply mkdir_Ok in Heq as [_ [[[= -> ->] _]|(dirs & _ & _ & _ & _ & [= -> ->])]]; [done|].
    apply refs_plain_insert_all; [|done]. apply Forall_map. by apply Forall_forall.
  - apply unlink_Ok in Heq as (_ & [= -> ->] & _). by apply refs_plain_insert.
  - apply rmdir_Ok in Heq as (_ & [= -> ->] & _). by apply refs_plain_insert.
  - apply rename_Ok in Heq as (_ & p & Hp & [= -> ->]). pose proof (rename_plan_Ok _ _ _ _ _ Hp) as (Hok & _ & _).
    cbn. rewrite (rename_commit_replaces st ctx p Hwf Hok (Hfit p Hp)).
    apply refs_plain_insert_all; [|done]. by eapply rename_plan_refs.
  - apply create_exclusive_Ok in Heq as (rel & Hr & _ & _ & _ & [= -> ->] & _). by apply refs_plain_insert.
  - unfold open_, write_text in Heq. destruct mode; try done; inv_run; simplify_eq;
      match goal with
      | Hr : write_content _ _ _ = _ |- _ => by apply Hwrite in Hr
      | Hr : ensure_append_target_exists _ _ = _ |- _ =>
          apply ensure_append_target_exists_Ok in Hr as [[= -> ->]|(rel & _ & _ & [= -> ->])];
          [done|by apply refs_plain_insert]
      end.
Qed.
End Refs.

(** ** Symbolic links *)

Section Links.
Context `{HostLaws} `{!HostLookup} `{OverlayLayout}.

(** A path of the host, looked up one component at a time from [dir]: each component is
    there and is no link, and each but the last is a directory that opens. *)
Fixpoint real_path (dir : Dir) (comps : list str) : Prop :=
  match comps with
  | [] => True
  | c :: rest =>
      exists m, symlink_metadata dir c = Ok m /\ m_is_symlink m = false /\
        (rest <> [] -> m_is_dir m = true /\ exists next, open_dir dir c = Ok next /\ real_path next rest)
  end.

Lemma step_dir w c vpath m :
  exhausted w = false -> symlink_metadata (here w) c = Ok m -> m_is_symlink m = false ->
  step w c vpath =
    if m_is_dir m then
      match open_dir (here w) c with
      | Ok next => Ok (TDir, {| root := root w; current := Some next; exhausted := false |})
      | Err err => if bool_decide (kind err = NotFound) then Ok (TAbsent, exhaust w) else Err (map_io err vpath)
      end
    else Ok (TFile, exhaust w).
Proof.
  intros Hw Hm Hs. unfold step, classify_target. rewrite Hw, Hm, Hs. cbn [rbind]. by destruct (m_is_dir m).
Qed.

Lemma symlink_loop_real comps vpath : forall w m,
  exhausted w = false -> Forall plain_segment comps -> comps <> [] ->
  reject_symlink_loop w comps vpath = Ok tt -> metadata (here w) (Str.join slash comps) = Ok m ->
  real_path (here w) comps.
Proof.
  induction comps as [|c rest IH]; intros w m Hw HF Hne Hloop Hm; [done|]. inversion HF as [|? ? Hc HF']; subst.
  assert (exists m', symlink_metadata (here w) c = Ok m') as [m' Hm'].
  { destruct rest as [|c' rest]; [by eapply lookup_found|].
    by edestruct (lookup_first (here w) c (c' :: rest)) as (m' & Hm' & _); [..|exists m']. }
  assert (m_is_symlink m' = false) as Hs.
  { cbn [reject_symlink_loop] in Hloop. unfold step, classify_target in Hloop. rewrite Hw, Hm' in Hloop.
    by destruct (m_is_symlink m'). }
  exists m'. split; [done|]. split; [done|]. intros Hr.
  destruct (lookup_first (here w) c rest m Hc HF' Hr Hm) as (m2 & Hm2 & Hdir). rewrite Hm' in Hm2. injection Hm2 as <-.
  destruct (Hdir Hs) as [Hd Hnext]. split; [done|]. cbn [reject_symlink_loop] in Hloop.
  rewrite (step_dir w c vpath m' Hw Hm' Hs), Hd in Hloop.
  destruct (open_dir (here w) c) as [next|e] eqn:Ho.
  - exists next. split; [done|]. cbn [rbind] in Hloop.
    by apply (IH {| root := root w; current := Some next; exhausted := false |} m); [..|apply Hnext].
  - rewrite bool_decide_false in Hloop by by eapply lookup_dir. done.
Qed.

Lemma chain_real dir rel vpath m :
  reply_path rel -> reject_symlink_chain dir rel vpath = Ok tt -> metadata dir rel = Ok m -> real_path dir (components rel).
Proof.
  intros Hr. pose proof (reply_path_not_dot _ Hr) as Hnd. apply components_reply_path in Hr. unfold reject_symlink_chain.
  destruct rel as [|c rel]; [done|]. rewrite bool_decide_false by done. cbn [is_empty_str orb components] in *.
  intros Hloop Hm. apply (symlink_loop_real _ vpath (new_walk dir) m); [done|done| |done|].
  - intros E. by apply split_not_nil in E.
  - by rewrite join_split.
Qed.

(** A path that resolves on the host and has metadata there is a real path. *)
Lemma resolve_real_path p ctx rel t m :
  is_normalized (mount_virtual ctx) = true -> relative_path p ctx = Ok rel ->
  resolve_real p ctx = Ok t -> metadata (mount_dir ctx) (for_dir_op t) = Ok m ->
  real_path (mount_dir ctx) (components rel).
Proof.
  intros Hn Hrel (t' & Ht & (u & Hc & [= <-])%rbind_Ok)%rbind_Ok Hm. destruct u.
  rewrite (relative_path_resolve _ _ _ Hrel) in Ht. injection Ht as <-. unfold for_dir_op in *. cbn [relative] in *.
  destruct rel as [|c rel]; [done|]. eapply chain_real; [|exact Hc|exact Hm]. by eapply relative_path_plain.
Qed.

(** The path whose host side a request has read when it answers [v]. *)
Definition read_of (r : FsRequest) (v : MontyObject) : option str :=
  match r with
  | RReadText p | RReadBytes p | RStat p | RIterdir p | ROpen p (Read _ | ReadUpdate _) => Some p
  | RExists p | RIsFile p | RIsDir p => if v is OBool true then Some p else None
  | _ => None
  end.

(** The contents of a file that was moved into the overlay are read at its host path. *)
Definition reads_contents (r : FsRequest) : bool :=
  match r with RReadText _ | RReadBytes _ => true | _ => false end.

Lemma read_file_found rel vpath budget d b d' :
  read_file_limited rel vpath budget d = (Ok b, d') -> exists m, metadata d rel = Ok m.
Proof.
  unfold read_file_limited, open_regular, host_call. intros Hr. repeat inv_step.
  destruct (open_with _ rel d) as [[f|e] d1] eqn:Ho; [|done].
  apply (open_metadata (non_blocking read_options) rel d f); [done|]. by rewrite Ho.
Qed.

Lemma present_found p ctx f f' rel :
  is_normalized (mount_virtual ctx) = true -> relative_path p ctx = Ok rel ->
  resolve_real_path_state p ctx f = Ok (Present f') -> real_path (mount_dir ctx) (components rel).
Proof.
  intros Hn Hrel. unfold resolve_real_path_state. destruct (resolve_real p ctx) as [t|] eqn:Ht; [|by destruct f].
  destruct (metadata _ _) as [m|e] eqn:Hm; [intros _; by eapply resolve_real_path|].
  destruct (bool_decide _); [done|]. by destruct f.
Qed.

Lemma host_is_dir_found dir rel : host_is_dir dir rel = true -> exists m, metadata dir rel = Ok m.
Proof. unfold host_is_dir. destruct (metadata dir rel); [eauto|done]. Qed.

Lemma on_dir_read_text rel vpath budget st ctx v s' :
  on_dir (host_read_text rel vpath budget) (st, ctx) = (Ok v, s') -> exists m, metadata (mount_dir ctx) rel = Ok m.
Proof.
  unfold on_dir, host_read_text, sbind at 1. cbn [fst snd].
  destruct (read_file_limited rel vpath budget (mount_dir ctx)) as [[b|e] d] eqn:E; [|done].
  intros _. by eapply read_file_found.
Qed.

Lemma on_dir_read_bytes rel vpath budget st ctx v s' :
  on_dir (host_read_bytes rel vpath budget) (st, ctx) = (Ok v, s') -> exists m, metadata (mount_dir ctx) rel = Ok m.
Proof.
  unfold on_dir, host_read_bytes, sbind at 1. cbn [fst snd].
  destruct (read_file_limited rel vpath budget (mount_dir ctx)) as [[b|e] d] eqn:E; [|done].
  intros _. by eapply read_file_found.
Qed.

(** A request that read the host side of a path. *)
Lemma read_real r v p st ctx s' rel :
  is_normalized (mount_virtual ctx) = true -> execute r (st, ctx) = (Ok v, s') -> read_of r v = Some p ->
  relative_path p ctx = Ok rel -> get st rel = None -> real_path (mount_dir ctx) (components rel).
Proof.
  intros Hn Heq Hp Hrel Hg.
  assert (forall f f', resolve_real_path_state p ctx f = Ok (Present f') -> real_path (mount_dir ctx) (components rel))
    as Hpresent by (intros; by eapply present_found).
  assert (forall t, resolve_real p ctx = Ok t -> (exists m, metadata (mount_dir ctx) (for_dir_op t) = Ok m) ->
    real_path (mount_dir ctx) (components rel)) as Hfound by (intros t Ht [m Hm]; by eapply resolve_real_path).
  destruct r; try done; cbn [read_of] in Hp; cbn [execute] in Heq;
    try (destruct v as [|[]| | | | | | | | | |]; try done; injection Hp as ->; inv_run;
         assert (a = rel) as -> by congruence; unfold exists_, is_file_, is_dir_ in *; rewrite Hg in *;
         destruct (resolve_real_path_state p ctx LMissing) as [[f'|]|] eqn:Hs; [by eapply Hpresent|done..]).
  - injection Hp as ->. inv_run. assert (a = rel) as -> by congruence. unfold read_text in Heq. inv_run.
    rewrite Hg in Heq. inv_run. eapply Hfound; [eassumption|]. by eapply on_dir_read_text.
  - injection Hp as ->. inv_run. assert (a = rel) as -> by congruence. unfold read_bytes in Heq. inv_run.
    rewrite Hg in Heq. inv_run. eapply Hfound; [eassumption|]. by eapply on_dir_read_bytes.
  - injection Hp as ->. inv_run. assert (a = rel) as -> by congruence.
    match goal with Hi : iterdir _ _ _ _ = Ok _ |- _ => unfold iterdir in Hi; apply rbind_Ok in Hi as (x & Hx & _) end.
    unfold real_dir_to_merge in Hx. rewrite Hg in Hx. apply rbind_Ok in Hx as (t & Ht & Hx).
    destruct (host_is_dir _ _) eqn:Hd; [|by destruct (negb _)]. apply (Hfound t Ht). by apply host_is_dir_found.
  - injection Hp as ->. inv_run. assert (a = rel) as -> by congruence.
    match goal with Hi : stat _ _ _ _ = Ok _ |- _ => unfold stat in Hi; rewrite Hg in Hi; apply rbind_Ok in Hi as (t & Ht & Hi);
      apply rbind_Ok in Hi as (m & Hm & _) end.
    apply (Hfound t Ht). destruct (metadata _ _) as [m'|]; [eauto|done].
  - destruct mode; try done; injection Hp as ->; unfold open_ in Heq; inv_run;
      match goal with Ho : open_check_readable _ _ _ = Ok _ |- _ => unfold open_check_readable in Ho;
        rewrite Hrel in Ho; cbn [rbind] in Ho; rewrite Hg in Ho; apply rbind_Ok in Ho as ([f'|] & Hs & Ho) end;
      try done; by eapply Hpresent.
Qed.

(** A file that was moved into the overlay, read at its host path. *)
Lemma read_moved r v p st ctx s' rel f :
  refs_plain st -> execute r (st, ctx) = (Ok v, s') -> reads_contents r = true -> read_of r v = Some p ->
  relative_path p ctx = Ok rel -> get st rel = Some (ERealFileRef f) ->
  real_path (mount_dir ctx) (components (ref_relative f)).
Proof.
  intros Hrefs Heq Hc Hp Hrel Hg. pose proof (Hrefs _ _ Hg) as Hplain. cbn in Hplain.
  assert (forall x, checked_ref_path f ctx p = Ok x -> (exists m, metadata (mount_dir ctx) x = Ok m) ->
    real_path (mount_dir ctx) (components (ref_relative f))) as Hfound.
  { intros x (u & Hu & [= <-])%rbind_Ok [m Hm]. destruct u. by eapply chain_real. }
  destruct r; try done; cbn [read_of] in Hp; cbn [execute] in Heq; injection Hp as ->; inv_run;
    assert (a = rel) as -> by congruence; unfold read_text, read_bytes in Heq; inv_run; rewrite Hg in Heq; inv_run;
    (eapply Hfound; [eassumption|]); [by eapply on_dir_read_text|by eapply on_dir_read_bytes].
Qed.

(** The mount stays well formed through a run. *)
Lemma run_keeps rs : forall st ctx,
  is_normalized (mount_virtual ctx) = true -> overlay_inv st ctx -> refs_plain st -> run_fits rs (st, ctx) ->
  let s := run rs (st, ctx) in
  is_normalized (mount_virtual s.2) = true /\ refs_plain s.1 /\ same_mount ctx s.2.
Proof.
  induction rs as [|r rs IH]; intros st ctx Hn Hinv Hrefs Hfit; cbn; [done|]. destruct Hfit as [Hf Hfit].
  pose proof (execute_ostep_any r st ctx Hinv Hf) as Hstep.
  pose proof (execute_refs_plain st ctx r Hn Hrefs (inv_wf _ _ Hinv) Hf) as Hr.
  cbn in Hstep, Hfit. destruct (execute r (st, ctx)) as [v [st1 ctx1]]. cbn in *.
  pose proof (ostep_same_mount _ _ _ _ Hstep) as Hsm. assert (mount_virtual ctx1 = mount_virtual ctx) as Ev by apply Hsm.
  destruct (IH st1 ctx1) as (H1' & H2' & H3'); [by rewrite Ev|by eapply ostep_inv|done|done|].
  split; [done|]. split; [done|]. unfold same_mount in *. intuition congruence.
Qed.


End Links.

#[local] Existing Instance example_layout.

Definition renamed : OverlayState * MountContext :=
  (execute (RRename (lit "/m/d") (lit "/m/e")) (new_state, demo_ctx)).2.

