(* ===== verification/Scan.v ===== *)
(** [Path.scan] on mounts ([crates/monty-fs/src/scan.rs]): the source that
    answers a scan's listings and lookups through the mounts' own backends, and
    the directory handles one scan keeps open.

    A scan reads the mounts and changes none of them; what it updates is its own
    state, [ScanState].  *)
From S2P Require Import Prelude Str BTreeMap FileMode VirtualPath FsTypes PathSecurity Host Common OverlayState Overlay OverlayOps Direct MountTable Fnmatch Glob.
#[local] Open Scope Z_scope.
#[local] Open Scope monty_scope.

Definition MAX_SCAN_VISITS : Z := 10000000.

(** ** The length of a pattern *)

(** [min(segment.len(), NAME_BYTES)], moved up to a character boundary. *)
Definition segment_end (segment : str) : nat :=
  let start := Nat.min (length segment) 256 in
  default (length segment)
    (List.find (is_char_boundary segment) (seq start (length segment - start + 1))).

Definition reject_overlong_pattern (parts : list str) : result unit MountError :=
  let segments := take 65 (flat_map (split slash) parts) in
  reject_overlong_path (Str.join slash (List.map (fun s => take (segment_end s) s) segments)).

(** ** Directory handles *)

Section Handles.
Context `{HostDir}.

(** Mount index, mount-relative path and handle, most recently used last. *)
Abbreviation DirHandles := (list (nat * str * Dir)).

Definition CAPACITY : nat := 32.

(** [dir.entries()]: the listing of the directory itself. *)
Definition dir_entries (dir : Dir) : result ReadDir IoError := read_dir dir dot.

(** [DirHandles::handle]: the handle of [rel], opened below its parent's if it is
    not open. The path of a parent is shorter, so [fuel] is the path's length. *)
Fixpoint handle (fuel : nat) (mount : nat) (rel : str) (root : Dir) (refuse_links : bool)
    (handles : DirHandles) : option Dir * DirHandles :=
  match position (fun e => bool_decide (e.1.1 = mount) && bool_decide (e.1.2 = rel)) handles with
  | Some i =>
      match handles !! i with
      | Some e => (Some e.2, take i handles ++ drop (S i) handles ++ [e])
      | None => (None, handles)
      end
  | None =>
      let '(parent, name, handles) :=
        match rsplit_once slash rel with
        | None => (Some root, rel, handles)
        | Some (parent, name) =>
            match fuel with
            | O => (None, name, handles)
            | S fuel =>
                let '(d, handles) := handle fuel mount parent root refuse_links handles in
                (d, name, handles)
            end
        end in
      match parent with
      | None => (None, handles)
      | Some parent =>
          if refuse_links && negb (is_ok_and m_is_dir (symlink_metadata parent name))
          then (None, handles)
          else
            match open_dir parent name with
            | Err _ => (None, handles)
            | Ok dir =>
                let handles := if Nat.eqb (length handles) CAPACITY then drop 1 handles else handles in
                (Some dir, handles ++ [(mount, rel, dir)])
            end
      end
  end.

Definition open_handle (mount : nat) (rel : str) (root : Dir) (refuse_links : bool)
    (handles : DirHandles) : option Dir * DirHandles :=
  handle (length rel) mount rel root refuse_links handles.

(** [DirHandles::read_dir]. *)
Definition handles_read_dir (mount : nat) (rel : str) (root : Dir) (handles : DirHandles) :
    option ReadDir * DirHandles :=
  match rsplit_once slash rel with
  | None => (rok (read_dir root rel), handles)
  | Some (parent, name) =>
      let '(d, handles) := open_handle mount parent root false handles in
      (d ≫= fun d => rok (read_dir d name), handles)
  end.

Definition read_dir_link_free (mount : nat) (rel : str) (root : Dir) (handles : DirHandles) :
    option ReadDir * DirHandles :=
  if bool_decide (rel = dot) then (rok (dir_entries root), handles)
  else
    let '(d, handles) := open_handle mount rel root true handles in
    (d ≫= fun d => rok (dir_entries d), handles).

(** [DirHandles::symlink_metadata]. *)
Definition handles_lstat (mount : nat) (rel : str) (root : Dir) (refuse_links : bool)
    (handles : DirHandles) : option (result Metadata IoError) * DirHandles :=
  match rsplit_once slash rel with
  | None =>
      (if bool_decide (rel = dot) then None else Some (symlink_metadata root rel), handles)
  | Some (parent, name) =>
      let '(d, handles) := open_handle mount parent root refuse_links handles in
      ((fun d => symlink_metadata d name) <$> d, handles)
  end.

Definition direct_path_info (mount : nat) (path : str) (ctx : MountContext) (handles : DirHandles) :
    option PathInfo * DirHandles :=
  match resolve_virtual_path path (mount_virtual ctx) with
  | Err _ => (None, handles)
  | Ok target =>
      let '(meta, handles) := handles_lstat mount (for_dir_op target) (mount_dir ctx) false handles in
      (match meta with
       | Some (Ok meta) =>
           if m_is_symlink meta then None
           else Some (described (m_is_dir meta) (m_is_file meta) true)
       | Some (Err err) => if bool_decide (kind err = NotFound) then Some ABSENT else None
       | None => None
       end, handles)
  end.
End Handles.

(** ** The source *)

Section Source.
Context `{HostDir} `{OverlayLayout}.

(** What a scan has used and keeps open. *)
Record ScanState := {
  used : Z;
  visits : Z;
  handles : list (nat * str * Dir) }.

Definition set_handles (h : list (nat * str * Dir)) (s : ScanState) : ScanState :=
  {| used := used s; visits := visits s; handles := h |}.

(** Runs an operation of the handles. *)
Definition with_handles {A} (f : list (nat * str * Dir) -> A * list (nat * str * Dir)) :
    M ScanState MountError A :=
  fun s => let '(a, h) := f (handles s) in (Ok a, set_handles h s).

(** The fields of [MountSource] a scan does not change. *)
Context (now : nat -> SystemTime) (root : str) (mounts : list Mount) (budget : MemoryBudget).

Definition scan_virtual_path (relative : str) : str :=
  match root, relative with
  | [], [] => [slash]
  | _, [] => root
  | [], _ => slash :: relative
  | _, _ => root ++ slash :: relative
  end.

Definition charge_bytes (bytes : Z) : M ScanState MountError unit :=
  fun s =>
    let used := sat_add (used s) bytes in
    (check budget used, {| used := used; visits := visits s; handles := handles s |}).

Definition charge_entry (path_len : Z) : M ScanState MountError unit :=
  charge_bytes (sat_add (as_u64 path_len) LISTING_ENTRY_MEMORY_USAGE).

(** The mount-relative path the overlay asks the handles for, if it asks: when
    the path resolves and the overlay has no entry for it. *)
Definition consulted_path (path : str) (ctx : MountContext) (st : OverlayState) : option str :=
  match relative_path path ctx with
  | Err _ => None
  | Ok relative =>
      match get st relative with
      | Some _ => None
      | None => for_dir_op <$> rok (resolve_virtual_path path (mount_virtual ctx))
      end
  end.

(** Asks the handles what the overlay will ask them. *)
Definition consult {A} (f : str -> list (nat * str * Dir) -> option A * list (nat * str * Dir))
    (path : option str) : M ScanState MountError (option A) :=
  match path with
  | None => sret None
  | Some rel => with_handles (f rel)
  end.

(** [MountSource::list_through_handles], on a direct mount. *)
Definition list_through_handles (index : nat) (m : Mount) (path : str) (budget : MemoryBudget) :
    M ScanState MountError (option (list (str * EntryInfo))) :=
  let ctx := backend now m in
  match m_mode m with
  | OverlayMemory _ => sret None
  | ReadWrite | ReadOnly =>
      match resolve_virtual_path path (mount_virtual ctx) with
      | Err _ => sret None
      | Ok target =>
          let rel := for_dir_op target in
          do rd <- with_handles (handles_read_dir index rel (mount_dir ctx)) ;;
          sret (rd ≫= fun rd => rok (visible_entries rd (mount_dir ctx) rel path budget))
      end
  end.

(** [MountSource::scan_list]. *)
Definition source_scan_list (path : str) : M ScanState MountError (nat * list (str * EntryInfo)) :=
  match find_mount mounts path ≫= (fun i => mounts !! i ≫= fun m => Some (i, m)) with
  | None => sfail (NoMountPoint path)
  | Some (index, m) =>
      do s <- sget ;;
      do budget <- slift (shrink budget (used s)) ;;
      do listing <- list_through_handles index m path budget ;;
      match listing with
      | Some listing => sret (index, listing)
      | None =>
          let ctx := backend now m in
          match m_mode m with
          | OverlayMemory st =>
              do rd <- consult (fun rel => read_dir_link_free index rel (mount_dir ctx))
                         (consulted_path path ctx st) ;;
              do listing <- slift (Overlay.scan_list path ctx st budget (fun _ => rd)) ;;
              sret (index, listing)
          | ReadWrite | ReadOnly =>
              do listing <- slift (dispatch_scan_list path ctx (m_mode m) budget) ;;
              sret (index, listing)
          end
      end
  end.

(** Turns every failure but the memory limit into a default. *)
Definition recovering {A} (default : A) (m : M ScanState MountError A) : M ScanState MountError A :=
  fun s => match m s with
           | (Err (MemoryUsageLimitExceeded limit), s) => (Err (MemoryUsageLimitExceeded limit), s)
           | (Err _, s) => (Ok default, s)
           | r => r
           end.

(** [MountSource::listing]. *)
Definition listing (dir path : str) : M ScanState MountError (option (nat * list (str * EntryInfo))) :=
  let found := (do l <- source_scan_list path ;; sret (Some l)) in
  if bool_decide (dir = []) then found
  else if negb (is_ok (reject_overlong_path path)) then sret None
  else recovering None found.

(** [MountSource::path_info]. *)
Definition source_path_info (path : str) : M ScanState MountError PathInfo :=
  if negb (is_ok (reject_overlong_path path)) then sret ABSENT
  else
    match find_mount mounts path ≫= (fun i => mounts !! i ≫= fun m => Some (i, m)) with
    | None => sret ABSENT
    | Some (index, m) =>
        let ctx := backend now m in
        recovering ABSENT
          match m_mode m with
          | OverlayMemory st =>
              do meta <- consult (fun rel => handles_lstat index rel (mount_dir ctx) true)
                           (consulted_path path ctx st) ;;
              slift (Overlay.path_info path ctx st (fun _ => meta))
          | ReadWrite | ReadOnly =>
              do info <- with_handles (direct_path_info index path ctx) ;;
              match info with
              | Some info => sret info
              | None => slift (dispatch_path_info path ctx (m_mode m))
              end
          end
    end.

(** The children of a listing, charged and described one by one. *)
Fixpoint describe_children (dir dir_path : str) (index : nat) (entries : list (str * EntryInfo)) :
    M ScanState MountError (list (str * EntryInfo)) :=
  match entries with
  | [] => sret []
  | (name, i) :: rest =>
      charge_entry (zlen dir + 1 + zlen name) ;;;
      let child := dir_path ++ slash :: name in
      do i <-
        (if negb (is_ok (reject_overlong_path child))
            || negb (is_ok (reject_drive_or_unc_segments name child))
            || (1 <? zlen mounts) && negb (bool_decide (find_mount mounts child = Some index))
         then do p <- source_path_info child ;; sret (info p)
         else sret i) ;;
      do rest <- describe_children dir dir_path index rest ;;
      sret ((name, i) :: rest)
  end.

Definition source_list (dir : str) : M ScanState MountError (option Listing) :=
  let dir_path := scan_virtual_path dir in
  do found <- listing dir dir_path ;;
  match found with
  | None => sret None
  | Some (index, entries) =>
      do entries <- describe_children dir dir_path index entries ;;
      sret (Some entries)
  end.

Definition source_lookup (path : str) : M ScanState MountError (option EntryInfo) :=
  do p <- source_path_info (scan_virtual_path path) ;;
  (if pi_exists p then charge_entry (zlen path) else sret tt) ;;;
  sret (if pi_exists p then Some (info p) else None).

Definition source_visit : M ScanState MountError unit :=
  fun s =>
    let n := visits s + 1 in
    (if MAX_SCAN_VISITS <? n then Err (ScanLimitExceeded MAX_SCAN_VISITS) else Ok tt,
     {| used := used s; visits := n; handles := handles s |}).

Definition mount_source : ScanSource ScanState MountError := {|
  src_list := source_list;
  src_lookup := source_lookup;
  src_visit := source_visit;
  src_charge bytes := charge_bytes (as_u64 bytes);
  src_match_capacity _ := usize_max |}.
End Source.

(** ** The call *)

Section Execute.
Context `{HostDir} `{OverlayLayout} `{StateLayout} `{CharCase}.

(** The memory left to a scan rooted in a mount. *)
Definition scan_budget (now : nat -> SystemTime) (m : Mount) : result MemoryBudget MountError :=
  match m_mode m with
  | OverlayMemory st => available_memory st (backend now m)
  | ReadWrite | ReadOnly => Ok (full (m_memory_usage_limit m))
  end.

Definition scan_start : ScanState := {| used := 0; visits := 0; handles := [] |}.

(** Every turn of a scan's loops is paid for by a visit or by a charge, so this
    bound is not reached. *)
Definition scan_fuel (budget : MemoryBudget) : positive :=
  Z.to_pos (available budget + MAX_SCAN_VISITS + 2).

(** What a stopped scan raises; the first two do not occur. *)
Definition stop_error (e : stop MountError) : MountError :=
  match e with
  | OutOfFuel | Panicked => ScanLimitExceeded MAX_SCAN_VISITS
  | Raised e => e
  end.

Definition execute (now : nat -> SystemTime) (args : ScanArgs) (mounts : list Mount) (root : nat) :
    result MontyObject MountError :=
  (match sc_pattern args with Some parts => reject_overlong_pattern parts | None => Ok tt end) ;?
  match mounts !! root with
  | None => Err (InvalidArgument (lit "unreachable"))
  | Some m =>
      let? budget := scan_budget now m in
      let source := mount_source now (trim_end_matches slash (sc_path args)) mounts budget in
      let? reply := map_err stop_error
                      (collect_scan (ScanSource0 := source) (scan_fuel budget) args scan_start).1 in
      match reply with
      | Some reply => Ok (into_object reply)
      | None => Err (not_found (sc_path args))
      end
  end.
End Execute.

(** Running a call on the mount table ([MountTable::execute_on] and
    [handle_os_call] in [crates/monty-fs/src/mount_table.rs]). *)

Section Calls.
Context `{HostDir} `{OverlayLayout} `{StateLayout} `{CharCase}.

(** A scan reads through the whole table and changes no mount. *)
Definition execute_on (now : nat -> SystemTime) (index : nat) (call : OsFunctionCall) :
    M (list Mount) MountError MontyObject :=
  fun mounts =>
    match call with
    | CScan args => (Scan.execute now args mounts index, mounts)
    | _ =>
        match mounts !! index with
        | Some m =>
            let '(r, m') := mount_execute now call m in (r, <[index := m']> mounts)
        | None => (Err (InvalidArgument (lit "unreachable")), mounts)
        end
    end.

(** Why a path is refused before any mount is consulted. *)
Definition path_rejection (path : str) (call : OsFunctionCall) : option MountError :=
  match reject_overlong_path path with
  | Err e => Some e
  | Ok _ =>
      if contains_null_byte path then Some (EmbeddedNullByte (embedded_null_message call false))
      else None
  end.

Definition handle_os_call (now : nat -> SystemTime) (call : OsFunctionCall) (mounts : list Mount) :
    MountCallOutcome * list Mount :=
  match fs_primary_path call with
  | None => (NotHandled call, mounts)
  | Some path =>
      match path_rejection path call with
      | Some e => (Handled (if is_existence_check call then Ok (OBool false) else Err e), mounts)
      | None =>
          match route_call mounts path call with
          | Some (Ok index) =>
              let '(r, mounts) := execute_on now index call mounts in (Handled r, mounts)
          | Some (Err err) => (Handled (Err err), mounts)
          | None => (NotHandled call, mounts)
          end
      end
  end.
End Calls.
