(* ===== verification/ScanProps.v ===== *)
(** Properties of [Path.scan] on mounts: what one scan may use, that it always
    ends, and that its replies name only normalized paths. *)
From S2P Require Import Prelude Str BTreeMap FileMode VirtualPath FsTypes PathSecurity Host Common OverlayState Overlay OverlayOps TreeHost OverlayHost Direct MountTable Fnmatch Glob GlobProps OverlayKeys Scan.
Local Open Scope Z_scope.
Local Open Scope monty_scope.

(** ** The directory handles *)

Section Handles.
Context `{HostDir}.

(** At most [CAPACITY] handles are open. *)
Definition bounded (handles : list (nat * str * Dir)) : Prop := (length handles <= CAPACITY)%nat.

Lemma position_lt {A} (f : A -> bool) l i : position f l = Some i -> (i < length l)%nat.
Proof.
  revert i. induction l as [|x l IH]; intros i; cbn; [done|]. destruct (f x); [intros [= <-]; lia|].
  destruct (position f l) as [k|]; [|done]. cbn. intros [= <-]. specialize (IH k eq_refl). lia.
Qed.

Lemma handle_bounded fuel mount root refuse_links : forall rel handles,
  bounded handles -> bounded (handle fuel mount rel root refuse_links handles).2.
Proof.
  unfold bounded. induction fuel as [|fuel IH]; intros rel handles Hb; cbn [handle];
    (destruct (position _ handles) as [i|] eqn:Hpos;
     [apply position_lt in Hpos; destruct (handles !! i); cbn; [|done];
      rewrite !length_app, length_take, length_drop; cbn; lia|]).
  all: assert (Hopen : forall parent name (hs : list (nat * str * Dir)), (length hs <= CAPACITY)%nat ->
    (length (match parent with
     | Some parent =>
         if refuse_links && negb (is_ok_and m_is_dir (symlink_metadata parent name)) then (None, hs)
         else match open_dir parent name with
              | Ok dir =>
                  (Some dir, (if Nat.eqb (length hs) CAPACITY then drop 1 hs else hs) ++ [(mount, rel, dir)])
              | Err _ => (None, hs)
              end
     | None => (None, hs)
     end).2 <= CAPACITY)%nat).
  1, 3: clear; intros [d|] name hs Hh; [|done]; destruct (_ && _); [done|];
    destruct (open_dir d name); [|done]; cbn; rewrite length_app; cbn;
    destruct (Nat.eqb_spec (length hs) CAPACITY); rewrite ?length_drop; unfold CAPACITY in *; lia.
  - destruct (rsplit_once slash rel) as [[parent name]|]; [done|by apply (Hopen (Some root))].
  - destruct (rsplit_once slash rel) as [[parent name]|]; [|by apply (Hopen (Some root))].
    specialize (IH parent handles Hb). destruct (handle fuel _ _ _ _ _) as [d hs].
    by apply Hopen.
Qed.

(** An operation of the handles keeps them bounded. *)
Definition keeps_bounded {A} (f : list (nat * str * Dir) -> A * list (nat * str * Dir)) : Prop :=
  forall handles, bounded handles -> bounded (f handles).2.

Lemma open_handle_bounded mount rel root refuse_links :
  keeps_bounded (open_handle mount rel root refuse_links).
Proof. intros hs Hb. by apply handle_bounded. Qed.

Lemma handles_read_dir_bounded mount rel root : keeps_bounded (handles_read_dir mount rel root).
Proof.
  intros hs Hb. unfold handles_read_dir. destruct (rsplit_once slash rel) as [[parent name]|]; [|done].
  pose proof (open_handle_bounded mount parent root false hs Hb) as Ho. by destruct (open_handle _ _ _ _ _).
Qed.

Lemma read_dir_link_free_bounded mount rel root : keeps_bounded (read_dir_link_free mount rel root).
Proof.
  intros hs Hb. unfold read_dir_link_free. case_bool_decide; [done|].
  pose proof (open_handle_bounded mount rel root true hs Hb) as Ho. by destruct (open_handle _ _ _ _ _).
Qed.

Lemma handles_lstat_bounded mount rel root refuse_links :
  keeps_bounded (handles_lstat mount rel root refuse_links).
Proof.
  intros hs Hb. unfold handles_lstat. destruct (rsplit_once slash rel) as [[parent name]|]; [|done].
  pose proof (open_handle_bounded mount parent root refuse_links hs Hb) as Ho.
  by destruct (open_handle _ _ _ _ _).
Qed.

Lemma direct_path_info_bounded mount path ctx : keeps_bounded (direct_path_info mount path ctx).
Proof.
  intros hs Hb. unfold direct_path_info. destruct (resolve_virtual_path _ _) as [target|]; [|done].
  pose proof (handles_lstat_bounded mount (for_dir_op target) (mount_dir ctx) false hs Hb) as Ho.
  by destruct (handles_lstat _ _ _ _ _).
Qed.
End Handles.
#[export] Hint Resolve handles_read_dir_bounded read_dir_link_free_bounded handles_lstat_bounded
  direct_path_info_bounded : monty.

(** ** The names a listing reports *)

Section Names.
Context `{HostLaws} `{OverlayLayout}.

Definition plain_entries (rd : ReadDir) : Prop := forall e, Ok e ∈ rd -> plain_segment (file_name e).
Definition plain_listing (l : list (str * EntryInfo)) : Prop := Forall (fun c => plain_segment c.1) l.

Lemma plain_listing_names l : plain_listing l <-> Forall plain_segment (List.map fst l).
Proof. symmetry. apply List.Forall_map. Qed.

Lemma visible_entries_plain rd dir rel vpath b l :
  plain_entries rd -> visible_entries rd dir rel vpath b = Ok l -> plain_listing l.
Proof.
  unfold visible_entries. generalize 0. revert l.
  induction rd as [|r rd IH]; intros l usage Hp; cbn [visible_entries_loop]; [by intros [= <-]; constructor|].
  assert (Hrd : plain_entries rd) by (intros e He; apply Hp; by right).
  destruct r as [e|]; [|done]. cbn. destruct (file_type e); [|done]. cbn.
  destruct (to_str (file_name e)) as [name|] eqn:Hn; [|by apply IH].
  apply to_string_lossy_valid in Hn as [_ ->].
  destruct (if kind_is KSymlink a then _ else _); [|by apply IH]. intros Hl. inv_ok.
  constructor; [apply Hp; by left|]. by eapply IH.
Qed.

Lemma host_listing_plain dir rel vpath b l :
  host_list_visible_dir_entries dir rel vpath b = Ok l -> plain_listing l.
Proof.
  unfold host_list_visible_dir_entries. intros Hl. inv_ok. eapply visible_entries_plain; [|done].
  destruct (read_dir dir rel) as [rd|] eqn:Hr; [|done]. cbn in *. inv_ok.
  intros e He. by eapply read_dir_names.
Qed.

(** The overlay is accounted for and its entries have normalized paths. *)
Definition plain_keys (st : OverlayState) : Prop := wf_state st /\ keys_plain st.

Lemma reply_path_last a name : reply_path (directory_prefix a ++ name) -> is_child_name name -> plain_segment name.
Proof.
  intros (l & Hl & Heq) [Hne Hs].
  assert (Hlne : l <> []). { intros ->. apply app_eq_nil in Heq as [_ ->]. done. }
  apply (f_equal (split slash)) in Heq. rewrite split_plain_join in Heq by done.
  rewrite Forall_forall in Hl. apply Hl. rewrite <- Heq. destruct a as [|c a].
  - cbn. rewrite split_single by done. by left.
  - cbn [directory_prefix]. rewrite <- app_assoc. cbn [app].
    change (c :: a ++ slash :: name) with ((c :: a) ++ slash :: name).
    rewrite split_app_slash, (split_single _ name) by done. apply elem_of_app. right. by left.
Qed.

Lemma scan_overlay_plain children b : forall usage l u,
  Forall (fun c => plain_segment c.1) children -> scan_overlay children b usage = Ok (l, u) ->
  plain_listing l.
Proof.
  induction children as [|[name e] children IH]; intros usage l u HF; cbn [scan_overlay];
    [intros Hl; inv_ok; constructor|].
  inversion HF as [|? ? Hn HF']; subst. intros Hl. inv_ok. destruct a0 as [listed u']. inv_ok.
  apply IH in Hm0; [|done]. destruct e; by try constructor.
Qed.

Lemma overlay_scan_list_plain path ctx st b (open_real : str -> option ReadDir) l :
  plain_keys st -> (forall rel rd, open_real rel = Some rd -> plain_entries rd) ->
  Overlay.scan_list path ctx st b open_real = Ok l -> plain_listing l.
Proof.
  intros [Hwf Hk] Hreal. unfold Overlay.scan_list. intros Hl. inv_ok. rename a into relative.
  set (opened := match get st relative with None => _ | Some _ => _ end) in *.
  destruct (match opened with Some o => Ok (Some o) | None => _ end) as [to_merge|] eqn:Hmerge; [|done].
  cbn [rbind] in Hl.
  assert (Hread : forall d rd, to_merge = Some (d, Some rd) -> plain_entries rd).
  { intros d rd ->. destruct opened as [o|] eqn:Ho.
    - injection Hmerge as ->. unfold opened in Ho. destruct (get st relative); [done|].
      destruct (rok _); [|done]. cbn in Ho. destruct (open_real _) eqn:Hr; [|done]. cbn in Ho.
      injection Ho as <- <-. by eapply Hreal.
    - inv_ok. by destruct a. }
  destruct (scan_overlay _ b 0) as [[listed usage]|] eqn:Hs; [|done]. cbn [rbind] in Hl.
  apply scan_overlay_plain in Hs.
  2:{ apply Forall_forall. intros [name e] Hin. apply elem_of_overlay_children in Hin as [Hg Hc]; [|done].
      by eapply reply_path_last; [eapply Hk|]. }
  destruct to_merge as [[d rd]|]; [|by inv_ok]. inv_ok.
  apply Forall_app. split; [done|]. apply Forall_map, Forall_forall. intros e He. cbn.
  rewrite list_elem_of_In, filter_In, <- list_elem_of_In in He. destruct He as [He _].
  assert (Hp : plain_listing a0).
  { destruct rd as [rd|]; [eapply visible_entries_plain; [by eapply Hread|done]|by eapply host_listing_plain]. }
  unfold plain_listing in Hp. rewrite Forall_forall in Hp. by apply Hp.
Qed.
End Names.

(** ** What a scan may use *)

Section Source.
Context `{HostLaws} `{OverlayLayout}.
Context (now : nat -> SystemTime) (root : str) (mounts : list Mount) (budget : MemoryBudget).

(** The memory charged is within the budget, the visits within their limit, and
    the handles within their capacity. *)
Definition scan_inv (s : ScanState) : Prop :=
  0 <= used s <= available budget /\ 0 <= visits s <= MAX_SCAN_VISITS /\ bounded (handles s).

(** What the scan may still use. *)
Definition allowance (s : ScanState) : Z :=
  Z.max 0 (available budget - used s) + Z.max 0 (MAX_SCAN_VISITS - visits s).

(** [s'] has used as much as [s], and its handles are bounded. *)
Definition as_used (s s' : ScanState) : Prop :=
  used s' = used s /\ visits s' = visits s /\ bounded (handles s').

(** [m] uses up nothing. *)
Abbreviation reads m s := (ensures m s (fun _ s' => as_used s s') (fun (_ : MountError) s' => as_used s s')).

Lemma as_used_inv s s' : as_used s s' -> scan_inv s -> scan_inv s' /\ allowance s' = allowance s.
Proof. intros (Hu & Hv & Hh) (Hus & Hvs & _). unfold scan_inv, allowance. by rewrite Hu, Hv. Qed.

Lemma reads_bind {A B} (m : M ScanState MountError A) (k : A -> M ScanState MountError B) s :
  reads m s -> (forall a s', bounded (handles s') -> reads (k a) s') -> reads (sbind m k) s.
Proof.
  intros Hm Hk. apply ensures_bind. eapply ensures_mono; [exact Hm| |done].
  intros a s' Hs. pose proof Hs as (Hu & Hv & Hh).
  eapply ensures_mono; [by apply Hk|..]; intros x s'' (Hu' & Hv' & Hh'); repeat split; congruence.
Qed.

Lemma reads_lift {A} (r : result A MountError) s : bounded (handles s) -> reads (slift r) s.
Proof. by destruct r. Qed.

Lemma reads_ret {A} (a : A) s : bounded (handles s) -> reads (sret a) s.
Proof. done. Qed.

Lemma reads_with_handles {A} (f : list (nat * str * Dir) -> A * list (nat * str * Dir)) s :
  keeps_bounded f -> bounded (handles s) -> reads (with_handles f) s.
Proof.
  intros Hf Hb. unfold with_handles, ensures. specialize (Hf _ Hb).
  by destruct (f (handles s)) as [a h].
Qed.

Lemma reads_consult {A} (f : str -> list (nat * str * Dir) -> option A * list (nat * str * Dir)) path s :
  (forall rel, keeps_bounded (f rel)) -> bounded (handles s) -> reads (consult f path) s.
Proof. intros Hf Hb. destruct path as [rel|]; [by apply reads_with_handles|by apply reads_ret]. Qed.

Lemma reads_recovering {A} (d : A) (m : M ScanState MountError A) s : reads m s -> reads (recovering d m) s.
Proof. unfold ensures, recovering. destruct (m s) as [[a|[]] s']; done. Qed.

Lemma reads_list_through_handles index m path b s :
  bounded (handles s) -> reads (list_through_handles now index m path b) s.
Proof.
  intros Hb. unfold list_through_handles. destruct (m_mode m); try by apply reads_ret.
  all: destruct (resolve_virtual_path _ _); [|by apply reads_ret].
  all: apply reads_bind; [apply reads_with_handles; auto with monty|]; intros; by apply reads_ret.
Qed.

Lemma reads_source_scan_list path s :
  bounded (handles s) -> reads (source_scan_list now mounts budget path) s.
Proof.
  intros Hb. unfold source_scan_list. destruct (_ ≫= _) as [[index m]|]; [|done].
  apply reads_bind; [done|]. intros s0 s1 Hb1. apply reads_bind; [by apply reads_lift|].
  intros b s2 Hb2. apply reads_bind; [by apply reads_list_through_handles|].
  intros [l|] s3 Hb3; [by apply reads_ret|]. destruct (m_mode m) as [| |st].
  3: apply reads_bind; [apply reads_consult; auto with monty|]; intros rd s4 Hb4.
  all: apply reads_bind; [by apply reads_lift|]; intros; by apply reads_ret.
Qed.

Lemma reads_listing dir path s : bounded (handles s) -> reads (listing now mounts budget dir path) s.
Proof.
  intros Hb. unfold listing. destruct (bool_decide _); [|destruct (negb _); [by apply reads_ret|]].
  2: apply reads_recovering.
  all: apply reads_bind; [by apply reads_source_scan_list|]; intros; by apply reads_ret.
Qed.

Lemma reads_source_path_info path s :
  bounded (handles s) -> reads (source_path_info now mounts path) s.
Proof.
  intros Hb. unfold source_path_info. destruct (negb _); [by apply reads_ret|].
  destruct (_ ≫= _) as [[index m]|]; [|by apply reads_ret]. apply reads_recovering.
  destruct (m_mode m) as [| |st]; (apply reads_bind;
    [first [apply reads_consult; auto with monty|apply reads_with_handles; auto with monty]|]);
    intros i s1 Hb1; try by apply reads_lift.
  all: destruct i; [by apply reads_ret|by apply reads_lift].
Qed.

Abbreviation fails := (fun (_ : MountError) (_ : ScanState) => True).

Hypothesis budget_below : available budget < u64_max.

(** A charge that is granted uses up that much of the allowance. *)
Lemma charge_bytes_uses b s :
  0 < b -> scan_inv s ->
  ensures (charge_bytes budget b) s
    (fun _ s' => scan_inv s' /\ allowance s' < allowance s) fails.
Proof.
  intros Hb (Hu & Hv & Hh). unfold charge_bytes, ensures, check.
  destruct (available budget <? _) eqn:E; [done|]. zbool. unfold sat_add in *.
  unfold scan_inv, allowance. cbn. repeat split; try done; lia.
Qed.

Lemma charge_entry_uses n s :
  0 <= n -> scan_inv s ->
  ensures (charge_entry budget n) s
    (fun _ s' => scan_inv s' /\ allowance s' <= allowance s) fails.
Proof.
  intros Hn Hs. unfold charge_entry. eapply ensures_mono; [apply charge_bytes_uses; [|done]| |done].
  - unfold sat_add, as_u64, LISTING_ENTRY_MEMORY_USAGE, u64_max. destruct (_ <=? _); lia.
  - intros _ s' [Hs' Hlt]. split; [done|lia].
Qed.

Lemma reads_keep {A} (m : M ScanState MountError A) s :
  scan_inv s -> reads m s -> ensures m s (fun _ s' => scan_inv s' /\ allowance s' = allowance s) fails.
Proof. intros Hs Hm. eapply ensures_mono; [exact Hm| |done]. intros a s' Ha. by apply as_used_inv. Qed.

Lemma describe_children_uses dir dir_path index entries : forall s,
  scan_inv s ->
  ensures (describe_children now mounts budget dir dir_path index entries) s
    (fun l s' => scan_inv s' /\ allowance s' <= allowance s /\ List.map fst l = List.map fst entries) fails.
Proof.
  induction entries as [|[name i] entries IH]; intros s Hs; cbn [describe_children].
  { apply ensures_ret. split; [done|]. split; [lia|done]. }
  apply ensures_bind. eapply ensures_mono;
    [apply charge_entry_uses; [pose proof (zlen_nonneg dir); pose proof (zlen_nonneg name); lia|done]| |done].
  intros _ s1 [Hs1 Hle1]. apply ensures_bind.
  apply (ensures_mono _ _ (fun _ s' => scan_inv s' /\ allowance s' = allowance s1) _ fails); [| |done].
  { apply reads_keep; [done|]. destruct (_ || _); [|by apply reads_ret; apply Hs1].
    apply reads_bind; [by apply reads_source_path_info; apply Hs1|]. intros; by apply reads_ret. }
  intros i' s2 [Hs2 Heq]. apply ensures_bind. eapply ensures_mono; [by apply IH| |done].
  intros l s3 (Hs3 & Hle & Hl). apply ensures_ret. cbn. rewrite Hl. split; [done|]. split; [lia|done].
Qed.
(** ** The names a scan reports *)

(** Whatever the state, a success of [m] satisfies [P]. *)
Definition yields {A} (m : M ScanState MountError A) (P : A -> Prop) : Prop :=
  forall s, ensures m s (fun a _ => P a) fails.

Lemma yields_bind {A B} (m : M ScanState MountError A) (k : A -> M ScanState MountError B) P Q :
  yields m P -> (forall a, P a -> yields (k a) Q) -> yields (sbind m k) Q.
Proof.
  intros Hm Hk s. apply ensures_bind. eapply ensures_mono; [apply Hm| |done]. intros a s' Ha. by apply Hk.
Qed.

Lemma yields_lift {A} (r : result A MountError) P : (forall a, r = Ok a -> P a) -> yields (slift r) P.
Proof. intros Hr s. destruct r as [a|]; [by apply Hr|done]. Qed.

Lemma yields_ret {A} (a : A) (P : A -> Prop) : P a -> yields (sret a) P.
Proof. by intros Ha s. Qed.

Lemma yields_any {A} (m : M ScanState MountError A) : yields m (fun _ => True).
Proof. intros s. unfold ensures. by destruct (m s) as [[]]. Qed.

Lemma yields_with_handles {A} (f : list (nat * str * Dir) -> A * list (nat * str * Dir)) (P : A -> Prop) :
  (forall hs, P (f hs).1) -> yields (with_handles f) P.
Proof. intros Hf s. unfold with_handles, ensures. specialize (Hf (handles s)). by destruct (f (handles s)). Qed.

Lemma yields_recovering {A} (d : A) (m : M ScanState MountError A) P :
  P d -> yields m P -> yields (recovering d m) P.
Proof.
  intros Hd Hm s. specialize (Hm s). unfold ensures, recovering in *. by destruct (m s) as [[a|[]] s'].
Qed.

Abbreviation plain_reading := (fun rd : option ReadDir => forall r, rd = Some r -> plain_entries r).

Lemma rok_read_dir_plain d rel : plain_reading (rok (read_dir d rel)).
Proof. destruct (read_dir d rel) as [rd|] eqn:Hr; cbn; [|done]. intros r [= <-] e. by eapply read_dir_names. Qed.

Lemma handles_read_dir_plain index rel d hs : plain_reading (handles_read_dir index rel d hs).1.
Proof.
  unfold handles_read_dir. destruct (rsplit_once slash rel) as [[parent name]|]; [|apply rok_read_dir_plain].
  destruct (open_handle _ _ _ _ _) as [[d'|] hs']; [apply rok_read_dir_plain|done].
Qed.

Lemma read_dir_link_free_plain index rel d hs : plain_reading (read_dir_link_free index rel d hs).1.
Proof.
  unfold read_dir_link_free. case_bool_decide; [apply rok_read_dir_plain|].
  destruct (open_handle _ _ _ _ _) as [[d'|] hs']; [apply rok_read_dir_plain|done].
Qed.

(** Every overlay of the table records its entries under normalized paths. *)
Definition plain_mounts : Prop :=
  Forall (fun m => match m_mode m with OverlayMemory st => plain_keys st | _ => True end) mounts.

Lemma list_through_handles_plain index m path b :
  yields (list_through_handles now index m path b) (fun l => forall l', l = Some l' -> plain_listing l').
Proof.
  unfold list_through_handles. destruct (m_mode m); try by apply yields_ret.
  all: destruct (resolve_virtual_path _ _); [|by apply yields_ret].
  all: eapply (yields_bind _ _ plain_reading);
    [apply yields_with_handles; intros hs; apply handles_read_dir_plain|]; intros rd Hrd;
    apply yields_ret; destruct rd as [rd|]; [|done]; cbn; intros l' Hl;
    destruct (visible_entries _ _ _ _ _) eqn:Hv; [|done]; injection Hl as <-;
    eapply visible_entries_plain; [by apply Hrd|done].
Qed.

Lemma source_scan_list_plain path :
  plain_mounts -> yields (source_scan_list now mounts budget path) (fun l => plain_listing l.2).
Proof.
  intros Hp. unfold source_scan_list.
  destruct (find_mount mounts path) as [i|]; [|done]. cbn. destruct (mounts !! i) as [m|] eqn:Hm; [|done]. cbn.
  eapply yields_bind; [apply yields_any|]. intros s0 _. eapply yields_bind; [apply yields_any|]. intros b _.
  eapply yields_bind; [apply list_through_handles_plain|]. intros [l|] Hl; [apply yields_ret; by apply Hl|].
  unfold plain_mounts in Hp. rewrite Forall_lookup in Hp. specialize (Hp i m Hm).
  destruct (m_mode m) as [| |st].
  3: eapply (yields_bind _ _ plain_reading);
    [destruct (consulted_path _ _ _); [apply yields_with_handles; intros hs; apply read_dir_link_free_plain|by apply yields_ret]
    |intros rd Hrd].
  all: eapply (yields_bind _ _ plain_listing); [apply yields_lift|intros l' Hl'; by apply yields_ret].
  - intros l' Hl'. unfold dispatch_scan_list, Direct.scan_list in Hl'. inv_ok. by eapply host_listing_plain.
  - intros l' Hl'. unfold dispatch_scan_list, Direct.scan_list in Hl'. inv_ok. by eapply host_listing_plain.
  - intros l'. apply overlay_scan_list_plain; [done|]. intros _ r. by apply Hrd.
Qed.

Lemma listing_plain dir path :
  plain_mounts -> yields (listing now mounts budget dir path) (fun l => plain_listing (default [] (snd <$> l))).
Proof.
  intros Hp. unfold listing.
  assert (Hf : yields (do l <- source_scan_list now mounts budget path ;; sret (Some l))
    (fun l => plain_listing (default [] (snd <$> l)))).
  { eapply yields_bind; [by apply source_scan_list_plain|]. intros l Hl. by apply yields_ret. }
  destruct (bool_decide _); [done|]. destruct (negb _); [apply yields_ret; constructor|].
  apply yields_recovering; [constructor|done].
Qed.

(** ** The source keeps the promises of the interface *)

Lemma source_list_law dir s :
  scan_inv s ->
  ensures (source_list now root mounts budget dir) s
    (fun l s' => scan_inv s' /\ allowance s' <= allowance s
       /\ (plain_mounts -> plain_listing (default [] l))) fails.
Proof.
  intros Hs. unfold source_list. apply ensures_bind.
  pose proof (reads_listing dir (scan_virtual_path root dir) s (proj2 (proj2 Hs))) as Hr.
  pose proof (fun Hp => listing_plain dir (scan_virtual_path root dir) Hp s) as Hn.
  unfold ensures in Hr, Hn |- *.
  destruct (listing _ _ _ dir _ s) as [[[[index entries]|]|e] s1]; [| |done].
  - destruct (as_used_inv _ _ Hr Hs) as [Hs1 Ha1]. apply ensures_bind.
    eapply ensures_mono; [by apply describe_children_uses| |done]. intros l s2 (Hs2 & Hle & Hl).
    apply ensures_ret. split; [done|]. split; [lia|]. intros Hp. specialize (Hn Hp). cbn in Hn |- *.
    apply plain_listing_names. rewrite Hl. by apply plain_listing_names.
  - destruct (as_used_inv _ _ Hr Hs) as [Hs1 Ha1]. split; [done|]. split; [lia|]. intros _. constructor.
Qed.

Lemma source_lookup_law path s :
  scan_inv s ->
  ensures (source_lookup now root mounts budget path) s
    (fun _ s' => scan_inv s' /\ allowance s' <= allowance s) fails.
Proof.
  intros Hs. unfold source_lookup. apply ensures_bind.
  eapply ensures_mono; [apply reads_keep; [done|by apply reads_source_path_info; apply Hs]| |done].
  intros p s1 [Hs1 Ha1]. apply ensures_bind.
  apply (ensures_mono _ _ (fun _ s' => scan_inv s' /\ allowance s' <= allowance s1) _ fails); [| |done].
  - destruct (pi_exists p); [apply charge_entry_uses; [apply zlen_nonneg|done]|].
    apply ensures_ret. split; [done|lia].
  - intros _ s2 [Hs2 Hle]. apply ensures_ret. split; [done|lia].
Qed.

Lemma source_visit_law s :
  scan_inv s -> ensures source_visit s (fun _ s' => scan_inv s' /\ allowance s' < allowance s) fails.
Proof.
  intros (Hu & Hv & Hh). unfold source_visit, ensures. destruct (MAX_SCAN_VISITS <? _) eqn:E; [done|]. zbool.
  unfold scan_inv, allowance. cbn. repeat split; try done; lia.
Qed.

Lemma allowance_nonneg s : 0 <= allowance s.
Proof. unfold allowance. lia. Qed.

Definition mount_laws : SourceLaws ScanState MountError (ScanSource0 := mount_source now root mounts budget).
Proof.
  refine (Build_SourceLaws _ _ _ plain_mounts scan_inv allowance allowance_nonneg _ _ _ _).
  - intros dir s Hs. by apply source_list_law.
  - intros path s Hs. by apply source_lookup_law.
  - intros s Hs. by apply source_visit_law.
  - intros b s Hb Hs. apply charge_bytes_uses; [|done]. unfold as_u64. destruct (_ <=? _); done.
Defined.
End Source.

(** ** Scans of the table *)

Section Execute.
Context `{HostLaws} `{OverlayLayout} `{StateLayout} `{CharCase}.

Lemma scan_start_inv budget : 0 <= available budget -> scan_inv budget scan_start.
Proof. intros Hb. unfold scan_inv, bounded. cbn. unfold MAX_SCAN_VISITS, CAPACITY. lia. Qed.

Lemma scan_fuel_enough budget :
  0 <= available budget -> allowance budget scan_start + 1 < Zpos (scan_fuel budget).
Proof.
  intros Hb. unfold allowance, scan_fuel. cbn [used visits scan_start].
  rewrite Z2Pos.id; unfold MAX_SCAN_VISITS; lia.
Qed.

(** What a scan of the table guarantees. *)
Lemma scan_ensures now path mounts args budget :
  0 <= available budget < u64_max ->
  ensures (collect_scan (ScanSource0 := mount_source now path mounts budget) (scan_fuel budget) args)
    scan_start
    (fun reply s' => scan_inv budget s' /\ forall v, reply = Some v -> plain_mounts mounts ->
       reply_ok v /\ parse_scan_reply (into_object v) = Ok v)
    (fun e _ => raised e).
Proof.
  intros [Hb Hlt].
  apply (collect_scan_ensures (SL := mount_laws now path mounts budget Hlt));
    [by apply scan_start_inv|by apply scan_fuel_enough].
Qed.

(** C38: a scan always ends within its limits: the memory it charges stays within
    what its mount has left, it makes at most ten million visits and keeps at most
    thirty-two directory handles open, and when it fails it is with an error the
    mounts raised, never because a loop was cut short. *)
Theorem scan_within_limits now path mounts args budget :
  0 <= available budget < u64_max ->
  match collect_scan (ScanSource0 := mount_source now path mounts budget) (scan_fuel budget) args
          scan_start with
  | (Ok _, s) => 0 <= used s <= available budget /\ 0 <= visits s <= MAX_SCAN_VISITS
                 /\ (length (handles s) <= 32)%nat
  | (Err e, _) => exists e', e = Raised e'
  end.
Proof.
  intros Hb. pose proof (scan_ensures now path mounts args budget Hb) as Hs. unfold ensures in Hs.
  destruct (collect_scan _ _ _) as [[reply|e] s]; [apply Hs|done].
Qed.

Lemma scan_budget_bounds now m budget :
  0 <= m_memory_usage_limit m < u64_max ->
  match m_mode m with OverlayMemory st => wf_state st | _ => True end ->
  scan_budget now m = Ok budget -> 0 <= available budget < u64_max.
Proof.
  intros Hl Hwf. unfold scan_budget. destruct (m_mode m) as [| |st]; [by intros [= <-]..|].
  unfold available_memory. cbn. unfold checked_sub. pose proof (wf_usage_nonneg st Hwf).
  destruct (_ <? _) eqn:E; cbn; [done|]. intros [= <-]. cbn. zbool. lia.
Qed.

(** Whatever a scan of the table answers, the sandbox decodes it to the same
    reply, and every path in it is made of plain components below the scanned
    directory: no empty, [.] or [..] component and no leading separator. *)
Theorem scan_reply_decodes now args mounts root m o :
  mounts !! root = Some m -> 0 <= m_memory_usage_limit m < u64_max -> plain_mounts mounts ->
  Scan.execute now args mounts root = Ok o ->
  exists reply, o = into_object reply /\ reply_ok reply /\ parse_scan_reply o = Ok reply.
Proof.
  intros Hm Hl Hp. unfold Scan.execute. destruct (match sc_pattern args with Some _ => _ | None => _ end);
    [|done]. cbn [rbind]. rewrite Hm. destruct (scan_budget now m) as [budget|] eqn:Hb; [|done]. cbn [rbind].
  apply scan_budget_bounds in Hb; [|done|].
  2:{ unfold plain_mounts in Hp. rewrite Forall_lookup in Hp. specialize (Hp _ _ Hm).
      destruct (m_mode m); [done..|]. apply Hp. }
  pose proof (scan_ensures now (trim_end_matches slash (sc_path args)) mounts args budget Hb) as Hs.
  unfold ensures in Hs. destruct (collect_scan _ _ _) as [[[reply|]|e] s]; [|done..].
  cbn. intros [= <-]. exists reply. split; [done|]. by apply (proj2 Hs).
Qed.
End Execute.

(** ** Examples *)

#[local] Existing Instance example_layout.
#[local] Existing Instance ascii_case.

Definition state_layout : StateLayout := {| size_of_state := 40; size_of_state_pos := eq_refl |}.

#[local] Existing Instance state_layout.

(** A directory with a nested package, a link and a special file. *)
Definition scan_tree : tree :=
  Dir_ [(lit "b.py", File_ (lit "b") 0); (lit "link", Link_); (lit "pipe", Special_);
        (lit "pkg", Dir_ [(lit "c.py", File_ [] 0); (lit "sub", Dir_ [(lit "d.py", File_ [] 0)] 0)] 0)] 0.

Definition scan_mount (v : str) (host : list bytes) (id : Z) (mode : MountMode) : Mount :=
  with_root {| virtual_path := v; host_path := host; identity := Some (1, id); root_dir := scan_tree |}
            mode None.

Definition edited : OverlayState :=
  insert_unchecked (lit "pkg/c.py") EDeleted
    (insert_unchecked (lit "a.py") (EFile {| content := []; f_mtime := current_timestamp 0 |}) new_state).

Definition scan_mounts : list Mount :=
  [scan_mount (lit "/rw/in") [lit "y"] 2 ReadOnly; scan_mount (lit "/ov") [lit "x"] 1 (OverlayMemory edited)].

Definition scan_clock : nat -> SystemTime := fun _ => 0.

Definition find_py (path : string) : ScanArgs := glob_args (lit path) (List.map lit ["**"; "*.py"]%string) None false.

(** The overlay's additions and deletions show, links are not followed. *)
Example scan_overlay_matches :
  Scan.execute scan_clock (find_py "/ov") scan_mounts 1
  = Ok (into_object (Matches (List.map lit ["pkg/sub/d.py"; "a.py"; "b.py"]%string))).
Proof. vm_compute. reflexivity. Qed.

Definition entry (path : string) (d f l : bool) : ScanEntry :=
  {| se_path := lit path; se_info := {| is_dir := d; is_file := f; is_symlink := l |} |}.

(** One level of the read-only mount: the link leads nowhere and is left out. *)
Example scan_direct_lists :
  Scan.execute scan_clock (listing_args (lit "/rw/in") (Some 1) false) scan_mounts 0
  = Ok (into_object (Tree [entry "" true false false; entry "b.py" false true false;
                           entry "pipe" false false false; entry "pkg" true false false])).
Proof. vm_compute. reflexivity. Qed.

Lemma edited_plain : plain_mounts scan_mounts.
Proof.
  constructor; [exact I|]. constructor; [|done]. change (plain_keys edited). unfold edited.
  split.
  { apply insert_unchecked_wf; [apply insert_unchecked_wf; [by repeat constructor|]|]; by vm_compute. }
  apply keys_plain_insert; [|apply keys_plain_insert; [|done]].
  - exists [lit "pkg"; lit "c.py"]. split; [|done]. by repeat constructor; apply contains_false.
  - exists [lit "a.py"]. split; [|done]. by repeat constructor; apply contains_false.
Qed.

Lemma scan_within_limits_witness :
  match collect_scan (ScanSource0 := mount_source scan_clock (lit "/ov") scan_mounts (full 1000))
          (scan_fuel (full 1000)) (find_py "/ov") scan_start with
  | (Ok _, s) => 0 <= used s <= 1000 /\ 0 <= visits s <= MAX_SCAN_VISITS /\ (length (handles s) <= 32)%nat
  | (Err e, _) => exists e', e = Raised e'
  end.
Proof. apply (scan_within_limits scan_clock (lit "/ov") scan_mounts (find_py "/ov") (full 1000)). done. Defined.

Lemma scan_reply_decodes_witness :
  exists reply o, Scan.execute scan_clock (find_py "/ov") scan_mounts 1 = Ok o
    /\ o = into_object reply /\ reply_ok reply /\ parse_scan_reply o = Ok reply.
Proof.
  destruct (scan_reply_decodes scan_clock (find_py "/ov") scan_mounts 1
    (scan_mount (lit "/ov") [lit "x"] 1 (OverlayMemory edited)) _ eq_refl ltac:(done) edited_plain
    scan_overlay_matches) as (reply & Ho & Hok & Hp).
  exists reply, (into_object (Matches (List.map lit ["pkg/sub/d.py"; "a.py"; "b.py"]%string))).
  split; [exact scan_overlay_matches|]. split; [exact Ho|]. split; [exact Hok|exact Hp].
Defined.
