(* ===== verification/MountProps.v ===== *)
(** Properties of the mount table: its ordering and disjointness, longest-prefix
    routing, isolation of the mounts from one another, and the read-only
    guarantee. *)
From Stdlib Require Import Sorted.
From S2P Require Import Prelude Str BTreeMap FileMode VirtualPath FsTypes PathSecurity Host Common OverlayState Overlay OverlayOps TreeHost OverlayInv OverlayStep OverlayProps OverlayHost Direct MountTable Fnmatch Glob GlobProps OverlayKeys Scan ScanProps.
Local Open Scope Z_scope.
Local Open Scope monty_scope.

#[local] Existing Instance example_layout.
#[local] Existing Instance ascii_case.
#[local] Existing Instance state_layout.

Section MountProps.
Context `{HostLaws} `{OverlayLayout} `{StateLayout} `{CharCase}.

(** ** The table's invariant *)

Definition longer (a b : Mount) : Prop := zlen (vpath_of b) <= zlen (vpath_of a).

(** Longest virtual path first, no two mounts overlapping, paths normalized. *)
Record table_ok (mounts : list Mount) : Prop := {
  table_sorted : StronglySorted longer mounts;
  table_disjoint : ForallOrdPairs (fun a b => mounts_overlap a b = false) mounts;
  table_normalized : Forall (fun m => is_normalized (vpath_of m) = true) mounts }.

Lemma mounts_overlap_sym a b : mounts_overlap a b = mounts_overlap b a.
Proof.
  unfold mounts_overlap, path_starts_with.
  assert (Hv : bool_decide (vpath_of a = vpath_of b) = bool_decide (vpath_of b = vpath_of a)).
  { apply bool_decide_ext. split; congruence. }
  assert (Hi : negb (bool_decide (identity (m_root a) = None)) &&
      bool_decide (identity (m_root a) = identity (m_root b)) =
    negb (bool_decide (identity (m_root b) = None)) &&
      bool_decide (identity (m_root b) = identity (m_root a))).
  { destruct (identity (m_root a)) as [x|], (identity (m_root b)) as [y|]; try done.
    rewrite (bool_decide_ext (Some x = Some y) (Some y = Some x)) by (split; congruence). done. }
  rewrite Hv, Hi. f_equal. rewrite <- !orb_assoc. f_equal. apply orb_comm.
Qed.

Lemma insert_mount_elem mounts m x : x ∈ insert_mount mounts m <-> x = m \/ x ∈ mounts.
Proof.
  induction mounts as [|e rest IH]; cbn.
  - rewrite list_elem_of_singleton. set_solver.
  - destruct (_ <? _); rewrite !elem_of_cons, ?IH; naive_solver.
Qed.

Lemma insert_mount_sorted mounts m :
  StronglySorted longer mounts -> StronglySorted longer (insert_mount mounts m).
Proof.
  induction 1 as [|e rest Hs IH HF]; cbn; [by repeat constructor|].
  destruct (_ <? _) eqn:E; zbool.
  - constructor; [done|]. rewrite Forall_forall in *. intros x [->|Hx]%insert_mount_elem.
    + unfold longer. lia.
    + by apply HF.
  - constructor; [by constructor|]. constructor; [done|].
    eapply Forall_impl; [exact HF|]. unfold longer. intros x Hx. lia.
Qed.

Lemma insert_mount_disjoint mounts m :
  ForallOrdPairs (fun a b => mounts_overlap a b = false) mounts ->
  Forall (fun a => mounts_overlap a m = false) mounts ->
  ForallOrdPairs (fun a b => mounts_overlap a b = false) (insert_mount mounts m).
Proof.
  induction 1 as [|e rest HF Hp IH]; cbn; intros Hm; [by repeat constructor|].
  inversion Hm as [|? ? He Hrest]; subst. destruct (_ <? _).
  - constructor; [|by apply IH]. rewrite Forall_forall in *. intros x [->|Hx]%insert_mount_elem;
      [done|by apply HF].
  - constructor; [|by constructor]. eapply Forall_impl; [exact Hm|].
    intros x Hx. by rewrite mounts_overlap_sym.
Qed.

(** Adding a mount keeps the table sorted longest virtual path first with
    no two mounts overlapping: a mount that shares a directory, a virtual path
    or a host subtree with another is refused and the table is left as it was. *)
Theorem push_mount_ok mounts m r mounts' :
  table_ok mounts -> is_normalized (vpath_of m) = true -> push_mount m mounts = (r, mounts') ->
  table_ok mounts'
  /\ (is_ok r = true <-> Forall (fun e => mounts_overlap e m = false) mounts)
  /\ (is_ok r = false -> mounts' = mounts).
Proof.
  intros [Hs Hd Hn] Hm. unfold push_mount.
  destruct (List.find _ mounts) as [e|] eqn:Hf; intros [= <- <-].
  - apply find_some in Hf as [Hin Ho]. split; [done|]. split; [|done]. split; [done|].
    intros HF. rewrite Forall_forall in HF. apply list_elem_of_In in Hin.
    by rewrite (HF e Hin) in Ho.
  - assert (HF : Forall (fun e => mounts_overlap e m = false) mounts).
    { apply Forall_forall. intros x Hx. apply list_elem_of_In in Hx.
      by apply (find_none _ _ Hf). }
    split; [|done]. constructor.
    + by apply insert_mount_sorted.
    + by apply insert_mount_disjoint.
    + apply Forall_forall. intros x [->|Hx]%insert_mount_elem; [done|].
      by rewrite Forall_forall in Hn; apply Hn.
Qed.

(** ** Longest-prefix routing *)

Lemma position_Some {A} (f : A -> bool) l i :
  position f l = Some i ->
  exists x, l !! i = Some x /\ f x = true /\ forall j y, (j < i)%nat -> l !! j = Some y -> f y = false.
Proof.
  revert i. induction l as [|x l IH]; intros i; cbn; [done|]. destruct (f x) eqn:Hf.
  - intros [= <-]. exists x. split; [done|]. split; [done|]. intros j y Hj. lia.
  - destruct (position f l) as [k|] eqn:Hk; [|done]. cbn. intros [= <-].
    destruct (IH k eq_refl) as (z & Hz & Hfz & Hlt). exists z. split; [done|]. split; [done|].
    intros [|j] y Hj Hy; [by injection Hy as <-|]. eapply (Hlt j); [lia|done].
Qed.

Lemma position_None {A} (f : A -> bool) l : position f l = None -> Forall (fun x => f x = false) l.
Proof.
  induction l as [|x l IH]; cbn; [by constructor|]. destruct (f x) eqn:Hf; [done|].
  destruct (position f l); [done|]. constructor; [done|by apply IH].
Qed.

(** The path lies at or below the mount's own. *)
Definition covers (m p : str) : Prop := exists rel, p = under_mount m rel.

Lemma strip_prefix_None p s : strip_prefix p s = None <-> ~ p `prefix_of` s.
Proof.
  split.
  - intros Hn [r ->]. by rewrite (proj2 (strip_prefix_Some p (p ++ r) r) eq_refl) in Hn.
  - intros Hn. destruct (strip_prefix p s) as [r|] eqn:E; [|done].
    apply strip_prefix_Some in E. exfalso. apply Hn. by exists r.
Qed.

(** The routing test and the stripping of the prefix accept the same paths. *)
Lemma path_matches_strip p m :
  is_normalized p = true ->
  path_matches_mount p m = match strip_mount_prefix p m with Some _ => true | None => false end.
Proof.
  intros Hp. unfold path_matches_mount, strip_mount_prefix.
  destruct (bool_decide (m = [slash])) eqn:Hroot; [done|]. cbn [orb].
  destruct (bool_decide (p = m)) eqn:Heq; [done|].
  unfold starts_with. destruct (strip_prefix m p) as [r|] eqn:Hs; [|done]. cbn [andb].
  apply strip_prefix_Some in Hs as ->.
  change (Some r ≫= strip_prefix [slash]) with (strip_prefix [slash] r).
  rewrite lookup_app_r, Nat.sub_diag by lia. destruct r as [|c r]; [by rewrite bool_decide_false|].
  cbn [strip_prefix lookup list_lookup]. destruct (Ascii.eqb_spec slash c) as [<-|Hc].
  - by rewrite bool_decide_true.
  - rewrite bool_decide_false; [done|]. congruence.
Qed.

Lemma mounts_distinct mounts i j a b :
  table_ok mounts -> mounts !! i = Some a -> mounts !! j = Some b -> vpath_of a = vpath_of b -> i = j.
Proof.
  intros [_ Hd _]. revert i j. induction Hd as [|e rest HF Hd IH]; intros i j Ha Hb Hv; [done|].
  assert (Hne : forall k x, rest !! k = Some x -> vpath_of e <> vpath_of x).
  { intros k x Hx Heq. rewrite Forall_forall in HF. specialize (HF x (list_elem_of_lookup_2 _ _ _ Hx)).
    unfold mounts_overlap in HF. rewrite (bool_decide_true (vpath_of e = vpath_of x)) in HF by done.
    by rewrite orb_true_r in HF. }
  destruct i as [|i], j as [|j]; [done|..]; cbn in Ha, Hb.
  - injection Ha as <-. by destruct (Hne _ _ Hb).
  - injection Hb as <-. by destruct (Hne _ _ Ha).
  - f_equal. by apply (IH i j).
Qed.

Lemma sorted_lookup mounts i j a b :
  StronglySorted longer mounts -> mounts !! i = Some a -> mounts !! j = Some b -> (i < j)%nat ->
  zlen (vpath_of b) <= zlen (vpath_of a).
Proof.
  intros Hs. revert i j. induction Hs as [|e rest Hs IH HF]; intros i j Ha Hb Hij; [done|].
  destruct j as [|j]; [lia|]. cbn in Hb. destruct i as [|i]; cbn in Ha.
  - injection Ha as <-. rewrite Forall_forall in HF. apply HF. by eapply list_elem_of_lookup_2.
  - apply (IH i j); [done..|lia].
Qed.

Lemma path_matches_prefix p m :
  is_normalized p = true -> path_matches_mount p m = true -> m `prefix_of` p.
Proof.
  intros Hp. destruct (is_normalized_abs _ Hp) as [q ->]. unfold path_matches_mount.
  destruct (bool_decide (m = [slash])) eqn:Hroot.
  { apply bool_decide_eq_true in Hroot as ->. intros _. by exists q. }
  destruct (bool_decide (slash :: q = m)) eqn:Heq; cbn [orb].
  - apply bool_decide_eq_true in Heq as <-. done.
  - intros [Hs _]%andb_true_iff. by apply starts_with_spec.
Qed.

Lemma prefix_same_length (a b s : str) :
  a `prefix_of` s -> b `prefix_of` s -> length b = length a -> a = b.
Proof.
  intros [x ->] [y Hy] Hl. by apply app_inj_1 in Hy as [-> _].
Qed.

(** A path is routed to the one mount whose virtual path is the longest
    that covers it, and to none exactly when no mount covers it; a routed path
    always resolves relative to its mount, so the backend never answers that no
    mount covers it. *)
Theorem find_mount_longest mounts p :
  table_ok mounts ->
  match find_mount mounts p with
  | Some i => exists m rel, mounts !! i = Some m
      /\ strip_mount_prefix (normalize_virtual_path p) (vpath_of m) = Some rel
      /\ forall j m', mounts !! j = Some m' ->
           path_matches_mount (normalize_virtual_path p) (vpath_of m') = true ->
           i = j \/ zlen (vpath_of m') < zlen (vpath_of m)
  | None => Forall (fun m => strip_mount_prefix (normalize_virtual_path p) (vpath_of m) = None) mounts
  end.
Proof.
  intros Hok. pose proof (normalize_virtual_path_is_normalized p) as Hn. unfold find_mount.
  set (n := normalize_virtual_path p) in *.
  destruct (position _ mounts) as [i|] eqn:Hpos.
  - apply position_Some in Hpos as (m & Hm & Hmatch & Hbefore).
    rewrite path_matches_strip in Hmatch by done.
    destruct (strip_mount_prefix n (vpath_of m)) as [rel|] eqn:Hs; [|done].
    exists m, rel. split; [done|]. split; [done|]. intros j m' Hm' Hmatch'.
    destruct (decide (j < i)%nat) as [Hlt|Hge]; [by rewrite (Hbefore j m' Hlt Hm') in Hmatch'|].
    destruct (decide (i = j)) as [->|Hne]; [by left|right].
    assert (Hle : zlen (vpath_of m') <= zlen (vpath_of m)).
    { apply (sorted_lookup _ _ _ _ _ (table_sorted _ Hok) Hm Hm'). lia. }
    destruct (decide (zlen (vpath_of m') = zlen (vpath_of m))) as [Heq|]; [|lia]. exfalso.
    apply Hne. apply (mounts_distinct mounts i j m m'); try done.
    apply (prefix_same_length _ _ n); [apply path_matches_prefix; [done|] |by apply path_matches_prefix|].
    + rewrite path_matches_strip by done. by rewrite Hs.
    + unfold zlen in Heq. lia.
  - apply position_None in Hpos. eapply Forall_impl; [exact Hpos|]. intros m Hmm. cbn beta in Hmm.
    rewrite path_matches_strip in Hmm by done. by destruct (strip_mount_prefix n (vpath_of m)).
Qed.

(** ** Calls *)

Lemma dispatch_overlay r ctx st :
  dispatch_execute r ctx (OverlayMemory st) =
  let '(v, (st', ctx')) := OverlayOps.execute r (st, ctx) in (v, (ctx', OverlayMemory st')).
Proof. unfold dispatch_execute. by rewrite andb_false_r. Qed.

(** A read-only mount serves reads from the host and refuses writes, changing
    nothing either way. *)
Lemma dispatch_read_only r ctx :
  dispatch_execute r ctx ReadOnly =
  (if is_write r then Err (ReadOnlyError (primary_path r)) else (Direct.execute r ctx).1,
   (ctx, ReadOnly)).
Proof.
  unfold dispatch_execute. rewrite andb_true_r. destruct (is_write r) eqn:Hw; [done|].
  pose proof (direct_read_observes r Hw ctx) as Ho.
  destruct (Direct.execute r ctx) as [v ctx']. cbn in *. by subst.
Qed.

Lemma after_call_same now m : after_call m (backend now m) (m_mode m) = m.
Proof. by destruct m as [[]]. Qed.

Lemma mount_execute_read_only now call m :
  m_mode m = ReadOnly -> (mount_execute now call m).2 = m.
Proof.
  intros Hm. unfold mount_execute. destruct (match call with CCreateExclusive _ _ _ => _ | _ => _ end);
    [|done]. destruct (fs_request_from_call call) as [r|]; [|done].
  rewrite Hm, dispatch_read_only. cbn. rewrite <- Hm. apply after_call_same.
Qed.

(** What is checked of a call before its mount looks at it: the arguments of an exclusive
    creation. *)
Definition call_arguments (call : OsFunctionCall) : result unit MountError :=
  match call with
  | CCreateExclusive _ mode permissions => map_err InvalidArgument (validate_create_exclusive mode permissions)
  | _ => Ok tt
  end.

(** C31: a read-only mount is never modified: whatever the call, the mount and
    the host behind it are as before, and a call that writes is refused: with
    the read-only error on its path, unless it is an exclusive creation whose mode or
    permissions are invalid, which is refused with that error before the mode of the
    mount is looked at. *)
Theorem read_only_never_writes now call m :
  m_mode m = ReadOnly ->
  (mount_execute now call m).2 = m
  /\ (call_is_write call = true -> exists r, fs_request_from_call call = Some r /\
       (mount_execute now call m).1
       = match call_arguments call with Ok _ => Err (ReadOnlyError (primary_path r)) | Err e => Err e end).
Proof.
  intros Hm. split; [by apply mount_execute_read_only|]. intros Hc.
  destruct (fs_request_from_call call) as [r|] eqn:Hr; [|by destruct call]. exists r. split; [done|]. unfold mount_execute.
  fold (call_arguments call). destruct (call_arguments call) as [|e]; [|done].
  by rewrite Hr, Hm, dispatch_read_only, (fs_request_is_write _ _ Hr), Hc.
Qed.

(** What identifies a mount, which no call changes. *)
Definition same_identity (a b : Mount) : Prop :=
  vpath_of b = vpath_of a /\ host_path (m_root b) = host_path (m_root a)
  /\ identity (m_root b) = identity (m_root a)
  /\ m_write_bytes_limit b = m_write_bytes_limit a
  /\ m_memory_usage_limit b = m_memory_usage_limit a.

Lemma mount_execute_identity now call m : same_identity m (mount_execute now call m).2.
Proof.
  unfold mount_execute. destruct (match call with CCreateExclusive _ _ _ => _ | _ => _ end); [|done].
  destruct (fs_request_from_call call); [|done].
  by destruct (dispatch_execute _ _ _) as [r [ctx mode]].
Qed.

(** A call runs on one mount; a scan changes none. *)
Lemma execute_on_changes now i call mounts :
  (execute_on now i call mounts).2 = mounts
  \/ exists m, mounts !! i = Some m
       /\ (execute_on now i call mounts).2 = <[i := (mount_execute now call m).2]> mounts.
Proof.
  unfold execute_on.
  destruct (mounts !! i) as [m|]; [|by left; destruct call]. destruct call; try by left.
  all: right; exists m; split; [done|]; by destruct (mount_execute _ _ _).
Qed.

(** C32: a call touches at most the mount its path is routed to: every other
    mount of the table is the same afterwards, and no call changes where a
    mount is, its host directory or its limits. *)
Theorem handle_os_call_isolated now call mounts j m :
  mounts !! j = Some m ->
  exists m', (handle_os_call now call mounts).2 !! j = Some m'
    /\ same_identity m m'
    /\ (forall p, fs_primary_path call = Some p -> find_mount mounts p <> Some j -> m' = m).
Proof.
  intros Hj. unfold handle_os_call.
  destruct (fs_primary_path call) as [p|] eqn:Hp; [|by exists m].
  destruct (path_rejection p call); [by exists m|].
  destruct (route_call mounts p call) as [[i|e]|] eqn:Hr; [|by exists m..].
  assert (Hi : find_mount mounts p = Some i).
  { revert Hr. unfold route_call. destruct (rename_destination call) as [dst|].
    - destruct (reject_overlong_path _); [|done]. destruct (contains_null_byte _); [done|].
      destruct (find_mount mounts p) as [s|], (find_mount mounts dst) as [n|]; try done.
      destruct (Nat.eqb s n); [by intros [= ->]|done].
    - destruct (find_mount mounts p); cbn; [|done]. by intros [= ->]. }
  pose proof (execute_on_changes now i call mounts) as Hex.
  destruct (execute_on now i call mounts) as [r mounts']. cbn in Hex |- *.
  destruct Hex as [->|(mi & Hmi & ->)]; [by exists m|].
  pose proof (mount_execute_identity now call mi) as Hid. destruct (decide (i = j)) as [->|Hne].
  - rewrite list_lookup_insert_eq by (by eapply lookup_lt_Some).
    assert (mi = m) as -> by congruence. eexists. split; [done|]. split; [done|].
    intros p' [= <-] Hn. congruence.
  - rewrite list_lookup_insert_ne by done. by exists m.
Qed.

Lemma mount_read_observes now call : call_is_write call = false -> observes (mount_execute now call).
Proof.
  intros Hc m. unfold mount_execute.
  destruct (match call with CCreateExclusive _ _ _ => _ | _ => _ end); [|done].
  destruct (fs_request_from_call call) as [r|] eqn:Hr; [|done].
  rewrite <- (fs_request_is_write _ _ Hr) in Hc. destruct (m_mode m) as [| |st] eqn:Hm.
  - unfold dispatch_execute. rewrite Hc. pose proof (direct_read_observes r Hc (backend now m)) as Ho.
    destruct (Direct.execute r (backend now m)). cbn in *. subst. rewrite <- Hm. apply after_call_same.
  - rewrite dispatch_read_only, <- Hm. apply after_call_same.
  - rewrite dispatch_overlay. pose proof (overlay_read_observes r Hc (st, backend now m)) as Ho.
    destruct (OverlayOps.execute r _) as [v [st' ctx']]. cbn in *. injection Ho as -> ->.
    rewrite <- Hm. apply after_call_same.
Qed.

Lemma execute_on_reads now i call : call_is_write call = false -> observes (execute_on now i call).
Proof.
  intros Hc mounts. destruct (execute_on_changes now i call mounts) as [->|(m & Hm & ->)]; [done|].
  rewrite (mount_read_observes now call Hc m). by apply list_insert_id.
Qed.

(** A call that does not write changes nothing: no mount of the table, no
    counter, no overlay entry and no host directory, whatever its outcome. *)
Theorem reads_change_nothing now call mounts :
  call_is_write call = false -> (handle_os_call now call mounts).2 = mounts.
Proof.
  intros Hc. unfold handle_os_call. destruct (fs_primary_path call) as [p|]; [|done].
  destruct (path_rejection p call); [done|]. destruct (route_call mounts p call) as [[i|e]|]; [|done..].
  pose proof (execute_on_reads now i call Hc mounts) as Hex. by destruct (execute_on now i call mounts).
Qed.

(** A rename whose two ends are not covered by the same mount is refused
    with the cross-device error and changes nothing, also when only one end is
    mounted: the other mount's access mode cannot be bypassed. *)
Theorem cross_mount_rename_refused now src dst mounts :
  reject_overlong_path src = Ok tt -> contains_null_byte src = false ->
  reject_overlong_path dst = Ok tt -> contains_null_byte dst = false ->
  find_mount mounts src <> find_mount mounts dst ->
  handle_os_call now (CRename src dst) mounts
  = (Handled (Err (CrossMountRename src dst)), mounts).
Proof.
  intros Hs Hsn Hd Hdn Hne. unfold handle_os_call, path_rejection. cbn [fs_primary_path].
  rewrite Hs, Hsn. unfold route_call. cbn [rename_destination]. rewrite Hd, Hdn.
  destruct (find_mount mounts src) as [i|], (find_mount mounts dst) as [j|]; try done.
  destruct (Nat.eqb_spec i j); [congruence|done].
Qed.

(** a path that is over-long or holds a null byte is refused before any
    mount is consulted, covered or not: the existence checks answer [False],
    every other call fails, and no mount changes. *)
Theorem unusable_path_refused now call mounts p :
  fs_primary_path call = Some p -> path_too_long p || contains nul p = true ->
  exists e, handle_os_call now call mounts
    = (Handled (if is_existence_check call then Ok (OBool false) else Err e), mounts).
Proof.
  intros Hp Hbad. unfold handle_os_call. rewrite Hp.
  assert (Hr : exists e, path_rejection p call = Some e).
  { unfold path_rejection, reject_overlong_path, contains_null_byte.
    destruct (path_too_long p); cbn in *; [eauto|]. rewrite Hbad. eauto. }
  destruct Hr as [e ->]. eauto.
Qed.

(** ** Resource limits across the table *)

(** A direct request charges the quota only with what it checked. *)
Definition quota_step (ctx ctx' : MountContext) : Prop :=
  write_bytes_limit ctx' = write_bytes_limit ctx
  /\ (write_bytes_used ctx' = write_bytes_used ctx \/
      exists n, check_write_limit n ctx = Ok tt
        /\ write_bytes_used ctx' = write_bytes_used (commit_write_bytes n ctx)).

Lemma quota_step_ok ctx ctx' : quota_step ctx ctx' -> quota_ok ctx -> quota_ok ctx'.
Proof.
  intros [Hl [Hu|(n & Hn & Hu)]] Hq.
  - unfold quota_ok in *. by rewrite Hl, Hu.
  - pose proof (commit_write_bytes_ok n ctx Hq Hn) as Hc. unfold quota_ok in *.
    rewrite Hl, Hu. unfold commit_write_bytes in *.
    by destruct (write_bytes_limit ctx) eqn:E; cbn in *; rewrite ?E in *.
Qed.

Lemma on_host_keeps {A} (m : M Dir MountError A) ctx :
  quota_step ctx (Direct.on_host m ctx).2.
Proof. unfold Direct.on_host. destruct (m _). by split; [|left]. Qed.

Lemma on_host_quota {A} (m : M Dir MountError A) n ctx r ctx' :
  Direct.on_host m ctx = (r, ctx') -> check_write_limit n ctx = Ok tt ->
  quota_step ctx (commit_write_bytes n ctx').
Proof.
  unfold Direct.on_host. destruct (m (mount_dir ctx)) as [r' d]. intros [= _ <-] Hn.
  unfold quota_step, commit_write_bytes. cbn [set_mount_dir write_bytes_limit].
  destruct (write_bytes_limit ctx) eqn:E; cbn; split; auto. right. by exists n.
Qed.

Lemma quota_step_refl ctx : quota_step ctx ctx.
Proof. by split; [|left]. Qed.

(** Follows a direct request to its host operation and its charge. *)
Ltac follow_direct :=
  unfold Direct.resolve, sbind, Direct.query, Direct.commit, sret, slift;
  repeat match goal with
  | |- context [check_write_limit ?n ?c] =>
      let E := fresh "Hcheck" in destruct (check_write_limit n c) as [[]|] eqn:E
  | |- context [resolve_virtual_path ?a ?b] => destruct (resolve_virtual_path a b)
  | |- context [Direct.reject_mount_root ?a ?b] => destruct (Direct.reject_mount_root a b)
  | |- context [Direct.on_host ?m ?c] =>
      let E := fresh "Hhost" in
      pose proof (on_host_keeps m c); destruct (Direct.on_host m c) as [[]] eqn:E
  end; cbn [snd fst] in *; auto using quota_step_refl; try (by eapply on_host_quota).

Lemma direct_quota r ctx : quota_step ctx (Direct.execute r ctx).2.
Proof.
  destruct (is_write r) eqn:Hw.
  2:{ rewrite direct_read_observes by done. apply quota_step_refl. }
  destruct r; try done; cbn [Direct.execute];
    unfold Direct.write_text, Direct.write_bytes, Direct.append_text, Direct.append_bytes,
      Direct.mkdir, Direct.rename, Direct.open_; try (destruct mode; try done); follow_direct.
Qed.

(** What a mount promises about its resources. *)
Record mount_ok (m : Mount) : Prop := {
  mount_quota : match m_write_bytes_limit m with
                | Some l => m_write_bytes_used m <= l
                | None => True
                end;
  mount_memory : match m_mode m with
                 | OverlayMemory st =>
                     wf_state st /\ memory_usage st <= m_memory_usage_limit m < u64_max
                 | _ => True
                 end }.

(** A rename's plan fits the counter of the overlay it runs on. *)
Definition call_fits (now : nat -> SystemTime) (call : OsFunctionCall) (m : Mount) : Prop :=
  match m_mode m, fs_request_from_call call with
  | OverlayMemory st, Some r => request_fits r st (backend now m)
  | _, _ => True
  end.

Lemma mount_execute_ok now call m :
  mount_ok m -> call_fits now call m -> mount_ok (mount_execute now call m).2.
Proof.
  intros Hok Hfit. pose proof Hok as [Hq Hi]. unfold mount_execute.
  destruct (match call with CCreateExclusive _ _ _ => _ | _ => _ end); [|done].
  unfold call_fits in Hfit. destruct (fs_request_from_call call) as [r|]; [|done].
  destruct (m_mode m) as [| |st] eqn:Hmode.
  - unfold dispatch_execute. rewrite andb_false_r.
    pose proof (quota_step_ok _ _ (direct_quota r (backend now m)) Hq) as Hd.
    pose proof (direct_quota r (backend now m)) as [Hl _].
    destruct (Direct.execute r (backend now m)) as [v ctx']. cbn in Hd, Hl |- *.
    constructor; cbn; [|done]. unfold quota_ok in Hd. by rewrite Hl in Hd.
  - rewrite dispatch_read_only. cbn. constructor; [done|]. done.
  - destruct Hi as (Hwf & Hu & Hlt). rewrite dispatch_overlay.
    assert (Hinv : overlay_inv st (backend now m)) by by constructor.
    pose proof (execute_ostep_any r st (backend now m) Hinv Hfit) as Hstep. cbn in Hstep.
    destruct (OverlayOps.execute r (st, backend now m)) as [v [st' ctx']]. cbn in *.
    pose proof (ostep_same_mount _ _ _ _ Hstep) as (_ & _ & Hl & Hm & _). cbn in Hl, Hm.
    destruct (ostep_inv _ _ _ _ Hstep Hinv) as [Hwf' Hu' _]. rewrite Hm in Hu'.
    pose proof (ostep_quota _ _ _ _ Hstep Hq) as Hq'. unfold quota_ok in Hq'. rewrite Hl in Hq'.
    by constructor.
Qed.

(** C16: the limits of every mount hold at all times: handling any call keeps
    each mount's written bytes within its quota and each overlay's memory,
    accounted exactly, within its limit. *)
Theorem handle_os_call_limits now call mounts :
  Forall mount_ok mounts -> Forall (call_fits now call) mounts ->
  Forall mount_ok (handle_os_call now call mounts).2.
Proof.
  intros Hok Hfit. unfold handle_os_call. destruct (fs_primary_path call) as [p|]; [|done].
  destruct (path_rejection p call); [done|].
  destruct (route_call mounts p call) as [[i|e]|]; [|done..].
  pose proof (execute_on_changes now i call mounts) as Hex.
  destruct (execute_on now i call mounts) as [r mounts']. cbn in Hex |- *.
  destruct Hex as [->|(m & Hm & ->)]; [done|]. pose proof Hok as Hall. rewrite Forall_lookup in Hok, Hfit.
  apply Forall_insert; [done|]. apply mount_execute_ok; [by eapply Hok|by eapply Hfit].
Qed.

(** The overlay of a mount, if it has one, records its entries under normalized
    paths. *)
Definition mount_plain (m : Mount) : Prop :=
  match m_mode m with OverlayMemory st => plain_keys st | _ => True end.

Lemma mount_execute_plain now call m :
  is_normalized (vpath_of m) = true -> call_fits now call m -> mount_ok m -> mount_plain m ->
  mount_plain (mount_execute now call m).2.
Proof.
  intros Hn Hfit Hok Hp. pose proof (mount_execute_ok now call m Hok Hfit) as Hok'. revert Hok' Hp.
  unfold mount_execute. destruct (match call with CCreateExclusive _ _ _ => _ | _ => _ end); [|done].
  unfold call_fits in Hfit. destruct (fs_request_from_call call) as [r|]; [|done].
  unfold mount_plain. destruct (m_mode m) as [| |st].
  - unfold dispatch_execute. rewrite andb_false_r. by destruct (Direct.execute _ _).
  - by rewrite dispatch_read_only.
  - rewrite dispatch_overlay. intros Hok' [Hwf Hk].
    pose proof (execute_keys_plain st (backend now m) Hn Hk r Hwf Hfit) as Hk'.
    destruct (OverlayOps.execute r (st, backend now m)) as [v [st' ctx']]. cbn in *.
    split; [|done]. by destruct (mount_memory _ Hok') as [Hwf' _].
Qed.

(** The overlays of the table record their entries under normalized relative
    paths only, whatever calls they serve: no key ever holds an empty, [.] or
    [..] component, also when host directories with arbitrary names are renamed
    into the overlay. *)
Theorem overlay_keys_stay_plain now call mounts :
  table_ok mounts -> Forall mount_ok mounts -> Forall (call_fits now call) mounts ->
  Forall mount_plain mounts -> Forall mount_plain (handle_os_call now call mounts).2.
Proof.
  intros [_ _ Hn] Hok Hfit Hp. unfold handle_os_call. destruct (fs_primary_path call) as [p|]; [|done].
  destruct (path_rejection p call); [done|].
  destruct (route_call mounts p call) as [[i|e]|]; [|done..].
  pose proof (execute_on_changes now i call mounts) as Hex.
  destruct (execute_on now i call mounts) as [r mounts']. cbn in Hex |- *.
  destruct Hex as [->|(m & Hm & ->)]; [done|]. pose proof Hp as Hall.
  rewrite Forall_lookup in Hok, Hfit, Hp, Hn. apply Forall_insert; [done|].
  apply mount_execute_plain; eauto.
Qed.
End MountProps.

(** ** Examples *)

Definition demo_root (v : str) (host : list bytes) (id : Z) : MountRoot :=
  {| virtual_path := v; host_path := host; identity := Some (1, id); root_dir := demo_tree |}.

Definition demo_overlay : Mount :=
  with_root (demo_root (lit "/data") [lit "srv"; lit "data"] 10) (OverlayMemory new_state) (Some 1000).
Definition demo_nested : Mount :=
  with_root (demo_root (lit "/data/ro") [lit "srv"; lit "ro"] 11) ReadOnly None.

Definition demo_table : list Mount := (push_mount demo_nested [demo_overlay]).2.

Definition demo_clock : nat -> SystemTime := fun _ => 5000000000.

Lemma demo_single_ok : table_ok [demo_overlay].
Proof. by repeat constructor. Qed.

Lemma push_mount_ok_witness : table_ok demo_table.
Proof.
  apply (push_mount_ok [demo_overlay] demo_nested (Ok tt));
    [apply demo_single_ok|vm_compute; reflexivity|vm_compute; reflexivity].
Defined.

Example demo_table_order : List.map vpath_of demo_table = List.map lit ["/data/ro"; "/data"]%string.
Proof. reflexivity. Qed.

Lemma demo_table_ok : table_ok demo_table.
Proof.
  constructor.
  - repeat constructor; by vm_compute.
  - by repeat constructor.
  - by repeat constructor.
Qed.

Lemma find_mount_longest_witness :
  exists m rel, demo_table !! 0%nat = Some m
    /\ strip_mount_prefix (normalize_virtual_path (lit "/data/./ro/f")) (vpath_of m) = Some rel.
Proof.
  destruct (find_mount_longest demo_table (lit "/data/./ro/f") demo_table_ok) as (m & rel & Hm & Hs & _).
  exists m, rel. split; [exact Hm|exact Hs].
Defined.

Lemma read_only_never_writes_witness :
  (mount_execute demo_clock (CWriteText (lit "/data/ro/f") (lit "x")) demo_nested).2 = demo_nested
  /\ (mount_execute demo_clock (CWriteText (lit "/data/ro/f") (lit "x")) demo_nested).1
     = Err (ReadOnlyError (lit "/data/ro/f")).
Proof.
  destruct (read_only_never_writes demo_clock (CWriteText (lit "/data/ro/f") (lit "x")) demo_nested
    eq_refl) as (H1 & H2). split; [exact H1|]. destruct (H2 eq_refl) as (r & Hr & E). rewrite E. by injection Hr as <-.
Defined.

Lemma handle_os_call_isolated_witness :
  exists m', (handle_os_call demo_clock (CWriteText (lit "/data/f") (lit "x")) demo_table).2 !! 0%nat
    = Some m' /\ m' = demo_nested.
Proof.
  destruct (handle_os_call_isolated demo_clock (CWriteText (lit "/data/f") (lit "x")) demo_table
    0 demo_nested eq_refl) as (m' & Hm & _ & Hs).
  exists m'. split; [exact Hm|]. apply (Hs (lit "/data/f") eq_refl). by vm_compute.
Defined.

Lemma reads_change_nothing_witness :
  (handle_os_call demo_clock (CReadText (lit "/data/a.txt")) demo_table).2 = demo_table.
Proof. apply reads_change_nothing. reflexivity. Defined.

Lemma cross_mount_rename_refused_witness :
  handle_os_call demo_clock (CRename (lit "/data/a.txt") (lit "/data/ro/a.txt")) demo_table
  = (Handled (Err (CrossMountRename (lit "/data/a.txt") (lit "/data/ro/a.txt"))), demo_table).
Proof. apply cross_mount_rename_refused; by vm_compute. Defined.

Lemma unusable_path_refused_witness :
  exists e, handle_os_call demo_clock (CReadText (lit "/data/" ++ [nul])) demo_table
    = (Handled (Err e), demo_table).
Proof.
  apply (unusable_path_refused demo_clock (CReadText (lit "/data/" ++ [nul])) demo_table
    (lit "/data/" ++ [nul])); vm_compute; reflexivity.
Defined.

Lemma handle_os_call_limits_witness :
  Forall mount_ok
    (handle_os_call demo_clock (CWriteText (lit "/data/f") (lit "x")) demo_table).2.
Proof.
  apply handle_os_call_limits; [|by repeat constructor].
  repeat constructor; by vm_compute.
Defined.

Lemma overlay_keys_stay_plain_witness :
  Forall mount_plain
    (handle_os_call demo_clock (CMkdir (lit "/data/./x/../y/z") true false) demo_table).2.
Proof.
  apply overlay_keys_stay_plain; [apply demo_table_ok| |by repeat constructor|].
  - repeat constructor; by vm_compute.
  - constructor; [exact I|]. constructor; [|constructor].
    split; [by repeat constructor|]. intros k e He. discriminate He.
Defined.
