(* ===== verification/Import.v ===== *)
(** Imports answered from files ([crates/monty-types/src/import.rs] and
    [MountTable::read_module]): the candidates of a module, how a read of one is
    classified, and the search through the mounts.

    [is_identifier] comes from a library the sources only call: it is a parameter,
    with the documented fact that an identifier is one plain path component. *)
From S2P Require Import Prelude Str BTreeMap FileMode VirtualPath FsTypes PathSecurity Host Common OverlayState Overlay OverlayOps TreeHost OverlayInv OverlayProps OverlayHost Direct MountTable Fnmatch Glob GlobProps Scan ScanProps MountProps.
Local Open Scope monty_scope.

Definition MAX_SEARCH_DIRS : nat := 32.

Record ImportArgs := { module_ : str; search_path : list str }.

Definition import_new (module_ : str) : ImportArgs := {| module_ := module_; search_path := [] |}.

(** The positional arguments a host sees for an import. *)
Definition import_to_args (a : ImportArgs) : list MontyObject :=
  [OString (module_ a); OList (List.map OString (search_path a))].

Definition as_str (o : MontyObject) : option str :=
  match o with OString s => Some s | _ => None end.

Definition from_call_args (args : list MontyObject) : option ImportArgs :=
  match args with
  | [] => None
  | m :: rest =>
      as_str m ≫= fun m =>
      match rest with
      | [] => Some (import_new m)
      | dirs :: rest =>
          sequence_items dirs ≫= fun dirs =>
          mapM as_str dirs ≫= fun dirs =>
          match rest with
          | [] => Some {| module_ := m; search_path := dirs |}
          | _ => None
          end
      end
  end.

Definition period : ascii := "."%char.

(** [strip_suffix('/').unwrap_or(dir)]. *)
Definition without_final_slash (dir : str) : str :=
  if ends_with_char slash dir then removelast dir else dir.

(** What the library promises of an identifier. *)
Class Identifiers := {
  is_identifier : str -> bool;
  identifier_plain : forall s, is_identifier s = true -> plain_segment s }.

Definition leaf_name (module_ : str) : str := default module_ (last (split period module_)).

Definition candidates `{Identifiers} (a : ImportArgs) : list str :=
  let valid := forallb is_identifier (split period (module_ a)) in
  let leaf := leaf_name (module_ a) in
  flat_map (fun dir =>
      let dir := without_final_slash dir in
      [dir ++ slash :: leaf ++ lit "/__init__.py"; dir ++ slash :: leaf ++ lit ".py"])
    (take MAX_SEARCH_DIRS
       (List.filter (fun dir => valid && starts_with [slash] dir && negb (contains nul dir))
                    (search_path a))).

(** ** Reading a candidate *)

Inductive ModuleRead :=
| MText (text : str)
| MMissing
| MNotHandled
| MError (exc : MontyException).

Record ModuleFile := { mf_path : str; mf_source : str }.

Inductive ExtFunctionResult :=
| Return (o : MontyObject)
| Error (exc : MontyException)
| Future (call_id : Z)
| NotFoundName (name : str)
| FoundFile (f : ModuleFile).

(** The type names of the objects the mounts return. *)
Definition object_type_name (o : MontyObject) : str :=
  match o with
  | ONone => lit "NoneType"
  | OBool _ => lit "bool"
  | OInt _ => lit "int"
  | OFloat _ => lit "float"
  | OString _ => lit "str"
  | OBytes _ => lit "bytes"
  | OList _ => lit "list"
  | OTuple _ => lit "tuple"
  | OStat _ _ _ _ => lit "namedtuple"
  | ODict _ => lit "dict"
  | OPath _ => lit "PosixPath"
  | OFileHandle h => type_name (fh_mode h)
  end.

Definition from_exception (exc : MontyException) : ModuleRead :=
  match exc_type exc with
  | FileNotFoundError | NotADirectoryError | IsADirectoryError | PermissionError => MMissing
  | _ => MError exc
  end.

Definition from_result (result : ExtFunctionResult) : ModuleRead :=
  match result with
  | Return value =>
      match as_str value with
      | Some text => MText text
      | None =>
          MError (new_exception RuntimeError (Text
            (lit "invalid return type: Path.read_text for an import must return a str, not "
               ++ object_type_name value)))
      end
  | Error exc => from_exception exc
  | NotFoundName _ => MNotHandled
  | Future _ | FoundFile _ =>
      MError (new_exception RuntimeError
        (Text (lit "Path.read_text for an import must be answered with a str")))
  end.

(** ** The search *)

(** The loop over the candidates, [read] threading the host's state. *)
Fixpoint search {S} (read : str -> S -> ModuleRead * S) (paths : list str) (s : S) :
    option ExtFunctionResult * S :=
  match paths with
  | [] => (None, s)
  | path :: paths =>
      let '(r, s) := read path s in
      match r with
      | MText source => (Some (FoundFile {| mf_path := path; mf_source := source |}), s)
      | MMissing | MNotHandled => search read paths s
      | MError exc => (Some (Error exc), s)
      end
  end.

Definition find_module_file `{Identifiers} {S} (a : ImportArgs) (read : str -> S -> ModuleRead * S)
    (s : S) : option ExtFunctionResult * S :=
  search read (candidates a) s.

Section Mounts.
Context `{HostDir} `{OverlayLayout} `{StateLayout} `{CharCase}.

Definition read_module (now : nat -> SystemTime) (path : str) (mounts : list Mount) :
    ModuleRead * list Mount :=
  let '(outcome, mounts) := handle_os_call now (CReadText path) mounts in
  (match outcome with
   | Handled (Ok text) => from_result (Return text)
   | Handled (Err err) => from_exception (into_exception err)
   | NotHandled _ => MNotHandled
   end, mounts).
End Mounts.

(** ** Candidates stay below their directories *)

Section Candidates.
Context `{Identifiers}.

Lemma leaf_identifier m : forallb is_identifier (split period m) = true -> is_identifier (leaf_name m) = true.
Proof.
  intros Hv. unfold leaf_name. destruct (last (split period m)) as [x|] eqn:Hl.
  - rewrite forallb_forall in Hv. apply Hv, list_elem_of_In. by apply last_Some_elem_of.
  - apply last_None in Hl. by apply split_not_nil in Hl.
Qed.

(** The segments of [without_final_slash dir] resolve as those of [dir]. *)
Lemma resolve_without_final_slash dir :
  resolve_segments (split slash (without_final_slash dir)) = resolve_segments (split slash dir).
Proof.
  unfold without_final_slash. destruct (ends_with_char slash dir) eqn:He; [|done].
  unfold ends_with_char in He. destruct (last dir) as [c|] eqn:Hl; [|done]. apply Ascii.eqb_eq in He as <-.
  destruct dir as [|c' dir] using rev_ind; [done|]. rewrite last_snoc in Hl. injection Hl as ->.
  rewrite removelast_last, split_app_slash. unfold resolve_segments. rewrite fold_left_app. done.
Qed.

(** A path below a directory normalizes below it. *)
Lemma normalize_below dir rel :
  Forall plain_segment rel -> rel <> [] ->
  normalize_virtual_path (without_final_slash dir ++ slash :: Str.join slash rel)
  = render (resolve_segments (split slash dir) ++ rel).
Proof.
  intros HF Hne. rewrite normalize_virtual_path_render, split_app_slash, split_plain_join by done.
  unfold resolve_segments. rewrite fold_left_app. fold (resolve_segments (split slash (without_final_slash dir))).
  rewrite resolve_without_final_slash, fold_step_plain; [done|].
  eapply Forall_impl; [exact HF|]. by intros x [Hx _].
Qed.

Lemma py_file_plain leaf : plain_segment leaf -> plain_segment (leaf ++ lit ".py").
Proof.
  intros [_ Hs]. split.
  - apply special_segment_false. repeat split; intros Heq; apply (f_equal length) in Heq;
      rewrite length_app in Heq; cbn in Heq; lia.
  - rewrite elem_of_app. intros [?|Hin]; [done|]. by apply contains_spec in Hin.
Qed.

(** an import reads only below its search path: each of its at most
    sixty-four candidates is, once normalized, the module's file or its package's
    [__init__.py] directly below a listed absolute directory, whatever the
    module is called. *)
Theorem candidates_confined a :
  (length (candidates a) <= 2 * MAX_SEARCH_DIRS)%nat
  /\ forall p, p ∈ candidates a -> exists dir leaf,
       dir ∈ search_path a /\ starts_with [slash] dir = true /\ is_identifier leaf = true
       /\ (normalize_virtual_path p = render (resolve_segments (split slash dir) ++ [leaf; lit "__init__.py"])
           \/ normalize_virtual_path p = render (resolve_segments (split slash dir) ++ [leaf ++ lit ".py"])).
Proof.
  unfold candidates. set (dirs := take _ _). split.
  - rewrite flat_map_constant_length with (c := 2%nat) by done. unfold dirs. rewrite length_take. lia.
  - intros p Hp. apply list_elem_of_In, in_flat_map in Hp as (dir & Hd & Hp).
    rewrite <- list_elem_of_In in Hd. apply elem_of_take in Hd as (i & Hd & _).
    apply list_elem_of_lookup_2 in Hd. rewrite list_elem_of_In, filter_In, <- list_elem_of_In in Hd.
    destruct Hd as [Hin Hc]. apply andb_true_iff in Hc as [[Hv Hs]%andb_true_iff _].
    apply leaf_identifier in Hv. pose proof (identifier_plain _ Hv) as Hl.
    exists dir, (leaf_name (module_ a)). split; [done|]. split; [done|]. split; [done|].
    destruct Hp as [<-|[<-|[]]]; [left|right].
    + apply (normalize_below dir [leaf_name (module_ a); lit "__init__.py"]); [|done].
      repeat constructor; [apply Hl..|]. by apply contains_false.
    + apply (normalize_below dir [leaf_name (module_ a) ++ lit ".py"]); [|done].
      constructor; [by apply py_file_plain|done].
Qed.
End Candidates.

(** ** The search through the mounts *)

Section Search.
Context `{HostLaws} `{OverlayLayout} `{StateLayout} `{CharCase} `{Identifiers}.

Lemma read_module_same now p mounts : (read_module now p mounts).2 = mounts.
Proof.
  unfold read_module, handle_os_call. cbn [fs_primary_path]. destruct (path_rejection _ _); [done|].
  destruct (route_call _ _ _) as [[i|e]|]; [|done..].
  pose proof (execute_on_reads now i (CReadText p) eq_refl mounts) as Ho.
  by destruct (execute_on now i (CReadText p) mounts).
Qed.

(** A candidate the search passes over. *)
Definition passed_over (now : nat -> SystemTime) (mounts : list Mount) (p : str) : Prop :=
  (read_module now p mounts).1 = MMissing \/ (read_module now p mounts).1 = MNotHandled.

(** The search stops at the first candidate that is not passed over. *)
Lemma search_first now mounts paths :
  let '(r, mounts') := search (read_module now) paths mounts in
  mounts' = mounts /\
  match r with
  | Some (FoundFile f) => exists before after, paths = before ++ mf_path f :: after
      /\ Forall (passed_over now mounts) before
      /\ (read_module now (mf_path f) mounts).1 = MText (mf_source f)
  | Some (Error exc) => exists before p after, paths = before ++ p :: after
      /\ Forall (passed_over now mounts) before /\ (read_module now p mounts).1 = MError exc
  | Some _ => False
  | None => Forall (passed_over now mounts) paths
  end.
Proof.
  induction paths as [|p paths IH]; cbn [search]; [by split|].
  pose proof (read_module_same now p mounts) as Hsame.
  destruct (read_module now p mounts) as [r mounts'] eqn:Hr. cbn in Hsame. subst mounts'.
  assert (Hr1 : (read_module now p mounts).1 = r) by by rewrite Hr.
  destruct r; [by split; [|exists [], paths]| | |by split; [|exists [], p, paths]].
  all: assert (Hp : passed_over now mounts p) by (unfold passed_over; rewrite Hr1; auto).
  all: destruct (search _ paths mounts) as [[[]|] mounts']; destruct IH as [-> IH]; (split; [done|]);
    try done; [destruct IH as (before & q & after & -> & HF & Hq); exists (p :: before), q, after
      |destruct IH as (before & after & -> & HF & Hq); exists (p :: before), after|by constructor];
    (split; [done|]; split; [by constructor|done]).
Qed.

Lemma from_exception_text e t : from_exception e <> MText t.
Proof. unfold from_exception. by destruct (exc_type e). Qed.

(** What a candidate's text comes from. *)
Lemma read_module_text now p mounts t :
  (read_module now p mounts).1 = MText t ->
  handle_os_call now (CReadText p) mounts = (Handled (Ok (OString t)), mounts).
Proof.
  pose proof (read_module_same now p mounts) as Hs. unfold read_module in *.
  destruct (handle_os_call now (CReadText p) mounts) as [[[o|e]|call] mounts']; cbn in *; subst; [| |done].
  - by destruct o; intros [= ->].
  - by intros ?%from_exception_text.
Qed.

(** an import resolves to the first of its candidates that the mounts can
    read, in search-path order with a package before a module: the text is what
    [Path.read_text] returns for that path, every earlier candidate was missing or
    unmounted, an import that finds nothing means all of them were, and the search
    leaves the mounts as they were. *)
Theorem find_module_file_first now a mounts :
  let '(r, mounts') := find_module_file a (read_module now) mounts in
  mounts' = mounts /\
  match r with
  | Some (FoundFile f) => exists before after, candidates a = before ++ mf_path f :: after
      /\ Forall (passed_over now mounts) before
      /\ handle_os_call now (CReadText (mf_path f)) mounts = (Handled (Ok (OString (mf_source f))), mounts)
  | Some (Error exc) => exists before p after, candidates a = before ++ p :: after
      /\ Forall (passed_over now mounts) before /\ (read_module now p mounts).1 = MError exc
  | Some _ => False
  | None => Forall (passed_over now mounts) (candidates a)
  end.
Proof.
  unfold find_module_file. pose proof (search_first now mounts (candidates a)) as Hs.
  destruct (search _ _ _) as [r mounts']. destruct Hs as [-> Hs]. split; [done|].
  destruct r as [[| | | |f]|]; try done. destruct Hs as (before & after & Hc & HF & Ht).
  exists before, after. split; [done|]. split; [done|]. by apply read_module_text.
Qed.

(** The arguments of an import read back from the call a host sees. *)
Lemma import_args_roundtrip a : from_call_args (import_to_args a) = Some a.
Proof.
  destruct a as [m dirs]. unfold import_to_args. cbn.
  assert (Hd : mapM as_str (List.map OString dirs) = Some dirs).
  { induction dirs as [|d dirs IH]; cbn; [done|]. by rewrite IH. }
  by rewrite Hd.
Qed.
End Search.

(** ** Examples

    Identifiers of ASCII letters, digits and underscores. *)
Definition word_char (c : ascii) : bool :=
  let n := N_of_ascii c in
  ((48 <=? n) && (n <=? 57) || (65 <=? n) && (n <=? 90) || (n =? 95) || (97 <=? n) && (n <=? 122))%N.

Definition ascii_identifier (s : str) : bool :=
  match s with
  | c :: _ => negb ((N_of_ascii c) <=? 57)%N && forallb word_char s
  | [] => false
  end.

Lemma ascii_identifier_plain s : ascii_identifier s = true -> plain_segment s.
Proof.
  destruct s as [|c s]; [done|]. unfold ascii_identifier. intros [_ Hw]%andb_true_iff.
  assert (Hno : forall x, word_char x = false -> x ∉ c :: s).
  { intros x Hx Hin. rewrite forallb_forall in Hw. rewrite list_elem_of_In in Hin.
    by rewrite (Hw x Hin) in Hx. }
  split; [|by apply Hno]. apply special_segment_false.
  assert (Hp : period ∉ c :: s) by by apply Hno.
  split; [done|]. split; intros Heq; apply Hp; rewrite Heq; apply list_elem_of_here.
Qed.

Definition ascii_identifiers : Identifiers :=
  {| is_identifier := ascii_identifier; identifier_plain := ascii_identifier_plain |}.

#[local] Existing Instance ascii_identifiers.
#[local] Existing Instance example_layout.
#[local] Existing Instance ascii_case.
#[local] Existing Instance state_layout.

Definition import_of (m : string) (dirs : list string) : ImportArgs :=
  {| module_ := lit m; search_path := List.map lit dirs |}.

(** A package directory is searched before a module file, and a name with a
    separator has no candidates. *)
Example candidates_order :
  candidates (import_of "a.pkg" ["/ov/"; "relative"; "/x"])
  = List.map lit ["/ov/pkg/__init__.py"; "/ov/pkg.py"; "/x/pkg/__init__.py"; "/x/pkg.py"]%string
  /\ candidates (import_of "../etc" ["/ov"]) = [].
Proof. done. Qed.

Lemma candidates_confined_witness :
  exists dir leaf, dir ∈ search_path (import_of "pkg" ["/ov/../x"]) /\ is_identifier leaf = true
    /\ normalize_virtual_path (lit "/ov/../x/pkg.py") = lit "/x/pkg.py".
Proof.
  destruct (candidates_confined (import_of "pkg" ["/ov/../x"])) as [_ Hc].
  destruct (Hc (lit "/ov/../x/pkg.py")) as (dir & leaf & Hd & _ & Hl & _);
    [by apply list_elem_of_In; right; left|].
  exists dir, leaf. split; [exact Hd|]. split; [exact Hl|reflexivity].
Defined.

(** The example overlay holds [b.py] on the host and no [b] package. *)
Example import_finds_module :
  find_module_file (import_of "b" ["/none"; "/ov"]) (read_module scan_clock) scan_mounts
  = (Some (FoundFile {| mf_path := lit "/ov/b.py"; mf_source := lit "b" |}), scan_mounts).
Proof. vm_compute. reflexivity. Qed.

Lemma find_module_file_first_witness :
  exists before after,
    candidates (import_of "b" ["/none"; "/ov"]) = before ++ lit "/ov/b.py" :: after
    /\ Forall (passed_over scan_clock scan_mounts) before.
Proof.
  pose proof (find_module_file_first scan_clock (import_of "b" ["/none"; "/ov"]) scan_mounts) as Hf.
  rewrite import_finds_module in Hf. destruct Hf as (_ & before & after & Hc & HF & _).
  exists before, after. split; [exact Hc|exact HF].
Defined.
