(* ===== verification/HashTable.v ===== *)
(** The insertion-ordered hash table behind [dict] and [set]
    ([crates/monty/src/types/hash_table.rs]).

    A table is a vector of slots, live entries and tombstones interleaved, and
    a [hashbrown] bucket table from hashes to slots. [hashbrown] is a library the
    code only calls: its buckets are the list of stored pairs, and the order
    they are probed in is a parameter with its documented guarantee.  *)
From S2P Require Import Prelude.
#[local] Open Scope monty_scope.

(** ** Interfaces *)

(** The buckets of a [HashTable<usize>]: the stored values with their hashes. *)
Abbreviation buckets := (list (Z * nat)).

(** The values a probe for a hash visits, in order: all values stored under that
    hash, and possibly others whose tag collides. *)
Class Probing := { candidates : buckets -> Z -> list nat }.

Class ProbingLaws `{Probing} : Prop := {
  candidates_complete : forall (b : buckets) h i, (h, i) ∈ b -> i ∈ candidates b h;
  candidates_sound : forall (b : buckets) h i, i ∈ candidates b h -> exists h', (h', i) ∈ b }.

(** [trait TableEntry]. *)
Class TableEntry (Value RunError E : Type) := {
  probe_key : E -> Value;
  hash : E -> Z;
  tombstone : E;
  is_live : E -> bool;
  changed_size_error : RunError;
  changed_keys_error : option RunError }.

(** A tombstone is not live. *)
Class TableEntryLaws {Value RunError E} `{TableEntry Value RunError E} : Prop :=
  tombstone_dead : is_live (Value := Value) (RunError := RunError) tombstone = false.

Definition COMPACT_MIN_SLOTS : nat := 8.

Record PyHashTable (E : Type) := { indices : buckets; entries : list E }.
Arguments indices {E} _.
Arguments entries {E} _.

(** [Slot]. *)
Abbreviation Slot := nat.

(** [TableCursor]. *)
Record TableCursor := {
  slot : nat;
  expected_len : nat;
  remaining : nat;
  exhausted : bool;
  size_changed : bool }.

(** [DumpedCursor]. *)
Record DumpedCursor := {
  d_index : nat;
  d_expected_len : nat;
  d_remaining : option nat;
  d_exhausted : bool;
  d_size_changed : bool }.

Definition cursor_new (expected_len : nat) : TableCursor :=
  {| slot := 0; expected_len := expected_len; remaining := expected_len; exhausted := false;
     size_changed := false |}.

Definition cursor_size_hint (c : TableCursor) : nat := remaining c.

Definition yielded (c : TableCursor) : nat := expected_len c - remaining c.

Definition cursor_from (d : DumpedCursor) : TableCursor :=
  {| slot := d_index d; expected_len := d_expected_len d;
     remaining := default (d_expected_len d - d_index d) (d_remaining d);
     exhausted := d_exhausted d; size_changed := d_size_changed d |}.

Definition set_exhausted (c : TableCursor) : TableCursor :=
  {| slot := slot c; expected_len := expected_len c; remaining := remaining c; exhausted := true;
     size_changed := size_changed c |}.

Definition set_size_changed (c : TableCursor) : TableCursor :=
  {| slot := slot c; expected_len := expected_len c; remaining := remaining c;
     exhausted := exhausted c; size_changed := true |}.

Section HashTable.
Context {Value RunError E : Type} `{TE : !TableEntry Value RunError E} `{Probing}.

Abbreviation table := (PyHashTable E).
Abbreviation live := (is_live (Value := Value) (RunError := RunError) (E := E)).
Abbreviation hash_of := (hash (Value := Value) (RunError := RunError) (E := E)).
Abbreviation dead := (tombstone (Value := Value) (RunError := RunError) (E := E)).

(** ** Operations *)

Definition empty : table := {| indices := []; entries := [] |}.

Definition len (t : table) : nat := length (indices t).

Definition is_empty (t : table) : bool := match indices t with [] => true | _ => false end.

(** [insert_unique]. *)
Definition bucket_insert (h : Z) (i : nat) (b : buckets) : buckets := b ++ [(h, i)].

(** [find_entry(h, |&i| i == slot)], and the removal of what it finds. *)
Definition bucket_remove (h : Z) (i : nat) (b : buckets) : buckets :=
  if bool_decide (i ∈ candidates b h) then List.filter (fun p => negb (bool_decide (p.2 = i))) b
  else b.

(** The loop of [reindex] from slot [i] on. *)
Fixpoint reindex_loop (i : nat) (es : list E) (b : buckets) : buckets :=
  match es with
  | [] => b
  | e :: es =>
      if negb (live e) then reindex_loop (S i) es b
      else reindex_loop (S i) es (bucket_insert (hash_of e) i b)
  end.

Definition reindex (t : table) : table :=
  {| indices := reindex_loop 0 (entries t) []; entries := entries t |}.

Definition compact (t : table) : table :=
  reindex {| indices := indices t; entries := List.filter live (entries t) |}.

Definition from_entries (es : list E) : table := reindex {| indices := []; entries := es |}.

(** The dumped form is the slots, tombstones included. *)
Definition serialize (t : table) : list E := entries t.
Definition deserialize (es : list E) : table := reindex {| indices := []; entries := es |}.

Definition get_live (t : table) (s : nat) : option E :=
  match entries t !! s with
  | Some e => if live e then Some e else None
  | None => None
  end.

(** [(from..entries.len()).find(|&i| entries[i].is_live())]. *)
Definition next_live_slot (t : table) (from : nat) : option nat :=
  List.find (fun i => match entries t !! i with Some e => live e | None => false end)
            (seq from (length (entries t) - from)).

(** The entries [live()] yields. *)
Definition live_entries (t : table) : list E := List.filter live (entries t).

Definition push (t : table) (e : E) : table :=
  let t := if (COMPACT_MIN_SLOTS <=? length (entries t))
              && (length (entries t) / 2 <=? length (entries t) - len t)
           then compact t else t in
  let index := length (entries t) in
  {| indices := bucket_insert (hash_of e) index (indices t); entries := entries t ++ [e] |}.

(** The slot must be in range; the source indexes and would panic. *)
Definition tombstone_at (t : table) (s : nat) : option (E * table) :=
  match entries t !! s with
  | None => None
  | Some e =>
      Some (e, {| indices := bucket_remove (hash_of e) s (indices t);
                  entries := <[s := dead]> (entries t) |})
  end.

Definition remove (t : table) (s : Slot) : option (E * table) := tombstone_at t s.

(** [None] is the [expect] on a slot that is not live. *)
Definition entry (t : table) (s : Slot) : option E := get_live t s.

Definition replace (t : table) (s : Slot) (e : E) : option (E * table) :=
  match get_live t s with
  | None => None
  | Some old => Some (old, {| indices := indices t; entries := <[s := e]> (entries t) |})
  end.

(** [iter().rposition(E::is_live)]. *)
Fixpoint rposition (es : list E) : option nat :=
  match es with
  | [] => None
  | e :: es => match rposition es with
               | Some i => Some (S i)
               | None => if live e then Some 0 else None
               end
  end.

(** [None] is an empty table. *)
Definition pop_last (t : table) : option (E * table) :=
  rposition (entries t) ≫= tombstone_at t.

Definition take_entries (t : table) : list E * table :=
  (List.filter live (entries t), empty).

(** [indices.find(hash, |&index| matches(index, &entries[index]))]. *)
Definition probe (t : table) (h : Z) (matches : nat -> E -> bool) : option nat :=
  List.find (fun i => match entries t !! i with Some e => matches i e | None => false end)
            (candidates (indices t) h).

Definition position (t : table) (h : Z) (matches : E -> bool) : option nat :=
  probe t h (fun _ e => (hash_of e =? h)%Z && matches e).

Definition find (t : table) (h : Z) (matches : E -> bool) : option Slot := position t h matches.

(** [try_find]: the closure threads the parked error through the probe. *)
Fixpoint try_probe (t : table) (h : Z) (matches : E -> result bool RunError) (cands : list nat)
    (error : option RunError) : option nat * option RunError :=
  match cands with
  | [] => (None, error)
  | i :: cands =>
      match entries t !! i with
      | None => try_probe t h matches cands error
      | Some e =>
          if (hash_of e =? h)%Z then
            match error with
            | Some _ => try_probe t h matches cands error
            | None =>
                match matches e with
                | Ok true => (Some i, None)
                | Ok false => try_probe t h matches cands None
                | Err err => try_probe t h matches cands (Some err)
                end
            end
          else try_probe t h matches cands error
      end
  end.

Definition try_find (t : table) (h : Z) (matches : E -> result bool RunError) :
    result (option Slot) RunError :=
  match try_probe t h matches (candidates (indices t) h) None with
  | (_, Some err) => Err err
  | (found, None) => Ok found
  end.

(** ** Cursors *)

Definition advance (c : TableCursor) (current_len : nat) (next_live : nat -> option nat) :
    result (option nat) RunError * TableCursor :=
  if exhausted c then (Ok None, c)
  else if size_changed c || negb (current_len =? expected_len c) then
    (Err changed_size_error, set_size_changed c)
  else match next_live (slot c) with
       | None => (Ok None, set_exhausted c)
       | Some s =>
           if remaining c =? 0 then
             (match changed_keys_error with Some e => Err e | None => Ok None end, set_exhausted c)
           else
             (Ok (Some s),
              {| slot := s + 1; expected_len := expected_len c; remaining := remaining c - 1;
                 exhausted := exhausted c; size_changed := size_changed c |})
       end.

Definition step (t : table) (c : TableCursor) : result (option E) RunError * TableCursor :=
  let '(r, c) := advance c (len t) (next_live_slot t) in
  (let? s := r in Ok (s ≫= (fun s => entries t !! s)), c).

(** [TableScan::next], the position and the entry. *)
Definition scan_next (t : table) (from : nat) : option (E * nat) :=
  next_live_slot t from ≫= fun s => entries t !! s ≫= fun e => Some (e, s + 1).

(** ** The invariant *)

(** The buckets hold the live slots, each once and under its entry's hash. *)
Record wf_table (t : table) : Prop := {
  wf_nodup : NoDup (List.map snd (indices t));
  wf_index : forall h i, (h, i) ∈ indices t <->
    exists e, entries t !! i = Some e /\ live e = true /\ hash_of e = h }.
End HashTable.

(** ** Facts *)

Section Facts.
Context {Value RunError E : Type} `{TE : !TableEntry Value RunError E} `{TL : !TableEntryLaws}
  `{ProbingLaws}.

Abbreviation table := (PyHashTable E).
Abbreviation live := (is_live (Value := Value) (RunError := RunError) (E := E)).
Abbreviation hash_of := (hash (Value := Value) (RunError := RunError) (E := E)).
Abbreviation dead := (tombstone (Value := Value) (RunError := RunError) (E := E)).
Implicit Types (t : table) (es : list E) (e : E).

Lemma reindex_loop_elem es : forall k b h i,
  (h, i) ∈ reindex_loop k es b <->
  (h, i) ∈ b \/ exists j e, i = k + j /\ es !! j = Some e /\ live e = true /\ hash_of e = h.
Proof.
  induction es as [|e es IH]; intros k b h i; cbn [reindex_loop]; [naive_solver|].
  assert (Hshift : (exists j e', i = S k + j /\ es !! j = Some e' /\ live e' = true /\ hash_of e' = h)
    <-> exists j e', i = k + S j /\ (e :: es) !! S j = Some e' /\ live e' = true /\ hash_of e' = h).
  { split; intros (j & e' & Hi & He'); exists j, e'; cbn in *; (split; [lia|done]). }
  destruct (live e) eqn:Hl; cbn [negb]; rewrite IH.
  - unfold bucket_insert. rewrite elem_of_app, list_elem_of_singleton, Hshift. split.
    + intros [[Hb|[= -> ->]]|(j & e' & Hx)]; [by left|right; exists 0, e|right; by exists (S j), e'].
      repeat split; [lia|done].
    + intros [Hb|([|j] & e' & Hi & He' & Hx)]; [by left; left| |right; by exists j, e'].
      cbn in He'. injection He' as <-. left. right. destruct Hx as [_ <-]. f_equal. lia.
  - rewrite Hshift. split; [naive_solver|].
    intros [Hb|([|j] & e' & Hi & He' & Hx & Hh)]; [by left| |right; by exists j, e'].
    cbn in He'. injection He' as <-. congruence.
Qed.

Lemma reindex_loop_nodup es : forall k b,
  NoDup (List.map snd b) -> Forall (fun p => p.2 < k) b ->
  NoDup (List.map snd (reindex_loop (Value := Value) (RunError := RunError) k es b)).
Proof.
  induction es as [|e es IH]; intros k b Hn HF; cbn [reindex_loop]; [done|].
  destruct (negb (live e)).
  - apply IH; [done|]. eapply Forall_impl; [exact HF|]. cbn. lia.
  - apply IH.
    + unfold bucket_insert. rewrite List.map_app. apply NoDup_app. split; [done|].
      split; [|apply NoDup_singleton]. intros x Hx Hin. cbn in Hin.
      apply list_elem_of_singleton in Hin as ->.
      rewrite list_elem_of_In, in_map_iff in Hx. destruct Hx as (p & Hp & Hin).
      rewrite Forall_forall in HF. specialize (HF p (proj2 (list_elem_of_In _ _) Hin)). lia.
    + unfold bucket_insert. apply Forall_app. split; [|by repeat constructor].
      eapply Forall_impl; [exact HF|]. cbn. lia.
Qed.

Lemma reindex_wf t : wf_table (reindex t).
Proof.
  constructor; cbn.
  - by apply reindex_loop_nodup; constructor.
  - intros h i. rewrite reindex_loop_elem. split.
    + intros [Hin|(j & e & -> & Hx)]; [by apply elem_of_nil in Hin|]. by exists e.
    + intros (e & He). right. by exists i, e.
Qed.

(** ** The live slots *)

Definition live_at t (i : nat) : bool :=
  match entries t !! i with Some e => live e | None => false end.

Lemma filter_live_slots es k :
  length (List.filter (fun i => match es !! (i - k) with Some e => live e | None => false end)
            (seq k (length es))) = length (List.filter live es).
Proof.
  revert k. induction es as [|e es IH]; intros k; [done|]. cbn [length seq List.filter].
  rewrite Nat.sub_diag. cbn [lookup list_lookup].
  assert (Heq : List.filter (fun i => match (e :: es) !! (i - k) with Some e => live e | None => false end)
      (seq (S k) (length es)) =
    List.filter (fun i => match es !! (i - S k) with Some e => live e | None => false end)
      (seq (S k) (length es))).
  { apply filter_ext_in. intros i Hi%in_seq. replace (i - k) with (S (i - S k)) by lia. done. }
  destruct (live e); cbn [length]; rewrite Heq, IH; done.
Qed.

Lemma wf_slots t i : wf_table t -> i ∈ List.map snd (indices t) <-> live_at t i = true.
Proof.
  intros Hwf. rewrite list_elem_of_In, in_map_iff. unfold live_at. split.
  - intros ([h j] & Hj & Hin). cbn in Hj. subst j.
    by apply list_elem_of_In, Hwf in Hin as (e & -> & Hl & _).
  - destruct (entries t !! i) as [e|] eqn:He; [|done]. intros Hl. exists (hash_of e, i).
    split; [done|]. apply list_elem_of_In, Hwf. by exists e.
Qed.

(** The count the buckets keep is the number of live entries. *)
Lemma wf_len t : wf_table t -> len t = length (live_entries t).
Proof.
  intros Hwf. unfold len, live_entries.
  rewrite <- (length_map snd (indices t)), <- (filter_live_slots (entries t) 0).
  apply Permutation_length, NoDup_Permutation; [apply Hwf| |].
  - apply NoDup_ListNoDup, List.NoDup_filter, seq_NoDup.
  - intros i. rewrite wf_slots by done. rewrite list_elem_of_In, filter_In, in_seq.
    rewrite Nat.sub_0_r. unfold live_at. destruct (entries t !! i) as [e|] eqn:He; [|naive_solver].
    apply lookup_lt_Some in He. naive_solver lia.
Qed.

(** ** Insertion *)

Lemma compact_live t : live_entries (compact (Value := Value) (RunError := RunError) t) = live_entries t.
Proof.
  unfold live_entries, compact, reindex. cbn. induction (entries t) as [|e es IH]; [done|]. cbn.
  destruct (live e) eqn:Hl; cbn; rewrite ?Hl, ?IH; done.
Qed.

Lemma push_wf_of t e :
  wf_table t -> live e = true ->
  wf_table {| indices := bucket_insert (hash_of e) (length (entries t)) (indices t);
              entries := entries t ++ [e] |}.
Proof.
  intros Hwf Hl. constructor; cbn.
  - unfold bucket_insert. rewrite List.map_app. apply NoDup_app. split; [apply Hwf|].
    split; [|apply NoDup_singleton]. intros i Hi Hin. cbn in Hin.
    apply list_elem_of_singleton in Hin as ->. apply wf_slots in Hi; [|done].
    unfold live_at in Hi. by rewrite lookup_ge_None_2 in Hi by lia.
  - intros h i. unfold bucket_insert.
    rewrite elem_of_app, list_elem_of_singleton, (wf_index _ Hwf). split.
    + intros [(e' & He' & Hx)|[= -> ->]].
      * exists e'. split; [by apply lookup_app_l_Some|done].
      * exists e. split; [by rewrite list_lookup_middle|done].
    + intros (e' & He' & Hx). apply lookup_app_Some in He' as [He'|[Hge He']]; [left; by exists e'|].
      right. apply list_lookup_singleton_Some in He' as [Hi <-]. destruct Hx as [_ <-]. f_equal. lia.
Qed.

Lemma push_wf t e : wf_table t -> live e = true -> wf_table (push t e).
Proof.
  intros Hwf Hl. unfold push. destruct (_ && _); apply push_wf_of; try done. apply reindex_wf.
Qed.

Lemma push_live t e : live e = true -> live_entries (push t e) = live_entries t ++ [e].
Proof.
  intros Hl. unfold push. set (t' := if _ && _ then _ else _).
  assert (Ht : live_entries t' = live_entries t) by (unfold t'; destruct (_ && _); [apply compact_live|done]).
  unfold live_entries at 1. cbn [entries]. rewrite List.filter_app. cbn. rewrite Hl.
  by rewrite <- Ht.
Qed.

(** ** Removal *)

Lemma tombstone_at_wf t s e t' :
  wf_table t -> get_live t s = Some e -> tombstone_at t s = Some (e, t') -> wf_table t'.
Proof.
  intros Hwf Hg. unfold tombstone_at, get_live in *.
  destruct (entries t !! s) as [e'|] eqn:He; [|done]. destruct (live e') eqn:Hl; [|done].
  intros [= -> <-]. clear Hg.
  assert (Hs : s ∈ candidates (indices t) (hash_of e)).
  { apply candidates_complete, Hwf. by exists e. }
  unfold bucket_remove. rewrite bool_decide_true by done. constructor; cbn.
  - apply NoDup_map_filter, Hwf.
  - intros h i. rewrite list_elem_of_In, filter_In, <- list_elem_of_In, (wf_index _ Hwf). cbn.
    rewrite negb_true_iff, bool_decide_eq_false. destruct (decide (s = i)) as [->|Hne].
    + rewrite list_lookup_insert_eq by (by eapply lookup_lt_Some). split; [naive_solver|].
      intros (x & [= <-] & Hx & _). by rewrite tombstone_dead in Hx.
    + rewrite list_lookup_insert_ne by done. naive_solver.
Qed.

(** Tombstoning deletes one entry from the live sequence and moves no other. *)
Lemma tombstone_at_live t s e t' :
  get_live t s = Some e -> tombstone_at t s = Some (e, t') ->
  exists l1 l2, live_entries t = l1 ++ e :: l2 /\ live_entries t' = l1 ++ l2.
Proof.
  unfold get_live, tombstone_at. destruct (entries t !! s) as [e'|] eqn:He; [|done].
  destruct (live e') eqn:Hl; [|done]. intros [= ->] [= <-].
  apply list_elem_of_split_length in He as (l1 & l2 & Hes & ->).
  exists (List.filter live l1), (List.filter live l2). unfold live_entries. cbn [entries].
  rewrite Hes, insert_app_r_alt, Nat.sub_diag by lia. rewrite !List.filter_app. cbn.
  by rewrite Hl, tombstone_dead.
Qed.

Lemma tombstone_at_slots t s e t' i :
  tombstone_at t s = Some (e, t') -> i <> s -> entries t' !! i = entries t !! i.
Proof.
  unfold tombstone_at. destruct (entries t !! s); [|done]. intros [= _ <-] Hi. cbn.
  by rewrite list_lookup_insert_ne.
Qed.
End Facts.

(** The entries of [dict] and [set] ([DictEntry] in
    [crates/monty/src/types/dict.rs], [SetEntry] in
    [crates/monty/src/types/set.rs]), and a concrete table of each kind.

    The interpreter's [Value] is a parameter of which the entries use only that
    it has the marker [Value::Undefined]. *)

Class HasUndefined (Value : Type) := {
  Undefined : Value;
  is_undefined : Value -> bool;
  is_undefined_marker : is_undefined Undefined = true }.

(** The runtime errors of a walk that is invalidated. *)
Inductive RunError :=
| runtime_error_dict_changed_size
| runtime_error_dict_changed_keys
| runtime_error_set_changed_size.

#[export] Instance RunError_eq_dec : EqDecision RunError.
Proof. solve_decision. Defined.

Record DictEntry (Value : Type) := {
  de_key : Value;
  de_value : Value;
  de_hash : Z }.
Arguments de_key {Value} _.
Arguments de_value {Value} _.
Arguments de_hash {Value} _.

Record SetEntry (Value : Type) := {
  se_value : Value;
  se_hash : Z }.
Arguments se_value {Value} _.
Arguments se_hash {Value} _.

#[export] Instance dict_entry {Value} `{HasUndefined Value} : TableEntry Value RunError (DictEntry Value) := {
  probe_key := de_key;
  hash := de_hash;
  tombstone := {| de_key := Undefined; de_value := Undefined; de_hash := 0 |};
  is_live e := negb (is_undefined (de_key e));
  changed_size_error := runtime_error_dict_changed_size;
  changed_keys_error := Some runtime_error_dict_changed_keys }.

#[export] Instance set_entry {Value} `{HasUndefined Value} : TableEntry Value RunError (SetEntry Value) := {
  probe_key := se_value;
  hash := se_hash;
  tombstone := {| se_value := Undefined; se_hash := 0 |};
  is_live e := negb (is_undefined (se_value e));
  changed_size_error := runtime_error_set_changed_size;
  changed_keys_error := None }.

#[export] Instance dict_entry_laws {Value} `{HasUndefined Value} :
  TableEntryLaws (H := dict_entry (Value := Value)).
Proof. unfold TableEntryLaws. cbn. by rewrite is_undefined_marker. Qed.

#[export] Instance set_entry_laws {Value} `{HasUndefined Value} :
  TableEntryLaws (H := set_entry (Value := Value)).
Proof. unfold TableEntryLaws. cbn. by rewrite is_undefined_marker. Qed.

(** ** A concrete instance

    Integers beside the marker; a probe visits the slots stored under the hash,
    in insertion order. *)
Definition demo_value : Type := option Z.

Definition demo_py_value : HasUndefined demo_value :=
  {| Undefined := None; is_undefined v := match v with None => true | Some _ => false end;
     is_undefined_marker := eq_refl |}.

Definition demo_probing : Probing :=
  {| candidates b h := List.map snd (List.filter (fun p => (p.1 =? h)%Z) b) |}.

Lemma demo_probing_laws : @ProbingLaws demo_probing.
Proof.
  constructor; cbn; intros b h i.
  - intros Hin. apply list_elem_of_In, in_map_iff. exists (h, i). split; [done|].
    apply filter_In. rewrite <- list_elem_of_In. cbn. by rewrite Z.eqb_refl.
  - rewrite list_elem_of_In, in_map_iff. intros ([h' j] & Hj & Hin). cbn in Hj. subst j.
    apply filter_In in Hin as [Hin _]. exists h'. by apply list_elem_of_In.
Qed.

(** The dict entry [k: v], hashed by its key. *)
Definition demo_entry (k v : Z) : DictEntry demo_value :=
  {| de_key := Some k; de_value := Some v; de_hash := k |}.

(** A table of three entries, the first of which was deleted. *)
Definition demo_table : PyHashTable (DictEntry demo_value) :=
  from_entries (TE := @dict_entry _ demo_py_value)
    [{| de_key := None; de_value := None; de_hash := 0 |}; demo_entry 5 50; demo_entry 7 70].

Lemma demo_table_wf : wf_table (TE := @dict_entry _ demo_py_value) demo_table.
Proof. apply reindex_wf. Qed.
