(* ===== verification/HashTableProps.v ===== *)
(** Properties of the hash table: its invariant, what insertion and deletion do
    to the live sequence, lookups, and the cursors that walk it. *)
From S2P Require Import Prelude HashTable.
Local Open Scope monty_scope.

Section Props.
Context {Value RunError E : Type} `{TE : !TableEntry Value RunError E} `{TL : !TableEntryLaws}
  `{ProbingLaws}.

Abbreviation table := (PyHashTable E).
Abbreviation live := (is_live (Value := Value) (RunError := RunError) (E := E)).
Abbreviation hash_of := (hash (Value := Value) (RunError := RunError) (E := E)).
Abbreviation step := (HashTable.step (Value := Value) (RunError := RunError) (E := E)).
Implicit Types (t : table) (es : list E) (e : E) (c : TableCursor).

(** C40: every structural change keeps the buckets in step with the slots: they
    hold exactly the live slots, each once and under its entry's hash, after an
    insertion (compacting or not), the removal of a live slot, popping the last
    entry, emptying the table, and rebuilding it from a dump. *)
Theorem table_changes_wf t e s :
  wf_table t -> live e = true ->
  wf_table (push t e)
  /\ (forall x t', get_live t s = Some x -> remove t s = Some (x, t') -> wf_table t')
  /\ (forall x t', pop_last t = Some (x, t') -> wf_table t')
  /\ wf_table (take_entries (Value := Value) (RunError := RunError) t).2
  /\ wf_table (deserialize (serialize t)).
Proof.
  intros Hwf Hl. split; [by apply push_wf|]. split; [intros x t'; by apply tombstone_at_wf|].
  split; [|split; [|apply reindex_wf]].
  - intros x t'. unfold pop_last. destruct (rposition (entries t)) as [i|] eqn:Hr; [|done]. cbn.
    intros Ht. apply (tombstone_at_wf t i x); [done| |done].
    revert Ht. unfold tombstone_at, get_live.
    destruct (entries t !! i) as [y|] eqn:Hy; [|done]. intros [= -> _].
    assert (Hlive : live x = true); [|by rewrite Hlive].
    revert i Hr Hy. induction (entries t) as [|z es IH]; intros i; cbn; [done|].
    destruct (rposition es) as [j|]; [intros [= <-]; by apply IH|].
    destruct (live z) eqn:Hz; [|done]. intros [= <-] [= ->]. done.
  - constructor; cbn; [constructor|]. intros h i. rewrite lookup_nil.
    split; [by intros ?%elem_of_nil|naive_solver].
Qed.

(** [len] is the number of live entries; inserting appends one at the end
    of the iteration order, compacting or not; removing takes out exactly the
    entry of the slot and leaves every other slot where it was. *)
Theorem table_order t e s x t' :
  wf_table t -> live e = true -> get_live t s = Some x -> remove t s = Some (x, t') ->
  len t = length (live_entries t)
  /\ live_entries (push t e) = live_entries t ++ [e]
  /\ (exists l1 l2, live_entries t = l1 ++ x :: l2 /\ live_entries t' = l1 ++ l2)
  /\ (forall i, i <> s -> entries t' !! i = entries t !! i)
  /\ S (len t') = len t.
Proof.
  intros Hwf Hl Hg Hr. destruct (tombstone_at_live t s x t' Hg Hr) as (l1 & l2 & H1 & H2).
  split; [by apply wf_len|]. split; [by apply push_live|]. split; [by exists l1, l2|].
  split; [intros i; by apply (tombstone_at_slots t s x t')|].
  rewrite (wf_len t), (wf_len t') by (done || by eapply tombstone_at_wf).
  rewrite H1, H2, !length_app. cbn. lia.
Qed.

(** ** Lookups *)

Lemma probe_live t h m i : wf_table t -> probe t h m = Some i -> exists e, get_live t i = Some e /\ m i e = true.
Proof.
  intros Hwf [Hin Hm]%find_some. apply list_elem_of_In, candidates_sound in Hin as [h' Hin].
  apply Hwf in Hin as (e & He & Hl & _). rewrite He in Hm. exists e. unfold get_live.
  by rewrite He, Hl.
Qed.

(** A lookup is sound and complete: it finds a live entry with the hash
    that the comparison accepts, and finds none only when there is none, in
    whatever order the buckets are probed. *)
Theorem find_correct t h m :
  wf_table t ->
  match find t h m with
  | Some s => exists e, entry t s = Some e /\ hash_of e = h /\ m e = true
  | None => forall s e, entry t s = Some e -> hash_of e = h -> m e = false
  end.
Proof.
  intros Hwf. unfold find, position. destruct (probe t h _) as [s|] eqn:Hp.
  - apply probe_live in Hp as (e & Hg & Hm); [|done]. apply andb_true_iff in Hm as [Hh Hm].
    apply Z.eqb_eq in Hh. by exists e.
  - intros s e He Hh. unfold entry, get_live in He.
    destruct (entries t !! s) as [e'|] eqn:Hs; [|done]. destruct (live e') eqn:Hl; [|done].
    injection He as ->. unfold probe in Hp.
    assert (Hin : s ∈ candidates (indices t) h).
    { apply candidates_complete, Hwf. by exists e. }
    apply list_elem_of_In in Hin. pose proof (find_none _ _ Hp s Hin) as Hn. cbn in Hn.
    rewrite Hs, Hh, Z.eqb_refl in Hn. exact Hn.
Qed.

(** A comparison that cannot fail gives the same answer as [find]. *)
Lemma try_probe_total t h (m : E -> bool) cands :
  try_probe t h (fun e => Ok (m e)) cands None =
  (List.find (fun i => match entries t !! i with
                       | Some e => (hash_of e =? h)%Z && m e | None => false end) cands, None).
Proof.
  induction cands as [|i cands IH]; [done|]. cbn. destruct (entries t !! i) as [e|]; [|done].
  destruct (hash_of e =? h)%Z; cbn; [|done]. by destruct (m e).
Qed.

(** [try_find] with a comparison that never fails is [find]. *)
Theorem try_find_total t h (m : E -> bool) :
  try_find t h (fun e => Ok (m e)) = Ok (find t h m).
Proof. unfold try_find. by rewrite try_probe_total. Qed.

(** ** Cursors *)

(** What is still to be yielded from slot [s] on. *)
Definition pending t (s : nat) : list E := List.filter live (drop s (entries t)).

Lemma next_live_slot_spec t s :
  match next_live_slot (Value := Value) (RunError := RunError) t s with
  | None => pending t s = []
  | Some i => exists e, entries t !! i = Some e /\ pending t s = e :: pending t (i + 1)
  end.
Proof.
  unfold next_live_slot, pending. remember (length (entries t) - s) as n eqn:Hn. revert s Hn.
  induction n as [|n IH]; intros s Hn; cbn.
  - by rewrite drop_ge by lia.
  - destruct (lookup_lt_is_Some_2 (entries t) s ltac:(lia)) as [e He].
    rewrite (drop_S _ e) by done. cbn. rewrite He. destruct (live e) eqn:Hl.
    + exists e. split; [done|]. by rewrite Nat.add_1_r.
    + apply IH. lia.
Qed.

(** Steps a cursor [n] times over an unchanging table. *)
Fixpoint walk (n : nat) t c : list (result (option E) RunError) * TableCursor :=
  match n with
  | O => ([], c)
  | S n => let '(r, c) := step t c in
           let '(rs, c) := walk n t c in (r :: rs, c)
  end.

Lemma walk_exhausted n t c :
  exhausted c = true -> walk n t c = (replicate n (Ok None), c).
Proof.
  intros Hx. induction n as [|n IH]; [done|]. cbn. unfold HashTable.step, advance.
  rewrite Hx. cbn. by rewrite IH.
Qed.

Lemma walk_pending k t : forall c,
  exhausted c = false -> size_changed c = false -> expected_len c = len t ->
  remaining c = length (pending t (slot c)) ->
  (walk (remaining c + k) t c).1 =
  List.map (fun e => Ok (Some e)) (pending t (slot c)) ++ replicate k (Ok None).
Proof.
  intros c. remember (remaining c) as n eqn:Hn. revert c Hn.
  induction n as [|n IH]; intros c Hn Hx Hs Hlen Hrem.
  - destruct (pending t (slot c)) eqn:Hp; [|done]. cbn. destruct k as [|k]; [done|]. cbn.
    pose proof (next_live_slot_spec t (slot c)) as Hnext. unfold HashTable.step, advance.
    rewrite Hx, Hs, Hlen, Nat.eqb_refl. cbn [orb negb].
    destruct (next_live_slot t (slot c)) as [i|]; [destruct Hnext as (e & _ & He); by rewrite He in Hp|].
    cbn. by rewrite walk_exhausted.
  - pose proof (next_live_slot_spec t (slot c)) as Hnext. cbn [Nat.add walk].
    unfold HashTable.step, advance at 1. rewrite Hx, Hs, Hlen, Nat.eqb_refl. cbn [orb negb].
    destruct (next_live_slot t (slot c)) as [i|]; [|by rewrite Hnext in Hrem].
    destruct Hnext as (e & He & Hp). rewrite Hp in Hrem |- *. cbn in Hrem. rewrite <- Hn.
    cbn [Nat.eqb rbind mbind option_bind]. rewrite He.
    set (c' := {| slot := i + 1; expected_len := len t; remaining := S n - 1;
                  exhausted := false; size_changed := false |}).
    specialize (IH c'). cbn in IH. rewrite Nat.sub_0_r in IH.
    destruct (walk (n + k) t c') as [rs c''] eqn:Hw.
    cbn [fst List.map app]. f_equal. apply IH; try done. by injection Hrem.
Qed.

(** walking a table that does not change yields its live entries once each,
    in insertion order, and then ends for good: every further step ends again. *)
Theorem walk_yields_live k t :
  wf_table t ->
  (walk (len t + k) t (cursor_new (len t))).1 =
  List.map (fun e => Ok (Some e)) (live_entries t) ++ replicate k (Ok None).
Proof.
  intros Hwf. apply (walk_pending k t (cursor_new (len t))); try done.
  cbn. unfold pending. rewrite drop_0. by apply wf_len.
Qed.

(** Steps a cursor over a table that may be another one at every step. *)
Fixpoint walk_over (ts : list table) c : list (result (option E) RunError) * TableCursor :=
  match ts with
  | [] => ([], c)
  | t :: ts => let '(r, c) := step t c in
               let '(rs, c) := walk_over ts c in (r :: rs, c)
  end.

Definition is_yield (r : result (option E) RunError) : bool :=
  match r with Ok (Some _) => true | _ => false end.

Lemma step_remaining t c r c' :
  step t c = (r, c') -> (if is_yield r then 1 else 0) + remaining c' <= remaining c.
Proof.
  unfold HashTable.step, advance. destruct (exhausted c); [by intros [= <- <-]|].
  destruct (_ || _); [by intros [= <- <-]|]. destruct (next_live_slot t (slot c)) as [i|].
  - destruct (Nat.eqb_spec (remaining c) 0).
    + intros [= <- <-]. by destruct changed_keys_error.
    + intros [= <- <-]. cbn. destruct (entries t !! i); cbn; lia.
  - by intros [= <- <-].
Qed.

(** Whatever guest code does to the container between the steps, a walk
    yields at most the entries it was owed when it started. *)
Theorem walk_bounded ts c :
  length (List.filter is_yield (walk_over ts c).1) <= remaining c.
Proof.
  revert c. induction ts as [|t ts IH]; intros c; cbn; [lia|].
  destruct (step t c) as [r c'] eqn:Hs. apply step_remaining in Hs. specialize (IH c').
  destruct (walk_over ts c') as [rs c'']. cbn in *. destruct (is_yield r); cbn in *; lia.
Qed.

(** A change of size is always noticed: a walk that has not ended raises
    the size-change error on the first step after the live count differs from
    the one it started with, and raises it on every later step, also when the
    count is restored. *)
Theorem size_change_sticky t c ts :
  exhausted c = false -> len t <> expected_len c ->
  let '(r, c') := step t c in
  r = Err (changed_size_error (Value := Value) (E := E))
  /\ Forall (fun r => r = Err (changed_size_error (Value := Value) (E := E))) (walk_over ts c').1.
Proof.
  intros Hx Hlen. unfold HashTable.step at 1, advance. rewrite Hx.
  destruct (Nat.eqb_spec (len t) (expected_len c)); [done|]. rewrite orb_true_r. cbn.
  split; [done|]. set (c' := set_size_changed c). assert (Hc : exhausted c' = false /\ size_changed c' = true) by done.
  clearbody c'. revert c' Hc. induction ts as [|t' ts IH]; intros c' [Hx' Hs']; cbn; [constructor|].
  unfold HashTable.step, advance. rewrite Hx', Hs'. cbn.
  specialize (IH (set_size_changed c') (conj Hx' eq_refl)).
  destruct (walk_over ts (set_size_changed c')) as [rs c'']. cbn in *. by constructor.
Qed.

(** dumping and reloading a table is invisible to the walks over it: the
    slots are the same, tombstones included, and every cursor steps the same
    way on both. *)
Theorem dump_roundtrip t c :
  wf_table t ->
  entries (deserialize (Value := Value) (RunError := RunError) (serialize t)) = entries t
  /\ len (deserialize (Value := Value) (RunError := RunError) (serialize t)) = len t
  /\ step (deserialize (Value := Value) (RunError := RunError) (serialize t)) c = step t c.
Proof.
  intros Hwf. assert (Hlen : len (deserialize (Value := Value) (RunError := RunError) (serialize t)) = len t).
  { rewrite !(wf_len (Value := Value) (RunError := RunError)); [done|done|apply reindex_wf]. }
  split; [done|]. split; [done|]. unfold HashTable.step. by rewrite Hlen.
Qed.
End Props.

(** ** The properties on a concrete dict table *)

#[local] Existing Instance demo_py_value.
#[local] Existing Instance demo_probing.
#[local] Existing Instance demo_probing_laws.

Lemma table_changes_wf_witness : wf_table (push demo_table (demo_entry 9 90)).
Proof. apply (table_changes_wf demo_table (demo_entry 9 90) 1); [apply demo_table_wf|reflexivity]. Defined.

Lemma table_order_witness :
  live_entries (push demo_table (demo_entry 9 90)) = [demo_entry 5 50; demo_entry 7 70; demo_entry 9 90].
Proof.
  pose proof (table_order demo_table (demo_entry 9 90) 1 (demo_entry 5 50) _
    demo_table_wf eq_refl eq_refl eq_refl) as (_ & -> & _). reflexivity.
Defined.

Lemma find_correct_witness :
  find demo_table 7 (fun e => bool_decide (de_key e = Some 7%Z)) = Some 2
  /\ exists e, entry demo_table 2 = Some e /\ hash e = 7%Z /\ bool_decide (de_key e = Some 7%Z) = true.
Proof.
  split; [reflexivity|].
  exact (find_correct demo_table 7 (fun e => bool_decide (de_key e = Some 7%Z)) demo_table_wf).
Defined.

Lemma try_find_total_witness :
  try_find demo_table 5 (fun e => Ok (bool_decide (de_key e = Some 5%Z))) = Ok (Some 1).
Proof. rewrite (try_find_total demo_table 5). reflexivity. Defined.

Lemma walk_yields_live_witness :
  (walk 3 demo_table (cursor_new 2)).1 = [Ok (Some (demo_entry 5 50)); Ok (Some (demo_entry 7 70)); Ok None].
Proof. exact (walk_yields_live 1 demo_table demo_table_wf). Defined.

Lemma walk_bounded_witness :
  length (List.filter is_yield (walk_over [demo_table; demo_table; demo_table] (cursor_new 2)).1) <= 2.
Proof. exact (walk_bounded [demo_table; demo_table; demo_table] (cursor_new 2)). Defined.

Lemma size_change_sticky_witness :
  (walk_over [push demo_table (demo_entry 9 90); demo_table] (cursor_new 2)).1
  = [Err runtime_error_dict_changed_size; Err runtime_error_dict_changed_size].
Proof.
  pose proof (size_change_sticky (push demo_table (demo_entry 9 90)) (cursor_new 2) [demo_table]
    eq_refl ltac:(discriminate)) as [_ H].
  cbn in H. inversion H; subst. reflexivity.
Defined.

Lemma dump_roundtrip_witness : len (deserialize (serialize demo_table)) = 2.
Proof.
  destruct (dump_roundtrip demo_table (cursor_new 2) demo_table_wf) as (_ & Hl & _).
  rewrite Hl. reflexivity.
Defined.
