(* ===== verification/HashProbe.v ===== *)
(** The guarded probe of a heap-resident table ([TableProbe::find_index] and
    [TableWalk] in [crates/monty/src/types/hash_table.rs]).

    Comparing a key may run guest code, which can change any container, the one
    being probed included. The interpreter is a parameter: a type of worlds from
    which the table is read again after every comparison. Reference counts
    (cloning and dropping the snapshotted keys) are left out. *)
From S2P Require Import Prelude HashTable.
Local Open Scope monty_scope.

(** The parts of the interpreter the probe calls. *)
Class Guest (Value RunError E : Type) := {
  World : Type;
  Identity : Type;
  identity_dec : EqDecision Identity;
  table_of : World -> PyHashTable E;
  py_eq : Value -> Value -> M World RunError bool;
  eq_is_native : Value -> World -> bool;
  probe_native_eq : Value -> Value -> World -> option bool;
  id : Value -> Identity;
  check_memory_time : World -> result unit RunError;
  check_time_every : nat -> World -> result unit RunError }.

#[export] Existing Instance identity_dec.

(** [value.is(other)]. *)
Definition is_same {Value RunError E} `{Guest Value RunError E} (a b : Value) : bool :=
  bool_decide (id a = id b).

Inductive ProbeOutcome := Found (s : Slot) | MissingKey | Restart.

Section Probe.
Context {Value RunError E : Type} `{TE : !TableEntry Value RunError E} `{Probing}
  `{!Guest Value RunError E}.

Abbreviation hash_of := (hash (Value := Value) (RunError := RunError) (E := E)).
Abbreviation key_of := (probe_key (Value := Value) (RunError := RunError) (E := E)).
Abbreviation PM A := (M World RunError A).

(** A poll of the limits, which sees the world and leaves it as it is. *)
Definition poll : PM unit := fun w => (check_memory_time w, w).

Definition probe_valid (index : nat) (h : Z) (key : Value) (w : World) : bool :=
  match get_live (table_of w) index with
  | Some e => (hash_of e =? h)%Z && is_same (key_of e) key
  | None => false
  end.

Definition probe_candidates (h : Z) (w : World) : list (nat * Value) :=
  omap (fun i => match entries (table_of w) !! i with
                 | Some e => if (hash_of e =? h)%Z then Some (i, key_of e) else None
                 | None => None
                 end) (candidates (indices (table_of w)) h).

(** The probe walk of one round: what it found, or the candidates it deferred
    and whether none of them can run guest code. *)
Record Collected := {
  found : option nat;
  deferred : list (nat * Value);
  all_native : bool }.

Fixpoint collect_candidates (key : Value) (h : Z) (w : World) (cands : list nat) (c : Collected) :
    Collected :=
  match cands with
  | [] => c
  | i :: cands =>
      match entries (table_of w) !! i with
      | None => collect_candidates key h w cands c
      | Some e =>
          if negb (hash_of e =? h)%Z then collect_candidates key h w cands c
          else
            match deferred c, probe_native_eq (key_of e) key w with
            | [], Some true => {| found := Some i; deferred := []; all_native := all_native c |}
            | [], Some false => collect_candidates key h w cands c
            | _, _ =>
                collect_candidates key h w cands
                  {| found := None; deferred := deferred c ++ [(i, key_of e)];
                     all_native := all_native c && eq_is_native (key_of e) w |}
            end
      end
  end.

(** The loop over the snapshotted candidates. *)
Fixpoint compare_candidates (native : bool) (h : Z) (key : Value) (cands : list (nat * Value)) :
    PM ProbeOutcome :=
  match cands with
  | [] => sret MissingKey
  | (i, k) :: cands =>
      do w <- sget ;;
      if negb native && negb (probe_valid i h k w) then poll ;;; sret Restart
      else
        do eq <- py_eq k key ;;
        do w <- sget ;;
        if negb native && negb (probe_valid i h k w) then poll ;;; sret Restart
        else if eq : bool then sret (Found i)
        else compare_candidates native h key cands
  end.

(** One pass of [probe_after_compare] over fresh candidates, skipping the keys
    already compared: the outcome if it is decided, whether any key was
    compared, and the keys compared so far. *)
Fixpoint compare_new (h : Z) (key : Value) (cands : list (nat * Value)) (compared : list Identity)
    (any : bool) : PM (option ProbeOutcome * bool * list Identity) :=
  match cands with
  | [] => sret (None, any, compared)
  | (i, k) :: cands =>
      if bool_decide (id k ∈ compared) then compare_new h key cands compared any
      else
        do w <- sget ;;
        if negb (probe_valid i h k w) then
          poll ;;; sret (Some Restart, any, id k :: compared)
        else
          do eq <- py_eq k key ;;
          do w <- sget ;;
          if negb (probe_valid i h k w) then
            poll ;;; sret (Some Restart, true, id k :: compared)
          else if eq : bool then sret (Some (Found i), true, id k :: compared)
          else compare_new h key cands (id k :: compared) true
  end.

(** [probe_after_compare]; [None] is running out of fuel. *)
Fixpoint probe_after_compare (fuel : nat) (h : Z) (key : Value) (compared : list Identity) :
    PM (option ProbeOutcome) :=
  match fuel with
  | O => sret None
  | S fuel =>
      poll ;;;
      do w <- sget ;;
      do (outcome, any, compared) <- compare_new h key (probe_candidates h w) compared false ;;
      match outcome with
      | Some o => sret (Some o)
      | None => if any : bool then probe_after_compare fuel h key compared
                else sret (Some MissingKey)
      end
  end.

(** The restart loop of [find_index]; [None] is running out of fuel. *)
Fixpoint find_index_loop (fuel : nat) (key_native : bool) (key : Value) (h : Z) :
    PM (option (option Slot)) :=
  match fuel with
  | O => sret None
  | S fuel' =>
      do w <- sget ;;
      let c := collect_candidates key h w (candidates (indices (table_of w)) h)
                 {| found := None; deferred := []; all_native := key_native |} in
      match found c, deferred c with
      | Some i, _ => sret (Some (Some i))
      | None, [] => sret (Some None)
      | None, _ =>
          do o <- compare_candidates (all_native c) h key (deferred c) ;;
          match o with
          | Found i => sret (Some (Some i))
          | Restart => find_index_loop fuel' key_native key h
          | MissingKey =>
              if all_native c then sret (Some None)
              else
                do o <- probe_after_compare fuel h key (List.map (fun p => id p.2) (deferred c)) ;;
                match o with
                | None => sret None
                | Some (Found s) => sret (Some (Some s))
                | Some MissingKey => sret (Some None)
                | Some Restart => find_index_loop fuel' key_native key h
                end
          end
      end
  end.

Definition find_index (fuel : nat) (key : Value) (h : Z) : PM (option (option Slot)) :=
  do w <- sget ;; find_index_loop fuel (eq_is_native key w) key h.

(** [TableWalk::new] and [next]. *)
Definition walk_new (w : World) : TableCursor := cursor_new (len (table_of w)).

Definition walk_next (c : TableCursor) (w : World) : result (option E) RunError * TableCursor :=
  match check_time_every (yielded c) w with
  | Err e => (Err e, c)
  | Ok _ => step (table_of w) c
  end.
End Probe.

(** What the probe relies on: guest code changes tables only through their
    operations; a value that is held keeps its type, so whether comparing it is
    native does not change; and comparing native values runs no guest code. *)
Class GuestLaws {Value RunError E} `{TE : !TableEntry Value RunError E} `{Probing}
    `{G : !Guest Value RunError E} : Prop := {
  table_of_wf : forall w, wf_table (table_of (Value := Value) (RunError := RunError) w);
  key_native_stable : forall (k key : Value) w,
    eq_is_native (RunError := RunError) (E := E) key (py_eq k key w).2 = eq_is_native (E := E) key w;
  native_eq_pure : forall (a b : Value) w,
    eq_is_native (RunError := RunError) (E := E) a w = true -> eq_is_native (E := E) b w = true ->
    table_of (Value := Value) (py_eq a b w).2 = table_of w
    /\ forall v, eq_is_native (RunError := RunError) (E := E) v (py_eq a b w).2
                 = eq_is_native (E := E) v w }.

Section ProbeFacts.
Context {Value RunError E : Type} `{TE : !TableEntry Value RunError E} `{ProbingLaws}
  `{G : !Guest Value RunError E} `{!GuestLaws}.

Abbreviation hash_of := (hash (Value := Value) (RunError := RunError) (E := E)).
Abbreviation key_of := (probe_key (Value := Value) (RunError := RunError) (E := E)).

(** The slot names a live entry cached under the hash. *)
Definition valid_slot (h : Z) (w : World) (s : nat) : Prop :=
  exists e, get_live (table_of (Value := Value) (RunError := RunError) w) s = Some e /\ hash_of e = h.

Lemma probe_valid_slot i h k w : probe_valid i h k w = true -> valid_slot h w i.
Proof.
  unfold probe_valid, valid_slot. destruct (get_live _ i) as [e|]; [|done].
  intros [Hh _]%andb_true_iff. apply Z.eqb_eq in Hh. eauto.
Qed.

Lemma candidate_valid h w i e :
  i ∈ candidates (indices (table_of (Value := Value) (RunError := RunError) w)) h ->
  entries (table_of (Value := Value) (RunError := RunError) w) !! i = Some e -> hash_of e = h ->
  valid_slot h w i.
Proof.
  intros [h' Hin]%candidates_sound He Hh. apply (table_of_wf w) in Hin as (e' & He' & Hl & _).
  assert (e' = e) as -> by congruence. exists e. split; [|done]. unfold get_live. by rewrite He, Hl.
Qed.

(** What one probe walk collects. *)
Definition collected_ok (key : Value) (h : Z) (w : World) (c : Collected) : Prop :=
  (forall i, found c = Some i -> valid_slot h w i)
  /\ Forall (fun p => valid_slot h w p.1) (deferred c)
  /\ (all_native c = true -> eq_is_native (RunError := RunError) (E := E) key w = true
      /\ Forall (fun p => eq_is_native (RunError := RunError) (E := E) p.2 w = true) (deferred c)).

Lemma collect_candidates_ok key h w cands : forall c,
  (forall i, i ∈ cands -> i ∈ candidates (indices (table_of (Value := Value) (RunError := RunError) w)) h) ->
  collected_ok key h w c -> collected_ok key h w (collect_candidates key h w cands c).
Proof.
  induction cands as [|i cands IH]; intros c Hsub Hc; [done|]. cbn [collect_candidates].
  assert (Hsub' : forall j, j ∈ cands ->
    j ∈ candidates (indices (table_of (Value := Value) (RunError := RunError) w)) h).
  { intros j Hj. apply Hsub. by right. }
  destruct (entries (table_of w) !! i) as [e|] eqn:He; [|by apply IH].
  destruct (hash_of e =? h)%Z eqn:Hh; cbn [negb]; [|by apply IH]. apply Z.eqb_eq in Hh.
  assert (Hv : valid_slot h w i) by (eapply candidate_valid; [apply Hsub; left|done..]).
  assert (Hpush : collected_ok key h w
    {| found := None; deferred := deferred c ++ [(i, key_of e)];
       all_native := all_native c && eq_is_native (key_of e) w |}).
  { destruct Hc as (_ & Hd & Hn). split; [done|]. split; cbn.
    - apply Forall_app. by repeat constructor.
    - intros [Ha Hk]%andb_true_iff. destruct (Hn Ha) as [Hkey HF]. split; [done|].
      apply Forall_app. by repeat constructor. }
  destruct (deferred c) as [|d ds] eqn:Hdef; [|by apply IH].
  destruct (probe_native_eq (key_of e) key w) as [[]|]; [|by apply IH|by apply IH].
  destruct Hc as (_ & _ & Hn). split; [by intros j [= <-]|]. split; cbn; [constructor|].
  intros Ha. destruct (Hn Ha) as [Hkey _]. by split.
Qed.

(** When every live key is native, so is every candidate deferred. *)
Lemma collect_all_native key h w cands : forall c,
  (forall i, i ∈ cands -> i ∈ candidates (indices (table_of (Value := Value) (RunError := RunError) w)) h) ->
  (forall s e, entry (table_of (Value := Value) (RunError := RunError) w) s = Some e ->
     eq_is_native (RunError := RunError) (E := E) (key_of e) w = true) ->
  all_native c = true -> all_native (collect_candidates key h w cands c) = true.
Proof.
  induction cands as [|i cands IH]; intros c Hsub Hall Hc; [done|]. cbn [collect_candidates].
  assert (Hsub' : forall j, j ∈ cands ->
    j ∈ candidates (indices (table_of (Value := Value) (RunError := RunError) w)) h).
  { intros j Hj. apply Hsub. by right. }
  destruct (entries (table_of w) !! i) as [e|] eqn:He; [|by apply IH].
  destruct (hash_of e =? h)%Z eqn:Hh; cbn [negb]; [|by apply IH]. apply Z.eqb_eq in Hh.
  destruct (candidate_valid h w i e) as (e' & He' & _); [apply Hsub; left|done..|].
  assert (e' = e) as -> by (unfold get_live in He'; rewrite He in He'; destruct (is_live e); congruence).
  destruct (deferred c) as [|d ds].
  - destruct (probe_native_eq (key_of e) key w) as [[]|]; [done|by apply IH|].
    apply IH; [done|done|]. cbn. by rewrite Hc, (Hall i e).
  - apply IH; [done|done|]. cbn. by rewrite Hc, (Hall i e).
Qed.

(** The loop over the snapshotted candidates ends with a slot that is valid in
    the world it leaves. *)
Lemma compare_candidates_valid native h key cands : forall w o w',
  compare_candidates native h key cands w = (Ok o, w') ->
  (native = true -> eq_is_native (RunError := RunError) (E := E) key w = true
    /\ Forall (fun p => valid_slot h w p.1
         /\ eq_is_native (RunError := RunError) (E := E) p.2 w = true) cands) ->
  (forall s, o = Found s -> valid_slot h w' s) /\ (native = true -> o <> Restart)
  /\ eq_is_native (RunError := RunError) (E := E) key w'
     = eq_is_native (RunError := RunError) (E := E) key w.
Proof.
  induction cands as [|[i k] cands IH]; intros w o w' Hrun Hn; cbn [compare_candidates] in Hrun.
  { inv_step. naive_solver. }
  unfold sbind, sget, sret in Hrun. cbn -[py_eq probe_valid] in Hrun.
  pose proof (key_native_stable k key w) as Hstab.
  destruct native; cbn [negb andb] in Hrun.
  - destruct (Hn eq_refl) as [Hkey [[Hv Hk] HF]%Forall_cons_1]. clear Hn. cbn [fst snd] in Hv, Hk.
    destruct (native_eq_pure k key w Hk Hkey) as [Ht Hnat].
    assert (Hvalid : forall s, valid_slot h w s -> valid_slot h (py_eq (RunError := RunError) k key w).2 s).
    { intros s. unfold valid_slot. by rewrite Ht. }
    destruct (py_eq k key w) as [[eq|err] w1]; cbn [snd] in *; [|done].
    destruct eq; [injection Hrun as <- <-; naive_solver|].
    rewrite <- Hnat. apply (IH _ _ _ Hrun). intros _. rewrite Hnat. split; [done|].
    eapply Forall_impl; [exact HF|]. intros p [Hp1 Hp2]. rewrite Hnat. auto.
  - destruct (negb (probe_valid i h k w)).
    { unfold poll in Hrun. destruct (check_memory_time w); naive_solver. }
    destruct (py_eq k key w) as [[eq|err] w1]; cbn [snd] in *; [|done].
    destruct (probe_valid i h k w1) eqn:Hv; cbn [negb] in Hrun.
    + destruct eq.
      * injection Hrun as <- <-. apply probe_valid_slot in Hv. naive_solver.
      * rewrite <- Hstab. by apply (IH _ _ _ Hrun).
    + unfold poll in Hrun. destruct (check_memory_time w1); naive_solver.
Qed.

Lemma compare_new_valid h key cands : forall compared any w o any' compared' w',
  compare_new h key cands compared any w = (Ok (o, any', compared'), w') ->
  (forall s, o = Some (Found s) -> valid_slot h w' s)
  /\ eq_is_native (RunError := RunError) (E := E) key w'
     = eq_is_native (RunError := RunError) (E := E) key w.
Proof.
  induction cands as [|[i k] cands IH]; intros compared any w o any' compared' w' Hrun;
    cbn [compare_new] in Hrun.
  { injection Hrun as <- <- <- <-. naive_solver. }
  destruct (bool_decide (id k ∈ compared)); [by apply IH in Hrun|].
  unfold sbind, sget, sret in Hrun. cbn -[py_eq probe_valid] in Hrun.
  pose proof (key_native_stable k key w) as Hstab.
  destruct (negb (probe_valid i h k w)).
  { unfold poll in Hrun. destruct (check_memory_time w); naive_solver. }
  destruct (py_eq k key w) as [[eq|err] w1]; cbn [snd] in *; [|done].
  destruct (probe_valid i h k w1) eqn:Hv; cbn [negb] in Hrun.
  - destruct eq.
    + injection Hrun as <- <- <- <-. apply probe_valid_slot in Hv. naive_solver.
    + rewrite <- Hstab. by apply IH in Hrun.
  - unfold poll in Hrun. destruct (check_memory_time w1); naive_solver.
Qed.

Lemma probe_after_compare_valid fuel h key : forall compared w o w',
  probe_after_compare fuel h key compared w = (Ok o, w') ->
  (forall s, o = Some (Found s) -> valid_slot h w' s)
  /\ eq_is_native (RunError := RunError) (E := E) key w'
     = eq_is_native (RunError := RunError) (E := E) key w.
Proof.
  induction fuel as [|fuel IH]; intros compared w o w' Hrun; cbn [probe_after_compare] in Hrun.
  { inv_step. naive_solver. }
  apply sbind_Ok in Hrun as (? & w1 & Hp & Hrun). unfold poll in Hp. injection Hp as _ <-.
  apply sbind_Ok in Hrun as (? & w1 & Hg & Hrun). apply sget_Ok in Hg as [-> ->].
  apply sbind_Ok in Hrun as ([[o' any] compared'] & w1 & Hc & Hrun).
  apply compare_new_valid in Hc as [Hf Hs]. rewrite <- Hs.
  destruct o' as [o'|]; [inv_step; naive_solver|].
  destruct any; [by apply IH in Hrun|inv_step; naive_solver].
Qed.

Lemma collected_start key h w :
  collected_ok key h w
    (collect_candidates key h w (candidates (indices (table_of (Value := Value) (RunError := RunError) w)) h)
      {| found := None; deferred := []; all_native := eq_is_native (E := E) key w |}).
Proof. apply collect_candidates_ok; [done|]. split; [done|]. split; [constructor|naive_solver]. Qed.

Lemma collected_native key h w c : collected_ok key h w c ->
  all_native c = true -> eq_is_native (RunError := RunError) (E := E) key w = true
  /\ Forall (fun p => valid_slot h w p.1
       /\ eq_is_native (RunError := RunError) (E := E) p.2 w = true) (deferred c).
Proof.
  intros (_ & Hd & Hn) Ha. destruct (Hn Ha) as [Hk HF]. split; [done|]. by apply Forall_and.
Qed.

Lemma find_index_loop_valid fuel key h : forall w s w',
  find_index_loop fuel (eq_is_native (E := E) key w) key h w = (Ok (Some (Some s)), w') ->
  valid_slot h w' s.
Proof.
  induction fuel as [|fuel IH]; intros w s w' Hrun; [done|]. cbn [find_index_loop] in Hrun.
  apply sbind_Ok in Hrun as (? & w1 & Hg & Hrun). apply sget_Ok in Hg as [-> ->].
  pose proof (collected_start key h w) as Hc. cbv zeta in Hrun.
  set (c := collect_candidates _ _ _ _ _) in *. clearbody c.
  destruct (found c) as [i|] eqn:Hf.
  { inv_step. apply Hc. congruence. }
  destruct (deferred c) as [|d ds] eqn:Hd; [inv_step; done|]. rewrite <- Hd in Hrun.
  apply sbind_Ok in Hrun as (o & w1 & Hcmp & Hrun).
  apply compare_candidates_valid in Hcmp as (Hv & _ & Hs); [|by apply collected_native].
  destruct o as [i| |]; [inv_step; naive_solver| |rewrite <- Hs in Hrun; by apply IH in Hrun].
  destruct (all_native c); [inv_step; done|].
  apply sbind_Ok in Hrun as (o & w2 & Hp & Hrun). apply probe_after_compare_valid in Hp as [Hv2 Hs2].
  destruct o as [[i| |]|]; [inv_step; naive_solver|inv_step; done| |inv_step; done].
  rewrite <- Hs, <- Hs2 in Hrun. by apply IH in Hrun.
Qed.

(** The slot a guarded probe returns can be used at once: whatever the
    comparisons did to the container, in the world the probe leaves behind the
    slot holds a live entry cached under the hash that was looked up, so
    [entry], [replace] and [remove] on it cannot panic. *)
Theorem find_index_valid fuel key h w s w' :
  find_index fuel key h w = (Ok (Some (Some s)), w') ->
  exists e, entry (table_of (Value := Value) (RunError := RunError) w') s = Some e
    /\ hash_of e = h /\ is_Some (remove (table_of (Value := Value) (RunError := RunError) w') s)
    /\ is_Some (replace (table_of (Value := Value) (RunError := RunError) w') s e).
Proof.
  intros (e & He & Hh)%find_index_loop_valid. exists e. unfold entry, remove, replace, tombstone_at.
  rewrite He. unfold get_live in He. destruct (entries _ !! s); [|done]. naive_solver.
Qed.

(** a lookup none of whose comparisons can run guest code never restarts:
    it returns, with a result or with the error a comparison raised, on the
    first pass. *)
Theorem find_index_native_returns fuel key h w :
  eq_is_native (RunError := RunError) (E := E) key w = true ->
  (forall s e, entry (table_of (Value := Value) (RunError := RunError) w) s = Some e ->
     eq_is_native (RunError := RunError) (E := E) (key_of e) w = true) ->
  (find_index (S fuel) key h w).1 <> Ok None.
Proof.
  intros Hkey Hall. unfold find_index. cbn [find_index_loop]. unfold sbind at 1 2, sget.
  pose proof (collected_start key h w) as Hc. cbv zeta.
  assert (Hn : all_native (collect_candidates key h w
    (candidates (indices (table_of (Value := Value) (RunError := RunError) w)) h)
    {| found := None; deferred := []; all_native := eq_is_native (E := E) key w |}) = true).
  { by apply collect_all_native. }
  set (c := collect_candidates _ _ _ _ _) in *. clearbody c.
  destruct (found c); [done|]. destruct (deferred c) as [|d ds] eqn:Hd; [done|]. rewrite <- Hd, Hn.
  unfold sbind. destruct (compare_candidates true h key (deferred c) w) as [[o|e] w1] eqn:Hcmp; [|done].
  apply compare_candidates_valid in Hcmp as (_ & Hr & _).
  - destruct o; [done|done|]. by destruct (Hr eq_refl).
  - intros _. by apply collected_native.
Qed.
End ProbeFacts.

(** ** The properties on a concrete interpreter

    Worlds are the slots of one dict. Keys from 100 on are instances whose
    [__eq__] compares the last two digits and inserts a key on the way. *)

#[local] Existing Instance demo_py_value.
#[local] Existing Instance demo_probing.
#[local] Existing Instance demo_probing_laws.

Definition demo_native (v : demo_value) : bool := match v with Some n => (n <? 100)%Z | None => true end.

Definition demo_eq (a b : demo_value) : bool :=
  bool_decide ((fun n => (n mod 100)%Z) <$> a = (fun n => (n mod 100)%Z) <$> b).

#[local] Instance demo_guest : Guest demo_value RunError (DictEntry demo_value) := {
  World := list (DictEntry demo_value);
  Identity := demo_value;
  table_of w := from_entries w;
  py_eq a b w := (Ok (demo_eq a b), if demo_native a && demo_native b then w else w ++ [demo_entry 99 0]);
  eq_is_native v _ := demo_native v;
  probe_native_eq a b _ := if demo_native a && demo_native b then Some (demo_eq a b) else None;
  id v := v;
  check_memory_time _ := Ok tt;
  check_time_every _ _ := Ok tt }.

#[local] Instance demo_guest_laws : GuestLaws.
Proof.
  constructor; [intros w; apply reindex_wf|done|].
  cbn. intros a b w -> ->. done.
Qed.

(** A dict holding an instance under the hash 5, and another key. *)
Definition demo_world : World (Guest := demo_guest) :=
  [demo_entry 7 70; {| de_key := Some 105%Z; de_value := Some 0%Z; de_hash := 5 |}].

Definition demo_native_world : World (Guest := demo_guest) := [demo_entry 7 70; demo_entry 8 80].

(** The probe for 5 runs the instance's [__eq__], which inserts the key 99. *)
Lemma find_index_valid_witness :
  exists w', find_index 2 (Some 5%Z) 5 demo_world = (Ok (Some (Some 1)), w')
    /\ length (entries (table_of w')) = 3
    /\ exists e, entry (table_of w') 1 = Some e /\ hash e = 5%Z
         /\ is_Some (remove (table_of w') 1) /\ is_Some (replace (table_of w') 1 e).
Proof.
  eexists. split; [vm_compute; reflexivity|]. split; [reflexivity|].
  apply (find_index_valid 2 (Some 5%Z) 5 demo_world 1). vm_compute. reflexivity.
Defined.

Lemma find_index_native_returns_witness :
  (find_index 1 (Some 7%Z) 7 demo_native_world).1 <> Ok None.
Proof.
  apply (find_index_native_returns 0 (Some 7%Z) 7 demo_native_world); [reflexivity|].
  intros [|[|s]] e He; cbn in He; [by injection He as <-..|discriminate].
Defined.
