(* ===== verification/Resource.v ===== *)
(** Resource limits of the interpreter ([crates/monty-types/src/resource.rs] and
    [resource/execution_clock.rs]): the limits a host configures, the tracker that
    enforces them, and the clock of an execution window.

    A [Duration] or an [Instant] is its number of nanoseconds. What the code reads
    of the machine (clocks, the current thread, the allocator's counters) is the
    class [Machine]; a method that changes the tracker through its [Cell]s takes
    and returns the pair of tracker and machine. *)
From S2P Require Import Prelude.
Local Open Scope monty_scope.
Local Open Scope Z_scope.

(** ** The machine *)

(** [instant_now] is [Instant::now()]; [cpu_time] is the thread's CPU clock as
    [nix] returns it, seconds and nanoseconds, [None] for an error; [cpu_clock] says
    whether the build has the [cpu-clock] feature on Linux; [live_memory] and
    [baseline_memory] are the static counters. *)
Class Machine (W : Type) := {
  instant_now : W -> Z * W;
  cpu_time : W -> option (Z * Z) * W;
  cpu_clock : bool;
  current_id : W -> Z;
  live_memory : W -> Z;
  baseline_memory : W -> Z;
  set_baseline : Z -> W -> W;
  thread_sleep : Z -> W -> W }.

(** Instants do not go back, a sleep lasts at least as long as asked, and storing
    the baseline changes nothing else. *)
Class MachineLaws (W : Type) `{Machine W} := {
  last_instant : W -> Z;
  instant_forward : forall w, last_instant w <= (instant_now w).1;
  instant_last : forall w, last_instant (instant_now w).2 = (instant_now w).1;
  sleep_forward : forall d w, last_instant w + d <= last_instant (thread_sleep d w);
  baseline_set : forall b w, baseline_memory (set_baseline b w) = b;
  baseline_live : forall b w, live_memory (set_baseline b w) = live_memory w }.

(** ** Limits *)

Definition MEMORY_LIMIT_HEADROOM : Z := 4 * 1024 * 1024.
Definition TYPE_CHECK_MEMORY_LIMIT_HEADROOM : Z := 32 * 1024 * 1024.

Definition memory_limit_with_headroom (max_memory : option Z) (type_check : bool) : option Z :=
  option_map (fun bytes =>
    let headroom := if type_check then TYPE_CHECK_MEMORY_LIMIT_HEADROOM else MEMORY_LIMIT_HEADROOM in
    sat_add bytes headroom) max_memory.

Inductive TimeLimitScope := Feed | Turn.

Inductive ResourceError :=
| Time (scope : TimeLimitScope) (limit elapsed : Z)
| Memory (limit used : Z)
| Recursion (limit depth : Z).

Inductive ExecutionClock := Wall | Cpu.

#[export] Instance scope_eq_dec : EqDecision TimeLimitScope.
Proof. solve_decision. Defined.
#[export] Instance resource_error_eq_dec : EqDecision ResourceError.
Proof. solve_decision. Defined.
#[export] Instance execution_clock_eq_dec : EqDecision ExecutionClock.
Proof. solve_decision. Defined.

Record ResourceLimits := {
  max_feed_duration : option Z;
  max_turn_duration : option Z;
  max_memory : option Z;
  gc_interval : option Z;
  max_recursion_depth : Z;
  max_suspensions : Z;
  max_total_sleep : option Z }.

Definition DEFAULT_MAX_RECURSION_DEPTH : Z := 1000.
Definition DEFAULT_GC_INTERVAL : Z := 100000.
Definition DEFAULT_MAX_SUSPENSIONS : Z := 1000.

Definition default_limits : ResourceLimits :=
  {| max_feed_duration := None; max_turn_duration := None; max_memory := None; gc_interval := None;
     max_recursion_depth := DEFAULT_MAX_RECURSION_DEPTH;
     max_suspensions := DEFAULT_MAX_SUSPENSIONS; max_total_sleep := None |}.

Definition with_max_feed_duration (limit : Z) (l : ResourceLimits) : ResourceLimits :=
  {| max_feed_duration := Some limit; max_turn_duration := max_turn_duration l;
     max_memory := max_memory l; gc_interval := gc_interval l;
     max_recursion_depth := max_recursion_depth l; max_suspensions := max_suspensions l;
     max_total_sleep := max_total_sleep l |}.

Definition with_max_turn_duration (limit : Z) (l : ResourceLimits) : ResourceLimits :=
  {| max_feed_duration := max_feed_duration l; max_turn_duration := Some limit;
     max_memory := max_memory l; gc_interval := gc_interval l;
     max_recursion_depth := max_recursion_depth l; max_suspensions := max_suspensions l;
     max_total_sleep := max_total_sleep l |}.

Definition with_max_memory (limit : Z) (l : ResourceLimits) : ResourceLimits :=
  {| max_feed_duration := max_feed_duration l; max_turn_duration := max_turn_duration l;
     max_memory := Some limit; gc_interval := gc_interval l;
     max_recursion_depth := max_recursion_depth l; max_suspensions := max_suspensions l;
     max_total_sleep := max_total_sleep l |}.

Definition with_gc_interval (interval : Z) (l : ResourceLimits) : ResourceLimits :=
  {| max_feed_duration := max_feed_duration l; max_turn_duration := max_turn_duration l;
     max_memory := max_memory l; gc_interval := Some interval;
     max_recursion_depth := max_recursion_depth l; max_suspensions := max_suspensions l;
     max_total_sleep := max_total_sleep l |}.

Definition with_max_recursion_depth (limit : Z) (l : ResourceLimits) : ResourceLimits :=
  {| max_feed_duration := max_feed_duration l; max_turn_duration := max_turn_duration l;
     max_memory := max_memory l; gc_interval := gc_interval l;
     max_recursion_depth := limit; max_suspensions := max_suspensions l;
     max_total_sleep := max_total_sleep l |}.

Definition with_max_suspensions (limit : Z) (l : ResourceLimits) : ResourceLimits :=
  {| max_feed_duration := max_feed_duration l; max_turn_duration := max_turn_duration l;
     max_memory := max_memory l; gc_interval := gc_interval l;
     max_recursion_depth := max_recursion_depth l; max_suspensions := limit;
     max_total_sleep := max_total_sleep l |}.

Definition with_max_total_sleep (limit : Z) (l : ResourceLimits) : ResourceLimits :=
  {| max_feed_duration := max_feed_duration l; max_turn_duration := max_turn_duration l;
     max_memory := max_memory l; gc_interval := gc_interval l;
     max_recursion_depth := max_recursion_depth l; max_suspensions := max_suspensions l;
     max_total_sleep := Some limit |}.

(** [tighter_limit], at the integer types it is used with. *)
Definition tighter_limit (existing ceiling : option Z) : option Z :=
  match existing, ceiling with
  | Some existing, Some ceiling => Some (Z.min existing ceiling)
  | Some existing, None => Some existing
  | None, ceiling => ceiling
  end.

Definition tighter_gc_interval (existing ceiling : option Z) : option Z :=
  let effective := Z.min (default DEFAULT_GC_INTERVAL existing) (default DEFAULT_GC_INTERVAL ceiling) in
  option_map (fun _ => effective) (match existing with Some _ => existing | None => ceiling end).

(** ** The window of one execution *)

Definition SAMPLE_INTERVAL : Z := 1000000.

Record ExecutionInstant := {
  wall : Z;
  cpu : option Z;
  sampled_at : Z;
  sample_interval : Z;
  last_elapsed : Z;
  thread : option Z }.

Definition set_cpu (c : option Z) (i : ExecutionInstant) : ExecutionInstant :=
  {| wall := wall i; cpu := c; sampled_at := sampled_at i; sample_interval := sample_interval i;
     last_elapsed := last_elapsed i; thread := thread i |}.

Definition set_sample (t e : Z) (i : ExecutionInstant) : ExecutionInstant :=
  {| wall := wall i; cpu := cpu i; sampled_at := t; sample_interval := sample_interval i;
     last_elapsed := e; thread := thread i |}.

Definition set_last_elapsed (e : Z) (i : ExecutionInstant) : ExecutionInstant :=
  set_sample (sampled_at i) e i.

Definition NANOS_PER_SEC : Z := 1000000000.

Section Machine.
Context {W : Type} `{Machine W}.

(** [instant.elapsed()]: saturating, as [Instant::duration_since]. *)
Definition elapsed_since (start : Z) (w : W) : Z * W :=
  let '(now, w) := instant_now w in (sat_sub now start, w).

(** [tv_sec] must fit [u64] and [tv_nsec] must fit [u32]; both are [i64]. *)
Definition thread_cpu (w : W) : option Z * W :=
  if cpu_clock then
    let '(time, w) := cpu_time w in
    (match time with
     | Some (sec, nsec) =>
         if (sec <? 0) || (nsec <? 0) || (4294967295 <? nsec) then None
         else Some (sec * NANOS_PER_SEC + nsec)
     | None => None
     end, w)
  else (None, w).

(** [ExecutionInstant::now]. *)
Definition window_now (clock : ExecutionClock) (remaining : option Z) (w : W) : ExecutionInstant * W :=
  let '(c, w) := match clock with Cpu => thread_cpu w | Wall => (None, w) end in
  let '(t, w) := instant_now w in
  ({| wall := t; cpu := c; sampled_at := t;
      sample_interval := match remaining with
                         | Some budget => Z.min budget SAMPLE_INTERVAL
                         | None => SAMPLE_INTERVAL
                         end;
      last_elapsed := 0;
      thread := option_map (fun _ => current_id w) c |}, w).

(** The last two lines of [measure]: the elapsed-time fallback. *)
Definition measure_wall (self : ExecutionInstant) (w : W) : Z * ExecutionInstant * W :=
  let '(e, w) := elapsed_since (wall self) w in
  let last := Z.max (last_elapsed self) e in
  (last, set_last_elapsed last self, w).

Definition measure (exact : bool) (self : ExecutionInstant) (w : W) : Z * ExecutionInstant * W :=
  let moved := match cpu self with
               | Some _ => negb (bool_decide (Some (current_id w) = thread self))
               | None => false
               end in
  let self := if moved then set_cpu None self else self in
  match cpu self with
  | None => measure_wall self w
  | Some started =>
      let '(cached, w) :=
        if exact then (false, w)
        else let '(e, w) := elapsed_since (sampled_at self) w in (e <? sample_interval self, w) in
      if cached then (last_elapsed self, self, w)
      else
        let '(now, w) := thread_cpu w in
        match now ≫= (fun now => checked_sub now started) with
        | Some elapsed =>
            if last_elapsed self <=? elapsed then
              let '(t, w) := instant_now w in (elapsed, set_sample t elapsed self, w)
            else measure_wall (set_cpu None self) w
        | None => measure_wall (set_cpu None self) w
        end
  end.

Definition window_elapsed (self : ExecutionInstant) (w : W) : Z * ExecutionInstant * W :=
  measure false self w.

Definition elapsed_at_stop (self : ExecutionInstant) (w : W) : Z * ExecutionInstant * W :=
  measure true self w.

(** [ExecutionClock::is_available]. *)
Definition is_available (clock : ExecutionClock) (w : W) : bool * W :=
  if bool_decide (clock = Wall) then (true, w)
  else let '(c, w) := thread_cpu w in (bool_decide (is_Some c), w).

(** ** Memory *)

(** [build] is any step of the machine that returns a value. *)
Definition allocate_into_baseline {T} (build : W -> T * W) (w : W) : T * W :=
  let before := live_memory w in
  let '(value, w) := build w in
  let cost := sat_sub (live_memory w) before in
  let baseline := baseline_memory w in
  (value, if baseline =? usize_max then w else set_baseline (sat_add baseline cost) w).

Definition probe_memory (w : W) : Z := sat_sub (live_memory w) (baseline_memory w).
End Machine.

(** ** The tracker *)

Record ResourceTracker := {
  execution_clock : ExecutionClock;
  limits : ResourceLimits;
  total_execution_time : Z;
  feed_execution_time : Z;
  turn_execution_time : Z;
  running_since : option ExecutionInstant;
  recursion_limit_override : option Z }.

Definition new_tracker (l : ResourceLimits) : ResourceTracker :=
  {| execution_clock := Wall; limits := l; total_execution_time := 0; feed_execution_time := 0;
     turn_execution_time := 0; running_since := None; recursion_limit_override := None |}.

Definition with_execution_clock (clock : ExecutionClock) (self : ResourceTracker) : ResourceTracker :=
  {| execution_clock := clock; limits := limits self;
     total_execution_time := total_execution_time self;
     feed_execution_time := feed_execution_time self;
     turn_execution_time := turn_execution_time self; running_since := running_since self;
     recursion_limit_override := recursion_limit_override self |}.

Definition set_limits (l : ResourceLimits) (self : ResourceTracker) : ResourceTracker :=
  {| execution_clock := execution_clock self; limits := l;
     total_execution_time := total_execution_time self;
     feed_execution_time := feed_execution_time self;
     turn_execution_time := turn_execution_time self; running_since := running_since self;
     recursion_limit_override := recursion_limit_override self |}.

Definition set_times (total feed turn : Z) (self : ResourceTracker) : ResourceTracker :=
  {| execution_clock := execution_clock self; limits := limits self;
     total_execution_time := total; feed_execution_time := feed; turn_execution_time := turn;
     running_since := running_since self;
     recursion_limit_override := recursion_limit_override self |}.

Definition set_running (r : option ExecutionInstant) (self : ResourceTracker) : ResourceTracker :=
  {| execution_clock := execution_clock self; limits := limits self;
     total_execution_time := total_execution_time self;
     feed_execution_time := feed_execution_time self;
     turn_execution_time := turn_execution_time self; running_since := r;
     recursion_limit_override := recursion_limit_override self |}.

Definition set_override (o : option Z) (self : ResourceTracker) : ResourceTracker :=
  {| execution_clock := execution_clock self; limits := limits self;
     total_execution_time := total_execution_time self;
     feed_execution_time := feed_execution_time self;
     turn_execution_time := turn_execution_time self; running_since := running_since self;
     recursion_limit_override := o |}.

(** What a dump keeps: the skipped fields come back as their defaults. *)
Definition reload (self : ResourceTracker) : ResourceTracker :=
  set_running None (set_times (total_execution_time self) (feed_execution_time self) 0 self).

Definition tighten_limits (ceiling : ResourceLimits) (self : ResourceTracker) : ResourceTracker :=
  let l := limits self in
  let l' := {| max_memory := tighter_limit (max_memory l) (max_memory ceiling);
               max_feed_duration := tighter_limit (max_feed_duration l) (max_feed_duration ceiling);
               max_turn_duration := tighter_limit (max_turn_duration l) (max_turn_duration ceiling);
               max_total_sleep := tighter_limit (max_total_sleep l) (max_total_sleep ceiling);
               gc_interval := tighter_gc_interval (gc_interval l) (gc_interval ceiling);
               max_recursion_depth := Z.min (max_recursion_depth l) (max_recursion_depth ceiling);
               max_suspensions := Z.min (max_suspensions l) (max_suspensions ceiling) |} in
  let self := set_limits l' self in
  match recursion_limit_override self with
  | Some limit => set_override (Some (Z.min limit (max_recursion_depth l'))) self
  | None => self
  end.

Definition active_recursion_limit (self : ResourceTracker) : Z :=
  default (max_recursion_depth (limits self)) (recursion_limit_override self).

Definition has_time_limit (self : ResourceTracker) : bool :=
  bool_decide (is_Some (max_feed_duration (limits self)))
  || bool_decide (is_Some (max_turn_duration (limits self))).

Definition has_memory_time_limit (self : ResourceTracker) : bool :=
  bool_decide (is_Some (max_memory (limits self))) || has_time_limit self.

Definition on_turn_start (self : ResourceTracker) : ResourceTracker :=
  set_times (total_execution_time self) (feed_execution_time self) 0 self.

Definition on_feed_start (self : ResourceTracker) : ResourceTracker :=
  on_turn_start (set_times (total_execution_time self) 0 (turn_execution_time self) self).

Definition set_max_feed_duration (duration : Z) (self : ResourceTracker) : ResourceTracker :=
  on_feed_start (set_limits (with_max_feed_duration duration (limits self)) self).

Definition set_max_turn_duration (duration : Z) (self : ResourceTracker) : ResourceTracker :=
  on_turn_start (set_limits (with_max_turn_duration duration (limits self)) self).

Definition check_budget (scope : TimeLimitScope) (limit : option Z) (elapsed : Z) :
    result unit ResourceError :=
  match limit with
  | Some limit => if limit <? elapsed then Err (Time scope limit elapsed) else Ok tt
  | None => Ok tt
  end.

(** [growth_bytes]: what pushing one element onto a full buffer allocates. *)
Definition min_non_zero_capacity (elem_size : Z) : Z :=
  if elem_size =? 1 then 8 else if (2 <=? elem_size) && (elem_size <=? 1024) then 4 else 1.

Definition growth_bytes (len capacity elem_size : Z) : Z :=
  if len <? capacity then 0
  else
    let new_capacity := Z.max (Z.max (sat_mul capacity 2) (sat_add len 1))
                              (min_non_zero_capacity elem_size) in
    sat_mul (sat_sub new_capacity capacity) elem_size.

Definition check_recursion_depth (self : ResourceTracker) (current_depth : Z) :
    result unit ResourceError :=
  let limit := active_recursion_limit self in
  if limit <=? current_depth then Err (Recursion limit (current_depth + 1)) else Ok tt.

(** [Err] carries the ceiling in force. *)
Definition lower_recursion_limit (new_limit : Z) (self : ResourceTracker) :
    result unit Z * ResourceTracker :=
  let limit := active_recursion_limit self in
  if limit <? new_limit then (Err limit, self)
  else (Ok tt, set_override (Some new_limit) self).

Definition LOOP_CHECK_INTERVAL : Z := 64.

Section Tracker.
Context {W : Type} `{Machine W}.

Abbreviation St := (ResourceTracker * W)%type.

Definition running_window (s : St) : Z * St :=
  let '(self, w) := s in
  match running_since self with
  | None => (0, s)
  | Some window =>
      let '(elapsed, window, w) := window_elapsed window w in
      (elapsed, (set_running (Some window) self, w))
  end.

Definition elapsed (s : St) : Z * St :=
  let '(r, s') := running_window s in (total_execution_time s.1 + r, s').
Definition feed_elapsed (s : St) : Z * St :=
  let '(r, s') := running_window s in (feed_execution_time s.1 + r, s').
Definition turn_elapsed (s : St) : Z * St :=
  let '(r, s') := running_window s in (turn_execution_time s.1 + r, s').

Definition check_allocation (self : ResourceTracker) (w : W) (additional : Z) :
    result unit ResourceError :=
  match max_memory (limits self) with
  | Some limit =>
      let used := sat_add (probe_memory w) additional in
      if limit <? used then Err (Memory limit used) else Ok tt
  | None => Ok tt
  end.

Definition check_pending_allocation (self : ResourceTracker) (w : W) (additional : Z) :
    result unit ResourceError :=
  if additional =? 0 then Ok tt else check_allocation self w additional.

Definition check_growth (self : ResourceTracker) (w : W) (len capacity elem_size : Z) :
    result unit ResourceError :=
  check_pending_allocation self w (growth_bytes len capacity elem_size).

Definition check_large_result (self : ResourceTracker) (w : W) (estimated_bytes : Z) :
    result unit ResourceError :=
  check_allocation self w estimated_bytes.

Definition check_time : M St ResourceError unit := fun s =>
  if negb (has_time_limit s.1) then (Ok tt, s)
  else
    let '(running, s) := running_window s in
    ((check_budget Feed (max_feed_duration (limits s.1)) (feed_execution_time s.1 + running) ;?
      check_budget Turn (max_turn_duration (limits s.1)) (turn_execution_time s.1 + running)), s).

(** The memory half of [check_memory_time]. *)
Definition check_memory (self : ResourceTracker) (w : W) : result unit ResourceError :=
  match max_memory (limits self) with
  | Some limit =>
      let used := probe_memory w in
      if limit <? used then Err (Memory limit used) else Ok tt
  | None => Ok tt
  end.

Definition check_memory_time : M St ResourceError unit := fun s =>
  match check_memory s.1 s.2 with
  | Err e => (Err e, s)
  | Ok _ => check_time s
  end.

Definition check_time_every (i : Z) : M St ResourceError unit :=
  if i mod LOOP_CHECK_INTERVAL =? LOOP_CHECK_INTERVAL - 1 then check_time else sret tt.

Definition check_memory_time_every (i : Z) : M St ResourceError unit :=
  if i mod LOOP_CHECK_INTERVAL =? LOOP_CHECK_INTERVAL - 1 then check_memory_time else sret tt.

(** What is left of the tighter of the two budgets. *)
Definition remaining_budget (self : ResourceTracker) : option Z :=
  let left limit used := option_map (fun limit => sat_sub limit used) limit in
  match left (max_feed_duration (limits self)) (feed_execution_time self),
        left (max_turn_duration (limits self)) (turn_execution_time self) with
  | Some a, Some b => Some (Z.min a b)
  | Some a, None => Some a
  | None, b => b
  end.

Definition on_execution_start (s : St) : St :=
  let '(self, w) := s in
  let '(window, w) := window_now (execution_clock self) (remaining_budget self) w in
  (set_running (Some window) self, w).

Definition on_execution_stop (s : St) : St :=
  let '(self, w) := s in
  match running_since self with
  | None => s
  | Some started =>
      let '(window, _, w) := elapsed_at_stop started w in
      (set_times (total_execution_time self + window) (feed_execution_time self + window)
                 (turn_execution_time self + window) (set_running None self), w)
  end.

Definition sandbox_sleep (duration : Z) (s : St) : St :=
  let was_running := bool_decide (is_Some (running_since s.1)) in
  let '(self, w) := on_execution_stop s in
  let s := (self, thread_sleep duration w) in
  if was_running then on_execution_start s else s.
End Tracker.

(** ** A simulated machine

    Every clock read takes a nanosecond, half of it on the CPU. *)
Record SimMachine := { sim_now : Z; sim_cpu : Z; sim_live : Z; sim_baseline : Z }.

Definition sim_tick (d : Z) (w : SimMachine) : SimMachine :=
  {| sim_now := sim_now w + d; sim_cpu := sim_cpu w + d / 2; sim_live := sim_live w;
     sim_baseline := sim_baseline w |}.

#[export] Instance sim_machine : Machine SimMachine := {
  instant_now w := (sim_now w + 1, sim_tick 1 w);
  cpu_time w := (Some (0, sim_cpu w), sim_tick 1 w);
  cpu_clock := true;
  current_id _ := 1;
  live_memory := sim_live;
  baseline_memory := sim_baseline;
  set_baseline b w := {| sim_now := sim_now w; sim_cpu := sim_cpu w; sim_live := sim_live w;
                         sim_baseline := b |};
  thread_sleep d w := sim_tick (Z.max 0 d) w }.

#[export] Instance sim_machine_laws : MachineLaws SimMachine.
Proof. by refine {| last_instant := sim_now |}; intros; cbn; try lia. Defined.

Definition sim_start : SimMachine := {| sim_now := 0; sim_cpu := 0; sim_live := 1000; sim_baseline := 400 |}.
