(* ===== verification/ResourceProps.v ===== *)
(** What the resource tracker guarantees: its clocks nest, an exceeded budget stays
    exceeded until it is reset, limits only tighten, and the wall clock charges
    exactly the time between the start and the stop of a window. *)
From S2P Require Import Prelude Resource.
Local Open Scope monty_scope.
Local Open Scope Z_scope.

Definition within (limit : option Z) (t : Z) : Prop :=
  match limit with Some l => t <= l | None => True end.

Lemma check_budget_within scope limit t : check_budget scope limit t = Ok tt <-> within limit t.
Proof. destruct limit as [l|]; cbn; [|done]. destruct (Z.ltb_spec l t); split; intros; try done; lia. Qed.

Lemma rbind_unit {E} (m n : result unit E) : (m ;? n) = Ok tt <-> m = Ok tt /\ n = Ok tt.
Proof. destruct m as [[]|e]; cbn; naive_solver. Qed.

Section Tracker.
Context {W : Type} `{Machine W}.

Abbreviation St := (ResourceTracker * W)%type.

(** ** The calls a host and the interpreter make *)

(** [Elsewhere] is anything that happens to the machine between two calls. *)
Inductive call :=
| Start | Stop | FeedStart | TurnStart | Sleep (d : Z) | SetMaxFeed (d : Z) | SetMaxTurn (d : Z)
| Tighten (l : ResourceLimits) | Lower (n : Z) | Elapsed | CheckTime | CheckMemoryTime
| Reload | Elsewhere (f : W -> W).

(** Windows are not nested, as the assertion of [on_execution_start] demands, and a
    dump is taken outside of one. *)
Inductive tstep : call -> St -> St -> Prop :=
| step_start s : running_since s.1 = None -> tstep Start s (on_execution_start s)
| step_stop s : tstep Stop s (on_execution_stop s)
| step_feed self w : tstep FeedStart (self, w) (on_feed_start self, w)
| step_turn self w : tstep TurnStart (self, w) (on_turn_start self, w)
| step_sleep d s : tstep (Sleep d) s (sandbox_sleep d s)
| step_set_feed d self w : tstep (SetMaxFeed d) (self, w) (set_max_feed_duration d self, w)
| step_set_turn d self w : tstep (SetMaxTurn d) (self, w) (set_max_turn_duration d self, w)
| step_tighten l self w : tstep (Tighten l) (self, w) (tighten_limits l self, w)
| step_lower n self w : tstep (Lower n) (self, w) ((lower_recursion_limit n self).2, w)
| step_elapsed s : tstep Elapsed s (elapsed s).2
| step_check s : tstep CheckTime s (check_time s).2
| step_check_memory s : tstep CheckMemoryTime s (check_memory_time s).2
| step_reload self w : running_since self = None -> tstep Reload (self, w) (reload self, w)
| step_elsewhere f self w : tstep (Elsewhere f) (self, w) (self, f w).

Inductive run : list call -> St -> St -> Prop :=
| run_nil s : run [] s s
| run_cons c cs s s1 s2 : tstep c s s1 -> run cs s1 s2 -> run (c :: cs) s s2.

(** ** Readings of a window *)

(** A reading never goes back, and the window remembers it. *)
Record reads (i : ExecutionInstant) (e : Z) (i' : ExecutionInstant) : Prop := {
  reads_forward : last_elapsed i <= e;
  reads_last : last_elapsed i' = e;
  reads_interval : sample_interval i' = sample_interval i }.

Lemma measure_forward exact i w e i' w' : measure exact i w = (e, i', w') -> reads i e i'.
Proof.
  assert (Hwall : forall i w e i' w', measure_wall i w = (e, i', w') -> reads i e i').
  { clear. intros i w e i' w'. unfold measure_wall. destruct (elapsed_since _ _).
    intros [= <- <- <-]. split; cbn; lia. }
  unfold measure. destruct (match cpu i with Some _ => _ | None => _ end);
    [cbn [set_cpu cpu]; intros [] % (Hwall (set_cpu None i)); done|].
  destruct (cpu i) as [started|]; [|apply Hwall].
  destruct (if exact then _ else _) as [[] w1]; [intros [= <- <- <-]; split; cbn; lia|].
  destruct (thread_cpu w1) as [now w2]. destruct (now ≫= _) as [el|]; [|intros [] % (Hwall (set_cpu None i)); done].
  destruct (Z.leb_spec (last_elapsed i) el); [|intros [] % (Hwall (set_cpu None i)); done].
  destruct (instant_now w2). intros [= <- <- <-]. split; cbn; lia.
Qed.

(** What the window running in the tracker has reported. *)
Definition reported (self : ResourceTracker) : Z :=
  match running_since self with Some i => last_elapsed i | None => 0 end.

(** Samples are at most a millisecond apart. *)
Definition interval_ok (self : ResourceTracker) : Prop :=
  forall i, running_since self = Some i -> sample_interval i <= SAMPLE_INTERVAL.

(** A read changes the window only, and reports what it leaves there. *)
Lemma running_window_forward s r s' :
  running_window s = (r, s') ->
  (exists o, s'.1 = set_running o s.1) /\ r = reported s'.1 /\ reported s.1 <= r
  /\ (interval_ok s.1 -> interval_ok s'.1).
Proof.
  destruct s as [self w]. unfold running_window, reported, window_elapsed. cbn [fst].
  destruct (running_since self) as [i|] eqn:Hr.
  - destruct (measure false i w) as [[e i'] w'] eqn:Hm. apply measure_forward in Hm as [H1 H2 H3].
    intros [= <- <-]. cbn. repeat split; [by eexists|lia..|].
    intros Hi j [= <-]. rewrite H3. by apply Hi.
  - intros [= <- <-]. cbn. rewrite Hr. split; [|repeat split; auto; lia]. exists None. by destruct self; cbn in *; subst.
Qed.

(** ** The invariant *)

Record tracker_ok (self : ResourceTracker) : Prop := {
  ok_turn : 0 <= turn_execution_time self;
  ok_feed : turn_execution_time self <= feed_execution_time self;
  ok_total : feed_execution_time self <= total_execution_time self;
  ok_window : 0 <= reported self;
  ok_interval : interval_ok self;
  ok_ceiling : active_recursion_limit self <= max_recursion_depth (limits self) }.

Lemma running_window_ok s : tracker_ok s.1 -> tracker_ok (running_window s).2.1.
Proof.
  destruct (running_window s) as [r s'] eqn:Hr.
  destruct (running_window_forward _ _ _ Hr) as ([o Heq] & H1 & H2 & H3). intros [].
  split; cbn [snd]; [.. |by apply H3|rewrite Heq; done]; rewrite <- ?H1, ?Heq; cbn; lia.
Qed.

Lemma check_time_window s :
  (check_time s).2 = if has_time_limit s.1 then (running_window s).2 else s.
Proof. unfold check_time. destruct (has_time_limit s.1); [|done]. by destruct (running_window s). Qed.

(** [check_time] passes exactly when its reading is within both budgets. *)
Lemma check_time_ok s :
  (check_time s).1 = Ok tt <->
  within (max_feed_duration (limits s.1)) (feed_execution_time s.1 + (running_window s).1)
  /\ within (max_turn_duration (limits s.1)) (turn_execution_time s.1 + (running_window s).1).
Proof.
  unfold check_time. destruct (has_time_limit s.1) eqn:Hh; cbn [negb].
  - destruct (running_window s) as [r s'] eqn:Hr.
    destruct (running_window_forward _ _ _ Hr) as ([o Ho] & _). cbn [fst].
    rewrite rbind_unit, !check_budget_within, Ho. done.
  - apply orb_false_iff in Hh as [H1 H2]. apply bool_decide_eq_false in H1, H2.
    rewrite <- eq_None_not_Some in H1, H2. by rewrite H1, H2.
Qed.

Lemma check_memory_time_window s :
  (check_memory_time s).2 = s \/ (check_memory_time s).2 = (check_time s).2.
Proof. unfold check_memory_time. destruct (check_memory s.1 s.2); auto. Qed.

Lemma on_execution_start_window s :
  exists i, (on_execution_start s).1 = set_running (Some i) s.1 /\ last_elapsed i = 0
    /\ sample_interval i <= SAMPLE_INTERVAL.
Proof.
  destruct s as [self w]. unfold on_execution_start, window_now.
  destruct (match execution_clock self with Wall => _ | Cpu => _ end) as [c w1].
  destruct (instant_now w1). eexists. cbn [fst]. split; [reflexivity|]. split; [done|].
  cbn. destruct (remaining_budget self); lia.
Qed.

Lemma on_execution_stop_window s :
  exists d, 0 <= d /\
    (on_execution_stop s).1 =
    set_times (total_execution_time s.1 + (reported s.1 + d))
      (feed_execution_time s.1 + (reported s.1 + d)) (turn_execution_time s.1 + (reported s.1 + d))
      (set_running None s.1).
Proof.
  destruct s as [self w]. unfold on_execution_stop, reported, elapsed_at_stop. cbn [fst].
  destruct (running_since self) as [i|] eqn:Hr.
  - destruct (measure true i w) as [[e i'] w'] eqn:Hm. apply measure_forward in Hm as [H1 _ _].
    exists (e - last_elapsed i). split; [lia|]. cbn. repeat f_equal; lia.
  - exists 0. split; [lia|]. cbn. unfold set_times, set_running; cbn.
    destruct self; cbn in *; subst. f_equal; lia.
Qed.

Lemma on_execution_start_ok s : tracker_ok s.1 -> tracker_ok (on_execution_start s).1.
Proof.
  destruct (on_execution_start_window s) as (i & -> & Hi & Hs). intros []; split; cbn; try done.
  - unfold reported; cbn. lia.
  - by intros j [= <-].
Qed.

Lemma on_execution_stop_ok s : tracker_ok s.1 -> tracker_ok (on_execution_stop s).1.
Proof.
  destruct (on_execution_stop_window s) as (d & Hd & ->). intros []; split; cbn; try lia; done.
Qed.

(** A sleep stops the window, waits, and opens the next. *)
Lemma sandbox_sleep_window d s :
  exists w, sandbox_sleep d s =
    match running_since s.1 with
    | Some _ => on_execution_start ((on_execution_stop s).1, w)
    | None => ((on_execution_stop s).1, w)
    end.
Proof.
  unfold sandbox_sleep. destruct (on_execution_stop s) as [self w]. exists (thread_sleep d w).
  by destruct (running_since s.1).
Qed.

Lemma tighten_limits_ceiling l self :
  active_recursion_limit self <= max_recursion_depth (limits self) ->
  active_recursion_limit (tighten_limits l self)
  = Z.min (active_recursion_limit self) (max_recursion_depth l).
Proof.
  unfold active_recursion_limit, tighten_limits. cbn. destruct (recursion_limit_override self) eqn:Ho; cbn; rewrite ?Ho; cbn; intros; lia.
Qed.

Lemma lower_recursion_limit_ceiling n self :
  active_recursion_limit (lower_recursion_limit n self).2
  = Z.min (active_recursion_limit self) (if active_recursion_limit self <? n then active_recursion_limit self else n).
Proof.
  unfold lower_recursion_limit. destruct (Z.ltb_spec (active_recursion_limit self) n); cbn [snd]; [lia|].
  change (n = Z.min (active_recursion_limit self) n). lia.
Qed.

Lemma tstep_ok c s s' : tstep c s s' -> tracker_ok s.1 -> tracker_ok s'.1.
Proof.
  intros Hs Hok. destruct Hs; cbn [fst] in *;
    try (by destruct Hok; split; cbn; try lia).
  - by apply on_execution_start_ok.
  - by apply on_execution_stop_ok.
  - destruct (sandbox_sleep_window d s) as [w ->]. destruct (running_since s.1); [apply on_execution_start_ok|];
      by apply on_execution_stop_ok.
  - destruct Hok. split; [.. |rewrite tighten_limits_ceiling by done];
      unfold tighten_limits, reported in *; cbn; destruct (recursion_limit_override self); cbn in *; try done; lia.
  - pose proof (lower_recursion_limit_ceiling n self) as Hl. destruct Hok. split; [.. |rewrite Hl];
      unfold lower_recursion_limit, reported in *; case_match; cbn in *; try done; lia.
  - pose proof (running_window_ok s Hok). unfold elapsed. by destruct (running_window s).
  - rewrite check_time_window. case_match; [by apply running_window_ok|done].
  - destruct (check_memory_time_window s) as [-> | ->]; [done|]. rewrite check_time_window.
    case_match; [by apply running_window_ok|done].
Qed.

Lemma run_ok cs s s' : run cs s s' -> tracker_ok s.1 -> tracker_ok s'.1.
Proof. induction 1; eauto using tstep_ok. Qed.

Lemma new_tracker_ok l clock : tracker_ok (with_execution_clock clock (new_tracker l)).
Proof. split; cbn; try lia; done. Qed.

(** ** Budgets *)

Definition used (scope : TimeLimitScope) (self : ResourceTracker) : Z :=
  match scope with Feed => feed_execution_time self | Turn => turn_execution_time self end.

Definition limit_of (scope : TimeLimitScope) (self : ResourceTracker) : option Z :=
  match scope with
  | Feed => max_feed_duration (limits self)
  | Turn => max_turn_duration (limits self)
  end.

(** The time charged to a scope, the running window as last reported. *)
Definition charge (scope : TimeLimitScope) (self : ResourceTracker) : Z :=
  used scope self + reported self.

(** The calls that start a scope's budget afresh. *)
Definition resets (scope : TimeLimitScope) (c : call) : bool :=
  match c, scope with
  | (FeedStart | SetMaxFeed _), _ => true
  | (TurnStart | SetMaxTurn _ | Reload), Turn => true
  | _, _ => false
  end.

Definition exceeded (scope : TimeLimitScope) (self : ResourceTracker) : Prop :=
  exists limit, limit_of scope self = Some limit /\ limit < charge scope self.

Lemma running_window_charge scope s :
  charge scope s.1 <= charge scope (running_window s).2.1
  /\ limit_of scope (running_window s).2.1 = limit_of scope s.1.
Proof.
  destruct (running_window s) as [r s'] eqn:Hr.
  destruct (running_window_forward _ _ _ Hr) as ([o Heq] & H1 & H2 & _). cbn. unfold charge.
  rewrite <- H1. rewrite Heq. destruct scope; cbn; (split; [lia|done]).
Qed.

Lemma tighter_limit_le a b l : a = Some l -> exists l', tighter_limit a b = Some l' /\ l' <= l.
Proof. intros ->. destruct b as [m|]; cbn; eexists; split; [done|lia|done|lia]. Qed.

Lemma exceeded_mono scope (a b : ResourceTracker) :
  charge scope a <= charge scope b -> limit_of scope b = limit_of scope a ->
  exceeded scope a -> exceeded scope b.
Proof. intros Hc Hl (l & H1 & H2). exists l. rewrite Hl. split; [done|lia]. Qed.

Lemma on_execution_stop_charge scope s :
  tracker_ok s.1 ->
  charge scope s.1 <= charge scope (on_execution_stop s).1
  /\ limit_of scope (on_execution_stop s).1 = limit_of scope s.1
  /\ reported (on_execution_stop s).1 = 0.
Proof.
  intros Hok. destruct (on_execution_stop_window s) as (d & Hd & ->). unfold charge.
  destruct scope; cbn; repeat split; lia.
Qed.

Lemma on_execution_start_charge scope s :
  reported s.1 = 0 ->
  charge scope (on_execution_start s).1 = charge scope s.1
  /\ limit_of scope (on_execution_start s).1 = limit_of scope s.1.
Proof.
  intros Hz. destruct (on_execution_start_window s) as (i & -> & Hi & _). unfold charge. rewrite Hz.
  unfold reported; cbn. rewrite Hi. by destruct scope.
Qed.

Lemma tstep_exceeded scope c s s' :
  tstep c s s' -> resets scope c = false -> tracker_ok s.1 ->
  exceeded scope s.1 -> exceeded scope s'.1.
Proof.
  intros Hs Hr Hok. destruct Hs; cbn [fst] in *; try (by destruct scope).
  - destruct (on_execution_start_charge scope s) as [Hc Hl];
      [unfold reported; by rewrite H0|]. apply exceeded_mono; [lia|done].
  - destruct (on_execution_stop_charge scope s Hok) as (Hc & Hl & _). by apply exceeded_mono.
  - destruct (sandbox_sleep_window d s) as [w ->].
    destruct (on_execution_stop_charge scope s Hok) as (Hc & Hl & Hz). destruct (running_since s.1).
    + destruct (on_execution_start_charge scope ((on_execution_stop s).1, w) Hz) as [Hc' Hl'].
      cbn [fst] in *. apply exceeded_mono; [lia|congruence].
    + by apply exceeded_mono.
  - intros (lim & Hlim & Hlt).
    destruct scope; cbn in Hlim; destruct (tighter_limit_le _ (limit_of Feed (set_limits l self)) _ Hlim);
      destruct (tighter_limit_le _ (limit_of Turn (set_limits l self)) _ Hlim);
      destruct_and!; cbn in *.
    all: unfold exceeded, tighten_limits, charge in *; cbn in *;
      destruct (recursion_limit_override self); cbn; eexists; (split; [eassumption|]); unfold reported in *; cbn in *; lia.
  - unfold lower_recursion_limit. case_match; cbn; by destruct scope.
  - destruct (running_window_charge scope s) as [Hc Hl]. unfold elapsed.
    destruct (running_window s). by apply exceeded_mono.
  - rewrite check_time_window. case_match; [|done].
    destruct (running_window_charge scope s) as [Hc Hl]. by apply exceeded_mono.
  - destruct (check_memory_time_window s) as [-> | ->]; [done|]. rewrite check_time_window.
    case_match; [|done]. destruct (running_window_charge scope s) as [Hc Hl]. by apply exceeded_mono.
  - destruct scope; [|done]. apply exceeded_mono; [|done]. unfold charge, reported. cbn. by rewrite H0.
Qed.
Lemma run_exceeded scope cs s s' :
  run cs s s' -> forallb (fun c => negb (resets scope c)) cs = true -> tracker_ok s.1 ->
  exceeded scope s.1 -> exceeded scope s'.1.
Proof.
  induction 1 as [|c cs s s1 s2 Hc _ IH]; cbn; [done|]. intros [Hr Hrs] % andb_true_iff Hok Hex.
  apply negb_true_iff in Hr. apply IH; [done| |]; eauto using tstep_ok, tstep_exceeded.
Qed.

Lemma exceeded_has_limit scope self : exceeded scope self -> has_time_limit self = true.
Proof. intros (l & Hl & _). unfold has_time_limit. destruct scope; cbn in Hl; rewrite Hl; [done|]. apply orb_true_r. Qed.

(** [check_time] fails exactly when its reading exceeds a budget, and names the feed
    first. *)
Lemma check_time_spec s r s' :
  check_time s = (r, s') ->
  match r with
  | Ok _ => ~ exceeded Feed s'.1 /\ ~ exceeded Turn s'.1
  | Err (Time scope limit el) =>
      limit_of scope s'.1 = Some limit /\ el = charge scope s'.1 /\ limit < el
      /\ (scope = Turn -> ~ exceeded Feed s'.1)
  | Err _ => False
  end.
Proof.
  unfold check_time. destruct (has_time_limit s.1) eqn:Hh; cbn [negb].
  - destruct (running_window s) as [rr s1] eqn:Hw.
    destruct (running_window_forward _ _ _ Hw) as (_ & -> & _ & _).
    assert (Hb : forall scope, match check_budget scope (limit_of scope s1.1) (used scope s1.1 + reported s1.1) with
                  | Ok _ => ~ exceeded scope s1.1
                  | Err (Time sc l el) => sc = scope /\ limit_of scope s1.1 = Some l /\ el = charge scope s1.1 /\ l < el
                  | Err _ => False end).
    { intros scope. unfold check_budget, exceeded. fold (charge scope s1.1).
      destruct (limit_of scope s1.1) as [l|]; [|naive_solver].
      destruct (Z.ltb_spec l (charge scope s1.1)); [done|]. intros (l' & [= <-] & ?). lia. }
    pose proof (Hb Feed) as Hf. pose proof (Hb Turn) as Ht. cbn [limit_of used] in Hf, Ht.
    intros [= <- <-].
    destruct (check_budget Feed _ _) as [[]|[sc l el| |]]; cbn [rbind]; [|naive_solver..].
    destruct (check_budget Turn _ _) as [[]|[sc l el| |]]; [done| |done..]. naive_solver.
  - intros [= <- <-]. split; intros He % exceeded_has_limit; congruence.
Qed.

Lemma exceeded_check scope s :
  exceeded scope s.1 -> exists scope' l e, (check_time s).1 = Err (Time scope' l e) /\ (scope = Feed -> scope' = Feed).
Proof.
  intros He. destruct (check_time s) as [r s'] eqn:Hc. pose proof (check_time_spec _ _ _ Hc) as Hs.
  assert (Hex : exceeded scope s'.1).
  { assert (s' = (running_window s).2) as ->.
    { pose proof (check_time_window s) as Hw. by rewrite Hc, (exceeded_has_limit _ _ He) in Hw. }
    destruct (running_window_charge scope s). by eapply exceeded_mono. }
  destruct r as [[]|[sc l el| |]]; cbn; [destruct scope; naive_solver| |done..].
  exists sc, l, el. split; [done|]. intros ->. destruct sc; [done|]. naive_solver.
Qed.

(** The configured recursion depth only falls. *)
Lemma run_depth cs s s' :
  run cs s s' -> max_recursion_depth (limits s'.1) <= max_recursion_depth (limits s.1).
Proof.
  induction 1 as [|c cs s s1 s2 Hc _ IH]; [done|]. etrans; [exact IH|]. clear IH.
  assert (Hw : forall s, limits (running_window s).2.1 = limits s.1).
  { intros t. destruct (running_window t) as [r t'] eqn:Hr.
    cbn [snd]. by destruct (running_window_forward _ _ _ Hr) as ([o ->] & _). }
  assert (Hst : forall s, limits (on_execution_start s).1 = limits s.1).
  { intros t. by destruct (on_execution_start_window t) as (? & -> & _). }
  assert (Hsp : forall s, limits (on_execution_stop s).1 = limits s.1).
  { intros t. by destruct (on_execution_stop_window t) as (? & _ & ->). }
  destruct Hc; cbn [fst]; try done; rewrite ?Hst, ?Hsp; try done.
  - destruct (sandbox_sleep_window d s) as [w ->]. destruct (running_since s.1); rewrite ?Hst; cbn [fst];
      by rewrite Hsp.
  - unfold tighten_limits. cbn. destruct (recursion_limit_override self); cbn; lia.
  - unfold lower_recursion_limit. by case_match.
  - unfold elapsed. pose proof (Hw s). destruct (running_window s). cbn in *. by rewrite H0.
  - rewrite check_time_window. case_match; [by rewrite Hw|done].
  - destruct (check_memory_time_window s) as [-> | ->]; [done|]. rewrite check_time_window.
    case_match; [by rewrite Hw|done].
Qed.

(** ** Properties *)

(** Whatever the host and the interpreter call, in any order, the three clocks
    nest: a turn has used at most what its feed has, a feed at most what the session
    has, and no reading is negative; and the recursion ceiling in force is never
    above the one the tracker was created with. *)
Theorem clocks_nest l clock cs w s :
  run cs (with_execution_clock clock (new_tracker l), w) s ->
  0 <= (turn_elapsed s).1 /\ (turn_elapsed s).1 <= (feed_elapsed s).1
  /\ (feed_elapsed s).1 <= (elapsed s).1
  /\ active_recursion_limit s.1 <= max_recursion_depth l.
Proof.
  intros Hr. pose proof (run_ok _ _ _ Hr (new_tracker_ok l clock)) as [].
  pose proof (run_depth _ _ _ Hr). cbn in *. unfold turn_elapsed, feed_elapsed, elapsed.
  destruct (running_window s) as [r s'] eqn:Hw.
  destruct (running_window_forward _ _ _ Hw) as (_ & -> & Hle & _). cbn. repeat split; lia.
Qed.

(** C20: A budget that [check_time] reports as exceeded stays exceeded: until a call
    resets it, every later check fails, across suspensions, sleeps, dumps and
    tightened limits, and an exceeded feed budget is reported as such even in a new
    turn. *)
Theorem exceeded_budget_stays l clock cs w s scope limit el s1 cs' s2 :
  run cs (with_execution_clock clock (new_tracker l), w) s ->
  check_time s = (Err (Time scope limit el), s1) ->
  run cs' s1 s2 -> forallb (fun c => negb (resets scope c)) cs' = true ->
  exists scope' limit' el', (check_time s2).1 = Err (Time scope' limit' el')
    /\ (scope = Feed -> scope' = Feed).
Proof.
  intros Hr Hc Hr' Hcs. pose proof (run_ok _ _ _ Hr (new_tracker_ok l clock)) as Hok.
  pose proof (tstep_ok _ _ _ (step_check s) Hok) as Hok1. rewrite Hc in Hok1.
  apply check_time_spec in Hc as (Hl & -> & Hlt & _). apply exceeded_check.
  eapply run_exceeded; [exact Hr'|done|done|]. by exists limit.
Qed.
End Tracker.

(** A feed budget of ten nanoseconds, exceeded while the program runs. *)
Definition sim_session : list (call (W := SimMachine)) :=
  [FeedStart; Start; Elsewhere (sim_tick 20)].
Definition sim_limits : ResourceLimits :=
  with_max_turn_duration 5 (with_max_feed_duration 10 default_limits).
Definition sim_running : ResourceTracker * SimMachine :=
  let s := on_execution_start (on_feed_start (new_tracker sim_limits), sim_start) in
  (s.1, sim_tick 20 s.2).

Lemma sim_session_runs :
  run sim_session (with_execution_clock Wall (new_tracker sim_limits), sim_start) sim_running.
Proof.
  eapply run_cons; [apply step_feed|]. eapply run_cons; [by apply step_start|].
  eapply run_cons; [apply step_elsewhere|]. apply run_nil.
Defined.

Lemma clocks_nest_witness :
  0 <= (turn_elapsed sim_running).1 /\ (turn_elapsed sim_running).1 <= (feed_elapsed sim_running).1
  /\ (feed_elapsed sim_running).1 <= (elapsed sim_running).1
  /\ active_recursion_limit sim_running.1 <= 1000.
Proof. exact (clocks_nest sim_limits Wall sim_session sim_start sim_running sim_session_runs). Defined.

Lemma exceeded_budget_stays_witness :
  exists scope' limit' el',
    (check_time (on_turn_start (on_execution_stop (check_time sim_running).2).1, sim_start)).1
    = Err (Time scope' limit' el') /\ (Feed = Feed -> scope' = Feed).
Proof.
  refine (exceeded_budget_stays sim_limits Wall sim_session sim_start sim_running Feed 10 21
            (check_time sim_running).2
            [Stop; TurnStart; Elsewhere (fun _ => sim_start)] _ sim_session_runs _ _ _).
  - reflexivity.
  - eapply run_cons; [apply step_stop|]. eapply run_cons; [apply step_turn|].
    eapply run_cons; [apply step_elsewhere|]. apply run_nil.
  - reflexivity.
Defined.
