(* ===== verification/ResourceClock.v ===== *)
(** The execution clocks against the time they measure: with the wall clock the
    tracker is a stopwatch, and a budget that the clock has passed stops the next
    check, on the CPU clock at the latest one sampling interval later.  *)
From S2P Require Import Prelude Resource ResourceProps.
#[local] Open Scope monty_scope.
#[local] Open Scope Z_scope.

(** ** The stopwatch *)

Record Stopwatch := { sw_total : Z; sw_feed : Z; sw_turn : Z; sw_since : option Z }.

Inductive event := Begin (t : Z) | End (t : Z) | NewFeed | NewTurn.

Definition sw_zero : Stopwatch := {| sw_total := 0; sw_feed := 0; sw_turn := 0; sw_since := None |}.

Definition sw_event (sw : Stopwatch) (e : event) : Stopwatch :=
  match e with
  | Begin t => {| sw_total := sw_total sw; sw_feed := sw_feed sw; sw_turn := sw_turn sw; sw_since := Some t |}
  | End t =>
      match sw_since sw with
      | Some t0 => {| sw_total := sw_total sw + (t - t0); sw_feed := sw_feed sw + (t - t0);
                      sw_turn := sw_turn sw + (t - t0); sw_since := None |}
      | None => sw
      end
  | NewFeed => {| sw_total := sw_total sw; sw_feed := 0; sw_turn := 0; sw_since := sw_since sw |}
  | NewTurn => {| sw_total := sw_total sw; sw_feed := sw_feed sw; sw_turn := 0; sw_since := sw_since sw |}
  end.

(** The time since the window began. *)
Definition sw_window (sw : Stopwatch) (now : Z) : Z :=
  match sw_since sw with Some t0 => now - t0 | None => 0 end.

Definition abs (self : ResourceTracker) : Stopwatch :=
  {| sw_total := total_execution_time self; sw_feed := feed_execution_time self;
     sw_turn := turn_execution_time self; sw_since := option_map wall (running_since self) |}.

Section Clock.
Context {W : Type} `{HM : Machine W} `{HL : !MachineLaws W}.

Abbreviation St := (ResourceTracker * W)%type.

(** What each call does to the stopwatch, at the instants the machine answers. *)
Definition events (c : call (W := W)) (s : St) : list event :=
  match c with
  | Start => [Begin (instant_now s.2).1]
  | Stop => [End (instant_now s.2).1]
  | FeedStart | SetMaxFeed _ => [NewFeed]
  | TurnStart | SetMaxTurn _ | Reload => [NewTurn]
  | Sleep d =>
      match running_since s.1 with
      | Some _ => let '(t, w) := instant_now s.2 in [End t; Begin (instant_now (thread_sleep d w)).1]
      | None => []
      end
  | _ => []
  end.

(** Between calls the machine's clock moves forward only, and sleeps are not
    negative. *)
Definition forward (c : call (W := W)) : Prop :=
  match c with
  | Elsewhere f => forall w, last_instant w <= last_instant (f w)
  | Sleep d => 0 <= d
  | _ => True
  end.

Inductive timed : list event -> St -> St -> Prop :=
| timed_nil s : timed [] s s
| timed_cons c evs s s1 s2 :
    forward c -> tstep c s s1 -> timed evs s1 s2 -> timed (events c s ++ evs) s s2.

(** The window of a wall-clock tracker has reported at most what has passed. *)
Record wall_ok (s : St) : Prop := {
  wall_clock : execution_clock s.1 = Wall;
  wall_window : forall i, running_since s.1 = Some i ->
    cpu i = None /\ 0 <= last_elapsed i /\ wall i + last_elapsed i <= last_instant s.2 }.

Lemma measure_exact exact i w :
  cpu i = None -> 0 <= last_elapsed i -> wall i + last_elapsed i <= last_instant w ->
  measure exact i w =
  ((instant_now w).1 - wall i, set_last_elapsed ((instant_now w).1 - wall i) i, (instant_now w).2).
Proof.
  intros Hc H0 Hl. unfold measure. rewrite Hc. cbn. rewrite Hc. unfold measure_wall, elapsed_since.
  pose proof (instant_forward w). destruct (instant_now w) as [t w']; cbn in *. unfold sat_sub.
  replace (Z.max _ _) with (t - wall i) by lia. done.
Qed.

Lemma wall_start s : execution_clock s.1 = Wall ->
  abs (on_execution_start s).1 = sw_event (abs s.1) (Begin (instant_now s.2).1)
  /\ wall_ok (on_execution_start s).
Proof.
  destruct s as [self w]. cbn [fst snd]. intros Hc. unfold on_execution_start, window_now. rewrite Hc.
  destruct (instant_now w) as [t w'] eqn:Ht. split; [done|]. split; [done|].
  intros i [= <-]. cbn. pose proof (instant_last w) as Hl. rewrite Ht in Hl. cbn in Hl.
  repeat split; [done|lia].
Qed.

Lemma wall_stop s : wall_ok s ->
  abs (on_execution_stop s).1 = sw_event (abs s.1) (End (instant_now s.2).1)
  /\ wall_ok (on_execution_stop s)
  /\ (is_Some (running_since s.1) -> (on_execution_stop s).2 = (instant_now s.2).2).
Proof.
  destruct s as [self w]. intros [Hc Hw]. cbn in *. unfold elapsed_at_stop.
  destruct (running_since self) as [i|] eqn:Hr.
  - destruct (Hw i eq_refl) as (H1 & H2 & H3). rewrite measure_exact by done. cbn. unfold abs. cbn.
    rewrite ?Hr. cbn. repeat split; done.
  - unfold abs. cbn. rewrite ?Hr. cbn. split; [done|]. split; [|by intros []].
    split; [done|]. cbn. congruence.
Qed.

Lemma wall_read s : wall_ok s ->
  (running_window s).1 = sw_window (abs s.1) (instant_now s.2).1
  /\ abs (running_window s).2.1 = abs s.1 /\ wall_ok (running_window s).2
  /\ limits (running_window s).2.1 = limits s.1.
Proof.
  destruct s as [self w]. intros [Hc Hw]. cbn in *. unfold window_elapsed, sw_window, abs.
  destruct (running_since self) as [i|] eqn:Hr; cbn.
  - destruct (Hw i eq_refl) as (H1 & H2 & H3). rewrite measure_exact by done. cbn.
    split; [done|]. split; [done|]. split; [|done]. split; [done|]. intros j [= <-]. cbn. split; [done|].
    pose proof (instant_forward w). rewrite instant_last. lia.
  - rewrite ?Hr. split; [done|]. split; [done|]. split; [|done]. split; [done|]. cbn; congruence.
Qed.

Lemma wall_same (s s' : St) :
  execution_clock s'.1 = execution_clock s.1 -> running_since s'.1 = running_since s.1 ->
  last_instant s.2 <= last_instant s'.2 -> wall_ok s -> wall_ok s'.
Proof.
  intros H1 H2 H3 [Hc Hw]. split; [congruence|]. intros i Hi. rewrite H2 in Hi.
  destruct (Hw i Hi) as (? & ? & ?). repeat split; [done..|lia].
Qed.

Lemma wall_check s : wall_ok s -> abs (check_time s).2.1 = abs s.1 /\ wall_ok (check_time s).2.
Proof.
  intros Hs. rewrite check_time_window. destruct (has_time_limit s.1); [|done].
  by destruct (wall_read s Hs) as (_ & ? & ? & _).
Qed.

(** One call moves the tracker as its events move the stopwatch. *)
Lemma tstep_stopwatch c s s' :
  tstep c s s' -> forward c -> wall_ok s ->
  abs s'.1 = foldl sw_event (abs s.1) (events c s) /\ wall_ok s'.
Proof.
  intros Hs Hf Hok. destruct Hs; cbn [fst snd events foldl]; try done;
    try (split; [done|]; by eapply wall_same; [| | |exact Hok]; cbn).
  - apply wall_start, Hok.
  - by destruct (wall_stop s Hok) as (? & ? & _).
  - unfold sandbox_sleep. destruct (wall_stop s Hok) as (Ha & Hw & He).
    destruct (on_execution_stop s) as [self w] eqn:Hst. cbn [fst snd] in *.
    assert (Hd : wall_ok (self, thread_sleep d w)).
    { eapply wall_same; [| | |exact Hw]; [done..|]. cbn in *. pose proof (sleep_forward d w). lia. }
    destruct (running_since s.1) as [i|] eqn:Hr.
    + rewrite bool_decide_true by by eexists. destruct (wall_start (self, thread_sleep d w) ltac:(apply Hd)) as [H1 H2]. split; [|done].
      rewrite H1. cbn [fst snd]. rewrite Ha, He by by eexists. by destruct (instant_now s.2).
    + rewrite bool_decide_false by by intros []. split; [|done]. cbn. rewrite Ha. unfold abs. rewrite Hr. done.
  - split; [|eapply wall_same; [| | |exact Hok]; cbn; try done];
      unfold tighten_limits; cbn; by destruct (recursion_limit_override self).
  - split; [|eapply wall_same; [| | |exact Hok]; cbn; try done]; unfold lower_recursion_limit; by case_match.
  - destruct (wall_read s Hok) as (_ & Ha & Hw & _). unfold elapsed. by destruct (running_window s).
  - by apply wall_check.
  - destruct (check_memory_time_window s) as [-> | ->]; [done|by apply wall_check].
  - split; [|split; [apply Hok|done]]. unfold abs. cbn. by rewrite H.
Qed.

Lemma timed_stopwatch evs s s' :
  timed evs s s' -> wall_ok s -> abs s'.1 = foldl sw_event (abs s.1) evs /\ wall_ok s'.
Proof.
  induction 1 as [|c evs s s1 s2 Hf Hc _ IH]; [done|]. intros Hok.
  destruct (tstep_stopwatch _ _ _ Hc Hf Hok) as [Ha Hok1]. rewrite foldl_app, <- Ha. by apply IH.
Qed.

(** C21: With the wall clock a tracker is a stopwatch: after any calls its three
    clocks show the summed lengths of the windows that ended since the session, the
    feed or the turn began, with time spent suspended, asleep or idle left out, and
    [check_time] passes exactly when neither budget is exceeded at that moment. *)
Theorem wall_clock_exact l w evs s :
  timed evs (new_tracker l, w) s ->
  let sw := foldl sw_event sw_zero evs in
  let now := (instant_now s.2).1 in
  abs s.1 = sw
  /\ ((check_time s).1 = Ok tt <->
      within (max_feed_duration (limits s.1)) (sw_feed sw + sw_window sw now)
      /\ within (max_turn_duration (limits s.1)) (sw_turn sw + sw_window sw now)).
Proof.
  intros Ht. destruct (timed_stopwatch _ _ _ Ht) as [Ha Hok]; [by split|]. cbn [fst] in Ha.
  change (abs (new_tracker l)) with sw_zero in Ha. cbv zeta. rewrite <- Ha. split; [done|].
  destruct (wall_read s Hok) as (Hr & _). by rewrite check_time_ok, Hr.
Qed.

(** ** Enforcement on either clock *)

(** What the window's clock shows at its next reading: the CPU counter, or the time
    since the window began once the window has given up on it. *)
Definition clock_shows (i : ExecutionInstant) (w : W) (e : Z) : Prop :=
  match cpu i with
  | None => e = (instant_now w).1 - wall i
  | Some started =>
      thread i = Some (current_id w) /\ sampled_at i + SAMPLE_INTERVAL <= (instant_now w).1
      /\ (thread_cpu (instant_now w).2).1 = Some (started + e)
  end.

Lemma measure_shows i w e :
  sample_interval i <= SAMPLE_INTERVAL -> clock_shows i w e -> e <= (measure false i w).1.1.
Proof.
  intros Hi. unfold clock_shows, measure. destruct (cpu i) as [started|] eqn:Hc.
  - intros (Ht & Hs & Hcpu). rewrite bool_decide_true by done. cbn [negb]. rewrite Hc.
    unfold elapsed_since. destruct (instant_now w) as [t w1]. cbn [fst snd] in *.
    replace (sat_sub t (sampled_at i) <? sample_interval i) with false
      by (symmetry; apply Z.ltb_ge; unfold sat_sub; lia).
    destruct (thread_cpu w1) as [c w2]. cbn in Hcpu. subst c. cbn. unfold checked_sub.
    assert (Hw : forall j, last_elapsed j <= (measure_wall j w2).1.1).
    { intros j. unfold measure_wall, elapsed_since. destruct (instant_now w2). cbn. lia. }
    destruct (Z.ltb_spec (started + e) started).
    + specialize (Hw (set_cpu None i)). unfold measure_wall, elapsed_since in *.
      destruct (instant_now w2). cbn. unfold sat_sub. lia.
    + destruct (Z.leb_spec (last_elapsed i) (started + e - started)).
      * destruct (instant_now w2). cbn. lia.
      * specialize (Hw (set_cpu None i)). cbn [set_cpu last_elapsed] in Hw. lia.
  - intros ->. cbn. rewrite Hc. unfold measure_wall, elapsed_since. destruct (instant_now w). cbn.
    unfold sat_sub. lia.
Qed.

(** C22: A program that keeps running is stopped: once the clock of the running window
    shows more than a budget has left, the next [check_time] fails; on the CPU clock
    this needs a check a millisecond after the last sample, on the wall clock any
    check will do. *)
Theorem budget_enforced l clock cs w s i scope limit e :
  run cs (with_execution_clock clock (new_tracker l), w) s ->
  running_since s.1 = Some i -> limit_of scope s.1 = Some limit ->
  clock_shows i s.2 e -> limit < used scope s.1 + e ->
  exists scope' limit' el, (check_time s).1 = Err (Time scope' limit' el).
Proof.
  intros Hr Hi Hl Hs Hlt. pose proof (run_ok _ _ _ Hr (new_tracker_ok l clock)) as Hok.
  pose proof (measure_shows i s.2 e (ok_interval _ Hok i Hi) Hs) as He.
  destruct (check_time s) as [r s'] eqn:Hc. pose proof (check_time_spec _ _ _ Hc) as Hsp.
  assert (Hex : exceeded scope s'.1).
  { pose proof (check_time_window s) as Hw. rewrite Hc in Hw. cbn [snd] in Hw. subst s'.
    replace (has_time_limit s.1) with true.
    - exists limit. destruct s as [self w']. unfold running_window, window_elapsed. cbn [fst snd] in *.
      rewrite Hi. destruct (measure false i w') as [[el i'] w''] eqn:Hm.
      apply measure_forward in Hm as [_ H2 _]. cbn [fst snd] in *.
      unfold charge, reported. destruct scope; cbn in *; (split; [done|lia]).
    - unfold has_time_limit. destruct scope; cbn in Hl; rewrite Hl; cbn; [done|by rewrite orb_true_r]. }
  destruct r as [[]|[sc lm el| |]]; [destruct scope; naive_solver|by exists sc, lm, el|done..].
Qed.
End Clock.

Lemma sim_tick_forward d (w : SimMachine) : 0 <= d -> last_instant w <= last_instant (sim_tick d w).
Proof. cbn. lia. Defined.

(** The session of [sim_running], with the events of its stopwatch. *)
Lemma sim_timed : timed [NewFeed; Begin 1] (new_tracker sim_limits, sim_start) sim_running.
Proof.
  pose (s := (on_feed_start (new_tracker sim_limits), sim_start)).
  exact (timed_cons FeedStart [Begin 1] (new_tracker sim_limits, sim_start) s _ I (step_feed _ _)
          (timed_cons Start [] s (on_execution_start s) _ I (step_start s eq_refl)
            (timed_cons (Elsewhere (sim_tick 20)) [] (_, _) _ _ (fun w => sim_tick_forward 20 w ltac:(lia))
              (step_elsewhere _ _ _) (timed_nil _)))).
Defined.

Lemma wall_clock_exact_witness :
  abs sim_running.1 = {| sw_total := 0; sw_feed := 0; sw_turn := 0; sw_since := Some 1 |}
  /\ ((check_time sim_running).1 = Ok tt <-> 21 <= 10 /\ 21 <= 5).
Proof. exact (wall_clock_exact sim_limits sim_start _ _ sim_timed). Defined.

Lemma budget_enforced_witness :
  exists scope' limit' el, (check_time sim_running).1 = Err (Time scope' limit' el).
Proof.
  refine (budget_enforced sim_limits Wall sim_session sim_start sim_running _ Turn 5 21 sim_session_runs
            eq_refl eq_refl _ _); [reflexivity|cbn; lia].
Defined.

(** Tightening the limits of a restored session, the memory preflight of a growing
    buffer, and the worker's memory baseline. *)

(** ** Tightening *)

Lemma within_tighter a b t : within (tighter_limit a b) t <-> within a t /\ within b t.
Proof. destruct a, b; cbn; intuition lia. Qed.

Lemma tighter_limit_idem a b : tighter_limit (tighter_limit a b) b = tighter_limit a b.
Proof. destruct a, b; cbn; f_equal; lia. Qed.

Lemma tighter_gc_idem a b : tighter_gc_interval (tighter_gc_interval a b) b = tighter_gc_interval a b.
Proof. destruct a, b; cbn; f_equal; lia. Qed.

Lemma tighten_limits_idem c self : tighten_limits c (tighten_limits c self) = tighten_limits c self.
Proof.
  unfold tighten_limits. destruct self as [clk l t f u r [o|]]; cbn; unfold set_override, set_limits; cbn;
    rewrite !tighter_limit_idem, tighter_gc_idem; do 2 f_equal; lia.
Qed.

Section Limits.
Context {W : Type} `{Machine W}.

Lemma check_allocation_within self (w : W) n :
  check_allocation self w n = Ok tt <-> within (max_memory (limits self)) (sat_add (probe_memory w) n).
Proof.
  unfold check_allocation. destruct (max_memory (limits self)) as [l|]; cbn; [|done].
  destruct (Z.ltb_spec l (sat_add (probe_memory w) n)); split; intros; try done; lia.
Qed.

Lemma running_window_same a b (w : W) :
  running_since a = running_since b -> (running_window (a, w)).1 = (running_window (b, w)).1.
Proof. intros Hab. cbn. rewrite Hab. destruct (running_since b); [|done]. by destruct (window_elapsed _ _) as [[??]?]. Qed.

Lemma check_recursion_depth_ok self d :
  check_recursion_depth self d = Ok tt <-> d < active_recursion_limit self.
Proof.
  unfold check_recursion_depth. destruct (Z.leb_spec (active_recursion_limit self) d); split; intros; try done; lia.
Qed.

(** The fields of a tightened tracker. *)
Lemma tighten_limits_fields c self :
  let t := tighten_limits c self in
  max_memory (limits t) = tighter_limit (max_memory (limits self)) (max_memory c)
  /\ max_feed_duration (limits t) = tighter_limit (max_feed_duration (limits self)) (max_feed_duration c)
  /\ max_turn_duration (limits t) = tighter_limit (max_turn_duration (limits self)) (max_turn_duration c)
  /\ (execution_clock t, total_execution_time t, feed_execution_time t, turn_execution_time t, running_since t)
     = (execution_clock self, total_execution_time self, feed_execution_time self, turn_execution_time self,
        running_since self).
Proof. unfold tighten_limits. cbn. by destruct (recursion_limit_override self). Qed.

(** Capping a restored session loses nothing and relaxes nothing: the consumption
    is kept, and an allocation, a running program or a call passes its check exactly
    when it would pass under the saved limits and under the ceiling; capping twice is
    capping once. *)
Theorem tighten_limits_exact c self (w : W) n d :
  tracker_ok self ->
  let t := tighten_limits c self in
  let ceiling := set_override None (set_limits c self) in
  (check_allocation t w n = Ok tt <->
     check_allocation self w n = Ok tt /\ check_allocation ceiling w n = Ok tt)
  /\ ((check_time (t, w)).1 = Ok tt <->
     (check_time (self, w)).1 = Ok tt /\ (check_time (ceiling, w)).1 = Ok tt)
  /\ (check_recursion_depth t d = Ok tt <->
     check_recursion_depth self d = Ok tt /\ check_recursion_depth ceiling d = Ok tt)
  /\ (total_execution_time t, feed_execution_time t, turn_execution_time t)
     = (total_execution_time self, feed_execution_time self, turn_execution_time self)
  /\ tighten_limits c t = t.
Proof.
  intros Hok t ceiling. destruct (tighten_limits_fields c self) as (Hm & Hf & Hu & [= Hc Ht1 Ht2 Ht3 Hr]).
  fold t in Hm, Hf, Hu, Hc, Ht1, Ht2, Ht3, Hr. repeat split_and.
  - by rewrite !check_allocation_within, Hm, within_tighter.
  - rewrite !check_time_ok. cbn [fst]. rewrite Hf, Hu, Ht2, Ht3, !within_tighter.
    rewrite (running_window_same t self w Hr), (running_window_same ceiling self w eq_refl). cbn. tauto.
  - rewrite !check_recursion_depth_ok. unfold t. rewrite tighten_limits_ceiling by apply Hok. cbn. lia.
  - congruence.
  - apply tighten_limits_idem.
Qed.

(** ** Growing a buffer *)

(** What [Vec::push] makes of the capacity, as [RawVec::grow_amortized] has it. *)
Definition vec_capacity (elem_size len capacity : Z) : Z :=
  if len <? capacity then capacity
  else Z.max (Z.max (capacity * 2) (len + 1)) (min_non_zero_capacity elem_size).

(** [grow d] is the machine after [d] more bytes are allocated. *)
Context (grow : Z -> W -> W)
  (grow_live : forall d w, live_memory (grow d w) = live_memory w + d)
  (grow_baseline : forall d w, baseline_memory (grow d w) = baseline_memory w).

(** [n] pushes onto a buffer, each after [check_growth]. *)
Fixpoint push_n (self : ResourceTracker) (elem_size : Z) (n : nat) (len capacity : Z) (w : W) :
    result (Z * W) ResourceError :=
  match n with
  | O => Ok (capacity, w)
  | S n =>
      check_growth self w len capacity elem_size ;?
      let capacity' := vec_capacity elem_size len capacity in
      push_n self elem_size n (len + 1) capacity' (grow ((capacity' - capacity) * elem_size) w)
  end.

Lemma min_non_zero_capacity_pos e : 1 <= min_non_zero_capacity e <= 8.
Proof. unfold min_non_zero_capacity. repeat case_match; lia. Qed.

(** The bytes preflighted for a push are the bytes it allocates, unless they are past
    any limit. *)
Lemma growth_bytes_exact len cap e limit used :
  0 <= len <= cap -> 1 <= e -> 0 <= cap * e <= used -> used <= limit <= i64_max ->
  sat_add used (growth_bytes len cap e) <= limit ->
  growth_bytes len cap e = (vec_capacity e len cap - cap) * e.
Proof.
  intros Hl He Hc Hu. unfold growth_bytes, vec_capacity.
  destruct (Z.ltb_spec len cap); [intros; lia|]. pose proof (min_non_zero_capacity_pos e) as Hm.
  assert (Hcap : cap <= i64_max) by nia.
  rewrite (sat_add_exact len 1) by (unfold u64_max, i64_max in *; lia).
  replace (sat_mul cap 2) with (cap * 2) by (unfold sat_mul, u64_max, i64_max in *; lia).
  set (c' := Z.max (Z.max (cap * 2) (len + 1)) (min_non_zero_capacity e)).
  rewrite sat_sub_exact by lia. unfold sat_add, sat_mul, u64_max, i64_max in *. lia.
Qed.

(** A sum that passes a check did not saturate. *)
Lemma sat_add_below x y limit : sat_add x y <= limit -> limit <= i64_max -> x + y <= limit.
Proof. unfold sat_add, u64_max, i64_max. lia. Qed.

Lemma check_growth_fits self limit (w : W) len cap e :
  max_memory (limits self) = Some limit -> limit <= i64_max ->
  0 <= len <= cap -> 1 <= e -> 0 <= cap * e <= probe_memory w -> probe_memory w <= limit ->
  match check_growth self w len cap e with
  | Ok _ => probe_memory w + (vec_capacity e len cap - cap) * e <= limit
  | Err err => exists used, err = Memory limit used
  end.
Proof.
  intros Hm Hlim Hl He Hc Hp. unfold check_growth, check_pending_allocation, check_allocation. rewrite Hm.
  destruct (Z.eqb_spec (growth_bytes len cap e) 0) as [Hz|_].
  - pose proof (growth_bytes_exact len cap e limit (probe_memory w) Hl He Hc ltac:(lia)) as Hg.
    rewrite <- Hg; [lia|]. rewrite Hz. unfold sat_add. lia.
  - destruct (Z.ltb_spec limit (sat_add (probe_memory w) (growth_bytes len cap e))) as [|Hs]; [by eexists|].
    rewrite <- (growth_bytes_exact len cap e limit (probe_memory w) Hl He Hc ltac:(lia) Hs).
    by apply sat_add_below.
Qed.

Lemma push_n_fits self limit e n len cap w :
  max_memory (limits self) = Some limit -> limit <= i64_max -> 1 <= e ->
  0 <= len <= cap -> cap <= Z.max (2 * len) (min_non_zero_capacity e) ->
  0 <= baseline_memory w <= live_memory w -> 0 <= cap * e <= probe_memory w -> probe_memory w <= limit ->
  match push_n self e n len cap w with
  | Ok (cap', w') =>
      len + Z.of_nat n <= cap' /\ cap' <= Z.max (2 * (len + Z.of_nat n)) (min_non_zero_capacity e)
      /\ live_memory w' = live_memory w + (cap' - cap) * e /\ probe_memory w' <= limit
  | Err err => exists used, err = Memory limit used
  end.
Proof.
  intros Hm Hlim He. revert len cap w. induction n as [|n IH]; intros len cap w Hl Hcap Hb Hc Hp.
  - cbn. repeat split; lia.
  - cbn [push_n]. pose proof (check_growth_fits self limit w len cap e Hm Hlim Hl He Hc Hp) as Hg.
    destruct (check_growth self w len cap e) as [[]|err]; [|done]. cbn [rbind].
    set (cap' := vec_capacity e len cap) in *. pose proof (min_non_zero_capacity_pos e) as Hz.
    assert (Hc' : len + 1 <= cap' /\ cap <= cap' /\ cap' <= Z.max (2 * (len + 1)) (min_non_zero_capacity e)).
    { unfold cap', vec_capacity. destruct (Z.ltb_spec len cap); lia. }
    assert (Hpw : probe_memory (grow ((cap' - cap) * e) w) = probe_memory w + (cap' - cap) * e).
    { unfold probe_memory, sat_sub in *. rewrite grow_live, grow_baseline. nia. }
    specialize (IH (len + 1) cap' (grow ((cap' - cap) * e) w)).
    rewrite Hpw, grow_live, grow_baseline in IH.
    specialize (IH ltac:(lia) ltac:(lia) ltac:(nia) ltac:(nia) ltac:(lia)).
    destruct (push_n self e n (len + 1) cap' _) as [[cap'' w']|]; [|done].
    destruct IH as (H1 & H2 & H3 & H4). repeat split; lia.
Qed.

(** A buffer that grows one push at a time behind [check_growth] never takes the
    process over its memory limit: either every push succeeds, the buffer holds at
    most twice its elements (or the minimum capacity), exactly its bytes have been
    allocated and memory is within the limit, or the sandbox gets a memory error
    before the allocation. *)
Theorem preflighted_growth_fits self limit e n w :
  max_memory (limits self) = Some limit -> limit <= i64_max -> 1 <= e ->
  0 <= baseline_memory w <= live_memory w -> probe_memory w <= limit ->
  match push_n self e n 0 0 w with
  | Ok (cap, w') =>
      Z.of_nat n <= cap <= Z.max (2 * Z.of_nat n) (min_non_zero_capacity e)
      /\ live_memory w' = live_memory w + cap * e /\ check_memory self w' = Ok tt
  | Err err => exists used, err = Memory limit used
  end.
Proof.
  intros Hm Hlim He Hb Hp. pose proof (min_non_zero_capacity_pos e).
  pose proof (push_n_fits self limit e n 0 0 w Hm Hlim He) as Hn.
  specialize (Hn ltac:(lia) ltac:(lia) Hb ltac:(unfold probe_memory, sat_sub; lia) Hp).
  destruct (push_n self e n 0 0 w) as [[cap w']|]; [|done]. destruct Hn as (H1 & H2 & H3 & H4).
  repeat split; try lia. unfold check_memory. rewrite Hm.
  destruct (Z.ltb_spec limit (probe_memory w')); [lia|done].
Qed.

(** ** The baseline *)

(** What [allocate_into_baseline] builds is not charged to the session: the memory
    the checks see is the same before and after, also when the baseline is not set
    yet. *)
Theorem baseline_not_charged `{HL : !MachineLaws W} {T} (build : W -> T * W) w :
  baseline_memory (build w).2 = baseline_memory w ->
  live_memory w <= live_memory (build w).2 <= usize_max -> 0 <= baseline_memory w ->
  baseline_memory w + (live_memory (build w).2 - live_memory w) <= usize_max \/ baseline_memory w = usize_max ->
  probe_memory (allocate_into_baseline build w).2 = probe_memory w.
Proof.
  intros Hb Hl H0 Hs. unfold allocate_into_baseline, probe_memory in *.
  destruct (build w) as [v w']. cbn [fst snd] in *. rewrite Hb.
  destruct (Z.eqb_spec (baseline_memory w) usize_max) as [He|He].
  - unfold sat_sub. lia.
  - rewrite baseline_set, baseline_live, (sat_sub_exact (live_memory w') (live_memory w)) by lia.
    rewrite sat_add_exact by (unfold usize_max in *; lia). unfold sat_sub. lia.
Qed.
End Limits.

(** ** On the simulated machine *)

Definition sim_grow (d : Z) (w : SimMachine) : SimMachine :=
  {| sim_now := sim_now w; sim_cpu := sim_cpu w; sim_live := sim_live w + d; sim_baseline := sim_baseline w |}.

Lemma tighten_limits_exact_witness :
  let self := new_tracker sim_limits in
  let c := with_max_memory 900 default_limits in
  tighten_limits c (tighten_limits c self) = tighten_limits c self.
Proof.
  exact (proj2 (proj2 (proj2 (proj2 (tighten_limits_exact (with_max_memory 900 default_limits)
    (new_tracker sim_limits) sim_start 10 10 (new_tracker_ok sim_limits Wall)))))).
Defined.

Lemma preflighted_growth_fits_witness :
  match push_n sim_grow (new_tracker (with_max_memory 1000 default_limits)) 8 10 0 0 sim_start with
  | Ok (cap, w') => 10 <= cap <= Z.max 20 4 /\ live_memory w' = 1000 + cap * 8
      /\ check_memory (new_tracker (with_max_memory 1000 default_limits)) w' = Ok tt
  | Err err => exists used, err = Memory 1000 used
  end.
Proof.
  refine (preflighted_growth_fits sim_grow _ _ (new_tracker (with_max_memory 1000 default_limits)) 1000 8 10
            sim_start _ _ _ _ _); cbn; try done; lia.
Defined.

Lemma baseline_not_charged_witness :
  probe_memory (allocate_into_baseline (fun w => (tt, sim_grow 50 w)) sim_start).2 = 600.
Proof.
  refine (baseline_not_charged (fun w => (tt, sim_grow 50 w)) sim_start _ _ _ _); cbn; try lia;
    unfold usize_max, u64_max; lia.
Defined.
