(* ===== verification/Timsort.v ===== *)
(** The sort of [list.sort] and [sorted()] ([crates/monty/src/sorting/timsort.rs]): a
    port of CPython's timsort with the powersort merge policy.

    The comparison is a parameter: it runs guest code, so it has a state, may answer
    inconsistently and may stop the sort. What Rust would panic on (an index out of
    range, a subtraction below zero) is the error [Panic], and a loop that outlives
    its bound ends in [OutOfFuel]; the files below show that neither occurs. *)
From S2P Require Import Prelude.
Local Open Scope monty_scope.

Inductive sort_error := SortAborted | Panic | OutOfFuel.

#[export] Instance sort_error_eq_dec : EqDecision sort_error.
Proof. solve_decision. Defined.

Definition MIN_GALLOP : nat := 7.
Definition MAX_MINRUN : nat := 64.

(** ** Slices and machine arithmetic *)

(** [a[i]]. *)
Definition at_ {A} (a : list A) (i : nat) : result A sort_error := ok_or (a !! i) Panic.

(** [a - b] on [usize]. *)
Definition usub (a b : nat) : result nat sort_error := if b <=? a then Ok (a - b) else Err Panic.

(** [&a[i..j]]. *)
Definition slice {A} (a : list A) (i j : nat) : result (list A) sort_error :=
  if (i <=? j) && (j <=? length a) then Ok (take (j - i) (drop i a)) else Err Panic.

(** Stores [xs] from index [i] on: [a[i] = x], [copy_from_slice] and the write of
    [copy_within]. *)
Definition store {A} (i : nat) (xs : list A) (a : list A) : result (list A) sort_error :=
  if i + length xs <=? length a then Ok (take i a ++ xs ++ drop (i + length xs) a) else Err Panic.

(** [a[i..j].reverse()]. *)
Definition reverse_range {A} (i j : nat) (a : list A) : result (list A) sort_error :=
  let? xs := slice a i j in store i (rev xs) a.

(** ** Run lengths and powers *)

(** [while n >= MAX_MINRUN { r |= n & 1; n >>= 1; }], for at most [fuel] turns. *)
Fixpoint minrun_loop (fuel n r : nat) : result nat sort_error :=
  match fuel with
  | O => Err OutOfFuel
  | S fuel =>
      if MAX_MINRUN <=? n then minrun_loop fuel (Nat.shiftr n 1) (Nat.lor r (Nat.land n 1)) else Ok (n + r)
  end.

Definition merge_compute_minrun (n : nat) : result nat sort_error := minrun_loop (S n) n 0.

(** One turn per bit of the powersort level; [a] and [b] are the doubled midpoints. *)
Fixpoint powerloop_loop (fuel n a b result : nat) : Prelude.result nat sort_error :=
  match fuel with
  | O => Err OutOfFuel
  | S fuel =>
      let result := S result in
      if n <=? a then
        let? a := usub a n in
        let? b := usub b n in
        powerloop_loop fuel n (2 * a) (2 * b) result
      else if n <=? b then Ok result
      else powerloop_loop fuel n (2 * a) (2 * b) result
  end.

Definition powerloop (s1 n1 n2 n : nat) : result nat sort_error :=
  let a := 2 * s1 + n1 in
  let b := a + n1 + n2 in
  powerloop_loop (S n) n a b 0.

(** ** Runs and insertion *)

Section Sort.
Context {T C : Type} (lt : T -> T -> C -> option bool * C).

(** [lt(x, y)?]. *)
Definition ask (x y : T) : M C sort_error bool := fun c =>
  match lt x y c with
  | (Some b, c) => (Ok b, c)
  | (None, c) => (Err SortAborted, c)
  end.

(** A search that leaves the slice alone, as a step on slice and comparison. *)
Definition lift_c {A S} (get : S -> C) (set : C -> S -> S) (m : M C sort_error A) : M S sort_error A :=
  fun s => let '(r, c) := m (get s) in (r, set c s).

Abbreviation Slice := (list T * C)%type.
Definition on_slice {A} (m : M C sort_error A) : M Slice sort_error A :=
  lift_c snd (fun c s => (s.1, c)) m.

(** A change of the slice that makes no comparison. *)
Definition change (f : list T -> result (list T) sort_error) : M Slice sort_error unit := fun s =>
  match f s.1 with Ok a => (Ok tt, (a, s.2)) | Err e => (Err e, s) end.

(** [while n < remaining && !lt(&a[n], &a[n - 1])? { n += 1; }]. *)
Fixpoint ascend (fuel : nat) (a : list T) (n : nat) : M C sort_error nat :=
  match fuel with
  | O => sfail OutOfFuel
  | S fuel =>
      if n <? length a then
        do x <- slift (at_ a n) ;;
        do p <- slift (usub n 1) ;;
        do y <- slift (at_ a p) ;;
        do less <- ask x y ;;
        if less then sret n else ascend fuel a (n + 1)
      else sret n
  end.

(** [reverse_last_equal]; the new [neq] is zero on both branches. *)
Definition reverse_last_equal (n neq : nat) : M Slice sort_error unit :=
  if 0 <? neq then
    let len := neq + 1 in
    do i <- slift (usub n len) ;;
    change (reverse_range i n)
  else sret tt.

(** The loop over a descending run; returns [n] and [neq] where it stops. *)
Fixpoint descend (fuel n neq : nat) : M Slice sort_error (nat * nat) :=
  match fuel with
  | O => sfail OutOfFuel
  | S fuel =>
      do s <- sget ;;
      if n <? length s.1 then
        do x <- slift (at_ s.1 n) ;;
        do p <- slift (usub n 1) ;;
        do y <- slift (at_ s.1 p) ;;
        do less <- on_slice (ask x y) ;;
        if less then
          reverse_last_equal n neq ;;; descend fuel (n + 1) 0
        else
          do greater <- on_slice (ask y x) ;;
          if greater then sret (n, neq) else descend fuel (n + 1) (neq + 1)
      else sret (n, neq)
  end.

(** The descending half of [count_run], from [a[n]] less than its predecessor. *)
Definition count_descending (n : nat) : M Slice sort_error nat :=
  do s <- sget ;;
  let remaining := length s.1 in
  do r <- descend (S remaining) (n + 1) 0 ;;
  let '(n, neq) := r in
  reverse_last_equal n neq ;;;
  change (reverse_range 0 n) ;;;
  do s <- sget ;;
  on_slice (ascend (S remaining) s.1 n).

Definition count_run : M Slice sort_error nat :=
  do s <- sget ;;
  let a := s.1 in
  let remaining := length a in
  do n <- on_slice (ascend (S remaining) a 1) ;;
  if n =? remaining then sret n
  else if 1 <? n then
    do x <- slift (at_ a 0) ;;
    do p <- slift (usub n 1) ;;
    do y <- slift (at_ a p) ;;
    do rose <- on_slice (ask x y) ;;
    if rose then sret n else change (reverse_range 0 n) ;;; count_descending n
  else count_descending n.

(** [while l < r]: where [x] is inserted. *)
Fixpoint insertion_point (fuel : nat) (a : list T) (x : T) (l r : nat) : M C sort_error nat :=
  match fuel with
  | O => sfail OutOfFuel
  | S fuel =>
      if l <? r then
        let m := (l + r) / 2 in
        do y <- slift (at_ a m) ;;
        do less <- ask x y ;;
        if less then insertion_point fuel a x l m else insertion_point fuel a x (m + 1) r
      else sret l
  end.

(** [a[l..=ok].rotate_right(1)]. *)
Definition rotate_right (l ok : nat) (a : list T) : result (list T) sort_error :=
  let? xs := slice a l (ok + 1) in
  match rev xs with
  | [] => Ok a
  | x :: ys => store l (x :: rev ys) a
  end.

(** The insertions at [ok], [ok + 1], ..., [n] of them. *)
Fixpoint insertions (n ok : nat) : M Slice sort_error unit :=
  match n with
  | O => sret tt
  | S n =>
      do s <- sget ;;
      do x <- slift (at_ s.1 ok) ;;
      do l <- on_slice (insertion_point (S ok) s.1 x 0 ok) ;;
      change (rotate_right l ok) ;;;
      insertions n (ok + 1)
  end.

Definition binary_sort (ok : nat) : M Slice sort_error unit :=
  do s <- sget ;;
  let ok := Nat.max ok 1 in
  insertions (length s.1 - ok) ok.

Definition sort_short : M Slice sort_error unit :=
  do s <- sget ;;
  if length s.1 <? 2 then sret tt
  else
    do n <- count_run ;;
    if n <? length s.1 then binary_sort n else sret tt.

(** ** Galloping searches *)

(** Gallops away from [hint]: [probe ofs] answers whether to go on from offset [ofs].
    Returns [last_ofs] and [ofs]. *)
Fixpoint gallop (fuel : nat) (probe : nat -> M C sort_error bool) (max_ofs last_ofs ofs : nat) :
    M C sort_error (nat * nat) :=
  match fuel with
  | O => sfail OutOfFuel
  | S fuel =>
      if ofs <? max_ofs then
        do on <- probe ofs ;;
        if on then gallop fuel probe max_ofs ofs (Nat.shiftl ofs 1 + 1) else sret (last_ofs, ofs)
      else sret (last_ofs, ofs)
  end.

(** The final binary search; [go_right m] answers whether index [m] is left of the
    result. *)
Fixpoint bisect (fuel : nat) (go_right : nat -> M C sort_error bool) (lo hi : nat) : M C sort_error nat :=
  match fuel with
  | O => sfail OutOfFuel
  | S fuel =>
      if lo <? hi then
        let m := lo + Nat.shiftr (hi - lo) 1 in
        do go <- go_right m ;;
        if (go : bool) then bisect fuel go_right (m + 1) hi else bisect fuel go_right lo m
      else sret hi
  end.

Definition gallop_left (key : T) (a : list T) (hint : nat) : M C sort_error nat :=
  let n := length a in
  let less i := do x <- slift (at_ a i) ;; ask x key in
  do here <- less hint ;;
  do range <-
    (if (here : bool) then
       do max_ofs <- slift (usub n hint) ;;
       do r <- gallop (S max_ofs) (fun ofs => less (hint + ofs)) max_ofs 0 1 ;;
       let '(last_ofs, ofs) := r in
       sret (hint + last_ofs + 1, hint + Nat.min ofs max_ofs)
     else
       let max_ofs := hint + 1 in
       do r <- gallop (S max_ofs)
                 (fun ofs => do i <- slift (usub hint ofs) ;; do b <- less i ;; sret (negb b)) max_ofs 0 1 ;;
       let '(last_ofs, ofs) := r in
       do lo <- slift (usub (hint + 1) (Nat.min ofs max_ofs)) ;;
       do hi <- slift (usub hint last_ofs) ;;
       sret (lo, hi)) ;;
  let '(lo, hi) := range in
  bisect (S n) less lo hi.

Definition gallop_right (key : T) (a : list T) (hint : nat) : M C sort_error nat :=
  let n := length a in
  let greater i := do x <- slift (at_ a i) ;; ask key x in
  do here <- greater hint ;;
  do range <-
    (if (here : bool) then
       let max_ofs := hint + 1 in
       do r <- gallop (S max_ofs) (fun ofs => do i <- slift (usub hint ofs) ;; greater i) max_ofs 0 1 ;;
       let '(last_ofs, ofs) := r in
       do lo <- slift (usub (hint + 1) (Nat.min ofs max_ofs)) ;;
       do hi <- slift (usub hint last_ofs) ;;
       sret (lo, hi)
     else
       do max_ofs <- slift (usub n hint) ;;
       do r <- gallop (S max_ofs) (fun ofs => do b <- greater (hint + ofs) ;; sret (negb b)) max_ofs 0 1 ;;
       let '(last_ofs, ofs) := r in
       sret (hint + last_ofs + 1, hint + Nat.min ofs max_ofs)) ;;
  let '(lo, hi) := range in
  bisect (S n) (fun m => do b <- greater m ;; sret (negb b)) lo hi.
End Sort.

(** ** Merging *)

Record Run := { base : nat; len : nat; power : nat }.

Inductive MergeEnd := Drain | CopyLast.

(** [MergeState] and the slice it sorts; [cmp] is the state of the comparison. *)
Record MergeState (C : Type) := {
  ids : list nat;
  cmp : C;
  min_gallop : nat;
  tmp : list nat;
  pending : list Run;
  list_len : nat }.
Arguments ids {C} _.
Arguments cmp {C} _.
Arguments min_gallop {C} _.
Arguments tmp {C} _.
Arguments pending {C} _.
Arguments list_len {C} _.

(** [LoCursor] and [HiCursor] have the same fields. *)
Record Cursor := { dest : nat; pa : nat; pb : nat; na : nat; nb : nat }.

(** Where a merge loop is: in the straightforward merge with its two winning counts,
    or galloping. *)
Inductive Mode := Straight (acount bcount : nat) | Galloping.

Section Merge.
Context {C : Type} (lt : nat -> nat -> C -> option bool * C).

Abbreviation MS := (MergeState C).

Definition set_ids (l : list nat) (s : MS) : MS :=
  {| ids := l; cmp := cmp s; min_gallop := min_gallop s; tmp := tmp s; pending := pending s;
     list_len := list_len s |}.
Definition set_cmp (c : C) (s : MS) : MS :=
  {| ids := ids s; cmp := c; min_gallop := min_gallop s; tmp := tmp s; pending := pending s;
     list_len := list_len s |}.
Definition set_min_gallop (n : nat) (s : MS) : MS :=
  {| ids := ids s; cmp := cmp s; min_gallop := n; tmp := tmp s; pending := pending s;
     list_len := list_len s |}.
Definition set_tmp (l : list nat) (s : MS) : MS :=
  {| ids := ids s; cmp := cmp s; min_gallop := min_gallop s; tmp := l; pending := pending s;
     list_len := list_len s |}.
Definition set_pending (l : list Run) (s : MS) : MS :=
  {| ids := ids s; cmp := cmp s; min_gallop := min_gallop s; tmp := tmp s; pending := l;
     list_len := list_len s |}.

(** The loops also move a cursor. *)
Abbreviation CS := (MS * Cursor)%type.

Definition compares {A} (m : M C sort_error A) : M MS sort_error A := lift_c cmp set_cmp m.
Definition compares_c {A} (m : M C sort_error A) : M CS sort_error A :=
  lift_c (fun s => cmp s.1) (fun c s => (set_cmp c s.1, s.2)) m.

(** Changes of [ids], which may panic. *)
Definition write (f : list nat -> result (list nat) sort_error) : M MS sort_error unit := fun s =>
  match f (ids s) with Ok l => (Ok tt, set_ids l s) | Err e => (Err e, s) end.

(** A statement of a merge loop: writes to [ids] and moves the cursor. *)
Definition move (f : MS -> Cursor -> result (list nat * Cursor) sort_error) : M CS sort_error Cursor := fun s =>
  match f s.1 s.2 with
  | Ok (l, c) => (Ok c, (set_ids l s.1, c))
  | Err e => (Err e, s)
  end.

(** [ids[dest] = ids[pb]; dest += 1; pb += 1; nb -= 1]. *)
Definition lo_take_b (s : MS) (c : Cursor) : result (list nat * Cursor) sort_error :=
  let? x := at_ (ids s) (pb c) in
  let? l := store (dest c) [x] (ids s) in
  let? nb := usub (nb c) 1 in
  Ok (l, {| dest := dest c + 1; pa := pa c; pb := pb c + 1; na := na c; nb := nb |}).

(** [ids[dest] = tmp[pa]; dest += 1; pa += 1; na -= 1]. *)
Definition lo_take_a (s : MS) (c : Cursor) : result (list nat * Cursor) sort_error :=
  let? x := at_ (tmp s) (pa c) in
  let? l := store (dest c) [x] (ids s) in
  let? na := usub (na c) 1 in
  Ok (l, {| dest := dest c + 1; pa := pa c + 1; pb := pb c; na := na; nb := nb c |}).

(** [ids[dest..dest + k].copy_from_slice(&tmp[pa..pa + k])] and the cursor. *)
Definition lo_take_as (k : nat) (s : MS) (c : Cursor) : result (list nat * Cursor) sort_error :=
  let? xs := slice (tmp s) (pa c) (pa c + k) in
  let? l := store (dest c) xs (ids s) in
  let? na := usub (na c) k in
  Ok (l, {| dest := dest c + k; pa := pa c + k; pb := pb c; na := na; nb := nb c |}).

(** [ids.copy_within(pb..pb + k, dest)] and the cursor. *)
Definition lo_take_bs (k : nat) (s : MS) (c : Cursor) : result (list nat * Cursor) sort_error :=
  let? xs := slice (ids s) (pb c) (pb c + k) in
  let? l := store (dest c) xs (ids s) in
  let? nb := usub (nb c) k in
  Ok (l, {| dest := dest c + k; pa := pa c; pb := pb c + k; na := na c; nb := nb |}).

(** A turn of a loop: go on in a mode with a local [min_gallop], or end. *)
Abbreviation turn := ((Mode * nat) + MergeEnd)%type.

(** [if acount >= min_gallop { break; }], with the line after the inner loop. *)
Definition after_win (count mg : nat) (next : Mode) : turn :=
  if mg <=? count then inl (Galloping, mg + 1) else inl (next, mg).

(** One comparison of the straightforward merge of [merge_lo_loop]. *)
Definition lo_straight (acount bcount mg : nat) : M CS sort_error turn :=
  do s <- sget ;;
  do y <- slift (at_ (ids s.1) (pb s.2)) ;;
  do x <- slift (at_ (tmp s.1) (pa s.2)) ;;
  do less <- compares_c (ask lt y x) ;;
  if less then
    do c <- move lo_take_b ;;
    if nb c =? 0 then sret (inr Drain)
    else sret (after_win (bcount + 1) mg (Straight 0 (bcount + 1)))
  else
    do c <- move lo_take_a ;;
    if na c =? 1 then sret (inr CopyLast)
    else sret (after_win (acount + 1) mg (Straight (acount + 1) 0)).

(** [self.min_gallop = n]. *)
Definition keep_min_gallop (n : nat) : M CS sort_error unit :=
  smodify (fun s => (set_min_gallop n s.1, s.2)).

(** [min_gallop -= usize::from(min_gallop > 1)]. *)
Definition ease (mg : nat) : nat := mg - (if 1 <? mg then 1 else 0).

(** [gallop_right_tmp]: the slice of [tmp], which is put back. *)
Definition gallop_right_tmp (key start len : nat) : M CS sort_error nat :=
  do s <- sget ;;
  do a <- slift (slice (tmp s.1) start (start + len)) ;;
  compares_c (gallop_right lt key a 0).

(** [gallop_left_tmp]. *)
Definition gallop_left_tmp (key len : nat) : M CS sort_error nat :=
  do s <- sget ;;
  do a <- slift (slice (tmp s.1) 0 len) ;;
  do hint <- slift (usub len 1) ;;
  compares_c (gallop_left lt key a hint).

(** The end of a galloping turn; leaving the mode is penalised. *)
Definition gallop_on (acount bcount mg : nat) : M CS sort_error turn :=
  if (acount <? MIN_GALLOP) && (bcount <? MIN_GALLOP) then
    keep_min_gallop (mg + 1) ;;; sret (inl (Straight 0 0, mg + 1))
  else sret (inl (Galloping, mg)).

(** The second half of a galloping turn of [merge_lo_loop]: B's winners, then an
    element of A. *)
Definition lo_gallop_b (acount mg : nat) : M CS sort_error turn :=
  do s <- sget ;;
  do x <- slift (at_ (tmp s.1) (pa s.2)) ;;
  do b <- slift (slice (ids s.1) (pb s.2) (pb s.2 + nb s.2)) ;;
  do k <- compares_c (gallop_left lt x b 0) ;;
  do c <- (if 0 <? k then move (lo_take_bs k) else sret s.2) ;;
  if (0 <? k) && (nb c =? 0) then sret (inr Drain)
  else
    do c <- move lo_take_a ;;
    if na c =? 1 then sret (inr CopyLast) else gallop_on acount k mg.

(** One galloping turn of [merge_lo_loop]. *)
Definition lo_gallop (mg : nat) : M CS sort_error turn :=
  let mg := ease mg in
  keep_min_gallop mg ;;;
  do s <- sget ;;
  do y <- slift (at_ (ids s.1) (pb s.2)) ;;
  do k <- gallop_right_tmp y (pa s.2) (na s.2) ;;
  do c <- (if 0 <? k then move (lo_take_as k) else sret s.2) ;;
  if (0 <? k) && (na c =? 1) then sret (inr CopyLast)
  else if (0 <? k) && (na c =? 0) then sret (inr Drain)
  else
    do c <- move lo_take_b ;;
    if nb c =? 0 then sret (inr Drain) else lo_gallop_b k mg.

Definition lo_turn (m : Mode) (mg : nat) : M CS sort_error turn :=
  match m with
  | Straight acount bcount => lo_straight acount bcount mg
  | Galloping => lo_gallop mg
  end.

Fixpoint lo_loop (fuel : nat) (m : Mode) (mg : nat) : M CS sort_error MergeEnd :=
  match fuel with
  | O => sfail OutOfFuel
  | S fuel =>
      do t <- lo_turn m mg ;;
      match t with
      | inl (m, mg) => lo_loop fuel m mg
      | inr e => sret e
      end
  end.

(** Every turn moves at least one element. *)
Definition merge_lo_loop : M CS sort_error MergeEnd :=
  do c <- move lo_take_b ;;
  if nb c =? 0 then sret Drain
  else if na c =? 1 then sret CopyLast
  else
    do s <- sget ;;
    lo_loop (na c + nb c) (Straight 0 0) (min_gallop s.1).

(** Runs a loop over a cursor of its own, and keeps the cursor whatever happens. *)
Definition with_cursor {A} (c : Cursor) (m : M CS sort_error A) : M MS sort_error (result A sort_error * Cursor) :=
  fun s => let '(r, (s, c)) := m (s, c) in (Ok (r, c), s).

(** [self.tmp.clear(); self.tmp.extend_from_slice(&ids[i..j])]. *)
Definition fill_tmp (i j : nat) : M MS sort_error unit :=
  do s <- sget ;;
  do xs <- slift (slice (ids s) i j) ;;
  smodify (set_tmp xs).

Definition merge_lo (base_a na nb : nat) : M MS sort_error unit :=
  fill_tmp base_a (base_a + na) ;;;
  do rc <- with_cursor {| dest := base_a; pa := 0; pb := base_a + na; na := na; nb := nb |} merge_lo_loop ;;
  let '(r, c) := rc in
  do s <- sget ;;
  match r with
  | Ok CopyLast =>
      do xs <- slift (slice (ids s) (pb c) (pb c + Timsort.nb c)) ;;
      write (store (dest c) xs) ;;;
      do x <- slift (at_ (tmp s) (pa c)) ;;
      write (store (dest c + Timsort.nb c) [x])
  | other =>
      do xs <- slift (slice (tmp s) (pa c) (pa c + Timsort.na c)) ;;
      write (store (dest c) xs) ;;;
      slift (let? _ := other in Ok tt)
  end.

(** [dest -= 1; pa -= 1; ids[dest] = ids[pa]; na -= 1]. *)
Definition hi_take_a (s : MS) (c : Cursor) : result (list nat * Cursor) sort_error :=
  let? dest := usub (dest c) 1 in
  let? pa := usub (pa c) 1 in
  let? x := at_ (ids s) pa in
  let? l := store dest [x] (ids s) in
  let? na := usub (na c) 1 in
  Ok (l, {| dest := dest; pa := pa; pb := pb c; na := na; nb := nb c |}).

(** [dest -= 1; pb -= 1; ids[dest] = tmp[pb]; nb -= 1]. *)
Definition hi_take_b (s : MS) (c : Cursor) : result (list nat * Cursor) sort_error :=
  let? dest := usub (dest c) 1 in
  let? pb := usub (pb c) 1 in
  let? x := at_ (tmp s) pb in
  let? l := store dest [x] (ids s) in
  let? nb := usub (nb c) 1 in
  Ok (l, {| dest := dest; pa := pa c; pb := pb; na := na c; nb := nb |}).

(** [dest -= k; pa -= k; ids.copy_within(pa..pa + k, dest); na -= k]. *)
Definition hi_take_as (k : nat) (s : MS) (c : Cursor) : result (list nat * Cursor) sort_error :=
  let? dest := usub (dest c) k in
  let? pa := usub (pa c) k in
  let? xs := slice (ids s) pa (pa + k) in
  let? l := store dest xs (ids s) in
  let? na := usub (na c) k in
  Ok (l, {| dest := dest; pa := pa; pb := pb c; na := na; nb := nb c |}).

(** [dest -= k; pb -= k; ids[dest..dest + k].copy_from_slice(&tmp[pb..pb + k]); nb -= k]. *)
Definition hi_take_bs (k : nat) (s : MS) (c : Cursor) : result (list nat * Cursor) sort_error :=
  let? dest := usub (dest c) k in
  let? pb := usub (pb c) k in
  let? xs := slice (tmp s) pb (pb + k) in
  let? l := store dest xs (ids s) in
  let? nb := usub (nb c) k in
  Ok (l, {| dest := dest; pa := pa c; pb := pb; na := na c; nb := nb |}).

(** One comparison of the straightforward merge of [merge_hi_loop]. *)
Definition hi_straight (acount bcount mg : nat) : M CS sort_error turn :=
  do s <- sget ;;
  do j <- slift (usub (pb s.2) 1) ;;
  do y <- slift (at_ (tmp s.1) j) ;;
  do i <- slift (usub (pa s.2) 1) ;;
  do x <- slift (at_ (ids s.1) i) ;;
  do less <- compares_c (ask lt y x) ;;
  if less then
    do c <- move hi_take_a ;;
    if na c =? 0 then sret (inr Drain)
    else sret (after_win (acount + 1) mg (Straight (acount + 1) 0))
  else
    do c <- move hi_take_b ;;
    if nb c =? 1 then sret (inr CopyLast)
    else sret (after_win (bcount + 1) mg (Straight 0 (bcount + 1))).

(** The second half of a galloping turn of [merge_hi_loop]: B's winners, then an
    element of A. *)
Definition hi_gallop_b (acount mg : nat) : M CS sort_error turn :=
  do s <- sget ;;
  do i <- slift (usub (pa s.2) 1) ;;
  do x <- slift (at_ (ids s.1) i) ;;
  do r <- gallop_left_tmp x (nb s.2) ;;
  do k <- slift (usub (nb s.2) r) ;;
  do c <- (if 0 <? k then move (hi_take_bs k) else sret s.2) ;;
  if (0 <? k) && (nb c =? 1) then sret (inr CopyLast)
  else if (0 <? k) && (nb c =? 0) then sret (inr Drain)
  else
    do c <- move hi_take_a ;;
    if na c =? 0 then sret (inr Drain) else gallop_on acount k mg.

(** One galloping turn of [merge_hi_loop]. *)
Definition hi_gallop (base_a mg : nat) : M CS sort_error turn :=
  let mg := ease mg in
  keep_min_gallop mg ;;;
  do s <- sget ;;
  do j <- slift (usub (pb s.2) 1) ;;
  do y <- slift (at_ (tmp s.1) j) ;;
  do a <- slift (slice (ids s.1) base_a (base_a + na s.2)) ;;
  do hint <- slift (usub (na s.2) 1) ;;
  do r <- compares_c (gallop_right lt y a hint) ;;
  do k <- slift (usub (na s.2) r) ;;
  do c <- (if 0 <? k then move (hi_take_as k) else sret s.2) ;;
  if (0 <? k) && (na c =? 0) then sret (inr Drain)
  else
    do c <- move hi_take_b ;;
    if nb c =? 1 then sret (inr CopyLast) else hi_gallop_b k mg.

Definition hi_turn (base_a : nat) (m : Mode) (mg : nat) : M CS sort_error turn :=
  match m with
  | Straight acount bcount => hi_straight acount bcount mg
  | Galloping => hi_gallop base_a mg
  end.

Fixpoint hi_loop (base_a fuel : nat) (m : Mode) (mg : nat) : M CS sort_error MergeEnd :=
  match fuel with
  | O => sfail OutOfFuel
  | S fuel =>
      do t <- hi_turn base_a m mg ;;
      match t with
      | inl (m, mg) => hi_loop base_a fuel m mg
      | inr e => sret e
      end
  end.

Definition merge_hi_loop (base_a : nat) : M CS sort_error MergeEnd :=
  do c <- move hi_take_a ;;
  if na c =? 0 then sret Drain
  else if nb c =? 1 then sret CopyLast
  else
    do s <- sget ;;
    hi_loop base_a (na c + nb c) (Straight 0 0) (min_gallop s.1).

Definition merge_hi (base_a na nb : nat) : M MS sort_error unit :=
  let base_b := base_a + na in
  fill_tmp base_b (base_b + nb) ;;;
  do rc <- with_cursor {| dest := base_b + nb; pa := base_b; pb := nb; na := na; nb := nb |}
             (merge_hi_loop base_a) ;;
  let '(r, c) := rc in
  do s <- sget ;;
  match r with
  | Ok CopyLast =>
      do i <- slift (usub (pa c) (Timsort.na c)) ;;
      do xs <- slift (slice (ids s) i (pa c)) ;;
      do d <- slift (usub (dest c) (Timsort.na c)) ;;
      write (store d xs) ;;;
      do d <- slift (usub d 1) ;;
      do x <- slift (at_ (tmp s) 0) ;;
      write (store d [x])
  | other =>
      do d <- slift (usub (dest c) (Timsort.nb c)) ;;
      do xs <- slift (slice (tmp s) 0 (Timsort.nb c)) ;;
      write (store d xs) ;;;
      slift (let? _ := other in Ok tt)
  end.

(** ** The stack of runs *)

(** Pops the run at [i + 1] into the run at [i]. *)
Definition join_runs (i : nat) (p : list Run) : result (Run * Run * list Run) sort_error :=
  let? ra := at_ p i in
  let? rb := at_ p (i + 1) in
  let p := <[i := {| base := base ra; len := len ra + len rb; power := power ra |}]> p in
  let? p := if i + 3 =? length p then (let? r := at_ p (i + 2) in Ok (<[i + 1 := r]> p)) else Ok p in
  Ok (ra, rb, take (length p - 1) p).

Definition merge_at (i : nat) : M MS sort_error unit :=
  do s <- sget ;;
  do j <- slift (join_runs i (pending s)) ;;
  let '(ra, rb, p) := j in
  smodify (set_pending p) ;;;
  let base_a := base ra in let na := len ra in
  let base_b := base rb in let nb := len rb in
  do y <- slift (at_ (ids s) base_b) ;;
  do a <- slift (slice (ids s) base_a (base_a + na)) ;;
  do k <- compares (gallop_right lt y a 0) ;;
  let base_a := base_a + k in
  do na <- slift (usub na k) ;;
  if na =? 0 then sret tt
  else
    do x <- slift (at_ (ids s) (base_a + na - 1)) ;;
    do b <- slift (slice (ids s) base_b (base_b + nb)) ;;
    do hint <- slift (usub nb 1) ;;
    do nb <- compares (gallop_left lt x b hint) ;;
    if nb =? 0 then sret tt
    else if na <=? nb then merge_lo base_a na nb else merge_hi base_a na nb.

(** The merges before a new run of power [power]. *)
Fixpoint merge_deeper (fuel power : nat) : M MS sort_error unit :=
  match fuel with
  | O => sfail OutOfFuel
  | S fuel =>
      do s <- sget ;;
      let n := length (pending s) in
      if 1 <? n then
        do r <- slift (at_ (pending s) (n - 2)) ;;
        if power <? Timsort.power r then merge_at (n - 2) ;;; merge_deeper fuel power else sret tt
      else sret tt
  end.

(** [self.pending[top].power = power]. *)
Definition set_top_power (power : nat) : M MS sort_error unit := fun s =>
  match last (pending s) with
  | Some r => (Ok tt, set_pending (take (length (pending s) - 1) (pending s)
                        ++ [{| base := base r; len := len r; power := power |}]) s)
  | None => (Err Panic, s)
  end.

Definition found_new_run (n2 : nat) : M MS sort_error unit :=
  do s <- sget ;;
  match last (pending s) with
  | None => sret tt
  | Some top =>
      do power <- slift (powerloop (base top) (len top) n2 (list_len s)) ;;
      merge_deeper (S (length (pending s))) power ;;;
      set_top_power power
  end.

Fixpoint collapse_loop (fuel : nat) : M MS sort_error unit :=
  match fuel with
  | O => sfail OutOfFuel
  | S fuel =>
      do s <- sget ;;
      let p := pending s in
      if 1 <? length p then
        let n := length p - 2 in
        do n <- slift (if 0 <? n then
                         let? before := at_ p (n - 1) in
                         let? after := at_ p (n + 1) in
                         Ok (if len before <? len after then n - 1 else n)
                       else Ok n) ;;
        merge_at n ;;; collapse_loop fuel
      else sret tt
  end.

Definition merge_force_collapse : M MS sort_error unit :=
  do s <- sget ;; collapse_loop (S (length (pending s))).

(** [m] on [&mut ids[i..j]]; what it has done stays, also when it stops. *)
Definition on_ids {A} (i j : nat) (m : M (list nat * C) sort_error A) : M MS sort_error A := fun s =>
  match slice (ids s) i j with
  | Err e => (Err e, s)
  | Ok a =>
      let '(r, (a, c)) := m (a, cmp s) in
      match store i a (ids s) with
      | Ok l => (r, set_cmp c (set_ids l s))
      | Err e => (Err e, s)
      end
  end.

(** The loop over natural runs from [lo] on. *)
Fixpoint sort_runs (fuel minrun lo : nat) : M MS sort_error unit :=
  match fuel with
  | O => sfail OutOfFuel
  | S fuel =>
      do s <- sget ;;
      if lo <? list_len s then
        let remaining := list_len s - lo in
        do n <- on_ids lo (length (ids s)) (count_run lt) ;;
        do n <- (if n <? minrun then
                   let force := Nat.min remaining minrun in
                   on_ids lo (lo + force) (binary_sort lt n) ;;; sret force
                 else sret n) ;;
        found_new_run n ;;;
        smodify (fun s => set_pending (pending s ++ [{| base := lo; len := n; power := 0 |}]) s) ;;;
        sort_runs fuel minrun (lo + n)
      else sret tt
  end.

(** [timsort] on its slice and the state of the comparison. *)
Definition timsort : M (list nat * C) sort_error unit := fun s =>
  let list_len := length s.1 in
  if list_len <? 2 then (Ok tt, s)
  else
    let state := {| ids := s.1; cmp := s.2; min_gallop := MIN_GALLOP; tmp := []; pending := [];
                    list_len := list_len |} in
    let '(r, state) :=
      (do minrun <- slift (merge_compute_minrun list_len) ;;
       sort_runs (S list_len) minrun 0 ;;;
       merge_force_collapse) state in
    (r, (ids state, cmp state)).
End Merge.
