(* ===== verification/TimsortOrder.v ===== *)
(** Orders a stable sort respects, and the searches of the sort: the ascending scan,
    the insertion point, and the galloping searches.

    Every lemma is about a comparison that may answer anything; what it says of the
    order of elements is under the proposition [K], that the answers are those of a
    strict weak order. The comparison is only asked about elements in [U], those of
    the slice.  *)
From S2P Require Import Prelude Timsort.
From stdpp Require Import sorting.
#[local] Open Scope monty_scope.

(** ** Strict weak orders *)

Record StrictWeak {T} (ltb : T -> T -> bool) : Prop := {
  sw_asym : forall x y, ltb x y = true -> ltb y x = false;
  sw_trans : forall x y z, ltb y x = false -> ltb z y = false -> ltb z x = false }.

Section Order.
Context {T : Type} (ltb : T -> T -> bool) (pos : T -> nat).

(** [x] comes before [y] in a stable sort: it is less, or equal and was earlier. *)
Definition before (x y : T) : Prop := ltb x y = true \/ (ltb y x = false /\ pos x < pos y).

Definition earlier (x y : T) : Prop := pos x < pos y.

Context (SW : StrictWeak ltb).

Lemma lt_irrefl x : ltb x x = false.
Proof. destruct (ltb x x) eqn:E; [|done]. rewrite <- E. by apply (sw_asym _ SW). Qed.

Lemma before_le x y : before x y -> ltb y x = false.
Proof. intros [H|[H _]]; [by apply (sw_asym _ SW)|done]. Qed.

(** [x < y <= z] and [x <= y < z]. *)
Lemma lt_le_trans x y z : ltb x y = true -> ltb z y = false -> ltb x z = true.
Proof.
  intros H1 H2. destruct (ltb x z) eqn:E; [done|]. rewrite <- H1. symmetry.
  apply (sw_trans _ SW y z x); done.
Qed.

Lemma le_lt_trans x y z : ltb y x = false -> ltb y z = true -> ltb x z = true.
Proof.
  intros H1 H2. destruct (ltb x z) eqn:E; [done|]. rewrite <- H2. symmetry.
  apply (sw_trans _ SW z x y); done.
Qed.

Lemma before_trans x y z : before x y -> before y z -> before x z.
Proof.
  intros Hxy [Hyz|[Hyz Hp]].
  - left. eapply le_lt_trans; [by apply before_le|done].
  - destruct Hxy as [Hxy|[Hxy Hp']]; [left; by eapply lt_le_trans|].
    right. split; [by eapply (sw_trans _ SW)|lia].
Qed.

Lemma before_irrefl x : ~ before x x.
Proof. intros [H|[_ H]]; [|lia]. by rewrite lt_irrefl in H. Qed.
End Order.

(** ** Sorted lists *)

Lemma sorted_app {A} (R : A -> A -> Prop) l k :
  StronglySorted R (l ++ k) <->
  StronglySorted R l /\ StronglySorted R k /\ forall x y, x ∈ l -> y ∈ k -> R x y.
Proof.
  induction l as [|a l IH]; cbn.
  - split; [|tauto]. intros H. repeat split; [constructor|done|]. by intros x y ? % elem_of_nil.
  - split.
    + intros H. apply StronglySorted_inv in H as [H1 H2]. apply IH in H1 as (H3 & H4 & H5).
      rewrite Forall_app in H2. destruct H2 as [H2 H6]. repeat split; [by constructor|done|].
      intros x y [->|Hx] % elem_of_cons Hy; [|by apply H5]. rewrite Forall_forall in H6. by apply H6.
    + intros (H1 & H2 & H3). apply StronglySorted_inv in H1 as [H1 H4]. constructor.
      * apply IH. repeat split; [done..|]. intros x y Hx. apply H3. by right.
      * rewrite Forall_app. split; [done|]. apply Forall_forall. intros y. apply H3. by left.
Qed.

Lemma strongly_sorted_lookup {A} (R : A -> A -> Prop) l i j x y :
  StronglySorted R l -> i < j -> l !! i = Some x -> l !! j = Some y -> R x y.
Proof.
  intros Hs Hij Hi Hj. rewrite <- (take_drop_middle l i x Hi) in Hs.
  apply sorted_app in Hs as (_ & Hs & _). apply StronglySorted_inv in Hs as [_ Hf].
  rewrite Forall_forall in Hf. apply Hf. apply list_elem_of_lookup. exists (j - S i).
  rewrite lookup_drop. by replace (S i + (j - S i)) with j by lia.
Qed.

Lemma sorted_singleton {A} (R : A -> A -> Prop) x : StronglySorted R [x].
Proof. constructor; constructor. Qed.

Lemma sorted_snoc {A} (R : A -> A -> Prop) l x :
  StronglySorted R (l ++ [x]) <-> StronglySorted R l /\ forall y, y ∈ l -> R y x.
Proof.
  rewrite sorted_app. split; [intros (H & _ & Hx); split; [done|]|intros [H Hx]].
  - intros y Hy. apply Hx; [done|by left].
  - repeat split; [done|apply sorted_singleton|]. intros y z Hy Hz.
    apply list_elem_of_singleton in Hz as ->. by apply Hx.
Qed.

#[export] Hint Resolve sorted_singleton : monty.

Lemma sorted_impl {A} (R R' : A -> A -> Prop) l :
  (forall x y, x ∈ l -> y ∈ l -> R x y -> R' x y) -> StronglySorted R l -> StronglySorted R' l.
Proof.
  induction l as [|a l IH]; intros HR Hs; [constructor|]. apply StronglySorted_inv in Hs as [Hs Hf].
  rewrite Forall_forall in Hf. constructor.
  - apply IH; [|done]. intros x y Hx Hy. apply HR; by right.
  - apply Forall_forall. intros y Hy. apply HR; [by left|by right|by apply Hf].
Qed.

(** ** Orders on the elements at hand

    An order on the elements of a list extends to all others: they come first and
    are equal. *)
Record StrictWeakOn {T} (l : list T) (ltb : T -> T -> bool) : Prop := {
  swo_asym : forall x y, x ∈ l -> y ∈ l -> ltb x y = true -> ltb y x = false;
  swo_trans : forall x y z, x ∈ l -> y ∈ l -> z ∈ l -> ltb y x = false -> ltb z y = false -> ltb z x = false }.

Definition extend `{EqDecision T} (l : list T) (ltb : T -> T -> bool) (x y : T) : bool :=
  bool_decide (y ∈ l) && (negb (bool_decide (x ∈ l)) || ltb x y).

Lemma extend_weak `{EqDecision T} (l : list T) ltb : StrictWeakOn l ltb -> StrictWeak (extend l ltb).
Proof.
  intros [Ha Ht]. unfold extend. split.
  - intros x y. repeat case_bool_decide; cbn; auto.
  - intros x y z. repeat case_bool_decide; cbn; try done. by apply Ht.
Qed.

Lemma extend_in `{EqDecision T} (l : list T) ltb x y : x ∈ l -> y ∈ l -> extend l ltb x y = ltb x y.
Proof. intros Hx Hy. unfold extend. by rewrite !bool_decide_true. Qed.

(** ** Slices that do not panic *)

Lemma at_Ok {A} (a : list A) i x : a !! i = Some x -> at_ a i = Ok x.
Proof. unfold at_. by intros ->. Qed.

Lemma at_in {A} (a : list A) i : i < length a -> exists x, a !! i = Some x /\ at_ a i = Ok x.
Proof. intros [x Hx] % lookup_lt_is_Some. exists x. by rewrite (at_Ok a i x). Qed.

Lemma usub_Ok a b : b <= a -> usub a b = Ok (a - b).
Proof. intros H. unfold usub. by rewrite (proj2 (Nat.leb_le b a) H). Qed.

Lemma slice_Ok {A} (a : list A) i j : i <= j -> j <= length a -> slice a i j = Ok (take (j - i) (drop i a)).
Proof. intros H1 H2. unfold slice. by rewrite (proj2 (Nat.leb_le i j)), (proj2 (Nat.leb_le j _)). Qed.

(** A slice of a list given by its parts. *)
Lemma slice_mid {A} (p x q : list A) i j :
  i = length p -> j = length p + length x -> slice (p ++ x ++ q) i j = Ok x.
Proof.
  intros -> ->. rewrite slice_Ok by (rewrite ?length_app; lia). f_equal.
  rewrite drop_app_length, take_app_le by lia. rewrite take_ge; [done|lia].
Qed.

Lemma store_mid {A} (p x y q : list A) i :
  i = length p -> length x = length y -> store i x (p ++ y ++ q) = Ok (p ++ x ++ q).
Proof.
  intros -> Hl. unfold store. rewrite !length_app, Hl, (proj2 (Nat.leb_le _ _)) by lia.
  rewrite take_app_length. rewrite (app_assoc p y q), drop_app_length'; [done|by rewrite length_app].
Qed.

Lemma at_mid {A} (p : list A) x q i : i = length p -> at_ (p ++ x :: q) i = Ok x.
Proof. intros ->. apply at_Ok. by apply list_lookup_middle. Qed.

(** ** Searches *)

(** A computation fails only by a comparison that stopped the sort, in a state [Stop]
    describes. With the empty [Stop] it does not fail. *)
Section Search.
Context {T C : Type} (lt : T -> T -> C -> option bool * C) (ltb : T -> T -> bool) (K : Prop).
Context (U : T -> Prop) (answers : forall x y c b c', U x -> U y -> lt x y c = (Some b, c') -> K -> b = ltb x y).
Context (Stop : sort_error -> C -> Prop).
Context (stopped : forall x y c c', U x -> U y -> lt x y c = (None, c') -> Stop SortAborted c').


Lemma ask_ensures x y c Q :
  U x -> U y -> (forall b c', (K -> b = ltb x y) -> Q b c') -> ensures (ask lt x y) c Q Stop.
Proof.
  intros Ux Uy HQ. unfold ensures, ask. destruct (lt x y c) as [[b|] c'] eqn:E; [|by eapply (stopped x y)].
  apply HQ. by apply (answers x y c b c').
Qed.

Lemma lift_ensures {S E A} (r : result A E) a s (Q : A -> S -> Prop) R :
  r = Ok a -> Q a s -> ensures (slift r) s Q R.
Proof. by intros ->. Qed.

Lemma usub_ensures {S} a b (s : S) (Q : nat -> S -> Prop) R :
  b <= a -> Q (a - b) s -> ensures (slift (usub a b)) s Q R.
Proof. intros Hb HQ. by eapply lift_ensures; [apply usub_Ok|]. Qed.

(** [ascend] stops at a descent or at the end. *)
Lemma all_lookup a i x : Forall U a -> a !! i = Some x -> U x.
Proof. intros Ha Hi. rewrite Forall_lookup in Ha. by eapply Ha. Qed.

Lemma ascend_ensures a : Forall U a -> forall fuel n c, 1 <= n <= length a -> length a < fuel + n ->
  ensures (ascend lt fuel a n) c
    (fun n' _ => n <= n' <= length a
       /\ (K -> forall i x y, n <= i < n' -> a !! (i - 1) = Some x -> a !! i = Some y -> ltb y x = false)
       /\ (K -> forall x y, a !! (n' - 1) = Some x -> a !! n' = Some y -> ltb y x = true))
    Stop.
Proof.
  intros Ua. induction fuel as [|fuel IH]; intros n c Hn Hf; [lia|]. cbn [ascend].
  destruct (Nat.ltb_spec n (length a)) as [Hlt|Hge].
  - destruct (at_in a n Hlt) as (x & Hx & Hax). destruct (at_in a (n - 1) ltac:(lia)) as (y & Hy & Hay).
    apply ensures_bind, (lift_ensures _ _ _ _ _ Hax).
    apply ensures_bind, (lift_ensures _ _ _ _ _ (usub_Ok n 1 ltac:(lia))).
    apply ensures_bind, (lift_ensures _ _ _ _ _ Hay).
    apply ensures_bind, ask_ensures; [by eapply all_lookup..|]. intros [] c' Hb.
    + apply ensures_ret. split; [lia|]. split; [intros; lia|]. intros HK ? ? H1 H2. simplify_eq.
      by rewrite <- Hb.
    + eapply ensures_mono; [apply (IH (n + 1)); lia| |done]. cbn. intros n' _ (H1 & H2 & H3).
      split; [lia|]. split; [|done]. intros HK i x' y' Hi Hx' Hy'.
      destruct (decide (i = n)) as [->|]; [|by apply (H2 HK i); [lia|..]]. simplify_eq. by rewrite <- Hb.
  - apply ensures_ret. split; [lia|]. split; [intros; lia|]. intros _ x y _ Hy.
    apply lookup_lt_Some in Hy. lia.
Qed.

(** ** Partition points *)

(** [k] splits the indices below [n] into those where [p] holds and the others. *)
Definition splits (p : nat -> bool) (n k : nat) : Prop :=
  (forall i, i < k -> p i = true) /\ (forall i, k <= i < n -> p i = false).

(** [p] holds on an initial segment. *)
Definition initial (p : nat -> bool) (n : nat) : Prop :=
  forall i j, i <= j < n -> p j = true -> p i = true.

(** [m] answers [p i] where the index is in range. *)
Definition tells (m : nat -> M C sort_error bool) (p : nat -> bool) (n : nat) : Prop :=
  forall i c Q, i < n -> (forall b c', (K -> b = p i) -> Q b c') -> ensures (m i) c Q Stop.

Lemma bisect_ensures go p n : tells go p n -> forall fuel lo hi c,
  lo <= hi <= n -> hi - lo < fuel ->
  ensures (bisect fuel go lo hi) c
    (fun k _ => lo <= k <= hi
       /\ (K -> initial p n -> (forall i, i < lo -> p i = true) -> (forall i, hi <= i < n -> p i = false) ->
           splits p n k))
    Stop.
Proof.
  intros Hgo. induction fuel as [|fuel IH]; intros lo hi c Hr Hf; [lia|]. cbn [bisect].
  destruct (Nat.ltb_spec lo hi) as [Hlt|Hge].
  - set (m := lo + Nat.shiftr (hi - lo) 1).
    assert (Hm : lo <= m < hi).
    { unfold m. rewrite Nat.shiftr_div_pow2. cbn [Nat.pow Nat.mul].
      pose proof (Nat.div_lt (hi - lo) 2 ltac:(lia) ltac:(lia)). cbn in *. lia. }
    apply ensures_bind, Hgo; [lia|]. intros [] c' Hb.
    + eapply ensures_mono; [apply (IH (m + 1) hi); lia| |done]. cbn. intros k _ [H1 H2]. split; [lia|].
      intros HK Hp Hlo Hhi. apply H2; [done..| |done]. intros i Hi. apply (Hp i m); [lia|]. symmetry. by apply Hb.
    + eapply ensures_mono; [apply (IH lo m); lia| |done]. cbn. intros k _ [H1 H2]. split; [lia|].
      intros HK Hp Hlo Hhi. apply H2; [done..|]. intros i Hi. destruct (p i) eqn:E; [|done].
      specialize (Hb HK). rewrite Hb. symmetry. apply (Hp m i); [lia|done].
  - apply ensures_ret. split; [lia|]. intros _ _ Hlo Hhi. split; [|done]. intros i Hi. apply Hlo. lia.
Qed.

Lemma insertion_ensures a x n : Forall U a -> U x -> n <= length a -> forall fuel l r c,
  l <= r <= n -> r - l < fuel ->
  ensures (insertion_point lt fuel a x l r) c
    (fun k _ => l <= k <= r
       /\ (K -> forall p, (forall i y, i < n -> a !! i = Some y -> p i = negb (ltb x y)) ->
           initial p n -> (forall i, i < l -> p i = true) -> (forall i, r <= i < n -> p i = false) ->
           splits p n k))
    Stop.
Proof.
  intros Ua Ux Hn. induction fuel as [|fuel IH]; intros l r c Hr Hf; [lia|]. cbn [insertion_point].
  destruct (Nat.ltb_spec l r) as [Hlt|Hge].
  - set (m := (l + r) / 2). assert (Hm : l <= m < r).
    { unfold m. split; [apply Nat.div_le_lower_bound; lia|apply Nat.div_lt_upper_bound; lia]. }
    clearbody m.
    destruct (at_in a m ltac:(lia)) as (y & Hy & Hay).
    apply ensures_bind, (lift_ensures _ _ _ _ _ Hay), ensures_bind, ask_ensures; [done|by eapply all_lookup|]. intros [] c' Hb.
    + eapply ensures_mono; [apply (IH l m); lia| |done]. cbn. intros k _ [H1 H2]. split; [lia|].
      intros HK p Hpa Hp Hlo Hhi. apply (H2 HK p); [done..|]. intros i Hi. destruct (p i) eqn:E; [|done].
      specialize (Hp m i ltac:(lia) E). by rewrite (Hpa m y ltac:(lia) Hy), <- (Hb HK) in Hp.
    + eapply ensures_mono; [apply (IH (m + 1) r); lia| |done]. cbn. intros k _ [H1 H2]. split; [lia|].
      intros HK p Hpa Hp Hlo Hhi. apply (H2 HK p); [done..| |done]. intros i Hi. apply (Hp i m); [lia|].
      by rewrite (Hpa m y ltac:(lia) Hy), <- (Hb HK).
  - apply ensures_ret. split; [lia|]. intros _ p _ _ Hlo Hhi. split; [|intros; apply Hhi; lia].
    intros i Hi. apply Hlo. lia.
Qed.

(** [gallop] stops between an offset that answered yes and one that did not. *)
Lemma gallop_ensures probe q max_ofs : (tells probe q max_ofs) -> forall fuel last_ofs ofs c,
  last_ofs < ofs -> last_ofs < max_ofs -> max_ofs - ofs < fuel ->
  ensures (gallop fuel probe max_ofs last_ofs ofs) c
    (fun r _ => r.1 < r.2 /\ r.1 < max_ofs
       /\ (K -> (last_ofs = 0 \/ q last_ofs = true) ->
           (r.1 = 0 \/ q r.1 = true) /\ (max_ofs <= r.2 \/ q r.2 = false)))
    Stop.
Proof.
  intros Hq. induction fuel as [|fuel IH]; intros last_ofs ofs c Hlt Hmax Hf.
  - lia.
  - cbn [gallop]. destruct (Nat.ltb_spec ofs max_ofs) as [Ho|Ho].
    + apply ensures_bind, Hq; [done|]. intros [] c' Hb.
      * eapply ensures_mono; [apply IH; rewrite ?Nat.shiftl_mul_pow2, ?Nat.pow_1_r; lia| |done].
        cbn. intros r _ (H1 & H2 & H3). split_and!; [done..|]. intros HK _. apply H3; [done|]. right. symmetry. by apply Hb.
      * apply ensures_ret. cbn. split_and!; [done..|]. intros HK Hl. split; [done|]. right. symmetry. by apply Hb.
    + apply ensures_ret. cbn. split_and!; [done..|]. intros _ Hl. split; [done|]. by left.
Qed.

(** The range a gallop leaves for the binary search. *)
Definition brackets (p : nat -> bool) (n : nat) (r : nat * nat) : Prop :=
  (forall i, i < r.1 -> p i = true) /\ (forall i, r.2 <= i < n -> p i = false).

Lemma gallop_up probe p n hint c :
  hint < n -> tells probe (fun ofs => p (hint + ofs)) (n - hint) ->
  ensures (do r <- gallop (S (n - hint)) probe (n - hint) 0 1 ;;
           let '(last_ofs, ofs) := r in
           sret (hint + last_ofs + 1, hint + Nat.min ofs (n - hint))) c
    (fun r _ => r.1 <= r.2 <= n /\ (K -> initial p n -> p hint = true -> brackets p n r)) Stop.
Proof.
  intros Hh Hp. apply ensures_bind. eapply ensures_mono; [apply (gallop_ensures _ _ _ Hp); lia| |done].
  intros [l o] c' (H1 & H2 & H3). cbn in H1, H2, H3. apply ensures_ret. cbn. split; [lia|]. intros HK Hi Ht.
  destruct (H3 HK (or_introl eq_refl)) as [Hl Ho]. split; cbn; intros i Hi'.
  - apply (Hi i (hint + l)); [lia|]. destruct Hl as [->|Hl]; [by rewrite Nat.add_0_r|done].
  - destruct Ho as [Ho|Ho]; [lia|]. destruct (p i) eqn:E; [|done].
    rewrite <- Ho. symmetry. apply (Hi _ i); [lia|done].
Qed.

Lemma gallop_down probe p n hint c :
  hint < n -> tells probe (fun ofs => negb (p (hint - ofs))) (hint + 1) ->
  ensures (do r <- gallop (S (hint + 1)) probe (hint + 1) 0 1 ;;
           let '(last_ofs, ofs) := r in
           do lo <- slift (usub (hint + 1) (Nat.min ofs (hint + 1))) ;;
           do hi <- slift (usub hint last_ofs) ;;
           sret (lo, hi)) c
    (fun r _ => r.1 <= r.2 <= n /\ (K -> initial p n -> p hint = false -> brackets p n r)) Stop.
Proof.
  intros Hh Hp. apply ensures_bind. eapply ensures_mono; [apply (gallop_ensures _ _ _ Hp); lia| |done].
  intros [l o] c' (H1 & H2 & H3). cbn [fst snd] in H1, H2, H3.
  apply ensures_bind, (lift_ensures _ _ _ _ _ (usub_Ok _ _ (Nat.le_min_r _ _))).
  apply ensures_bind, (lift_ensures _ _ _ _ _ (usub_Ok hint l ltac:(lia))).
  apply ensures_ret. cbn. split; [lia|]. intros HK Hi Ht.
  destruct (H3 HK (or_introl eq_refl)) as [Hl Ho]. split; cbn [fst snd]; intros i Hi'.
  - destruct Ho as [Ho|Ho]; [lia|]. apply negb_false_iff in Ho. apply (Hi i (hint - o)); [lia|done].
  - destruct (p i) eqn:E; [|done]. assert (Hc : p (hint - l) = true) by (apply (Hi _ i); [lia|done]).
    destruct Hl as [->|Hl]; [by rewrite Nat.sub_0_r, Ht in Hc|by rewrite Hc in Hl].
Qed.

(** What a predicate says of the element at an index. *)
Definition over (p : T -> bool) (a : list T) (i : nat) : bool :=
  match a !! i with Some x => p x | None => false end.

(** A probe of an element answers for its index. *)
Lemma tells_over (m : T -> M C sort_error bool) (p : T -> bool) a :
  Forall U a ->
  (forall x c Q, U x -> (forall b c', (K -> b = p x) -> Q b c') -> ensures (m x) c Q Stop) ->
  tells (fun i => do x <- slift (at_ a i) ;; m x) (over p a) (length a).
Proof.
  intros Ua Hm i c Q Hi HQ. destruct (at_in a i Hi) as (x & Hx & Hax).
  apply ensures_bind, (lift_ensures _ _ _ _ _ Hax), Hm; [by eapply all_lookup|]. intros b c' Hb. apply HQ. unfold over. by rewrite Hx.
Qed.

Lemma tells_not m p n : tells m p n -> tells (fun i => do b <- m i ;; sret (negb b)) (fun i => negb (p i)) n.
Proof.
  intros Hm i c Q Hi HQ. apply ensures_bind, Hm; [done|]. intros b c' Hb. apply ensures_ret, HQ.
  intros HK. by rewrite Hb.
Qed.

Lemma tells_shift m p n (f : nat -> nat) n' :
  tells m p n -> (forall i, i < n' -> f i < n) -> tells (fun i => m (f i)) (fun i => p (f i)) n'.
Proof. intros Hm Hf i c Q Hi HQ. apply Hm; auto. Qed.

Lemma tells_below m p hint n' :
  tells (fun i => m (hint - i)) p n' -> n' <= hint + 1 ->
  tells (fun ofs => do i <- slift (usub hint ofs) ;; m i) p n'.
Proof.
  intros Hm Hn i c Q Hi HQ. apply ensures_bind, (lift_ensures _ _ _ _ _ (usub_Ok hint i ltac:(lia))).
  by apply Hm.
Qed.

Lemma tells_ext m p q n : tells m p n -> (forall i, i < n -> p i = q i) -> tells m q n.
Proof. intros Hm He i c Q Hi HQ. apply Hm; [done|]. rewrite He by done. done. Qed.

Lemma gallop_left_ensures key a hint c :
  Forall U a -> U key -> hint < length a ->
  ensures (gallop_left lt key a hint) c
    (fun k _ => k <= length a
       /\ (K -> initial (over (fun x => ltb x key) a) (length a) ->
           splits (over (fun x => ltb x key) a) (length a) k)) Stop.
Proof.
  intros Ua Uk Hh. set (p := over (fun x => ltb x key) a).
  assert (Hless : tells (fun i => do x <- slift (at_ a i) ;; ask lt x key) p (length a)).
  { apply (tells_over (fun x => ask lt x key)); [done|]. intros x c0 Q Ux. by apply ask_ensures. }
  unfold gallop_left. apply ensures_bind, Hless; [done|]. intros here c1 Hhere.
  apply ensures_bind.
  apply (ensures_mono _ _ (fun r _ => r.1 <= r.2 <= length a /\ (K -> initial p (length a) -> brackets p (length a) r))
           _ Stop).
  - destruct here.
    + apply ensures_bind, (lift_ensures _ _ _ _ _ (usub_Ok (length a) hint ltac:(lia))).
      eapply ensures_mono; [apply (gallop_up _ p)| |done]; [done| |].
      * apply (tells_shift (fun i => do x <- slift (at_ a i) ;; ask lt x key) p (length a) (fun ofs => hint + ofs)); [done|]. intros; lia.
      * intros r _ [H1 H2]. split; [done|]. intros HK Hi. apply H2; auto. by rewrite <- Hhere.
    + eapply ensures_mono; [apply (gallop_down _ p)| |done]; [done| |].
      * apply tells_below; [|lia]. apply (tells_not (fun ofs => do x <- slift (at_ a (hint - ofs)) ;; ask lt x key) (fun i => p (hint - i))).
        apply (tells_shift (fun i => do x <- slift (at_ a i) ;; ask lt x key) p (length a) (fun ofs => hint - ofs)); [done|]. intros; lia.
      * intros r _ [H1 H2]. split; [done|]. intros HK Hi. apply H2; auto. by rewrite <- Hhere.
  - intros [lo hi] c2 [H1 H2]. cbn [fst snd] in *.
    eapply ensures_mono; [apply (bisect_ensures _ p _ Hless); lia| |done].
    intros k _ [Hk Hs]. cbn in Hk. split; [lia|]. intros HK Hi. destruct (H2 HK Hi). by apply Hs.
  - done.
Qed.

Lemma gallop_right_ensures key a hint c :
  Forall U a -> U key -> hint < length a ->
  ensures (gallop_right lt key a hint) c
    (fun k _ => k <= length a
       /\ (K -> initial (fun i => negb (over (ltb key) a i)) (length a) ->
           splits (fun i => negb (over (ltb key) a i)) (length a) k)) Stop.
Proof.
  intros Ua Uk Hh. set (g := over (ltb key) a). set (p := fun i => negb (g i)).
  assert (Hg : tells (fun i => do x <- slift (at_ a i) ;; ask lt key x) g (length a)).
  { apply (tells_over (fun x => ask lt key x)); [done|]. intros x c0 Q Ux. by apply ask_ensures. }
  unfold gallop_right. apply ensures_bind, Hg; [done|]. intros here c1 Hhere.
  apply ensures_bind.
  apply (ensures_mono _ _ (fun r _ => r.1 <= r.2 <= length a /\ (K -> initial p (length a) -> brackets p (length a) r))
           _ Stop).
  - destruct here.
    + eapply ensures_mono; [apply (gallop_down _ p)| |done]; [done| |].
      * apply tells_below; [|lia]. apply (tells_ext _ (fun i => g (hint - i)));
          [|unfold p; intros; by rewrite negb_involutive].
        apply (tells_shift (fun i => do x <- slift (at_ a i) ;; ask lt key x) g (length a) (fun ofs => hint - ofs)); [done|]. intros; lia.
      * intros r _ [H1 H2]. split; [done|]. intros HK Hi. apply H2; auto. unfold p. by rewrite <- Hhere.
    + apply ensures_bind, (lift_ensures _ _ _ _ _ (usub_Ok (length a) hint ltac:(lia))).
      eapply ensures_mono; [apply (gallop_up _ p)| |done]; [done| |].
      * apply (tells_not (fun ofs => do x <- slift (at_ a (hint + ofs)) ;; ask lt key x) (fun ofs => g (hint + ofs))).
        apply (tells_shift (fun i => do x <- slift (at_ a i) ;; ask lt key x) g (length a) (fun ofs => hint + ofs)); [done|]. intros; lia.
      * intros r _ [H1 H2]. split; [done|]. intros HK Hi. apply H2; auto. unfold p. by rewrite <- Hhere.
  - intros [lo hi] c2 [H1 H2]. cbn [fst snd] in *.
    eapply ensures_mono; [apply (bisect_ensures _ p _ (tells_not _ _ _ Hg)); lia| |done].
    intros k _ [Hk Hs]. cbn in Hk. split; [lia|]. intros HK Hi. destruct (H2 HK Hi). by apply Hs.
  - done.
Qed.
End Search.

(** Renaming the elements: [sort_short] sees the elements of a slice only through the
    comparison, so it does to a slice of values what it does to their positions. *)

Definition rmap {A B E} (f : A -> B) (r : result A E) : result B E :=
  match r with Ok a => Ok (f a) | Err e => Err e end.

Section Map.
Context {T T' C : Type} (f : T -> T') (lt : T' -> T' -> C -> option bool * C).

Abbreviation lt_f := (fun x y => lt (f x) (f y)).

Lemma at_map (a : list T) i : at_ (map f a) i = rmap f (at_ a i).
Proof. unfold at_. change (map f a) with (f <$> a). rewrite list_lookup_fmap. by destruct (a !! i). Qed.

Lemma slice_map (a : list T) i j : slice (map f a) i j = rmap (map f) (slice a i j).
Proof. unfold slice. rewrite length_map, skipn_map, firstn_map. by destruct (_ && _). Qed.

Lemma store_map i xs (a : list T) : store i (map f xs) (map f a) = rmap (map f) (store i xs a).
Proof.
  unfold store. rewrite !length_map, skipn_map, firstn_map. destruct (_ <=? _); [|done]. cbn. by rewrite !map_app.
Qed.

Lemma reverse_range_map i j (a : list T) : reverse_range i j (map f a) = rmap (map f) (reverse_range i j a).
Proof.
  unfold reverse_range. rewrite slice_map. destruct (slice a i j); [|done]. cbn. by rewrite <- map_rev, store_map.
Qed.

Lemma rotate_right_map l ok (a : list T) : rotate_right l ok (map f a) = rmap (map f) (rotate_right l ok a).
Proof.
  unfold rotate_right. rewrite slice_map. destruct (slice a l (ok + 1)) as [xs|]; [|done]. cbn.
  rewrite <- map_rev. destruct (rev xs) as [|x ys]; [done|]. cbn. rewrite <- map_rev. apply (store_map l (x :: rev ys)).
Qed.

Definition map_slice (s : list T * C) : list T' * C := (map f s.1, s.2).

(** [m'] does on the renamed slice what [m] does on the slice. *)
Definition renamed {A} (m' : M (list T' * C) sort_error A) (m : M (list T * C) sort_error A) : Prop :=
  forall s, m' (map_slice s) = (fun p => (p.1, map_slice p.2)) (m s).

Lemma renamed_ret {A} (a : A) : renamed (sret a) (sret a).
Proof. done. Qed.
Lemma renamed_fail {A} e : renamed (sfail (A := A) e) (sfail e).
Proof. done. Qed.
Lemma renamed_lift {A} (r : result A sort_error) : renamed (slift r) (slift r).
Proof. done. Qed.

Lemma renamed_bind {A B} m' m (k' : A -> M _ sort_error B) k :
  renamed m' m -> (forall a, renamed (k' a) (k a)) -> renamed (sbind m' k') (sbind m k).
Proof. intros Hm Hk s. unfold sbind. rewrite Hm. destruct (m s) as [[a|e] s']; cbn; [apply Hk|done]. Qed.

Lemma renamed_get {B} (k' : list T' * C -> M _ sort_error B) k :
  (forall s, renamed (k' (map_slice s)) (k s)) -> renamed (do s <- sget ;; k' s) (do s <- sget ;; k s).
Proof. intros Hk s. apply Hk. Qed.

Lemma renamed_at {B} a i (k' : T' -> M _ sort_error B) k :
  (forall x, renamed (k' (f x)) (k x)) ->
  renamed (do x <- slift (at_ (map f a) i) ;; k' x) (do x <- slift (at_ a i) ;; k x).
Proof. intros Hk s. rewrite at_map. unfold sbind, slift. destruct (at_ a i); cbn; [apply Hk|done]. Qed.

Lemma renamed_slice {A} (m' m : M C sort_error A) : (forall c, m' c = m c) -> renamed (on_slice m') (on_slice m).
Proof. intros Hm [a c]. unfold on_slice, lift_c. cbn. rewrite Hm. by destruct (m c). Qed.

Lemma renamed_change g' g : (forall a, g' (map f a) = rmap (map f) (g a)) -> renamed (change g') (change g).
Proof. intros Hg [a c]. unfold change. cbn. rewrite Hg. by destruct (g a). Qed.

Lemma ask_map x y c : ask lt (f x) (f y) c = ask lt_f x y c.
Proof. done. Qed.

Lemma at_bind {B} a i (k' : T' -> M C sort_error B) k c :
  (forall x c, k' (f x) c = k x c) ->
  (do x <- slift (at_ (map f a) i) ;; k' x) c = (do x <- slift (at_ a i) ;; k x) c.
Proof. intros Hk. rewrite at_map. unfold sbind, slift. destruct (at_ a i); cbn; [apply Hk|done]. Qed.

Lemma ascend_map fuel (a : list T) : forall n c, ascend lt fuel (map f a) n c = ascend lt_f fuel a n c.
Proof.
  induction fuel as [|fuel IH]; intros n c; [done|]. cbn [ascend]. rewrite length_map. destruct (n <? length a); [|done].
  apply at_bind. intros x c1. apply sbind_ext; [done|]. intros p c2. apply at_bind. intros y c3.
  apply sbind_ext; [apply ask_map|]. intros [] c4; [done|apply IH].
Qed.

Lemma insertion_point_map fuel (a : list T) x : forall l r c,
  insertion_point lt fuel (map f a) (f x) l r c = insertion_point lt_f fuel a x l r c.
Proof.
  induction fuel as [|fuel IH]; intros l r c; [done|]. cbn [insertion_point]. destruct (l <? r); [|done].
  apply at_bind. intros y c1. apply sbind_ext; [apply ask_map|]. intros [] c2; apply IH.
Qed.

Lemma reverse_last_equal_map n neq : renamed (reverse_last_equal n neq) (reverse_last_equal n neq).
Proof.
  unfold reverse_last_equal. destruct (0 <? neq); [|apply renamed_ret].
  apply renamed_bind; [apply renamed_lift|]. intros i. apply renamed_change. apply reverse_range_map.
Qed.

Lemma descend_map fuel : forall n neq, renamed (descend lt fuel n neq) (descend lt_f fuel n neq).
Proof.
  induction fuel as [|fuel IH]; intros n neq; [apply renamed_fail|]. cbn [descend]. apply renamed_get. intros s.
  cbn [map_slice fst]. rewrite length_map. destruct (n <? length s.1); [|apply renamed_ret].
  apply renamed_at. intros x. apply renamed_bind; [apply renamed_lift|]. intros p. apply renamed_at. intros y.
  apply renamed_bind; [apply renamed_slice, ask_map|]. intros [].
  - apply renamed_bind; [apply reverse_last_equal_map|]. intros _. apply IH.
  - apply renamed_bind; [apply renamed_slice, ask_map|]. intros []; [apply renamed_ret|apply IH].
Qed.

Lemma count_descending_map n : renamed (count_descending lt n) (count_descending lt_f n).
Proof.
  unfold count_descending. apply renamed_get. intros s. cbn [map_slice fst]. rewrite length_map.
  apply renamed_bind; [apply descend_map|]. intros [m neq].
  apply renamed_bind; [apply reverse_last_equal_map|]. intros _.
  apply renamed_bind; [apply renamed_change, reverse_range_map|]. intros _.
  apply renamed_get. intros s'. cbn [map_slice fst]. apply renamed_slice, ascend_map.
Qed.

Lemma count_run_map : renamed (count_run lt) (count_run lt_f).
Proof.
  unfold count_run. apply renamed_get. intros s. cbn [map_slice fst]. rewrite length_map.
  apply renamed_bind; [apply renamed_slice, ascend_map|]. intros n.
  destruct (n =? length s.1); [apply renamed_ret|]. destruct (1 <? n); [|apply count_descending_map].
  apply renamed_at. intros x. apply renamed_bind; [apply renamed_lift|]. intros p. apply renamed_at. intros y.
  apply renamed_bind; [apply renamed_slice, ask_map|]. intros []; [apply renamed_ret|].
  apply renamed_bind; [apply renamed_change, reverse_range_map|]. intros _. apply count_descending_map.
Qed.

Lemma insertions_map n : forall ok, renamed (insertions lt n ok) (insertions lt_f n ok).
Proof.
  induction n as [|n IH]; intros ok; [apply renamed_ret|]. cbn [insertions]. apply renamed_get. intros s.
  cbn [map_slice fst]. apply renamed_at. intros x.
  apply renamed_bind; [apply renamed_slice, insertion_point_map|]. intros l.
  apply renamed_bind; [apply renamed_change, rotate_right_map|]. intros _. apply IH.
Qed.

Lemma sort_short_map : renamed (sort_short lt) (sort_short lt_f).
Proof.
  unfold sort_short. apply renamed_get. intros s. cbn [map_slice fst]. rewrite length_map.
  destruct (length s.1 <? 2); [apply renamed_ret|]. apply renamed_bind; [apply count_run_map|]. intros n.
  destruct (n <? length s.1); [|apply renamed_ret]. unfold binary_sort. apply renamed_get. intros s'.
  cbn [map_slice fst]. rewrite length_map. apply insertions_map.
Qed.
End Map.
