(* ===== verification/TimsortRuns.v ===== *)
(** Natural runs and binary insertion: [count_run], [binary_sort] and [sort_short]
    permute their slice whatever the comparison answers, never panic, and sort stably
    under a strict weak order. *)
From S2P Require Import Prelude Timsort TimsortOrder.
From stdpp Require Import sorting.
Local Open Scope monty_scope.

Section Runs.
Context {T C : Type} (lt : T -> T -> C -> option bool * C) (ltb : T -> T -> bool) (K : Prop).
Context (U : T -> Prop) (answers : forall x y c b c', U x -> U y -> lt x y c = (Some b, c') -> K -> b = ltb x y).
Context (Stop : sort_error -> C -> Prop).
Context (stopped : forall x y c c', U x -> U y -> lt x y c = (None, c') -> Stop SortAborted c').
Context (pos : T -> nat) (SWK : K -> StrictWeak ltb).

Abbreviation bef := (before ltb pos).
Abbreviation ear := (earlier pos).

(** ** Steps on a slice *)

Lemma on_slice_ensures {A} (m : M C sort_error A) a c Q R :
  ensures m c (fun x c' => Q x (a, c')) (fun e c' => R e (a, c')) ->
  ensures (on_slice (T := T) m) (a, c) Q R.
Proof. unfold ensures, on_slice, lift_c. cbn. by destruct (m c) as [[x|e] c']. Qed.

Lemma change_ensures f (a a' : list T) (c : C) Q R :
  f a = Ok a' -> Q tt (a', c) -> ensures (change f) (a, c) Q R.
Proof. unfold ensures, change. cbn. by intros ->. Qed.

(** The sort may stop anywhere, with a permutation of the slice. *)
Definition stops (a : list T) (e : sort_error) (s : list T * C) : Prop := Stop e s.2 /\ s.1 ≡ₚ a.

Lemma perm_all a a0 x : a ≡ₚ a0 -> Forall U a0 -> x ∈ a -> U x.
Proof. intros Hp Ha Hx. rewrite Forall_forall in Ha. apply Ha. by rewrite <- Hp. Qed.

Lemma ask_slice x y a c a0 Q :
  Forall U a0 -> a ≡ₚ a0 -> x ∈ a -> y ∈ a -> (forall b c', (K -> b = ltb x y) -> Q b (a, c')) ->
  ensures (on_slice (ask lt x y)) (a, c) Q (stops a0).
Proof.
  intros Ua Hp Hx Hy HQ. apply on_slice_ensures.
  apply (ensures_mono _ _ (fun b _ => K -> b = ltb x y) _ Stop); [|done|done].
  by apply (ask_ensures lt ltb K U answers Stop stopped); [by eapply perm_all..|].
Qed.

Lemma search_slice {A} (m : M C sort_error A) a c a0 (P : A -> Prop) Q :
  a ≡ₚ a0 -> ensures m c (fun x _ => P x) Stop -> (forall x c', P x -> Q x (a, c')) ->
  ensures (on_slice m) (a, c) Q (stops a0).
Proof.
  intros Hp Hm HQ. apply on_slice_ensures. eapply ensures_mono; [exact Hm| |].
  - intros x c' Hx. by apply HQ.
  - done.
Qed.

(** ** Ascending runs *)

(** A sorted prefix with ascending neighbours after it is longer sorted. *)
Lemma extend_ascending S Y Z :
  K -> S <> [] -> StronglySorted bef S -> (forall x y, x ∈ S -> y ∈ Y -> ear x y) -> StronglySorted ear Y ->
  (forall i x y, length S <= i < length S + length Y -> (S ++ Y ++ Z) !! (i - 1) = Some x ->
     (S ++ Y ++ Z) !! i = Some y -> ltb y x = false) ->
  StronglySorted bef (S ++ Y).
Proof.
  intros HK. specialize (SWK HK). revert S. induction Y as [|y Y IH]; intros S Hne Hs He Hy Ha.
  - by rewrite app_nil_r.
  - apply StronglySorted_inv in Hy as [Hy Hyf]. rewrite Forall_forall in Hyf.
    destruct (exists_last Hne) as (S0 & z & ->).
    assert (Hz : ltb y z = false).
    { apply (Ha (length (S0 ++ [z])) z y); rewrite ?length_app; cbn; [lia| |].
      - rewrite <- app_assoc. replace (_ - 1) with (length S0) by lia. by apply list_lookup_middle.
      - rewrite <- (app_assoc S0), (app_assoc S0 [z]). apply list_lookup_middle. rewrite length_app. done. }
    change (y :: Y) with ([y] ++ Y) in *. rewrite (app_assoc _ [y]). apply IH; try done.
    + by destruct S0.
    + apply sorted_snoc. split; [done|]. intros x Hx. right. split; [|apply He; [done|by left]].
      apply elem_of_app in Hx as [Hx| ->%list_elem_of_singleton]; [|done].
      apply sorted_snoc in Hs as [_ Hs]. eapply (sw_trans _ SWK); [|exact Hz]. by eapply before_le, Hs.
    + intros a b [Ha' | ->%list_elem_of_singleton] % elem_of_app Hb; [apply He; [done|by right]|by apply Hyf].
    + intros i a b Hi. rewrite <- !(app_assoc _ [y]). apply Ha. rewrite length_app in Hi. cbn in *. lia.
Qed.

(** ** Descending runs *)

(** [P] descends strictly by groups of equals, [G] is the last group, still in its
    original order, and [R] is not visited yet. *)
Record descending (P G R : list T) : Prop := {
  d_sorted : StronglySorted bef (rev P);
  d_order : StronglySorted ear (G ++ R);
  d_equal : forall x y, x ∈ G -> y ∈ G -> ltb x y = false;
  d_less : forall x y, x ∈ G -> y ∈ P -> ltb x y = true }.

Lemma descending_run P G R : K -> descending P G R -> StronglySorted bef (G ++ rev P).
Proof.
  intros HK [H1 H2 H3 H4]. apply sorted_app in H2 as (H2 & _ & _). apply sorted_app. repeat split; [|done|].
  - clear - H2 H3. induction G as [|g G IH]; [constructor|]. apply StronglySorted_inv in H2 as [H2 Hf].
    constructor; [apply IH; [done|]; intros x y Hx Hy; apply H3; by right|].
    rewrite Forall_forall in *. intros y Hy. right. split; [|by apply Hf]. apply H3; [by right|by left].
  - intros x y Hx Hy. left. apply H4; [done|]. by rewrite Permutation_rev.
Qed.

Lemma descending_next P G y x R :
  K -> descending P (G ++ [y]) (x :: R) -> ltb x y = true -> descending (P ++ rev (G ++ [y])) [x] R.
Proof.
  intros HK Hd Hlt. pose proof (descending_run _ _ _ HK Hd) as Hs. specialize (SWK HK). destruct Hd as [H1 H2 H3 H4].
  apply sorted_app in H2 as (_ & H2 & _). split.
  - by rewrite rev_app_distr, rev_involutive.
  - done.
  - intros a b ->%list_elem_of_singleton ->%list_elem_of_singleton. by apply lt_irrefl.
  - intros a b ->%list_elem_of_singleton Hb.
    assert (Hle : ltb b y = false).
    { apply elem_of_app in Hb as [Hb|Hb].
      - apply (sw_asym _ SWK), H4; [|done]. apply elem_of_app. right. by left.
      - rewrite <- Permutation_rev in Hb. apply H3; [done|]. apply elem_of_app. right. by left. }
    by eapply lt_le_trans.
Qed.

Lemma descending_equal P G y x R :
  K -> descending P (G ++ [y]) (x :: R) -> ltb x y = false -> ltb y x = false ->
  descending P ((G ++ [y]) ++ [x]) R.
Proof.
  intros HK [H1 H2 H3 H4] Hxy Hyx. specialize (SWK HK).
  assert (Hy : y ∈ G ++ [y]) by (apply elem_of_app; right; by left). split.
  - done.
  - by rewrite <- app_assoc.
  - assert (Hx : forall a, a ∈ G ++ [y] -> ltb x a = false /\ ltb a x = false).
    { intros a Ha. split; apply (sw_trans _ SWK _ y); auto. }
    intros a b [Ha| ->%list_elem_of_singleton]%elem_of_app [Hb| ->%list_elem_of_singleton]%elem_of_app;
      [by apply H3|by apply Hx|by apply Hx|by apply lt_irrefl].
  - intros a b [Ha| ->%list_elem_of_singleton]%elem_of_app Hb; [by apply H4|].
    eapply (le_lt_trans _ SWK); [|by apply H4]. done.
Qed.

Lemma reverse_last_equal_ensures (P G R : list T) (c : C) n neq Q Rr :
  n = length P + length G -> length G = neq + 1 -> Q tt (P ++ rev G ++ R, c) ->
  ensures (reverse_last_equal n neq) (P ++ G ++ R, c) Q Rr.
Proof.
  intros -> Hg HQ. unfold reverse_last_equal. destruct (Nat.ltb_spec 0 neq) as [Hpos|Hz].
  - apply ensures_bind, usub_ensures; [lia|].
    apply (change_ensures _ _ (P ++ rev G ++ R)); [|done]. unfold reverse_range.
    rewrite (slice_mid P G R) by lia. cbn [rbind]. apply store_mid; [lia|]. by rewrite length_rev.
  - destruct G as [|g [|g' G]]; cbn in *; [lia| |lia]. done.
Qed.

Lemma descend_ensures a0 : Forall U a0 -> forall fuel P G R c neq,
  length G = neq + 1 -> length R < fuel -> P ++ G ++ R ≡ₚ a0 -> (K -> descending P G R) ->
  ensures (descend lt fuel (length P + length G) neq) (P ++ G ++ R, c)
    (fun r s => exists P' G' X R', s.1 = P' ++ G' ++ R' /\ r.1 = length P' + length G' /\ length G' = r.2 + 1
       /\ R = X ++ R' /\ P' ++ G' ≡ₚ P ++ G ++ X /\ (K -> descending P' G' R'))
    (stops a0).
Proof.
  intros Ua. induction fuel as [|fuel IH]; intros P G R c neq Hg Hf Hp HD; [lia|]. cbn [descend].
  apply ensures_bind, ensures_get. cbn [fst]. rewrite !length_app.
  destruct R as [|x R].
  - rewrite (proj2 (Nat.ltb_ge _ _)) by (cbn; lia). apply ensures_ret. exists P, G, [], []. cbn.
    rewrite !app_nil_r. by split_and!.
  - rewrite (proj2 (Nat.ltb_lt _ _)) by (cbn; lia).
    destruct (exists_last (l := G)) as (G0 & y & ->); [by destruct G; cbn in *; [lia|]|].
    rewrite length_app in *. cbn [length] in *.
    apply ensures_bind, (lift_ensures _ x).
    { rewrite app_assoc. apply at_mid. rewrite !length_app. done. }
    apply ensures_bind, usub_ensures; [lia|].
    apply ensures_bind, (lift_ensures _ y).
    { rewrite <- (app_assoc G0), (app_assoc P). apply at_mid. rewrite length_app. lia. }
    apply ensures_bind, ask_slice; [done|done|set_solver|set_solver|]. intros [] c1 Hb1.
    + apply ensures_bind, (reverse_last_equal_ensures P (G0 ++ [y]) (x :: R));
        [rewrite length_app; cbn; lia|rewrite length_app; cbn; lia|].
      specialize (IH (P ++ rev (G0 ++ [y])) [x] R c1 0).
      replace (length P + (length G0 + 1) + 1) with (length (P ++ rev (G0 ++ [y])) + length [x])
        by (rewrite length_app, length_rev, length_app; cbn; lia).
      rewrite <- app_assoc in IH. cbn [app] in IH |- *.
      eapply ensures_mono; [apply IH| |done]; [done|cbn in *; lia| |intros HK; apply descending_next; [done|by apply HD|by rewrite <- Hb1]|].
      * rewrite <- Hp. f_equiv. rewrite <- (Permutation_rev (G0 ++ [y])). done.
      * intros r s (P' & G' & X & R' & H1 & H2 & H3 & H4 & H5 & H6).
        exists P', G', (x :: X), R'. split_and!; try done; [by rewrite H4|].
        rewrite H5, <- app_assoc, <- (Permutation_rev (G0 ++ [y])). done.
    + apply ensures_bind, ask_slice; [done|done|set_solver|set_solver|]. intros [] c2 Hb2.
      * apply ensures_ret. exists P, (G0 ++ [y]), [], (x :: R). cbn.
        rewrite length_app, !app_nil_r. cbn. by split_and!.
      * specialize (IH P ((G0 ++ [y]) ++ [x]) R c2 (neq + 1)).
        replace (length P + (length G0 + 1) + 1) with (length P + length ((G0 ++ [y]) ++ [x]))
          by (rewrite !length_app; cbn; lia).
        rewrite <- (app_assoc (G0 ++ [y]) [x] R) in IH. cbn [app] in IH |- *.
        eapply ensures_mono; [apply IH| |done];
          [rewrite !length_app; cbn; lia|cbn in *; lia|done|intros HK; apply descending_equal; [done|by apply HD|by rewrite <- Hb1|by rewrite <- Hb2]|].
        intros r s (P' & G' & X & R' & H1 & H2 & H3 & H4 & H5 & H6).
        exists P', G', (x :: X), R'. split_and!; try done; [by rewrite H4|].
        by rewrite H5, <- !app_assoc.
Qed.

(** ** Runs *)

(** [S] is extended by [Y], up to a descent into [Z]. *)
Record ascended (S Y Z : list T) : Prop := {
  asc_sorted : StronglySorted bef S -> (forall x y, x ∈ S -> y ∈ Y ++ Z -> ear x y) ->
    StronglySorted ear (Y ++ Z) -> StronglySorted bef (S ++ Y);
  asc_stop : forall l y x Z', S ++ Y = l ++ [y] -> Z = x :: Z' -> ltb x y = true }.

Lemma ascend_run S R c a0 fuel Q :
  Forall U a0 -> S <> [] -> S ++ R ≡ₚ a0 -> length R < fuel ->
  (forall Y Z c', R = Y ++ Z -> (K -> ascended S Y Z) -> Q (length S + length Y) (S ++ R, c')) ->
  ensures (on_slice (ascend lt fuel (S ++ R) (length S))) (S ++ R, c) Q (stops a0).
Proof.
  intros Ua Hne Hp Hf HQ. assert (1 <= length S) by (destruct S; cbn; [done|lia]).
  eapply (search_slice _ _ _ _ _ _ Hp (ascend_ensures lt ltb K U answers Stop stopped (S ++ R)
    ltac:(by rewrite Hp) fuel (length S) c ltac:(rewrite length_app; lia) ltac:(rewrite length_app; lia))).
  intros n c' (Hn & Hasc & Hstop). rewrite length_app in Hn.
  replace n with (length S + length (take (n - length S) R)) by (rewrite length_take; lia).
  assert (HR : R = take (n - length S) R ++ drop (n - length S) R) by by rewrite take_drop.
  apply (HQ _ (drop (n - length S) R) c' HR). intros HK.
  assert (Hl : length (take (n - length S) R) = n - length S) by (rewrite length_take; lia).
  split.
  - intros Hs He Ho. apply sorted_app in Ho as (Ho & _).
    apply (extend_ascending _ _ (drop (n - length S) R)); try done.
    + intros x y Hx Hy. apply He; [done|]. apply elem_of_app. by left.
    + rewrite take_drop. intros i x y Hi. apply (Hasc HK). lia.
  - intros l y x Z' Hly HZ. assert (Hlen : length l + 1 = n).
    { apply (f_equal length) in Hly. rewrite !length_app, Hl in Hly. cbn in Hly. lia. }
    apply (Hstop HK); rewrite HR, HZ, app_assoc, Hly, <- app_assoc.
    + replace (n - 1) with (length l) by lia. by apply list_lookup_middle.
    + rewrite app_assoc. apply list_lookup_middle. rewrite length_app. cbn. lia.
Qed.

(** What a run leaves: [D], a permutation of the elements [O] it took, sorted, and the
    rest as it was. *)
Definition run_taken (a : list T) (n : nat) (s : list T * C) : Prop :=
  exists D O R, D <> [] /\ s.1 = D ++ R /\ n = length D /\ a = O ++ R /\ D ≡ₚ O
    /\ (K -> StronglySorted ear a -> StronglySorted bef D).

Lemma count_descending_ensures P x R c a O :
  Forall U a -> P <> [] -> a = O ++ x :: R -> P ≡ₚ O ->
  (K -> StronglySorted ear a -> StronglySorted bef (rev P) /\ forall y, y ∈ P -> ltb x y = true) ->
  (K -> StronglySorted ear a) ->
  ensures (count_descending lt (length P)) (P ++ x :: R, c) (run_taken a) (stops a).
Proof.
  intros Ua Hne Ha HPO HD Hord. unfold count_descending.
  assert (Hperm : P ++ [x] ++ R ≡ₚ a) by (by rewrite Ha, HPO).
  apply ensures_bind, ensures_get. cbn [fst]. apply ensures_bind.
  change (length P + 1) with (length P + length [x]).
  eapply ensures_mono; [apply (descend_ensures a Ua _ P [x] R c 0)| |done]; try done.
  { rewrite length_app. cbn. lia. }
  { intros HK. specialize (Hord HK). destruct (HD HK Hord) as [H1 H2]. specialize (SWK HK).
    rewrite Ha in Hord. apply sorted_app in Hord as (_ & Hord & _).
    split; [done|done|..]; [intros ? ? ->%list_elem_of_singleton ->%list_elem_of_singleton; by apply lt_irrefl|].
    intros ? y ->%list_elem_of_singleton. apply H2. }
  intros [n neq] [l c1] (P' & G & X & R' & Hl & Hn & Hg & HR & HP & HD'). cbn [fst snd] in *. subst l.
  apply ensures_bind, (reverse_last_equal_ensures P' G R'); [done|done|].
  apply ensures_bind, (change_ensures _ _ ((G ++ rev P') ++ R')).
  { unfold reverse_range. rewrite app_assoc. rewrite (slice_mid [] (P' ++ rev G) R');
      [|done|rewrite length_app, length_rev; cbn; lia]. cbn [rbind].
    rewrite (store_mid [] (rev (P' ++ rev G)) (P' ++ rev G) R'); [|done|by rewrite length_rev].
    by rewrite rev_app_distr, rev_involutive. }
  apply ensures_bind, ensures_get. cbn [fst].
  assert (HS : G ++ rev P' ≡ₚ O ++ x :: X) by (rewrite <- Permutation_rev, Permutation_app_comm, HP, <- HPO; done).
  assert (HaX : a = (O ++ x :: X) ++ R') by (by rewrite Ha, HR, <- app_assoc).
  replace n with (length (G ++ rev P')) by (rewrite length_app, length_rev; lia).
  apply ascend_run.
  - done.
  - destruct G; cbn in *; [lia|done].
  - by rewrite HS, <- HaX.
  - rewrite length_app. cbn. rewrite HR, length_app. lia.
  - intros Y Z c2 HR' Hasc. exists ((G ++ rev P') ++ Y), ((O ++ x :: X) ++ Y), Z.
    rewrite HR' in *. split_and!; [destruct G; [cbn in Hg; lia|done]|cbn; by rewrite (app_assoc _ Y Z)|by rewrite (length_app _ Y)
      |by rewrite HaX, (app_assoc _ Y Z)|by rewrite HS|].
    intros HK Hs. rewrite HaX in Hs. apply sorted_app in Hs as (_ & Hs & Hc). apply (asc_sorted _ _ _ (Hasc HK)).
    + by eapply descending_run, HD'.
    + intros u v Hu Hv. apply Hc; [|done]. by rewrite <- HS.
    + done.
Qed.

Lemma count_run_ensures a c :
  Forall U a -> a <> [] -> (K -> StronglySorted ear a) -> ensures (count_run lt) (a, c) (run_taken a) (stops a).
Proof.
  intros Ua Hne Hord. destruct a as [|x0 a]; [done|]. unfold count_run.
  apply ensures_bind, ensures_get. cbn [fst]. apply ensures_bind.
  change (x0 :: a) with ([x0] ++ a). apply (ascend_run [x0]); [done|done|done|rewrite length_app; cbn; lia|].
  intros Y Z c1 Ha Hasc. change (length [x0]) with 1.
  assert (Hsort : K -> StronglySorted bef ([x0] ++ Y)).
  { intros HK. specialize (Hord HK). rewrite Ha in Hord. change (x0 :: Y ++ Z) with ([x0] ++ Y ++ Z) in Hord.
    apply sorted_app in Hord as (_ & H1 & H2). apply (asc_sorted _ _ _ (Hasc HK)); auto with monty. }
  destruct Z as [|x Z].
  { rewrite app_nil_r in Ha. subst Y. rewrite (proj2 (Nat.eqb_eq _ _)) by done. apply ensures_ret.
    exists ([x0] ++ a), ([x0] ++ a), []. rewrite !app_nil_r. split_and!; auto. }
  assert (Hall : [x0] ++ a = ([x0] ++ Y) ++ x :: Z) by (by rewrite Ha, <- app_assoc).
  rewrite (proj2 (Nat.eqb_neq _ _)) by (rewrite Hall, length_app; cbn; lia).
  destruct (exists_last (l := [x0] ++ Y)) as (l & y & Hly); [done|].
  assert (Hlen : 1 + length Y = length l + 1).
  { apply (f_equal length) in Hly. rewrite !length_app in Hly. cbn in *. lia. }
  destruct (Nat.ltb_spec 1 (1 + length Y)) as [H1|H1].
  - apply ensures_bind, (lift_ensures _ x0); [done|].
    apply ensures_bind, usub_ensures; [lia|]. apply ensures_bind, (lift_ensures _ y).
    { rewrite Hall, Hly, <- app_assoc. apply at_mid. lia. }
    apply ensures_bind, ask_slice; [done|done|by left|rewrite Hall, Hly; set_solver|]. intros [] c2 Hrose.
    + apply ensures_ret. exists ([x0] ++ Y), ([x0] ++ Y), (x :: Z). cbn [fst]. split_and!; auto.
    + apply ensures_bind, (change_ensures _ _ (rev ([x0] ++ Y) ++ x :: Z)).
      { unfold reverse_range. rewrite Hall. rewrite (slice_mid [] ([x0] ++ Y) (x :: Z)) by done. cbn [rbind].
        rewrite (store_mid [] (rev ([x0] ++ Y)) ([x0] ++ Y) (x :: Z)); [done..|by rewrite length_rev]. }
      replace (1 + length Y) with (length (rev ([x0] ++ Y))) by (by rewrite length_rev).
      apply (count_descending_ensures _ _ _ _ _ ([x0] ++ Y)); [done| |done|by rewrite <- Permutation_rev| |done].
      * intros Hr. apply (f_equal length) in Hr. rewrite length_rev in Hr. done.
      * intros HK _. rewrite rev_involutive. split; [by apply Hsort|]. intros z Hz.
        rewrite <- Permutation_rev in Hz. specialize (Hsort HK). specialize (SWK HK).
        apply (lt_le_trans _ SWK _ y); [by eapply (asc_stop _ _ _ (Hasc HK))|].
        apply (sw_trans _ SWK _ x0); [by rewrite <- Hrose|]. cbn in Hz, Hsort.
        apply elem_of_cons in Hz as [->|Hz]; [by apply lt_irrefl|].
        apply StronglySorted_inv in Hsort as [_ Hf]. rewrite Forall_forall in Hf. by eapply before_le, Hf.
  - destruct Y as [|? Y]; [|cbn in *; lia]. rewrite Hall. cbn [app length Nat.add] in *.
    apply (count_descending_ensures [x0] x Z c1 (x0 :: x :: Z) [x0]); try done; [by rewrite <- Hall| |by rewrite <- Hall].
    intros HK _. split; [apply sorted_singleton|]. intros z ->%list_elem_of_singleton.
    by eapply (asc_stop _ _ _ (Hasc HK) []).
Qed.

(** ** Insertion *)

Lemma rotate_right_Ok S (x : T) Y k ok :
  k <= length S -> ok = length S -> rotate_right k ok (S ++ x :: Y) = Ok ((take k S ++ x :: drop k S) ++ Y).
Proof.
  intros Hk ->. unfold rotate_right.
  assert (HS : S ++ x :: Y = take k S ++ (drop k S ++ [x]) ++ Y)
    by (rewrite <- (take_drop k S) at 1; by rewrite <- !app_assoc).
  rewrite HS, slice_mid by (rewrite ?length_app, ?length_take, ?length_drop; cbn; lia). cbn [rbind].
  rewrite rev_app_distr. cbn [rev app]. rewrite rev_involutive.
  rewrite store_mid; [|rewrite length_take; lia|rewrite length_app; cbn; lia]. by rewrite <- app_assoc.
Qed.

(** Inserting after the last element that is not greater keeps a run sorted. *)
Lemma insert_sorted S x k :
  K -> StronglySorted bef S -> (forall y, y ∈ S -> ear y x) -> k <= length S ->
  (initial (fun i => negb (over (ltb x) S i)) (length S) ->
     splits (fun i => negb (over (ltb x) S i)) (length S) k) ->
  StronglySorted bef (take k S ++ x :: drop k S).
Proof.
  intros HK Hs He Hk Hsp. specialize (SWK HK).
  assert (Hi : initial (fun i => negb (over (ltb x) S i)) (length S)).
  { intros i j Hij. unfold over. destruct (lookup_lt_is_Some_2 S i) as [u Hu]; [lia|].
    destruct (lookup_lt_is_Some_2 S j) as [v Hv]; [lia|]. rewrite Hu, Hv, !negb_true_iff. intros Hv'.
    destruct (decide (i = j)) as [->|]; [by simplify_eq|].
    eapply (sw_trans _ SWK); [|exact Hv']. eapply before_le, (strongly_sorted_lookup _ S i j); [done|done|lia|done|done]. }
  destruct (Hsp Hi) as [Hl Hr]. pose proof Hs as Hs'. rewrite <- (take_drop k S) in Hs'.
  apply sorted_app in Hs' as (H1 & H2 & H3).
  assert (Hleft : forall y, y ∈ take k S -> bef y x).
  { intros y Hy. right. split; [|apply He; rewrite <- (take_drop k S); apply elem_of_app; by left].
    apply list_elem_of_lookup in Hy as [i Hi']. apply lookup_take_Some in Hi' as [Hi' Hlt].
    specialize (Hl i Hlt). unfold over in Hl. by rewrite Hi', negb_true_iff in Hl. }
  assert (Hright : forall y, y ∈ drop k S -> bef x y).
  { intros y Hy. left. apply list_elem_of_lookup in Hy as [i Hi']. rewrite lookup_drop in Hi'.
    pose proof (lookup_lt_Some _ _ _ Hi'). specialize (Hr (k + i) ltac:(lia)). unfold over in Hr.
    by rewrite Hi', negb_false_iff in Hr. }
  apply sorted_app. split_and!; [done| |].
  - constructor; [done|]. by apply Forall_forall.
  - intros u v Hu [->|Hv]%elem_of_cons; [by apply Hleft|by apply H3].
Qed.

Lemma insertions_ensures a0 : Forall U a0 -> forall Y S c,
  S <> [] -> S ++ Y ≡ₚ a0 ->
  ensures (insertions lt (length Y) (length S)) (S ++ Y, c)
    (fun _ s => s.1 ≡ₚ a0
       /\ (K -> StronglySorted bef S -> (forall x y, x ∈ S -> y ∈ Y -> ear x y) -> StronglySorted ear Y ->
           StronglySorted bef s.1))
    (stops a0).
Proof.
  intros Ua. induction Y as [|x Y IH]; intros S c Hne Hp; cbn [insertions length].
  - apply ensures_ret. cbn. split; [done|]. by rewrite app_nil_r.
  - apply ensures_bind, ensures_get. apply ensures_bind, (lift_ensures _ x); [by apply at_mid|].
    apply ensures_bind. cbn [fst].
    eapply (search_slice _ _ _ _ _ _ Hp (insertion_ensures lt ltb K U answers Stop stopped (S ++ x :: Y) x (length S)
      ltac:(by rewrite Hp) ltac:(eapply perm_all; [exact Hp|done|set_solver]) ltac:(rewrite length_app; lia) (Datatypes.S (length S)) 0 (length S) c ltac:(lia) ltac:(lia))).
    intros k c1 (Hk & Hsp). apply ensures_bind, (change_ensures _ _ _ _ _ _ (rotate_right_Ok S x Y k _ ltac:(lia) eq_refl)).
    assert (HS : take k S ++ x :: drop k S ≡ₚ S ++ [x]).
    { rewrite <- (take_drop k S) at 3. rewrite <- app_assoc. f_equiv. by rewrite Permutation_cons_append. }
    specialize (IH (take k S ++ x :: drop k S) c1).
    replace (length (take k S ++ x :: drop k S)) with (length S + 1) in IH
      by (apply Permutation_length in HS; rewrite HS, length_app; cbn; lia).
    eapply ensures_mono; [apply IH| |done].
    + by destruct (take k S).
    + rewrite HS, <- app_assoc. done.
    + intros _ s [H1 H2]. split; [done|]. intros HK Hs He Ho. apply StronglySorted_inv in Ho as [Ho Hf].
      rewrite Forall_forall in Hf. apply (H2 HK); [..|done].
      * apply insert_sorted; try done; [intros y Hy; apply He; [done|by left]|lia|]. intros Hi.
        apply (Hsp HK); [|done|intros; lia|intros; lia]. intros i y Hi' Hy. unfold over.
        rewrite lookup_app_l in Hy by done. by rewrite Hy.
      * intros u v Hu Hv. rewrite HS in Hu. apply elem_of_app in Hu as [Hu| ->%list_elem_of_singleton];
          [apply He; [done|by right]|by apply Hf].
Qed.

Lemma binary_sort_ensures D R c :
  Forall U (D ++ R) -> D <> [] ->
  ensures (binary_sort lt (length D)) (D ++ R, c)
    (fun _ s => s.1 ≡ₚ D ++ R
       /\ (K -> StronglySorted bef D -> (forall x y, x ∈ D -> y ∈ R -> ear x y) -> StronglySorted ear R ->
           StronglySorted bef s.1))
    (stops (D ++ R)).
Proof.
  intros Ua Hne. unfold binary_sort. apply ensures_bind, ensures_get. cbn [fst].
  assert (1 <= length D) by (destruct D; cbn; [done|lia]).
  rewrite length_app, Nat.max_l by lia. replace (length D + length R - length D) with (length R) by lia.
  by apply insertions_ensures.
Qed.

(** A run counted and extended is the whole slice, sorted. *)
Lemma sort_short_ensures a c :
  Forall U a -> (K -> StronglySorted ear a) ->
  ensures (sort_short lt) (a, c) (fun _ s => s.1 ≡ₚ a /\ (K -> StronglySorted bef s.1)) (stops a).
Proof.
  intros Ua Hord. unfold sort_short. apply ensures_bind, ensures_get. cbn [fst].
  destruct (Nat.ltb_spec (length a) 2) as [Hl|Hl].
  - apply ensures_ret. split; [done|]. intros HK. cbn.
    destruct a as [|x [|y a]]; cbn in Hl; [constructor|apply sorted_singleton|lia].
  - apply ensures_bind. eapply ensures_mono; [apply count_run_ensures; [done|by destruct a; cbn in *; [lia|]|done]| |done].
    intros n [l c1] (D & O & R & Hne & Hd & -> & Ha & HDO & Hs). cbn in Hd. subst l.
    assert (Hlen : length D = length O) by by apply Permutation_length.
    destruct (Nat.ltb_spec (length D) (length a)) as [Hlt|Hge].
    + eapply ensures_mono; [apply binary_sort_ensures| |].
      * by rewrite HDO, <- Ha.
      * done.
      * intros _ s [H1 H2]. split; [by rewrite H1, HDO, Ha|]. intros HK. specialize (Hord HK).
        apply (H2 HK); [by apply Hs|..]; rewrite Ha in Hord; apply sorted_app in Hord as (_ & H3 & H4); [|done].
        intros x y Hx Hy. apply H4; [by rewrite <- HDO|done].
      * intros e s [He H1]. split; [done|]. by rewrite H1, HDO, Ha.
    + apply ensures_ret. cbn. assert (R = []) as ->.
      { apply length_zero_iff_nil. rewrite Ha, length_app in Hge. lia. }
      rewrite !app_nil_r in *. subst O. split; [done|]. auto.
Qed.
End Runs.
