(* ===== verification/TimsortMerge.v ===== *)
(** The merges: [merge_lo] and [merge_hi] merge two adjacent runs. Whatever the
    comparison answers they never panic, end, and leave a permutation; under a strict
    weak order the merged run is sorted stably. *)
From S2P Require Import Prelude Timsort TimsortOrder.
From stdpp Require Import sorting.
Local Open Scope monty_scope.

Section Merge.
Context {C : Type} (lt : nat -> nat -> C -> option bool * C) (ltb : nat -> nat -> bool) (K : Prop).
Context (U : nat -> Prop) (answers : forall x y c b c', U x -> U y -> lt x y c = (Some b, c') -> K -> b = ltb x y).
Context (Stop : sort_error -> C -> Prop).
Context (stopped : forall x y c c', U x -> U y -> lt x y c = (None, c') -> Stop SortAborted c').
Context (pos : nat -> nat) (SWK : K -> StrictWeak ltb).

Abbreviation bef := (before ltb pos).
Abbreviation ear := (earlier pos).
Abbreviation MS := (MergeState C).
Abbreviation CS := (MergeState C * Cursor)%type.

(** ** Galloping through a sorted run *)

(** [p] holds of [u], the part before the result, and fails on [v]. *)
Definition divides (p : nat -> bool) (a : list nat) (k : nat) : Prop :=
  exists u v, a = u ++ v /\ k = length u
    /\ (K -> StronglySorted bef a -> (forall x, x ∈ u -> p x = true) /\ (forall x, x ∈ v -> p x = false)).

Lemma splits_parts (p : nat -> bool) a k :
  splits (over p a) (length a) k -> k <= length a ->
  (forall x, x ∈ take k a -> p x = true) /\ (forall x, x ∈ drop k a -> p x = false).
Proof.
  intros [H1 H2] Hk. split; intros x [i Hi]%list_elem_of_lookup.
  - apply lookup_take_Some in Hi as [Hi Hlt]. specialize (H1 i Hlt). unfold over in H1. by rewrite Hi in H1.
  - rewrite lookup_drop in Hi. pose proof (lookup_lt_Some _ _ _ Hi). specialize (H2 (k + i) ltac:(lia)).
    unfold over in H2. by rewrite Hi in H2.
Qed.

(** In a sorted run a predicate that passes to smaller elements is initial. *)
Lemma initial_over p a :
  K -> StronglySorted bef a -> (forall x y, ltb y x = false -> p y = true -> p x = true) ->
  initial (over p a) (length a).
Proof.
  intros HK Hs Hp i j Hij. unfold over. destruct (decide (i = j)) as [->|]; [done|].
  destruct (lookup_lt_is_Some_2 a i) as [u Hu]; [lia|]. destruct (lookup_lt_is_Some_2 a j) as [v Hv]; [lia|].
  rewrite Hu, Hv. apply Hp. eapply before_le; [by apply SWK|].
  eapply (strongly_sorted_lookup _ a i j); [done|lia|done|done].
Qed.

Lemma gallop_left_divides key a hint c :
  Forall U a -> U key -> hint < length a ->
  ensures (gallop_left lt key a hint) c
    (fun k _ => divides (fun x => ltb x key) a k) Stop.
Proof.
  intros Ua Uk Hh. eapply ensures_mono; [by apply (gallop_left_ensures lt ltb K U answers Stop stopped)| |done].
  intros k _ [Hk Hs]. exists (take k a), (drop k a).
  split_and!; [by rewrite take_drop|rewrite length_take; lia|].
  intros HK Ha. apply splits_parts; [|done]. apply (Hs HK), initial_over; [done..|].
  intros x y H1 H2. by eapply le_lt_trans; [apply SWK|..].
Qed.

Lemma gallop_right_divides key a hint c :
  Forall U a -> U key -> hint < length a ->
  ensures (gallop_right lt key a hint) c
    (fun k _ => divides (fun x => negb (ltb key x)) a k) Stop.
Proof.
  intros Ua Uk Hh. eapply ensures_mono; [by apply (gallop_right_ensures lt ltb K U answers Stop stopped)| |done].
  intros k _ [Hk Hs]. exists (take k a), (drop k a).
  split_and!; [by rewrite take_drop|rewrite length_take; lia|].
  assert (Hn : forall i, i < length a -> negb (over (ltb key) a i) = over (fun x => negb (ltb key x)) a i).
  { intros i [x Hx]%lookup_lt_is_Some. unfold over. by rewrite Hx. }
  intros HK Ha. apply splits_parts; [|done].
  destruct (Hs HK) as [H1 H2].
  - intros i j Hij. rewrite !Hn by lia. apply (initial_over (fun x => negb (ltb key x))); [done..| |done].
    intros x y Hxy. rewrite !negb_true_iff. intros Hy. by eapply (sw_trans _ (SWK HK)).
  - split; intros i Hi; rewrite <- Hn by lia; [by apply H1|by apply H2].
Qed.

(** ** Steps of a merge loop *)

Lemma compares_ensures {A} (m : M C sort_error A) (s : MS) Q R :
  ensures m (cmp s) (fun x c => Q x (set_cmp c s)) (fun e c => R e (set_cmp c s)) ->
  ensures (compares m) s Q R.
Proof. unfold ensures, compares, lift_c. by destruct (m (cmp s)) as [[x|e] c]. Qed.

Lemma compares_c_ensures {A} (m : M C sort_error A) (s : MS) cur Q R :
  ensures m (cmp s) (fun x c => Q x (set_cmp c s, cur)) (fun e c => R e (set_cmp c s, cur)) ->
  ensures (compares_c m) (s, cur) Q R.
Proof. unfold ensures, compares_c, lift_c. cbn. by destruct (m (cmp s)) as [[x|e] c]. Qed.

Lemma move_ensures f (s : MS) cur l cur' Q R :
  f s cur = Ok (l, cur') -> Q cur' (set_ids l s, cur') -> ensures (move f) (s, cur) Q R.
Proof. unfold ensures, move. cbn. by intros ->. Qed.

Lemma write_ensures f (s : MS) l Q R :
  f (ids s) = Ok l -> Q tt (set_ids l s) -> ensures (write f) s Q R.
Proof. unfold ensures, write. by intros ->. Qed.

(** ** Merging from the left *)

(** What holds of the order: the output is sorted and before what is left of either
    run, every element of A was before B, and A's last element belongs last. *)
Record mid_lo (out ra rb : list nat) : Prop := {
  ml_a : StronglySorted bef (out ++ ra);
  ml_b : StronglySorted bef (out ++ rb);
  ml_ear : forall x y, x ∈ ra -> y ∈ rb -> ear x y;
  ml_last : forall l z y, ra = l ++ [z] -> y ∈ rb -> ltb y z = true }.

Lemma mid_lo_as out xs ra rb :
  mid_lo out (xs ++ ra) rb -> (forall x y, x ∈ xs -> y ∈ rb -> ltb y x = false) -> mid_lo (out ++ xs) ra rb.
Proof.
  intros [Ha Hb He Hl] Hx. apply sorted_app in Hb as (Hb1 & Hb2 & Hb3). split.
  - by rewrite <- app_assoc.
  - rewrite app_assoc in Ha. apply sorted_app in Ha as (Ha & _ & _). apply sorted_app. split_and!; [done..|].
    intros x y [H|H]%elem_of_app Hy; [by apply Hb3|]. right. split; [by apply Hx|].
    apply He; [|done]. apply elem_of_app. by left.
  - intros x y H Hy. apply He; [|done]. apply elem_of_app. by right.
  - intros l z y -> Hy. apply (Hl (xs ++ l)); [|done]. by rewrite <- app_assoc.
Qed.

Lemma mid_lo_bs out ra xs rb :
  mid_lo out ra (xs ++ rb) -> (forall x y, x ∈ xs -> y ∈ ra -> ltb x y = true) -> mid_lo (out ++ xs) ra rb.
Proof.
  intros [Ha Hb He Hl] Hx. apply sorted_app in Ha as (Ha1 & Ha2 & Ha3). split.
  - rewrite app_assoc in Hb. apply sorted_app in Hb as (Hb & _ & _). apply sorted_app. split_and!; [done..|].
    intros x y [H|H]%elem_of_app Hy; [by apply Ha3|]. left. by apply Hx.
  - by rewrite <- app_assoc.
  - intros x y H Hy. apply He; [done|]. apply elem_of_app. by right.
  - intros l z y Hra Hy. apply (Hl l); [done|]. apply elem_of_app. by right.
Qed.

(** The state of [merge_lo]: output, a hole as long as what is left of A in [tmp], and
    what is left of B. [fr] is what the merge does not touch. *)
Record lo_inv (pre post L : list nat) (fr : list Run * nat) (out ra rb : list nat) (s : CS) : Prop := {
  lo_ids : exists hole, ids s.1 = pre ++ out ++ hole ++ rb ++ post /\ length hole = length ra;
  lo_tmp : exists ta, tmp s.1 = ta ++ ra /\ pa s.2 = length ta;
  lo_dest : dest s.2 = length pre + length out;
  lo_pb : pb s.2 = length pre + length out + length ra;
  lo_na : na s.2 = length ra;
  lo_nb : nb s.2 = length rb;
  lo_perm : out ++ ra ++ rb ≡ₚ L;
  lo_frame : (pending s.1, list_len s.1) = fr;
  lo_mid : K -> mid_lo out ra rb }.

Lemma lo_inv_ext pre post L fr out ra rb s s' :
  lo_inv pre post L fr out ra rb s -> ids s'.1 = ids s.1 -> tmp s'.1 = tmp s.1 ->
  pending s'.1 = pending s.1 -> list_len s'.1 = list_len s.1 -> s'.2 = s.2 ->
  lo_inv pre post L fr out ra rb s'.
Proof.
  intros [H1 H2 H3 H4 H5 H6 H7 H8 H9] E1 E2 E3 E4 E5.
  split; rewrite ?E1, ?E2, ?E3, ?E4, ?E5; done.
Qed.

(** Moving [xs] from A to the output. *)
Lemma lo_store_as pre post L fr out xs ra rb s c :
  lo_inv pre post L fr out (xs ++ ra) rb (s, c) ->
  (K -> forall x y, x ∈ xs -> y ∈ rb -> ltb y x = false) ->
  exists l, store (dest c) xs (ids s) = Ok l
    /\ lo_inv pre post L fr (out ++ xs) ra rb
         (set_ids l s, {| dest := dest c + length xs; pa := pa c + length xs; pb := pb c;
                          na := na c - length xs; nb := nb c |}).
Proof.
  intros [(hole & Hi & Hh) (ta & Ht & Hpa) Hd Hpb Hna Hnb Hp Hf Hm] Hx. cbn [fst snd] in *.
  rewrite length_app in *. exists (pre ++ out ++ xs ++ drop (length xs) hole ++ rb ++ post). split.
  - rewrite Hi. rewrite <- (take_drop (length xs) hole) at 1. rewrite <- !app_assoc, !(app_assoc pre out).
    apply store_mid; [rewrite length_app; lia|rewrite length_take; lia].
  - split; cbn.
    + exists (drop (length xs) hole). rewrite length_drop, <- !app_assoc. split; [done|lia].
    + exists (ta ++ xs). rewrite <- app_assoc, length_app. split; [done|lia].
    + rewrite length_app. lia.
    + rewrite length_app. lia.
    + lia.
    + done.
    + by rewrite <- !app_assoc in *.
    + done.
    + intros HK. apply mid_lo_as; auto.
Qed.

(** Moving [xs] from B to the output. *)
Lemma lo_store_bs pre post L fr out ra xs rb s c :
  lo_inv pre post L fr out ra (xs ++ rb) (s, c) ->
  (K -> forall x y, x ∈ xs -> y ∈ ra -> ltb x y = true) ->
  exists l, store (dest c) xs (ids s) = Ok l
    /\ lo_inv pre post L fr (out ++ xs) ra rb
         (set_ids l s, {| dest := dest c + length xs; pa := pa c; pb := pb c + length xs;
                          na := na c; nb := nb c - length xs |}).
Proof.
  intros [(hole & Hi & Hh) (ta & Ht & Hpa) Hd Hpb Hna Hnb Hp Hf Hm] Hx. cbn [fst snd] in *.
  rewrite length_app in *. exists (pre ++ out ++ xs ++ drop (length xs) (hole ++ xs) ++ rb ++ post). split.
  - rewrite Hi, <- (app_assoc xs rb post), (app_assoc hole xs).
    rewrite <- (take_drop (length xs) (hole ++ xs)) at 1. rewrite <- !app_assoc, !(app_assoc pre out).
    apply store_mid; [rewrite length_app; lia|rewrite length_take, length_app; lia].
  - split; cbn.
    + exists (drop (length xs) (hole ++ xs)). rewrite length_drop, length_app, <- !app_assoc. split; [done|lia].
    + by exists ta.
    + rewrite length_app. lia.
    + rewrite length_app. lia.
    + done.
    + lia.
    + rewrite <- Hp, <- !app_assoc. f_equiv. rewrite !app_assoc. f_equiv. apply Permutation_app_comm.
    + done.
    + intros HK. apply mid_lo_bs; auto.
Qed.

(** The parts a cursor points at. *)
Lemma lo_at_b pre post L fr out ra y rb s c :
  lo_inv pre post L fr out ra (y :: rb) (s, c) -> at_ (ids s) (pb c) = Ok y.
Proof.
  intros [(hole & Hi & Hh) _ _ Hpb _ _ _ _ _]. cbn in *. rewrite Hi, !app_assoc.
  apply at_mid. rewrite !length_app. lia.
Qed.

Lemma lo_slice_b pre post L fr out ra xs rb s c k :
  lo_inv pre post L fr out ra (xs ++ rb) (s, c) -> k = length xs -> slice (ids s) (pb c) (pb c + k) = Ok xs.
Proof.
  intros [(hole & Hi & Hh) _ _ Hpb _ _ _ _ _] ->. cbn in *. rewrite Hi, !app_assoc, <- (app_assoc _ rb), <- (app_assoc _ xs).
  apply slice_mid; rewrite !length_app; lia.
Qed.

Lemma lo_at_a pre post L fr out x ra rb s c :
  lo_inv pre post L fr out (x :: ra) rb (s, c) -> at_ (tmp s) (pa c) = Ok x.
Proof. intros [_ (ta & Ht & Hpa) _ _ _ _ _ _ _]. cbn in *. rewrite Ht. by apply at_mid. Qed.

Lemma lo_slice_a pre post L fr out xs ra rb s c k :
  lo_inv pre post L fr out (xs ++ ra) rb (s, c) -> k = length xs -> slice (tmp s) (pa c) (pa c + k) = Ok xs.
Proof. intros [_ (ta & Ht & Hpa) _ _ _ _ _ _ _] ->. cbn in *. rewrite Ht. apply slice_mid; lia. Qed.

Section Lo.
Context (pre post L : list nat) (fr : list Run * nat) (UL : Forall U L).
Abbreviation inv := (lo_inv pre post L fr).

Lemma inv_all out ra rb s x : inv out ra rb s -> x ∈ ra ++ rb -> U x.
Proof.
  intros Hi Hx. rewrite Forall_forall in UL. apply UL. rewrite <- (lo_perm _ _ _ _ _ _ _ _ Hi).
  apply elem_of_app. by right.
Qed.

Lemma inv_all_a out ra rb s : inv out ra rb s -> Forall U ra.
Proof. intros Hi. apply Forall_forall. intros x Hx. eapply inv_all; [done|set_solver]. Qed.

Lemma inv_all_b out ra rb s : inv out ra rb s -> Forall U rb.
Proof. intros Hi. apply Forall_forall. intros x Hx. eapply inv_all; [done|set_solver]. Qed.

Lemma inv_na out ra rb s c : inv out ra rb (s, c) -> na c = length ra.
Proof. apply lo_na. Qed.
Lemma inv_nb out ra rb s c : inv out ra rb (s, c) -> nb c = length rb.
Proof. apply lo_nb. Qed.

Lemma lo_take_a_ensures out x ra rb s c Q R :
  inv out (x :: ra) rb (s, c) -> (K -> forall y, y ∈ rb -> ltb y x = false) ->
  (forall s' c', inv (out ++ [x]) ra rb (s', c') -> Q c' (s', c')) -> ensures (move lo_take_a) (s, c) Q R.
Proof.
  intros Hi Hx HQ. pose proof (inv_na _ _ _ _ _ Hi) as Hn.
  destruct (lo_store_as pre post L fr out [x] ra rb s c Hi) as (l & Hl & Hi').
  { intros HK a b ->%list_elem_of_singleton. by apply Hx. }
  eapply move_ensures; [|by apply HQ, Hi']. unfold lo_take_a. rewrite (lo_at_a _ _ _ _ _ _ _ _ _ _ Hi).
  cbn [rbind fst snd] in *. rewrite Hl. cbn [rbind]. rewrite Hn, usub_Ok by (cbn; lia). done.
Qed.

Lemma lo_take_b_ensures out ra y rb s c Q R :
  inv out ra (y :: rb) (s, c) -> (K -> forall x, x ∈ ra -> ltb y x = true) ->
  (forall s' c', inv (out ++ [y]) ra rb (s', c') -> Q c' (s', c')) -> ensures (move lo_take_b) (s, c) Q R.
Proof.
  intros Hi Hx HQ. pose proof (inv_nb _ _ _ _ _ Hi) as Hn.
  destruct (lo_store_bs pre post L fr out ra [y] rb s c Hi) as (l & Hl & Hi').
  { intros HK a b ->%list_elem_of_singleton. by apply Hx. }
  eapply move_ensures; [|by apply HQ, Hi']. unfold lo_take_b. rewrite (lo_at_b _ _ _ _ _ _ _ _ _ _ Hi).
  cbn [rbind fst snd] in *. rewrite Hl. cbn [rbind]. rewrite Hn, usub_Ok by (cbn; lia). done.
Qed.

(** A gallop moves what it found, unless that is nothing. *)
Lemma lo_take_as_ensures out xs ra rb s c k Q R :
  inv out (xs ++ ra) rb (s, c) -> k = length xs ->
  (K -> forall x y, x ∈ xs -> y ∈ rb -> ltb y x = false) ->
  (forall s' c', inv (out ++ xs) ra rb (s', c') -> Q c' (s', c')) ->
  ensures (if 0 <? k then move (lo_take_as k) else sret c) (s, c) Q R.
Proof.
  intros Hi -> Hx HQ. pose proof (inv_na _ _ _ _ _ Hi) as Hn. cbn in Hn. rewrite length_app in Hn.
  destruct (Nat.ltb_spec 0 (length xs)) as [Hp|Hz].
  - destruct (lo_store_as pre post L fr out xs ra rb s c Hi Hx) as (l & Hl & Hi').
    eapply move_ensures; [|by apply HQ, Hi']. unfold lo_take_as. rewrite (lo_slice_a _ _ _ _ _ _ _ _ _ _ _ Hi eq_refl).
    cbn [rbind]. rewrite Hl. cbn [rbind]. rewrite usub_Ok by lia. done.
  - destruct xs; [|cbn in *; lia]. apply ensures_ret, HQ. by rewrite app_nil_r.
Qed.

Lemma lo_take_bs_ensures out ra xs rb s c k Q R :
  inv out ra (xs ++ rb) (s, c) -> k = length xs ->
  (K -> forall x y, x ∈ xs -> y ∈ ra -> ltb x y = true) ->
  (forall s' c', inv (out ++ xs) ra rb (s', c') -> Q c' (s', c')) ->
  ensures (if 0 <? k then move (lo_take_bs k) else sret c) (s, c) Q R.
Proof.
  intros Hi -> Hx HQ. pose proof (inv_nb _ _ _ _ _ Hi) as Hn. cbn in Hn. rewrite length_app in Hn.
  destruct (Nat.ltb_spec 0 (length xs)) as [Hp|Hz].
  - destruct (lo_store_bs pre post L fr out ra xs rb s c Hi Hx) as (l & Hl & Hi').
    eapply move_ensures; [|by apply HQ, Hi']. unfold lo_take_bs. rewrite (lo_slice_b _ _ _ _ _ _ _ _ _ _ _ Hi eq_refl).
    cbn [rbind]. rewrite Hl. cbn [rbind]. rewrite usub_Ok by lia. done.
  - destruct xs; [|cbn in *; lia]. apply ensures_ret, HQ. by rewrite app_nil_r.
Qed.

(** Where a turn may leave the merge: in the middle with less to do, or at an end. *)
Definition lo_left (N : nat) (t : (Mode * nat) + MergeEnd) (s : CS) : Prop :=
  exists out ra rb, inv out ra rb s /\
    match t with
    | inl _ => 2 <= length ra /\ 1 <= length rb /\ length ra + length rb < N
    | inr Drain => ra = [] \/ rb = []
    | inr CopyLast => length ra = 1
    end.

Definition lo_stops (e : sort_error) (s : CS) : Prop :=
  Stop e (cmp s.1) /\ exists out ra rb, inv out ra rb s.

Lemma lo_search {A} (m : M C sort_error A) out ra rb s c (P : A -> Prop) Q :
  inv out ra rb (s, c) -> ensures m (cmp s) (fun x _ => P x) Stop ->
  (forall x s', inv out ra rb (s', c) -> P x -> Q x (s', c)) ->
  ensures (compares_c m) (s, c) Q lo_stops.
Proof.
  intros Hi Hm HQ. apply compares_c_ensures. eapply ensures_mono; [exact Hm| |].
  - intros x c' Hx. apply HQ; [|done]. by apply (lo_inv_ext _ _ _ _ _ _ _ _ _ Hi).
  - intros e c' He. split; [done|]. exists out, ra, rb. by apply (lo_inv_ext _ _ _ _ _ _ _ _ _ Hi).
Qed.

Lemma lo_keep out ra rb s c n Q R :
  inv out ra rb (s, c) -> (forall s', inv out ra rb (s', c) -> Q tt (s', c)) ->
  ensures (keep_min_gallop n) (s, c) Q R.
Proof. intros Hi HQ. apply ensures_modify, HQ. by apply (lo_inv_ext _ _ _ _ _ _ _ _ _ Hi). Qed.

(** What [mid_lo] says of the elements next to move. *)
Lemma mid_lo_lt_all out x ra y rb :
  K -> mid_lo out (x :: ra) (y :: rb) -> ltb y x = true -> forall a, a ∈ x :: ra -> ltb y a = true.
Proof.
  intros HK [Ha _ _ _] Hy a [->|H]%elem_of_cons; [done|]. eapply lt_le_trans; [by apply SWK|exact Hy|].
  apply sorted_app in Ha as (_ & Ha & _). apply StronglySorted_inv in Ha as [_ Hf].
  rewrite Forall_forall in Hf. eapply before_le; [by apply SWK|by apply Hf].
Qed.

Lemma mid_lo_ge_all out x ra y rb :
  K -> mid_lo out ra (y :: rb) -> ltb y x = false -> forall b, b ∈ y :: rb -> ltb b x = false.
Proof.
  intros HK [_ Hb _ _] Hy b [->|H]%elem_of_cons; [done|]. eapply (sw_trans _ (SWK HK)); [exact Hy|].
  apply sorted_app in Hb as (_ & Hb & _). apply StronglySorted_inv in Hb as [_ Hf].
  rewrite Forall_forall in Hf. eapply before_le; [by apply SWK|by apply Hf].
Qed.

Lemma lo_left_next N out ra rb s c t m :
  inv out ra rb (s, c) -> t = inl m -> 2 <= length ra -> 1 <= length rb -> length ra + length rb < N ->
  lo_left N t (s, c).
Proof. intros Hi -> H1 H2 H3. by exists out, ra, rb. Qed.

Lemma after_win_inl count mg m : exists t, after_win count mg m = inl t.
Proof. unfold after_win. case_match; eauto. Qed.

Lemma lo_straight_ensures acount bcount mg out ra rb s c :
  inv out ra rb (s, c) -> 2 <= length ra -> 1 <= length rb ->
  ensures (lo_straight lt acount bcount mg) (s, c) (lo_left (length ra + length rb)) lo_stops.
Proof.
  intros Hi Hra Hrb. destruct ra as [|x ra]; [cbn in *; lia|]. destruct rb as [|y rb]; [cbn in *; lia|].
  unfold lo_straight. apply ensures_bind, ensures_get. cbn [fst snd].
  apply ensures_bind, (lift_ensures _ y); [by eapply lo_at_b|].
  apply ensures_bind, (lift_ensures _ x); [by eapply lo_at_a|].
  apply ensures_bind. eapply (lo_search _ _ _ _ _ _ (fun b => K -> b = ltb y x) _ Hi).
  { apply (ask_ensures lt ltb K U answers Stop stopped); [eapply inv_all; [exact Hi|set_solver]..|done]. }
  clear s Hi. intros b s Hi Hb. pose proof (lo_mid _ _ _ _ _ _ _ _ Hi) as Hm. destruct b.
  - apply ensures_bind. eapply lo_take_b_ensures; [exact Hi| |].
    { intros HK. eapply mid_lo_lt_all; [done|by apply Hm|by rewrite <- Hb]. }
    intros s1 c1 Hi1. rewrite (inv_nb _ _ _ _ _ Hi1). destruct rb as [|y' rb]; cbn [length Nat.eqb].
    + apply ensures_ret. exists (out ++ [y]), (x :: ra), []. auto.
    + apply ensures_ret. destruct (after_win_inl (bcount + 1) mg (Straight 0 (bcount + 1))) as [t Ht].
      eapply lo_left_next; [exact Hi1|exact Ht|cbn in *; lia..].
  - apply ensures_bind. eapply lo_take_a_ensures; [exact Hi| |].
    { intros HK. eapply mid_lo_ge_all; [done|by apply Hm|by rewrite <- Hb]. }
    intros s1 c1 Hi1. rewrite (inv_na _ _ _ _ _ Hi1). destruct (Nat.eqb_spec (length ra) 1) as [He|He].
    + apply ensures_ret. exists (out ++ [x]), ra, (y :: rb). auto.
    + apply ensures_ret. destruct (after_win_inl (acount + 1) mg (Straight (acount + 1) 0)) as [t Ht].
      eapply lo_left_next; [exact Hi1|exact Ht|cbn in *; lia..].
Qed.

Lemma gallop_on_ensures N acount bcount mg out ra rb s c :
  inv out ra rb (s, c) -> 2 <= length ra -> 1 <= length rb -> length ra + length rb < N ->
  ensures (gallop_on acount bcount mg) (s, c) (lo_left N) lo_stops.
Proof.
  intros Hi H1 H2 H3. unfold gallop_on. case_match.
  - apply ensures_bind. eapply lo_keep; [exact Hi|]. intros s' Hi'. apply ensures_ret. by eapply lo_left_next.
  - apply ensures_ret. by eapply lo_left_next.
Qed.

Lemma lo_gallop_b_ensures N acount mg out x ra rb s c :
  inv out (x :: ra) rb (s, c) -> 1 <= length ra -> 1 <= length rb -> length ra + length rb < N ->
  ensures (lo_gallop_b lt acount mg) (s, c) (lo_left N) lo_stops.
Proof.
  intros Hi Hra Hrb HN. unfold lo_gallop_b. apply ensures_bind, ensures_get. cbn [fst snd].
  apply ensures_bind, (lift_ensures _ x); [by eapply lo_at_a|].
  apply ensures_bind, (lift_ensures _ rb).
  { eapply (lo_slice_b _ _ _ _ _ _ _ []); [by rewrite app_nil_r|]. apply (inv_nb _ _ _ _ _ Hi). }
  apply ensures_bind. eapply (lo_search _ _ _ _ _ _ _ _ Hi (gallop_left_divides x rb 0 _ (inv_all_b _ _ _ _ Hi)
    (Forall_inv (inv_all_a _ _ _ _ Hi)) Hrb)).
  clear s Hi. intros k s Hi (u & v & -> & -> & Huv). pose proof (lo_mid _ _ _ _ _ _ _ _ Hi) as Hm.
  assert (Hp : K -> (forall b, b ∈ u -> ltb b x = true) /\ (forall b, b ∈ v -> ltb b x = false)).
  { intros HK. apply Huv; [done|]. destruct (Hm HK) as [_ Hb _ _]. by apply sorted_app in Hb as (_ & Hb & _). }
  apply ensures_bind. eapply lo_take_bs_ensures; [exact Hi|done| |].
  { intros HK b a Hb Ha. destruct (Hp HK) as [Hu _]. destruct (Hm HK) as [Ha' _ _ _].
    apply sorted_app in Ha' as (_ & Ha' & _). apply elem_of_cons in Ha as [->|Ha]; [by apply Hu|].
    apply StronglySorted_inv in Ha' as [_ Hf]. rewrite Forall_forall in Hf.
    eapply lt_le_trans; [by apply SWK|by apply Hu|]. eapply before_le; [by apply SWK|by apply Hf]. }
  clear s c Hi. intros s c Hi. rewrite (inv_nb _ _ _ _ _ Hi).
  destruct ((0 <? length u) && (length v =? 0)) eqn:Hd.
  { apply andb_true_iff in Hd as [_ Hd]. apply Nat.eqb_eq, length_zero_iff_nil in Hd as ->.
    apply ensures_ret. exists (out ++ u), (x :: ra), []. auto. }
  assert (Hv : 1 <= length v).
  { destruct v; [|cbn; lia]. destruct u; [by cbn in Hrb; lia|done]. }
  rewrite length_app in *. apply ensures_bind. eapply lo_take_a_ensures; [exact Hi| |].
  { intros HK. apply (Hp HK). }
  clear s c Hi. intros s c Hi. rewrite (inv_na _ _ _ _ _ Hi). destruct (Nat.eqb_spec (length ra) 1).
  - apply ensures_ret. exists ((out ++ u) ++ [x]), ra, v. auto.
  - eapply gallop_on_ensures; [exact Hi|lia..].
Qed.

Lemma lo_gallop_ensures mg out ra rb s c :
  inv out ra rb (s, c) -> 2 <= length ra -> 1 <= length rb ->
  ensures (lo_gallop lt mg) (s, c) (lo_left (length ra + length rb)) lo_stops.
Proof.
  intros Hi Hra Hrb. destruct rb as [|y rb]; [cbn in *; lia|].
  unfold lo_gallop. apply ensures_bind. eapply lo_keep; [exact Hi|]. clear s Hi. intros s Hi.
  apply ensures_bind, ensures_get. cbn [fst snd].
  apply ensures_bind, (lift_ensures _ y); [by eapply lo_at_b|].
  apply ensures_bind. unfold gallop_right_tmp. apply ensures_bind, ensures_get. cbn [fst].
  apply ensures_bind, (lift_ensures _ ra).
  { eapply (lo_slice_a _ _ _ _ _ _ []); [by rewrite app_nil_r|]. apply (inv_na _ _ _ _ _ Hi). }
  eapply (lo_search _ _ _ _ _ _ _ _ Hi (gallop_right_divides y ra 0 _ (inv_all_a _ _ _ _ Hi)
    (Forall_inv (inv_all_b _ _ _ _ Hi)) ltac:(lia))).
  clear s Hi. intros k s Hi (u & v & -> & -> & Huv). pose proof (lo_mid _ _ _ _ _ _ _ _ Hi) as Hm.
  assert (Hp : K -> (forall a, a ∈ u -> ltb y a = false) /\ (forall a, a ∈ v -> ltb y a = true)).
  { intros HK. destruct (Hm HK) as [Ha _ _ _]. apply sorted_app in Ha as (_ & Ha & _).
    destruct (Huv HK Ha) as [H1 H2]. split; intros a H; [by apply negb_true_iff, H1|by apply negb_false_iff, H2]. }
  apply ensures_bind. eapply lo_take_as_ensures; [exact Hi|done| |].
  { intros HK a b Ha Hb. destruct (Hp HK) as [Hu _]. eapply (mid_lo_ge_all out a); [done|by apply Hm|by apply Hu|done]. }
  clear s c Hi. intros s c Hi. rewrite (inv_na _ _ _ _ _ Hi). rewrite length_app in *.
  destruct ((0 <? length u) && (length v =? 1)) eqn:H1.
  { apply andb_true_iff in H1 as [_ H1]. apply Nat.eqb_eq in H1. apply ensures_ret. exists (out ++ u), v, (y :: rb). auto. }
  destruct ((0 <? length u) && (length v =? 0)) eqn:H0.
  { apply andb_true_iff in H0 as [_ H0]. apply Nat.eqb_eq, length_zero_iff_nil in H0 as ->.
    apply ensures_ret. exists (out ++ u), [], (y :: rb). auto. }
  assert (Hv : 2 <= length v).
  { destruct u; [cbn in Hra; lia|]. destruct v as [|? [|? v]]; [done..|cbn; lia]. }
  apply ensures_bind. eapply lo_take_b_ensures; [exact Hi|intros HK; apply (Hp HK)|].
  clear s c Hi. intros s c Hi. rewrite (inv_nb _ _ _ _ _ Hi). destruct rb as [|y' rb]; cbn [length Nat.eqb].
  - apply ensures_ret. exists ((out ++ u) ++ [y]), v, []. auto.
  - destruct v as [|x v]; [cbn in *; lia|]. eapply lo_gallop_b_ensures; [exact Hi|cbn in *; lia..].
Qed.

Lemma lo_loop_ensures : forall fuel m mg out ra rb s c,
  inv out ra rb (s, c) -> 2 <= length ra -> 1 <= length rb -> length ra + length rb <= fuel ->
  ensures (lo_loop lt fuel m mg) (s, c) (fun e => lo_left 0 (inr e)) lo_stops.
Proof.
  induction fuel as [|fuel IH]; intros m mg out ra rb s c Hi Hra Hrb Hf; [lia|]. cbn [lo_loop].
  apply ensures_bind.
  apply (ensures_mono _ _ (lo_left (length ra + length rb)) _ lo_stops); [|clear - IH Hf|done].
  - destruct m as [acount bcount|]; cbn; [by eapply lo_straight_ensures|by eapply lo_gallop_ensures].
  - intros [[m' mg']|e] [s' c'] (out' & ra' & rb' & Hi & H).
    + eapply IH; [exact Hi|lia..].
    + apply ensures_ret. by exists out', ra', rb'.
Qed.

Lemma merge_lo_loop_ensures x ra y rb s c :
  inv [] (x :: ra) (y :: rb) (s, c) -> (K -> forall a, a ∈ x :: ra -> ltb y a = true) ->
  ensures (merge_lo_loop lt) (s, c) (fun e => lo_left 0 (inr e)) lo_stops.
Proof.
  intros Hi Hy. unfold merge_lo_loop. apply ensures_bind. eapply lo_take_b_ensures; [exact Hi|done|].
  clear s c Hi. intros s c Hi. rewrite (inv_na _ _ _ _ _ Hi), (inv_nb _ _ _ _ _ Hi).
  destruct rb as [|y' rb]; cbn [length Nat.eqb].
  { apply ensures_ret. exists ([] ++ [y]), (x :: ra), []. auto. }
  destruct ra as [|x' ra]; cbn [length Nat.eqb].
  { apply ensures_ret. exists ([] ++ [y]), [x], (y' :: rb). auto. }
  apply ensures_bind, ensures_get. eapply lo_loop_ensures; [exact Hi|cbn; lia..].
Qed.

(** Putting back what is left of A. *)
Lemma lo_tidy out ra rb s c :
  inv out ra rb (s, c) ->
  slice (tmp s) (pa c) (pa c + na c) = Ok ra
  /\ store (dest c) ra (ids s) = Ok (pre ++ (out ++ ra ++ rb) ++ post).
Proof.
  intros Hi. split.
  - eapply (lo_slice_a _ _ _ _ _ _ []); [by rewrite app_nil_r|]. by eapply inv_na.
  - destruct Hi as [(hole & Hi & Hh) _ Hd _ _ _ _ _ _]. cbn in *. rewrite Hi, <- !app_assoc, !(app_assoc pre out).
    apply store_mid; [rewrite length_app; lia|lia].
Qed.
End Lo.

(** What a merge of A and B leaves between [pre] and [post]. *)
Definition merged (pre post L : list nat) (fr : list Run * nat) (s : MS) (D : list nat) : Prop :=
  ids s = pre ++ D ++ post /\ D ≡ₚ L /\ (pending s, list_len s) = fr.

Definition merges (pre post L : list nat) (fr : list Run * nat) (_ : unit) (s : MS) : Prop :=
  exists D, merged pre post L fr s D /\ (K -> StronglySorted bef D).

Definition merge_stops (pre post L : list nat) (fr : list Run * nat) (e : sort_error) (s : MS) : Prop :=
  Stop e (cmp s) /\ exists D, merged pre post L fr s D.

Lemma with_cursor_ensures {A} c (m : M CS sort_error A) s Q R :
  ensures m (s, c) (fun x s' => Q (Ok x, s'.2) s'.1) (fun e s' => Q (Err e, s'.2) s'.1) ->
  ensures (with_cursor c m) s Q R.
Proof. unfold ensures, with_cursor. by destruct (m (s, c)) as [[x|e] [s' c']]. Qed.

Lemma fill_tmp_ensures i j xs (s : MS) Q R :
  slice (ids s) i j = Ok xs -> Q tt (set_tmp xs s) -> ensures (fill_tmp i j) s Q R.
Proof.
  intros Hs HQ. unfold fill_tmp. apply ensures_bind, ensures_get, ensures_bind, (lift_ensures _ xs); [done|].
  by apply ensures_modify.
Qed.

(** The runs are as [merge_at] trims them: B's first element is less than all of A,
    A's last greater than all of B. *)
Record trimmed (A B : list nat) : Prop := {
  tr_a : StronglySorted bef A;
  tr_b : StronglySorted bef B;
  tr_ear : forall x y, x ∈ A -> y ∈ B -> ear x y;
  tr_first : forall y B', B = y :: B' -> forall x, x ∈ A -> ltb y x = true;
  tr_last : forall A' x, A = A' ++ [x] -> forall y, y ∈ B -> ltb y x = true }.

(** The element of A that is left goes after the rest of B. *)
Lemma lo_copy_last pre post L fr out z rb s c R :
  lo_inv pre post L fr out [z] rb (s, c) ->
  ensures
    (do xs <- slift (slice (ids s) (pb c) (pb c + nb c)) ;;
     write (store (dest c) xs) ;;;
     do x <- slift (at_ (tmp s) (pa c)) ;;
     write (store (dest c + nb c) [x])) s (merges pre post L fr) R.
Proof.
  intros Hi. pose proof Hi as [(hole & Hids & Hh) _ Hd Hpb _ Hnb _ _ _].
  cbn [fst snd] in *. destruct hole as [|h [|? ?]]; try done. apply ensures_bind, (lift_ensures _ rb).
  { eapply (lo_slice_b _ _ _ _ _ _ _ []); [by rewrite app_nil_r|done]. }
  apply ensures_bind, (write_ensures _ _ (pre ++ out ++ rb ++ drop (length rb) ([h] ++ rb) ++ post)).
  { rewrite Hids, (app_assoc [h]), <- (take_drop (length rb) ([h] ++ rb)) at 1.
    rewrite <- !app_assoc, !(app_assoc pre out). apply store_mid; [rewrite length_app; lia|].
    rewrite length_take, length_app. cbn. lia. }
  apply ensures_bind, (lift_ensures _ z); [by eapply lo_at_a|].
  apply (write_ensures _ _ (pre ++ (out ++ rb ++ [z]) ++ post)).
  { cbn [ids set_ids]. rewrite !app_assoc, <- (app_assoc _ _ post), <- (app_assoc _ _ post).
    apply store_mid; [rewrite !length_app; lia|]. rewrite length_drop, length_app. cbn. lia. }
  exists (out ++ rb ++ [z]). split; [split_and!; [done| |apply (lo_frame _ _ _ _ _ _ _ _ Hi)]|].
  - rewrite <- (lo_perm _ _ _ _ _ _ _ _ Hi). f_equiv. apply Permutation_app_comm.
  - intros HK. destruct (lo_mid _ _ _ _ _ _ _ _ Hi HK) as [H1 H2 H3 H4]. rewrite app_assoc.
    apply sorted_snoc. split; [done|]. intros b [Hb|Hb]%elem_of_app.
    + apply sorted_snoc in H1 as [_ H1]. by apply H1.
    + left. by apply (H4 []).
Qed.

Lemma merge_lo_ensures pre post A B s :
  Forall U (A ++ B) -> ids s = pre ++ A ++ B ++ post -> A <> [] -> B <> [] -> (K -> trimmed A B) ->
  ensures (merge_lo lt (length pre) (length A) (length B)) s
    (merges pre post (A ++ B) (pending s, list_len s)) (merge_stops pre post (A ++ B) (pending s, list_len s)).
Proof.
  intros UL Hs HA HB Htr. destruct A as [|x ra]; [done|]. destruct B as [|y rb]; [done|].
  unfold merge_lo. set (fr := (pending s, list_len s)). set (A := x :: ra) in *. set (B := y :: rb) in *.
  apply ensures_bind, (fill_tmp_ensures _ _ A); [rewrite Hs; by apply slice_mid|].
  apply ensures_bind, with_cursor_ensures.
  assert (Hi : lo_inv pre post (A ++ B) fr [] A B
                 (set_tmp A s, {| dest := length pre; pa := 0; pb := length pre + length A;
                                  na := length A; nb := length B |})).
  { split; cbn [fst snd]; try done; try (cbn; lia).
    - by exists A.
    - by exists [].
    - intros HK. destruct (Htr HK) as [H1 H2 H3 _ H5]. split; cbn [app]; try done.
      intros l z b Hl Hb. by eapply H5. }
  eapply ensures_mono; [apply (merge_lo_loop_ensures _ _ _ _ UL _ _ _ _ _ _ Hi); intros HK; by eapply (tr_first _ _ (Htr HK))| |].
  - intros [] [s' c'] (out & ra' & rb' & Hi' & He); cbn [fst snd] in *;
      apply ensures_bind, ensures_get; destruct (lo_tidy _ _ _ _ _ _ _ _ _ Hi') as [Ht1 Ht2].
    + apply ensures_bind, (lift_ensures _ _ _ _ _ Ht1), ensures_bind, (write_ensures _ _ _ _ _ Ht2).
      apply (lift_ensures _ tt); [done|]. exists (out ++ ra' ++ rb').
      split; [split_and!; [done|apply Hi'|apply (lo_frame _ _ _ _ _ _ _ _ Hi')]|]. intros HK.
      destruct (lo_mid _ _ _ _ _ _ _ _ Hi' HK). destruct He as [-> | ->]; [done|by rewrite app_nil_r].
    + destruct ra' as [|z [|? ?]]; try done. by eapply lo_copy_last.
  - intros e [s' c'] (He & out & ra' & rb' & Hi'). cbn [fst snd] in *.
    apply ensures_bind, ensures_get. destruct (lo_tidy _ _ _ _ _ _ _ _ _ Hi') as [Ht1 Ht2].
    apply ensures_bind, (lift_ensures _ _ _ _ _ Ht1), ensures_bind, (write_ensures _ _ _ _ _ Ht2).
    split; [done|]. exists (out ++ ra' ++ rb'). split_and!; [done|apply Hi'|apply (lo_frame _ _ _ _ _ _ _ _ Hi')].
Qed.
End Merge.
