(* ===== verification/TimsortMergeHi.v ===== *)
(** The merge from the right, [merge_hi]: the mirror image of [TimsortMerge]. *)
From S2P Require Import Prelude Timsort TimsortOrder TimsortMerge.
From stdpp Require Import sorting.
Local Open Scope monty_scope.

Section Merge.
Context {C : Type} (lt : nat -> nat -> C -> option bool * C) (ltb : nat -> nat -> bool) (K : Prop).
Context (U : nat -> Prop) (answers : forall x y c b c', U x -> U y -> lt x y c = (Some b, c') -> K -> b = ltb x y).
Context (Stop : sort_error -> C -> Prop).
Context (stopped : forall x y c c', U x -> U y -> lt x y c = (None, c') -> Stop SortAborted c').
Context (pos : nat -> nat) (SWK : K -> StrictWeak ltb).

Abbreviation bef := (before ltb pos).
Abbreviation ear := (earlier pos).
Abbreviation MS := (MergeState C).
Abbreviation CS := (MergeState C * Cursor)%type.

(** What is left of either run is before the output, every element of A was before B,
    and B's first element belongs first. *)
Record mid_hi (out ra rb : list nat) : Prop := {
  mh_a : StronglySorted bef (ra ++ out);
  mh_b : StronglySorted bef (rb ++ out);
  mh_ear : forall x y, x ∈ ra -> y ∈ rb -> ear x y;
  mh_first : forall y l x, rb = y :: l -> x ∈ ra -> ltb y x = true }.

Lemma mid_hi_as out ra xs rb :
  mid_hi out (ra ++ xs) rb -> (forall x y, x ∈ xs -> y ∈ rb -> ltb y x = true) -> mid_hi (xs ++ out) ra rb.
Proof.
  intros [Ha Hb He Hl] Hx. apply sorted_app in Hb as (Hb1 & Hb2 & Hb3). rewrite <- app_assoc in Ha. split.
  - done.
  - apply sorted_app in Ha as (_ & Ha & _). apply sorted_app. split_and!; [done..|].
    intros y x Hy [H|H]%elem_of_app; [|by apply Hb3]. left. by apply Hx.
  - intros x y H Hy. apply He; [|done]. apply elem_of_app. by left.
  - intros y l x Hrb H. apply (Hl y l); [done|]. apply elem_of_app. by left.
Qed.

Lemma mid_hi_bs out ra rb xs :
  mid_hi out ra (rb ++ xs) -> (forall x y, x ∈ xs -> y ∈ ra -> ltb x y = false) -> mid_hi (xs ++ out) ra rb.
Proof.
  intros [Ha Hb He Hl] Hx. apply sorted_app in Ha as (Ha1 & Ha2 & Ha3). rewrite <- app_assoc in Hb. split.
  - apply sorted_app in Hb as (_ & Hb & _). apply sorted_app. split_and!; [done..|].
    intros y x Hy [H|H]%elem_of_app; [|by apply Ha3]. right. split; [by apply Hx|].
    apply He; [done|]. apply elem_of_app. by right.
  - done.
  - intros x y H Hy. apply He; [done|]. apply elem_of_app. by left.
  - intros y l x -> H. by apply (Hl y (l ++ xs)).
Qed.

(** The state of [merge_hi]: what is left of A, a hole as long as what is left of B in
    [tmp], and the output. *)
Record hi_inv (pre post L : list nat) (fr : list Run * nat) (out ra rb : list nat) (s : CS) : Prop := {
  hi_ids : exists hole, ids s.1 = pre ++ ra ++ hole ++ out ++ post /\ length hole = length rb;
  hi_tmp : exists tb, tmp s.1 = rb ++ tb;
  hi_dest : dest s.2 = length pre + length ra + length rb;
  hi_pa : pa s.2 = length pre + length ra;
  hi_pb : pb s.2 = length rb;
  hi_na : na s.2 = length ra;
  hi_nb : nb s.2 = length rb;
  hi_perm : ra ++ rb ++ out ≡ₚ L;
  hi_frame : (pending s.1, list_len s.1) = fr;
  hi_mid : K -> mid_hi out ra rb }.

Lemma hi_inv_ext pre post L fr out ra rb s s' :
  hi_inv pre post L fr out ra rb s -> ids s'.1 = ids s.1 -> tmp s'.1 = tmp s.1 ->
  pending s'.1 = pending s.1 -> list_len s'.1 = list_len s.1 -> s'.2 = s.2 ->
  hi_inv pre post L fr out ra rb s'.
Proof.
  intros [H1 H2 H3 H4 H5 H6 H7 H8 H9 H10] E1 E2 E3 E4 E5.
  split; rewrite ?E1, ?E2, ?E3, ?E4, ?E5; done.
Qed.

Section Hi.
Context (pre post L : list nat) (fr : list Run * nat) (UL : Forall U L).
Abbreviation inv := (hi_inv pre post L fr).

Lemma hinv_all out ra rb s x : inv out ra rb s -> x ∈ ra ++ rb -> U x.
Proof.
  intros Hi Hx. rewrite Forall_forall in UL. apply UL. rewrite <- (hi_perm _ _ _ _ _ _ _ _ Hi), app_assoc.
  apply elem_of_app. by left.
Qed.

Lemma hinv_all_a out ra rb s : inv out ra rb s -> Forall U ra.
Proof. intros Hi. apply Forall_forall. intros x Hx. eapply hinv_all; [done|set_solver]. Qed.

Lemma hinv_all_b out ra rb s : inv out ra rb s -> Forall U rb.
Proof. intros Hi. apply Forall_forall. intros x Hx. eapply hinv_all; [done|set_solver]. Qed.

Lemma hinv_na out ra rb s c : inv out ra rb (s, c) -> na c = length ra.
Proof. apply hi_na. Qed.
Lemma hinv_nb out ra rb s c : inv out ra rb (s, c) -> nb c = length rb.
Proof. apply hi_nb. Qed.
Lemma hinv_pa out ra rb s c : inv out ra rb (s, c) -> pa c = length pre + length ra.
Proof. apply hi_pa. Qed.
Lemma hinv_pb out ra rb s c : inv out ra rb (s, c) -> pb c = length rb.
Proof. apply hi_pb. Qed.
Lemma hinv_dest out ra rb s c : inv out ra rb (s, c) -> dest c = length pre + length ra + length rb.
Proof. apply hi_dest. Qed.

(** Moving [xs] from A to the output. *)
Lemma hi_store_as out ra xs rb s c :
  inv out (ra ++ xs) rb (s, c) -> (K -> forall x y, x ∈ xs -> y ∈ rb -> ltb y x = true) ->
  exists l, store (dest c - length xs) xs (ids s) = Ok l
    /\ inv (xs ++ out) ra rb
         (set_ids l s, {| dest := dest c - length xs; pa := pa c - length xs; pb := pb c;
                          na := na c - length xs; nb := nb c |}).
Proof.
  intros [(hole & Hi & Hh) (tb & Ht) Hd Hpa Hpb Hna Hnb Hp Hf Hm] Hx. cbn [fst snd] in *.
  rewrite length_app in *. exists (pre ++ ra ++ take (length hole) (xs ++ hole) ++ xs ++ out ++ post). split.
  - rewrite Hi, <- (app_assoc ra xs), (app_assoc xs hole).
    rewrite <- (take_drop (length hole) (xs ++ hole)) at 1. rewrite <- !app_assoc.
    rewrite (app_assoc pre ra), (app_assoc (pre ++ ra)), (app_assoc pre ra), (app_assoc (pre ++ ra) (take _ _)).
    apply store_mid; [rewrite !length_app, length_take, length_app; lia|rewrite length_drop, length_app; lia].
  - split; cbn.
    + exists (take (length hole) (xs ++ hole)). rewrite length_take, length_app, <- !app_assoc. split; [done|lia].
    + by exists tb.
    + lia.
    + lia.
    + done.
    + lia.
    + done.
    + rewrite <- Hp, <- !app_assoc. f_equiv. rewrite !app_assoc. f_equiv. apply Permutation_app_comm.
    + done.
    + intros HK. apply mid_hi_as; auto.
Qed.

(** Moving [xs] from B to the output. *)
Lemma hi_store_bs out ra rb xs s c :
  inv out ra (rb ++ xs) (s, c) -> (K -> forall x y, x ∈ xs -> y ∈ ra -> ltb x y = false) ->
  exists l, store (dest c - length xs) xs (ids s) = Ok l
    /\ inv (xs ++ out) ra rb
         (set_ids l s, {| dest := dest c - length xs; pa := pa c; pb := pb c - length xs;
                          na := na c; nb := nb c - length xs |}).
Proof.
  intros [(hole & Hi & Hh) (tb & Ht) Hd Hpa Hpb Hna Hnb Hp Hf Hm] Hx. cbn [fst snd] in *.
  rewrite length_app in *. exists (pre ++ ra ++ take (length rb) hole ++ xs ++ out ++ post). split.
  - rewrite Hi. rewrite <- (take_drop (length rb) hole) at 1. rewrite <- !app_assoc.
    rewrite (app_assoc pre ra), (app_assoc (pre ++ ra)), (app_assoc pre ra), (app_assoc (pre ++ ra) (take _ _)).
    apply store_mid; [rewrite !length_app, length_take; lia|rewrite length_drop; lia].
  - split; cbn.
    + exists (take (length rb) hole). rewrite length_take, <- !app_assoc. split; [done|lia].
    + exists (xs ++ tb). by rewrite app_assoc.
    + lia.
    + done.
    + lia.
    + done.
    + lia.
    + by rewrite <- Hp, <- !app_assoc.
    + done.
    + intros HK. apply mid_hi_bs; auto.
Qed.

Lemma hi_at_a out ra x rb s c i : inv out (ra ++ [x]) rb (s, c) -> i = length pre + length ra -> at_ (ids s) i = Ok x.
Proof.
  intros [(hole & Hi & Hh) _ _ _ _ _ _ _ _ _] ->. cbn in *.
  rewrite Hi, <- (app_assoc ra), (app_assoc pre). apply at_mid. by rewrite length_app.
Qed.

Lemma hi_slice_a out ra xs rb s c i j :
  inv out (ra ++ xs) rb (s, c) -> i = length pre + length ra -> j = i + length xs -> slice (ids s) i j = Ok xs.
Proof.
  intros [(hole & Hi & Hh) _ _ _ _ _ _ _ _ _] -> ->. cbn in *.
  rewrite Hi, <- (app_assoc ra), (app_assoc pre). apply slice_mid; rewrite length_app; lia.
Qed.

Lemma hi_at_b out ra rb y s c i : inv out ra (rb ++ [y]) (s, c) -> i = length rb -> at_ (tmp s) i = Ok y.
Proof. intros [_ (tb & Ht) _ _ _ _ _ _ _ _] ->. cbn in *. rewrite Ht, <- app_assoc. by apply at_mid. Qed.

Lemma hi_slice_b out ra rb xs s c i j :
  inv out ra (rb ++ xs) (s, c) -> i = length rb -> j = i + length xs -> slice (tmp s) i j = Ok xs.
Proof. intros [_ (tb & Ht) _ _ _ _ _ _ _ _] -> ->. cbn in *. rewrite Ht, <- app_assoc. apply slice_mid; lia. Qed.

Lemma hi_take_a_ensures out ra x rb s c Q R :
  inv out (ra ++ [x]) rb (s, c) -> (K -> forall y, y ∈ rb -> ltb y x = true) ->
  (forall s' c', inv ([x] ++ out) ra rb (s', c') -> Q c' (s', c')) -> ensures (move hi_take_a) (s, c) Q R.
Proof.
  intros Hi Hx HQ. pose proof (hinv_na _ _ _ _ _ Hi) as Hn. pose proof (hinv_pa _ _ _ _ _ Hi) as Hpa.
  pose proof (hinv_dest _ _ _ _ _ Hi) as Hd. rewrite length_app in *. cbn in Hn, Hpa, Hd.
  destruct (hi_store_as out ra [x] rb s c Hi) as (l & Hl & Hi').
  { intros HK a b ->%list_elem_of_singleton. by apply Hx. }
  eapply move_ensures; [|by apply HQ, Hi']. unfold hi_take_a. cbn [length] in *.
  rewrite !usub_Ok by lia. cbn [rbind]. rewrite (hi_at_a _ _ _ _ _ _ (pa c - 1) Hi) by lia. cbn [rbind].
  by rewrite Hl.
Qed.

Lemma hi_take_b_ensures out ra rb y s c Q R :
  inv out ra (rb ++ [y]) (s, c) -> (K -> forall x, x ∈ ra -> ltb y x = false) ->
  (forall s' c', inv ([y] ++ out) ra rb (s', c') -> Q c' (s', c')) -> ensures (move hi_take_b) (s, c) Q R.
Proof.
  intros Hi Hx HQ. pose proof (hinv_nb _ _ _ _ _ Hi) as Hn. pose proof (hinv_pb _ _ _ _ _ Hi) as Hpb.
  pose proof (hinv_dest _ _ _ _ _ Hi) as Hd. rewrite length_app in *. cbn in Hn, Hpb, Hd.
  destruct (hi_store_bs out ra rb [y] s c Hi) as (l & Hl & Hi').
  { intros HK a b ->%list_elem_of_singleton. by apply Hx. }
  eapply move_ensures; [|by apply HQ, Hi']. unfold hi_take_b. cbn [length] in *.
  rewrite !usub_Ok by lia. cbn [rbind]. rewrite (hi_at_b _ _ _ _ _ _ (pb c - 1) Hi) by lia. cbn [rbind].
  by rewrite Hl.
Qed.

Lemma hi_take_as_ensures out ra xs rb s c k Q R :
  inv out (ra ++ xs) rb (s, c) -> k = length xs -> (K -> forall x y, x ∈ xs -> y ∈ rb -> ltb y x = true) ->
  (forall s' c', inv (xs ++ out) ra rb (s', c') -> Q c' (s', c')) ->
  ensures (if 0 <? k then move (hi_take_as k) else sret c) (s, c) Q R.
Proof.
  intros Hi -> Hx HQ. pose proof (hinv_na _ _ _ _ _ Hi) as Hn. pose proof (hinv_pa _ _ _ _ _ Hi) as Hpa.
  pose proof (hinv_dest _ _ _ _ _ Hi) as Hd. rewrite length_app in *.
  destruct (Nat.ltb_spec 0 (length xs)) as [Hp|Hz].
  - destruct (hi_store_as out ra xs rb s c Hi Hx) as (l & Hl & Hi').
    eapply move_ensures; [|by apply HQ, Hi']. unfold hi_take_as. rewrite !usub_Ok by lia. cbn [rbind].
    rewrite (hi_slice_a _ _ xs _ _ _ (pa c - length xs) _ Hi) by lia. cbn [rbind]. by rewrite Hl.
  - destruct xs; [|cbn in *; lia]. apply ensures_ret, HQ. by rewrite app_nil_r in Hi.
Qed.

Lemma hi_take_bs_ensures out ra rb xs s c k Q R :
  inv out ra (rb ++ xs) (s, c) -> k = length xs -> (K -> forall x y, x ∈ xs -> y ∈ ra -> ltb x y = false) ->
  (forall s' c', inv (xs ++ out) ra rb (s', c') -> Q c' (s', c')) ->
  ensures (if 0 <? k then move (hi_take_bs k) else sret c) (s, c) Q R.
Proof.
  intros Hi -> Hx HQ. pose proof (hinv_nb _ _ _ _ _ Hi) as Hn. pose proof (hinv_pb _ _ _ _ _ Hi) as Hpb.
  pose proof (hinv_dest _ _ _ _ _ Hi) as Hd. rewrite length_app in *.
  destruct (Nat.ltb_spec 0 (length xs)) as [Hp|Hz].
  - destruct (hi_store_bs out ra rb xs s c Hi Hx) as (l & Hl & Hi').
    eapply move_ensures; [|by apply HQ, Hi']. unfold hi_take_bs. rewrite !usub_Ok by lia. cbn [rbind].
    rewrite (hi_slice_b _ _ _ xs _ _ (pb c - length xs) _ Hi) by lia. cbn [rbind]. by rewrite Hl.
  - destruct xs; [|cbn in *; lia]. apply ensures_ret, HQ. by rewrite app_nil_r in Hi.
Qed.

Definition hi_left (N : nat) (t : (Mode * nat) + MergeEnd) (s : CS) : Prop :=
  exists out ra rb, inv out ra rb s /\
    match t with
    | inl _ => 1 <= length ra /\ 2 <= length rb /\ length ra + length rb < N
    | inr Drain => ra = [] \/ rb = []
    | inr CopyLast => length rb = 1
    end.

Definition hi_stops (e : sort_error) (s : CS) : Prop :=
  Stop e (cmp s.1) /\ exists out ra rb, inv out ra rb s.

Lemma hi_search {A} (m : M C sort_error A) out ra rb s c (P : A -> Prop) Q :
  inv out ra rb (s, c) -> ensures m (cmp s) (fun x _ => P x) Stop ->
  (forall x s', inv out ra rb (s', c) -> P x -> Q x (s', c)) ->
  ensures (compares_c m) (s, c) Q hi_stops.
Proof.
  intros Hi Hm HQ. apply compares_c_ensures. eapply ensures_mono; [exact Hm| |].
  - intros x c' Hx. apply HQ; [|done]. by apply (hi_inv_ext _ _ _ _ _ _ _ _ _ Hi).
  - intros e c' He. split; [done|]. exists out, ra, rb. by apply (hi_inv_ext _ _ _ _ _ _ _ _ _ Hi).
Qed.

Lemma hi_keep out ra rb s c n Q R :
  inv out ra rb (s, c) -> (forall s', inv out ra rb (s', c) -> Q tt (s', c)) ->
  ensures (keep_min_gallop n) (s, c) Q R.
Proof. intros Hi HQ. apply ensures_modify, HQ. by apply (hi_inv_ext _ _ _ _ _ _ _ _ _ Hi). Qed.

(** The last element of a sorted run is not less than the others. *)
Lemma last_max l x z out : K -> StronglySorted bef ((l ++ [x]) ++ out) -> z ∈ l ++ [x] -> ltb x z = false.
Proof.
  intros HK Hs [Hz| ->%list_elem_of_singleton]%elem_of_app; [|by apply lt_irrefl, SWK].
  apply sorted_app in Hs as (Hs & _ & _). apply sorted_snoc in Hs as [_ Hs].
  eapply before_le; [by apply SWK|by apply Hs].
Qed.

Lemma mid_hi_lt_all out ra x rb y :
  K -> mid_hi out ra (rb ++ [y]) -> ltb y x = true -> forall b, b ∈ rb ++ [y] -> ltb b x = true.
Proof.
  intros HK [_ Hb _ _] Hy b Hin. eapply le_lt_trans; [by apply SWK| |exact Hy]. by eapply last_max.
Qed.

Lemma mid_hi_ge_all out ra x rb y :
  K -> mid_hi out (ra ++ [x]) rb -> ltb y x = false -> forall a, a ∈ ra ++ [x] -> ltb y a = false.
Proof.
  intros HK [Ha _ _ _] Hy a Hin. eapply (sw_trans _ (SWK HK)); [|exact Hy]. by eapply last_max.
Qed.

Lemma hi_left_next N out ra rb s c t m :
  inv out ra rb (s, c) -> t = inl m -> 1 <= length ra -> 2 <= length rb -> length ra + length rb < N ->
  hi_left N t (s, c).
Proof. intros Hi -> H1 H2 H3. by exists out, ra, rb. Qed.

Lemma snoc_inv (l : list nat) : 1 <= length l -> exists k x, l = k ++ [x].
Proof. intros H. destruct (exists_last (l := l)) as (k & x & ->); [by destruct l; cbn in *; [lia|]|eauto]. Qed.

Lemma hi_straight_ensures acount bcount mg out ra rb s c :
  inv out ra rb (s, c) -> 1 <= length ra -> 2 <= length rb ->
  ensures (hi_straight lt acount bcount mg) (s, c) (hi_left (length ra + length rb)) hi_stops.
Proof.
  intros Hi Hra Hrb. destruct (snoc_inv ra Hra) as (ra' & x & ->).
  destruct (snoc_inv rb ltac:(lia)) as (rb' & y & ->). rewrite !length_app in *. cbn [length] in *.
  pose proof (hinv_pa _ _ _ _ _ Hi) as Hpa. pose proof (hinv_pb _ _ _ _ _ Hi) as Hpb. rewrite length_app in *.
  cbn [length] in *. unfold hi_straight. apply ensures_bind, ensures_get. cbn [fst snd].
  apply ensures_bind, usub_ensures; [lia|]. apply ensures_bind, (lift_ensures _ y); [eapply hi_at_b; [exact Hi|lia]|].
  apply ensures_bind, usub_ensures; [lia|]. apply ensures_bind, (lift_ensures _ x); [eapply hi_at_a; [exact Hi|lia]|].
  apply ensures_bind. eapply (hi_search _ _ _ _ _ _ (fun b => K -> b = ltb y x) _ Hi).
  { apply (ask_ensures lt ltb K U answers Stop stopped); [eapply hinv_all; [exact Hi|set_solver]..|done]. }
  clear s Hi Hpa Hpb. intros b s Hi Hb. pose proof (hi_mid _ _ _ _ _ _ _ _ Hi) as Hm. destruct b.
  - apply ensures_bind. eapply hi_take_a_ensures; [exact Hi| |].
    { intros HK. eapply mid_hi_lt_all; [done|by apply Hm|by rewrite <- Hb]. }
    intros s1 c1 Hi1. rewrite (hinv_na _ _ _ _ _ Hi1). destruct (Nat.eqb_spec (length ra') 0) as [He|He].
    + apply length_zero_iff_nil in He as ->. apply ensures_ret. exists ([x] ++ out), [], (rb' ++ [y]). auto.
    + apply ensures_ret. destruct (after_win_inl (acount + 1) mg (Straight (acount + 1) 0)) as [t Ht].
      eapply hi_left_next; [exact Hi1|exact Ht|rewrite ?length_app; cbn; lia..].
  - apply ensures_bind. eapply hi_take_b_ensures; [exact Hi| |].
    { intros HK. eapply mid_hi_ge_all; [done|by apply Hm|by rewrite <- Hb]. }
    intros s1 c1 Hi1. rewrite (hinv_nb _ _ _ _ _ Hi1). destruct (Nat.eqb_spec (length rb') 1) as [He|He].
    + apply ensures_ret. exists ([y] ++ out), (ra' ++ [x]), rb'. auto.
    + apply ensures_ret. destruct (after_win_inl (bcount + 1) mg (Straight 0 (bcount + 1))) as [t Ht].
      eapply hi_left_next; [exact Hi1|exact Ht|rewrite ?length_app; cbn; lia..].
Qed.

Lemma hi_gallop_on_ensures N acount bcount mg out ra rb s c :
  inv out ra rb (s, c) -> 1 <= length ra -> 2 <= length rb -> length ra + length rb < N ->
  ensures (gallop_on acount bcount mg) (s, c) (hi_left N) hi_stops.
Proof.
  intros Hi H1 H2 H3. unfold gallop_on. case_match.
  - apply ensures_bind. eapply hi_keep; [exact Hi|]. intros s' Hi'. apply ensures_ret. by eapply hi_left_next.
  - apply ensures_ret. by eapply hi_left_next.
Qed.

Lemma hi_gallop_b_ensures N acount mg out ra rb s c :
  inv out ra rb (s, c) -> 1 <= length ra -> 2 <= length rb -> length ra + length rb < N ->
  ensures (hi_gallop_b lt acount mg) (s, c) (hi_left N) hi_stops.
Proof.
  intros Hi Hra Hrb HN. destruct (snoc_inv ra Hra) as (ra' & x & ->). rewrite length_app in *. cbn [length] in *.
  pose proof (hinv_pa _ _ _ _ _ Hi) as Hpa. pose proof (hinv_nb _ _ _ _ _ Hi) as Hnb. rewrite length_app in *.
  cbn [length] in *. unfold hi_gallop_b. apply ensures_bind, ensures_get. cbn [fst snd].
  apply ensures_bind, usub_ensures; [lia|]. apply ensures_bind, (lift_ensures _ x); [eapply hi_at_a; [exact Hi|lia]|].
  apply ensures_bind. unfold gallop_left_tmp. apply ensures_bind, ensures_get. cbn [fst].
  apply ensures_bind, (lift_ensures _ rb); [by eapply (hi_slice_b _ _ [])|].
  apply ensures_bind, usub_ensures; [lia|].
  eapply (hi_search _ _ _ _ _ _ _ _ Hi (gallop_left_divides lt ltb K U answers Stop stopped pos SWK x rb (nb c - 1) _
    (hinv_all_b _ _ _ _ Hi) ltac:(eapply hinv_all; [exact Hi|set_solver]) ltac:(lia))).
  clear s Hi. intros r s Hi (u & v & -> & -> & Huv). pose proof (hi_mid _ _ _ _ _ _ _ _ Hi) as Hm.
  assert (Hp : K -> (forall b, b ∈ u -> ltb b x = true) /\ (forall b, b ∈ v -> ltb b x = false)).
  { intros HK. apply Huv; [done|]. destruct (Hm HK) as [_ Hb _ _]. by apply sorted_app in Hb as (Hb & _ & _). }
  rewrite length_app in *. apply ensures_bind, usub_ensures; [lia|].
  replace (nb c - length u) with (length v) by lia.
  apply ensures_bind. eapply hi_take_bs_ensures; [exact Hi|done| |].
  { intros HK b a Hb Ha. eapply mid_hi_ge_all; [done|by apply Hm| |done]. by apply (Hp HK). }
  clear s c Hi Hpa Hnb. intros s c Hi. rewrite (hinv_nb _ _ _ _ _ Hi).
  destruct ((0 <? length v) && (length u =? 1)) eqn:H1.
  { apply andb_true_iff in H1 as [_ H1]. apply Nat.eqb_eq in H1. apply ensures_ret.
    exists (v ++ out), (ra' ++ [x]), u. auto. }
  destruct ((0 <? length v) && (length u =? 0)) eqn:H0.
  { apply andb_true_iff in H0 as [_ H0]. apply Nat.eqb_eq, length_zero_iff_nil in H0 as ->.
    apply ensures_ret. exists (v ++ out), (ra' ++ [x]), []. auto. }
  assert (Hu : 2 <= length u).
  { destruct v; [cbn in Hrb; lia|]. destruct u as [|? [|? u]]; [done..|cbn; lia]. }
  apply ensures_bind. eapply hi_take_a_ensures; [exact Hi|intros HK; apply (Hp HK)|].
  clear s c Hi. intros s c Hi. rewrite (hinv_na _ _ _ _ _ Hi). destruct (Nat.eqb_spec (length ra') 0) as [He|He].
  - apply length_zero_iff_nil in He as ->. apply ensures_ret. exists ([x] ++ v ++ out), [], u. auto.
  - eapply hi_gallop_on_ensures; [exact Hi|lia..].
Qed.

Lemma hi_gallop_ensures mg out ra rb s c :
  inv out ra rb (s, c) -> 1 <= length ra -> 2 <= length rb ->
  ensures (hi_gallop lt (length pre) mg) (s, c) (hi_left (length ra + length rb)) hi_stops.
Proof.
  intros Hi Hra Hrb. destruct (snoc_inv rb ltac:(lia)) as (rb' & y & ->). rewrite length_app in *. cbn [length] in *.
  unfold hi_gallop. apply ensures_bind. eapply hi_keep; [exact Hi|]. clear s Hi. intros s Hi.
  pose proof (hinv_pb _ _ _ _ _ Hi) as Hpb. pose proof (hinv_na _ _ _ _ _ Hi) as Hna. rewrite length_app in *.
  cbn [length] in *. apply ensures_bind, ensures_get. cbn [fst snd].
  apply ensures_bind, usub_ensures; [lia|]. apply ensures_bind, (lift_ensures _ y); [eapply hi_at_b; [exact Hi|lia]|].
  apply ensures_bind, (lift_ensures _ ra).
  { eapply (hi_slice_a _ []); [exact Hi|cbn; lia|lia]. }
  apply ensures_bind, usub_ensures; [lia|]. apply ensures_bind.
  eapply (hi_search _ _ _ _ _ _ _ _ Hi (gallop_right_divides lt ltb K U answers Stop stopped pos SWK y ra (na c - 1) _
    (hinv_all_a _ _ _ _ Hi) ltac:(eapply hinv_all; [exact Hi|set_solver]) ltac:(lia))).
  clear s Hi. intros r s Hi (u & v & -> & -> & Huv). pose proof (hi_mid _ _ _ _ _ _ _ _ Hi) as Hm.
  assert (Hp : K -> (forall a, a ∈ u -> ltb y a = false) /\ (forall a, a ∈ v -> ltb y a = true)).
  { intros HK. destruct (Hm HK) as [Ha _ _ _]. apply sorted_app in Ha as (Ha & _ & _).
    destruct (Huv HK Ha) as [H1 H2]. split; intros a H; [by apply negb_true_iff, H1|by apply negb_false_iff, H2]. }
  rewrite length_app in *. apply ensures_bind, usub_ensures; [lia|].
  replace (na c - length u) with (length v) by lia.
  apply ensures_bind. eapply hi_take_as_ensures; [exact Hi|done| |].
  { intros HK a b Ha Hb. eapply mid_hi_lt_all; [done|by apply Hm| |done]. by apply (Hp HK). }
  clear s c Hi Hpb Hna. intros s c Hi. rewrite (hinv_na _ _ _ _ _ Hi).
  destruct ((0 <? length v) && (length u =? 0)) eqn:H0.
  { apply andb_true_iff in H0 as [_ H0]. apply Nat.eqb_eq, length_zero_iff_nil in H0 as ->.
    apply ensures_ret. exists (v ++ out), [], (rb' ++ [y]). auto. }
  assert (Hu : 1 <= length u).
  { destruct u; [|cbn; lia]. destruct v; [by cbn in Hra; lia|done]. }
  apply ensures_bind. eapply hi_take_b_ensures; [exact Hi|intros HK; apply (Hp HK)|].
  clear s c Hi. intros s c Hi. rewrite (hinv_nb _ _ _ _ _ Hi). destruct (Nat.eqb_spec (length rb') 1) as [He|He].
  - apply ensures_ret. exists ([y] ++ v ++ out), u, rb'. auto.
  - eapply hi_gallop_b_ensures; [exact Hi|lia..].
Qed.

Lemma hi_loop_ensures : forall fuel m mg out ra rb s c,
  inv out ra rb (s, c) -> 1 <= length ra -> 2 <= length rb -> length ra + length rb <= fuel ->
  ensures (hi_loop lt (length pre) fuel m mg) (s, c) (fun e => hi_left 0 (inr e)) hi_stops.
Proof.
  induction fuel as [|fuel IH]; intros m mg out ra rb s c Hi Hra Hrb Hf; [lia|]. cbn [hi_loop].
  apply ensures_bind.
  apply (ensures_mono _ _ (hi_left (length ra + length rb)) _ hi_stops); [|clear - IH Hf|done].
  - destruct m as [acount bcount|]; cbn; [by eapply hi_straight_ensures|by eapply hi_gallop_ensures].
  - intros [[m' mg']|e] [s' c'] (out' & ra' & rb' & Hi & H).
    + eapply IH; [exact Hi|lia..].
    + apply ensures_ret. by exists out', ra', rb'.
Qed.

Lemma merge_hi_loop_ensures ra x rb s c :
  inv [] (ra ++ [x]) rb (s, c) -> 1 <= length rb -> (K -> forall b, b ∈ rb -> ltb b x = true) ->
  ensures (merge_hi_loop lt (length pre)) (s, c) (fun e => hi_left 0 (inr e)) hi_stops.
Proof.
  intros Hi Hrb Hy. unfold merge_hi_loop. apply ensures_bind. eapply hi_take_a_ensures; [exact Hi|done|].
  clear s c Hi. intros s c Hi. rewrite (hinv_na _ _ _ _ _ Hi), (hinv_nb _ _ _ _ _ Hi).
  destruct (Nat.eqb_spec (length ra) 0) as [He|He].
  { apply length_zero_iff_nil in He as ->. apply ensures_ret. exists ([x] ++ []), [], rb. auto. }
  destruct (Nat.eqb_spec (length rb) 1) as [He'|He'].
  { apply ensures_ret. exists ([x] ++ []), ra, rb. auto. }
  apply ensures_bind, ensures_get. eapply hi_loop_ensures; [exact Hi|lia..].
Qed.

(** Putting back what is left of B. *)
Lemma hi_tidy out ra rb s c :
  inv out ra rb (s, c) ->
  usub (dest c) (nb c) = Ok (length pre + length ra) /\ slice (tmp s) 0 (nb c) = Ok rb
  /\ store (length pre + length ra) rb (ids s) = Ok (pre ++ (ra ++ rb ++ out) ++ post).
Proof.
  intros Hi. rewrite (hinv_dest _ _ _ _ _ Hi), (hinv_nb _ _ _ _ _ Hi). split_and!.
  - rewrite usub_Ok by lia. f_equal. lia.
  - by eapply (hi_slice_b _ _ []).
  - destruct Hi as [(hole & Hi & Hh) _ _ _ _ _ _ _ _ _]. cbn in *. rewrite Hi, <- !app_assoc, !(app_assoc pre ra).
    apply store_mid; [by rewrite length_app|done].
Qed.

(** The element of B that is left goes before the rest of A. *)
Lemma hi_copy_last out ra z s c R :
  inv out ra [z] (s, c) ->
  ensures
    (do i <- slift (usub (pa c) (na c)) ;;
     do xs <- slift (slice (ids s) i (pa c)) ;;
     do d <- slift (usub (dest c) (na c)) ;;
     write (store d xs) ;;;
     do d <- slift (usub d 1) ;;
     do x <- slift (at_ (tmp s) 0) ;;
     write (store d [x])) s (merges ltb K pos pre post L fr) R.
Proof.
  intros Hi. pose proof Hi as [(hole & Hids & Hh) _ Hd Hpa _ Hna _ _ _ _]. cbn [fst snd length] in *.
  destruct hole as [|h [|? ?]]; try done.
  apply ensures_bind, usub_ensures; [lia|]. apply ensures_bind, (lift_ensures _ ra).
  { eapply (hi_slice_a _ []); [exact Hi|cbn; lia|lia]. }
  apply ensures_bind, usub_ensures; [lia|].
  apply ensures_bind, (write_ensures _ _ (pre ++ take 1 (ra ++ [h]) ++ ra ++ out ++ post)).
  { rewrite Hids, (app_assoc ra [h]), <- (take_drop 1 (ra ++ [h])) at 1.
    rewrite <- !app_assoc, !(app_assoc pre (take 1 _)).
    apply store_mid; [rewrite length_app, length_take, length_app|rewrite length_drop, length_app];
      cbn [length]; lia. }
  apply ensures_bind, usub_ensures; [lia|].
  apply ensures_bind, (lift_ensures _ z); [by eapply (hi_at_b _ _ [])|].
  apply (write_ensures _ _ (pre ++ ([z] ++ ra ++ out) ++ post)).
  { cbn [ids set_ids]. rewrite <- !app_assoc. apply store_mid; [lia|]. rewrite length_take, length_app. cbn [length]. lia. }
  exists ([z] ++ ra ++ out). split; [split_and!; [done| |apply (hi_frame _ _ _ _ _ _ _ _ Hi)]|].
  - rewrite <- (hi_perm _ _ _ _ _ _ _ _ Hi), !app_assoc. f_equiv. apply Permutation_app_comm.
  - intros HK. destruct (hi_mid _ _ _ _ _ _ _ _ Hi HK) as [H1 H2 H3 H4]. constructor; [done|].
    apply Forall_forall. intros b [Hb|Hb]%elem_of_app; [left; by eapply H4|].
    apply StronglySorted_inv in H2 as [_ H2]. rewrite Forall_forall in H2. by apply H2.
Qed.
End Hi.

Lemma merge_hi_ensures pre post A B s :
  Forall U (A ++ B) -> ids s = pre ++ A ++ B ++ post -> A <> [] -> B <> [] -> (K -> trimmed ltb pos A B) ->
  ensures (merge_hi lt (length pre) (length A) (length B)) s
    (merges ltb K pos pre post (A ++ B) (pending s, list_len s))
    (merge_stops Stop pre post (A ++ B) (pending s, list_len s)).
Proof.
  intros UL Hs HA HB Htr. destruct (exists_last HA) as (A' & x & HAx). unfold merge_hi.
  set (fr := (pending s, list_len s)).
  apply ensures_bind, (fill_tmp_ensures _ _ B).
  { rewrite Hs, app_assoc. apply slice_mid; rewrite length_app; lia. }
  apply ensures_bind, with_cursor_ensures.
  assert (Hi : hi_inv pre post (A ++ B) fr [] A B
                 (set_tmp B s, {| dest := length pre + length A + length B; pa := length pre + length A;
                                  pb := length B; na := length A; nb := length B |})).
  { split; cbn [fst snd]; try done.
    - by exists B.
    - exists []. by rewrite app_nil_r.
    - by rewrite app_nil_r.
    - intros HK. destruct (Htr HK) as [H1 H2 H3 H4 _]. split; rewrite ?app_nil_r; try done.
      intros y l a Hl Ha. by eapply H4. }
  subst A. eapply ensures_mono; [apply (merge_hi_loop_ensures _ _ _ _ UL _ _ _ _ _ Hi)| |].
  - destruct B; cbn; [done|lia].
  - intros HK. by eapply (tr_last _ _ _ _ (Htr HK)).
  - intros [] [s' c'] (out & ra & rb & Hi' & He); cbn [fst snd] in *; apply ensures_bind, ensures_get.
    + destruct (hi_tidy _ _ _ _ _ _ _ _ _ Hi') as (Ht1 & Ht2 & Ht3).
      apply ensures_bind, (lift_ensures _ _ _ _ _ Ht1), ensures_bind, (lift_ensures _ _ _ _ _ Ht2).
      apply ensures_bind, (write_ensures _ _ _ _ _ Ht3). apply (lift_ensures _ tt); [done|]. exists (ra ++ rb ++ out).
      split; [split_and!; [done|apply Hi'|apply (hi_frame _ _ _ _ _ _ _ _ Hi')]|]. intros HK.
      destruct (hi_mid _ _ _ _ _ _ _ _ Hi' HK). by destruct He as [-> | ->].
    + destruct rb as [|z [|? ?]]; try done. by eapply hi_copy_last.
  - intros e [s' c'] (He & out & ra & rb & Hi'). cbn [fst snd] in *. apply ensures_bind, ensures_get.
    destruct (hi_tidy _ _ _ _ _ _ _ _ _ Hi') as (Ht1 & Ht2 & Ht3).
    apply ensures_bind, (lift_ensures _ _ _ _ _ Ht1), ensures_bind, (lift_ensures _ _ _ _ _ Ht2).
    apply ensures_bind, (write_ensures _ _ _ _ _ Ht3). split; [done|]. exists (ra ++ rb ++ out).
    split_and!; [done|apply Hi'|apply (hi_frame _ _ _ _ _ _ _ _ Hi')].
Qed.
End Merge.
