(* ===== verification/TimsortStack.v ===== *)
(** The stack of pending runs: [merge_at], the powersort merge policy and the final
    collapse, and with them the whole of [timsort]. *)
From S2P Require Import Prelude Timsort TimsortOrder TimsortRuns TimsortMerge TimsortMergeHi.
From stdpp Require Import sorting.
Local Open Scope monty_scope.

(** ** Run lengths and powers *)

Lemma minrun_loop_ok : forall fuel n r, n < fuel -> r <= 1 ->
  exists m, minrun_loop fuel n r = Ok m
    /\ (if n <? MAX_MINRUN then m = n + r else 32 <= m <= 64).
Proof.
  induction fuel as [|fuel IH]; intros n r Hf Hr; [lia|]. cbn [minrun_loop]. unfold MAX_MINRUN in *.
  destruct (Nat.leb_spec 64 n) as [Hn|Hn].
  - assert (Hs : Nat.shiftr n 1 = n / 2) by apply Nat.shiftr_div_pow2.
    assert (Hl : Nat.lor r (Nat.land n 1) <= 1).
    { change 1 with (Nat.ones 1) at 1. rewrite Nat.land_ones. change (2 ^ 1) with 2.
      pose proof (Nat.mod_upper_bound n 2 ltac:(lia)).
      destruct r as [|[|?]]; [|..|lia]; destruct (n mod 2) as [|[|?]]; cbn; lia. }
    assert (Hlt : n / 2 < n) by (apply Nat.div_lt; lia).
    assert (H32 : 32 <= n / 2) by (apply Nat.div_le_lower_bound; lia).
    rewrite Hs. destruct (IH (n / 2) _ ltac:(lia) Hl) as (m & -> & Hm). exists m. split; [done|].
    rewrite (proj2 (Nat.ltb_ge n 64)) by lia. destruct (Nat.ltb_spec (n / 2) 64); lia.
  - exists (n + r). split; [done|]. by rewrite (proj2 (Nat.ltb_lt n 64)) by lia.
Qed.

(** The doubled midpoints are followed bit by bit until they differ. *)
Lemma powerloop_loop_ok a0 b0 n : forall fuel a b r q,
  a < b -> b < 2 * n -> 2 * n <= (b - a) * 2 ^ fuel ->
  a0 * 2 ^ r = q * (2 * n) + a -> b0 * 2 ^ r = q * (2 * n) + b ->
  exists p, powerloop_loop fuel n a b r = Ok p /\ r < p
    /\ (a0 * 2 ^ p) / (2 * n) <> (b0 * 2 ^ p) / (2 * n)
    /\ (forall k, r <= k < p -> (a0 * 2 ^ k) / (2 * n) = (b0 * 2 ^ k) / (2 * n)).
Proof.
  induction fuel as [|fuel IH]; intros a b r q Hab Hb Hf Ha0 Hb0; [cbn in Hf; lia|]. cbn [powerloop_loop].
  assert (Hdiv : forall x y, y < 2 * n -> (x * (2 * n) + y) / (2 * n) = x).
  { intros x y Hy. rewrite Nat.div_add_l, Nat.div_small; lia. }
  assert (Hnext : forall q' a' b', a' < b' -> b' < 2 * n -> b' - a' = 2 * (b - a) ->
            a0 * 2 ^ S r = q' * (2 * n) + a' -> b0 * 2 ^ S r = q' * (2 * n) + b' ->
            exists p, powerloop_loop fuel n a' b' (S r) = Ok p /\ r < p
              /\ (a0 * 2 ^ p) / (2 * n) <> (b0 * 2 ^ p) / (2 * n)
              /\ (forall k, r <= k < p -> (a0 * 2 ^ k) / (2 * n) = (b0 * 2 ^ k) / (2 * n))).
  { intros q' a' b' H1 H2 H3 H4 H5. destruct (IH a' b' (S r) q') as (p & Hp & Hrp & Hd & He); try done.
    { rewrite H3. cbn [Nat.pow] in Hf. nia. }
    exists p. split_and!; [done|lia|done|]. intros k Hk. destruct (decide (k = r)) as [->|]; [|apply He; lia].
    rewrite Ha0, Hb0, !Hdiv; lia. }
  assert (Hpow : 2 ^ S r = 2 * 2 ^ r) by done.
  destruct (Nat.leb_spec n a) as [Hna|Hna].
  - rewrite !usub_Ok by lia. cbn [rbind]. apply (Hnext (2 * q + 1)); nia.
  - destruct (Nat.leb_spec n b) as [Hnb|Hnb]; [|apply (Hnext (2 * q)); nia].
    exists (S r). split_and!; [done|lia| |].
    + replace (a0 * 2 ^ S r) with ((2 * q) * (2 * n) + 2 * a) by nia.
      replace (b0 * 2 ^ S r) with ((2 * q + 1) * (2 * n) + (2 * b - 2 * n)) by nia. rewrite !Hdiv; lia.
    + intros k Hk. assert (k = r) as -> by lia. rewrite Ha0, Hb0, !Hdiv; lia.
Qed.

Lemma pow2_ge n : 2 * n <= 2 ^ S n.
Proof. pose proof (Nat.pow_gt_lin_r 2 n ltac:(lia)). cbn. lia. Qed.

Lemma powerloop_ok s1 n1 n2 n :
  1 <= n1 -> 1 <= n2 -> s1 + n1 + n2 <= n ->
  exists p, powerloop s1 n1 n2 n = Ok p /\ 0 < p
    /\ ((2 * s1 + n1) * 2 ^ p) / (2 * n) <> ((2 * (s1 + n1) + n2) * 2 ^ p) / (2 * n)
    /\ (forall k, k < p -> ((2 * s1 + n1) * 2 ^ k) / (2 * n) = ((2 * (s1 + n1) + n2) * 2 ^ k) / (2 * n)).
Proof.
  intros H1 H2 H3. unfold powerloop.
  replace (2 * (s1 + n1) + n2) with (2 * s1 + n1 + n1 + n2) by lia.
  pose proof (pow2_ge n).
  destruct (powerloop_loop_ok (2 * s1 + n1) (2 * s1 + n1 + n1 + n2) n (S n)
              (2 * s1 + n1) (2 * s1 + n1 + n1 + n2) 0 0) as (p & Hp & Hr & Hd & He);
    [lia|lia|nia|cbn [Nat.pow]; lia|cbn [Nat.pow]; lia|].
  exists p. split_and!; try done. intros k Hk. apply He. lia.
Qed.

(** ** The stack *)

(** The runs of the stack, from index [b] on, have the lengths of the blocks. *)
Fixpoint runs_at (b : nat) (Ls : list (list nat)) (p : list Run) : Prop :=
  match Ls, p with
  | [], [] => True
  | L :: Ls, r :: p => base r = b /\ len r = length L /\ L <> [] /\ runs_at (b + length L) Ls p
  | _, _ => False
  end.

Lemma runs_at_length b Ls p : runs_at b Ls p -> length p = length Ls.
Proof.
  revert b p. induction Ls as [|L Ls IH]; intros b [|r p]; cbn; try done.
  intros (_ & _ & _ & H). f_equal. by eapply IH.
Qed.

Lemma runs_at_app b X Y p :
  runs_at b (X ++ Y) p <-> exists px py, p = px ++ py /\ runs_at b X px /\ runs_at (b + length (concat X)) Y py.
Proof.
  revert b p. induction X as [|L X IH]; intros b p; cbn [app concat runs_at].
  - split.
    + intros H. exists [], p. by rewrite Nat.add_0_r.
    + intros (px & py & -> & H1 & H2). destruct px; [|done]. by rewrite Nat.add_0_r in H2.
  - rewrite length_app. destruct p as [|r p].
    + split; [done|]. intros ([|r px] & py & Hp & H1 & H2); done.
    + split.
      * intros (H1 & H2 & H3 & H4). apply IH in H4 as (px & py & -> & H5 & H6).
        exists (r :: px), py. split_and!; try done. by rewrite Nat.add_assoc.
      * intros ([|r' px] & py & Hp & H1 & H2); [done|]. injection Hp as -> ->. destruct H1 as (H3 & H4 & H5 & H6).
        split_and!; try done. apply IH. exists px, py. by rewrite <- Nat.add_assoc.
Qed.

Lemma list_insert_middle {A} (p : list A) x y q : <[length p := y]> (p ++ x :: q) = p ++ y :: q.
Proof. rewrite <- (Nat.add_0_r (length p)) at 1. by rewrite insert_app_r. Qed.

Lemma join_runs_Ok px ra rb py i :
  i = length px -> length py <= 1 ->
  join_runs i (px ++ ra :: rb :: py)
  = Ok (ra, rb, px ++ {| base := base ra; len := len ra + len rb; power := power ra |} :: py).
Proof.
  intros -> Hpy. unfold join_runs. rewrite (at_mid px ra) by done. cbn [rbind].
  rewrite (at_Ok _ (length px + 1) rb).
  2: { rewrite lookup_app_r by lia. by replace (length px + 1 - length px) with 1 by lia. }
  cbn [rbind]. rewrite list_insert_middle, length_app. cbn [length].
  set (j := {| base := base ra; len := len ra + len rb; power := power ra |}).
  destruct py as [|r [|? ?]]; cbn [length] in *; [| |lia].
  - rewrite (proj2 (Nat.eqb_neq _ _)) by lia. cbn [rbind]. do 2 f_equal.
    rewrite length_app. cbn [length]. change (px ++ [j; rb]) with (px ++ [j] ++ [rb]). rewrite app_assoc.
    apply take_app_length'. rewrite length_app. cbn. lia.
  - rewrite (proj2 (Nat.eqb_eq _ _)) by lia. rewrite (at_Ok _ (length px + 2) r).
    2: { rewrite lookup_app_r by lia. by replace (length px + 2 - length px) with 2 by lia. }
    cbn [rbind]. change (px ++ [j; rb; r]) with (px ++ [j] ++ rb :: [r]). rewrite (app_assoc px [j]).
    replace (length px + 1) with (length (px ++ [j])) by (rewrite length_app; cbn; lia).
    rewrite list_insert_middle, !length_app. cbn [length]. do 2 f_equal.
    change ((px ++ [j]) ++ [r; r]) with ((px ++ [j]) ++ [r] ++ [r]). rewrite (app_assoc _ [r] [r]).
    rewrite take_app_length'; [by rewrite <- app_assoc|]. rewrite !length_app. cbn. lia.
Qed.

Section Stack.
Context {C : Type} (lt : nat -> nat -> C -> option bool * C) (ltb : nat -> nat -> bool) (K : Prop).
Context (U : nat -> Prop) (answers : forall x y c b c', U x -> U y -> lt x y c = (Some b, c') -> K -> b = ltb x y).
Context (Stop : sort_error -> C -> Prop).
Context (stopped : forall x y c c', U x -> U y -> lt x y c = (None, c') -> Stop SortAborted c').
Context (pos : nat -> nat) (SWK : K -> StrictWeak ltb).

Abbreviation bef := (before ltb pos).
Abbreviation ear := (earlier pos).
Abbreviation MS := (MergeState C).

(** Every element of one block was before every element of the other. *)
Definition block_earlier (L M : list nat) : Prop := forall x y, x ∈ L -> y ∈ M -> ear x y.

(** The slice is the blocks of the stack and the rest not visited yet. *)
Record stacked (ids0 : list nat) (Ls : list (list nat)) (rest : list nat) (s : MS) : Prop := {
  st_ids : ids s = concat Ls ++ rest;
  st_perm : ids s ≡ₚ ids0;
  st_runs : runs_at 0 Ls (pending s);
  st_len : list_len s = length ids0;
  st_sorted : K -> Forall (StronglySorted bef) Ls;
  st_order : K -> StronglySorted block_earlier (Ls ++ [rest]) }.

Definition sort_stops (ids0 : list nat) (e : sort_error) (s : MS) : Prop := Stop e (cmp s) /\ ids s ≡ₚ ids0.

(** Runs that need no merge, or a merge of their middle. *)
Lemma join_sorted A y B :
  K -> StronglySorted bef A -> StronglySorted bef (y :: B) -> block_earlier A (y :: B) ->
  (forall x, x ∈ A -> ltb y x = false) -> StronglySorted bef (A ++ y :: B).
Proof.
  intros HK HA HB He Hy. apply sorted_app. split_and!; [done..|]. intros x z Hx Hz. right. split; [|by apply He].
  apply elem_of_cons in Hz as [->|Hz]; [by apply Hy|]. eapply (sw_trans _ (SWK HK)); [by apply Hy|].
  apply StronglySorted_inv in HB as [_ HB]. rewrite Forall_forall in HB. eapply before_le; [by apply SWK|by apply HB].
Qed.

Lemma trimmed_parts A1 A2 B1 B2 y B1' :
  K -> B1 = y :: B1' ->
  StronglySorted bef (A1 ++ A2) -> StronglySorted bef (B1 ++ B2) -> block_earlier (A1 ++ A2) (B1 ++ B2) ->
  (forall a, a ∈ A2 -> ltb y a = true) -> (forall A' z b, A2 = A' ++ [z] -> b ∈ B1 -> ltb b z = true) ->
  trimmed ltb pos A2 B1.
Proof.
  intros HK -> HA HB He Hy Hx. apply sorted_app in HA as (_ & HA & _). apply sorted_app in HB as (HB & _ & _).
  split; try done.
  - intros a b Ha Hb. apply He; apply elem_of_app; [by right|by left].
  - intros y' B' [= <- <-]. done.
  - intros A' z HAz b Hb. by eapply Hx.
Qed.

Lemma merge_parts_sorted A1 A2 z B1 B2 y D :
  K -> (exists A', A2 = A' ++ [z]) -> (exists B', B1 = y :: B') ->
  StronglySorted bef (A1 ++ A2) -> StronglySorted bef (B1 ++ B2) -> block_earlier (A1 ++ A2) (B1 ++ B2) ->
  (forall a, a ∈ A1 -> ltb y a = false) -> (forall b, b ∈ B2 -> ltb b z = false) ->
  D ≡ₚ A2 ++ B1 -> StronglySorted bef D -> StronglySorted bef (A1 ++ D ++ B2).
Proof.
  intros HK [A' HA2] [B' HB1] HA HB He Hy Hz HD HDs. pose proof (SWK HK) as SW.
  apply sorted_app in HA as (HA1 & HA2s & HA12). pose proof HB as HB'. apply sorted_app in HB as (HB1s & HB2 & HB12).
  assert (Hb_y : forall b, b ∈ B1 ++ B2 -> ltb b y = false).
  { intros b Hb. subst B1. cbn in Hb, HB'. apply elem_of_cons in Hb as [->|Hb]; [by apply lt_irrefl|].
    apply StronglySorted_inv in HB' as [_ HB']. rewrite Forall_forall in HB'. by eapply before_le, HB'. }
  assert (Ha_z : forall a, a ∈ A2 -> ltb z a = false).
  { intros a. subst A2. intros [Ha| ->%list_elem_of_singleton]%elem_of_app; [|by apply lt_irrefl].
    apply sorted_snoc in HA2s as [_ HA2s]. by eapply before_le, HA2s. }
  assert (H1 : forall a b, a ∈ A1 -> b ∈ B1 ++ B2 -> bef a b).
  { intros a b Ha Hb. right. split; [|apply He; [apply elem_of_app; by left|done]].
    eapply (sw_trans _ SW); [by apply Hy|by apply Hb_y]. }
  assert (H2 : forall a b, a ∈ A2 -> b ∈ B2 -> bef a b).
  { intros a b Ha Hb. right. split; [|apply He; apply elem_of_app; by right].
    eapply (sw_trans _ SW); [by apply Ha_z|by apply Hz]. }
  apply sorted_app. split_and!; [done| |].
  - apply sorted_app. split_and!; [done..|]. intros d b Hd Hb. rewrite HD in Hd.
    apply elem_of_app in Hd as [Hd|Hd]; [by apply H2|by apply HB12].
  - intros a d Ha [Hd|Hd]%elem_of_app; [|apply H1; [done|apply elem_of_app; by right]]. rewrite HD in Hd.
    apply elem_of_app in Hd as [Hd|Hd]; [by apply HA12|apply H1; [done|apply elem_of_app; by left]].
Qed.

(** [merge_at] replaces two neighbouring blocks by one. *)
Definition one_block (pre post A B : list nat) (fr : list Run * nat) (s : MS) : Prop :=
  merges ltb K pos pre post (A ++ B) fr tt s.

(** The merge of the trimmed middle, [A2] and [B1], gives the whole. *)
Lemma merge_trimmed_ensures pre post A1 A2 B1 B2 A' z y B' s :
  Forall U ((A1 ++ A2) ++ B1 ++ B2) -> ids s = pre ++ (A1 ++ A2) ++ (B1 ++ B2) ++ post -> A2 = A' ++ [z] -> B1 = y :: B' ->
  (K -> StronglySorted bef (A1 ++ A2) /\ StronglySorted bef (B1 ++ B2) /\ block_earlier (A1 ++ A2) (B1 ++ B2)) ->
  (K -> (forall a, a ∈ A1 -> ltb y a = false) /\ (forall a, a ∈ A2 -> ltb y a = true)
        /\ (forall b, b ∈ B1 -> ltb b z = true) /\ (forall b, b ∈ B2 -> ltb b z = false)) ->
  ensures (if length A2 <=? length B1 then merge_lo lt (length (pre ++ A1)) (length A2) (length B1)
           else merge_hi lt (length (pre ++ A1)) (length A2) (length B1)) s
    (fun _ => one_block pre post (A1 ++ A2) (B1 ++ B2) (pending s, list_len s))
    (merge_stops Stop pre post ((A1 ++ A2) ++ B1 ++ B2) (pending s, list_len s)).
Proof.
  intros UL Hs HA2 HB1 HK0 Hp.
  assert (UM : Forall U (A2 ++ B1)) by (rewrite !Forall_app in *; tauto).
  assert (Htr : K -> trimmed ltb pos A2 B1).
  { intros HK. destruct (HK0 HK) as (H1 & H2 & H3). destruct (Hp HK) as (Hp1 & Hp2 & Hp3 & Hp4).
    eapply (trimmed_parts A1 A2 B1 B2 y B'); try done. intros A'' z' b HA'' Hb.
    rewrite HA2 in HA''. apply app_inj_tail in HA'' as [_ <-]. by apply Hp3. }
  assert (Hmid : forall D (s' : MS), merged (pre ++ A1) (B2 ++ post) (A2 ++ B1) (pending s, list_len s) s' D ->
            merged pre post ((A1 ++ A2) ++ B1 ++ B2) (pending s, list_len s) s' (A1 ++ D ++ B2)).
  { intros D s' (H1 & H2 & H3). split_and!; [by rewrite H1, <- !app_assoc| |done].
    rewrite H2, <- !app_assoc. done. }
  assert (Hs' : ids s = (pre ++ A1) ++ A2 ++ B1 ++ B2 ++ post) by (by rewrite Hs, <- !app_assoc).
  assert (HneA : A2 <> []) by (rewrite HA2; by destruct A'). assert (HneB : B1 <> []) by (by rewrite HB1).
  apply (ensures_mono _ _ (merges ltb K pos (pre ++ A1) (B2 ++ post) (A2 ++ B1) (pending s, list_len s)) _
           (merge_stops Stop (pre ++ A1) (B2 ++ post) (A2 ++ B1) (pending s, list_len s))).
  - destruct (length A2 <=? length B1);
      [by apply (merge_lo_ensures lt ltb K U answers Stop stopped pos SWK)|by apply (merge_hi_ensures lt ltb K U answers Stop stopped pos SWK)].
  - intros [] s' (D & HD & Hsd). exists (A1 ++ D ++ B2). split; [by apply Hmid|]. intros HK.
    destruct (HK0 HK) as (H1 & H2 & H3). destruct (Hp HK) as (Hp1 & Hp2 & Hp3 & Hp4).
    eapply (merge_parts_sorted A1 A2 z B1 B2 y D); try done; eauto. apply HD.
  - intros e s' (He & D & HD). split; [done|]. exists (A1 ++ D ++ B2). by apply Hmid.
Qed.

Lemma merge_blocks_ensures pre A B post s i p ra rb :
  Forall U (A ++ B) -> ids s = pre ++ A ++ B ++ post -> A <> [] -> B <> [] ->
  (K -> StronglySorted bef A /\ StronglySorted bef B /\ block_earlier A B) ->
  join_runs i (pending s) = Ok (ra, rb, p) ->
  base ra = length pre -> len ra = length A -> base rb = length pre + length A -> len rb = length B ->
  ensures (merge_at lt i) s (fun _ => one_block pre post A B (p, list_len s))
    (merge_stops Stop pre post (A ++ B) (p, list_len s)).
Proof.
  intros UL Hs HA HB HK0 Hj Hba Hla Hbb Hlb. pose proof (proj1 (Forall_app _ _ _) UL) as [UA UB]. destruct B as [|y B]; [done|]. clear HB. set (B0 := y :: B) in *.
  assert (HlB : 1 <= length B0) by (cbn; lia). assert (HlA : 1 <= length A) by (destruct A; cbn; [done|lia]).
  unfold merge_at. apply ensures_bind, ensures_get, ensures_bind, (lift_ensures _ _ _ _ _ Hj).
  apply ensures_bind, ensures_modify. rewrite Hba, Hla, Hbb, Hlb.
  apply ensures_bind, (lift_ensures _ y).
  { rewrite Hs, app_assoc. apply at_mid. by rewrite length_app. }
  apply ensures_bind, (lift_ensures _ A); [rewrite Hs; by apply slice_mid|].
  apply ensures_bind, compares_ensures.
  assert (Hstop : forall e c, Stop e c ->
            merge_stops Stop pre post (A ++ B0) (p, list_len s) e (set_cmp c (set_pending p s))).
  { intros e c He. split; [done|]. exists (A ++ B0). split_and!; [cbn; by rewrite Hs, <- app_assoc|done|done]. }
  eapply ensures_mono; [apply (gallop_right_divides lt ltb K U answers Stop stopped pos SWK y A 0); [done|by apply Forall_inv in UB|lia]| |intros e c Hec; by apply (Hstop e c)].
  intros k c1 (A1 & A2 & HA12 & -> & HA1). set (s1 := set_cmp c1 (set_pending p s)).
  assert (Hk : length A - length A1 = length A2) by (rewrite HA12, length_app; lia).
  apply ensures_bind, usub_ensures; [rewrite HA12, length_app; lia|]. rewrite Hk.
  assert (Hp1 : K -> (forall a, a ∈ A1 -> ltb y a = false) /\ (forall a, a ∈ A2 -> ltb y a = true)).
  { intros HK. destruct (HA1 HK) as [H1 H2]; [by apply HK0|]. split; intros a Ha;
      [by apply negb_true_iff, H1|by apply negb_false_iff, H2]. }
  assert (Hdone : forall c, (K -> forall a, a ∈ A -> ltb y a = false) ->
            one_block pre post A B0 (p, list_len s) (set_cmp c s1)).
  { intros c Hall. exists (A ++ B0). split; [split_and!; [cbn; by rewrite Hs, <- app_assoc|done|done]|].
    intros HK. destruct (HK0 HK) as (H1 & H2 & H3). apply join_sorted; auto. }
  destruct (Nat.eqb_spec (length A2) 0) as [He|He].
  { apply length_zero_iff_nil in He as ->. rewrite app_nil_r in HA12. subst A1. apply ensures_ret.
    apply (Hdone (cmp s1)). intros HK. apply (Hp1 HK). }
  destruct (exists_last (l := A2)) as (A' & z & HAz); [by intros ->|].
  apply ensures_bind, (lift_ensures _ z).
  { rewrite Hs, HA12, HAz, <- !app_assoc, (app_assoc pre A1), (app_assoc (pre ++ A1)). apply at_mid.
    rewrite !length_app. cbn. lia. }
  apply ensures_bind, (lift_ensures _ B0).
  { rewrite Hs, (app_assoc pre). apply slice_mid; rewrite length_app; lia. }
  apply ensures_bind, usub_ensures; [done|]. apply ensures_bind, compares_ensures.
  eapply ensures_mono; [apply (gallop_left_divides lt ltb K U answers Stop stopped pos SWK z B0 (length B0 - 1)); [done|rewrite HA12, HAz, Forall_forall in UA; apply UA; set_solver|lia]| |intros e c Hec; by apply (Hstop e c)].
  intros nb c2 (B1 & B2 & HB12 & -> & HB1). set (s2 := set_cmp c2 s1).
  assert (Hp2 : K -> (forall b, b ∈ B1 -> ltb b z = true) /\ (forall b, b ∈ B2 -> ltb b z = false)).
  { intros HK. apply HB1; [done|]. by apply HK0. }
  assert (Hzin : z ∈ A2) by (rewrite HAz; apply elem_of_app; right; by left).
  destruct (Nat.eqb_spec (length B1) 0) as [He1|He1].
  { apply length_zero_iff_nil in He1 as ->. cbn in HB12. apply ensures_ret. apply (Hdone c2). intros HK. exfalso.
    destruct (Hp2 HK) as [_ Hb2]. specialize (Hb2 y). rewrite <- HB12 in Hb2.
    specialize (Hb2 (list_elem_of_here _ _)). by rewrite (proj2 (Hp1 HK) z Hzin) in Hb2. }
  destruct B1 as [|y' B1]; [done|]. injection HB12 as <- HB12. set (B1' := y :: B1) in *.
  rewrite HA12. replace B0 with (B1' ++ B2) by (unfold B0, B1'; by rewrite HB12).
  rewrite <- (length_app pre A1). change (pending s2) with p. change (list_len s2) with (list_len s).
  eapply (merge_trimmed_ensures pre post A1 A2 B1' B2 A' z y B1 s2); try done.
  - rewrite HA12 in UL. unfold B0 in UL. by rewrite HB12 in UL.
  - cbn [s2 s1 set_cmp set_pending ids]. rewrite Hs, HA12. unfold B0. by rewrite HB12.
  - by rewrite HA12 in HK0; unfold B0 in HK0; rewrite HB12 in HK0.
  - intros HK. split_and!; [by apply Hp1..|by apply Hp2|by apply Hp2].
Qed.

Lemma merge_at_ensures ids0 X A B Y rest s :
  Forall U ids0 -> stacked ids0 (X ++ A :: B :: Y) rest s -> length Y <= 1 ->
  ensures (merge_at lt (length X)) s
    (fun _ s' => exists D, stacked ids0 (X ++ D :: Y) rest s') (sort_stops ids0).
Proof.
  intros U0 [Hi Hp Hr Hl Hso Hor] HY.
  apply runs_at_app in Hr as (px & [|ra [|rb py]] & Hpend & Hpx & Hr); try done; [by destruct Hr as (_ & _ & _ & [])|].
  destruct Hr as (Hba & Hla & HA & Hbb & Hlb & HB & Hpy). cbn [Nat.add] in *.
  pose proof (runs_at_length _ _ _ Hpx) as Hlx. pose proof (runs_at_length _ _ _ Hpy) as Hly.
  set (j := {| base := base ra; len := len ra + len rb; power := power ra |}).
  assert (Hj : join_runs (length X) (pending s) = Ok (ra, rb, px ++ j :: py)).
  { rewrite Hpend, join_runs_Ok; [done|lia..]. }
  assert (Hids : ids s = concat X ++ A ++ B ++ concat Y ++ rest).
  { rewrite Hi, concat_app. cbn. by rewrite <- !app_assoc. }
  assert (UAB : Forall U (A ++ B)).
  { rewrite <- Hp, Hids, !Forall_app in U0. rewrite Forall_app. tauto. }
  assert (Hcross : K -> StronglySorted bef A /\ StronglySorted bef B /\ block_earlier A B).
  { intros HK. specialize (Hso HK). rewrite Forall_app, !Forall_cons in Hso. destruct Hso as (_ & H1 & H2 & _).
    split_and!; [done..|]. specialize (Hor HK). rewrite <- app_assoc in Hor. apply sorted_app in Hor as (_ & Hor & _).
    apply StronglySorted_inv in Hor as [_ Hor]. by apply Forall_inv in Hor. }
  assert (Hperm : forall D (s' : MS), merged (concat X) (concat Y ++ rest) (A ++ B) (px ++ j :: py, list_len s) s' D ->
            ids s' ≡ₚ ids0).
  { intros D s' (H1 & H2 & _). rewrite H1, H2, <- Hp, Hids, <- !app_assoc. done. }
  eapply ensures_mono; [apply (merge_blocks_ensures _ _ _ _ _ _ _ _ _ UAB Hids HA HB Hcross Hj); [done..|lia|lia]| |].
  - intros _ s' (D & HD & Hs). exists D. pose proof (Hperm D s' HD) as Hp'. destruct HD as (H1 & H2 & [= H3 H4]).
    split; [|done| |congruence| |].
    + rewrite H1, concat_app. cbn. by rewrite <- !app_assoc.
    + rewrite H3. apply runs_at_app. exists px, (j :: py). split_and!; [done..|]. cbn.
      apply Permutation_length in H2. rewrite length_app in H2. split_and!; [done|lia| |].
      * intros ->. cbn in H2. destruct A; [done|cbn in H2; lia].
      * by rewrite H2, Nat.add_assoc.
    + intros HK. specialize (Hso HK). rewrite Forall_app, !Forall_cons in *. naive_solver.
    + intros HK. specialize (Hor HK). rewrite <- app_assoc in *. cbn [app] in *.
      apply sorted_app in Hor as (O1 & O2 & O3). apply StronglySorted_inv in O2 as [O2 F1].
      apply StronglySorted_inv in O2 as [O2 F2]. apply Forall_cons in F1 as [_ F1].
      assert (Hin : forall x, x ∈ D -> x ∈ A \/ x ∈ B) by (intros x; rewrite H2; apply elem_of_app).
      apply sorted_app. split_and!; [done| |].
      * constructor; [done|]. rewrite !Forall_forall in *. intros M HM x y Hx Hy.
        destruct (Hin x Hx) as [Ha|Hb]; [by apply (F1 M)|by apply (F2 M)].
      * intros M N HM [->|HN]%elem_of_cons; [|apply O3; [done|by do 2 right]].
        intros x y Hx Hy. destruct (Hin y Hy) as [Ha|Hb];
          [apply (O3 M A)|apply (O3 M B)]; try done; [by left|by right; left].
  - intros e s' (He & D & HD). split; [done|by eapply Hperm].
Qed.

(** The last two blocks of a stack of two or more, or the three last. *)
Lemma split_last {A} (l : list A) : 2 <= length l -> exists k x y, l = k ++ [x; y].
Proof.
  intros Hl. destruct (exists_last (l := l)) as (l1 & y & ->); [by destruct l; cbn in *; [lia|]|].
  rewrite length_app in Hl. cbn in Hl. destruct (exists_last (l := l1)) as (k & x & ->); [by destruct l1; cbn in *; [lia|]|].
  exists k, x, y. by rewrite <- app_assoc.
Qed.

Lemma merge_deeper_ensures ids0 rest power : Forall U ids0 -> forall fuel Ls s,
  stacked ids0 Ls rest s -> length Ls < fuel -> Ls <> [] ->
  ensures (merge_deeper lt fuel power) s
    (fun _ s' => exists Ls', stacked ids0 Ls' rest s' /\ Ls' <> []) (sort_stops ids0).
Proof.
  intros U0. induction fuel as [|fuel IH]; intros Ls s Hst Hf Hne; [lia|]. cbn [merge_deeper].
  apply ensures_bind, ensures_get. pose proof (runs_at_length _ _ _ (st_runs _ _ _ _ Hst)) as Hlen. rewrite Hlen.
  destruct (Nat.ltb_spec 1 (length Ls)) as [Hl|Hl]; [|apply ensures_ret; eauto].
  destruct (at_in (pending s) (length Ls - 2)) as (r & _ & Hr); [lia|].
  apply ensures_bind, (lift_ensures _ _ _ _ _ Hr).
  destruct (power <? Timsort.power r); [|apply ensures_ret; eauto].
  destruct (split_last Ls) as (X & A & B & ->); [lia|]. rewrite length_app in *. cbn [length] in *.
  replace (length X + 2 - 2) with (length X) by lia. apply ensures_bind.
  eapply ensures_mono; [apply (merge_at_ensures ids0 X A B [] rest s U0 Hst); cbn; lia| |done].
  intros _ s' [D HD]. apply (IH _ _ HD); [rewrite length_app; cbn; lia|by destruct X].
Qed.

Lemma set_top_power_ensures ids0 Ls rest power s R :
  stacked ids0 Ls rest s -> Ls <> [] ->
  ensures (set_top_power power) s (fun _ s' => stacked ids0 Ls rest s') R.
Proof.
  intros Hst Hne. pose proof Hst as [H1 H2 Hr H4 H5 H6]. destruct (exists_last Hne) as (X & L & ->).
  apply runs_at_app in Hr as (px & [|r [|? ?]] & Hp & Hpx & Hr); [done| |by destruct Hr as (_ & _ & _ & ?)].
  unfold ensures, set_top_power. rewrite Hp, last_snoc. split; try done. cbn.
  rewrite length_app, take_app_length' by (cbn; lia). apply runs_at_app. by exists px, [{| base := base r; len := len r; power := power |}].
Qed.

Lemma found_new_run_ensures ids0 Ls rest s n2 :
  Forall U ids0 -> stacked ids0 Ls rest s -> 1 <= n2 <= length rest ->
  ensures (found_new_run lt n2) s (fun _ s' => exists Ls', stacked ids0 Ls' rest s') (sort_stops ids0).
Proof.
  intros U0 Hst Hn. unfold found_new_run. apply ensures_bind, ensures_get.
  destruct (decide (Ls = [])) as [->|Hne].
  { pose proof (st_runs _ _ _ _ Hst) as Hr. destruct (pending s) as [|? ?]; [|done]. apply ensures_ret. eauto. }
  pose proof Hst as [Hi Hp Hr Hl _ _]. destruct (exists_last Hne) as (X & L & ->).
  pose proof (runs_at_length _ _ _ Hr) as Hlen.
  apply runs_at_app in Hr as (px & [|r [|? ?]] & Hpend & Hpx & Hr); [done| |by destruct Hr as (_ & _ & _ & ?)].
  destruct Hr as (Hb & Hlr & HL & _). rewrite Hpend at 1. rewrite last_snoc. cbn [Nat.add] in Hb.
  destruct (powerloop_ok (base r) (len r) n2 (list_len s)) as (p & Hpw & _).
  { rewrite Hlr. destruct L; cbn; [done|lia]. }
  { lia. }
  { rewrite Hl, <- (Permutation_length Hp), Hi, concat_app, !length_app, Hb, Hlr. cbn. rewrite app_nil_r. lia. }
  apply ensures_bind, (lift_ensures _ _ _ _ _ Hpw), ensures_bind.
  eapply ensures_mono; [apply (merge_deeper_ensures ids0 rest p U0 _ _ _ Hst); [lia|done]| |done].
  intros _ s' (Ls' & Hst' & Hne'). eapply ensures_mono; [by apply (set_top_power_ensures ids0 Ls')| |done]. intros u s'' Hs''. by exists Ls'.
Qed.

Lemma collapse_loop_ensures ids0 rest : Forall U ids0 -> forall fuel Ls s,
  stacked ids0 Ls rest s -> length Ls < fuel ->
  ensures (collapse_loop lt fuel) s
    (fun _ s' => exists Ls', stacked ids0 Ls' rest s' /\ length Ls' <= 1) (sort_stops ids0).
Proof.
  intros U0. induction fuel as [|fuel IH]; intros Ls s Hst Hf; [lia|]. cbn [collapse_loop].
  apply ensures_bind, ensures_get. pose proof (runs_at_length _ _ _ (st_runs _ _ _ _ Hst)) as Hlen. rewrite Hlen.
  destruct (Nat.ltb_spec 1 (length Ls)) as [Hl|Hl]; [|apply ensures_ret; exists Ls; split; [done|lia]].
  assert (Hstep : forall X A B Y, Ls = X ++ A :: B :: Y -> length Y <= 1 ->
            ensures (merge_at lt (length X) ;;; collapse_loop lt fuel) s
              (fun _ s' => exists Ls', stacked ids0 Ls' rest s' /\ length Ls' <= 1) (sort_stops ids0)).
  { intros X A B Y -> HY. apply ensures_bind.
    eapply ensures_mono; [apply (merge_at_ensures ids0 X A B Y rest s U0 Hst HY)| |done].
    intros _ s' [D HD]. apply (IH _ _ HD). rewrite length_app in *. cbn in *. lia. }
  destruct (split_last Ls) as (X & A & B & HLs); [lia|].
  assert (HlX : length Ls - 2 = length X) by (rewrite HLs, length_app; cbn; lia). rewrite HlX.
  destruct (Nat.ltb_spec 0 (length X)) as [HX|HX].
  - destruct (at_in (pending s) (length X - 1)) as (r1 & _ & Hr1); [lia|].
    destruct (at_in (pending s) (length X + 1)) as (r2 & _ & Hr2); [rewrite Hlen, HLs, length_app; cbn; lia|].
    rewrite Hr1, Hr2. cbn [rbind]. apply ensures_bind. apply (lift_ensures _ _ _ _ _ eq_refl).
    destruct (len r1 <? len r2).
    + destruct (exists_last (l := X)) as (X' & Z & ->); [by intros ->; cbn in HX; lia|].
      replace (length (X' ++ [Z]) - 1) with (length X') by (rewrite length_app; cbn; lia).
      apply (Hstep X' Z A [B]); [|cbn; lia]. by rewrite HLs, <- app_assoc.
    + by apply (Hstep X A B []); [|cbn; lia].
  - apply ensures_bind. apply (lift_ensures _ _ _ _ _ eq_refl). by apply (Hstep X A B []); [|cbn; lia].
Qed.
End Stack.
