(* ===== verification/TimsortProps.v ===== *)
(** The sort as a whole: what [timsort] and [sort_short] guarantee for any comparison,
    and for one that is a strict weak order. *)
From S2P Require Import Prelude Timsort TimsortOrder TimsortRuns TimsortMerge TimsortStack.
From stdpp Require Import sorting.
Local Open Scope monty_scope.

Section Sort.
Context {C : Type} (lt : nat -> nat -> C -> option bool * C) (ltb : nat -> nat -> bool) (K : Prop).
Context (U : nat -> Prop) (answers : forall x y c b c', U x -> U y -> lt x y c = (Some b, c') -> K -> b = ltb x y).
Context (Stop : sort_error -> C -> Prop).
Context (stopped : forall x y c c', U x -> U y -> lt x y c = (None, c') -> Stop SortAborted c').
Context (pos : nat -> nat) (SWK : K -> StrictWeak ltb).

Abbreviation bef := (before ltb pos).
Abbreviation ear := (earlier pos).
Abbreviation MS := (MergeState C).
Abbreviation stack := (stacked ltb K pos).
Abbreviation stop := (sort_stops Stop).

Lemma on_ids_ensures {A} p a q i j (m : M (list nat * C) sort_error A) (s : MS) Q R :
  ids s = p ++ a ++ q -> i = length p -> j = length p + length a ->
  ensures m (a, cmp s)
    (fun x s' => length s'.1 = length a /\ Q x (set_cmp s'.2 (set_ids (p ++ s'.1 ++ q) s)))
    (fun e s' => length s'.1 = length a /\ R e (set_cmp s'.2 (set_ids (p ++ s'.1 ++ q) s))) ->
  ensures (on_ids i j m) s Q R.
Proof.
  intros Hs -> -> Hm. unfold ensures, on_ids in *. rewrite Hs, slice_mid by done.
  destruct (m (a, cmp s)) as [[x|e] [a' c]]; destruct Hm as [Hl HQ]; cbn in Hl, HQ; by rewrite (store_mid p a' a q).
Qed.

(** The natural run at the start of [rest], extended to [n] sorted elements. *)
Definition run_found (s : MS) (pre rest : list nat) (n : nat) (s' : MS) : Prop :=
  exists S O R, ids s' = pre ++ S ++ R /\ n = length S /\ rest = O ++ R /\ S ≡ₚ O /\ S <> []
    /\ (K -> StronglySorted ear rest -> StronglySorted bef S)
    /\ pending s' = pending s /\ list_len s' = list_len s.

Lemma count_ensures pre rest s :
  Forall U rest -> ids s = pre ++ rest -> rest <> [] -> (K -> StronglySorted ear rest) ->
  ensures (on_ids (length pre) (length (ids s)) (count_run lt)) s (run_found s pre rest) (stop (ids s)).
Proof.
  intros Ur Hs Hne Ho. apply (on_ids_ensures pre rest []); [by rewrite app_nil_r|done|by rewrite Hs, length_app|].
  eapply ensures_mono; [apply (count_run_ensures lt ltb K U answers Stop stopped pos SWK rest (cmp s) Ur Hne Ho)| |].
  - intros n [l c] (D & O & R & HD & Hl & -> & Hr & HDO & Hso). cbn in Hl. subst l. cbn [fst snd]. split.
    + by rewrite Hr, !length_app, (Permutation_length HDO).
    + exists D, O, R. rewrite app_nil_r. by split_and!.
  - intros e [l c] [He Hl]. cbn in Hl |- *. split; [by apply Permutation_length|].
    split; [done|]. cbn. by rewrite app_nil_r, Hl, Hs.
Qed.

Lemma extend_ensures pre rest s0 s n minrun :
  Forall U rest -> run_found s0 pre rest n s -> (K -> StronglySorted ear rest) -> n < minrun ->
  let force := Nat.min (length rest) minrun in
  ensures (on_ids (length pre) (length pre + force) (binary_sort lt n) ;;; sret force) s
    (run_found s0 pre rest) (stop (ids s)).
Proof.
  intros Ur (D & O & R & Hs & -> & Hr & HDO & Hne & Hso & Hp & Hl) Ho Hn force.
  assert (UD : forall k, Forall U (D ++ take k R)).
  { intros k. rewrite Hr, <- HDO, <- (take_drop k R), !Forall_app in Ur. apply Forall_app. tauto. }
  assert (Hlen : length D = length O) by by apply Permutation_length.
  assert (Hf : force = length D + (force - length D)) by (unfold force; rewrite Hr, length_app; lia).
  set (k := force - length D) in *.
  assert (Hk : length (take k R) = k).
  { rewrite length_take. unfold k, force. rewrite Hr, length_app. lia. }
  apply ensures_bind. apply (on_ids_ensures pre (D ++ take k R) (drop k R)).
  { rewrite Hs. by rewrite <- app_assoc, take_drop. }
  { done. }
  { rewrite length_app. lia. }
  eapply ensures_mono; [apply (binary_sort_ensures lt ltb K U answers Stop stopped pos SWK D (take k R) (cmp s) (UD k) Hne)| |].
  - intros _ [l c] [Hl1 Hl2]. cbn [fst snd] in *. split; [by apply Permutation_length|]. apply ensures_ret.
    exists l, (O ++ take k R), (drop k R). split_and!; try done.
    + rewrite (Permutation_length Hl1), length_app. lia.
    + by rewrite Hr, <- app_assoc, take_drop.
    + by rewrite Hl1, HDO.
    + intros ->. apply Permutation_nil_l in Hl1. symmetry in Hl1. by apply app_eq_nil in Hl1 as [-> _].
    + intros HK Hord. rewrite Hr in Hord, Hso. pose proof (Hso HK Hord) as HDs.
      apply sorted_app in Hord as (H1 & H2 & H3).
      apply (Hl2 HK); [done|..].
      * intros x y Hx Hy. apply H3; [by rewrite <- HDO|]. rewrite <- (take_drop k R). apply elem_of_app. by left.
      * rewrite <- (take_drop k R) in H2. by apply sorted_app in H2 as (H2 & _).
  - intros e [l c] [He Hl1]. cbn in Hl1 |- *. split; [by apply Permutation_length|]. split; [done|]. cbn.
    by rewrite Hl1, Hs, <- app_assoc, take_drop.
Qed.

(** Reordering the start of the rest keeps the blocks before it. *)
Lemma stacked_run ids0 Ls rest s0 s n :
  stack ids0 Ls rest s0 -> run_found s0 (concat Ls) rest n s ->
  exists S R, stack ids0 Ls (S ++ R) s /\ n = length S /\ S <> [] /\ length R < length rest
    /\ (K -> StronglySorted ear rest -> StronglySorted bef S /\ StronglySorted ear R /\ block_earlier pos S R).
Proof.
  intros [H1 H2 H3 H4 H5 H6] (S & O & R & Hs & Hn & Hr & HSO & Hne & Hso & Hp & Hl).
  assert (HSR : S ++ R ≡ₚ rest) by (by rewrite HSO, Hr).
  exists S, R. split_and!; [|done|done| |].
  - split; try done.
    + rewrite Hs, HSR, <- H2, H1. done.
    + by rewrite Hp.
    + by rewrite Hl.
    + intros HK. specialize (H6 HK). apply sorted_snoc in H6 as [H6 H7]. apply sorted_snoc. split; [done|].
      intros L HL x y Hx Hy. rewrite HSR in Hy. by apply (H7 L).
  - rewrite <- (Permutation_length HSR), length_app. destruct S; [done|cbn; lia].
  - intros HK Ho. split; [by apply Hso|]. rewrite Hr in Ho. apply sorted_app in Ho as (_ & Ho & He).
    split; [done|]. intros x y Hx Hy. apply He; [by rewrite <- HSO|done].
Qed.

(** Pushing the run makes it a block of the stack. *)
Lemma stacked_push ids0 Ls S R (s : MS) :
  stack ids0 Ls (S ++ R) s -> S <> [] -> (K -> StronglySorted bef S /\ block_earlier pos S R) ->
  stack ids0 (Ls ++ [S]) R
    (set_pending (pending s ++ [{| base := length (concat Ls); len := length S; power := 0 |}]) s).
Proof.
  intros [H1 H2 H3 H4 H5 H6] Hne HS. split; cbn; try done.
  - rewrite H1, concat_app. cbn. by rewrite app_nil_r, <- app_assoc.
  - apply runs_at_app. eexists _, _. by split_and!.
  - intros HK. apply Forall_app. split; [by apply H5|]. constructor; [by apply HS|done].
  - intros HK. specialize (H6 HK). apply sorted_snoc in H6 as [H6 H7]. rewrite <- app_assoc. cbn.
    apply sorted_app. split_and!; [done| |].
    + constructor; [apply sorted_singleton|]. constructor; [by apply HS|done].
    + intros L M HL [->|[->|?%elem_of_nil]%elem_of_cons]%elem_of_cons; [| |done]; intros x y Hx Hy;
        apply (H7 L HL); try done; apply elem_of_app; [by left|by right].
Qed.

Lemma sort_runs_ensures ids0 minrun : Forall U ids0 -> forall fuel Ls rest s,
  stack ids0 Ls rest s -> (K -> StronglySorted ear rest) -> length rest < fuel ->
  ensures (sort_runs lt fuel minrun (length (concat Ls))) s
    (fun _ s' => exists Ls', stack ids0 Ls' [] s') (stop ids0).
Proof.
  intros U0. induction fuel as [|fuel IH]; intros Ls rest s Hst Ho Hf; [lia|]. cbn [sort_runs].
  apply ensures_bind, ensures_get. pose proof Hst as [Hi Hp _ Hl _ _].
  assert (Ur : Forall U rest) by (rewrite <- Hp, Hi, Forall_app in U0; tauto).
  assert (Htot : list_len s = length (concat Ls) + length rest).
  { by rewrite Hl, <- (Permutation_length Hp), Hi, length_app. }
  destruct rest as [|x rest].
  { rewrite (proj2 (Nat.ltb_ge _ _)) by (cbn in Htot; lia). apply ensures_ret. by exists Ls. }
  rewrite (proj2 (Nat.ltb_lt _ _)) by (cbn in Htot; lia). apply ensures_bind.
  eapply ensures_mono; [apply (count_ensures _ (x :: rest) s Ur Hi); [done|done]| |].
  2: { intros e s' [He H]. split; [done|by rewrite H]. }
  intros n s1 Hrun. apply ensures_bind.
  apply (ensures_mono _ _ (fun n' s2 => run_found s (concat Ls) (x :: rest) n' s2) _ (stop (ids s1))).
  { destruct (Nat.ltb_spec n minrun) as [Hn|Hn]; [|by apply ensures_ret].
    replace (list_len s - length (concat Ls)) with (length (x :: rest)) by lia. by apply extend_ensures. }
  2: { intros e s' [He H]. split; [done|]. rewrite H. destruct (stacked_run _ _ _ _ _ _ Hst Hrun) as (S & R & [] & _). done. }
  clear n s1 Hrun. intros n s1 Hrun. destruct (stacked_run _ _ _ _ _ _ Hst Hrun) as (S & R & Hst1 & -> & Hne & HR & HSR).
  apply ensures_bind. eapply ensures_mono; [apply (found_new_run_ensures lt ltb K U answers Stop stopped pos SWK _ _ _ _ _ U0 Hst1)| |done].
  { rewrite length_app. destruct S; cbn; [done|lia]. }
  intros _ s2 [Ls' Hst2]. apply ensures_bind, ensures_modify.
  assert (Hc : length (concat Ls) = length (concat Ls')).
  { pose proof (st_ids _ _ _ _ _ _ _ Hst1) as E1. pose proof (st_ids _ _ _ _ _ _ _ Hst2) as E2.
    pose proof (Permutation_length (st_perm _ _ _ _ _ _ _ Hst1)) as P1.
    pose proof (Permutation_length (st_perm _ _ _ _ _ _ _ Hst2)) as P2.
    rewrite E1, length_app in P1. rewrite E2, length_app in P2. lia. }
  rewrite Hc. replace (length (concat Ls') + length S) with (length (concat (Ls' ++ [S])))
    by (rewrite concat_app, length_app; cbn; by rewrite app_nil_r).
  apply (IH _ R).
  - apply stacked_push; [done..|]. intros HK. by destruct (HSR HK (Ho HK)) as (? & ? & ?).
  - intros HK. by apply (HSR HK (Ho HK)).
  - lia.
Qed.

Lemma timsort_ensures l c :
  Forall U l -> (K -> StronglySorted ear l) ->
  ensures (timsort lt) (l, c) (fun _ s => s.1 ≡ₚ l /\ (K -> StronglySorted bef s.1))
    (fun e s => Stop e s.2 /\ s.1 ≡ₚ l).
Proof.
  intros U0 Ho. unfold ensures, timsort. cbn [fst snd]. destruct (Nat.ltb_spec (length l) 2) as [Hl|Hl].
  { split; [done|]. intros _. destruct l as [|x [|y l]]; cbn in Hl |- *; [constructor|apply sorted_singleton|lia]. }
  set (state := {| ids := l; cmp := c; min_gallop := MIN_GALLOP; tmp := []; pending := []; list_len := length l |}).
  set (m := (do minrun <- slift (merge_compute_minrun (length l)) ;; sort_runs lt (S (length l)) minrun 0 ;;; merge_force_collapse lt)).
  assert (Hm : ensures m state (fun _ s' => exists Ls', stack l Ls' [] s' /\ length Ls' <= 1) (stop l)).
  { destruct (minrun_loop_ok (S (length l)) (length l) 0) as (minrun & Hmr & _); [lia..|].
    apply ensures_bind, (lift_ensures _ _ _ _ _ Hmr), ensures_bind.
    assert (Hst : stack l [] l state) by (split; cbn; try done; intros; apply sorted_singleton).
    eapply ensures_mono; [apply (sort_runs_ensures l minrun U0 (S (length l)) [] l state Hst Ho); lia| |done].
    intros _ s1 [Ls Hst1]. unfold merge_force_collapse. apply ensures_bind, ensures_get.
    apply (collapse_loop_ensures lt ltb K U answers Stop stopped pos SWK _ _ U0 _ _ _ Hst1).
    rewrite (runs_at_length _ _ _ (st_runs _ _ _ _ _ _ _ Hst1)). lia. }
  unfold ensures in Hm. fold m. destruct (m state) as [[[]|e] s']; cbn; [|done].
  destruct Hm as (Ls & [H1 H2 _ _ H5 _] & Hlen). split; [done|]. intros HK. specialize (H5 HK). rewrite H1, app_nil_r.
  destruct Ls as [|D [|? ?]]; cbn in *; [constructor|rewrite app_nil_r; by apply Forall_inv in H5|lia].
Qed.
End Sort.

(** ** Stable sorts are unique *)

Lemma stable_unique {T} (ltb : T -> T -> bool) pos l k :
  StrictWeak ltb -> StronglySorted (before ltb pos) l -> StronglySorted (before ltb pos) k -> l ≡ₚ k -> l = k.
Proof.
  intros SW. revert k. induction l as [|x l IH]; intros k Hl Hk Hp.
  - by apply Permutation_nil_l in Hp.
  - destruct k as [|y k]; [by apply Permutation_nil_r in Hp|].
    apply StronglySorted_inv in Hl as [Hl Fl]. apply StronglySorted_inv in Hk as [Hk Fk].
    rewrite Forall_forall in Fl, Fk. assert (x = y) as ->.
    { assert (Hx : x ∈ y :: k) by (rewrite <- Hp; by left). assert (Hy : y ∈ x :: l) by (rewrite Hp; by left).
      apply elem_of_cons in Hx as [->|Hx]; [done|]. apply elem_of_cons in Hy as [->|Hy]; [done|].
      exfalso. eapply (before_irrefl ltb pos SW x), before_trans; [done|by apply Fl|by apply Fk]. }
    f_equal. apply IH; [done..|]. by eapply Permutation_cons_inv.
Qed.

(** ** Properties *)

(** A comparison that answers for the elements at hand and does not stop. *)
Definition answers_on {T C} (l : list T) (lt : T -> T -> C -> option bool * C) (ltb : T -> T -> bool) : Prop :=
  forall x y c, x ∈ l -> y ∈ l -> exists c', lt x y c = (Some (ltb x y), c').

Lemma answers_on_extend `{EqDecision T} {C} (l : list T) (lt : T -> T -> C -> option bool * C) ltb x y c b c' :
  answers_on l lt ltb -> x ∈ l -> y ∈ l -> lt x y c = (Some b, c') -> b = extend l ltb x y.
Proof.
  intros Hl Hx Hy E. destruct (Hl x y c Hx Hy) as [c1 E1]. rewrite E in E1. injection E1 as -> _.
  by rewrite extend_in.
Qed.

Lemma answers_on_total {T C} (l : list T) (lt : T -> T -> C -> option bool * C) ltb x y c c' :
  answers_on l lt ltb -> x ∈ l -> y ∈ l -> lt x y c = (None, c') -> False.
Proof. intros Hl Hx Hy E. destruct (Hl x y c Hx Hy) as [c1 E1]. by rewrite E in E1. Qed.

(** A sort that has no way to stop succeeds. *)
Lemma sorts_stably `{EqDecision T} {C} (sort : M (list T * C) sort_error unit) (l : list T) ltb pos c :
  ensures sort (l, c)
    (fun _ s => s.1 ≡ₚ l /\ (True -> StronglySorted (before (extend l ltb) pos) s.1))
    (fun _ s => False /\ s.1 ≡ₚ l) ->
  exists l' c', sort (l, c) = (Ok tt, (l', c')) /\ l' ≡ₚ l /\ StronglySorted (before ltb pos) l'.
Proof.
  intros H1. unfold ensures in H1. destruct (sort (l, c)) as [[[]|e] [l' c']]; [|by destruct H1].
  exists l', c'. destruct H1 as [Hp Hso]. cbn in Hp, Hso. split_and!; [done..|].
  eapply sorted_impl; [|by apply Hso]. intros x y Hx Hy. rewrite Hp in Hx, Hy. unfold before.
  by rewrite !extend_in.
Qed.

Lemma all_in {T} (l : list T) : Forall (fun x => x ∈ l) l.
Proof. by apply Forall_forall. Qed.

(** Under a comparison that is a strict weak order on the elements of the slice and
    does not stop, [timsort] succeeds and sorts stably: the result is a permutation in
    which every element is less than the later ones, or equal to them and before them
    in the input. The comparison is asked about elements of the slice only. *)
Theorem timsort_sorts_stably {C} (lt : nat -> nat -> C -> option bool * C) ltb pos l c :
  answers_on l lt ltb -> StrictWeakOn l ltb -> StronglySorted (earlier pos) l ->
  exists l' c', timsort lt (l, c) = (Ok tt, (l', c')) /\ l' ≡ₚ l /\ StronglySorted (before ltb pos) l'.
Proof.
  intros Ha SW Ho. apply sorts_stably.
  apply (timsort_ensures lt (extend l ltb) True (fun x => x ∈ l)) with (Stop := fun _ _ => False); try done.
  - intros x y c0 b c' Hx Hy E _. by apply (answers_on_extend l lt ltb x y c0 b c').
  - intros x y c0 c' Hx Hy E. by apply (answers_on_total l lt ltb x y c0 c').
  - intros _. by apply extend_weak.
  - apply all_in.
Qed.

(** Sorting by tens: [3] and [5] are equal and keep their order. *)
Definition by_tens (x y : nat) : bool := x / 10 <? y / 10.

Lemma by_tens_weak l : StrictWeakOn l by_tens.
Proof.
  split; unfold by_tens; [intros x y _ _|intros x y z _ _ _]; rewrite ?Nat.ltb_lt, ?Nat.ltb_ge; lia.
Defined.

Lemma timsort_sorts_stably_witness :
  exists l' c', timsort (fun x y (n : nat) => (Some (by_tens x y), S n)) ([25; 30; 3; 21; 5], 0) = (Ok tt, (l', c'))
    /\ l' ≡ₚ [25; 30; 3; 21; 5]
    /\ StronglySorted (before by_tens (fun x => default 0 ((list_find (fun y => y = x) [25; 30; 3; 21; 5]) ≫= fun p => Some p.1))) l'.
Proof.
  refine (timsort_sorts_stably _ _ _ _ _ _ (by_tens_weak _) _); [intros ? ? ? _ _; by eexists|].
  repeat constructor; unfold earlier; cbn; lia.
Defined.

(** ** Short slices *)

Lemma on_ids_whole {A C} (m : M (list nat * C) sort_error A) (s : MergeState C) n r a c :
  n = length (ids s) -> m (ids s, cmp s) = (r, (a, c)) -> length a = n ->
  on_ids 0 n m s = (r, set_cmp c (set_ids a s)).
Proof.
  intros -> Hm Ha. unfold on_ids. rewrite (slice_Ok (ids s) 0 (length (ids s))) by lia.
  rewrite drop_0, Nat.sub_0_r, take_ge by lia. rewrite Hm. unfold store. cbn [Nat.add].
  rewrite (proj2 (Nat.leb_le _ _)) by lia. cbn [take app]. by rewrite drop_ge, app_nil_r by lia.
Qed.

(** With one run there is nothing to merge. *)
Lemma one_run_ends {C} (lt : nat -> nat -> C -> option bool * C) fuel minrun n (s : MergeState C) :
  pending s = [] -> list_len s = n ->
  exists p, ((found_new_run lt n ;;;
       smodify (fun s => set_pending (pending s ++ [{| base := 0; len := n; power := 0 |}]) s) ;;;
       sort_runs lt (S fuel) minrun (0 + n)) ;;; merge_force_collapse lt) s
    = (Ok tt, set_pending p s).
Proof.
  intros Hp Hl. exists [{| base := 0; len := n; power := 0 |}].
  assert (Hf : found_new_run lt n s = (Ok tt, s)) by (unfold found_new_run, sbind, sget; by rewrite Hp).
  unfold sbind. rewrite Hf. cbn [smodify sort_runs]. unfold sbind, sget. cbn [list_len set_pending Nat.add].
  rewrite Hl, Nat.ltb_irrefl. cbn. rewrite Hp. done.
Qed.

Lemma count_run_length {T C} (lt : T -> T -> C -> option bool * C) a c r a' c' :
  a <> [] -> count_run lt (a, c) = (r, (a', c')) ->
  length a' = length a /\ match r with Ok n => exists D R, a' = D ++ R /\ n = length D /\ D <> [] | Err _ => True end.
Proof.
  intros Hne Hr. pose proof (count_run_ensures lt (fun _ _ => false) False (fun _ => True) ltac:(done) (fun e _ => e = SortAborted) ltac:(done)
    (fun _ => 0) ltac:(done) a c ltac:(by apply Forall_true) Hne ltac:(done)) as H.
  unfold ensures in H. rewrite Hr in H. destruct r as [n|e].
  - destruct H as (D & O & R & HD & Ha & -> & -> & HDO & _). cbn in Ha. subst a'.
    split; [by rewrite !length_app, (Permutation_length HDO)|]. by exists D, R.
  - destruct H as [_ H]. split; [by apply Permutation_length in H|done].
Qed.

Lemma binary_sort_length {T C} (lt : T -> T -> C -> option bool * C) D R c r a' c' :
  D <> [] -> binary_sort lt (length D) (D ++ R, c) = (r, (a', c')) -> length a' = length (D ++ R).
Proof.
  intros Hne Hr. pose proof (binary_sort_ensures lt (fun _ _ => false) False (fun _ => True) ltac:(done) (fun e _ => e = SortAborted) ltac:(done)
    (fun _ => 0) ltac:(done) D R c ltac:(by apply Forall_true) Hne) as H.
  unfold ensures in H. rewrite Hr in H. destruct r; destruct H as [H ?]; [by apply Permutation_length in H|].
  by apply Permutation_length.
Qed.

Lemma sbind_run {S E A B} (m : M S E A) (k : A -> M S E B) s a s' : m s = (Ok a, s') -> sbind m k s = k a s'.
Proof. unfold sbind. by intros ->. Qed.
Lemma sbind_stop {S E A B} (m : M S E A) (k : A -> M S E B) s e s' : m s = (Err e, s') -> sbind m k s = (Err e, s').
Proof. unfold sbind. by intros ->. Qed.

Lemma sbind_assoc {S E A B D} (m : M S E A) (k : A -> M S E B) (h : B -> M S E D) s :
  sbind (sbind m k) h s = sbind m (fun a => sbind (k a) h) s.
Proof. unfold sbind. by destruct (m s) as [[a|e] s']. Qed.

Lemma sort_short_eq {T C} (lt : T -> T -> C -> option bool * C) a c :
  2 <= length a ->
  sort_short lt (a, c) = (do n <- count_run lt ;; if n <? length a then binary_sort lt n else sret tt) (a, c).
Proof.
  intros H. unfold sort_short. rewrite (sbind_run sget _ (a, c) (a, c) (a, c) eq_refl). cbn [fst].
  by rewrite (proj2 (Nat.ltb_ge (length a) 2)) by done.
Qed.

(** The first turn of the loop over runs, when it takes the whole slice. *)
Lemma sort_runs_eq {C} (lt : nat -> nat -> C -> option bool * C) fuel n (s : MergeState C) :
  list_len s = n -> length (ids s) = n -> 0 < n ->
  sort_runs lt (S fuel) n 0 s =
  (do k <- on_ids 0 n (count_run lt) ;;
   do k <- (if k <? n then on_ids 0 n (binary_sort lt k) ;;; sret n else sret k) ;;
   found_new_run lt k ;;;
   smodify (fun s => set_pending (pending s ++ [{| base := 0; len := k; power := 0 |}]) s) ;;;
   sort_runs lt fuel n k) s.
Proof.
  intros Hl Hi Hn. cbn [sort_runs]. rewrite (sbind_run sget _ s s s eq_refl).
  rewrite Hl, Hi, (proj2 (Nat.ltb_lt 0 n)) by done. by rewrite Nat.sub_0_r, Nat.min_id.
Qed.

(** A slice whose length is the minimum run is one run. *)
Lemma sort_one_run {C} (lt : nat -> nat -> C -> option bool * C) n (state : MergeState C) :
  pending state = [] -> list_len state = n -> length (ids state) = n -> 2 <= n ->
  exists s', (sort_runs lt (S n) n 0 ;;; merge_force_collapse lt) state
    = ((sort_short lt (ids state, cmp state)).1, s')
    /\ (ids s', cmp s') = (sort_short lt (ids state, cmp state)).2.
Proof.
  intros Hp Hl Hi Hn. rewrite sort_short_eq, Hi by lia.
  assert (Hend : forall (s2 : MergeState C), pending s2 = [] -> list_len s2 = n ->
            exists p, ((found_new_run lt n ;;;
               smodify (fun s => set_pending (pending s ++ [{| base := 0; len := n; power := 0 |}]) s) ;;;
               sort_runs lt n n n) ;;; merge_force_collapse lt) s2 = (Ok tt, set_pending p s2)).
  { intros s2 H1 H2. destruct (one_run_ends lt (n - 1) n n s2 H1 H2) as [p Hend].
    replace (S (n - 1)) with n in Hend by lia. by exists p. }
  destruct (count_run lt (ids state, cmp state)) as [r [a c1]] eqn:Hr.
  destruct (count_run_length lt (ids state) (cmp state) r a c1) as [Ha Hd];
    [by destruct (ids state); cbn in *; [lia|]|exact Hr|].
  rewrite Hi in Ha. pose proof (on_ids_whole (count_run lt) state n r a c1 (eq_sym Hi) Hr Ha) as Hon.
  set (body := sort_runs lt (S n) n 0). unfold sbind at 1. unfold body. rewrite sort_runs_eq by lia.
  destruct r as [k|e].
  2: { rewrite (sbind_stop (count_run lt) _ _ _ _ Hr), (sbind_stop _ _ _ _ _ Hon). by eexists. }
  rewrite (sbind_run (count_run lt) _ _ _ _ Hr), (sbind_run _ _ _ _ _ Hon). destruct Hd as (D & R & -> & -> & HD).
  set (s1 := set_cmp c1 (set_ids (D ++ R) state)).
  assert (Hk : length D <= n) by (rewrite <- Ha, length_app; lia).
  destruct (Nat.ltb_spec (length D) n) as [Hlt|Hge].
  - destruct (binary_sort lt (length D) (D ++ R, c1)) as [r2 [a2 c2]] eqn:Hr2.
    pose proof (binary_sort_length lt D R c1 r2 a2 c2 HD Hr2) as Ha2.
    pose proof (on_ids_whole (binary_sort lt (length D)) s1 n r2 a2 c2 (eq_sym Ha) Hr2 ltac:(lia)) as Hon2.
    rewrite sbind_assoc. destruct r2 as [[]|e].
    + rewrite (sbind_run _ _ _ _ _ Hon2). destruct (Hend (set_cmp c2 (set_ids a2 s1)) Hp Hl) as [p Hp'].
      eexists. split; [exact Hp'|done].
    + rewrite (sbind_stop _ _ _ _ _ Hon2). by eexists.
  - assert (length D = n) as HDn by lia. destruct (Hend s1 Hp Hl) as [p Hp']. rewrite HDn.
    eexists. split; [exact Hp'|done].
Qed.

(** Below 64 elements [sort_short] is [timsort]: it makes the same comparisons in
    the same order, stops at the same one, and leaves the same slice. *)
Theorem sort_short_is_timsort {C} (lt : nat -> nat -> C -> option bool * C) l c :
  length l < MAX_MINRUN -> sort_short lt (l, c) = timsort lt (l, c).
Proof.
  intros H64. unfold timsort. cbn [fst snd]. destruct (Nat.ltb_spec (length l) 2) as [H2|H2].
  { unfold sort_short, sbind, sget. cbn [fst]. by rewrite (proj2 (Nat.ltb_lt (length l) 2)) by done. }
  set (state := {| ids := l; cmp := c; min_gallop := MIN_GALLOP; tmp := []; pending := []; list_len := length l |}).
  destruct (sort_one_run lt (length l) state eq_refl eq_refl eq_refl H2) as (s' & Hs & He).
  rewrite (sbind_run _ _ _ (length l) state).
  - rewrite Hs. cbn [ids cmp state] in *. rewrite He. by destruct (sort_short lt (l, c)).
  - unfold slift, merge_compute_minrun. cbn [minrun_loop]. rewrite (proj2 (Nat.leb_gt MAX_MINRUN _)) by done.
    by rewrite Nat.add_0_r.
Qed.

Lemma sort_short_is_timsort_witness :
  sort_short (fun x y (n : nat) => (Some (by_tens x y), S n)) ([25; 30; 3; 21; 5], 0)
  = timsort (fun x y (n : nat) => (Some (by_tens x y), S n)) ([25; 30; 3; 21; 5], 0).
Proof. apply sort_short_is_timsort. unfold MAX_MINRUN. cbn. lia. Defined.
