(* ===== verification/Number.v ===== *)
(** Numbers that are compared without the virtual machine: [Number] of
    [crates/monty/src/sorting/mod.rs] and [i64_cmp_f64] of
    [crates/monty/src/types/long_int.rs].

    A [f64] is not a number, an infinity, or the dyadic rational [m * 2^e]. The
    operations the code uses on them (comparison, [trunc], the conversion of an
    integral value in range, the difference of a value and its truncation) are exact,
    so no rounding appears. *)
From S2P Require Import Prelude.
From Stdlib Require Import QArith Qpower Lqa.
Local Open Scope Z_scope.

Inductive f64 := NaN | Inf (negative : bool) | Finite (m e : Z).

(** [a.cmp(&b)] on integers. *)
Definition i64_cmp (a b : Z) : comparison := a ?= b.

(** [m1 * 2^e1] against [m2 * 2^e2]. *)
Definition dyadic_cmp (m1 e1 m2 e2 : Z) : comparison :=
  let e := Z.min e1 e2 in (m1 * 2 ^ (e1 - e) ?= m2 * 2 ^ (e2 - e)).

(** [f64::partial_cmp]. *)
Definition f64_partial_cmp (a b : f64) : option comparison :=
  match a, b with
  | NaN, _ | _, NaN => None
  | Inf n, Inf n' => Some (if Bool.eqb n n' then Eq else if n then Lt else Gt)
  | Inf n, Finite _ _ => Some (if n then Lt else Gt)
  | Finite _ _, Inf n => Some (if n then Gt else Lt)
  | Finite m1 e1, Finite m2 e2 => Some (dyadic_cmp m1 e1 m2 e2)
  end.

Definition is_nan (f : f64) : bool := match f with NaN => true | _ => false end.

(** [f64::trunc] of a finite value, as the integer it is. *)
Definition trunc (m e : Z) : Z := if 0 <=? e then m * 2 ^ e else Z.quot m (2 ^ (- e)).

(** [f - trunc], as a dyadic: the fraction of [f]. *)
Definition fraction (m e : Z) : f64 := if 0 <=? e then Finite 0 0 else Finite (Z.rem m (2 ^ (- e))) e.

Definition TWO_POW_63 : f64 := Finite 1 63.
Definition NEG_TWO_POW_63 : f64 := Finite (-1) 63.

(** [f >= g] and [f < g], false on NaN. *)
Definition f64_ge (f g : f64) : bool :=
  match f64_partial_cmp f g with Some Gt | Some Eq => true | _ => false end.
Definition f64_lt (f g : f64) : bool :=
  match f64_partial_cmp f g with Some Lt => true | _ => false end.

(** The arm that truncates is reached with finite values only. *)
Definition i64_cmp_f64 (a : Z) (f : f64) : option comparison :=
  if is_nan f then None
  else if f64_ge f TWO_POW_63 then Some Lt
  else if f64_lt f NEG_TWO_POW_63 then Some Gt
  else match f with
       | Finite m e =>
           match i64_cmp a (trunc m e) with
           | Eq => option_map CompOpp (f64_partial_cmp (fraction m e) (Finite 0 0))
           | ord => Some ord
           end
       | _ => None
       end.

Inductive Number := Int (i : Z) | Float (f : f64).

Definition number_is_nan (n : Number) : bool := match n with Float f => is_nan f | Int _ => false end.

Definition partial_cmp (a b : Number) : option comparison :=
  match a, b with
  | Int a, Int b => Some (i64_cmp a b)
  | Float a, Float b => f64_partial_cmp a b
  | Int a, Float b => i64_cmp_f64 a b
  | Float a, Int b => option_map CompOpp (i64_cmp_f64 b a)
  end.

(** ** The numbers they are *)

(** Rationals with the two infinities, and their order. *)
Inductive ext := MinusInf | Rat (q : Q) | PlusInf.

Definition ext_cmp (a b : ext) : comparison :=
  match a, b with
  | MinusInf, MinusInf | PlusInf, PlusInf => Eq
  | MinusInf, _ | _, PlusInf => Lt
  | _, MinusInf | PlusInf, _ => Gt
  | Rat p, Rat q => (p ?= q)%Q
  end.

Definition f64_value (f : f64) : option ext :=
  match f with
  | NaN => None
  | Inf n => Some (if n then MinusInf else PlusInf)
  | Finite m e => Some (Rat (inject_Z m * Qpower 2 e))
  end.

(** The mathematical value of a number; [None] is NaN. *)
Definition number_value (n : Number) : option ext :=
  match n with Int i => Some (Rat (inject_Z i)) | Float f => f64_value f end.

(** An [Int] is an [i64]. *)
Definition in_i64 (n : Number) : Prop := match n with Int i => i64_min <= i <= i64_max | Float _ => True end.

Lemma Qpower_2_pos e : (0 < Qpower 2 e)%Q.
Proof. apply Qpower_0_lt. reflexivity. Qed.

Lemma Qpower_2_Z k : 0 <= k -> (Qpower 2 k == inject_Z (2 ^ k))%Q.
Proof. intros H. change 2%Q with (inject_Z 2). by rewrite Zpower_Qpower. Qed.

Lemma inject_Z_compare a b : (inject_Z a ?= inject_Z b)%Q = (a ?= b).
Proof. unfold Qcompare. cbn. by rewrite !Z.mul_1_r. Qed.

Lemma Qcompare_scale q r s : (0 < s)%Q -> (q * s ?= r * s)%Q = (q ?= r)%Q.
Proof.
  intros Hs. destruct (q ?= r)%Q eqn:E.
  - apply Qeq_alt in E. apply Qeq_alt. by rewrite E.
  - apply Qlt_alt in E. apply Qlt_alt. by apply Qmult_lt_r.
  - apply Qgt_alt in E. apply Qgt_alt. by apply Qmult_lt_r.
Qed.

Lemma Qcompare_comp' p p' q q' : (p == p')%Q -> (q == q')%Q -> (p ?= q)%Q = (p' ?= q')%Q.
Proof. intros H1 H2. by apply Qcompare_comp. Qed.

Lemma dyadic_cmp_value m1 e1 m2 e2 :
  dyadic_cmp m1 e1 m2 e2 = (inject_Z m1 * Qpower 2 e1 ?= inject_Z m2 * Qpower 2 e2)%Q.
Proof.
  unfold dyadic_cmp. set (e := Z.min e1 e2). rewrite <- inject_Z_compare.
  rewrite <- (Qcompare_scale _ _ (Qpower 2 e) (Qpower_2_pos e)).
  assert (H : forall m k, e <= k -> (inject_Z (m * 2 ^ (k - e)) * Qpower 2 e == inject_Z m * Qpower 2 k)%Q).
  { intros m k Hk. rewrite inject_Z_mult, <- Qpower_2_Z by lia. rewrite <- Qmult_assoc.
    rewrite <- Qpower_plus by (intros H; discriminate H). by replace (k - e + e) with k by lia. }
  apply Qcompare_comp'; apply H; unfold e; lia.
Qed.

Lemma f64_partial_cmp_value a b :
  f64_partial_cmp a b = match f64_value a, f64_value b with Some u, Some v => Some (ext_cmp u v) | _, _ => None end.
Proof.
  destruct a as [|[]|m1 e1], b as [|[]|m2 e2]; cbn; try done. by rewrite dyadic_cmp_value.
Qed.

Lemma compare_cases (a b : Z) c : (a ?= b) = c <-> match c with Eq => a = b | Lt => a < b | Gt => b < a end.
Proof. destruct c; [apply Z.compare_eq_iff|apply Z.compare_lt_iff|apply Z.compare_gt_iff]. Qed.

(** Against a fraction: the integer part decides, or the sign of what is left. *)
Lemma trunc_decides a m k : 0 <= k ->
  (a * 2 ^ k ?= m) =
  match a ?= Z.quot m (2 ^ k) with Eq => CompOpp (Z.rem m (2 ^ k) ?= 0) | ord => ord end.
Proof.
  intros Hk. pose proof (Z.pow_pos_nonneg 2 k ltac:(lia) Hk) as Hp.
  pose proof (Z.quot_rem' m (2 ^ k)) as Hm. set (t := Z.quot m (2 ^ k)) in *. set (r := Z.rem m (2 ^ k)) in *.
  pose proof (Z.rem_bound_abs m (2 ^ k) ltac:(lia)) as Hr. pose proof (Z.rem_sign_mul m (2 ^ k) ltac:(lia)) as Hs.
  fold r in Hr, Hs. rewrite (Z.abs_eq (2 ^ k)) in Hr by lia.
  destruct (a ?= t) eqn:E; apply compare_cases in E.
  - subst a. destruct (r ?= 0) eqn:Er; apply compare_cases in Er; cbn; apply compare_cases; nia.
  - apply compare_cases. nia.
  - apply compare_cases. nia.
Qed.

Lemma dyadic_cmp_int m e n k : 0 <= k ->
  dyadic_cmp m e n k = if 0 <=? e then (m * 2 ^ e ?= n * 2 ^ k) else (m ?= n * 2 ^ (k - e)).
Proof.
  intros Hk. destruct (Z.leb_spec 0 e) as [He|He].
  - rewrite dyadic_cmp_value, !Qpower_2_Z by lia. by rewrite <- !inject_Z_mult, inject_Z_compare.
  - unfold dyadic_cmp. rewrite Z.min_l by lia. by rewrite Z.sub_diag, Z.mul_1_r.
Qed.

Lemma dyadic_cmp_opp m1 e1 m2 e2 : dyadic_cmp m2 e2 m1 e1 = CompOpp (dyadic_cmp m1 e1 m2 e2).
Proof. unfold dyadic_cmp. rewrite Z.min_comm. apply Z.compare_antisym. Qed.

Lemma i64_cmp_finite a m e : i64_min <= a <= i64_max -> i64_cmp_f64 a (Finite m e) = Some (dyadic_cmp a 0 m e).
Proof.
  intros Ha. unfold i64_cmp_f64. cbn [is_nan]. unfold f64_ge, f64_lt. cbn [f64_partial_cmp TWO_POW_63 NEG_TWO_POW_63].
  rewrite (dyadic_cmp_opp m e a 0), !dyadic_cmp_int by lia. unfold trunc, fraction, i64_min, i64_max in *.
  destruct (Z.leb_spec 0 e) as [He|He]; rewrite ?Z.sub_0_l, ?Z.mul_1_r, ?Z.mul_1_l.
  - destruct (m * 2 ^ e ?= 2 ^ 63) eqn:E1; apply compare_cases in E1; cbn in E1.
    1,3: f_equal; symmetry; apply CompOpp_iff; cbn; apply compare_cases; lia.
    destruct (m * 2 ^ e ?= -1 * 2 ^ 63) eqn:E2; apply compare_cases in E2; cbn in E2.
    2: { f_equal. symmetry. apply CompOpp_iff; cbn. apply compare_cases. lia. }
    all: unfold i64_cmp; rewrite <- Z.compare_antisym; destruct (a ?= m * 2 ^ e); done.
  - assert (Hp : 0 < 2 ^ (- e)) by (apply Z.pow_pos_nonneg; lia).
    replace (63 - e) with (63 + - e) by lia. rewrite Z.pow_add_r by lia. rewrite <- Z.compare_antisym.
    change (2 ^ 63) with 9223372036854775808 in *. replace (0 - e) with (- e) by lia.
    destruct (m ?= 9223372036854775808 * 2 ^ (- e)) eqn:E1; apply compare_cases in E1.
    1,3: f_equal; symmetry; apply compare_cases; nia.
    destruct (m ?= -1 * (9223372036854775808 * 2 ^ (- e))) eqn:E2; apply compare_cases in E2.
    2: { f_equal. symmetry. apply compare_cases. nia. }
    all: unfold i64_cmp; rewrite (trunc_decides a m (- e)) by lia; destruct (a ?= Z.quot m (2 ^ (- e))); try done;
      cbn [option_map f64_partial_cmp]; rewrite (dyadic_cmp_int _ e 0 0) by lia;
      by rewrite (proj2 (Z.leb_gt 0 e)), Z.mul_0_l by lia.
Qed.

Lemma i64_cmp_f64_value a f :
  i64_min <= a <= i64_max ->
  i64_cmp_f64 a f = option_map (ext_cmp (Rat (inject_Z a))) (f64_value f).
Proof.
  intros Ha. destruct f as [|[]|m e]; [done..|]. rewrite i64_cmp_finite by done. cbn. f_equal.
  rewrite dyadic_cmp_value. apply Qcompare_comp'; [|done]. cbn. by rewrite Qmult_1_r.
Qed.

Lemma ext_cmp_opp a b : ext_cmp b a = CompOpp (ext_cmp a b).
Proof. destruct a, b; cbn; try done. symmetry. apply Qcompare_antisym. Qed.

Lemma partial_cmp_value a b :
  in_i64 a -> in_i64 b ->
  partial_cmp a b =
  match number_value a, number_value b with Some u, Some v => Some (ext_cmp u v) | _, _ => None end.
Proof.
  intros Ha Hb. destruct a as [a|f], b as [b|g]; cbn in *.
  - unfold i64_cmp. by rewrite inject_Z_compare.
  - rewrite i64_cmp_f64_value by done. by destruct (f64_value g).
  - rewrite i64_cmp_f64_value by done. destruct (f64_value f) as [v|]; cbn [option_map]; [|done]. by rewrite (ext_cmp_opp (Rat (inject_Z b)) v).
  - apply f64_partial_cmp_value.
Qed.

(** ** The order is total *)

Lemma ext_cmp_trans a b c : ext_cmp b a <> Lt -> ext_cmp c b <> Lt -> ext_cmp c a <> Lt.
Proof.
  destruct a, b, c; cbn; try done. rewrite <- !Qge_alt. intros H1 H2. by eapply Qle_trans.
Qed.

Lemma number_value_nan n : number_value n = None <-> number_is_nan n = true.
Proof. by destruct n as [|[]]. Qed.
