(* ===== verification/Permute.v ===== *)
(** [apply_permutation] ([crates/monty/src/sorting/mod.rs]): rearranging items in place
    by chasing the cycles of a permutation. *)
From S2P Require Import Prelude Timsort TimsortOrder.
Local Open Scope monty_scope.

Section Permute.
Context {T : Type}.

Abbreviation St := (list T * list nat)%type.

(** [items.swap(a, b)]. *)
Definition swap (a b : nat) (items : list T) : result (list T) sort_error :=
  let? x := at_ items a in
  let? y := at_ items b in
  Ok (<[b := x]> (<[a := y]> items)).

(** The [loop] over one cycle, from position [i]. *)
Fixpoint chase (fuel i current : nat) (s : St) : result St sort_error :=
  match fuel with
  | O => Err OutOfFuel
  | S fuel =>
      let '(items, indices) := s in
      let? target := at_ indices current in
      let indices := <[current := current]> indices in
      if target =? i then Ok (items, indices)
      else
        let? items := swap current target items in
        chase fuel i target (items, indices)
  end.

(** The positions [i], [i + 1], ..., [n] of them. *)
Fixpoint permute_from (n i : nat) (s : St) : result St sort_error :=
  match n with
  | O => Ok s
  | S n =>
      let? at_i := at_ s.2 i in
      let? s := (if at_i =? i then Ok s else chase (S (length s.1)) i i s) in
      permute_from n (i + 1) s
  end.

Definition apply_permutation (items : list T) (indices : list nat) : result St sort_error :=
  permute_from (length items) 0 (items, indices).

(** ** Correctness *)

(** The permutation [σ] of the positions below [n], and the items [orig] it rearranges. *)
Context (σ : nat -> nat) (n : nat) (orig : nat -> option T).
Context (σ_range : forall p, p < n -> σ p < n) (σ_inj : forall p q, p < n -> q < n -> σ p = σ q -> p = q).

(** Positions in [D] are done; [at_of] says what the others hold. *)
Record placed (D : gset nat) (hold : nat -> option T) (s : St) : Prop := {
  pl_items : length s.1 = n;
  pl_indices : length s.2 = n;
  pl_sub : forall p, p ∈ D -> p < n;
  pl_idx : forall p, p < n -> s.2 !! p = Some (if decide (p ∈ D) then p else σ p);
  pl_val : forall p, p < n -> s.1 !! p = if decide (p ∈ D) then orig (σ p) else hold p }.

(** In a cycle: [current] holds the item of [i], where the cycle began. *)
Record in_cycle (D : gset nat) (i current : nat) : Prop := {
  ic_i : i < n;
  ic_cur : current < n;
  ic_new : current ∉ D;
  ic_next : forall p, p ∈ D -> σ p ∈ D \/ σ p = current;
  ic_prev : forall q, q < n -> σ q ∈ D -> q ∈ D \/ σ q = i;
  ic_start : current = i \/ (i ∈ D /\ exists p, p ∈ D /\ σ p = current) }.

(** A set of whole cycles. *)
Definition closed (D : gset nat) : Prop := forall q, q < n -> (q ∈ D <-> σ q ∈ D).

Definition carried (i current : nat) (p : nat) : option T := if decide (p = current) then orig i else orig p.

Lemma size_bound (D : gset nat) : (forall p, p ∈ D -> p < n) -> size D <= n.
Proof.
  intros H. rewrite <- (size_set_seq (C := gset nat) 0 n). apply subseteq_size. intros p Hp.
  apply elem_of_set_seq. specialize (H p Hp). lia.
Qed.

Lemma placed_done D hold s current :
  placed D hold s -> current < n -> hold current = orig (σ current) ->
  placed (D ∪ {[current]}) hold (s.1, <[current := current]> s.2).
Proof.
  intros [H1 H2 H3 H4 H5] Hc Hh. split; cbn.
  - done.
  - by rewrite length_insert.
  - intros p [Hp| ->%elem_of_singleton]%elem_of_union; [by apply H3|done].
  - intros p Hp. destruct (decide (p = current)) as [->|Hne].
    + rewrite list_lookup_insert_eq by lia. by rewrite decide_True by set_solver.
    + rewrite list_lookup_insert_ne, H4 by done. repeat case_decide; set_solver.
  - intros p Hp. rewrite H5 by done. destruct (decide (p = current)) as [->|Hne]; repeat case_decide; set_solver.
Qed.

Lemma swap_placed D i s current target :
  placed D (carried i current) s -> current ∉ D -> current < n -> target < n -> target ∉ D ->
  target <> current -> target = σ current ->
  exists items, swap current target s.1 = Ok items
    /\ placed (D ∪ {[current]}) (carried i target) (items, <[current := current]> s.2).
Proof.
  intros [H1 H2 H3 H4 H5] HcD Hc Ht HtD Hne Hσ.
  destruct (lookup_lt_is_Some_2 s.1 current) as [x Hx]; [lia|].
  destruct (lookup_lt_is_Some_2 s.1 target) as [y Hy]; [lia|].
  exists (<[target := x]> (<[current := y]> s.1)). unfold swap. rewrite (at_Ok _ _ _ Hx), (at_Ok _ _ _ Hy).
  split; [done|].
  assert (Hox : Some x = orig i).
  { rewrite <- Hx, H5, decide_False by done. unfold carried. by rewrite decide_True. }
  assert (Hoy : Some y = orig target).
  { rewrite <- Hy, H5, decide_False by done. unfold carried. by rewrite decide_False. }
  split; cbn.
  - by rewrite !length_insert.
  - by rewrite length_insert.
  - intros p [Hp| ->%elem_of_singleton]%elem_of_union; [by apply H3|done].
  - intros p Hp. destruct (decide (p = current)) as [->|Hp'].
    + rewrite list_lookup_insert_eq by lia. by rewrite decide_True by set_solver.
    + rewrite list_lookup_insert_ne, H4 by done. repeat case_decide; set_solver.
  - intros p Hp. destruct (decide (p = target)) as [->|Hpt].
    + rewrite list_lookup_insert_eq by (rewrite length_insert; lia). rewrite decide_False by set_solver.
      unfold carried. by rewrite decide_True.
    + rewrite list_lookup_insert_ne by done. destruct (decide (p = current)) as [->|Hpc].
      * rewrite list_lookup_insert_eq by lia. rewrite decide_True by set_solver. by rewrite <- Hσ.
      * rewrite list_lookup_insert_ne, H5 by done. unfold carried.
        rewrite (decide_False (P := p = current)), (decide_False (P := p = target)) by done.
        repeat case_decide; set_solver.
Qed.

Lemma chase_ok : forall fuel D i current s,
  placed D (carried i current) s -> in_cycle D i current -> n - size D < fuel ->
  exists D' s', chase fuel i current s = Ok s' /\ placed D' orig s' /\ closed D' /\ D ⊆ D' /\ i ∈ D'.
Proof.
  induction fuel as [|fuel IH]; intros D i current [items indices] Hp Hc Hf; [lia|]. cbn [chase].
  pose proof Hc as [Hi Hcur Hnew Hnext Hprev Hstart].
  rewrite (at_Ok indices current (σ current)).
  2: { pose proof (pl_idx _ _ _ Hp current Hcur) as E. cbn in E. by rewrite decide_False in E. }
  cbn [rbind]. set (D' := D ∪ {[current]}).
  assert (Hsz : size D' = S (size D)) by (unfold D'; rewrite size_union, size_singleton by set_solver; lia).
  destruct (Nat.eqb_spec (σ current) i) as [Ht|Ht].
  - exists D', (items, <[current := current]> indices). split; [done|].
    assert (Hq : placed D' (carried i current) (items, <[current := current]> indices)).
    { apply (placed_done D _ (items, indices)); [done..|]. unfold carried. rewrite decide_True by done. by rewrite Ht. }
    split_and!; [| |set_solver|].
    + destruct Hq as [Q1 Q2 Q3 Q4 Q5]. split; try done. intros p Hpn. rewrite Q5 by done.
      destruct (decide (p ∈ D')) as [|Hno]; [done|]. unfold carried. rewrite decide_False; [done|]. set_solver.
    + intros q Hq'. split.
      * intros [HqD| ->%elem_of_singleton]%elem_of_union.
        -- destruct (Hnext q HqD) as [|E]; [set_solver|]. rewrite E. set_solver.
        -- rewrite Ht. destruct Hstart as [->|[? _]]; set_solver.
      * intros [HqD|HqD%elem_of_singleton]%elem_of_union.
        -- destruct (Hprev q Hq' HqD) as [|E]; [set_solver|]. rewrite <- Ht in E. apply σ_inj in E; [|done..]. set_solver.
        -- destruct Hstart as [E|[_ (p & HpD & E)]].
           ++ subst i. rewrite <- HqD in Ht. rewrite HqD in Ht. rewrite <- Ht in HqD. apply σ_inj in HqD; [|done..]. set_solver.
           ++ rewrite <- E in HqD. apply σ_inj in HqD; [|done|by apply (pl_sub _ _ _ Hp)]. set_solver.
    + destruct Hstart as [->|[? _]]; set_solver.
  - assert (HtD : σ current ∉ D).
    { intros HD. destruct (Hprev current Hcur HD); done. }
    assert (Htc : σ current <> current).
    { intros E. destruct Hstart as [->|[_ (p & HpD & Ep)]]; [done|].
      assert (p = current) as ->; [|done]. apply σ_inj; [by apply (pl_sub _ _ _ Hp)|done|congruence]. }
    destruct (swap_placed D i (items, indices) current (σ current) Hp Hnew Hcur (σ_range _ Hcur) HtD Htc eq_refl)
      as (items' & Hsw & Hp'). cbn [fst snd] in Hsw, Hp'. rewrite Hsw. cbn [rbind].
    destruct (IH D' i (σ current) (items', <[current := current]> indices) Hp') as (D2 & s2 & E & H1 & H2 & H3 & H4).
    + split; [done|by apply σ_range|set_solver|..].
      * intros p [HpD| ->%elem_of_singleton]%elem_of_union; [|by right].
        destruct (Hnext p HpD) as [|E]; [set_solver|]. rewrite E. left. set_solver.
      * intros q Hq [HqD|HqD%elem_of_singleton]%elem_of_union.
        -- destruct (Hprev q Hq HqD); [left; set_solver|by right].
        -- destruct Hstart as [E|[_ (p & HpD & E)]]; [right; congruence|]. left.
           rewrite <- E in HqD. apply σ_inj in HqD; [|done|by apply (pl_sub _ _ _ Hp)]. set_solver.
      * right. split; [destruct Hstart as [->|[? _]]; set_solver|]. exists current. split; [set_solver|done].
    + pose proof (size_bound D' (pl_sub _ _ _ Hp')). lia.
    + exists D2, s2. split_and!; try done. set_solver.
Qed.

Lemma permute_from_ok : forall m i D s,
  placed D orig s -> closed D -> (forall p, p < i -> p ∈ D \/ σ p = p) -> i + m = n ->
  exists s', permute_from m i s = Ok s' /\ length s'.1 = n /\ length s'.2 = n
    /\ (forall p, p < n -> s'.1 !! p = orig (σ p)) /\ (forall p, p < n -> s'.2 !! p = Some p).
Proof.
  induction m as [|m IH]; intros i D s Hp Hc Hd Hn; cbn [permute_from].
  - exists s. pose proof Hp as [H1 H2 H3 H4 H5]. split_and!; [done|done|done|..]; intros p Hpn;
      [rewrite H5 by done|rewrite H4 by done]; destruct (Hd p ltac:(lia)) as [H|H]; repeat case_decide; congruence.
  - rewrite (at_Ok s.2 i _ (pl_idx _ _ _ Hp i ltac:(lia))). cbn [rbind].
    destruct (decide (i ∈ D)) as [HiD|HiD]; [rewrite Nat.eqb_refl|destruct (Nat.eqb_spec (σ i) i) as [E|E]]; cbn [rbind].
    + apply (IH (i + 1) D s Hp Hc); [|lia]. intros p Hpi. destruct (decide (p = i)) as [->|]; [by left|]. apply Hd. lia.
    + apply (IH (i + 1) D s Hp Hc); [|lia]. intros p Hpi. destruct (decide (p = i)) as [->|]; [by right|]. apply Hd. lia.
    + destruct (chase_ok (S (length s.1)) D i i s) as (D' & s' & -> & H1 & H2 & H3 & H4).
      * destruct Hp as [P1 P2 P3 P4 P5]. split; try done. intros p Hpn. rewrite P5 by done. unfold carried.
        repeat case_decide; congruence.
      * split; [lia|lia|done|..].
        -- intros p HpD. left. apply (proj1 (Hc p (pl_sub _ _ _ Hp p HpD)) HpD).
        -- intros q Hq HqD. left. by apply (proj2 (Hc q Hq)).
        -- by left.
      * rewrite (pl_items _ _ _ Hp). lia.
      * cbn [rbind]. apply (IH (i + 1) D' s' H1 H2); [|lia]. intros p Hpi.
        destruct (decide (p = i)) as [->|]; [by left|]. destruct (Hd p ltac:(lia)) as [H|H]; [left; set_solver|by right].
Qed.
End Permute.

Lemma apply_permutation_ok {T} (items : list T) indices :
  indices ≡ₚ seq 0 (length items) ->
  exists items', apply_permutation items indices = Ok (items', seq 0 (length items))
    /\ length items' = length items
    /\ (forall i j, indices !! i = Some j -> items' !! i = items !! j).
Proof.
  intros Hperm. set (n := length items). pose proof (Permutation_length Hperm) as Hlen. rewrite length_seq in Hlen.
  set (σ := fun p => default 0 (indices !! p)).
  assert (Hget : forall p, p < n -> indices !! p = Some (σ p)).
  { intros p Hp. unfold σ. destruct (lookup_lt_is_Some_2 indices p) as [x Hx]; [unfold n in *; lia|]. by rewrite Hx. }
  assert (Hnd : NoDup indices) by (rewrite Hperm; apply NoDup_ListNoDup, seq_NoDup).
  assert (σ_range : forall p, p < n -> σ p < n).
  { intros p Hp. assert (σ p ∈ indices) as Hin by (eapply list_elem_of_lookup_2, Hget, Hp).
    rewrite Hperm in Hin. apply list_elem_of_In, in_seq in Hin. lia. }
  assert (σ_inj : forall p q, p < n -> q < n -> σ p = σ q -> p = q).
  { intros p q Hp Hq E. eapply NoDup_lookup; [exact Hnd|by apply Hget|]. rewrite E. by apply Hget. }
  destruct (permute_from_ok σ n (fun p => items !! p) σ_range σ_inj n 0 ∅ (items, indices))
    as ([items' idx'] & E & H1 & H1' & H2 & H3).
  - by split.
  - intros q Hq. split; intros []%not_elem_of_empty.
  - lia.
  - done.
  - unfold apply_permutation. exists items'. cbn in *. fold n. rewrite E. split_and!; [|done|].
    + do 2 f_equal. apply list_eq. intros p. destruct (decide (p < n)) as [Hp|Hp].
      * rewrite (H3 p Hp). symmetry. by apply lookup_seq_lt.
      * rewrite !lookup_ge_None_2; [done|rewrite length_seq; lia|lia].
    + intros i j Hij. pose proof (lookup_lt_Some _ _ _ Hij) as Hi. rewrite H2 by (unfold n in *; lia).
      unfold σ. by rewrite Hij.
Qed.

(** The items in the order the indices name them. *)
Lemma permuted_list {T} (items items' : list T) indices :
  indices ≡ₚ seq 0 (length items) -> length items' = length items ->
  (forall i j, indices !! i = Some j -> items' !! i = items !! j) ->
  items' = omap (fun j => items !! j) indices.
Proof.
  intros Hp Hl Hget. pose proof (Permutation_length Hp) as Hlen. rewrite length_seq in Hlen.
  assert (Hin : forall j, j ∈ indices -> is_Some (items !! j)).
  { intros j Hj. rewrite Hp in Hj. apply list_elem_of_In, in_seq in Hj. apply lookup_lt_is_Some. lia. }
  clear Hp. rewrite <- Hlen in Hl. clear Hlen. revert items' Hl Hget. induction indices as [|j indices IH]; intros items' Hl Hget.
  - by destruct items'.
  - destruct items' as [|x items']; [done|]. destruct (Hin j) as [y Hy]; [by left|].
    pose proof (Hget 0 j eq_refl) as Hx. rewrite Hy in Hx. injection Hx as ->.
    cbn. rewrite Hy. f_equal. apply IH.
    + intros k Hk. apply Hin. by right.
    + by injection Hl.
    + intros i k Hi. apply (Hget (S i) k Hi).
Qed.

Lemma omap_seq {T} (items : list T) : omap (fun j => items !! j) (seq 0 (length items)) = items.
Proof.
  symmetry. apply permuted_list; [done..|]. intros i j Hij. apply lookup_seq in Hij as [-> _]. done.
Qed.

(** Applying a permutation of the positions ends, without leaving the slice, with
    every position holding the item its index named: the items are rearranged, none
    lost or doubled, and the indices become the identity. *)
Lemma apply_permutation_correct {T} (items : list T) indices :
  indices ≡ₚ seq 0 (length items) ->
  exists items', apply_permutation items indices = Ok (items', seq 0 (length items))
    /\ items' ≡ₚ items /\ (forall i j, indices !! i = Some j -> items' !! i = items !! j).
Proof.
  intros Hp. destruct (apply_permutation_ok items indices Hp) as (items' & E & Hl & Hget).
  exists items'. split_and!; [done| |done]. rewrite (permuted_list items items' indices Hp Hl Hget).
  rewrite Hp. by rewrite omap_seq.
Qed.
