(* ===== verification/Sorting.v ===== *)
(** Sorting Python values ([crates/monty/src/sorting/mod.rs]): what [list.sort] and
    [sorted()] run, over the sort of [Timsort], the numbers of [Number] and the
    rearrangement of [Permute].

    The sort reaches the interpreter through few calls: the text of a string, the rich
    comparison [cmp_values], [py_cmp], [py_eq] and the call of a key function. They
    are the class [Interp], over a state that holds the tracker, the machine and
    whatever else the guest changes. Reference counts of the values are not modelled. *)
From S2P Require Import Prelude Str Resource Timsort Number Permute.
Local Open Scope monty_scope.

(** [Value] of [value.rs]; an identifier or an opaque payload is a number. *)
Module Val.
Inductive Value :=
| Undefined | Ellipsis | NotImplemented | None
| Bool (b : bool) | Int (i : Z) | Float (f : f64)
| InternString (id : Z) | InlineString (s : str) | InternBytes (id : Z) | InternLongInt (id : Z)
| Builtin (b : Z) | ModuleFunction (f : Z) | DefFunction (id : Z) | Marker (m : Z) | Property (p : Z)
| Ref (id : Z).
End Val.
Abbreviation Value := Val.Value.

Inductive CmpOrder := Ordered (o : comparison) | Unordered | Incomparable.

(** [G] is the part of the interpreter that the sort does not read itself. *)
Abbreviation VM W G := ((ResourceTracker * W) * G)%type.

(** [cmp_values_lt] is [cmp_values(CmpOperator::Lt, ..)]; [heap_str] is the text of a
    heap entry that is a string; [from_resource] is the conversion of a
    [ResourceError] that [?] inserts. *)
Class Interp (W G E : Type) := {
  get_str : G -> Z -> str;
  heap_str : G -> Z -> option str;
  cmp_values_lt : Value -> Value -> M (VM W G) E bool;
  py_cmp : Value -> Value -> M (VM W G) E CmpOrder;
  py_eq : Value -> Value -> M (VM W G) E bool;
  evaluate_function : Value -> Value -> M (VM W G) E Value;
  from_resource : ResourceError -> E }.

(** What ends a sort early: an exception, or a panic of the host. *)
Inductive Failure (E : Type) := Raised (e : E) | Panicked.
Arguments Raised {E} e.
Arguments Panicked {E}.

(** ** Values that need no interpreter *)

Definition number_of (v : Value) : option Number :=
  match v with
  | Val.Int i => Some (Int i)
  | Val.Bool b => Some (Int (if b then 1 else 0)%Z)
  | Val.Float f => Some (Float f)
  | _ => None
  end.

Definition ordering_eqb (a b : comparison) : bool :=
  match a, b with Lt, Lt | Eq, Eq | Gt, Gt => true | _, _ => false end.

(** [str]'s [Ord]. *)
Definition str_cmp (a b : str) : comparison := if str_ltb a b then Lt else if str_ltb b a then Gt else Eq.

Inductive TotalOrder := Numbers | Strs.
Definition MAX_FAST_STR_LEN : nat := 256.
Definition SHORT_SORT_LEN : nat := 64.

(** ** Slices *)

(** [slice::sort_by], a stable sort; the comparison may panic. *)
Fixpoint insert_by {T E} (compare : T -> T -> result comparison E) (x : T) (l : list T) : result (list T) E :=
  match l with
  | [] => Ok [x]
  | y :: l' =>
      let? o := compare x y in
      match o with
      | Gt => let? r := insert_by compare x l' in Ok (y :: r)
      | _ => Ok (x :: y :: l')
      end
  end.

Fixpoint sort_by {T E} (compare : T -> T -> result comparison E) (l : list T) : result (list T) E :=
  match l with
  | [] => Ok []
  | x :: l => let? l := sort_by compare l in insert_by compare x l
  end.

Definition identity_permutation (len : nat) : list nat := seq 0 len.

Definition with_reversal {T S E} (reverse : bool) (sort : M (list T * S) E unit) : M (list T * S) E unit :=
  fun s =>
    let items := if reverse then rev s.1 else s.1 in
    let '(result, (items, vm)) := sort (items, s.2) in
    (result, (if reverse then rev items else items, vm)).

(** A sort that uses no interpreter: the slice stays as it was where it panics. *)
Definition sort_with {T S E} (sort : list T -> result (list T) E) : M (list T * S) E unit := fun s =>
  match sort s.1 with Ok l => (Ok tt, (l, s.2)) | Err e => (Err e, s) end.

Section Sorting.
Context {W G E : Type} `{Machine W} `{!Interp W G E}.

Abbreviation vm_t := (VM W G).
Abbreviation failure := (Failure E).

Definition str_of (value : Value) (vm : vm_t) : option str :=
  match value with
  | Val.InternString id => Some (get_str vm.2 id)
  | Val.Ref id => heap_str vm.2 id
  | _ => None
  end.

Definition total_order_of (values : list Value) (vm : vm_t) : option TotalOrder :=
  match values with
  | [] => None
  | first :: _ =>
      match number_of first with
      | Some _ =>
          let is_ordered v := match number_of v with Some n => negb (number_is_nan n) | None => false end in
          if forallb is_ordered values then Some Numbers else None
      | None =>
          let is_short v := match str_of v vm with Some s => length s <=? MAX_FAST_STR_LEN | None => false end in
          if forallb is_short values then Some Strs else None
      end
  end.

(** [TotalOrder::cmp]. *)
Definition order_cmp (self : TotalOrder) (a b : Value) (vm : vm_t) : comparison :=
  let ordering :=
    match self with
    | Numbers => match number_of a, number_of b with Some a, Some b => partial_cmp a b | _, _ => None end
    | Strs => match str_of a vm, str_of b vm with Some a, Some b => Some (str_cmp a b) | _, _ => None end
    end in
  default Eq ordering.

(** The arms of [py_lt] after the pairs of [int]s and of [float]s. *)
Definition py_lt_mixed (a b : Value) : M vm_t E bool := fun vm =>
  match number_of a, number_of b with
  | Some x, Some y => (Ok (match partial_cmp x y with Some Lt => true | _ => false end), vm)
  | _, _ =>
      match str_of a vm, str_of b vm with
      | Some x, Some y => (Ok (str_ltb x y), vm)
      | _, _ =>
          match a, b with
          | Val.Ref _, _ | _, Val.Ref _ => cmp_values_lt a b vm
          | _, _ =>
              (do order <- py_cmp a b ;;
               match order with
               | Ordered ordering => sret (match ordering with Lt => true | _ => false end)
               | Unordered => sret false
               | Incomparable => cmp_values_lt a b
               end) vm
          end
      end
  end.

Definition py_lt (a b : Value) : M vm_t E bool :=
  match a, b with
  | Val.Int x, Val.Int y => sret (x <? y)%Z
  | Val.Float x, Val.Float y => sret (f64_lt x y)
  | _, _ => py_lt_mixed a b
  end.

Definition py_eq_item (a b : Value) : M vm_t E bool :=
  match number_of a, number_of b with
  | Some x, Some y => sret (match partial_cmp x y with Some Eq => true | _ => false end)
  | _, _ => py_eq a b
  end.

(** ** The comparison of a sort *)

Record Comparer := { cmp_vm : vm_t; count : nat; error : option failure }.

Definition comparer_new (vm : vm_t) : Comparer := {| cmp_vm := vm; count := 0; error := None |}.

(** [vm.heap.tracker.check_time_every(i)?], with the error converted. *)
Definition poll_time (i : nat) : M vm_t failure unit := fun vm =>
  let '(r, s) := check_time_every (Z.of_nat i) vm.1 in
  (match r with Ok _ => Ok tt | Err e => Err (Raised (from_resource e)) end, (s, vm.2)).

(** [Comparer::lt]: the answer, or [None] with the error stashed. *)
Definition comparer_lt (lt : M vm_t failure bool) (self : Comparer) : option bool * Comparer :=
  let count := count self + 1 in
  let '(r, vm) := (poll_time count ;;; lt) (cmp_vm self) in
  match r with
  | Ok b => (Some b, {| cmp_vm := vm; count := count; error := error self |})
  | Err e => (None, {| cmp_vm := vm; count := count; error := Some e |})
  end.

(** [Comparer::finish]; a panic inside the sort goes on. *)
Definition finish (self : Comparer) (sorted : result unit sort_error) : result unit failure :=
  match sorted with
  | Ok _ => Ok tt
  | Err SortAborted => Err (default Panicked (error self))
  | Err _ => Err Panicked
  end.

(** A sort run with a new comparer over the virtual machine. *)
Definition with_comparer {T} (sort : M (list T * Comparer) sort_error unit) : M (list T * vm_t) failure unit :=
  fun s =>
    let '(sorted, (items, cmp)) := sort (s.1, comparer_new s.2) in
    (finish cmp sorted, (items, cmp_vm cmp)).

(** An interpreter call inside the sort: it raises, it does not panic. *)
Definition raising {A} (m : M vm_t E A) : M vm_t failure A := fun vm =>
  let '(r, vm) := m vm in (match r with Ok a => Ok a | Err e => Err (Raised e) end, vm).

(** [values[a]] and [values[b]] given to [k]. *)
Definition at_both {A} (values : list Value) (a b : nat) (k : Value -> Value -> A) : result A failure :=
  match values !! a, values !! b with Some x, Some y => Ok (k x y) | _, _ => Err Panicked end.

Definition sort_indices_by (reverse : bool) (lt : nat -> nat -> M vm_t failure bool) : M (list nat * vm_t) failure unit :=
  with_reversal reverse (with_comparer (timsort (fun a b => comparer_lt (lt a b)))).

Definition sort_indices (values : list Value) (reverse : bool) : M (list nat * vm_t) failure unit := fun s =>
  match total_order_of values s.2 with
  | Some order =>
      let vm := s.2 in
      with_reversal reverse (sort_with (sort_by (fun a b => at_both values a b (fun x y => order_cmp order x y vm)))) s
  | None =>
      sort_indices_by reverse
        (fun a b => do lt <- slift (at_both values a b py_lt) ;; raising lt) s
  end.

(** [values] rearranged by an index sort over [keys]. *)
Definition sort_through_indices (keys : list Value) (reverse : bool) : M (list Value * vm_t) failure unit := fun s =>
  let '(result, (indices, vm)) := sort_indices keys reverse (identity_permutation (length s.1), s.2) in
  match apply_permutation s.1 indices with
  | Ok (values, _) => (result, (values, vm))
  | Err _ => (Err Panicked, (s.1, vm))
  end.

(** The pass that computes the keys, from the value at position [i] on. *)
Fixpoint compute_keys (f : Value) (i : nat) (values : list Value) : M vm_t failure (list Value) :=
  match values with
  | [] => sret []
  | item :: values =>
      poll_time i ;;;
      do key <- raising (evaluate_function f item) ;;
      do keys <- compute_keys f (i + 1) values ;;
      sret (key :: keys)
  end.

Definition sort_values (key_fn : option Value) (reverse : bool) : M (list Value * vm_t) failure unit := fun s =>
  let '(values, vm) := s in
  match key_fn with
  | Some f =>
      match compute_keys f 0 values vm with
      | (Err e, vm) => (Err e, (values, vm))
      | (Ok keys, vm) => sort_through_indices keys reverse (values, vm)
      end
  | None =>
      match total_order_of values vm with
      | Some order =>
          with_reversal reverse (sort_with (sort_by (fun a b => Ok (order_cmp order a b vm)))) s
      | None =>
          if length values <? SHORT_SORT_LEN then
            with_reversal reverse (with_comparer (sort_short (fun a b => comparer_lt (raising (py_lt a b))))) s
          else sort_through_indices values reverse s
      end
  end.
End Sorting.
