(* ===== verification/SortingProps.v ===== *)
(** What [sort_values] guarantees: for any interpreter, for one whose [<] is a strict
    weak order, and on the fast path. *)
From S2P Require Import Prelude Str BTreeMap Resource Timsort TimsortOrder TimsortRuns TimsortMerge TimsortStack TimsortProps Number Permute Sorting.
From stdpp Require Import sorting.
Local Open Scope monty_scope.

(** ** Lists *)

Lemma sorted_rev {A} (R : A -> A -> Prop) l : StronglySorted R l -> StronglySorted (flip R) (rev l).
Proof.
  induction 1 as [|x l Hl IH HF]; cbn; [constructor|]. apply sorted_app. split_and!; [done|apply sorted_singleton|].
  intros y z Hy ->%list_elem_of_singleton. rewrite Forall_forall in HF. apply HF.
  by apply list_elem_of_In, in_rev, list_elem_of_In.
Qed.

Definition turn {A} (reverse : bool) (l : list A) : list A := if reverse then rev l else l.

Lemma turn_perm {A} reverse (l : list A) : turn reverse l ≡ₚ l.
Proof. destruct reverse; [|done]. symmetry. apply Permutation_rev. Qed.
Lemma turn_map {A B} reverse (f : A -> B) l : turn reverse (map f l) = map f (turn reverse l).
Proof. destruct reverse; [|done]. symmetry. apply map_rev. Qed.
Lemma turn_turn {A} reverse (l : list A) : turn reverse (turn reverse l) = l.
Proof. destruct reverse; [|done]. apply rev_involutive. Qed.

Lemma with_reversal_turn {T S E} reverse (sort : M (list T * S) E unit) s :
  with_reversal reverse sort s =
  (fun p => (p.1, (turn reverse p.2.1, p.2.2))) (sort (turn reverse s.1, s.2)).
Proof. unfold with_reversal. fold (turn reverse s.1). by destruct (sort _) as [r [l c]]. Qed.

(** The position of an index in the slice that is sorted. *)
Definition rank (reverse : bool) (n i : nat) : nat := if reverse then n - 1 - i else i.

Lemma seq_earlier n k : StronglySorted (fun i j => i < j) (seq k n).
Proof.
  revert k. induction n as [|n IH]; intros k; [constructor|]. cbn. constructor; [apply IH|].
  apply Forall_forall. intros j Hj%list_elem_of_In%in_seq. lia.
Qed.

Lemma elem_of_range n i : i ∈ seq 0 n <-> i < n.
Proof. rewrite list_elem_of_In, in_seq. lia. Qed.

Lemma ranked reverse n : StronglySorted (earlier (rank reverse n)) (turn reverse (seq 0 n)).
Proof.
  destruct reverse; [|apply seq_earlier]. eapply sorted_impl; [|apply sorted_rev, seq_earlier].
  intros i j Hi%list_elem_of_In%in_rev%in_seq Hj%list_elem_of_In%in_rev%in_seq. unfold earlier, flip, rank. lia.
Qed.

(** The order of a sort: descending when reversed, equal elements as they were. *)
Definition directed (reverse : bool) (ltb : nat -> nat -> bool) (i j : nat) : bool :=
  if reverse then ltb j i else ltb i j.

Lemma turned_back reverse n ltb l :
  l ≡ₚ seq 0 n -> StronglySorted (before ltb (rank reverse n)) l ->
  StronglySorted (before (directed reverse ltb) id) (turn reverse l).
Proof.
  intros Hp Hs. destruct reverse; [|done]. cbn. eapply sorted_impl; [|apply sorted_rev, Hs].
  intros i j Hi Hj. assert (i < n /\ j < n) as [Hin Hjn].
  { split; apply elem_of_range; rewrite <- Hp; apply list_elem_of_In, in_rev, list_elem_of_In; done. }
  unfold flip, before, directed, rank, id. intros [H|[H1 H2]]; [by left|right]. split; [done|lia].
Qed.

(** ** The stable sort of the standard library *)

Lemma insert_by_map {T T' E} (f : T -> T') (c : T' -> T' -> result comparison E) x l :
  insert_by c (f x) (map f l) = rmap (map f) (insert_by (fun a b => c (f a) (f b)) x l).
Proof.
  induction l as [|y l IH]; [done|]. cbn. destruct (c (f x) (f y)) as [[]|e]; cbn; [done..| |done].
  rewrite IH. by destruct (insert_by _ x l).
Qed.

Lemma sort_by_map {T T' E} (f : T -> T') (c : T' -> T' -> result comparison E) l :
  sort_by c (map f l) = rmap (map f) (sort_by (fun a b => c (f a) (f b)) l).
Proof.
  induction l as [|x l IH]; [done|]. cbn. rewrite IH. destruct (sort_by _ l) as [k|e]; [|done]. cbn. apply insert_by_map.
Qed.

Section SortBy.
Context {T E : Type} (compare : T -> T -> result comparison E) (ltb : T -> T -> bool) (pos : T -> nat) (K : Prop).
Context (SWK : K -> StrictWeak ltb) (U : T -> Prop).
Context (compares : forall x y, U x -> U y -> exists o, compare x y = Ok o /\ (K -> o = Gt <-> ltb y x = true)).

Lemma insert_by_ok x l :
  U x -> Forall U l ->
  exists l', insert_by compare x l = Ok l' /\ l' ≡ₚ x :: l
    /\ (K -> StronglySorted (before ltb pos) l -> Forall (earlier pos x) l -> StronglySorted (before ltb pos) l').
Proof.
  intros Ux. induction 1 as [|y l Uy Ul IH]; cbn.
  - exists [x]. split_and!; [done..|]. intros. apply sorted_singleton.
  - destruct (compares x y Ux Uy) as (o & -> & Ho). cbn [rbind]. destruct (decide (o = Gt)) as [->|Hne].
    + destruct IH as (l' & -> & Hp & Hs). exists (y :: l'). split_and!; [done|by rewrite Hp; constructor|].
      intros HK [Hl Fl]%StronglySorted_inv [Hx Fx]%Forall_cons. constructor; [by apply Hs|]. rewrite Hp.
      constructor; [left; by apply Ho|done].
    + exists (x :: y :: l). split_and!; [by destruct o|done|]. intros HK Hl [Hx Fx]%Forall_cons.
      assert (Hxy : before ltb pos x y).
      { right. split; [|done]. destruct (ltb y x) eqn:E1; [|done]. destruct Hne. by apply Ho. }
      constructor; [done|]. constructor; [done|]. apply StronglySorted_inv in Hl as [_ Fl].
      eapply Forall_impl; [exact Fl|]. intros z Hz. eapply before_trans; [by apply SWK|done|done].
Qed.

Lemma sort_by_ok l :
  Forall U l ->
  exists l', sort_by compare l = Ok l' /\ l' ≡ₚ l
    /\ (K -> StronglySorted (earlier pos) l -> StronglySorted (before ltb pos) l').
Proof.
  induction 1 as [|x l Ux Ul IH]; cbn; [exists []; split_and!; [done..|constructor]|].
  destruct IH as (k & -> & Hp & Hs). cbn [rbind]. assert (Uk : Forall U k) by by rewrite Hp.
  destruct (insert_by_ok x k Ux Uk) as (l' & -> & Hp' & Hs'). exists l'. split_and!; [done|by rewrite Hp', Hp|].
  intros HK [Hl Fl]%StronglySorted_inv. apply Hs'; [done|by apply Hs|by rewrite Hp].
Qed.
End SortBy.

(** ** The fast order is [<] *)

Lemma f64_partial_cmp_opp a b : f64_partial_cmp b a = option_map CompOpp (f64_partial_cmp a b).
Proof.
  rewrite !f64_partial_cmp_value. destruct (f64_value a), (f64_value b); cbn; try done. by rewrite ext_cmp_opp.
Qed.

Lemma partial_cmp_opp a b : partial_cmp b a = option_map CompOpp (partial_cmp a b).
Proof.
  destruct a, b; cbn; [|done| |apply f64_partial_cmp_opp].
  - unfold i64_cmp. by rewrite Z.compare_antisym.
  - destruct (i64_cmp_f64 _ _) as [[]|]; done.
Qed.

Lemma str_cmp_gt a b : str_cmp a b = Gt <-> str_ltb b a = true.
Proof.
  unfold str_cmp. destruct (str_ltb a b) eqn:E1; [|destruct (str_ltb b a); split; congruence].
  split; [done|]. intros E2. pose proof (str_ltb_trans _ _ _ E1 E2) as E3. by rewrite str_ltb_irrefl in E3.
Qed.

Lemma str_cmp_lt a b : ordering_eqb (str_cmp a b) Lt = str_ltb a b.
Proof. unfold str_cmp. destruct (str_ltb a b), (str_ltb b a); done. Qed.

Section Fast.
Context {W G E : Type} `{Machine W} `{!Interp W G E}.
Implicit Types (vm : VM W G) (keys values : list Value).

(** Between numbers [<] needs nothing. *)
Lemma py_lt_numbers a b x y vm :
  number_of a = Some x -> number_of b = Some y ->
  py_lt a b vm = (Ok (match partial_cmp x y with Some Lt => true | _ => false end), vm).
Proof.
  intros Ha Hb.
  assert (Em : py_lt_mixed a b vm = (Ok (match partial_cmp x y with Some Lt => true | _ => false end), vm)).
  { unfold py_lt_mixed. by rewrite Ha, Hb. }
  destruct a; try done; destruct b; try done; injection Ha as <-; injection Hb as <-; done.
Qed.

Lemma str_number v vm s : str_of v vm = Some s -> number_of v = None.
Proof. by destruct v. Qed.

Lemma py_lt_strs a b x y vm :
  str_of a vm = Some x -> str_of b vm = Some y -> py_lt a b vm = (Ok (str_ltb x y), vm).
Proof.
  intros Ha Hb. assert (Hm : py_lt_mixed a b vm = (Ok (str_ltb x y), vm)).
  { unfold py_lt_mixed. by rewrite (str_number a vm x), Ha, Hb by done. }
  destruct a; try done; destruct b; done.
Qed.

(** What [of] checked of every element. *)
Lemma total_order_checked keys vm o v :
  total_order_of keys vm = Some o -> v ∈ keys ->
  match o with
  | Numbers => exists n, number_of v = Some n /\ number_is_nan n = false
  | Strs => exists s, str_of v vm = Some s /\ length s <= MAX_FAST_STR_LEN
  end.
Proof.
  destruct keys as [|first keys]; [done|]. unfold total_order_of. destruct (number_of first).
  - destruct (forallb _ _) eqn:Ef; [|done]. intros [= <-] Hv. rewrite forallb_forall in Ef.
    apply list_elem_of_In in Hv. specialize (Ef v Hv). destruct (number_of v) as [m|]; [|done].
    exists m. split; [done|]. by apply negb_true_iff.
  - destruct (forallb _ _) eqn:Ef; [|done]. intros [= <-] Hv. rewrite forallb_forall in Ef.
    apply list_elem_of_In in Hv. specialize (Ef v Hv). destruct (str_of v vm) as [s|]; [|done].
    exists s. split; [done|]. by apply Nat.leb_le.
Qed.

Lemma order_cmp_lt keys vm o x y :
  total_order_of keys vm = Some o -> x ∈ keys -> y ∈ keys ->
  py_lt x y vm = (Ok (ordering_eqb (order_cmp o x y vm) Lt), vm).
Proof.
  intros Ho Hx Hy. pose proof (total_order_checked _ _ _ _ Ho Hx) as Cx. pose proof (total_order_checked _ _ _ _ Ho Hy) as Cy.
  unfold order_cmp. destruct o.
  - destruct Cx as (m & Hm & _), Cy as (n & Hn & _). rewrite (py_lt_numbers _ _ _ _ _ Hm Hn), Hm, Hn.
    by destruct (partial_cmp m n) as [[]|].
  - destruct Cx as (s & Hs & _), Cy as (t & Ht & _). rewrite (py_lt_strs _ _ _ _ _ Hs Ht), Hs, Ht. cbn [from_option id].
    by rewrite str_cmp_lt.
Qed.

Lemma order_cmp_gt keys vm o x y :
  total_order_of keys vm = Some o -> x ∈ keys -> y ∈ keys ->
  order_cmp o x y vm = Gt <-> order_cmp o y x vm = Lt.
Proof.
  intros Ho Hx Hy. pose proof (total_order_checked _ _ _ _ Ho Hx) as Cx. pose proof (total_order_checked _ _ _ _ Ho Hy) as Cy.
  unfold order_cmp. destruct o.
  - destruct Cx as (m & -> & _), Cy as (n & -> & _). rewrite (partial_cmp_opp m n).
    by destruct (partial_cmp m n) as [[]|].
  - destruct Cx as (s & -> & _), Cy as (t & -> & _). cbn [from_option id]. rewrite str_cmp_gt, <- str_cmp_lt.
    by destruct (str_cmp t s).
Qed.
End Fast.

(** ** Index sorts *)

Definition nth_value (values : list Value) (i : nat) : Value := default Val.None (values !! i).

Lemma nth_value_in values i : i < length values -> nth_value values i ∈ values /\ values !! i = Some (nth_value values i).
Proof.
  intros Hi. unfold nth_value. destruct (lookup_lt_is_Some_2 values i Hi) as [x Hx]. rewrite Hx. cbn.
  split; [|done]. by eapply list_elem_of_lookup_2.
Qed.

Lemma map_nth_value values l : Forall (fun i => i < length values) l ->
  map (nth_value values) l = omap (fun i => values !! i) l.
Proof.
  induction 1 as [|i l Hi Hl IH]; [done|]. cbn. destruct (nth_value_in values i Hi) as [_ ->]. by rewrite IH.
Qed.

Lemma map_seq_value values : map (nth_value values) (seq 0 (length values)) = values.
Proof.
  rewrite map_nth_value; [apply omap_seq|]. apply Forall_forall. intros i. by rewrite elem_of_range.
Qed.

(** [p] lists the positions of [keys] in the order of a stable sort under [ltb],
    descending when [reverse] is set. *)
Definition stable_order (keys : list Value) (ltb : Value -> Value -> bool) (reverse : bool) (p : list nat) : Prop :=
  StronglySorted (before (directed reverse (fun i j => ltb (nth_value keys i) (nth_value keys j))) id) p.

Section Sorted.
Context {W G E : Type} `{Machine W} `{!Interp W G E}.
Context (keys : list Value) (ltb : Value -> Value -> bool) (K : Prop).
Context (vm : VM W G).

(** On the fast path only the state at the start matters. *)
Context (answers : forall x y (vm1 : VM W G) b vm2, (is_Some (total_order_of keys vm) -> vm1 = vm) ->
           x ∈ keys -> y ∈ keys -> py_lt x y vm1 = (Ok b, vm2) -> K -> b = ltb x y).
Context (SW : K -> StrictWeakOn keys ltb).

(** The exceptions a sort of [keys] may raise: those of [<] on its elements, and the
    time limit. *)
Definition sort_raises (e : E) : Prop :=
  (exists x y (vm vm' : VM W G), x ∈ keys /\ y ∈ keys /\ py_lt x y vm = (Err e, vm')) \/
  (exists i (s s' : ResourceTracker * W) re, check_time_every i s = (Err re, s') /\ e = from_resource re).

Abbreviation n := (length keys).
Abbreviation index_ltb := (fun i j => ltb (nth_value keys i) (nth_value keys j)).
Abbreviation total_ltb := (extend (seq 0 n) index_ltb).
Abbreviation index_lt := (fun i j => comparer_lt (raising (py_lt (nth_value keys i) (nth_value keys j)))).

Definition stops (e : sort_error) (c : Comparer (W := W) (G := G)) : Prop :=
  e = SortAborted /\ exists err, error c = Some (Raised err) /\ sort_raises err.

Lemma index_in i : i ∈ seq 0 n -> nth_value keys i ∈ keys.
Proof. rewrite elem_of_range. apply nth_value_in. Qed.

Lemma index_weak : K -> StrictWeak total_ltb.
Proof.
  intros HK. apply extend_weak. destruct (SW HK) as [Ha Ht].
  split; [intros i j Hi Hj|intros i j k Hi Hj Hk]; [apply Ha|apply Ht]; by apply index_in.
Qed.

Lemma index_answers i j (c : Comparer (W := W) (G := G)) b c' :
  total_order_of keys vm = None ->
  i ∈ seq 0 n -> j ∈ seq 0 n -> index_lt i j c = (Some b, c') -> K -> b = total_ltb i j.
Proof.
  intros Ho Hi Hj Hc HK. rewrite extend_in by done. unfold comparer_lt, sbind in Hc.
  destruct (poll_time _ _) as [[[]|e] vm1]; [|by inversion Hc]. unfold raising in Hc.
  destruct (py_lt _ _ vm1) as [[b'|e] vm2] eqn:El; [|by inversion Hc]. injection Hc as <- _.
  eapply answers; [| | |exact El|exact HK]; [rewrite Ho; by intros []|by apply index_in..].
Qed.

Lemma index_stops i j (c c' : Comparer (W := W) (G := G)) :
  i ∈ seq 0 n -> j ∈ seq 0 n -> index_lt i j c = (None, c') -> stops SortAborted c'.
Proof.
  intros Hi Hj Hc. unfold comparer_lt, sbind in Hc. unfold poll_time in Hc.
  destruct (check_time_every _ _) as [[[]|re] s] eqn:Et.
  - unfold raising in Hc. destruct (py_lt _ _ _) as [[b|e] vm'] eqn:El; [by inversion Hc|]. injection Hc as <-.
    split; [done|]. exists e. split; [done|]. left. do 4 eexists. split_and!; [| |exact El]; by apply index_in.
  - injection Hc as <-. split; [done|]. eexists. split; [done|]. right. by do 4 eexists.
Qed.

Definition sorted_indices (reverse : bool) (p : list nat) : Prop :=
  p ≡ₚ seq 0 n /\ (K -> stable_order keys ltb reverse p).

Definition raised_indices (f : Failure E) (p : list nat) : Prop :=
  (exists e, f = Raised e /\ sort_raises e) /\ p ≡ₚ seq 0 n.

(** From the order in which the sort leaves the slice to the final one. *)
Lemma sorted_indices_turn reverse l :
  l ≡ₚ seq 0 n -> (K -> StronglySorted (before total_ltb (rank reverse n)) l) ->
  sorted_indices reverse (turn reverse l).
Proof.
  intros Hp Hs. split; [by rewrite turn_perm|]. intros HK. apply (turned_back reverse n); [done|].
  eapply sorted_impl; [|by apply Hs]. intros i j Hi Hj. rewrite Hp in Hi, Hj. unfold before. by rewrite !extend_in.
Qed.

Lemma comparer_ensures reverse (sort : M (list nat * Comparer) sort_error unit) :
  ensures sort (turn reverse (seq 0 n), comparer_new vm)
    (fun _ s => s.1 ≡ₚ turn reverse (seq 0 n) /\ (K -> StronglySorted (before total_ltb (rank reverse n)) s.1))
    (fun e s => stops e s.2 /\ s.1 ≡ₚ turn reverse (seq 0 n)) ->
  ensures (with_reversal reverse (with_comparer sort)) (seq 0 n, vm)
    (fun _ s => sorted_indices reverse s.1) (fun f s => raised_indices f s.1).
Proof.
  intros Hs. unfold ensures in *. rewrite with_reversal_turn. unfold with_comparer. cbn [fst snd].
  destruct (sort _) as [[[]|e] [l c]]; cbn [finish fst snd].
  - destruct Hs as [Hp Ho]. cbn in Hp, Ho. rewrite turn_perm in Hp. by apply sorted_indices_turn.
  - destruct Hs as [[-> (err & He & Hr)] Hp]. cbn in He, Hp. cbn. rewrite He. cbn. split; [by exists err|].
    by rewrite turn_perm, Hp, turn_perm.
Qed.

Lemma all_indices reverse : Forall (fun i => i ∈ seq 0 n) (turn reverse (seq 0 n)).
Proof. rewrite turn_perm. apply all_in. Qed.

Lemma fast_ensures reverse o (compare : nat -> nat -> result comparison (Failure E)) :
  total_order_of keys vm = Some o ->
  (forall i j, i ∈ seq 0 n -> j ∈ seq 0 n -> compare i j = Ok (order_cmp o (nth_value keys i) (nth_value keys j) vm)) ->
  ensures (with_reversal reverse (sort_with (sort_by compare))) (seq 0 n, vm)
    (fun _ s => sorted_indices reverse s.1 /\ s.2 = vm) (fun _ _ => False).
Proof.
  intros Ho Hc. unfold ensures. rewrite with_reversal_turn. unfold sort_with. cbn [fst snd].
  destruct (sort_by_ok compare total_ltb (rank reverse n) K index_weak (fun i => i ∈ seq 0 n))
    with (l := turn reverse (seq 0 n)) as (l & -> & Hp & Hs).
  - intros i j Hi Hj. eexists. split; [by apply Hc|]. intros HK. rewrite extend_in by done.
    pose proof (index_in i Hi) as Ki. pose proof (index_in j Hj) as Kj.
    rewrite (order_cmp_gt keys) by done. pose proof (order_cmp_lt keys vm o _ _ Ho Kj Ki) as El.
    rewrite <- (answers _ _ _ _ _ (fun _ => eq_refl) Kj Ki El HK). by destruct (order_cmp _ _ _ _).
  - apply all_indices.
  - cbn. split; [|done]. rewrite turn_perm in Hp. apply sorted_indices_turn; [done|]. intros HK. apply Hs; [done|apply ranked].
Qed.

Lemma at_both_in {A} i j (k : Value -> Value -> A) : i ∈ seq 0 n -> j ∈ seq 0 n ->
  at_both (E := E) keys i j k = Ok (k (nth_value keys i) (nth_value keys j)).
Proof.
  rewrite !elem_of_range. intros Hi Hj. unfold at_both.
  by rewrite (proj2 (nth_value_in keys i Hi)), (proj2 (nth_value_in keys j Hj)).
Qed.

Lemma sort_indices_ensures reverse :
  ensures (sort_indices keys reverse) (seq 0 n, vm)
    (fun _ s => sorted_indices reverse s.1 /\ (is_Some (total_order_of keys vm) -> s.2 = vm))
    (fun f s => raised_indices f s.1 /\ total_order_of keys vm = None).
Proof.
  unfold ensures, sort_indices. cbn [fst snd]. destruct (total_order_of keys vm) as [o|] eqn:Ho in |- *.
  - apply (ensures_mono _ (seq 0 n, vm) (fun _ s => sorted_indices reverse s.1 /\ s.2 = vm) _ (fun _ _ => False)).
    + apply (fast_ensures reverse o); [done|]. intros i j Hi Hj. by apply at_both_in.
    + by intros _ s [].
    + done.
  - apply (ensures_mono _ (seq 0 n, vm) (fun _ s => sorted_indices reverse s.1) _ (fun f s => raised_indices f s.1)).
    + apply comparer_ensures.
      apply (timsort_ensures _ total_ltb K (fun i => i ∈ seq 0 n)) with (Stop := stops); [| | |apply all_indices|intros; apply ranked].
      * intros i j c b c' Hi Hj. rewrite at_both_in by done. by apply (index_answers i j c b c' Ho).
      * intros i j c c' Hi Hj. rewrite at_both_in by done. by apply index_stops.
      * apply index_weak.
    + intros _ s Hs. split; [done|]. by intros [].
    + done.
Qed.

(** The outcome of a sort of [values] by [keys]: the values are rearranged, in the
    order of a stable sort unless an exception of the comparisons stopped it. *)
Definition sorts_to (values : list Value) (reverse : bool) (r : result unit (Failure E)) (values' : list Value) : Prop :=
  exists p, p ≡ₚ seq 0 n /\ values' = omap (fun i => values !! i) p
    /\ match r with
       | Ok _ => K -> stable_order keys ltb reverse p
       | Err f => exists e, f = Raised e /\ sort_raises e
       end.

(** What holds of every way to sort: only the fast order keeps the machine as it was. *)
Definition sorts (m : M (list Value * VM W G) (Failure E) unit) (values : list Value) (reverse : bool) : Prop :=
  exists r values' vm', m (values, vm) = (r, (values', vm')) /\ sorts_to values reverse r values'
    /\ (is_Some (total_order_of keys vm) -> r = Ok tt /\ vm' = vm).

Lemma sort_through_indices_sorts values reverse :
  length values = n -> sorts (sort_through_indices keys reverse) values reverse.
Proof.
  intros Hl. pose proof (sort_indices_ensures reverse) as Hs. unfold sorts, sort_through_indices, identity_permutation.
  cbn [fst snd]. rewrite Hl. unfold ensures in Hs. destruct (sort_indices _ _ _) as [r [p vm']].
  assert (Hp : p ≡ₚ seq 0 (length values)).
  { rewrite Hl. destruct r; [by destruct Hs as [[] _]|by destruct Hs as [[] _]]. }
  destruct (apply_permutation_ok values p Hp) as (values' & -> & Hlv & Hget). eexists r, values', vm'. split; [done|].
  rewrite Hl in Hp. split.
  - exists p. split_and!; [done|apply permuted_list; [by rewrite Hl|done|done]|].
    destruct r; [by destruct Hs as [[_ ?] _]|by destruct Hs as [[? _] _]].
  - intros Ho. destruct r as [[]|f]; [split; [done|by apply Hs]|]. destruct Hs as [_ Hv]. rewrite Hv in Ho. by destruct Ho.
Qed.

Lemma in_range p : p ≡ₚ seq 0 n -> Forall (fun i => i < n) p.
Proof. intros ->. apply Forall_forall. intros i. by rewrite elem_of_range. Qed.

(** A sort of the values in place does what it does to their positions. *)
Lemma sort_in_place_sorts reverse (sort' : M (list Value * VM W G) (Failure E) unit) sort :
  (forall l, sort' (map (nth_value keys) l, vm) = (fun p => (p.1, (map (nth_value keys) p.2.1, p.2.2))) (sort (l, vm))) ->
  ensures (with_reversal reverse sort) (seq 0 n, vm)
    (fun _ s => sorted_indices reverse s.1 /\ (is_Some (total_order_of keys vm) -> s.2 = vm))
    (fun f s => raised_indices f s.1 /\ total_order_of keys vm = None) ->
  sorts (with_reversal reverse sort') keys reverse.
Proof.
  intros Hm Hs. unfold ensures in Hs. rewrite with_reversal_turn in Hs. cbn [fst snd] in Hs.
  assert (Ek : with_reversal reverse sort' (keys, vm) = (fun p => (p.1, (map (nth_value keys) (turn reverse p.2.1), p.2.2)))
                 (sort (turn reverse (seq 0 n), vm))).
  { rewrite with_reversal_turn. cbn [fst snd]. replace (turn reverse keys) with (map (nth_value keys) (turn reverse (seq 0 n)))
      by (by rewrite <- turn_map, map_seq_value). rewrite Hm. cbn [fst snd]. by rewrite turn_map. }
  unfold sorts. rewrite Ek. destruct (sort _) as [r [l vm']]. cbn [fst snd] in *.
  do 3 eexists. split; [done|]. split.
  - exists (turn reverse l). destruct r; [destruct Hs as [[Hp ?] _]|destruct Hs as [[? Hp] _]]; (split_and!; [done| |done]);
      apply map_nth_value, in_range, Hp.
  - intros Ho. destruct r as [[]|f]; [split; [done|by apply Hs]|]. destruct Hs as [_ Hv]. rewrite Hv in Ho. by destruct Ho.
Qed.

Lemma sort_values_in_place reverse : sorts (sort_values None reverse) keys reverse.
Proof.
  destruct (total_order_of keys vm) as [o|] eqn:Ho in |- *.
  - destruct (sort_in_place_sorts reverse (sort_with (sort_by (fun a b => Ok (order_cmp o a b vm))))
                (sort_with (sort_by (fun i j => Ok (order_cmp o (nth_value keys i) (nth_value keys j) vm)))))
      as (r & l & vm' & E1 & H1).
    + intros l. unfold sort_with. cbn [fst snd]. rewrite sort_by_map. by destruct (sort_by _ l).
    + eapply ensures_mono; [by apply (fast_ensures reverse o)| |done]. by intros _ s [].
    + exists r, l, vm'. split; [|done]. unfold sort_values. by rewrite Ho.
  - destruct (Nat.ltb_spec n SHORT_SORT_LEN) as [Hn|Hn].
    + destruct (sort_in_place_sorts reverse (with_comparer (sort_short (fun a b => comparer_lt (raising (py_lt a b)))))
                  (with_comparer (sort_short index_lt))) as (r & l & vm' & E1 & H1).
      * intros l. unfold with_comparer. cbn [fst snd].
        pose proof (sort_short_map (nth_value keys) (fun a b => comparer_lt (raising (py_lt a b))) (l, comparer_new vm)) as Hr.
        unfold map_slice in Hr. cbn [fst snd] in Hr. rewrite Hr. by destruct (sort_short index_lt _) as [? [? ?]].
      * eapply ensures_mono; [apply comparer_ensures| |by intros f s].
        -- apply (sort_short_ensures _ total_ltb K (fun i => i ∈ seq 0 n)) with (Stop := stops);
             [intros i j c b c'; by apply index_answers|apply index_stops|apply index_weak|apply all_indices|intros; apply ranked].
        -- intros u s Hs. split; [done|]. rewrite Ho. by intros [].
      * exists r, l, vm'. split; [|done]. unfold sort_values. rewrite Ho. by rewrite (proj2 (Nat.ltb_lt _ _)).
    + destruct (sort_through_indices_sorts keys reverse eq_refl) as (r & l & vm' & E1 & H1).
      exists r, l, vm'. split; [|done]. unfold sort_values. rewrite Ho. by rewrite (proj2 (Nat.ltb_ge _ _)).
Qed.
End Sorted.

(** ** Properties *)

Section Claims.
Context {W G E : Type} `{Machine W} `{!Interp W G E}.
Implicit Types (vm : VM W G) (keys values : list Value) (key_fn : option Value).

(** What the elements are ordered by: their keys, or themselves. *)
Definition keys_of key_fn values : M (VM W G) (Failure E) (list Value) :=
  match key_fn with Some f => compute_keys f 0 values | None => sret values end.

Lemma compute_keys_ok f values : forall i vm,
  match compute_keys f i values vm with
  | (Ok keys, _) => length keys = length values
  | (Err e, _) => e <> Panicked
  end.
Proof.
  induction values as [|v values IH]; intros i vm; [done|]. cbn [compute_keys]. unfold sbind.
  unfold poll_time. destruct (check_time_every _ _) as [[[]|e] s]; [|done].
  unfold raising. destruct (evaluate_function f v _) as [[k|e] vm1]; [|done].
  specialize (IH (i + 1) vm1). destruct (compute_keys f (i + 1) values vm1) as [[ks|e] vm2]; [|done]. cbn. by rewrite IH.
Qed.

(** A sort by keys that were computed. *)
Lemma sort_values_keys key_fn reverse values vm keys vm1 ltb K :
  keys_of key_fn values vm = (Ok keys, vm1) ->
  (forall x y vm2 b vm3, (is_Some (total_order_of keys vm1) -> vm2 = vm1) ->
     x ∈ keys -> y ∈ keys -> py_lt x y vm2 = (Ok b, vm3) -> K -> b = ltb x y) ->
  (K -> StrictWeakOn keys ltb) ->
  length keys = length values /\
  exists r values' vm', sort_values key_fn reverse (values, vm) = (r, (values', vm'))
    /\ sorts_to (W := W) (G := G) keys ltb K values reverse r values'
    /\ (is_Some (total_order_of keys vm1) -> r = Ok tt /\ vm' = vm1).
Proof.
  intros Hk Ha Hsw. destruct key_fn as [f|]; cbn in Hk.
  - pose proof (compute_keys_ok f values 0 vm) as Hl. rewrite Hk in Hl. split; [done|]. unfold sort_values. rewrite Hk.
    apply (sort_through_indices_sorts keys ltb K vm1 Ha Hsw); done.
  - injection Hk as -> ->. split; [done|]. by apply (sort_values_in_place keys ltb K vm1 Ha Hsw).
Qed.

(** C19: Whatever the interpreter answers, [sort_values] ends without a panic of the
    host, and the list it leaves is a permutation of the one it was given: no value is
    lost or doubled, also when a comparison or a key call raises. *)
Theorem sort_values_permutes key_fn reverse values vm :
  exists r values' vm', sort_values key_fn reverse (values, vm) = (r, (values', vm'))
    /\ values' ≡ₚ values /\ r <> Err Panicked.
Proof.
  destruct (keys_of key_fn values vm) as [[keys|e] vm1] eqn:Hk.
  - destruct (sort_values_keys key_fn reverse values vm keys vm1 (fun _ _ => false) False Hk) as (Hl & r & values' & vm' & E1 & Hs & _);
      [done..|]. exists r, values', vm'. split; [done|]. destruct Hs as (p & Hp & -> & Hr). split.
    + rewrite Hp, Hl. by rewrite omap_seq.
    + destruct r; [done|]. destruct Hr as (err & -> & _). congruence.
  - destruct key_fn as [f|]; [|done]. cbn in Hk. unfold sort_values. rewrite Hk. eexists _, _, _. split; [done|].
    split; [done|]. pose proof (compute_keys_ok f values 0 vm) as He. rewrite Hk in He. congruence.
Qed.

(** C18: Where [<] answers like a strict weak order on the keys, a sort that is not
    stopped leaves the values in the order of a stable sort by their keys: ascending,
    or descending with [reverse], values with equal keys as they were. A sort is only
    stopped by an exception of [<] on the keys or by the time limit. *)
Theorem sort_values_stable key_fn reverse values vm keys vm1 ltb :
  keys_of key_fn values vm = (Ok keys, vm1) ->
  (forall x y vm2 b vm3, x ∈ keys -> y ∈ keys -> py_lt x y vm2 = (Ok b, vm3) -> b = ltb x y) ->
  StrictWeakOn keys ltb ->
  exists p r vm', p ≡ₚ seq 0 (length values)
    /\ sort_values key_fn reverse (values, vm) = (r, (omap (fun i => values !! i) p, vm'))
    /\ match r with
       | Ok _ => stable_order keys ltb reverse p
       | Err f => exists e, f = Raised e /\ sort_raises (W := W) (G := G) keys e
       end.
Proof.
  intros Hk Ha Hsw.
  destruct (sort_values_keys key_fn reverse values vm keys vm1 ltb True Hk) as (Hl & r & values' & vm' & E1 & (p & Hp & -> & Hr) & _);
    [intros; by eapply Ha|done|]. exists p, r, vm'. rewrite Hl in Hp. split_and!; [done..|]. destruct r; [by apply Hr|done].
Qed.

(** [<] as the interpreter state answers it. *)
Definition lt_in vm (x y : Value) : bool := match py_lt x y vm with (Ok b, _) => b | _ => false end.

Definition value_in_i64 (v : Value) : Prop := match number_of v with Some n => in_i64 n | None => True end.

Lemma total_order_weak keys vm o :
  total_order_of keys vm = Some o -> Forall value_in_i64 keys -> StrictWeakOn keys (lt_in vm).
Proof.
  intros Ho Hr. rewrite Forall_forall in Hr. split.
  - intros x y Hx Hy. unfold lt_in. rewrite (order_cmp_lt keys vm o x y), (order_cmp_lt keys vm o y x) by done.
    pose proof (order_cmp_gt keys vm o y x Ho Hy Hx) as Hg. destruct (order_cmp o x y vm); try done. intros _.
    by rewrite (proj2 Hg eq_refl).
  - intros x y z Hx Hy Hz. unfold lt_in. rewrite !(order_cmp_lt keys vm o) by done.
    pose proof (total_order_checked keys vm o _ Ho Hx) as Cx. pose proof (total_order_checked keys vm o _ Ho Hy) as Cy.
    pose proof (total_order_checked keys vm o _ Ho Hz) as Cz. unfold order_cmp. destruct o.
    + destruct Cx as (a & Ha & Na), Cy as (b & Hb & Nb), Cz as (c & Hc & Nc). rewrite Ha, Hb, Hc.
      specialize (Hr) as Hin. pose proof (Hin x Hx) as Ix. pose proof (Hin y Hy) as Iy. pose proof (Hin z Hz) as Iz.
      unfold value_in_i64 in Ix, Iy, Iz. rewrite Ha in Ix. rewrite Hb in Iy. rewrite Hc in Iz.
      rewrite !partial_cmp_value by done.
      destruct (number_value a) as [u|] eqn:Va; [|apply number_value_nan in Va; congruence].
      destruct (number_value b) as [v|] eqn:Vb; [|apply number_value_nan in Vb; congruence].
      destruct (number_value c) as [w|] eqn:Vc; [|apply number_value_nan in Vc; congruence]. cbn.
      pose proof (ext_cmp_trans u v w) as Ht. destruct (ext_cmp v u), (ext_cmp w v), (ext_cmp w u); try done;
        exfalso; by apply Ht.
    + destruct Cx as (a & -> & _), Cy as (b & -> & _), Cz as (c & -> & _). cbn [from_option id]. rewrite !str_cmp_lt.
      destruct (str_ltb c a) eqn:Eca; [|done]. intros Eba Ecb. exfalso.
      destruct (str_ltb a b) eqn:Eab; [pose proof (str_ltb_trans _ _ _ Eca Eab); congruence|].
      rewrite (str_ltb_total _ _ Eab Eba) in Eca. congruence.
Qed.

(** A number the fast path takes: an [int] of 64 bits, a [bool], or a [float] other than NaN. *)
Definition plain_number (v : Value) : Prop :=
  match v with
  | Val.Int i => in_i64 (Int i)
  | Val.Bool _ => True
  | Val.Float f => number_is_nan (Float f) = false
  | _ => False
  end.

(** A string the fast path takes: interned or on the heap, and short. *)
Definition short_string (vm : VM W G) (v : Value) : Prop :=
  match v with
  | Val.InternString id => length (get_str vm.2 id) <= MAX_FAST_STR_LEN
  | Val.Ref id => match heap_str vm.2 id with Some s => length s <= MAX_FAST_STR_LEN | None => False end
  | _ => False
  end.

Lemma plain_numbers_ordered keys vm :
  keys <> [] -> Forall plain_number keys -> total_order_of keys vm = Some Numbers /\ Forall value_in_i64 keys.
Proof.
  intros Hne HF. split.
  - destruct keys as [|v keys]; [done|]. unfold total_order_of. inversion HF as [|? ? Hv _]; subst.
    destruct (number_of v) as [n|] eqn:Hn; [|by destruct v]. rewrite (proj2 (forallb_forall _ _)); [done|].
    intros x Hx%list_elem_of_In. rewrite Forall_forall in HF. specialize (HF x Hx).
    destruct x; try done; cbn in *. by rewrite HF.
  - eapply Forall_impl; [exact HF|]. intros v Hv. by destruct v as [| | | |[]| | | | | | | | | | | |].
Qed.

Lemma short_strings_ordered keys vm :
  keys <> [] -> Forall (short_string vm) keys -> total_order_of keys vm = Some Strs /\ Forall value_in_i64 keys.
Proof.
  intros Hne HF. split.
  - destruct keys as [|v keys]; [done|]. unfold total_order_of. inversion HF as [|? ? Hv _]; subst.
    destruct (number_of v) as [n|] eqn:Hn; [by destruct v|]. rewrite (proj2 (forallb_forall _ _)); [done|].
    intros x Hx%list_elem_of_In. rewrite Forall_forall in HF. specialize (HF x Hx).
    destruct x; try done; cbn in *; [by apply Nat.leb_le|]. destruct (heap_str vm.2 id); [by apply Nat.leb_le|done].
  - eapply Forall_impl; [exact HF|]. intros v Hv. by destruct v.
Qed.

(** A list with an inline string among its keys has no total order to sort by. *)
Lemma inline_string_unordered keys vm s : Val.InlineString s ∈ keys -> total_order_of keys vm = None.
Proof.
  intros Hin. destruct (total_order_of keys vm) as [o|] eqn:Ho; [|done].
  pose proof (total_order_checked keys vm o _ Ho Hin) as Hc. destruct o; by destruct Hc as (x & ? & _).
Qed.

(** C35: The fast path is exact. One or more keys that are all [int]s of 64 bits, [bool]s
    and [float]s other than NaN, or that are all interned strings and strings of the heap
    of at most 256 bytes, are sorted without a call of the interpreter or of the clock
    and without an error, and the result is the one stable order under Python's [<],
    which is a strict weak order on them. Keys with a string that is held inline in its
    value, however short, do not take this path. *)
Theorem fast_path_sorts key_fn reverse values vm keys vm1 :
  keys_of key_fn values vm = (Ok keys, vm1) ->
  (keys <> [] -> Forall plain_number keys \/ Forall (short_string vm1) keys ->
   exists p, p ≡ₚ seq 0 (length values)
     /\ sort_values key_fn reverse (values, vm) = (Ok tt, (omap (fun i => values !! i) p, vm1))
     /\ StrictWeakOn keys (lt_in vm1) /\ stable_order keys (lt_in vm1) reverse p)
  /\ (forall s, Val.InlineString s ∈ keys -> total_order_of keys vm1 = None).
Proof.
  intros Hk. split; [|intros s; apply inline_string_unordered]. intros Hne Hkind.
  assert (exists o, total_order_of keys vm1 = Some o /\ Forall value_in_i64 keys) as (o & Ho & Hr).
  { destruct Hkind as [HF|HF]; [exists Numbers; by apply plain_numbers_ordered|exists Strs; by apply short_strings_ordered]. }
  pose proof (total_order_weak keys vm1 o Ho Hr) as Hsw.
  destruct (sort_values_keys key_fn reverse values vm keys vm1 (lt_in vm1) True Hk) as (Hl & r & values' & vm' & E1 & (p & Hp & -> & Hs) & Hf).
  - intros x y vm2 b vm3 Hv Hx Hy E2 _. rewrite Hv in E2 by by rewrite Ho. unfold lt_in. by rewrite E2.
  - done.
  - destruct Hf as [-> ->]; [by rewrite Ho|]. exists p. rewrite Hl in Hp. split_and!; [done..|]. by apply Hs.
Qed.
End Claims.

(** ** An interpreter for the witnesses: strings only, keys negate *)

Definition sim_interp : Interp SimMachine unit string := {|
  get_str _ id := repeat (ascii_of_nat (Z.to_nat id)) 2;
  heap_str _ _ := None;
  cmp_values_lt _ _ := sfail (E := string) "unorderable"%string;
  py_cmp _ _ := sret Incomparable;
  py_eq _ _ := sret false;
  evaluate_function _ v := match v with Val.Int i => sret (Val.Int (- i)) | _ => sfail "no key"%string end;
  from_resource _ := "timeout"%string |}.
#[export] Existing Instance sim_interp.

Definition sim_vm : VM SimMachine unit := ((new_tracker default_limits, sim_start), tt).

Definition int_ltb (x y : Value) : bool := match x, y with Val.Int a, Val.Int b => (a <? b)%Z | _, _ => false end.

Lemma sort_values_stable_witness :
  exists p r vm', p ≡ₚ seq 0 3
    /\ sort_values (Some Val.Undefined) false ([Val.Int 1; Val.Int 3; Val.Int 2], sim_vm)
       = (r, (omap (fun i => [Val.Int 1; Val.Int 3; Val.Int 2] !! i) p, vm'))
    /\ match r with
       | Ok _ => stable_order [Val.Int (-1); Val.Int (-3); Val.Int (-2)] int_ltb false p
       | Err f => exists e, f = Raised e /\ sort_raises (W := SimMachine) (G := unit) [Val.Int (-1); Val.Int (-3); Val.Int (-2)] e
       end.
Proof.
  refine (sort_values_stable (Some Val.Undefined) false [Val.Int 1; Val.Int 3; Val.Int 2] sim_vm _ sim_vm int_ltb eq_refl _ _).
  - intros x y vm2 b vm3 Hx Hy. rewrite !elem_of_cons, elem_of_nil in Hx, Hy.
    destruct Hx as [->|[->|[->|[]]]], Hy as [->|[->|[->|[]]]]; cbn; by intros [= <- _].
  - split; intros *; rewrite !elem_of_cons, !elem_of_nil; naive_solver.
Defined.

Lemma fast_path_sorts_witness :
  exists p, p ≡ₚ seq 0 3
    /\ sort_values None true ([Val.InternString 98; Val.InternString 97; Val.InternString 99], sim_vm)
       = (Ok tt, (omap (fun i => [Val.InternString 98; Val.InternString 97; Val.InternString 99] !! i) p, sim_vm))
    /\ StrictWeakOn [Val.InternString 98; Val.InternString 97; Val.InternString 99] (lt_in sim_vm)
    /\ stable_order [Val.InternString 98; Val.InternString 97; Val.InternString 99] (lt_in sim_vm) true p.
Proof.
  destruct (fast_path_sorts None true [Val.InternString 98; Val.InternString 97; Val.InternString 99] sim_vm
    [Val.InternString 98; Val.InternString 97; Val.InternString 99] sim_vm eq_refl) as [Hf _].
  apply Hf; [discriminate|]. right. repeat constructor.
Defined.
