(* ===== verification/StableHeap.v ===== *)
(** The arena under the interpreter's heap ([crates/monty/src/heap/stable_heap.rs] and
    [free_list.rs]): fixed-size pages of slots, with a list of the freed ones.

    A slot that was never written is [None]; a freed one is [Some None]. Reading an
    unwritten slot, which the code does without a check, is the fault [Undefined]. *)
From S2P Require Import Prelude.
Local Open Scope monty_scope.

Inductive fault := Panicking | Undefined | NoFuel.

Definition PAGE_SIZE : nat := 256.

(** [MaybeUninit<Option<T>>]. *)
Abbreviation Slot T := (option (option T)).

Record StableHeap (T : Type) := { pages : list (list (Slot T)); len : nat; free_list : list nat }.
Arguments pages {T} _.
Arguments len {T} _.
Arguments free_list {T} _.

(** [FreeList::pop] takes the id pushed last. *)
Definition free_pop (ids : list nat) : option (nat * list nat) :=
  match rev ids with [] => None | id :: ids => Some (id, rev ids) end.

Definition free_push (id : nat) (ids : list nat) : list nat := ids ++ [id].

Definition page_slot_indices (id : nat) : nat * nat := (id / PAGE_SIZE, id mod PAGE_SIZE).

Definition create_page {T} : list (Slot T) := replicate PAGE_SIZE None.

Definition div_ceil (a b : nat) : nat := (a + (b - 1)) / b.

Section Stable.
Context {T : Type}.
Implicit Types (h : StableHeap T) (ps : list (list (Slot T))).

Definition with_capacity (capacity : nat) : StableHeap T :=
  {| pages := replicate (div_ceil capacity PAGE_SIZE) create_page; len := 0; free_list := [] |}.

(** [pages[page_idx][slot_idx]]. *)
Definition page_at ps (id : nat) : result (Slot T) fault :=
  let '(page_idx, slot_idx) := page_slot_indices id in
  let? page := ok_or (ps !! page_idx) Panicking in
  ok_or (page !! slot_idx) Panicking.

(** [pages[page_idx][slot_idx].write(value)]. *)
Definition page_write ps (id : nat) (value : option T) : result (list (list (Slot T))) fault :=
  let '(page_idx, slot_idx) := page_slot_indices id in
  let? page := ok_or (ps !! page_idx) Panicking in
  page_at ps id ;?
  Ok (<[page_idx := <[slot_idx := Some value]> page]> ps).

(** [None] where the id is out of bounds. *)
Definition slot_at h (id : nat) : result (option (option T)) fault :=
  if len h <=? id then Ok None
  else
    let? slot := page_at (pages h) id in
    let? value := ok_or slot Undefined in
    Ok (Some value).

Definition get h (id : nat) : result T fault :=
  let? slot := slot_at h id in
  let? entry := ok_or slot Panicking in
  ok_or entry Panicking.

(** The value [entry] gives access to; [None] for a freed slot. *)
Definition entry h (id : nat) : result (option T) fault :=
  if id <? len h then
    let? slot := page_at (pages h) id in
    ok_or slot Undefined
  else Err Panicking.

(** Storing through a reference into a live slot. *)
Definition set_slot h (id : nat) (value : option T) : result (StableHeap T) fault :=
  let? ps := page_write (pages h) id value in
  Ok {| pages := ps; len := len h; free_list := free_list h |}.

(** [StableHeapEntry::free], of the value that [entry] found. *)
Definition free h (id : nat) : result (StableHeap T) fault :=
  let? ps := page_write (pages h) id None in
  Ok {| pages := ps; len := len h; free_list := free_push id (free_list h) |}.

Definition allocate (value : T) h : result (nat * StableHeap T) fault :=
  match free_pop (free_list h) with
  | Some (id, ids) =>
      let? slot := page_at (pages h) id in
      let? old := ok_or slot Undefined in
      (if bool_decide (is_Some old) then Err Panicking else Ok tt) ;?
      let? ps := page_write (pages h) id (Some value) in
      Ok (id, {| pages := ps; len := len h; free_list := ids |})
  | None =>
      let id := len h in
      let '(page_idx, _) := page_slot_indices id in
      let ps := if length (pages h) <=? page_idx then pages h ++ [create_page] else pages h in
      let? ps := page_write ps id (Some value) in
      Ok (id, {| pages := ps; len := id + 1; free_list := free_list h |})
  end.

(** The slots below [len] in order, as [HeapEntriesIter] yields them. *)
Fixpoint entries_from (n index : nat) h : result (list (option T)) fault :=
  match n with
  | O => Ok []
  | S n =>
      let? slot := slot_at h index in
      match slot with
      | None => Ok []
      | Some slot => let? rest := entries_from n (index + 1) h in Ok (slot :: rest)
      end
  end.

(** One turn more than there are slots: the last finds the end. *)
Definition serialize h : result (list (option T)) fault := entries_from (S (len h)) 0 h.

(** The loop that writes the pages. *)
Fixpoint write_entries (index : nat) (entries : list (option T)) ps : result (list (list (Slot T))) fault :=
  match entries with
  | [] => Ok ps
  | e :: entries => let? ps := page_write ps index e in write_entries (index + 1) entries ps
  end.

(** The indices of the freed slots, from [index] on. *)
Fixpoint none_indices (index : nat) (entries : list (option T)) : list nat :=
  match entries with
  | [] => []
  | e :: entries =>
      let rest := none_indices (index + 1) entries in
      match e with None => index :: rest | Some _ => rest end
  end.

Definition deserialize (entries : list (option T)) : result (StableHeap T) fault :=
  let this := with_capacity (length entries) in
  let? ps := write_entries 0 entries (pages this) in
  Ok {| pages := ps; len := length entries; free_list := none_indices 0 entries |}.

(** ** The array it is *)

(** [h] holds the slots [l]: every page is whole, every slot below [len] is written,
    and the free list names the freed slots, each once. *)
Record repr h (l : list (option T)) : Prop := {
  repr_pages : Forall (fun p => length p = PAGE_SIZE) (pages h);
  repr_slots : take (len h) (concat (pages h)) = map Some l;
  repr_len : len h = length l;
  repr_nodup : NoDup (free_list h);
  repr_free : forall i, i ∈ free_list h <-> l !! i = Some None }.

Lemma concat_length ps : Forall (fun p => length p = PAGE_SIZE) ps -> length (concat ps) = length ps * PAGE_SIZE.
Proof. induction 1 as [|p ps Hp _ IH]; [done|]. cbn [concat length]. rewrite length_app, Hp, IH. lia. Qed.

Lemma concat_lookup ps i : Forall (fun p => length p = PAGE_SIZE) ps ->
  concat ps !! i = ps !! (i / PAGE_SIZE) ≫= fun p => p !! (i mod PAGE_SIZE).
Proof.
  intros H. revert i. induction H as [|p ps Hp _ IH]; intros i; [done|]. cbn [concat].
  destruct (decide (i < PAGE_SIZE)) as [Hi|Hi].
  - rewrite lookup_app_l by lia. rewrite Nat.div_small, Nat.mod_small by done. done.
  - rewrite lookup_app_r, Hp, IH by lia.
    pose proof (Nat.div_add (i - PAGE_SIZE) 1 PAGE_SIZE ltac:(done)) as Hd.
    pose proof (Nat.Div0.mod_add (i - PAGE_SIZE) 1 PAGE_SIZE) as Hm.
    replace (i - PAGE_SIZE + 1 * PAGE_SIZE) with i in Hd, Hm by lia. by rewrite Hd, Hm, Nat.add_1_r.
Qed.

Lemma concat_insert ps i p x : Forall (fun p => length p = PAGE_SIZE) ps -> ps !! (i / PAGE_SIZE) = Some p ->
  concat (<[i / PAGE_SIZE := <[i mod PAGE_SIZE := x]> p]> ps) = <[i := x]> (concat ps)
  /\ Forall (fun p => length p = PAGE_SIZE) (<[i / PAGE_SIZE := <[i mod PAGE_SIZE := x]> p]> ps).
Proof.
  intros H Hp. assert (Hl : length p = PAGE_SIZE) by by apply (Forall_lookup_1 _ _ _ _ H Hp).
  assert (HF : Forall (fun p => length p = PAGE_SIZE) (<[i / PAGE_SIZE := <[i mod PAGE_SIZE := x]> p]> ps)).
  { apply Forall_insert; [done|]. by rewrite length_insert. }
  split; [|done]. apply list_eq. intros j. rewrite concat_lookup by done.
  assert (Hi : i < length (concat ps)).
  { rewrite concat_length by done. apply lookup_lt_Some in Hp. pose proof (Nat.div_mod i PAGE_SIZE ltac:(done)).
    pose proof (Nat.mod_upper_bound i PAGE_SIZE ltac:(done)). nia. }
  destruct (decide (i = j)) as [<-|Hne].
  - rewrite (list_lookup_insert_eq (concat ps)) by done.
    rewrite list_lookup_insert_eq by by apply lookup_lt_Some in Hp. cbn [mbind option_bind].
    apply list_lookup_insert_eq. rewrite Hl. by apply Nat.mod_upper_bound.
  - rewrite (list_lookup_insert_ne (concat ps)), concat_lookup by done.
    destruct (decide (i / PAGE_SIZE = j / PAGE_SIZE)) as [E|E]; [|by rewrite list_lookup_insert_ne].
    rewrite <- E, Hp, list_lookup_insert_eq by by apply lookup_lt_Some in Hp. cbn [mbind option_bind].
    apply list_lookup_insert_ne. intros Em. apply Hne.
    rewrite (Nat.div_mod i PAGE_SIZE), (Nat.div_mod j PAGE_SIZE) by done. by rewrite E, Em.
Qed.

(** A write inside the pages. *)
Lemma page_write_ok ps i v : Forall (fun p => length p = PAGE_SIZE) ps -> i < length (concat ps) ->
  exists ps', page_write ps i v = Ok ps' /\ concat ps' = <[i := Some v]> (concat ps)
    /\ Forall (fun p => length p = PAGE_SIZE) ps'.
Proof.
  intros H Hi. pose proof (concat_lookup ps i H) as Hc. destruct (lookup_lt_is_Some_2 _ _ Hi) as [x Hx].
  rewrite Hx in Hc. destruct (ps !! (i / PAGE_SIZE)) as [p|] eqn:Hp; [|done]. cbn [mbind option_bind] in Hc.
  destruct (concat_insert ps i p (Some v) H Hp) as [H1 H2]. eexists. split; [|split; [exact H1|exact H2]].
  unfold page_write, page_at, page_slot_indices. rewrite Hp. cbn [ok_or rbind]. by rewrite <- Hc.
Qed.

Lemma page_at_ok ps i x : Forall (fun p => length p = PAGE_SIZE) ps -> concat ps !! i = Some x -> page_at ps i = Ok x.
Proof.
  intros H Hx. rewrite concat_lookup in Hx by done. unfold page_at, page_slot_indices.
  destruct (ps !! (i / PAGE_SIZE)) as [p|]; [|done]. cbn [mbind option_bind ok_or rbind] in *. by rewrite Hx.
Qed.

Lemma repr_lookup h l i : repr h l -> concat (pages h) !! i = Some <$> l !! i \/ length l <= i.
Proof.
  intros [_ Hs Hl _ _]. destruct (decide (i < length l)) as [Hi|Hi]; [left|right; lia].
  rewrite <- (lookup_take_lt _ (len h)) by lia. rewrite Hs. change (map Some l) with (Some <$> l). apply list_lookup_fmap.
Qed.

Lemma repr_room h l : repr h l -> length l <= length (concat (pages h)).
Proof.
  intros [_ Hs Hl _ _]. apply (f_equal length) in Hs. rewrite length_take, length_map in Hs. lia.
Qed.

Lemma page_at_live h l i o : repr h l -> l !! i = Some o -> page_at (pages h) i = Ok (Some o).
Proof.
  intros Hr Ho. apply page_at_ok; [apply Hr|]. destruct (repr_lookup h l i Hr) as [->|Hi]; [by rewrite Ho|].
  apply lookup_lt_Some in Ho. lia.
Qed.

Lemma slot_at_ok h l i : repr h l -> slot_at h i = Ok (l !! i).
Proof.
  intros Hr. unfold slot_at. rewrite (repr_len _ _ Hr). destruct (Nat.leb_spec (length l) i) as [Hi|Hi].
  - by rewrite lookup_ge_None_2.
  - destruct (lookup_lt_is_Some_2 l i Hi) as [o Ho]. by rewrite (page_at_live h l i o Hr Ho), Ho.
Qed.

Lemma get_ok h l i v : repr h l -> l !! i = Some (Some v) -> get h i = Ok v.
Proof. intros Hr Hv. unfold get. by rewrite (slot_at_ok h l i Hr), Hv. Qed.

Lemma entry_ok h l i o : repr h l -> l !! i = Some o -> entry h i = Ok o.
Proof.
  intros Hr Ho. unfold entry. rewrite (repr_len _ _ Hr). pose proof (lookup_lt_Some _ _ _ Ho).
  rewrite (proj2 (Nat.ltb_lt _ _)) by done. by rewrite (page_at_live h l i o Hr Ho).
Qed.

(** A write below [len] changes one slot of the array. *)
Lemma write_slots h l i v : repr h l -> i < length l ->
  exists ps', page_write (pages h) i v = Ok ps' /\ Forall (fun p => length p = PAGE_SIZE) ps'
    /\ take (len h) (concat ps') = map Some (<[i := v]> l).
Proof.
  intros Hr Hi. pose proof (repr_room h l Hr).
  destruct (page_write_ok (pages h) i v) as (ps' & E & Hc & HF); [apply Hr|lia|].
  exists ps'. split_and!; [done..|]. rewrite Hc, take_insert_lt by (rewrite (repr_len _ _ Hr); lia).
  rewrite (repr_slots _ _ Hr). change (map Some (<[i := v]> l)) with (Some <$> <[i := v]> l). by rewrite list_fmap_insert.
Qed.

Lemma set_slot_ok h l i v v0 : repr h l -> l !! i = Some (Some v0) ->
  exists h', set_slot h i (Some v) = Ok h' /\ repr h' (<[i := Some v]> l).
Proof.
  intros Hr Hv. pose proof (lookup_lt_Some _ _ _ Hv) as Hi. destruct (write_slots h l i (Some v) Hr Hi) as (ps' & E & HF & Hs).
  unfold set_slot. rewrite E. eexists. split; [done|]. pose proof Hr as [R1 R2 R3 R4 R5]. split; cbn; [done|done| |done|].
  - by rewrite length_insert.
  - intros j. rewrite R5. destruct (decide (i = j)) as [<-|Hne]; [rewrite list_lookup_insert_eq by done|by rewrite list_lookup_insert_ne].
    by rewrite Hv.
Qed.

Lemma free_ok h l i v : repr h l -> l !! i = Some (Some v) ->
  exists h', free h i = Ok h' /\ repr h' (<[i := None]> l).
Proof.
  intros Hr Hv. pose proof (lookup_lt_Some _ _ _ Hv) as Hi. destruct (write_slots h l i None Hr Hi) as (ps' & E & HF & Hs).
  unfold free. rewrite E. eexists. split; [done|]. pose proof Hr as [R1 R2 R3 R4 R5].
  assert (Hni : i ∉ free_list h) by (rewrite R5, Hv; congruence). split; cbn; [done|done| | |].
  - by rewrite length_insert.
  - apply NoDup_app. split_and!; [done|by intros j Hj ->%list_elem_of_singleton|apply NoDup_singleton].
  - intros j. unfold free_push. rewrite elem_of_app, R5, list_elem_of_singleton.
    destruct (decide (i = j)) as [<-|Hne]; [rewrite list_lookup_insert_eq by done; tauto|].
    rewrite list_lookup_insert_ne by done. split; [intros [?| ->]; done|tauto].
Qed.

Lemma free_pop_spec ids id ids' : free_pop ids = Some (id, ids') -> ids = ids' ++ [id].
Proof.
  unfold free_pop. destruct (rev ids) as [|x l] eqn:E; [done|]. intros [= -> <-].
  by rewrite <- (rev_involutive ids), E.
Qed.

(** An allocation takes a freed slot, or a new one after the last. *)
Lemma allocate_ok h l v : repr h l ->
  exists id h' l', allocate v h = Ok (id, h') /\ repr h' l'
    /\ (l !! id = Some None /\ l' = <[id := Some v]> l \/ id = length l /\ l' = l ++ [Some v]).
Proof.
  intros Hr. pose proof Hr as [R1 R2 R3 R4 R5]. unfold allocate. destruct (free_pop (free_list h)) as [[id ids]|] eqn:Ep.
  - apply free_pop_spec in Ep. assert (Hid : l !! id = Some None) by (apply R5; rewrite Ep; set_solver).
    pose proof (lookup_lt_Some _ _ _ Hid) as Hi. destruct (write_slots h l id (Some v) Hr Hi) as (ps' & E & HF & Hs).
    rewrite (page_at_live h l id None Hr Hid). cbn [rbind ok_or]. rewrite bool_decide_false by by intros []. cbn [rbind]. rewrite E. do 3 eexists. split; [done|]. split; [|left; by split]. rewrite Ep in R4.
    apply NoDup_app in R4 as (N1 & N2 & _). split; cbn; [done|done|by rewrite length_insert|done|].
    intros j. specialize (R5 j). rewrite Ep, elem_of_app, list_elem_of_singleton in R5.
    destruct (decide (id = j)) as [<-|Hne].
    + rewrite list_lookup_insert_eq by done. split; [|done]. intros Hj. destruct (N2 id Hj). set_solver.
    + rewrite list_lookup_insert_ne by done. rewrite <- R5. split; [tauto|]. intros [?| ->]; done.
  - unfold free_pop in Ep. destruct (rev (free_list h)) as [|? ?] eqn:Er; [|done].
    assert (Hf : free_list h = []) by (by rewrite <- (rev_involutive (free_list h)), Er).
    unfold page_slot_indices.
    set (ps := if length (pages h) <=? len h / PAGE_SIZE then pages h ++ [create_page] else pages h).
    assert (Hps : Forall (fun p => length p = PAGE_SIZE) ps /\ take (len h) (concat ps) = map Some l /\ len h < length (concat ps)).
    { assert (Hdm := Nat.div_mod_eq (len h) PAGE_SIZE). pose proof (Nat.mod_upper_bound (len h) PAGE_SIZE ltac:(done)) as Hm.
      pose proof (repr_room h l Hr) as Hroom. pose proof (concat_length (pages h) R1) as Hc. unfold ps.
      destruct (Nat.leb_spec (length (pages h)) (len h / PAGE_SIZE)) as [Hle|Hlt].
      - rewrite concat_app, length_app, Hc. cbn [concat]. rewrite app_nil_r. unfold create_page at 2 3. rewrite length_replicate.
        split_and!; [|rewrite take_app_le by lia; done|nia].
        apply Forall_app. split; [done|]. constructor; [apply length_replicate|done].
      - split_and!; [done..|]. rewrite Hc. nia. }
    clearbody ps. destruct Hps as (HF & Hs & Hlt). destruct (page_write_ok ps (len h) (Some v) HF Hlt) as (ps' & E & Hc & HF').
    rewrite E. do 3 eexists. split; [done|]. split; [|right; by split]. split; cbn; [done| |by rewrite length_app; cbn; lia| |].
    + rewrite Hc, take_insert_lt by lia. rewrite map_app, <- Hs. cbn.
      destruct (lookup_lt_is_Some_2 _ _ Hlt) as [x Hx]. rewrite Nat.add_1_r, (take_S_r _ _ _ Hx).
      rewrite insert_app_r_alt by (rewrite length_take; lia). rewrite length_take, Nat.min_l, Nat.sub_diag by lia. done.
    + rewrite Hf. constructor.
    + intros j. rewrite Hf. split; [by intros ?%elem_of_nil|]. intros Hj. rewrite lookup_app in Hj.
      destruct (l !! j) as [o|] eqn:Ej; [|by destruct (j - length l)].
      injection Hj as ->. rewrite Hf in R5. by apply R5 in Ej.
Qed.

(** ** Dumps *)

Lemma entries_from_ok h l : repr h l -> forall n i, entries_from n i h = Ok (take n (drop i l)).
Proof.
  intros Hr. induction n as [|n IH]; intros i; [done|]. cbn [entries_from]. rewrite (slot_at_ok h l i Hr). cbn [rbind].
  destruct (l !! i) as [o|] eqn:Ho.
  - rewrite IH. cbn [rbind]. rewrite (drop_S _ _ _ Ho). by rewrite Nat.add_1_r.
  - by rewrite drop_ge by by apply lookup_ge_None.
Qed.

Lemma serialize_ok h l : repr h l -> serialize h = Ok l.
Proof.
  intros Hr. unfold serialize. rewrite (entries_from_ok h l Hr), drop_0, take_ge; [done|]. rewrite (repr_len _ _ Hr). lia.
Qed.

Lemma write_entries_ok : forall entries ps i done,
  Forall (fun p => length p = PAGE_SIZE) ps -> take i (concat ps) = map Some done -> length done = i ->
  i + length entries <= length (concat ps) ->
  exists ps', write_entries i entries ps = Ok ps' /\ Forall (fun p => length p = PAGE_SIZE) ps'
    /\ take (i + length entries) (concat ps') = map Some (done ++ entries).
Proof.
  induction entries as [|e entries IH]; intros ps i d HF Ht Hd Hr; cbn [write_entries length] in *.
  - exists ps. by rewrite Nat.add_0_r, app_nil_r.
  - destruct (page_write_ok ps i e HF ltac:(lia)) as (ps1 & E & Hc & HF1). rewrite E. cbn [rbind].
    destruct (IH ps1 (i + 1) (d ++ [e])) as (ps' & E' & HF' & Ht'); [done| | | |].
    + rewrite Hc, map_app, <- Ht. assert (Hi : i < length (concat ps)) by lia.
      destruct (lookup_lt_is_Some_2 _ _ Hi) as [x Hx]. rewrite take_insert_lt by lia. rewrite Nat.add_1_r, (take_S_r _ _ _ Hx).
      rewrite insert_app_r_alt by (rewrite length_take; lia). rewrite length_take, Nat.min_l, Nat.sub_diag by lia. done.
    + rewrite length_app. cbn. lia.
    + rewrite Hc, length_insert. lia.
    + exists ps'. split_and!; [done..|]. rewrite <- app_assoc in Ht'. by rewrite <- Nat.add_assoc in Ht'.
Qed.

Lemma elem_of_none_indices entries : forall i j, j ∈ none_indices i entries <-> i <= j /\ entries !! (j - i) = Some None.
Proof.
  induction entries as [|e entries IH]; intros i j; cbn; [split; [by intros ?%elem_of_nil|by intros [_ ?]]|].
  assert (Hcons : forall x, (e :: entries) !! (j - i) = Some x <-> (j <= i /\ e = x \/ i < j /\ entries !! (j - (i + 1)) = Some x)).
  { intros x. destruct (decide (j <= i)) as [Hj|Hj].
    - replace (j - i) with 0 by lia. cbn. split; [intros [= ->]; auto|]. intros [[_ ->]|[? _]]; [done|lia].
    - replace (j - i) with (S (j - (i + 1))) by lia. cbn. split; [auto with lia|]. intros [[? _]|[_ ?]]; [lia|done]. }
  rewrite Hcons. destruct e as [v|]; rewrite ?elem_of_cons, IH.
  - split; [intros [? ?]; split; [lia|right; split; [lia|done]]|]. intros [? [[_ ?]|[? ?]]]; [done|split; [lia|done]].
  - split.
    + intros [-> |[? ?]]; [split; [done|by left]|]. split; [lia|]. right. split; [lia|done].
    + intros [? [[? _]|[? ?]]]; [left; lia|right; split; [lia|done]].
Qed.

Lemma none_indices_nodup entries : forall i, NoDup (none_indices i entries).
Proof.
  induction entries as [|e entries IH]; intros i; cbn; [constructor|]. destruct e; [apply IH|]. constructor; [|apply IH].
  rewrite elem_of_none_indices. lia.
Qed.

Lemma deserialize_ok l : exists h, deserialize l = Ok h /\ repr h l.
Proof.
  unfold deserialize. cbn [with_capacity pages]. set (ps := replicate _ create_page).
  assert (HF : Forall (fun p => length p = PAGE_SIZE) ps).
  { apply Forall_forall. intros p [-> _]%elem_of_replicate. apply length_replicate. }
  assert (Hlen : length l <= length (concat ps)).
  { rewrite concat_length by done. unfold ps. rewrite length_replicate. unfold div_ceil.
    pose proof (Nat.div_mod_eq (length l + (PAGE_SIZE - 1)) PAGE_SIZE).
    pose proof (Nat.mod_upper_bound (length l + (PAGE_SIZE - 1)) PAGE_SIZE ltac:(done)). nia. }
  destruct (write_entries_ok l ps 0 [] HF eq_refl eq_refl Hlen) as (ps' & -> & HF' & Hs). eexists. split; [done|].
  split; cbn; [done|done|done|apply none_indices_nodup|]. intros i. rewrite elem_of_none_indices, Nat.sub_0_r.
  split; [tauto|]. split; [lia|done].
Qed.
End Stable.
