(* ===== verification/Heap.v ===== *)
(** The interpreter's heap ([crates/monty/src/heap/mod.rs]): reference counts, the
    readers that pin an entry, the weak indexes, and the collector of cycles.

    What the heap reads of an object is the class [Payload]: the ids its two walkers
    report ([for_each_child_id] and [py_dec_ref_ids_for_data]), whether it is tracked,
    and its key in a weak index. A [debug_assert] is checked, as in a debug build. The
    top of a work stack is the head of its list. *)
From S2P Require Import Prelude Str Resource StableHeap.
Local Open Scope monty_scope.

Inductive CcColor := Black | Gray | White | Purple.

#[export] Instance color_eq_dec : EqDecision CcColor.
Proof. solve_decision. Defined.

Inductive WeakIndexKey := KExtFunction (name : str) | KBoundary (uuid : Z) | KHostType (uuid : Z).

#[export] Instance weak_key_eq_dec : EqDecision WeakIndexKey.
Proof. solve_decision. Defined.

(** [ext_function], [empty_tuple] and [utc] are the payloads the heap itself allocates.
    [boundary_uuid_of u d] is the method of that name of a class or an instance: its uuid
    and the payload that holds it, where [u] is what [create_uuid] would give. *)
Class Payload (D : Type) := {
  child_ids : D -> list nat;
  dec_ref_ids : D -> list nat;
  is_gc_tracked : D -> bool;
  weak_index_key : D -> option WeakIndexKey;
  empty_tuple : D;
  utc : D;
  ext_function : str -> D;
  boundary_uuid_of : Z -> D -> option (Z * D) }.

(** Both walkers report the same ids; what the heap allocates itself has no children. *)
Class PayloadLaws (D : Type) `{Payload D} := {
  walkers_agree : forall d : D, dec_ref_ids d ≡ₚ child_ids d;
  tuple_leaf : child_ids empty_tuple = [];
  utc_leaf : child_ids utc = [];
  function_leaf : forall name, child_ids (ext_function name) = [];
  tuple_key : weak_index_key empty_tuple = None;
  utc_key : weak_index_key utc = None;
  function_key : forall name, weak_index_key (ext_function name) = Some (KExtFunction name);
  boundary_same : forall u d v d', boundary_uuid_of u d = Some (v, d') ->
    child_ids d' = child_ids d /\ is_gc_tracked d' = is_gc_tracked d;
  boundary_key : forall u d v d', boundary_uuid_of u d = Some (v, d') -> weak_index_key d' = Some (KBoundary v);
  boundary_keeps : forall u d v d', boundary_uuid_of u d = Some (v, d') ->
    weak_index_key d = None \/ weak_index_key d = Some (KBoundary v) }.

Record HeapEntry (D : Type) := { refcount : nat; readers : nat; data : D; color : CcColor }.
Arguments refcount {D} _.
Arguments readers {D} _.
Arguments data {D} _.
Arguments color {D} _.
Arguments Build_HeapEntry {D} _ _ _ _.

Definition EMPTY_TUPLE_ID : nat := 0.
Definition DECIMAL_SLOTS : nat := 4.

Record Heap (D : Type) := {
  entries : StableHeap (HeapEntry D);
  tracker : ResourceTracker;
  purple_count : nat;
  allocations_since_gc : Z;
  gc_disabled : bool;
  timezone_utc : option nat;
  decimal_contexts : list (option nat);
  ext_function_cache : gmap str nat;
  boundary_index : gmap Z nat;
  host_type_index : gmap Z nat }.
Arguments entries {D} _.
Arguments tracker {D} _.
Arguments purple_count {D} _.
Arguments allocations_since_gc {D} _.
Arguments gc_disabled {D} _.
Arguments timezone_utc {D} _.
Arguments decimal_contexts {D} _.
Arguments ext_function_cache {D} _.
Arguments boundary_index {D} _.
Arguments host_type_index {D} _.

Section Heap.
Context {D : Type} `{Payload D}.

Abbreviation heap := (Heap D).
Abbreviation hentry := (HeapEntry D).
Abbreviation HM := (M heap fault).

Definition set_refcount (n : nat) (e : hentry) : hentry := Build_HeapEntry n (readers e) (data e) (color e).
Definition set_readers (n : nat) (e : hentry) : hentry := Build_HeapEntry (refcount e) n (data e) (color e).
Definition set_color (c : CcColor) (e : hentry) : hentry := Build_HeapEntry (refcount e) (readers e) (data e) c.
Definition set_data (d : D) (e : hentry) : hentry := Build_HeapEntry (refcount e) (readers e) d (color e).

Definition with_entries (es : StableHeap hentry) (h : heap) : heap :=
  {| entries := es; tracker := tracker h; purple_count := purple_count h;
     allocations_since_gc := allocations_since_gc h; gc_disabled := gc_disabled h;
     timezone_utc := timezone_utc h; decimal_contexts := decimal_contexts h;
     ext_function_cache := ext_function_cache h; boundary_index := boundary_index h;
     host_type_index := host_type_index h |}.
Definition with_purple (n : nat) (h : heap) : heap :=
  {| entries := entries h; tracker := tracker h; purple_count := n;
     allocations_since_gc := allocations_since_gc h; gc_disabled := gc_disabled h;
     timezone_utc := timezone_utc h; decimal_contexts := decimal_contexts h;
     ext_function_cache := ext_function_cache h; boundary_index := boundary_index h;
     host_type_index := host_type_index h |}.
Definition with_allocations (n : Z) (h : heap) : heap :=
  {| entries := entries h; tracker := tracker h; purple_count := purple_count h;
     allocations_since_gc := n; gc_disabled := gc_disabled h;
     timezone_utc := timezone_utc h; decimal_contexts := decimal_contexts h;
     ext_function_cache := ext_function_cache h; boundary_index := boundary_index h;
     host_type_index := host_type_index h |}.
Definition with_gc_disabled (b : bool) (h : heap) : heap :=
  {| entries := entries h; tracker := tracker h; purple_count := purple_count h;
     allocations_since_gc := allocations_since_gc h; gc_disabled := b;
     timezone_utc := timezone_utc h; decimal_contexts := decimal_contexts h;
     ext_function_cache := ext_function_cache h; boundary_index := boundary_index h;
     host_type_index := host_type_index h |}.
Definition with_owned (tz : option nat) (dec : list (option nat)) (h : heap) : heap :=
  {| entries := entries h; tracker := tracker h; purple_count := purple_count h;
     allocations_since_gc := allocations_since_gc h; gc_disabled := gc_disabled h;
     timezone_utc := tz; decimal_contexts := dec;
     ext_function_cache := ext_function_cache h; boundary_index := boundary_index h;
     host_type_index := host_type_index h |}.
Definition with_indexes (fs : gmap str nat) (us ts : gmap Z nat) (h : heap) : heap :=
  {| entries := entries h; tracker := tracker h; purple_count := purple_count h;
     allocations_since_gc := allocations_since_gc h; gc_disabled := gc_disabled h;
     timezone_utc := timezone_utc h; decimal_contexts := decimal_contexts h;
     ext_function_cache := fs; boundary_index := us; host_type_index := ts |}.

(** ** Entries *)

(** [HeapPtr::try_entry] of [read_ptr(id)]. *)
Definition try_entry (id : nat) : HM (option hentry) := fun h =>
  ((let? slot := slot_at (entries h) id in ok_or slot Panicking), h).

(** [HeapPtr::entry]. *)
Definition read_entry (id : nat) : HM hentry :=
  do e <- try_entry id ;; slift (ok_or e Panicking).

(** Storing in the [Cell]s of a live entry. *)
Definition put_entry (id : nat) (e : hentry) : HM unit := fun h =>
  match set_slot (entries h) id (Some e) with
  | Ok es => (Ok tt, with_entries es h)
  | Err f => (Err f, h)
  end.

(** The entry is freed and its slot goes to the free list. *)
Definition free_entry (id : nat) : HM unit := fun h =>
  match free (entries h) id with
  | Ok es => (Ok tt, with_entries es h)
  | Err f => (Err f, h)
  end.

(** [allocations_since_gc] is a [u32] that wraps. *)
Definition new_entry (d : D) : HM hentry :=
  (if is_gc_tracked d then
     smodify (fun h => with_allocations ((allocations_since_gc h + 1) mod 2 ^ 32)%Z h)
   else sret tt) ;;;
  sret (Build_HeapEntry 1 0 d Black).

Definition allocate (d : D) : HM nat :=
  do e <- new_entry d ;;
  fun h =>
    match StableHeap.allocate e (entries h) with
    | Ok (id, es) => (Ok id, with_entries es h)
    | Err f => (Err f, h)
    end.

Definition inc_ref (id : nat) : HM unit :=
  do h <- sget ;;
  do e <- slift (StableHeap.get (entries h) id) ;;
  put_entry id (set_refcount (refcount e + 1) e).

(** [HeapReader::read], which counts a reader. *)
Definition read (id : nat) : HM D :=
  do e <- read_entry id ;; put_entry id (set_readers (readers e + 1) e) ;;; sret (data e).

(** Following the pointer of a guard: nothing checks that the entry is alive. *)
Definition deref_entry (id : nat) : HM hentry :=
  do e <- try_entry id ;; slift (ok_or e Undefined).

(** The drop of a guard. *)
Definition end_read (id : nat) : HM unit :=
  do e <- deref_entry id ;;
  if readers e =? 0 then sfail Panicking else put_entry id (set_readers (readers e - 1) e).

(** [HeapRead::get], and [HeapReadMut::get_mut] with the payload its borrower leaves. *)
Definition guard_get (id : nat) : HM D :=
  do e <- deref_entry id ;; sret (data e).
Definition guard_get_mut (id : nat) (d : D) : HM unit :=
  do e <- deref_entry id ;; put_entry id (set_data d e).

(** ** Weak indexes *)

Definition remove_ext_function_cache_entry (name : str) (id : nat) (cache : gmap str nat) : gmap str nat :=
  if bool_decide (cache !! name = Some id) then delete name cache else cache.

Definition remove_weak_index_entry (key : option WeakIndexKey) (id : nat) (h : heap) : heap :=
  match key with
  | Some (KExtFunction name) =>
      with_indexes (remove_ext_function_cache_entry name id (ext_function_cache h)) (boundary_index h) (host_type_index h) h
  | Some (KBoundary uuid) =>
      if bool_decide (boundary_index h !! uuid = Some id)
      then with_indexes (ext_function_cache h) (delete uuid (boundary_index h)) (host_type_index h) h else h
  | Some (KHostType uuid) =>
      if bool_decide (host_type_index h !! uuid = Some id)
      then with_indexes (ext_function_cache h) (boundary_index h) (delete uuid (host_type_index h)) h else h
  | None => h
  end.

Definition get_ext_function (name : str) : HM nat :=
  do h <- sget ;;
  match ext_function_cache h !! name with
  | Some id => inc_ref id ;;; sret id
  | None =>
      do id <- allocate (ext_function name) ;;
      do h <- sget ;;
      smodify (fun h => with_indexes (<[name := id]> (ext_function_cache h)) (boundary_index h) (host_type_index h) h) ;;;
      if bool_decide (ext_function_cache h !! name = None) then sret id else sfail Panicking
  end.

Definition resolve_boundary_uuid (uuid : Z) (h : heap) : option nat := boundary_index h !! uuid.
Definition resolve_host_type (uuid : Z) (h : heap) : option nat := host_type_index h !! uuid.

(** [uuid] is [ty.type_id()]. *)
Definition allocate_host_type (uuid : Z) (ty : D) : HM nat :=
  do id <- allocate ty ;;
  do h <- sget ;;
  smodify (fun h => with_indexes (ext_function_cache h) (boundary_index h) (<[uuid := id]> (host_type_index h)) h) ;;;
  if bool_decide (host_type_index h !! uuid = None) then sret id else sfail Panicking.

(** [fresh] is the uuid [create_uuid] gives. *)
Definition boundary_uuid (fresh : Z) (id : nat) : HM Z :=
  do h <- sget ;;
  do e <- slift (StableHeap.entry (entries h) id) ;;
  do e <- slift (ok_or e Panicking) ;;
  do r <- slift (ok_or (boundary_uuid_of fresh (data e)) Panicking) ;;
  put_entry id (set_data (snd r) e) ;;;
  smodify (fun h => with_indexes (ext_function_cache h) (<[fst r := id]> (boundary_index h)) (host_type_index h) h) ;;;
  sret (fst r).

(** ** References the heap owns *)

Definition get_empty_tuple : HM nat := inc_ref EMPTY_TUPLE_ID ;;; sret EMPTY_TUPLE_ID.

Definition get_timezone_utc : HM nat :=
  do h <- sget ;;
  match timezone_utc h with
  | Some id => inc_ref id ;;; sret id
  | None =>
      do id <- allocate utc ;;
      inc_ref id ;;;
      smodify (fun h => with_owned (Some id) (decimal_contexts h) h) ;;;
      sret id
  end.

Definition decimal_context (slot : nat) (h : heap) : option nat := decimal_contexts h !! slot ≫= fun o => o.

Definition replace_decimal_context (slot id : nat) : HM (option nat) :=
  do h <- sget ;;
  do old <- slift (ok_or (decimal_contexts h !! slot) Panicking) ;;
  smodify (fun h => with_owned (timezone_utc h) (<[slot := Some id]> (decimal_contexts h)) h) ;;;
  sret old.

Definition new (capacity : nat) (t : ResourceTracker) : result heap fault :=
  let this := {| entries := with_capacity capacity; tracker := t; purple_count := 0;
                 allocations_since_gc := 0; gc_disabled := false; timezone_utc := None;
                 decimal_contexts := replicate DECIMAL_SLOTS None; ext_function_cache := ∅;
                 boundary_index := ∅; host_type_index := ∅ |} in
  let? r := StableHeap.allocate (Build_HeapEntry 1 0 empty_tuple Black) (entries this) in
  let '(id, es) := r in
  if id =? EMPTY_TUPLE_ID then Ok (with_entries es this) else Err Panicking.

(** ** Releasing a reference *)

(** The entry whose last reference goes: it leaves the heap, and its children are
    reported. *)
Definition release (id : nat) (e : hentry) : HM (list nat) :=
  (if id =? EMPTY_TUPLE_ID then sfail Panicking else sret tt) ;;;
  (if readers e =? 0 then sret tt else sfail Panicking) ;;;
  do h <- sget ;;
  (if bool_decide (color e = Purple) then
     if purple_count h =? 0 then sfail Panicking else smodify (fun h => with_purple (purple_count h - 1) h)
   else sret tt) ;;;
  smodify (remove_weak_index_entry (weak_index_key (data e)) id) ;;;
  free_entry id ;;;
  sret (dec_ref_ids (data e)).

(** The entry that stays: a possible root of a garbage cycle. *)
Definition survive (id : nat) (e : hentry) : HM unit :=
  let e := set_refcount (refcount e - 1) e in
  put_entry id e ;;;
  if is_gc_tracked (data e) && negb (bool_decide (color e = Purple)) then
    put_entry id (set_color Purple e) ;;;
    smodify (fun h => with_purple (purple_count h + 1) h)
  else sret tt.

Fixpoint dec_ref_loop (fuel current : nat) (work_stack : list nat) : HM unit :=
  match fuel with
  | O => sfail NoFuel
  | S fuel =>
      do e <- read_entry current ;;
      do work_stack <- (if 1 <? refcount e then survive current e ;;; sret work_stack
                        else do ids <- release current e ;; sret (rev ids ++ work_stack)) ;;
      match work_stack with
      | [] => sret tt
      | next :: work_stack => dec_ref_loop fuel next work_stack
      end
  end.

(** Sums a measure of the entries. *)
Definition sum_slots (f : hentry -> nat) (es : StableHeap hentry) : nat :=
  sum_list (map (fun s => match s with Some (Some e) => f e | _ => 0 end) (concat (pages es))).

(** Every turn takes one reference away. *)
Definition dec_ref (id : nat) : HM unit :=
  do h <- sget ;; dec_ref_loop (S (sum_slots refcount (entries h))) id [].
End Heap.
