(* ===== verification/Collector.v ===== *)
(** The collector of reference cycles ([crates/monty/src/heap/mod.rs],
    [collect_cycles]): Bacon and Rajan's trial deletion, its phases with explicit work
    stacks, when it runs, and the search for leaked entries that tests use. *)
From S2P Require Import Prelude Str Resource StableHeap Heap.
Local Open Scope monty_scope.

(** [GC_INTERVAL] of a build without [memory-model-checks]. *)
Definition GC_INTERVAL : Z := DEFAULT_GC_INTERVAL.

Section Collector.
Context {D : Type} `{Payload D}.

Abbreviation heap := (Heap D).
Abbreviation HM := (M heap fault).

Definition should_gc (h : heap) : bool :=
  if gc_disabled h then false
  else if purple_count h =? 0 then false
  else
    let interval := default GC_INTERVAL (gc_interval (limits (tracker h))) in
    (interval <=? allocations_since_gc h)%Z.

Definition disable_gc (h : heap) : heap := with_gc_disabled true h.
Definition enable_gc (h : heap) : heap := with_gc_disabled false h.

(** ** Mark gray *)

(** The closure given to [for_each_child_id], over the children in order. *)
Fixpoint gray_children (children work_stack : list nat) : HM (list nat) :=
  match children with
  | [] => sret work_stack
  | child :: children =>
      do e <- read_entry child ;;
      if refcount e =? 0 then sfail Panicking
      else
        put_entry child (set_color Gray (set_refcount (refcount e - 1) e)) ;;;
        gray_children children (if bool_decide (color e = Gray) then work_stack else child :: work_stack)
  end.

Fixpoint gray_loop (fuel current : nat) (work_stack : list nat) : HM unit :=
  match fuel with
  | O => sfail NoFuel
  | S fuel =>
      do e <- read_entry current ;;
      do work_stack <- gray_children (child_ids (data e)) work_stack ;;
      match work_stack with
      | [] => sret tt
      | next :: work_stack => gray_loop fuel next work_stack
      end
  end.

(** Every entry is pushed at most once. *)
Definition mark_gray (id : nat) : HM unit :=
  do e <- read_entry id ;;
  put_entry id (set_color Gray e) ;;;
  do h <- sget ;;
  gray_loop (S (len (entries h))) id [].

(** Phase 1, over the slots [i], [i + 1], ..., [n] of them; returns the roots. *)
Fixpoint mark_roots (n i : nat) : HM (list nat) :=
  match n with
  | O => sret []
  | S n =>
      do slot <- try_entry i ;;
      match slot with
      | None => mark_roots n (i + 1)
      | Some e =>
          if bool_decide (color e = Purple) then
            if 0 <? readers e then put_entry i (set_color Black e) ;;; mark_roots n (i + 1)
            else
              mark_gray i ;;;
              do roots <- mark_roots n (i + 1) ;;
              sret (i :: roots)
          else mark_roots n (i + 1)
      end
  end.

(** ** Scan *)

Fixpoint black_children (children work_stack : list nat) : HM (list nat) :=
  match children with
  | [] => sret work_stack
  | child :: children =>
      do e <- read_entry child ;;
      put_entry child (set_color Black (set_refcount (refcount e + 1) e)) ;;;
      black_children children (if bool_decide (color e = Black) then work_stack else child :: work_stack)
  end.

Fixpoint black_loop (fuel current : nat) (work_stack : list nat) : HM unit :=
  match fuel with
  | O => sfail NoFuel
  | S fuel =>
      do e <- read_entry current ;;
      do work_stack <- black_children (child_ids (data e)) work_stack ;;
      match work_stack with
      | [] => sret tt
      | next :: work_stack => black_loop fuel next work_stack
      end
  end.

Definition mark_black (id : nat) : HM unit :=
  do e <- read_entry id ;;
  put_entry id (set_color Black e) ;;;
  do h <- sget ;;
  black_loop (S (len (entries h))) id [].

(** The children that are still to be decided. *)
Fixpoint scan_children (children work_stack : list nat) : HM (list nat) :=
  match children with
  | [] => sret work_stack
  | child :: children =>
      do e <- read_entry child ;;
      scan_children children (if bool_decide (color e = Gray) then child :: work_stack else work_stack)
  end.

Fixpoint scan_loop (fuel : nat) (work_stack : list nat) : HM unit :=
  match fuel with
  | O => sfail NoFuel
  | S fuel =>
      match work_stack with
      | [] => sret tt
      | id :: work_stack =>
          do e <- read_entry id ;;
          if bool_decide (color e = Gray) then
            if (refcount e =? 0) && (readers e =? 0) then
              put_entry id (set_color White e) ;;;
              do work_stack <- scan_children (child_ids (data e)) work_stack ;;
              scan_loop fuel work_stack
            else mark_black id ;;; scan_loop fuel work_stack
          else scan_loop fuel work_stack
      end
  end.

(** Children are pushed once, when their parent turns white. *)
Definition scan (work_stack : list nat) : HM unit :=
  do h <- sget ;;
  scan_loop (S (length work_stack + sum_slots (fun e => length (child_ids (data e))) (entries h))) work_stack.

(** ** Collect *)

Fixpoint collect_white_loop (fuel : nat) (work_stack : list nat) (freed : nat) : HM nat :=
  match fuel with
  | O => sfail NoFuel
  | S fuel =>
      match work_stack with
      | [] => sret freed
      | id :: work_stack =>
          do h <- sget ;;
          do slot <- slift (entry (entries h) id) ;;
          match slot with
          | None => collect_white_loop fuel work_stack freed
          | Some e =>
              if bool_decide (color e = White) then
                if readers e =? 0 then
                  free_entry id ;;;
                  smodify (remove_weak_index_entry (weak_index_key (data e)) id) ;;;
                  collect_white_loop fuel (rev (dec_ref_ids (data e)) ++ work_stack) (freed + 1)
                else sfail Panicking
              else collect_white_loop fuel work_stack freed
          end
      end
  end.

(** The last root is on top. *)
Definition collect_white (roots : list nat) : HM nat :=
  do h <- sget ;;
  collect_white_loop (S (length roots + sum_slots (fun e => length (dec_ref_ids (data e))) (entries h))) (rev roots) 0.

Definition collect_cycles_inner : HM nat :=
  do h <- sget ;;
  do roots <- mark_roots (len (entries h)) 0 ;;
  scan (rev roots) ;;;
  do freed <- collect_white roots ;;
  smodify (fun h => with_allocations 0 (with_purple 0 h)) ;;;
  sret freed.

Definition collect_cycles : HM nat :=
  do h <- sget ;;
  if purple_count h =? 0 then sret 0 else collect_cycles_inner.

(** ** Leaks *)

(** [seen] grows with the roots, then with what they reach; the children in order. *)
Fixpoint see (ids : list nat) (seen : gset nat) (work_stack : list nat) : gset nat * list nat :=
  match ids with
  | [] => (seen, work_stack)
  | id :: ids =>
      if bool_decide (id ∈ seen) then see ids seen work_stack
      else see ids ({[id]} ∪ seen) (id :: work_stack)
  end.

Fixpoint reach_loop (fuel : nat) (seen : gset nat) (work_stack : list nat) : HM (gset nat) :=
  match fuel with
  | O => sfail NoFuel
  | S fuel =>
      match work_stack with
      | [] => sret seen
      | id :: work_stack =>
          do slot <- try_entry id ;;
          match slot with
          | None => reach_loop fuel seen work_stack
          | Some e =>
              let '(seen, work_stack) := see (child_ids (data e)) seen work_stack in
              reach_loop fuel seen work_stack
          end
      end
  end.

(** The ids of the live entries of [unreachable_entries], without their types. *)
Definition unreachable_entries (roots : list nat) : HM (list nat) :=
  do h <- sget ;;
  let held := omap (fun o => o) (decimal_contexts h) in
  let '(seen, work_stack) := see (roots ++ held) ∅ [] in
  do seen <- reach_loop (S (len (entries h) + length (roots ++ held))) seen work_stack ;;
  do slots <- slift (serialize (entries h)) ;;
  sret (filter (fun id => is_Some (slots !! id ≫= fun o => o) /\ id <> EMPTY_TUPLE_ID /\ id ∉ seen) (seq 0 (length slots))).
End Collector.
