(* ===== verification/HeapInv.v ===== *)
(** The object graph of a heap: counting the edges into an entry, reachability, and how
    the heap's accesses read on the array of slots.  *)
From S2P Require Import Prelude Str Resource StableHeap Heap.
#[local] Open Scope monty_scope.

(** ** Sums *)

Lemma sum_list_app' l k : sum_list (l ++ k) = sum_list l + sum_list k.
Proof. induction l as [|x l IH]; cbn; [done|]. lia. Qed.

Lemma sum_map_le {A} (f g : A -> nat) l : (forall x, x ∈ l -> f x <= g x) -> sum_list (map f l) <= sum_list (map g l).
Proof.
  induction l as [|a l IH]; intros Hfg; cbn; [lia|].
  pose proof (Hfg a ltac:(by left)). specialize (IH ltac:(intros; apply Hfg; by right)). lia.
Qed.

Lemma sum_map_ext {A} (f g : A -> nat) l : (forall x, x ∈ l -> f x = g x) -> sum_list (map f l) = sum_list (map g l).
Proof. intros E. apply Nat.le_antisymm; apply sum_map_le; intros x Hx; by rewrite E. Qed.

Lemma sum_map_add {A} (f g : A -> nat) l : sum_list (map (fun x => f x + g x) l) = sum_list (map f l) + sum_list (map g l).
Proof. induction l as [|a l IH]; cbn; [done|]. lia. Qed.

Lemma sum_map_zero {A} (f : A -> nat) l : sum_list (map f l) = 0 <-> forall x, x ∈ l -> f x = 0.
Proof.
  induction l as [|a l IH]; cbn; [split; [by intros _ x ?%elem_of_nil|done]|].
  rewrite Nat.eq_add_0, IH. split; [intros [? ?] x [->|?]%elem_of_cons; auto|]. intros Hf. split; [apply Hf; by left|].
  intros x Hx. apply Hf. by right.
Qed.

(** One term of a sum over [0 .. n - 1] stands out. *)
Lemma sum_seq_single n i v : i < n -> sum_list (map (fun j => if j =? i then v else 0) (seq 0 n)) = v.
Proof.
  intros Hi. replace n with (i + S (n - S i)) by lia. rewrite seq_app, map_app, sum_list_app'. cbn [seq map sum_list].
  assert (Hz : forall a m, (forall j, j ∈ seq a m -> j <> i) -> sum_list (map (fun j => if j =? i then v else 0) (seq a m)) = 0).
  { intros a m Hne. apply sum_map_zero. intros j Hj. by rewrite (proj2 (Nat.eqb_neq j i)) by by apply Hne. }
  rewrite !Hz; [rewrite Nat.eqb_refl; unfold id; lia|..]; intros j Hj%list_elem_of_In%in_seq; lia.
Qed.

(** Occurrences of an id. *)
Definition occ (x : nat) (ids : list nat) : nat := count_occ Nat.eq_dec ids x.

Lemma occ_app x l k : occ x (l ++ k) = occ x l + occ x k.
Proof. apply count_occ_app. Qed.

Lemma occ_cons x y l : occ x (y :: l) = (if decide (x = y) then 1 else 0) + occ x l.
Proof. unfold occ. cbn. destruct (Nat.eq_dec y x), (decide (x = y)); subst; done. Qed.

Lemma occ_pos x l : 0 < occ x l <-> x ∈ l.
Proof. unfold occ. rewrite list_elem_of_In. symmetry. apply count_occ_In. Qed.

Lemma occ_zero x l : occ x l = 0 <-> x ∉ l.
Proof. rewrite <- occ_pos. lia. Qed.

#[export] Instance occ_perm x : Proper ((≡ₚ) ==> (=)) (occ x).
Proof. intros l k Hp. by apply Permutation_count_occ. Qed.

(** ** The graph *)

Section Graph.
Context {D : Type} `{Payload D}.

Abbreviation slots := (list (option (HeapEntry D))).
Implicit Types (l : slots) (x y i : nat) (e : HeapEntry D).

Definition live l i : Prop := exists e, l !! i = Some (Some e).

Definition kids l i : list nat :=
  match l !! i with Some (Some e) => child_ids (data e) | _ => [] end.
Definition rc l i : nat := match l !! i with Some (Some e) => refcount e | _ => 0 end.
Definition rds l i : nat := match l !! i with Some (Some e) => readers e | _ => 0 end.
Definition col l i : option CcColor := match l !! i with Some (Some e) => Some (color e) | _ => None end.

Lemma kids_live l x c : c ∈ kids l x -> live l x.
Proof. unfold kids, live. destruct (l !! x) as [[e|]|]; [by eexists|by intros ?%elem_of_nil..]. Qed.

Lemma live_lt l x : live l x -> x < length l.
Proof. intros [e He]. by apply lookup_lt_Some in He. Qed.

Lemma col_live l x c : col l x = Some c -> live l x.
Proof. unfold col, live. destruct (l !! x) as [[e|]|]; [by eexists|done..]. Qed.

(** The references into [x] from the entries that [S] selects. *)
Definition edges (S : gset nat) l x : nat :=
  sum_list (map (fun i => if bool_decide (i ∈ S) then occ x (kids l i) else 0) (seq 0 (length l))).

(** All references into [x]. *)
Definition in_edges l x : nat := sum_list (map (fun i => occ x (kids l i)) (seq 0 (length l))).

Lemma elem_of_slots l i : i ∈ seq 0 (length l) <-> i < length l.
Proof. rewrite list_elem_of_In, in_seq. lia. Qed.

Lemma edges_ext (S : gset nat) l l' x : length l' = length l -> (forall i, i ∈ S -> kids l' i = kids l i) -> edges S l' x = edges S l x.
Proof.
  intros El Ek. unfold edges. rewrite El. apply sum_map_ext. intros i _. case_bool_decide; [by rewrite Ek|done].
Qed.

Lemma edges_empty l x : edges ∅ l x = 0.
Proof. apply sum_map_zero. intros i _. by rewrite bool_decide_false by set_solver. Qed.

Lemma edges_add (S : gset nat) l i x : i ∉ S -> i < length l -> edges ({[i]} ∪ S) l x = occ x (kids l i) + edges S l x.
Proof.
  intros Hi Hl. unfold edges. rewrite <- (sum_seq_single (length l) i (occ x (kids l i))) by done. rewrite <- sum_map_add.
  apply sum_map_ext. intros j _. destruct (Nat.eqb_spec j i) as [->|Hne]; repeat case_bool_decide; set_solver by lia.
Qed.

Lemma edges_le (S : gset nat) l x : edges S l x <= in_edges l x.
Proof. apply sum_map_le. intros i _. case_bool_decide; lia. Qed.

Lemma edges_zero (S : gset nat) l x : edges S l x = 0 <-> forall i, i ∈ S -> x ∉ kids l i.
Proof.
  unfold edges. rewrite sum_map_zero. split.
  - intros Hz i Hi Hx. pose proof (live_lt _ _ (kids_live _ _ _ Hx)) as Hl. specialize (Hz i (proj2 (elem_of_slots l i) Hl)).
    rewrite bool_decide_true in Hz by done. by apply occ_zero in Hz.
  - intros Hn i _. case_bool_decide; [|done]. by apply occ_zero, Hn.
Qed.

Lemma in_edges_zero l x : in_edges l x = 0 <-> forall i, x ∉ kids l i.
Proof.
  unfold in_edges. rewrite sum_map_zero. split.
  - intros Hz i Hx. pose proof (live_lt _ _ (kids_live _ _ _ Hx)) as Hl. specialize (Hz i (proj2 (elem_of_slots l i) Hl)).
    by apply occ_zero in Hz.
  - intros Hn i _. by apply occ_zero, Hn.
Qed.

(** The slots, split by a set. *)
Lemma edges_split (S : gset nat) l x : in_edges l x = edges S l x + edges (set_seq 0 (length l) ∖ S) l x.
Proof.
  unfold in_edges, edges. rewrite <- sum_map_add. apply sum_map_ext. intros i Hi%elem_of_slots.
  destruct (decide (i ∈ S)) as [HS|HS].
  - rewrite (bool_decide_true (i ∈ S)), (bool_decide_false (i ∈ _ ∖ S)) by set_solver. lia.
  - rewrite (bool_decide_false (i ∈ S)), (bool_decide_true (i ∈ _ ∖ S)); [done| |done].
    apply elem_of_difference. split; [apply elem_of_set_seq; lia|done].
Qed.

Lemma edges_disjoint (S T : gset nat) l x : S ## T -> edges (S ∪ T) l x = edges S l x + edges T l x.
Proof.
  intros HST. unfold edges. rewrite <- sum_map_add. apply sum_map_ext. intros i _. repeat case_bool_decide; set_solver by lia.
Qed.

(** ** Changing one slot *)

Lemma in_edges_ext l l' x : length l' = length l -> (forall i, kids l' i = kids l i) -> in_edges l' x = in_edges l x.
Proof. intros El Ek. unfold in_edges. rewrite El. apply sum_map_ext. intros i _. by rewrite Ek. Qed.

Lemma kids_insert l i o j : i < length l ->
  kids (<[i := o]> l) j = if decide (j = i) then match o with Some e => child_ids (data e) | None => [] end else kids l j.
Proof.
  intros Hi. unfold kids. destruct (decide (j = i)) as [->|Hne]; [by rewrite list_lookup_insert_eq|].
  by rewrite list_lookup_insert_ne.
Qed.

(** The edges of the old entry go, those of the new one come. *)
Lemma in_edges_insert l i o x : i < length l ->
  in_edges (<[i := o]> l) x + occ x (kids l i)
  = in_edges l x + occ x (match o with Some e => child_ids (data e) | None => [] end).
Proof.
  intros Hi. unfold in_edges. rewrite length_insert.
  rewrite <- (sum_seq_single (length l) i (occ x (kids l i))) by done.
  rewrite <- (sum_seq_single (length l) i (occ x (match o with Some e => _ | None => [] end))) by done.
  rewrite <- !sum_map_add. apply sum_map_ext. intros j _. rewrite kids_insert by done.
  destruct (Nat.eqb_spec j i) as [->|Hne]; [rewrite decide_True by done; lia|by rewrite decide_False].
Qed.

Lemma in_edges_app l o x :
  in_edges (l ++ [o]) x = in_edges l x + occ x (match o with Some e => child_ids (data e) | None => [] end).
Proof.
  unfold in_edges. rewrite length_app. cbn [length]. rewrite seq_app, map_app, sum_list_app'. f_equal.
  - apply sum_map_ext. intros i Hi%elem_of_slots. unfold kids. by rewrite lookup_app_l.
  - cbn. unfold kids. rewrite Nat.add_0_r, lookup_app_r, Nat.sub_diag by lia. done.
Qed.

(** ** Reachability *)

Inductive reach (roots : nat -> Prop) l : nat -> Prop :=
| reach_root x : roots x -> reach roots l x
| reach_kid x c : reach roots l x -> c ∈ kids l x -> reach roots l c.

Lemma reach_mono (R R' : nat -> Prop) l l' x :
  (forall y, R y -> R' y) -> (forall y c, reach R l y -> c ∈ kids l y -> c ∈ kids l' y) -> reach R l x -> reach R' l' x.
Proof. intros HR Hk. induction 1 as [x Hx|x c Hx IH Hc]; [apply reach_root; auto|]. eapply reach_kid; [exact IH|auto]. Qed.

Lemma reach_closed (P R : nat -> Prop) l x :
  (forall y, R y -> P y) -> (forall y c, P y -> c ∈ kids l y -> P c) -> reach R l x -> P x.
Proof. intros HR Hk. induction 1 as [x Hx|x c Hx IH Hc]; eauto. Qed.

Lemma reach_trans (R : nat -> Prop) l x y : reach R l x -> reach (eq x) l y -> reach R l y.
Proof. intros Hx. induction 1 as [y <-|y c _ IH Hc]; [done|]. by eapply reach_kid. Qed.

Lemma reach_split (R : nat -> Prop) l y : reach R l y -> exists x, R x /\ reach (eq x) l y.
Proof.
  induction 1 as [x Hx|x c _ (s & Hs & Hr) Hc]; [exists x; split; [done|by apply reach_root]|].
  exists s. split; [done|]. by eapply reach_kid.
Qed.
End Graph.

#[export] Hint Resolve reach_root : monty.

(** The invariant of the heap: every reference count is the number of references the
    rest of the program, the heap itself and the other entries hold, and releasing a
    reference keeps it so. *)

Section Inv.
Context {D : Type} `{PayloadLaws D}.

Abbreviation heap := (Heap D).
Abbreviation slots := (list (option (HeapEntry D))).
Implicit Types (l : slots) (h : heap) (e : HeapEntry D) (x y i id : nat) (ext : nat -> nat).

(** ** Accesses *)

Lemma read_entry_ok h l id e : repr (entries h) l -> l !! id = Some (Some e) -> read_entry id h = (Ok e, h).
Proof.
  intros Hr He. unfold read_entry, try_entry, sbind. by rewrite (slot_at_ok _ _ _ Hr), He.
Qed.

Lemma try_entry_ok h l id o : repr (entries h) l -> l !! id = Some o -> try_entry id h = (Ok o, h).
Proof. intros Hr Ho. unfold try_entry. by rewrite (slot_at_ok _ _ _ Hr), Ho. Qed.

Lemma ensures_read {A} h l id e (k : HeapEntry D -> M heap fault A) Q R :
  repr (entries h) l -> l !! id = Some (Some e) -> ensures (k e) h Q R -> ensures (do e <- read_entry id ;; k e) h Q R.
Proof. intros Hr He Hk. unfold ensures, sbind. by rewrite (read_entry_ok h l id e). Qed.

Lemma ensures_put {A} h l id e e0 (k : unit -> M heap fault A) Q R :
  repr (entries h) l -> l !! id = Some (Some e0) ->
  (forall es, repr es (<[id := Some e]> l) -> ensures (k tt) (with_entries es h) Q R) ->
  ensures (do u <- put_entry id e ;; k u) h Q R.
Proof.
  intros Hr He Hk. destruct (set_slot_ok _ _ _ e e0 Hr He) as (es & Es & Hes).
  unfold ensures, sbind, put_entry. rewrite Es. by apply Hk.
Qed.

Lemma ensures_free {A} h l id e0 (k : unit -> M heap fault A) Q R :
  repr (entries h) l -> l !! id = Some (Some e0) ->
  (forall es, repr es (<[id := None]> l) -> ensures (k tt) (with_entries es h) Q R) ->
  ensures (do u <- free_entry id ;; k u) h Q R.
Proof.
  intros Hr He Hk. destruct (free_ok _ _ _ e0 Hr He) as (es & Es & Hes).
  unfold ensures, sbind, free_entry. rewrite Es. by apply Hk.
Qed.

Lemma ensures_modify_then {A} (f : heap -> heap) h (k : unit -> M heap fault A) Q R :
  ensures (k tt) (f h) Q R -> ensures (do u <- smodify f ;; k u) h Q R.
Proof. intros Hk. by apply ensures_bind, ensures_modify. Qed.

(** ** Sums over the slots *)

Definition slot_sum (f : HeapEntry D -> nat) l : nat :=
  sum_list (map (fun o => match o with Some e => f e | None => 0 end) l).

Lemma slot_sum_app f l k : slot_sum f (l ++ k) = slot_sum f l + slot_sum f k.
Proof. unfold slot_sum. by rewrite map_app, sum_list_app'. Qed.

Lemma slot_sum_cons f o l : slot_sum f (o :: l) = match o with Some e => f e | None => 0 end + slot_sum f l.
Proof. done. Qed.

Lemma slot_sum_insert f l i o o' : l !! i = Some o ->
  slot_sum f (<[i := o']> l) + match o with Some e => f e | None => 0 end
  = slot_sum f l + match o' with Some e => f e | None => 0 end.
Proof.
  intros Ho. rewrite insert_take_drop by by apply lookup_lt_Some in Ho.
  rewrite <- (take_drop_middle l i o Ho) at 3. rewrite !slot_sum_app, !slot_sum_cons. lia.
Qed.

Lemma slot_sum_fuel f es l : repr es l -> slot_sum f l <= sum_slots f es.
Proof.
  intros Hr. unfold sum_slots. rewrite <- (take_drop (len es) (concat (pages es))), map_app, sum_list_app'.
  rewrite (repr_slots _ _ Hr), map_map. unfold slot_sum. lia.
Qed.

Definition purples l : nat := slot_sum (fun e => if bool_decide (color e = Purple) then 1 else 0) l.

(** ** The invariant *)

(** The counts are right with [pend] references still to be released. *)
Record counted ext (pend : list nat) l : Prop := {
  ct_rc : forall x e, l !! x = Some (Some e) -> refcount e = ext x + in_edges l x + occ x pend;
  ct_kids : forall x c, c ∈ kids l x -> live l c;
  ct_pend : forall x, x ∈ pend -> live l x;
  ct_ext : forall x, 0 < ext x -> live l x }.

Definition resting l : Prop := forall x c, col l x = Some c -> c = Black \/ c = Purple.

(** A weak index names live entries that have the key. *)
Definition indexed (key : WeakIndexKey) id l : Prop :=
  exists e, l !! id = Some (Some e) /\ weak_index_key (data e) = Some key.

Record weak_ok h l : Prop := {
  wk_function : forall name id, ext_function_cache h !! name = Some id -> indexed (KExtFunction name) id l;
  wk_boundary : forall uuid id, boundary_index h !! uuid = Some id -> indexed (KBoundary uuid) id l;
  wk_host : forall uuid id, host_type_index h !! uuid = Some id -> indexed (KHostType uuid) id l }.

(** The references the heap holds itself. *)
Definition owned h x : nat :=
  (if decide (x = EMPTY_TUPLE_ID) then 1 else 0)
  + occ x (omap (fun o => o) (timezone_utc h :: decimal_contexts h)).

(** [roots] counts the references of the rest of the program: variables, stacks, host
    handles. *)
Record heap_ok (roots : nat -> nat) h l : Prop := {
  ok_repr : repr (entries h) l;
  ok_counted : counted (fun x => roots x + owned h x) [] l;
  ok_resting : resting l;
  ok_purple : purple_count h = purples l;
  ok_weak : weak_ok h l }.

Definition held (ext : nat -> nat) x : Prop := 0 < ext x.

Lemma reach_live ext pend l x : counted ext pend l -> reach (held ext) l x -> live l x.
Proof.
  intros Hc. apply reach_closed; [apply (ct_ext _ _ _ Hc)|]. intros y c _. apply (ct_kids _ _ _ Hc).
Qed.

(** ** How a release changes the slots *)

(** No entry appears, payloads and readers stay, and a tracked entry that lost a
    reference is a candidate for collection. *)
Record decayed l l' : Prop := {
  dc_len : length l' = length l;
  dc_entry : forall x e', l' !! x = Some (Some e') -> exists e, l !! x = Some (Some e)
    /\ data e' = data e /\ readers e' = readers e /\ refcount e' <= refcount e
    /\ (refcount e' < refcount e -> is_gc_tracked (data e) = true -> color e' = Purple)
    /\ (color e = Purple -> color e' = Purple) /\ (0 < refcount e -> 0 < refcount e') }.

Lemma decayed_refl l : decayed l l.
Proof. split; [done|]. intros x e He. exists e. split_and!; try done. lia. Qed.

Lemma decayed_kids l l' x : decayed l l' -> live l' x -> kids l' x = kids l x.
Proof.
  intros Hd [e' He']. destruct (dc_entry _ _ Hd x e' He') as (e & He & Ed & _). unfold kids. rewrite He, He'. by rewrite Ed.
Qed.

Lemma decayed_put l0 l x e e' : decayed l0 l -> l !! x = Some (Some e) ->
  data e' = data e -> readers e' = readers e -> 0 < refcount e' < refcount e ->
  (is_gc_tracked (data e) = true -> color e' = Purple) -> (color e = Purple -> color e' = Purple) ->
  decayed l0 (<[x := Some e']> l).
Proof.
  intros [Hl Hd] He E1 E2 E3 E4 E5. split; [by rewrite length_insert|]. intros y f Hy.
  destruct (decide (x = y)) as [<-|Hne].
  - rewrite list_lookup_insert_eq in Hy by by apply lookup_lt_Some in He. injection Hy as <-.
    destruct (Hd x e He) as (e0 & He0 & D1 & D2 & D3 & D4 & D5 & D6). exists e0. split_and!; [done|congruence|congruence|lia| |auto|lia].
    intros _ Ht. apply E4. by rewrite D1.
  - rewrite list_lookup_insert_ne in Hy by done. by apply Hd.
Qed.

Lemma decayed_free l0 l x : decayed l0 l -> decayed l0 (<[x := None]> l).
Proof.
  intros [Hl Hd]. split; [by rewrite length_insert|]. intros y f Hy.
  apply list_lookup_insert_Some in Hy as [(_ & ? & _)|(_ & Hy)]; [done|by apply Hd].
Qed.

(** ** One turn of the loop *)

Lemma col_insert l x o y : x < length l ->
  col (<[x := o]> l) y = if decide (y = x) then option_map color o else col l y.
Proof.
  intros Hx. unfold col. destruct (decide (y = x)) as [->|Hne]; [rewrite list_lookup_insert_eq by done; by destruct o|].
  by rewrite list_lookup_insert_ne.
Qed.

Lemma live_insert l x e y : x < length l -> live (<[x := Some e]> l) y <-> y = x \/ live l y.
Proof.
  intros Hx. unfold live. destruct (decide (y = x)) as [->|Hne].
  - rewrite list_lookup_insert_eq by done. split; [by left|]. intros _. by eexists.
  - rewrite list_lookup_insert_ne by done. tauto.
Qed.

Lemma live_insert_same l x e e0 y : l !! x = Some (Some e0) -> live (<[x := Some e]> l) y <-> live l y.
Proof.
  intros Hx. rewrite live_insert by by apply lookup_lt_Some in Hx. split; [|by right]. intros [->|?]; [by eexists|done].
Qed.

Lemma live_free l x y : x < length l -> live (<[x := None]> l) y <-> y <> x /\ live l y.
Proof.
  intros Hx. unfold live. destruct (decide (y = x)) as [->|Hne].
  - rewrite list_lookup_insert_eq by done. split; [by intros [? ?]|]. by intros [? _].
  - rewrite list_lookup_insert_ne by done. tauto.
Qed.

(** An entry with the same payload in place of another keeps the graph. *)
Lemma in_edges_same l x e e0 y : l !! x = Some (Some e0) -> data e = data e0 ->
  in_edges (<[x := Some e]> l) y = in_edges l y.
Proof.
  intros Hx Ed. pose proof (in_edges_insert l x (Some e) y ltac:(by apply lookup_lt_Some in Hx)) as E.
  unfold kids in E. rewrite Hx, Ed in E. lia.
Qed.

Lemma kids_same l x e e0 y : l !! x = Some (Some e0) -> data e = data e0 -> kids (<[x := Some e]> l) y = kids l y.
Proof.
  intros Hx Ed. rewrite kids_insert by by apply lookup_lt_Some in Hx. case_decide; [subst|done]. unfold kids. by rewrite Hx, Ed.
Qed.

Lemma counted_dec ext pend l x e e' :
  counted ext (x :: pend) l -> l !! x = Some (Some e) -> 1 < refcount e ->
  data e' = data e -> refcount e' = refcount e - 1 -> counted ext pend (<[x := Some e']> l).
Proof.
  intros [C1 C2 C3 C4] He Hr Ed Er. split.
  - intros y f Hf. rewrite (in_edges_same l x e' e y He Ed). destruct (decide (x = y)) as [<-|Hne].
    + rewrite list_lookup_insert_eq in Hf by by apply lookup_lt_Some in He. injection Hf as <-.
      specialize (C1 x e He). rewrite occ_cons, decide_True in C1 by done. lia.
    + rewrite list_lookup_insert_ne in Hf by done. specialize (C1 y f Hf). rewrite occ_cons, decide_False in C1 by done. lia.
  - intros y c. rewrite (kids_same l x e' e y He Ed), (live_insert_same l x e' e c He). apply C2.
  - intros y Hy. rewrite (live_insert_same l x e' e y He). apply C3. by right.
  - intros y Hy. rewrite (live_insert_same l x e' e y He). by apply C4.
Qed.

(** The last reference: nothing else holds the entry. *)
Lemma counted_last ext pend l x e :
  counted ext (x :: pend) l -> l !! x = Some (Some e) -> refcount e <= 1 ->
  ext x = 0 /\ in_edges l x = 0 /\ x ∉ pend.
Proof.
  intros Hc He Hr. pose proof (ct_rc _ _ _ Hc x e He) as E. rewrite occ_cons, decide_True in E by done.
  split_and!; [lia..|]. apply occ_zero. lia.
Qed.

Lemma counted_free ext pend l x e ids :
  counted ext (x :: pend) l -> l !! x = Some (Some e) -> refcount e <= 1 -> ids ≡ₚ child_ids (data e) ->
  counted ext (ids ++ pend) (<[x := None]> l).
Proof.
  intros Hc He Hr Hids. destruct (counted_last ext pend l x e Hc He Hr) as (Hx & Hin & Hp). pose proof Hc as [C1 C2 C3 C4].
  pose proof (lookup_lt_Some _ _ _ He) as Hl. rewrite in_edges_zero in Hin.
  assert (Hk : kids l x = child_ids (data e)) by (unfold kids; by rewrite He).
  split.
  - intros y f Hf. apply list_lookup_insert_Some in Hf as [(_ & ? & _)|(Hne & Hf)]; [done|].
    pose proof (in_edges_insert l x None y Hl) as E. rewrite Hk in E. cbn in E. rewrite occ_app, Hids, (C1 y f Hf).
    rewrite occ_cons, decide_False by done. change (occ y []) with 0 in E. lia.
  - intros y c Hc'. rewrite kids_insert in Hc' by done. case_decide; [by apply elem_of_nil in Hc'|].
    apply live_free; [done|]. split; [|by eapply C2]. intros ->. by eapply Hin.
  - intros y [Hy|Hy]%elem_of_app; apply live_free; try done.
    + rewrite Hids, <- Hk in Hy. split; [|by eapply C2]. intros ->. by eapply Hin.
    + split; [|apply C3; by right]. by intros ->.
  - intros y Hy. apply live_free; [done|]. split; [|by apply C4]. intros ->. lia.
Qed.

(** What is held stays reachable. *)
Lemma reach_free ext pend l x e y :
  counted ext (x :: pend) l -> l !! x = Some (Some e) -> refcount e <= 1 ->
  reach (held ext) l y -> y <> x /\ reach (held ext) (<[x := None]> l) y.
Proof.
  intros Hc He Hr. destruct (counted_last ext pend l x e Hc He Hr) as (Hx & Hin & _). rewrite in_edges_zero in Hin.
  pose proof (lookup_lt_Some _ _ _ He) as Hl. induction 1 as [y Hy|y c Hy [Hne IH] Hk].
  - split; [intros ->; unfold held in Hy; lia|]. by apply reach_root.
  - split; [intros ->; by eapply Hin|]. eapply reach_kid; [exact IH|]. by rewrite kids_insert, decide_False.
Qed.

(** ** Weak indexes *)

Lemma indexed_put key i l x e e' : l !! x = Some (Some e) -> data e' = data e -> indexed key i l -> indexed key i (<[x := Some e']> l).
Proof.
  intros He Ed (f & Hf & Hk). unfold indexed. destruct (decide (x = i)) as [<-|Hne].
  - rewrite list_lookup_insert_eq by by apply lookup_lt_Some in He. exists e'. split; [done|]. rewrite Ed. congruence.
  - rewrite list_lookup_insert_ne by done. by exists f.
Qed.

Lemma weak_ok_put h l x e e' es : l !! x = Some (Some e) -> data e' = data e -> weak_ok h l ->
  weak_ok (with_entries es h) (<[x := Some e']> l).
Proof. intros He Ed [W1 W2 W3]. split; cbn; intros k i Hi; eapply indexed_put; eauto. Qed.

Lemma indexed_free key i l x e : l !! x = Some (Some e) -> indexed key i l ->
  (i = x -> weak_index_key (data e) = Some key -> False) -> indexed key i (<[x := None]> l).
Proof.
  intros He (f & Hf & Hk) Hne. exists f. split; [|done]. rewrite list_lookup_insert_ne; [done|]. intros <-.
  rewrite He in Hf. injection Hf as <-. by apply Hne.
Qed.

(** Freeing an entry after clearing its key. *)
Lemma weak_ok_free h l x e : l !! x = Some (Some e) -> weak_ok h l ->
  weak_ok (remove_weak_index_entry (weak_index_key (data e)) x h) (<[x := None]> l).
Proof.
  intros He [W1 W2 W3]. unfold remove_weak_index_entry, remove_ext_function_cache_entry.
  destruct (weak_index_key (data e)) as [[name|uuid|uuid]|] eqn:Ek; repeat case_bool_decide;
    split; cbn; intros k i Hi; try (apply lookup_delete_Some in Hi as [? Hi]);
    (eapply indexed_free; [exact He|eauto|intros ->; rewrite Ek; congruence]).
Qed.
End Inv.
