(* ===== verification/HeapProps.v ===== *)
(** Releasing a reference, and the other operations of the heap, keep its invariant.  *)
From S2P Require Import Prelude Str Resource StableHeap Heap HeapInv.
#[local] Open Scope monty_scope.

Section Props.
Context {D : Type} `{PayloadLaws D}.

Abbreviation heap := (Heap D).
Abbreviation slots := (list (option (HeapEntry D))).
Implicit Types (l : slots) (h : heap) (e : HeapEntry D) (x y i id : nat) (ext roots : nat -> nat).

(** The fields that counting does not touch. *)
Definition same_rest h h' : Prop :=
  tracker h' = tracker h /\ allocations_since_gc h' = allocations_since_gc h /\ gc_disabled h' = gc_disabled h
  /\ timezone_utc h' = timezone_utc h /\ decimal_contexts h' = decimal_contexts h.

Lemma same_rest_owned h h' x : same_rest h h' -> owned h' x = owned h x.
Proof. intros (_ & _ & _ & E1 & E2). unfold owned. by rewrite E1, E2. Qed.

Lemma same_rest_weak key x h h' : same_rest h h' -> same_rest h (remove_weak_index_entry key x h').
Proof. destruct key as [[]|]; cbn; repeat case_bool_decide; done. Qed.

(** Entries that are being read are held by someone. *)
Definition pinned ext l : Prop := forall x, 0 < rds l x -> reach (held ext) l x.

(** The heap while references are being released. *)
Record releasing ext h0 l0 (pend : list nat) h l : Prop := {
  rl_repr : repr (entries h) l;
  rl_counted : counted ext pend l;
  rl_resting : resting l;
  rl_purple : purple_count h = purples l;
  rl_weak : weak_ok h l;
  rl_decayed : decayed l0 l;
  rl_reach : forall x, reach (held ext) l0 x -> reach (held ext) l x;
  rl_pinned : pinned ext l;
  rl_rest : same_rest h0 h }.

Lemma rds_same l x e e' y : l !! x = Some (Some e) -> readers e' = readers e -> rds (<[x := Some e']> l) y = rds l y.
Proof.
  intros He Er. unfold rds. destruct (decide (x = y)) as [<-|Hne]; [|by rewrite list_lookup_insert_ne].
  rewrite list_lookup_insert_eq by by apply lookup_lt_Some in He. by rewrite He.
Qed.

Lemma reach_same (R : nat -> Prop) l x e e' y : l !! x = Some (Some e) -> data e' = data e ->
  reach R l y <-> reach R (<[x := Some e']> l) y.
Proof.
  intros He Ed. split; apply reach_mono; try done; intros z c _; by rewrite (kids_same l x e' e z He Ed).
Qed.

Lemma purples_put l x e e' : l !! x = Some (Some e) ->
  purples (<[x := Some e']> l) + (if bool_decide (color e = Purple) then 1 else 0)
  = purples l + (if bool_decide (color e' = Purple) then 1 else 0).
Proof. intros He. exact (slot_sum_insert (fun e => if bool_decide (color e = Purple) then 1 else 0) l x (Some e) (Some e') He). Qed.

Lemma purples_free l x e : l !! x = Some (Some e) ->
  purples (<[x := None]> l) + (if bool_decide (color e = Purple) then 1 else 0) = purples l.
Proof.
  intros He. pose proof (slot_sum_insert (fun e => if bool_decide (color e = Purple) then 1 else 0) l x (Some e) None He) as E.
  cbn [id] in E. unfold purples. lia.
Qed.

(** The entry keeps a reference. *)
Lemma survive_ensures ext h0 l0 x pend h l e :
  releasing ext h0 l0 (x :: pend) h l -> l !! x = Some (Some e) -> 1 < refcount e ->
  ensures (survive x e) h
    (fun _ h' => exists l', releasing ext h0 l0 pend h' l' /\ slot_sum refcount l' < slot_sum refcount l) (fun _ _ => False).
Proof.
  intros [R1 R2 R3 R4 R5 R6 R7 R8 R9] He Hr. unfold survive. set (e1 := set_refcount (refcount e - 1) e).
  pose proof (lookup_lt_Some _ _ _ He) as Hlt.
  assert (Hfin : forall e' es h', data e' = data e -> readers e' = readers e -> refcount e' = refcount e - 1 ->
      (is_gc_tracked (data e) = true -> color e' = Purple) -> (color e' = Purple \/ color e' = color e) ->
      repr es (<[x := Some e']> l) -> purple_count h' = purples (<[x := Some e']> l) ->
      entries h' = es -> weak_ok h' (<[x := Some e']> l) -> same_rest h0 h' ->
      exists l', releasing ext h0 l0 pend h' l' /\ slot_sum refcount l' < slot_sum refcount l).
  { intros e' es h' Ed Er Ec Et Ep Hes Hp Hen Hw Hs. exists (<[x := Some e']> l). split.
    - split; [by rewrite Hen|by apply (counted_dec ext pend l x e e')| |done|done| | | |done].
      + intros y c. rewrite col_insert by done. case_decide; [|apply R3]. cbn. intros [= <-].
        destruct Ep as [->|E]; [by right|]. rewrite E. eapply (R3 x). unfold col. by rewrite He.
      + apply (decayed_put l0 l x e e'); try done; [lia|]. intros Hc. destruct Ep as [|E]; [done|]. by rewrite E.
      + intros y Hy. apply (reach_same _ l x e e' y He Ed). by apply R7.
      + intros y. rewrite (rds_same l x e e' y He Er). intros Hy. apply (reach_same _ l x e e' y He Ed). by apply R8.
    - pose proof (slot_sum_insert refcount l x (Some e) (Some e') He). cbn in *. lia. }
  apply (ensures_put h l x e1 e); [done..|]. intros es Hes.
  destruct (is_gc_tracked (data e1) && negb (bool_decide (color e1 = Purple))) eqn:Eb.
  - apply andb_true_iff in Eb as [Et Ec]. apply negb_true_iff, bool_decide_eq_false in Ec.
    apply (ensures_put _ (<[x := Some e1]> l) x (set_color Purple e1) e1); [done|by rewrite list_lookup_insert_eq|].
    intros es2 Hes2. rewrite list_insert_insert_eq in Hes2. apply ensures_modify.
    apply (Hfin (set_color Purple e1) es2); try done; [by left| |].
    + cbn. pose proof (purples_put l x e (set_color Purple e1) He) as Hp. cbn in Ec, Hp.
      rewrite (bool_decide_false (color e = Purple)) in Hp by done. rewrite bool_decide_true in Hp by done. lia.
    + destruct (weak_ok_put h l x e (set_color Purple e1) es2 He eq_refl R5) as [W1 W2 W3]. by split.
  - apply ensures_ret. apply (Hfin e1 es); try done; [|by right| |].
    + intros Ht. cbn in Eb. rewrite Ht in Eb. by apply negb_false_iff, bool_decide_eq_true in Eb.
    + pose proof (purples_put l x e e1 He) as Hp. cbn in Hp |- *. lia.
    + apply (weak_ok_put h l x e _ es He); done.
Qed.

(** The entry goes. *)
Lemma release_ensures ext h0 l0 x pend h l e :
  releasing ext h0 l0 (x :: pend) h l -> l !! x = Some (Some e) -> refcount e <= 1 -> 0 < ext EMPTY_TUPLE_ID ->
  ensures (release x e) h
    (fun ids h' => exists l', releasing ext h0 l0 (rev ids ++ pend) h' l' /\ slot_sum refcount l' < slot_sum refcount l)
    (fun _ _ => False).
Proof.
  intros HR He Hr Hnil. pose proof HR as [R1 R2 R3 R4 R5 R6 R7 R8 R9]. unfold release.
  destruct (counted_last ext pend l x e R2 He Hr) as (Hx & Hin & Hp).
  pose proof (lookup_lt_Some _ _ _ He) as Hlt.
  assert (E1 : refcount e = 1).
  { pose proof (ct_rc _ _ _ R2 x e He) as E. rewrite occ_cons, decide_True in E by done. lia. }
  destruct (Nat.eqb_spec x EMPTY_TUPLE_ID) as [->|Hne]; [lia|]. apply ensures_bind, ensures_ret.
  assert (Hrd : readers e = 0).
  { destruct (readers e) eqn:Er; [done|]. destruct (reach_free ext pend l x e x R2 He Hr) as [? _]; [|done].
    apply R8. unfold rds. rewrite He, Er. lia. }
  rewrite Hrd, Nat.eqb_refl. apply ensures_bind, ensures_ret, ensures_bind, ensures_get.
  pose proof (purples_free l x e He) as Hpu. apply ensures_bind.
  apply (ensures_mono _ h (fun _ h1 => h1 = with_purple (purples (<[x := None]> l)) h) _ (fun _ _ => False)); [| |done].
  { rewrite <- Hpu in R4. destruct (bool_decide (color e = Purple)).
    - rewrite R4. rewrite (proj2 (Nat.eqb_neq _ 0)) by lia. apply ensures_modify. f_equal. rewrite R4. lia.
    - apply ensures_ret. destruct h; cbn in *. by rewrite R4, Nat.add_0_r. }
  intros _ h1 ->. apply ensures_modify_then.
  assert (Hrep : repr (entries (remove_weak_index_entry (weak_index_key (data e)) x (with_purple (purples (<[x := None]> l)) h))) l).
  { unfold remove_weak_index_entry. destruct (weak_index_key (data e)) as [[]|]; repeat case_bool_decide; done. }
  apply (ensures_free _ l x e); [exact Hrep|exact He|]. intros es Hes. apply ensures_ret.
  exists (<[x := None]> l). split.
  - assert (Hperm : rev (dec_ref_ids (data e)) ≡ₚ child_ids (data e)) by (rewrite <- Permutation_rev; apply walkers_agree).
    split; [done|exact (counted_free ext pend l x e _ R2 He Hr Hperm)| | | |exact (decayed_free l0 l x R6)| | |].
    + intros y c. rewrite col_insert by done. destruct (decide (y = x)); [by intros [=]|apply R3].
    + cbn. destruct (weak_index_key (data e)) as [[]|]; cbn; repeat case_bool_decide; done.
    + pose proof (weak_ok_free (with_purple (purples (<[x := None]> l)) h) l x e He) as [W1 W2 W3].
      { destruct R5. by split. } by split.
    + intros y Hy. apply (reach_free ext pend l x e y R2 He Hr), R7, Hy.
    + intros y Hy. apply (reach_free ext pend l x e y R2 He Hr), R8. unfold rds in *.
      destruct (decide (x = y)) as [<-|Hxy]; [by rewrite list_lookup_insert_eq in Hy by done; lia|by rewrite list_lookup_insert_ne in Hy].
    + by apply same_rest_weak.
  - pose proof (slot_sum_insert refcount l x (Some e) None He). cbn in *. lia.
Qed.

Lemma dec_ref_loop_ensures ext h0 l0 : 0 < ext EMPTY_TUPLE_ID -> forall fuel x pend h l,
  releasing ext h0 l0 (x :: pend) h l -> slot_sum refcount l < fuel ->
  ensures (dec_ref_loop fuel x pend) h (fun _ h' => exists l', releasing ext h0 l0 [] h' l') (fun _ _ => False).
Proof.
  intros Hnil. induction fuel as [|fuel IH]; intros x pend h l HR Hf; [lia|]. cbn [dec_ref_loop].
  destruct (ct_pend _ _ _ (rl_counted _ _ _ _ _ _ HR) x ltac:(by left)) as [e He].
  apply (ensures_read h l x e); [apply HR|done|]. apply ensures_bind.
  assert (Hnext : forall pend' h' l', releasing ext h0 l0 pend' h' l' -> slot_sum refcount l' < slot_sum refcount l ->
    ensures (match pend' with [] => sret tt | next :: pend' => dec_ref_loop fuel next pend' end) h'
      (fun _ h' => exists l', releasing ext h0 l0 [] h' l') (fun _ _ => False)).
  { intros [|y pend'] h' l' HR' Hs; [apply ensures_ret; by exists l'|]. apply (IH y pend' h' l' HR'). lia. }
  destruct (Nat.ltb_spec 1 (refcount e)) as [Hr|Hr].
  - apply ensures_bind. eapply ensures_mono; [by apply (survive_ensures ext h0 l0 x pend h l e)| |done].
    intros _ h' (l' & HR' & Hs). apply ensures_ret. by apply (Hnext pend h' l').
  - apply ensures_bind. eapply ensures_mono; [by apply (release_ensures ext h0 l0 x pend h l e)| |done].
    intros ids h' (l' & HR' & Hs). apply ensures_ret. by apply (Hnext _ h' l').
Qed.

(** One reference fewer. *)
Definition drop_root roots id x : nat := if decide (x = id) then roots x - 1 else roots x.

Lemma dec_ref_ensures roots h l id :
  heap_ok roots h l -> 0 < roots id ->
  pinned (fun x => drop_root roots id x + owned h x) l ->
  ensures (dec_ref id) h
    (fun _ h' => exists l', heap_ok (drop_root roots id) h' l' /\ decayed l l' /\ same_rest h h'
       /\ pinned (fun x => drop_root roots id x + owned h x) l'
       /\ forall x, reach (held (fun x => drop_root roots id x + owned h x)) l x ->
                    reach (held (fun x => drop_root roots id x + owned h x)) l' x)
    (fun _ _ => False).
Proof.
  intros [K1 K2 K3 K4 K5] Hid Hpin. unfold dec_ref. apply ensures_bind, ensures_get.
  set (ext := fun x => drop_root roots id x + owned h x) in *.
  assert (Hnil : 0 < ext EMPTY_TUPLE_ID) by (unfold ext, owned; rewrite decide_True by done; lia).
  assert (HR : releasing ext h l [id] h l).
  { split; try done; [|apply decayed_refl]. destruct K2 as [C1 C2 C3 C4]. split; [|done| |].
    - intros x e He. rewrite (C1 x e He). unfold ext, drop_root, occ. cbn. destruct (Nat.eq_dec id x), (decide (x = id)); subst; cbn; lia.
    - intros x ->%list_elem_of_singleton. apply C4. lia.
    - intros x Hx. apply C4. unfold ext, drop_root in Hx. case_decide; lia. }
  eapply ensures_mono; [apply (dec_ref_loop_ensures ext h l Hnil _ id [] h l HR)| |done].
  { pose proof (slot_sum_fuel refcount _ _ K1). lia. }
  intros _ h' (l' & [R1 R2 R3 R4 R5 R6 R7 R8 R9]). exists l'. split; [|done]. split; try done.
  destruct R2 as [C1 C2 C3 C4].
  split; [|done|done|]; intros x; setoid_rewrite (same_rest_owned h h' x R9); [apply C1|apply C4].
Qed.
End Props.

(** No leak by releasing references: an entry that is no longer in use is freed or is
    reached from a candidate of the collector. *)

Section Leak.
Context {D : Type} `{PayloadLaws D}.

Abbreviation slots := (list (option (HeapEntry D))).
Implicit Types (l : slots) (e : HeapEntry D) (x y z c w : nat) (ext : nat -> nat).

(** ** The entries a decidable set reaches *)

Lemma size_bounded (V : gset nat) n : (forall v, v ∈ V -> v < n) -> size V <= n.
Proof.
  intros HV. transitivity (size (set_seq 0 n : gset nat)); [|by rewrite size_set_seq]. apply subseteq_size. intros y Hy.
  apply elem_of_set_seq. split; [lia|]. by apply HV.
Qed.

Lemma reach_set (R : nat -> Prop) `{!forall x, Decision (R x)} l n :
  (forall x, reach R l x -> x < n) -> exists S : gset nat, forall x, x ∈ S <-> reach R l x.
Proof.
  intros Hn.
  assert (Hgo : forall k (S : gset nat), n - size S <= k -> (forall x, x ∈ S -> reach R l x) -> (forall x, R x -> x ∈ S) ->
    exists S' : gset nat, forall x, x ∈ S' <-> reach R l x).
  { induction k as [k IH] using lt_wf_ind. intros S Hk HS HR.
    destruct (decide (set_Forall (fun i => Forall (fun c => c ∈ S) (kids l i)) S)) as [Hc|Hc].
    - exists S. intros x. split; [apply HS|]. induction 1 as [x Hx|x c _ IHx Hx]; [auto|].
      specialize (Hc x IHx). rewrite Forall_forall in Hc. by apply Hc.
    - apply not_set_Forall_Exists in Hc; [|apply _]. destruct Hc as (i & Hi & Hc). apply not_Forall_Exists in Hc; [|apply _].
      apply Exists_exists in Hc as (c & Hc & Hn'). cbn in Hn'.
      assert (Hrc : reach R l c) by (eapply reach_kid; [by apply HS|done]).
      assert (Hs : size ({[c]} ∪ S) = Datatypes.S (size S)) by (rewrite size_union, size_singleton by set_solver; lia).
      assert (Hle : size ({[c]} ∪ S) <= n) by (apply size_bounded; intros y [->%elem_of_singleton|Hy]%elem_of_union; auto).
      apply (IH (n - size ({[c]} ∪ S))) with ({[c]} ∪ S); [lia|done| |set_solver].
      intros y [->%elem_of_singleton|Hy]%elem_of_union; auto. }
  apply (Hgo _ (filter R (set_seq 0 n : gset nat)) (Nat.le_refl _)).
  - intros x [Hx _]%elem_of_filter. by apply reach_root.
  - intros x Hx. apply elem_of_filter. split; [done|]. apply elem_of_set_seq. split; [lia|]. by apply Hn, reach_root.
Qed.

(** ** Enrolled *)

Definition candidate l x : Prop := col l x = Some Purple.

#[global] Instance candidate_dec l x : Decision (candidate l x).
Proof. unfold candidate. apply _. Defined.

(** Kept by someone, or reached from a candidate. *)
Definition accounted ext l : nat -> Prop := reach (fun x => held ext x \/ candidate l x) l.

(** Every entry has a reference, and is accounted for. *)
Definition tidy ext l : Prop := forall x e, l !! x = Some (Some e) -> 0 < refcount e /\ accounted ext l x.

(** An entry the collector does not track is on no cycle. *)
Definition contained l : Prop := forall x e y, l !! x = Some (Some e) -> is_gc_tracked (data e) = false ->
  x ∈ kids l y -> ~ reach (eq x) l y.

Lemma accounted_dec ext l x : counted ext [] l -> accounted ext l x \/ ~ accounted ext l x.
Proof.
  intros Hc. assert (Hdec : forall x, Decision (held ext x \/ candidate l x)) by (intros y; unfold held; apply _).
  destruct (reach_set (fun x => held ext x \/ candidate l x) l (length l)) as [S HS].
  - intros y Hy. apply live_lt. revert Hy. apply reach_closed; [|intros z c _; apply (ct_kids _ _ _ Hc)].
    intros z [Hz|Hz]; [by apply (ct_ext _ _ _ Hc)|by apply (col_live _ _ Purple)].
  - unfold accounted. rewrite <- HS. destruct (decide (x ∈ S)); auto.
Qed.

(** An entry that has a reference which no one outside holds has a parent. *)
Lemma counted_parent ext l x e : counted ext [] l -> l !! x = Some (Some e) -> 0 < refcount e -> ext x = 0 ->
  exists p, x ∈ kids l p.
Proof.
  intros Hc He Hr Hz. pose proof (ct_rc _ _ _ Hc x e He) as E. change (occ x []) with 0 in E.
  destruct (decide (Exists (fun p => x ∈ kids l p) (seq 0 (length l)))) as [Hex|Hex].
  - apply Exists_exists in Hex as (p & _ & Hp). by exists p.
  - exfalso. assert (Hin : in_edges l x = 0); [|lia]. apply in_edges_zero. intros p Hp. apply Hex, Exists_exists.
    exists p. split; [|done]. apply elem_of_slots. by eapply live_lt, kids_live.
Qed.

Section Release.
Context (ext ext' : nat -> nat) (l l' : slots).
Context (Hd : decayed l l') (Hc : counted ext [] l) (Hc' : counted ext' [] l').
Context (Hle : forall x, ext' x <= ext x) (Hcont : contained l').

Lemma decayed_kids_of x : kids l' x = kids l x \/ (~ live l' x /\ kids l' x = []).
Proof.
  destruct (l' !! x) as [[e'|]|] eqn:He'.
  - left. apply decayed_kids; [done|by exists e'].
  - right. unfold live, kids. rewrite He'. split; [by intros []|done].
  - right. unfold live, kids. rewrite He'. split; [by intros []|done].
Qed.

Lemma decayed_in x : in_edges l' x <= in_edges l x.
Proof.
  unfold in_edges. rewrite (dc_len _ _ Hd). apply sum_map_le. intros i _.
  destruct (decayed_kids_of i) as [->|[_ ->]]; [done|]. change (occ x []) with 0. lia.
Qed.

(** An entry with the count it had has the parents it had. *)
Lemma decayed_parents x e e' w : l !! x = Some (Some e) -> l' !! x = Some (Some e') -> refcount e <= refcount e' ->
  ext x <= ext' x /\ (x ∈ kids l w -> live l' w).
Proof.
  intros He He' Hr. pose proof (decayed_in x) as Hin. pose proof (ct_rc _ _ _ Hc x e He) as E. pose proof (ct_rc _ _ _ Hc' x e' He') as E'.
  change (occ x []) with 0 in E, E'. specialize (Hle x). split; [lia|]. intros Hw.
  destruct (decayed_kids_of w) as [Hk|[Hdead Hk]].
  - rewrite <- Hk in Hw. by eapply kids_live.
  - exfalso. assert (Hwl : w < length l) by by eapply live_lt, kids_live.
    assert (Hlt : in_edges l' x < in_edges l x); [|lia].
    pose proof (in_edges_insert l w None x Hwl) as Ei. cbn in Ei. change (occ x []) with 0 in Ei.
    apply occ_pos in Hw. assert (in_edges l' x <= in_edges (<[w := None]> l) x); [|lia].
    unfold in_edges. rewrite length_insert, (dc_len _ _ Hd). apply sum_map_le. intros i _. rewrite kids_insert by done.
    case_decide; [subst; rewrite Hk; done|]. destruct (decayed_kids_of i) as [->|[_ ->]]; [done|]. change (occ x []) with 0. lia.
Qed.

(** Above an entry that is not accounted for there is one that lost a reference. *)
Lemma lost_above z : tidy ext l -> live l' z -> ~ accounted ext' l' z ->
  exists x e e', l !! x = Some (Some e) /\ l' !! x = Some (Some e') /\ refcount e' < refcount e /\ reach (eq x) l' z.
Proof.
  intros Ht Hz Hn. pose proof Hz as [e' He']. destruct (dc_entry _ _ Hd z e' He') as (e & He & _). destruct (Ht z e He) as [_ Hacc].
  clear e e' He He'. revert Hz Hn. induction Hacc as [x Hx|x c Hx IH Hk]; intros [e' He'] Hn;
    destruct (dc_entry _ _ Hd _ e' He') as (e & He & Ed & Erd & Er & Et & Ep & _).
  - exists x, e, e'. split_and!; try done; [|by apply reach_root]. destruct (decide (refcount e' < refcount e)) as [|Hge]; [done|exfalso].
    apply Hn, reach_root. destruct Hx as [Hx|Hx].
    + left. unfold held in *. destruct (decayed_parents x e e' 0 He He' ltac:(lia)) as [Hq _]. lia.
    + right. unfold candidate, col in *. rewrite He in Hx. rewrite He'. injection Hx as Hx. by rewrite (Ep Hx).
  - destruct (decide (refcount e' < refcount e)) as [|Hge]; [exists c, e, e'; split_and!; try done; by apply reach_root|].
    destruct (decayed_parents c e e' x He He' ltac:(lia)) as [_ Hp]. specialize (Hp Hk).
    assert (Hk' : c ∈ kids l' x) by by rewrite (decayed_kids l l' x Hd Hp).
    destruct (IH Hp) as (y & f & f' & Hf & Hf' & Hlt & Hy).
    + intros Ha. apply Hn. by eapply reach_kid.
    + exists y, f, f'. split_and!; try done. by eapply reach_kid.
Qed.

Lemma release_tidy : tidy ext l -> tidy ext' l'.
Proof.
  intros Ht x e' He'.
  assert (Hpos : forall y f', l' !! y = Some (Some f') -> 0 < refcount f').
  { intros y f' Hf'. destruct (dc_entry _ _ Hd y f' Hf') as (f & Hf & _ & _ & _ & _ & _ & Hp). by apply Hp, (Ht y). }
  split; [by eapply Hpos|]. destruct (accounted_dec ext' l' x Hc') as [|Hn]; [done|exfalso].
  assert (Hlive : live l' x) by by exists e'. clear e' He'.
  (* The entries found so far, all below [x] and none above it. *)
  assert (Hgo : forall k (V : gset nat) z, length l' - size V < k -> live l' z -> ~ accounted ext' l' z ->
    (forall v, v ∈ V -> v < length l') ->
    (forall v, v ∈ V -> exists e p, l' !! v = Some (Some e) /\ is_gc_tracked (data e) = false /\ v ∈ kids l' p /\ reach (eq z) l' p) -> False).
  { induction k as [|k IH]; intros V z Hk Hz Hnz HV HVp; [lia|].
    destruct (lost_above z Ht Hz Hnz) as (w & f & f' & Hf & Hf' & Hlt & Hwz).
    assert (Hnw : ~ accounted ext' l' w) by (intros Ha; apply Hnz; by eapply reach_trans).
    destruct (dc_entry _ _ Hd w f' Hf') as (f0 & Hf0 & Ed & _ & _ & Et & _). rewrite Hf in Hf0. injection Hf0 as <-.
    assert (Htr : is_gc_tracked (data f') = false).
    { destruct (is_gc_tracked (data f')) eqn:E; [|done]. exfalso. apply Hnw, reach_root. right. unfold candidate, col.
      rewrite Hf'. f_equal. apply Et; [done|by rewrite <- Ed]. }
    assert (HwV : w ∉ V).
    { intros Hv. destruct (HVp w Hv) as (g & p & Hg & Hgt & Hkp & Hzp). apply (Hcont w g p Hg Hgt Hkp). by eapply reach_trans. }
    (* It has a parent. *)
    assert (Hext : ext' w = 0) by (destruct (ext' w) eqn:E; [done|]; exfalso; apply Hnw, reach_root; left; unfold held; lia).
    destruct (counted_parent ext' l' w f' Hc' Hf' (Hpos w f' Hf') Hext) as [p Hp]. pose proof (lookup_lt_Some _ _ _ Hf') as Hwl.
    assert (HVle : size ({[w]} ∪ V) <= length l') by (apply size_bounded; intros v [->%elem_of_singleton|Hv]%elem_of_union; auto).
    rewrite size_union, size_singleton in HVle by set_solver.
    eapply (IH ({[w]} ∪ V) p).
    - rewrite size_union, size_singleton by set_solver. lia.
    - by eapply kids_live.
    - intros Ha. apply Hnw. by eapply reach_kid.
    - intros v [->%elem_of_singleton|Hv]%elem_of_union; auto.
    - intros v [->%elem_of_singleton|Hv]%elem_of_union.
      + exists f', p. split_and!; try done. by apply reach_root.
      + destruct (HVp v Hv) as (g & q & Hg & Hgt & Hkq & Hzq). exists g, q. split_and!; try done.
        eapply reach_trans; [|exact Hzq]. eapply reach_trans; [|exact Hwz]. eapply reach_kid; [by apply reach_root|done]. }
  apply (Hgo (S (length l')) ∅ x); [lia|done|done|set_solver|set_solver].
Qed.
End Release.
End Leak.

(** Storing into an entry, allocating, and the references the heap owns keep the
    invariant of the heap when the caller's references balance. *)

Section Ops.
Context {D : Type} `{PayloadLaws D}.

Abbreviation heap := (Heap D).
Abbreviation slots := (list (option (HeapEntry D))).
Implicit Types (l : slots) (h : heap) (e : HeapEntry D) (x y c id : nat) (roots : nat -> nat) (d : D).

(** One for [id]. *)
Definition one id x : nat := if decide (x = id) then 1 else 0.

Lemma occ_nil x : occ x [] = 0.
Proof. done. Qed.

Lemma occ_one x id : occ x [id] = one id x.
Proof. rewrite occ_cons, occ_nil. unfold one. case_decide; lia. Qed.

(** ** Storing into an entry *)

Lemma in_edges_store l id e e' x : l !! id = Some (Some e) ->
  in_edges (<[id := Some e']> l) x + occ x (child_ids (data e)) = in_edges l x + occ x (child_ids (data e')).
Proof.
  intros He. pose proof (in_edges_insert l id (Some e') x ltac:(by apply lookup_lt_Some in He)) as E.
  unfold kids in E. by rewrite He in E.
Qed.

Lemma heap_ok_store roots roots' h l id e e' es :
  heap_ok roots h l -> l !! id = Some (Some e) -> repr es (<[id := Some e']> l) -> color e' = color e ->
  (forall x, roots' x + occ x (child_ids (data e')) + one id x * refcount e
             = roots x + occ x (child_ids (data e)) + one id x * refcount e') ->
  (forall c, c ∈ child_ids (data e') -> live l c) -> (forall x, 0 < roots' x -> live l x) ->
  (weak_index_key (data e) = None \/ weak_index_key (data e') = weak_index_key (data e)) ->
  heap_ok roots' (with_entries es h) (<[id := Some e']> l).
Proof.
  intros [K1 [C1 C2 C3 C4] K3 K4 [W1 W2 W3]] He Hes Ec Hbal Hkids Hroots Hkey. pose proof (lookup_lt_Some _ _ _ He) as Hlt.
  assert (Hlive : forall y, live (<[id := Some e']> l) y <-> live l y) by (intros y; by apply live_insert_same with e).
  assert (Hidx : forall key i, indexed key i l -> indexed key i (<[id := Some e']> l)).
  { intros key i (f & Hf & Hk). unfold indexed. destruct (decide (id = i)) as [<-|Hne].
    - rewrite list_lookup_insert_eq by done. exists e'. split; [done|]. rewrite He in Hf. injection Hf as <-.
      destruct Hkey as [Hkey|Hkey]; congruence.
    - rewrite list_lookup_insert_ne by done. by exists f. }
  split; [done| | | |split; cbn; eauto].
  - split.
    + intros x f Hf. change (owned (with_entries es h) x) with (owned h x). specialize (Hbal x). unfold one in Hbal.
      pose proof (in_edges_store l id e e' x He) as Ee.
      destruct (decide (x = id)) as [->|Hne].
      * rewrite list_lookup_insert_eq in Hf by done. injection Hf as <-. specialize (C1 id e He). lia.
      * rewrite list_lookup_insert_ne in Hf by done. specialize (C1 x f Hf). lia.
    + intros x c Hc. rewrite kids_insert in Hc by done. apply Hlive. case_decide; [by apply Hkids|by eapply C2].
    + by intros x ?%elem_of_nil.
    + intros x Hx. apply Hlive. change (owned (with_entries es h) x) with (owned h x) in Hx.
      destruct (Nat.eq_0_gt_0_cases (roots' x)) as [Hz|Hz]; [apply C4; lia|by apply Hroots].
  - intros x k. rewrite col_insert by done. case_decide as Hd; [|apply K3]. cbn. intros [= <-]. rewrite Ec. apply (K3 id).
    unfold col. by rewrite He.
  - cbn. pose proof (purples_put l id e e' He) as Hp. rewrite Ec in Hp. lia.
Qed.

(** The payload stays: only the counts of the entry move. *)
Lemma heap_ok_count roots h l id e e' es k :
  heap_ok roots h l -> l !! id = Some (Some e) -> repr es (<[id := Some e']> l) -> color e' = color e ->
  data e' = data e -> refcount e' = refcount e + k ->
  heap_ok (fun x => roots x + one id x * k) (with_entries es h) (<[id := Some e']> l).
Proof.
  intros Hok He Hes Ec Ed Er. pose proof (ok_counted _ _ _ Hok) as Hc.
  apply (heap_ok_store roots _ h l id e e' es Hok He Hes Ec).
  - intros x. rewrite Ed, Er. unfold one. case_decide; lia.
  - intros c Hx. apply (ct_kids _ _ _ Hc id). unfold kids. by rewrite He, <- Ed.
  - intros x. unfold one. case_decide as Hx; [subst; intros _; by exists e|]. intros Hp. apply (ct_ext _ _ _ Hc). lia.
  - right. by rewrite Ed.
Qed.

(** ** Allocating *)

(** [l'] is [l] with the entry [e] in the fresh slot [id]. *)
Record grown l id e l' : Prop := {
  gr_fresh : ~ live l id;
  gr_new : l' !! id = Some (Some e);
  gr_keep : forall x, x <> id -> l' !! x = l !! x;
  gr_in : forall x, in_edges l' x = in_edges l x + occ x (child_ids (data e));
  gr_purple : purples l' = purples l + (if bool_decide (color e = Purple) then 1 else 0) }.

Lemma grown_spec l id e l' :
  l !! id = Some None /\ l' = <[id := Some e]> l \/ id = length l /\ l' = l ++ [Some e] -> grown l id e l'.
Proof.
  intros [[Hid ->]|[-> ->]].
  - pose proof (lookup_lt_Some _ _ _ Hid) as Hlt. split.
    + intros [f Hf]. congruence.
    + by rewrite list_lookup_insert_eq.
    + intros x Hx. by rewrite list_lookup_insert_ne.
    + intros x. pose proof (in_edges_insert l id (Some e) x Hlt) as E. unfold kids in E. rewrite Hid in E.
      change (occ x []) with 0 in E. lia.
    + pose proof (slot_sum_insert (fun e => if bool_decide (color e = Purple) then 1 else 0) l id None (Some e) Hid) as E.
      unfold purples. cbn beta iota in E. lia.
  - split.
    + intros [f Hf%lookup_lt_Some]. lia.
    + by rewrite lookup_app_r, Nat.sub_diag by lia.
    + intros x Hx. destruct (decide (x < length l)) as [Hl|Hl]; [by rewrite lookup_app_l|].
      rewrite lookup_app_r, (lookup_ge_None_2 l x) by lia. by destruct (x - length l) eqn:Ex; [lia|].
    + intros x. apply (in_edges_app l (Some e) x).
    + unfold purples. rewrite slot_sum_app. cbn. lia.
Qed.

Section Grown.
Context (l : slots) (id : nat) (e : HeapEntry D) (l' : slots) (Hg : grown l id e l').

Lemma grown_live x : live l' x <-> x = id \/ live l x.
Proof.
  destruct Hg as [G1 G2 G3 _ _]. unfold live. destruct (decide (x = id)) as [->|Hne]; [rewrite G2|rewrite G3 by done]; naive_solver.
Qed.

Lemma grown_old x : live l x -> l' !! x = l !! x.
Proof. intros Hx. apply (gr_keep _ _ _ _ Hg). intros ->. by apply (gr_fresh _ _ _ _ Hg). Qed.

Lemma grown_kids x : kids l' x = if decide (x = id) then child_ids (data e) else kids l x.
Proof.
  unfold kids. case_decide as Hx; [subst; by rewrite (gr_new _ _ _ _ Hg)|]. by rewrite (gr_keep _ _ _ _ Hg).
Qed.

Lemma grown_indexed key i : indexed key i l -> indexed key i l'.
Proof. intros (f & Hf & Hk). exists f. split; [|done]. rewrite grown_old; [done|by exists f]. Qed.
End Grown.

Lemma heap_ok_grow roots roots' h l id e l' es :
  heap_ok roots h l -> grown l id e l' -> repr es l' -> color e = Black -> refcount e = 1 ->
  (forall x, roots' x + occ x (child_ids (data e)) = roots x + one id x) ->
  heap_ok roots' (with_entries es h) l'.
Proof.
  intros [K1 [C1 C2 C3 C4] K3 K4 [W1 W2 W3]] Hg Hes Ec Er Hbal.
  assert (Hlive : forall y, live l' y <-> y = id \/ live l y) by by eapply grown_live.
  assert (Hown : forall x, live l x \/ roots x = 0 /\ owned h x = 0).
  { intros x. destruct (Nat.eq_0_gt_0_cases (roots x + owned h x)) as [Hz|Hz]; [right; lia|left; by apply C4]. }
  assert (Hchild : forall c, c ∈ child_ids (data e) -> live l' c).
  { intros c Hc%occ_pos. apply Hlive. specialize (Hbal c). unfold one in Hbal. case_decide; [by left|].
    right. apply C4. lia. }
  split; [done| | | |].
  - split.
    + intros x f Hf. change (owned (with_entries es h) x) with (owned h x). specialize (Hbal x). unfold one in Hbal.
      rewrite (gr_in _ _ _ _ Hg x). change (occ x []) with 0. destruct (decide (x = id)) as [->|Hne].
      * rewrite (gr_new _ _ _ _ Hg) in Hf. injection Hf as <-.
        destruct (Hown id) as [Hl|[H1 H2]]; [by destruct (gr_fresh _ _ _ _ Hg)|].
        assert (Hz : in_edges l id = 0); [|lia]. apply in_edges_zero. intros i Hi. by destruct (gr_fresh _ _ _ _ Hg); eapply C2.
      * rewrite (gr_keep _ _ _ _ Hg) in Hf by done. specialize (C1 x f Hf). change (occ x []) with 0 in C1. lia.
    + intros x c. rewrite (grown_kids l id e l' Hg). case_decide; [apply Hchild|]. intros Hc. apply Hlive. right. by eapply C2.
    + by intros x ?%elem_of_nil.
    + intros x Hx. change (owned (with_entries es h) x) with (owned h x) in Hx. apply Hlive.
      specialize (Hbal x). unfold one in Hbal. case_decide; [by left|]. right. apply C4. lia.
  - intros x k Hk. unfold col in Hk. destruct (decide (x = id)) as [->|Hne].
    + rewrite (gr_new _ _ _ _ Hg), Ec in Hk. injection Hk as <-. by left.
    + rewrite (gr_keep _ _ _ _ Hg) in Hk by done. by apply (K3 x).
  - cbn. rewrite (gr_purple _ _ _ _ Hg), Ec, bool_decide_false by done. lia.
  - split; cbn; intros k i Hi; eapply grown_indexed; eauto.
Qed.

(** ** The references the heap owns, and the weak indexes *)

(** The slots stay, and references move between the heap and its client. *)
Lemma heap_ok_same roots roots' h h' l :
  heap_ok roots h l -> entries h' = entries h -> purple_count h' = purple_count h -> weak_ok h' l ->
  (forall x, roots' x + owned h' x = roots x + owned h x) -> heap_ok roots' h' l.
Proof.
  intros [K1 [C1 C2 C3 C4] K3 K4 K5] E1 E2 Hw Hsum. split; [by rewrite E1| |done|by rewrite E2|done].
  split; [|done|done|]; intros x; [intros e He|]; rewrite Hsum; [by apply C1|apply C4].
Qed.

Lemma weak_ok_function h l name id :
  weak_ok h l -> indexed (KExtFunction name) id l ->
  weak_ok (with_indexes (<[name := id]> (ext_function_cache h)) (boundary_index h) (host_type_index h) h) l.
Proof. intros [W1 W2 W3] Hi. split; cbn; [|done..]. intros n i [[<- <-]|[_ Hn]]%lookup_insert_Some; auto. Qed.

Lemma weak_ok_boundary h l uuid id :
  weak_ok h l -> indexed (KBoundary uuid) id l ->
  weak_ok (with_indexes (ext_function_cache h) (<[uuid := id]> (boundary_index h)) (host_type_index h) h) l.
Proof. intros [W1 W2 W3] Hi. split; cbn; [done| |done]. intros n i [[<- <-]|[_ Hn]]%lookup_insert_Some; auto. Qed.

Lemma weak_ok_host h l uuid id :
  weak_ok h l -> indexed (KHostType uuid) id l ->
  weak_ok (with_indexes (ext_function_cache h) (boundary_index h) (<[uuid := id]> (host_type_index h)) h) l.
Proof. intros [W1 W2 W3] Hi. split; cbn; [done..|]. intros n i [[<- <-]|[_ Hn]]%lookup_insert_Some; auto. Qed.
End Ops.
