(* ===== verification/CollectorPaint.v ===== *)
(** The two painting passes of the collector, [mark_gray] and [mark_black], as one: both
    walk the graph from an entry, paint what they reach, and change the reference count
    of a child once for every edge to it.  *)
From S2P Require Import Prelude Str Resource StableHeap Heap HeapInv Collector HeapProps.
#[local] Open Scope monty_scope.

Section Paint.
Context {D : Type} `{PayloadLaws D}.

Abbreviation heap := (Heap D).
Abbreviation slots := (list (option (HeapEntry D))).
Implicit Types (l : slots) (h : heap) (e : HeapEntry D) (x y i c : nat).

(** ** Slots that differ in counts and colors only *)

Record framed l l' : Prop := {
  fr_len : length l' = length l;
  fr_live : forall x e, l !! x = Some (Some e) ->
    exists e', l' !! x = Some (Some e') /\ data e' = data e /\ readers e' = readers e;
  fr_dead : forall x, l !! x = Some None -> l' !! x = Some None }.

Lemma framed_refl l : framed l l.
Proof. split; try done. intros x e He. by exists e. Qed.

Lemma framed_trans l1 l2 l3 : framed l1 l2 -> framed l2 l3 -> framed l1 l3.
Proof.
  intros [A1 A2 A3] [B1 B2 B3]. split; [congruence| |auto]. intros x e He.
  destruct (A2 x e He) as (e2 & H2 & E1 & E2). destruct (B2 x e2 H2) as (e3 & H3 & E3 & E4). exists e3. split_and!; congruence.
Qed.

Lemma framed_put l0 l x e e' : framed l0 l -> l !! x = Some (Some e) -> data e' = data e -> readers e' = readers e ->
  framed l0 (<[x := Some e']> l).
Proof.
  intros [A1 A2 A3] He Ed Er. pose proof (lookup_lt_Some _ _ _ He) as Hx. split; [by rewrite length_insert|..].
  - intros y f Hf. destruct (A2 y f Hf) as (f' & Hf' & E1 & E2). destruct (decide (x = y)) as [<-|Hne].
    + rewrite list_lookup_insert_eq by done. rewrite He in Hf'. injection Hf' as <-. exists e'. split_and!; congruence.
    + rewrite list_lookup_insert_ne by done. by exists f'.
  - intros y Hy. destruct (decide (x = y)) as [<-|Hne]; [apply A3 in Hy; congruence|].
    rewrite list_lookup_insert_ne by done. by apply A3.
Qed.

(** What a slot of [l'] was in [l]. *)
Lemma framed_back l l' x e' : framed l l' -> l' !! x = Some (Some e') ->
  exists e, l !! x = Some (Some e) /\ data e' = data e /\ readers e' = readers e.
Proof.
  intros [A1 A2 A3] He'. pose proof (lookup_lt_Some _ _ _ He') as Hx. rewrite A1 in Hx.
  destruct (lookup_lt_is_Some_2 l x Hx) as [[e|] He]; [|apply A3 in He; congruence].
  destruct (A2 x e He) as (e2 & H2 & E1 & E2). rewrite He' in H2. injection H2 as <-. by exists e.
Qed.

Lemma framed_live l l' x : framed l l' -> live l' x <-> live l x.
Proof.
  intros Hf. split; intros [e He].
  - destruct (framed_back l l' x e Hf He) as (e0 & He0 & _). by exists e0.
  - destruct (fr_live _ _ Hf x e He) as (e' & He' & _). by exists e'.
Qed.

Lemma framed_kids l l' x : framed l l' -> kids l' x = kids l x.
Proof.
  intros Hf. unfold kids. destruct (l !! x) as [[e|]|] eqn:He.
  - destruct (fr_live _ _ Hf x e He) as (e' & -> & -> & _). done.
  - by rewrite (fr_dead _ _ Hf x He).
  - rewrite lookup_ge_None_2; [done|]. rewrite (fr_len _ _ Hf). by apply lookup_ge_None.
Qed.

Lemma framed_rds l l' x : framed l l' -> rds l' x = rds l x.
Proof.
  intros Hf. unfold rds. destruct (l !! x) as [[e|]|] eqn:He.
  - destruct (fr_live _ _ Hf x e He) as (e' & -> & _ & ->). done.
  - by rewrite (fr_dead _ _ Hf x He).
  - rewrite lookup_ge_None_2; [done|]. rewrite (fr_len _ _ Hf). by apply lookup_ge_None.
Qed.

(** ** The pass *)

Fixpoint paint_children (upd : nat -> option nat) (C : CcColor) (children work_stack : list nat) : M heap fault (list nat) :=
  match children with
  | [] => sret work_stack
  | child :: children =>
      do e <- read_entry child ;;
      match upd (refcount e) with
      | None => sfail Panicking
      | Some n =>
          put_entry child (set_color C (set_refcount n e)) ;;;
          paint_children upd C children (if bool_decide (color e = C) then work_stack else child :: work_stack)
      end
  end.

Fixpoint paint_loop (upd : nat -> option nat) (C : CcColor) (fuel current : nat) (work_stack : list nat) : M heap fault unit :=
  match fuel with
  | O => sfail NoFuel
  | S fuel =>
      do e <- read_entry current ;;
      do work_stack <- paint_children upd C (child_ids (data e)) work_stack ;;
      match work_stack with
      | [] => sret tt
      | next :: work_stack => paint_loop upd C fuel next work_stack
      end
  end.

Definition less_one (n : nat) : option nat := if n =? 0 then None else Some (n - 1).

Lemma gray_children_paint ch : forall st h, gray_children ch st h = paint_children less_one Gray ch st h.
Proof.
  induction ch as [|c ch IH]; intros st h; [done|]. cbn [gray_children paint_children]. apply sbind_ext; [done|].
  intros e h1. unfold less_one. destruct (refcount e =? 0); [done|]. apply sbind_ext; [done|]. intros _ h2. apply IH.
Qed.

Lemma gray_loop_paint fuel : forall x st h, gray_loop fuel x st h = paint_loop less_one Gray fuel x st h.
Proof.
  induction fuel as [|fuel IH]; intros x st h; [done|]. cbn [gray_loop paint_loop]. apply sbind_ext; [done|].
  intros e h1. apply sbind_ext; [apply gray_children_paint|]. intros [|y st'] h2; [done|apply IH].
Qed.

Lemma black_children_paint ch : forall st h, black_children ch st h = paint_children (fun n => Some (n + 1)) Black ch st h.
Proof.
  induction ch as [|c ch IH]; intros st h; [done|]. cbn [black_children paint_children]. apply sbind_ext; [done|].
  intros e h1. apply sbind_ext; [done|]. intros _ h2. apply IH.
Qed.

Lemma black_loop_paint fuel : forall x st h, black_loop fuel x st h = paint_loop (fun n => Some (n + 1)) Black fuel x st h.
Proof.
  induction fuel as [|fuel IH]; intros x st h; [done|]. cbn [black_loop paint_loop]. apply sbind_ext; [done|].
  intros e h1. apply sbind_ext; [apply black_children_paint|]. intros [|y st'] h2; [done|apply IH].
Qed.

Section Pass.
Context (upd : nat -> option nat) (C : CcColor) (Rel : nat -> nat -> nat -> Prop) (A : nat -> Prop).
Context (l0 ls : slots).
Context (step : forall x r k, A x -> live l0 x -> Rel x r k -> k < in_edges l0 x -> exists r', upd r = Some r' /\ Rel x r' (k + 1)).
Context (closed : forall x c, A x -> c ∈ kids l0 x -> A c /\ live l0 c).

(** [P] is painted with its edges counted; [pend] is painted, its edges are not; of the
    first entry of [pend] the edges to [seen] are counted. *)
Record painting (P : gset nat) (seen pend : list nat) l : Prop := {
  pt_frame : framed l0 l;
  pt_rc : forall x e, l !! x = Some (Some e) -> Rel x (refcount e) (edges P l0 x + occ x seen);
  pt_col : forall x, x ∈ P \/ x ∈ pend -> col l x = Some C;
  pt_only : forall x, A x -> col l x = Some C -> x ∈ P \/ x ∈ pend;
  pt_keep : forall x, x ∉ P -> x ∉ pend -> col l x = col ls x;
  pt_nodup : NoDup pend;
  pt_apart : forall x, x ∈ pend -> x ∉ P;
  pt_area : forall x, x ∈ P \/ x ∈ pend -> A x;
  pt_kids : forall x c, x ∈ P -> c ∈ kids l0 x -> c ∈ P \/ c ∈ pend;
  pt_seen : forall x, x ∈ seen -> x ∈ P \/ x ∈ pend }.

Lemma painting_live P seen pend l x : painting P seen pend l -> x ∈ P \/ x ∈ pend -> live l0 x.
Proof.
  intros Hp Hx. rewrite <- (framed_live l0 l x (pt_frame _ _ _ _ Hp)). eapply col_live. by apply (pt_col _ _ _ _ Hp).
Qed.

(** One child of the current entry. *)
Lemma paint_child P seen cur st l c e todo :
  painting P seen (cur :: st) l -> kids l0 cur = seen ++ c :: todo -> l !! c = Some (Some e) ->
  exists n, upd (refcount e) = Some n
    /\ painting P (seen ++ [c]) (cur :: (if bool_decide (color e = C) then st else c :: st))
         (<[c := Some (set_color C (set_refcount n e))]> l).
Proof.
  intros Hp Hk He. pose proof Hp as [P1 P2 P3 P4 P5 P6 P7 P8 P9 P10].
  pose proof (lookup_lt_Some _ _ _ He) as Hc.
  assert (Hcur : cur ∉ P) by (apply P7; by left).
  assert (Hck : c ∈ kids l0 cur) by (rewrite Hk; set_solver).
  destruct (closed cur c (P8 cur (or_intror (list_elem_of_here _ _))) Hck) as [Ac Lc].
  assert (Hlt : edges P l0 c + occ c seen < in_edges l0 c).
  { pose proof (edges_le ({[cur]} ∪ P) l0 c) as Hle. rewrite edges_add, Hk, occ_app, occ_cons, decide_True in Hle; [lia|done|done|].
    apply live_lt. by apply (painting_live _ _ _ _ _ Hp); right; left. }
  destruct (step c (refcount e) _ Ac Lc (P2 c e He) Hlt) as (n & Hn & Hrel). exists n. split; [done|].
  set (e' := set_color C (set_refcount n e)).
  assert (Hin : color e = C -> c ∈ P \/ c ∈ cur :: st) by (intros Ec; apply P4; [done|]; unfold col; rewrite He; by f_equal).
  assert (Hpend : forall x, x ∈ cur :: (if bool_decide (color e = C) then st else c :: st) <-> x ∈ cur :: st \/ (x = c /\ color e <> C)).
  { intros x. case_bool_decide; set_solver. }
  assert (Hcol : forall x, col (<[c := Some e']> l) x = if decide (x = c) then Some C else col l x).
  { intros x. rewrite col_insert by done. by destruct (decide (x = c)). }
  assert (Hnew : color e <> C -> c ∉ P /\ c ∉ cur :: st).
  { intros Ec. assert (Hcc : col l c = Some (color e)) by (unfold col; by rewrite He).
    split; intros Hx; [pose proof (P3 c (or_introl Hx))|pose proof (P3 c (or_intror Hx))]; congruence. }
  split.
  - by apply (framed_put l0 l c e e').
  - intros x f Hf. destruct (decide (c = x)) as [<-|Hne].
    + rewrite list_lookup_insert_eq in Hf by done. injection Hf as <-. cbn. rewrite occ_app, occ_cons, decide_True by done.
      change (occ c []) with 0. by replace (edges P l0 c + (occ c seen + (1 + 0))) with (edges P l0 c + occ c seen + 1) by lia.
    + rewrite list_lookup_insert_ne in Hf by done. rewrite occ_app, occ_cons, decide_False by done.
      change (occ x []) with 0. rewrite Nat.add_0_r. by apply P2.
  - intros x Hx. rewrite Hcol. destruct (decide (x = c)); [done|]. apply P3. destruct Hx as [Hx|Hx]; [by left|].
    apply Hpend in Hx as [Hx|[? _]]; [by right|done].
  - intros x Ax. rewrite Hcol, Hpend. destruct (decide (x = c)) as [->|Hne]; intros Ex.
    + destruct (decide (color e = C)) as [Ec|Ec]; [specialize (Hin Ec); tauto|tauto].
    + destruct (P4 x Ax Ex); tauto.
  - intros x HxP Hx. rewrite Hpend in Hx. rewrite Hcol. destruct (decide (x = c)) as [->|Hne].
    + destruct (decide (color e = C)) as [Ec|Ec]; [destruct (Hin Ec); tauto|tauto].
    + apply P5; tauto.
  - case_bool_decide as Ec; [done|]. destruct (Hnew Ec) as [_ Hnp]. inversion P6; subst.
    constructor; [set_solver|]. constructor; [set_solver|done].
  - intros x Hx. apply Hpend in Hx as [Hx|[-> Ec]]; [by apply P7|by apply Hnew].
  - intros x Hx. rewrite Hpend in Hx. destruct Hx as [Hx|[Hx|[-> _]]]; [by apply P8; left|by apply P8; right|done].
  - intros x d Hx Hd. rewrite Hpend. destruct (P9 x d Hx Hd); tauto.
  - intros x [Hx| ->%list_elem_of_singleton]%elem_of_app; rewrite Hpend; [destruct (P10 x Hx); tauto|].
    destruct (decide (color e = C)) as [Ec|Ec]; [destruct (Hin Ec); tauto|tauto].
Qed.

Lemma paint_children_ensures P cur h0 : forall todo seen st h l,
  painting P seen (cur :: st) l -> kids l0 cur = seen ++ todo -> repr (entries h) l -> h = with_entries (entries h) h0 ->
  ensures (paint_children upd C todo st) h
    (fun st' h' => exists l', painting P (kids l0 cur) (cur :: st') l' /\ repr (entries h') l' /\ h' = with_entries (entries h') h0
       /\ forall x, x ∈ st -> x ∈ st')
    (fun _ _ => False).
Proof.
  induction todo as [|c todo IH]; intros seen st h l Hp Hk Hr Hh; cbn [paint_children].
  - apply ensures_ret. exists l. rewrite Hk, app_nil_r. done.
  - assert (Hcl : live l c).
    { rewrite (framed_live l0 l c (pt_frame _ _ _ _ Hp)). eapply (closed cur c); [|rewrite Hk; set_solver].
      apply (pt_area _ _ _ _ Hp). right. by left. }
    destruct Hcl as [e He]. apply (ensures_read h l c e); [done..|].
    destruct (paint_child P seen cur st l c e todo Hp Hk He) as (n & -> & Hp').
    apply (ensures_put h l c _ e); [done..|]. intros es Hes. 
    eapply ensures_mono; [eapply (IH (seen ++ [c])); [exact Hp'| |exact Hes|by rewrite Hh]| |done].
    + by rewrite Hk, <- app_assoc.
    + intros st' h' (l' & Q1 & Q2 & Q3 & Q4). exists l'. split_and!; try done. intros x Hx. apply Q4. case_bool_decide; set_solver.
Qed.

(** An entry whose children are done joins the painted ones. *)
Lemma painting_done P cur st l : painting P (kids l0 cur) (cur :: st) l -> painting ({[cur]} ∪ P) [] st l.
Proof.
  intros Hp. pose proof Hp as [P1 P2 P3 P4 P5 P6 P7 P8 P9 P10].
  assert (Hcur : cur ∉ P) by (apply P7; by left). apply NoDup_cons in P6 as [Hn P6].
  assert (Hl : cur < length l0) by (apply live_lt; by apply (painting_live _ _ _ _ _ Hp); right; left).
  assert (Hin : forall x, x ∈ {[cur]} ∪ P \/ x ∈ st <-> x ∈ P \/ x ∈ cur :: st) by set_solver.
  split; try done.
  - intros x e He. rewrite edges_add by done. change (occ x []) with 0. rewrite Nat.add_0_r, Nat.add_comm. by apply P2.
  - intros x. rewrite Hin. apply P3.
  - intros x. rewrite Hin. apply P4.
  - intros x Hx Hs. apply P5; set_solver.
  - intros x Hx. specialize (P7 x). set_solver.
  - intros x. rewrite Hin. apply P8.
  - intros x c Hx Hc. rewrite Hin. apply elem_of_union in Hx as [->%elem_of_singleton|Hx]; [by apply P10|by eapply P9].
  - by intros x ?%elem_of_nil.
Qed.

Lemma size_le (P : gset nat) : (forall x, x ∈ P -> x < length l0) -> size P <= length l0.
Proof.
  intros HP. rewrite <- (size_set_seq (C := gset nat) 0 (length l0)). apply subseteq_size. intros x Hx.
  apply elem_of_set_seq. specialize (HP x Hx). lia.
Qed.

Lemma paint_loop_ensures h0 : forall fuel P cur st h l,
  painting P [] (cur :: st) l -> repr (entries h) l -> h = with_entries (entries h) h0 -> length l0 < fuel + size P ->
  ensures (paint_loop upd C fuel cur st) h
    (fun _ h' => exists P' l', painting P' [] [] l' /\ repr (entries h') l' /\ h' = with_entries (entries h') h0
       /\ P ⊆ P' /\ (forall x, x ∈ cur :: st -> x ∈ P'))
    (fun _ _ => False).
Proof.
  induction fuel as [|fuel IH]; intros P cur st h l Hp Hr Hh Hf.
  - exfalso. pose proof (size_le ({[cur]} ∪ P)) as Hs. rewrite size_union, size_singleton in Hs.
    2: { pose proof (pt_apart _ _ _ _ Hp cur ltac:(by left)). set_solver. }
    assert (1 + size P <= length l0); [|lia]. apply Hs. intros x Hx. apply live_lt, (painting_live _ _ _ _ _ Hp). set_solver.
  - cbn [paint_loop].
    assert (Hcl : live l cur) by (rewrite (framed_live l0 l cur (pt_frame _ _ _ _ Hp)); apply (painting_live _ _ _ _ _ Hp); right; by left).
    destruct Hcl as [e He]. apply (ensures_read h l cur e); [done..|].
    assert (Hk : child_ids (data e) = kids l0 cur).
    { rewrite <- (framed_kids l0 l cur (pt_frame _ _ _ _ Hp)). unfold kids. by rewrite He. }
    rewrite Hk. apply ensures_bind.
    eapply ensures_mono; [by apply (paint_children_ensures P cur h0 (kids l0 cur) [] st h l Hp)| |done].
    intros st' h1 (l1 & Hp1 & Hr1 & Hh1 & Hsub). apply painting_done in Hp1.
    pose proof (pt_apart _ _ _ _ Hp cur ltac:(by left)) as HcP. destruct st' as [|y st'].
    + apply ensures_ret. exists ({[cur]} ∪ P), l1. split_and!; try done; set_solver.
    + eapply ensures_mono; [apply (IH ({[cur]} ∪ P) y st' h1 l1 Hp1 Hr1 Hh1)| |done].
      { rewrite size_union, size_singleton by set_solver. lia. }
      intros _ h2 (P' & l2 & Hp2 & Hr2 & Hh2 & HP & Hst). exists P', l2. split_and!; try done; [set_solver|].
      intros x [->|Hx]%elem_of_cons; [set_solver|]. apply Hst. by apply Hsub.
Qed.
End Pass.
End Paint.

(** The phases of a collection: what marking, scanning and sweeping leave behind. *)

Section Phases.
Context {D : Type} `{PayloadLaws D}.

Abbreviation heap := (Heap D).
Abbreviation slots := (list (option (HeapEntry D))).
Implicit Types (l : slots) (h : heap) (e : HeapEntry D) (x y i c r : nat) (ch st roots : list nat).

(** The slots at the start of the collection. *)
Context (l0 : slots).
Context (enough : forall x, live l0 x -> in_edges l0 x <= rc l0 x).
Context (kids_of : forall x c, c ∈ kids l0 x -> live l0 c).
Context (rest0 : resting l0).

Abbreviation from roots := (reach (fun y => y ∈ roots) l0).

Lemma from_live roots x : (forall r, r ∈ roots -> live l0 r) -> from roots x -> live l0 x.
Proof. intros Hr. by apply reach_closed; [|intros y c _; apply kids_of]. Qed.

(** ** Phase 1: marking *)

(** [P] is gray: the candidates below [N] and all they reach, their edges counted off. *)
Record marked (roots : list nat) (N : nat) (P : gset nat) l : Prop := {
  mk_frame : framed l0 l;
  mk_rc : forall x e, l !! x = Some (Some e) -> refcount e + edges P l0 x = rc l0 x;
  mk_gray : forall x, col l x = Some Gray <-> x ∈ P;
  mk_keep : forall x, x ∉ P -> col l x = col l0 x \/ (col l0 x = Some Purple /\ 0 < rds l0 x /\ col l x = Some Black);
  mk_below : forall x, x < N -> col l x <> Some Purple;
  mk_from : forall x, x ∈ P -> from roots x;
  mk_kids : forall x c, x ∈ P -> c ∈ kids l0 x -> c ∈ P;
  mk_roots : forall r, r ∈ roots -> r ∈ P;
  mk_cand : forall x, x < N -> col l0 x = Some Purple -> rds l0 x = 0 -> x ∈ P }.

Lemma marked_live roots N P l x : marked roots N P l -> x ∈ P -> live l0 x.
Proof.
  intros Hm Hx. rewrite <- (framed_live l0 l x (mk_frame _ _ _ _ Hm)). eapply col_live. by apply (mk_gray _ _ _ _ Hm).
Qed.

Definition gray_rel x (r k : nat) : Prop := r + k = rc l0 x.

Lemma gray_step (A : nat -> Prop) x r k :
  A x -> live l0 x -> gray_rel x r k -> k < in_edges l0 x -> exists r', less_one r = Some r' /\ gray_rel x r' (k + 1).
Proof.
  intros _ Hx Hr Hk. pose proof (enough x Hx). unfold gray_rel in *. exists (r - 1). unfold less_one.
  rewrite (proj2 (Nat.eqb_neq r 0)) by lia. split; [done|lia].
Qed.

Lemma mark_gray_ensures roots N P h l h0 :
  marked roots N P l -> repr (entries h) l -> h = with_entries (entries h) h0 -> col l N = Some Purple ->
  ensures (mark_gray N) h
    (fun _ h' => exists P' l', marked (roots ++ [N]) (N + 1) P' l' /\ repr (entries h') l' /\ h' = with_entries (entries h') h0)
    (fun _ _ => False).
Proof.
  intros Hm Hr Hh Hc. pose proof Hm as [M1 M2 M3 M4 M5 M6 M7 M8 M9]. unfold mark_gray.
  destruct (col_live l N _ Hc) as [e He]. pose proof (lookup_lt_Some _ _ _ He) as HN.
  assert (HNP : N ∉ P) by (rewrite <- M3, Hc; done).
  assert (LN : live l0 N) by (rewrite <- (framed_live l0 l N M1); by exists e).
  set (A := from (roots ++ [N])). set (l1 := <[N := Some (set_color Gray e)]> l).
  assert (Hcol : forall x, col l1 x = if decide (x = N) then Some Gray else col l x) by (intros x; unfold l1; rewrite col_insert by done; by destruct (decide (x = N))).
  assert (HPA : forall x, x ∈ P -> A x).
  { intros x Hx. specialize (M6 x Hx). revert M6. apply reach_mono; [set_solver|done]. }
  assert (Hpt : painting Gray gray_rel A l0 l P [] [N] l1).
  { split.
    - by apply (framed_put l0 l N e).
    - intros x f Hf. change (occ x []) with 0. rewrite Nat.add_0_r. unfold gray_rel. unfold l1 in Hf.
      destruct (decide (N = x)) as [<-|Hne]; [|rewrite list_lookup_insert_ne in Hf by done; by apply M2].
      rewrite list_lookup_insert_eq in Hf by done. injection Hf as <-. exact (M2 N e He).
    - intros x Hx. rewrite Hcol. destruct (decide (x = N)); [done|]. apply M3. set_solver.
    - intros x _. rewrite Hcol. destruct (decide (x = N)); [set_solver|]. rewrite M3. by left.
    - intros x _ Hx. rewrite Hcol. by rewrite decide_False by set_solver.
    - apply NoDup_singleton.
    - by intros x ->%list_elem_of_singleton.
    - intros x [Hx| ->%list_elem_of_singleton]; [by apply HPA|]. apply reach_root. set_solver.
    - intros x c Hx Hk. left. by eapply M7.
    - by intros x ?%elem_of_nil. }
  apply (ensures_read h l N e); [done..|]. apply (ensures_put h l N _ e); [done..|]. intros es Hes.
  apply ensures_bind, ensures_get. cbn [entries with_entries]. rewrite (repr_len _ _ Hes), length_insert, (fr_len _ _ M1).
  unfold ensures. rewrite gray_loop_paint.
  assert (Acl : forall x c, A x -> c ∈ kids l0 x -> A c /\ live l0 c).
  { intros x c Ax Hk. split; [by eapply reach_kid|by eapply kids_of]. }
  eapply ensures_mono; [apply (paint_loop_ensures less_one Gray gray_rel A l0 l (gray_step A) Acl h0 _ _ _ _ (with_entries es h) l1 Hpt Hes); [by rewrite Hh|lia]| |done].
  intros _ h' (P' & l' & [Q1 Q2 Q3 Q4 Q5 Q6 Q7 Q8 Q9 Q10] & Hr' & Hh' & HP & Hin).
  exists P', l'. split; [|done].
  assert (HN' : N ∈ P') by (apply Hin; set_solver).
  assert (Hnil : forall x, x ∉ ([] : list nat)) by (by intros x ?%elem_of_nil).
  assert (Hkeep : forall x, x ∉ P' -> col l' x = col l x) by (intros x Hx; by apply Q5).
  assert (Hg : forall x, col l' x = Some Gray <-> x ∈ P').
  { intros x. split; [|intros Hx; apply Q3; by left]. intros Hx. destruct (decide (x ∈ P')) as [|Hn]; [done|].
    rewrite (Hkeep x Hn) in Hx. apply M3 in Hx. by apply HP. }
  split; try done.
  - intros x f Hf. specialize (Q2 x f Hf). unfold gray_rel in Q2. change (occ x []) with 0 in Q2. lia.
  - intros x Hx. rewrite (Hkeep x Hx). apply M4. set_solver.
  - intros x Hx. destruct (decide (x ∈ P')) as [HxP|HxP]; [rewrite (proj2 (Hg x) HxP); done|].
    rewrite (Hkeep x HxP). apply M5. destruct (decide (x = N)) as [->|]; [done|lia].
  - intros x Hx. apply Q8. by left.
  - intros x c Hx Hk. destruct (Q9 x c Hx Hk) as [|?%elem_of_nil]; done.
  - intros r [Hx| ->%list_elem_of_singleton]%elem_of_app; [by apply HP, M8|done].
  - intros x Hx Hp Hrd. destruct (decide (x = N)) as [->|]; [done|]. apply HP. apply M9; [lia|done..].
Qed.

(** A candidate that is being read is let go. *)
Lemma marked_reader roots N P l e :
  marked roots N P l -> l !! N = Some (Some e) -> color e = Purple -> 0 < readers e ->
  marked roots (N + 1) P (<[N := Some (set_color Black e)]> l).
Proof.
  intros [M1 M2 M3 M4 M5 M6 M7 M8 M9] He Ec Er. pose proof (lookup_lt_Some _ _ _ He) as HN.
  assert (Hc : col l N = Some Purple) by (unfold col; by rewrite He, Ec).
  assert (HNP : N ∉ P) by (rewrite <- M3, Hc; done).
  assert (Hrd : 0 < rds l0 N) by (rewrite <- (framed_rds l0 l N M1); unfold rds; by rewrite He).
  assert (Hcol : forall x, col (<[N := Some (set_color Black e)]> l) x = if decide (x = N) then Some Black else col l x)
    by (intros x; rewrite col_insert by done; by destruct (decide (x = N))).
  split; try done.
  - by apply (framed_put l0 l N e).
  - intros x f Hf. destruct (decide (N = x)) as [<-|Hne]; [|rewrite list_lookup_insert_ne in Hf by done; by apply M2].
    rewrite list_lookup_insert_eq in Hf by done. injection Hf as <-. exact (M2 N e He).
  - intros x. rewrite Hcol. destruct (decide (x = N)) as [->|]; [split; [done|by intros]|apply M3].
  - intros x Hx. rewrite Hcol. destruct (decide (x = N)) as [->|]; [|by apply M4]. right. split_and!; try done.
    destruct (M4 N HNP) as [E|(? & ? & ?)]; [by rewrite <- E|done].
  - intros x Hx. rewrite Hcol. destruct (decide (x = N)) as [->|]; [done|]. apply M5. lia.
  - intros x Hx Hp Hz. destruct (decide (x = N)) as [->|]; [lia|]. apply M9; [lia|done..].
Qed.

(** A slot that is no candidate. *)
Lemma marked_skip roots N P l : marked roots N P l -> col l N <> Some Purple -> marked roots (N + 1) P l.
Proof.
  intros [M1 M2 M3 M4 M5 M6 M7 M8 M9] Hc. split; try done.
  - intros x Hx. destruct (decide (x = N)) as [->|]; [done|]. apply M5. lia.
  - intros x Hx Hp Hz. destruct (decide (x = N)) as [->|]; [|apply M9; [lia|done..]].
    destruct (decide (N ∈ P)) as [|Hn]; [done|]. destruct (M4 N Hn) as [E|(? & ? & ?)]; [congruence|lia].
Qed.

Lemma mark_roots_ensures h0 : forall n N roots P h l,
  marked roots N P l -> repr (entries h) l -> h = with_entries (entries h) h0 -> N + n = length l0 ->
  ensures (mark_roots n N) h
    (fun more h' => exists P' l', marked (roots ++ more) (length l0) P' l' /\ repr (entries h') l' /\ h' = with_entries (entries h') h0)
    (fun _ _ => False).
Proof.
  induction n as [|n IH]; intros N roots P h l Hm Hr Hh HN; cbn [mark_roots].
  { apply ensures_ret. exists P, l. rewrite app_nil_r. replace (length l0) with N by lia. done. }
  assert (HlN : N < length l) by (rewrite (fr_len _ _ (mk_frame _ _ _ _ Hm)); lia).
  destruct (lookup_lt_is_Some_2 l N HlN) as [o Ho]. apply ensures_bind. unfold ensures at 1.
  rewrite (try_entry_ok h l N o Hr Ho).
  destruct o as [e|].
  2: { apply (IH (N + 1) roots P h l); try done; [|lia]. apply marked_skip; [done|]. unfold col. by rewrite Ho. }
  case_bool_decide as Ec.
  - destruct (Nat.ltb_spec 0 (readers e)) as [Er|Er].
    + apply (ensures_put h l N _ e); [done..|]. intros es Hes.
      apply (IH (N + 1) roots P _ (<[N := Some (set_color Black e)]> l)); [by apply marked_reader|exact Hes|by rewrite Hh|lia].
    + apply ensures_bind. eapply ensures_mono; [apply (mark_gray_ensures roots N P h l h0 Hm Hr Hh); unfold col; by rewrite Ho, Ec| |done].
      intros _ h1 (P1 & l1 & Hm1 & Hr1 & Hh1). apply ensures_bind.
      eapply ensures_mono; [apply (IH (N + 1) _ P1 h1 l1 Hm1 Hr1 Hh1); lia| |done].
      intros more h2 (P2 & l2 & Hm2 & Hr2 & Hh2). apply ensures_ret. exists P2, l2.
      split; [|done]. by rewrite <- app_assoc in Hm2.
  - apply (IH (N + 1) roots P h l); try done; [|lia]. apply marked_skip; [done|]. unfold col. rewrite Ho. congruence.
Qed.
End Phases.

(** The second phase of a collection: every gray entry turns black, when something from
    outside holds it, or white. *)

Section Scan.
Context {D : Type} `{PayloadLaws D}.

Abbreviation heap := (Heap D).
Abbreviation slots := (list (option (HeapEntry D))).
Implicit Types (l : slots) (h : heap) (e : HeapEntry D) (x y i c r : nat) (ch st : list nat) (B : gset nat).

(** The slots at the start, the gray region, its roots, and the counts that marking
    left. *)
Context (l0 l1 : slots) (R : gset nat) (roots : list nat) (base : nat -> nat) (h0 : heap).
Context (kids_of : forall x c, c ∈ kids l0 x -> live l0 c).
Context (R_kids : forall x c, x ∈ R -> c ∈ kids l0 x -> c ∈ R).
Context (R_from : forall x, x ∈ R -> reach (fun y => y ∈ roots) l0 x).
Context (R_roots : forall r, r ∈ roots -> r ∈ R).

(** The entries of the region that something outside holds. *)
Definition source s : Prop := s ∈ R /\ (0 < base s \/ 0 < rds l0 s).

Lemma source_region x : reach source l0 x -> x ∈ R.
Proof. apply (reach_closed (fun y => y ∈ R)); [by intros y [? _]|]. intros y c. apply R_kids. Qed.

(** [B] is black again, with its edges counted back; [st] is still to be decided. *)
Record scanned B st l : Prop := {
  sc_frame : framed l0 l;
  sc_rc : forall x e, l !! x = Some (Some e) -> refcount e = base x + edges B l0 x;
  sc_black : forall x, x ∈ R -> col l x = Some Black <-> x ∈ B;
  sc_kids : forall x c, x ∈ B -> c ∈ kids l0 x -> c ∈ B;
  sc_src : forall x, x ∈ B -> reach source l0 x;
  sc_col : forall x, x ∈ R -> col l x = Some Gray \/ col l x = Some White \/ col l x = Some Black;
  sc_out : forall x, x ∉ R -> col l x = col l1 x;
  sc_white : forall x, x ∈ R -> col l x = Some White -> base x = 0 /\ rds l0 x = 0;
  sc_next : forall x c, x ∈ R -> col l x = Some White -> c ∈ kids l0 x -> col l c <> Some Gray \/ c ∈ st;
  sc_roots : forall r, r ∈ roots -> col l r <> Some Gray \/ r ∈ st;
  sc_st : forall x, x ∈ st -> x ∈ R }.

Lemma scanned_live B st l x : scanned B st l -> x ∈ R -> live l x.
Proof. intros Hs Hx. destruct (sc_col _ _ _ Hs x Hx) as [E|[E|E]]; by eapply col_live. Qed.

(** What is black stays out of the white entries' edges. *)
Lemma black_edges B st l x : scanned B st l -> x ∈ R -> col l x <> Some Black -> edges B l0 x = 0.
Proof.
  intros Hs Hx Hc. apply edges_zero. intros i Hi Hk. apply Hc, (sc_black _ _ _ Hs); [done|]. by eapply (sc_kids _ _ _ Hs).
Qed.

Definition black_rel x (r k : nat) : Prop := r = base x + k.

(** ** Resurrecting *)

Lemma mark_black_ensures B x st h l :
  scanned B (x :: st) l -> repr (entries h) l -> h = with_entries (entries h) h0 -> col l x = Some Gray -> source x ->
  ensures (mark_black x) h
    (fun _ h' => exists B' l', scanned B' st l' /\ repr (entries h') l' /\ h' = with_entries (entries h') h0
       /\ forall y, col l' y = Some Gray -> col l y = Some Gray)
    (fun _ _ => False).
Proof.
  intros Hs Hr Hh Hc Hsrc. pose proof Hs as [S1 S2 S3 S4 S5 S6 S7 S8 S9 S10 S11]. unfold mark_black.
  assert (HxR : x ∈ R) by (apply S11; by left). destruct (col_live l x _ Hc) as [e He].
  pose proof (lookup_lt_Some _ _ _ He) as Hx.
  assert (HxB : x ∉ B) by (rewrite <- S3, Hc; done).
  set (l2 := <[x := Some (set_color Black e)]> l).
  assert (Hcol : forall y, col l2 y = if decide (y = x) then Some Black else col l y)
    by (intros y; unfold l2; rewrite col_insert by done; by destruct (decide (y = x))).
  assert (Hpt : painting Black black_rel (reach source l0) l0 l B [] [x] l2).
  { split.
    - by apply (framed_put l0 l x e).
    - intros y f Hf. change (occ y []) with 0. rewrite Nat.add_0_r. unfold black_rel. unfold l2 in Hf.
      destruct (decide (x = y)) as [<-|Hne]; [|rewrite list_lookup_insert_ne in Hf by done; by apply S2].
      rewrite list_lookup_insert_eq in Hf by done. injection Hf as <-. exact (S2 x e He).
    - intros y Hy. rewrite Hcol. destruct (decide (y = x)); [done|]. apply S3; [apply source_region, S5|]; set_solver.
    - intros y Ay. rewrite Hcol. destruct (decide (y = x)) as [->|]; [set_solver|]. rewrite S3 by by apply source_region. by left.
    - intros y _ Hy. rewrite Hcol. by rewrite decide_False by set_solver.
    - apply NoDup_singleton.
    - by intros y ->%list_elem_of_singleton.
    - intros y [Hy| ->%list_elem_of_singleton]; [by apply S5|by apply reach_root].
    - intros y c Hy Hk. left. by eapply S4.
    - by intros y ?%elem_of_nil. }
  apply (ensures_read h l x e); [done..|]. apply (ensures_put h l x _ e); [done..|]. intros es Hes.
  apply ensures_bind, ensures_get. cbn [entries with_entries]. rewrite (repr_len _ _ Hes), length_insert, (fr_len _ _ S1).
  unfold ensures. rewrite black_loop_paint.
  assert (Acl : forall y c, reach source l0 y -> c ∈ kids l0 y -> reach source l0 c /\ live l0 c).
  { intros y c Ay Hk. split; [by eapply reach_kid|by eapply kids_of]. }
  assert (Hstep : forall y r k, reach source l0 y -> live l0 y -> black_rel y r k -> k < in_edges l0 y ->
            exists r', Some (r + 1) = Some r' /\ black_rel y r' (k + 1)).
  { intros y r k _ _ Hb _. exists (r + 1). split; [done|]. unfold black_rel in *. lia. }
  eapply ensures_mono; [apply (paint_loop_ensures (fun n => Some (n + 1)) Black black_rel (reach source l0) l0 l Hstep Acl h0 _ _ _ _ (with_entries es h) l2 Hpt Hes); [by rewrite Hh|lia]| |done].
  intros _ h' (B' & l' & [Q1 Q2 Q3 Q4 Q5 Q6 Q7 Q8 Q9 Q10] & Hr' & Hh' & HB & Hin).
  assert (HxB' : x ∈ B') by (apply Hin; set_solver).
  assert (Hkeep : forall y, y ∉ B' -> col l' y = col l y) by (intros y Hy; apply Q5; [done|]; by intros ?%elem_of_nil).
  assert (Hnew : forall y, y ∈ B' -> col l' y = Some Black) by (intros y Hy; apply Q3; by left).
  assert (HBR : forall y, y ∈ B' -> y ∈ R) by (intros y Hy; apply source_region, Q8; by left).
  assert (Hgray : forall y, col l' y = Some Gray -> col l y = Some Gray).
  { intros y Hy. destruct (decide (y ∈ B')) as [Hb|Hb]; [rewrite (Hnew y Hb) in Hy; done|by rewrite <- (Hkeep y Hb)]. }
  assert (Hwhite : forall y, col l' y = Some White -> col l y = Some White).
  { intros y Hy. destruct (decide (y ∈ B')) as [Hb|Hb]; [rewrite (Hnew y Hb) in Hy; done|by rewrite <- (Hkeep y Hb)]. }
  assert (Hpop : forall y, col l y <> Some Gray \/ y ∈ x :: st -> col l' y <> Some Gray \/ y ∈ st).
  { intros y [Hy|[->|Hy]%elem_of_cons]; [left; auto|left; rewrite (Hnew x HxB'); done|by right]. }
  exists B', l'. split; [|done]. split; try done.
  - intros y f Hf. specialize (Q2 y f Hf). unfold black_rel in Q2. change (occ y []) with 0 in Q2. lia.
  - intros y Hy. split; [|apply Hnew]. intros E. destruct (decide (y ∈ B')) as [|Hb]; [done|].
    rewrite (Hkeep y Hb) in E. by apply HB, S3.
  - intros y c Hy Hk. destruct (Q9 y c Hy Hk) as [|?%elem_of_nil]; done.
  - intros y Hy. apply Q8. by left.
  - intros y Hy. destruct (decide (y ∈ B')) as [Hb|Hb]; [rewrite (Hnew y Hb); tauto|rewrite (Hkeep y Hb); by apply S6].
  - intros y Hy. rewrite (Hkeep y); [by apply S7|]. intros Hb. by apply Hy, HBR.
  - intros y Hy E. by apply S8; [|apply Hwhite].
  - intros y c Hy E Hk. apply Hpop. eapply S9; [exact Hy|by apply Hwhite|exact Hk].
  - intros r Hrt. by apply Hpop, S10.
  - intros y Hy. apply S11. by right.
Qed.

(** ** Condemning *)

Lemma scan_children_ensures h l : repr (entries h) l -> forall ch st,
  (forall c, c ∈ ch -> live l c) ->
  ensures (scan_children ch st) h
    (fun st' h' => h' = h /\ (forall y, y ∈ st' <-> y ∈ st \/ (y ∈ ch /\ col l y = Some Gray)) /\ length st' <= length st + length ch)
    (fun _ _ => False).
Proof.
  intros Hr. induction ch as [|c ch IH]; intros st Hch; cbn [scan_children].
  - apply ensures_ret. split_and!; [done| |cbn; lia]. intros y. rewrite elem_of_nil. tauto.
  - destruct (Hch c ltac:(by left)) as [e He]. apply (ensures_read h l c e); [done..|].
    eapply ensures_mono; [apply IH; intros d Hd; apply Hch; by right| |done].
    assert (Hc : col l c = Some (color e)) by (unfold col; by rewrite He).
    intros st' h' (-> & Hin & Hlen). split_and!; [done| |case_bool_decide; cbn in *; lia].
    intros y. rewrite Hin. case_bool_decide as Ec; rewrite !elem_of_cons.
    + split; [|tauto]. intros [[->|?]|?]; [|tauto..]. right. split; [by left|congruence].
    + split; [tauto|]. intros [?|[[->|?] ?]]; [tauto| |tauto]. congruence.
Qed.

(** An entry that nothing holds turns white; its gray children come next. *)
Lemma scanned_white B x st st' l e :
  scanned B (x :: st) l -> l !! x = Some (Some e) -> color e = Gray -> refcount e = 0 -> readers e = 0 ->
  (forall y, y ∈ st' <-> y ∈ st \/ (y ∈ kids l0 x /\ col (<[x := Some (set_color White e)]> l) y = Some Gray)) ->
  scanned B st' (<[x := Some (set_color White e)]> l).
Proof.
  intros [S1 S2 S3 S4 S5 S6 S7 S8 S9 S10 S11] He Ec Erc Erd Hst.
  assert (HxR : x ∈ R) by (apply S11; by left). pose proof (lookup_lt_Some _ _ _ He) as Hx.
  assert (Hc : col l x = Some Gray) by (unfold col; by rewrite He, Ec).
  assert (HxB : x ∉ B) by (rewrite <- S3, Hc; done).
  set (l' := <[x := Some (set_color White e)]> l) in *.
  assert (Hcol : forall y, col l' y = if decide (y = x) then Some White else col l y)
    by (intros y; unfold l'; rewrite col_insert by done; by destruct (decide (y = x))).
  assert (Hpop : forall y, col l y <> Some Gray \/ y ∈ x :: st -> col l' y <> Some Gray \/ y ∈ st').
  { intros y. rewrite Hcol, Hst. destruct (decide (y = x)) as [->|Hne]; [by left|].
    intros [?|[?|?]%elem_of_cons]; tauto. }
  split; try done.
  - by apply (framed_put l0 l x e).
  - intros y f Hf. unfold l' in Hf. destruct (decide (x = y)) as [<-|Hne]; [|rewrite list_lookup_insert_ne in Hf by done; by apply S2].
    rewrite list_lookup_insert_eq in Hf by done. injection Hf as <-. exact (S2 x e He).
  - intros y Hy. rewrite Hcol. destruct (decide (y = x)) as [->|]; [split; [done|by intros]|by apply S3].
  - intros y Hy. rewrite Hcol. destruct (decide (y = x)); [tauto|by apply S6].
  - intros y Hy. rewrite Hcol. destruct (decide (y = x)) as [->|]; [done|by apply S7].
  - intros y Hy. rewrite Hcol. destruct (decide (y = x)) as [->|]; [|by apply S8]. intros _. split.
    + pose proof (S2 x e He). lia.
    + rewrite <- (framed_rds l0 l x S1). unfold rds. by rewrite He.
  - intros y c Hy. rewrite Hcol. destruct (decide (y = x)) as [->|Hne].
    + intros _ Hk. destruct (decide (col l' c = Some Gray)) as [Eg|Eg]; [|by left]. right. apply Hst. by right.
    + intros E Hk. apply Hpop. by eapply S9.
  - intros r Hrt. by apply Hpop, S10.
  - intros y Hy. apply Hst in Hy as [Hy|[Hy _]]; [apply S11; by right|by eapply R_kids].
Qed.

(** ** The loop *)

Definition gray_fan l : nat := slot_sum (fun e => if bool_decide (color e = Gray) then length (child_ids (data e)) else 0) l.

Lemma slot_sum_mono f l l' : length l' = length l ->
  (forall x e', l' !! x = Some (Some e') -> exists e, l !! x = Some (Some e) /\ f e' <= f e) -> slot_sum f l' <= slot_sum f l.
Proof.
  revert l. induction l' as [|o' l' IH]; intros [|o l] Hl Hf; cbn in Hl; try done. rewrite !slot_sum_cons.
  assert (slot_sum f l' <= slot_sum f l) by (apply IH; [lia|]; intros x e' Hx; exact (Hf (S x) e' Hx)).
  destruct o' as [e'|]; [|lia]. destruct (Hf 0 e' eq_refl) as (e & He & Hle). cbn in He. injection He as ->. lia.
Qed.

Lemma gray_fan_mono l l' : framed l l' -> (forall y, col l' y = Some Gray -> col l y = Some Gray) -> gray_fan l' <= gray_fan l.
Proof.
  intros Hf Hg. apply slot_sum_mono; [apply Hf|]. intros x e' He'. destruct (framed_back l l' x e' Hf He') as (e & He & Ed & _).
  exists e. split; [done|]. case_bool_decide as Ec; [|lia]. specialize (Hg x). unfold col in Hg. rewrite He, He', Ec in Hg.
  rewrite bool_decide_true by (specialize (Hg eq_refl); congruence). by rewrite Ed.
Qed.

Lemma framed_through l l' : framed l0 l -> framed l0 l' -> framed l l'.
Proof.
  intros Hf Hf'. split; [by rewrite (fr_len _ _ Hf'), (fr_len _ _ Hf)|..].
  - intros x e He. destruct (framed_back l0 l x e Hf He) as (e0 & He0 & E1 & E2).
    destruct (fr_live _ _ Hf' x e0 He0) as (e' & He' & E3 & E4). exists e'. split_and!; congruence.
  - intros x Hx. apply (fr_dead _ _ Hf'). assert (Hlt : x < length l0) by (rewrite <- (fr_len _ _ Hf); by apply lookup_lt_Some in Hx).
    destruct (lookup_lt_is_Some_2 l0 x Hlt) as [[e|] He]; [|done]. destruct (fr_live _ _ Hf x e He) as (e' & ? & _). congruence.
Qed.

Lemma scan_loop_ensures : forall fuel B st h l,
  scanned B st l -> repr (entries h) l -> h = with_entries (entries h) h0 -> length st + gray_fan l < fuel ->
  ensures (scan_loop fuel st) h
    (fun _ h' => exists B' l', scanned B' [] l' /\ repr (entries h') l' /\ h' = with_entries (entries h') h0)
    (fun _ _ => False).
Proof.
  induction fuel as [|fuel IH]; intros B st h l Hs Hr Hh Hf; [lia|]. cbn [scan_loop]. destruct st as [|x st].
  { apply ensures_ret. by exists B, l. }
  pose proof (sc_st _ _ _ Hs x ltac:(by left)) as HxR. destruct (scanned_live _ _ _ x Hs HxR) as [e He].
  assert (Hc : col l x = Some (color e)) by (unfold col; by rewrite He). pose proof (lookup_lt_Some _ _ _ He) as Hlt.
  apply (ensures_read h l x e); [done..|]. cbn in Hf. case_bool_decide as Ec.
  - destruct ((refcount e =? 0) && (readers e =? 0)) eqn:Ez.
    + apply andb_true_iff in Ez as [Ez1%Nat.eqb_eq Ez2%Nat.eqb_eq].
      apply (ensures_put h l x _ e); [done..|]. intros es Hes. apply ensures_bind.
      assert (Hk : child_ids (data e) = kids l0 x).
      { rewrite <- (framed_kids l0 l x (sc_frame _ _ _ Hs)). unfold kids. by rewrite He. }
      eapply ensures_mono; [apply (scan_children_ensures (with_entries es h) (<[x := Some (set_color White e)]> l) Hes)| |done].
      { intros c Hcc. rewrite Hk in Hcc. apply (live_insert_same l x _ e c He). rewrite (framed_live l0 l c (sc_frame _ _ _ Hs)). by eapply kids_of. }
      intros st' h' (-> & Hin & Hlen). rewrite Hk in Hin.
      apply (IH B st' _ (<[x := Some (set_color White e)]> l)); [by apply (scanned_white B x st)|exact Hes|by rewrite Hh|].
      pose proof (slot_sum_insert (fun e => if bool_decide (color e = Gray) then length (child_ids (data e)) else 0) l x (Some e)
                    (Some (set_color White e)) He) as Hsum.
      cbn [color set_color] in Hsum. rewrite (bool_decide_true (color e = Gray)) in Hsum by done.
      rewrite (bool_decide_false (White = Gray)) in Hsum by done. unfold gray_fan in *. lia.
    + assert (Hsrc : source x).
      { split; [done|]. pose proof (sc_rc _ _ _ Hs x e He) as Hrc.
        rewrite (black_edges _ _ _ x Hs HxR) in Hrc by (rewrite Hc, Ec; done).
        apply andb_false_iff in Ez as [Ez%Nat.eqb_neq|Ez%Nat.eqb_neq]; [left; lia|right].
        rewrite <- (framed_rds l0 l x (sc_frame _ _ _ Hs)). unfold rds. rewrite He. lia. }
      apply ensures_bind. eapply ensures_mono; [apply (mark_black_ensures B x st h l Hs Hr Hh); [by rewrite Hc, Ec|done]| |done].
      intros _ h1 (B1 & l1' & Hs1 & Hr1 & Hh1 & Hg). apply (IH B1 st h1 l1'); try done.
      pose proof (gray_fan_mono l l1' (framed_through l l1' (sc_frame _ _ _ Hs) (sc_frame _ _ _ Hs1)) Hg). lia.
  - apply (IH B st h l); try done; [|lia]. destruct Hs as [S1 S2 S3 S4 S5 S6 S7 S8 S9 S10 S11].
    assert (Hpop : forall y, col l y <> Some Gray \/ y ∈ x :: st -> col l y <> Some Gray \/ y ∈ st).
    { intros y [?|[->|?]%elem_of_cons]; [tauto| |tauto]. left. congruence. }
    split; try done; eauto.
    intros y Hy. apply S11. by right.
Qed.

(** When nothing is left to decide, nothing is gray. *)
Lemma scanned_done B l x : scanned B [] l -> x ∈ R -> x ∉ B -> col l x = Some White.
Proof.
  intros Hs HxR HxB. pose proof Hs as [S1 S2 S3 S4 S5 S6 S7 S8 S9 S10 S11].
  assert (Hall : x ∈ R /\ col l x <> Some Gray).
  { apply (reach_closed (fun y => y ∈ R /\ col l y <> Some Gray) (fun y => y ∈ roots) l0); [| |by apply R_from].
    - intros r Hrt. split; [by apply R_roots|]. destruct (S10 r Hrt) as [|?%elem_of_nil]; done.
    - intros y c [Hy Hny] Hk. split; [by eapply R_kids|]. destruct (S6 y Hy) as [|[Ew|Eb]]; [done|..].
      + destruct (S9 y c Hy Ew Hk) as [|?%elem_of_nil]; done.
      + apply S3 in Eb; [|done]. rewrite (proj2 (S3 c (R_kids y c Hy Hk)) (S4 y c Eb Hk)). done. }
  destruct Hall as [_ Hng]. destruct (S6 x HxR) as [|[|E]]; [done..|]. by apply S3 in E.
Qed.
End Scan.
