(* ===== verification/CollectorProps.v ===== *)
(** A whole collection: it frees the garbage that the candidates reach and nothing else,
    and leaves every count right. *)
From S2P Require Import Prelude Str Resource StableHeap Heap HeapInv HeapProps Collector CollectorPaint.
Local Open Scope monty_scope.

Section Sweep.
Context {D : Type} `{PayloadLaws D}.

Abbreviation heap := (Heap D).
Abbreviation slots := (list (option (HeapEntry D))).
Implicit Types (l : slots) (h : heap) (e : HeapEntry D) (x y i c r : nat) (st : list nat) (F : gset nat).

(** The slots and the heap after the scan. *)
Context (l2 : slots) (roots : list nat) (h2 : heap).
Context (kids_of : forall x c, c ∈ kids l2 x -> live l2 c).
Context (unread : forall x, col l2 x = Some White -> rds l2 x = 0).

Abbreviation white x := (col l2 x = Some White).

(** [F] is freed. *)
Record sweeping F st h l : Prop := {
  sw_repr : repr (entries h) l;
  sw_len : length l = length l2;
  sw_keep : forall x, x ∉ F -> l !! x = l2 !! x;
  sw_dead : forall x, x ∈ F -> l !! x = Some None;
  sw_white : forall x, x ∈ F -> white x;
  sw_roots : forall r, r ∈ roots -> white r -> r ∈ F \/ r ∈ st;
  sw_kids : forall x c, x ∈ F -> c ∈ kids l2 x -> white c -> c ∈ F \/ c ∈ st;
  sw_st : forall x, x ∈ st -> x < length l2;
  sw_count : slot_sum (fun _ => 1) l + size F = slot_sum (fun _ => 1) l2;
  sw_weak : weak_ok h l;
  sw_rest : same_rest h2 h }.

(** A pop that frees nothing. *)
Lemma sweeping_pop F x st h l : sweeping F (x :: st) h l -> (white x -> x ∈ F) -> sweeping F st h l.
Proof.
  intros [S1 S2 S3 S4 S5 S6 S7 S8 S9 S10 S11] Hx. split; try done.
  - intros r Hr Hw. destruct (S6 r Hr Hw) as [?|[->|?]%elem_of_cons]; auto.
  - intros y c Hy Hc Hw. destruct (S7 y c Hy Hc Hw) as [?|[->|?]%elem_of_cons]; auto.
  - intros y Hy. apply S8. by right.
Qed.

(** A white entry is freed, and its children come next. *)
Lemma sweeping_free F x st h l e es :
  sweeping F (x :: st) h l -> l !! x = Some (Some e) -> white x -> repr es (<[x := None]> l) ->
  sweeping ({[x]} ∪ F) (rev (dec_ref_ids (data e)) ++ st)
    (remove_weak_index_entry (weak_index_key (data e)) x (with_entries es h)) (<[x := None]> l).
Proof.
  intros [S1 S2 S3 S4 S5 S6 S7 S8 S9 S10 S11] He Hw Hes. pose proof (lookup_lt_Some _ _ _ He) as Hlt.
  assert (HxF : x ∉ F) by (intros HF; rewrite (S4 x HF) in He; done).
  assert (Hk : forall c, c ∈ rev (dec_ref_ids (data e)) <-> c ∈ kids l2 x).
  { intros c. rewrite <- Permutation_rev, walkers_agree. unfold kids. by rewrite <- (S3 x HxF), He. }
  split.
  - destruct (weak_index_key (data e)) as [[]|]; cbn; repeat case_bool_decide; done.
  - by rewrite length_insert.
  - intros y Hy. rewrite list_lookup_insert_ne by set_solver. apply S3. set_solver.
  - intros y Hy. destruct (decide (x = y)) as [<-|Hne]; [by rewrite list_lookup_insert_eq|].
    rewrite list_lookup_insert_ne by done. apply S4. set_solver.
  - intros y [->%elem_of_singleton|Hy]%elem_of_union; [done|by apply S5].
  - intros r Hr Hwr. destruct (S6 r Hr Hwr) as [?|[->|?]%elem_of_cons]; set_solver.
  - intros y c [->%elem_of_singleton|Hy]%elem_of_union Hc Hwc; [right; apply elem_of_app; left; by apply Hk|].
    destruct (S7 y c Hy Hc Hwc) as [?|[->|?]%elem_of_cons]; set_solver.
  - intros y [Hy|Hy]%elem_of_app; [apply Hk in Hy; by apply live_lt, (kids_of x)|apply S8; by right].
  - pose proof (slot_sum_insert (fun _ => 1) l x (Some e) None He) as Hs. rewrite size_union, size_singleton by set_solver.
    cbn in Hs. lia.
  - apply weak_ok_free; [done|]. by destruct S10.
  - apply same_rest_weak. by destruct S11.
Qed.

Lemma collect_white_loop_ensures : forall fuel F st h l,
  sweeping F st h l -> length st + slot_sum (fun e => length (dec_ref_ids (data e))) l < fuel ->
  ensures (collect_white_loop fuel st (size F)) h
    (fun n h' => exists F' l', sweeping F' [] h' l' /\ n = size F') (fun _ _ => False).
Proof.
  induction fuel as [|fuel IH]; intros F st h l Hs Hf; [lia|]. cbn [collect_white_loop]. destruct st as [|x st].
  { apply ensures_ret. by exists F, l. }
  pose proof Hs as [S1 S2 S3 S4 S5 S6 S7 S8 S9 S10 S11]. cbn in Hf.
  assert (Hx : x < length l) by (rewrite S2; apply S8; by left). destruct (lookup_lt_is_Some_2 l x Hx) as [o Ho].
  apply ensures_bind, ensures_get, ensures_bind. unfold ensures at 1, slift. rewrite (entry_ok _ _ _ _ S1 Ho).
  assert (HFo : x ∈ F \/ (x ∉ F /\ l2 !! x = Some o)).
  { destruct (decide (x ∈ F)) as [|Hn]; [by left|right]. by rewrite <- (S3 x Hn). }
  destruct o as [e|].
  2: { apply (IH F st h l); [|lia]. apply sweeping_pop with x; [done|]. intros Hw. destruct HFo as [|[_ E]]; [done|].
       unfold col in Hw. by rewrite E in Hw. }
  destruct HFo as [HF|[HF E]]; [rewrite (S4 x HF) in Ho; done|].
  case_bool_decide as Ec.
  - assert (Hw : white x) by (unfold col; rewrite E; congruence).
    assert (Hrd : readers e = 0) by (specialize (unread x Hw); unfold rds in unread; by rewrite E in unread).
    rewrite Hrd, Nat.eqb_refl. apply (ensures_free h l x e); [done..|]. intros es Hes. apply ensures_modify_then.
    replace (size F + 1) with (size ({[x]} ∪ F)) by (rewrite size_union, size_singleton by set_solver; lia).
    eapply (IH ({[x]} ∪ F)); [by apply sweeping_free|].
    pose proof (slot_sum_insert (fun e => length (dec_ref_ids (data e))) l x (Some e) None Ho) as Hsum. cbn beta iota in Hsum.
    rewrite length_app, length_rev. lia.
  - apply (IH F st h l); [|lia]. apply sweeping_pop with x; [done|]. intros Hw. unfold col in Hw. rewrite E in Hw. congruence.
Qed.

Lemma collect_white_ensures h : repr (entries h) l2 -> weak_ok h l2 -> same_rest h2 h -> (forall r, r ∈ roots -> r < length l2) ->
  ensures (collect_white roots) h (fun n h' => exists F l', sweeping F [] h' l' /\ n = size F) (fun _ _ => False).
Proof.
  intros Hr Hw Hrest Hrt. unfold collect_white. apply ensures_bind, ensures_get.
  assert (Hs : sweeping ∅ (rev roots) h l2).
  { assert (Hin : forall r, r ∈ rev roots <-> r ∈ roots) by (intros r; by rewrite <- Permutation_rev).
    split; try done; set_solver. }
  apply (collect_white_loop_ensures _ ∅ (rev roots) h l2 Hs). rewrite length_rev.
  pose proof (slot_sum_fuel (fun e => length (dec_ref_ids (data e))) _ _ Hr). lia.
Qed.

(** Everything white that the roots reach through white is freed. *)
Lemma swept F h l x : sweeping F [] h l ->
  reach (fun r => r ∈ roots) l2 x -> (forall y c, reach (fun r => r ∈ roots) l2 y -> c ∈ kids l2 y -> white c -> white y) ->
  white x -> x ∈ F.
Proof.
  intros [S1 S2 S3 S4 S5 S6 S7 S8 S9 S10 S11] Hreach Hback. induction Hreach as [x Hx|x c Hx IH Hc]; intros Hw.
  - destruct (S6 x Hx Hw) as [|?%elem_of_nil]; done.
  - destruct (S7 x c (IH (Hback x c Hx Hc Hw)) Hc Hw) as [|?%elem_of_nil]; done.
Qed.
End Sweep.

(** ** The collection *)

Section Collection.
Context {D : Type} `{PayloadLaws D}.

Abbreviation heap := (Heap D).
Abbreviation slots := (list (option (HeapEntry D))).
Implicit Types (l : slots) (h : heap) (e : HeapEntry D) (x y i c r : nat) (roots ext : nat -> nat).

(** In use: held from outside the graph, or being read, or reached from there. *)
Definition in_use ext l : nat -> Prop := reach (fun y => 0 < ext y \/ 0 < rds l y) l.

(** Every entry that is not in use is reached from a candidate. *)
Definition enrolled ext l : Prop := forall x, live l x -> in_use ext l x \/ reach (candidate l) l x.

(** What a collection of [l] leaves. *)
Record collected ext l l' : Prop := {
  cl_len : length l' = length l;
  cl_keep : forall x e, l !! x = Some (Some e) -> in_use ext l x ->
    exists e', l' !! x = Some (Some e') /\ data e' = data e /\ readers e' = readers e;
  cl_old : forall x e', l' !! x = Some (Some e') -> exists e, l !! x = Some (Some e) /\ data e' = data e /\ readers e' = readers e;
  cl_black : forall x e', l' !! x = Some (Some e') -> color e' = Black;
  cl_all : enrolled ext l -> forall x, live l' x -> in_use ext l x }.

Lemma in_edges_part (S : gset nat) l l' x : length l' = length l ->
  (forall i, i < length l -> kids l' i = if bool_decide (i ∈ S) then kids l i else []) -> in_edges l' x = edges S l x.
Proof.
  intros El Ek. unfold in_edges, edges. rewrite El. apply sum_map_ext. intros i Hi%elem_of_slots. rewrite Ek by done.
  by case_bool_decide.
Qed.

(** The outcome of the three phases, put together. *)
Section Outcome.
Context (ext : nat -> nat) (l l1 l2 l' : slots) (roots : list nat) (R B F : gset nat) (h h2 h' : heap).
Context (Hc : counted ext [] l) (Hrest : resting l).
Context (Hm : marked l roots (length l) R l1).
Context (Hs : scanned l l1 R roots (rc l1) B [] l2).
Context (Hw : sweeping l2 roots h2 F [] h' l').

Abbreviation base := (rc l1).
Definition outside : gset nat := set_seq 0 (length l) ∖ R.

Lemma oc_base x : live l x -> base x = ext x + edges outside l x.
Proof.
  intros [e He]. destruct (fr_live _ _ (mk_frame _ _ _ _ _ Hm) x e He) as (e1 & He1 & _ & _).
  pose proof (mk_rc _ _ _ _ _ Hm x e1 He1) as E1. pose proof (ct_rc _ _ _ Hc x e He) as E2.
  pose proof (edges_split R l x) as E3. unfold rc in *. rewrite He in E1. rewrite He1. change (occ x []) with 0 in E2.
  fold outside in E3. lia.
Qed.

Lemma oc_R_live x : x ∈ R -> live l x.
Proof. intros Hx. by eapply marked_live. Qed.

Lemma oc_region x : x ∈ R -> x ∉ B -> col l2 x = Some White.
Proof.
  intros Hx HB. eapply (scanned_done l l1 R roots base); [apply (mk_kids _ _ _ _ _ Hm)|apply (mk_from _ _ _ _ _ Hm)|apply (mk_roots _ _ _ _ _ Hm)|exact Hs|done..].
Qed.

(** Outside the region nothing was candidate or gray. *)
Lemma oc_outside x (k : CcColor) : x ∉ R -> col l2 x = Some k -> k = Black.
Proof.
  intros Hx Ec. rewrite (sc_out _ _ _ _ _ _ _ _ Hs x Hx) in Ec.
  assert (Hlt : x < length l).
  { rewrite <- (fr_len _ _ (mk_frame _ _ _ _ _ Hm)). by apply live_lt, (col_live _ _ k). }
  pose proof (mk_below _ _ _ _ _ Hm x Hlt) as Hnp.
  destruct (mk_keep _ _ _ _ _ Hm x Hx) as [E|(_ & _ & E)]; [|congruence]. rewrite E in Ec.
  destruct (Hrest x k Ec) as [| ->]; [done|]. by rewrite E in Hnp.
Qed.

Lemma oc_white x : col l2 x = Some White -> x ∈ R /\ x ∉ B /\ base x = 0 /\ rds l x = 0.
Proof.
  intros Hx. assert (HxR : x ∈ R) by (destruct (decide (x ∈ R)) as [|Hn]; [done|]; pose proof (oc_outside x _ Hn Hx); done).
  split; [done|]. split; [|by apply (sc_white _ _ _ _ _ _ _ _ Hs)].
  intros HB. apply (sc_black _ _ _ _ _ _ _ _ Hs) in HB; [congruence|done].
Qed.

Lemma oc_kids x : kids l2 x = kids l x.
Proof. apply framed_kids. apply Hs. Qed.

(** A white entry has white parents only. *)
Lemma oc_parents y c : c ∈ kids l y -> col l2 c = Some White -> col l2 y = Some White.
Proof.
  intros Hk Hcw. destruct (oc_white c Hcw) as (HcR & HcB & Hb & _). destruct (decide (y ∈ R)) as [HyR|HyR].
  - apply oc_region; [done|]. intros HyB. apply HcB. by eapply (sc_kids _ _ _ _ _ _ _ _ Hs).
  - exfalso. pose proof (kids_live _ _ _ Hk) as Hy. rewrite (oc_base c) in Hb by by eapply (ct_kids _ _ _ Hc).
    assert (Hz : edges outside l c = 0) by lia. rewrite edges_zero in Hz. apply (Hz y); [|done].
    unfold outside. apply elem_of_difference. split; [|done]. apply elem_of_set_seq. pose proof (live_lt _ _ Hy). lia.
Qed.

Lemma oc_freed x : x ∈ F <-> col l2 x = Some White.
Proof.
  split; [apply Hw|]. intros Hx. destruct (oc_white x Hx) as (HxR & _).
  apply (swept l2 roots h2 F h' l' x Hw); [| |done].
  - pose proof (mk_from _ _ _ _ _ Hm x HxR) as Hf. revert Hf. apply reach_mono; [done|]. intros y c _. by rewrite oc_kids.
  - intros y c _. rewrite oc_kids. apply oc_parents.
Qed.

Lemma oc_kids' i : i < length l -> kids l' i = if bool_decide (i ∈ outside ∪ B) then kids l i else [].
Proof.
  intros Hi. destruct (decide (i ∈ F)) as [HF|HF].
  - pose proof (proj1 (oc_freed i) HF) as Hwh. destruct (oc_white i Hwh) as (HiR & HiB & _).
    rewrite bool_decide_false; [|unfold outside; set_solver]. unfold kids. by rewrite (sw_dead _ _ _ _ _ _ _ Hw i HF).
  - rewrite bool_decide_true.
    + rewrite <- oc_kids. unfold kids. by rewrite (sw_keep _ _ _ _ _ _ _ Hw i HF).
    + apply elem_of_union. destruct (decide (i ∈ R)) as [HR|HR].
      * right. destruct (decide (i ∈ B)) as [|HB]; [done|]. destruct HF. apply oc_freed. by apply oc_region.
      * left. unfold outside. apply elem_of_difference. split; [apply elem_of_set_seq; lia|done].
Qed.

Lemma oc_len : length l' = length l.
Proof. rewrite (sw_len _ _ _ _ _ _ _ Hw). apply Hs. Qed.

Lemma oc_alive x e' : l' !! x = Some (Some e') -> x ∉ F /\ l2 !! x = Some (Some e').
Proof.
  intros He. assert (HF : x ∉ F) by (intros HF; rewrite (sw_dead _ _ _ _ _ _ _ Hw x HF) in He; done).
  split; [done|]. by rewrite <- (sw_keep _ _ _ _ _ _ _ Hw x HF).
Qed.

(** What is in use is not white. *)
Lemma oc_used x : in_use ext l x -> x ∉ F.
Proof.
  rewrite oc_freed. induction 1 as [x [Hx|Hx]|x c _ IH Hk]; intros Hwh; [| |by eapply IH, oc_parents].
  - destruct (oc_white x Hwh) as (_ & _ & Hb & _). rewrite (oc_base x) in Hb by by apply (ct_ext _ _ _ Hc). lia.
  - destruct (oc_white x Hwh) as (_ & _ & _ & Hr). lia.
Qed.

Lemma oc_counted : counted ext [] l'.
Proof.
  pose proof (sc_frame _ _ _ _ _ _ _ _ Hs) as Hfr.
  assert (Hdis : outside ## B).
  { intros x Hx HB. apply elem_of_difference in Hx as [_ Hx]. apply Hx.
    apply (source_region l R (rc l1)); [apply (mk_kids _ _ _ _ _ Hm)|]. by apply (sc_src _ _ _ _ _ _ _ _ Hs). }
  assert (Hlive : forall x, x ∉ F -> live l x -> live l' x).
  { intros x HF Hl. rewrite <- (framed_live l l2 x Hfr) in Hl. destruct Hl as [e He]. exists e. by rewrite (sw_keep _ _ _ _ _ _ _ Hw x HF). }
  split.
  - intros x e He. destruct (oc_alive x e He) as [HF He2]. rewrite (sc_rc _ _ _ _ _ _ _ _ Hs x e He2).
    rewrite (in_edges_part (outside ∪ B) l l' x oc_len oc_kids'), (edges_disjoint _ _ _ _ Hdis), oc_base.
    + change (occ x []) with 0. lia.
    + rewrite <- (framed_live l l2 x Hfr). by exists e.
  - intros y c Hk. pose proof (kids_live _ _ _ Hk) as [e He]. destruct (oc_alive y e He) as [HF He2].
    assert (Hk2 : c ∈ kids l y) by (rewrite <- oc_kids; unfold kids in *; by rewrite He2; rewrite He in Hk).
    apply Hlive; [|by eapply (ct_kids _ _ _ Hc)]. rewrite oc_freed in HF |- *. intros Hwh. by eapply HF, oc_parents.
  - by intros x ?%elem_of_nil.
  - intros x Hx. apply Hlive; [|by apply (ct_ext _ _ _ Hc)]. apply oc_used, reach_root. by left.
Qed.

Lemma oc_collected : collected ext l l'.
Proof.
  pose proof (sc_frame _ _ _ _ _ _ _ _ Hs) as Hfr. split.
  - apply oc_len.
  - intros x e He Hu. destruct (fr_live _ _ Hfr x e He) as (e' & He' & Ed). exists e'. split; [|done].
    by rewrite (sw_keep _ _ _ _ _ _ _ Hw x (oc_used x Hu)).
  - intros x e' He'. destruct (oc_alive x e' He') as [_ He2]. by apply (framed_back l l2).
  - intros x e' He'. destruct (oc_alive x e' He') as [HF He2].
    assert (Ec : col l2 x = Some (color e')) by (unfold col; by rewrite He2).
    destruct (decide (x ∈ R)) as [HR|HR]; [|by apply (oc_outside x)]. destruct (decide (x ∈ B)) as [HB|HB].
    + apply (sc_black _ _ _ _ _ _ _ _ Hs) in HB; [congruence|done].
    + destruct HF. apply oc_freed. by apply oc_region.
  - intros Henr.
    assert (Hin : forall x, live l x -> in_use ext l x \/ x ∈ R).
    { intros x Hx. destruct (Henr x Hx) as [|Hp]; [by left|]. apply reach_split in Hp as (p & Hp & Hpx).
      destruct (Nat.eq_0_gt_0_cases (rds l p)) as [Hz|Hz].
      - right. assert (HpR : p ∈ R) by (apply (mk_cand _ _ _ _ _ Hm); [by apply live_lt, (col_live _ _ Purple)|done..]).
        revert Hpx. apply (reach_closed (fun y => y ∈ R)); [by intros y <-|]. intros y c. apply (mk_kids _ _ _ _ _ Hm).
      - left. eapply reach_trans; [|exact Hpx]. apply reach_root. by right. }
    intros x [e' He']. destruct (oc_alive x e' He') as [HF He2].
    assert (Hl : live l x) by (rewrite <- (framed_live l l2 x Hfr); by exists e').
    destruct (Hin x Hl) as [|HxR]; [done|]. destruct (decide (x ∈ B)) as [HB|HB].
    2: { destruct HF. apply oc_freed. by apply oc_region. }
    pose proof (sc_src _ _ _ _ _ _ _ _ Hs x HB) as Hsrc. apply reach_split in Hsrc as (s & [HsR Hs0] & Hsx).
    eapply reach_trans; [|exact Hsx]. destruct Hs0 as [Hb|Hr]; [|apply reach_root; by right].
    rewrite (oc_base s) in Hb by by apply oc_R_live. destruct (Nat.eq_0_gt_0_cases (ext s)) as [Hz|Hz]; [|apply reach_root; by left].
    destruct (decide (edges outside l s = 0)) as [|Hne]; [lia|]. rewrite edges_zero in Hne.
    destruct (decide (Exists (fun i => s ∈ kids l i) (elements outside))) as [Hex|Hnex].
    + apply Exists_exists in Hex as (i & Hi & Hk). apply elem_of_elements in Hi. apply elem_of_difference in Hi as [_ Hi].
      eapply reach_kid; [|exact Hk]. destruct (Hin i (kids_live _ _ _ Hk)); done.
    + destruct Hne. intros i Hi Hk. apply Hnex. apply Exists_exists. exists i. split; [by apply elem_of_elements|done].
Qed.
End Outcome.

Lemma weak_ok_framed h h' l l' : framed l l' -> ext_function_cache h' = ext_function_cache h ->
  boundary_index h' = boundary_index h -> host_type_index h' = host_type_index h -> weak_ok h l -> weak_ok h' l'.
Proof.
  intros Hf E1 E2 E3 [W1 W2 W3].
  assert (Hi : forall key i, indexed key i l -> indexed key i l').
  { intros key i (e & He & Hk). destruct (fr_live _ _ Hf i e He) as (e' & He' & Ed & _). exists e'. by rewrite Ed. }
  split; rewrite ?E1, ?E2, ?E3; eauto.
Qed.

Lemma marked_start l : resting l -> marked l [] 0 ∅ l.
Proof.
  intros Hr. split; try set_solver.
  - apply framed_refl.
  - intros x e He. rewrite edges_empty. unfold rc. rewrite He. lia.
  - intros x. split; [|set_solver]. intros Hg. by destruct (Hr x Gray Hg).
  - lia.
  - lia.
Qed.

Lemma scanned_start l (roots : list nat) R l1 : marked l roots (length l) R l1 -> scanned l l1 R roots (rc l1) ∅ (rev roots) l1.
Proof.
  intros Hm. pose proof Hm as [M1 M2 M3 M4 M5 M6 M7 M8 M9].
  assert (Hg : forall x k, x ∈ R -> col l1 x = Some k -> k = Gray) by (intros x k Hx Ek; apply M3 in Hx; congruence).
  assert (He : forall x, x ∉ (∅ : gset nat)) by apply not_elem_of_empty.
  split.
  - done.
  - intros x e Hx. rewrite edges_empty. unfold rc. rewrite Hx. lia.
  - intros x Hx. split; [|by intros ?%He]. intros Hb. by pose proof (Hg x _ Hx Hb).
  - by intros x c ?%He.
  - by intros x ?%He.
  - intros x Hx. left. by apply M3.
  - done.
  - intros x Hx Hw. by pose proof (Hg x _ Hx Hw).
  - intros x c Hx Hw. by pose proof (Hg x _ Hx Hw).
  - intros r Hr. right. by rewrite <- Permutation_rev.
  - intros x Hx. rewrite <- Permutation_rev in Hx. by apply M8.
Qed.

Lemma gray_fan_fuel l es : repr es l -> gray_fan l <= sum_slots (fun e => length (child_ids (data e))) es.
Proof.
  intros Hr. etransitivity; [|by apply slot_sum_fuel]. unfold gray_fan. apply sum_map_le.
  intros [e|] _; [|lia]. case_bool_decide; lia.
Qed.

Lemma framed_alive l l' : framed l l' -> slot_sum (fun _ => 1) l' = slot_sum (fun _ => 1) l.
Proof.
  intros Hf. apply Nat.le_antisymm; apply slot_sum_mono; try apply Hf; try (symmetry; apply Hf).
  - intros x e' He'. destruct (framed_back l l' x e' Hf He') as (e & He & _). by exists e.
  - intros x e He. destruct (fr_live _ _ Hf x e He) as (e' & He' & _). by exists e'.
Qed.

Lemma no_purples l x : purples l = 0 -> col l x <> Some Purple.
Proof.
  unfold purples, slot_sum. rewrite sum_map_zero. intros Hz Hc. unfold col in Hc.
  destruct (l !! x) as [[e|]|] eqn:He; [|done..]. specialize (Hz (Some e) (list_elem_of_lookup_2 _ _ _ He)). cbn in Hz.
  rewrite bool_decide_true in Hz by congruence. done.
Qed.

Lemma all_black_purples l : (forall x e, l !! x = Some (Some e) -> color e = Black) -> purples l = 0.
Proof.
  intros Hb. unfold purples, slot_sum. apply sum_map_zero. intros [e|] He; [|done].
  apply list_elem_of_lookup in He as [x Hx]. by rewrite bool_decide_false by by rewrite (Hb x e Hx).
Qed.

(** The fields that a collection leaves alone. *)
Definition same_owner h h' : Prop :=
  tracker h' = tracker h /\ gc_disabled h' = gc_disabled h /\ timezone_utc h' = timezone_utc h
  /\ decimal_contexts h' = decimal_contexts h.

Lemma same_owner_owned h h' x : same_owner h h' -> owned h' x = owned h x.
Proof. intros (_ & _ & E1 & E2). unfold owned. by rewrite E1, E2. Qed.

Lemma collect_cycles_ensures roots h l :
  heap_ok roots h l ->
  ensures collect_cycles h
    (fun n h' => exists l', heap_ok roots h' l' /\ collected (fun x => roots x + owned h x) l l'
       /\ slot_sum (fun _ => 1) l' + n = slot_sum (fun _ => 1) l /\ purple_count h' = 0 /\ same_owner h h')
    (fun _ _ => False).
Proof.
  intros Hok. pose proof Hok as [K1 K2 K3 K4 K5]. set (ext := fun x => roots x + owned h x) in *.
  unfold collect_cycles. apply ensures_bind, ensures_get. destruct (Nat.eqb_spec (purple_count h) 0) as [Hz|Hz].
  { apply ensures_ret. exists l. assert (Hp : purples l = 0) by congruence. assert (Hnp := fun x => no_purples l x Hp).
    split; [done|]. split; [|split_and!; done || lia].
    split; try done.
    - intros x e He _. by exists e.
    - intros x e He. by exists e.
    - intros x e He. assert (Hc : col l x = Some (color e)) by (unfold col; by rewrite He).
      destruct (K3 x (color e) Hc) as [|Ep]; [done|]. rewrite Ep in Hc. by destruct (Hnp x).
    - intros Henr x Hx. destruct (Henr x Hx) as [|Hq]; [done|]. apply reach_split in Hq as (p & Hpp & _). by destruct (Hnp p). }
  assert (enough : forall x, live l x -> in_edges l x <= rc l x).
  { intros x [e He]. unfold rc. rewrite He, (ct_rc _ _ _ K2 x e He). lia. }
  pose proof (ct_kids _ _ _ K2) as Hkids.
  unfold collect_cycles_inner. apply ensures_bind, ensures_get, ensures_bind. rewrite (repr_len _ _ K1).
  eapply ensures_mono; [apply (mark_roots_ensures l enough Hkids K3 h (length l) 0 [] ∅ h l (marked_start l K3) K1); [by destruct h|lia]| |done].
  intros rts h1 (R & l1 & Hm & Hr1 & Hh1). cbn [app] in Hm. apply ensures_bind. unfold scan. apply ensures_bind, ensures_get.
  eapply ensures_mono; [apply (scan_loop_ensures l l1 R rts (rc l1) h Hkids (mk_kids _ _ _ _ _ Hm) (mk_from _ _ _ _ _ Hm) (mk_roots _ _ _ _ _ Hm) _ ∅ (rev rts) h1 l1 (scanned_start l rts R l1 Hm) Hr1 Hh1)| |done].
  { pose proof (gray_fan_fuel l1 _ Hr1). lia. }
  intros _ h2 (B & l2 & Hs & Hr2 & Hh2). apply ensures_bind.
  pose proof (sc_frame _ _ _ _ _ _ _ _ Hs) as Hf2.
  assert (Hwh := oc_white l l1 l2 rts R B K3 Hm Hs).
  eapply ensures_mono; [apply (collect_white_ensures l2 rts h); [| |exact Hr2| | |]| |done].
  - intros x c Hk. rewrite (framed_kids l l2 x Hf2) in Hk. rewrite (framed_live l l2 c Hf2). by eapply Hkids.
  - intros x Hx. rewrite (framed_rds l l2 x Hf2). apply (Hwh x Hx).
  - eapply weak_ok_framed; [exact Hf2|..|exact K5]; by rewrite Hh2.
  - by rewrite Hh2.
  - intros r Hr. rewrite (fr_len _ _ Hf2). apply live_lt. eapply marked_live; [exact Hm|]. by apply (mk_roots _ _ _ _ _ Hm).
  - intros n h3 (F & l3 & Hw & ->). apply ensures_modify_then, ensures_ret. exists l3.
    assert (Hcol : collected ext l l3) by (eapply oc_collected; [exact K2|exact K3|exact Hm|exact Hs|exact Hw]).
    assert (Hcnt : counted ext [] l3) by (eapply oc_counted; [exact K2|exact K3|exact Hm|exact Hs|exact Hw]).
    pose proof (sw_rest _ _ _ _ _ _ _ Hw) as (T1 & T2 & T3 & T4 & T5).
    assert (Hsame : same_owner h (with_allocations 0 (with_purple 0 h3))) by by split_and!.
    split_and!; try done.
    + split; [apply Hw| | | |].
      * destruct Hcnt as [C1 C2 C3 C4]. split; [|done|done|]; intros x; setoid_rewrite (same_owner_owned h _ x Hsame); [apply C1|apply C4].
      * intros x k Hk. left. unfold col in Hk. destruct (l3 !! x) as [[e|]|] eqn:He; [|done..]. injection Hk as <-. by apply (cl_black _ _ _ Hcol x).
      * cbn. symmetry. apply all_black_purples. apply (cl_black _ _ _ Hcol).
      * destruct (sw_weak _ _ _ _ _ _ _ Hw). by split.
    + rewrite (sw_count _ _ _ _ _ _ _ Hw). by apply framed_alive.
Qed.
End Collection.
