(* ===== verification/HeapRun.v ===== *)
(** Runs of the heap: a client that only releases references it owns and only uses
    guards it holds never meets a fault, and nothing it can reach is freed.  *)
From S2P Require Import Prelude Str Resource StableHeap Heap HeapInv HeapProps Collector CollectorPaint CollectorProps.
#[local] Open Scope monty_scope.

(** What the rest of the interpreter holds: owned references and read guards. *)
Record client := { refs : nat -> nat; guards : nat -> nat }.

Definition nobody : client := {| refs := fun _ => 0; guards := fun _ => 0 |}.

Section Run.
Context {D : Type} `{PayloadLaws D}.

Abbreviation heap := (Heap D).
Abbreviation slots := (list (option (HeapEntry D))).
Abbreviation HM := (M heap fault).
Implicit Types (l : slots) (h : heap) (e : HeapEntry D) (x y id : nat) (c : client) (d : D).

(** [GetMut id d inn out] leaves the payload [d]: the references [inn] move into it from
    the client, and [out] leave it. *)
Inductive op :=
| Allocate (d : D)
| IncRef (id : nat)
| DecRef (id : nat)
| Read (id : nat)
| Get (id : nat)
| GetMut (id : nat) (d : D) (inn out : list nat)
| EndRead (id : nat)
| GetEmptyTuple
| GetExtFunction (name : str)
| AllocateHostType (uuid : Z) (ty : D)
| BoundaryUuid (fresh : Z) (id : nat)
| GetTimezoneUtc
| ReplaceDecimalContext (slot id : nat)
| CollectCycles.

(** The reference an operation returns. *)
Definition perform (o : op) : HM (option nat) :=
  match o with
  | Allocate d => do id <- allocate d ;; sret (Some id)
  | IncRef id => inc_ref id ;;; sret (Some id)
  | DecRef id => dec_ref id ;;; sret None
  | Read id => read id ;;; sret None
  | Get id => guard_get id ;;; sret None
  | GetMut id d _ _ => guard_get_mut id d ;;; sret None
  | EndRead id => end_read id ;;; sret None
  | GetEmptyTuple => do id <- get_empty_tuple ;; sret (Some id)
  | GetExtFunction name => do id <- get_ext_function name ;; sret (Some id)
  | AllocateHostType uuid ty => do id <- allocate_host_type uuid ty ;; sret (Some id)
  | BoundaryUuid fresh id => boundary_uuid fresh id ;;; sret None
  | GetTimezoneUtc => do id <- get_timezone_utc ;; sret (Some id)
  | ReplaceDecimalContext slot id => replace_decimal_context slot id
  | CollectCycles => collect_cycles ;;; sret None
  end.

(** The references an operation takes from the client, and those it gives besides the
    one it returns. *)
Definition takes (o : op) : list nat :=
  match o with
  | Allocate d | AllocateHostType _ d => child_ids d
  | DecRef id | ReplaceDecimalContext _ id => [id]
  | GetMut _ _ inn _ => inn
  | _ => []
  end.
Definition gives (o : op) : list nat := match o with GetMut _ _ _ out => out | _ => [] end.

Definition effect (o : op) (r : option nat) c : client :=
  {| refs := fun x => refs c x - occ x (takes o) + occ x (gives o) + occ x (option_list r);
     guards := match o with
               | Read id => fun x => guards c x + one id x
               | EndRead id => fun x => guards c x - one id x
               | _ => guards c
               end |}.

(** The references outside the graph of the entries. *)
Definition ext c h x : nat := refs c x + owned h x.

Definition slots_of h : slots := match serialize (entries h) with Ok l => l | Err _ => [] end.

(** What the client may do. The first clause is Rust's ownership; a guarded entry is kept
    alive by its owners while the guard lives. *)
Definition permitted (o : op) c h : Prop :=
  (forall x, occ x (takes o) <= refs c x) /\
  match o with
  | IncRef id | Read id => reach (held (ext c h)) (slots_of h) id
  | DecRef id => pinned (ext (effect o None c) h) (slots_of h)
  | Get id | EndRead id => 0 < guards c id
  | GetMut id d inn out => 0 < guards c id /\ exists e, slots_of h !! id = Some (Some e)
      /\ child_ids (data e) ++ inn ≡ₚ child_ids d ++ out /\ weak_index_key d = weak_index_key (data e)
      /\ pinned (ext (effect o None c) h) (<[id := Some (set_data d e)]> (slots_of h))
  | AllocateHostType uuid ty => weak_index_key ty = Some (KHostType uuid) /\ resolve_host_type uuid h = None
  | BoundaryUuid fresh id => reach (held (ext c h)) (slots_of h) id
      /\ exists e, slots_of h !! id = Some (Some e) /\ is_Some (boundary_uuid_of fresh (data e))
  | ReplaceDecimalContext slot _ => slot < DECIMAL_SLOTS
  | _ => True
  end.

(** ** The invariant *)

Record good c h l : Prop := {
  gd_ok : heap_ok (refs c) h l;
  gd_guards : forall x, rds l x = guards c x;
  gd_pinned : pinned (ext c h) l;
  gd_slots : length (decimal_contexts h) = DECIMAL_SLOTS }.

Lemma good_slots_of c h l : good c h l -> slots_of h = l.
Proof. intros [[K1 _ _ _ _] _ _ _]. unfold slots_of. by rewrite (serialize_ok _ _ K1). Qed.

(** What a step keeps: the invariant, and the accounting when it holds. *)
Definition kept c h l (c' : client) (h' : heap) : Prop :=
  exists l', good c' h' l' /\ (tidy (ext c h) l -> tidy (ext c' h') l').

Lemma good_live c h l x : good c h l -> reach (held (ext c h)) l x -> live l x.
Proof. intros [[_ K2 _ _ _] _ _ _] Hx. by eapply reach_live. Qed.

Lemma guard_live c h l x : good c h l -> 0 < guards c x -> live l x.
Proof.
  intros Hg Hx. rewrite <- (gd_guards _ _ _ Hg) in Hx. unfold rds in Hx.
  destruct (l !! x) as [[e|]|] eqn:He; [by exists e|lia..].
Qed.

(** The same edges with at least the same holders. *)
Lemma reach_held_mono (ext1 ext2 : nat -> nat) l1 l2 x : (forall y, ext1 y <= ext2 y) -> (forall y, kids l2 y = kids l1 y) ->
  reach (held ext1) l1 x -> reach (held ext2) l2 x.
Proof.
  intros Hext Hk. apply reach_mono; [|by intros y z _; rewrite Hk]. intros y. unfold held. specialize (Hext y). lia.
Qed.

Lemma accounted_mono (ext1 ext2 : nat -> nat) l1 l2 x : (forall y, ext1 y <= ext2 y) -> (forall y, kids l2 y = kids l1 y) ->
  (forall y, col l2 y = col l1 y) -> accounted ext1 l1 x -> accounted ext2 l2 x.
Proof.
  intros Hext Hk Hcol. apply reach_mono; [|by intros y z _; rewrite Hk]. intros y. unfold held, candidate. rewrite Hcol.
  specialize (Hext y). intros [?|?]; [left; lia|by right].
Qed.

(** References that move into the payload of [id], or out of it. *)
Lemma reach_moved (R1 R2 : nat -> Prop) l1 l2 id x :
  (forall y, R1 y -> R2 y \/ y ∈ kids l2 id) -> (forall y, y <> id -> kids l2 y = kids l1 y) ->
  (forall y, y ∈ kids l1 id -> R2 y \/ y ∈ kids l2 id) -> reach R2 l2 id -> reach R1 l1 x -> reach R2 l2 x.
Proof.
  intros HR Hk Hid Hr. assert (Hgo : forall y, R2 y \/ y ∈ kids l2 id -> reach R2 l2 y).
  { intros y [Hy|Hy]; [by apply reach_root|by eapply reach_kid]. }
  induction 1 as [y Hy|y z _ IH Hz]; [auto|]. destruct (decide (y = id)) as [->|Hne]; [auto|].
  eapply reach_kid; [exact IH|]. by rewrite Hk.
Qed.

(** ** The operations *)

Lemma ensures_get_entry {A} h l id e (k : HeapEntry D -> HM A) Q R :
  repr (entries h) l -> l !! id = Some (Some e) -> ensures (k e) h Q R ->
  ensures (do e <- slift (StableHeap.get (entries h) id) ;; k e) h Q R.
Proof. intros Hr He Hk. unfold ensures, sbind, slift. by rewrite (get_ok _ _ _ _ Hr He). Qed.

Lemma ensures_deref {A} h l id e (k : HeapEntry D -> HM A) Q R :
  repr (entries h) l -> l !! id = Some (Some e) -> ensures (k e) h Q R -> ensures (do e <- deref_entry id ;; k e) h Q R.
Proof. intros Hr He Hk. unfold ensures, sbind, deref_entry, sbind. by rewrite (try_entry_ok _ _ _ _ Hr He). Qed.

Lemma ensures_inc_ref {A} h l id e (k : unit -> HM A) Q R :
  repr (entries h) l -> l !! id = Some (Some e) ->
  (forall es, repr es (<[id := Some (set_refcount (refcount e + 1) e)]> l) -> ensures (k tt) (with_entries es h) Q R) ->
  ensures (do u <- inc_ref id ;; k u) h Q R.
Proof.
  intros Hr He Hk. apply ensures_bind. unfold inc_ref. apply ensures_bind, ensures_get. apply (ensures_get_entry h l id e); [done..|].
  destruct (set_slot_ok _ _ _ (set_refcount (refcount e + 1) e) e Hr He) as (es & Es & Hes).
  unfold ensures, put_entry. rewrite Es. by apply Hk.
Qed.

(** A store that leaves the payload: reader counts and reference counts. *)
Lemma good_count c h l id e e' es k (c' : client) :
  good c h l -> l !! id = Some (Some e) -> repr es (<[id := Some e']> l) -> color e' = color e -> data e' = data e ->
  refcount e' = refcount e + k -> (forall x, refs c' x = refs c x + one id x * k) ->
  (forall x, guards c' x = if decide (x = id) then readers e' else guards c x) ->
  (0 < readers e' -> reach (held (ext c h)) l id) -> kept c h l c' (with_entries es h).
Proof.
  intros [G1 G2 G3 G4] He Hes Ec Ed Er Hrefs Hguards Hread. pose proof (lookup_lt_Some _ _ _ He) as Hlt.
  set (l' := <[id := Some e']> l).
  assert (Hk : forall y, kids l' y = kids l y) by (intros y; by apply (kids_same l id e' e)).
  assert (Hcol : forall y, col l' y = col l y).
  { intros y. unfold l'. rewrite col_insert by done. case_decide; [|done]. subst. cbn. rewrite Ec. unfold col. by rewrite He. }
  assert (Hext : forall y, ext c h y <= ext c' (with_entries es h) y).
  { intros y. unfold ext. rewrite Hrefs. change (owned (with_entries es h) y) with (owned h y). lia. }
  assert (Hrds : forall y, rds l' y = if decide (y = id) then readers e' else rds l y).
  { intros y. unfold l', rds. case_decide; [subst; by rewrite list_lookup_insert_eq|by rewrite list_lookup_insert_ne]. }
  exists l'. split; [split|].
  - pose proof (heap_ok_count (refs c) h l id e e' es k G1 He Hes Ec Ed Er) as Hok.
    eapply heap_ok_same; [exact Hok|done|done|apply Hok|]. intros x. by rewrite Hrefs.
  - intros x. rewrite Hrds, Hguards. case_decide; [done|apply G2].
  - intros x. rewrite Hrds. case_decide as Hx; intros Hp; eapply reach_held_mono; eauto. subst. auto.
  - done.
  - intros Ht x f Hf. destruct (decide (x = id)) as [->|Hne].
    + unfold l' in Hf. rewrite list_lookup_insert_eq in Hf by done. injection Hf as <-. destruct (Ht id e He) as [Hp Ha].
      split; [lia|]. eapply accounted_mono; eauto.
    + unfold l' in Hf. rewrite list_lookup_insert_ne in Hf by done. destruct (Ht x f Hf) as [Hp Ha].
      split; [done|]. eapply accounted_mono; eauto.
Qed.

(** A store of a payload. *)
Lemma good_move c h l id e d es (c' : client) :
  good c h l -> l !! id = Some (Some e) -> repr es (<[id := Some (set_data d e)]> l) ->
  (forall x, refs c' x + occ x (child_ids d) = refs c x + occ x (child_ids (data e))) -> (forall x, guards c' x = guards c x) ->
  (weak_index_key (data e) = None \/ weak_index_key d = weak_index_key (data e)) ->
  pinned (ext c' h) (<[id := Some (set_data d e)]> l) -> reach (held (ext c' h)) (<[id := Some (set_data d e)]> l) id ->
  kept c h l c' (with_entries es h).
Proof.
  intros [G1 G2 G3 G4] He Hes Hbal Hguards Hkey Hpin Hid. pose proof (lookup_lt_Some _ _ _ He) as Hlt.
  pose proof (ok_counted _ _ _ G1) as Hc.
  assert (Hlive : forall x, 0 < refs c' x \/ x ∈ child_ids d -> live l x).
  { intros x Hx. assert (Hs : 0 < refs c x + occ x (child_ids (data e))).
    { rewrite <- Hbal. destruct Hx as [|Hx%occ_pos]; lia. }
    destruct (Nat.eq_0_gt_0_cases (refs c x)) as [Hz|Hz]; [|apply (ct_ext _ _ _ Hc); lia].
    apply (ct_kids _ _ _ Hc id). unfold kids. rewrite He. apply occ_pos. lia. }
  exists (<[id := Some (set_data d e)]> l). split; [split|].
  - apply (heap_ok_store (refs c) _ h l id e (set_data d e) es G1 He Hes); [done| |auto..|done].
    intros x. cbn. specialize (Hbal x). lia.
  - intros x. rewrite Hguards, (rds_same l id e (set_data d e) x He eq_refl). apply G2.
  - exact Hpin.
  - done.
  - intros Ht x f Hf.
    assert (Hx : exists f0, l !! x = Some (Some f0) /\ refcount f = refcount f0).
    { destruct (decide (x = id)) as [->|Hne].
      - rewrite list_lookup_insert_eq in Hf by done. injection Hf as <-. by exists e.
      - rewrite list_lookup_insert_ne in Hf by done. by exists f. }
    destruct Hx as (f0 & Hf0 & ->). destruct (Ht x f0 Hf0) as [Hp Ha]. split; [done|].
    assert (Hkid : kids (<[id := Some (set_data d e)]> l) id = child_ids d) by (rewrite kids_insert, decide_True by done; done).
    assert (Hext : forall y, 0 < ext c h y + occ y (child_ids (data e)) -> held (ext c' h) y \/ y ∈ child_ids d).
    { intros y Hy. unfold held, ext in *. specialize (Hbal y). destruct (Nat.eq_0_gt_0_cases (occ y (child_ids d))) as [Hz|Hz].
      - left. lia.
      - right. by apply occ_pos. }
    change (ext c' (with_entries es h)) with (ext c' h). revert Ha. apply (reach_moved _ _ l _ id).
    + rewrite Hkid. intros y [Hy|Hy]; [destruct (Hext y) as [|]; [unfold held in Hy; lia|by left; left|by right]|].
      left. right. unfold candidate in *. rewrite col_insert by done. case_decide; [|done]. subst. unfold col in Hy. by rewrite He in Hy.
    + intros y Hy. by rewrite kids_insert, decide_False.
    + rewrite Hkid. intros y Hy. destruct (Hext y) as [|]; [|by left; left|by right].
      unfold kids in Hy. rewrite He in Hy. apply occ_pos in Hy. lia.
    + revert Hid. apply reach_mono; [by left|done].
Qed.

(** An allocation. *)
Lemma good_grow c h l id e l' es (c' : client) :
  good c h l -> grown l id e l' -> repr es l' -> e = Build_HeapEntry 1 0 (data e) Black ->
  (forall x, refs c' x + occ x (child_ids (data e)) = refs c x + one id x) -> 0 < refs c' id ->
  (forall x, guards c' x = guards c x) -> kept c h l c' (with_entries es h).
Proof.
  intros [G1 G2 G3 G4] Hg Hes He Hbal Hid Hguards. pose proof (gr_new _ _ _ _ Hg) as Hnew.
  pose proof (ok_counted _ _ _ G1) as Hc.
  assert (Hnk : kids l id = []).
  { unfold kids. destruct (l !! id) as [[f|]|] eqn:Hf; [|done..]. destruct (gr_fresh _ _ _ _ Hg). by exists f. }
  assert (Hext : forall y, held (ext c h) y -> held (ext c' h) y \/ y ∈ kids l' id).
  { intros y Hy. unfold held, ext in *. specialize (Hbal y). rewrite (grown_kids l id e l' Hg), decide_True by done.
    destruct (Nat.eq_0_gt_0_cases (occ y (child_ids (data e)))) as [Hz|Hz]; [left; lia|right; by apply occ_pos]. }
  assert (Hkids : forall y, y <> id -> kids l' y = kids l y) by (intros y Hy; by rewrite (grown_kids l id e l' Hg), decide_False).
  assert (Hroot : held (ext c' h) id) by (unfold held, ext; lia).
  exists l'. split; [split|].
  - apply (heap_ok_grow (refs c) _ h l id e l' es G1 Hg Hes); [by rewrite He|by rewrite He|done].
  - intros x. rewrite Hguards, <- G2. unfold rds. destruct (decide (x = id)) as [->|Hne].
    + rewrite Hnew, He. unfold kids in Hnk. cbn. destruct (l !! id) as [[f|]|] eqn:Hf; [|done..].
      destruct (gr_fresh _ _ _ _ Hg). by exists f.
    + by rewrite (gr_keep _ _ _ _ Hg).
  - change (ext c' (with_entries es h)) with (ext c' h). intros x Hx.
    assert (Hx0 : 0 < rds l x).
    { unfold rds in *. destruct (decide (x = id)) as [->|Hne]; [rewrite Hnew, He in Hx; cbn in Hx; lia|].
      by rewrite (gr_keep _ _ _ _ Hg) in Hx. }
    specialize (G3 x Hx0). revert G3. apply (reach_moved _ _ l l' id); [done|done| |by apply reach_root].
    intros y. rewrite Hnk. by intros ?%elem_of_nil.
  - done.
  - change (ext c' (with_entries es h)) with (ext c' h). intros Ht x f Hf. destruct (decide (x = id)) as [->|Hne].
    + rewrite Hnew in Hf. injection Hf as <-. rewrite He. split; [cbn; lia|]. apply reach_root. by left.
    + rewrite (gr_keep _ _ _ _ Hg) in Hf by done. destruct (Ht x f Hf) as [Hp Ha]. split; [done|]. revert Ha.
      apply (reach_moved _ _ l l' id).
      * intros y [Hy|Hy]; [destruct (Hext y Hy); [by left; left|by right]|]. left. right. unfold candidate, col in *.
        destruct (decide (y = id)) as [->|Hy']; [|by rewrite (gr_keep _ _ _ _ Hg)].
        exfalso. destruct (l !! id) as [[g|]|] eqn:Hg'; [|done..]. destruct (gr_fresh _ _ _ _ Hg). by exists g.
      * done.
      * intros y. rewrite Hnk. by intros ?%elem_of_nil.
      * apply reach_root. by left.
Qed.

(** The slots stay. *)
Lemma kept_same c h l c0 h0 c' h' :
  kept c h l c0 h0 -> entries h' = entries h0 -> purple_count h' = purple_count h0 ->
  (forall l', good c0 h0 l' -> weak_ok h' l') -> (forall x, ext c' h' x = ext c0 h0 x) ->
  (forall x, guards c' x = guards c0 x) -> length (decimal_contexts h') = DECIMAL_SLOTS -> kept c h l c' h'.
Proof.
  intros (l' & Hg & Ht) E1 E2 Hw Hext Hguards Hlen. exists l'. pose proof Hg as [G1 G2 G3 G4]. split; [split|].
  - by apply (heap_ok_same (refs c0) _ h0 h' l' G1 E1 E2 (Hw l' Hg)).
  - intros x. by rewrite Hguards.
  - intros x Hx. specialize (G3 x Hx). revert G3. apply reach_held_mono; [|done]. intros y. by rewrite Hext.
  - done.
  - intros Htd x e He. destruct (Ht Htd x e He) as [Hp Ha]. split; [done|]. revert Ha. apply accounted_mono; [|done..].
    intros y. by rewrite Hext.
Qed.

Lemma kept_refl c h l : good c h l -> kept c h l c h.
Proof. intros Hg. by exists l. Qed.

Lemma kept_trans c h l c1 h1 c2 h2 :
  kept c h l c1 h1 -> (forall l1, good c1 h1 l1 -> kept c1 h1 l1 c2 h2) -> kept c h l c2 h2.
Proof.
  intros (l1 & Hg & Ht) Hk. destruct (Hk l1 Hg) as (l2 & Hg2 & Ht2). exists l2. auto.
Qed.

(** *** Counting *)

(** The client with one reference more. *)
Definition plus id c : client := {| refs := fun x => refs c x + one id x; guards := guards c |}.

Lemma kept_inc_ref {A} c h l id (k : unit -> HM A) Q R :
  good c h l -> live l id -> (forall h', kept c h l (plus id c) h' ->
    timezone_utc h' = timezone_utc h /\ decimal_contexts h' = decimal_contexts h -> ensures (k tt) h' Q R) ->
  ensures (do u <- inc_ref id ;; k u) h Q R.
Proof.
  intros Hg [e He] Hk. apply (ensures_inc_ref h l id e); [apply Hg|done|]. intros es Hes. apply Hk; [|done].
  apply (good_count c h l id e (set_refcount (refcount e + 1) e) es 1 (plus id c)); try done.
  - intros x. cbn. lia.
  - intros x. cbn. rewrite <- (gd_guards _ _ _ Hg). case_decide; [subst|done]. unfold rds. by rewrite He.
  - cbn. intros Hr. apply (gd_pinned _ _ _ Hg). unfold rds. by rewrite He.
Qed.

Lemma read_kept c h l id : good c h l -> reach (held (ext c h)) l id ->
  ensures (read id) h (fun _ h' => kept c h l (effect (Read id) None c) h') (fun _ _ => False).
Proof.
  intros Hg Hr. destruct (good_live c h l id Hg Hr) as [e He]. unfold read.
  apply (ensures_read h l id e); [apply Hg|done|]. apply (ensures_put h l id _ e); [apply Hg|done|]. intros es Hes. apply ensures_ret.
  apply (good_count c h l id e (set_readers (readers e + 1) e) es 0); try done; cbn [effect refs guards takes gives option_list readers refcount set_readers].
  - intros x. rewrite (occ_nil x : occ x (option_list None) = 0), occ_nil. lia.
  - intros x. rewrite <- (gd_guards _ _ _ Hg). unfold one. case_decide; [subst; unfold rds; by rewrite He|lia].
Qed.

Lemma end_read_kept c h l id : good c h l -> 0 < guards c id ->
  ensures (end_read id) h (fun _ h' => kept c h l (effect (EndRead id) None c) h') (fun _ _ => False).
Proof.
  intros Hg Hr. destruct (guard_live c h l id Hg Hr) as [e He]. unfold end_read.
  assert (Er : readers e = guards c id) by (rewrite <- (gd_guards _ _ _ Hg); unfold rds; by rewrite He).
  apply (ensures_deref h l id e); [apply Hg|done|]. rewrite (proj2 (Nat.eqb_neq _ _)) by lia.
  destruct (set_slot_ok _ _ _ (set_readers (readers e - 1) e) e (ok_repr _ _ _ (gd_ok _ _ _ Hg)) He) as (es & Es & Hes).
  unfold ensures, put_entry. rewrite Es.
  apply (good_count c h l id e (set_readers (readers e - 1) e) es 0); try done; cbn [effect refs guards takes gives option_list readers refcount set_readers].
  - intros x. rewrite (occ_nil x : occ x (option_list None) = 0), occ_nil. lia.
  - intros x. rewrite Er. unfold one. case_decide; [by subst|lia].
  - intros _. apply (gd_pinned _ _ _ Hg). unfold rds. rewrite He. lia.
Qed.

(** *** Allocating *)

Lemma kept_allocate {A} c h l d (k : nat -> HM A) Q R :
  good c h l -> (forall x, occ x (child_ids d) <= refs c x) ->
  (forall id h', kept c h l (effect (Allocate d) (Some id) c) h' ->
     (forall l', good (effect (Allocate d) (Some id) c) h' l' -> exists e, l' !! id = Some (Some e) /\ data e = d) ->
     weak_ok h' (slots_of h') -> ext_function_cache h' = ext_function_cache h /\ host_type_index h' = host_type_index h
       /\ boundary_index h' = boundary_index h /\ timezone_utc h' = timezone_utc h /\ decimal_contexts h' = decimal_contexts h ->
     ensures (k id) h' Q R) ->
  ensures (do id <- allocate d ;; k id) h Q R.
Proof.
  intros Hg Hown Hk. apply ensures_bind. unfold allocate. apply ensures_bind. unfold new_entry. apply ensures_bind.
  set (h1 := if is_gc_tracked d then with_allocations ((allocations_since_gc h + 1) mod 2 ^ 32)%Z h else h).
  apply (ensures_mono _ h (fun _ h' => h' = h1) _ (fun _ _ => False)); [| |done].
  { unfold h1. destruct (is_gc_tracked d); [by apply ensures_modify|by apply ensures_ret]. }
  intros _ h' ->. apply ensures_ret. set (e := Build_HeapEntry 1 0 d Black).
  assert (Hg1 : good c h1 l).
  { pose proof Hg as [[K1 K2 K3 K4 [W1 W2 W3]] G2 G3 G4]. unfold h1. destruct (is_gc_tracked d); [|done]. by split; [split; [..|split]|..]. }
  destruct (allocate_ok _ _ e (ok_repr _ _ _ (gd_ok _ _ _ Hg1))) as (id & es & l' & Ea & Hes & Hl').
  apply grown_spec in Hl'. unfold ensures. rewrite Ea.
  assert (Hkept : kept c h1 l (effect (Allocate d) (Some id) c) (with_entries es h1)).
  { apply (good_grow c h1 l id e l' es); try done; cbn [effect refs guards takes gives option_list].
    - intros x. specialize (Hown x). rewrite occ_nil, (occ_one x id : occ x (option_list (Some id)) = _). cbn [data e]. lia.
    - rewrite (occ_one id id : occ id (option_list (Some id)) = _). unfold one. rewrite decide_True by done. lia. }
  assert (Hsl : slots_of (with_entries es h1) = l') by (unfold slots_of; by rewrite (serialize_ok _ _ Hes : serialize (entries (with_entries es h1)) = _)).
  apply Hk; [|..].
  - destruct Hkept as (l2 & Hg2 & Ht2). exists l2. split; [done|]. intros Ht. apply Ht2. unfold h1. by destruct (is_gc_tracked d).
  - intros l2 Hg2. exists e. split; [|done]. rewrite <- (good_slots_of _ _ _ Hg2), Hsl. apply (gr_new _ _ _ _ Hl').
  - destruct Hkept as (l2 & Hg2 & _). rewrite (good_slots_of _ _ _ Hg2). apply Hg2.
  - unfold h1. by destruct (is_gc_tracked d).
Qed.

(** The books may be kept another way. *)
Lemma kept_books c h l c0 c' h' :
  kept c h l c0 h' -> (forall x, refs c' x = refs c0 x) -> (forall x, guards c' x = guards c0 x) -> kept c h l c' h'.
Proof.
  intros Hk Hr Hgu. pose proof Hk as (l0 & Hg0 & _). eapply kept_same; [exact Hk|done|done| | |done|apply Hg0].
  - intros l1 Hg1. apply Hg1.
  - intros x. unfold ext. by rewrite Hr.
Qed.

Lemma effect_plus o id c x : takes o = [] -> gives o = [] -> refs (effect o (Some id) c) x = refs (plus id c) x.
Proof.
  intros Et Eg. cbn [effect plus refs]. rewrite Et, Eg, occ_nil, (occ_one x id : occ x (option_list (Some id)) = _). lia.
Qed.

Lemma effect_idle o c x : takes o = [] -> gives o = [] -> refs (effect o None c) x = refs c x.
Proof. intros Et Eg. cbn [effect refs]. rewrite Et, Eg, occ_nil, (occ_nil x : occ x (option_list None) = 0). lia. Qed.

Lemma empty_tuple_live c h l : good c h l -> live l EMPTY_TUPLE_ID.
Proof. intros Hg. apply (ct_ext _ _ _ (ok_counted _ _ _ (gd_ok _ _ _ Hg))). unfold owned. rewrite decide_True by done. lia. Qed.

Lemma get_empty_tuple_kept c h l : good c h l ->
  ensures get_empty_tuple h (fun id h' => kept c h l (effect GetEmptyTuple (Some id) c) h') (fun _ _ => False).
Proof.
  intros Hg. apply (kept_inc_ref c h l); [done|by eapply empty_tuple_live|]. intros h' Hk _. apply ensures_ret.
  apply (kept_books _ _ _ _ _ _ Hk); [|done]. intros x. by apply effect_plus.
Qed.

Lemma get_ext_function_kept c h l name : good c h l ->
  ensures (get_ext_function name) h (fun id h' => kept c h l (effect (GetExtFunction name) (Some id) c) h') (fun _ _ => False).
Proof.
  intros Hg. unfold get_ext_function. apply ensures_bind, ensures_get. destruct (ext_function_cache h !! name) as [id|] eqn:Ec.
  - destruct (wk_function _ _ (ok_weak _ _ _ (gd_ok _ _ _ Hg)) name id Ec) as (e & He & _).
    apply (kept_inc_ref c h l); [done|by exists e|]. intros h' Hk _. apply ensures_ret.
    apply (kept_books _ _ _ _ _ _ Hk); [|done]. intros x. by apply effect_plus.
  - apply (kept_allocate c h l); [done|intros x; rewrite function_leaf, occ_nil; lia|].
    intros id h' Hk Hid Hw (E1 & E2 & E3 & E4 & E5). apply ensures_bind, ensures_get, ensures_modify_then.
    rewrite (bool_decide_true (ext_function_cache h' !! name = None)) by by rewrite E1. apply ensures_ret. pose proof Hk as (l0 & Hg0 & _).
    eapply kept_same; [exact Hk|done|done| | |done|apply Hg0].
    + intros l' Hg'. apply weak_ok_function; [apply Hg'|]. destruct (Hid l' Hg') as (e & He & Ed). exists e. split; [done|].
      rewrite Ed. apply function_key.
    + intros x. unfold ext, owned. cbn. by rewrite function_leaf.
Qed.

Lemma allocate_host_type_kept c h l uuid ty : good c h l -> permitted (AllocateHostType uuid ty) c h ->
  ensures (allocate_host_type uuid ty) h (fun id h' => kept c h l (effect (AllocateHostType uuid ty) (Some id) c) h') (fun _ _ => False).
Proof.
  intros Hg (Hown & Hkey & Hnone). unfold allocate_host_type. apply (kept_allocate c h l); [done|done|].
  intros id h' Hk Hid Hw (E1 & E2 & E3 & E4 & E5). apply ensures_bind, ensures_get, ensures_modify_then.
  unfold resolve_host_type in Hnone. rewrite (bool_decide_true (host_type_index h' !! uuid = None)) by by rewrite E2. apply ensures_ret. pose proof Hk as (l0 & Hg0 & _).
  eapply kept_same; [exact Hk|done|done| |done|done|apply Hg0].
  intros l' Hg'. apply weak_ok_host; [apply Hg'|]. destruct (Hid l' Hg') as (e & He & Ed). exists e. split; [done|]. by rewrite Ed.
Qed.

Lemma get_timezone_utc_kept c h l : good c h l ->
  ensures get_timezone_utc h (fun id h' => kept c h l (effect GetTimezoneUtc (Some id) c) h') (fun _ _ => False).
Proof.
  intros Hg. unfold get_timezone_utc. apply ensures_bind, ensures_get. destruct (timezone_utc h) as [id|] eqn:Ec.
  - assert (Hl : live l id).
    { apply (ct_ext _ _ _ (ok_counted _ _ _ (gd_ok _ _ _ Hg))). unfold owned. rewrite Ec. cbn [omap list_omap].
      match goal with |- context [occ id ?k] => assert (0 < occ id k) by (apply occ_pos; by left) end. lia. }
    apply (kept_inc_ref c h l); [done|done|]. intros h' Hk _. apply ensures_ret.
    apply (kept_books _ _ _ _ _ _ Hk); [|done]. intros x. by apply effect_plus.
  - apply (kept_allocate c h l); [done|intros x; rewrite utc_leaf, occ_nil; lia|].
    intros id h1 Hk1 Hid Hw (E1 & E2 & E3 & E4 & E5). pose proof Hk1 as (l1 & Hg1 & Ht1). destruct (Hid l1 Hg1) as (e & He & _).
    apply (kept_inc_ref (effect (Allocate utc) (Some id) c) h1 l1 id); [done|by exists e|]. intros h2 Hk2 (T1 & T2). apply ensures_modify_then, ensures_ret.
    assert (Hk : kept c h l (plus id (effect (Allocate utc) (Some id) c)) h2).
    { destruct Hk2 as (l2 & Hg2 & Ht2). exists l2. auto. }
    pose proof Hk as (l2 & Hg2 & _). eapply kept_same; [exact Hk|done|done| | |done|apply Hg2].
    + intros l' Hg'. destruct (ok_weak _ _ _ (gd_ok _ _ _ Hg')) as [W1 W2 W3]. by split.
    + intros x. unfold ext, owned. rewrite T1, T2, E4, E5, Ec.
      cbn [timezone_utc decimal_contexts with_owned omap list_omap plus refs effect takes gives].
      rewrite utc_leaf, occ_cons, occ_nil. unfold one. destruct (decide (x = id)); lia.
Qed.

Lemma omap_replace (os : list (option nat)) i o id x : os !! i = Some o ->
  occ x (omap (fun o => o) (<[i := Some id]> os)) + occ x (option_list o) = occ x (omap (fun o => o) os) + one id x.
Proof.
  intros Ho. rewrite insert_take_drop by by apply lookup_lt_Some in Ho. rewrite <- (take_drop_middle os i o Ho) at 3.
  rewrite !omap_app, !occ_app. destruct o as [old|]; cbn [omap list_omap]; rewrite !occ_cons.
  - rewrite (occ_one x old : occ x (option_list (Some old)) = _). unfold one. lia.
  - rewrite (occ_nil x : occ x (option_list None) = _). unfold one. lia.
Qed.

Lemma replace_decimal_context_kept c h l slot id : good c h l -> permitted (ReplaceDecimalContext slot id) c h ->
  ensures (replace_decimal_context slot id) h
    (fun r h' => kept c h l (effect (ReplaceDecimalContext slot id) r c) h') (fun _ _ => False).
Proof.
  intros Hg [Hown Hslot]. unfold replace_decimal_context. apply ensures_bind, ensures_get, ensures_bind.
  rewrite <- (gd_slots _ _ _ Hg) in Hslot. destruct (lookup_lt_is_Some_2 _ _ Hslot) as [o Ho].
  unfold ensures at 1, slift. rewrite Ho. cbn [ok_or]. apply ensures_modify_then, ensures_ret.
  eapply kept_same; [by apply kept_refl|done|done| | |done|].
  - intros l' Hg'. destruct (ok_weak _ _ _ (gd_ok _ _ _ Hg')) as [W1 W2 W3]. by split.
  - intros x. unfold ext, owned. cbn [timezone_utc decimal_contexts with_owned effect refs takes gives].
    specialize (Hown x). cbn [takes] in Hown. rewrite occ_one in Hown |- *. rewrite occ_nil.
    pose proof (omap_replace (decimal_contexts h) slot o id x Ho) as E.
    change (timezone_utc h :: ?k) with ([timezone_utc h] ++ k). rewrite !omap_app, !occ_app. lia.
  - cbn. rewrite length_insert. apply Hg.
Qed.

(** *** Guards *)

Lemma guard_get_kept c h l id : good c h l -> 0 < guards c id ->
  ensures (guard_get id) h (fun _ h' => h' = h) (fun _ _ => False).
Proof.
  intros Hg Hr. destruct (guard_live c h l id Hg Hr) as [e He]. unfold guard_get.
  apply (ensures_deref h l id e); [apply Hg|done|]. by apply ensures_ret.
Qed.

Lemma guard_get_mut_kept c h l id d inn out : good c h l -> permitted (GetMut id d inn out) c h ->
  ensures (guard_get_mut id d) h (fun _ h' => kept c h l (effect (GetMut id d inn out) None c) h') (fun _ _ => False).
Proof.
  intros Hg (Hown & Hr & e & He & Hperm & Hkey & Hpin). rewrite (good_slots_of c h l Hg) in He, Hpin. unfold guard_get_mut.
  apply (ensures_deref h l id e); [apply Hg|done|].
  destruct (set_slot_ok _ _ _ (set_data d e) e (ok_repr _ _ _ (gd_ok _ _ _ Hg)) He) as (es & Es & Hes).
  unfold ensures, put_entry. rewrite Es. apply (good_move c h l id e d es); try done; [|by right|].
  - intros x. specialize (Hown x). cbn [effect refs takes gives] in Hown |- *.
    assert (E : occ x (child_ids (data e)) + occ x inn = occ x (child_ids d) + occ x out) by (rewrite <- !occ_app; by rewrite Hperm).
    rewrite (occ_nil x : occ x (option_list None) = _). lia.
  - apply Hpin. rewrite (rds_same l id e (set_data d e) id He eq_refl), (gd_guards _ _ _ Hg). done.
Qed.

Lemma boundary_uuid_kept c h l fresh id : good c h l -> permitted (BoundaryUuid fresh id) c h ->
  ensures (boundary_uuid fresh id) h (fun _ h' => kept c h l (effect (BoundaryUuid fresh id) None c) h') (fun _ _ => False).
Proof.
  intros Hg (_ & Hr & e & He & [v d] & Hv). rewrite (good_slots_of c h l Hg) in Hr, He.
  assert (Hrep := ok_repr _ _ _ (gd_ok _ _ _ Hg)). destruct (boundary_same _ _ _ _ Hv) as [Ek Et].
  unfold boundary_uuid. apply ensures_bind, ensures_get, ensures_bind. unfold ensures at 1, slift at 1.
  rewrite (entry_ok _ _ _ _ Hrep He). apply ensures_bind. unfold ensures at 1, slift at 1. cbn [ok_or]. apply ensures_bind.
  unfold ensures at 1, slift at 1. rewrite Hv. cbn [ok_or fst snd].
  apply (ensures_put h l id (set_data d e) e); [done..|]. intros es Hes. apply ensures_modify_then, ensures_ret.
  assert (Hsame : forall R y, reach R l y -> reach R (<[id := Some (set_data d e)]> l) y).
  { intros R y. apply reach_mono; [done|]. intros z x _. rewrite kids_insert by by apply lookup_lt_Some in He.
    case_decide; [subst|done]. unfold kids. by rewrite He, <- Ek. }
  assert (Hk : kept c h l c (with_entries es h)).
  { apply (good_move c h l id e d es c); try done.
    - intros x. by rewrite Ek.
    - destruct (boundary_keeps _ _ _ _ Hv) as [|E]; [by left|right]. rewrite E. by eapply boundary_key.
    - intros x. rewrite (rds_same l id e (set_data d e) x He eq_refl). intros Hx. by apply Hsame, (gd_pinned _ _ _ Hg).
    - by apply Hsame. }
  eapply kept_same; [exact Hk|done|done| | |done|apply Hg].
  - intros l' Hg'. apply weak_ok_boundary; [apply Hg'|]. exists (set_data d e). split; [|by eapply boundary_key].
    rewrite <- (good_slots_of _ _ _ Hg'). unfold slots_of. rewrite (serialize_ok _ _ Hes : serialize (entries (with_entries es h)) = _).
    apply list_lookup_insert_eq. by apply lookup_lt_Some in He.
  - intros x. unfold ext. rewrite effect_idle by done. done.
Qed.

(** *** Releasing, and collecting *)

(** What a step keeps of the accounts, where the untracked entries stay off the cycles. *)
Definition stepped c h l (c' : client) (h' : heap) : Prop :=
  exists l', good c' h' l' /\ (contained l' -> tidy (ext c h) l -> tidy (ext c' h') l').

Lemma kept_stepped c h l c' h' : kept c h l c' h' -> stepped c h l c' h'.
Proof. intros (l' & Hg & Ht). exists l'. auto. Qed.

Lemma dec_ref_stepped c h l id : good c h l -> permitted (DecRef id) c h ->
  ensures (dec_ref id) h (fun _ h' => stepped c h l (effect (DecRef id) None c) h') (fun _ _ => False).
Proof.
  intros Hg [Hown Hpin]. rewrite (good_slots_of c h l Hg) in Hpin. cbn [takes] in Hown. pose proof Hg as [G1 G2 G3 G4].
  assert (Hid : 0 < refs c id) by (specialize (Hown id); rewrite occ_one in Hown; unfold one in Hown; rewrite decide_True in Hown by done; lia).
  assert (Hdrop : forall x, refs (effect (DecRef id) None c) x = drop_root (refs c) id x).
  { intros x. cbn [effect refs takes gives]. rewrite occ_one, occ_nil, (occ_nil x : occ x (option_list None) = _).
    unfold one, drop_root. case_decide; lia. }
  assert (Hreach : forall l1 x, reach (held (ext (effect (DecRef id) None c) h)) l1 x <-> reach (held (fun x => drop_root (refs c) id x + owned h x)) l1 x).
  { intros l1 x. split; apply reach_held_mono; try done; intros y; unfold ext; by rewrite Hdrop. }
  eapply ensures_mono; [apply (dec_ref_ensures (refs c) h l id G1 Hid)| |done].
  { intros x Hx. by apply Hreach, Hpin. }
  intros _ h' (l' & Hok & Hd & Hrest & Hpin' & Hkeep). pose proof Hrest as (T1 & T2 & T3 & T4 & T5). exists l'.
  assert (Hext : forall x, ext (effect (DecRef id) None c) h' x = drop_root (refs c) id x + owned h x).
  { intros x. unfold ext. by rewrite Hdrop, (same_rest_owned h h' x Hrest). }
  assert (Hrds : forall x, rds l' x = rds l x).
  { intros x. destruct (decide (0 < rds l x)) as [Hx|Hx].
    - assert (Hl : live l' x).
      { eapply reach_live; [apply Hok|]. apply Hpin, Hreach, Hkeep in Hx. revert Hx. apply reach_held_mono; [|done].
        intros y. by rewrite (same_rest_owned h h' y Hrest). }
      destruct Hl as [e' He']. destruct (dc_entry _ _ Hd x e' He') as (e & He & _ & Er & _). unfold rds. by rewrite He', He, Er.
    - unfold rds in *. destruct (l' !! x) as [[e'|]|] eqn:He'; [|lia..].
      destruct (dc_entry _ _ Hd x e' He') as (e & He & _ & Er & _). by rewrite He, Er. }
  split; [split|].
  - eapply heap_ok_same; [exact Hok|done|done|apply Hok|]. intros x. by rewrite Hdrop.
  - intros x. by rewrite Hrds.
  - intros x Hx. specialize (Hpin' x Hx). revert Hpin'. apply reach_held_mono; [|done]. intros y. by rewrite Hext.
  - by rewrite T5.
  - intros Hcont. apply (release_tidy (ext c h) _ l l' Hd); [apply G1| |intros x; rewrite Hext; unfold ext, drop_root; case_decide; lia|done].
    destruct (ok_counted _ _ _ Hok) as [C1 C2 C3 C4]. split; [|done|done|]; intros x; [intros e He|]; unfold ext; rewrite Hdrop; [by apply C1|apply C4].
Qed.

Lemma collected_reach (ext1 : nat -> nat) l l' x : collected ext1 l l' -> pinned ext1 l -> counted ext1 [] l ->
  reach (held ext1) l x -> reach (held ext1) l' x.
Proof.
  intros Hcl Hpin Hc. assert (Hin : forall y, reach (held ext1) l y -> in_use ext1 l y) by (intros y; apply reach_mono; [by left|done]).
  apply reach_mono; [done|]. intros y z Hy Hz. pose proof (kids_live _ _ _ Hz) as [e He].
  destruct (cl_keep _ _ _ Hcl y e He (Hin y Hy)) as (e' & He' & Ed & _). unfold kids in *. by rewrite He', Ed; rewrite He in Hz.
Qed.

Lemma in_use_held (ext1 : nat -> nat) l x : pinned ext1 l -> in_use ext1 l x <-> reach (held ext1) l x.
Proof.
  intros Hpin. split; [|apply reach_mono; [by left|done]]. induction 1 as [y [Hy|Hy]|y z _ IH Hz]; [by apply reach_root|auto|by eapply reach_kid].
Qed.

Lemma tidy_enrolled (ext1 : nat -> nat) l : tidy ext1 l -> enrolled ext1 l.
Proof.
  intros Ht x [e He]. destruct (Ht x e He) as [_ Ha]. clear e He. induction Ha as [y [Hy|Hy]|y z _ IH Hz].
  - left. apply reach_root. by left.
  - right. by apply reach_root.
  - destruct IH as [IH|IH]; [left|right]; by eapply reach_kid.
Qed.

Lemma collect_cycles_kept c h l : good c h l ->
  ensures collect_cycles h (fun _ h' => kept c h l c h') (fun _ _ => False).
Proof.
  intros Hg. pose proof Hg as [G1 G2 G3 G4]. pose proof (ok_counted _ _ _ G1) as Hc.
  eapply ensures_mono; [apply (collect_cycles_ensures (refs c) h l G1)| |done].
  intros n h' (l' & Hok & Hcl & Hn & Hp & Hsame). change (fun x => refs c x + owned h x) with (ext c h) in *.
  assert (Hext : forall x, ext c h' x = ext c h x) by (intros x; unfold ext; by rewrite (same_owner_owned h h' x Hsame)).
  assert (Hreach : forall x, reach (held (ext c h)) l x -> reach (held (ext c h')) l' x).
  { intros x Hx. apply (collected_reach _ l l' x Hcl G3 Hc) in Hx. revert Hx. apply reach_held_mono; [|done]. intros y. by rewrite Hext. }
  exists l'. split; [split|].
  - done.
  - intros x. rewrite <- G2. unfold rds at 1. destruct (l' !! x) as [[e'|]|] eqn:He'.
    + destruct (cl_old _ _ _ Hcl x e' He') as (e & He & _ & Er). unfold rds. by rewrite He, Er.
    + destruct (decide (0 < rds l x)) as [Hx|Hx]; [|lia]. apply G3, Hreach in Hx. eapply reach_live in Hx as [e He]; [|apply Hok]. congruence.
    + destruct (decide (0 < rds l x)) as [Hx|Hx]; [|lia]. apply G3, Hreach in Hx. eapply reach_live in Hx as [e He]; [|apply Hok]. congruence.
  - intros x Hx. apply Hreach, G3. unfold rds in *. destruct (l' !! x) as [[e'|]|] eqn:He'; [|lia..].
    destruct (cl_old _ _ _ Hcl x e' He') as (e & He & _ & Er). rewrite He. lia.
  - destruct Hsame as (_ & _ & _ & ->). done.
  - intros Ht x e' He'. assert (Hu : reach (held (ext c h')) l' x).
    { apply Hreach, in_use_held; [done|]. apply (cl_all _ _ _ Hcl); [by apply tidy_enrolled|by exists e']. }
    split; [|by revert Hu; apply reach_mono; [by left|]]. pose proof (ct_rc _ _ _ (ok_counted _ _ _ Hok) x e' He') as E.
    cbn beta in E. inversion Hu as [y Hx|y z Hy Hk]; subst; [unfold held, ext in Hx; lia|].
    destruct (decide (in_edges l' x = 0)) as [Hz|]; [|lia]. rewrite in_edges_zero in Hz. by destruct (Hz y).
Qed.

(** ** Runs *)

Lemma perform_ensures o c h l : good c h l -> permitted o c h ->
  ensures (perform o) h (fun r h' => stepped c h l (effect o r c) h') (fun _ _ => False).
Proof.
  intros Hg Hp. destruct o as [d|id|id|id|id|id d inn out|id| |name|uuid ty|fresh id| |slot id|]; cbn [perform].
  - apply (kept_allocate c h l); [done|apply Hp|]. intros id h' Hk _ _ _. by apply ensures_ret, kept_stepped.
  - destruct Hp as [_ Hp]. rewrite (good_slots_of c h l Hg) in Hp.
    apply (kept_inc_ref c h l); [done|by eapply good_live|]. intros h' Hk _. apply ensures_ret, kept_stepped.
    apply (kept_books _ _ _ _ _ _ Hk); [|done]. intros x. by apply effect_plus.
  - apply ensures_bind. eapply ensures_mono; [by apply dec_ref_stepped| |done]. intros u h' Hk. by apply ensures_ret.
  - destruct Hp as [_ Hp]. rewrite (good_slots_of c h l Hg) in Hp. apply ensures_bind.
    eapply ensures_mono; [by apply read_kept| |done]. intros u h' Hk. by apply ensures_ret, kept_stepped.
  - apply ensures_bind. eapply ensures_mono; [by apply (guard_get_kept c h l), Hp| |done]. intros u h' ->. apply ensures_ret, kept_stepped.
    apply (kept_books c h l c _ h (kept_refl c h l Hg)); [|done]. intros x. by apply effect_idle.
  - apply ensures_bind. eapply ensures_mono; [by apply guard_get_mut_kept| |done]. intros u h' Hk. by apply ensures_ret, kept_stepped.
  - apply ensures_bind. eapply ensures_mono; [by apply end_read_kept, Hp| |done]. intros u h' Hk. by apply ensures_ret, kept_stepped.
  - apply ensures_bind. eapply ensures_mono; [by apply get_empty_tuple_kept| |done]. intros u h' Hk. by apply ensures_ret, kept_stepped.
  - apply ensures_bind. eapply ensures_mono; [by apply get_ext_function_kept| |done]. intros u h' Hk. by apply ensures_ret, kept_stepped.
  - apply ensures_bind. eapply ensures_mono; [by apply allocate_host_type_kept| |done]. intros u h' Hk. by apply ensures_ret, kept_stepped.
  - apply ensures_bind. eapply ensures_mono; [by apply boundary_uuid_kept| |done]. intros u h' Hk. by apply ensures_ret, kept_stepped.
  - apply ensures_bind. eapply ensures_mono; [by apply get_timezone_utc_kept| |done]. intros u h' Hk. by apply ensures_ret, kept_stepped.
  - eapply ensures_mono; [by apply replace_decimal_context_kept| |done]. intros r h' Hk. by apply kept_stepped.
  - apply ensures_bind. eapply ensures_mono; [by apply collect_cycles_kept| |done]. intros u h' Hk. apply ensures_ret, kept_stepped.
    apply (kept_books _ _ _ _ _ _ Hk); [|done]. intros x. by apply effect_idle.
Qed.
End Run.

(** Dumps of the heap ([crates/monty/src/heap/mod.rs], [Serialize] and [Deserialize] for
    [Heap], [restore_entries]): what is written, the weak indexes rebuilt on loading, and
    the colours a dump may not hold. *)

(** The fields a dump holds. *)
Record HeapFields (D : Type) := {
  f_entries : list (option (HeapEntry D));
  f_tracker : ResourceTracker;
  f_purple_count : nat;
  f_allocations_since_gc : Z;
  f_timezone_utc : option nat;
  f_decimal_contexts : list (option nat) }.
Arguments f_entries {D} _.
Arguments f_tracker {D} _.
Arguments f_purple_count {D} _.
Arguments f_allocations_since_gc {D} _.
Arguments f_timezone_utc {D} _.
Arguments f_decimal_contexts {D} _.

Record WeakIndexes := { w_ext_function_cache : gmap str nat; w_boundary_index : gmap Z nat; w_host_type_index : gmap Z nat }.

Definition no_indexes : WeakIndexes := {| w_ext_function_cache := ∅; w_boundary_index := ∅; w_host_type_index := ∅ |}.

Inductive restore_error := TransientColor | Faulted (f : fault).

Section Dump.
Context {D : Type} `{PayloadLaws D}.

Abbreviation heap := (Heap D).
Abbreviation slots := (list (option (HeapEntry D))).
Implicit Types (l : slots) (h : heap) (e : HeapEntry D) (x id : nat) (c : client).

(** The field of an entry that is not written comes back as its default. *)
Definition skip_readers (o : option (HeapEntry D)) : option (HeapEntry D) := set_readers 0 <$> o.

Definition heap_serialize h : result (HeapFields D) fault :=
  let? es := serialize (entries h) in
  Ok {| f_entries := map skip_readers es; f_tracker := reload (tracker h); f_purple_count := purple_count h;
        f_allocations_since_gc := allocations_since_gc h; f_timezone_utc := timezone_utc h;
        f_decimal_contexts := decimal_contexts h |}.

Definition index_key (key : option WeakIndexKey) id (ix : WeakIndexes) : WeakIndexes :=
  match key with
  | Some (KExtFunction name) =>
      {| w_ext_function_cache := <[name := id]> (w_ext_function_cache ix); w_boundary_index := w_boundary_index ix;
         w_host_type_index := w_host_type_index ix |}
  | Some (KBoundary uuid) =>
      {| w_ext_function_cache := w_ext_function_cache ix; w_boundary_index := <[uuid := id]> (w_boundary_index ix);
         w_host_type_index := w_host_type_index ix |}
  | Some (KHostType uuid) =>
      {| w_ext_function_cache := w_ext_function_cache ix; w_boundary_index := w_boundary_index ix;
         w_host_type_index := <[uuid := id]> (w_host_type_index ix) |}
  | None => ix
  end.

(** The slots [i], [i + 1], ..., [n] of them. *)
Fixpoint restore_entries (n i : nat) (es : StableHeap (HeapEntry D)) (ix : WeakIndexes) : result WeakIndexes restore_error :=
  match n with
  | O => Ok ix
  | S n =>
      let? slot := map_err Faulted (entry es i) in
      match slot with
      | None => restore_entries n (i + 1) es ix
      | Some e =>
          if bool_decide (color e = Gray \/ color e = White) then Err TransientColor
          else restore_entries n (i + 1) es (index_key (weak_index_key (data e)) i ix)
      end
  end.

Definition heap_deserialize (f : HeapFields D) : result heap restore_error :=
  let? es := map_err Faulted (deserialize (map skip_readers (f_entries f))) in
  let? ix := restore_entries (len es) 0 es no_indexes in
  Ok {| entries := es; tracker := f_tracker f; purple_count := f_purple_count f;
        allocations_since_gc := f_allocations_since_gc f; gc_disabled := false; timezone_utc := f_timezone_utc f;
        decimal_contexts := f_decimal_contexts f; ext_function_cache := w_ext_function_cache ix;
        boundary_index := w_boundary_index ix; host_type_index := w_host_type_index ix |}.

(** ** What loading rebuilds *)

Definition find_key (key : WeakIndexKey) (ix : WeakIndexes) : option nat :=
  match key with
  | KExtFunction name => w_ext_function_cache ix !! name
  | KBoundary uuid => w_boundary_index ix !! uuid
  | KHostType uuid => w_host_type_index ix !! uuid
  end.

Lemma find_index_key key k id ix :
  find_key key (index_key k id ix) = if decide (k = Some key) then Some id else find_key key ix.
Proof.
  destruct key as [a|a|a], k as [[b|b|b]|]; cbn; try (rewrite decide_False by congruence; done);
    (destruct (decide (a = b)) as [->|Hne];
      [rewrite lookup_insert_eq, decide_True by done; done|rewrite lookup_insert_ne, decide_False by congruence; done]).
Qed.

(** [ix] holds live entries that have their keys, and one for every key of the slots below [i]. *)
Record rebuilt l (i : nat) (ix : WeakIndexes) : Prop := {
  rb_sound : forall key id, find_key key ix = Some id -> indexed key id l;
  rb_all : forall key id, id < i -> indexed key id l -> is_Some (find_key key ix);
  rb_color : forall x k, x < i -> col l x = Some k -> k = Black \/ k = Purple }.

Lemma rebuilt_none l i ix : l !! i = Some None -> rebuilt l i ix -> rebuilt l (i + 1) ix.
Proof.
  intros Hi [B1 B2 B3]. split; [done| |].
  - intros key id Hlt (e & He & Hk). apply (B2 key id); [|by exists e]. destruct (decide (id = i)) as [->|]; [congruence|lia].
  - intros x k Hlt Hk. apply (B3 x k); [|done]. destruct (decide (x = i)) as [->|]; [|lia]. unfold col in Hk. by rewrite Hi in Hk.
Qed.

Lemma rebuilt_some l i e ix : l !! i = Some (Some e) -> ~ (color e = Gray \/ color e = White) -> rebuilt l i ix ->
  rebuilt l (i + 1) (index_key (weak_index_key (data e)) i ix).
Proof.
  intros Hi Hc [B1 B2 B3]. split.
  - intros key id. rewrite find_index_key. case_decide as Hk; [|apply B1]. intros [= <-]. by exists e.
  - intros key id Hlt Hid. rewrite find_index_key. case_decide as Hk; [done|]. apply (B2 key id); [|done].
    destruct (decide (id = i)) as [->|]; [|lia]. destruct Hid as (f & Hf & Hf'). congruence.
  - intros x k Hlt Hk. destruct (decide (x = i)) as [->|]; [|apply (B3 x k); [lia|done]].
    unfold col in Hk. rewrite Hi in Hk. injection Hk as <-. destruct (color e); tauto.
Qed.

(** Every dump either is refused for its colours or gives whole indexes. *)
Lemma restore_entries_spec es l : repr es l -> forall n i ix, i + n = length l -> rebuilt l i ix ->
  match restore_entries n i es ix with
  | Ok ix' => rebuilt l (length l) ix'
  | Err TransientColor => ~ resting l
  | Err (Faulted _) => False
  end.
Proof.
  intros Hr. induction n as [|n IH]; intros i ix Hi Hb; cbn [restore_entries].
  { by replace (length l) with i by lia. }
  destruct (lookup_lt_is_Some_2 l i ltac:(lia)) as [o Ho]. rewrite (entry_ok _ _ _ _ Hr Ho). cbn [map_err].
  destruct o as [e|]; cbn [rbind]; [|apply IH; [lia|by apply rebuilt_none]]. case_bool_decide as Hc.
  - intros Hrest. destruct (Hrest i (color e)) as [E|E]; [unfold col; by rewrite Ho|..]; destruct Hc as [Hc|Hc]; congruence.
  - apply IH; [lia|by apply rebuilt_some].
Qed.

Lemma skip_readers_id l : (forall x, rds l x = 0) -> map skip_readers l = l.
Proof.
  intros Hr. apply list_eq. intros x. change (map skip_readers l) with (skip_readers <$> l). rewrite list_lookup_fmap.
  specialize (Hr x). unfold rds in Hr. destruct (l !! x) as [[e|]|]; [|done..]. cbn. do 2 f_equal. destruct e; cbn in *. by rewrite Hr.
Qed.

(** Only the colours of a dump matter. *)
Lemma transient_skipped l : ~ resting (map skip_readers l) -> ~ resting l.
Proof.
  intros Hn Hr. apply Hn. intros x k Hk. apply (Hr x k). unfold col in *.
  change (map skip_readers l) with (skip_readers <$> l) in Hk. rewrite list_lookup_fmap in Hk.
  destruct (l !! x) as [[e|]|]; done.
Qed.

Lemma rebuilt_nothing l : rebuilt l 0 no_indexes.
Proof. split; [by intros [] id|lia|lia]. Qed.

(** Loading a dump without guards gives the same slots and books. *)
Lemma restore_good c h l : good c h l -> (forall x, guards c x = 0) ->
  exists f h', heap_serialize h = Ok f /\ heap_deserialize f = Ok h' /\ good c h' l /\ tracker h' = reload (tracker h)
    /\ rebuilt l (length l) {| w_ext_function_cache := ext_function_cache h'; w_boundary_index := boundary_index h'; w_host_type_index := host_type_index h' |}
    /\ timezone_utc h' = timezone_utc h /\ decimal_contexts h' = decimal_contexts h
    /\ allocations_since_gc h' = allocations_since_gc h.
Proof.
  intros Hg Hno. pose proof Hg as [[K1 K2 K3 K4 K5] G2 G3 G4]. unfold heap_serialize. rewrite (serialize_ok _ _ K1). cbn [rbind].
  rewrite (skip_readers_id l) by (intros x; by rewrite G2). destruct (deserialize_ok l) as (es & Ed & Hes).
  pose proof (restore_entries_spec es l Hes (len es) 0 no_indexes (repr_len _ _ Hes) (rebuilt_nothing l)) as Hix.
  destruct (restore_entries (len es) 0 es no_indexes) as [ix|[|f]] eqn:Eix; [|done..]. do 2 eexists. split; [reflexivity|].
  unfold heap_deserialize. cbn [f_entries f_tracker f_purple_count f_allocations_since_gc f_timezone_utc f_decimal_contexts].
  rewrite (skip_readers_id l) by (intros x; by rewrite G2). rewrite Ed. cbn [map_err rbind]. rewrite Eix. cbn [rbind]. split; [reflexivity|].
  split; [|by destruct ix]. split; [|done..]. split; try done. cbn. destruct Hix as [B1 _ _].
  split; cbn; intros k i Hk; [apply (B1 (KExtFunction k))|apply (B1 (KBoundary k))|apply (B1 (KHostType k))]; done.
Qed.
End Dump.
