(* ===== verification/HeapData.v ===== *)
(** The payloads of the heap ([crates/monty/src/heap_data.rs] and the types it names) and
    the two walkers over the references they own: [for_each_child_id], which the collector
    uses, and [py_dec_ref_ids_for_data], which frees.

    A payload is modelled by the fields that hold a reference, a flag the walkers test, or
    a key of a weak index; fields that are plain data (text, numbers, cursors) are left
    out. Dict and set storage is the hash table of [HashTable]. *)
From S2P Require Import Prelude Str HashTable.
Local Open Scope monty_scope.

(** ** Values ([value.rs]) *)

Inductive Value :=
| VUndefined | VEllipsis | VNotImplemented | VNone
| VBool (b : bool) | VInt (i : Z) | VFloat (bits : Z)
| VInternString (id : nat) | VInlineString (s : str) | VInternBytes (id : nat) | VInternLongInt (id : nat)
| VBuiltin (id : nat) | VModuleFunction (id : nat) | VDefFunction (id : nat) | VMarker (id : nat) | VProperty (id : nat)
| VRef (id : nat)
| VDereferenced.

#[export] Instance value_undefined : HasUndefined Value := {
  Undefined := VUndefined;
  is_undefined v := match v with VUndefined => true | _ => false end;
  is_undefined_marker := eq_refl }.

(** [if let Value::Ref(id) = value { on_child(id) }]. *)
Definition on_value (v : Value) : list nat := match v with VRef id => [id] | _ => [] end.
Definition on_values (vs : list Value) : list nat := concat (map on_value vs).
Definition on_optional (v : option Value) : list nat := match v with Some (VRef id) => [id] | _ => [] end.

(** [Value::py_dec_ref_ids]. *)
Definition value_dec (v : Value) : list nat := match v with VRef id => [id] | _ => [] end.
Definition values_dec (vs : list Value) : list nat := concat (map value_dec vs).
Definition optional_dec (v : option Value) : list nat := match v with Some v => value_dec v | None => [] end.

Definition is_ref (v : Value) : bool := match v with VRef _ => true | _ => false end.

(** ** Dicts and sets *)

Inductive DictSpecial := DefaultOf (factory : option Value) | Counter.

Record Dict := { d_table : PyHashTable (DictEntry Value); d_contains_refs : bool; d_kind : option DictSpecial }.

Definition dict_live (d : Dict) : list (DictEntry Value) := live_entries (Value := Value) (RunError := RunError) (d_table d).
Definition dict_take (d : Dict) : list (DictEntry Value) := fst (take_entries (Value := Value) (RunError := RunError) (d_table d)).

Definition default_factory (d : Dict) : option Value :=
  match d_kind d with Some (DefaultOf factory) => factory | None | Some Counter => None end.

(** The loop [for (k, v) in dict] of a walker. *)
Definition on_entries (es : list (DictEntry Value)) : list nat :=
  concat (map (fun e => on_value (de_key e) ++ on_value (de_value e)) es).

(** [Dict::py_dec_ref_ids]. *)
Definition dict_dec (d : Dict) : list nat :=
  match d_kind d with Some (DefaultOf (Some factory)) => on_value factory | _ => [] end
  ++ (if negb (d_contains_refs d) then [] else on_entries (dict_take d)).

Definition set_live (t : PyHashTable (SetEntry Value)) : list Value :=
  map se_value (live_entries (Value := Value) (RunError := RunError) t).

(** [SetStorage::collect_dec_ref_ids]. *)
Definition collect_dec_ref_ids (t : PyHashTable (SetEntry Value)) : list nat :=
  concat (map (fun e => on_value (se_value e)) (fst (take_entries (Value := Value) (RunError := RunError) t))).

(** ** The other payloads *)

Record Seq := { q_items : list Value; q_contains_refs : bool }.
Record NamedTuple := { nt_items : list Value; nt_class_id : option nat; nt_contains_refs : bool }.
Record NamedTupleClass := { nc_defaults : list Value; nc_module : Value; nc_contains_refs : bool }.
Record Closure := { cl_cells : list nat; cl_defaults : list Value; cl_globals : option nat }.
Record FunctionDefaults := { fd_defaults : list Value; fd_globals : option nat }.
Record ExceptionChain := { xc_cause : option nat; xc_context : option nat }.
Record HostClass := { hc_class_id : nat; hc_attrs : Dict }.
Record HostClassType := { ht_type_id : Z; ht_attrs : Dict }.
Record ClassObject := { co_namespace : Dict; co_uuid : option Z }.
Record Instance_ := { in_class : nat; in_attrs : Dict; in_uuid : option Z }.
Record BoundMethod := { bm_instance : Value; bm_func : Value }.
Record DataclassField := { df_annotation : option Value; df_default : option Value; df_default_factory : option Value }.

Inductive FieldInit := Unsupplied | FromDefault (v : Value) | FromFactory (v : Value).
Inductive MethodKind := Init (fields : list FieldInit) | Repr | Eq | Hash | FrozenSetattr | FrozenDelattr.

Inductive TupleIteratorSource := OfTuple (id : nat) | OfNamedTuple (id : nat).
Inductive SetIteratorSource := OfSet (id : nat) | OfFrozenSet (id : nat).
Inductive StringIteratorSource := StrIntern (id : nat) | StrInline (s : str) | StrHeap (id : nat).
Inductive BytesIteratorSource := BytesIntern (id : nat) | BytesHeap (id : nat).

Record CallableIterator := { ci_callable : Value; ci_sentinel : Value }.
Record Module_ := { mo_attrs : Dict; mo_namespace : option nat }.
Record Coroutine := { cr_namespace : list Value; cr_globals : option nat }.

Inductive Awaiter := TaskAwaiter (task : nat) | GatherSlot (gather source : nat).
Inductive GatherState := GPending | GAwaited (awaiter : Awaiter) (results : list (option Value)) | GCompleted (v : Value) | GFailed.
Record GatherFuture := { ga_items : list nat; ga_state : GatherState }.
Inductive ExternalFutureState := EPending (awaiter : option Awaiter) | EResolved (v : Value) | EFailed.
Record ExternalFuture := { ex_state : ExternalFutureState; ex_sleep_result : option Value }.

Record Partial := { pa_func : Value; pa_args : list Value; pa_keywords : list (Value * Value) }.

Inductive FrameGlobals := GlobalSlots | GlobalDict (id : nat).
Record ForwardRef := { fr_arg : Value; fr_module : Value; fr_owner : Value; fr_globals : option FrameGlobals }.

Record CacheEntry := { ce_key : Value; ce_value : Value; ce_hash : Z; ce_stamp : Z }.

#[export] Instance cache_entry : TableEntry Value RunError CacheEntry := {
  probe_key := ce_key;
  hash := ce_hash;
  tombstone := {| ce_key := VUndefined; ce_value := VUndefined; ce_hash := 0; ce_stamp := 0 |};
  is_live e := negb (is_undefined (ce_key e));
  changed_size_error := runtime_error_dict_changed_size;
  changed_keys_error := None }.

Record LruCache := { lc_func : option Value; lc_cache : PyHashTable CacheEntry }.

Inductive DirScan := ScanEntry | Scandir | Walk (onerror : Value) (pending_dirnames : option nat).
Record ContextManager := { cm_local : nat; cm_saved : option nat }.

Inductive ChainSources := ChainArgs (iterables : list Value) (next : nat) | ChainOuter (v : Value).

Inductive ItertoolsIter :=
| Count (current step : Value)
| Repeat (object : Value)
| Pairwise (source previous : option Value)
| Compress (data selectors : Value)
| Islice (source : option Value)
| ChainIter (sources : ChainSources) (current : option Value)
| Cycle (source : option Value) (saved : list Value)
| TakeWhile (predicate source : option Value)
| DropWhile (predicate source : Value)
| FilterFalse (predicate source : Value)
| StarMap (function source : Value)
| Accumulate (source func : Value) (total : option Value)
| Batched (source : option Value)
| ZipLongest (sources : list (option Value)) (fillvalue : Value)
| Combinations (pool : list Value)
| Permutations (pool : list Value)
| Product (pools : list (list Value))
| GroupBy (source keyfunc : Value) (target_key current_key current_value : option Value)
| Grouper (parent target_key : Value)
| Tee (block : Value)
| TeeBlock (source : Value) (items : list Value) (next : option Value).

Inductive CsvObject :=
| CsvReader (source : Value)
| CsvWriter (target write : Value)
| CsvDictReader (reader : Value) (fieldnames : option Value) (restkey restval dialect : Value)
| CsvDictWriter (writer fieldnames restval extrasaction : Value)
| CsvDialect.

(** The variants in the order of the registry. *)
Inductive HeapData :=
| DStr | DBytes
| DList (l : Seq) | DDeque (q : Seq) | DTuple (t : Seq)
| DNamedTuple (nt : NamedTuple) | DNamedTupleClass (c : NamedTupleClass)
| DDict (d : Dict)
| DDictKeysView (dict_id : nat) | DDictItemsView (dict_id : nat) | DDictValuesView (dict_id : nat)
| DSet (t : PyHashTable (SetEntry Value)) | DFrozenSet (t : PyHashTable (SetEntry Value))
| DClosure (c : Closure) | DFunctionDefaults (f : FunctionDefaults) | DCell (v : Value)
| DRange | DSlice
| DException (chain : option ExceptionChain)
| DHostClass (c : HostClass) | DHostClassType (t : HostClassType)
| DClass (c : ClassObject) | DInstance (i : Instance_) | DBoundMethod (m : BoundMethod)
| DDataclassField (f : DataclassField) | DDataclassMethod (kind : MethodKind)
| DListIterator (list_id : nat) | DDequeIterator (deque_id : nat) | DTupleIterator (source : TupleIteratorSource)
| DStringIterator (source : StringIteratorSource) | DBytesIterator (source : BytesIteratorSource) | DRangeIterator
| DDictKeyIterator (dict : nat) | DDictItemIterator (dict : nat) | DDictValueIterator (dict : nat)
| DSetIterator (source : SetIteratorSource) | DCallableIterator (i : CallableIterator)
| DLongInt | DComplex
| DModule (m : Module_) | DCoroutine (c : Coroutine) | DGatherFuture (g : GatherFuture) | DExternalFuture (f : ExternalFuture)
| DPath | DOpenFile (buffer : option nat) | DRePattern | DReMatch (subject : Value)
| DExtFunction (name : str)
| DDate | DDateTime (tzinfo_ref : option nat) | DTimeDelta | DTimeZone
| DItertools (i : ItertoolsIter) | DDataclassParams | DTime (tzinfo : option nat)
| DPartial (p : Partial) | DGenericAlias (args : Value) | DUnion (args : Value) | DForwardRef (f : ForwardRef)
| DRandom | DLruCache (c : LruCache) | DHashObject | DDirScan (s : DirScan) | DCsv (c : CsvObject)
| DDecimal | DDecimalContext | DDecimalSignalDict (context : nat) | DDecimalContextManager (m : ContextManager).

(** ** The walker of the collector *)

Definition opt_id (o : option nat) : list nat := match o with Some id => [id] | None => [] end.

Definition source_of_tuple (s : TupleIteratorSource) : nat := match s with OfTuple id | OfNamedTuple id => id end.
Definition source_of_set (s : SetIteratorSource) : nat := match s with OfSet id | OfFrozenSet id => id end.
Definition source_of_string (s : StringIteratorSource) : option nat :=
  match s with StrIntern _ => None | StrInline _ => None | StrHeap id => Some id end.
Definition source_of_bytes (s : BytesIteratorSource) : option nat :=
  match s with BytesIntern _ => None | BytesHeap id => Some id end.

(** [SimpleException::owned_chain_ids]. *)
Definition owned_chain_ids (chain : option ExceptionChain) : list nat :=
  match chain with Some c => opt_id (xc_cause c) ++ opt_id (xc_context c) | None => [] end.

(** [ContextManager::context_ids]. *)
Definition context_ids (m : ContextManager) : list nat := cm_local m :: opt_id (cm_saved m).

(** [DataclassField::ref_children] and [DataclassMethod::ref_children]. *)
Definition field_ref_children (f : DataclassField) : list nat :=
  concat (map on_optional [df_annotation f; df_default f; df_default_factory f]).
Definition init_value (i : FieldInit) : option Value :=
  match i with Unsupplied => None | FromDefault v | FromFactory v => Some v end.
Definition method_ref_children (k : MethodKind) : list nat :=
  let fields := match k with Init fields => fields | _ => [] end in
  concat (map (fun i => on_optional (init_value i)) fields).

Definition globals_dict (f : ForwardRef) : option nat :=
  match fr_globals f with Some (GlobalDict id) => Some id | Some GlobalSlots | None => None end.
Definition owned_values (p : Partial) : list Value :=
  pa_func p :: pa_args p ++ concat (map (fun '(name, value) => [name; value]) (pa_keywords p)).
Definition cache_live (c : LruCache) : list CacheEntry := live_entries (Value := Value) (RunError := RunError) (lc_cache c).
Definition cache_take (c : LruCache) : list CacheEntry := fst (take_entries (Value := Value) (RunError := RunError) (lc_cache c)).

Definition chain_sources_child_ids (s : ChainSources) : list nat :=
  match s with ChainArgs iterables _ => on_values iterables | ChainOuter (VRef id) => [id] | ChainOuter _ => [] end.

Definition itertools_child_ids (i : ItertoolsIter) : list nat :=
  match i with
  | Count current step => on_value current ++ on_value step
  | Repeat object => on_value object
  | Pairwise source previous => on_optional source ++ on_optional previous
  | Compress data selectors => on_value data ++ on_value selectors
  | Islice source => on_optional source
  | ChainIter sources current => chain_sources_child_ids sources ++ on_optional current
  | Cycle source saved => on_optional source ++ on_values saved
  | TakeWhile predicate source => on_optional predicate ++ on_optional source
  | DropWhile predicate source => on_value predicate ++ on_value source
  | FilterFalse predicate source => on_value predicate ++ on_value source
  | StarMap function source => on_value function ++ on_value source
  | Accumulate source func total => on_value source ++ on_value func ++ on_optional total
  | Batched source => on_optional source
  | ZipLongest sources fillvalue => concat (map on_optional sources) ++ on_value fillvalue
  | Combinations pool => on_values pool
  | Permutations pool => on_values pool
  | Product pools => concat (map on_values pools)
  | GroupBy source keyfunc target_key current_key current_value =>
      concat (map on_value [source; keyfunc]) ++ concat (map on_optional [target_key; current_key; current_value])
  | Grouper parent target_key => concat (map on_value [parent; target_key])
  | Tee block => on_value block
  | TeeBlock source items next => concat (map on_optional [Some source; next]) ++ on_values items
  end.

Definition csv_child_ids (c : CsvObject) : list nat :=
  match c with
  | CsvReader source => on_value source
  | CsvWriter target write => on_values [target; write]
  | CsvDictReader reader fieldnames restkey restval dialect =>
      concat (map on_optional [Some reader; fieldnames; Some restkey; Some restval; Some dialect])
  | CsvDictWriter writer fieldnames restval extrasaction => on_values [writer; fieldnames; restval; extrasaction]
  | CsvDialect => []
  end.

Definition gather_child_ids (g : GatherFuture) : list nat :=
  ga_items g ++
  match ga_state g with
  | GAwaited awaiter results =>
      match awaiter with GatherSlot gather _ => [gather] | TaskAwaiter _ => [] end ++ concat (map on_optional results)
  | GCompleted (VRef id) => [id]
  | GPending | GFailed | GCompleted _ => []
  end.

Definition external_child_ids (f : ExternalFuture) : list nat :=
  on_optional (ex_sleep_result f) ++
  match ex_state f with
  | EResolved (VRef id) => [id]
  | EPending (Some (GatherSlot gather _)) => [gather]
  | _ => []
  end.

Definition for_each_child_id (data : HeapData) : list nat :=
  match data with
  | DList l => if negb (q_contains_refs l) then [] else on_values (q_items l)
  | DDeque q => if negb (q_contains_refs q) then [] else on_values (q_items q)
  | DTuple t => if negb (q_contains_refs t) then [] else on_values (q_items t)
  | DNamedTuple nt => opt_id (nt_class_id nt) ++ (if negb (nt_contains_refs nt) then [] else on_values (nt_items nt))
  | DNamedTupleClass c => if negb (nc_contains_refs c) then [] else on_values (nc_defaults c ++ [nc_module c])
  | DDict d => on_optional (default_factory d) ++ (if negb (d_contains_refs d) then [] else on_entries (dict_live d))
  | DDictKeysView id | DDictItemsView id | DDictValuesView id => [id]
  | DSet t | DFrozenSet t => on_values (set_live t)
  | DClosure c => cl_cells c ++ on_values (cl_defaults c) ++ opt_id (cl_globals c)
  | DFunctionDefaults f => on_values (fd_defaults f) ++ opt_id (fd_globals f)
  | DCell v => on_value v
  | DHostClass c => hc_class_id c :: on_entries (dict_live (hc_attrs c))
  | DHostClassType t => on_entries (dict_live (ht_attrs t))
  | DClass c => on_entries (dict_live (co_namespace c))
  | DInstance i => in_class i :: on_entries (dict_live (in_attrs i))
  | DBoundMethod m => on_value (bm_instance m) ++ on_value (bm_func m)
  | DDataclassField f => field_ref_children f
  | DDataclassMethod k => method_ref_children k
  | DListIterator id | DDequeIterator id => [id]
  | DTupleIterator s => [source_of_tuple s]
  | DStringIterator s => opt_id (source_of_string s)
  | DBytesIterator s => opt_id (source_of_bytes s)
  | DRangeIterator => []
  | DDictKeyIterator id | DDictItemIterator id | DDictValueIterator id => [id]
  | DSetIterator s => [source_of_set s]
  | DCallableIterator i => on_value (ci_callable i) ++ on_value (ci_sentinel i)
  | DDirScan (Walk onerror pending) => on_value onerror ++ opt_id pending
  | DDirScan _ => []
  | DItertools i => itertools_child_ids i
  | DCsv c => csv_child_ids c
  | DPartial p => on_values (owned_values p)
  | DGenericAlias args => on_value args
  | DUnion args => on_value args
  | DForwardRef f => on_values [fr_arg f; fr_module f; fr_owner f] ++ opt_id (globals_dict f)
  | DLruCache c => on_optional (lc_func c) ++ concat (map (fun e => on_value (ce_key e) ++ on_value (ce_value e)) (cache_live c))
  | DModule m => opt_id (mo_namespace m) ++ (if d_contains_refs (mo_attrs m) then on_entries (dict_live (mo_attrs m)) else [])
  | DCoroutine c => on_values (cr_namespace c) ++ opt_id (cr_globals c)
  | DGatherFuture g => gather_child_ids g
  | DExternalFuture f => external_child_ids f
  | DDateTime tz => opt_id tz
  | DTime tz => opt_id tz
  | DOpenFile buffer => opt_id buffer
  | DReMatch subject => on_value subject
  | DDecimalSignalDict context => [context]
  | DDecimalContextManager m => context_ids m
  | DException chain => owned_chain_ids chain
  | _ => []
  end.

(** ** The walker that frees *)

(** [py_dec_ref_ids] of a list, a deque or a tuple. *)
Definition seq_dec (q : Seq) : list nat := if negb (q_contains_refs q) then [] else on_values (q_items q).
Definition namedtuple_dec (nt : NamedTuple) : list nat :=
  opt_id (nt_class_id nt) ++ (if negb (nt_contains_refs nt) then [] else on_values (nt_items nt)).
Definition namedtuple_class_dec (c : NamedTupleClass) : list nat :=
  if negb (nc_contains_refs c) then [] else on_values (nc_defaults c ++ [nc_module c]).
Definition host_class_dec (c : HostClass) : list nat := hc_class_id c :: dict_dec (hc_attrs c).
Definition host_class_type_dec (t : HostClassType) : list nat := dict_dec (ht_attrs t).
Definition class_dec (c : ClassObject) : list nat := dict_dec (co_namespace c).
Definition instance_dec (i : Instance_) : list nat := in_class i :: dict_dec (in_attrs i).
Definition bound_method_dec (m : BoundMethod) : list nat := value_dec (bm_instance m) ++ value_dec (bm_func m).
Definition field_dec (f : DataclassField) : list nat :=
  concat (map value_dec (omap (fun o => o) [df_annotation f; df_default f; df_default_factory f])).
Definition method_dec (k : MethodKind) : list nat :=
  match k with
  | Init fields => concat (map (fun i => match i with FromDefault v | FromFactory v => value_dec v | Unsupplied => [] end) fields)
  | _ => []
  end.
Definition callable_iterator_dec (i : CallableIterator) : list nat := value_dec (ci_callable i) ++ value_dec (ci_sentinel i).
Definition dir_scan_dec (s : DirScan) : list nat :=
  match s with Walk onerror pending => value_dec onerror ++ opt_id pending | _ => [] end.
Definition partial_dec (p : Partial) : list nat :=
  value_dec (pa_func p) ++ values_dec (pa_args p)
  ++ concat (map (fun '(name, value) => value_dec name ++ value_dec value) (pa_keywords p)).
Definition forward_ref_dec (f : ForwardRef) : list nat :=
  value_dec (fr_arg f) ++ value_dec (fr_module f) ++ value_dec (fr_owner f) ++ opt_id (globals_dict f).
Definition lru_cache_dec (c : LruCache) : list nat :=
  optional_dec (lc_func c) ++ concat (map (fun e => value_dec (ce_key e) ++ value_dec (ce_value e)) (cache_take c)).
Definition module_dec (m : Module_) : list nat := dict_dec (mo_attrs m) ++ opt_id (mo_namespace m).

Definition chain_sources_dec (s : ChainSources) : list nat :=
  match s with ChainArgs iterables _ => values_dec iterables | ChainOuter outer => value_dec outer end.

Definition itertools_dec (i : ItertoolsIter) : list nat :=
  match i with
  | Count current step => value_dec current ++ value_dec step
  | Repeat object => value_dec object
  | Pairwise source previous => optional_dec source ++ optional_dec previous
  | Compress data selectors => value_dec data ++ value_dec selectors
  | Islice source => optional_dec source
  | ChainIter sources current => chain_sources_dec sources ++ optional_dec current
  | Cycle source saved => optional_dec source ++ values_dec saved
  | TakeWhile predicate source => optional_dec predicate ++ optional_dec source
  | DropWhile predicate source => value_dec predicate ++ value_dec source
  | FilterFalse predicate source => value_dec predicate ++ value_dec source
  | StarMap function source => value_dec function ++ value_dec source
  | Accumulate source func total => value_dec source ++ value_dec func ++ optional_dec total
  | Batched source => optional_dec source
  | ZipLongest sources fillvalue => values_dec (omap (fun o => o) sources) ++ value_dec fillvalue
  | Combinations pool => values_dec pool
  | Permutations pool => values_dec pool
  | Product pools => concat (map values_dec pools)
  | GroupBy source keyfunc target_key current_key current_value =>
      value_dec source ++ value_dec keyfunc ++ values_dec (omap (fun o => o) [target_key; current_key; current_value])
  | Grouper parent target_key => value_dec parent ++ value_dec target_key
  | Tee block => value_dec block
  | TeeBlock source items next => value_dec source ++ optional_dec next ++ values_dec items
  end.

Definition csv_dec (c : CsvObject) : list nat :=
  match c with
  | CsvReader source => value_dec source
  | CsvWriter target write => value_dec target ++ value_dec write
  | CsvDictReader reader fieldnames restkey restval dialect =>
      value_dec reader ++ optional_dec fieldnames ++ value_dec restkey ++ value_dec restval ++ value_dec dialect
  | CsvDictWriter writer fieldnames restval extrasaction =>
      value_dec writer ++ value_dec fieldnames ++ value_dec restval ++ value_dec extrasaction
  | CsvDialect => []
  end.

Definition gather_dec (g : GatherFuture) : list nat :=
  ga_items g ++
  match ga_state g with
  | GAwaited awaiter results =>
      match awaiter with GatherSlot gather _ => [gather] | TaskAwaiter _ => [] end ++ values_dec (omap (fun o => o) results)
  | GCompleted value => value_dec value
  | GPending | GFailed => []
  end.

Definition external_dec (f : ExternalFuture) : list nat :=
  optional_dec (ex_sleep_result f) ++
  match ex_state f with
  | EResolved value => value_dec value
  | EPending (Some (GatherSlot gather _)) => [gather]
  | EPending (None | Some (TaskAwaiter _)) | EFailed => []
  end.

Definition py_dec_ref_ids_for_data (data : HeapData) : list nat :=
  match data with
  | DList q | DDeque q | DTuple q => seq_dec q
  | DNamedTuple nt => namedtuple_dec nt
  | DNamedTupleClass c => namedtuple_class_dec c
  | DDict d => dict_dec d
  | DDictKeysView id | DDictItemsView id | DDictValuesView id => [id]
  | DSet t | DFrozenSet t => collect_dec_ref_ids t
  | DClosure c => cl_cells c ++ values_dec (cl_defaults c) ++ opt_id (cl_globals c)
  | DFunctionDefaults f => values_dec (fd_defaults f) ++ opt_id (fd_globals f)
  | DCell v => value_dec v
  | DHostClass c => host_class_dec c
  | DHostClassType t => host_class_type_dec t
  | DClass c => class_dec c
  | DInstance i => instance_dec i
  | DBoundMethod m => bound_method_dec m
  | DDataclassField f => field_dec f
  | DDataclassMethod k => method_dec k
  | DListIterator id | DDequeIterator id => [id]
  | DTupleIterator s => [source_of_tuple s]
  | DStringIterator s => opt_id (source_of_string s)
  | DBytesIterator s => opt_id (source_of_bytes s)
  | DDictKeyIterator id | DDictItemIterator id | DDictValueIterator id => [id]
  | DSetIterator s => [source_of_set s]
  | DCallableIterator i => callable_iterator_dec i
  | DDirScan s => dir_scan_dec s
  | DItertools i => itertools_dec i
  | DCsv c => csv_dec c
  | DPartial p => partial_dec p
  | DGenericAlias args => value_dec args
  | DUnion args => value_dec args
  | DForwardRef f => forward_ref_dec f
  | DLruCache c => lru_cache_dec c
  | DModule m => module_dec m
  | DCoroutine c => values_dec (cr_namespace c) ++ opt_id (cr_globals c)
  | DGatherFuture g => gather_dec g
  | DExternalFuture f => external_dec f
  | DDateTime tz => opt_id tz
  | DTime tz => opt_id tz
  | DOpenFile buffer => opt_id buffer
  | DReMatch subject => on_value subject
  | DDecimalSignalDict context => [context]
  | DDecimalContextManager m => context_ids m
  | DException chain => owned_chain_ids chain
  | _ => []
  end.

(** ** Tracking and weak keys *)

Definition data_is_gc_tracked (data : HeapData) : bool :=
  match data with
  | DItertools (Count _ _) => false
  | DItertools _ => true
  | DDirScan (Walk _ _) => true
  | DDirScan _ => false
  | DList _ | DDeque _ | DTuple _ | DNamedTuple _ | DNamedTupleClass _ | DDict _ | DDictKeysView _ | DDictItemsView _
  | DDictValuesView _ | DSet _ | DFrozenSet _ | DClosure _ | DFunctionDefaults _ | DCell _ | DHostClass _ | DHostClassType _
  | DClass _ | DInstance _ | DBoundMethod _ | DDataclassField _ | DDataclassMethod _ | DListIterator _ | DDequeIterator _
  | DTupleIterator _ | DDictKeyIterator _ | DDictItemIterator _ | DDictValueIterator _ | DSetIterator _ | DCallableIterator _
  | DModule _ | DCoroutine _ | DGatherFuture _ | DExternalFuture _ | DPartial _ | DGenericAlias _ | DUnion _ | DForwardRef _
  | DLruCache _ | DCsv _ => true
  | DStr | DBytes | DRange | DSlice | DException _ | DDataclassParams | DStringIterator _ | DBytesIterator _ | DRangeIterator
  | DLongInt | DComplex | DPath | DOpenFile _ | DRePattern | DReMatch _ | DExtFunction _ | DDate | DDateTime _ | DTime _
  | DTimeDelta | DTimeZone | DRandom | DHashObject | DDecimal | DDecimalContext | DDecimalSignalDict _
  | DDecimalContextManager _ => false
  end.
