(* ===== verification/HeapPayload.v ===== *)
(** The payloads as what the heap stores: both walkers report the same references, so the
    payloads meet the contract the heap and its collector rely on. *)
From S2P Require Import Prelude Str HashTable HeapData Heap.
Local Open Scope monty_scope.

(** [Heap::weak_index_key]. *)
Definition data_weak_index_key (data : HeapData) : option WeakIndexKey :=
  match data with
  | DExtFunction name => Some (KExtFunction name)
  | DInstance i => KBoundary <$> in_uuid i
  | DClass c => KBoundary <$> co_uuid c
  | DHostClassType t => Some (KHostType (ht_type_id t))
  | _ => None
  end.

(** [boundary_uuid] of an instance or a class: [get_or_insert_with]. *)
Definition get_or_insert (fresh : Z) (uuid : option Z) : Z := default fresh uuid.

(** ** What a payload keeps *)

(** A dict whose flag says it holds no reference holds none. *)
Definition flag_okb (d : Dict) : bool :=
  d_contains_refs d || forallb (fun e => negb (is_ref (de_key e)) && negb (is_ref (de_value e))) (dict_live d).

(** The dict inside a payload is no [defaultdict] with a factory on the heap. *)
Definition no_factoryb (d : Dict) : bool :=
  match default_factory d with Some (VRef _) => false | _ => true end.

(** The walker of the collector reads such a dict without its flag and factory. *)
Definition attrs_okb (d : Dict) : bool := no_factoryb d && flag_okb d.

Definition payload_okb (data : HeapData) : bool :=
  match data with
  | DHostClass c => attrs_okb (hc_attrs c)
  | DHostClassType t => attrs_okb (ht_attrs t)
  | DClass c => attrs_okb (co_namespace c)
  | DInstance i => attrs_okb (in_attrs i)
  | DModule m => no_factoryb (mo_attrs m)
  | _ => true
  end.

(** ** The walkers agree *)

Lemma value_dec_on v : value_dec v = on_value v.
Proof. done. Qed.

Lemma values_dec_on vs : values_dec vs = on_values vs.
Proof. done. Qed.

Lemma optional_dec_on o : optional_dec o = on_optional o.
Proof. by destruct o as [[]|]. Qed.

Lemma values_dec_omap os : values_dec (omap (fun o => o) os) = concat (map on_optional os).
Proof.
  unfold values_dec. induction os as [|[v|] os IH]; [done| |by cbn]. cbn in *. rewrite IH. by destruct v.
Qed.

Lemma on_values_app a b : on_values (a ++ b) = on_values a ++ on_values b.
Proof. unfold on_values. by rewrite map_app, concat_app. Qed.

Lemma dict_take_live d : dict_take d = dict_live d.
Proof. done. Qed.

Lemma on_entries_none es :
  forallb (fun e => negb (is_ref (de_key e)) && negb (is_ref (de_value e))) es = true -> on_entries es = [].
Proof.
  unfold on_entries. induction es as [|e es IH]; [done|]. cbn. intros [[Hk Hv]%andb_true_iff Hes]%andb_true_iff.
  rewrite (IH Hes). by destruct (de_key e), (de_value e).
Qed.

Lemma dict_dec_factory d : dict_dec d = on_optional (default_factory d) ++ (if negb (d_contains_refs d) then [] else on_entries (dict_live d)).
Proof. unfold dict_dec, default_factory. destruct (d_kind d) as [[[v|]|]|]; [|done..]. by destruct v. Qed.

(** A namespace or an attribute dict. *)
Lemma dict_dec_attrs d : attrs_okb d = true -> dict_dec d = on_entries (dict_live d).
Proof.
  intros [Hf Hr]%andb_true_iff. rewrite dict_dec_factory. unfold no_factoryb in Hf. unfold flag_okb in Hr.
  destruct (default_factory d) as [[]|]; try done; (destruct (d_contains_refs d); [done|]; by rewrite (on_entries_none _ Hr)).
Qed.

Lemma itertools_dec_child i : itertools_dec i = itertools_child_ids i.
Proof.
  destruct i as [| | | | |[]| | | | | | | | | | | | | | |]; cbn [itertools_dec itertools_child_ids chain_sources_dec chain_sources_child_ids];
    rewrite ?optional_dec_on, ?values_dec_omap; cbn [map concat]; try done; rewrite ?app_nil_r, <- ?app_assoc; try done.
Qed.

Lemma csv_dec_child c : csv_dec c = csv_child_ids c.
Proof.
  destruct c; cbn [csv_dec csv_child_ids]; unfold on_values; cbn [map concat]; rewrite ?optional_dec_on, ?app_nil_r; try done.
Qed.

Lemma gather_dec_child g : gather_dec g = gather_child_ids g.
Proof.
  unfold gather_dec, gather_child_ids. f_equal. destruct (ga_state g) as [|a rs|v|]; [done| |by destruct v|done].
  by rewrite values_dec_omap.
Qed.

Lemma method_dec_child k : method_dec k = method_ref_children k.
Proof.
  destruct k as [fields| | | | |]; [|done..]. unfold method_ref_children. cbn. f_equal. apply map_ext. intros [|v|v]; [done|by destruct v..].
Qed.

Lemma partial_dec_child p : partial_dec p = on_values (owned_values p).
Proof.
  unfold partial_dec, owned_values. change (on_values (?v :: ?vs)) with (on_value v ++ on_values vs). rewrite on_values_app.
  assert (E : concat (map (fun '(name, value) => value_dec name ++ value_dec value) (pa_keywords p))
              = on_values (concat (map (fun '(name, value) => [name; value]) (pa_keywords p)))).
  { induction (pa_keywords p) as [|[n v] ks IH]; [done|]. cbn [map concat]. rewrite on_values_app, <- IH. by cbn; rewrite app_nil_r. }
  by rewrite E.
Qed.

(** Both walkers report the same references, in some order. *)
Lemma walkers_same data : payload_okb data = true -> py_dec_ref_ids_for_data data ≡ₚ for_each_child_id data.
Proof.
  destruct data; cbn [payload_okb py_dec_ref_ids_for_data for_each_child_id]; intros Hok; try done.
  all: try (unfold host_class_dec, host_class_type_dec, class_dec, instance_dec; by rewrite dict_dec_attrs by done).
  - by rewrite dict_dec_factory.
  - unfold collect_dec_ref_ids, on_values, set_live. by rewrite map_map.
  - unfold collect_dec_ref_ids, on_values, set_live. by rewrite map_map.
  - apply (reflexive_eq (R := (≡ₚ))). exact (values_dec_omap [df_annotation f; df_default f; df_default_factory f]).
  - by rewrite method_dec_child.
  - unfold module_dec. rewrite dict_dec_factory. unfold no_factoryb in Hok.
    assert (E : on_optional (default_factory (mo_attrs m)) = []) by (by destruct (default_factory (mo_attrs m)) as [[]|]).
    rewrite E. cbn [app]. rewrite Permutation_app_comm. by destruct (d_contains_refs (mo_attrs m)).
  - by rewrite gather_dec_child.
  - by rewrite itertools_dec_child.
  - by rewrite partial_dec_child.
  - unfold forward_ref_dec, on_values. cbn [map concat]. by rewrite app_nil_r, <- !app_assoc.
  - by rewrite csv_dec_child.
Qed.

(** ** The stored objects *)

Record Object := { od : HeapData; od_ok : payload_okb od = true }.

Definition leaf_object (data : HeapData) (H : payload_okb data = true) : Object := {| od := data; od_ok := H |}.

(** [Instance::boundary_uuid] and [Class::boundary_uuid]; [None] for another payload. *)
Definition object_boundary_uuid (fresh : Z) (o : Object) : option (Z * Object) :=
  match od o as data return payload_okb data = true -> option (Z * Object) with
  | DInstance i => fun H =>
      let uuid := get_or_insert fresh (in_uuid i) in
      Some (uuid, {| od := DInstance {| in_class := in_class i; in_attrs := in_attrs i; in_uuid := Some uuid |}; od_ok := H |})
  | DClass c => fun H =>
      let uuid := get_or_insert fresh (co_uuid c) in
      Some (uuid, {| od := DClass {| co_namespace := co_namespace c; co_uuid := Some uuid |}; od_ok := H |})
  | _ => fun _ => None
  end (od_ok o).

#[export] Instance object_payload : Payload Object := {
  child_ids o := for_each_child_id (od o);
  dec_ref_ids o := py_dec_ref_ids_for_data (od o);
  is_gc_tracked o := data_is_gc_tracked (od o);
  weak_index_key o := data_weak_index_key (od o);
  empty_tuple := leaf_object (DTuple {| q_items := []; q_contains_refs := false |}) eq_refl;
  utc := leaf_object DTimeZone eq_refl;
  ext_function name := leaf_object (DExtFunction name) eq_refl;
  boundary_uuid_of := object_boundary_uuid }.

Lemma object_boundary_spec fresh o v o' : object_boundary_uuid fresh o = Some (v, o') ->
  for_each_child_id (od o') = for_each_child_id (od o) /\ data_is_gc_tracked (od o') = data_is_gc_tracked (od o)
  /\ data_weak_index_key (od o') = Some (KBoundary v)
  /\ (data_weak_index_key (od o) = None \/ data_weak_index_key (od o) = Some (KBoundary v)).
Proof.
  destruct o as [data H]. unfold object_boundary_uuid. cbn [od od_ok]. destruct data; try discriminate.
  - intros [= <- <-]. cbn. destruct c as [ns [u|]]; cbn; tauto.
  - intros [= <- <-]. cbn. destruct i as [c a [u|]]; cbn; tauto.
Qed.

#[export] Instance object_laws : PayloadLaws Object.
Proof.
  split; try done.
  - intros [data Hok]. by apply walkers_same.
  - intros u o v o' Hb. split; apply (object_boundary_spec u o v o' Hb).
  - intros u o v o' Hb. apply (object_boundary_spec u o v o' Hb).
  - intros u o v o' Hb. apply (object_boundary_spec u o v o' Hb).
Qed.

(** ** The flag of a dict *)

Section Flags.
Context `{Probing}.

Abbreviation dtable := (PyHashTable (DictEntry Value)).

Definition with_table (t : dtable) (d : Dict) : Dict :=
  {| d_table := t; d_contains_refs := d_contains_refs d; d_kind := d_kind d |}.
Definition note_refs (b : bool) (d : Dict) : Dict :=
  {| d_table := d_table d; d_contains_refs := d_contains_refs d || b; d_kind := d_kind d |}.

(** [HeapReadMut::set_with] once the probe has [found] a slot and the growth is allowed: the
    old value, if any, and the dict. [None] where the slot is not live. *)
Definition dict_set (found : option Slot) (key value : Value) (h : Z) (d : Dict) : option (option Value * Dict) :=
  let d := note_refs (is_ref key || is_ref value) d in
  match found with
  | Some slot =>
      old ← HashTable.entry (Value := Value) (RunError := RunError) (d_table d) slot;
      '(_, t) ← HashTable.replace (Value := Value) (RunError := RunError) (d_table d) slot {| de_key := de_key old; de_value := value; de_hash := de_hash old |};
      Some (Some (de_value old), with_table t d)
  | None => Some (None, with_table (HashTable.push (Value := Value) (RunError := RunError) (d_table d) {| de_key := key; de_value := value; de_hash := h |}) d)
  end.

(** [HeapReadMut::set_interned_str], which replaces the key too. *)
Definition dict_set_interned (found : option Slot) (key : nat) (value : Value) (h : Z) (d : Dict) : option (option (DictEntry Value) * Dict) :=
  let d := note_refs (is_ref value) d in
  let entry := {| de_key := VInternString key; de_value := value; de_hash := h |} in
  match found with
  | Some slot =>
      '(old, t) ← HashTable.replace (Value := Value) (RunError := RunError) (d_table d) slot entry;
      Some (Some old, with_table t d)
  | None => Some (None, with_table (HashTable.push (Value := Value) (RunError := RunError) (d_table d) entry) d)
  end.

(** [HeapReadMut::pop], and [popitem]. *)
Definition dict_pop (found : option Slot) (d : Dict) : option (option (DictEntry Value) * Dict) :=
  match found with
  | Some slot =>
      '(e, t) ← HashTable.remove (Value := Value) (RunError := RunError) (d_table d) slot;
      Some (Some e, with_table t d)
  | None => Some (None, d)
  end.
Definition dict_popitem (d : Dict) : option (DictEntry Value * Dict) :=
  '(e, t) ← HashTable.pop_last (Value := Value) (RunError := RunError) (d_table d);
  Some (e, with_table t d).

(** [dict.clear()] leaves the flag. *)
Definition dict_clear (d : Dict) : Dict := with_table (snd (take_entries (Value := Value) (RunError := RunError) (d_table d))) d.

Definition make_defaultdict (factory : option Value) (d : Dict) : Dict :=
  {| d_table := d_table d; d_contains_refs := d_contains_refs d || match factory with Some (VRef _) => true | _ => false end;
     d_kind := Some (DefaultOf factory) |}.
Definition make_counter (d : Dict) : Dict :=
  {| d_table := d_table d; d_contains_refs := d_contains_refs d; d_kind := Some Counter |}.
Definition set_kind (kind : option DictSpecial) (d : Dict) : Dict :=
  {| d_table := d_table d;
     d_contains_refs := d_contains_refs d || match kind with Some (DefaultOf (Some (VRef _))) => true | _ => false end;
     d_kind := kind |}.
Definition replace_default_factory (factory : option Value) (d : Dict) : option Value * Dict :=
  let refs := d_contains_refs d || match factory with Some (VRef _) => true | _ => false end in
  match d_kind d with
  | Some (DefaultOf old) => (old, {| d_table := d_table d; d_contains_refs := refs; d_kind := Some (DefaultOf factory) |})
  | None | Some Counter => (None, {| d_table := d_table d; d_contains_refs := refs; d_kind := Some (DefaultOf factory) |})
  end.

Inductive dict_op :=
| DictSet (found : option Slot) (key value : Value) (h : Z)
| DictSetInterned (found : option Slot) (key : nat) (value : Value) (h : Z)
| DictPop (found : option Slot)
| DictPopitem
| DictClear
| MakeDefaultdict (factory : option Value)
| MakeCounter
| SetKind (kind : option DictSpecial)
| ReplaceDefaultFactory (factory : option Value).

Definition dict_step (o : dict_op) (d : Dict) : option Dict :=
  match o with
  | DictSet found key value h => snd <$> dict_set found key value h d
  | DictSetInterned found key value h => snd <$> dict_set_interned found key value h d
  | DictPop found => snd <$> dict_pop found d
  | DictPopitem => snd <$> dict_popitem d
  | DictClear => Some (dict_clear d)
  | MakeDefaultdict factory => Some (make_defaultdict factory d)
  | MakeCounter => Some (make_counter d)
  | SetKind kind => Some (set_kind kind d)
  | ReplaceDefaultFactory factory => Some (snd (replace_default_factory factory d))
  end.

Fixpoint dict_run (os : list dict_op) (d : Dict) : option Dict :=
  match os with [] => Some d | o :: os => d ← dict_step o d; dict_run os d end.

Definition dict_new : Dict := {| d_table := HashTable.empty; d_contains_refs := false; d_kind := None |}.

Definition plain_entry (e : DictEntry Value) : Prop := is_ref (de_key e) = false /\ is_ref (de_value e) = false.

Lemma flag_okb_spec d : flag_okb d = true <-> (d_contains_refs d = false -> forall e, e ∈ dict_live d -> plain_entry e).
Proof.
  unfold flag_okb. rewrite orb_true_iff, forallb_forall. split.
  - intros [Hr|Hf] Hn e He; [congruence|]. specialize (Hf e (proj1 (list_elem_of_In _ _) He)).
    apply andb_true_iff in Hf as [Hk Hv]. split; by apply negb_true_iff.
  - intros Hf. destruct (d_contains_refs d); [by left|right]. intros e He. destruct (Hf eq_refl e) as [-> ->]; [|done].
    by apply list_elem_of_In.
Qed.

Lemma elem_of_live e d : e ∈ dict_live d <-> e ∈ HashTable.entries (d_table d) /\ is_undefined (de_key e) = false.
Proof.
  unfold dict_live, live_entries. rewrite !list_elem_of_In, filter_In. cbn. by rewrite negb_true_iff.
Qed.

(** Tables whose live entries are old or [e]. *)
Lemma flag_okb_add d d' e :
  flag_okb d = true -> (d_contains_refs d' = false -> d_contains_refs d = false /\ plain_entry e) ->
  (forall f, f ∈ dict_live d' -> f ∈ dict_live d \/ f = e) -> flag_okb d' = true.
Proof.
  rewrite !flag_okb_spec. intros Hd Hr Hin Hn f Hf. destruct (Hr Hn) as [Hn' He]. destruct (Hin f Hf) as [Hl| ->]; [|done].
  by apply Hd.
Qed.

Lemma flag_okb_less d d' :
  flag_okb d = true -> (d_contains_refs d' = false -> d_contains_refs d = false) ->
  (forall f, f ∈ dict_live d' -> f ∈ dict_live d) -> flag_okb d' = true.
Proof. rewrite !flag_okb_spec. intros Hd Hr Hin Hn f Hf. apply Hd; auto. Qed.

Lemma dict_push_live (t : dtable) e f d : f ∈ dict_live (with_table (HashTable.push (Value := Value) (RunError := RunError) t e) d) ->
  f ∈ dict_live (with_table t d) \/ f = e.
Proof.
  rewrite !elem_of_live. cbn [with_table d_table]. unfold HashTable.push. intros [Hf Hl]. cbn [HashTable.entries] in Hf.
  apply elem_of_app in Hf as [Hf|Hf%list_elem_of_singleton]; [left|by right]. split; [|done].
  destruct (_ && _); [|done]. unfold compact, reindex in Hf. cbn [HashTable.entries] in Hf.
  apply list_elem_of_In, filter_In in Hf as [Hf _]. by apply list_elem_of_In.
Qed.

Lemma insert_live (t : dtable) s e f ix d : f ∈ dict_live (with_table {| indices := ix; HashTable.entries := <[s := e]> (HashTable.entries t) |} d) ->
  f ∈ dict_live (with_table t d) \/ f = e.
Proof.
  rewrite !elem_of_live. cbn [with_table d_table HashTable.entries]. intros [Hf Hl].
  apply list_elem_of_lookup in Hf as [i Hi]. apply list_lookup_insert_Some in Hi as [(_ & -> & _)|(_ & Hi)]; [by right|left].
  split; [by eapply list_elem_of_lookup_2|done].
Qed.

Lemma tombstone_live (t : dtable) s e t' f d : tombstone_at (Value := Value) (RunError := RunError) t s = Some (e, t') ->
  f ∈ dict_live (with_table t' d) -> f ∈ dict_live (with_table t d).
Proof.
  unfold tombstone_at. destruct (HashTable.entries t !! s) as [e0|]; [|done]. intros [= <- <-] Hf.
  destruct (insert_live _ _ _ _ _ _ Hf) as [|E]; [done|]. rewrite E in Hf. apply elem_of_live in Hf as [_ Hf]. done.
Qed.

Lemma note_refs_plain b d : d_contains_refs (note_refs b d) = false -> d_contains_refs d = false /\ b = false.
Proof. apply orb_false_iff. Qed.

Lemma dict_live_same d d' f : HashTable.entries (d_table d') = HashTable.entries (d_table d) -> f ∈ dict_live d' -> f ∈ dict_live d.
Proof. rewrite !elem_of_live. by intros ->. Qed.

Lemma dict_step_flag o d d' : dict_step o d = Some d' -> flag_okb d = true -> flag_okb d' = true.
Proof.
  intros Hs Hok. destruct o as [found key value h|found key value h|found| | |factory| |kind|factory]; cbn [dict_step] in Hs.
  - unfold dict_set in Hs. destruct found as [slot|].
    + unfold HashTable.entry, HashTable.replace in Hs. change (d_table (note_refs _ d)) with (d_table d) in Hs.
      destruct (get_live (d_table d) slot) as [old|] eqn:Eo; [|done]. cbn in Hs. injection Hs as <-.
      assert (Hold : old ∈ dict_live d).
      { unfold get_live in Eo. cbn in Eo. destruct (HashTable.entries (d_table d) !! slot) as [e|] eqn:Ee; [|done].
        destruct (negb _) eqn:En; [|done]. injection Eo as ->. apply elem_of_live. split; [by eapply list_elem_of_lookup_2|]. by apply negb_true_iff. }
      eapply flag_okb_add; [exact Hok| |intros f Hf; apply insert_live in Hf as [Hf|Hf]; [left; exact Hf|right; exact Hf]].
      intros Hn. apply note_refs_plain in Hn as [Hn Hp]. split; [done|]. apply orb_false_iff in Hp as [_ Hv]. split; [|done]. cbn.
      by apply (proj1 (flag_okb_spec d) Hok Hn).
    + cbn in Hs. injection Hs as <-. eapply flag_okb_add; [exact Hok| |intros f Hf; apply dict_push_live in Hf as [Hf|Hf]; [left; exact Hf|right; exact Hf]].
      intros Hn. apply note_refs_plain in Hn as [Hn Hp]. split; [done|]. by apply orb_false_iff in Hp as [Hk Hv].
  - unfold dict_set_interned in Hs. destruct found as [slot|].
    + unfold HashTable.replace in Hs. destruct (get_live _ slot) as [old|]; [|done]. cbn in Hs. injection Hs as <-.
      eapply flag_okb_add; [exact Hok| |intros f Hf; apply insert_live in Hf as [Hf|Hf]; [left; exact Hf|right; exact Hf]].
      intros Hn. apply note_refs_plain in Hn as [Hn Hp]. by split.
    + cbn in Hs. injection Hs as <-. eapply flag_okb_add; [exact Hok| |intros f Hf; apply dict_push_live in Hf as [Hf|Hf]; [left; exact Hf|right; exact Hf]].
      intros Hn. apply note_refs_plain in Hn as [Hn Hp]. by split.
  - unfold dict_pop in Hs. destruct found as [slot|]; [|by injection Hs as <-]. unfold HashTable.remove in Hs.
    destruct (tombstone_at (d_table d) slot) as [[e t]|] eqn:Et; [|done]. cbn in Hs. injection Hs as <-.
    eapply flag_okb_less; [exact Hok|done|]. intros f Hf. exact (tombstone_live _ _ _ _ _ _ Et Hf).
  - unfold dict_popitem, HashTable.pop_last in Hs. destruct (rposition (HashTable.entries (d_table d))) as [i|]; [|done]. cbn in Hs.
    destruct (tombstone_at (d_table d) i) as [[e t]|] eqn:Et; [|done]. cbn in Hs. injection Hs as <-.
    eapply flag_okb_less; [exact Hok|done|]. intros f Hf. exact (tombstone_live _ _ _ _ _ _ Et Hf).
  - injection Hs as <-. unfold flag_okb, dict_clear. cbn. by rewrite orb_true_r.
  - injection Hs as <-. eapply flag_okb_less; [exact Hok|by intros [? _]%orb_false_iff|done].
  - injection Hs as <-. exact Hok.
  - injection Hs as <-. eapply flag_okb_less; [exact Hok|by intros [? _]%orb_false_iff|done].
  - injection Hs as <-. unfold replace_default_factory.
    destruct (d_kind d) as [[]|]; (eapply flag_okb_less; [exact Hok|by intros [? _]%orb_false_iff|done]).
Qed.
End Flags.
