(* ===== verification/HeapClaims.v ===== *)
(** What the heap promises the interpreter: runs are free of faults, nothing in use is
    freed, nothing out of use is kept past a collection, and a dump brings back the same
    objects. *)
From S2P Require Import Prelude Str Resource HashTable StableHeap HeapData Heap HeapInv HeapProps Collector CollectorPaint CollectorProps HeapRun HeapPayload.
Local Open Scope monty_scope.

Section Claims.
Context {D : Type} `{PayloadLaws D}.

Abbreviation heap := (Heap D).
Implicit Types (h : heap) (c : client) (x id : nat).

(** ** A new heap *)

Lemma with_capacity_repr {T} capacity : repr (with_capacity (T := T) capacity) [].
Proof.
  split; [|done|done|constructor|].
  - apply Forall_forall. intros p Hp%elem_of_replicate. destruct Hp as [-> _]. apply length_replicate.
  - intros i. split; [by intros ?%elem_of_nil|done].
Qed.

Lemma new_good capacity t : exists h, new (D := D) capacity t = Ok h /\ good nobody h [Some (Build_HeapEntry 1 0 empty_tuple Black)]
  /\ tidy (ext nobody h) [Some (Build_HeapEntry 1 0 empty_tuple Black)] /\ tracker h = t.
Proof.
  unfold new. cbn [entries]. set (e := Build_HeapEntry 1 0 empty_tuple Black).
  destruct (allocate_ok _ _ e (with_capacity_repr (T := HeapEntry D) capacity)) as (id & es & l' & Ea & Hes & [[Hid _]|[-> ->]]); [done|].
  rewrite Ea. cbn [rbind length]. rewrite Nat.eqb_refl. eexists. split; [reflexivity|].
  assert (Hk : forall x, kids [Some e] x = []) by (intros [|x]; [apply tuple_leaf|done]).
  assert (Hin : forall x, in_edges [Some e] x = 0) by (intros x; apply in_edges_zero; intros i; rewrite Hk; apply not_elem_of_nil).
  assert (Hown : forall h, timezone_utc h = None -> decimal_contexts h = replicate DECIMAL_SLOTS None ->
    forall x, owned (D := D) h x = if decide (x = EMPTY_TUPLE_ID) then 1 else 0).
  { intros h E1 E2 x. unfold owned. rewrite E1, E2. cbn. change (occ x []) with 0. lia. }
  split; [split|split; [|done]].
  - split; [exact Hes| | | |].
    + split.
      * intros x f Hf. rewrite Hin, Hown by done. destruct x as [|x]; [|done]. by injection Hf as <-.
      * intros x y Hy. rewrite Hk in Hy. by apply elem_of_nil in Hy.
      * by intros x ?%elem_of_nil.
      * intros x. rewrite Hown by done. cbn. case_decide as Hx; [subst; intros _; by exists e|lia].
    + intros [|x] k Hx; [|done]. injection Hx as <-. by left.
    + done.
    + split; cbn; intros k i Hi; by rewrite lookup_empty in Hi.
  - by intros [|[|x]].
  - intros [|[|x]] Hx; cbn in Hx; lia.
  - done.
  - intros [|x] f Hf; [|done]. injection Hf as <-. split; [cbn; lia|]. apply reach_root. left. unfold held, ext.
    rewrite Hown, decide_True by done. lia.
Qed.

(** ** Runs *)

(** The states a client gets to; [P] holds of each. *)
Inductive steps (P : heap -> Prop) c0 h0 : client -> heap -> Prop :=
| steps_refl : P h0 -> steps P c0 h0 c0 h0
| steps_step c h o r h' : steps P c0 h0 c h -> permitted o c h -> perform o h = (Ok r, h') -> P h' ->
    steps P c0 h0 (effect o r c) h'.

Lemma perform_stepped o c h l r h' : good c h l -> permitted o c h -> perform o h = (Ok r, h') -> stepped c h l (effect o r c) h'.
Proof. intros Hg Hp E. pose proof (perform_ensures o c h l Hg Hp) as Hs. unfold ensures in Hs. by rewrite E in Hs. Qed.

Lemma steps_good P c0 h0 c h : (exists l, good c0 h0 l) -> steps P c0 h0 c h -> exists l, good c h l.
Proof.
  intros Hg0. induction 1 as [|c h o r h' _ [l Hg] Hp E _]; [done|].
  destruct (perform_stepped o c h l r h' Hg Hp E) as (l' & Hg' & _). by exists l'.
Qed.

Lemma steps_tidy c0 h0 c h : (exists l, good c0 h0 l /\ tidy (ext c0 h0) l) ->
  steps (fun h => contained (slots_of h)) c0 h0 c h -> exists l, good c h l /\ tidy (ext c h) l.
Proof.
  intros Hg0. induction 1 as [|c h o r h' _ (l & Hg & Ht) Hp E Hc]; [done|].
  destruct (perform_stepped o c h l r h' Hg Hp E) as (l' & Hg' & Ht'). exists l'. split; [done|].
  apply Ht'; [|done]. by rewrite <- (good_slots_of _ _ _ Hg').
Qed.

(** Entries the collector does not track that only refer to leaves are on no cycle. *)
Lemma contained_leaves (l : list (option (HeapEntry D))) :
  (forall x e y, l !! x = Some (Some e) -> is_gc_tracked (data e) = false -> y ∈ kids l x -> kids l y = []) -> contained l.
Proof.
  intros Hl x e y He Ht Hk Hr.
  assert (Hy : y = x \/ y ∈ kids l x).
  { clear Hk. induction Hr as [y Hy|y z _ [->|IH] Hz]; [by left|by right|]. rewrite (Hl x e y He Ht IH) in Hz. by apply elem_of_nil in Hz. }
  destruct Hy as [->|Hy].
  - rewrite (Hl x e x He Ht Hk) in Hk. by apply elem_of_nil in Hk.
  - rewrite (Hl x e y He Ht Hy) in Hk. by apply elem_of_nil in Hk.
Qed.

(** ** The claims *)

(** C3: From a new heap, a client that releases only references it owns, uses guards only
    while it holds them and keeps guarded entries owned meets no fault: no assertion
    fails, no slot is read after it was freed, no loop runs out. Every entry it can reach,
    and every entry it has a guard on, is alive; every count is the number of references
    that exist; and the weak indexes name live entries that have their keys. *)
Theorem heap_run_safe capacity t h0 c h :
  new capacity t = Ok h0 -> steps (fun _ => True) nobody h0 c h ->
  (forall o, permitted o c h -> exists r h', perform o h = (Ok r, h'))
  /\ (forall x, reach (held (ext c h)) (slots_of h) x \/ 0 < guards c x -> exists e, StableHeap.get (entries h) x = Ok e)
  /\ (forall x e, slots_of h !! x = Some (Some e) -> refcount e = ext c h x + in_edges (slots_of h) x)
  /\ weak_ok h (slots_of h).
Proof.
  intros Hn Hs. destruct (new_good capacity t) as (h1 & Hn' & Hg1 & _). rewrite Hn in Hn'. injection Hn' as <-.
  destruct (steps_good _ _ _ _ _ (ex_intro _ _ Hg1) Hs) as [l Hg]. rewrite (good_slots_of c h l Hg).
  split; [|split; [|split]].
  - intros o Ho. pose proof (perform_ensures o c h l Hg Ho) as Hp. unfold ensures in Hp.
    destruct (perform o h) as [[r|f] h'] eqn:E; [by exists r, h'|done].
  - intros x Hx. assert (Hl : live l x) by (destruct Hx; [by eapply good_live|by eapply guard_live]).
    destruct Hl as [e He]. exists e. eapply get_ok; [apply Hg|done].
  - intros x e He. rewrite (ct_rc _ _ _ (ok_counted _ _ _ (gd_ok _ _ _ Hg)) x e He). change (occ x []) with 0. unfold ext. lia.
  - apply Hg.
Qed.

(** C4: Where entries the collector does not track are on no cycle, a collection leaves no
    garbage: every entry that is alive after it is reached from a reference that the
    program or the heap holds. *)
Theorem collection_leaves_no_garbage capacity t h0 c h r h' :
  new capacity t = Ok h0 -> steps (fun h => contained (slots_of h)) nobody h0 c h ->
  perform CollectCycles h = (Ok r, h') ->
  forall x e, slots_of h' !! x = Some (Some e) -> reach (held (ext c h')) (slots_of h') x.
Proof.
  intros Hn Hs E. destruct (new_good capacity t) as (h1 & Hn' & Hg1 & Ht1 & _). rewrite Hn in Hn'. injection Hn' as <-.
  destruct (steps_tidy _ _ _ _ (ex_intro _ _ (conj Hg1 Ht1)) Hs) as (l & Hg & Ht).
  pose proof (collect_cycles_kept c h l Hg) as Hk. pose proof (collect_cycles_ensures (refs c) h l (gd_ok _ _ _ Hg)) as Hc.
  cbn [perform] in E. unfold sbind in E. unfold ensures in Hk, Hc. destruct (collect_cycles h) as [[n|f] h2] eqn:Ec; [|done].
  injection E as <- <-. destruct Hk as (l' & Hg' & Ht'). destruct Hc as (l2 & Hok2 & _ & _ & Hp & _).
  rewrite (good_slots_of _ _ _ Hg'). intros x e He. destruct (Ht' Ht x e He) as [_ Ha].
  rewrite (ok_purple _ _ _ (gd_ok _ _ _ Hg')) in Hp. revert Ha. apply reach_mono; [|done].
  intros y [Hy|Hy]; [done|]. by destruct (no_purples l' y Hp).
Qed.

(** C5: A collection frees exactly the entries it counts, and only garbage: what is in use
    (reached from a reference held outside the graph, or from an entry being read) keeps
    its payload; the counts stay right; every survivor is black; and if every other entry
    is reached from a candidate, nothing else survives. It never faults. *)
Theorem collect_cycles_exact roots h :
  heap_ok roots h (slots_of h) ->
  exists n h', collect_cycles h = (Ok n, h') /\ heap_ok roots h' (slots_of h')
    /\ collected (fun x => roots x + owned h x) (slots_of h) (slots_of h')
    /\ slot_sum (fun _ => 1) (slots_of h') + n = slot_sum (fun _ => 1) (slots_of h) /\ purple_count h' = 0.
Proof.
  intros Hok. pose proof (collect_cycles_ensures roots h (slots_of h) Hok) as Hc. unfold ensures in Hc.
  destruct (collect_cycles h) as [[n|f] h'] eqn:Ec; [|done]. destruct Hc as (l' & Hok' & Hcl & Hn & Hp & _).
  assert (El : slots_of h' = l') by (unfold slots_of; by rewrite (serialize_ok _ _ (ok_repr _ _ _ Hok'))).
  exists n, h'. by rewrite El.
Qed.

(** C13: Releasing a reference, where every entry that is being read stays reached by an
    owner, does not fault, and frees nothing that is still reached: such entries keep
    payload, readers and a place in the heap, counts stay right, and a tracked entry
    that lost a reference and survived is a candidate of the collector. Releasing the
    last reference of an entry that is being read panics and changes nothing. *)
Theorem dec_ref_exact roots h id :
  heap_ok roots h (slots_of h) -> 0 < roots id ->
  (pinned (fun x => drop_root roots id x + owned h x) (slots_of h) ->
   exists h', dec_ref id h = (Ok tt, h') /\ heap_ok (drop_root roots id) h' (slots_of h')
     /\ decayed (slots_of h) (slots_of h')
     /\ forall x, reach (held (fun x => drop_root roots id x + owned h x)) (slots_of h) x ->
                   reach (held (fun x => drop_root roots id x + owned h x)) (slots_of h') x)
  /\ (rc (slots_of h) id = 1 -> 0 < rds (slots_of h) id -> dec_ref id h = (Err Panicking, h)).
Proof.
  intros Hok Hid. split.
  - intros Hpin. pose proof (dec_ref_ensures roots h (slots_of h) id Hok Hid Hpin) as Hd. unfold ensures in Hd.
    destruct (dec_ref id h) as [[u|f] h'] eqn:Ed; [|done]. destruct u. destruct Hd as (l' & Hok' & Hdc & _ & _ & Hr).
    assert (El : slots_of h' = l') by (unfold slots_of; by rewrite (serialize_ok _ _ (ok_repr _ _ _ Hok'))).
    exists h'. by rewrite El.
  - unfold rc, rds. destruct (slots_of h !! id) as [[e|]|] eqn:He; [|lia..]. intros Hrc Hrd.
    unfold dec_ref, sbind at 1, sget. cbn [dec_ref_loop]. unfold sbind at 1.
    rewrite (read_entry_ok _ _ _ _ (ok_repr _ _ _ Hok) He), Hrc. unfold sbind at 1, release, sbind at 1.
    destruct (id =? EMPTY_TUPLE_ID); [done|]. destruct (readers e) as [|n]; [lia|done].
Qed.

(** C36: A dump taken while no entry is being read loads to a heap with the same slots, the
    same counts and the same owned references, in which every key of a live entry is
    indexed again; only the clock of the tracker restarts. *)
Theorem heap_dump_roundtrip c h :
  good c h (slots_of h) -> (forall x, guards c x = 0) ->
  exists f h', heap_serialize h = Ok f /\ heap_deserialize f = Ok h' /\ good c h' (slots_of h') /\ slots_of h' = slots_of h
    /\ tracker h' = reload (tracker h) /\ timezone_utc h' = timezone_utc h /\ decimal_contexts h' = decimal_contexts h
    /\ forall key id, indexed key id (slots_of h) -> is_Some (find_key key {| w_ext_function_cache := ext_function_cache h';
         w_boundary_index := boundary_index h'; w_host_type_index := host_type_index h' |}).
Proof.
  intros Hg Hno. destruct (restore_good c h (slots_of h) Hg Hno) as (f & h' & Ef & Eh & Hg' & Et & [_ Hall _] & E1 & E2 & _).
  exists f, h'. rewrite (good_slots_of _ _ _ Hg'). split_and!; try done. intros key id Hi. apply (Hall key id); [|done].
  destruct Hi as (e & He & _). by eapply lookup_lt_Some.
Qed.

(** C37: Loading refuses a dump with a colour of a running collection, and whatever else a
    dump holds, it gives a heap whose slots are those of the dump, none being read, none
    of a transient colour, and whose weak indexes name live entries that have the key. *)
Theorem hostile_dump_contained (f : HeapFields D) :
  match heap_deserialize f with
  | Ok h => slots_of h = map skip_readers (f_entries f) /\ resting (slots_of h) /\ weak_ok h (slots_of h)
  | Err TransientColor => ~ resting (f_entries f)
  | Err (Faulted _) => False
  end.
Proof.
  unfold heap_deserialize. destruct (deserialize_ok (map skip_readers (f_entries f))) as (es & Ed & Hes). rewrite Ed. cbn [map_err rbind].
  pose proof (restore_entries_spec es _ Hes (len es) 0 no_indexes (repr_len _ _ Hes) (rebuilt_nothing _)) as Hix.
  destruct (restore_entries (len es) 0 es no_indexes) as [ix|[|g]]; cbn [rbind]; [|apply transient_skipped, Hix|done].
  - match goal with |- slots_of ?h = _ /\ _ => assert (El : slots_of h = map skip_readers (f_entries f))
      by (unfold slots_of; cbn [entries]; by rewrite (serialize_ok _ _ Hes)) end.
    rewrite El. destruct Hix as [B1 _ B3]. split; [done|]. split.
    + intros x k Hk. apply (B3 x k); [|done]. by apply live_lt, (col_live _ _ k).
    + split; cbn; intros k i Hk; [apply (B1 (KExtFunction k))|apply (B1 (KBoundary k))|apply (B1 (KHostType k))]; done.
Qed.
End Claims.

(** ** A sample run *)

Module Sample.
(** A list that comes to hold itself, is dropped, and is collected. *)
Definition list_of (vs : list Value) : Object := leaf_object (DList {| q_items := vs; q_contains_refs := true |}) eq_refl.

Definition unwrap {A E} (r : result A E) : match r with Ok _ => A | Err _ => unit end :=
  match r with Ok a => a | Err _ => tt end.

Definition h0 : Heap Object := Eval vm_compute in unwrap (new 4 (new_tracker default_limits)).

Definition ops : list (op (D := Object)) :=
  [Allocate (list_of []); Read 1; IncRef 1; GetMut 1 (list_of [VRef 1]) [1] []; EndRead 1; DecRef 1].

(** The states of the run. *)
Definition state (n : nat) : client * Heap Object :=
  fold_left (fun '(c, h) o => match perform o h with (Ok r, h') => (effect o r c, h') | (Err _, h') => (c, h') end) (take n ops) (nobody, h0).

Lemma contained_tracked (l : list (option (HeapEntry Object))) :
  forallb (fun o => match o with Some e => is_gc_tracked (data e) | None => true end) l = true -> contained l.
Proof.
  rewrite forallb_forall. intros Hl x e y He Ht. apply list_elem_of_lookup_2, list_elem_of_In in He. specialize (Hl _ He). cbn beta iota in Hl. congruence.
Qed.

Ltac sample_held := apply reach_root; vm_compute; lia.
Ltac sample_pinned := let Hx := fresh in intros [|[|x]] Hx; vm_compute in Hx; try lia; sample_held.
Ltac sample_owned := let x := fresh "x" in intros x; destruct (decide (x = 1)) as [->|Hne];
  [vm_compute; lia|rewrite (proj2 (occ_zero x _)) by (set_solver); lia].

Lemma permitted_ops n : match ops !! n with Some o => permitted o (fst (state n)) (snd (state n)) | None => True end.
Proof.
  destruct n as [|[|[|[|[|[|n]]]]]]; cbn [ops lookup list_lookup]; [| | | | | |done]; (split; [sample_owned|]).
  - done.
  - sample_held.
  - sample_held.
  - split; [vm_compute; lia|]. eexists. split; [vm_compute; reflexivity|]. split; [done|]. split; [done|sample_pinned].
  - vm_compute. lia.
  - sample_pinned.
Qed.

Lemma state_contained n : n <= 6 -> contained (slots_of (snd (state n))).
Proof.
  intros Hn. apply contained_tracked. destruct n as [|[|[|[|[|[|[|n]]]]]]]; [vm_compute; reflexivity..|lia].
Qed.

Lemma state_S n o r h' : ops !! n = Some o -> perform o (snd (state n)) = (Ok r, h') -> state (S n) = (effect o r (fst (state n)), h').
Proof.
  intros Ho Ep. unfold state in *. rewrite (take_S_r _ _ _ Ho), fold_left_app. cbn [fold_left].
  destruct (fold_left _ _ _) as [c h]. cbn [snd] in Ep. by rewrite Ep.
Qed.

Lemma state_steps (P : Heap Object -> Prop) n : n <= 6 -> (forall k, k <= 6 -> P (snd (state k))) -> steps P nobody h0 (fst (state n)) (snd (state n)).
Proof.
  intros Hn HP. induction n as [|n IH]; [exact (steps_refl P nobody h0 (HP 0 Hn))|].
  assert (Hrun : exists o r h', ops !! n = Some o /\ perform o (snd (state n)) = (Ok r, h')).
  { destruct n as [|[|[|[|[|[|n]]]]]]; [..|lia]; do 3 eexists; (split; [reflexivity|vm_compute; reflexivity]). }
  destruct Hrun as (o & r & h' & Ho & Ep). rewrite (state_S n o r h' Ho Ep). eapply steps_step; [apply IH; lia| |exact Ep|].
  - pose proof (permitted_ops n) as Hp. by rewrite Ho in Hp.
  - specialize (HP (S n) Hn). by rewrite (state_S n o r h' Ho Ep) in HP.
Qed.
End Sample.

(** The sample reads a list through a guard, and the list is alive. *)
Lemma heap_run_safe_witness : exists e, StableHeap.get (entries (snd (Sample.state 2))) 1 = Ok e.
Proof.
  assert (Hn : new 4 (new_tracker default_limits) = Ok Sample.h0) by (vm_compute; reflexivity).
  assert (Hs := Sample.state_steps (fun _ => True) 2 ltac:(lia) ltac:(done)).
  destruct (heap_run_safe 4 (new_tracker default_limits) Sample.h0 (fst (Sample.state 2)) (snd (Sample.state 2)) Hn Hs) as (_ & Hl & _).
  apply Hl. right. vm_compute. lia.
Defined.

(** After the sample, a collection frees the list that holds itself. *)
Lemma collection_leaves_no_garbage_witness :
  let h := snd (Sample.state 6) in
  exists h', perform CollectCycles h = (Ok None, h') /\ slots_of h !! 1 <> Some None /\ slots_of h' !! 1 = Some None
    /\ forall x e, slots_of h' !! x = Some (Some e) -> reach (held (ext (fst (Sample.state 6)) h')) (slots_of h') x.
Proof.
  intros h. destruct (perform CollectCycles h) as [[[r|]|f] h'] eqn:E; [exfalso; revert E; vm_compute; discriminate| |exfalso; revert E; vm_compute; discriminate].
  exists h'. split; [done|]. split; [vm_compute; discriminate|]. split; [revert E; vm_compute; intros [= <-]; reflexivity|].
  assert (Hn : new 4 (new_tracker default_limits) = Ok Sample.h0) by (vm_compute; reflexivity).
  assert (Hs := Sample.state_steps (fun h => contained (slots_of h)) 6 ltac:(lia) Sample.state_contained).
  exact (collection_leaves_no_garbage 4 (new_tracker default_limits) Sample.h0 (fst (Sample.state 6)) h None h' Hn Hs E).
Defined.

(** The states of the sample satisfy the invariant. *)
Lemma sample_good n : n <= 6 -> good (fst (Sample.state n)) (snd (Sample.state n)) (slots_of (snd (Sample.state n))).
Proof.
  intros Hn. destruct (new_good (D := Object) 4 (new_tracker default_limits)) as (h1 & Hn' & Hg & _).
  assert (E : h1 = Sample.h0) by (assert (Hn2 : new 4 (new_tracker default_limits) = Ok Sample.h0) by (vm_compute; reflexivity); congruence).
  subst h1. destruct (steps_good (fun _ => True) nobody Sample.h0 _ _ (ex_intro _ _ Hg) (Sample.state_steps (fun _ => True) n Hn ltac:(done))) as [l Hl].
  by rewrite (good_slots_of _ _ _ Hl).
Qed.

Lemma collect_cycles_exact_witness :
  let h := snd (Sample.state 6) in
  exists n h', collect_cycles h = (Ok n, h') /\ slot_sum (fun _ => 1) (slots_of h') + n = slot_sum (fun _ => 1) (slots_of h) /\ n = 1.
Proof.
  intros h. destruct (collect_cycles_exact (refs (fst (Sample.state 6))) h (gd_ok _ _ _ (sample_good 6 ltac:(lia)))) as (n & h' & E & _ & _ & Hn & _).
  exists n, h'. split; [done|]. split; [done|]. revert E. vm_compute. by intros [= <- _].
Defined.

Lemma dec_ref_exact_witness :
  let h := snd (Sample.state 5) in exists h', dec_ref 1 h = (Ok tt, h') /\ col (slots_of h') 1 = Some Purple.
Proof.
  intros h. destruct (dec_ref_exact (refs (fst (Sample.state 5))) h 1 (gd_ok _ _ _ (sample_good 5 ltac:(lia)))
    ltac:(vm_compute; lia)) as [Hd _]. destruct Hd as (h' & E & _).
  - intros [|[|x]] Hx; vm_compute in Hx; lia.
  - exists h'. split; [done|]. revert E. vm_compute. by intros [= <-].
Defined.

Lemma heap_dump_roundtrip_witness :
  let h := snd (Sample.state 6) in exists f h', heap_serialize h = Ok f /\ heap_deserialize f = Ok h' /\ slots_of h' = slots_of h.
Proof.
  intros h. destruct (heap_dump_roundtrip (fst (Sample.state 6)) h (sample_good 6 ltac:(lia))) as (f & h' & E1 & E2 & _ & E3 & _).
  - intros [|[|x]]; vm_compute; reflexivity.
  - exact (ex_intro _ f (ex_intro _ h' (conj E1 (conj E2 E3)))).
Defined.

(** ** The payloads *)

(** C14: For every payload, the walker of the collector and the walker that frees report
    the same references, where the dict inside it has a sound flag and no factory on the
    heap; and a dict that the dict operations build has a sound flag. *)
Theorem walkers_report_same `{Probing} data os d :
  payload_okb data = true -> dict_run os dict_new = Some d ->
  py_dec_ref_ids_for_data data ≡ₚ for_each_child_id data /\ flag_okb d = true
  /\ (no_factoryb d = true -> forall class uuid,
        let i := DInstance {| in_class := class; in_attrs := d; in_uuid := uuid |} in
        py_dec_ref_ids_for_data i ≡ₚ for_each_child_id i).
Proof.
  intros Hok Hd. assert (Hf : flag_okb d = true).
  { assert (H0 : flag_okb dict_new = true) by done. revert Hd H0. generalize dict_new as d0.
    induction os as [|o os IH]; intros d0; cbn [dict_run]; [by intros [= ->]|].
    destruct (dict_step o d0) as [d1|] eqn:E; [|done]. cbn. intros Hd H0. apply (IH d1 Hd). by eapply dict_step_flag. }
  split; [by apply walkers_same|]. split; [done|]. intros Hn class uuid. apply walkers_same. cbn. unfold attrs_okb. by rewrite Hn, Hf.
Qed.

Lemma walkers_report_same_witness :
  let d := Build_Dict (HashTable.push (Value := Value) (RunError := RunError) HashTable.empty (Build_DictEntry Value (VInt 1) (VRef 7) 3)) true None in
  dict_dec d = [7].
Proof.
  intros d. assert (Hp := walkers_report_same (H := {| candidates := fun b h => List.map snd b |}) (DClass {| co_namespace := d; co_uuid := None |})
    [DictSet None (VInt 1) (VRef 7) 3] d eq_refl eq_refl).
  destruct Hp as [Hp _]. cbn in Hp. by apply Permutation_singleton_r in Hp.
Defined.

(** An exception that is its own cause: no collection frees it, since exceptions are not
    tracked. *)
Definition own_cause : Object := leaf_object (DException (Some {| xc_cause := Some 1; xc_context := None |})) eq_refl.

Lemma exception_cycle_stays :
  let run := (allocate (leaf_object (DException None) eq_refl) ;;; inc_ref 1 ;;; read 1 ;;; guard_get_mut 1 own_cause ;;;
              end_read 1 ;;; dec_ref 1 ;;; collect_cycles)%monty in
  match run Sample.h0 with
  | (Ok freed, h) => freed = 0 /\ exists e, slots_of h !! 1 = Some (Some e) /\ data e = own_cause
  | _ => False
  end.
Proof. vm_compute. split; [reflexivity|]. by eexists. Qed.
