(* ===== verification/Scheduler.v ===== *)
(** * The task scheduler

    The data of asyncio.rs and the scheduler of bytecode/vm/scheduler.rs. A task that
    is not running has its context saved in the scheduler; awaitables are objects of
    the heap, which tasks and gathers share by their ids.

    The store keeps the objects the executor reads and a ledger of the references it
    takes and gives back: [inc_ref] and [dec_ref] count, and an entry stays in the
    store when its count drops, so ids are never used twice. That freeing an entry at
    zero takes nothing that is still reached is the heap's theorem ([HeapClaims]). *)
From S2P Require Import Prelude HeapData.
Local Open Scope monty_scope.

(** ** Errors *)

Inductive ExcKind := RuntimeError | TypeError | OtherError (kind : nat).

(** [RunError], with the text of an exception. *)
Inductive RunError :=
| Exc (kind : ExcKind) (msg : string)
| UncatchableExc (kind : ExcKind) (msg : string)
| Internal (msg : string).

(** The panics of the executor. [TooLarge] is a counter or an index past its width;
    the others are failed expectations, debug assertions included. *)
Inductive Panic :=
| TaskNotFound | ResumedBlocked | AssertionFailed | NotLive | NotAGather | NotAFuture | NotACoroutine
| NotAnAwaitable | AlreadyResolved | NeverAwaited | ChildNotRegistered | SlotMissing | SlotEmpty
| NoCurrentTask | NoCoroutine | NoContext | EmptyStack | OutOfFuel | TooLarge.

Inductive Stop := Raise (e : RunError) | Panicked (p : Panic).

(** ** Awaitables (asyncio.rs) *)

Module Async.

Inductive CoroutineState := New | Running | Completed.

Record Coroutine := mkCoroutine {
  func_id : nat;
  namespace : list Value;
  co_state : CoroutineState;
  co_globals : option nat }.

Inductive ExternalFutureState := Pending (awaiter : option Awaiter) | Resolved (v : Value) | Failed (e : RunError).

Record ExternalFuture := mkExternal {
  call_id : nat;
  ex_state : ExternalFutureState;
  sleep_result : option Value }.

(** [PendingChildren]: a child's id and the slots it fills. *)
Abbreviation PendingChildren := (gmap nat (list nat)).

Record AwaitedGather := mkAwaited {
  aw_awaiter : Awaiter;
  pending_children : PendingChildren;
  results : list (option Value) }.

Inductive GatherState :=
| GatherPending
| GatherAwaited (aw : AwaitedGather)
| GatherCompleted (v : Value)
| GatherFailed (e : RunError).

Record GatherFuture := mkGather { items : list nat; ga_state : GatherState }.

(** The entries of the heap the executor distinguishes. *)
Inductive Obj :=
| OCoroutine (c : Coroutine)
| OExternal (f : ExternalFuture)
| OGather (g : GatherFuture)
| OList (l : list Value)
| OOther (type_name : string).

Definition item_count (g : GatherFuture) : nat := length (items g).

Definition as_awaited (g : GatherFuture) : option AwaitedGather :=
  match ga_state g with GatherAwaited aw => Some aw | _ => None end.

Definition set_ga_state (st : GatherState) (g : GatherFuture) : GatherFuture := mkGather (items g) st.
Definition set_ex_state (st : ExternalFutureState) (f : ExternalFuture) : ExternalFuture :=
  mkExternal (call_id f) st (sleep_result f).
Definition set_sleep_result (o : option Value) (f : ExternalFuture) : ExternalFuture :=
  mkExternal (call_id f) (ex_state f) o.
Definition set_co_state (st : CoroutineState) (c : Coroutine) : Coroutine :=
  mkCoroutine (func_id c) (namespace c) st (co_globals c).

Definition new_coroutine (func : nat) (ns : list Value) (globals : option nat) : Coroutine :=
  mkCoroutine func ns New globals.
Definition new_pending (call : nat) (sleep : option Value) : ExternalFuture :=
  mkExternal call (Pending None) sleep.
Definition new_gather (its : list nat) : GatherFuture := mkGather its GatherPending.

#[export] Instance coroutine_state_eq : EqDecision CoroutineState.
Proof. solve_decision. Defined.

End Async.
Export Async.

(** ** Contexts *)

(** The ids a frame's namespaces own, in the order they are released: a function's
    globals, or those of a snippet or of an annotation function. *)
Inductive FrameNamespace := NsFunction (globals : nat) | NsSnippet (owned : list nat) | NsAnnotate (owned : list nat).

Definition namespace_ids (n : FrameNamespace) : list nat :=
  match n with NsFunction g => [g] | NsSnippet l | NsAnnotate l => l end.

Inductive CaughtException := CaughtValue (v : Value) | CaughtFrozen (v : Value) (error : RunError).

Definition caught_value (c : CaughtException) : Value :=
  match c with CaughtValue v | CaughtFrozen v _ => v end.

Record SerializedTaskFrame := mkSavedFrame {
  function_id : option nat;
  ip : Z;
  stack_base : Z;
  locals_count : Z;
  exception_stack_base : Z;
  call_offset : option Z;
  is_initializer : bool;
  frame_namespace : option FrameNamespace;
  import_from_module : option nat }.

(** A frame of the machine: the saved fields and the two only a loaded frame has. *)
Record CallFrame := mkCallFrame { saved : SerializedTaskFrame; should_return : bool; is_parked : bool }.

Definition set_frame_namespace (n : option FrameNamespace) (f : SerializedTaskFrame) : SerializedTaskFrame :=
  mkSavedFrame (function_id f) (ip f) (stack_base f) (locals_count f) (exception_stack_base f) (call_offset f)
    (is_initializer f) n (import_from_module f).

(** ** Tasks *)

Inductive TaskState := Ready (r : result unit RunError) | Blocked (id : nat).

Record Task := mkTask {
  task_id : nat;
  frames : list SerializedTaskFrame;
  task_stack : list Value;
  task_exceptions : list CaughtException;
  task_ip : Z;
  coroutine_id : option nat;
  awaiter : option Awaiter;
  state : TaskState }.

Definition new_task (id : nat) (coroutine : option nat) (a : option Awaiter) : Task :=
  mkTask id [] [] [] 0 coroutine a (Ready (Ok tt)).

Definition set_state (st : TaskState) (t : Task) : Task :=
  mkTask (task_id t) (frames t) (task_stack t) (task_exceptions t) (task_ip t) (coroutine_id t) (awaiter t) st.
Definition set_awaiter (a : option Awaiter) (t : Task) : Task :=
  mkTask (task_id t) (frames t) (task_stack t) (task_exceptions t) (task_ip t) (coroutine_id t) a (state t).
Definition set_context (fs : list SerializedTaskFrame) (st : list Value) (ex : list CaughtException) (i : Z)
    (t : Task) : Task :=
  mkTask (task_id t) fs st ex i (coroutine_id t) (awaiter t) (state t).

Record Scheduler := mkScheduler {
  tasks : gmap nat Task;
  ready_queue : list nat;
  current_task : option nat;
  next_task_id : nat;
  next_call_id : nat;
  pending_externals : gmap nat nat;
  coroutine_to_task : gmap nat nat }.

(** [TaskId::default()]. *)
Definition main_id : nat := 0.

Definition new_scheduler : Scheduler :=
  mkScheduler {[ main_id := new_task main_id None None ]} [] (Some main_id) 1 0 ∅ ∅.

Definition set_tasks (ts : gmap nat Task) (s : Scheduler) : Scheduler :=
  mkScheduler ts (ready_queue s) (current_task s) (next_task_id s) (next_call_id s) (pending_externals s)
    (coroutine_to_task s).
Definition set_queue (q : list nat) (s : Scheduler) : Scheduler :=
  mkScheduler (tasks s) q (current_task s) (next_task_id s) (next_call_id s) (pending_externals s)
    (coroutine_to_task s).
Definition set_current (c : option nat) (s : Scheduler) : Scheduler :=
  mkScheduler (tasks s) (ready_queue s) c (next_task_id s) (next_call_id s) (pending_externals s)
    (coroutine_to_task s).
Definition set_next_call (n : nat) (s : Scheduler) : Scheduler :=
  mkScheduler (tasks s) (ready_queue s) (current_task s) (next_task_id s) n (pending_externals s)
    (coroutine_to_task s).
Definition set_pending (p : gmap nat nat) (s : Scheduler) : Scheduler :=
  mkScheduler (tasks s) (ready_queue s) (current_task s) (next_task_id s) (next_call_id s) p
    (coroutine_to_task s).
Definition set_coroutines (c : gmap nat nat) (s : Scheduler) : Scheduler :=
  mkScheduler (tasks s) (ready_queue s) (current_task s) (next_task_id s) (next_call_id s) (pending_externals s) c.

(** ** The machine *)

Record Store := mkStore { objects : gmap nat Obj; next_id : nat; counts : gmap nat Z }.

Record VM := mkVM {
  scheduler : Scheduler;
  store : Store;
  stack : list Value;
  exception_stack : list CaughtException;
  current_frame : CallFrame;
  suspended_frames : list CallFrame;
  instruction_ip : Z;
  recursion_depth : Z }.

Notation AM := (M VM Stop).

Definition set_scheduler (f : Scheduler -> Scheduler) (s : VM) : VM :=
  mkVM (f (scheduler s)) (store s) (stack s) (exception_stack s) (current_frame s) (suspended_frames s)
    (instruction_ip s) (recursion_depth s).
Definition set_store (f : Store -> Store) (s : VM) : VM :=
  mkVM (scheduler s) (f (store s)) (stack s) (exception_stack s) (current_frame s) (suspended_frames s)
    (instruction_ip s) (recursion_depth s).
Definition set_stack (l : list Value) (s : VM) : VM :=
  mkVM (scheduler s) (store s) l (exception_stack s) (current_frame s) (suspended_frames s)
    (instruction_ip s) (recursion_depth s).
(** The context of the running task. *)
Definition load_context (l : list Value) (ex : list CaughtException) (cur : CallFrame) (susp : list CallFrame)
    (i d : Z) (s : VM) : VM :=
  mkVM (scheduler s) (store s) l ex cur susp i d.

Definition raise {A} (e : RunError) : AM A := sfail (Raise e).
Definition panic {A} (p : Panic) : AM A := sfail (Panicked p).
Definition expect {A} (o : option A) (p : Panic) : AM A :=
  match o with Some a => sret a | None => panic p end.
Definition debug_assert (b : bool) : AM unit := if b then sret tt else panic AssertionFailed.

(** Runs [m] and hands its exception to the caller; a panic goes on. *)
Definition attempt {A} (m : AM A) : AM (result A RunError) := fun s =>
  match m s with
  | (Ok a, s') => (Ok (Ok a), s')
  | (Err (Raise e), s') => (Ok (Err e), s')
  | (Err (Panicked p), s') => (Err (Panicked p), s')
  end.

Definition on_scheduler (f : Scheduler -> Scheduler) : AM unit := smodify (set_scheduler f).

(** Runs [f] on the elements of a list in turn. *)
Fixpoint for_each {A} (f : A -> AM unit) (l : list A) : AM unit :=
  match l with
  | [] => sret tt
  | x :: l => f x ;;; for_each f l
  end.

(** ** Objects and references *)

Definition add_count (d : Z) (id : nat) (h : Store) : Store :=
  mkStore (objects h) (next_id h) (<[id := default 0%Z (counts h !! id) + d]> (counts h))%Z.
Definition inc_ref (id : nat) : AM unit := smodify (set_store (add_count 1 id)).
Definition dec_ref (id : nat) : AM unit := smodify (set_store (add_count (-1) id)).

Definition allocate (o : Obj) : AM nat :=
  do s <- sget ;;
  let id := next_id (store s) in
  smodify (set_store (fun h => mkStore (<[id := o]> (objects h)) (S id) (<[id := 1%Z]> (counts h)))) ;;;
  sret id.

Definition read (id : nat) : AM Obj :=
  do s <- sget ;;
  expect (objects (store s) !! id) NotLive.

Definition put (id : nat) (o : Obj) : AM unit :=
  smodify (set_store (fun h => mkStore (<[id := o]> (objects h)) (next_id h) (counts h))).

Definition read_gather (id : nat) : AM GatherFuture :=
  do o <- read id ;;
  match o with OGather g => sret g | _ => panic NotAGather end.
Definition read_external (id : nat) : AM ExternalFuture :=
  do o <- read id ;;
  match o with OExternal f => sret f | _ => panic NotAFuture end.
Definition read_coroutine (id : nat) : AM Coroutine :=
  do o <- read id ;;
  match o with OCoroutine c => sret c | _ => panic NotACoroutine end.

(** [clone_with_heap] and [drop_with] of a value. *)
Definition clone_value (v : Value) : AM unit :=
  match v with VRef id => inc_ref id | _ => sret tt end.
Definition drop_value (v : Value) : AM unit :=
  match v with VRef id => dec_ref id | _ => sret tt end.
Definition drop_option (v : option Value) : AM unit :=
  match v with Some v => drop_value v | None => sret tt end.

Definition drop_awaiter (a : Awaiter) : AM unit :=
  match a with GatherSlot gather _ => dec_ref gather | TaskAwaiter _ => sret tt end.

Definition drop_namespace (n : option FrameNamespace) : AM unit :=
  match n with Some n => for_each dec_ref (namespace_ids n) | None => sret tt end.

Definition drop_state (st : TaskState) : AM unit :=
  match st with Ready _ => sret tt | Blocked id => dec_ref id end.

(** [Task::drop_with]. *)
Definition drop_task (t : Task) : AM unit :=
  for_each drop_value (task_stack t) ;;;
  for_each (fun c => drop_value (caught_value c)) (task_exceptions t) ;;;
  for_each (fun f => drop_namespace (frame_namespace f)) (frames t) ;;;
  drop_state (state t) ;;;
  match coroutine_id t with Some c => dec_ref c | None => sret tt end ;;;
  match awaiter t with Some a => drop_awaiter a | None => sret tt end.

(** ** The scheduler *)

Definition can_await_eagerly (s : Scheduler) : bool :=
  bool_decide (ready_queue s = []) && bool_decide (pending_externals s = ∅).

Definition main_task (s : Scheduler) : option Task := tasks s !! main_id.

Definition get_task (id : nat) : AM Task :=
  do s <- sget ;;
  expect (tasks (scheduler s) !! id) TaskNotFound.

Definition put_task (id : nat) (t : Task) : AM unit :=
  on_scheduler (fun s => set_tasks (<[id := t]> (tasks s)) s).

(** [n + 1] of a [u32]. *)
Definition u32_succ (n : nat) : AM nat :=
  if (Z.of_nat n <? 4294967295)%Z then sret (S n) else panic TooLarge.

Definition allocate_call_id : AM nat :=
  do s <- sget ;;
  let id := next_call_id (scheduler s) in
  do next <- u32_succ id ;;
  on_scheduler (set_next_call next) ;;;
  sret id.

Definition add_pending_external (call future : nat) : AM unit :=
  inc_ref future ;;;
  do s <- sget ;;
  let prev := pending_externals (scheduler s) !! call in
  on_scheduler (fun s => set_pending (<[call := future]> (pending_externals s)) s) ;;;
  debug_assert (bool_decide (prev = None)).

Definition take_pending_external (call : nat) : AM (option nat) :=
  do s <- sget ;;
  on_scheduler (fun s => set_pending (delete call (pending_externals s)) s) ;;;
  sret (pending_externals (scheduler s) !! call).

Definition is_ready_ok (st : TaskState) : bool := match st with Ready (Ok _) => true | _ => false end.
Definition is_blocked_state (st : TaskState) : bool := match st with Blocked _ => true | _ => false end.

Definition block_current_on (awaitable : nat) : AM unit :=
  do s <- sget ;;
  match current_task (scheduler s) with
  | Some id =>
      do t <- get_task id ;;
      debug_assert (is_ready_ok (state t)) ;;;
      inc_ref awaitable ;;;
      put_task id (set_state (Blocked awaitable) t)
  | None => sret tt
  end.

(** The order in which a hash map yields its keys. *)
Class KeyOrder := { key_order : forall {A}, gmap nat A -> list nat }.

Class KeyOrderLaws `{KeyOrder} : Prop := {
  key_order_keys : forall {A} (m : gmap nat A), key_order m ≡ₚ (map_to_list m).*1 }.

Section Scheduler.
Context `{KeyOrder}.

Definition pending_call_ids (s : Scheduler) : list nat := key_order (pending_externals s).

Definition retain_not (id : nat) (q : list nat) : list nat := filter (fun x => x <> id) q.

Definition remove_from_ready_queue (id : nat) : AM unit :=
  on_scheduler (fun s => set_queue (retain_not id (ready_queue s)) s).

Definition spawn (coroutine : nat) (gather : option nat) : AM (option nat) :=
  do s <- sget ;;
  match coroutine_to_task (scheduler s) !! coroutine with
  | Some _ => sret None
  | None =>
      let id := next_task_id (scheduler s) in
      do next <- u32_succ id ;;
      inc_ref coroutine ;;;
      do a <- match gather with
              | Some g => inc_ref g ;;; sret (Some (GatherSlot g coroutine))
              | None => sret None
              end ;;
      on_scheduler (fun s =>
        mkScheduler (<[id := new_task id (Some coroutine) a]> (tasks s)) (ready_queue s ++ [id]) (current_task s) next
          (next_call_id s) (pending_externals s) (<[coroutine := id]> (coroutine_to_task s))) ;;;
      sret (Some id)
  end.

Definition next_ready_task : AM (option nat) :=
  do s <- sget ;;
  match ready_queue (scheduler s) with
  | [] => sret None
  | id :: q => on_scheduler (set_queue q) ;;; sret (Some id)
  end.

Definition make_ready (id : nat) (r : result unit RunError) : AM unit :=
  do t <- get_task id ;;
  debug_assert (is_blocked_state (state t)) ;;;
  put_task id (set_state (Ready r) t) ;;;
  drop_state (state t) ;;;
  on_scheduler (fun s => set_queue (ready_queue s ++ [id]) s).

Definition take_resume_result (id : nat) : AM (result unit RunError) :=
  do t <- get_task id ;;
  match state t with
  | Ready r => put_task id (set_state (Ready (Ok tt)) t) ;;; sret r
  | Blocked _ => panic ResumedBlocked
  end.

Definition set_current_task (id : option nat) : AM unit := on_scheduler (set_current id).

(** One round of the walk of [queue_gather_tasks]: the gathers still to visit and the
    tasks found, the last one first. *)
Definition walk_step (s : VM) (a : list nat * list nat) : (list nat * list nat) + result (list nat) Stop :=
  match a with
  | ([], pending) => inr (Ok pending)
  | (g :: gathers, pending) =>
      match objects (store s) !! g with
      | None => inr (Err (Panicked NotLive))
      | Some (OGather gf) =>
          match as_awaited gf with
          | Some aw =>
              inl (foldl (fun '(gs, ps) child =>
                            match coroutine_to_task (scheduler s) !! child with
                            | Some t => (gs, t :: ps)
                            | None => (child :: gs, ps)
                            end) (gathers, pending) (key_order (pending_children aw)))
          | None => inl (gathers, pending)
          end
      | Some _ => inl (gathers, pending)
      end
  end.

(** The items of a gather are older than it is, so a walk from [root] takes fewer
    than [2 ^ root + 1] rounds. *)
Definition walk_fuel (root : nat) : positive := Z.to_pos (2 ^ Z.of_nat root + 2).

Definition queue_gather_tasks (root : nat) (pending : list nat) : AM (list nat) :=
  do s <- sget ;;
  match iterate (walk_step s) (walk_fuel root) ([root], pending) with
  | inl _ => panic OutOfFuel
  | inr r => slift r
  end.

Definition cancel_one (id : nat) (pending : list nat) : AM (list nat) :=
  do s <- sget ;;
  match tasks (scheduler s) !! id with
  | None => sret pending
  | Some t =>
      on_scheduler (fun s => set_tasks (delete id (tasks s)) s) ;;;
      on_scheduler (fun s => if decide (current_task s = Some id) then set_current None s else s) ;;;
      match coroutine_id t with
      | Some c => on_scheduler (fun s => set_coroutines (delete c (coroutine_to_task s)) s)
      | None => sret tt
      end ;;;
      remove_from_ready_queue id ;;;
      do pending <- match state t with
                    | Blocked b => queue_gather_tasks b pending
                    | Ready _ => sret pending
                    end ;;
      drop_task t ;;;
      sret pending
  end.

Definition cancel_step (a : list nat * VM) : (list nat * VM) + (result unit Stop * VM) :=
  match a with
  | ([], s) => inr (Ok tt, s)
  | (id :: pending, s) =>
      match cancel_one id pending s with
      | (Ok pending, s) => inl (pending, s)
      | (Err e, s) => inr (Err e, s)
      end
  end.

Definition cancel_fuel (s : VM) : positive :=
  Z.to_pos ((Z.of_nat (size (tasks (scheduler s))) + 1) * 2 ^ Z.of_nat (next_id (store s)) + 3).

Definition cancel_task (id : nat) : AM unit := fun s =>
  match iterate cancel_step (cancel_fuel s) ([id], s) with
  | inl (_, s) => (Err (Panicked OutOfFuel), s)
  | inr r => r
  end.

Definition is_blocked (id : nat) (s : Scheduler) : bool :=
  match tasks s !! id with Some t => is_blocked_state (state t) | None => false end.

Definition cleanup : AM unit :=
  do s <- sget ;;
  on_scheduler (set_pending ∅) ;;;
  for_each (fun call => match pending_externals (scheduler s) !! call with
                        | Some future => dec_ref future
                        | None => sret tt
                        end) (key_order (pending_externals (scheduler s))) ;;;
  do s <- sget ;;
  for_each cancel_task (key_order (tasks (scheduler s))).

End Scheduler.
