(* ===== verification/AsyncExec.v ===== *)
(** * The async executor

    Awaiting, task switches, completion and failure of tasks, and the host's results:
    bytecode/vm/async_exec.rs, with what it uses of vm/mod.rs, and the constructors of
    awaitables in modules/asyncio.rs. The run loop itself is not part of this file: a
    task's code is whatever the loop does to the loaded context between two of these
    operations. *)
From S2P Require Import Prelude HeapData Scheduler.
Local Open Scope monty_scope.

Definition cannot_reuse_already_awaited_coroutine : RunError :=
  Exc RuntimeError "cannot reuse already awaited coroutine".
Definition cannot_reuse_already_awaited_future : RunError :=
  Exc RuntimeError "cannot reuse already awaited future".
Definition cannot_reuse_awaited_gather : RunError :=
  Exc RuntimeError "cannot reuse gather that is currently being awaited".
Definition object_not_awaitable : RunError := Exc TypeError "object can't be used in 'await' expression".
Definition awaitable_required : RunError :=
  Exc TypeError "An asyncio.Future, a coroutine or an awaitable is required".
Definition scheduler_stalled : RunError :=
  Internal "asyncio scheduler stalled: no ready tasks and no pending external calls".

(** The functions the program was compiled with, and the answers of the resource
    tracker ([check_memory_time_every] at a step of the walk, [check_allocation] of a
    size, [check_recursion_depth] at a depth), which depend on clocks and on the allocator. *)
Class Interns := { is_internal_function : nat -> bool }.
Class Tracker := {
  check_memory_time_every : nat -> option RunError;
  check_allocation : Z -> option RunError;
  check_recursion_depth : Z -> option RunError;
  size_of_commit : Z }.

Inductive Poll := PReady (v : Value) | PPending.
Inductive AwaitResult := ValueReady (v : Value) | FramePushed | Yield (calls : list nat).

(** ** Frames *)

(** [CallFrame::new_module] parked, as [new_parked] and [park] leave it. *)
Definition parked_frame : CallFrame :=
  mkCallFrame (mkSavedFrame None 0 0 0 0 None false None None) false true.

(** [CallFrame::park] keeps the module name of an import. *)
Definition park (f : CallFrame) : CallFrame :=
  mkCallFrame (mkSavedFrame None 0 0 0 0 None false (frame_namespace (saved f)) (import_from_module (saved f)))
    false true.

Definition u32_max : Z := 4294967295.
Definition u16_max : Z := 65535.

Definition stack_index (i : Z) : AM Z := if (i <=? u32_max)%Z then sret i else panic TooLarge.

(** A [usize] after an addition or a subtraction, with the checks on. *)
Definition usize (n : Z) : AM Z := if ((0 <=? n) && (n <=? usize_max))%Z then sret n else panic TooLarge.

Definition function_namespace (globals : option nat) : AM (option FrameNamespace) :=
  match globals with
  | Some g => inc_ref g ;;; sret (Some (NsFunction g))
  | None => sret None
  end.

Definition new_function (base locals exc : Z) (func : nat) (offset : option Z) (ns : option FrameNamespace) :
    AM CallFrame :=
  do base <- stack_index base ;;
  do exc <- stack_index exc ;;
  sret (mkCallFrame (mkSavedFrame (Some func) 0 base locals exc offset false ns None) false false).

(** The recursion the frames of a context count for. *)
Definition frame_recursion_depth `{Interns} (fs : list (option nat)) : Z :=
  zlen (List.filter (fun id => match id with Some f => negb (is_internal_function f) | None => true end)
          (List.tl fs)).

Definition is_main_task (s : VM) : bool :=
  match current_task (scheduler s) with Some id => (id =? main_id)%nat | None => true end.
Definition is_spawned_task (s : VM) : bool :=
  match current_task (scheduler s) with Some id => negb (id =? main_id)%nat | None => false end.

Section Exec.
Context `{KeyOrder} `{Interns} `{Tracker}.

Definition push (v : Value) : AM unit := smodify (fun s => set_stack (stack s ++ [v]) s).

Definition pop : AM Value :=
  do s <- sget ;;
  match List.rev (stack s) with
  | [] => panic EmptyStack
  | v :: rest => smodify (set_stack (List.rev rest)) ;;; sret v
  end.

(** ** Awaiting *)

(** [CallFrame]s the machine pushes; on the recursion limit the frame's state is
    released ([cleanup_frame_state]). *)
Definition cleanup_frame_state (f : CallFrame) : AM unit :=
  do s <- sget ;;
  let base := Z.to_nat (stack_base (saved f)) in
  let exc := Z.to_nat (exception_stack_base (saved f)) in
  smodify (fun s => load_context (take base (stack s)) (take exc (exception_stack s)) (current_frame s)
                      (suspended_frames s) (instruction_ip s) (recursion_depth s) s) ;;;
  for_each drop_value (drop base (stack s)) ;;;
  for_each (fun c => drop_value (caught_value c)) (drop exc (exception_stack s)) ;;;
  drop_namespace (frame_namespace (saved f)).

Definition push_admitted_frame (f : CallFrame) : AM unit :=
  smodify (fun s => load_context (stack s) (exception_stack s) f (suspended_frames s ++ [current_frame s])
                      (instruction_ip s) (recursion_depth s) s).

Definition incr_recursion : AM unit :=
  do s <- sget ;;
  match check_recursion_depth (recursion_depth s) with
  | Some e => raise e
  | None =>
      do depth <- usize (recursion_depth s + 1) ;;
      smodify (fun s => load_context (stack s) (exception_stack s) (current_frame s) (suspended_frames s)
                          (instruction_ip s) depth s)
  end.

Definition push_frame (f : CallFrame) : AM unit :=
  do s <- sget ;;
  if is_parked (current_frame s) then push_admitted_frame f
  else
    do r <- attempt incr_recursion ;;
    match r with
    | Ok _ => push_admitted_frame f
    | Err e => cleanup_frame_state f ;;; raise e
    end.

Definition current_offset (s : VM) : option Z :=
  if is_parked (current_frame s) then None
  else if ((0 <=? instruction_ip s) && (instruction_ip s <=? u32_max))%Z then Some (instruction_ip s) else None.

Definition locals_count_of (ns : list Value) : AM Z :=
  if (zlen ns <=? u16_max)%Z then sret (zlen ns) else panic TooLarge.

Definition start_coroutine_frame (func : nat) (ns : list Value) (globals : option nat) : AM unit :=
  do s <- sget ;;
  let offset := current_offset s in
  do locals <- locals_count_of ns ;;
  let base := zlen (stack s) in
  smodify (fun s => set_stack (stack s ++ ns) s) ;;;
  let exc := zlen (exception_stack s) in
  do n <- function_namespace globals ;;
  do f <- new_function base locals exc func offset n ;;
  push_frame f.

Definition await_coroutine (id : nat) : AM AwaitResult :=
  do c <- read_coroutine id ;;
  if decide (co_state c = New) then
    for_each clone_value (namespace c) ;;;
    put id (OCoroutine (set_co_state Running c)) ;;;
    start_coroutine_frame (func_id c) (namespace c) (co_globals c) ;;;
    sret FramePushed
  else raise cannot_reuse_already_awaited_coroutine.

Definition await_external_future (id : nat) (a : Awaiter) : AM Poll :=
  do f <- read_external id ;;
  match ex_state f with
  | Resolved v => clone_value v ;;; drop_awaiter a ;;; sret (PReady v)
  | Failed e => drop_awaiter a ;;; raise e
  | Pending (Some _) => drop_awaiter a ;;; raise cannot_reuse_already_awaited_future
  | Pending None => put id (OExternal (set_ex_state (Pending (Some a)) f)) ;;; sret PPending
  end.

Definition poll_settled_gather (g : GatherFuture) : AM (option Value) :=
  match ga_state g with
  | GatherPending => sret None
  | GatherCompleted v => clone_value v ;;; sret (Some v)
  | GatherFailed e => raise e
  | GatherAwaited _ => raise cannot_reuse_awaited_gather
  end.

(** ** Committing a gather *)

Record GatherCommit := mkCommit {
  c_gather : nat;
  c_awaiter : Awaiter;
  c_parent_slot : option nat;
  c_next : nat;
  c_results : list (option Value);
  c_pending : PendingChildren }.

Definition drop_commit (c : GatherCommit) : AM unit :=
  for_each drop_option (c_results c) ;;; drop_awaiter (c_awaiter c).

Definition open_gather_commit (g : nat) (a : Awaiter) (slot : option nat) : AM GatherCommit :=
  do gf <- read_gather g ;;
  sret (mkCommit g a slot 0 (replicate (item_count gf) None) ∅).

(** [PendingChildren::insert(item, smallvec![idx])], or the index appended to the
    entry an earlier occurrence of the item made, and the next index. *)
Definition commit_pending (idx item : nat) (c : GatherCommit) : GatherCommit :=
  mkCommit (c_gather c) (c_awaiter c) (c_parent_slot c) (S idx) (c_results c) (<[item := [idx]]> (c_pending c)).
Definition commit_again (idx item : nat) (slots : list nat) (c : GatherCommit) : GatherCommit :=
  mkCommit (c_gather c) (c_awaiter c) (c_parent_slot c) (S (c_next c)) (c_results c)
    (<[item := slots ++ [idx]]> (c_pending c)).
Definition commit_ready (idx : nat) (v : Value) (c : GatherCommit) : GatherCommit :=
  mkCommit (c_gather c) (c_awaiter c) (c_parent_slot c) (S idx) (<[idx := Some v]> (c_results c)) (c_pending c).

Definition commit_poll (idx item : nat) (p : Poll) (c : GatherCommit) : GatherCommit :=
  match p with PReady v => commit_ready idx v c | PPending => commit_pending idx item c end.

(** [GatherCommit::resume_after_child]. *)
Definition resume_after_child (child slot : nat) (p : Poll) (c : GatherCommit) : GatherCommit :=
  commit_poll slot child p c.

(** One item that no earlier item of this pass is: its outcome, or the nested gather
    to commit first. *)
Definition commit_item (g idx item : nat) : AM (Poll + GatherCommit) :=
  do o <- read item ;;
  match o with
  | OCoroutine c =>
      if decide (co_state c = New) then
        do spawned <- spawn item (Some g) ;;
        match spawned with
        | Some _ => sret (inl PPending)
        | None => raise cannot_reuse_already_awaited_coroutine
        end
      else raise cannot_reuse_already_awaited_coroutine
  | OExternal _ =>
      inc_ref g ;;;
      do p <- await_external_future item (GatherSlot g item) ;;
      sret (inl p)
  | OGather child =>
      do settled <- poll_settled_gather child ;;
      match settled with
      | Some v => sret (inl (PReady v))
      | None =>
          inc_ref g ;;;
          do nested <- open_gather_commit item (GatherSlot g item) (Some idx) ;;
          sret (inr nested)
      end
  | _ => panic NotAnAwaitable
  end.

(** [step_gather_commit]: the frame as it is left, with the nested frame to descend
    into, [None] at the end, or the exception. *)
Fixpoint step_gather_commit (fuel : nat) (c : GatherCommit) :
    AM (GatherCommit * result (option GatherCommit) RunError) :=
  if (c_next c <? length (c_results c))%nat then
    match fuel with
    | O => panic OutOfFuel
    | S fuel =>
        let idx := c_next c in
        do gf <- read_gather (c_gather c) ;;
        do item <- expect (items gf !! idx) SlotMissing ;;
        match c_pending c !! item with
        | Some slots => step_gather_commit fuel (commit_again idx item slots c)
        | None =>
            do r <- attempt (commit_item (c_gather c) idx item) ;;
            match r with
            | Ok (inl p) => step_gather_commit fuel (commit_poll idx item p c)
            | Ok (inr nested) => sret (c, Ok (Some nested))
            | Err e => sret (c, Err e)
            end
        end
    end
  else sret (c, Ok None).

Definition all_filled (rs : list (option Value)) : AM (list Value) := expect (mapM id rs) SlotEmpty.

(** [HeapReadMut::cache_result]. *)
Definition cache_result (g list_id : nat) : AM unit :=
  inc_ref list_id ;;;
  do gf <- read_gather g ;;
  put g (OGather (set_ga_state (GatherCompleted (VRef list_id)) gf)).

Definition settle_gather_commit (c : GatherCommit) : AM Poll :=
  do gf <- read_gather (c_gather c) ;;
  if decide (c_pending c = ∅) then
    do vs <- all_filled (c_results c) ;;
    do list_id <- allocate (OList vs) ;;
    cache_result (c_gather c) list_id ;;;
    drop_awaiter (c_awaiter c) ;;;
    sret (PReady (VRef list_id))
  else
    put (c_gather c)
      (OGather (set_ga_state (GatherAwaited (mkAwaited (c_awaiter c) (c_pending c) (c_results c))) gf)) ;;;
    sret PPending.

Fixpoint unwind_gather_commits (stack : list GatherCommit) (e : RunError) : AM unit :=
  match stack with
  | [] => sret tt
  | c :: stack =>
      do gf <- read_gather (c_gather c) ;;
      put (c_gather c) (OGather (set_ga_state (GatherFailed e) gf)) ;;;
      drop_commit c ;;;
      unwind_gather_commits stack e
  end.

(** The capacity a full [Vec] grows to. *)
Definition grown (capacity : nat) : nat := Nat.max 4 (2 * capacity).

Definition check_commit_stack_growth (len capacity : nat) : option RunError :=
  if (len =? capacity)%nat then check_allocation (2 * Z.of_nat capacity * size_of_commit)%Z else None.

(** The loop of [commit_gather_tree]: the stack with the innermost frame first, its
    capacity, the steps taken and the machine. It ends with the frames that are left
    and the outcome. *)
Record CommitLoop := mkLoop { l_stack : list GatherCommit; l_capacity : nat; l_steps : nat; l_vm : VM }.
Definition CommitEnd : Type := list GatherCommit * result (result Poll RunError) Stop * VM.

Definition commit_step (l : CommitLoop) : CommitLoop + CommitEnd :=
  match check_memory_time_every (l_steps l) with
  | Some e => inr (l_stack l, Ok (Err e), l_vm l)
  | None =>
      match l_stack l with
      | [] => inr ([], Err (Panicked SlotMissing), l_vm l)
      | c :: rest =>
          match step_gather_commit (length (c_results c)) c (l_vm l) with
          | (Err e, s) => inr (c :: rest, Err e, s)
          | (Ok (c, Err e), s) => inr (c :: rest, Ok (Err e), s)
          | (Ok (c, Ok (Some nested)), s) =>
              match check_commit_stack_growth (length (c :: rest)) (l_capacity l) with
              | Some e =>
                  match drop_commit nested s with
                  | (Ok _, s) => inr (c :: rest, Ok (Err e), s)
                  | (Err e, s) => inr (c :: rest, Err e, s)
                  end
              | None =>
                  inl (mkLoop (nested :: c :: rest)
                         (if (length (c :: rest) =? l_capacity l)%nat then grown (l_capacity l) else l_capacity l)
                         (S (l_steps l)) s)
              end
          | (Ok (c, Ok None), s) =>
              match settle_gather_commit c s with
              | (Err e, s) => inr (rest, Err e, s)
              | (Ok poll, s) =>
                  match rest with
                  | [] => inr ([], Ok (Ok poll), s)
                  | parent :: rest =>
                      match c_parent_slot c with
                      | None => inr (parent :: rest, Err (Panicked SlotMissing), s)
                      | Some slot =>
                          inl (mkLoop (resume_after_child (c_gather c) slot poll parent :: rest) (l_capacity l)
                                 (S (l_steps l)) s)
                      end
                  end
              end
          end
      end
  end.

(** Every round opens a gather that is [Pending] or settles one. *)
Definition commit_fuel (s : VM) : positive := Pos.of_succ_nat (2 * size (objects (store s)) + 1).

Definition commit_gather_tree (root : nat) (a : Awaiter) : AM Poll :=
  do c <- open_gather_commit root a None ;;
  fun s =>
    match iterate commit_step (commit_fuel s) (mkLoop [c] 1 0 s) with
    | inl l => (Err (Panicked OutOfFuel), l_vm l)
    | inr (_, Err e, s) => (Err e, s)
    | inr (_, Ok (Ok poll), s) => (Ok poll, s)
    | inr (stack, Ok (Err e), s) => (unwind_gather_commits stack e ;;; raise e) s
    end.

Definition await_gather_future (g : nat) (a : Awaiter) : AM Poll :=
  do gf <- read_gather g ;;
  do r <- attempt (poll_settled_gather gf) ;;
  match r with
  | Err e => drop_awaiter a ;;; raise e
  | Ok (Some v) => drop_awaiter a ;;; sret (PReady v)
  | Ok None => commit_gather_tree g a
  end.

(** ** Delivering results *)

Definition context_is_loaded (id : nat) (s : VM) : bool :=
  bool_decide (current_task (scheduler s) = Some id) && negb (is_parked (current_frame s)).

Definition deliver_value_to_task (id : nat) (v : Value) : AM (option nat) :=
  do s <- sget ;;
  if is_blocked id (scheduler s) then
    (if context_is_loaded id s then push v
     else
       do t <- get_task id ;;
       put_task id (set_context (frames t) (task_stack t ++ [v]) (task_exceptions t) (task_ip t) t)) ;;;
    make_ready id (Ok tt) ;;;
    sret (Some id)
  else drop_value v ;;; sret None.

(** [results[idx] = Some(value)]: out of range it panics. *)
Definition store_result (v : Value) (idx : nat) (rs : list (option Value)) : AM (list (option Value)) :=
  if (idx <? length rs)%nat then sret (<[idx := Some v]> rs) else panic SlotMissing.

(** All slots but the last take a clone of the value. *)
Fixpoint fill_slots (v : Value) (idxs : list nat) (rs : list (option Value)) : AM (list (option Value)) :=
  match idxs with
  | [] => drop_value v ;;; sret rs
  | [idx] => store_result v idx rs
  | idx :: idxs => clone_value v ;;; (do rs <- store_result v idx rs ;; fill_slots v idxs rs)
  end.

(** [HeapReadMut::resolve_child]: the list of results and the awaiter of a gather that
    is complete. *)
Definition resolve_child (g child : nat) (v : Value) : AM (option (nat * Awaiter)) :=
  do gf <- read_gather g ;;
  match ga_state gf with
  | GatherCompleted _ | GatherFailed _ => drop_value v ;;; sret None
  | GatherPending => panic NeverAwaited
  | GatherAwaited aw =>
      do idxs <- expect (pending_children aw !! child) ChildNotRegistered ;;
      let pending := delete child (pending_children aw) in
      do rs <- fill_slots v idxs (results aw) ;;
      put g (OGather (set_ga_state (GatherAwaited (mkAwaited (aw_awaiter aw) pending rs)) gf)) ;;;
      if decide (pending = ∅) then
        do vs <- all_filled rs ;;
        put g (OGather (set_ga_state (GatherAwaited (mkAwaited (TaskAwaiter main_id) pending [])) gf)) ;;;
        do list_id <- allocate (OList vs) ;;
        cache_result g list_id ;;;
        sret (Some (list_id, aw_awaiter aw))
      else sret None
  end.

(** The chain of awaiters above an awaitable goes through ever younger gathers. *)
Fixpoint deliver_success (fuel : nat) (a : Awaiter) (v : Value) : AM (option nat) :=
  match a with
  | TaskAwaiter id => deliver_value_to_task id v
  | GatherSlot g source =>
      match fuel with
      | O => panic OutOfFuel
      | S fuel =>
          do success <- resolve_child g source v ;;
          dec_ref g ;;;
          match success with
          | Some (list_id, next) => deliver_success fuel next (VRef list_id)
          | None => sret None
          end
      end
  end.

(** [HeapReadMut::fail]. *)
Definition fail (g : nat) (e : RunError) : AM (option Awaiter) :=
  do gf <- read_gather g ;;
  match ga_state gf with
  | GatherAwaited aw =>
      put g (OGather (set_ga_state (GatherFailed e) gf)) ;;;
      for_each drop_option (results aw) ;;;
      sret (Some (aw_awaiter aw))
  | _ => sret None
  end.

Fixpoint deliver_failure (fuel : nat) (a : Awaiter) (e : RunError) : AM (option nat) :=
  match a with
  | TaskAwaiter id =>
      do s <- sget ;;
      if is_blocked id (scheduler s) then make_ready id (Err e) ;;; sret (Some id) else sret None
  | GatherSlot g _ =>
      match fuel with
      | O => panic OutOfFuel
      | S fuel =>
          do next <- fail g e ;;
          dec_ref g ;;;
          match next with
          | Some next => deliver_failure fuel next e
          | None => sret None
          end
      end
  end.

Definition chain_fuel (s : VM) : nat := S (next_id (store s)).

Definition deliver_awaiter_success (a : Awaiter) (v : Value) : AM (option nat) :=
  do s <- sget ;; deliver_success (chain_fuel s) a v.
Definition deliver_awaiter_failure (a : Awaiter) (e : RunError) : AM (option nat) :=
  do s <- sget ;; deliver_failure (chain_fuel s) a e.

(** ** Switching tasks *)

Definition frame_functions (fs : list SerializedTaskFrame) : list (option nat) := map function_id fs.

Definition save_task_context (id : nat) : AM unit :=
  do s <- sget ;;
  let fs := map saved (suspended_frames s) ++ [saved (current_frame s)] in
  let left := mkCallFrame (set_frame_namespace None (saved (current_frame s))) (should_return (current_frame s))
                (is_parked (current_frame s)) in
  do depth <- usize (recursion_depth s - frame_recursion_depth (frame_functions fs)) ;;
  smodify (fun s => load_context [] [] left [] (instruction_ip s) depth s) ;;;
  do t <- get_task id ;;
  put_task id (set_context fs (stack s) (exception_stack s) (instruction_ip s) t).

Definition loaded_frame (f : SerializedTaskFrame) : AM CallFrame :=
  do _ <- stack_index (stack_base f) ;;
  do _ <- stack_index (exception_stack_base f) ;;
  sret (mkCallFrame f false false).

Fixpoint loaded_frames (fs : list SerializedTaskFrame) : AM (list CallFrame) :=
  match fs with
  | [] => sret []
  | f :: fs => do c <- loaded_frame f ;; do cs <- loaded_frames fs ;; sret (c :: cs)
  end.

Definition cleanup_current_task : AM unit :=
  do s <- sget ;;
  smodify (fun s => load_context [] [] (park (mkCallFrame (set_frame_namespace None (saved (current_frame s)))
                                                false false)) [] (instruction_ip s) (recursion_depth s) s) ;;;
  for_each drop_value (stack s) ;;;
  for_each (fun c => drop_value (caught_value c)) (exception_stack s) ;;;
  for_each (fun f => drop_namespace (frame_namespace (saved f))) (suspended_frames s) ;;;
  drop_namespace (frame_namespace (saved (current_frame s))).

Definition init_task_from_coroutine (id : nat) : AM unit :=
  do c <- read_coroutine id ;;
  if decide (co_state c = New) then
    for_each clone_value (namespace c) ;;;
    put id (OCoroutine (set_co_state Running c)) ;;;
    do locals <- locals_count_of (namespace c) ;;
    do s <- sget ;;
    smodify (fun s => set_stack (stack s ++ namespace c) s) ;;;
    do n <- function_namespace (co_globals c) ;;
    do f <- new_function (zlen (stack s)) locals (zlen (exception_stack s)) (func_id c) None n ;;
    smodify (fun s => load_context (stack s) (exception_stack s) f [] (instruction_ip s) (recursion_depth s) s)
  else raise cannot_reuse_already_awaited_coroutine.

Section Activate.
(** [activate_task], for the tasks activated from within. *)
Context (activate_task : nat -> AM unit).

Definition resume_after_task_exit (waiter : option nat) : AM bool :=
  do next <- match waiter with
             | Some w => remove_from_ready_queue w ;;; sret (Some w)
             | None => next_ready_task
             end ;;
  match next with
  | Some id => activate_task id ;;; sret true
  | None => sret false
  end.

Definition handle_task_failure (e : RunError) : AM unit :=
  do s <- sget ;;
  do id <- expect (current_task (scheduler s)) NoCurrentTask ;;
  debug_assert (negb (id =? main_id)%nat) ;;;
  do t <- get_task id ;;
  put_task id (set_awaiter None t) ;;;
  do delivery <- match awaiter t with
                 | Some a => deliver_awaiter_failure a e
                 | None => sret None
                 end ;;
  cleanup_current_task ;;;
  cancel_task id ;;;
  do _ <- resume_after_task_exit delivery ;;
  sret tt.

Definition load_or_init_task (id : nat) : AM unit :=
  do t <- get_task id ;;
  put_task id (set_context [] [] [] (task_ip t) t) ;;;
  do s <- sget ;;
  do depth <- usize (recursion_depth s + frame_recursion_depth (frame_functions (frames t))) ;;
  smodify (fun s => load_context (stack s) (exception_stack s) (current_frame s) (suspended_frames s)
                      (instruction_ip s) depth s) ;;;
  match frames t with
  | _ :: _ =>
      do fs <- loaded_frames (frames t) ;;
      match List.rev fs with
      | [] => panic NoContext
      | cur :: susp =>
          smodify (fun s => load_context (task_stack t) (task_exceptions t) cur (List.rev susp) (task_ip t)
                              (recursion_depth s) s)
      end
  | [] =>
      match coroutine_id t with
      | None => panic NoContext
      | Some c =>
          do co <- read_coroutine c ;;
          if decide (co_state co = New) then init_task_from_coroutine c
          else handle_task_failure cannot_reuse_already_awaited_coroutine
      end
  end.

Definition activate_step (id : nat) : AM unit :=
  do r <- take_resume_result id ;;
  do s <- sget ;;
  (if decide (current_task (scheduler s) = Some id) then sret tt
   else
     match current_task (scheduler s) with Some current => save_task_context current | None => sret tt end ;;;
     set_current_task (Some id) ;;;
     load_or_init_task id) ;;;
  match r with Ok _ => sret tt | Err e => raise e end.

End Activate.

(** Each level below the first ends a task. *)
Fixpoint activate_loop (fuel : nat) (id : nat) : AM unit :=
  match fuel with
  | O => panic OutOfFuel
  | S fuel => activate_step (activate_loop fuel) id
  end.

Definition activate_task (id : nat) : AM unit :=
  do s <- sget ;; activate_loop (S (size (tasks (scheduler s)))) id.

Definition switch_or_yield : AM AwaitResult :=
  do next <- next_ready_task ;;
  match next with
  | Some id => activate_task id ;;; sret FramePushed
  | None => do s <- sget ;; sret (Yield (pending_call_ids (scheduler s)))
  end.

Definition exec_get_awaitable : AM AwaitResult :=
  do awaitable <- pop ;;
  do s <- sget ;;
  do current <- expect (current_task (scheduler s)) NoCurrentTask ;;
  do r <- attempt
    match awaitable with
    | VRef id =>
        do o <- read id ;;
        match o with
        | OCoroutine _ => await_coroutine id
        | OGather _ | OExternal _ =>
            do p <- match o with
                    | OGather _ => await_gather_future id (TaskAwaiter current)
                    | _ => await_external_future id (TaskAwaiter current)
                    end ;;
            match p with
            | PReady v => sret (ValueReady v)
            | PPending => block_current_on id ;;; switch_or_yield
            end
        | _ => raise object_not_awaitable
        end
    | _ => raise object_not_awaitable
    end ;;
  drop_value awaitable ;;;
  match r with Ok a => sret a | Err e => raise e end.

Definition handle_task_completion (v : Value) : AM AwaitResult :=
  do s <- sget ;;
  do id <- expect (current_task (scheduler s)) NoCurrentTask ;;
  do t <- get_task id ;;
  put_task id (set_awaiter None t) ;;;
  do c <- expect (coroutine_id t) NoCoroutine ;;
  do co <- read_coroutine c ;;
  put c (OCoroutine (set_co_state Completed co)) ;;;
  cancel_task id ;;;
  do delivery <- match awaiter t with
                 | Some a => deliver_awaiter_success a v
                 | None => drop_value v ;;; sret None
                 end ;;
  cleanup_current_task ;;;
  do resumed <- resume_after_task_exit activate_task delivery ;;
  if (resumed : bool) then sret FramePushed
  else do s <- sget ;; sret (Yield (pending_call_ids (scheduler s))).

(** ** The host *)

Definition resolve_future (call : nat) (v : Value) : AM unit :=
  do o <- take_pending_external call ;;
  match o with
  | None => drop_value v
  | Some id =>
      do f <- read_external id ;;
      put id (OExternal (set_sleep_result None f)) ;;;
      do v <- match sleep_result f with
              | Some result => drop_value v ;;; sret result
              | None => sret v
              end ;;
      do a <- match ex_state f with
              | Pending (Some a) => clone_value v ;;; sret (Some a)
              | Pending None => sret None
              | Resolved _ | Failed _ => panic AlreadyResolved
              end ;;
      put id (OExternal (mkExternal (call_id f) (Resolved v) None)) ;;;
      match a with
      | Some a => do _ <- deliver_awaiter_success a v ;; sret tt
      | None => sret tt
      end ;;;
      dec_ref id
  end.

Definition fail_future (call : nat) (e : RunError) : AM unit :=
  do o <- take_pending_external call ;;
  match o with
  | None => sret tt
  | Some id =>
      do f <- read_external id ;;
      match ex_state f with
      | Pending a =>
          put id (OExternal (mkExternal (call_id f) (Failed e) None)) ;;;
          drop_option (sleep_result f) ;;;
          match a with
          | Some a => do _ <- deliver_awaiter_failure a e ;; sret tt
          | None => sret tt
          end ;;;
          dec_ref id
      | Resolved _ | Failed _ => panic AlreadyResolved
      end
  end.

Definition push_pending_future (call : nat) (sleep : option Value) : AM unit :=
  do id <- allocate (OExternal (new_pending call sleep)) ;;
  add_pending_external call id ;;;
  push (VRef id).

Definition add_pending_call (call : nat) : AM unit := push_pending_future call None.
Definition add_pending_sleep (call : nat) (result : Value) : AM unit := push_pending_future call (Some result).

Definition settled_awaitable (v : Value) : AM Value :=
  do call <- allocate_call_id ;;
  do id <- allocate (OExternal (mkExternal call (Resolved v) None)) ;;
  sret (VRef id).

(** [ExtFunctionResult], with an object the host returns already converted, or the
    error of its conversion. *)
Inductive ExtFunctionResult :=
| ExtReturn (r : result Value RunError)
| ExtError (e : RunError)
| ExtFuture (call : nat)
| ExtNotFound (e : RunError)
| ExtModuleFile (e : RunError).

Fixpoint apply_future_results (rs : list (nat * ExtFunctionResult)) : AM unit :=
  match rs with
  | [] => sret tt
  | (call, r) :: rs =>
      match r with
      | ExtReturn (Ok v) => resolve_future call v
      | ExtReturn (Err e) => raise e
      | ExtError e | ExtNotFound e | ExtModuleFile e => fail_future call e
      | ExtFuture _ => sret tt
      end ;;;
      apply_future_results rs
  end.

(** What the machine does once the results are in: run the loop, raise in the task
    that was loaded, or return to the host. *)
Inductive Resumed := RunLoop | ResumeWithException (e : RunError) | ResolveFutures (calls : list nat).

Definition resume_with_resolved_futures (rs : list (nat * ExtFunctionResult)) : AM Resumed :=
  apply_future_results rs ;;;
  do next <- next_ready_task ;;
  match next with
  | Some id =>
      do r <- attempt (activate_task id) ;;
      match r with Ok _ => sret RunLoop | Err e => sret (ResumeWithException e) end
  | None =>
      do s <- sget ;;
      match pending_call_ids (scheduler s) with
      | [] => raise scheduler_stalled
      | calls => sret (ResolveFutures calls)
      end
  end.

(** [abort]: the context the exception is then raised in. *)
Definition abort_context : AM unit :=
  do s <- sget ;;
  if is_parked (current_frame s)
     && match main_task (scheduler s) with Some t => negb (bool_decide (frames t = [])) | None => false end
  then set_current_task (Some main_id) ;;; load_or_init_task activate_task main_id
  else sret tt.

(** ** Awaitables (modules/asyncio.rs and vm/call.rs) *)

Definition is_awaitable (o : Obj) : bool :=
  match o with OCoroutine _ | OExternal _ | OGather _ => true | _ => false end.

Fixpoint gather_items (vs : list Value) : AM (list nat) :=
  match vs with
  | [] => sret []
  | VRef id :: vs =>
      do o <- read id ;;
      if is_awaitable o then do ids <- gather_items vs ;; sret (id :: ids) else raise awaitable_required
  | _ :: _ => raise awaitable_required
  end.

Definition gather (vs : list Value) : AM Value :=
  do r <- attempt (gather_items vs) ;;
  match r with
  | Err e => for_each drop_value vs ;;; raise e
  | Ok ids => do id <- allocate (OGather (new_gather ids)) ;; sret (VRef id)
  end.

(** The end of a call of an async function, its arguments bound to [ns]. *)
Definition make_coroutine (func : nat) (ns : list Value) (globals : option nat) : AM Value :=
  match globals with Some g => inc_ref g | None => sret tt end ;;;
  do id <- allocate (OCoroutine (new_coroutine func ns globals)) ;;
  sret (VRef id).

End Exec.
