(* ===== verification/AsyncInv.v ===== *)
(** * The invariant of the executor

    Every live task is running, queued, or blocked on an awaitable that names it as
    the one to wake; every awaiter that names a gather's slot is expected by that
    gather. The changes the operations are made of keep it. *)
From S2P Require Import Prelude HeapData Scheduler AsyncExec.
Local Open Scope monty_scope.

(** ** What an object waits for *)

#[export] Instance awaiter_eq_dec : EqDecision Awaiter.
Proof. solve_decision. Defined.

Definition is_gather (o : Obj) : bool := match o with OGather _ => true | _ => false end.

(** The awaiter an unsettled awaitable holds. *)
Definition obj_awaiter (o : Obj) : option Awaiter :=
  match o with
  | OExternal f => match ex_state f with Pending a => a | _ => None end
  | OGather g => match ga_state g with GatherAwaited aw => Some (aw_awaiter aw) | _ => None end
  | _ => None
  end.

Definition is_coroutine (o : Obj) : bool := match o with OCoroutine _ => true | _ => false end.

Definition settled (st : GatherState) : bool :=
  match st with GatherCompleted _ | GatherFailed _ => true | _ => false end.

(** The gathers being committed, with the children registered so far. *)
Abbreviation opens_t := (gmap nat PendingChildren).
Abbreviation objs_t := (gmap nat Obj).

(** The children the gather [g] waits for. *)
Definition expected (opens : opens_t) (objs : objs_t) (g : nat) : option PendingChildren :=
  match opens !! g with
  | Some pc => Some pc
  | None =>
      match objs !! g with
      | Some (OGather gf) => pending_children <$> as_awaited gf
      | _ => None
      end
  end.

Definition has_item (objs : objs_t) (g c : nat) : Prop := exists gf, objs !! g = Some (OGather gf) /\ c ∈ items gf.

Definition gather_settled (objs : objs_t) (g : nat) : Prop :=
  exists gf, objs !! g = Some (OGather gf) /\ settled (ga_state gf) = true.

(** A result for the child [c] of [g] is expected, or comes too late. *)
Definition slot_ok (opens : opens_t) (objs : objs_t) (g c : nat) : Prop :=
  has_item objs g c /\ ((exists pc, expected opens objs g = Some pc /\ is_Some (pc !! c)) \/ gather_settled objs g).

(** The bookkeeping of a gather whose items below [n] are committed: the empty slots
    are those of the pending children. *)
Record awaited_ok (its : list nat) (n : nat) (aw : AwaitedGather) : Prop := {
  ao_length : length (results aw) = length its;
  ao_slots : forall c idxs, pending_children aw !! c = Some idxs ->
    idxs <> [] /\ NoDup idxs /\ forall i, i ∈ idxs -> i < n /\ its !! i = Some c /\ results aw !! i = Some None;
  ao_empty : forall i, i < n -> results aw !! i = Some None ->
    exists c idxs, pending_children aw !! c = Some idxs /\ i ∈ idxs }.

(** ** The invariant *)

(** [runs] is the task that executes, or that was taken from the queue to. *)
Record sched_ok (runs : option nat) (sc : Scheduler) : Prop := {
  so_keys : forall t k, tasks sc !! t = Some k -> task_id k = t /\ t < next_task_id sc;
  so_main : forall k, tasks sc !! main_id = Some k -> coroutine_id k = None /\ awaiter k = None;
  so_spawned : forall t k, tasks sc !! t = Some k -> t <> main_id -> is_Some (coroutine_id k);
  so_next : 0 < next_task_id sc;
  so_queue : NoDup (ready_queue sc);
  so_queued : forall t, t ∈ ready_queue sc -> exists k r, tasks sc !! t = Some k /\ state k = Ready r;
  so_ready : forall t k r, tasks sc !! t = Some k -> state k = Ready r ->
    t ∈ ready_queue sc \/ runs = Some t;
  so_runs : forall t, runs = Some t -> t ∉ ready_queue sc /\ exists k r, tasks sc !! t = Some k /\ state k = Ready r;
  so_current : forall t, current_task sc = Some t -> is_Some (tasks sc !! t);
  so_coroutines : forall c t, coroutine_to_task sc !! c = Some t <->
    exists k, tasks sc !! t = Some k /\ coroutine_id k = Some c;
  so_calls : forall call f, pending_externals sc !! call = Some f -> call < next_call_id sc }.

Record store_ok (opens : opens_t) (objs : objs_t) (n : nat) : Prop := {
  st_dom : forall id, is_Some (objs !! id) -> id < n;
  st_items : forall g gf i, objs !! g = Some (OGather gf) -> i ∈ items gf ->
    i < g /\ exists o, objs !! i = Some o /\ is_awaitable o = true;
  st_awaited : forall g gf aw, objs !! g = Some (OGather gf) -> ga_state gf = GatherAwaited aw ->
    awaited_ok (items gf) (length (items gf)) aw /\ pending_children aw <> ∅;
  st_opens : forall g pc, opens !! g = Some pc ->
    exists gf, objs !! g = Some (OGather gf) /\ ga_state gf = GatherPending }.

(** The call an unresolved future waits for. *)
Definition pending_call (o : Obj) : option nat :=
  match o with
  | OExternal f => match ex_state f with Pending _ => Some (call_id f) | _ => None end
  | _ => None
  end.

(** The child [c] will deliver to [a]: it is an awaitable that holds it, or the
    coroutine of a task that does. *)
Definition awaits (sc : Scheduler) (objs : objs_t) (c : nat) (a : Awaiter) : Prop :=
  (exists o, objs !! c = Some o /\ obj_awaiter o = Some a)
  \/ exists t k, tasks sc !! t = Some k /\ coroutine_id k = Some c /\ awaiter k = Some a.

(** Every child a gather expects will deliver to it. *)
Definition children_ok (opens : opens_t) (hand : option Awaiter) (sc : Scheduler) (objs : objs_t) : Prop :=
  forall g pc c, expected opens objs g = Some pc -> is_Some (pc !! c) ->
    hand = Some (GatherSlot g c) \/ awaits sc objs c (GatherSlot g c).

(** [hand] is an awaiter in the hands of an operation that delivers to it: no other
    awaitable holds it. *)
Definition hand_ok (opens : opens_t) (hand : option Awaiter) (sc : Scheduler) (objs : objs_t) : Prop :=
  match hand with
  | None => True
  | Some (TaskAwaiter t) =>
      forall id o, objs !! id = Some o -> obj_awaiter o = Some (TaskAwaiter t) -> tasks sc !! t = None
  | Some (GatherSlot g c) =>
      slot_ok opens objs g c
      /\ (forall id o, objs !! id = Some o -> obj_awaiter o <> Some (GatherSlot g c))
      /\ (forall t k, tasks sc !! t = Some k -> awaiter k <> Some (GatherSlot g c))
  end.

Record links_ok (opens : opens_t) (hand : option Awaiter) (sc : Scheduler) (objs : objs_t) : Prop := {
  lk_coroutine : forall t k c, tasks sc !! t = Some k -> coroutine_id k = Some c ->
    exists o, objs !! c = Some o /\ is_coroutine o = true;
  lk_task : forall t k a, tasks sc !! t = Some k -> awaiter k = Some a ->
    exists g c, a = GatherSlot g c /\ coroutine_id k = Some c /\ slot_ok opens objs g c;
  lk_blocked : forall t k id, tasks sc !! t = Some k -> state k = Blocked id ->
    hand = Some (TaskAwaiter t) \/ exists o, objs !! id = Some o /\ obj_awaiter o = Some (TaskAwaiter t);
  lk_waker : forall id o t k, objs !! id = Some o -> obj_awaiter o = Some (TaskAwaiter t) ->
    tasks sc !! t = Some k -> state k = Blocked id;
  lk_born : forall id o t, objs !! id = Some o -> obj_awaiter o = Some (TaskAwaiter t) -> t < next_task_id sc;
  lk_slot : forall id o g c, objs !! id = Some o -> obj_awaiter o = Some (GatherSlot g c) ->
    c = id /\ slot_ok opens objs g c;
  lk_hand : hand_ok opens hand sc objs;
  lk_children : children_ok opens hand sc objs;
  lk_pending : forall call f, pending_externals sc !! call = Some f <->
    exists o, objs !! f = Some o /\ pending_call o = Some call }.

Record inv (opens : opens_t) (hand : option Awaiter) (runs : option nat) (sc : Scheduler) (objs : objs_t) (n : nat) :
    Prop := {
  inv_sched : sched_ok runs sc;
  inv_store : store_ok opens objs n;
  inv_links : links_ok opens hand sc objs }.

(** The contexts: the main task is alive, and a task that is not loaded and has no
    frames saved has yet to start. *)
Definition contexts_ok (sc : Scheduler) : Prop :=
  is_Some (tasks sc !! main_id)
  /\ forall t k,
       tasks sc !! t = Some k -> current_task sc <> Some t -> frames k = [] -> t <> main_id /\ state k = Ready (Ok tt).

Lemma cx_main sc : contexts_ok sc -> is_Some (tasks sc !! main_id).
Proof. by intros [? _]. Qed.

Lemma cx_new sc : contexts_ok sc -> forall t k,
  tasks sc !! t = Some k -> current_task sc <> Some t -> frames k = [] -> t <> main_id /\ state k = Ready (Ok tt).
Proof. by intros [_ ?]. Qed.

Definition good (opens : opens_t) (hand : option Awaiter) (runs : option nat) (s : VM) : Prop :=
  inv opens hand runs (scheduler s) (objects (store s)) (next_id (store s)) /\ contexts_ok (scheduler s).

(** ** Slots *)

Lemma slot_ok_mono opens opens' objs objs' g c :
  (forall gf, objs !! g = Some (OGather gf) ->
     exists gf', objs' !! g = Some (OGather gf') /\ items gf' = items gf
     /\ (settled (ga_state gf) = true -> settled (ga_state gf') = true)) ->
  (forall pc, expected opens objs g = Some pc -> is_Some (pc !! c) ->
     (exists pc', expected opens' objs' g = Some pc' /\ is_Some (pc' !! c)) \/ gather_settled objs' g) ->
  slot_ok opens objs g c -> slot_ok opens' objs' g c.
Proof.
  intros Hg He [(gf & Hgf & Hc) Hs]. destruct (Hg gf Hgf) as (gf' & Hgf' & Hits & Hset).
  split; [exists gf'; by rewrite Hits|]. destruct Hs as [(pc & Hpc & Hin)|(gf1 & Hgf1 & Hst)]; [eauto|].
  right. simplify_eq. exists gf'. eauto.
Qed.

(** Gathers are what the slots are about. *)
Lemma slot_ok_gathers opens objs objs' g c :
  (forall gf, objs !! g = Some (OGather gf) -> objs' !! g = Some (OGather gf)) ->
  slot_ok opens objs g c -> slot_ok opens objs' g c.
Proof.
  intros Hg. apply slot_ok_mono; [eauto|]. intros pc He Hc. left. exists pc. split; [|done]. revert He.
  unfold expected. destruct (opens !! g); [done|]. destruct (objs !! g) as [[]|]; try done.
  by rewrite (Hg _ eq_refl).
Qed.

Lemma slot_ok_item opens objs n g c : store_ok opens objs n -> slot_ok opens objs g c -> c < g /\ g < n.
Proof.
  intros Hst [(gf & Hg & Hc) _]. destruct (st_items _ _ _ Hst g gf c Hg Hc) as [Hlt _].
  split; [done|]. apply (st_dom _ _ _ Hst). by eexists.
Qed.

Ltac at_id :=
  match goal with
  | H : <[?a := _]> _ !! ?b = _ |- _ =>
      let E := fresh "E" in
      destruct (decide (a = b)) as [E|?];
      [rewrite E, lookup_insert_eq in H; first [is_var b; subst b | subst a | idtac]
      | rewrite lookup_insert_ne in H by done]
  end.

(** ** Updating an object *)

Lemma links_put opens opens' hand hand' sc objs id o' (P : nat -> nat -> Prop) :
  let objs' := <[id := o']> objs in
  links_ok opens hand sc objs ->
  (forall g c, P g c -> slot_ok opens objs g c -> slot_ok opens' objs' g c) ->
  (forall id' o g c, id' <> id -> objs !! id' = Some o -> obj_awaiter o = Some (GatherSlot g c) -> P g c) ->
  (forall t k g c, tasks sc !! t = Some k -> awaiter k = Some (GatherSlot g c) -> P g c) ->
  (forall o, objs !! id = Some o -> is_coroutine o = true -> is_coroutine o' = true) ->
  (forall t k, obj_awaiter o' = Some (TaskAwaiter t) -> tasks sc !! t = Some k -> state k = Blocked id) ->
  (forall t, obj_awaiter o' = Some (TaskAwaiter t) -> t < next_task_id sc) ->
  (forall g c, obj_awaiter o' = Some (GatherSlot g c) -> c = id /\ slot_ok opens' objs' g c) ->
  (forall t, hand = Some (TaskAwaiter t) -> hand' = Some (TaskAwaiter t) \/ forall k, tasks sc !! t = Some k -> forall id', state k <> Blocked id') ->
  (forall o t, objs !! id = Some o -> obj_awaiter o = Some (TaskAwaiter t) ->
     obj_awaiter o' = Some (TaskAwaiter t) \/ hand' = Some (TaskAwaiter t)) ->
  hand_ok opens' hand' sc objs' ->
  children_ok opens' hand' sc objs' ->
  (forall call, pending_call o' = Some call <-> exists o, objs !! id = Some o /\ pending_call o = Some call) ->
  links_ok opens' hand' sc objs'.
Proof.
  intros objs' Hl Hslot Hobj Htask Hco Hwk Hbo Hsl Hhand Hold Hh Hch Hp. split.
  - intros t k c Hk Hc. destruct (lk_coroutine _ _ _ _ Hl t k c Hk Hc) as (o & Ho & Hico).
    destruct (decide (c = id)) as [->|Hne]; [exists o'; unfold objs'; rewrite lookup_insert_eq; eauto|].
    exists o. unfold objs'. by rewrite lookup_insert_ne.
  - intros t k a Hk Ha. destruct (lk_task _ _ _ _ Hl t k a Hk Ha) as (g & c & -> & Hc & Hok). eauto 10.
  - intros t k i Hk Hb. destruct (lk_blocked _ _ _ _ Hl t k i Hk Hb) as [Hhd|(o & Ho & Ha)].
    + destruct (Hhand t Hhd) as [|Hno]; [by left|]. by destruct (Hno k Hk i).
    + destruct (decide (i = id)) as [->|Hne].
      * destruct (Hold o t Ho Ha) as [?|?]; [|by left]. right. exists o'. unfold objs'. by rewrite lookup_insert_eq.
      * right. exists o. unfold objs'. by rewrite lookup_insert_ne.
  - unfold objs'. intros i o t k Ho Ha Hk. at_id; [simplify_eq; eauto|]. by eapply (lk_waker _ _ _ _ Hl).
  - unfold objs'. intros i o t Ho Ha. at_id; [simplify_eq; eauto|]. by eapply (lk_born _ _ _ _ Hl).
  - intros i o g c Ho Ha. unfold objs' in Ho. at_id; [simplify_eq; eauto|].
    destruct (lk_slot _ _ _ _ Hl i o g c Ho Ha) as [-> Hok]. eauto.
  - done.
  - done.
  - intros call f. rewrite (lk_pending _ _ _ _ Hl). unfold objs'. split.
    + intros (o & Ho & Hc). destruct (decide (f = id)) as [->|Hne].
      * exists o'. rewrite lookup_insert_eq. split; [done|]. apply Hp. eauto.
      * exists o. by rewrite lookup_insert_ne.
    + intros (o & Ho & Hc). at_id; [simplify_eq; by apply Hp|eauto].
Qed.

(** The awaiter of an awaitable that settles comes to hand. *)
Lemma hand_from_object opens opens' hand sc objs id o o' a :
  links_ok opens hand sc objs -> objs !! id = Some o -> obj_awaiter o = Some a -> is_coroutine o = false ->
  obj_awaiter o' = None ->
  (forall g c, slot_ok opens objs g c -> slot_ok opens' (<[id := o']> objs) g c) ->
  hand_ok opens' (Some a) sc (<[id := o']> objs).
Proof.
  intros Hl Ho Ha Hco Hn Hslot. destruct a as [t|g c]; cbn.
  - intros i oi Hi Hai. at_id; [congruence|]. destruct (tasks sc !! t) as [k|] eqn:Hk; [|done].
    pose proof (lk_waker _ _ _ _ Hl id o t k Ho Ha Hk). pose proof (lk_waker _ _ _ _ Hl i oi t k Hi Hai Hk). congruence.
  - destruct (lk_slot _ _ _ _ Hl id o g c Ho Ha) as [-> Hok]. split; [auto|]. split.
    + intros i oi Hi Hai. at_id; [congruence|].
      destruct (lk_slot _ _ _ _ Hl i oi g id Hi Hai) as [? _]. congruence.
    + intros t k Hk Hak. destruct (lk_task _ _ _ _ Hl t k _ Hk Hak) as (g' & c' & Heq & Hc & _).
      injection Heq as <- <-. destruct (lk_coroutine _ _ _ _ Hl t k id Hk Hc) as (oc & Hoc & Hic). congruence.
Qed.

(** An update after which the gathers expect no more children, and that takes no awaiter
    but to hand it on. *)
Lemma children_put opens opens' hand hand' sc objs id o' :
  children_ok opens hand sc objs ->
  (forall g pc c, expected opens' (<[id := o']> objs) g = Some pc -> is_Some (pc !! c) ->
     (exists pc0, expected opens objs g = Some pc0 /\ is_Some (pc0 !! c))
     /\ (hand = Some (GatherSlot g c) -> hand' = Some (GatherSlot g c))) ->
  (forall o a, objs !! id = Some o -> obj_awaiter o = Some a -> obj_awaiter o' = Some a \/ hand' = Some a) ->
  children_ok opens' hand' sc (<[id := o']> objs).
Proof.
  intros Hch Hexp Ho g pc c Hpc Hc. destruct (Hexp g pc c Hpc Hc) as [(pc0 & Hpc0 & Hc0) Hh].
  destruct (Hch g pc0 c Hpc0 Hc0) as [?|[(o & Hoc & Ha)|(t & k & ? & ? & ?)]]; [left; auto| |right; right; eauto 10].
  destruct (decide (c = id)) as [->|Hne].
  - destruct (Ho o _ Hoc Ha) as [?|?]; [|by left]. right. left. exists o'. by rewrite lookup_insert_eq.
  - right. left. exists o. by rewrite lookup_insert_ne.
Qed.

(** Gathers alone expect children. *)
Lemma expected_put_plain opens objs id o' g :
  (forall gf, objs !! id <> Some (OGather gf)) -> (forall gf, o' <> OGather gf) ->
  expected opens (<[id := o']> objs) g = expected opens objs g.
Proof.
  intros Ho Ho'. unfold expected. destruct (opens !! g); [done|]. destruct (decide (g = id)) as [->|Hne].
  - rewrite lookup_insert_eq. destruct o'; try by edestruct Ho'. all: destruct (objs !! id) as [[]|] eqn:E; try done;
      by edestruct Ho.
  - by rewrite lookup_insert_ne.
Qed.

Lemma expected_put_plain' opens objs id o' o g :
  objs !! id = Some o -> is_gather o = false -> is_gather o' = false ->
  expected opens (<[id := o']> objs) g = expected opens objs g.
Proof. intros Ho Hg Hg'. apply expected_put_plain; intros gf E; [rewrite Ho in E|]; by simplify_eq. Qed.

Lemma children_mono opens opens' hand hand' sc sc' objs objs' :
  children_ok opens hand sc objs ->
  (forall g pc c, expected opens' objs' g = Some pc -> is_Some (pc !! c) ->
     hand' = Some (GatherSlot g c)
     \/ (exists pc0, expected opens objs g = Some pc0 /\ is_Some (pc0 !! c))
        /\ (hand = Some (GatherSlot g c) -> awaits sc' objs' c (GatherSlot g c))) ->
  (forall c a, awaits sc objs c a -> awaits sc' objs' c a \/ hand' = Some a) ->
  children_ok opens' hand' sc' objs'.
Proof.
  intros Hch Hexp Haw g pc c Hpc Hc. destruct (Hexp g pc c Hpc Hc) as [?|[(pc0 & Hpc0 & Hc0) Hh]]; [by left|].
  destruct (Hch g pc0 c Hpc0 Hc0) as [E|E]; [by right; apply Hh|]. destruct (Haw c _ E); auto.
Qed.

(** Who awaits what, after an update of one object, or of one task. *)
Lemma awaits_put sc objs id o' c a :
  (forall o, objs !! id = Some o -> obj_awaiter o = Some a -> obj_awaiter o' = Some a) ->
  awaits sc objs c a -> awaits sc (<[id := o']> objs) c a.
Proof.
  intros Ho [(o & Hoc & Ha)|?]; [|by right]. left. destruct (decide (c = id)) as [->|Hne].
  - exists o'. rewrite lookup_insert_eq. eauto.
  - exists o. by rewrite lookup_insert_ne.
Qed.

(** What is left of [hand_ok] after an update that neither takes nor gives an awaiter. *)
Lemma hand_put opens opens' hand sc objs id o' :
  hand_ok opens hand sc objs ->
  (forall g c, slot_ok opens objs g c -> slot_ok opens' (<[id := o']> objs) g c) ->
  (forall a, obj_awaiter o' = Some a -> exists o, objs !! id = Some o /\ obj_awaiter o = Some a) ->
  hand_ok opens' hand sc (<[id := o']> objs).
Proof.
  intros Hh Hslot Ha. destruct hand as [[t|g c]|]; cbn in *; [| |done].
  - intros i o Hi Hai. at_id; [|eauto]. simplify_eq. destruct (Ha _ Hai) as (o0 & Ho0 & Ha0). eauto.
  - destruct Hh as (Hok & Hobj & Htask). split_and!; [auto| |done].
    intros i o Hi Hai. at_id; [|by eapply Hobj]. simplify_eq. destruct (Ha _ Hai) as (o0 & Ho0 & Ha0). by eapply Hobj.
Qed.

(** An object replaced by one with the same links. *)
Record same_links (o o' : Obj) : Prop := {
  sl_awaiter : obj_awaiter o' = obj_awaiter o;
  sl_pending : pending_call o' = pending_call o;
  sl_coroutine : is_coroutine o' = is_coroutine o;
  sl_awaitable : is_awaitable o' = is_awaitable o;
  sl_gather : match o, o' with OGather g, _ => o' = OGather g | _, OGather _ => False | _, _ => True end }.

Lemma same_links_gather o o' gf : same_links o o' -> o' = OGather gf -> o = OGather gf.
Proof. intros [_ _ _ _ H] ->. destruct o; try done. Qed.

Lemma store_put_same opens objs n id o o' :
  store_ok opens objs n -> objs !! id = Some o -> same_links o o' -> store_ok opens (<[id := o']> objs) n.
Proof.
  intros Hst Ho Hs. split.
  - intros i [oi Hi]. apply (st_dom _ _ _ Hst). at_id; [by rewrite Ho|by rewrite Hi].
  - intros g gf i Hg Hi.
    assert (objs !! g = Some (OGather gf)) as Hg0.
    { at_id; [|done]. injection Hg as Hg. by rewrite (same_links_gather _ _ _ Hs Hg) in Ho. }
    destruct (st_items _ _ _ Hst g gf i Hg0 Hi) as (Hlt & oi & Hoi & Haw). split; [done|].
    destruct (decide (i = id)) as [->|Hne].
    + exists o'. rewrite lookup_insert_eq. split; [done|]. rewrite (sl_awaitable _ _ Hs). congruence.
    + exists oi. by rewrite lookup_insert_ne.
  - intros g gf aw Hg. eapply (st_awaited _ _ _ Hst). at_id; [|done].
    injection Hg as Hg. by rewrite (same_links_gather _ _ _ Hs Hg) in Ho.
  - intros g pc Hg. destruct (st_opens _ _ _ Hst g pc Hg) as (gf & Hgf & Hp). exists gf. split; [|done].
    destruct (decide (g = id)) as [->|Hne]; [|by rewrite lookup_insert_ne].
    rewrite lookup_insert_eq. simplify_eq. by rewrite (sl_gather _ _ Hs).
Qed.

Lemma inv_put_same opens hand runs sc objs n id o o' :
  inv opens hand runs sc objs n -> objs !! id = Some o -> same_links o o' ->
  inv opens hand runs sc (<[id := o']> objs) n.
Proof.
  intros [Hsc Hst Hl] Ho Hs. split; [done|by eapply store_put_same|].
  assert (forall g c, slot_ok opens objs g c -> slot_ok opens (<[id := o']> objs) g c) as Hslot.
  { intros g c. apply slot_ok_gathers. intros gf Hg. destruct (decide (g = id)) as [->|Hne]; [|by rewrite lookup_insert_ne].
    rewrite lookup_insert_eq. simplify_eq. by rewrite (sl_gather _ _ Hs). }
  eapply (links_put _ _ hand hand _ _ _ _ (fun _ _ => True)); try done.
  - intros g c _. apply Hslot.
  - intros o0 H0. simplify_eq. by rewrite (sl_coroutine _ _ Hs).
  - rewrite (sl_awaiter _ _ Hs). intros t k Ha. by apply (lk_waker _ _ _ _ Hl id o t k).
  - rewrite (sl_awaiter _ _ Hs). intros t Ha. by apply (lk_born _ _ _ _ Hl id o t).
  - rewrite (sl_awaiter _ _ Hs). intros g c Ha. destruct (lk_slot _ _ _ _ Hl id o g c Ho Ha). auto.
  - by left.
  - intros o0 t H0 Ha. simplify_eq. rewrite (sl_awaiter _ _ Hs). by left.
  - apply (hand_put opens); [exact (lk_hand _ _ _ _ Hl)|done|]. rewrite (sl_awaiter _ _ Hs). eauto.
  - eapply children_put; [exact (lk_children _ _ _ _ Hl)| |].
    + intros g pc c Hpc Hc. split; [|done]. exists pc. split; [|done]. revert Hpc. unfold expected.
      destruct (opens !! g); [done|]. destruct (decide (g = id)) as [->|Hne]; [|by rewrite lookup_insert_ne].
      rewrite lookup_insert_eq, Ho. destruct o'; try done. by rewrite (same_links_gather _ _ _ Hs eq_refl).
    + intros o0 a H0. simplify_eq. rewrite (sl_awaiter _ _ Hs). by left.
  - rewrite (sl_pending _ _ Hs). intros call. naive_solver.
Qed.

Lemma same_links_coroutine c c' : same_links (OCoroutine c) (OCoroutine c').
Proof. done. Qed.

Lemma same_links_sleep f v : same_links (OExternal f) (OExternal (set_sleep_result v f)).
Proof. done. Qed.

(** A new object that nothing waits for. *)
Lemma inv_alloc opens hand runs sc objs n o :
  inv opens hand runs sc objs n -> obj_awaiter o = None -> pending_call o = None ->
  (forall gf, o = OGather gf -> ga_state gf = GatherPending /\
     forall i, i ∈ items gf -> exists oi, objs !! i = Some oi /\ is_awaitable oi = true) ->
  inv opens hand runs sc (<[n := o]> objs) (S n).
Proof.
  intros [Hsc Hst Hl] Ha Hp Hg.
  assert (objs !! n = None) as Hn.
  { destruct (objs !! n) eqn:E; [|done]. assert (n < n); [|lia]. apply (st_dom _ _ _ Hst). by rewrite E. }
  split; [done| |].
  - split.
    + intros i [oi Hi]. at_id; [lia|]. assert (i < n); [|lia]. apply (st_dom _ _ _ Hst). by rewrite Hi.
    + intros g gf i Hgf Hi.
      assert (i < g /\ exists oi, objs !! i = Some oi /\ is_awaitable oi = true) as (Hlt & oi & Hoi & Hok).
      { at_id; [|by eapply (st_items _ _ _ Hst)]. simplify_eq. destruct (Hg gf eq_refl) as [_ Hits].
        destruct (Hits i Hi) as (oi & Hoi & ?). split; [|eauto]. apply (st_dom _ _ _ Hst). by rewrite Hoi. }
      split; [done|]. exists oi. rewrite lookup_insert_ne; [done|]. congruence.
    + intros g gf aw Hgf Haw. at_id; [|by eapply (st_awaited _ _ _ Hst)]. simplify_eq.
      destruct (Hg gf eq_refl). congruence.
    + intros g pc Hpc. destruct (st_opens _ _ _ Hst g pc Hpc) as (gf & Hgf & ?). exists gf.
      rewrite lookup_insert_ne; [done|congruence].
  - assert (forall g c, slot_ok opens objs g c -> slot_ok opens (<[n := o]> objs) g c) as Hslot.
    { intros g c. apply slot_ok_gathers. intros gf Hgf. rewrite lookup_insert_ne; [done|congruence]. }
    eapply (links_put _ _ hand hand _ _ _ _ (fun _ _ => True)); try done.
    + intros g c _. apply Hslot.
    + congruence.
    + congruence.
    + congruence.
    + congruence.
    + by left.
    + congruence.
    + apply (hand_put opens); [exact (lk_hand _ _ _ _ Hl)|done|congruence].
    + eapply children_put; [exact (lk_children _ _ _ _ Hl)| |congruence].
      intros g pc c Hpc Hc. split; [|done]. exists pc. split; [|done]. revert Hpc. unfold expected.
      destruct (opens !! g); [done|]. destruct (decide (g = n)) as [->|Hne]; [|by rewrite lookup_insert_ne].
      rewrite lookup_insert_eq. destruct o as [| |gf| |]; try done. destruct (Hg gf eq_refl) as [E _].
      unfold as_awaited. by rewrite E.
    + intros call. rewrite Hp. split; [done|]. intros (? & ? & ?). congruence.
Qed.

(** ** Updating a task *)

Definition put_tasks (t : nat) (k : Task) (sc : Scheduler) : Scheduler := set_tasks (<[t := k]> (tasks sc)) sc.

Lemma put_tasks_alive t k x sc : is_Some (tasks sc !! x) -> is_Some (tasks (put_tasks t k sc) !! x).
Proof. intros Hx. cbn. destruct (decide (x = t)) as [->|Hne]; [rewrite lookup_insert_eq; eauto|by rewrite lookup_insert_ne]. Qed.

Lemma awaits_put_task t k k' sc objs c a :
  tasks sc !! t = Some k -> coroutine_id k' = coroutine_id k -> awaiter k' = awaiter k ->
  awaits sc objs c a -> awaits (put_tasks t k' sc) objs c a.
Proof.
  intros Hk Hco Haw [?|(x & kx & Hx & Hc & Ha)]; [by left|]. right. destruct (decide (x = t)) as [->|Hne].
  - exists t, k'. cbn. rewrite lookup_insert_eq. simplify_eq. split_and!; congruence.
  - exists x, kx. cbn. by rewrite lookup_insert_ne.
Qed.

Section SchedOk.
Context (runs : option nat) (sc : Scheduler) (Hsc : sched_ok runs sc).

(** A task's record replaced by another with the same coroutine and a state that
    agrees with the queue. *)
Lemma sched_put t k k' runs' :
  tasks sc !! t = Some k -> task_id k' = task_id k -> coroutine_id k' = coroutine_id k ->
  (awaiter k = None -> awaiter k' = None) ->
  (t ∈ ready_queue sc -> exists r, state k' = Ready r) ->
  (forall r, state k' = Ready r -> t ∈ ready_queue sc \/ runs' = Some t) ->
  (forall x, x <> t -> runs = Some x -> runs' = Some x) ->
  (forall x, runs' = Some x -> (x = t /\ t ∉ ready_queue sc /\ exists r, state k' = Ready r) \/ x <> t /\ runs = Some x) ->
  sched_ok runs' (put_tasks t k' sc).
Proof.
  intros Hk Hid Hco Haw Hq Hr Hrn Hrn'. split; cbn.
  - intros x kx Hx. at_id; [|by apply (so_keys _ _ Hsc)]. simplify_eq. rewrite Hid. by apply (so_keys _ _ Hsc).
  - intros km Hm. at_id; [|by apply (so_main _ _ Hsc)]. simplify_eq.
    destruct (so_main _ _ Hsc k Hk). rewrite Hco. auto.
  - intros x kx Hx Hne. at_id; [|by eapply (so_spawned _ _ Hsc)]. simplify_eq. rewrite Hco. by eapply (so_spawned _ _ Hsc).
  - apply (so_next _ _ Hsc).
  - apply (so_queue _ _ Hsc).
  - intros x Hx. destruct (decide (x = t)) as [->|Hne].
    + destruct (Hq Hx) as [r ?]. exists k', r. by rewrite lookup_insert_eq.
    + destruct (so_queued _ _ Hsc x Hx) as (kx & r & ? & ?). exists kx, r. by rewrite lookup_insert_ne.
  - intros x kx r Hx Hst. at_id; [simplify_eq; eauto|].
    destruct (so_ready _ _ Hsc x kx r Hx Hst); [by left|right; auto].
  - intros x Hx. destruct (Hrn' x Hx) as [(-> & ? & r & ?)|[Hne Hx']].
    + split; [done|]. exists k', r. by rewrite lookup_insert_eq.
    + destruct (so_runs _ _ Hsc x Hx') as (? & kx & r & ? & ?). split; [done|]. exists kx, r. by rewrite lookup_insert_ne.
  - intros x Hx. destruct (decide (x = t)) as [->|Hne]; [rewrite lookup_insert_eq; eauto|].
    rewrite lookup_insert_ne by done. by apply (so_current _ _ Hsc).
  - intros c x. rewrite (so_coroutines _ _ Hsc). split; intros (kx & Hx & Hc).
    + destruct (decide (x = t)) as [->|Hne].
      * exists k'. rewrite lookup_insert_eq. split; [done|]. congruence.
      * exists kx. by rewrite lookup_insert_ne.
    + at_id; [|eauto]. simplify_eq. exists k. split; [done|congruence].
  - apply (so_calls _ _ Hsc).
Qed.

(** The queue replaced. *)
Lemma sched_queue q runs' :
  NoDup q -> (forall x, x ∈ q -> exists k r, tasks sc !! x = Some k /\ state k = Ready r) ->
  (forall x, x ∈ ready_queue sc \/ runs = Some x -> x ∈ q \/ runs' = Some x) ->
  (forall x, runs' = Some x -> x ∉ q /\ exists k r, tasks sc !! x = Some k /\ state k = Ready r) ->
  sched_ok runs' (set_queue q sc).
Proof.
  intros Hnd Hq Hsub Hr. destruct Hsc. split; cbn; try done. intros t k r Hk Hst. apply Hsub. eauto.
Qed.

(** A task taken from the queue to run. *)
Lemma sched_take t q :
  runs = None -> t ∈ ready_queue sc -> NoDup q -> (forall x, x ∈ q <-> x ∈ ready_queue sc /\ x <> t) ->
  sched_ok (Some t) (set_queue q sc).
Proof.
  intros Hr Ht Hnd Hq. apply sched_queue; [done| | |].
  - intros x Hx. apply Hq in Hx as [Hx _]. by apply (so_queued _ _ Hsc).
  - intros x [Hx|Hx]; [|congruence]. destruct (decide (x = t)) as [->|Hne]; [by right|left]. by apply Hq.
  - intros x [= <-]. split; [rewrite Hq; naive_solver|]. by apply (so_queued _ _ Hsc).
Qed.

Lemma sched_current t : is_Some (tasks sc !! t) -> sched_ok runs (set_current (Some t) sc).
Proof. intros Ht. destruct Hsc. split; cbn; try done. by intros x [= <-]. Qed.

Lemma sched_pending p :
  (forall call f, p !! call = Some f -> call < next_call_id sc) -> sched_ok runs (set_pending p sc).
Proof. destruct Hsc. by split. Qed.

End SchedOk.

Lemma elem_of_retain x t q : x ∈ retain_not t q <-> x ∈ q /\ x <> t.
Proof. unfold retain_not. rewrite list_elem_of_filter. tauto. Qed.

Lemma retain_NoDup t q : NoDup q -> NoDup (retain_not t q).
Proof. apply NoDup_filter. Qed.

(** The scheduler without the task [t]. *)
Definition without (t : nat) (k : Task) (sc : Scheduler) : Scheduler :=
  let sc := set_tasks (delete t (tasks sc)) sc in
  let sc := if decide (current_task sc = Some t) then set_current None sc else sc in
  let sc := match coroutine_id k with
            | Some c => set_coroutines (delete c (coroutine_to_task sc)) sc
            | None => sc
            end in
  set_queue (retain_not t (ready_queue sc)) sc.

Lemma without_fields t k sc :
  tasks (without t k sc) = delete t (tasks sc)
  /\ ready_queue (without t k sc) = retain_not t (ready_queue sc)
  /\ current_task (without t k sc) = (if decide (current_task sc = Some t) then None else current_task sc)
  /\ next_task_id (without t k sc) = next_task_id sc
  /\ pending_externals (without t k sc) = pending_externals sc
  /\ coroutine_to_task (without t k sc)
     = match coroutine_id k with Some c => delete c (coroutine_to_task sc) | None => coroutine_to_task sc end.
Proof. unfold without. cbn. destruct (coroutine_id k); cbn; case_decide; done. Qed.

Definition unless (t : nat) (o : option nat) : option nat := if decide (o = Some t) then None else o.

Ltac without_fields t k sc :=
  let F1 := fresh "F" in let F2 := fresh "F" in let F3 := fresh "F" in
  let F4 := fresh "F" in let F5 := fresh "F" in let F6 := fresh "F" in
  destruct (without_fields t k sc) as (F1 & F2 & F3 & F4 & F5 & F6);
  rewrite ?F1, ?F2, ?F3, ?F4, ?F5, ?F6; clear F1 F2 F3 F4 F5 F6.

Lemma sched_without runs t k sc :
  sched_ok runs sc -> tasks sc !! t = Some k -> sched_ok (unless t runs) (without t k sc).
Proof.
  intros Hsc Hk. unfold unless. split; without_fields t k sc.
  - intros x kx Hx. apply lookup_delete_Some in Hx as [_ Hx]. by apply (so_keys _ _ Hsc).
  - intros km Hm. apply lookup_delete_Some in Hm as [_ Hm]. by apply (so_main _ _ Hsc).
  - intros x kx Hx. apply lookup_delete_Some in Hx as [_ Hx]. by apply (so_spawned _ _ Hsc).
  - apply (so_next _ _ Hsc).
  - apply retain_NoDup, (so_queue _ _ Hsc).
  - intros x [Hx Hne]%elem_of_retain. rewrite lookup_delete_ne by done. by apply (so_queued _ _ Hsc).
  - intros x kx r Hx Hst. apply lookup_delete_Some in Hx as [Hne Hx].
    destruct (so_ready _ _ Hsc x kx r Hx Hst) as [Hq|Hr].
    + left. by apply elem_of_retain.
    + right. rewrite decide_False by congruence. done.
  - intros x Hx. case_decide; [done|]. destruct (so_runs _ _ Hsc x Hx) as (Hq & kx & r & ? & ?).
    split; [rewrite elem_of_retain; naive_solver|]. exists kx, r. rewrite lookup_delete_ne; [done|congruence].
  - intros x Hx. case_decide; [done|]. rewrite lookup_delete_ne by congruence. by apply (so_current _ _ Hsc).
  - intros c x. destruct (coroutine_id k) as [ck|] eqn:Hck.
    + rewrite lookup_delete_Some, (so_coroutines _ _ Hsc). split.
      * intros (Hne & kx & Hx & Hc). exists kx. split; [|done]. apply lookup_delete_Some. split; [congruence|done].
      * intros (kx & Hx & Hc). apply lookup_delete_Some in Hx as [Hne Hx]. split; [|eauto]. intros ->.
        assert (coroutine_to_task sc !! c = Some x) as E1 by (apply (so_coroutines _ _ Hsc); eauto).
        assert (coroutine_to_task sc !! c = Some t) as E2 by (apply (so_coroutines _ _ Hsc); eauto). congruence.
    + rewrite (so_coroutines _ _ Hsc). split; intros (kx & Hx & Hc); exists kx; (split; [|done]).
      * apply lookup_delete_Some. split; [congruence|done].
      * by apply lookup_delete_Some in Hx as [_ Hx].
  - unfold without. destruct (coroutine_id k); cbn; case_decide; apply (so_calls _ _ Hsc).
Qed.

Lemma links_without opens hand t k sc objs :
  links_ok opens hand sc objs -> tasks sc !! t = Some k -> awaiter k = None ->
  links_ok opens hand (without t k sc) objs.
Proof.
  intros Hl Hkt Hkn. assert (forall x kx, delete t (tasks sc) !! x = Some kx -> tasks sc !! x = Some kx) as Hsub.
  { intros x kx Hx. by apply lookup_delete_Some in Hx as [_ Hx]. }
  split; without_fields t k sc.
  - intros x kx c Hx. eapply (lk_coroutine _ _ _ _ Hl); eauto.
  - intros x kx a Hx. eapply (lk_task _ _ _ _ Hl); eauto.
  - intros x kx id Hx. eapply (lk_blocked _ _ _ _ Hl); eauto.
  - intros id o x kx Ho Ha Hx. eapply (lk_waker _ _ _ _ Hl); eauto.
  - apply (lk_born _ _ _ _ Hl).
  - apply (lk_slot _ _ _ _ Hl).
  - pose proof (lk_hand _ _ _ _ Hl) as Hh. destruct hand as [[x|g c]|]; cbn in Hh; unfold hand_ok; [| |done].
    + without_fields t k sc. intros id o Ho Ha. rewrite lookup_delete_None. right. eauto.
    + without_fields t k sc. destruct Hh as (? & ? & Ht). split_and!; [done..|]. intros x kx Hx. eauto.
  - intros g pc c Hpc Hc. destruct (lk_children _ _ _ _ Hl g pc c Hpc Hc) as [?|[?|(x & kx & Hx & ? & ?)]];
      [by left|by right; left|]. right. right. exists x, kx. without_fields t k sc.
    rewrite lookup_delete_ne; [done|]. intros ->. congruence.
  - apply (lk_pending _ _ _ _ Hl).
Qed.

(** The links are about the tasks and the pending calls only. *)
Lemma links_scheduler opens hand sc sc' objs :
  tasks sc' = tasks sc -> pending_externals sc' = pending_externals sc -> next_task_id sc' = next_task_id sc ->
  links_ok opens hand sc objs -> links_ok opens hand sc' objs.
Proof.
  intros Ht Hp Hn [H1 H2 H3 H4 H5 H6 H7 H9 H8].
  split; try by rewrite ?Ht, ?Hp, ?Hn.
  - destruct hand as [[x|g c]|]; cbn in *; by rewrite ?Ht.
  - unfold children_ok, awaits. by rewrite Ht.
Qed.

Lemma links_put_task opens hand hand' sc objs t k k' :
  links_ok opens hand sc objs -> tasks sc !! t = Some k -> coroutine_id k' = coroutine_id k ->
  (awaiter k' = awaiter k \/ awaiter k' = None) ->
  (forall id, state k' = Blocked id -> state k = Blocked id) ->
  (forall id o, objs !! id = Some o -> obj_awaiter o = Some (TaskAwaiter t) -> state k' = Blocked id) ->
  (forall x, hand = Some (TaskAwaiter x) -> hand' = Some (TaskAwaiter x) \/ x = t /\ forall id, state k' <> Blocked id) ->
  (awaiter k' = awaiter k \/ hand' = awaiter k) ->
  (forall g c, hand = Some (GatherSlot g c) -> hand' = Some (GatherSlot g c)) ->
  hand_ok opens hand' (put_tasks t k' sc) objs ->
  links_ok opens hand' (put_tasks t k' sc) objs.
Proof.
  intros Hl Hk Hco Haw Hst Hwk Hhd Hta Hhs Hh. split; cbn.
  - intros x kx c Hx Hc. at_id; [|by eapply (lk_coroutine _ _ _ _ Hl)]. simplify_eq. rewrite Hco in Hc.
    by eapply (lk_coroutine _ _ _ _ Hl).
  - intros x kx a Hx Ha. at_id; [|by eapply (lk_task _ _ _ _ Hl)]. simplify_eq. rewrite Hco.
    destruct Haw as [E|E]; rewrite E in Ha; [|done]. by eapply (lk_task _ _ _ _ Hl).
  - intros x kx id Hx Hb.
    assert (exists kx', tasks sc !! x = Some kx' /\ state kx' = Blocked id) as (kx' & Hx' & Hb').
    { at_id; [simplify_eq|]; eauto. }
    destruct (lk_blocked _ _ _ _ Hl x kx' id Hx' Hb') as [Hhand|?]; [|by right].
    destruct (Hhd x Hhand) as [?|[-> Hno]]; [by left|]. rewrite lookup_insert_eq in Hx. simplify_eq. by destruct (Hno id).
  - intros id o x kx Ho Ha Hx. at_id; [simplify_eq; eauto|]. by eapply (lk_waker _ _ _ _ Hl).
  - apply (lk_born _ _ _ _ Hl).
  - apply (lk_slot _ _ _ _ Hl).
  - done.
  - intros g pc c Hpc Hc. destruct (lk_children _ _ _ _ Hl g pc c Hpc Hc) as [?|[?|(x & kx & Hx & Hcx & Hax)]];
      [left; auto|by right; left|]. destruct (decide (x = t)) as [->|Hne].
    + assert (kx = k) as -> by congruence. destruct Hta as [E|E]; [|left; congruence]. right. right. exists t, k'. cbn.
      rewrite lookup_insert_eq. split_and!; congruence.
    + right. right. exists x, kx. cbn. by rewrite lookup_insert_ne.
  - apply (lk_pending _ _ _ _ Hl).
Qed.

Lemma hand_put_task opens hand sc objs t k k' :
  hand_ok opens hand sc objs -> tasks sc !! t = Some k -> (awaiter k' = awaiter k \/ awaiter k' = None) ->
  hand_ok opens hand (put_tasks t k' sc) objs.
Proof.
  intros Hh Hk Haw. destruct hand as [[x|g c]|]; cbn in *; [| |done].
  - intros id o Ho Ha. specialize (Hh id o Ho Ha). rewrite lookup_insert_ne; [done|congruence].
  - destruct Hh as (? & ? & Ht). split_and!; [done..|]. intros x kx Hx. at_id; [|by eapply Ht]. simplify_eq.
    specialize (Ht _ _ Hk). destruct Haw as [->| ->]; done.
Qed.

(** Contexts do not matter to the invariant. *)
Lemma inv_put_context opens hand runs sc objs n t k k' :
  inv opens hand runs sc objs n -> tasks sc !! t = Some k -> task_id k' = task_id k ->
  coroutine_id k' = coroutine_id k -> awaiter k' = awaiter k ->
  (state k' = state k \/ exists r r', state k = Ready r /\ state k' = Ready r') ->
  inv opens hand runs (put_tasks t k' sc) objs n.
Proof.
  intros [Hsc Hst Hl] Hk Hid Hco Haw Hs.
  assert ((forall r', state k' = Ready r' -> exists r, state k = Ready r)
          /\ (forall r, state k = Ready r -> exists r', state k' = Ready r')
          /\ forall id, state k' = Blocked id <-> state k = Blocked id) as (H1 & H2 & H3).
  { destruct Hs as [->|(r & r' & -> & ->)]; split_and!; eauto; done. }
  split; [|done|].
  - eapply (sched_put runs); try done.
    + by rewrite Haw.
    + intros Hq. destruct (so_queued _ _ Hsc t Hq) as (k0 & r & ? & ?). simplify_eq. eauto.
    + intros r' Hr. destruct (H1 r' Hr) as [r ?]. by eapply (so_ready _ _ Hsc).
    + intros x Hx. destruct (decide (x = t)) as [->|]; [left|by right].
      destruct (so_runs _ _ Hsc t Hx) as (? & k0 & r & ? & ?). simplify_eq. eauto.
  - eapply (links_put_task _ hand); try done; [by left| | | |by left|].
    + intros id. by apply H3.
    + intros id o Ho Ha. apply H3. by eapply (lk_waker _ _ _ _ Hl).
    + by left.
    + eapply hand_put_task; [apply (lk_hand _ _ _ _ Hl)|done|by left].
Qed.

(** The task whose awaiter is in hand is woken. *)
Lemma inv_make_ready opens runs sc objs n t k k' b r :
  inv opens (Some (TaskAwaiter t)) runs sc objs n -> tasks sc !! t = Some k -> state k = Blocked b ->
  task_id k' = task_id k -> coroutine_id k' = coroutine_id k -> awaiter k' = awaiter k -> state k' = Ready r ->
  inv opens None runs (set_queue (ready_queue sc ++ [t]) (put_tasks t k' sc)) objs n.
Proof.
  intros [Hsc Hst Hl] Hk Hb Hid Hco Haw Hr.
  assert (t ∉ ready_queue sc) as Hnq.
  { intros Hq. destruct (so_queued _ _ Hsc t Hq) as (? & ? & ? & ?). congruence. }
  assert (runs <> Some t) as Hnr.
  { intros Hq. destruct (so_runs _ _ Hsc t Hq) as (_ & ? & ? & ? & ?). congruence. }
  split; [|done|].
  - destruct Hsc as [Q1 Q2 Q3 Q4 Q5 Q6 Q7 Q8 Q9 Q10 Q11]. split; cbn.
    + intros x kx Hx. at_id; [|by apply Q1]. simplify_eq. rewrite Hid. by apply Q1.
    + intros km Hm. at_id; [|by apply Q2]. simplify_eq. rewrite Hco, Haw. by apply Q2.
    + intros x kx Hx Hne. at_id; [|by eapply Q3]. simplify_eq. rewrite Hco. by eapply Q3.
    + done.
    + apply NoDup_app. split_and!; [done| |apply NoDup_singleton]. intros x Hx ->%list_elem_of_singleton. done.
    + intros x [Hx| ->%list_elem_of_singleton]%elem_of_app.
      * rewrite lookup_insert_ne by congruence. by apply Q6.
      * exists k', r. by rewrite lookup_insert_eq.
    + intros x kx rx Hx Hs. rewrite elem_of_app, list_elem_of_singleton. at_id; [by left; right|].
      destruct (Q7 x kx rx Hx Hs); auto.
    + intros x Hx. destruct (Q8 x Hx) as (Hq & kx & rx & Hkx & Hs).
      rewrite elem_of_app, list_elem_of_singleton. split; [naive_solver|]. exists kx, rx.
      rewrite lookup_insert_ne; [done|congruence].
    + intros x Hx. destruct (decide (x = t)) as [->|Hne]; [rewrite lookup_insert_eq; eauto|].
      rewrite lookup_insert_ne by done. by apply Q9.
    + intros c x. rewrite Q10. split; intros (kx & Hx & Hc).
      * destruct (decide (x = t)) as [->|Hne].
        -- exists k'. rewrite lookup_insert_eq. split; [done|]. congruence.
        -- exists kx. by rewrite lookup_insert_ne.
      * at_id; [|eauto]. simplify_eq. exists k. split; [done|congruence].
    + done.
  - apply (links_scheduler _ _ (put_tasks t k' sc)); [done..|].
    eapply (links_put_task _ (Some (TaskAwaiter t))); try done.
    + by left.
    + congruence.
    + intros id o Ho Ha. pose proof (lk_hand _ _ _ _ Hl id o Ho Ha). congruence.
    + intros x [= <-]. right. split; [done|]. congruence.
    + by left.
Qed.

(** A task's awaiter comes to hand. *)
Lemma inv_take_awaiter opens runs sc objs n t k a :
  inv opens None runs sc objs n -> tasks sc !! t = Some k -> awaiter k = a ->
  inv opens a runs (put_tasks t (set_awaiter None k) sc) objs n.
Proof.
  intros [Hsc Hst Hl] Hk Ha. split; [|done|].
  - eapply (sched_put runs); try done.
    + intros Hq. cbn. destruct (so_queued _ _ Hsc t Hq) as (k0 & r & ? & ?). simplify_eq. eauto.
    + cbn. intros r Hr. by eapply (so_ready _ _ Hsc).
    + intros x Hx. destruct (decide (x = t)) as [->|]; [left|by right].
      destruct (so_runs _ _ Hsc t Hx) as (? & k0 & r & ? & ?). simplify_eq. eauto.
  - eapply (links_put_task _ None); try done; [by right|..].
    + intros id o Ho Hao. cbn. by eapply (lk_waker _ _ _ _ Hl).
    + by right.
    + destruct a as [a|]; [|done]. destruct (lk_task _ _ _ _ Hl t k a Hk Ha) as (g & c & -> & Hc & Hok). cbn.
      split_and!; [done| |].
      * intros id o Ho Hao. destruct (lk_slot _ _ _ _ Hl id o g c Ho Hao) as [-> _].
        destruct (lk_coroutine _ _ _ _ Hl t k id Hk Hc) as (oc & Hoc & Hic). rewrite Ho in Hoc. injection Hoc as <-. by destruct o.
      * intros x kx Hx Hax. at_id; [by simplify_eq|]. destruct (lk_task _ _ _ _ Hl x kx _ Hx Hax) as (g' & c' & Heq & Hcx & _).
        injection Heq as <- <-.
        assert (coroutine_to_task sc !! c = Some x) by (apply (so_coroutines _ _ Hsc); eauto).
        assert (coroutine_to_task sc !! c = Some t) by (apply (so_coroutines _ _ Hsc); eauto). congruence.
Qed.

(** An awaiter that is let go: of a task that no longer waits, or of a gather that has
    settled. *)
Lemma inv_drop_hand opens runs sc objs n a :
  inv opens (Some a) runs sc objs n ->
  (forall t k id, a = TaskAwaiter t -> tasks sc !! t = Some k -> state k <> Blocked id) ->
  (forall g c, a = GatherSlot g c -> opens !! g = None /\ gather_settled objs g) ->
  inv opens None runs sc objs n.
Proof.
  intros [Hsc Hst [H1 H2 H3 H4 H5 H6 H7 H9 H8]] Hno Hset. split; [done|done|]. split; try done.
  - intros t k id Hk Hb. destruct (H3 t k id Hk Hb) as [[= ->]|]; [|by right]. by destruct (Hno t k id).
  - intros g pc c Hpc Hc. destruct (H9 g pc c Hpc Hc) as [[= ->]|?]; [|by right].
    destruct (Hset g c eq_refl) as [Hop (gf & Hg & Hs)]. unfold expected in Hpc. rewrite Hop, Hg in Hpc.
    unfold as_awaited in Hpc. by destruct (ga_state gf).
Qed.

(** ** Steps: what the operations are made of *)

(** ** Updates that are no gather's *)

Lemma store_put_plain opens objs n id o o' :
  store_ok opens objs n -> objs !! id = Some o -> is_gather o = false -> is_gather o' = false ->
  is_awaitable o' = is_awaitable o -> store_ok opens (<[id := o']> objs) n.
Proof.
  intros Hst Ho Hg Hg' Haw. split.
  - intros i [oi Hi]. apply (st_dom _ _ _ Hst). at_id; [by rewrite Ho|by rewrite Hi].
  - intros g gf i Hgf Hi. at_id; [by simplify_eq|].
    destruct (st_items _ _ _ Hst g gf i Hgf Hi) as (Hlt & oi & Hoi & Hok). split; [done|].
    destruct (decide (i = id)) as [->|Hne].
    + exists o'. rewrite lookup_insert_eq. split; [done|congruence].
    + exists oi. by rewrite lookup_insert_ne.
  - intros g gf aw Hgf. at_id; [by simplify_eq|]. by eapply (st_awaited _ _ _ Hst).
  - intros g pc Hpc. destruct (st_opens _ _ _ Hst g pc Hpc) as (gf & Hgf & ?). exists gf. split; [|done].
    rewrite lookup_insert_ne; [done|]. intros ->. by simplify_eq.
Qed.

Lemma slot_put_plain opens objs id o o' g c :
  objs !! id = Some o -> is_gather o = false ->
  slot_ok opens objs g c -> slot_ok opens (<[id := o']> objs) g c.
Proof.
  intros Ho Hg. apply slot_ok_gathers. intros gf Hgf. rewrite lookup_insert_ne; [done|]. intros ->. by simplify_eq.
Qed.

(** ** Futures *)

(** A future that settles leaves the host's index; whoever waits for it comes to hand. *)
Lemma inv_settle_external opens runs sc objs n call f ex a st sl :
  inv opens None runs sc objs n -> pending_externals sc !! call = Some f -> objs !! f = Some (OExternal ex) ->
  ex_state ex = Pending a -> (forall b, st <> Pending b) ->
  inv opens a runs (set_pending (delete call (pending_externals sc)) sc)
    (<[f := OExternal (mkExternal (call_id ex) st sl)]> objs) n.
Proof.
  intros [Hsc Hst Hl] Hp Hf Hx Hns. set (o' := OExternal (mkExternal (call_id ex) st sl)).
  assert (obj_awaiter (OExternal ex) = a) as Ha by (cbn; by rewrite Hx).
  assert (obj_awaiter o' = None) as Ha' by (cbn; destruct st; try done; by edestruct Hns).
  assert (pending_call o' = None) as Hp' by (cbn; destruct st; try done; by edestruct Hns).
  split; [|by eapply store_put_plain|].
  { apply sched_pending; [done|]. intros x y Hx'. apply lookup_delete_Some in Hx' as [_ Hx'].
    by apply (so_calls _ _ Hsc x y). }
  assert (forall g c, slot_ok opens objs g c -> slot_ok opens (<[f := o']> objs) g c) as Hslot.
  { intros g c. by eapply slot_put_plain. }
  split; cbn.
  - intros t k c Hk Hc. destruct (lk_coroutine _ _ _ _ Hl t k c Hk Hc) as (o & Ho & Hico). exists o.
    rewrite lookup_insert_ne; [done|]. intros ->. by simplify_eq.
  - intros t k b Hk Hb. destruct (lk_task _ _ _ _ Hl t k b Hk Hb) as (g & c & ? & ? & ?). eauto 10.
  - intros t k id Hk Hb. destruct (lk_blocked _ _ _ _ Hl t k id Hk Hb) as [?|(o & Ho & Hao)]; [done|].
    destruct (decide (id = f)) as [->|Hne]; [left; congruence|right]. exists o. by rewrite lookup_insert_ne.
  - intros id o t k Ho Hao Hk. at_id; [by simplify_eq; rewrite Ha' in Hao|]. by eapply (lk_waker _ _ _ _ Hl).
  - intros id o t Ho Hao. at_id; [by simplify_eq; rewrite Ha' in Hao|]. by eapply (lk_born _ _ _ _ Hl).
  - intros id o g c Ho Hao. at_id; [by simplify_eq; rewrite Ha' in Hao|].
    destruct (lk_slot _ _ _ _ Hl id o g c Ho Hao) as [-> ?]. auto.
  - destruct a as [a|]; [|done].
    pose proof (hand_from_object opens opens None sc objs f _ o' a Hl Hf Ha eq_refl Ha' Hslot) as Hh.
    destruct a; exact Hh.
  - eapply children_mono; [exact (lk_children _ _ _ _ Hl)| |].
    + intros g pc c. rewrite (expected_put_plain' _ _ _ _ _ _ Hf) by done. intros Hpc Hc. right. split; [by exists pc|done].
    + intros c b Hb. destruct (decide (a = Some b)) as [->|Hne]; [by right|left].
      apply awaits_put; [|exact Hb]. intros o Ho Hob. congruence.
  - intros call' f'. rewrite lookup_delete_Some, (lk_pending _ _ _ _ Hl). split.
    + intros (Hne & o & Ho & Hc). destruct (decide (f' = f)) as [->|Hnf].
      * simplify_eq. cbn in Hc. rewrite Hx in Hc.
        destruct (proj1 (lk_pending _ _ _ _ Hl call f) Hp) as (o & Ho & Hco). simplify_eq. cbn in Hco.
        rewrite Hx in Hco. congruence.
      * exists o. by rewrite lookup_insert_ne.
    + intros (o & Ho & Hc). at_id; [by simplify_eq; rewrite Hp' in Hc|]. split; [|eauto]. intros ->.
      assert (pending_externals sc !! call' = Some f') by (apply (lk_pending _ _ _ _ Hl); eauto). congruence.
Qed.

(** A new future the host is to resolve. *)
Lemma inv_add_pending opens runs sc objs n call sl :
  inv opens None runs sc objs n -> pending_externals sc !! call = None -> call < next_call_id sc ->
  inv opens None runs (set_pending (<[call := n]> (pending_externals sc)) sc)
    (<[n := OExternal (new_pending call sl)]> objs) (S n).
Proof.
  intros Hinv Hp Hlt.
  assert (inv opens None runs sc (<[n := OExternal (mkExternal call (Resolved VNone) sl)]> objs) (S n)) as [Hsc Hst Hl].
  { by apply inv_alloc. }
  assert (objs !! n = None) as Hn.
  { destruct (objs !! n) eqn:E; [|done]. assert (n < n); [|lia].
    apply (st_dom _ _ _ (inv_store _ _ _ _ _ _ Hinv)). by rewrite E. }
  set (o := OExternal (new_pending call sl)). set (o0 := OExternal (mkExternal call (Resolved VNone) sl)) in *.
  rewrite <- (insert_insert_eq objs n o o0).
  assert (<[n := o0]> objs !! n = Some o0) as Ho by by rewrite lookup_insert_eq.
  split; [|by eapply store_put_plain|].
  { apply sched_pending; [done|]. intros x y Hx. destruct (decide (call = x)) as [<-|Hne]; [done|].
    rewrite lookup_insert_ne in Hx by done. by apply (so_calls _ _ Hsc x y). }
  split; cbn.
  - intros t k c Hk Hc. destruct (lk_coroutine _ _ _ _ Hl t k c Hk Hc) as (oc & Hoc & Hico). exists oc.
    rewrite lookup_insert_ne; [done|]. intros ->. rewrite Ho in Hoc. by simplify_eq.
  - intros t k b Hk Hb. destruct (lk_task _ _ _ _ Hl t k b Hk Hb) as (g & c & ? & ? & ?). exists g, c.
    split_and!; [done..|]. by eapply slot_put_plain.
  - intros t k id Hk Hb. destruct (lk_blocked _ _ _ _ Hl t k id Hk Hb) as [?|(oi & Hoi & Ha)]; [done|right].
    exists oi. rewrite lookup_insert_ne; [done|]. intros <-. rewrite Ho in Hoi. by simplify_eq.
  - intros id oi t k Hoi Ha. at_id; [by simplify_eq|]. by eapply (lk_waker _ _ _ _ Hl).
  - intros id oi t Hoi Ha. at_id; [by simplify_eq|]. by eapply (lk_born _ _ _ _ Hl).
  - intros id oi g c Hoi Ha. at_id; [by simplify_eq|]. destruct (lk_slot _ _ _ _ Hl id oi g c Hoi Ha) as [-> ?].
    split; [done|]. by eapply slot_put_plain.
  - done.
  - eapply children_mono; [exact (lk_children _ _ _ _ Hl)| |].
    + intros g pc c. rewrite (expected_put_plain' _ _ _ _ _ _ Ho) by done. intros Hpc Hc. right. split; [by exists pc|done].
    + intros c b Hb. left. apply awaits_put; [|exact Hb]. intros o1 Ho1. rewrite Ho in Ho1. by simplify_eq.
  - intros call' f. destruct (decide (call' = call)) as [->|Hne].
    + rewrite lookup_insert_eq. split; [intros [= <-]; exists o; by rewrite lookup_insert_eq|].
      intros (oi & Hoi & Hc). at_id; [done|].
      assert (pending_externals sc !! call = Some f) by (apply (lk_pending _ _ _ _ Hl); eauto). congruence.
    + rewrite lookup_insert_ne, (lk_pending _ _ _ _ Hl) by done. split; intros (oi & Hoi & Hc).
      * exists oi. rewrite lookup_insert_ne; [done|]. intros <-. rewrite Ho in Hoi. by simplify_eq.
      * at_id; [simplify_eq; cbn in Hc; congruence|eauto].
Qed.

(** The running task blocks on an awaitable that takes it as its awaiter. *)
Lemma inv_block opens opens' sc objs n id o o' t k :
  inv opens None (Some t) sc objs n -> tasks sc !! t = Some k -> objs !! id = Some o ->
  obj_awaiter o = None -> obj_awaiter o' = Some (TaskAwaiter t) -> is_coroutine o = false ->
  pending_call o' = pending_call o -> store_ok opens' (<[id := o']> objs) n ->
  (forall g c, slot_ok opens objs g c -> slot_ok opens' (<[id := o']> objs) g c) ->
  (forall g, expected opens' (<[id := o']> objs) g = expected opens objs g) ->
  inv opens' None None (put_tasks t (set_state (Blocked id) k) sc) (<[id := o']> objs) n.
Proof.
  intros [Hsc Hst Hl] Hk Ho Ha Ha' Hco Hp Hst' Hslot Hexp.
  destruct (so_runs _ _ Hsc t eq_refl) as (Hnq & k0 & r & Hk0 & Hr). simplify_eq.
  assert (forall i oi, objs !! i = Some oi -> obj_awaiter oi <> Some (TaskAwaiter t)) as Hno.
  { intros i oi Hi Hai. pose proof (lk_waker _ _ _ _ Hl i oi t k Hi Hai Hk). congruence. }
  split; [|done|].
  - eapply (sched_put (Some t)); done || (cbn; intros; congruence).
  - split; cbn.
    + intros x kx c Hx Hc.
      assert (exists kx', tasks sc !! x = Some kx' /\ coroutine_id kx' = Some c) as (kx' & ? & ?).
      { at_id; [simplify_eq|]; eauto. }
      destruct (lk_coroutine _ _ _ _ Hl x kx' c) as (oc & Hoc & Hic); [done..|]. exists oc.
      rewrite lookup_insert_ne; [done|]. intros <-. congruence.
    + intros x kx a Hx Hax.
      assert (exists kx', tasks sc !! x = Some kx' /\ coroutine_id kx' = coroutine_id kx /\ awaiter kx' = Some a)
        as (kx' & ? & Hcx & ?).
      { at_id; [simplify_eq|]; eauto. }
      destruct (lk_task _ _ _ _ Hl x kx' a) as (g & c & -> & ? & ?); [done..|]. rewrite <- Hcx. eauto 10.
    + intros x kx i Hx Hb. right. at_id.
      * simplify_eq. cbn in Hb. injection Hb as <-. exists o'. by rewrite lookup_insert_eq.
      * destruct (lk_blocked _ _ _ _ Hl x kx i Hx Hb) as [?|(oi & Hoi & Hai)]; [done|]. exists oi.
        rewrite lookup_insert_ne; [done|]. congruence.
    + intros i oi x kx Hoi Hai Hx. destruct (decide (i = id)) as [->|Hne].
      * rewrite lookup_insert_eq in Hoi. simplify_eq. rewrite lookup_insert_eq in Hx. by simplify_eq.
      * rewrite lookup_insert_ne in Hoi by done. rewrite lookup_insert_ne in Hx; [by eapply (lk_waker _ _ _ _ Hl)|].
        intros <-. by eapply Hno.
    + intros i oi x Hoi Hai. at_id; [|by eapply (lk_born _ _ _ _ Hl)].
      assert (x = t) as -> by congruence. by apply (so_keys _ _ Hsc t k).
    + intros i oi g c Hoi Hai. at_id; [congruence|].
      destruct (lk_slot _ _ _ _ Hl i oi g c Hoi Hai) as [-> ?]. auto.
    + done.
    + eapply children_mono; [exact (lk_children _ _ _ _ Hl)| |].
      * intros g pc c. rewrite Hexp. intros Hpc Hc. right. split; [by exists pc|done].
      * intros c a Hc. left. apply (awaits_put_task t k); [done..|]. apply awaits_put; [|exact Hc]. congruence.
    + intros call f. rewrite (lk_pending _ _ _ _ Hl). split; intros (oi & Hoi & Hc).
      * destruct (decide (f = id)) as [->|Hne].
        -- exists o'. rewrite lookup_insert_eq. split; [done|congruence].
        -- exists oi. by rewrite lookup_insert_ne.
      * at_id; [exists o; split; [done|congruence]|eauto].
Qed.

(** ** Gathers *)

Lemma store_put_gather opens opens' objs n g gf gf' :
  store_ok opens objs n -> objs !! g = Some (OGather gf) -> items gf' = items gf ->
  (forall aw, ga_state gf' = GatherAwaited aw ->
     awaited_ok (items gf) (length (items gf)) aw /\ pending_children aw <> ∅) ->
  (forall pc, opens' !! g = Some pc -> ga_state gf' = GatherPending) ->
  (forall x pc, x <> g -> opens' !! x = Some pc -> exists pc', opens !! x = Some pc') ->
  store_ok opens' (<[g := OGather gf']> objs) n.
Proof.
  intros Hst Hg Hits Haw Hop Hops. split.
  - intros i [oi Hi]. apply (st_dom _ _ _ Hst). at_id; [by rewrite Hg|by rewrite Hi].
  - intros x gx i Hx Hi.
    assert (exists gx', objs !! x = Some (OGather gx') /\ items gx' = items gx) as (gx' & Hx' & Hitx).
    { at_id; [simplify_eq|]; eauto. }
    rewrite <- Hitx in Hi. destruct (st_items _ _ _ Hst x gx' i Hx' Hi) as (Hlt & oi & Hoi & Hok). split; [done|].
    destruct (decide (i = g)) as [->|Hne].
    + eexists. by rewrite lookup_insert_eq.
    + exists oi. by rewrite lookup_insert_ne.
  - intros x gx aw Hx Hs. at_id; [simplify_eq; rewrite Hits; by apply Haw|]. by eapply (st_awaited _ _ _ Hst).
  - intros x pc Hx. destruct (decide (x = g)) as [->|Hne].
    + exists gf'. rewrite lookup_insert_eq. eauto.
    + destruct (Hops x pc Hne Hx) as [pc' Hpc']. destruct (st_opens _ _ _ Hst x pc' Hpc') as (gx & ? & ?).
      exists gx. by rewrite lookup_insert_ne.
Qed.

Lemma slot_put_gather opens opens' objs g gf gf' (P : nat -> Prop) :
  objs !! g = Some (OGather gf) -> items gf' = items gf ->
  (settled (ga_state gf) = true -> settled (ga_state gf') = true) ->
  (forall x, x <> g -> opens' !! x = opens !! x) ->
  (forall pc c, P c -> expected opens objs g = Some pc -> is_Some (pc !! c) ->
     (exists pc', expected opens' (<[g := OGather gf']> objs) g = Some pc' /\ is_Some (pc' !! c))
     \/ settled (ga_state gf') = true) ->
  forall x c, (x = g -> P c) -> slot_ok opens objs x c -> slot_ok opens' (<[g := OGather gf']> objs) x c.
Proof.
  intros Hg Hits Hset Hop He x c HP. destruct (decide (x = g)) as [->|Hne].
  - apply slot_ok_mono.
    + intros gx Hgx. simplify_eq. exists gf'. by rewrite lookup_insert_eq.
    + intros pc Hpc Hc. destruct (He pc c (HP eq_refl) Hpc Hc) as [?|?]; [by left|right].
      exists gf'. by rewrite lookup_insert_eq.
  - apply slot_ok_mono.
    + intros gx Hgx. exists gx. by rewrite lookup_insert_ne.
    + intros pc Hpc Hc. left. exists pc. split; [|done]. unfold expected in *. by rewrite Hop, lookup_insert_ne by done.
Qed.

(** An awaited gather that settles: its awaiter comes to hand. *)
Lemma inv_settle_gather opens runs sc objs n g c gf aw st :
  inv opens (Some (GatherSlot g c)) runs sc objs n -> opens !! g = None -> objs !! g = Some (OGather gf) ->
  ga_state gf = GatherAwaited aw -> settled st = true ->
  inv opens (Some (aw_awaiter aw)) runs sc (<[g := OGather (set_ga_state st gf)]> objs) n.
Proof.
  intros [Hsc Hst Hl] Hop Hg Haw Hset. set (gf' := set_ga_state st gf).
  assert (obj_awaiter (OGather gf) = Some (aw_awaiter aw)) as Ha by (cbn; by rewrite Haw).
  assert (obj_awaiter (OGather gf') = None) as Ha' by (cbn; by destruct st).
  assert (forall x d, slot_ok opens objs x d -> slot_ok opens (<[g := OGather gf']> objs) x d) as Hslot.
  { intros x d. apply (slot_put_gather opens opens objs g gf gf' (fun _ => True)); try done. cbn. by right. }
  split; [done| |].
  - eapply store_put_gather; [done|done|done| | |eauto].
    + cbn. intros aw' E. rewrite E in Hset. done.
    + intros pc. by rewrite Hop.
  - apply (links_put opens opens (Some (GatherSlot g c)) _ _ _ _ _ (fun _ _ => True)); try done.
    + intros x d _. apply Hslot.
    + intros o Ho. by simplify_eq.
    + intros t k. by rewrite Ha'.
    + intros t. by rewrite Ha'.
    + intros x d. by rewrite Ha'.
    + intros o t Ho Hat. right. simplify_eq. congruence.
    + by eapply hand_from_object.
    + eapply children_mono; [exact (lk_children _ _ _ _ Hl)| |].
      * intros x pc d Hpc Hd. right. unfold expected in Hpc. destruct (decide (x = g)) as [->|Hne].
        -- rewrite Hop, lookup_insert_eq in Hpc. cbn in Hpc. unfold as_awaited in Hpc. by destruct st.
        -- rewrite lookup_insert_ne in Hpc by done. split; [by exists pc|]. congruence.
      * intros d b Hb. destruct (decide (b = aw_awaiter aw)) as [->|Hne]; [by right|left].
        apply awaits_put; [|exact Hb]. intros o Ho Hob. congruence.
    + cbn. intros call. split; [done|]. intros (o & Ho & Hc). by simplify_eq.
Qed.

(** A child's value arrives, and other children are still pending. *)
Lemma inv_resolve_partial opens runs sc objs n g c gf aw rs :
  inv opens (Some (GatherSlot g c)) runs sc objs n -> opens !! g = None -> objs !! g = Some (OGather gf) ->
  ga_state gf = GatherAwaited aw -> delete c (pending_children aw) <> ∅ ->
  awaited_ok (items gf) (length (items gf)) (mkAwaited (aw_awaiter aw) (delete c (pending_children aw)) rs) ->
  inv opens None runs sc
    (<[g := OGather (set_ga_state (GatherAwaited (mkAwaited (aw_awaiter aw) (delete c (pending_children aw)) rs)) gf)]>
       objs) n.
Proof.
  intros [Hsc Hst Hl] Hop Hg Haw Hne Hok.
  set (aw' := mkAwaited (aw_awaiter aw) (delete c (pending_children aw)) rs) in *.
  set (gf' := set_ga_state (GatherAwaited aw') gf).
  destruct (lk_hand _ _ _ _ Hl) as (_ & Hobj & Htask).
  assert (obj_awaiter (OGather gf') = obj_awaiter (OGather gf)) as Ha by (cbn; by rewrite Haw).
  assert (forall x d, (x = g -> d <> c) -> slot_ok opens objs x d -> slot_ok opens (<[g := OGather gf']> objs) x d)
    as Hslot.
  { apply (slot_put_gather opens opens objs g gf gf' (fun d => d <> c)); try done.
    - by rewrite Haw.
    - intros pc d Hd Hpc Hin. left. exists (delete c (pending_children aw)). unfold expected in *.
      rewrite Hop in *. rewrite lookup_insert_eq. rewrite Hg in Hpc. cbn in *. unfold as_awaited in Hpc.
      rewrite Haw in Hpc. cbn in Hpc. injection Hpc as <-. split; [done|]. by rewrite lookup_delete_ne. }
  split; [done| |].
  - eapply store_put_gather; [done|done|done| | |eauto].
    + cbn. intros aw1 [= <-]. done.
    + intros pc. by rewrite Hop.
  - apply (links_put opens opens (Some (GatherSlot g c)) None _ _ _ _ (fun x d => x = g -> d <> c)); try done.
    + intros id o x d Hid Ho Hao -> ->. by eapply Hobj.
    + intros t k x d Hk Hak -> ->. by eapply Htask.
    + intros o Ho. by simplify_eq.
    + rewrite Ha. intros t k Hat. by eapply (lk_waker _ _ _ _ Hl).
    + rewrite Ha. intros t Hat. by eapply (lk_born _ _ _ _ Hl).
    + rewrite Ha. intros x d Hat. destruct (lk_slot _ _ _ _ Hl g _ x d Hg Hat) as [-> Hxd]. split; [done|].
      apply Hslot; [|done]. intros ->. by destruct (slot_ok_item _ _ _ _ _ Hst Hxd); lia.
    + intros o t Ho Hat. left. simplify_eq. by rewrite Ha.
    + eapply children_mono; [exact (lk_children _ _ _ _ Hl)| |].
      * intros x pc d Hpc Hd. right. unfold expected in *. destruct (decide (x = g)) as [->|Hxg].
        -- rewrite Hop, lookup_insert_eq in Hpc. cbn in Hpc. injection Hpc as <-.
           assert (d <> c) as Hdc by (intros ->; rewrite lookup_delete_eq in Hd; by apply is_Some_None in Hd).
           rewrite lookup_delete_ne in Hd by done. split; [|congruence]. exists (pending_children aw).
           rewrite Hop, Hg. unfold as_awaited. by rewrite Haw.
        -- rewrite lookup_insert_ne in Hpc by done. split; [by exists pc|]. congruence.
      * intros d b Hb. left. apply awaits_put; [|exact Hb]. intros o Ho Hob. simplify_eq. by rewrite Ha.
    + cbn. intros call. split; [done|]. intros (o & Ho & Hc). by simplify_eq.
Qed.

(** ** Committing *)

(** A change of the open gathers alone, and of the hand. *)
Lemma inv_opens opens opens' hand hand' runs sc objs n :
  inv opens hand runs sc objs n ->
  (forall g pc, opens' !! g = Some pc -> exists gf, objs !! g = Some (OGather gf) /\ ga_state gf = GatherPending) ->
  (forall g c, slot_ok opens objs g c -> slot_ok opens' objs g c) ->
  (forall t, hand = Some (TaskAwaiter t) -> hand' = Some (TaskAwaiter t)) ->
  hand_ok opens' hand' sc objs -> children_ok opens' hand' sc objs ->
  inv opens' hand' runs sc objs n.
Proof.
  intros [Hsc [S1 S2 S3 S4] [H1 H2 H3 H4 H4' H5 H6 H7 H8]] Hop Hslot Hhand Hh Hch. split; [done|by split|]. split; try done.
  - intros t k a Hk Ha. destruct (H2 t k a Hk Ha) as (g & c & ? & ? & ?). eauto 10.
  - intros t k id Hk Hb. destruct (H3 t k id Hk Hb); auto.
  - intros id o g c Ho Ha. destruct (H5 id o g c Ho Ha). auto.
Qed.

Lemma hand_slots opens opens' hand sc objs :
  (forall g c, slot_ok opens objs g c -> slot_ok opens' objs g c) ->
  hand_ok opens hand sc objs -> hand_ok opens' hand sc objs.
Proof. intros Hslot. destruct hand as [[]|]; cbn; [done| |done]. intros (? & ? & ?). auto. Qed.

Lemma inv_open opens hand runs sc objs n g gf :
  inv opens hand runs sc objs n -> objs !! g = Some (OGather gf) -> ga_state gf = GatherPending ->
  opens !! g = None -> inv (<[g := ∅]> opens) hand runs sc objs n.
Proof.
  intros Hinv Hg Hp Hop.
  assert (forall x c, slot_ok opens objs x c -> slot_ok (<[g := ∅]> opens) objs x c) as Hslot.
  { intros x c. apply slot_ok_mono; [eauto|]. intros pc Hpc Hc. left. exists pc. split; [|done].
    unfold expected in *. destruct (decide (x = g)) as [->|Hne]; [|by rewrite lookup_insert_ne].
    rewrite Hop, Hg in Hpc. unfold as_awaited in Hpc. by rewrite Hp in Hpc. }
  pose proof (inv_links _ _ _ _ _ _ Hinv) as Hl.
  eapply inv_opens; [done| |done|done|eapply hand_slots; [done|apply (lk_hand _ _ _ _ Hl)]|].
  - intros x pc Hx. at_id; [eauto|]. by eapply (st_opens _ _ _ (inv_store _ _ _ _ _ _ Hinv)).
  - intros x pc c Hpc Hc. unfold expected in Hpc. destruct (decide (x = g)) as [->|Hne].
    + rewrite lookup_insert_eq in Hpc. injection Hpc as <-. rewrite lookup_empty in Hc. by apply is_Some_None in Hc.
    + rewrite lookup_insert_ne in Hpc by done. by apply (lk_children _ _ _ _ Hl x pc).
Qed.

Lemma slot_register opens objs g pc pc' x c :
  opens !! g = Some pc -> (forall c, is_Some (pc !! c) -> is_Some (pc' !! c)) ->
  slot_ok opens objs x c -> slot_ok (<[g := pc']> opens) objs x c.
Proof.
  intros Hop Hsub. apply slot_ok_mono; [eauto|]. intros p Hp Hc. left. unfold expected in *.
  destruct (decide (x = g)) as [->|Hne].
  - rewrite lookup_insert_eq. rewrite Hop in Hp. injection Hp as <-. eauto.
  - rewrite lookup_insert_ne by done. eauto.
Qed.

(** A registered child fills one more slot. *)
Lemma inv_register_again opens hand runs sc objs n g pc c idxs :
  inv opens hand runs sc objs n -> opens !! g = Some pc -> is_Some (pc !! c) ->
  inv (<[g := <[c := idxs]> pc]> opens) hand runs sc objs n.
Proof.
  intros Hinv Hop Hc. pose proof (inv_links _ _ _ _ _ _ Hinv) as Hl.
  assert (forall d, is_Some ((<[c := idxs]> pc) !! d) <-> is_Some (pc !! d)) as Hkeys.
  { intros d. destruct (decide (d = c)) as [->|Hne]; [rewrite lookup_insert_eq; naive_solver|by rewrite lookup_insert_ne]. }
  assert (forall x d, slot_ok opens objs x d -> slot_ok (<[g := <[c := idxs]> pc]> opens) objs x d) as Hslot.
  { intros x d. apply slot_register with pc; [done|]. intros e. apply Hkeys. }
  eapply inv_opens; [done| |done|done|eapply hand_slots; [done|apply (lk_hand _ _ _ _ Hl)]|].
  - intros x p Hx. at_id; by eapply (st_opens _ _ _ (inv_store _ _ _ _ _ _ Hinv)).
  - intros x p d Hp Hd. unfold expected in Hp. destruct (decide (x = g)) as [->|Hne].
    + rewrite lookup_insert_eq in Hp. injection Hp as <-. apply Hkeys in Hd.
      apply (lk_children _ _ _ _ Hl g pc); [|done]. unfold expected. by rewrite Hop.
    + rewrite lookup_insert_ne in Hp by done. by apply (lk_children _ _ _ _ Hl x p).
Qed.

(** A new child is registered, and its awaiter in hand. *)
Lemma inv_register opens runs sc objs n g gf pc c idxs :
  inv opens None runs sc objs n -> opens !! g = Some pc -> objs !! g = Some (OGather gf) -> c ∈ items gf ->
  (forall o, objs !! c = Some o -> obj_awaiter o = None) ->
  (forall t k, tasks sc !! t = Some k -> coroutine_id k <> Some c) ->
  inv (<[g := <[c := idxs]> pc]> opens) (Some (GatherSlot g c)) runs sc objs n.
Proof.
  intros Hinv Hop Hg Hc Hobj Htask. pose proof (inv_links _ _ _ _ _ _ Hinv) as Hl.
  assert (forall x d, slot_ok opens objs x d -> slot_ok (<[g := <[c := idxs]> pc]> opens) objs x d) as Hslot.
  { intros x d. apply slot_register with pc; [done|]. intros e He. destruct (decide (e = c)) as [->|Hne];
      [rewrite lookup_insert_eq; eauto|by rewrite lookup_insert_ne]. }
  eapply inv_opens; [done| |done|done| |].
  - intros x p Hx. at_id; by eapply (st_opens _ _ _ (inv_store _ _ _ _ _ _ Hinv)).
  - split_and!.
    + split; [by exists gf|]. left. exists (<[c := idxs]> pc). unfold expected. rewrite !lookup_insert_eq. eauto.
    + intros id o Ho Ha. destruct (lk_slot _ _ _ _ Hl id o g c Ho Ha) as [-> _]. by rewrite (Hobj o Ho) in Ha.
    + intros t k Hk Ha. destruct (lk_task _ _ _ _ Hl t k _ Hk Ha) as (g' & c' & [= <- <-] & Hco & _). by eapply Htask.
  - intros x p d Hp Hd. unfold expected in Hp. destruct (decide (x = g)) as [->|Hne].
    + rewrite lookup_insert_eq in Hp. injection Hp as <-. destruct (decide (d = c)) as [->|Hdc]; [by left|right].
      rewrite lookup_insert_ne in Hd by done. destruct (lk_children _ _ _ _ Hl g pc d) as [?|?]; [|done|done|done].
      unfold expected. by rewrite Hop.
    + rewrite lookup_insert_ne in Hp by done. right. by destruct (lk_children _ _ _ _ Hl x p d Hp Hd).
Qed.

Lemma slot_registered opens objs g gf c pc :
  objs !! g = Some (OGather gf) -> c ∈ items gf -> opens !! g = Some pc -> is_Some (pc !! c) -> slot_ok opens objs g c.
Proof. intros Hg Hc Hop Hin. split; [by exists gf|]. left. exists pc. unfold expected. by rewrite Hop. Qed.

Definition spawned (c : nat) (a : option Awaiter) (sc : Scheduler) : Scheduler :=
  let id := next_task_id sc in
  mkScheduler (<[id := new_task id (Some c) a]> (tasks sc)) (ready_queue sc ++ [id]) (current_task sc) (S id)
    (next_call_id sc) (pending_externals sc) (<[c := id]> (coroutine_to_task sc)).

Lemma inv_spawn opens runs sc objs n g c co :
  inv opens (Some (GatherSlot g c)) runs sc objs n -> objs !! c = Some (OCoroutine co) ->
  coroutine_to_task sc !! c = None -> inv opens None runs (spawned c (Some (GatherSlot g c)) sc) objs n.
Proof.
  intros [Hsc Hst Hl] Hc Hn. set (id := next_task_id sc). pose proof (lk_hand _ _ _ _ Hl) as (Hok & _).
  assert (tasks sc !! id = None) as Hid.
  { destruct (tasks sc !! id) as [k|] eqn:E; [|done]. destruct (so_keys _ _ Hsc id k E). unfold id in *. lia. }
  assert (id <> main_id) as Hm by (pose proof (so_next _ _ Hsc); unfold id, main_id; lia).
  assert (forall x k, tasks sc !! x = Some k -> coroutine_id k <> Some c) as Hnc.
  { intros x k Hx Hk. assert (coroutine_to_task sc !! c = Some x) by (apply (so_coroutines _ _ Hsc); eauto). congruence. }
  assert (forall x k, tasks sc !! x = Some k -> x <> id) as Hne by (intros x k Hx ->; congruence).
  split; [|done|].
  - destruct Hsc as [Q1 Q2 Q3 Q4 Q5 Q6 Q7 Q8 Q9 Q10 Q11]. split; cbn.
    + intros x k Hx. at_id; [simplify_eq; cbn; unfold id; split; [done|lia]|]. destruct (Q1 x k Hx). split; [done|lia].
    + intros k Hk. rewrite lookup_insert_ne in Hk by done. by apply Q2.
    + intros x k Hx. at_id; [simplify_eq; cbn; eauto|]. by apply Q3.
    + lia.
    + apply NoDup_app. split_and!; [done| |apply NoDup_singleton]. intros x Hx ->%list_elem_of_singleton.
      destruct (Q6 _ Hx) as (k & r & Hk & _). by eapply Hne.
    + intros x [Hx| ->%list_elem_of_singleton]%elem_of_app.
      * destruct (Q6 x Hx) as (k & r & Hk & ?). exists k, r. rewrite lookup_insert_ne; [done|].
        intros <-. by eapply Hne.
      * eexists _, _. by rewrite lookup_insert_eq.
    + intros x k r Hx Hs. rewrite elem_of_app, list_elem_of_singleton. at_id; [by left; right|].
      destruct (Q7 x k r Hx Hs); auto.
    + intros x Hx. destruct (Q8 x Hx) as (Hq & k & r & Hk & Hs). assert (x <> id) by by eapply Hne.
      rewrite elem_of_app, list_elem_of_singleton. split; [tauto|]. exists k, r. by rewrite lookup_insert_ne.
    + intros x Hx. destruct (Q9 x Hx) as [k Hk]. exists k. rewrite lookup_insert_ne; [done|]. intros <-. by eapply Hne.
    + intros d x. destruct (decide (d = c)) as [->|Hdc].
      * rewrite lookup_insert_eq. split.
        -- intros [= <-]. eexists. by rewrite lookup_insert_eq.
        -- intros (k & Hk & Hkc). at_id; [done|]. by destruct (Hnc _ _ Hk).
      * rewrite lookup_insert_ne, Q10 by done. split; intros (k & Hk & Hkc).
        -- exists k. rewrite lookup_insert_ne; [done|]. intros <-. by eapply Hne.
        -- at_id; [simplify_eq; cbn in Hkc; congruence|eauto].
    + done.
  - destruct Hl as [H1 H2 H3 H4 H4' H5 H6 H7 H8]. split; cbn; try done.
    + intros x k d Hx Hd. at_id; [simplify_eq; cbn in Hd; simplify_eq; eauto|eauto].
    + intros x k a Hx Ha. at_id; [|by eapply H2]. simplify_eq. cbn in Ha. injection Ha as <-. eauto 10.
    + intros x k i Hx Hb. at_id; [by simplify_eq|]. right. by destruct (H3 x k i Hx Hb).
    + intros i o x k Ho Ha Hx. specialize (H4' i o x Ho Ha). rewrite lookup_insert_ne in Hx by lia. by eapply H4.
    + intros i o x Ho Ha. specialize (H4' i o x Ho Ha). lia.
    + eapply children_mono; [exact H7| |].
      * intros x pc d Hpc Hd. right. split; [by exists pc|]. intros [= <- <-]. right.
        eexists id, _. cbn. by rewrite lookup_insert_eq.
      * intros d a [?|(x & k & Hx & ? & ?)]; [by left; left|]. left. right. exists x, k. cbn.
        rewrite lookup_insert_ne; [done|]. intros <-. by eapply Hne.
Qed.

(** A future takes a gather's slot as its awaiter. *)
Lemma inv_await_slot opens runs sc objs n f ex g :
  inv opens (Some (GatherSlot g f)) runs sc objs n -> objs !! f = Some (OExternal ex) -> ex_state ex = Pending None ->
  inv opens None runs sc (<[f := OExternal (set_ex_state (Pending (Some (GatherSlot g f))) ex)]> objs) n.
Proof.
  intros [Hsc Hst Hl] Hf Hx. pose proof (lk_hand _ _ _ _ Hl) as (Hok & _). set (o' := OExternal (set_ex_state (Pending (Some (GatherSlot g f))) ex)).
  assert (forall x c, slot_ok opens objs x c -> slot_ok opens (<[f := o']> objs) x c) as Hslot.
  { intros x c. by eapply slot_put_plain. }
  split; [done|by eapply store_put_plain|].
  apply (links_put opens opens (Some (GatherSlot g f)) None _ _ _ _ (fun _ _ => True)); try done.
  - intros x c _. apply Hslot.
  - intros o Ho. by simplify_eq.
  - intros x c [= <- <-]. auto.
  - intros o t Ho Ha. simplify_eq. cbn in Ha. rewrite Hx in Ha. done.
  - eapply children_mono; [exact (lk_children _ _ _ _ Hl)| |].
    + intros x pc c. rewrite (expected_put_plain' _ _ _ _ _ _ Hf) by done. intros Hpc Hc. right.
      split; [by exists pc|]. intros [= <- <-]. left. exists o'. by rewrite lookup_insert_eq.
    + intros c a Ha. left. apply awaits_put; [|exact Ha]. intros o Ho Hoa. simplify_eq. cbn in Hoa. by rewrite Hx in Hoa.
  - intros call. cbn. split.
    + intros [= <-]. exists (OExternal ex). cbn. by rewrite Hx.
    + intros (o & Ho & Hc). simplify_eq. cbn in Hc. by rewrite Hx in Hc.
Qed.

(** The gather [g] is closed with the state [st], which expects what was registered. *)
Definition closes (pc : PendingChildren) (st : GatherState) : Prop :=
  settled st = true \/ exists a rs, st = GatherAwaited (mkAwaited a pc rs).

Lemma slot_close opens objs g gf pc st x c :
  objs !! g = Some (OGather gf) -> ga_state gf = GatherPending -> opens !! g = Some pc -> closes pc st ->
  slot_ok opens objs x c -> slot_ok (delete g opens) (<[g := OGather (set_ga_state st gf)]> objs) x c.
Proof.
  intros Hg Hp Hop Hcl. apply (slot_put_gather opens (delete g opens) objs g gf _ (fun _ => True)); try done.
  - by rewrite Hp.
  - intros y Hy. by rewrite lookup_delete_ne.
  - intros p d _ He Hd. unfold expected in *. rewrite Hop in He. injection He as <-.
    destruct Hcl as [?|(a & rs & ->)]; [by right|left]. exists pc. split; [|done].
    by rewrite lookup_delete_eq, lookup_insert_eq.
Qed.

Lemma store_close opens objs n g gf pc st :
  store_ok opens objs n -> objs !! g = Some (OGather gf) -> opens !! g = Some pc ->
  (forall aw, st = GatherAwaited aw -> awaited_ok (items gf) (length (items gf)) aw /\ pending_children aw <> ∅) ->
  store_ok (delete g opens) (<[g := OGather (set_ga_state st gf)]> objs) n.
Proof.
  intros Hst Hg Hop Haw. eapply store_put_gather; [done|done|done|done| |].
  - intros p. by rewrite lookup_delete_eq.
  - intros x p Hne Hx. rewrite lookup_delete_ne in Hx by done. eauto.
Qed.

Lemma expected_close opens objs g gf pc st x p :
  objs !! g = Some (OGather gf) -> opens !! g = Some pc -> closes pc st ->
  expected (delete g opens) (<[g := OGather (set_ga_state st gf)]> objs) x = Some p -> expected opens objs x = Some p.
Proof.
  intros Hg Hop Hcl. unfold expected. destruct (decide (x = g)) as [->|Hne].
  - rewrite lookup_delete_eq, lookup_insert_eq, Hop. cbn. unfold as_awaited.
    destruct Hcl as [Hs|(a & rs & ->)]; [by destruct st|done].
  - by rewrite lookup_delete_ne, lookup_insert_ne by done.
Qed.

(** A gather that parks takes the awaiter in hand. *)
Lemma inv_close opens hand runs sc objs n g gf pc st :
  inv opens hand runs sc objs n -> objs !! g = Some (OGather gf) -> ga_state gf = GatherPending ->
  opens !! g = Some pc -> closes pc st ->
  (forall aw, st = GatherAwaited aw ->
     (awaited_ok (items gf) (length (items gf)) aw /\ pending_children aw <> ∅)
     /\ exists p, aw_awaiter aw = GatherSlot p g /\ slot_ok opens objs p g) ->
  (forall a, hand = Some a -> exists p, a = GatherSlot p g /\ exists aw, st = GatherAwaited aw /\ aw_awaiter aw = a) ->
  inv (delete g opens) None runs sc (<[g := OGather (set_ga_state st gf)]> objs) n.
Proof.
  intros [Hsc Hst Hl] Hg Hp Hop Hcl Haw Hhand. set (o' := OGather (set_ga_state st gf)).
  assert (forall x c, slot_ok opens objs x c -> slot_ok (delete g opens) (<[g := o']> objs) x c) as Hslot.
  { intros x c. by apply slot_close with pc. }
  assert (forall a, obj_awaiter o' = Some a -> exists p, a = GatherSlot p g /\ slot_ok opens objs p g) as Ha.
  { cbn. destruct st as [|aw| |]; try done. intros a [= <-]. destruct (Haw aw eq_refl) as [_ ?]. done. }
  split; [done| |].
  - eapply store_close; [done..|]. intros aw E. by destruct (Haw aw E).
  - apply (links_put opens (delete g opens) hand None _ _ _ _ (fun _ _ => True)); try done.
    + intros x c _. apply Hslot.
    + intros o Ho. by simplify_eq.
    + intros t k E. by destruct (Ha _ E) as (? & ? & _).
    + intros t E. by destruct (Ha _ E) as (? & ? & _).
    + intros x c E. destruct (Ha _ E) as (p & [= -> ->] & Hok). auto.
    + intros t E. by destruct (Hhand _ E) as (? & ? & _).
    + intros o t Ho E. simplify_eq. cbn in E. by rewrite Hp in E.
    + eapply children_mono; [exact (lk_children _ _ _ _ Hl)| |].
      * intros x q d Hq Hd. right. split; [exists q; split; [by eapply expected_close|done]|]. intros E.
        destruct (Hhand _ E) as (y & [= -> ->] & aw & -> & Ea). left. exists o'. rewrite lookup_insert_eq. split; [done|].
        cbn. by rewrite Ea.
      * intros d a Hd. left. apply awaits_put; [|exact Hd]. intros o Ho E. simplify_eq. cbn in E. by rewrite Hp in E.
    + cbn. intros call. split; [done|]. intros (o & Ho & Hc). by simplify_eq.
Qed.

(** The root of a commit that parks: its task blocks. *)
Lemma inv_close_root opens t k sc objs n g gf pc aw :
  inv opens None (Some t) sc objs n -> tasks sc !! t = Some k -> objs !! g = Some (OGather gf) ->
  ga_state gf = GatherPending -> opens !! g = Some pc -> pending_children aw = pc -> aw_awaiter aw = TaskAwaiter t ->
  awaited_ok (items gf) (length (items gf)) aw -> pc <> ∅ ->
  inv (delete g opens) None None (put_tasks t (set_state (Blocked g) k) sc)
    (<[g := OGather (set_ga_state (GatherAwaited aw) gf)]> objs) n.
Proof.
  intros Hinv Hk Hg Hp Hop <- Ha Hok Hne. eapply inv_block; [done|done|done| | |done|done| | |].
  - cbn. by rewrite Hp.
  - cbn. by rewrite Ha.
  - eapply store_close; [apply (inv_store _ _ _ _ _ _ Hinv)|done|done|]. by intros ? [= <-].
  - intros x c. apply slot_close with (pending_children aw); [done|done|done|]. right. destruct aw. eauto.
  - intros x. unfold expected. destruct (decide (x = g)) as [->|Hxg].
    + by rewrite lookup_delete_eq, lookup_insert_eq, Hop.
    + by rewrite lookup_delete_ne, lookup_insert_ne.
Qed.
