(* ===== verification/AsyncSafe.v ===== *)
(** * The operations of the executor keep its invariant

    None of them panics, but for a counter or an index past its width, and what they
    leave behind is again a state of the invariant, an exception included. *)
From S2P Require Import Prelude HeapData Scheduler AsyncExec AsyncInv.
Local Open Scope monty_scope.

(** ** Running an operation *)

Definition wp {A} (m : AM A) (s : VM) (Q : A -> VM -> Prop) (R : RunError -> VM -> Prop) : Prop :=
  ensures m s Q (fun e s' => match e with Raise e => R e s' | Panicked p => p = TooLarge end).

Definition never : RunError -> VM -> Prop := fun _ _ => False.

Lemma wp_bind {A B} (m : AM A) (k : A -> AM B) s Q R :
  wp m s (fun a s' => wp (k a) s' Q R) R -> wp (sbind m k) s Q R.
Proof. apply ensures_bind. Qed.

Lemma wp_mono {A} (m : AM A) s (Q Q' : A -> VM -> Prop) (R R' : RunError -> VM -> Prop) :
  wp m s Q R -> (forall a s', Q a s' -> Q' a s') -> (forall e s', R e s' -> R' e s') -> wp m s Q' R'.
Proof. intros Hm HQ HR. eapply ensures_mono; [exact Hm|exact HQ|]. intros [e|p] s' He; [by apply HR|done]. Qed.

Lemma wp_ret {A} (a : A) s (Q : A -> VM -> Prop) R : Q a s -> wp (sret a) s Q R.
Proof. done. Qed.

Lemma wp_get s (Q : VM -> VM -> Prop) R : Q s s -> wp sget s Q R.
Proof. done. Qed.

Lemma wp_modify f s (Q : unit -> VM -> Prop) R : Q tt (f s) -> wp (smodify f) s Q R.
Proof. done. Qed.

Lemma wp_raise {A} e s (Q : A -> VM -> Prop) (R : RunError -> VM -> Prop) : R e s -> wp (raise e) s Q R.
Proof. done. Qed.

Lemma wp_expect {A} (o : option A) p a s (Q : A -> VM -> Prop) R : o = Some a -> Q a s -> wp (expect o p) s Q R.
Proof. by intros ->. Qed.

Lemma wp_attempt {A} (m : AM A) s (Q : result A RunError -> VM -> Prop) R :
  wp m s (fun a => Q (Ok a)) (fun e => Q (Err e)) -> wp (attempt m) s Q R.
Proof. unfold wp, ensures, attempt. by destruct (m s) as [[a|[e|p]] s']. Qed.

Lemma wp_assert (b : bool) s (Q : unit -> VM -> Prop) R : b = true -> Q tt s -> wp (debug_assert b) s Q R.
Proof. by intros ->. Qed.

(** ** References *)

Definition set_counts (c : gmap nat Z) (s : VM) : VM :=
  set_store (fun h => mkStore (objects h) (next_id h) c) s.

(** [m] only counts references. *)
Definition quiet (m : AM unit) : Prop := forall s, exists c, m s = (Ok tt, set_counts c s).

Lemma wp_quiet m s (Q : unit -> VM -> Prop) R : quiet m -> (forall c, Q tt (set_counts c s)) -> wp m s Q R.
Proof. intros Hm HQ. destruct (Hm s) as [c Hc]. unfold wp, ensures. by rewrite Hc. Qed.

Lemma quiet_ret : quiet (sret tt).
Proof. intros s. exists (counts (store s)). by destruct s as [? []]. Qed.

Lemma quiet_then m k : quiet m -> quiet k -> quiet (m ;;; k).
Proof.
  intros Hm Hk s. destruct (Hm s) as [c Hc]. destruct (Hk (set_counts c s)) as [c' Hc']. exists c'.
  unfold sbind. by rewrite Hc, Hc'.
Qed.

Lemma quiet_inc id : quiet (inc_ref id).
Proof. intros s. by eexists. Qed.
Lemma quiet_dec id : quiet (dec_ref id).
Proof. intros s. by eexists. Qed.

Create HintDb quiet discriminated.
#[export] Hint Resolve quiet_ret quiet_then quiet_inc quiet_dec : quiet.

Lemma quiet_for_each {A} (f : A -> AM unit) l : (forall x, quiet (f x)) -> quiet (for_each f l).
Proof. intros Hf. induction l; cbn; auto with quiet. Qed.
#[export] Hint Resolve quiet_for_each : quiet.

Lemma quiet_clone v : quiet (clone_value v).
Proof. destruct v; cbn; auto with quiet. Qed.
Lemma quiet_drop v : quiet (drop_value v).
Proof. destruct v; cbn; auto with quiet. Qed.
#[export] Hint Resolve quiet_clone quiet_drop : quiet.

Lemma quiet_drop_option v : quiet (drop_option v).
Proof. destruct v; cbn; auto with quiet. Qed.
Lemma quiet_drop_awaiter a : quiet (drop_awaiter a).
Proof. destruct a; cbn; auto with quiet. Qed.
Lemma quiet_drop_namespace n : quiet (drop_namespace n).
Proof. destruct n; cbn; auto with quiet. Qed.
Lemma quiet_drop_state st : quiet (drop_state st).
Proof. destruct st; cbn; auto with quiet. Qed.
#[export] Hint Resolve quiet_drop_option quiet_drop_awaiter quiet_drop_namespace quiet_drop_state : quiet.

Lemma quiet_drop_task t : quiet (drop_task t).
Proof.
  unfold drop_task. repeat apply quiet_then; auto with quiet.
  - destruct (coroutine_id t); auto with quiet.
  - destruct (awaiter t); auto with quiet.
Qed.
Lemma quiet_drop_commit c : quiet (drop_commit c).
Proof. unfold drop_commit. auto with quiet. Qed.
#[export] Hint Resolve quiet_drop_task quiet_drop_commit : quiet.

(** One step of an operation. *)
Ltac wp_step :=
  lazymatch goal with
  | |- wp (sbind _ _) _ _ _ => apply wp_bind
  | |- wp (sret _) _ _ _ => apply wp_ret
  | |- wp sget _ _ _ => apply wp_get
  | |- wp (smodify _) _ _ _ => apply wp_modify
  | |- wp (raise _) _ _ _ => apply wp_raise
  | |- wp (attempt _) _ _ _ => apply wp_attempt
  | |- wp (on_scheduler _) _ _ _ => apply wp_modify
  | |- wp (put_task _ _) _ _ _ => apply wp_modify
  | |- wp (put _ _) _ _ _ => apply wp_modify
  | |- wp (push _) _ _ _ => apply wp_modify
  | |- wp (set_current_task _) _ _ _ => apply wp_modify
  | |- wp _ _ _ _ => apply wp_quiet; [solve [auto with quiet]|intros ?]
  end.
Ltac wp_steps := repeat wp_step.

Lemma wp_read s id o (Q : Obj -> VM -> Prop) R : objects (store s) !! id = Some o -> Q o s -> wp (read id) s Q R.
Proof. intros Ho HQ. unfold read. wp_steps. by eapply wp_expect. Qed.

Lemma wp_read_gather s id g (Q : GatherFuture -> VM -> Prop) R :
  objects (store s) !! id = Some (OGather g) -> Q g s -> wp (read_gather id) s Q R.
Proof. intros Ho HQ. unfold read_gather. wp_step. by eapply wp_read. Qed.

Lemma wp_read_external s id f (Q : ExternalFuture -> VM -> Prop) R :
  objects (store s) !! id = Some (OExternal f) -> Q f s -> wp (read_external id) s Q R.
Proof. intros Ho HQ. unfold read_external. wp_step. by eapply wp_read. Qed.

Lemma wp_read_coroutine s id c (Q : Coroutine -> VM -> Prop) R :
  objects (store s) !! id = Some (OCoroutine c) -> Q c s -> wp (read_coroutine id) s Q R.
Proof. intros Ho HQ. unfold read_coroutine. wp_step. by eapply wp_read. Qed.

Lemma wp_get_task s id t (Q : Task -> VM -> Prop) R :
  tasks (scheduler s) !! id = Some t -> Q t s -> wp (get_task id) s Q R.
Proof. intros Ht HQ. unfold get_task. wp_steps. by eapply wp_expect. Qed.

Lemma wp_usize n s (Q : Z -> VM -> Prop) R : Q n s -> wp (usize n) s Q R.
Proof. intros HQ. unfold usize. by case_match. Qed.

(** ** Waking a task *)

Lemma contexts_put t k k' sc :
  contexts_ok sc -> tasks sc !! t = Some k -> frames k' = frames k ->
  (state k = Ready (Ok tt) -> state k' = Ready (Ok tt)) -> contexts_ok (put_tasks t k' sc).
Proof.
  intros [Hm Hc] Hk Hf Hs. split; [by apply put_tasks_alive|].
  intros x kx Hx Hcur Hfx. cbn in *. at_id; [|by apply Hc]. simplify_eq. rewrite Hf in Hfx.
  destruct (Hc _ k Hk Hcur Hfx). auto.
Qed.

(** The tasks and the loaded frame are left as they were. *)
Definition same_tasks (s s' : VM) : Prop := scheduler s' = scheduler s /\ current_frame s' = current_frame s.

(** What a delivery does besides waking. *)
Record delivered (s : VM) (r : option nat) (s' : VM) : Prop := {
  dl_current : current_task (scheduler s') = current_task (scheduler s);
  dl_frame : current_frame s' = current_frame s;
  dl_size : size (tasks (scheduler s')) = size (tasks (scheduler s));
  dl_woken : forall w, r = Some w -> w ∈ ready_queue (scheduler s');
  dl_free : forall t k, tasks (scheduler s) !! t = Some k -> awaiter k = None ->
    exists k', tasks (scheduler s') !! t = Some k' /\ awaiter k' = None }.

Lemma delivered_nothing s s' : same_tasks s s' -> delivered s None s'.
Proof. intros [E1 E2]. split; rewrite ?E1; eauto; done. Qed.

Lemma delivered_before s s1 r s' : same_tasks s s1 -> delivered s1 r s' -> delivered s r s'.
Proof. intros [E1 E2] []. rewrite E1, E2 in *. by split. Qed.

Lemma good_put_context opens hand runs s t k k' :
  good opens hand runs s -> tasks (scheduler s) !! t = Some k -> task_id k' = task_id k ->
  coroutine_id k' = coroutine_id k -> awaiter k' = awaiter k -> frames k' = frames k ->
  (state k' = state k \/ (exists r, state k = Ready r) /\ state k' = Ready (Ok tt)) ->
  good opens hand runs (set_scheduler (put_tasks t k') s).
Proof.
  intros [Hinv Hctx] Hk Hid Hco Haw Hfr Hst. split.
  - eapply inv_put_context; try done. destruct Hst as [?|[[r ?] ?]]; [by left|right; eauto].
  - eapply contexts_put; try done. destruct Hst as [->|[_ ->]]; done.
Qed.

(** A task's record replaced by another with the same awaiter. *)
Lemma free_put (ts : gmap nat Task) t k k' x kx :
  ts !! t = Some k -> awaiter k' = awaiter k -> ts !! x = Some kx -> awaiter kx = None ->
  exists kx', <[t := k']> ts !! x = Some kx' /\ awaiter kx' = None.
Proof.
  intros Hk Haw Hx Hn. destruct (decide (x = t)) as [->|Hne].
  - exists k'. rewrite lookup_insert_eq. simplify_eq. split; [done|congruence].
  - exists kx. by rewrite lookup_insert_ne.
Qed.

Lemma make_ready_ok opens runs s t k b r :
  good opens (Some (TaskAwaiter t)) runs s -> tasks (scheduler s) !! t = Some k -> state k = Blocked b ->
  wp (make_ready t r) s (fun _ s' => good opens None runs s' /\ delivered s (Some t) s') never.
Proof.
  intros [Hinv Hctx] Hk Hb. unfold make_ready.
  wp_step. eapply wp_get_task; [done|]. wp_step. apply wp_assert; [by rewrite Hb|].
  wp_steps. split; [split|].
  - pose proof (inv_make_ready _ _ _ _ _ t k (set_state (Ready r) k) b r Hinv Hk Hb eq_refl eq_refl eq_refl eq_refl) as Hi.
    exact Hi.
  - assert (state k = Ready (Ok tt) -> Ready r = Ready (Ok tt)) as Hst by (rewrite Hb; done).
    exact (contexts_put t k (set_state (Ready r) k) (scheduler s) Hctx Hk eq_refl Hst).
  - split; cbn; [done|done| | |].
    + by rewrite map_size_insert_Some by eauto.
    + intros w [= <-]. apply elem_of_app. right. by apply list_elem_of_singleton.
    + intros x kx. by apply free_put with k.
Qed.

Lemma good_drop_hand opens runs s a :
  good opens (Some a) runs s ->
  (forall t k id, a = TaskAwaiter t -> tasks (scheduler s) !! t = Some k -> state k <> Blocked id) ->
  (forall g c, a = GatherSlot g c -> opens !! g = None /\ gather_settled (objects (store s)) g) ->
  good opens None runs s.
Proof. intros [Hinv Hctx] Hno Hset. split; [by eapply inv_drop_hand|done]. Qed.

Section Safe.
Context `{KeyOrder} `{Interns} `{Tracker}.

Lemma not_blocked opens runs s t :
  good opens (Some (TaskAwaiter t)) runs s -> is_blocked t (scheduler s) = false -> good opens None runs s.
Proof.
  intros Hg Hb. eapply good_drop_hand; [done| |done]. intros x k id [= <-] Hk Hs. unfold is_blocked in Hb.
  by rewrite Hk, Hs in Hb.
Qed.

Lemma blocked_task t s : is_blocked t (scheduler s) = true ->
  exists k b, tasks (scheduler s) !! t = Some k /\ state k = Blocked b.
Proof.
  unfold is_blocked. destruct (tasks (scheduler s) !! t) as [k|]; [|done].
  destruct (state k) as [|b] eqn:E; [done|eauto].
Qed.

Lemma deliver_value_ok opens runs s t v :
  good opens (Some (TaskAwaiter t)) runs s ->
  wp (deliver_value_to_task t v) s (fun r s' => good opens None runs s' /\ delivered s r s') never.
Proof.
  intros Hg. unfold deliver_value_to_task. wp_steps. destruct (is_blocked t (scheduler s)) eqn:Hb.
  - destruct (blocked_task t s Hb) as (k & b & Hk & Hs). wp_step.
    destruct (context_is_loaded t s).
    + wp_steps. eapply wp_mono; [by eapply (make_ready_ok opens runs)| |done].
      intros _ s' [Hg' Hd]. wp_steps. split; [done|]. by eapply delivered_before; [|exact Hd].
    + wp_step. eapply wp_get_task; [done|]. wp_steps.
      eapply wp_mono; [eapply (make_ready_ok opens runs)| |done].
      * eapply good_put_context; try done. by left.
      * cbn. by rewrite lookup_insert_eq.
      * done.
      * intros _ s' [Hg' [D1 D4 D2 D3 D5]]. wp_steps. split; [done|]. split; [done|done| |done|].
        -- rewrite D2. cbn. by rewrite map_size_insert_Some by eauto.
        -- intros x kx Hx Hn.
           destruct (free_put _ t k (set_context (frames k) (task_stack k ++ [v]) (task_exceptions k) (task_ip k) k) x kx Hk eq_refl Hx Hn)
             as (kx' & Hx' & Hn'). by apply (D5 x kx').
  - wp_steps. split; [|by apply delivered_nothing]. by apply (not_blocked opens runs s t).
Qed.

(** ** A child's result *)

Lemma fill_slots_runs v idxs rs s :
  NoDup idxs -> (forall i, i ∈ idxs -> i < length rs) ->
  exists rs' c, fill_slots v idxs rs s = (Ok rs', set_counts c s) /\ length rs' = length rs
    /\ forall i, rs' !! i = if decide (i ∈ idxs) then Some (Some v) else rs !! i.
Proof.
  assert (forall s, s = set_counts (counts (store s)) s) as Hs by by intros [? []].
  revert rs s. induction idxs as [|i [|j idxs] IH]; intros rs s Hnd Hlt; cbn [fill_slots].
  - destruct (quiet_drop v s) as [c Hc]. exists rs, c. unfold sbind. rewrite Hc. split_and!; [done..|].
    intros i. by rewrite decide_False by apply not_elem_of_nil.
  - unfold store_result. destruct (Nat.ltb_spec i (length rs)); [|specialize (Hlt i ltac:(by left)); lia].
    eexists _, (counts (store s)). rewrite <- Hs, length_insert. split_and!; [done..|]. intros x.
    destruct (decide (x = i)) as [->|Hne].
    + rewrite decide_True by by left. by apply list_lookup_insert_eq.
    + rewrite decide_False by (rewrite list_elem_of_singleton; done). by apply list_lookup_insert_ne.
  - destruct (quiet_clone v s) as [c Hc]. unfold sbind at 1. rewrite Hc. unfold store_result.
    destruct (Nat.ltb_spec i (length rs)); [|specialize (Hlt i ltac:(by left)); lia].
    apply NoDup_cons in Hnd as [Hi Hnd].
    destruct (IH (<[i := Some v]> rs) (set_counts c s)) as (rs' & c' & E & Hlen & Hval); [done| |].
    { intros x Hx. rewrite length_insert. apply Hlt. by right. }
    exists rs', c'. split; [exact E|]. rewrite length_insert in Hlen. split; [done|].
    intros x. rewrite Hval. destruct (decide (x = i)) as [->|Hne].
    + rewrite decide_False by exact Hi. rewrite decide_True by by left. by apply list_lookup_insert_eq.
    + rewrite list_lookup_insert_ne by done.
      destruct (decide (x ∈ j :: idxs)); [rewrite decide_True by by right|rewrite decide_False]; try done.
      by intros [?|?]%elem_of_cons.
Qed.

Lemma fill_slots_ok v idxs rs s :
  NoDup idxs -> (forall i, i ∈ idxs -> i < length rs) ->
  wp (fill_slots v idxs rs) s
    (fun rs' s' => (exists c, s' = set_counts c s) /\ length rs' = length rs
       /\ forall i, rs' !! i = if decide (i ∈ idxs) then Some (Some v) else rs !! i) never.
Proof.
  intros Hnd Hlt. destruct (fill_slots_runs v idxs rs s Hnd Hlt) as (rs' & c & E & ?). unfold wp, ensures. rewrite E.
  split; [by exists c|done].
Qed.

Lemma awaited_fill its n aw c idxs rs v a :
  awaited_ok its n aw -> pending_children aw !! c = Some idxs -> length rs = length (results aw) ->
  (forall i, rs !! i = if decide (i ∈ idxs) then Some (Some v) else results aw !! i) ->
  awaited_ok its n (mkAwaited a (delete c (pending_children aw)) rs).
Proof.
  intros Hok Hc Hlen Hrs. split; cbn.
  - by rewrite Hlen, (ao_length _ _ _ Hok).
  - intros d ds [Hne Hd]%lookup_delete_Some. destruct (ao_slots _ _ _ Hok d ds Hd) as (? & ? & Hi).
    split_and!; [done..|]. intros i Hin. destruct (Hi i Hin) as (? & Hit & ?). split_and!; [done..|].
    rewrite Hrs, decide_False; [done|]. intros Hic.
    destruct (ao_slots _ _ _ Hok c idxs Hc) as (_ & _ & Hi'). destruct (Hi' i Hic) as (_ & Hit' & _). congruence.
  - intros i Hlt Hn. rewrite Hrs in Hn. case_decide; [done|].
    destruct (ao_empty _ _ _ Hok i Hlt Hn) as (d & ds & Hd & Hin). exists d, ds. split; [|done].
    rewrite lookup_delete_ne; [done|]. intros ->. by simplify_eq.
Qed.

(** When no child is pending every slot is filled. *)
Lemma awaited_full its aw :
  awaited_ok its (length its) aw -> pending_children aw = ∅ ->
  exists vs, mapM id (results aw) = Some vs /\ length vs = length its.
Proof.
  intros Hok He. destruct (mapM id (results aw)) as [vs|] eqn:E.
  - exists vs. split; [done|]. apply length_mapM in E. rewrite <- E. apply (ao_length _ _ _ Hok).
  - exfalso. apply mapM_None_1 in E. apply Exists_exists in E as (o & Ho & E). unfold id in E. subst o.
    apply list_elem_of_lookup in Ho as [i Hi].
    assert (i < length its).
    { rewrite <- (ao_length _ _ _ Hok). by eapply lookup_lt_Some. }
    destruct (ao_empty _ _ _ Hok i) as (c & idxs & Hc & _); [done|exact Hi|].
    by rewrite He, lookup_empty in Hc.
Qed.

Definition gathers_below (n : nat) (s : VM) : Prop := forall g gf, objects (store s) !! g = Some (OGather gf) -> g < n.

(** What a gather hands on: nothing, or its awaiter, which is further up the chain. *)
Definition handed_on (runs : option nat) (n g : nat) (s : VM) (a : option Awaiter) (s' : VM) : Prop :=
  good ∅ a runs s' /\ same_tasks s s' /\ gathers_below n s'
  /\ forall p c, a = Some (GatherSlot p c) -> g < p.

Lemma good_set_counts opens hand runs s c : good opens hand runs s -> good opens hand runs (set_counts c s).
Proof. done. Qed.

Lemma slot_gather opens objs g c : slot_ok opens objs g c ->
  exists gf, objs !! g = Some (OGather gf) /\ c ∈ items gf
    /\ (opens !! g = None ->
        settled (ga_state gf) = true \/ exists aw, ga_state gf = GatherAwaited aw /\ is_Some (pending_children aw !! c)).
Proof.
  intros [(gf & Hg & Hc) Hs]. exists gf. split_and!; [done..|]. intros Hop.
  destruct Hs as [(pc & He & Hin)|(gf' & Hg' & ?)]; [|left; congruence]. right. unfold expected in He.
  rewrite Hop, Hg in He. unfold as_awaited in He. destruct (ga_state gf) as [|aw| |]; try done.
  injection He as <-. eauto.
Qed.

Lemma settle_handed runs n g gf aw st s c :
  good ∅ (Some (GatherSlot g c)) runs s -> gathers_below n s -> objects (store s) !! g = Some (OGather gf) ->
  ga_state gf = GatherAwaited aw -> settled st = true ->
  handed_on runs n g s (Some (aw_awaiter aw))
    (set_store (fun h => mkStore (<[g := OGather (set_ga_state st gf)]> (objects h)) (next_id h) (counts h)) s).
Proof.
  intros Hg Hb Hgf Haw Hst. pose proof Hg as [Hinv Hctx]. split_and!.
  - split; [by eapply inv_settle_gather|done].
  - done.
  - intros x gx Hx. cbn in Hx. at_id; eauto.
  - intros p d [= Hp]. destruct Hinv as [_ Hsto Hl].
    destruct (lk_slot _ _ _ _ Hl g (OGather gf) p d Hgf) as [-> Hok]; [cbn; by rewrite Haw, Hp|].
    by destruct (slot_ok_item _ _ _ _ _ Hsto Hok).
Qed.

Lemma handed_on_ext runs n g s0 s1 a s s' :
  same_tasks s0 s1 ->
  objects (store s') = objects (store s) /\ next_id (store s') = next_id (store s) -> same_tasks s s' ->
  handed_on runs n g s1 a s -> handed_on runs n g s0 a s'.
Proof.
  intros [E0 F0] [Eo En] [Es Fs] [[Hg Hc] ([E1 F1] & E2 & E3)]. split_and!.
  - split; by rewrite ?Eo, ?En, ?Es.
  - split; congruence.
  - unfold gathers_below. by rewrite Eo.
  - done.
Qed.

Lemma resolve_child_ok runs n s g c v :
  good ∅ (Some (GatherSlot g c)) runs s -> gathers_below n s ->
  wp (resolve_child g c v) s (fun r s' => handed_on runs n g s (snd <$> r) s') never.
Proof.
  intros Hg Hb. pose proof Hg as [[Hsc Hst Hl] Hctx].
  destruct (slot_gather _ _ _ _ (proj1 (lk_hand _ _ _ _ Hl))) as (gf & Hgf & Hc & Hs).
  assert (settled (ga_state gf) = true -> forall c, handed_on runs n g s None (set_counts c s)) as Hnone.
  { intros Hset c'. split_and!; [|done|done|done]. apply (good_drop_hand ∅ runs s (GatherSlot g c)); [done|done|].
      intros ? ? [= <- <-]. split; [by rewrite lookup_empty|by exists gf]. }
  unfold resolve_child. wp_step. eapply wp_read_gather; [done|].
  destruct (Hs (lookup_empty _)) as [Hset|(aw & Haw & idxs & Hidxs)].
  { destruct (ga_state gf); try done; wp_steps; by apply Hnone. }
  rewrite Haw. wp_step. eapply wp_expect; [done|]. wp_step.
  destruct (st_awaited _ _ _ Hst g gf aw Hgf Haw) as [Hok Hne].
  destruct (ao_slots _ _ _ Hok c idxs Hidxs) as (_ & Hnd & Hin).
  eapply wp_mono; [apply fill_slots_ok; [done|]| |done].
  { intros i Hi. destruct (Hin i Hi) as (_ & _ & E). by eapply lookup_lt_Some. }
  intros rs s1 ((c1 & ->) & Hlen & Hrs).
  pose proof (awaited_fill _ _ _ _ _ _ _ (aw_awaiter aw) Hok Hidxs Hlen Hrs) as Hok'.
  wp_steps. case_decide as Hd.
  2:{ wp_steps. split_and!; [|done| |done].
      - split; [by apply (inv_resolve_partial _ _ _ _ _ g c)|done].
      - intros x gx Hx. cbn in Hx. at_id; eauto. }
  destruct (awaited_full _ _ Hok') as (vs & Hvs & _); [done|]. cbn in Hvs.
  unfold all_filled, allocate, cache_result. wp_step. eapply wp_expect; [done|]. wp_steps. cbn. wp_steps.
  assert (g <> next_id (store s)) as Hgn.
  { intros E. assert (g < next_id (store s)); [|lia]. apply (st_dom _ _ _ Hst). by eexists. }
  eapply wp_read_gather.
  { cbn. rewrite lookup_insert_ne by done. by rewrite lookup_insert_eq. }
  wp_steps.
  set (gf' := OGather (mkGather (items gf) (GatherCompleted (VRef (next_id (store s)))))).
  set (s1 := set_store (fun h => mkStore (<[next_id h := OList vs]> (objects h)) (S (next_id h)) (counts h)) s).
  assert (handed_on runs n g s1 (Some (aw_awaiter aw))
            (set_store (fun h => mkStore (<[g := gf']> (objects h)) (next_id h) (counts h)) s1)) as Hf.
  { apply (settle_handed _ _ _ gf _ _ _ c); try done.
    - split; [|done]. by apply inv_alloc.
    - intros x gx Hx. cbn in Hx. at_id; [done|eauto].
    - cbn. by rewrite lookup_insert_ne by done. }
  eapply handed_on_ext; [| | |exact Hf]; [done| |done].
  split; [|done]. cbn. apply map_eq. intros i. destruct (decide (i = g)) as [->|Hig]; [by rewrite !lookup_insert_eq|].
  rewrite !(lookup_insert_ne _ g i) by done. destruct (decide (i = next_id (store s))) as [->|Hin'].
  - by rewrite !lookup_insert_eq.
  - by rewrite !lookup_insert_ne by done.
Qed.

Lemma fail_ok runs n s g c e :
  good ∅ (Some (GatherSlot g c)) runs s -> gathers_below n s ->
  wp (fail g e) s (fun r s' => handed_on runs n g s r s') never.
Proof.
  intros Hg Hb. pose proof Hg as [[Hsc Hst Hl] Hctx].
  destruct (slot_gather _ _ _ _ (proj1 (lk_hand _ _ _ _ Hl))) as (gf & Hgf & Hc & Hs).
  unfold fail. wp_step. eapply wp_read_gather; [done|].
  destruct (Hs (lookup_empty _)) as [Hset|(aw & Haw & _)].
  - assert (handed_on runs n g s None s) as Hnone.
    { split_and!; [|done|done|done]. apply (good_drop_hand ∅ runs s (GatherSlot g c)); [done|done|].
      intros ? ? [= <- <-]. split; [by rewrite lookup_empty|by exists gf]. }
    destruct (ga_state gf); try done; by wp_steps.
  - rewrite Haw. wp_steps. by apply (settle_handed runs n g gf aw (GatherFailed e) s c).
Qed.

(** ** Delivery *)

(** How many gathers above the awaiter a chain can still reach. *)
Definition chain_bound (n : nat) (a : Awaiter) : nat := match a with TaskAwaiter _ => 0 | GatherSlot g _ => n - g end.

Lemma hand_below opens runs n s g c :
  good opens (Some (GatherSlot g c)) runs s -> gathers_below n s -> g < n.
Proof.
  intros [[_ _ Hl] _] Hb. destruct (slot_gather _ _ _ _ (proj1 (lk_hand _ _ _ _ Hl))) as (gf & Hgf & _). eauto.
Qed.

Lemma deliver_success_ok runs n fuel a v s :
  good ∅ (Some a) runs s -> gathers_below n s -> chain_bound n a <= fuel ->
  wp (deliver_success fuel a v) s (fun r s' => good ∅ None runs s' /\ delivered s r s') never.
Proof.
  revert a v s. induction fuel as [|fuel IH]; intros [t|g c] v s Hg Hb Hf; cbn [deliver_success];
    try by apply deliver_value_ok.
  - pose proof (hand_below _ _ _ _ _ _ Hg Hb). cbn in Hf. lia.
  - pose proof (hand_below _ _ _ _ _ _ Hg Hb) as Hlt. cbn in Hf. wp_step.
    eapply wp_mono; [by apply (resolve_child_ok runs n)| |done].
    intros [[l a]|] s1 Hh; wp_steps; destruct Hh as (Hg1 & Hs1 & Hb1 & Hp); cbn in *.
    + eapply wp_mono; [apply IH; [exact Hg1|exact Hb1|]| |done].
      * destruct a as [t|p d]; cbn; [lia|]. specialize (Hp p d eq_refl). lia.
      * intros r s' [Hg' Hd]. split; [done|]. by eapply delivered_before; [|exact Hd].
    + split; [done|]. by apply delivered_nothing.
Qed.

Lemma deliver_failure_ok runs n fuel a e s :
  good ∅ (Some a) runs s -> gathers_below n s -> chain_bound n a <= fuel ->
  wp (deliver_failure fuel a e) s (fun r s' => good ∅ None runs s' /\ delivered s r s') never.
Proof.
  revert a s. induction fuel as [|fuel IH]; intros [t|g c] s Hg Hb Hf; cbn [deliver_failure].
  1,3: wp_steps; destruct (is_blocked t (scheduler s)) eqn:Hbl;
    [|wp_steps; split; [by eapply not_blocked|by apply delivered_nothing]];
    destruct (blocked_task t s Hbl) as (k & b & Hk & Hst); wp_step;
    (eapply wp_mono; [by eapply (make_ready_ok ∅ runs)| |done]); intros _ s' [? ?]; by wp_steps.
  - pose proof (hand_below _ _ _ _ _ _ Hg Hb). cbn in Hf. lia.
  - pose proof (hand_below _ _ _ _ _ _ Hg Hb) as Hlt. cbn in Hf. wp_step.
    eapply wp_mono; [by apply (fail_ok runs n _ g c)| |done].
    intros [a|] s1 (Hg1 & Hs1 & Hb1 & Hp); wp_steps; cbn in *.
    + eapply wp_mono; [apply IH; [exact Hg1|exact Hb1|]| |done].
      * destruct a as [t|p d]; cbn; [lia|]. specialize (Hp p d eq_refl). lia.
      * intros r s' [Hg' Hd]. split; [done|]. by eapply delivered_before; [|exact Hd].
    + split; [done|]. by apply delivered_nothing.
Qed.

Lemma store_gathers_below opens hand runs s : good opens hand runs s -> gathers_below (next_id (store s)) s.
Proof. intros [[_ Hst _] _] g gf Hg. apply (st_dom _ _ _ Hst). by eexists. Qed.

Lemma chain_bound_le n a : chain_bound n a <= S n.
Proof. destruct a; cbn; lia. Qed.

Lemma deliver_awaiter_success_ok runs a v s :
  good ∅ (Some a) runs s ->
  wp (deliver_awaiter_success a v) s (fun r s' => good ∅ None runs s' /\ delivered s r s') never.
Proof.
  intros Hg. unfold deliver_awaiter_success. wp_steps.
  eapply deliver_success_ok; [done|by eapply store_gathers_below|apply chain_bound_le].
Qed.

Lemma deliver_awaiter_failure_ok runs a e s :
  good ∅ (Some a) runs s ->
  wp (deliver_awaiter_failure a e) s (fun r s' => good ∅ None runs s' /\ delivered s r s') never.
Proof.
  intros Hg. unfold deliver_awaiter_failure. wp_steps.
  eapply deliver_failure_ok; [done|by eapply store_gathers_below|apply chain_bound_le].
Qed.

(** ** Results from the host *)

Lemma no_pending sc call : pending_externals sc !! call = None -> set_pending (delete call (pending_externals sc)) sc = sc.
Proof. intros E. destruct sc. unfold set_pending. cbn in *. by rewrite delete_id. Qed.

Lemma pending_future opens hand runs s call f :
  good opens hand runs s -> pending_externals (scheduler s) !! call = Some f ->
  exists ex a, objects (store s) !! f = Some (OExternal ex) /\ ex_state ex = Pending a.
Proof.
  intros [[_ _ Hl] _] Hp. destruct (proj1 (lk_pending _ _ _ _ Hl call f) Hp) as (o & Ho & Hc).
  destruct o as [|ex| | |]; try done. cbn in Hc. destruct (ex_state ex) as [a| |] eqn:E; try done. eauto.
Qed.

(** The machine once the future [f] of [call] has settled. *)
Definition settle_future (call f : nat) (o : Obj) (s : VM) : VM :=
  set_store (fun h => mkStore (<[f := o]> (objects h)) (next_id h) (counts h))
    (set_scheduler (fun sc => set_pending (delete call (pending_externals sc)) sc) s).

Lemma settle_future_good runs s call f ex a st :
  good ∅ None runs s -> pending_externals (scheduler s) !! call = Some f ->
  objects (store s) !! f = Some (OExternal ex) -> ex_state ex = Pending a -> (forall b, st <> Pending b) ->
  good ∅ a runs (settle_future call f (OExternal (mkExternal (call_id ex) st None)) s).
Proof. intros [Hinv Hctx] Hp Hf Hx Hst. split; [|done]. by eapply inv_settle_external. Qed.

(** What the host's calls keep. *)
Definition host_ok (runs : option nat) (s s' : VM) : Prop :=
  good ∅ None runs s' /\ current_task (scheduler s') = current_task (scheduler s) /\ current_frame s' = current_frame s.

Lemma resolve_future_ok runs call v s :
  good ∅ None runs s -> wp (resolve_future call v) s (fun _ s' => host_ok runs s s') never.
Proof.
  intros Hg. unfold resolve_future, take_pending_external. wp_steps.
  destruct (pending_externals (scheduler s) !! call) as [f|] eqn:Hp.
  2:{ wp_steps. unfold host_ok, good. cbn. by rewrite no_pending. }
  destruct (pending_future _ _ _ _ _ _ Hg Hp) as (ex & a & Hf & Hx).
  wp_step. eapply wp_read_external; [exact Hf|]. wp_steps.
  assert (forall w s1, scheduler s1 = set_pending (delete call (pending_externals (scheduler s))) (scheduler s) ->
    objects (store s1) = <[f := OExternal (set_sleep_result None ex)]> (objects (store s)) ->
    next_id (store s1) = next_id (store s) -> current_frame s1 = current_frame s ->
    wp (do a <- match ex_state ex with
                | Pending (Some a) => clone_value w ;;; sret (Some a)
                | Pending None => sret None
                | Resolved _ | Failed _ => panic AlreadyResolved
                end ;;
        put f (OExternal (mkExternal (call_id ex) (Resolved w) None)) ;;;
        match a with
        | Some a => do _ <- deliver_awaiter_success a w ;; sret tt
        | None => sret tt
        end ;;;
        dec_ref f) s1 (fun _ s' => host_ok runs s s') never) as Hrest.
  { intros w s1 E1 E2 E3 E4. rewrite Hx.
    assert (good ∅ a runs (set_store (fun h => mkStore (<[f := OExternal (mkExternal (call_id ex) (Resolved w) None)]> (objects h)) (next_id h) (counts h)) s1)) as Hg1.
    { pose proof (settle_future_good runs s call f ex a (Resolved w) Hg Hp Hf Hx) as Hs.
      unfold good in *. cbn in *. rewrite E1, E2, E3, insert_insert_eq. by apply Hs. }
    assert (current_task (scheduler s1) = current_task (scheduler s)) as Hc1 by by rewrite E1.
    wp_step. destruct a as [a|]; wp_steps; [|by split_and!].
    eapply wp_mono; [apply (deliver_awaiter_success_ok runs); exact Hg1| |done].
    intros r s' [Hg' Hd]. wp_steps. destruct Hd as [D1 D2 _ _]. split; [done|]. cbn in D1, D2 |- *. split; congruence. }
  destruct (sleep_result ex) as [r|]; [do 3 wp_step|wp_step]; by apply Hrest.
Qed.

Lemma fail_future_ok runs call e s :
  good ∅ None runs s -> wp (fail_future call e) s (fun _ s' => host_ok runs s s') never.
Proof.
  intros Hg. unfold fail_future, take_pending_external. wp_steps.
  destruct (pending_externals (scheduler s) !! call) as [f|] eqn:Hp.
  2:{ wp_steps. unfold host_ok, good. cbn. by rewrite no_pending. }
  destruct (pending_future _ _ _ _ _ _ Hg Hp) as (ex & a & Hf & Hx).
  pose proof (settle_future_good runs s call f ex a (Failed e) Hg Hp Hf Hx ltac:(done)) as Hg1.
  wp_step. eapply wp_read_external; [exact Hf|]. rewrite Hx. destruct a as [a|]; wp_steps; [|by split_and!].
  eapply wp_mono; [apply (deliver_awaiter_failure_ok runs); exact Hg1| |done].
  intros r s' [Hg' Hd]. wp_steps. destruct Hd as [D1 D2 _ _]. split; [done|]. cbn in D1, D2 |- *. split; congruence.
Qed.

Lemma apply_future_results_ok runs rs s :
  good ∅ None runs s ->
  wp (apply_future_results rs) s (fun _ s' => host_ok runs s s')
    (fun e s' => host_ok runs s s' /\ exists call, (call, ExtReturn (Err e)) ∈ rs).
Proof.
  revert s. induction rs as [|[call r] rs IH]; intros s Hg; cbn [apply_future_results]; [by wp_steps|].
  assert (forall s', host_ok runs s s' ->
    wp (apply_future_results rs) s' (fun _ s' => host_ok runs s s')
      (fun e s' => host_ok runs s s' /\ exists call0, (call0, ExtReturn (Err e)) ∈ (call, r) :: rs)) as Hrest.
  { intros s' (Hg' & Hc' & Hf'). eapply wp_mono; [by apply IH| |].
    - intros _ s'' (? & ? & ?). split; [done|split; congruence].
    - intros e s'' ((? & ? & ?) & call0 & ?). split; [split; [done|split; congruence]|]. exists call0. by right. }
  apply wp_bind. destruct r as [[v|e]|e|c|e|e].
  - eapply wp_mono; [by apply (resolve_future_ok runs)| |done]. intros [] s'. apply Hrest.
  - wp_steps. split; [by split_and!|]. exists call. by left.
  - eapply wp_mono; [by apply (fail_future_ok runs)| |done]. intros [] s'. apply Hrest.
  - wp_steps. by apply Hrest.
  - eapply wp_mono; [by apply (fail_future_ok runs)| |done]. intros [] s'. apply Hrest.
  - eapply wp_mono; [by apply (fail_future_ok runs)| |done]. intros [] s'. apply Hrest.
Qed.

(** ** Ending a task *)

Definition same_core (s s' : VM) : Prop :=
  scheduler s' = scheduler s /\ objects (store s') = objects (store s) /\ next_id (store s') = next_id (store s).

Lemma good_same_core opens hand runs s s' : same_core s s' -> good opens hand runs s -> good opens hand runs s'.
Proof. intros (E1 & E2 & E3). unfold good. by rewrite E1, E2, E3. Qed.

Lemma cancel_one_runs id pending pending' s k :
  tasks (scheduler s) !! id = Some k ->
  (forall s1, s1 = set_scheduler (without id k) s ->
     match state k with Blocked b => queue_gather_tasks b pending | Ready _ => sret pending end s1 = (Ok pending', s1)) ->
  exists c, cancel_one id pending s = (Ok pending', set_counts c (set_scheduler (without id k) s)).
Proof.
  intros Hk Hq. specialize (Hq _ eq_refl). unfold cancel_one, sbind at 1, sget. rewrite Hk.
  destruct (quiet_drop_task k (set_scheduler (without id k) s)) as [c Hc]. exists c.
  set (m := match state k with Blocked b => queue_gather_tasks b pending | Ready _ => sret pending end) in *. clearbody m.
  unfold remove_from_ready_queue, on_scheduler, sbind, smodify, sret in *.
  assert (forall f g s, set_scheduler f (set_scheduler g s) = set_scheduler (fun x => f (g x)) s) as Hs by done.
  destruct (coroutine_id k) as [co|] eqn:Hco; rewrite !Hs;
    (match goal with |- context [m ?x] => replace x with (set_scheduler (without id k) s) end;
     [by rewrite Hq, Hc|]); unfold set_scheduler, without; rewrite Hco; by case_decide.
Qed.

Lemma cancel_one_ready id pending s k r :
  tasks (scheduler s) !! id = Some k -> state k = Ready r ->
  exists c, cancel_one id pending s = (Ok pending, set_counts c (set_scheduler (without id k) s)).
Proof. intros Hk Hr. apply (cancel_one_runs id pending pending s k Hk). by rewrite Hr. Qed.

Lemma cancel_ready s id k r :
  tasks (scheduler s) !! id = Some k -> state k = Ready r ->
  exists c, cancel_task id s = (Ok tt, set_counts c (set_scheduler (without id k) s)).
Proof.
  intros Hk Hr. destruct (cancel_one_ready id [] s k r Hk Hr) as [c Hc]. exists c. unfold cancel_task.
  rewrite (iterate_enough _ 2 _ _ (Ok tt, set_counts c (set_scheduler (without id k) s))); [done|cbn [run_steps cancel_step]; by rewrite Hc|].
  unfold cancel_fuel. nia.
Qed.

Lemma good_without opens hand runs s id k :
  good opens hand runs s -> tasks (scheduler s) !! id = Some k -> awaiter k = None -> id <> main_id ->
  good opens hand (unless id runs) (set_scheduler (without id k) s).
Proof.
  intros [[Hsc Hst Hl] Hctx] Hk Haw Hid. split.
  - split; [by apply sched_without|done|by apply links_without].
  - change (scheduler (set_scheduler (without id k) s)) with (without id k (scheduler s)). split.
    { without_fields id k (scheduler s). rewrite lookup_delete_ne by done. apply (cx_main _ Hctx). }
    intros x kx. without_fields id k (scheduler s). intros Hm Hcur. apply lookup_delete_Some in Hm as [Hne Hm].
    apply (cx_new _ Hctx x kx Hm). intros E. rewrite E in Hcur. rewrite decide_False in Hcur by congruence. done.
Qed.

Lemma wp_core {A} (m : AM A) s (Q : A -> VM -> Prop) R :
  (exists a s', m s = (Ok a, s') /\ same_core s s' /\ Q a s') -> wp m s Q R.
Proof. intros (a & s' & Hm & _ & HQ). unfold wp, ensures. by rewrite Hm. Qed.

Lemma cleanup_current_ok s (Q : unit -> VM -> Prop) R :
  (forall s', same_core s s' -> is_parked (current_frame s') = true -> Q tt s') -> wp cleanup_current_task s Q R.
Proof. intros HQ. unfold cleanup_current_task. wp_steps. by apply HQ. Qed.

Lemma save_context_ok s id k (Q : unit -> VM -> Prop) R :
  tasks (scheduler s) !! id = Some k ->
  (forall k' s', task_id k' = task_id k -> coroutine_id k' = coroutine_id k -> awaiter k' = awaiter k ->
     state k' = state k -> frames k' <> [] -> scheduler s' = put_tasks id k' (scheduler s) ->
     store s' = store s -> Q tt s') ->
  wp (save_task_context id) s Q R.
Proof.
  intros Hk HQ. unfold save_task_context. do 2 wp_step. wp_step. apply wp_usize. wp_steps. eapply wp_get_task; [done|]. wp_steps.
  eapply HQ; [..|done|done]; try done. cbn. by destruct (map saved (suspended_frames s)).
Qed.

(** ** Loading a task *)

Lemma stack_index_ok i s (Q : Z -> VM -> Prop) R : Q i s -> wp (stack_index i) s Q R.
Proof. intros HQ. unfold stack_index. by case_match. Qed.

Lemma loaded_frames_ok fs s (Q : list CallFrame -> VM -> Prop) R :
  (forall cs, length cs = length fs -> Forall (fun c => is_parked c = false) cs -> Q cs s) ->
  wp (loaded_frames fs) s Q R.
Proof.
  revert Q. induction fs as [|f fs IH]; intros Q HQ; cbn; [wp_steps; by apply HQ|].
  wp_step. unfold loaded_frame. wp_step. apply stack_index_ok. wp_step. apply stack_index_ok. wp_steps.
  apply IH. intros cs Hlen Hall. wp_steps. apply HQ; [by cbn; rewrite Hlen|by constructor].
Qed.

(** The task [t] has taken its resume result. *)
Definition resumed (t : nat) (s : VM) : Prop := exists k, tasks (scheduler s) !! t = Some k /\ state k = Ready (Ok tt).

(** The task [t] runs, with its context loaded. *)
Definition running (t : nat) (s : VM) : Prop :=
  good ∅ None (Some t) s /\ current_task (scheduler s) = Some t /\ is_parked (current_frame s) = false /\ resumed t s.

(** No task can run, and the frame is parked. *)
Definition stopped (s : VM) : Prop :=
  good ∅ None None s /\ current_task (scheduler s) = None /\ is_parked (current_frame s) = true.

Definition some_running (s : VM) : Prop := exists t, running t s.

Lemma init_task_ok s t c co :
  good ∅ None (Some t) s -> current_task (scheduler s) = Some t -> objects (store s) !! c = Some (OCoroutine co) ->
  co_state co = New -> resumed t s ->
  wp (init_task_from_coroutine c) s (fun _ s' => running t s') never.
Proof.
  intros [Hinv Hctx] Hcur Hc Hnew Hres. unfold init_task_from_coroutine. wp_step. eapply wp_read_coroutine; [done|].
  rewrite decide_True by done. do 4 wp_step. unfold locals_count_of. apply wp_bind. case_match; [|done].
  do 6 wp_step.
  assert (forall g s1 Q, (forall n c', Q n (set_counts c' s1)) -> wp (function_namespace g) s1 Q never) as Hns.
  { intros [g|] s1 Q HQ; cbn; wp_steps; [apply HQ|]. specialize (HQ None (counts (store s1))). by destruct s1 as [? []]. }
  apply Hns. intros n c'. wp_step. unfold new_function. wp_step. apply stack_index_ok. wp_step. apply stack_index_ok.
  wp_steps. split; [split|]; [|done|by split]. cbn. eapply inv_put_same; [exact Hinv|exact Hc|apply same_links_coroutine].
Qed.


(** ** Activation *)

Definition framed (s : VM) : Prop := forall c, current_task (scheduler s) = Some c -> is_parked (current_frame s) = false.

Definition activated (s : VM) : Prop := some_running s \/ stopped s.

(** What activating a task does, when fewer than [m] tasks are left. *)
Definition activates (act : nat -> AM unit) (m : nat) : Prop := forall s t,
  size (tasks (scheduler s)) < m -> good ∅ None (Some t) s -> framed s ->
  wp (act t) s (fun _ s' => activated s') (fun _ s' => some_running s').

Lemma queue_next_good s t q :
  good ∅ None None s -> ready_queue (scheduler s) = t :: q -> good ∅ None (Some t) (set_scheduler (set_queue q) s).
Proof.
  intros [[Hsc Hst Hl] Hctx] Hq. split; [|done]. split; [|done|by apply (links_scheduler _ _ (scheduler s))].
  pose proof (so_queue _ _ Hsc) as Hnd. rewrite Hq in Hnd. apply NoDup_cons in Hnd as [Ht Hnd].
  apply (sched_take None); [done|done| |done|].
  - rewrite Hq. by left.
  - intros x. rewrite Hq, elem_of_cons. split; [intros Hx; split; [by right|]|naive_solver]. by intros ->.
Qed.

Lemma queue_remove_good s t :
  good ∅ None None s -> t ∈ ready_queue (scheduler s) ->
  good ∅ None (Some t) (set_scheduler (fun sc => set_queue (retain_not t (ready_queue sc)) sc) s).
Proof.
  intros [[Hsc Hst Hl] Hctx] Ht. split; [|done]. split; [|done|by apply (links_scheduler _ _ (scheduler s))].
  apply (sched_take None); [done|done|done|apply retain_NoDup, (so_queue _ _ Hsc)|].
  intros x. by rewrite elem_of_retain.
Qed.

Lemma resume_after_exit_ok act s waiter :
  good ∅ None None s -> current_task (scheduler s) = None -> is_parked (current_frame s) = true ->
  (forall w, waiter = Some w -> w ∈ ready_queue (scheduler s)) ->
  activates act (S (size (tasks (scheduler s)))) ->
  wp (resume_after_task_exit act waiter) s
    (fun b s' => if b : bool then activated s' else stopped s') (fun _ s' => some_running s').
Proof.
  intros Hg Hcur Hpk Hw Hact. unfold resume_after_task_exit.
  assert (forall t s', size (tasks (scheduler s')) = size (tasks (scheduler s)) -> good ∅ None (Some t) s' ->
    current_task (scheduler s') = None ->
    wp (act t ;;; sret true) s' (fun b s' => if b : bool then activated s' else stopped s') (fun _ s' => some_running s'))
    as Hrun.
  { intros t s' Hsz Hg' Hc'. wp_step. eapply wp_mono; [apply Hact; [lia|done|]| |done].
    - intros c. by rewrite Hc'.
    - intros [] s1 H'. by wp_steps. }
  wp_step. destruct waiter as [w|].
  - unfold remove_from_ready_queue. do 3 wp_step. apply Hrun; [done| |done]. by apply queue_remove_good; [|apply Hw].
  - unfold next_ready_task. do 2 wp_step. destruct (ready_queue (scheduler s)) as [|t q] eqn:Hq.
    + wp_steps. by split.
    + do 3 wp_step. apply Hrun; [done| |done]. by apply queue_next_good.
Qed.

Lemma handle_failure_ok act s t e :
  good ∅ None (Some t) s -> current_task (scheduler s) = Some t -> t <> main_id ->
  activates act (size (tasks (scheduler s))) ->
  wp (handle_task_failure act e) s (fun _ s' => activated s') (fun _ s' => some_running s').
Proof.
  intros Hg Hcur Hm Hact. pose proof Hg as [[Hsc Hst Hl] Hctx].
  destruct (so_runs _ _ Hsc t eq_refl) as (Hnq & k & r & Hk & Hr).
  unfold handle_task_failure. do 2 wp_step. wp_step. eapply wp_expect; [done|].
  wp_step. apply wp_assert; [by apply negb_true_iff, Nat.eqb_neq|].
  wp_step. eapply wp_get_task; [done|]. do 3 wp_step.
  set (s1 := set_scheduler (put_tasks t (set_awaiter None k)) s).
  assert (good ∅ (awaiter k) (Some t) s1) as Hg1.
  { split; [by apply inv_take_awaiter|]. by apply (contexts_put t k (set_awaiter None k)). }
  assert (size (tasks (scheduler s1)) = size (tasks (scheduler s))) as Hsz1.
  { cbn. by rewrite map_size_insert_Some by eauto. }
  assert (forall d s2, good ∅ None (Some t) s2 -> delivered s1 d s2 ->
    wp (cleanup_current_task ;;; cancel_task t ;;; do _ <- resume_after_task_exit act d ;; sret tt) s2
      (fun _ s' => activated s') (fun _ s' => some_running s')) as Hrest.
  { intros d s2 Hg2 [D1 D2 D3 D4 D5]. wp_step. apply cleanup_current_ok. intros s3 Hs3 Hpk.
    pose proof (good_same_core _ _ _ _ _ Hs3 Hg2) as Hg3. destruct Hs3 as (E1 & _ & _).
    destruct (so_runs _ _ (inv_sched _ _ _ _ _ _ (proj1 Hg3)) t eq_refl) as (Hnq3 & k3 & r3 & Hk3 & Hr3).
    destruct (cancel_ready s3 t k3 r3 Hk3 Hr3) as [c Hc].
    wp_step. unfold wp at 1, ensures. rewrite Hc.
    assert (awaiter k3 = None) as Hn3.
    { destruct (D5 t (set_awaiter None k)) as (k3' & Hk3' & Hn); [cbn; by rewrite lookup_insert_eq|done|].
      rewrite E1 in Hk3. congruence. }
    pose proof (good_without _ _ _ _ _ _ Hg3 Hk3 Hn3 Hm) as Hg4. unfold unless in Hg4. rewrite decide_True in Hg4 by done.
    destruct (without_fields t k3 (scheduler s3)) as (F1 & F2 & F3 & _).
    assert (current_task (scheduler s3) = Some t) as Hc3 by (rewrite E1, D1; exact Hcur).
    wp_step. eapply wp_mono; [apply resume_after_exit_ok| |done].
    - exact Hg4.
    - change (current_task (without t k3 (scheduler s3)) = None). rewrite F3. by rewrite decide_True.
    - exact Hpk.
    - intros w Hw. change (w ∈ ready_queue (without t k3 (scheduler s3))). rewrite F2, elem_of_retain, E1.
      split; [by apply D4|]. intros ->. rewrite E1 in Hnq3. apply Hnq3. by apply D4.
    - change (activates act (S (size (tasks (without t k3 (scheduler s3)))))). rewrite F1.
      assert (size (tasks (scheduler s3)) <> 0) as Hne.
      { apply map_size_ne_0_lookup. eauto. }
      rewrite map_size_delete_Some by eauto. rewrite E1, D3, Hsz1 in *.
      intros s4 t4 Hlt. apply Hact. lia.
    - intros b s5 H5. wp_steps. destruct b; [done|by right]. }
  destruct (awaiter k) as [a|].
  - eapply wp_mono; [by apply (deliver_awaiter_failure_ok (Some t))| |done]. intros d s2 [Hg2 Hd]. by apply Hrest.
  - wp_step. apply Hrest; [done|]. by apply delivered_nothing.
Qed.

Lemma coroutine_of opens hand runs s t k c :
  good opens hand runs s -> tasks (scheduler s) !! t = Some k -> coroutine_id k = Some c ->
  exists co, objects (store s) !! c = Some (OCoroutine co).
Proof.
  intros [[_ _ Hl] _] Hk Hc. destruct (lk_coroutine _ _ _ _ Hl t k c Hk Hc) as (o & Ho & Hco).
  destruct o; try done. eauto.
Qed.

Lemma load_or_init_ok act s t k :
  good ∅ None (Some t) s -> current_task (scheduler s) = Some t -> tasks (scheduler s) !! t = Some k ->
  (t = main_id -> frames k <> []) -> state k = Ready (Ok tt) -> activates act (size (tasks (scheduler s))) ->
  wp (load_or_init_task act t) s
    (fun _ s' => activated s' /\ (frames k <> [] -> some_running s')) (fun _ s' => some_running s').
Proof.
  intros [Hinv Hctx] Hcur Hk Hm Hrs Hact. unfold load_or_init_task. wp_step. eapply wp_get_task; [done|]. do 5 wp_step.
  apply wp_usize. do 2 wp_step.
  set (k' := set_context [] [] [] (task_ip k) k).
  match goal with |- wp _ ?x _ _ => set (s1 := x) end.
  assert (good ∅ None (Some t) s1) as Hg1.
  { split; [by apply (inv_put_context _ _ _ _ _ _ t k k'); try done; left|].
    split; [apply put_tasks_alive, (cx_main _ Hctx)|].
    intros x kx Hx Hne. cbn in Hx, Hne. rewrite lookup_insert_ne in Hx by congruence. by apply (cx_new _ Hctx). }
  assert (size (tasks (scheduler s1)) = size (tasks (scheduler s))) as Hsz.
  { cbn. by rewrite map_size_insert_Some by eauto. }
  assert (resumed t s1) as Hres by (exists k'; split; [cbn; by rewrite lookup_insert_eq|done]).
  destruct (frames k) as [|f fs] eqn:Hf.
  - assert (t <> main_id) as Hne by (intros ->; by destruct (Hm eq_refl)).
    destruct (so_spawned _ _ (inv_sched _ _ _ _ _ _ Hinv) t k Hk Hne) as [c Hc]. rewrite Hc.
    destruct (coroutine_of ∅ None (Some t) s t k c) as [co Hco]; [by split|done|done|].
    wp_step. eapply wp_read_coroutine; [exact Hco|]. case_decide as Hnew.
    + eapply wp_mono; [by apply (init_task_ok s1 t c co)| |done]. intros [] s' Hr. split; [left; by exists t|done].
    + eapply wp_mono; [apply (handle_failure_ok act s1 t); [done|done|done|by rewrite Hsz]|by split|done].
  - wp_step. apply loaded_frames_ok. intros cs Hlen Hall. destruct (rev cs) as [|cur susp] eqn:Hrev.
    { apply (f_equal length) in Hrev. rewrite length_rev, Hlen in Hrev. done. }
    wp_steps. match goal with |- activated ?x /\ _ => assert (some_running x) as Hx; [|by split; [left|]] end.
    exists t. split; [exact Hg1|]. split; [exact Hcur|]. split; [|exact Hres]. cbn.
    rewrite Forall_forall in Hall. apply Hall. apply list_elem_of_In, in_rev. rewrite Hrev. by left.
Qed.

Lemma set_current_good s t :
  good ∅ None (Some t) s ->
  (forall c k, current_task (scheduler s) = Some c -> tasks (scheduler s) !! c = Some k -> c = t \/ frames k <> []) ->
  good ∅ None (Some t) (set_scheduler (set_current (Some t)) s).
Proof.
  intros [[Hsc Hst Hl] Hctx] Hm. destruct (so_runs _ _ Hsc t eq_refl) as (_ & kt & _ & Hkt & _). split.
  - split; [apply sched_current; [done|by eexists]|done|by apply (links_scheduler _ _ (scheduler s))].
  - split; [apply (cx_main _ Hctx)|].
    intros x k Hk Hne Hf. cbn in Hne. apply (cx_new _ Hctx x k Hk); [|done]. intros Hc.
    destruct (Hm x k Hc Hk) as [->|]; done.
Qed.

(** Saving the context of the task that was loaded. *)
Lemma save_current_ok s t :
  good ∅ None (Some t) s -> current_task (scheduler s) <> Some t ->
  wp (match current_task (scheduler s) with Some c => save_task_context c | None => sret tt end) s
    (fun _ s' => good ∅ None (Some t) (set_scheduler (set_current (Some t)) s')
       /\ size (tasks (scheduler s')) = size (tasks (scheduler s))
       /\ tasks (scheduler s') !! t = tasks (scheduler s) !! t) never.
Proof.
  intros Hg Hne. pose proof Hg as [[Hsc Hst Hl] Hctx]. destruct (current_task (scheduler s)) as [c|] eqn:Hc.
  - destruct (so_current _ _ Hsc c Hc) as [k Hk]. eapply save_context_ok; [done|].
    intros k' s' Hid Hco Haw Hs Hf Es Est.
    assert (good ∅ None (Some t) s') as Hg'.
    { split; rewrite Es, ?Est; [by apply (inv_put_context _ _ _ _ _ _ c k k'); try done; left|].
      split; [apply put_tasks_alive, (cx_main _ Hctx)|].
      intros x kx Hx Hnx Hfx. cbn in Hx, Hnx. rewrite lookup_insert_ne in Hx by congruence. by apply (cx_new _ Hctx). }
    split; [|rewrite Es; cbn; split].
    + apply set_current_good; [done|]. rewrite Es. cbn. intros x kx Hx Hkx. right.
      rewrite Hc in Hx. injection Hx as <-. rewrite lookup_insert_eq in Hkx. by injection Hkx as <-.
    + by rewrite map_size_insert_Some by eauto.
    + by rewrite lookup_insert_ne by congruence.
  - wp_steps. split; [|done]. apply set_current_good; [done|]. by rewrite Hc.
Qed.

Lemma activate_step_ok act m : activates act m -> activates (activate_step act) (S m).
Proof.
  intros Hact s t Hsz Hg Hfr. pose proof Hg as [[Hsc Hst Hl] Hctx].
  destruct (so_runs _ _ Hsc t eq_refl) as (Hnq & k & r & Hk & Hr).
  unfold activate_step. wp_step. unfold take_resume_result. wp_step. eapply wp_get_task; [done|]. rewrite Hr.
  do 5 wp_step. set (k1 := set_state (Ready (Ok tt)) k). set (s1 := set_scheduler (put_tasks t k1) s).
  assert (good ∅ None (Some t) s1) as Hg1.
  { apply (good_put_context _ _ _ _ t k); try done. right. eauto. }
  assert (tasks (scheduler s1) !! t = Some k1) as Hk1 by (cbn; by rewrite lookup_insert_eq).
  assert (size (tasks (scheduler s1)) = size (tasks (scheduler s))) as Hsz1.
  { cbn. by rewrite map_size_insert_Some by eauto. }
  assert (forall s', some_running s' ->
    wp (match r with Ok _ => sret tt | Err e => raise e end) s' (fun _ s' => activated s') (fun _ s' => some_running s'))
    as Hend.
  { intros s' Hs'. destruct r; wp_steps; [by left|done]. }
  wp_step. case_decide as Hcur.
  { wp_step. apply Hend. exists t. split; [exact Hg1|]. split; [exact Hcur|]. split; [by apply (Hfr t)|by exists k1]. }
  wp_step. eapply wp_mono; [by apply (save_current_ok s1 t)| |done]. intros [] s2 (Hg2 & Hsz2 & Ht2).
  do 2 wp_step.
  assert (activates act (size (tasks (scheduler (set_scheduler (set_current (Some t)) s2))))) as Hact'.
  { intros s3 t3 Hlt. apply Hact. cbn in Hlt. lia. }
  eapply wp_mono; [apply (load_or_init_ok act _ t k1); [exact Hg2|done|cbn; by rewrite Ht2| |done|done]| |done].
  { intros -> Hf. by destruct (cx_new _ Hctx _ k Hk Hcur Hf). }
  intros [] s3 [Hact3 Hrun3]. destruct (decide (frames k = [])) as [Hf|Hf]; [|by apply Hend, Hrun3].
  destruct (cx_new _ Hctx t k Hk Hcur Hf) as [_ Hrr]. rewrite Hr in Hrr. injection Hrr as ->. by wp_steps.
Qed.

Lemma activate_loop_ok fuel : activates (activate_loop fuel) fuel.
Proof.
  induction fuel as [|fuel IH]; [intros s t Hlt; lia|]. exact (activate_step_ok _ _ IH).
Qed.

Lemma activate_task_ok m : activates activate_task m.
Proof. intros s t _ Hg Hfr. unfold activate_task. wp_steps. apply activate_loop_ok; [lia|done|done]. Qed.

(** ** A task that returns *)

Lemma handle_completion_ok s t v :
  running t s -> t <> main_id ->
  wp (handle_task_completion v) s
    (fun r s' => match r with Yield _ => stopped s' | _ => activated s' end) (fun _ s' => some_running s').
Proof.
  intros (Hg & Hcur & Hpk & _) Hm. pose proof Hg as [[Hsc Hst Hl] Hctx].
  destruct (so_runs _ _ Hsc t eq_refl) as (Hnq & k & r & Hk & Hr).
  destruct (so_spawned _ _ Hsc t k Hk Hm) as [c Hc]. destruct (coroutine_of _ _ _ _ _ _ _ Hg Hk Hc) as [co Hco].
  unfold handle_task_completion. do 2 wp_step. wp_step. eapply wp_expect; [done|].
  wp_step. eapply wp_get_task; [done|]. do 3 wp_step. eapply wp_expect; [done|].
  wp_step. eapply wp_read_coroutine; [exact Hco|]. do 3 wp_step.
  match goal with |- wp _ ?x _ _ => set (s1 := x) end.
  assert (good ∅ (awaiter k) (Some t) s1) as Hg1.
  { split; [|by apply (contexts_put t k (set_awaiter None k))].
    eapply inv_put_same; [by apply inv_take_awaiter|exact Hco|apply same_links_coroutine]. }
  assert (tasks (scheduler s1) !! t = Some (set_awaiter None k)) as Hk1 by (cbn; by rewrite lookup_insert_eq).
  destruct (cancel_ready s1 t _ r Hk1 Hr) as [c1 Hcan]. unfold wp at 1, ensures. rewrite Hcan.
  pose proof (good_without _ _ _ _ _ _ Hg1 Hk1 eq_refl Hm) as Hg2. unfold unless in Hg2. rewrite decide_True in Hg2 by done.
  destruct (without_fields t (set_awaiter None k) (scheduler s1)) as (_ & _ & F3 & _).
  set (s2 := set_counts c1 (set_scheduler (without t (set_awaiter None k)) s1)) in *.
  assert (current_task (scheduler s2) = None) as Hc2.
  { change (current_task (without t (set_awaiter None k) (scheduler s1)) = None). rewrite F3. by apply decide_True. }
  assert (forall d s3, good ∅ None None s3 -> delivered s2 d s3 ->
    wp (cleanup_current_task ;;;
        do resumed <- resume_after_task_exit activate_task d ;;
        if (resumed : bool) then sret FramePushed
        else do s <- sget ;; sret (Yield (pending_call_ids (scheduler s)))) s3
      (fun r s' => match r with Yield _ => stopped s' | _ => activated s' end) (fun _ s' => some_running s')) as Hrest.
  { intros d s3 Hg3 [D1 _ _ D4 _]. wp_step. apply cleanup_current_ok. intros s4 Hs4 Hpk4.
    pose proof (good_same_core _ _ _ _ _ Hs4 Hg3) as Hg4. destruct Hs4 as (E1 & _ & _).
    wp_step. eapply wp_mono; [apply resume_after_exit_ok; [exact Hg4| |done| |apply activate_task_ok]| |done].
    - rewrite E1. congruence.
    - rewrite E1. exact D4.
    - intros [] s5 H5; by wp_steps. }
  wp_step. destruct (awaiter k) as [a|].
  - eapply wp_mono; [by apply (deliver_awaiter_success_ok None)| |done]. intros d s3 [Hg3 Hd]. by apply Hrest.
  - do 3 wp_step. apply Hrest; [done|]. by apply delivered_nothing.
Qed.

Lemma resume_resolved_ok rs s :
  good ∅ None None s -> framed s ->
  wp (resume_with_resolved_futures rs) s
    (fun r s' => match r with
                 | RunLoop => activated s'
                 | ResumeWithException _ => some_running s'
                 | ResolveFutures calls => good ∅ None None s' /\ framed s' /\ calls <> []
                 end)
    (fun _ s' => good ∅ None None s' /\ framed s').
Proof.
  intros Hg Hfr. unfold resume_with_resolved_futures.
  assert (forall s', host_ok None s s' -> framed s') as Hframed.
  { intros s' (_ & Hc & Hf) c. rewrite Hc, Hf. apply Hfr. }
  wp_step. eapply wp_mono; [by apply (apply_future_results_ok None)| |].
  2:{ intros e s' [Hs _]. split; [by destruct Hs|by apply Hframed]. }
  intros [] s1 Hs1. pose proof (Hframed _ Hs1) as Hfr1. destruct Hs1 as (Hg1 & _).
  wp_step. unfold next_ready_task. do 2 wp_step. destruct (ready_queue (scheduler s1)) as [|t q] eqn:Hq.
  - do 3 wp_step. unfold wp, ensures. by destruct (pending_call_ids (scheduler s1)).
  - do 5 wp_step. eapply wp_mono; [eapply activate_task_ok; [apply Nat.lt_succ_diag_r| |]| |].
    + by apply queue_next_good.
    + exact Hfr1.
    + intros [] s2 H2. by wp_steps.
    + intros e s2 H2. by wp_steps.
Qed.

End Safe.
