(* ===== verification/AsyncCommit.v ===== *)
(** * Committing a gather keeps the executor's invariant

    The walk of [commit_gather_tree] over nested gathers: what a frame of its stack
    holds, what one round does, and that the walk ends. *)
From S2P Require Import Prelude HeapData Scheduler AsyncExec AsyncInv AsyncSafe.
Local Open Scope monty_scope.

(** ** Slots of a gather being committed *)

(** The items below [n] are committed, and the slots from [n] on are empty. *)
Definition slots_ok (its : list nat) (n : nat) (pc : PendingChildren) (rs : list (option Value)) : Prop :=
  awaited_ok its n (mkAwaited (TaskAwaiter main_id) pc rs)
  /\ forall i, n <= i -> i < length its -> rs !! i = Some None.

Lemma awaited_ok_awaiter its n a b pc rs : awaited_ok its n (mkAwaited a pc rs) -> awaited_ok its n (mkAwaited b pc rs).
Proof. intros []. by split. Qed.

Lemma slots_new its : slots_ok its 0 ∅ (replicate (length its) None).
Proof.
  split; [split|]; cbn.
  - apply length_replicate.
  - intros c idxs. by rewrite lookup_empty.
  - lia.
  - intros i _ Hi. by apply lookup_replicate_2.
Qed.

(** Filling the slots of a frame forward: item [n] of [its] is [c]. *)
Section Forward.
Context (its : list nat) (n c : nat) (pc : PendingChildren) (rs : list (option Value)).
Context (Hok : slots_ok its n pc rs) (Hc : its !! n = Some c).

Let Hlt : n < length its.
Proof. by eapply lookup_lt_Some. Qed.

Let Hn : rs !! n = Some None.
Proof. apply Hok; [lia|exact Hlt]. Qed.

Lemma slots_again slots : pc !! c = Some slots -> slots_ok its (S n) (<[c := slots ++ [n]]> pc) rs.
Proof.
  intros Hp. destruct Hok as [[H1 H2 H3] H4]. cbn in *. split; [split|]; cbn.
  - done.
  - intros d idxs Hd. destruct (decide (d = c)) as [->|Hne].
    + rewrite lookup_insert_eq in Hd. injection Hd as <-. destruct (H2 c slots Hp) as (_ & Hnd & Hi). split_and!.
      * by destruct slots.
      * apply NoDup_app. split_and!; [done| |apply NoDup_singleton]. intros x Hx ->%list_elem_of_singleton.
        destruct (Hi n Hx). lia.
      * intros i [Hin| ->%list_elem_of_singleton]%elem_of_app; [|auto]. destruct (Hi i Hin). auto.
    + rewrite lookup_insert_ne in Hd by done. destruct (H2 d idxs Hd) as (? & ? & Hi). split_and!; [done..|].
      intros i Hin. destruct (Hi i Hin). auto.
  - intros i Hi He. destruct (decide (i = n)) as [->|Hne].
    + exists c, (slots ++ [n]). rewrite lookup_insert_eq. split; [done|]. apply elem_of_app. right. by left.
    + destruct (H3 i ltac:(lia) He) as (d & idxs & Hd & Hin). destruct (decide (d = c)) as [->|Hdc].
      * exists c, (slots ++ [n]). rewrite lookup_insert_eq. split; [done|]. simplify_eq. apply elem_of_app. by left.
      * exists d, idxs. by rewrite lookup_insert_ne.
  - intros i Hi. apply H4. lia.
Qed.

Lemma slots_pending : pc !! c = None -> slots_ok its (S n) (<[c := [n]]> pc) rs.
Proof.
  intros Hp. destruct Hok as [[H1 H2 H3] H4]. cbn in *. split; [split|]; cbn.
  - done.
  - intros d idxs Hd. destruct (decide (d = c)) as [->|Hne].
    + rewrite lookup_insert_eq in Hd. injection Hd as <-. split_and!; [done|apply NoDup_singleton|].
      intros i ->%list_elem_of_singleton. auto.
    + rewrite lookup_insert_ne in Hd by done. destruct (H2 d idxs Hd) as (? & ? & Hi). split_and!; [done..|].
      intros i Hin. destruct (Hi i Hin). auto.
  - intros i Hi He. destruct (decide (i = n)) as [->|Hne].
    + exists c, [n]. rewrite lookup_insert_eq. split; [done|by left].
    + destruct (H3 i ltac:(lia) He) as (d & idxs & Hd & Hin). exists d, idxs.
      rewrite lookup_insert_ne; [done|]. intros ->. congruence.
  - intros i Hi. apply H4. lia.
Qed.

Lemma slots_ready v : slots_ok its (S n) pc (<[n := Some v]> rs).
Proof.
  destruct Hok as [[H1 H2 H3] H4]. cbn in *. split; [split|]; cbn.
  - by rewrite length_insert.
  - intros d idxs Hd. destruct (H2 d idxs Hd) as (? & ? & Hi). split_and!; [done..|].
    intros i Hin. destruct (Hi i Hin) as (? & ? & ?). rewrite list_lookup_insert_ne by lia. auto.
  - intros i Hi He. destruct (decide (i = n)) as [->|Hne].
    + rewrite list_lookup_insert_eq in He by lia. done.
    + rewrite list_lookup_insert_ne in He by done. apply H3; [lia|done].
  - intros i Hi ?. rewrite list_lookup_insert_ne by lia. apply H4; lia.
Qed.

End Forward.

(** ** One item *)

Definition frame_ok (objs : objs_t) (c : GatherCommit) : Prop := exists gf,
  objs !! c_gather c = Some (OGather gf) /\ ga_state gf = GatherPending
  /\ slots_ok (items gf) (c_next c) (c_pending c) (c_results c).

(** Tasks run as they did, and no gather changed. *)
Record still (s s' : VM) : Prop := {
  sl_current : current_task (scheduler s') = current_task (scheduler s);
  sl_frame : current_frame s' = current_frame s;
  sl_tasks : forall t k, tasks (scheduler s) !! t = Some k -> tasks (scheduler s') !! t = Some k;
  sl_gathers : forall x gf, objects (store s') !! x = Some (OGather gf) <-> objects (store s) !! x = Some (OGather gf) }.

Lemma still_refl s : still s s.
Proof. by split. Qed.

Lemma still_trans s1 s2 s3 : still s1 s2 -> still s2 s3 -> still s1 s3.
Proof. intros [A1 A2 A4 A3] [B1 B2 B4 B3]. split; [congruence|congruence|eauto|]. intros x gf. by rewrite B3. Qed.

Lemma frame_still s s' c : still s s' -> frame_ok (objects (store s)) c -> frame_ok (objects (store s')) c.
Proof. intros Hs (gf & Hg & ?). exists gf. by rewrite (sl_gathers _ _ Hs). Qed.

Lemma contexts_spawned c a sc :
  contexts_ok sc -> 0 < next_task_id sc -> contexts_ok (spawned c a sc).
Proof.
  intros [Hm Hc] Hn. split; [cbn; rewrite lookup_insert_ne by (unfold main_id; lia); done|].
  intros t k Hk Hcur Hf. cbn in *. at_id; [|by apply Hc]. simplify_eq. split; [unfold main_id; lia|done].
Qed.

Section Commit.
Context `{KeyOrder} `{Interns} `{Tracker}.

Lemma register_good opens t s g gf pc c idx :
  good (<[g := pc]> opens) None (Some t) s -> objects (store s) !! g = Some (OGather gf) -> c ∈ items gf ->
  (forall o, objects (store s) !! c = Some o -> obj_awaiter o = None) ->
  (forall t k, tasks (scheduler s) !! t = Some k -> coroutine_id k <> Some c) ->
  good (<[g := <[c := [idx]]> pc]> opens) (Some (GatherSlot g c)) (Some t) s.
Proof.
  intros [Hinv Hctx] Hg Hc Hobj Htask. split; [|done]. rewrite <- (insert_insert_eq opens g (<[c := [idx]]> pc) pc).
  eapply inv_register; [done|by rewrite lookup_insert_eq|exact Hg|done|done|done].
Qed.

(** The tasks run coroutines. *)
Lemma no_task_of opens hand runs s c o :
  good opens hand runs s -> objects (store s) !! c = Some o -> is_coroutine o = false ->
  forall t k, tasks (scheduler s) !! t = Some k -> coroutine_id k <> Some c.
Proof.
  intros [[_ _ Hl] _] Ho Hco t k Hk Hc. destruct (lk_coroutine _ _ _ _ Hl t k c Hk Hc) as (o' & Ho' & Hco'). congruence.
Qed.

Lemma commit_item_ok opens t s g gf pc idx item :
  good (<[g := pc]> opens) None (Some t) s -> objects (store s) !! g = Some (OGather gf) -> item ∈ items gf ->
  wp (commit_item g idx item) s
    (fun r s' => still s s' /\
       match r with
       | inl (PReady _) => good (<[g := pc]> opens) None (Some t) s'
       | inl PPending => good (<[g := <[item := [idx]]> pc]> opens) None (Some t) s'
       | inr nested => good (<[g := pc]> opens) None (Some t) s' /\ exists gi,
           objects (store s) !! item = Some (OGather gi) /\ ga_state gi = GatherPending
           /\ nested = mkCommit item (GatherSlot g item) (Some idx) 0 (replicate (length (items gi)) None) ∅
       end)
    (fun _ s' => still s s' /\ good (<[g := pc]> opens) None (Some t) s').
Proof.
  intros Hg Hgf Hit. pose proof Hg as [[Hsc Hst Hl] Hctx].
  destruct (st_items _ _ _ Hst g gf item Hgf Hit) as (Hlt & o & Ho & Haw).
  pose proof (register_good opens t s g gf pc item idx Hg Hgf Hit) as Hreg.
  assert (forall c, still s (set_counts c s)) as Hstill by (intros; by split).
  unfold commit_item. wp_step. eapply wp_read; [done|]. destruct o as [co|ex|gi| |]; try done.
  - case_decide as Hnew; [|wp_steps; split; [apply still_refl|done]].
    wp_step. unfold spawn. do 2 wp_step.
    destruct (coroutine_to_task (scheduler s) !! item) eqn:Hc2t; [wp_steps; split; [apply still_refl|done]|].
    wp_step. unfold u32_succ. case_match; [|done]. wp_steps.
    split; [split; [done|done| |done]|split].
    + intros x kx Hx. cbn. rewrite lookup_insert_ne; [done|]. pose proof (so_keys _ _ Hsc x kx Hx). lia.
    + eapply (inv_spawn _ _ _ _ _ g item co); [apply Hreg|exact Ho|exact Hc2t].
      * intros o' Ho'. by simplify_eq.
      * intros x kx Hx Hc. assert (coroutine_to_task (scheduler s) !! item = Some x); [|congruence].
        apply (so_coroutines _ _ Hsc). eauto.
    + apply contexts_spawned; [done|apply (so_next _ _ Hsc)].
  - do 2 wp_step. wp_step. unfold await_external_future. wp_step. eapply wp_read_external; [exact Ho|].
    destruct (ex_state ex) as [[b|]|v|e] eqn:Hx; wp_steps.
    + split; [by split|done].
    + split.
      * split; [done|done|done|]. intros x gx. cbn. destruct (decide (x = item)) as [->|Hne].
        -- rewrite lookup_insert_eq, Ho. done.
        -- by rewrite lookup_insert_ne.
      * split; [|done]. eapply inv_await_slot; [apply Hreg|exact Ho|exact Hx].
        -- intros o' Ho'. simplify_eq. cbn. by rewrite Hx.
        -- by eapply no_task_of.
    + split; [by split|done].
    + split; [by split|done].
  - unfold poll_settled_gather. wp_step. destruct (ga_state gi) as [|aw|v|e] eqn:Hgi.
    + do 4 wp_step. unfold open_gather_commit. wp_step. eapply wp_read_gather; [exact Ho|]. wp_steps.
      split; [by split|]. split; [done|]. by exists gi.
    + wp_steps. split; [by split|done].
    + wp_steps. split; [by split|done].
    + wp_steps. split; [by split|done].
Qed.

(** ** The items of a frame *)

Record same_frame (c c' : GatherCommit) : Prop := {
  sf_gather : c_gather c' = c_gather c;
  sf_awaiter : c_awaiter c' = c_awaiter c;
  sf_slot : c_parent_slot c' = c_parent_slot c }.

(** [nested] is the frame of the gather that is the next item of [c]. *)
Definition nested_of (objs : objs_t) (c nested : GatherCommit) : Prop := exists gf gi,
  objs !! c_gather c = Some (OGather gf) /\ items gf !! c_next c = Some (c_gather nested)
  /\ c_pending c !! c_gather nested = None
  /\ objs !! c_gather nested = Some (OGather gi) /\ ga_state gi = GatherPending
  /\ nested = mkCommit (c_gather nested) (GatherSlot (c_gather c) (c_gather nested)) (Some (c_next c)) 0
                (replicate (length (items gi)) None) ∅.

Definition stepped (opens : opens_t) (t : nat) (c : GatherCommit) (s : VM)
    (r : GatherCommit * result (option GatherCommit) RunError) (s' : VM) : Prop :=
  let '(c', out) := r in
  still s s' /\ good (<[c_gather c := c_pending c']> opens) None (Some t) s' /\ frame_ok (objects (store s')) c'
  /\ same_frame c c'
  /\ match out with
     | Ok None => length (c_results c') <= c_next c'
     | Ok (Some nested) => nested_of (objects (store s')) c' nested
     | Err _ => True
     end.

Lemma stepped_trans opens t c c1 s s1 r s2 :
  same_frame c c1 -> still s s1 -> stepped opens t c1 s1 r s2 -> stepped opens t c s r s2.
Proof.
  destruct r as [c' out]. intros [F1 F2 F3] Hs (E1 & E2 & E3 & [G1 G2 G3] & E4). rewrite F1 in E2.
  split; [by eapply still_trans|]. split_and!; [exact E2|exact E3|split; congruence|exact E4].
Qed.

Lemma step_gather_commit_ok opens t fuel c s :
  good (<[c_gather c := c_pending c]> opens) None (Some t) s -> frame_ok (objects (store s)) c ->
  length (c_results c) - c_next c <= fuel ->
  wp (step_gather_commit fuel c) s (stepped opens t c s) never.
Proof.
  revert c s. induction fuel as [|fuel IH]; intros c s Hg Hf Hlen; cbn [step_gather_commit];
    destruct (Nat.ltb_spec (c_next c) (length (c_results c))) as [Hlt|Hge].
  1: lia.
  1,3: wp_step; (split; [apply still_refl|]); split_and!; [exact Hg|done|done|done].
  pose proof Hf as (gf & Hgf & Hp & Hslots).
  assert (length (c_results c) = length (items gf)) as Hl by apply (ao_length _ _ _ (proj1 Hslots)).
  destruct (lookup_lt_is_Some_2 (items gf) (c_next c)) as [item Hitem]; [lia|].
  wp_step. eapply wp_read_gather; [exact Hgf|]. wp_step. eapply wp_expect; [exact Hitem|].
  assert (forall c1 s1, same_frame c c1 -> still s s1 -> good (<[c_gather c := c_pending c1]> opens) None (Some t) s1 ->
    slots_ok (items gf) (c_next c1) (c_pending c1) (c_results c1) -> c_next c1 = S (c_next c) ->
    length (c_results c1) = length (c_results c) ->
    wp (step_gather_commit fuel c1) s1 (stepped opens t c s) never) as Hrec.
  { intros c1 s1 Hsf Hst Hg1 Hs1 Hn1 Hl1. eapply wp_mono; [apply IH| |done].
    - by rewrite (sf_gather _ _ Hsf).
    - exists gf. rewrite (sf_gather _ _ Hsf), (sl_gathers _ _ Hst). done.
    - lia.
    - intros r s2 Hr. by eapply stepped_trans. }
  destruct (c_pending c !! item) as [slots|] eqn:Hpc.
  - apply Hrec; cbn; try done; [|by apply slots_again].
    destruct Hg as [Hinv Hctx]. split; [|done]. rewrite <- (insert_insert_eq opens _ _ (c_pending c)).
    eapply inv_register_again; [done|by rewrite lookup_insert_eq|by rewrite Hpc].
  - wp_step. apply wp_attempt.
    eapply wp_mono; [eapply (commit_item_ok opens t s (c_gather c) gf (c_pending c)); [exact Hg|exact Hgf|]| |].
    + by eapply list_elem_of_lookup_2.
    + intros [[v|]|nested] s1 [Hst Hr].
      * apply Hrec; cbn; try done; [by apply slots_ready with item|by rewrite length_insert].
      * apply Hrec; cbn; try done. by apply slots_pending.
      * destruct Hr as (Hg1 & gi & Hgi & Hpi & Hn). wp_step.
        split; [done|]. split_and!; [exact Hg1|by eapply frame_still|done|].
        exists gf, gi. subst nested. cbn. rewrite !(sl_gathers _ _ Hst). done.
    + intros e s1 [Hst Hg1]. wp_step. split; [done|]. split_and!; [exact Hg1|by eapply frame_still|done|done].
Qed.

(** ** The stack *)

Fixpoint opens_of (st : list GatherCommit) : opens_t :=
  match st with [] => ∅ | c :: st => <[c_gather c := c_pending c]> (opens_of st) end.

Fixpoint stack_ok (t : nat) (objs : objs_t) (st : list GatherCommit) : Prop :=
  match st with
  | [] => False
  | c :: rest =>
      frame_ok objs c
      /\ match rest with
         | [] => c_awaiter c = TaskAwaiter t
         | p :: _ =>
             (exists gf, objs !! c_gather p = Some (OGather gf) /\ items gf !! c_next p = Some (c_gather c))
             /\ c_pending p !! c_gather c = None
             /\ c_awaiter c = GatherSlot (c_gather p) (c_gather c)
             /\ c_parent_slot c = Some (c_next p)
             /\ stack_ok t objs rest
         end
  end.

(** Frames further in are of older gathers. *)
Lemma stack_descends t opens objs n c rest :
  store_ok opens objs n -> stack_ok t objs (c :: rest) -> Forall (fun p => c_gather c < c_gather p) rest.
Proof.
  intros Hst. revert c. induction rest as [|p rest IH]; intros c Hs; [done|].
  destruct Hs as (_ & (gf & Hgf & Hit) & _ & _ & _ & Hs).
  assert (c_gather c < c_gather p).
  { eapply (st_items _ _ _ Hst); [done|]. by eapply list_elem_of_lookup_2. }
  constructor; [done|]. eapply Forall_impl; [by apply (IH p)|]. cbn. lia.
Qed.

Lemma opens_of_not_in x st : Forall (fun p => x <> c_gather p) st -> opens_of st !! x = None.
Proof.
  induction 1 as [|p st Hne _ IH]; cbn; [by rewrite lookup_empty|]. by rewrite lookup_insert_ne by done.
Qed.

Lemma head_not_open t opens objs n c rest :
  store_ok opens objs n -> stack_ok t objs (c :: rest) -> opens_of rest !! c_gather c = None.
Proof.
  intros Hst Hs. apply opens_of_not_in. eapply Forall_impl; [by eapply stack_descends|]. cbn. lia.
Qed.

(** The gather [g] has been closed, and no other gather changed. *)
Record closed (g : nat) (s s' : VM) : Prop := {
  cd_scheduler : scheduler s' = scheduler s;
  cd_frame : current_frame s' = current_frame s;
  cd_gathers : forall x gf, x <> g -> objects (store s') !! x = Some (OGather gf) <-> objects (store s) !! x = Some (OGather gf);
  cd_closed : forall gf, objects (store s') !! g = Some (OGather gf) -> ga_state gf <> GatherPending }.

Lemma frame_closed g s s' c :
  closed g s s' -> c_gather c <> g -> frame_ok (objects (store s)) c -> frame_ok (objects (store s')) c.
Proof. intros Hc Hne (gf & Hg & ?). exists gf. by rewrite (cd_gathers _ _ _ Hc). Qed.

Lemma stack_same t objs objs' st :
  (forall x gf, x ∈ map c_gather st -> objs !! x = Some (OGather gf) -> objs' !! x = Some (OGather gf)) ->
  stack_ok t objs st -> stack_ok t objs' st.
Proof.
  induction st as [|c rest IH]; intros Hsub; [done|]. intros [(gf & Hg & ?) Hr]. split.
  - exists gf. split; [|done]. apply Hsub; [by left|done].
  - destruct rest as [|p rest]; [done|]. destruct Hr as ((gp & Hgp & ?) & ? & ? & ? & Hs). split_and!; try done.
    + exists gp. split; [|done]. apply Hsub; [by right; left|done].
    + apply IH; [|done]. intros x gx Hx. apply Hsub. by right.
Qed.

Lemma stack_still t s s' st : still s s' -> stack_ok t (objects (store s)) st -> stack_ok t (objects (store s')) st.
Proof. intros Hs. apply stack_same. intros x gf _. by rewrite (sl_gathers _ _ Hs). Qed.

Lemma stack_closed t opens n s s' c rest :
  closed (c_gather c) s s' -> store_ok opens (objects (store s)) n -> stack_ok t (objects (store s)) (c :: rest) ->
  rest <> [] -> stack_ok t (objects (store s')) rest.
Proof.
  intros Hcl Hst Hs Hne. pose proof (stack_descends _ _ _ _ _ _ Hst Hs) as Hd.
  destruct rest as [|p rest]; [done|]. destruct Hs as (_ & _ & _ & _ & _ & Hs). revert Hs. apply stack_same.
  intros x gf Hx. rewrite (cd_gathers _ _ _ Hcl); [done|]. rewrite Forall_forall in Hd. intros ->.
  apply list_elem_of_fmap in Hx as (q & Hq & Hin). specialize (Hd q Hin). lia.
Qed.

Lemma slots_ok_full its n pc rs a :
  slots_ok its n pc rs -> length rs <= n -> awaited_ok its (length its) (mkAwaited a pc rs).
Proof.
  intros [[A1 A2 A3] _] Hn. cbn in *. split; cbn; [done| |].
  - intros c idxs Hc. destruct (A2 c idxs Hc) as (? & ? & Hi). split_and!; [done..|]. intros i Hin.
    destruct (Hi i Hin) as (? & Hit & ?). split_and!; try done. by eapply lookup_lt_Some.
  - intros i Hi He. apply A3; [lia|done].
Qed.

Definition awaited_frame (c : GatherCommit) : GatherState :=
  GatherAwaited (mkAwaited (c_awaiter c) (c_pending c) (c_results c)).

Lemma settle_gather_commit_ok opens t s c gf :
  good (<[c_gather c := c_pending c]> opens) None (Some t) s -> opens !! c_gather c = None ->
  objects (store s) !! c_gather c = Some (OGather gf) -> ga_state gf = GatherPending ->
  slots_ok (items gf) (c_next c) (c_pending c) (c_results c) -> length (c_results c) <= c_next c ->
  wp (settle_gather_commit c) s
    (fun p s' => closed (c_gather c) s s' /\
       match p with
       | PReady _ => good opens None (Some t) s'
       | PPending => c_pending c <> ∅
           /\ s' = set_store (fun h => mkStore (<[c_gather c := OGather (set_ga_state (awaited_frame c) gf)]> (objects h))
                                         (next_id h) (counts h)) s
       end) never.
Proof.
  intros [Hinv Hctx] Hop Hg Hp Hslots Hn. pose proof (inv_store _ _ _ _ _ _ Hinv) as Hst.
  pose proof (slots_ok_full _ _ _ _ (c_awaiter c) Hslots Hn) as Hfull.
  unfold settle_gather_commit. wp_step. eapply wp_read_gather; [exact Hg|]. case_decide as Hpc.
  - destruct (awaited_full _ _ Hfull) as (vs & Hvs & _); [done|]. cbn in Hvs. unfold all_filled, allocate, cache_result.
    wp_step. eapply wp_expect; [exact Hvs|]. do 2 wp_step. cbn. wp_steps.
    assert (c_gather c <> next_id (store s)) as Hgn.
    { intros E. assert (c_gather c < next_id (store s)); [|lia]. apply (st_dom _ _ _ Hst). by eexists. }
    eapply wp_read_gather; [cbn; rewrite lookup_insert_ne by done; exact Hg|]. wp_steps.
    split; [split; [done|done| |]; cbn|split; [|done]; cbn].
    + intros x gx Hx. rewrite lookup_insert_ne by done. destruct (decide (x = next_id (store s))) as [->|Hne].
      * rewrite lookup_insert_eq. split; [done|]. intros Hgx.
        assert (next_id (store s) < next_id (store s)); [|lia]. apply (st_dom _ _ _ Hst). by eexists.
      * by rewrite lookup_insert_ne.
    + intros gx. rewrite lookup_insert_eq. by intros [= <-].
    + rewrite <- (delete_insert_id opens (c_gather c) (c_pending c)) by done.
      eapply inv_close with (gf := gf); [by apply inv_alloc| |done|by rewrite lookup_insert_eq|by left|done|done].
      by rewrite lookup_insert_ne.
  - wp_steps. split; [|done]. split; [done|done| |]; cbn.
    + intros x gx Hx. by rewrite lookup_insert_ne.
    + intros gx. rewrite lookup_insert_eq. by intros [= <-].
Qed.

(** ** The loop *)

Definition blocked_view (t g : nat) (s : VM) : Prop := forall k, tasks (scheduler s) !! t = Some k ->
  inv ∅ None None (put_tasks t (set_state (Blocked g) k) (scheduler s)) (objects (store s)) (next_id (store s)).

Definition kept (s s' : VM) : Prop :=
  current_task (scheduler s') = current_task (scheduler s) /\ current_frame s' = current_frame s
  /\ forall t k, tasks (scheduler s) !! t = Some k -> tasks (scheduler s') !! t = Some k.

(** The root of the stack is the gather [g], which the running task [t] awaits. *)
Record loop_ok (t g : nat) (s0 : VM) (l : CommitLoop) : Prop := {
  lo_stack : stack_ok t (objects (store (l_vm l))) (l_stack l);
  lo_root : c_gather <$> last (l_stack l) = Some g;
  lo_good : good (opens_of (l_stack l)) None (Some t) (l_vm l);
  lo_kept : kept s0 (l_vm l) }.

Definition loop_end (t g : nat) (s0 : VM) (r : CommitEnd) : Prop :=
  let '(stack, out, s) := r in
  match out with
  | Ok (Ok (PReady _)) => good ∅ None (Some t) s /\ kept s0 s
  | Ok (Ok PPending) => blocked_view t g s /\ contexts_ok (scheduler s) /\ kept s0 s
  | Ok (Err _) => good (opens_of stack) None (Some t) s /\ NoDup (map c_gather stack) /\ kept s0 s
  | Err (Raise _) => False
  | Err (Panicked p) => p = TooLarge
  end.

Lemma wp_inv {A} (m : AM A) s Q R : wp m s Q R ->
  match m s with
  | (Ok a, s') => Q a s'
  | (Err (Raise e), s') => R e s'
  | (Err (Panicked p), s') => p = TooLarge
  end.
Proof. unfold wp, ensures. by destruct (m s) as [[a|[e|p]] s']. Qed.

Lemma stack_NoDup t opens objs n st : store_ok opens objs n -> stack_ok t objs st -> NoDup (map c_gather st).
Proof.
  intros Hst. induction st as [|c rest IH]; cbn [map]; [done|]. intros Hs. constructor.
  - intros Hin. apply list_elem_of_fmap in Hin as (p & Hp & Hin).
    pose proof (stack_descends _ _ _ _ _ _ Hst Hs) as Hd. rewrite Forall_forall in Hd. specialize (Hd p Hin). lia.
  - destruct rest as [|p rest]; [constructor|]. destruct Hs as (_ & _ & _ & _ & _ & Hs). by apply IH.
Qed.

Lemma kept_through s1 s2 s3 : kept s1 s2 -> kept s2 s3 -> kept s1 s3.
Proof. intros (A1 & A2 & A3) (B1 & B2 & B3). split_and!; [congruence|congruence|auto]. Qed.

Lemma kept_still s s' : still s s' -> kept s s'.
Proof. by intros []. Qed.
Lemma kept_closed g s s' : closed g s s' -> kept s s'.
Proof. intros [E1 E2 _ _]. split; [by rewrite E1|]. by rewrite E1. Qed.

Lemma frame_resume objs' p gf slot child poll :
  objs' !! c_gather p = Some (OGather gf) -> ga_state gf = GatherPending ->
  slots_ok (items gf) (c_next p) (c_pending p) (c_results p) -> slot = c_next p -> items gf !! slot = Some child ->
  c_pending p !! child = None -> frame_ok objs' (resume_after_child child slot poll p).
Proof.
  intros Hg Hp Hs -> Hit Hpc. exists gf. split; [by destruct poll|]. split; [done|].
  destruct poll; cbn; [by apply slots_ready with child|by apply slots_pending].
Qed.

(** The frame under the one that settled takes its result. *)
Lemma stack_resume t objs p rest child slot poll :
  stack_ok t objs (p :: rest) -> frame_ok objs (resume_after_child child slot poll p) ->
  stack_ok t objs (resume_after_child child slot poll p :: rest).
Proof. intros [_ Hr] Hf. split; [done|]. by destruct poll. Qed.

Lemma blocked_root t s c gf :
  good (<[c_gather c := c_pending c]> ∅) None (Some t) s -> objects (store s) !! c_gather c = Some (OGather gf) ->
  ga_state gf = GatherPending -> slots_ok (items gf) (c_next c) (c_pending c) (c_results c) ->
  length (c_results c) <= c_next c -> c_awaiter c = TaskAwaiter t -> c_pending c <> ∅ ->
  blocked_view t (c_gather c)
    (set_store (fun h => mkStore (<[c_gather c := OGather (set_ga_state (awaited_frame c) gf)]> (objects h))
                           (next_id h) (counts h)) s).
Proof.
  intros [Hinv Hctx] Hg Hp Hslots Hn Ha Hpc k Hk. cbn in *.
  rewrite <- (delete_insert_id (∅ : opens_t) (c_gather c) (c_pending c)) by by rewrite lookup_empty.
  eapply inv_close_root; [exact Hinv|exact Hk|exact Hg|done|by rewrite lookup_insert_eq|done|done| |done].
  by eapply slots_ok_full.
Qed.

Lemma nested_awaited opens t s c p gf gp :
  good (<[c_gather c := c_pending c]> (<[c_gather p := c_pending p]> opens)) None (Some t) s ->
  <[c_gather p := c_pending p]> opens !! c_gather c = None ->
  objects (store s) !! c_gather c = Some (OGather gf) -> ga_state gf = GatherPending ->
  slots_ok (items gf) (c_next c) (c_pending c) (c_results c) -> length (c_results c) <= c_next c ->
  c_pending c <> ∅ -> c_awaiter c = GatherSlot (c_gather p) (c_gather c) ->
  objects (store s) !! c_gather p = Some (OGather gp) -> c_gather c ∈ items gp ->
  good (<[c_gather p := <[c_gather c := [c_next p]]> (c_pending p)]> opens) None (Some t)
    (set_store (fun h => mkStore (<[c_gather c := OGather (set_ga_state (awaited_frame c) gf)]> (objects h))
                           (next_id h) (counts h)) s).
Proof.
  intros [Hinv Hctx] Hop Hg Hp Hslots Hn Hpc Ha Hgp Hit.
  assert (c_gather c <> c_gather p) as Hne.
  { intros E. rewrite E, lookup_insert_eq in Hop. done. }
  set (pc' := <[c_gather c := [c_next p]]> (c_pending p)).
  set (O' := <[c_gather p := pc']> (<[c_gather c := c_pending c]> (<[c_gather p := c_pending p]> opens))).
  assert (inv O' (Some (GatherSlot (c_gather p) (c_gather c))) (Some t) (scheduler s) (objects (store s))
            (next_id (store s))) as Hinv'.
  { apply (inv_register _ _ _ _ _ _ gp (c_pending p)); [done| |exact Hgp|done| |].
    - rewrite lookup_insert_ne by done. by rewrite lookup_insert_eq.
    - intros o Ho. simplify_eq. cbn. by rewrite Hp.
    - by apply (no_task_of _ _ _ _ _ _ (conj Hinv Hctx) Hg). }
  assert (delete (c_gather c) O' = <[c_gather p := pc']> opens) as Ed.
  { rewrite lookup_insert_ne in Hop by done. unfold O'.
    rewrite delete_insert_ne by done. rewrite delete_insert_id; [by rewrite insert_insert_eq|].
    by rewrite lookup_insert_ne. }
  split; [|done]. cbn. rewrite <- Ed. eapply (inv_close _ _ _ _ _ _ _ _ (c_pending c)); [exact Hinv'|done|done| | | |].
  - unfold O'. rewrite lookup_insert_ne by done. by rewrite lookup_insert_eq.
  - right. unfold awaited_frame. eauto.
  - unfold awaited_frame. intros aw [= <-]. split; [split; [by eapply slots_ok_full|done]|].
    exists (c_gather p). split; [done|]. eapply slot_registered; [exact Hgp|done|unfold O'; by rewrite lookup_insert_eq|].
    unfold pc'. rewrite lookup_insert_eq. eauto.
  - intros a [= <-]. exists (c_gather p). split; [done|]. eexists. by split.
Qed.

(** What is left to open, and the frames. *)
Definition is_pending_gather (o : Obj) : bool :=
  match o with OGather g => match ga_state g with GatherPending => true | _ => false end | _ => false end.

Definition unopened (opens : opens_t) (objs : objs_t) : objs_t :=
  filter (fun p => is_pending_gather p.2 = true /\ opens !! p.1 = None) objs.

Definition commit_measure (l : CommitLoop) : nat :=
  2 * size (unopened (opens_of (l_stack l)) (objects (store (l_vm l)))) + length (l_stack l).

Lemma unopened_lookup opens objs x o :
  unopened opens objs !! x = Some o <-> objs !! x = Some o /\ is_pending_gather o = true /\ opens !! x = None.
Proof. unfold unopened. by rewrite map_lookup_filter_Some. Qed.

Lemma unopened_sub opens opens' objs objs' :
  (forall x gf, objs' !! x = Some (OGather gf) -> ga_state gf = GatherPending -> opens' !! x = None ->
     objs !! x = Some (OGather gf) /\ opens !! x = None) ->
  unopened opens' objs' ⊆ unopened opens objs.
Proof.
  intros Hsub. apply map_subseteq_spec. intros x o. rewrite !unopened_lookup. intros (Ho & Hp & Hx).
  destruct o as [| |gf| |]; try done. cbn in Hp. destruct (ga_state gf) eqn:Hg; try done.
  destruct (Hsub x gf Ho Hg Hx) as [? ?]. cbn. by rewrite Hg.
Qed.

Lemma unopened_push opens pc objs x gf :
  objs !! x = Some (OGather gf) -> ga_state gf = GatherPending -> opens !! x = None ->
  size (unopened (<[x := pc]> opens) objs) < size (unopened opens objs).
Proof.
  intros Hx Hg Hop.
  assert (unopened opens objs !! x = Some (OGather gf)) as Hin.
  { apply unopened_lookup. cbn. by rewrite Hg. }
  assert (unopened (<[x := pc]> opens) objs ⊆ delete x (unopened opens objs)) as Hsub.
  { apply map_subseteq_spec. intros y o. rewrite lookup_delete_Some, !unopened_lookup. intros (Ho & Hp & Hy).
    destruct (decide (y = x)) as [->|Hne]; [by rewrite lookup_insert_eq in Hy|].
    rewrite lookup_insert_ne in Hy by done. done. }
  apply map_subseteq_size in Hsub. rewrite map_size_delete_Some in Hsub by eauto.
  assert (size (unopened opens objs) <> 0) by (apply map_size_ne_0_lookup; eauto). lia.
Qed.

Lemma step_frame t l c rest s0 g :
  loop_ok t g s0 l -> l_stack l = c :: rest ->
  match step_gather_commit (length (c_results c)) c (l_vm l) with
  | (Ok r, s) => stepped (opens_of rest) t c (l_vm l) r s
  | (Err e, s) => e = Panicked TooLarge
  end.
Proof.
  intros [Hs _ Hg _] E. rewrite E in *.
  assert (wp (step_gather_commit (length (c_results c)) c) (l_vm l) (stepped (opens_of rest) t c (l_vm l)) never) as Hw.
  { apply step_gather_commit_ok; [done|apply Hs|lia]. }
  apply wp_inv in Hw. destruct (step_gather_commit _ c (l_vm l)) as [[r|[e|p]] s]; [done|done|by subst].
Qed.

Lemma stepped_stack t c c1 rest s s1 out :
  stepped (opens_of rest) t c s (c1, out) s1 -> stack_ok t (objects (store s)) (c :: rest) ->
  stack_ok t (objects (store s1)) (c1 :: rest) /\ good (opens_of (c1 :: rest)) None (Some t) s1
  /\ kept s s1 /\ c_gather c1 = c_gather c.
Proof.
  intros (Hst & Hg & Hf & [F1 F2 F3] & _) Hs. pose proof (stack_still _ _ _ _ Hst Hs) as Hs1. split_and!.
  - split; [done|]. destruct Hs1 as [_ Hr]. destruct rest; by rewrite ?F1, ?F2, ?F3.
  - cbn [opens_of]. by rewrite F1.
  - by apply kept_still.
  - done.
Qed.

Lemma last_cons_root c c1 (rest : list GatherCommit) g :
  c_gather c1 = c_gather c -> c_gather <$> last (c :: rest) = Some g -> c_gather <$> last (c1 :: rest) = Some g.
Proof. intros E. destruct rest; cbn; [by rewrite E|done]. Qed.

Lemma loop_end_error t g s0 st s e :
  stack_ok t (objects (store s)) st -> good (opens_of st) None (Some t) s -> kept s0 s -> loop_end t g s0 (st, Ok (Err e), s).
Proof. intros Hs Hg Hk. split; [done|]. split; [|done]. by eapply stack_NoDup; [apply (inv_store _ _ _ _ _ _ (proj1 Hg))|]. Qed.

Lemma loop_push t g s0 l c rest c1 s1 nested cap steps :
  loop_ok t g s0 l -> l_stack l = c :: rest -> stepped (opens_of rest) t c (l_vm l) (c1, Ok (Some nested)) s1 ->
  let l' := mkLoop (nested :: c1 :: rest) cap steps s1 in
  loop_ok t g s0 l' /\ commit_measure l' < commit_measure l.
Proof.
  intros [Hs Hroot Hg Hk] E Hst. rewrite E in *.
  destruct (stepped_stack _ _ _ _ _ _ _ Hst Hs) as (Hs1 & Hg1 & Hk1 & Hc1).
  destruct Hst as (Hst & _ & _ & _ & (gf & gi & Hgf & Hit & Hpc & Hgi & Hpi & Hn)).
  assert (stack_ok t (objects (store s1)) (nested :: c1 :: rest)) as Hs2.
  { split; [exists gi; split; [done|]; split; [done|]; rewrite Hn; apply slots_new|].
    split; [by exists gf|]. split; [done|]. rewrite Hn at 1 3. done. }
  pose proof (head_not_open _ _ _ _ _ _ (inv_store _ _ _ _ _ _ (proj1 Hg1)) Hs2) as Hop.
  split; [split; cbn [l_stack l_vm]|].
  - done.
  - cbn [last]. by apply (last_cons_root c).
  - destruct Hg1 as [Hinv1 Hctx1]. split; [|done]. cbn [opens_of]. rewrite Hn at 2. cbn [c_pending].
    by eapply inv_open.
  - by eapply kept_through.
  - unfold commit_measure. cbn [l_stack l_vm length]. rewrite E. cbn [length].
    pose proof (unopened_push (opens_of (c1 :: rest)) (c_pending nested) _ _ _ Hgi Hpi Hop) as Hlt.
    assert (size (unopened (opens_of (c1 :: rest)) (objects (store s1)))
            <= size (unopened (opens_of (c :: rest)) (objects (store (l_vm l))))) as Hle.
    { apply map_subseteq_size, unopened_sub. intros x gx Hx _ Hox. split; [by apply (sl_gathers _ _ Hst)|].
      cbn [opens_of] in *. rewrite Hc1 in Hox. apply lookup_insert_None in Hox. by apply lookup_insert_None. }
    cbn [opens_of] in *. lia.
Qed.

Lemma loop_pop t g s0 l c c1 p rest s1 s2 poll gf cap steps :
  loop_ok t g s0 l -> l_stack l = c :: p :: rest -> stepped (opens_of (p :: rest)) t c (l_vm l) (c1, Ok None) s1 ->
  objects (store s1) !! c_gather c1 = Some (OGather gf) -> ga_state gf = GatherPending ->
  slots_ok (items gf) (c_next c1) (c_pending c1) (c_results c1) ->
  closed (c_gather c1) s1 s2 ->
  match poll with
  | PReady _ => good (opens_of (p :: rest)) None (Some t) s2
  | PPending => c_pending c1 <> ∅
      /\ s2 = set_store (fun h => mkStore (<[c_gather c1 := OGather (set_ga_state (awaited_frame c1) gf)]> (objects h))
                                    (next_id h) (counts h)) s1
  end ->
  let l' := mkLoop (resume_after_child (c_gather c1) (c_next p) poll p :: rest) cap steps s2 in
  loop_ok t g s0 l' /\ commit_measure l' < commit_measure l.
Proof.
  intros [Hs Hroot Hg Hk] E Hst Hgf Hpg Hslots Hcl Hpoll. rewrite E in *.
  destruct (stepped_stack _ _ _ _ _ _ _ Hst Hs) as (Hs1 & Hg1 & Hk1 & Hc1).
  destruct Hst as (Hst & _ & _ & _ & Hend).
  pose proof (inv_store _ _ _ _ _ _ (proj1 Hg1)) as Hsto.
  pose proof (head_not_open _ _ _ _ _ _ Hsto Hs1) as Hop.
  pose proof Hs1 as (_ & (gp & Hgp & Hit) & Hpc & Haw & Hslot & Hsp).
  assert (c_gather c1 <> c_gather p) as Hne.
  { intros Ec. cbn [opens_of] in Hop. rewrite Ec, lookup_insert_eq in Hop. done. }
  assert (stack_ok t (objects (store s2)) (p :: rest)) as Hs2.
  { eapply stack_closed; [exact Hcl|exact Hsto|exact Hs1|done]. }
  pose proof Hs2 as [(gp' & Hgp' & Hpp & Hps) _].
  assert (gp' = gp) as -> by (apply (cd_gathers _ _ _ Hcl) in Hgp'; [congruence|done]).
  split; [split; cbn [l_stack l_vm]|].
  - eapply stack_resume; [done|]. by eapply frame_resume.
  - change (c_gather <$> last (c :: p :: rest) = Some g) in Hroot. cbn [last] in Hroot.
    apply (last_cons_root p); [by destruct poll|done].
  - destruct poll as [v|]; [exact Hpoll|]. destruct Hpoll as [Hne' ->].
    cbn [opens_of resume_after_child commit_poll commit_pending c_gather c_pending].
    eapply (nested_awaited _ _ _ c1 p gf gp); try done. by eapply list_elem_of_lookup_2.
  - eapply kept_through; [done|]. eapply kept_through; [done|]. by eapply kept_closed.
  - unfold commit_measure. cbn [l_stack l_vm length]. rewrite E. cbn [length].
    assert (size (unopened (opens_of (resume_after_child (c_gather c1) (c_next p) poll p :: rest)) (objects (store s2)))
            <= size (unopened (opens_of (c :: p :: rest)) (objects (store (l_vm l))))) as Hle; [|lia].
    apply map_subseteq_size, unopened_sub. intros x gx Hx Hpx Hox.
    assert (x <> c_gather c1) as Hxc by (intros ->; by apply (cd_closed _ _ _ Hcl) in Hx).
    split; [by apply (sl_gathers _ _ Hst), (cd_gathers _ _ _ Hcl)|].
    cbn [opens_of] in *. rewrite Hc1 in Hxc.
    replace (c_gather (resume_after_child (c_gather c1) (c_next p) poll p)) with (c_gather p) in Hox by by destruct poll.
    apply lookup_insert_None. split; [|done]. apply lookup_insert_None in Hox. by apply lookup_insert_None.
Qed.

Lemma commit_step_ok t g s0 l :
  loop_ok t g s0 l ->
  match commit_step l with
  | inl l' => loop_ok t g s0 l' /\ commit_measure l' < commit_measure l
  | inr r => loop_end t g s0 r
  end.
Proof.
  intros Hl. pose proof Hl as [Hs Hroot Hg Hk]. unfold commit_step.
  destruct (check_memory_time_every (l_steps l)); [by apply loop_end_error|].
  destruct (l_stack l) as [|c rest] eqn:E; [done|].
  pose proof (step_frame t l c rest s0 g Hl E) as Hstep.
  destruct (step_gather_commit (length (c_results c)) c (l_vm l)) as [[[c1 out]|e] s1]; [|by subst e].
  destruct (stepped_stack _ _ _ _ _ _ _ Hstep Hs) as (Hs1 & Hg1 & Hk1 & Hc1).
  pose proof (kept_through _ _ _ Hk Hk1) as Hk2.
  destruct out as [[nested|]|e].
  - destruct (check_commit_stack_growth _ _).
    + destruct (quiet_drop_commit nested s1) as [c2 ->]. by apply loop_end_error.
    + by apply (loop_push t g s0 l c rest).
  - pose proof Hstep as (_ & _ & _ & _ & Hend). pose proof Hs1 as [(gf & Hgf & Hpg & Hslots) Hrest].
    pose proof (inv_store _ _ _ _ _ _ (proj1 Hg1)) as Hsto.
    pose proof (settle_gather_commit_ok (opens_of rest) t s1 c1 gf Hg1 (head_not_open _ _ _ _ _ _ Hsto Hs1) Hgf Hpg Hslots Hend) as Hw.
    apply wp_inv in Hw. destruct (settle_gather_commit c1 s1) as [[poll|[e|p]] s2]; [|done|done].
    destruct Hw as [Hcl Hpoll]. destruct rest as [|p rest].
    + pose proof (kept_through _ _ _ Hk2 (kept_closed _ _ _ Hcl)) as Hk3. destruct poll as [v|]; [by split|].
      destruct Hpoll as [Hne ->]. split; [|split; [apply Hg1|done]].
      cbn in Hroot. injection Hroot as <-. rewrite <- Hc1. by eapply blocked_root.
    + destruct Hrest as (_ & _ & _ & Hslot & _). rewrite Hslot.
      by eapply (loop_pop t g s0 l c c1 p rest s1 s2 poll gf).
  - by apply loop_end_error.
Qed.

(** ** Awaiting *)

Lemma unwind_ok t st e s :
  good (opens_of st) None (Some t) s -> NoDup (map c_gather st) ->
  wp (unwind_gather_commits st e) s (fun _ s' => good ∅ None (Some t) s' /\ kept s s') never.
Proof.
  revert s. induction st as [|c st IH]; intros s Hg Hnd; cbn [unwind_gather_commits]; [by wp_steps|].
  cbn [map] in Hnd. apply NoDup_cons in Hnd as [Hni Hnd]. pose proof Hg as [Hinv Hctx].
  destruct (st_opens _ _ _ (inv_store _ _ _ _ _ _ Hinv) (c_gather c) (c_pending c)) as (gf & Hgf & Hp).
  { cbn. by rewrite lookup_insert_eq. }
  assert (opens_of st !! c_gather c = None) as Hop.
  { apply opens_of_not_in. apply Forall_forall. intros p Hp' E. apply Hni. rewrite E. by apply list_elem_of_fmap_2. }
  wp_step. eapply wp_read_gather; [exact Hgf|]. wp_step. wp_step. wp_step. wp_step.
  eapply wp_mono; [apply IH; [|done]| |done].
  - split; [|done]. rewrite <- (delete_insert_id (opens_of st) (c_gather c) (c_pending c)) by done.
    eapply (inv_close _ _ _ _ _ _ _ gf (c_pending c) (GatherFailed e)); try done; [by rewrite lookup_insert_eq|by left].
  - intros [] s' [Hg' Hk]. split; [done|]. eapply kept_through; [|exact Hk]. by split.
Qed.

(** The walk of a gather ends: a round opens a gather that is [Pending] or settles one. *)
Lemma commit_loop_ends t g s0 l :
  loop_ok t g s0 l -> l_vm l = s0 -> length (l_stack l) = 1 -> exists r, iterate commit_step (commit_fuel s0) l = inr r.
Proof.
  intros Hl <- H1l.
  eapply (iterate_ends commit_step (loop_ok t g (l_vm l)) (fun l => Z.of_nat (commit_measure l))); [lia| |exact Hl|].
  - intros l1 Hl1. pose proof (commit_step_ok t g (l_vm l) l1 Hl1) as Hc. destruct (commit_step l1); [|done].
    destruct Hc. split; [done|lia].
  - unfold commit_measure, commit_fuel. rewrite H1l.
    assert (size (unopened (opens_of (l_stack l)) (objects (store (l_vm l)))) <= size (objects (store (l_vm l)))); [|lia].
    apply map_subseteq_size, map_subseteq_spec. intros x o. rewrite unopened_lookup. tauto.
Qed.

(** The loop on a gather that is awaited for the first time. *)
Definition root_loop (t g : nat) (gf : GatherFuture) (s : VM) : CommitLoop :=
  mkLoop [mkCommit g (TaskAwaiter t) None 0 (replicate (item_count gf) None) ∅] 1 0 s.

Lemma root_loop_ok t g s gf :
  good ∅ None (Some t) s -> objects (store s) !! g = Some (OGather gf) -> ga_state gf = GatherPending ->
  loop_ok t g s (root_loop t g gf s).
Proof.
  intros [Hinv Hctx] Hg Hp. split; [|done| |done].
  - split; [|done]. exists gf. split; [done|]. split; [done|]. apply slots_new.
  - split; [|done]. cbn. eapply inv_open; [done|exact Hg|done|done].
Qed.

Lemma commit_gather_tree_ok t g s gf :
  good ∅ None (Some t) s -> objects (store s) !! g = Some (OGather gf) -> ga_state gf = GatherPending ->
  wp (commit_gather_tree g (TaskAwaiter t)) s
    (fun p s' => kept s s' /\ match p with
                              | PReady _ => good ∅ None (Some t) s'
                              | PPending => blocked_view t g s' /\ contexts_ok (scheduler s')
                              end)
    (fun _ s' => kept s s' /\ good ∅ None (Some t) s').
Proof.
  intros Hgood Hg Hp. unfold commit_gather_tree. wp_step. unfold open_gather_commit. wp_step.
  eapply wp_read_gather; [exact Hg|]. wp_step. cbv beta.
  set (l := root_loop t g gf s).
  assert (loop_ok t g s l) as Hl by by apply root_loop_ok.
  destruct (commit_loop_ends t g s l Hl) as [r Hr]; [done|done|].
  pose proof (iterate_inv commit_step (loop_ok t g s) (loop_end t g s) (commit_fuel s) l) as Hend.
  rewrite Hr in Hend. unfold wp, ensures. change (mkLoop _ 1 0 s) with l. rewrite Hr. specialize (Hend ltac:(intros a Ha; pose proof (commit_step_ok t g s a Ha); destruct (commit_step a); tauto) Hl).
  destruct r as [[st [[[v|]|e]|[e|p]]] s1]; cbn in Hend.
  - by destruct Hend.
  - by destruct Hend as (? & ? & ?).
  - destruct Hend as (Hg1 & Hnd & Hk1).
    assert (wp (unwind_gather_commits st e ;;; raise e) s1
      (fun p s' => kept s s' /\ match p with
                              | PReady _ => good ∅ None (Some t) s'
                              | PPending => blocked_view t g s' /\ contexts_ok (scheduler s')
                              end) (fun _ s' => kept s s' /\ good ∅ None (Some t) s')) as Hw; [|exact Hw].
    wp_step. eapply wp_mono; [by apply (unwind_ok t)| |done]. intros [] s2 [Hg2 Hk2]. wp_step.
    split; [by eapply kept_through|done].
  - done.
  - done.
Qed.

(** The outcome of awaiting [id] as the running task. *)
Definition awaited (t id : nat) (s : VM) (p : Poll) (s' : VM) : Prop :=
  kept s s' /\ match p with
               | PReady _ => good ∅ None (Some t) s'
               | PPending => blocked_view t id s' /\ contexts_ok (scheduler s')
               end.

Lemma await_gather_ok t g s gf :
  good ∅ None (Some t) s -> objects (store s) !! g = Some (OGather gf) ->
  wp (await_gather_future g (TaskAwaiter t)) s (awaited t g s) (fun _ s' => kept s s' /\ good ∅ None (Some t) s').
Proof.
  intros Hg Hgf. unfold await_gather_future. wp_step. eapply wp_read_gather; [exact Hgf|]. wp_step. wp_step.
  unfold poll_settled_gather. destruct (ga_state gf) as [|aw|v|e] eqn:Hst.
  - wp_step. eapply wp_mono; [by apply (commit_gather_tree_ok t g s gf)|done|done].
  - wp_steps. done.
  - wp_steps. split; done.
  - wp_steps. done.
Qed.

Lemma await_external_ok t f s ex :
  good ∅ None (Some t) s -> objects (store s) !! f = Some (OExternal ex) ->
  wp (await_external_future f (TaskAwaiter t)) s (awaited t f s) (fun _ s' => kept s s' /\ good ∅ None (Some t) s').
Proof.
  intros [Hinv Hctx] Hf. unfold await_external_future. wp_step. eapply wp_read_external; [exact Hf|].
  destruct (ex_state ex) as [[b|]|v|e] eqn:Hx; wp_steps; try (by split).
  split; [by split|]. split; [|done]. intros k Hk. cbn in *.
  eapply inv_block; [exact Hinv|exact Hk|exact Hf| | |done| | | |]; cbn; try by rewrite ?Hx.
  - eapply store_put_plain; [apply (inv_store _ _ _ _ _ _ Hinv)|exact Hf|done|done|done].
  - intros g c. by eapply slot_put_plain.
  - intros g. by rewrite (expected_put_plain' _ _ _ _ _ _ Hf).
Qed.

(** ** The [Await] instruction *)

Lemma block_ok t id s (Q : unit -> VM -> Prop) R :
  current_task (scheduler s) = Some t -> resumed t s -> blocked_view t id s -> contexts_ok (scheduler s) ->
  (forall s', good ∅ None None s' -> current_task (scheduler s') = Some t ->
     current_frame s' = current_frame s -> Q tt s') ->
  wp (block_current_on id) s Q R.
Proof.
  intros Hcur (k & Hk & Hr) Hb Hctx HQ. unfold block_current_on. do 2 wp_step. rewrite Hcur. wp_step.
  eapply wp_get_task; [exact Hk|]. wp_step. apply wp_assert; [by rewrite Hr|]. wp_steps. apply HQ; [|done|done].
  split; [by apply Hb|]. split; [apply put_tasks_alive, (cx_main _ Hctx)|].
  intros x kx Hx Hne. cbn in Hx, Hne. rewrite lookup_insert_ne in Hx by congruence. by apply (cx_new _ Hctx).
Qed.

Lemma function_namespace_ok g s (Q : option FrameNamespace -> VM -> Prop) R :
  (forall n c, Q n (set_counts c s)) -> wp (function_namespace g) s Q R.
Proof.
  intros HQ. destruct g as [g|]; cbn; wp_steps; [apply HQ|].
  specialize (HQ None (counts (store s))). by destruct s as [? []].
Qed.

(** The context alone changed. *)
Lemma running_core t s s' :
  same_core s s' -> is_parked (current_frame s') = false -> running t s -> running t s'.
Proof.
  intros Hs Hp (Hg & Hc & _ & Hr). split; [by eapply good_same_core|]. destruct Hs as (E & _ & _). unfold resumed. by rewrite E.
Qed.

Lemma await_coroutine_ok t c co s :
  running t s -> objects (store s) !! c = Some (OCoroutine co) ->
  wp (await_coroutine c) s (fun r s' => r = FramePushed /\ running t s') (fun _ s' => running t s').
Proof.
  intros Hr Hc. pose proof Hr as ([Hinv Hctx] & Hcur & Hpk & Hres). unfold await_coroutine. wp_step.
  eapply wp_read_coroutine; [exact Hc|]. case_decide; [|by wp_steps]. do 4 wp_step.
  match goal with |- wp _ ?x _ _ => set (s1 := x) end.
  assert (running t s1) as Hr1.
  { split; [|done]. split; [|done]. eapply inv_put_same; [exact Hinv|exact Hc|apply same_links_coroutine]. }
  clearbody s1. clear Hr Hinv Hctx Hcur Hpk Hres Hc.
  wp_step. unfold start_coroutine_frame. do 3 wp_step. unfold locals_count_of. case_match; [|done]. do 3 wp_step. wp_step.
  apply function_namespace_ok. intros n c1. wp_step. unfold new_function. wp_step. apply stack_index_ok. wp_step.
  apply stack_index_ok. wp_step. unfold push_frame. do 2 wp_step.
  pose proof Hr1 as (_ & _ & Hpk & _). cbn [set_counts set_store set_stack current_frame]. rewrite Hpk.
  wp_step. apply wp_attempt. unfold incr_recursion. do 2 wp_step. destruct (check_recursion_depth _) as [e|].
  - wp_step. unfold cleanup_frame_state. wp_steps. by eapply running_core; [|exact Hpk|exact Hr1].
  - wp_step. apply wp_usize. wp_step. unfold push_admitted_frame. wp_steps. split; [done|]. by eapply running_core; [| |exact Hr1].
Qed.

Lemma kept_running t s s' : running t s -> kept s s' -> good ∅ None (Some t) s' -> running t s'.
Proof.
  intros (_ & Hc & Hp & k & Hk & Hr) (K1 & K2 & K3) Hg. split; [done|]. rewrite K1, K2. split; [done|].
  split; [done|]. exists k. auto.
Qed.

(** Where an [Await] leaves the machine: [Yield] keeps the context of the task that
    awaits. *)
Definition await_end (t : nat) (r : AwaitResult) (s' : VM) : Prop :=
  match r with
  | ValueReady _ => running t s'
  | FramePushed => activated s'
  | Yield _ => good ∅ None None s' /\ current_task (scheduler s') = Some t /\ is_parked (current_frame s') = false
               /\ ready_queue (scheduler s') = []
  end.

Lemma switch_ok t s :
  good ∅ None None s -> current_task (scheduler s) = Some t -> is_parked (current_frame s) = false ->
  wp switch_or_yield s (await_end t) (fun _ s' => some_running s').
Proof.
  intros Hg Hcur Hpk. unfold switch_or_yield. wp_step. unfold next_ready_task. do 2 wp_step.
  destruct (ready_queue (scheduler s)) as [|x q] eqn:Hq.
  - wp_steps. by split.
  - do 4 wp_step. eapply wp_mono; [eapply activate_task_ok; [apply Nat.lt_succ_diag_r| |]| |done].
    + by apply queue_next_good.
    + intros c _. exact Hpk.
    + intros [] s1 H1'. by wp_steps.
Qed.

Lemma poll_ok t id s0 s p :
  running t s0 -> awaited t id s0 p s ->
  wp (match p with
      | PReady v => sret (ValueReady v)
      | PPending => block_current_on id ;;; switch_or_yield
      end) s (await_end t) (fun _ s' => some_running s').
Proof.
  intros Hr [Hk Hp]. destruct p as [v|].
  - wp_step. by eapply kept_running.
  - destruct Hp as [Hb Hctx]. destruct Hr as (_ & Hc & Hpk & k & Hkt & Hrs). destruct Hk as (K1 & K2 & K3). wp_step.
    apply (block_ok t); [by rewrite K1|exists k; auto|done|done|]. intros s' Hg' Hc' Hf'. apply switch_ok; [done|done|].
    congruence.
Qed.

Lemma exec_get_awaitable_ok t s v rest :
  running t s -> stack s = rest ++ [v] ->
  (forall id, v = VRef id -> is_Some (objects (store s) !! id)) ->
  wp exec_get_awaitable s (await_end t) (fun _ s' => some_running s').
Proof.
  intros Hr Hst Hlive. unfold exec_get_awaitable. wp_step. unfold pop. do 2 wp_step.
  rewrite Hst, rev_app_distr. cbn [rev app]. do 6 wp_step. cbn [scheduler set_stack].
  match goal with |- wp _ ?x _ _ => set (s1 := x) end.
  assert (running t s1) as Hr1 by (by eapply running_core; [|apply Hr|exact Hr]).
  pose proof Hr1 as (Hg & Hcur & _).
  eapply wp_expect; [exact Hcur|]. wp_step. apply wp_attempt.
  assert (forall r s2, await_end t r s2 -> wp (drop_value v ;;; sret r) s2 (await_end t) (fun _ s' => some_running s')) as Hok.
  { intros r s2 H2. wp_steps. destruct r; try exact H2. all: by destruct H2. }
  assert (forall e s2, some_running s2 -> wp (drop_value v ;;; raise (A := AwaitResult) e) s2 (await_end t) (fun _ s' => some_running s')) as Herr.
  { intros e s2 H2. by wp_steps. }
  assert (wp (raise object_not_awaitable) s1 (fun r s2 => await_end t r s2) (fun _ s' => some_running s')) as Hno.
  { wp_step. by exists t. }
  eapply wp_mono; [| |].
  2: { intros r s2 H2. exact (Hok r s2 H2). }
  2: { intros e s2 H2. exact (Herr e s2 H2). }
  destruct v as [| | | | | | | | | | | | | | | |id|]; try exact Hno.
  destruct (Hlive id eq_refl) as [o Ho]. wp_step. eapply wp_read; [exact Ho|].
  destruct o as [co|ex|gf| |]; try exact Hno.
  - eapply wp_mono; [by eapply await_coroutine_ok| |].
    + intros r s2 [-> H2]. left. by exists t.
    + intros e s2 H2. by exists t.
  - wp_step. eapply wp_mono; [by eapply await_external_ok| |].
    + intros p s2 H2. by eapply poll_ok.
    + intros e s2 [Hk H2]. exists t. by eapply kept_running.
  - wp_step. eapply wp_mono; [by eapply await_gather_ok| |].
    + intros p s2 H2. by eapply poll_ok.
    + intros e s2 [Hk H2]. exists t. by eapply kept_running.
Qed.

End Commit.
