(* ===== verification/AsyncCleanup.v ===== *)
(** * The end of a run

    [Scheduler::cleanup] cancels every task, and with a task what it waits for: the
    walks end within their fuel, and nothing is left. *)
From S2P Require Import Prelude HeapData Scheduler AsyncExec AsyncInv AsyncSafe.
Local Open Scope monty_scope.

(** ** Walking a gather

    A gather's items are older than it is, so one of weight [2 ^ id] outweighs them
    all. *)

Definition weight (l : list nat) : Z := foldr (fun g z => 2 ^ Z.of_nat g + z)%Z 0%Z l.

Lemma weight_cons g l : weight (g :: l) = (2 ^ Z.of_nat g + weight l)%Z.
Proof. done. Qed.

Lemma weight_nonneg l : (0 <= weight l)%Z.
Proof. induction l as [|g l IH]; [done|]. rewrite weight_cons. pose proof (Z.pow_nonneg 2 (Z.of_nat g) ltac:(lia)). lia. Qed.

Lemma weight_app l k : weight (l ++ k) = (weight l + weight k)%Z.
Proof. induction l as [|g l IH]; [done|]. cbn [app]. rewrite !weight_cons. lia. Qed.

#[export] Instance weight_perm : Proper (Permutation ==> eq) weight.
Proof. induction 1; rewrite ?weight_cons; lia. Qed.

Lemma weight_seq n : (weight (seq 0 n) + 1 = 2 ^ Z.of_nat n)%Z.
Proof.
  induction n as [|n IH]; [done|]. rewrite seq_S, weight_app, weight_cons, Nat2Z.inj_succ, Z.pow_succ_r by lia.
  change (weight []) with 0%Z. change (0 + n) with n. lia.
Qed.

Lemma weight_distinct l g : NoDup l -> (forall x, x ∈ l -> x < g) -> (weight l < 2 ^ Z.of_nat g)%Z.
Proof.
  intros Hnd Hlt. rewrite <- weight_seq.
  assert (l ⊆+ seq 0 g) as [k Hk]%submseteq_Permutation.
  { apply NoDup_submseteq; [done|]. intros x Hx. apply elem_of_seq. specialize (Hlt x Hx). lia. }
  rewrite Hk, weight_app. pose proof (weight_nonneg k). lia.
Qed.

Section Cleanup.
Context `{KeyOrder}.

Lemma walk_fold (c2t : gmap nat nat) children : forall gs ps,
  let '(gs', ps') := foldl (fun '(gs, ps) child =>
      match c2t !! child with Some t => (gs, t :: ps) | None => (child :: gs, ps) end) (gs, ps) children in
  (weight gs' <= weight gs + weight children)%Z
  /\ (weight gs' + Z.of_nat (length ps') <= weight gs + Z.of_nat (length ps) + weight children)%Z
  /\ forall x, x ∈ gs' -> x ∈ gs \/ x ∈ children.
Proof.
  induction children as [|c children IH]; intros gs ps; cbn [foldl]; [change (weight []) with 0%Z; split_and!; [lia|lia|by left]|].
  pose proof (Z.pow_pos_nonneg 2 (Z.of_nat c) ltac:(lia) ltac:(lia)).
  destruct (c2t !! c) as [t|].
  - specialize (IH gs (t :: ps)). destruct (foldl _ _ children) as [gs' ps']. destruct IH as (H1 & H2 & H3).
    rewrite ?weight_cons in *. cbn [length] in *. split_and!; [lia|lia|]. intros x Hx. rewrite elem_of_cons. destruct (H3 x Hx); auto.
  - specialize (IH (c :: gs) ps). destruct (foldl _ _ children) as [gs' ps']. destruct IH as (H1 & H2 & H3).
    rewrite ?weight_cons in *. cbn [length] in *. split_and!; [lia|lia|]. intros x Hx. rewrite elem_of_cons. destruct (H3 x Hx) as [[->|?]%elem_of_cons|?]; auto.
Qed.

Context `{!KeyOrderLaws}.

Lemma key_order_elem {A} (m : gmap nat A) k : k ∈ key_order m <-> is_Some (m !! k).
Proof.
  rewrite key_order_keys, list_elem_of_fmap. split.
  - intros ([k' a] & -> & Hin%elem_of_map_to_list). by exists a.
  - intros [a Ha]. exists (k, a). by rewrite elem_of_map_to_list.
Qed.

Lemma key_order_NoDup {A} (m : gmap nat A) : NoDup (key_order m).
Proof. rewrite key_order_keys. apply NoDup_fst_map_to_list. Qed.

(** The children of a gather that is awaited. *)
Lemma children_below opens objs n g gf aw :
  store_ok opens objs n -> objs !! g = Some (OGather gf) -> as_awaited gf = Some aw ->
  (weight (key_order (pending_children aw)) < 2 ^ Z.of_nat g)%Z
  /\ forall x, x ∈ key_order (pending_children aw) -> is_Some (objs !! x).
Proof.
  intros Hst Hg Haw. assert (ga_state gf = GatherAwaited aw) as Hs.
  { unfold as_awaited in Haw. by destruct (ga_state gf); simplify_eq. }
  destruct (st_awaited _ _ _ Hst g gf aw Hg Hs) as [Hok _].
  assert (forall x, x ∈ key_order (pending_children aw) -> x ∈ items gf) as Hits.
  { intros x [idxs Hx]%key_order_elem. destruct (ao_slots _ _ _ Hok x idxs Hx) as (Hne & _ & Hall).
    destruct idxs as [|i idxs]; [done|]. destruct (Hall i ltac:(by left)) as (_ & Hi & _). by eapply list_elem_of_lookup_2. }
  split.
  - apply weight_distinct; [apply key_order_NoDup|]. intros x Hx. by apply (st_items _ _ _ Hst g gf x Hg), Hits.
  - intros x Hx. destruct (st_items _ _ _ Hst g gf x Hg (Hits x Hx)) as (_ & o & Ho & _). by eexists.
Qed.

Lemma walk_step_ok opens n s gs ps :
  store_ok opens (objects (store s)) n -> (forall g, g ∈ gs -> is_Some (objects (store s) !! g)) ->
  match walk_step s (gs, ps) with
  | inl (gs', ps') =>
      (forall g, g ∈ gs' -> is_Some (objects (store s) !! g)) /\ (weight gs' < weight gs)%Z
      /\ (weight gs' + Z.of_nat (length ps') <= weight gs + Z.of_nat (length ps))%Z
  | inr r => r = Ok ps
  end.
Proof.
  intros Hst Hlive. unfold walk_step. destruct gs as [|g gs]; [done|].
  destruct (Hlive g ltac:(by left)) as [o Ho]. rewrite Ho.
  assert (forall x, x ∈ gs -> is_Some (objects (store s) !! x)) as Hgs by (intros x Hx; apply Hlive; by right).
  pose proof (Z.pow_pos_nonneg 2 (Z.of_nat g) ltac:(lia) ltac:(lia)).
  destruct o as [co|ex|gf| |]; try (rewrite weight_cons; split_and!; [done|lia|lia]).
  destruct (as_awaited gf) as [aw|] eqn:Haw; [|rewrite weight_cons; split_and!; [done|lia|lia]].
  destruct (children_below _ _ _ _ _ _ Hst Ho Haw) as [Hw Hin].
  pose proof (walk_fold (coroutine_to_task (scheduler s)) (key_order (pending_children aw)) gs ps) as Hf.
  destruct (foldl _ _ _) as [gs' ps']. destruct Hf as (Hf1 & Hf2 & Hf3). rewrite weight_cons.
  split_and!; [|lia|lia]. intros x Hx. destruct (Hf3 x Hx); auto.
Qed.

Lemma queue_gather_ok opens n root pending s :
  store_ok opens (objects (store s)) n -> is_Some (objects (store s) !! root) ->
  exists ps, queue_gather_tasks root pending s = (Ok ps, s)
    /\ (Z.of_nat (length ps) <= Z.of_nat (length pending) + 2 ^ Z.of_nat root)%Z.
Proof.
  intros Hst Hroot. set (live := fun gs : list nat => forall g, g ∈ gs -> is_Some (objects (store s) !! g)).
  assert (live [root]) as Hl by by intros g ->%list_elem_of_singleton.
  assert (exists r, iterate (walk_step s) (walk_fuel root) ([root], pending) = inr r) as [r Hr].
  { apply (iterate_ends (walk_step s) (fun a => live a.1) (fun a => weight a.1)).
    - intros a _. apply weight_nonneg.
    - intros [gs ps] Ha. pose proof (walk_step_ok opens n s gs ps Hst Ha) as Hs.
      destruct (walk_step s (gs, ps)) as [[gs' ps']|]; [|done]. tauto.
    - exact Hl.
    - unfold walk_fuel. cbn. pose proof (Z.pow_pos_nonneg 2 (Z.of_nat root) ltac:(lia) ltac:(lia)). lia. }
  pose proof (iterate_inv (walk_step s)
    (fun a => live a.1 /\ (weight a.1 + Z.of_nat (length a.2) <= Z.of_nat (length pending) + 2 ^ Z.of_nat root)%Z)
    (fun r => exists ps, r = Ok ps /\ (Z.of_nat (length ps) <= Z.of_nat (length pending) + 2 ^ Z.of_nat root)%Z)
    (walk_fuel root) ([root], pending)) as Hi.
  rewrite Hr in Hi. destruct Hi as (ps & -> & Hlen).
  - intros [gs ps] [Ha Hw]. pose proof (walk_step_ok opens n s gs ps Hst Ha) as Hs.
    destruct (walk_step s (gs, ps)) as [[gs' ps']|r']; [destruct Hs as (Hs1 & Hs2 & Hs3); cbn [fst snd] in *; split; [done|lia]|].
    exists ps. split; [done|]. cbn [fst snd] in Hw. pose proof (weight_nonneg gs). lia.
  - cbn [fst snd]. rewrite weight_cons. change (weight []) with 0%Z. split; [done|lia].
  - exists ps. split; [|done]. unfold queue_gather_tasks, sbind, sget. by rewrite Hr.
Qed.

(** ** Cancelling *)

(** What cancelling keeps of the machine. *)
Record clean (objs : objs_t) (n : nat) (s : VM) : Prop := {
  cl_objects : objects (store s) = objs;
  cl_next : next_id (store s) = n;
  cl_sched : exists runs, sched_ok runs (scheduler s);
  cl_blocked : forall t k b, tasks (scheduler s) !! t = Some k -> state k = Blocked b -> is_Some (objs !! b) }.

Lemma cancel_one_ok objs n id pending s :
  store_ok ∅ objs n -> clean objs n s ->
  exists pending' s', cancel_one id pending s = (Ok pending', s') /\ clean objs n s'
    /\ tasks (scheduler s') = delete id (tasks (scheduler s))
    /\ pending_externals (scheduler s') = pending_externals (scheduler s)
    /\ (tasks (scheduler s) !! id = None /\ pending' = pending
       \/ is_Some (tasks (scheduler s) !! id)
          /\ (Z.of_nat (length pending') < Z.of_nat (length pending) + 2 ^ Z.of_nat n)%Z).
Proof.
  intros Hst Hc. destruct (tasks (scheduler s) !! id) as [k|] eqn:Hk.
  - set (s1 := set_scheduler (without id k) s).
    assert (clean objs n s1) as Hc1.
    { destruct Hc as [C1 C2 [runs C3] C4]. split; [done|done|exists (unless id runs); by apply sched_without|].
      destruct (without_fields id k (scheduler s)) as (F1 & _). intros t kt b Hkt.
      change (tasks (without id k (scheduler s)) !! t = Some kt) in Hkt. rewrite F1 in Hkt. apply lookup_delete_Some in Hkt as [_ Hkt]. by apply C4 with t. }
    assert (exists pending',
      match state k with Blocked b => queue_gather_tasks b pending | Ready _ => sret pending end s1 = (Ok pending', s1)
      /\ (Z.of_nat (length pending') < Z.of_nat (length pending) + 2 ^ Z.of_nat n)%Z) as (pending' & Hq & Hlen).
    { pose proof (Z.pow_pos_nonneg 2 (Z.of_nat n) ltac:(lia) ltac:(lia)).
      destruct (state k) as [r|b] eqn:Hs; [exists pending; split; [done|lia]|].
      pose proof (cl_blocked _ _ _ Hc id k b Hk Hs) as Hb.
      destruct (queue_gather_ok ∅ n b pending s1) as (ps & E & Hl); [by rewrite (cl_objects _ _ _ Hc1)..|].
      exists ps. split; [done|]. pose proof (st_dom _ _ _ Hst b Hb).
      pose proof (Z.pow_lt_mono_r 2 (Z.of_nat b) (Z.of_nat n)). lia. }
    destruct (cancel_one_runs id pending pending' s k Hk) as [c E]; [by intros ? ->|].
    destruct (without_fields id k (scheduler s)) as (F1 & _ & _ & _ & F5 & _).
    eexists _, _. split; [exact E|]. split; [by destruct Hc1|]. split_and!; [exact F1|exact F5|right; by split].
  - exists pending, s. split; [unfold cancel_one, sbind, sget; by rewrite Hk|].
    split_and!; [done|by rewrite delete_id|done|by left].
Qed.

Lemma cancel_task_ok objs n id s :
  store_ok ∅ objs n -> clean objs n s ->
  exists s', cancel_task id s = (Ok tt, s') /\ clean objs n s' /\ tasks (scheduler s') ⊆ tasks (scheduler s)
    /\ tasks (scheduler s') !! id = None /\ pending_externals (scheduler s') = pending_externals (scheduler s).
Proof.
  intros Hst Hc.
  set (P := fun a : list nat * VM => clean objs n a.2 /\ tasks (scheduler a.2) ⊆ tasks (scheduler s)
    /\ (a.1 = [id] \/ tasks (scheduler a.2) !! id = None)
    /\ pending_externals (scheduler a.2) = pending_externals (scheduler s)).
  set (mu := fun a : list nat * VM =>
    (Z.of_nat (size (tasks (scheduler a.2))) * 2 ^ Z.of_nat n + Z.of_nat (length a.1))%Z).
  pose proof (Z.pow_pos_nonneg 2 (Z.of_nat n) ltac:(lia) ltac:(lia)) as Hpow.
  assert (forall a, P a -> match cancel_step a with
      | inl a' => P a' /\ (mu a' < mu a)%Z
      | inr r => exists s', r = (Ok tt, s') /\ P ([], s')
      end) as Hstep.
  { intros [[|x ps] s1] (C & Hsub & Hid & Hpe); cbn in C, Hsub, Hid, Hpe; cbn [cancel_step].
    { exists s1. split; [done|]. split_and!; [done|done|by destruct Hid as [?|?]; [|right]|done]. }
    destruct (cancel_one_ok objs n x ps s1 Hst C) as (ps' & s2 & -> & C2 & Ht & Hp & Hlen). split.
    - split; [done|]. split_and!; cbn.
      + rewrite Ht. etransitivity; [apply delete_subseteq|done].
      + right. rewrite Ht. apply lookup_delete_None. destruct Hid as [[= -> _]|Hnone]; [by left|by right].
      + congruence.
    - unfold mu. cbn [fst snd length]. rewrite Ht. destruct Hlen as [[Hn ->]|[Hs Hlen]].
      + rewrite delete_id by done. lia.
      + rewrite map_size_delete_Some by done.
        assert (size (tasks (scheduler s1)) <> 0) as Hz.
        { destruct Hs as [k Hk]. apply map_size_ne_0_lookup. eauto. }
        nia. }
  assert (P ([id], s)) as HP by by split_and!; try left.
  destruct (iterate_ends cancel_step P mu (cancel_fuel s) ([id], s)) as [r Hr].
  - intros a _. unfold mu. lia.
  - intros a Ha. pose proof (Hstep a Ha) as Hs. by destruct (cancel_step a).
  - exact HP.
  - unfold mu, cancel_fuel. cbn [fst snd length]. rewrite (cl_next _ _ _ Hc). nia.
  - pose proof (iterate_inv cancel_step P (fun r => exists s', r = (Ok tt, s') /\ P ([], s')) (cancel_fuel s) ([id], s)) as Hi.
    rewrite Hr in Hi. destruct Hi as (s' & -> & C & Hsub & Hid & Hp); [|done|].
    + intros a Ha. pose proof (Hstep a Ha) as Hs. by destruct (cancel_step a) as [a'|]; [destruct Hs|].
    + exists s'. unfold cancel_task. rewrite Hr. cbn in *. destruct Hid as [?|?]; done.
Qed.

Lemma cancel_all_ok objs n ids s :
  store_ok ∅ objs n -> clean objs n s ->
  exists s', for_each cancel_task ids s = (Ok tt, s') /\ clean objs n s' /\ tasks (scheduler s') ⊆ tasks (scheduler s)
    /\ (forall id, id ∈ ids -> tasks (scheduler s') !! id = None)
    /\ pending_externals (scheduler s') = pending_externals (scheduler s).
Proof.
  intros Hst. revert s. induction ids as [|id ids IH]; intros s Hc; cbn [for_each].
  { exists s. split_and!; try done. intros id Hin. by apply elem_of_nil in Hin. }
  destruct (cancel_task_ok objs n id s Hst Hc) as (s1 & E & Hc1 & Hsub & Hid & Hp). unfold sbind. rewrite E.
  destruct (IH s1 Hc1) as (s2 & E2 & Hc2 & Hsub2 & Hids & Hp2). exists s2.
  split_and!; [done|done|by etransitivity| |congruence]. intros x [->|Hx]%elem_of_cons; [|by apply Hids].
  by eapply lookup_weaken_None.
Qed.

Lemma sched_empty runs sc :
  sched_ok runs sc -> tasks sc = ∅ -> ready_queue sc = [] /\ current_task sc = None /\ coroutine_to_task sc = ∅.
Proof.
  intros Hs He. split_and!.
  - destruct (ready_queue sc) as [|t q] eqn:Hq; [done|].
    destruct (so_queued _ _ Hs t) as (k & r & Hk & _); [rewrite Hq; by left|]. by rewrite He, lookup_empty in Hk.
  - destruct (current_task sc) as [t|] eqn:Ht; [|done]. destruct (so_current _ _ Hs t Ht) as [k Hk].
    by rewrite He, lookup_empty in Hk.
  - apply map_empty. intros c. destruct (coroutine_to_task sc !! c) as [t|] eqn:Hc; [|done].
    apply (so_coroutines _ _ Hs) in Hc as (k & Hk & _). by rewrite He, lookup_empty in Hk.
Qed.

Lemma cleanup_ok s :
  (exists runs, sched_ok runs (scheduler s)) -> store_ok ∅ (objects (store s)) (next_id (store s)) ->
  (forall t k b, tasks (scheduler s) !! t = Some k -> state k = Blocked b -> is_Some (objects (store s) !! b)) ->
  exists s', cleanup s = (Ok tt, s') /\ tasks (scheduler s') = ∅ /\ ready_queue (scheduler s') = []
    /\ current_task (scheduler s') = None /\ coroutine_to_task (scheduler s') = ∅
    /\ pending_externals (scheduler s') = ∅ /\ objects (store s') = objects (store s).
Proof.
  intros [runs Hs] Hst Hb. unfold cleanup, on_scheduler, sbind, sget, smodify.
  destruct (quiet_for_each (fun call => match pending_externals (scheduler s) !! call with
      | Some future => dec_ref future | None => sret tt end) (key_order (pending_externals (scheduler s)))
      ltac:(intros x; cbv beta; case_match; [apply quiet_dec|apply quiet_ret]) (set_scheduler (set_pending ∅) s)) as [c ->].
  set (s1 := set_counts c (set_scheduler (set_pending ∅) s)).
  assert (clean (objects (store s)) (next_id (store s)) s1) as Hc.
  { split; [done|done| |done]. exists runs. by apply sched_pending. }
  destruct (cancel_all_ok _ _ (key_order (tasks (scheduler s1))) s1 Hst Hc) as (s2 & E & Hc2 & Hsub & Hids & Hp).
  assert (tasks (scheduler s2) = ∅) as He.
  { apply map_empty. intros t. destruct (tasks (scheduler s2) !! t) as [k|] eqn:Hk; [|done].
    rewrite Hids in Hk; [done|]. apply key_order_elem. exists k. by eapply lookup_weaken. }
  destruct (cl_sched _ _ _ Hc2) as [runs' Hs']. destruct (sched_empty _ _ Hs' He) as (? & ? & ?).
  exists s2. split_and!; try done. apply (cl_objects _ _ _ Hc2).
Qed.

End Cleanup.
