(* ===== verification/AsyncProps.v ===== *)
(** * What the async executor guarantees

    The machine as a whole: the operations a program and its host can make of it, in
    any order, from a fresh machine. *)
From S2P Require Import Prelude HeapData Scheduler AsyncExec AsyncInv AsyncSafe AsyncCommit AsyncCleanup.
Local Open Scope monty_scope.

(** ** Operations

    What the code of the loaded task asks for, and the results the host sends. Between
    them the run loop changes the context as it likes ([OpContext]), but for parking
    its frame, which the executor alone does. *)
Inductive Op :=
| OpAwait (v : Value)
| OpReturn (v : Value)
| OpRaise (e : RunError)
| OpContext (values : list Value) (exceptions : list CaughtException) (cur : CallFrame) (susp : list CallFrame)
    (at_ip depth : Z)
| OpCoroutine (func : nat) (ns : list Value) (globals : option nat)
| OpGather (vs : list Value)
| OpPending (sleep : option Value)
| OpSettled (v : Value)
| OpObject (o : Obj)
| OpResults (rs : list (nat * ExtFunctionResult)).

(** A task is loaded and has something to run. *)
Definition runnable (s : VM) : bool :=
  match current_task (scheduler s) with
  | Some t =>
      negb (is_parked (current_frame s)) && bool_decide (t ∉ ready_queue (scheduler s))
      && match tasks (scheduler s) !! t with Some k => is_ready_ok (state k) | None => false end
  | None => false
  end.

Definition live_value (s : VM) (v : Value) : bool :=
  match v with VRef id => bool_decide (is_Some (objects (store s) !! id)) | _ => true end.

(** The operations that can come next: values are live, a spawned task ends, and the
    host is asked once nothing runs. *)
Definition allowed (op : Op) (s : VM) : bool :=
  match op with
  | OpAwait v => runnable s && live_value s v
  | OpReturn _ | OpRaise _ => runnable s && is_spawned_task s
  | OpContext _ _ cur _ _ _ => runnable s && negb (is_parked cur)
  | OpGather vs => runnable s && forallb (live_value s) vs
  | OpObject o => runnable s && negb (is_awaitable o)
  | OpCoroutine _ _ _ | OpPending _ | OpSettled _ => runnable s
  | OpResults _ => negb (runnable s)
  end.

Definition new_vm : VM :=
  mkVM new_scheduler (mkStore ∅ 0 ∅) [] []
    (mkCallFrame (mkSavedFrame None 0 0 0 0 None false None None) false false) [] 0 0.

Definition ignore {A} (m : AM A) : AM unit := do _ <- m ;; sret tt.

Section Run.
Context `{KeyOrder} `{Interns} `{Tracker}.

Definition exec_op (op : Op) : AM unit :=
  match op with
  | OpAwait v => push v ;;; ignore exec_get_awaitable
  | OpReturn v => ignore (handle_task_completion v)
  | OpRaise e => handle_task_failure activate_task e
  | OpContext values exceptions cur susp at_ip depth =>
      smodify (load_context values exceptions cur susp at_ip depth)
  | OpCoroutine func ns globals => ignore (make_coroutine func ns globals)
  | OpGather vs => ignore (gather vs)
  | OpPending sleep => do call <- allocate_call_id ;; push_pending_future call sleep
  | OpSettled v => ignore (settled_awaitable v)
  | OpObject o => ignore (allocate o)
  | OpResults rs => ignore (resume_with_resolved_futures rs)
  end.

(** A run: an exception is the loaded task's and the run goes on, a panic ends it. What
    cannot come next is passed over. *)
Fixpoint run_ops (ops : list Op) (s : VM) : result VM Panic :=
  match ops with
  | [] => Ok s
  | op :: ops =>
      if allowed op s then
        match exec_op op s with
        | (Err (Panicked p), _) => Err p
        | (_, s) => run_ops ops s
        end
      else run_ops ops s
  end.

(** ** Every operation keeps the invariant *)

(** No task runs: the host is to send results. *)
Definition waiting (s : VM) : Prop := good ∅ None None s /\ framed s.

Definition reached (s : VM) : Prop := some_running s \/ waiting s.

Lemma stopped_reached s : stopped s -> reached s.
Proof. intros (Hg & Hc & _). right. split; [done|]. intros c. by rewrite Hc. Qed.

Lemma activated_reached s : activated s -> reached s.
Proof. intros [?|?]; [by left|by apply stopped_reached]. Qed.

Lemma running_runnable t s : running t s -> runnable s = true.
Proof.
  intros ((Hinv & _) & Hc & Hp & k & Hk & Hr). unfold runnable. rewrite Hc, Hp, Hk, Hr.
  destruct (so_runs _ _ (inv_sched _ _ _ _ _ _ Hinv) t eq_refl) as [Hq _]. by rewrite bool_decide_eq_true_2.
Qed.

Lemma waiting_not_runnable s : waiting s -> runnable s = false.
Proof.
  intros [(Hinv & _) _]. unfold runnable. destruct (current_task (scheduler s)) as [t|]; [|done].
  case_bool_decide as Hq; [|by rewrite andb_false_r].
  destruct (tasks (scheduler s) !! t) as [k|] eqn:Hk; [|by rewrite andb_false_r].
  destruct (state k) as [r|b] eqn:Hs; [|by rewrite andb_false_r].
  by destruct (so_ready _ _ (inv_sched _ _ _ _ _ _ Hinv) t k r Hk Hs).
Qed.

Lemma reached_running s : reached s -> runnable s = true -> some_running s.
Proof. intros [?|Hw] Hr; [done|]. rewrite waiting_not_runnable in Hr by done. discriminate. Qed.

Lemma reached_waiting s : reached s -> runnable s = false -> waiting s.
Proof. intros [[t Ht]|?] Hr; [|done]. rewrite (running_runnable t) in Hr by done. discriminate. Qed.

Lemma live_value_ok s v : live_value s v = true -> forall id, v = VRef id -> is_Some (objects (store s) !! id).
Proof. intros Hv id ->. by apply bool_decide_eq_true in Hv. Qed.

Lemma gather_items_ok vs s :
  forallb (live_value s) vs = true ->
  wp (gather_items vs) s
    (fun ids s' => s' = s /\ forall i, i ∈ ids -> exists o, objects (store s) !! i = Some o /\ is_awaitable o = true)
    (fun _ s' => s' = s).
Proof.
  induction vs as [|v vs IH]; cbn [forallb gather_items]; intros Hl.
  { wp_steps. split; [done|]. intros i Hi. by apply elem_of_nil in Hi. }
  apply andb_prop in Hl as [Hv Hvs].
  destruct v as [| | | | | | | | | | | | | | | |id|]; try (by wp_steps).
  destruct (live_value_ok s _ Hv id eq_refl) as [o Ho]. wp_step. eapply wp_read; [exact Ho|].
  destruct (is_awaitable o) eqn:Haw; [|by wp_steps]. wp_step. eapply wp_mono; [by apply IH| |done].
  intros ids s' [-> Hids]. wp_steps. split; [done|]. intros i [->|Hi]%elem_of_cons; [by exists o|by apply Hids].
Qed.

(** An object nothing waits for is allocated. *)
Lemma allocate_running t s o (Q : nat -> VM -> Prop) R :
  running t s -> obj_awaiter o = None -> pending_call o = None ->
  (forall gf, o = OGather gf -> ga_state gf = GatherPending /\
     forall i, i ∈ items gf -> exists oi, objects (store s) !! i = Some oi /\ is_awaitable oi = true) ->
  (forall id s', running t s' -> Q id s') -> wp (allocate o) s Q R.
Proof.
  intros ([Hinv Hctx] & Hrest) Ha Hp Hg HQ. unfold allocate. wp_steps. apply HQ. split; [|exact Hrest].
  split; [|exact Hctx]. by apply inv_alloc.
Qed.

Lemma gather_ok t s vs :
  running t s -> forallb (live_value s) vs = true ->
  wp (gather vs) s (fun _ s' => running t s') (fun _ s' => running t s').
Proof.
  intros Hr Hl. unfold gather. wp_step. apply wp_attempt. eapply wp_mono; [by apply gather_items_ok| |].
  - intros ids s' [-> Hids]. wp_step. eapply (allocate_running t); [exact Hr|done|done| |by intros; wp_steps].
    intros gf [= <-]. by split.
  - intros e s' ->. wp_step. apply wp_quiet; [apply quiet_for_each, quiet_drop|]. intros c. wp_steps.
    eapply running_core; [|apply Hr|exact Hr]. done.
Qed.

Lemma u32_succ_ok n s (Q : nat -> VM -> Prop) R : Q (S n) s -> wp (u32_succ n) s Q R.
Proof. intros HQ. unfold u32_succ. by case_match. Qed.

Lemma set_next_call_running t s : running t s ->
  running t (set_scheduler (set_next_call (S (next_call_id (scheduler s)))) s).
Proof.
  intros ([[Hsc Hst Hl] Hctx] & Hrest). split; [|exact Hrest]. split; [|exact Hctx]. split; [|exact Hst|].
  - destruct Hsc as [? ? ? ? ? ? ? ? ? ? Hcalls]. split; try done. cbn. intros call f Hf. specialize (Hcalls _ _ Hf). lia.
  - by apply (links_scheduler _ _ (scheduler s)).
Qed.

Lemma allocate_call_ok t s (Q : nat -> VM -> Prop) R :
  running t s ->
  (forall s', running t s' -> next_call_id (scheduler s') = S (next_call_id (scheduler s)) ->
     pending_externals (scheduler s') = pending_externals (scheduler s) -> Q (next_call_id (scheduler s)) s') ->
  wp allocate_call_id s Q R.
Proof.
  intros Hr HQ. unfold allocate_call_id. wp_step. wp_step. wp_step. apply u32_succ_ok. wp_steps.
  apply HQ; [by apply set_next_call_running|done|done].
Qed.

Lemma push_pending_ok t s sleep :
  running t s ->
  wp (do call <- allocate_call_id ;; push_pending_future call sleep) s (fun _ s' => running t s') never.
Proof.
  intros Hr. wp_step. eapply (allocate_call_ok t); [exact Hr|]. intros s1 Hr1 Hn Hp.
  pose proof Hr as ([[Hsc _ _] _] & _). pose proof Hr1 as ([Hinv Hctx] & Hrest).
  assert (pending_externals (scheduler s1) !! next_call_id (scheduler s) = None) as Hnone.
  { rewrite Hp. destruct (pending_externals (scheduler s) !! _) as [f|] eqn:E; [|done].
    pose proof (so_calls _ _ Hsc _ _ E). lia. }
  unfold push_pending_future, allocate, add_pending_external. wp_steps.
  apply wp_assert; [cbn; by rewrite Hnone|]. unfold push. wp_steps.
  split; [|exact Hrest]. split; [|exact Hctx]. cbn. eapply inv_add_pending; [exact Hinv|exact Hnone|lia].
Qed.

Lemma wp_ignore {A} (m : AM A) s (Q R : VM -> Prop) :
  wp m s (fun _ s' => Q s') (fun _ s' => R s') -> wp (ignore m) s (fun _ s' => Q s') (fun _ s' => R s').
Proof. intros Hm. unfold ignore. wp_step. eapply wp_mono; [exact Hm| |done]. intros a s' HQ. by wp_steps. Qed.

Lemma context_running t s values exceptions cur susp i d :
  running t s -> is_parked cur = false -> running t (load_context values exceptions cur susp i d s).
Proof. intros Hr Hp. by eapply running_core; [| |exact Hr]. Qed.

Lemma await_end_reached t r s : await_end t r s -> reached s.
Proof.
  destruct r; cbn.
  - intros Hr. left. by exists t.
  - apply activated_reached.
  - intros (Hg & Hc & Hp & _). right. split; [done|]. by intros c _.
Qed.

Lemma exec_op_ok op s :
  reached s -> allowed op s = true -> wp (exec_op op) s (fun _ s' => reached s') (fun _ s' => reached s').
Proof.
  intros Hre Hal.
  assert (forall A (m : AM A) t, wp m s (fun _ s' => running t s') (fun _ s' => running t s') ->
    wp m s (fun _ s' => reached s') (fun _ s' => reached s')) as Hrun.
  { intros A m t Hm. eapply wp_mono; [exact Hm| |]; intros ? s' ?; left; by exists t. }
  assert (forall b, runnable s && b = true -> some_running s /\ b = true) as Hsplit.
  { intros b [Hr Hb]%andb_prop. split; [by apply reached_running|done]. }
  destruct op as [v|v|e|values exceptions cur susp i d|func ns g|vs|sleep|v|o|rs]; cbn [allowed exec_op] in *.
  - apply Hsplit in Hal as [[t Ht] Hv]. unfold push. do 2 wp_step. apply wp_ignore.
    eapply wp_mono; [eapply (exec_get_awaitable_ok t _ v (stack s))| |].
    + by eapply running_core; [|apply Ht|exact Ht].
    + done.
    + by apply live_value_ok.
    + intros r s'. apply await_end_reached.
    + intros e s' ?. by left.
  - apply Hsplit in Hal as [[t Ht] Hv]. apply wp_ignore. unfold is_spawned_task in Hv.
    pose proof Ht as (_ & Hc & _). rewrite Hc in Hv. apply negb_true_iff, Nat.eqb_neq in Hv.
    eapply wp_mono; [by apply (handle_completion_ok s t)| |].
    + intros [] s'; (apply activated_reached || apply stopped_reached).
    + intros e s' ?. by left.
  - apply Hsplit in Hal as [[t Ht] Hv]. unfold is_spawned_task in Hv.
    pose proof Ht as (Hg & Hc & _). rewrite Hc in Hv. apply negb_true_iff, Nat.eqb_neq in Hv.
    eapply wp_mono; [eapply (handle_failure_ok _ s t); [exact Hg|done|done|apply activate_task_ok]| |].
    + intros [] s'. apply activated_reached.
    + intros e' s' ?. by left.
  - apply Hsplit in Hal as [[t Ht] Hp]. wp_steps. left. exists t. apply context_running; [done|].
    by apply negb_true_iff.
  - destruct (reached_running _ Hre Hal) as [t Ht]. apply wp_ignore, (Hrun _ _ t). unfold make_coroutine. wp_step.
    apply wp_quiet; [destruct g; [apply quiet_inc|apply quiet_ret]|]. intros c. wp_step.
    apply (running_core _ _ (set_counts c s)) in Ht; [|done|apply Ht].
    eapply (allocate_running t); [exact Ht|done|done|done|]. intros. by wp_steps.
  - apply Hsplit in Hal as [[t Ht] Hl]. by apply wp_ignore, (Hrun _ _ t), gather_ok.
  - destruct (reached_running _ Hre Hal) as [t Ht]. apply (Hrun _ _ t).
    eapply wp_mono; [by apply (push_pending_ok t)|done|done].
  - destruct (reached_running _ Hre Hal) as [t Ht]. apply wp_ignore, (Hrun _ _ t). unfold settled_awaitable. wp_step.
    eapply (allocate_call_ok t); [exact Ht|]. intros s1 Hr1 _ _. wp_step.
    eapply (allocate_running t); [exact Hr1|done|done|done|]. intros. by wp_steps.
  - apply Hsplit in Hal as [[t Ht] Hn]. apply wp_ignore, (Hrun _ _ t). apply negb_true_iff in Hn.
    eapply (allocate_running t); [exact Ht| | | |done]; by destruct o.
  - apply negb_true_iff in Hal. destruct (reached_waiting _ Hre Hal) as [Hg Hf]. apply wp_ignore.
    eapply wp_mono; [by apply resume_resolved_ok| |].
    + intros [|e|calls] s' Hs.
      * by apply activated_reached.
      * by left.
      * right. by destruct Hs as (? & ? & _).
    + intros e s' Hs. by right.
Qed.

Lemma new_vm_running : running main_id new_vm.
Proof.
  assert (forall t k, tasks new_scheduler !! t = Some k -> t = 0 /\ k = new_task 0 None None) as Ht.
  { intros t k Hk. cbn in Hk. apply lookup_singleton_Some in Hk as [<- <-]. done. }
  split; [|split; [done|split; [done|by eexists]]]. split.
  - split.
    + split; cbn.
      * intros t k Hk. apply Ht in Hk as [-> ->]. split; [done|lia].
      * intros k Hk. apply Ht in Hk as [_ ->]. done.
      * intros t k Hk Hne. by apply Ht in Hk as [-> _].
      * lia.
      * constructor.
      * intros t Hin. by apply elem_of_nil in Hin.
      * intros t k r Hk _. apply Ht in Hk as [-> _]. by right.
      * intros t [= <-]. split; [by apply not_elem_of_nil|]. by eexists _, _.
      * intros t [= <-]. by eexists.
      * intros c t. rewrite lookup_empty. split; [done|]. intros (k & Hk & Hc). by apply Ht in Hk as [_ ->].
      * intros call f. by rewrite lookup_empty.
    + split; cbn; intros *; rewrite lookup_empty; try done.
    + split; cbn; intros *; try (by rewrite lookup_empty).
      * intros Hk Hc. by apply Ht in Hk as [_ ->].
      * intros Hk Ha. by apply Ht in Hk as [_ ->].
      * intros Hk Hs. by apply Ht in Hk as [_ ->].
      * done.
      * by intros g pc c.
      * rewrite lookup_empty. split; [done|]. intros (? & ? & _). by rewrite lookup_empty in *.
  - split; [by eexists|]. intros t k Hk Hne. apply Ht in Hk as [-> _]. by destruct Hne.
Qed.

Lemma run_ops_reached ops s :
  reached s -> match run_ops ops s with Ok s' => reached s' | Err p => p = TooLarge end.
Proof.
  revert s. induction ops as [|op ops IH]; intros s Hre; cbn [run_ops]; [done|].
  destruct (allowed op s) eqn:Hal; [|by apply IH]. pose proof (exec_op_ok op s Hre Hal) as Hw. apply wp_inv in Hw.
  destruct (exec_op op s) as [[[]|[e|p]] s']; [by apply IH..|done].
Qed.

Lemma run_ops_new ops s : run_ops ops new_vm = Ok s -> reached s.
Proof.
  intros E. pose proof (run_ops_reached ops new_vm) as Hr. rewrite E in Hr. apply Hr. left. exists main_id.
  apply new_vm_running.
Qed.

(** ** The theorems *)


(** The task [t] is the one that runs. *)
Definition runs (t : nat) (s : VM) : Prop := current_task (scheduler s) = Some t /\ runnable s = true.

(** C7: between two operations every live task is in exactly one place: it runs, or it
    is queued, once, or it is blocked on the one awaitable that holds it as the task to
    wake. The queue holds live tasks only, and an awaitable that holds a live task is
    the one that task is blocked on, so no wake-up is lost and none is spurious. *)
Theorem tasks_accounted ops s :
  run_ops ops new_vm = Ok s ->
  NoDup (ready_queue (scheduler s))
  /\ (forall t, t ∈ ready_queue (scheduler s) -> is_Some (tasks (scheduler s) !! t))
  /\ (forall t k, tasks (scheduler s) !! t = Some k ->
        match state k with
        | Ready _ => t ∈ ready_queue (scheduler s) /\ ~ runs t s \/ t ∉ ready_queue (scheduler s) /\ runs t s
        | Blocked id => t ∉ ready_queue (scheduler s) /\ ~ runs t s
            /\ exists o, objects (store s) !! id = Some o /\ obj_awaiter o = Some (TaskAwaiter t)
        end)
  /\ (forall id o t k, objects (store s) !! id = Some o -> obj_awaiter o = Some (TaskAwaiter t) ->
        tasks (scheduler s) !! t = Some k -> state k = Blocked id).
Proof.
  intros Hrun. pose proof (run_ops_new _ _ Hrun) as Hre.
  assert (exists o, good ∅ None o s /\ forall t, o = Some t <-> runs t s) as (o & [[Hsc _ Hl] _] & Ho).
  { destruct Hre as [[t Ht]|Hw].
    - pose proof Ht as (Hg & Hc & _). exists (Some t). split; [done|]. intros x. unfold runs.
      rewrite Hc, (running_runnable t) by done. naive_solver.
    - pose proof Hw as [Hg _]. exists None. split; [done|]. intros x. unfold runs.
      rewrite waiting_not_runnable by done. naive_solver. }
  split; [apply (so_queue _ _ Hsc)|]. split.
  { intros t Ht. destruct (so_queued _ _ Hsc t Ht) as (k & r & Hk & _). by eexists. }
  split; [|apply (lk_waker _ _ _ _ Hl)]. intros t k Hk. destruct (state k) as [r|id] eqn:Hs.
  - destruct (so_ready _ _ Hsc t k r Hk Hs) as [Hq|Hr].
    + left. split; [done|]. intros Hr%Ho. by destruct (so_runs _ _ Hsc t Hr).
    + right. split; [by destruct (so_runs _ _ Hsc t Hr)|by apply Ho].
  - split_and!.
    + intros Hq. destruct (so_queued _ _ Hsc t Hq) as (? & ? & ? & ?). congruence.
    + intros Hr%Ho. destruct (so_runs _ _ Hsc t Hr) as (_ & ? & ? & ? & ?). congruence.
    + by destruct (lk_blocked _ _ _ _ Hl t k id Hk Hs).
Qed.

(** C11: between two operations a gather that is awaited waits for something, has one
    result slot for each item, and its empty slots are those of the children it still
    waits for, each listed under the item it holds; a task or an awaitable that will
    deliver to a gather is an item of it that the gather waits for, or the gather has
    settled. *)
Theorem gathers_accounted ops s :
  run_ops ops new_vm = Ok s ->
  (forall g gf aw, objects (store s) !! g = Some (OGather gf) -> ga_state gf = GatherAwaited aw ->
     pending_children aw <> ∅ /\ length (results aw) = item_count gf
     /\ (forall i, results aw !! i = Some None <->
          exists c idxs, items gf !! i = Some c /\ pending_children aw !! c = Some idxs /\ i ∈ idxs))
  /\ (forall g c, (exists t k, tasks (scheduler s) !! t = Some k /\ awaiter k = Some (GatherSlot g c))
         \/ (exists id o, objects (store s) !! id = Some o /\ obj_awaiter o = Some (GatherSlot g c)) ->
       exists gf, objects (store s) !! g = Some (OGather gf) /\ c ∈ items gf
         /\ match ga_state gf with
            | GatherPending => False
            | GatherAwaited aw => is_Some (pending_children aw !! c)
            | GatherCompleted _ | GatherFailed _ => True
            end).
Proof.
  intros Hrun.
  assert (exists o, good ∅ None o s) as (o & [[_ Hst Hl] _]).
  { destruct (run_ops_new _ _ Hrun) as [[t Ht]|Hw]; [exists (Some t); apply Ht|exists None; apply Hw]. }
  split.
  - intros g gf aw Hg Haw. destruct (st_awaited _ _ _ Hst g gf aw Hg Haw) as [[Hlen Hslots Hempty] Hne].
    split_and!; [done|done|]. intros i. split.
    + intros Hi. assert (i < length (items gf)) as Hlt by (rewrite <- Hlen; by eapply lookup_lt_Some).
      destruct (Hempty i Hlt Hi) as (c & idxs & Hc & Hin). exists c, idxs.
      destruct (Hslots c idxs Hc) as (_ & _ & Hall). by destruct (Hall i Hin) as (_ & ? & _).
    + intros (c & idxs & _ & Hc & Hin). destruct (Hslots c idxs Hc) as (_ & _ & Hall). by destruct (Hall i Hin) as (_ & _ & ?).
  - intros g c Hex.
    assert (slot_ok ∅ (objects (store s)) g c) as Hok.
    { destruct Hex as [(t & k & Hk & Ha)|(id & ob & Hob & Ha)].
      - destruct (lk_task _ _ _ _ Hl t k _ Hk Ha) as (g' & c' & E & _ & ?). by simplify_eq.
      - by destruct (lk_slot _ _ _ _ Hl id ob g c Hob Ha). }
    destruct Hok as [(gf & Hgf & Hc) Hs]. exists gf. split_and!; [done..|].
    destruct Hs as [(pc & Hpc & Hin)|(gf' & Hgf' & Hset)].
    + unfold expected in Hpc. rewrite lookup_empty, Hgf in Hpc. unfold as_awaited in Hpc.
      destruct (ga_state gf); try done. cbn in Hpc. by simplify_eq.
    + assert (gf' = gf) as -> by congruence. by destruct (ga_state gf).
Qed.

(** C12: whenever the run is cut off, cleaning up ends and leaves no task, nothing queued,
    no coroutine claimed and nothing the host could still resolve: each task is cancelled,
    with the tasks of the gather it waits for, wherever the walk of nested gathers goes. *)
Theorem cleanup_ends `{!KeyOrderLaws} ops s :
  run_ops ops new_vm = Ok s ->
  exists s', cleanup s = (Ok tt, s') /\ tasks (scheduler s') = ∅ /\ ready_queue (scheduler s') = []
    /\ current_task (scheduler s') = None /\ coroutine_to_task (scheduler s') = ∅
    /\ pending_externals (scheduler s') = ∅ /\ objects (store s') = objects (store s).
Proof.
  intros Hrun.
  assert (exists o, good ∅ None o s) as (o & [[Hsc Hst Hl] _]).
  { destruct (run_ops_new _ _ Hrun) as [[t Ht]|Hw]; [exists (Some t); apply Ht|exists None; apply Hw]. }
  apply cleanup_ok; [by exists o|done|]. intros t k b Hk Hb.
  destruct (lk_blocked _ _ _ _ Hl t k b Hk Hb) as [?|(ob & Hob & _)]; [done|by eexists].
Qed.

(** ** The run goes on

    What the main task waits for is followed down: a gather waits for a child, a child's
    task for an awaitable. Each is what the one before waits for alone, so the way down
    does not come back to itself, and it ends at a call of the host. *)

(** The gather above an awaitable, or above the task that awaits it. *)
Definition above (s : VM) (id : nat) : option nat :=
  match objects (store s) !! id with
  | Some o =>
      match obj_awaiter o with
      | Some (GatherSlot g _) => Some g
      | Some (TaskAwaiter t) =>
          match tasks (scheduler s) !! t with
          | Some k => match awaiter k with Some (GatherSlot g _) => Some g | _ => None end
          | None => None
          end
      | None => None
      end
  | None => None
  end.

Fixpoint way_up (s : VM) (l : list nat) : Prop :=
  match l with
  | [] => False
  | x :: l => match l with [] => above s x = None | y :: _ => above s x = Some y /\ way_up s l end
  end.

Lemma way_up_det s l l' x : way_up s (x :: l) -> way_up s (x :: l') -> l = l'.
Proof.
  revert l' x. induction l as [|y l IH]; intros [|y' l'] x; cbn; [done| | |].
  - intros Hn [E _]. congruence.
  - intros [E _] Hn. congruence.
  - intros [E Hl] [E' Hl']. assert (y' = y) as -> by congruence. f_equal. by apply (IH l' y).
Qed.

Lemma way_up_tail s l1 x l2 : way_up s (l1 ++ x :: l2) -> way_up s (x :: l2).
Proof.
  induction l1 as [|y l1 IH]; [done|]. cbn [app way_up]. destruct (l1 ++ x :: l2) as [|z l] eqn:E; [by destruct l1|].
  intros [_ Hl]. by apply IH.
Qed.

Lemma way_up_NoDup s l : way_up s l -> NoDup l.
Proof.
  induction l as [|x l IH]; intros Hl; [constructor|]. constructor.
  - intros (l1 & l2 & ->)%list_elem_of_split.
    pose proof (way_up_tail s (x :: l1) x l2 Hl) as Hl2. pose proof (way_up_det _ _ _ _ Hl Hl2) as E.
    apply (f_equal length) in E. rewrite length_app in E. cbn in E. lia.
  - destruct l as [|y l]; [constructor|]. apply IH. by destruct Hl.
Qed.

(** While nothing is queued, a child that will deliver is an awaitable, or its task is
    blocked on one. *)
Lemma awaited_below s g c :
  good ∅ None None s -> ready_queue (scheduler s) = [] ->
  awaits (scheduler s) (objects (store s)) c (GatherSlot g c) ->
  exists id o, objects (store s) !! id = Some o /\ is_Some (obj_awaiter o) /\ above s id = Some g.
Proof.
  intros [[Hsc _ Hl] _] Hq [(o & Ho & Ha)|(t & k & Hk & _ & Ha)].
  - exists c, o. rewrite Ha. split_and!; [done|by eexists|]. unfold above. by rewrite Ho, Ha.
  - destruct (state k) as [r|b] eqn:Hs.
    + destruct (so_ready _ _ Hsc t k r Hk Hs) as [Hin|?]; [|done]. rewrite Hq in Hin. by apply elem_of_nil in Hin.
    + destruct (lk_blocked _ _ _ _ Hl t k b Hk Hs) as [?|(o & Ho & Hao)]; [done|]. exists b, o.
      rewrite Hao. split_and!; [done|by eexists|]. unfold above. by rewrite Ho, Hao, Hk, Ha.
Qed.

(** The way down goes on for as long as the host has nothing to answer. *)
Lemma way_down s n :
  good ∅ None None s -> ready_queue (scheduler s) = [] -> pending_externals (scheduler s) = ∅ ->
  exists l, length l = S n /\ way_up s l
    /\ forall id, id ∈ l -> exists o, objects (store s) !! id = Some o /\ is_Some (obj_awaiter o).
Proof.
  intros Hg Hq Hp. pose proof Hg as [[Hsc Hst Hl] Hctx]. induction n as [|n (l & Hlen & Hup & Hlive)].
  - destruct (cx_main _ Hctx) as [k Hk]. destruct (so_main _ _ Hsc k Hk) as [_ Hnone].
    destruct (state k) as [r|b] eqn:Hs.
    + destruct (so_ready _ _ Hsc _ k r Hk Hs) as [Hin|?]; [|done]. rewrite Hq in Hin. by apply elem_of_nil in Hin.
    + destruct (lk_blocked _ _ _ _ Hl _ k b Hk Hs) as [?|(o & Ho & Ha)]; [done|]. exists [b]. split; [done|]. split.
      * cbn. unfold above. by rewrite Ho, Ha, Hk, Hnone.
      * intros id ->%list_elem_of_singleton. exists o. rewrite Ha. split; [done|by eexists].
  - destruct l as [|x l]; [done|]. destruct (Hlive x ltac:(by left)) as (o & Ho & [a Ha]).
    assert (exists id oi, objects (store s) !! id = Some oi /\ is_Some (obj_awaiter oi) /\ above s id = Some x)
      as (id & oi & Hoi & Hai & Hab).
    { destruct o as [|ex|gf| |]; try done; cbn in Ha.
      - destruct (ex_state ex) as [b| |] eqn:Hx; try done.
        assert (pending_externals (scheduler s) !! call_id ex = Some x) as E.
        { apply (lk_pending _ _ _ _ Hl). exists (OExternal ex). cbn. by rewrite Hx. }
        by rewrite Hp, lookup_empty in E.
      - destruct (ga_state gf) as [|aw| |] eqn:Hs; try done.
        destruct (st_awaited _ _ _ Hst x gf aw Ho Hs) as [_ (c & idxs & Hc)%map_choose].
        destruct (lk_children _ _ _ _ Hl x (pending_children aw) c) as [?|Haw]; [|by eexists|done|].
        + unfold expected. rewrite lookup_empty, Ho. unfold as_awaited. by rewrite Hs.
        + by apply awaited_below in Haw. }
    exists (id :: x :: l). split; [cbn in *; lia|]. split; [by split|].
    intros y [->|Hy]%elem_of_cons; [eauto|by apply Hlive].
Qed.

Lemma never_stalls s : good ∅ None None s -> ready_queue (scheduler s) = [] -> pending_externals (scheduler s) <> ∅.
Proof.
  intros Hg Hq Hp. destruct (way_down s (size (objects (store s))) Hg Hq Hp) as (l & Hlen & Hup & Hlive).
  assert (length l <= length (map_to_list (objects (store s))).*1) as Hle.
  { apply submseteq_length, NoDup_submseteq; [by eapply way_up_NoDup|]. intros x Hx.
    destruct (Hlive x Hx) as (o & Ho & _). apply list_elem_of_fmap. exists (x, o). by rewrite elem_of_map_to_list. }
  rewrite length_fmap, length_map_to_list in Hle. lia.
Qed.

Lemma resume_goes_on `{!KeyOrderLaws} rs s e s' :
  waiting s -> resume_with_resolved_futures rs s = (Err (Raise e), s') -> exists call, (call, ExtReturn (Err e)) ∈ rs.
Proof.
  intros [Hg Hfr]. pose proof (apply_future_results_ok None rs s Hg) as Hw. apply wp_inv in Hw.
  unfold resume_with_resolved_futures, sbind at 1.
  destruct (apply_future_results rs s) as [[[]|[e1|p]] s1]; [| |done].
  2:{ intros [= -> _]. by destruct Hw. }
  destruct Hw as (Hg1 & _). unfold next_ready_task. unfold sbind, sget, sret, on_scheduler, smodify, attempt.
  destruct (ready_queue (scheduler s1)) as [|t q] eqn:Hq.
  - pose proof (never_stalls s1 Hg1 Hq) as Hne. unfold pending_call_ids.
    destruct (key_order (pending_externals (scheduler s1))) as [|c l] eqn:Hk; [|done]. intros _. exfalso. apply Hne.
    apply map_empty. intros c. apply eq_None_not_Some. rewrite <- key_order_elem, Hk. apply not_elem_of_nil.
  - destruct (activate_task t _) as [[[]|[?|?]] ?]; done.
Qed.

(** C8: at any point of a run at which no task is loaded and none is queued, some call
    of the host is pending: the program never waits for nothing. So resuming with
    results ends in an exception only if the conversion of a result raised it, never in
    the internal error of a scheduler that has stalled. *)
Theorem scheduler_never_stalls `{!KeyOrderLaws} ops s :
  run_ops ops new_vm = Ok s -> runnable s = false ->
  (ready_queue (scheduler s) = [] -> pending_externals (scheduler s) <> ∅)
  /\ forall rs e s', resume_with_resolved_futures rs s = (Err (Raise e), s') -> exists call, (call, ExtReturn (Err e)) ∈ rs.
Proof.
  intros Hrun Hr. pose proof (reached_waiting s (run_ops_new _ _ Hrun) Hr) as Hw. split.
  - apply never_stalls, Hw.
  - intros rs e s'. by apply resume_goes_on.
Qed.

(** ** Results in the order of the items *)

(** The children [order] of [g] deliver their values, one after the other. *)
Fixpoint resolve_all (g : nat) (order : list nat) (v : nat -> Value) : AM (list (option (nat * Awaiter))) :=
  match order with
  | [] => sret []
  | c :: order => do r <- resolve_child g c (v c) ;; do rs <- resolve_all g order v ;; sret (r :: rs)
  end.

(** The results [rs] of the items [its], the missing ones taken from [v]. *)
Definition filled (v : nat -> Value) (its : list nat) (rs : list (option Value)) : list Value :=
  zip_with (fun c r => default (v c) r) its rs.

Lemma filled_slot v its aw c idxs rs :
  awaited_ok its (length its) aw -> pending_children aw !! c = Some idxs -> length rs = length (results aw) ->
  (forall i, rs !! i = if decide (i ∈ idxs) then Some (Some (v c)) else results aw !! i) ->
  filled v its rs = filled v its (results aw).
Proof.
  intros Hok Hc Hlen Hrs. apply list_eq. intros i. unfold filled. rewrite !lookup_zip_with, Hrs.
  destruct (its !! i) as [d|] eqn:Hd; [|done]. cbn. case_decide as Hin; [|done].
  destruct (ao_slots _ _ _ Hok c idxs Hc) as (_ & _ & Hall). destruct (Hall i Hin) as (_ & Hi & ->). cbn. congruence.
Qed.

Lemma filled_all v its rs vs : mapM id rs = Some vs -> length rs = length its -> vs = filled v its rs.
Proof.
  intros Hm%mapM_Some Hlen. unfold filled. revert its Hlen.
  induction Hm as [|o w rs vs Ho Hm IH]; intros [|c its] Hlen; try done. cbn in *. unfold id in Ho. subst o. cbn.
  f_equal. apply IH. lia.
Qed.

Lemma resolve_child_runs s g gf aw c idxs v :
  objects (store s) !! g = Some (OGather gf) -> ga_state gf = GatherAwaited aw ->
  awaited_ok (items gf) (length (items gf)) aw -> pending_children aw !! c = Some idxs ->
  g < next_id (store s) ->
  exists rs, length rs = length (results aw)
    /\ (forall i, rs !! i = if decide (i ∈ idxs) then Some (Some v) else results aw !! i)
    /\ exists s',
         if decide (delete c (pending_children aw) = ∅) then
           exists vs, mapM id rs = Some vs
             /\ resolve_child g c v s = (Ok (Some (next_id (store s), aw_awaiter aw)), s')
             /\ objects (store s') !! next_id (store s) = Some (OList vs)
             /\ objects (store s') !! g
                = Some (OGather (set_ga_state (GatherCompleted (VRef (next_id (store s)))) gf))
         else
           resolve_child g c v s = (Ok None, s') /\ next_id (store s') = next_id (store s)
           /\ objects (store s') !! g = Some (OGather (set_ga_state
                (GatherAwaited (mkAwaited (aw_awaiter aw) (delete c (pending_children aw)) rs)) gf)).
Proof.
  intros Hg Haw Hok Hc Hlt. destruct (ao_slots _ _ _ Hok c idxs Hc) as (_ & Hnd & Hin).
  destruct (fill_slots_runs v idxs (results aw) s Hnd) as (rs & cnt & Hfill & Hlen & Hrs).
  { intros i Hi. destruct (Hin i Hi) as (_ & _ & E). by eapply lookup_lt_Some. }
  exists rs. split; [done|]. split; [done|].
  pose proof (awaited_fill _ _ _ _ _ _ _ (aw_awaiter aw) Hok Hc Hlen Hrs) as Hok'.
  assert (read_gather g s = (Ok gf, s)) as Hread.
  { unfold read_gather, read, sbind, sget, expect. by rewrite Hg. }
  assert (resolve_child g c v s =
    (put g (OGather (set_ga_state (GatherAwaited (mkAwaited (aw_awaiter aw) (delete c (pending_children aw)) rs)) gf)) ;;;
     if decide (delete c (pending_children aw) = ∅) then
       do vs <- all_filled rs ;;
       put g (OGather (set_ga_state
         (GatherAwaited (mkAwaited (TaskAwaiter main_id) (delete c (pending_children aw)) [])) gf)) ;;;
       do list_id <- allocate (OList vs) ;;
       cache_result g list_id ;;;
       sret (Some (list_id, aw_awaiter aw))
     else sret None) (set_counts cnt s)) as E.
  { unfold resolve_child, sbind at 1. rewrite Hread, Haw. unfold sbind at 1. rewrite Hc. cbn [expect sret].
    unfold sbind at 1. by rewrite Hfill. }
  rewrite E. clear E Hread Hfill. case_decide as Hd.
  - destruct (awaited_full _ _ Hok') as (vs & Hvs & _); [done|]. cbn in Hvs. eexists. exists vs. split; [done|].
    unfold all_filled. rewrite Hvs. unfold sbind at 1. cbn [put smodify expect sret].
    unfold allocate, cache_result, inc_ref, put, sbind, sget, smodify, sret. cbn.
    unfold read_gather, read, sbind, sget, expect. cbn.
    rewrite lookup_insert_ne by lia. rewrite lookup_insert_eq. cbn. split; [done|].
    cbn. split; [rewrite lookup_insert_ne by lia|]; rewrite lookup_insert_eq; reflexivity.
  - eexists. split; [done|]. split; [done|]. cbn. by rewrite lookup_insert_eq.
Qed.

Lemma resolve_all_runs order v : forall s g gf aw,
  objects (store s) !! g = Some (OGather gf) -> ga_state gf = GatherAwaited aw ->
  awaited_ok (items gf) (length (items gf)) aw -> g < next_id (store s) -> pending_children aw <> ∅ ->
  NoDup order -> (forall c, c ∈ order <-> is_Some (pending_children aw !! c)) ->
  exists s', resolve_all g order v s
      = (Ok (replicate (length order - 1) None ++ [Some (next_id (store s), aw_awaiter aw)]), s')
    /\ objects (store s') !! next_id (store s) = Some (OList (filled v (items gf) (results aw)))
    /\ objects (store s') !! g = Some (OGather (set_ga_state (GatherCompleted (VRef (next_id (store s)))) gf)).
Proof.
  induction order as [|c order IH]; intros s g gf aw Hg Haw Hok Hlt Hne Hnd Hkeys.
  { destruct Hne. apply map_empty. intros c. apply eq_None_not_Some. rewrite <- Hkeys. apply not_elem_of_nil. }
  apply NoDup_cons in Hnd as [Hc Hnd]. destruct (proj1 (Hkeys c)) as [idxs Hidxs]; [by left|].
  destruct (resolve_child_runs s g gf aw c idxs (v c) Hg Haw Hok Hidxs Hlt) as (rs & Hlen & Hrs & s1 & Hstep).
  assert (forall d, d ∈ order <-> is_Some (delete c (pending_children aw) !! d)) as Hkeys'.
  { intros d. destruct (decide (d = c)) as [->|Hdc].
    - rewrite lookup_delete_eq. split; [done|]. by intros [? ?].
    - rewrite lookup_delete_ne by done. rewrite <- Hkeys, elem_of_cons. naive_solver. }
  cbn [resolve_all]. unfold sbind. case_decide as Hd.
  - destruct Hstep as (vs & Hvs & -> & Hl & Hg').
    assert (order = []) as ->.
    { destruct order as [|d order]; [done|]. destruct (proj1 (Hkeys' d)) as [? E]; [by left|]. by rewrite Hd, lookup_empty in E. }
    exists s1. split; [done|]. split; [|done]. rewrite Hl. do 2 f_equal.
    rewrite <- (filled_slot v _ _ c idxs rs Hok Hidxs Hlen Hrs). apply filled_all; [done|].
    by rewrite Hlen, (ao_length _ _ _ Hok).
  - destruct Hstep as (-> & Hn & Hg').
    edestruct (IH s1 g) as (s' & E & Hl & Hg''); [exact Hg'|done| | |exact Hd|done|exact Hkeys'|].
    { cbn [items set_ga_state]. by eapply awaited_fill. }
    { by rewrite Hn. }
    rewrite E. change (items (set_ga_state _ gf)) with (items gf) in Hl. cbn [results] in Hl. rewrite Hn in *. exists s'. split; [|split; [|done]].
    + destruct order as [|d order].
      2:{ cbn [length]. by rewrite !Nat.sub_1_r. }
      destruct Hd. apply map_empty. intros d. apply eq_None_not_Some. rewrite <- Hkeys'. apply not_elem_of_nil.
    + rewrite Hl. do 2 f_equal. by apply (filled_slot v _ _ c idxs).
Qed.

(** C9: a gather that is awaited, at any point of a run, completes exactly when the last
    of the children it waits for delivers, whatever the order they deliver in; it then
    hands its awaiter one list, which holds at each place the value of the item there,
    an item that occurs several times at each of its places, and keeps that list as its
    own result. *)
Theorem gather_results_in_order ops s g gf aw order v :
  run_ops ops new_vm = Ok s ->
  objects (store s) !! g = Some (OGather gf) -> ga_state gf = GatherAwaited aw ->
  NoDup order -> (forall c, c ∈ order <-> is_Some (pending_children aw !! c)) ->
  exists s', resolve_all g order v s
      = (Ok (replicate (length order - 1) None ++ [Some (next_id (store s), aw_awaiter aw)]), s')
    /\ objects (store s') !! next_id (store s) = Some (OList (filled v (items gf) (results aw)))
    /\ objects (store s') !! g = Some (OGather (set_ga_state (GatherCompleted (VRef (next_id (store s)))) gf)).
Proof.
  intros Hrun Hg Haw. pose proof (run_ops_new _ _ Hrun) as Hre.
  assert (exists o, good ∅ None o s) as (o & [[_ Hst _] _]).
  { destruct Hre as [[t Ht]|Hw]; [exists (Some t); apply Ht|exists None; apply Hw]. }
  destruct (st_awaited _ _ _ Hst g gf aw Hg Haw) as [Hok Hne].
  apply resolve_all_runs; [done..| |done]. apply (st_dom _ _ _ Hst). by eexists.
Qed.

(** ** The walk of a gather, as a recursion

    [commit_gather_tree] keeps its own stack of open gathers. This is the walk it
    stands for: an open gather commits its items in order, a nested gather before the
    item after it; an exception fails the gather and goes on to the one above. The
    resource tracker is asked before every round, and before a gather is opened that
    the stack has no room for; what it objects fails the gathers that are open. *)

(** The rounds the walk has made, and the open gathers there is room for. *)
Record Meter := mkMeter { m_rounds : nat; m_room : nat }.

Definition WM : Type -> Type := M (Meter * VM) Stop.

(** A step of the machine. *)
Definition machine {A} (m : AM A) : WM A := fun ks => match m (snd ks) with (r, s) => (r, (fst ks, s)) end.

Definition caught {A} (m : WM A) : WM (result A RunError) := fun ks =>
  match m ks with
  | (Ok a, ks') => (Ok (Ok a), ks')
  | (Err (Raise e), ks') => (Ok (Err e), ks')
  | (Err (Panicked p), ks') => (Err (Panicked p), ks')
  end.

Definition next_round : WM (option RunError) := fun ks =>
  match check_memory_time_every (m_rounds (fst ks)) with
  | Some e => (Ok (Some e), ks)
  | None => (Ok None, (mkMeter (S (m_rounds (fst ks))) (m_room (fst ks)), snd ks))
  end.

Definition make_room (depth : nat) : WM (option RunError) := fun ks =>
  match check_commit_stack_growth depth (m_room (fst ks)) with
  | Some e => (Ok (Some e), ks)
  | None =>
      (Ok None, (mkMeter (m_rounds (fst ks))
                   (if (depth =? m_room (fst ks))%nat then grown (m_room (fst ks)) else m_room (fst ks)), snd ks))
  end.

Definition fail_commit (c : GatherCommit) (e : RunError) : AM unit :=
  do gf <- read_gather (c_gather c) ;;
  put (c_gather c) (OGather (set_ga_state (GatherFailed e) gf)) ;;;
  drop_commit c.

(** The walk of the gather [c], [depth] of them being open. *)
Fixpoint commit_walk (fuel depth : nat) (c : GatherCommit) : WM Poll :=
  match fuel with
  | O => machine (panic OutOfFuel)
  | S fuel =>
      do late <- next_round ;;
      match late with
      | Some e => machine (fail_commit c e ;;; raise e)
      | None =>
          do (c, out) <- machine (step_gather_commit (length (c_results c)) c) ;;
          match out with
          | Ok None => machine (settle_gather_commit c)
          | Err e => machine (fail_commit c e ;;; raise e)
          | Ok (Some nested) =>
              do full <- make_room depth ;;
              match full with
              | Some e => machine (drop_commit nested ;;; fail_commit c e ;;; raise e)
              | None =>
                  do r <- caught (commit_walk fuel (S depth) nested) ;;
                  match r with
                  | Ok poll => commit_walk fuel depth (resume_after_child (c_gather nested) (c_next c) poll c)
                  | Err e => machine (fail_commit c e ;;; raise e)
                  end
              end
          end
      end
  end.

(** A walk from its first round, what it has asked the tracker forgotten. *)
Definition shown {A} (x : result A Stop * (Meter * VM)) : result A Stop * VM := (fst x, snd (snd x)).
Definition metered {A} (m : WM A) : AM A := fun s => shown (m (mkMeter 0 1, s)).

(** The walk of the open gathers [rest], each with the fuel it goes on with, above the
    walk [m] of the gather [g] that fills [slot] of the first of them. *)
Fixpoint climb (g : nat) (slot : option nat) (m : WM Poll) (rest : list (nat * GatherCommit)) : WM Poll :=
  match rest with
  | [] => m
  | (fuel, p) :: rest =>
      climb (c_gather p) (c_parent_slot p)
        (do r <- caught m ;;
         match r with
         | Ok poll =>
             match slot with
             | Some slot => commit_walk fuel (S (length rest)) (resume_after_child g slot poll p)
             | None => machine (panic SlotMissing)
             end
         | Err e => machine (fail_commit p e ;;; raise e)
         end) rest
  end.

Lemma climb_ext g slot m m' rest ks ks' : m ks = m' ks' -> climb g slot m rest ks = climb g slot m' rest ks'.
Proof.
  revert g slot m m'. induction rest as [|[f p] rest IH]; intros g slot m m' E; cbn [climb]; [done|].
  apply IH. unfold sbind, caught. by rewrite E.
Qed.

Lemma climb_panic g slot m rest ks p ks' :
  m ks = (Err (Panicked p), ks') -> climb g slot m rest ks = (Err (Panicked p), ks').
Proof.
  revert g slot m. induction rest as [|[f c] rest IH]; intros g slot m E; cbn [climb]; [done|].
  apply IH. unfold sbind, caught. by rewrite E.
Qed.

(** [m] raises no exception. *)
Definition no_raise {A} (m : AM A) : Prop := forall s e s', m s <> (Err (Raise e), s').

Lemma no_raise_bind {A B} (m : AM A) (k : A -> AM B) :
  no_raise m -> (forall a, no_raise (k a)) -> no_raise (sbind m k).
Proof.
  intros Hm Hk s e s'. unfold sbind. specialize (Hm s). destruct (m s) as [[a|st] s1]; [apply Hk|].
  intros [= -> ->]. by eapply Hm.
Qed.

Lemma no_raise_quiet m : quiet m -> no_raise m.
Proof. intros Hm s e s'. destruct (Hm s) as [c ->]. done. Qed.

Lemma no_raise_expect {A} (o : option A) p : no_raise (expect o p).
Proof. intros s e s'. by destruct o. Qed.

Lemma no_raise_modify f : no_raise (smodify f : AM unit).
Proof. done. Qed.

Lemma no_raise_read_gather g : no_raise (read_gather g).
Proof.
  unfold read_gather, read. repeat (apply no_raise_bind; [|intros]); [done|apply no_raise_expect|]. by case_match.
Qed.

Ltac no_raise :=
  repeat first
    [ apply no_raise_quiet; first [apply quiet_drop_commit | apply quiet_drop_awaiter | apply quiet_inc]
    | apply no_raise_bind; [|intros]
    | apply no_raise_read_gather
    | apply no_raise_expect
    | apply no_raise_modify
    | case_match
    | done ].

Lemma settle_no_raise c : no_raise (settle_gather_commit c).
Proof. unfold settle_gather_commit, all_filled, cache_result, allocate, put. no_raise. Qed.

Lemma fail_no_raise c e : no_raise (fail_commit c e).
Proof. unfold fail_commit, put. no_raise. Qed.

Lemma unwind_no_raise st e : no_raise (unwind_gather_commits st e).
Proof. induction st as [|c st IH]; cbn [unwind_gather_commits]; [done|]. unfold put. no_raise. Qed.

Lemma step_no_raise fuel c : no_raise (step_gather_commit fuel c).
Proof.
  revert c. induction fuel as [|fuel IH]; intros c; cbn [step_gather_commit]; [by case_match|].
  case_match; [|done]. no_raise; try apply IH.
  intros s e s'. unfold attempt. by destruct (commit_item _ _ _ s) as [[?|[?|?]] ?].
Qed.

(** What the walk leaves of a frame, and the frame of a nested gather. *)
Lemma step_frames fuel c s c1 out s1 :
  step_gather_commit fuel c s = (Ok (c1, out), s1) ->
  c_gather c1 = c_gather c /\ c_parent_slot c1 = c_parent_slot c
  /\ forall nested, out = Ok (Some nested) -> c_parent_slot nested = Some (c_next c1).
Proof.
  revert c s. induction fuel as [|fuel IH]; intros c s; cbn [step_gather_commit].
  { case_match; [done|]. by intros [= <- <- <-]. }
  case_match; [|by intros [= <- <- <-]].
  unfold sbind at 1. destruct (read_gather (c_gather c) s) as [[gf|?] s2]; [|done].
  unfold sbind at 1. destruct (expect _ _ s2) as [[item|?] s3]; [|done].
  destruct (c_pending c !! item) as [slots|]; [intros E; by apply IH in E|].
  unfold sbind at 1, attempt.
  destruct (commit_item (c_gather c) (c_next c) item s3) as [[[p|nested]|[e|?]] s4] eqn:Hci; [| | |done].
  - intros E. apply IH in E. by destruct p.
  - intros [= <- <- <-]. split_and!; [done..|]. intros n [= <-]. revert Hci. unfold commit_item, sbind at 1.
    destruct (read item s3) as [[o|?] s5]; [|done]. destruct o as [co|ex|gi| |]; try done.
    + case_decide; [|done]. unfold sbind. destruct (spawn _ _ s5) as [[[?|]|?] ?]; done.
    + unfold sbind. destruct (inc_ref _ s5) as [[?|?] ?]; [|done].
      destruct (await_external_future _ _ _) as [[?|?] ?]; done.
    + unfold sbind at 1. destruct (poll_settled_gather gi s5) as [[[v|]|?] s6]; [done| |done].
      unfold open_gather_commit, sbind. destruct (inc_ref _ s6) as [[?|?] s7]; [|done].
      destruct (read_gather item s7) as [[gi'|?] s8]; [|done]. by intros [= <- _].
  - by intros [= <- <- <-].
Qed.

Lemma unwind_app st st' e s :
  unwind_gather_commits (st ++ st') e s = (unwind_gather_commits st e ;;; unwind_gather_commits st' e) s.
Proof.
  revert s. induction st as [|c st IH]; intros s; cbn [app unwind_gather_commits]; [done|].
  unfold sbind. destruct (read_gather (c_gather c) s) as [[gf|?] s1]; [|done].
  destruct (put _ _ s1) as [[?|?] s2]; [|done]. destruct (drop_commit c s2) as [[?|?] s3]; [|done]. apply IH.
Qed.

(** Failing one gather is unwinding it alone. *)
Lemma fail_unwind c e s :
  (fail_commit c e ;;; raise (A := Poll) e) s = (unwind_gather_commits [c] e ;;; raise e) s.
Proof.
  unfold fail_commit, sbind. cbn [unwind_gather_commits]. unfold sbind.
  destruct (read_gather (c_gather c) s) as [[gf|?] s1]; [|done].
  destruct (put _ _ s1) as [[?|?] s2]; [|done]. by destruct (drop_commit c s2) as [[?|?] s3].
Qed.

Lemma machine_ext {A} (m m' : AM A) ks : m (snd ks) = m' (snd ks) -> machine m ks = machine m' ks.
Proof. unfold machine. by intros ->. Qed.

Lemma climb_unwind g slot st e rest ks :
  climb g slot (machine (unwind_gather_commits st e ;;; raise e)) rest ks
  = machine (unwind_gather_commits (st ++ rest.*2) e ;;; raise e) ks.
Proof.
  revert g slot st ks. induction rest as [|[f p] rest IH]; intros g slot st [k s]; cbn [climb]; [by rewrite app_nil_r|].
  change ((f, p) :: rest).*2 with (p :: rest.*2).
  replace (st ++ p :: rest.*2) with ((st ++ [p]) ++ rest.*2) by by rewrite <- app_assoc.
  rewrite <- (IH (c_gather p) (c_parent_slot p)). apply climb_ext.
  transitivity (machine (A := Poll) ((unwind_gather_commits st e ;;; unwind_gather_commits [p] e) ;;; raise e) (k, s)).
  2:{ apply machine_ext. cbn [snd]. unfold sbind at 1 3. by rewrite unwind_app. }
  pose proof (unwind_no_raise st e s) as Hn. pose proof (fail_unwind p e) as Hf.
  set (u := unwind_gather_commits st e) in *. set (v := unwind_gather_commits [p] e) in *. clearbody u v.
  unfold sbind at 1, caught, machine. cbn [fst snd]. unfold sbind, raise, sfail in Hf |- *. cbn [fst snd] in Hf |- *.
  destruct (u s) as [[[]|[e'|?]] s1]; [|by edestruct Hn|done]. cbn [fst snd]. by rewrite Hf.
Qed.

(** A gather that fails fails those above it. *)
Lemma climb_fail g slot m c e rest ks ks1 :
  m ks = machine (fail_commit c e ;;; raise e) ks1 ->
  shown (climb g slot m rest ks) = (unwind_gather_commits (c :: rest.*2) e ;;; raise e) (snd ks1).
Proof.
  intros E. rewrite (climb_ext _ _ _ (machine (unwind_gather_commits [c] e ;;; raise e)) rest ks ks1).
  - rewrite climb_unwind. unfold machine, shown. cbn [app]. by destruct (sbind _ _ _).
  - rewrite E. apply machine_ext, fail_unwind.
Qed.

(** What [commit_gather_tree] makes of the end of its loop. *)
Definition finish (r : CommitEnd) : result Poll Stop * VM :=
  match r with
  | (_, Err e, s) => (Err e, s)
  | (_, Ok (Ok poll), s) => (Ok poll, s)
  | (st, Ok (Err e), s) => (unwind_gather_commits st e ;;; raise e) s
  end.

(** The walk of a stack of frames, given the fuel of each. *)
Definition walk_stack (st : list (nat * GatherCommit)) : WM Poll :=
  match st with
  | [] => machine (panic SlotMissing)
  | (fuel, c) :: rest => climb (c_gather c) (c_parent_slot c) (commit_walk fuel (S (length rest)) c) rest
  end.

Lemma zip_frames (fuels : list nat) (st : list GatherCommit) : length fuels = length st -> (zip fuels st).*2 = st.
Proof. intros Hlen. apply snd_zip. lia. Qed.

Lemma zip_length (fuels : list nat) (st : list GatherCommit) : length fuels = length st -> length (zip fuels st) = length st.
Proof. intros Hlen. rewrite length_zip_with. lia. Qed.

(** The meter of the walk at a round of the loop. *)
Definition at_round (l : CommitLoop) : Meter * VM := (mkMeter (l_steps l) (l_capacity l), l_vm l).

(** [fuels] is enough for the frames of [st] if it has [n] for each. *)
Definition fuelled (n : nat) (fuels : list nat) (st : list GatherCommit) : Prop :=
  length fuels = length st /\ Forall (fun f => n <= f) fuels.

Lemma fuelled_cons n fuels c rest :
  fuelled (S n) fuels (c :: rest) -> exists f fs, fuels = S f :: fs /\ n <= f /\ fuelled n fs rest.
Proof.
  intros [Hlen Hall]. destruct fuels as [|[|f] fs]; [done| |]; apply Forall_cons in Hall as [Hf Hall]; [lia|].
  exists f, fs. split; [done|]. split; [lia|]. split; [by injection Hlen|]. eapply Forall_impl; [exact Hall|]. cbn. lia.
Qed.

Lemma fuelled_top n f fs c rest : n <= f -> fuelled n fs rest -> fuelled n (f :: fs) (c :: rest).
Proof. intros Hf [Hlen Hall]. split; [cbn; by rewrite Hlen|by constructor]. Qed.

(** The walk makes of the stack of [l] what the loop ends with. *)
Definition walks (l : CommitLoop) (r : CommitEnd) : Prop :=
  exists n, forall fuels, fuelled n fuels (l_stack l) -> shown (walk_stack (zip fuels (l_stack l)) (at_round l)) = finish r.

(** The walk goes as the loop does: one round of it is what the walk does with its innermost gather. *)
Lemma commit_walk_round f depth c k s :
  commit_walk (S f) depth c (k, s)
  = match check_memory_time_every (m_rounds k) with
    | Some e => machine (fail_commit c e ;;; raise e) (k, s)
    | None =>
        match step_gather_commit (length (c_results c)) c s with
        | (Err e, s1) => (Err e, (mkMeter (S (m_rounds k)) (m_room k), s1))
        | (Ok (c1, out), s1) =>
            match out with
            | Ok None => machine (settle_gather_commit c1)
            | Err e => machine (fail_commit c1 e ;;; raise e)
            | Ok (Some nested) =>
                do full <- make_room depth ;;
                match full with
                | Some e => machine (drop_commit nested ;;; fail_commit c1 e ;;; raise e)
                | None =>
                    do r <- caught (commit_walk f (S depth) nested) ;;
                    match r with
                    | Ok poll => commit_walk f depth (resume_after_child (c_gather nested) (c_next c1) poll c1)
                    | Err e => machine (fail_commit c1 e ;;; raise e)
                    end
                end
            end (mkMeter (S (m_rounds k)) (m_room k), s1)
        end
    end.
Proof.
  cbn [commit_walk]. unfold sbind at 1, next_round. cbn [fst snd]. destruct (check_memory_time_every (m_rounds k)); [done|].
  unfold sbind at 1, machine at 1. cbn [fst snd]. by destruct (step_gather_commit _ _ _) as [[[c1 out]|e] s1].
Qed.
Section Round.
Context (c c1 : GatherCommit) (rest : list GatherCommit) (cap steps : nat) (s s1 : VM).
Local Abbreviation here := (mkLoop (c :: rest) cap steps s).

(** The innermost gather fails: by the tracker, by an item, or because the stack is full. *)
Lemma walks_fail e c2 s2 :
  (forall f, exists k, commit_walk (S f) (S (length rest)) c (at_round here)
                       = machine (fail_commit c2 e ;;; raise e) (k, s2)) ->
  walks here (c2 :: rest, Ok (Err e), s2).
Proof.
  intros Hw. exists 1. intros fuels (f & fs & -> & _ & Hf)%fuelled_cons. cbn [l_stack zip zip_with walk_stack].
  rewrite zip_length by apply Hf. destruct (Hw f) as [k E]. rewrite (climb_fail _ _ _ c2 e _ _ (k, s2)) by done.
  by rewrite zip_frames by apply Hf.
Qed.

Lemma walks_panic p c2 s2 :
  (forall f, exists k, commit_walk (S f) (S (length rest)) c (at_round here) = (Err (Panicked p), (k, s2))) ->
  walks here (c2, Err (Panicked p), s2).
Proof.
  intros Hw. exists 1. intros fuels (f & fs & -> & _ & Hf)%fuelled_cons. cbn [l_stack zip zip_with walk_stack].
  rewrite zip_length by apply Hf. destruct (Hw f) as [k E]. by rewrite (climb_panic _ _ _ _ _ p (k, s2)).
Qed.

Context (Htime : check_memory_time_every steps = None).

Lemma walks_push nested r :
  step_gather_commit (length (c_results c)) c s = (Ok (c1, Ok (Some nested)), s1) ->
  check_commit_stack_growth (length (c :: rest)) cap = None ->
  walks (mkLoop (nested :: c1 :: rest) (if (length (c :: rest) =? cap)%nat then grown cap else cap) (S steps) s1) r ->
  walks here r.
Proof.
  intros Hstep Hgrow [n Hn]. destruct (step_frames _ _ _ _ _ _ Hstep) as (Hg1 & Hs1 & Hnested).
  exists (S n). intros fuels (f & fs & -> & Hf & Hfs)%fuelled_cons.
  specialize (Hn (f :: f :: fs) (fuelled_top _ _ _ _ _ Hf (fuelled_top _ _ _ _ _ Hf Hfs))). rewrite <- Hn. f_equal.
  cbn [l_stack zip zip_with walk_stack climb length]. rewrite zip_length by apply Hfs. rewrite <- Hg1, <- Hs1.
  apply climb_ext. unfold at_round. cbn [l_steps l_capacity l_vm]. rewrite commit_walk_round. cbn [m_rounds].
  rewrite Htime, Hstep. unfold sbind at 1, make_room. cbn [fst snd m_room m_rounds]. cbn [length] in Hgrow.
  rewrite Hgrow. by rewrite (Hnested nested eq_refl).
Qed.

Lemma walks_settle s2 poll r :
  step_gather_commit (length (c_results c)) c s = (Ok (c1, Ok None), s1) ->
  settle_gather_commit c1 s1 = (Ok poll, s2) ->
  match rest with
  | [] => r = ([], Ok (Ok poll), s2)
  | p :: rest =>
      match c_parent_slot c1 with
      | None => r = (p :: rest, Err (Panicked SlotMissing), s2)
      | Some slot => walks (mkLoop (resume_after_child (c_gather c1) slot poll p :: rest) cap (S steps) s2) r
      end
  end -> walks here r.
Proof.
  intros Hstep Hset Hr. destruct (step_frames _ _ _ _ _ _ Hstep) as (Hg1 & Hs1 & _).
  assert (forall f depth, commit_walk (S f) depth c (at_round here) = (Ok poll, (mkMeter (S steps) cap, s2))) as Hwalk.
  { intros f depth. unfold at_round. cbn [l_steps l_capacity l_vm]. rewrite commit_walk_round. cbn [m_rounds m_room].
    rewrite Htime, Hstep. unfold machine. cbn [fst snd]. by rewrite Hset. }
  destruct rest as [|p rest'].
  { exists 1. intros fuels (f & fs & -> & _ & [Hlen _])%fuelled_cons. destruct fs; [|done]. subst r.
    cbn [l_stack zip zip_with walk_stack climb length]. by rewrite Hwalk. }
  destruct (c_parent_slot c1) as [slot|] eqn:Hslot.
  - destruct Hr as [n Hn]. exists (S n). intros fuels (f & fs & -> & _ & [Hlen Hall])%fuelled_cons.
    destruct fs as [|f' fs]; [done|]. rewrite <- (Hn (f' :: fs)) by (split; [cbn in *; lia|done]). f_equal.
    cbn [l_stack zip zip_with walk_stack climb length].
    replace (c_gather (resume_after_child (c_gather c1) slot poll p)) with (c_gather p) by by destruct poll.
    replace (c_parent_slot (resume_after_child (c_gather c1) slot poll p)) with (c_parent_slot p) by by destruct poll.
    apply climb_ext. unfold sbind at 1, caught. by rewrite Hwalk, <- Hs1, <- Hg1.
  - subst r. exists 1. intros fuels (f & fs & -> & _ & [Hlen Hall])%fuelled_cons. destruct fs as [|f' fs]; [done|].
    cbn [l_stack zip zip_with walk_stack climb length].
    by rewrite (climb_panic _ _ _ _ _ SlotMissing (mkMeter (S steps) cap, s2))
      by (unfold sbind at 1, caught; by rewrite Hwalk, <- Hs1).
Qed.

End Round.

Lemma drop_commit_quiet c s : exists s', drop_commit c s = (Ok tt, s').
Proof. destruct (quiet_drop_commit c s) as [n ->]. by eexists. Qed.

Lemma loop_walk k l r : run_steps commit_step k l = inr r -> l_stack l <> [] -> walks l r.
Proof.
  revert l. induction k as [|k IH]; intros [[|c rest] cap steps s]; cbn [run_steps]; [done..|].
  unfold commit_step. cbn [l_stack l_steps l_capacity l_vm].
  pose proof (fun f => commit_walk_round f (S (length rest)) c (mkMeter steps cap) s) as Hround.
  cbn [m_rounds m_room] in Hround.
  destruct (check_memory_time_every steps) as [e|] eqn:Htime.
  { intros [= <-] _. apply walks_fail. intros f. eexists. apply Hround. }
  destruct (step_gather_commit (length (c_results c)) c s) as [[[c1 out]|stop] s1] eqn:Hstep.
  2:{ intros [= <-] _. destruct stop as [e|p]; [by apply step_no_raise in Hstep|]. apply walks_panic. eauto. }
  destruct out as [[nested|]|e].
  - destruct (check_commit_stack_growth _ cap) as [e|] eqn:Hgrow.
    2:{ intros Hk _. eapply walks_push; [done..|]. by apply IH. }
    destruct (drop_commit_quiet nested s1) as [s2 Hdrop]. rewrite Hdrop. intros [= <-] _. apply walks_fail.
    intros f. eexists. rewrite Hround. unfold sbind at 1, make_room. cbn [fst snd m_room m_rounds].
    cbn [length] in Hgrow. rewrite Hgrow. unfold machine. cbn [fst snd]. unfold sbind at 1. by rewrite Hdrop.
  - destruct (settle_gather_commit c1 s1) as [[poll|stop] s2] eqn:Hset.
    2:{ intros [= <-] _. destruct stop as [e|p]; [by apply settle_no_raise in Hset|]. apply walks_panic.
        intros f. eexists. rewrite Hround. unfold machine. cbn [fst snd]. by rewrite Hset. }
    intros Hk _. eapply walks_settle; [done..|]. destruct rest as [|p rest]; [by injection Hk as <-|].
    destruct (c_parent_slot c1) as [slot|]; [by apply IH|by injection Hk as <-].
  - intros [= <-] _. apply walks_fail. eauto.
Qed.

(** C10: awaiting a gather for the first time does what the recursive walk of its items
    does, nested gathers in place, to the machine and in its outcome, whatever the
    resource tracker answers on the way; the loop with its own stack of open gathers,
    and the pass that fails what is still open when an item raises or the tracker
    objects, are that recursion. *)
Theorem commit_walks_in_order ops s t g gf :
  run_ops ops new_vm = Ok s -> runs t s ->
  objects (store s) !! g = Some (OGather gf) -> ga_state gf = GatherPending ->
  exists n, forall fuel, n <= fuel ->
    commit_gather_tree g (TaskAwaiter t) s
    = (do c <- open_gather_commit g (TaskAwaiter t) None ;; metered (commit_walk fuel 1 c)) s.
Proof.
  intros Hrun [Hcur Hr] Hg Hp. destruct (reached_running s (run_ops_new _ _ Hrun) Hr) as [t' Ht'].
  pose proof Ht' as (Hgood & Hc & _). assert (t' = t) as -> by congruence.
  destruct (commit_loop_ends t g s (root_loop t g gf s)) as [r Hend]; [by apply root_loop_ok|done|done|].
  pose proof Hend as Hk. rewrite iterate_run in Hk. destruct (loop_walk _ _ _ Hk ltac:(done)) as [n Hn].
  exists n. intros fuel Hf. specialize (Hn [fuel] ltac:(split; [done|by repeat constructor])).
  assert (open_gather_commit g (TaskAwaiter t) None s
          = (Ok (mkCommit g (TaskAwaiter t) None 0 (replicate (item_count gf) None) ∅), s)) as Hopen.
  { unfold open_gather_commit, read_gather, read, sbind, sget, expect. by rewrite Hg. }
  unfold commit_gather_tree, sbind. rewrite Hopen. change (mkLoop _ 1 0 s) with (root_loop t g gf s). rewrite Hend.
  unfold metered. unfold at_round in Hn. cbn [root_loop l_stack l_steps l_capacity l_vm zip zip_with walk_stack climb length] in Hn.
  rewrite Hn. destruct r as [[st [[p|e]|e]] s']; done.
Qed.

End Run.

(** ** A run *)

Module Example.

#[export] Instance listed : KeyOrder := {| key_order A m := (map_to_list m).*1 |}.

#[export] Instance listed_laws : KeyOrderLaws.
Proof. by split. Qed.

#[export] Instance plain : Interns := {| is_internal_function _ := false |}.

#[export] Instance boundless : Tracker :=
  {| check_memory_time_every _ := None; check_allocation _ := None; check_recursion_depth _ := None;
     size_of_commit := 96 |}.

(** [await gather(c2(), f0, gather(f1, c3()), f0)], with the calls [f0] and [f1] pending. *)
Definition setup : list Op :=
  [OpPending None; OpPending None; OpCoroutine 0 [] None; OpCoroutine 1 [] None;
   OpGather [VRef 1; VRef 3]; OpGather [VRef 2; VRef 0; VRef 4; VRef 0]].

Definition awaiting : list Op := setup ++ [OpAwait (VRef 5)].

Definition after (ops : list Op) : VM := match run_ops ops new_vm with Ok s => s | Err _ => new_vm end.

Definition gather_at (g : nat) (s : VM) : GatherFuture :=
  match objects (store s) !! g with Some (OGather gf) => gf | _ => mkGather [] GatherPending end.

Definition awaited_at (g : nat) (s : VM) : AwaitedGather :=
  match ga_state (gather_at g s) with GatherAwaited aw => aw | _ => mkAwaited (TaskAwaiter 0) ∅ [] end.

(** Both tasks have returned, and main waits for the calls. *)
Definition idle : list Op := awaiting ++ [OpReturn VNone; OpReturn VNone].

End Example.
Import Example.

Lemma tasks_accounted_witness :
  run_ops awaiting new_vm = Ok (after awaiting) /\ NoDup (ready_queue (scheduler (after awaiting))).
Proof.
  assert (run_ops awaiting new_vm = Ok (after awaiting)) as E by (vm_compute; reflexivity).
  split; [exact E|]. apply (tasks_accounted awaiting (after awaiting) E).
Defined.

Lemma gathers_accounted_witness :
  run_ops awaiting new_vm = Ok (after awaiting)
  /\ forall i, results (awaited_at 5 (after awaiting)) !! i = Some None <->
       exists c idxs, items (gather_at 5 (after awaiting)) !! i = Some c
         /\ pending_children (awaited_at 5 (after awaiting)) !! c = Some idxs /\ i ∈ idxs.
Proof.
  assert (run_ops awaiting new_vm = Ok (after awaiting)) as E by (vm_compute; reflexivity).
  split; [exact E|]. destruct (gathers_accounted awaiting (after awaiting) E) as [Ha _].
  apply (Ha 5 (gather_at 5 (after awaiting)) (awaited_at 5 (after awaiting))); vm_compute; reflexivity.
Defined.

Lemma cleanup_ends_witness :
  run_ops awaiting new_vm = Ok (after awaiting)
  /\ exists s', cleanup (after awaiting) = (Ok tt, s') /\ tasks (scheduler s') = ∅.
Proof.
  assert (run_ops awaiting new_vm = Ok (after awaiting)) as E by (vm_compute; reflexivity).
  split; [exact E|]. destruct (cleanup_ends awaiting (after awaiting) E) as (s' & H1 & H2 & _).
  exists s'. split; [exact H1|exact H2].
Defined.

Lemma scheduler_never_stalls_witness :
  run_ops idle new_vm = Ok (after idle) /\ runnable (after idle) = false /\ ready_queue (scheduler (after idle)) = []
  /\ pending_externals (scheduler (after idle)) <> ∅.
Proof.
  assert (run_ops idle new_vm = Ok (after idle)) as E by (vm_compute; reflexivity).
  assert (runnable (after idle) = false) as Hr by (vm_compute; reflexivity).
  assert (ready_queue (scheduler (after idle)) = []) as Hq by (vm_compute; reflexivity).
  split; [exact E|]. split; [exact Hr|]. split; [exact Hq|].
  destruct (scheduler_never_stalls idle (after idle) E Hr) as [Hn _]. exact (Hn Hq).
Defined.

(** The items deliver in another order than the gather has them; [f0] occurs twice. *)
Lemma gather_results_in_order_witness :
  run_ops awaiting new_vm = Ok (after awaiting)
  /\ exists s', resolve_all 5 [4; 2; 0] (fun c => VInt (Z.of_nat (10 + c))) (after awaiting)
        = (Ok [None; None; Some (6, TaskAwaiter 0)], s')
     /\ objects (store s') !! 6 = Some (OList [VInt 12; VInt 10; VInt 14; VInt 10]).
Proof.
  assert (run_ops awaiting new_vm = Ok (after awaiting)) as E by (vm_compute; reflexivity).
  split; [exact E|].
  destruct (gather_results_in_order awaiting (after awaiting) 5 (gather_at 5 (after awaiting))
              (awaited_at 5 (after awaiting)) (key_order (pending_children (awaited_at 5 (after awaiting))))
              (fun c => VInt (Z.of_nat (10 + c))) E) as (s' & H1 & H2 & _).
  - vm_compute. reflexivity.
  - vm_compute. reflexivity.
  - apply key_order_NoDup.
  - intros c. apply key_order_elem.
  - exists s'. split; [exact H1|exact H2].
Defined.

(** The nested gather is committed in its place. *)
Lemma commit_walks_in_order_witness :
  run_ops setup new_vm = Ok (after setup) /\ runs 0 (after setup)
  /\ exists n, forall fuel, n <= fuel ->
       commit_gather_tree 5 (TaskAwaiter 0) (after setup)
       = (do c <- open_gather_commit 5 (TaskAwaiter 0) None ;; metered (commit_walk fuel 1 c)) (after setup).
Proof.
  assert (run_ops setup new_vm = Ok (after setup)) as E by (vm_compute; reflexivity).
  assert (runs 0 (after setup)) as Hr by (split; vm_compute; reflexivity).
  split; [exact E|]. split; [exact Hr|].
  apply (commit_walks_in_order setup (after setup) 0 5 (gather_at 5 (after setup)) E Hr);
    vm_compute; reflexivity.
Defined.

(** A coroutine that is awaited both by itself and by a gather. Main awaits
    [gather(c1(), a2, a3)]; the first task, [c1], awaits [a2] and [a3] itself; the second
    then cannot start [a2], so the gather fails, and main catches the exception and
    awaits a call of the host. The third task is taken from the queue, cannot start
    [a3], and has no one to tell: [switch_or_yield] answers that a frame was pushed,
    while no task is loaded and the frame is the parked one. *)
Definition reused : list Op :=
  [OpPending None; OpCoroutine 0 [] None; OpCoroutine 1 [] None; OpCoroutine 2 [] None;
   OpGather [VRef 1; VRef 2; VRef 3]; OpAwait (VRef 4); OpAwait (VRef 2); OpAwait (VRef 3); OpReturn VNone].

Example pushed_frame_is_parked :
  let '(r, s) := (push (VRef 0) ;;; exec_get_awaitable) (after reused) in
  r = Ok FramePushed /\ current_task (scheduler s) = None /\ is_parked (current_frame s) = true
  /\ pending_call_ids (scheduler s) = [0].
Proof. vm_compute. repeat split. Qed.
