(* ===== verification/Opcode.v ===== *)
(** * Opcodes and their operands

    bytecode/op.rs: the instruction set, the byte layout of each operand, the
    effect of every instruction on the depth of the operand stack, and the flags
    operand of the assert instructions. A panic of the source is [None]. *)
From S2P Require Import Prelude.

#[local] Open Scope Z_scope.

(** ** Machine integers of the operands *)

Definition u8_max : Z := 255.
Definition u16_max : Z := 65535.
Definition i32_max : Z := 2147483647.

Definition is_u8 (n : Z) : Prop := 0 <= n <= u8_max.
Definition is_u16 (n : Z) : Prop := 0 <= n <= u16_max.
Definition is_i8 (n : Z) : Prop := -128 <= n <= 127.
Definition is_i16 (n : Z) : Prop := -32768 <= n <= 32767.

(** ** Operand shapes *)

Module OperandShape.
Inductive t : Set :=
| None | U8 | I8 | U16 | Offset | U8U8 | U16U8 | U16U16 | U16U8U8 | CallKw | CallAttrKw | U16U16U8.

#[global] Instance t_eq_dec : EqDecision t.
Proof. solve_decision. Defined.
End OperandShape.

(** ** Operands

    [Operand]; a [RelativeOffset] is its [i16]. *)
Module Operand.
Inductive t : Set :=
| None
| U8 (n : Z)
| I8 (n : Z)
| U16 (w : Z)
| Offset (relative : Z)
| U8U8 (a b : Z)
| U16U8 (w b : Z)
| U16U16 (w1 w2 : Z)
| U16U16U8 (w1 w2 b : Z)
| U16U8U8 (w b1 b2 : Z)
| CallKw (pos_count : Z) (kwname_ids : list Z)
| CallAttrKw (attr_name_id pos_count : Z) (kwname_ids : list Z).

(** [Operand::shape]. *)
Definition shape (operand : t) : OperandShape.t :=
  match operand with
  | None => OperandShape.None
  | U8 _ => OperandShape.U8
  | I8 _ => OperandShape.I8
  | U16 _ => OperandShape.U16
  | Offset _ => OperandShape.Offset
  | U8U8 _ _ => OperandShape.U8U8
  | U16U8 _ _ => OperandShape.U16U8
  | U16U16 _ _ => OperandShape.U16U16
  | U16U16U8 _ _ _ => OperandShape.U16U16U8
  | U16U8U8 _ _ _ => OperandShape.U16U8U8
  | CallKw _ _ => OperandShape.CallKw
  | CallAttrKw _ _ _ => OperandShape.CallAttrKw
  end.

(** The fields of an operand are within their machine types. *)
Definition ranged (operand : t) : Prop :=
  match operand with
  | None => True
  | U8 n => is_u8 n
  | I8 n => is_i8 n
  | U16 w => is_u16 w
  | Offset r => is_i16 r
  | U8U8 a b => is_u8 a /\ is_u8 b
  | U16U8 w b => is_u16 w /\ is_u8 b
  | U16U16 w1 w2 => is_u16 w1 /\ is_u16 w2
  | U16U16U8 w1 w2 b => is_u16 w1 /\ is_u16 w2 /\ is_u8 b
  | U16U8U8 w b1 b2 => is_u16 w /\ is_u8 b1 /\ is_u8 b2
  | CallKw p ids => is_u8 p /\ Forall is_u16 ids
  | CallAttrKw a p ids => is_u16 a /\ is_u8 p /\ Forall is_u16 ids
  end.
End Operand.

(** ** Opcodes *)

Inductive Opcode : Set :=
| Pop | Dup | Rot2 | Rot3 | LoadConst | LoadNone | LoadTrue | LoadFalse | LoadSmallInt
| LoadLocal0 | LoadLocal1 | LoadLocal2 | LoadLocal3 | LoadLocal | LoadLocalW | StoreLocal
| StoreLocalW | LoadGlobal | StoreGlobal | LoadCell | StoreCell | DeleteLocal
| LoadGlobalCallable | BinaryAdd | BinarySub | BinaryMul | BinaryDiv | BinaryFloorDiv
| BinaryMod | BinaryPow | BinaryAnd | BinaryOr | BinaryXor | BinaryLShift | BinaryRShift
| BinaryMatMul | CompareEq | CompareNe | CompareLt | CompareLe | CompareGt | CompareGe
| CompareIs | CompareIsNot | CompareIn | CompareNotIn | UnaryNot | UnaryNeg | UnaryPos
| UnaryInvert | InplaceAdd | InplaceSub | InplaceMul | InplaceDiv | InplaceFloorDiv
| InplaceMod | InplacePow | InplaceAnd | InplaceOr | InplaceXor | InplaceLShift | InplaceRShift
| BuildList | BuildTuple | BuildDict | BuildSet | FormatValue | BuildFString | BuildSlice
| ListExtend | ListToTuple | DictMerge | ListAppend | SetAdd | DictSetItem | BinarySubscr
| StoreSubscr | LoadAttr | LoadAttrImport | StoreAttr | CallFunction | CallBuiltinFunction
| CallBuiltinType | CallFunctionKw | CallAttr | CallAttrKw | CallFunctionExtended
| CallAttrExtended | Jump | JumpIfTrue | JumpIfFalse | JumpIfTrueOrPop | JumpIfFalseOrPop
| GetIter | ForIter | MakeFunction | MakeClosure | Raise | Reraise | ClearException
| CheckExcMatch | ReturnValue | Await | UnpackSequence | UnpackEx | Nop | LoadModule
| LoadSubmodule | Dup2 | DeleteGlobal | DictUpdate | SetExtend | BeforeWith | WithExit
| WithExceptStart | LiftToTop | RaiseUnboundLocal | MethodDictMerge | Assert | AssertFailed
| BuildCell | DeleteCell | LoadName | StoreName | DeleteName | MatchShape | MatchKeys
| MatchClass | MatchAttr | SinkTop | RaiseFrom.

(** [op as u8]. *)
Definition opcode_byte (op : Opcode) : Z :=
  match op with
  | Pop => 0 | Dup => 1 | Rot2 => 2 | Rot3 => 3 | LoadConst => 4 | LoadNone => 5
  | LoadTrue => 6 | LoadFalse => 7 | LoadSmallInt => 8 | LoadLocal0 => 9 | LoadLocal1 => 10
  | LoadLocal2 => 11 | LoadLocal3 => 12 | LoadLocal => 13 | LoadLocalW => 14 | StoreLocal => 15
  | StoreLocalW => 16 | LoadGlobal => 17 | StoreGlobal => 18 | LoadCell => 19 | StoreCell => 20
  | DeleteLocal => 21 | LoadGlobalCallable => 22 | BinaryAdd => 23 | BinarySub => 24
  | BinaryMul => 25 | BinaryDiv => 26 | BinaryFloorDiv => 27 | BinaryMod => 28
  | BinaryPow => 29 | BinaryAnd => 30 | BinaryOr => 31 | BinaryXor => 32 | BinaryLShift => 33
  | BinaryRShift => 34 | BinaryMatMul => 35 | CompareEq => 36 | CompareNe => 37
  | CompareLt => 38 | CompareLe => 39 | CompareGt => 40 | CompareGe => 41 | CompareIs => 42
  | CompareIsNot => 43 | CompareIn => 44 | CompareNotIn => 45 | UnaryNot => 46 | UnaryNeg => 47
  | UnaryPos => 48 | UnaryInvert => 49 | InplaceAdd => 50 | InplaceSub => 51 | InplaceMul => 52
  | InplaceDiv => 53 | InplaceFloorDiv => 54 | InplaceMod => 55 | InplacePow => 56
  | InplaceAnd => 57 | InplaceOr => 58 | InplaceXor => 59 | InplaceLShift => 60
  | InplaceRShift => 61 | BuildList => 62 | BuildTuple => 63 | BuildDict => 64 | BuildSet => 65
  | FormatValue => 66 | BuildFString => 67 | BuildSlice => 68 | ListExtend => 69
  | ListToTuple => 70 | DictMerge => 71 | ListAppend => 72 | SetAdd => 73 | DictSetItem => 74
  | BinarySubscr => 75 | StoreSubscr => 76 | LoadAttr => 77 | LoadAttrImport => 78
  | StoreAttr => 79 | CallFunction => 80 | CallBuiltinFunction => 81 | CallBuiltinType => 82
  | CallFunctionKw => 83 | CallAttr => 84 | CallAttrKw => 85 | CallFunctionExtended => 86
  | CallAttrExtended => 87 | Jump => 88 | JumpIfTrue => 89 | JumpIfFalse => 90
  | JumpIfTrueOrPop => 91 | JumpIfFalseOrPop => 92 | GetIter => 93 | ForIter => 94
  | MakeFunction => 95 | MakeClosure => 96 | Raise => 97 | Reraise => 98 | ClearException => 99
  | CheckExcMatch => 100 | ReturnValue => 101 | Await => 102 | UnpackSequence => 103
  | UnpackEx => 104 | Nop => 105 | LoadModule => 106 | LoadSubmodule => 107 | Dup2 => 108
  | DeleteGlobal => 109 | DictUpdate => 110 | SetExtend => 111 | BeforeWith => 112
  | WithExit => 113 | WithExceptStart => 114 | LiftToTop => 115 | RaiseUnboundLocal => 116
  | MethodDictMerge => 117 | Assert => 118 | AssertFailed => 119 | BuildCell => 120
  | DeleteCell => 121 | LoadName => 122 | StoreName => 123 | DeleteName => 124
  | MatchShape => 125 | MatchKeys => 126 | MatchClass => 127 | MatchAttr => 128
  | SinkTop => 129 | RaiseFrom => 130
  end.

(** [Opcode::iter()]. *)
Definition opcode_iter : list Opcode :=
  [Pop; Dup; Rot2; Rot3; LoadConst; LoadNone; LoadTrue; LoadFalse; LoadSmallInt; LoadLocal0;
   LoadLocal1; LoadLocal2; LoadLocal3; LoadLocal; LoadLocalW; StoreLocal; StoreLocalW;
   LoadGlobal; StoreGlobal; LoadCell; StoreCell; DeleteLocal; LoadGlobalCallable; BinaryAdd;
   BinarySub; BinaryMul; BinaryDiv; BinaryFloorDiv; BinaryMod; BinaryPow; BinaryAnd; BinaryOr;
   BinaryXor; BinaryLShift; BinaryRShift; BinaryMatMul; CompareEq; CompareNe; CompareLt;
   CompareLe; CompareGt; CompareGe; CompareIs; CompareIsNot; CompareIn; CompareNotIn; UnaryNot;
   UnaryNeg; UnaryPos; UnaryInvert; InplaceAdd; InplaceSub; InplaceMul; InplaceDiv;
   InplaceFloorDiv; InplaceMod; InplacePow; InplaceAnd; InplaceOr; InplaceXor; InplaceLShift;
   InplaceRShift; BuildList; BuildTuple; BuildDict; BuildSet; FormatValue; BuildFString;
   BuildSlice; ListExtend; ListToTuple; DictMerge; ListAppend; SetAdd; DictSetItem;
   BinarySubscr; StoreSubscr; LoadAttr; LoadAttrImport; StoreAttr; CallFunction;
   CallBuiltinFunction; CallBuiltinType; CallFunctionKw; CallAttr; CallAttrKw;
   CallFunctionExtended; CallAttrExtended; Jump; JumpIfTrue; JumpIfFalse; JumpIfTrueOrPop;
   JumpIfFalseOrPop; GetIter; ForIter; MakeFunction; MakeClosure; Raise; Reraise;
   ClearException; CheckExcMatch; ReturnValue; Await; UnpackSequence; UnpackEx; Nop;
   LoadModule; LoadSubmodule; Dup2; DeleteGlobal; DictUpdate; SetExtend; BeforeWith; WithExit;
   WithExceptStart; LiftToTop; RaiseUnboundLocal; MethodDictMerge; Assert; AssertFailed;
   BuildCell; DeleteCell; LoadName; StoreName; DeleteName; MatchShape; MatchKeys; MatchClass;
   MatchAttr; SinkTop; RaiseFrom].

(** [Opcode::operand_shape]. *)
Definition operand_shape (op : Opcode) : OperandShape.t :=
  match op with
  | Pop | Dup | Dup2 | Rot2 | Rot3 | LoadNone | LoadTrue | LoadFalse | LoadLocal0 | LoadLocal1
  | LoadLocal2 | LoadLocal3 | BinaryAdd | BinarySub | BinaryMul | BinaryDiv | BinaryFloorDiv
  | BinaryMod | BinaryPow | BinaryAnd | BinaryOr | BinaryXor | BinaryLShift | BinaryRShift
  | BinaryMatMul | CompareEq | CompareNe | CompareLt | CompareLe | CompareGt | CompareGe
  | CompareIs | CompareIsNot | CompareIn | CompareNotIn | UnaryNot | UnaryNeg | UnaryPos
  | UnaryInvert | InplaceAdd | InplaceSub | InplaceMul | InplaceDiv | InplaceFloorDiv
  | InplaceMod | InplacePow | InplaceAnd | InplaceOr | InplaceXor | InplaceLShift
  | InplaceRShift | BuildSlice | ListExtend | ListToTuple | BinarySubscr | StoreSubscr
  | GetIter | Raise | RaiseFrom | Reraise | ClearException | CheckExcMatch | ReturnValue
  | Await | Nop | BeforeWith | WithExit | WithExceptStart | BuildCell => OperandShape.None
  | LoadLocal | StoreLocal | DeleteLocal | FormatValue | ListAppend | SetAdd | DictSetItem
  | CallFunction | CallFunctionExtended | UnpackSequence | DictUpdate | SetExtend | LiftToTop
  | Assert | AssertFailed | MatchKeys | MatchClass | MatchAttr | SinkTop => OperandShape.U8
  | LoadSmallInt => OperandShape.I8
  | LoadModule | LoadConst | LoadLocalW | StoreLocalW | LoadGlobal | StoreGlobal | LoadCell
  | StoreCell | DeleteCell | BuildList | BuildTuple | BuildDict | BuildSet | BuildFString
  | DictMerge | LoadAttr | LoadAttrImport | StoreAttr | DeleteGlobal | RaiseUnboundLocal
  | MethodDictMerge => OperandShape.U16
  | Jump | JumpIfTrue | JumpIfFalse | JumpIfTrueOrPop | JumpIfFalseOrPop | ForIter => OperandShape.Offset
  | CallBuiltinFunction | CallBuiltinType | UnpackEx => OperandShape.U8U8
  | CallAttr | CallAttrExtended | MakeFunction | MatchShape => OperandShape.U16U8
  | LoadGlobalCallable | LoadSubmodule => OperandShape.U16U16
  | MakeClosure => OperandShape.U16U8U8
  | LoadName | StoreName | DeleteName => OperandShape.U16U16U8
  | CallFunctionKw => OperandShape.CallKw
  | CallAttrKw => OperandShape.CallAttrKw
  end.

(** [Opcode::from_repr]. *)
Definition from_repr (byte : Z) : option Opcode :=
  find (fun op => opcode_byte op =? byte) opcode_iter.

(** ** Stack effects *)

Definition FORMAT_VALUE_HAS_SPEC : Z := 4.
Definition ASSERT_CMP_FLAG : Z := 16.
Definition MATCH_KEYS_REST : Z := 1.

(** [flags & mask != 0]. *)
Definition has_flag (flags mask : Z) : bool := negb (Z.land flags mask =? 0).

(** The arms of [Opcode::stack_effect], after its shape assertion. *)
Definition stack_effect_arms (op : Opcode) (operand : Operand.t) : option Z :=
  match op, operand with
  | CallFunction, Operand.U8 arg_count => Some (- arg_count)
  | CallFunctionExtended, Operand.U8 flags => Some (- (1 + Z.land flags 1))
  | FormatValue, Operand.U8 flags => Some (if has_flag flags FORMAT_VALUE_HAS_SPEC then -1 else 0)
  | UnpackSequence, Operand.U8 n => Some (n - 1)
  | Assert, Operand.U8 flags => Some (if has_flag flags ASSERT_CMP_FLAG then -2 else -1)
  | AssertFailed, Operand.U8 flags => Some (if has_flag flags ASSERT_CMP_FLAG then -3 else -2)
  | (BuildList | BuildTuple | BuildSet | BuildFString), Operand.U16 n => Some (1 - n)
  | BuildDict, Operand.U16 n => Some (1 - 2 * n)
  | UnpackEx, Operand.U8U8 before after => Some (before + after)
  | (CallBuiltinFunction | CallBuiltinType), Operand.U8U8 _ arg_count => Some (1 - arg_count)
  | MakeFunction, Operand.U16U8 _ defaults => Some (1 - defaults)
  | MatchShape, Operand.U16U8 _ _ => Some 1
  | CallAttr, Operand.U16U8 _ arg_count => Some (- arg_count)
  | CallAttrExtended, Operand.U16U8 _ flags => Some (- (1 + Z.land flags 1))
  | MakeClosure, Operand.U16U8U8 _ defaults cells => Some (1 - defaults - cells)
  | CallFunctionKw, Operand.CallKw pos_count kwname_ids =>
      if zlen kwname_ids <=? i32_max then Some (- (pos_count + zlen kwname_ids)) else None
  | CallAttrKw, Operand.CallAttrKw _ pos_count kwname_ids =>
      if zlen kwname_ids <=? i32_max then Some (- (pos_count + zlen kwname_ids)) else None
  | Pop, Operand.None => Some (-1)
  | Dup, Operand.None => Some 1
  | Dup2, Operand.None => Some 2
  | (Rot2 | Rot3), Operand.None => Some 0
  | (LoadNone | LoadTrue | LoadFalse | BuildCell), Operand.None => Some 1
  | (LoadLocal0 | LoadLocal1 | LoadLocal2 | LoadLocal3), Operand.None => Some 1
  | (BinaryAdd | BinarySub | BinaryMul | BinaryDiv | BinaryFloorDiv | BinaryMod | BinaryPow
    | BinaryAnd | BinaryOr | BinaryXor | BinaryLShift | BinaryRShift | BinaryMatMul),
    Operand.None => Some (-1)
  | (CompareEq | CompareNe | CompareLt | CompareLe | CompareGt | CompareGe | CompareIs
    | CompareIsNot | CompareIn | CompareNotIn), Operand.None => Some (-1)
  | (UnaryNot | UnaryNeg | UnaryPos | UnaryInvert), Operand.None => Some 0
  | (InplaceAdd | InplaceSub | InplaceMul | InplaceDiv | InplaceFloorDiv | InplaceMod | InplacePow
    | InplaceAnd | InplaceOr | InplaceXor | InplaceLShift | InplaceRShift),
    Operand.None => Some (-1)
  | BuildSlice, Operand.None => Some (-2)
  | ListExtend, Operand.None => Some (-1)
  | ListToTuple, Operand.None => Some 0
  | BinarySubscr, Operand.None => Some (-1)
  | StoreSubscr, Operand.None => Some (-3)
  | (GetIter | Await), Operand.None => Some 0
  | Raise, Operand.None => Some (-1)
  | RaiseFrom, Operand.None => Some (-2)
  | (Reraise | ClearException | CheckExcMatch), Operand.None => Some 0
  | ReturnValue, Operand.None => Some (-1)
  | Nop, Operand.None => Some 0
  | LoadSmallInt, Operand.I8 _ => Some 1
  | LoadLocal, Operand.U8 _ => Some 1
  | StoreLocal, Operand.U8 _ => Some (-1)
  | DeleteLocal, Operand.U8 _ => Some 0
  | (ListAppend | SetAdd), Operand.U8 _ => Some (-1)
  | DictSetItem, Operand.U8 _ => Some (-2)
  | (DictUpdate | SetExtend), Operand.U8 _ => Some (-1)
  | (LiftToTop | SinkTop), Operand.U8 _ => Some 0
  | MatchKeys, Operand.U8 mode => Some (if mode =? MATCH_KEYS_REST then -1 else 2)
  | MatchClass, Operand.U8 _ => Some 1
  | MatchAttr, Operand.U8 _ => Some 2
  | BeforeWith, Operand.None => Some 1
  | WithExit, Operand.None => Some 0
  | WithExceptStart, Operand.None => Some 1
  | (LoadConst | LoadModule), Operand.U16 _ => Some 1
  | (LoadLocalW | LoadGlobal | LoadCell), Operand.U16 _ => Some 1
  | (StoreLocalW | StoreGlobal | StoreCell), Operand.U16 _ => Some (-1)
  | (DeleteGlobal | DeleteCell), Operand.U16 _ => Some 0
  | (LoadAttr | LoadAttrImport), Operand.U16 _ => Some 0
  | StoreAttr, Operand.U16 _ => Some (-2)
  | (DictMerge | MethodDictMerge), Operand.U16 _ => Some (-1)
  | RaiseUnboundLocal, Operand.U16 _ => Some 0
  | LoadGlobalCallable, Operand.U16U16 _ _ => Some 1
  | LoadSubmodule, Operand.U16U16 _ _ => Some 0
  | LoadName, Operand.U16U16U8 _ _ _ => Some 1
  | StoreName, Operand.U16U16U8 _ _ _ => Some (-1)
  | DeleteName, Operand.U16U16U8 _ _ _ => Some 0
  | Jump, Operand.Offset _ => Some 0
  | (JumpIfTrue | JumpIfFalse | JumpIfTrueOrPop | JumpIfFalseOrPop), Operand.Offset _ => Some (-1)
  | ForIter, Operand.Offset _ => Some 1
  | _, _ => None
  end.

(** [Opcode::stack_effect]. *)
Definition stack_effect (op : Opcode) (operand : Operand.t) : option Z :=
  if decide (operand_shape op = Operand.shape operand) then stack_effect_arms op operand else None.

(** [Opcode::jump_taken_stack_effect]. *)
Definition jump_taken_stack_effect (op : Opcode) : option Z :=
  match op with
  | Jump => Some 0
  | JumpIfTrue | JumpIfFalse => Some (-1)
  | JumpIfTrueOrPop | JumpIfFalseOrPop => Some 0
  | ForIter => Some (-1)
  | _ => None
  end.

(** ** The flags of the assert instructions *)

(** [CmpOperator] of expressions.rs. *)
Module CmpOperator.
Inductive t : Set := Eq | NotEq | Lt | LtE | Gt | GtE | Is | IsNot | In | NotIn.

(** [CmpOperator::as_operand]. *)
Definition as_operand (op : t) : Z :=
  match op with
  | Eq => 0 | NotEq => 1 | Lt => 2 | LtE => 3 | Gt => 4 | GtE => 5 | Is => 6 | IsNot => 7 | In => 8
  | NotIn => 9
  end.

Definition iter : list t := [Eq; NotEq; Lt; LtE; Gt; GtE; Is; IsNot; In; NotIn].

(** [CmpOperator::from_repr]. *)
Definition from_repr (n : Z) : option t := find (fun op => as_operand op =? n) iter.
End CmpOperator.

(** [assert_flags]. *)
Definition assert_flags (cmp_op : option CmpOperator.t) : Z :=
  match cmp_op with
  | Some op => Z.lor ASSERT_CMP_FLAG (CmpOperator.as_operand op)
  | None => 0
  end.

(** [decode_assert_flags]; [!ASSERT_CMP_FLAG] is the complement in eight bits. *)
Definition decode_assert_flags (flags : Z) : option (option CmpOperator.t) :=
  if flags =? 0 then Some None
  else if has_flag flags ASSERT_CMP_FLAG
       then Some <$> CmpOperator.from_repr (Z.land flags (Z.lxor ASSERT_CMP_FLAG 255))
       else None.

(** ** Facts *)

Lemma opcode_byte_range op : is_u8 (opcode_byte op).
Proof. unfold is_u8, u8_max. by destruct op. Qed.

Lemma from_repr_byte op : from_repr (opcode_byte op) = Some op.
Proof. by destruct op. Qed.

#[export] Instance opcode_byte_inj : Inj (=) (=) opcode_byte.
Proof. intros x y E. apply (inj Some). by rewrite <- !from_repr_byte, E. Qed.

#[export] Instance Opcode_eq_dec : EqDecision Opcode.
Proof.
  refine (fun x y => cast_if (decide (opcode_byte x = opcode_byte y)));
    [by apply opcode_byte_inj | congruence].
Defined.

Lemma from_repr_Some byte op : from_repr byte = Some op -> opcode_byte op = byte.
Proof. intros H. apply List.find_some in H as [_ H]. by apply Z.eqb_eq. Qed.

(** Every opcode has an arm for the operand of its shape: only a keyword list no
    code can carry panics. *)
Lemma stack_effect_total op operand :
  operand_shape op = Operand.shape operand ->
  match operand with
  | Operand.CallKw _ ids | Operand.CallAttrKw _ _ ids => zlen ids <= i32_max
  | _ => True
  end -> exists n, stack_effect op operand = Some n.
Proof.
  intros Hs Hk. unfold stack_effect. rewrite decide_True by done.
  destruct operand; destruct op; try discriminate Hs; cbn;
    rewrite ?(proj2 (Z.leb_le _ _) Hk); eauto.
Qed.

Lemma stack_effect_shape op operand n :
  stack_effect op operand = Some n -> operand_shape op = Operand.shape operand.
Proof. unfold stack_effect. by destruct (decide _). Qed.

(** The jumps are the opcodes that carry an offset. *)
Lemma jump_taken_iff op :
  (exists n, jump_taken_stack_effect op = Some n) <-> operand_shape op = OperandShape.Offset.
Proof.
  split; [intros [n H]; by destruct op|]. destruct op; try discriminate; eexists; reflexivity.
Qed.

Lemma assert_flags_roundtrip cmp_op : decode_assert_flags (assert_flags cmp_op) = Some cmp_op.
Proof. by destruct cmp_op as [[]|]. Qed.

(** Only the bytes [assert_flags] produces decode. *)
Lemma decode_assert_flags_Some flags cmp_op :
  is_u8 flags -> decode_assert_flags flags = Some cmp_op -> flags = assert_flags cmp_op.
Proof.
  intros Hf.
  assert (forall n : nat, (n < 256)%nat -> forall c, decode_assert_flags (Z.of_nat n) = Some c ->
    Z.of_nat n = assert_flags c) as Hall.
  { do 256 (intros [|n]; [intros _ c H; vm_compute in H; first [discriminate H | by injection H as <-]
      |revert n]). lia. }
  unfold is_u8, u8_max in Hf. intros H. rewrite <- (Z2Nat.id flags) in H |- * by lia.
  apply Hall; [lia|done].
Qed.
