(* ===== verification/Code.v ===== *)
(** * Code objects

    bytecode/code.rs: the compiled body of a function or module, the table that
    maps bytecode offsets to source locations, and the table of exception
    handlers. [CodeRange] is from parse.rs and [StringId], a [u32], from
    intern.rs; the constants are values of the interpreter. *)
From S2P Require Import Prelude.

#[local] Open Scope Z_scope.

Definition u32_max : Z := 4294967295.

(** [u32::try_from]. *)
Definition u32_try (n : Z) : option Z := if n <=? u32_max then Some n else None.

Definition StringId : Type := Z.

Record CodeRange : Type := mkCodeRange { filename : StringId; start_byte : Z; end_byte : Z }.

(** [CodeRange::default()]. *)
Definition CodeRange_default : CodeRange := mkCodeRange 0 0 0.

Record LocationEntry : Type := mkLocationEntry
  { bytecode_offset : Z; range : CodeRange; focus : option CodeRange }.

Inductive HandlerKind : Type := Consuming | Cleanup.

Record ExceptionEntry : Type := mkExceptionEntry
  { start : Z; end_ : Z; handler : Z; entry_stack_depth : Z; exception_stack_count : Z;
    kind : HandlerKind }.

(** [ExceptionEntry::pushes_exception]. *)
Definition pushes_exception (e : ExceptionEntry) : bool :=
  match kind e with Consuming => true | Cleanup => false end.

(** [ExceptionEntry::contains]. *)
Definition contains (e : ExceptionEntry) (offset : Z) : bool :=
  (start e <=? offset) && (offset <? end_ e).

Record Code (Value : Type) : Type := mkCode
  { code_bytecode : list Z; code_constants : list Value; code_location_table : list LocationEntry;
    code_exception_table : list ExceptionEntry; code_local_names : list StringId;
    future_annotations : bool }.
Arguments mkCode {Value}.
Arguments code_bytecode {Value}.
Arguments code_constants {Value}.
Arguments code_location_table {Value}.
Arguments code_exception_table {Value}.
Arguments code_local_names {Value}.
Arguments future_annotations {Value}.

(** ** [slice::partition_point]

    The binary search of the standard library: [base] stays below the answer while
    [size] halves. *)
Fixpoint partition_loop {A} (pred : A -> bool) (l : list A) (fuel : nat) (base size : nat) : nat :=
  match fuel with
  | O => base
  | S fuel =>
      if decide (size <= 1)%nat then base
      else let half := (size / 2)%nat in
           let mid := (base + half)%nat in
           let base := match l !! mid with
                       | Some x => if pred x then mid else base
                       | None => base
                       end in
           partition_loop pred l fuel base (size - half)
  end.

Definition partition_point {A} (pred : A -> bool) (l : list A) : nat :=
  match l with
  | [] => 0%nat
  | _ => let base := partition_loop pred l (length l) 0 (length l) in
         match l !! base with
         | Some x => if pred x then S base else base
         | None => base
         end
  end.

Section Lookups.
Context {Value : Type}.

(** [Code::new]. *)
Definition Code_new (bytecode : list Z) (constants : list Value)
    (location_table : list LocationEntry) (exception_table : list ExceptionEntry)
    (local_names : list StringId) : Code Value :=
  mkCode bytecode constants location_table exception_table local_names false.

(** [Code::with_future_annotations]. *)
Definition with_future_annotations (flag : bool) (c : Code Value) : Code Value :=
  mkCode (code_bytecode c) (code_constants c) (code_location_table c) (code_exception_table c)
    (code_local_names c) flag.

(** [Code::constant]; [None] is the panic of the index. *)
Definition constant (c : Code Value) (index : Z) : option Value :=
  code_constants c !! Z.to_nat index.

(** [Code::local_name]. *)
Definition local_name (c : Code Value) (slot : Z) : option StringId :=
  code_local_names c !! Z.to_nat slot.

(** [Code::location_for_offset]. *)
Definition location_for_offset (c : Code Value) (offset : Z) : option LocationEntry :=
  match u32_try offset with
  | None => None
  | Some offset_u32 =>
      let after := partition_point (fun e => bytecode_offset e <=? offset_u32)
                     (code_location_table c) in
      match after with
      | O => None
      | S index => code_location_table c !! index
      end
  end.

(** [Code::for_each_position_mut], for a closure that maps a position. *)
Definition for_each_position_mut (f : CodeRange -> CodeRange) (c : Code Value) : Code Value :=
  mkCode (code_bytecode c) (code_constants c)
    ((fun e => mkLocationEntry (bytecode_offset e) (f (range e)) (f <$> focus e))
       <$> code_location_table c)
    (code_exception_table c) (code_local_names c) (future_annotations c).

(** [Code::find_exception_handler]. *)
Definition find_exception_handler (c : Code Value) (offset : Z) : option ExceptionEntry :=
  find (fun e => contains e offset) (code_exception_table c).
End Lookups.

(** ** The search finds the last location at or before an offset *)

(** [pred] holds on a prefix of [l] and fails on the rest. *)
Definition partitioned {A} (pred : A -> bool) (l : list A) (n : nat) : Prop :=
  (n <= length l)%nat /\
  (forall i x, l !! i = Some x -> pred x = bool_decide (i < n)%nat).

Lemma partition_loop_spec {A} (pred : A -> bool) (l : list A) n fuel : forall base size,
  partitioned pred l n -> (size <= fuel)%nat -> (1 <= size)%nat -> (base + size <= length l)%nat ->
  (base = 0 \/ base < n)%nat -> (n <= base + size)%nat ->
  let r := partition_loop pred l fuel base size in
  ((r = 0 \/ r < n) /\ n <= S r /\ r < length l)%nat.
Proof.
  induction fuel as [|fuel IH]; intros base size Hp Hf Hs Hl Hb Hn; cbn [partition_loop]; [lia|].
  destruct (decide (size <= 1)%nat); [lia|].
  pose proof (Nat.div_lt size 2). pose proof (Nat.div_le_lower_bound size 2 1).
  assert (2 * (size / 2) <= size)%nat by apply Nat.Div0.mul_div_le.
  destruct (l !! (base + size / 2)%nat) as [x|] eqn:E.
  - destruct Hp as [Hp1 Hp2]. pose proof (Hp2 _ _ E) as Hx. rewrite Hx.
    case_bool_decide; apply IH; try done; lia.
  - apply lookup_ge_None in E. lia.
Qed.

Lemma partition_point_spec {A} (pred : A -> bool) (l : list A) n :
  partitioned pred l n -> partition_point pred l = n.
Proof.
  intros Hp. pose proof Hp as [Hp1 Hp2]. unfold partition_point.
  destruct l as [|y l]; [cbn in Hp1; lia|].
  set (L := y :: l) in *.
  assert (1 <= length L)%nat by (cbn; lia).
  destruct (partition_loop_spec pred L n (length L) 0 (length L)) as (Hr & Hn & Hl);
    try done; try lia.
  destruct (lookup_lt_is_Some_2 L _ Hl) as [x Hx]. rewrite Hx, (Hp2 _ _ Hx).
  case_bool_decide; lia.
Qed.

(** The offsets of a location table never decrease. *)
Definition table_sorted (t : list LocationEntry) : Prop :=
  forall i j x y, t !! i = Some x -> t !! j = Some y -> (i <= j)%nat ->
    bytecode_offset x <= bytecode_offset y.

(** Entries below [offset] up to [n], and the next one past it. *)
Lemma table_partitioned t offset n :
  table_sorted t -> (n <= length t)%nat ->
  (forall x, t !! pred n = Some x -> (0 < n)%nat -> bytecode_offset x <= offset) ->
  (forall x, t !! n = Some x -> offset < bytecode_offset x) ->
  partitioned (fun e => bytecode_offset e <=? offset) t n.
Proof.
  intros Hs Hn Hb Ha. split; [done|]. intros i x Hx. case_bool_decide as Hi.
  - destruct (lookup_lt_is_Some_2 t (pred n) ltac:(lia)) as [z Hz].
    specialize (Hb _ Hz ltac:(lia)). specialize (Hs i _ _ _ Hx Hz ltac:(lia)).
    apply Z.leb_le. lia.
  - assert (n < length t)%nat by (apply lookup_lt_Some in Hx; lia).
    destruct (lookup_lt_is_Some_2 t n ltac:(lia)) as [z Hz].
    specialize (Ha _ Hz). specialize (Hs n _ _ _ Hz Hx ltac:(lia)). apply Z.leb_gt. lia.
Qed.

(** An entry whose successor is past [offset] is the one the search returns. *)
Lemma location_found {Value} (c : Code Value) offset i e :
  table_sorted (code_location_table c) -> offset <= u32_max ->
  code_location_table c !! i = Some e -> bytecode_offset e <= offset ->
  (forall x, code_location_table c !! S i = Some x -> offset < bytecode_offset x) ->
  location_for_offset c offset = Some e.
Proof.
  intros Hs Hu Hi Hb Ha. unfold location_for_offset, u32_try.
  rewrite (proj2 (Z.leb_le _ _) Hu).
  rewrite (partition_point_spec _ _ (S i)); [exact Hi|]. apply table_partitioned; try done.
  - apply lookup_lt_Some in Hi. lia.
  - cbn. intros x Hx _. congruence.
Qed.
