(* ===== verification/Builder.v ===== *)
(** * The bytecode builder

    bytecode/builder.rs. A method that takes [&mut self] is a computation in [M]
    over [CodeBuilder]; what it fails with is a [Halt], an error of the compiler or
    a panic. A [debug_assert!] panics when [debug] is set, as the build profile
    chooses. An [Offset] is its [usize], a [RelativeOffset] its [i16], a byte of
    the bytecode a [Z] below 256. *)
From S2P Require Import Prelude Opcode Code.

#[local] Open Scope Z_scope.
#[local] Open Scope monty_scope.

(** ** Labels and targets *)

Record JumpLabelInner : Type := mkLabel
  { label_offset : Z; label_depth : Z; source_position : CodeRange }.

(** [JumpLabel] and [JumpTarget] hold [None] when they were made in dead code. *)
Definition JumpLabel : Type := option JumpLabelInner.

Record JumpTargetInner : Type := mkTarget { target_offset : Z; target_depth : Z }.

Definition JumpTarget : Type := option JumpTargetInner.

(** ** Errors *)

(** The messages of the [CompileError]s the builder makes. *)
Inductive Limit : Type :=
| JumpTooLarge | NameIdTooLarge | KwCountTooLarge | ConstantPoolFull | StackTooLarge
| BytecodeTooLarge.

Inductive Halt : Type :=
| CompileError (message : Limit) (position : CodeRange)
| Panic.

(** ** The builder *)

Record CodeBuilder (Value : Type) : Type := mkBuilder
  { bytecode : list Z; constants : list Value; location_table : list LocationEntry;
    exception_table : list ExceptionEntry; current_location : option CodeRange;
    current_focus : option CodeRange; current_stack_depth : option Z;
    local_names : list (option StringId) }.
Arguments mkBuilder {Value}.
Arguments bytecode {Value}.
Arguments constants {Value}.
Arguments location_table {Value}.
Arguments exception_table {Value}.
Arguments current_location {Value}.
Arguments current_focus {Value}.
Arguments current_stack_depth {Value}.
Arguments local_names {Value}.

(** [w.to_le_bytes()] of a [u16]; that of an [i16] is of its two's complement. *)
Definition le_bytes (w : Z) : list Z := [w mod 256; w / 256].
Definition le_bytes_i16 (r : Z) : list Z := le_bytes (r mod 65536).

(** [u16::try_from] and [u8::try_from]. *)
Definition u16_try (n : Z) : option Z := if (0 <=? n) && (n <=? u16_max) then Some n else None.
Definition u8_try (n : Z) : option Z := if (0 <=? n) && (n <=? u8_max) then Some n else None.

(** [JUMP_BYTECODE_SIZE]. *)
Definition JUMP_BYTECODE_SIZE : Z := 3.

(** The opcodes after which [emit_with_operand] enters dead code. *)
Definition terminates (op : Opcode) : bool :=
  match op with
  | ReturnValue | Raise | Reraise | RaiseUnboundLocal | AssertFailed | Jump => true
  | _ => false
  end.

(** The bytes [emit_with_operand] writes for an operand. *)
Definition operand_bytes (operand : Operand.t) : list Z :=
  match operand with
  | Operand.None => []
  | Operand.U8 b => [b]
  | Operand.I8 b => [b mod 256]
  | Operand.U16 w => le_bytes w
  | Operand.Offset relative => le_bytes_i16 relative
  | Operand.U8U8 a b => [a; b]
  | Operand.U16U8 w b => le_bytes w ++ [b]
  | Operand.U16U16 w1 w2 => le_bytes w1 ++ le_bytes w2
  | Operand.U16U8U8 w b1 b2 => le_bytes w ++ [b1; b2]
  | Operand.U16U16U8 w1 w2 b => le_bytes w1 ++ le_bytes w2 ++ [b]
  | Operand.CallKw pos_count ids => [pos_count; zlen ids] ++ flat_map le_bytes ids
  | Operand.CallAttrKw attr pos_count ids =>
      le_bytes attr ++ [pos_count; zlen ids] ++ flat_map le_bytes ids
  end.

Section Build.
Context {Value : Type} (debug : bool).

Notation B := (M (CodeBuilder Value) Halt).

Definition CodeBuilder_new : CodeBuilder Value := mkBuilder [] [] [] [] None None None [].

(** ** Field updates and panics *)

Definition set_bytecode (v : list Z) (b : CodeBuilder Value) : CodeBuilder Value :=
  mkBuilder v (constants b) (location_table b) (exception_table b) (current_location b)
    (current_focus b) (current_stack_depth b) (local_names b).
Definition set_constants (v : list Value) (b : CodeBuilder Value) : CodeBuilder Value :=
  mkBuilder (bytecode b) v (location_table b) (exception_table b) (current_location b)
    (current_focus b) (current_stack_depth b) (local_names b).
Definition set_location_table (v : list LocationEntry) (b : CodeBuilder Value) : CodeBuilder Value :=
  mkBuilder (bytecode b) (constants b) v (exception_table b) (current_location b)
    (current_focus b) (current_stack_depth b) (local_names b).
Definition set_exception_table (v : list ExceptionEntry) (b : CodeBuilder Value) : CodeBuilder Value :=
  mkBuilder (bytecode b) (constants b) (location_table b) v (current_location b)
    (current_focus b) (current_stack_depth b) (local_names b).
Definition set_depth (v : option Z) (b : CodeBuilder Value) : CodeBuilder Value :=
  mkBuilder (bytecode b) (constants b) (location_table b) (exception_table b) (current_location b)
    (current_focus b) v (local_names b).
Definition set_local_names (v : list (option StringId)) (b : CodeBuilder Value) : CodeBuilder Value :=
  mkBuilder (bytecode b) (constants b) (location_table b) (exception_table b) (current_location b)
    (current_focus b) (current_stack_depth b) v.

Definition bpanic {A} : B A := sfail Panic.

(** [unwrap()] and [expect(..)]. *)
Definition unwrap {A} (o : option A) : B A :=
  match o with Some a => sret a | None => bpanic end.

Definition debug_assert (p : bool) : B unit := if debug && negb p then bpanic else sret tt.

(** [self.bytecode.extend(bs)]. *)
Definition extend (bs : list Z) : B unit := smodify (fun b => set_bytecode (bytecode b ++ bs) b).

(** A [CompileError] at the builder's current location. *)
Definition fail_here {A} (l : Limit) : B A :=
  do b <- sget ;; sfail (CompileError l (default CodeRange_default (current_location b))).

(** [o.ok_or_else(|| self.<limit>())]. *)
Definition or_limit {A} (o : option A) (l : Limit) : B A :=
  match o with Some a => sret a | None => fail_here l end.

(** ** Positions *)

(** [CodeBuilder::set_location]. *)
Definition set_location (r : CodeRange) (f : option CodeRange) : B unit :=
  smodify (fun b => mkBuilder (bytecode b) (constants b) (location_table b) (exception_table b)
    (Some r) f (current_stack_depth b) (local_names b)).

(** [CodeBuilder::current_offset]. *)
Definition current_offset : B Z := do b <- sget ;; sret (zlen (bytecode b)).

(** [CodeBuilder::current_position]. *)
Definition current_position : B CodeRange :=
  do b <- sget ;; sret (default CodeRange_default (current_location b)).

(** [CodeBuilder::stack_depth]. *)
Definition stack_depth : B (option Z) := do b <- sget ;; sret (current_stack_depth b).

(** [CodeBuilder::is_dead]. *)
Definition is_dead : B bool := do d <- stack_depth ;; sret (bool_decide (d = None)).

(** [CodeBuilder::current_jump_target]. *)
Definition current_jump_target : B JumpTarget :=
  do b <- sget ;;
  sret ((fun depth => mkTarget (zlen (bytecode b)) depth) <$> current_stack_depth b).

(** [CodeBuilder::record_location]. *)
Definition record_location : B unit :=
  do b <- sget ;;
  match current_location b with
  | None => sret tt
  | Some r =>
      do offset <- or_limit (u32_try (zlen (bytecode b))) BytecodeTooLarge ;;
      smodify (fun b => set_location_table
        (location_table b ++ [mkLocationEntry offset r (current_focus b)]) b)
  end.

(** [CodeBuilder::new_code_region]. *)
Definition new_code_region (depth : Z) : B unit :=
  do d <- stack_depth ;;
  match d with
  | Some _ => bpanic
  | None => smodify (set_depth (Some depth))
  end.

(** [CodeBuilder::adjust_stack]. *)
Definition adjust_stack (delta : Z) : B unit :=
  do d <- stack_depth ;;
  match d with
  | None => sret tt
  | Some depth =>
      let new_depth := depth + delta in
      debug_assert (0 <=? new_depth) ;;;
      do new_depth <- or_limit (u16_try (Z.max new_depth 0)) StackTooLarge ;;
      smodify (set_depth (Some new_depth))
  end.

(** ** Emission *)

(** The [match operand] of [emit_with_operand]. *)
Definition emit_operand (operand : Operand.t) : B unit :=
  match operand with
  | Operand.CallKw _ ids =>
      or_limit (u8_try (zlen ids)) KwCountTooLarge ;;; extend (operand_bytes operand)
  | Operand.CallAttrKw _ _ ids =>
      or_limit (u8_try (zlen ids)) KwCountTooLarge ;;; extend (operand_bytes operand)
  | _ => extend (operand_bytes operand)
  end.

(** [CodeBuilder::emit_with_operand]. *)
Definition emit_with_operand (op : Opcode) (operand : Operand.t) : B unit :=
  do dead <- is_dead ;;
  if dead then sret tt else
  record_location ;;;
  extend [opcode_byte op] ;;;
  emit_operand operand ;;;
  do delta <- unwrap (stack_effect op operand) ;;
  adjust_stack delta ;;;
  if terminates op then smodify (set_depth None) else sret tt.

(** [CodeBuilder::emit] and the [emit_u8] family. *)
Definition emit (op : Opcode) : B unit := emit_with_operand op Operand.None.
Definition emit_u8 (op : Opcode) (n : Z) : B unit := emit_with_operand op (Operand.U8 n).
Definition emit_i8 (op : Opcode) (n : Z) : B unit := emit_with_operand op (Operand.I8 n).
Definition emit_u8_u8 (op : Opcode) (n1 n2 : Z) : B unit :=
  emit_with_operand op (Operand.U8U8 n1 n2).
Definition emit_u16 (op : Opcode) (n : Z) : B unit := emit_with_operand op (Operand.U16 n).
Definition emit_u16_u16 (op : Opcode) (n1 n2 : Z) : B unit :=
  emit_with_operand op (Operand.U16U16 n1 n2).
Definition emit_u16_u8 (op : Opcode) (n1 n2 : Z) : B unit :=
  emit_with_operand op (Operand.U16U8 n1 n2).
Definition emit_u16_u8_u8 (op : Opcode) (n1 n2 n3 : Z) : B unit :=
  emit_with_operand op (Operand.U16U8U8 n1 n2 n3).
Definition emit_call_builtin_function (builtin_id arg_count : Z) : B unit :=
  emit_with_operand CallBuiltinFunction (Operand.U8U8 builtin_id arg_count).
Definition emit_call_builtin_type (type_id arg_count : Z) : B unit :=
  emit_with_operand CallBuiltinType (Operand.U8U8 type_id arg_count).
Definition emit_call_function_kw (pos_count : Z) (ids : list Z) : B unit :=
  emit_with_operand CallFunctionKw (Operand.CallKw pos_count ids).
Definition emit_call_attr_kw (attr_name_id pos_count : Z) (ids : list Z) : B unit :=
  emit_with_operand CallAttrKw (Operand.CallAttrKw attr_name_id pos_count ids).

(** [CodeBuilder::emit_raise_unbound_local]. *)
Definition emit_raise_unbound_local (name_id : StringId) : B unit :=
  do name_idx <- or_limit (u16_try name_id) NameIdTooLarge ;;
  emit_with_operand RaiseUnboundLocal (Operand.U16 name_idx).

(** [CodeBuilder::emit_load_local]. *)
Definition emit_load_local (slot : Z) : B unit :=
  if slot =? 0 then emit LoadLocal0
  else if slot =? 1 then emit LoadLocal1
  else if slot =? 2 then emit LoadLocal2
  else if slot =? 3 then emit LoadLocal3
  else match u8_try slot with
       | Some s => emit_u8 LoadLocal s
       | None => emit_u16 LoadLocalW slot
       end.

(** [CodeBuilder::emit_load_global_callable]. *)
Definition emit_load_global_callable (slot : Z) (name_id : StringId) : B unit :=
  do name_id_u16 <- or_limit (u16_try name_id) NameIdTooLarge ;;
  emit_with_operand LoadGlobalCallable (Operand.U16U16 slot name_id_u16).

(** [CodeBuilder::emit_name_op]. *)
Definition emit_name_op (op : Opcode) (slot : Z) (name_id : StringId) (flags : Z) : B unit :=
  do name_id_u16 <- or_limit (u16_try name_id) NameIdTooLarge ;;
  emit_with_operand op (Operand.U16U16U8 slot name_id_u16 flags).

(** [CodeBuilder::emit_store_local]. *)
Definition emit_store_local (slot : Z) : B unit :=
  match u8_try slot with
  | Some s => emit_u8 StoreLocal s
  | None => emit_u16 StoreLocalW slot
  end.

(** ** Jumps *)

(** [i64::try_from(n).expect(..)] of a [usize]. *)
Definition as_i64 (n : Z) : B Z := if n <=? i64_max then sret n else bpanic.

(** [calculate_jump_offset]. *)
Definition calculate_jump_offset (from : JumpLabelInner) (to : JumpTargetInner) : B (option Z) :=
  do from_i64 <- as_i64 (label_offset from + JUMP_BYTECODE_SIZE) ;;
  do to_i64 <- as_i64 (target_offset to) ;;
  debug_assert (label_depth from =? target_depth to) ;;;
  let raw_offset := to_i64 - from_i64 in
  sret (if (-32768 <=? raw_offset) && (raw_offset <=? 32767) then Some raw_offset else None).

(** [CodeBuilder::emit_jump]. *)
Definition emit_jump (op : Opcode) : B JumpLabel :=
  do d <- stack_depth ;;
  match d with
  | None => sret None
  | Some pre_depth =>
      do offset <- current_offset ;;
      do position <- current_position ;;
      do effect <- unwrap (jump_taken_stack_effect op) ;;
      do target_depth <- or_limit (u16_try (pre_depth + effect)) StackTooLarge ;;
      emit_with_operand op (Operand.Offset 0) ;;;
      sret (Some (mkLabel offset target_depth position))
  end.

(** [self.bytecode[i] = byte]. *)
Definition store_byte (i byte : Z) : B unit :=
  do b <- sget ;;
  if i <? zlen (bytecode b) then smodify (set_bytecode (<[Z.to_nat i := byte]> (bytecode b)))
  else bpanic.

(** [CodeBuilder::patch_jump]. *)
Definition patch_jump (label : JumpLabel) : B unit :=
  match label with
  | None => sret tt
  | Some label =>
      do d <- stack_depth ;;
      do depth <- match d with
                  | Some depth => sret depth
                  | None => new_code_region (label_depth label) ;;; sret (label_depth label)
                  end ;;
      do here <- current_offset ;;
      do offset <- calculate_jump_offset label (mkTarget here depth) ;;
      match offset with
      | None => sfail (CompileError JumpTooLarge (source_position label))
      | Some offset =>
          let w := offset mod 65536 in
          store_byte (label_offset label + 1) (w mod 256) ;;;
          store_byte (label_offset label + 2) (w / 256)
      end
  end.

(** [CodeBuilder::emit_jump_to]. *)
Definition emit_jump_to (op : Opcode) (target : JumpTarget) : B unit :=
  do d <- stack_depth ;;
  match d with
  | None => sret tt
  | Some depth =>
      do offset <- current_offset ;;
      do effect <- unwrap (jump_taken_stack_effect op) ;;
      do label_depth <- or_limit (u16_try (depth + effect)) StackTooLarge ;;
      do position <- current_position ;;
      do target <- unwrap target ;;
      do relative <- calculate_jump_offset (mkLabel offset label_depth position) target ;;
      do relative <- or_limit relative JumpTooLarge ;;
      emit_with_operand op (Operand.Offset relative)
  end.

(** ** Tables *)

(** [CodeBuilder::register_local_names]. *)
Definition register_local_names (names : list StringId) : B unit :=
  do b <- sget ;;
  debug_assert (bool_decide (local_names b = [])) ;;;
  smodify (fun b => set_local_names (local_names b ++ (Some <$> names)) b).

(** [CodeBuilder::register_local_name]. *)
Definition register_local_name (slot : Z) (name : StringId) : B unit :=
  smodify (fun b =>
    let slot_idx := Z.to_nat slot in
    let names := if decide (length (local_names b) <= slot_idx)%nat
                 then resize (S slot_idx) None (local_names b) else local_names b in
    set_local_names (match names !! slot_idx with
                     | Some None => <[slot_idx := Some name]> names
                     | _ => names
                     end) b).

(** [CodeBuilder::add_const]. *)
Definition add_const (value : Value) : B Z :=
  do b <- sget ;;
  do idx <- or_limit (u16_try (zlen (constants b))) ConstantPoolFull ;;
  smodify (fun b => set_constants (constants b ++ [value]) b) ;;;
  sret idx.

(** [CodeBuilder::add_exception_entry]. *)
Definition add_exception_entry (start end_ handler stack_depth exception_stack_count : Z)
    (kind : HandlerKind) : B unit :=
  do start <- or_limit (u32_try start) BytecodeTooLarge ;;
  do end_ <- or_limit (u32_try end_) BytecodeTooLarge ;;
  do handler <- or_limit (u32_try handler) BytecodeTooLarge ;;
  smodify (fun b => set_exception_table (exception_table b ++
    [mkExceptionEntry start end_ handler stack_depth exception_stack_count kind]) b).

(** [CodeBuilder::build]. *)
Definition build (b : CodeBuilder Value) : Code Value :=
  Code_new (bytecode b) (constants b) (location_table b) (exception_table b)
    (default 0 <$> local_names b).
End Build.
