(* ===== verification/Fetch.v ===== *)
(** * Instruction fetch

    The part of the run loop of bytecode/vm/mod.rs that reads instructions: the
    fetch methods of [CallFrame], the operand each arm of the dispatch reads (the
    keyword names of a call are read by the call itself, in vm/call.rs), relative
    jumps and the entry into an exception handler of the same frame. [Fault] is the
    panic of an instruction pointer outside the bytecode, of a byte that is no
    opcode, or of a jump below zero.  *)
From S2P Require Import Prelude Opcode Code Builder.
#[local] Open Scope Z_scope.
#[local] Open Scope monty_scope.

(** The fields of [CallFrame] the fetches use. *)
Record CallFrame : Type := mkFrame { frame_bytecode : list Z; ip : Z }.

Inductive Fault : Type := OutOfBounds | InvalidOpcode | BadJump.

Notation F := (M CallFrame Fault).

Definition set_ip (n : Z) (f : CallFrame) : CallFrame := mkFrame (frame_bytecode f) n.

(** [CallFrame::fetch_array]. *)
Definition fetch_array (n : nat) : F (list Z) :=
  do f <- sget ;;
  let bytes := take n (drop (Z.to_nat (ip f)) (frame_bytecode f)) in
  if decide (length bytes = n)
  then smodify (set_ip (ip f + Z.of_nat n)) ;;; sret bytes
  else sfail OutOfBounds.

(** [u16::from_le_bytes] and [cast_signed]. *)
Definition from_le (lo hi : Z) : Z := lo + 256 * hi.
Definition cast_i8 (n : Z) : Z := if n <? 128 then n else n - 256.
Definition cast_i16 (n : Z) : Z := if n <? 32768 then n else n - 65536.

(** The fetch methods. *)
Definition fetch_u8 : F Z :=
  do bs <- fetch_array 1 ;; match bs with [a] => sret a | _ => sfail OutOfBounds end.
Definition fetch_i8 : F Z := do n <- fetch_u8 ;; sret (cast_i8 n).
Definition fetch_u16 : F Z :=
  do bs <- fetch_array 2 ;; match bs with [a; b] => sret (from_le a b) | _ => sfail OutOfBounds end.
Definition fetch_i16 : F Z := do n <- fetch_u16 ;; sret (cast_i16 n).
Definition fetch_u8_u8 : F (Z * Z) :=
  do bs <- fetch_array 2 ;; match bs with [a; b] => sret (a, b) | _ => sfail OutOfBounds end.
Definition fetch_u16_u8 : F (Z * Z) :=
  do bs <- fetch_array 3 ;;
  match bs with [a; b; c] => sret (from_le a b, c) | _ => sfail OutOfBounds end.
Definition fetch_u16_u16 : F (Z * Z) :=
  do bs <- fetch_array 4 ;;
  match bs with [a; b; c; d] => sret (from_le a b, from_le c d) | _ => sfail OutOfBounds end.
Definition fetch_u16_u8_u8 : F (Z * Z * Z) :=
  do bs <- fetch_array 4 ;;
  match bs with [a; b; c; d] => sret (from_le a b, c, d) | _ => sfail OutOfBounds end.
Definition fetch_u16_u16_u8 : F (Z * Z * Z) :=
  do bs <- fetch_array 5 ;;
  match bs with
  | [slot_lo; slot_hi; name_lo; name_hi; flags] =>
      sret (from_le slot_lo slot_hi, from_le name_lo name_hi, flags)
  | _ => sfail OutOfBounds
  end.

(** The loops of [exec_call_function_kw] and [exec_call_attr_kw], which fetch one
    name for each of the [kw_count] values they popped. *)
Fixpoint fetch_names (kw_count : nat) : F (list Z) :=
  match kw_count with
  | O => sret []
  | S n => do name_id <- fetch_u16 ;; do rest <- fetch_names n ;; sret (name_id :: rest)
  end.

(** The fetch of the opcode at the head of the loop. *)
Definition fetch_opcode : F Opcode :=
  do f <- sget ;;
  match frame_bytecode f !! Z.to_nat (ip f) with
  | None => sfail OutOfBounds
  | Some byte =>
      smodify (set_ip (ip f + 1)) ;;;
      match from_repr byte with Some op => sret op | None => sfail InvalidOpcode end
  end.

(** The operands each arm of the dispatch fetches. *)
Definition fetch_operand (op : Opcode) : F Operand.t :=
  match op with
  | Pop | Dup | Dup2 | Rot2 | Rot3 | LoadNone | LoadTrue | LoadFalse | BuildCell | LoadLocal0
  | LoadLocal1 | LoadLocal2 | LoadLocal3 | BinaryAdd | BinarySub | BinaryMul | BinaryDiv
  | BinaryFloorDiv | BinaryMod | BinaryPow | BinaryAnd | BinaryOr | BinaryXor | BinaryLShift
  | BinaryRShift | BinaryMatMul | CompareEq | CompareNe | CompareLt | CompareLe | CompareGt
  | CompareGe | CompareIs | CompareIsNot | CompareIn | CompareNotIn | UnaryNot | UnaryNeg
  | UnaryPos | UnaryInvert | InplaceAdd | InplaceSub | InplaceMul | InplaceDiv
  | InplaceFloorDiv | InplaceMod | InplacePow | InplaceAnd | InplaceOr | InplaceXor
  | InplaceLShift | InplaceRShift | BuildSlice | ListExtend | ListToTuple | BinarySubscr
  | StoreSubscr | GetIter | Raise | RaiseFrom | Reraise | ClearException | CheckExcMatch
  | ReturnValue | Await | Nop | BeforeWith | WithExit | WithExceptStart => sret Operand.None
  | LoadConst | LoadLocalW | StoreLocalW | RaiseUnboundLocal | DeleteGlobal | LoadGlobal
  | StoreGlobal | LoadCell | StoreCell | DeleteCell | BuildList | BuildTuple | BuildDict
  | BuildSet | BuildFString | DictMerge | MethodDictMerge | LoadAttr | LoadAttrImport
  | StoreAttr | LoadModule => do w <- fetch_u16 ;; sret (Operand.U16 w)
  | LoadSmallInt => do n <- fetch_i8 ;; sret (Operand.I8 n)
  | LoadLocal | StoreLocal | LiftToTop | SinkTop | DeleteLocal | FormatValue | DictUpdate
  | SetExtend | ListAppend | SetAdd | DictSetItem | CallFunction | CallFunctionExtended | Assert
  | AssertFailed | UnpackSequence | MatchKeys | MatchClass | MatchAttr =>
      do n <- fetch_u8 ;; sret (Operand.U8 n)
  | LoadName | StoreName | DeleteName =>
      do (slot, name_idx, flags) <- fetch_u16_u16_u8 ;;
      sret (Operand.U16U16U8 slot name_idx flags)
  | LoadGlobalCallable | LoadSubmodule =>
      do (w1, w2) <- fetch_u16_u16 ;; sret (Operand.U16U16 w1 w2)
  | Jump | JumpIfTrue | JumpIfFalse | JumpIfTrueOrPop | JumpIfFalseOrPop | ForIter =>
      do offset <- fetch_i16 ;; sret (Operand.Offset offset)
  | CallBuiltinFunction | CallBuiltinType | UnpackEx =>
      do (a, b) <- fetch_u8_u8 ;; sret (Operand.U8U8 a b)
  | CallAttr | CallAttrExtended | MakeFunction | MatchShape =>
      do (w, b) <- fetch_u16_u8 ;; sret (Operand.U16U8 w b)
  | MakeClosure =>
      do (func_idx, defaults_count, cell_count) <- fetch_u16_u8_u8 ;;
      sret (Operand.U16U8U8 func_idx defaults_count cell_count)
  | CallFunctionKw =>
      do (pos_count, kw_count) <- fetch_u8_u8 ;;
      do names <- fetch_names (Z.to_nat kw_count) ;;
      sret (Operand.CallKw pos_count names)
  | CallAttrKw =>
      do (name_idx, pos_count, kw_count) <- fetch_u16_u8_u8 ;;
      do names <- fetch_names (Z.to_nat kw_count) ;;
      sret (Operand.CallAttrKw name_idx pos_count names)
  end.

(** One instruction read at the frame's instruction pointer. *)
Definition fetch : F (Opcode * Operand.t) :=
  do op <- fetch_opcode ;;
  do operand <- fetch_operand op ;;
  sret (op, operand).

(** [jump_relative!]. *)
Definition jump_relative (offset : Z) : F unit :=
  do f <- sget ;;
  if (0 <=? ip f + offset) && (ip f + offset <=? usize_max)
  then smodify (set_ip (ip f + offset)) else sfail BadJump.

(** The instruction at [at_] of [code] with the position after it. *)
Definition decode (code : list Z) (at_ : Z) : result (Opcode * Operand.t * Z) Fault :=
  match fetch (mkFrame code at_) with
  | (Ok i, f) => Ok (i.1, i.2, ip f)
  | (Err e, _) => Err e
  end.

(** Where a jump of offset [offset] read at [next] continues. *)
Definition jump_to (code : list Z) (next offset : Z) : result Z Fault :=
  match jump_relative offset (mkFrame code next) with
  | (Ok _, f) => Ok (ip f)
  | (Err e, _) => Err e
  end.

(** The arms of the dispatch that never continue with the next instruction: they
    return, raise, or jump always. *)
Definition leaves (op : Opcode) : bool :=
  match op with
  | ReturnValue | Raise | RaiseFrom | Reraise | RaiseUnboundLocal | AssertFailed | Jump => true
  | _ => false
  end.

(** ** Control flow

    A state is an instruction pointer with the depth of the frame's operand stack,
    as the builder's table counts it. An instruction falls through, takes its jump,
    or raises into the handler its frame's table gives it
    ([handle_exception_with_value]). *)
Inductive vstep {Value} (c : Code Value) : Z * Z -> Z * Z -> Prop :=
| step_next at_ depth op operand next effect :
    decode (code_bytecode c) at_ = Ok (op, operand, next) ->
    leaves op = false -> stack_effect op operand = Some effect ->
    vstep c (at_, depth) (next, depth + effect)
| step_jump at_ depth op offset next target effect :
    decode (code_bytecode c) at_ = Ok (op, Operand.Offset offset, next) ->
    jump_to (code_bytecode c) next offset = Ok target ->
    jump_taken_stack_effect op = Some effect ->
    vstep c (at_, depth) (target, depth + effect)
| step_raise at_ depth e :
    find_exception_handler c at_ = Some e ->
    vstep c (at_, depth)
      (handler e, entry_stack_depth e + if pushes_exception e then 1 else 0).

(** * What the builder writes is what the machine reads

    A fetch consumes exactly the bytes the builder wrote for an instruction and
    returns that instruction. *)

(** The bytes from the instruction pointer on. *)
Definition rest (f : CallFrame) : list Z := drop (Z.to_nat (ip f)) (frame_bytecode f).

Definition advance (n : Z) (f : CallFrame) : CallFrame := set_ip (ip f + n) f.

(** [m] reads exactly [bs] and returns [a]. *)
Definition consumes {A} (m : F A) (bs : list Z) (a : A) : Prop :=
  forall f post, 0 <= ip f -> rest f = bs ++ post -> m f = (Ok a, advance (zlen bs) f).

Lemma rest_advance f bs post : 0 <= ip f -> rest f = bs ++ post -> rest (advance (zlen bs) f) = post.
Proof.
  intros Hi H. unfold rest, advance, zlen in *. cbn.
  rewrite Z2Nat.inj_add, Nat2Z.id by lia. rewrite <- drop_drop, H. by rewrite drop_app_length.
Qed.

Lemma consumes_ret {A} (a : A) : consumes (sret a) [] a.
Proof. intros f post Hi _. unfold advance, zlen. cbn. rewrite Z.add_0_r. by destruct f. Qed.

Lemma consumes_bind {A B} (m : F A) (k : A -> F B) bs1 bs2 a b :
  consumes m bs1 a -> consumes (k a) bs2 b -> consumes (sbind m k) (bs1 ++ bs2) b.
Proof.
  intros Hm Hk f post Hi H. rewrite <- app_assoc in H.
  pose proof (rest_advance f bs1 (bs2 ++ post) Hi H) as Hr.
  unfold sbind. rewrite (Hm f _ Hi H). rewrite (Hk _ post); [|unfold advance, zlen; cbn; lia|done].
  unfold advance. cbn. rewrite zlen_app. by rewrite Z.add_assoc.
Qed.

Lemma consumes_map {A B} (m : F A) (k : A -> F B) bs a b :
  consumes m bs a -> k a = sret b -> consumes (sbind m k) bs b.
Proof.
  intros Hm Hk. rewrite <- (app_nil_r bs). eapply consumes_bind; [exact Hm|]. rewrite Hk.
  apply consumes_ret.
Qed.

Lemma consumes_array bs : consumes (fetch_array (length bs)) bs bs.
Proof.
  intros f post Hi H. unfold fetch_array, sbind, sget. cbn. fold (rest f).
  rewrite H, take_app_length. rewrite decide_True by done. reflexivity.
Qed.

Lemma le_bytes_range w : is_u16 w -> Forall is_u8 (le_bytes w).
Proof.
  unfold is_u16, u16_max, le_bytes, is_u8, u8_max. intros H.
  pose proof (Z.mod_pos_bound w 256 ltac:(lia)).
  assert (w / 256 < 256) by (apply Z.div_lt_upper_bound; lia).
  assert (0 <= w / 256) by (apply Z.div_pos; lia). repeat constructor; lia.
Qed.

Lemma from_le_bytes w : from_le (w mod 256) (w / 256) = w.
Proof. unfold from_le. rewrite Z.add_comm. symmetry. apply Z.div_mod. lia. Qed.

Lemma cast_i8_byte n : is_i8 n -> cast_i8 (n mod 256) = n.
Proof.
  unfold is_i8, cast_i8. intros H. destruct (Z.ltb_spec (n mod 256) 128);
    destruct (Z.leb_spec 0 n).
  - apply Z.mod_small. lia.
  - rewrite (Z.mod_eq n 256) in * by lia. assert (n / 256 = -1) as E; [|lia].
    symmetry. apply (Z.div_unique n 256 (-1) (n + 256)); lia.
  - rewrite Z.mod_small in * by lia. lia.
  - rewrite (Z.mod_eq n 256) in * by lia. assert (n / 256 = -1) as E; [|lia].
    symmetry. apply (Z.div_unique n 256 (-1) (n + 256)); lia.
Qed.

Lemma cast_i16_word n : is_i16 n -> cast_i16 (n mod 65536) = n.
Proof.
  unfold is_i16, cast_i16. intros H. assert (n / 65536 = if n <? 0 then -1 else 0) as E.
  { symmetry. destruct (Z.ltb_spec n 0);
      [apply (Z.div_unique n 65536 (-1) (n + 65536))|apply (Z.div_unique n 65536 0 n)]; lia. }
  rewrite Z.mod_eq, E by lia.
  destruct (Z.ltb_spec n 0); case_match; rewrite ?Z.ltb_lt, ?Z.ltb_ge in *; lia.
Qed.

Lemma consumes_u8 n : consumes fetch_u8 [n] n.
Proof. eapply consumes_map; [apply (consumes_array [n])|done]. Qed.

Lemma consumes_i8 n : is_i8 n -> consumes fetch_i8 [n mod 256] n.
Proof. intros H. eapply consumes_map; [apply consumes_u8|]. cbn. by rewrite cast_i8_byte. Qed.

Lemma consumes_u16 w : consumes fetch_u16 (le_bytes w) w.
Proof.
  eapply consumes_map; [apply (consumes_array (le_bytes w))|]. cbn. by rewrite from_le_bytes.
Qed.

Lemma consumes_i16 r : is_i16 r -> consumes fetch_i16 (le_bytes_i16 r) r.
Proof. intros H. eapply consumes_map; [apply consumes_u16|]. cbn. by rewrite cast_i16_word. Qed.

Lemma consumes_u8_u8 a b : consumes fetch_u8_u8 [a; b] (a, b).
Proof. eapply consumes_map; [apply (consumes_array [a; b])|done]. Qed.

Lemma consumes_u16_u8 w b : consumes fetch_u16_u8 (le_bytes w ++ [b]) (w, b).
Proof.
  eapply consumes_map; [apply (consumes_array (le_bytes w ++ [b]))|]. cbn.
  by rewrite from_le_bytes.
Qed.

Lemma consumes_u16_u16 w v : consumes fetch_u16_u16 (le_bytes w ++ le_bytes v) (w, v).
Proof.
  eapply consumes_map; [apply (consumes_array (le_bytes w ++ le_bytes v))|]. cbn.
  by rewrite !from_le_bytes.
Qed.

Lemma consumes_u16_u8_u8 w b c : consumes fetch_u16_u8_u8 (le_bytes w ++ [b; c]) (w, b, c).
Proof.
  eapply consumes_map; [apply (consumes_array (le_bytes w ++ [b; c]))|]. cbn.
  by rewrite from_le_bytes.
Qed.

Lemma consumes_u16_u16_u8 w v b :
  consumes fetch_u16_u16_u8 (le_bytes w ++ le_bytes v ++ [b]) (w, v, b).
Proof.
  eapply consumes_map; [apply (consumes_array (le_bytes w ++ le_bytes v ++ [b]))|]. cbn.
  by rewrite !from_le_bytes.
Qed.

Lemma consumes_names ids : consumes (fetch_names (length ids)) (flat_map le_bytes ids) ids.
Proof.
  induction ids as [|i ids IH]; [apply consumes_ret|]. cbn [length fetch_names flat_map].
  eapply consumes_bind; [apply consumes_u16|]. eapply consumes_map; [apply IH|done].
Qed.

Create HintDb fetching.
#[export] Hint Resolve consumes_ret consumes_u8 consumes_i8 consumes_u16 consumes_i16
  consumes_u8_u8 consumes_u16_u8 consumes_u16_u16 consumes_u16_u8_u8 consumes_u16_u16_u8
  consumes_names : fetching.

(** An instruction the builder can write: the operand fits its opcode and its
    machine types, and a keyword list its count byte. *)
Definition encodable (op : Opcode) (operand : Operand.t) : Prop :=
  operand_shape op = Operand.shape operand /\ Operand.ranged operand /\
  match operand with
  | Operand.CallKw _ ids | Operand.CallAttrKw _ _ ids => zlen ids <= u8_max
  | _ => True
  end.

Definition encode (op : Opcode) (operand : Operand.t) : list Z :=
  opcode_byte op :: operand_bytes operand.

Lemma consumes_operand op operand :
  encodable op operand -> consumes (fetch_operand op) (operand_bytes operand) operand.
Proof.
  intros (Hs & Hr & Hk). destruct operand; destruct op; try discriminate Hs; cbn [fetch_operand operand_bytes];
    try solve [eauto with fetching | eapply consumes_map; [eauto with fetching|reflexivity]].
  - eapply consumes_bind; [apply consumes_u8_u8|]. cbn. unfold zlen. rewrite Nat2Z.id.
    eapply consumes_map; [apply consumes_names|done].
  - rewrite app_assoc. eapply consumes_bind; [apply consumes_u16_u8_u8|]. cbn. unfold zlen.
    rewrite Nat2Z.id. eapply consumes_map; [apply consumes_names|done].
Qed.

Lemma consumes_opcode op : consumes fetch_opcode [opcode_byte op] op.
Proof.
  intros f post Hi H. unfold fetch_opcode, sbind, sget.
  assert (frame_bytecode f !! Z.to_nat (ip f) = Some (opcode_byte op)) as ->.
  { rewrite <- (Nat.add_0_r (Z.to_nat (ip f))), <- lookup_drop. fold (rest f). by rewrite H. }
  cbn -[from_repr opcode_byte]. by rewrite from_repr_byte.
Qed.

Lemma consumes_fetch op operand :
  encodable op operand -> consumes fetch (encode op operand) (op, operand).
Proof.
  intros H. unfold fetch. change (encode op operand) with ([opcode_byte op] ++ operand_bytes operand).
  eapply consumes_bind; [apply consumes_opcode|].
  eapply consumes_map; [by apply consumes_operand|done].
Qed.

Lemma decode_encode pre op operand post :
  encodable op operand ->
  decode (pre ++ encode op operand ++ post) (zlen pre)
  = Ok (op, operand, zlen pre + zlen (encode op operand)).
Proof.
  intros H. unfold decode. rewrite (consumes_fetch op operand H _ post); [done|apply zlen_nonneg|].
  unfold rest, zlen. cbn. by rewrite Nat2Z.id, drop_app_length.
Qed.

(** A jump is three bytes long. *)
Lemma encode_jump_length op r : zlen (encode op (Operand.Offset r)) = JUMP_BYTECODE_SIZE.
Proof. reflexivity. Qed.
