(* ===== verification/BuilderTyping.v ===== *)
(** * The typing of bytecode under construction

    The bytecode of a builder is the encoding of a list of instructions, each with
    the stack depth it was emitted at. [typed] says that every instruction hands the
    depth it leaves to the next one, that a resolved jump arrives with the depth of
    its target, and that every label, target and region of the builder's client
    names an instruction of the list. *)
From S2P Require Import Prelude Opcode Code Builder Fetch.

#[local] Open Scope Z_scope.

(** An emitted instruction, with the depth before it and the location it was
    emitted under. *)
Record ginstr : Type := mkG
  { g_op : Opcode; g_operand : Operand.t; g_depth : Z; g_loc : option (CodeRange * option CodeRange) }.

Definition g_bytes (g : ginstr) : list Z := encode (g_op g) (g_operand g).

Definition bytes_of (code : list ginstr) : list Z := flat_map g_bytes code.

(** Where the [j]th instruction starts; the end of the code for [j = length code]. *)
Definition start_of (code : list ginstr) (j : nat) : Z := zlen (bytes_of (take j code)).

(** The depth before the [j]th instruction; that of the builder at the end. *)
Definition depth_at (code : list ginstr) (cur : option Z) (j : nat) : option Z :=
  match code !! j with
  | Some g => Some (g_depth g)
  | None => if decide (j = length code) then cur else None
  end.

(** The location table the code carries, from offset [pos] on. *)
Fixpoint locations (pos : Z) (code : list ginstr) : list LocationEntry :=
  match code with
  | [] => []
  | g :: code =>
      match g_loc g with
      | Some (r, f) => [mkLocationEntry pos r f]
      | None => []
      end ++ locations (pos + zlen (g_bytes g)) code
  end.

(** The instruction at [i] jumps to a position of the depth it arrives with. *)
Definition lands (code : list ginstr) (cur : option Z) (i : nat) (g : ginstr) : Prop :=
  exists r e j d, g_operand g = Operand.Offset r /\ jump_taken_stack_effect (g_op g) = Some e /\
    start_of code j = start_of code i + JUMP_BYTECODE_SIZE + r /\
    start_of code j <= i64_max /\ depth_at code cur j = Some d /\ d = g_depth g + e.

(** What an instruction is and hands on. *)
Definition flows (code : list ginstr) (cur : option Z) (i : nat) (g : ginstr) : Prop :=
  encodable (g_op g) (g_operand g) /\ 0 <= g_depth g <= u16_max /\
  exists e, stack_effect (g_op g) (g_operand g) = Some e /\
    (terminates (g_op g) = false -> depth_at code cur (S i) = Some (g_depth g + e)).

(** A position of the code and its depth. *)
Definition position (code : list ginstr) (cur : option Z) (offset depth : Z) : Prop :=
  exists j, offset = start_of code j /\ depth_at code cur j = Some depth.

(** The jump a label stands for. *)
Definition labelled (code : list ginstr) (l : JumpLabelInner) (i : nat) (g : ginstr) : Prop :=
  code !! i = Some g /\ label_offset l = start_of code i /\
  exists e, jump_taken_stack_effect (g_op g) = Some e /\ label_depth l = g_depth g + e.

Record typed (code : list ginstr) (cur : option Z) (labels : list JumpLabel) (patched : list nat)
    (targets : list JumpTarget) (opened : list (Z * Z)) : Prop := mkTyped
  { ty_cur : forall d, cur = Some d -> 0 <= d <= u16_max;
    ty_flows : forall i g, code !! i = Some g -> flows code cur i g;
    ty_jumps : forall i g, code !! i = Some g -> operand_shape (g_op g) = OperandShape.Offset ->
      lands code cur i g \/
      exists k l, labels !! k = Some (Some l) /\ k ∉ patched /\ label_offset l = start_of code i;
    ty_labels : forall k l, labels !! k = Some (Some l) -> exists i g, labelled code l i g;
    ty_targets : forall k t, targets !! k = Some (Some t) ->
      position code cur (target_offset t) (target_depth t);
    ty_opened : forall o d, (o, d) ∈ opened -> position code cur o d }.

(** ** Positions *)

Lemma bytes_of_cons g code : bytes_of (g :: code) = g_bytes g ++ bytes_of code.
Proof. reflexivity. Qed.

Lemma bytes_of_app a b : bytes_of (a ++ b) = bytes_of a ++ bytes_of b.
Proof. apply flat_map_app. Qed.

Lemma bytes_of_split code i g :
  code !! i = Some g -> bytes_of code = bytes_of (take i code) ++ g_bytes g ++ bytes_of (drop (S i) code).
Proof.
  intros H. rewrite <- (take_drop_middle code i g H) at 1. by rewrite bytes_of_app.
Qed.

Lemma start_of_S code i g :
  code !! i = Some g -> start_of code (S i) = start_of code i + zlen (g_bytes g).
Proof.
  intros H. unfold start_of. rewrite (take_S_r _ _ _ H), bytes_of_app, zlen_app.
  unfold bytes_of at 2. cbn. by rewrite app_nil_r.
Qed.

Lemma start_of_end code : start_of code (length code) = zlen (bytes_of code).
Proof. unfold start_of. by rewrite firstn_all. Qed.

Lemma g_bytes_pos g : 0 < zlen (g_bytes g).
Proof. unfold g_bytes, encode, zlen. cbn. lia. Qed.

Lemma start_of_nonneg code j : 0 <= start_of code j.
Proof. apply zlen_nonneg. Qed.

Lemma start_of_lt code i j : (i < j)%nat -> (j <= length code)%nat -> start_of code i < start_of code j.
Proof.
  induction 1 as [|j Hij IH]; intros Hj.
  - destruct (lookup_lt_is_Some_2 code i ltac:(lia)) as [g Hg].
    rewrite (start_of_S _ _ _ Hg). pose proof (g_bytes_pos g). lia.
  - destruct (lookup_lt_is_Some_2 code j ltac:(lia)) as [g Hg].
    rewrite (start_of_S _ _ _ Hg). pose proof (g_bytes_pos g). specialize (IH ltac:(lia)). lia.
Qed.

Lemma start_of_inj code i j :
  (i <= length code)%nat -> (j <= length code)%nat -> start_of code i = start_of code j -> i = j.
Proof.
  intros Hi Hj E. destruct (Nat.lt_trichotomy i j) as [H|[H|H]]; [|done|];
    apply (start_of_lt code) in H; lia.
Qed.

Lemma start_of_app code more j : (j <= length code)%nat -> start_of (code ++ more) j = start_of code j.
Proof. intros H. unfold start_of. by rewrite take_app_le. Qed.

Lemma depth_at_le code cur j d : depth_at code cur j = Some d -> (j <= length code)%nat.
Proof.
  unfold depth_at. destruct (code !! j) eqn:E; [intros _; apply lookup_lt_Some in E; lia|].
  destruct (decide _); [lia|done].
Qed.

Lemma depth_at_lookup code cur i g : code !! i = Some g -> depth_at code cur i = Some (g_depth g).
Proof. intros H. unfold depth_at. by rewrite H. Qed.

Lemma depth_at_end code cur : depth_at code cur (length code) = cur.
Proof. unfold depth_at. rewrite lookup_ge_None_2 by lia. by rewrite decide_True. Qed.

(** A position has one depth. *)
Lemma position_depth code cur o d1 d2 :
  position code cur o d1 -> position code cur o d2 -> d1 = d2.
Proof.
  intros (i & -> & H1) (j & E & H2). pose proof (depth_at_le _ _ _ _ H1).
  pose proof (depth_at_le _ _ _ _ H2). apply start_of_inj in E as ->; [|done..]. congruence.
Qed.

(** ** How the code may change *)

(** [code'] has the instructions of [code] where they were, with their depths;
    only the operands of those at the offsets [W] may differ. *)
Record evolves (W : list Z) (code : list ginstr) (cur : option Z) (code' : list ginstr) (cur' : option Z) : Prop :=
  mkEvolves
  { ev_start : forall j, (j <= length code)%nat -> start_of code' j = start_of code j;
    ev_depth : forall j d, depth_at code cur j = Some d -> depth_at code' cur' j = Some d;
    ev_instr : forall i g, code !! i = Some g -> exists g', code' !! i = Some g' /\
      g_op g' = g_op g /\ g_depth g' = g_depth g /\ g_loc g' = g_loc g /\
      (start_of code i ∉ W -> g' = g) }.

Lemma evolves_refl W code cur : evolves W code cur code cur.
Proof. split; eauto 10. Qed.

Lemma evolves_length W c1 d1 c2 d2 : evolves W c1 d1 c2 d2 -> (length c1 <= length c2)%nat.
Proof.
  intros [_ _ Hi]. destruct (le_lt_dec (length c1) (length c2)) as [|Hlt]; [done|].
  destruct (lookup_lt_is_Some_2 c1 (length c2) Hlt) as [g Hg].
  destruct (Hi _ _ Hg) as (g' & Hg' & _). apply lookup_lt_Some in Hg'. lia.
Qed.

Lemma evolves_trans W1 W2 c1 d1 c2 d2 c3 d3 :
  evolves W1 c1 d1 c2 d2 -> evolves W2 c2 d2 c3 d3 -> evolves (W1 ++ W2) c1 d1 c3 d3.
Proof.
  intros E1 E2. pose proof (evolves_length _ _ _ _ _ E1) as Hl.
  destruct E1 as [S1 D1 I1], E2 as [S2 D2 I2]. split; [|by auto|].
  - intros j Hj. rewrite S2, S1; [done..|lia].
  - intros i g Hg. destruct (I1 _ _ Hg) as (g1 & H1 & Eo & Ed & El & Er).
    destruct (I2 _ _ H1) as (g2 & H2 & Eo2 & Ed2 & El2 & Er2).
    exists g2. rewrite Eo2, Ed2, El2. repeat split; try done.
    intros [Hn1 Hn2]%not_elem_of_app. rewrite Er2, Er; [done..|].
    rewrite S1; [done|]. apply lookup_lt_Some in Hg. lia.
Qed.

Lemma position_evolves W code cur code' cur' o d :
  evolves W code cur code' cur' -> position code cur o d -> position code' cur' o d.
Proof.
  intros [Hs Hd _] (j & -> & H). exists j. rewrite Hs by (by eapply depth_at_le). auto.
Qed.

Lemma labelled_evolves W code cur code' cur' l i g :
  evolves W code cur code' cur' -> labelled code l i g -> exists g', labelled code' l i g'.
Proof.
  intros [Hs _ Hi] (Hg & Eo & e & He & Hd). destruct (Hi _ _ Hg) as (g' & Hg' & Ep & Ed & _).
  exists g'. repeat split; [done|rewrite Hs; [done|apply lookup_lt_Some in Hg; lia]|].
  exists e. by rewrite Ep, Ed.
Qed.

Lemma lands_evolves W code cur code' cur' i g :
  evolves W code cur code' cur' -> (i < length code)%nat -> lands code cur i g -> lands code' cur' i g.
Proof.
  intros [Hs Hd _] Hi (r & e & j & d & H1 & H2 & H3 & Hx & H4 & H5).
  pose proof (depth_at_le _ _ _ _ H4). exists r, e, j, d. rewrite (Hs i), (Hs j) by lia. split_and!; auto.
Qed.

Lemma flows_evolves W code cur code' cur' i g :
  evolves W code cur code' cur' -> flows code cur i g -> flows code' cur' i g.
Proof.
  intros [_ Hd _] (H1 & H2 & e & He & Hf). split; [done|]. split; [done|]. exists e. eauto.
Qed.

(** ** Appending an instruction *)

Definition next_depth (op : Opcode) (d e : Z) : option Z :=
  if terminates op then None else Some (d + e).

Lemma evolves_append W code g cur' :
  evolves W code (Some (g_depth g)) (code ++ [g]) cur'.
Proof.
  split.
  - intros j Hj. by apply start_of_app.
  - intros j d. unfold depth_at. destruct (code !! j) as [g0|] eqn:E.
    + by rewrite (lookup_app_l_Some _ _ _ _ E).
    + destruct (decide _) as [->|]; [|done]. intros [= <-].
      by rewrite lookup_app_r, Nat.sub_diag by lia.
  - intros i g0 H. exists g0. split_and!; [by apply lookup_app_l_Some|done..].
Qed.

Lemma flows_append code g e :
  encodable (g_op g) (g_operand g) -> 0 <= g_depth g <= u16_max ->
  stack_effect (g_op g) (g_operand g) = Some e ->
  flows (code ++ [g]) (next_depth (g_op g) (g_depth g) e) (length code) g.
Proof.
  intros He Hd Hs. split; [done|]. split; [done|]. exists e. split; [done|]. intros Ht.
  replace (S (length code)) with (length (code ++ [g])) by (rewrite length_app; cbn; lia).
  rewrite depth_at_end. unfold next_depth. by rewrite Ht.
Qed.

(** ** Patching a jump *)

Definition patched_at (code : list ginstr) (i : nat) (g : ginstr) (r : Z) : list ginstr :=
  <[i := mkG (g_op g) (Operand.Offset r) (g_depth g) (g_loc g)]> code.

Lemma bytes_of_insert_length code i g g' j :
  code !! i = Some g -> zlen (g_bytes g') = zlen (g_bytes g) ->
  start_of (<[i := g']> code) j = start_of code j.
Proof.
  intros Hg E. unfold start_of. destruct (decide (j <= i)%nat).
  - by rewrite take_insert_ge by done.
  - rewrite take_insert_lt by lia. assert (take j code !! i = Some g) as Ht.
    { rewrite lookup_take_lt by lia. done. }
    rewrite (bytes_of_split _ _ _ Ht), !zlen_app.
    rewrite (bytes_of_split (<[i:=g']> (take j code)) i g').
    2: { apply list_lookup_insert_eq. by apply lookup_lt_Some in Ht. }
    rewrite !zlen_app, E, take_insert_ge by lia. by rewrite drop_insert_lt by lia.
Qed.

Lemma evolves_patch code cur i g r r0 :
  code !! i = Some g -> g_operand g = Operand.Offset r0 ->
  operand_shape (g_op g) = OperandShape.Offset ->
  evolves [start_of code i] code cur (patched_at code i g r) cur.
Proof.
  intros Hg Er Hs. pose proof (lookup_lt_Some _ _ _ Hg) as Hlt. unfold patched_at. split.
  - intros j Hj. eapply bytes_of_insert_length; [exact Hg|]. unfold g_bytes. by rewrite Er.
  - intros j d. unfold depth_at. rewrite length_insert. destruct (decide (i = j)) as [<-|Hne].
    + rewrite list_lookup_insert_eq by done. by rewrite Hg.
    + by rewrite list_lookup_insert_ne.
  - intros j g0 Hj. destruct (decide (i = j)) as [<-|Hne].
    + assert (g0 = g) as -> by congruence. eexists. rewrite list_lookup_insert_eq by done.
      split_and!; try done. intros Hn. by rewrite list_elem_of_singleton in Hn.
    + exists g0. by rewrite list_lookup_insert_ne.
Qed.

(** The bytes of a patched jump: the two after its opcode are replaced. *)
Lemma bytes_of_patch code i g r r0 :
  code !! i = Some g -> g_operand g = Operand.Offset r0 ->
  bytes_of (patched_at code i g r) =
  <[Z.to_nat (start_of code i + 2) := (r mod 65536) / 256]>
    (<[Z.to_nat (start_of code i + 1) := (r mod 65536) mod 256]> (bytes_of code)).
Proof.
  intros Hg Er. set (p := bytes_of (take i code)). set (q := bytes_of (drop (S i) code)).
  assert (bytes_of code = p ++ g_bytes g ++ q) as -> by (by apply bytes_of_split).
  unfold patched_at. set (g' := mkG (g_op g) (Operand.Offset r) (g_depth g) (g_loc g)).
  assert (bytes_of (<[i := g']> code) = p ++ g_bytes g' ++ q) as ->.
  { rewrite (bytes_of_split (<[i := g']> code) i g').
    - by rewrite take_insert_ge, drop_insert_lt by lia.
    - apply list_lookup_insert_eq. by apply lookup_lt_Some in Hg. }
  unfold start_of, zlen. fold p. unfold g_bytes, encode. rewrite Er. cbn.
  rewrite !Z2Nat.inj_add, !Nat2Z.id by lia.
  change (Z.to_nat 1) with 1%nat. change (Z.to_nat 2) with 2%nat.
  by rewrite !insert_app_r.
Qed.

(** ** The typing is kept *)

Section Kept.
Context (labels : list JumpLabel) (patched : list nat) (targets : list JumpTarget)
  (opened : list (Z * Z)).

(** What evolution keeps of a typing; the new instructions and the jumps are left to
    the caller. *)
Lemma typed_evolves W code cur code' cur' patched' :
  typed code cur labels patched targets opened -> evolves W code cur code' cur' ->
  (forall d, cur' = Some d -> 0 <= d <= u16_max) ->
  (forall i g, code' !! i = Some g -> flows code' cur' i g) ->
  (forall i g, code' !! i = Some g -> operand_shape (g_op g) = OperandShape.Offset ->
     lands code' cur' i g \/
     exists k l, labels !! k = Some (Some l) /\ k ∉ patched' /\ label_offset l = start_of code' i) ->
  typed code' cur' labels patched' targets opened.
Proof.
  intros [_ _ _ Hl Ht Ho] He Hc Hf Hj. split; [done..| | |].
  - intros k l Hk. destruct (Hl _ _ Hk) as (i & g & Hg).
    destruct (labelled_evolves _ _ _ _ _ _ _ _ He Hg) as [g' Hg']. eauto.
  - eauto using position_evolves.
  - eauto using position_evolves.
Qed.

(** Code becomes live at a depth. *)
Lemma typed_open W code d :
  typed code None labels patched targets opened -> 0 <= d <= u16_max ->
  typed code (Some d) labels patched targets opened /\
  evolves W code None code (Some d).
Proof.
  intros T Hd. assert (evolves W code None code (Some d)) as Hev.
  { split; [done| |eauto 10]. intros j d0. unfold depth_at. destruct (code !! j); [done|].
    by destruct (decide _). }
  split; [|done]. eapply typed_evolves; [exact T|exact Hev| | |].
  - by intros d0 [= <-].
  - intros i g Hi. eapply flows_evolves; [exact Hev|]. by apply (ty_flows _ _ _ _ _ _ T).
  - intros i g Hi Hsh. destruct (ty_jumps _ _ _ _ _ _ T _ _ Hi Hsh) as [Hl|Hr]; [left|by right].
    eapply lands_evolves; [exact Hev|by eapply lookup_lt_Some|done].
Qed.

(** A label is patched to the end of the code. *)
Lemma typed_patch code d i g r l k :
  typed code (Some d) labels patched targets opened ->
  labels !! k = Some (Some l) -> labelled code l i g -> label_depth l = d ->
  zlen (bytes_of code) = label_offset l + JUMP_BYTECODE_SIZE + r -> is_i16 r ->
  zlen (bytes_of code) <= i64_max ->
  typed (patched_at code i g r) (Some d) labels (k :: patched) targets opened /\
  evolves [label_offset l] code (Some d) (patched_at code i g r) (Some d).
Proof.
  intros T Hk (Hg & Eo & e & He & Hd) Ed Er Hr Hmax.
  assert (operand_shape (g_op g) = OperandShape.Offset) as Hs by (apply jump_taken_iff; eauto).
  pose proof (ty_flows _ _ _ _ _ _ T _ _ Hg) as ((Hsh & Hra & _) & Hgd & e' & Hst & Hfl).
  rewrite Hs in Hsh. destruct (g_operand g) as [| | | |r0| | | | | | |] eqn:Eg; try discriminate Hsh.
  pose proof (evolves_patch code (Some d) i g r r0 Hg Eg Hs) as Hev.
  rewrite <- Eo in Hev. pose proof (lookup_lt_Some _ _ _ Hg) as Hlt.
  split; [|done]. eapply typed_evolves; [exact T|exact Hev|apply (ty_cur _ _ _ _ _ _ T)| |].
  - intros j g0 Hj. unfold patched_at in Hj. apply list_lookup_insert_Some in Hj as [(-> & <- & _)|[Hne Hj]].
    + eapply flows_evolves; [exact Hev|]. cbn. split_and!; cbn; try done; try lia.
      exists e'. split; [|done]. revert Hst. unfold stack_effect. cbn. rewrite Hs.
      rewrite !decide_True by done. by destruct (g_op g).
    + eapply flows_evolves; [exact Hev|]. by apply (ty_flows _ _ _ _ _ _ T).
  - intros j g0 Hj Hsh0. unfold patched_at in Hj.
    apply list_lookup_insert_Some in Hj as [(-> & <- & _)|[Hne Hj]].
    + left. exists r, e, (length code), d. cbn. split_and!; try done; [| | |lia].
      * rewrite !(ev_start _ _ _ _ _ Hev), start_of_end by lia. lia.
      * by rewrite (ev_start _ _ _ _ _ Hev), start_of_end by lia.
      * apply (ev_depth _ _ _ _ _ Hev). apply depth_at_end.
    + pose proof (lookup_lt_Some _ _ _ Hj).
      destruct (ty_jumps _ _ _ _ _ _ T _ _ Hj Hsh0) as [Hl|(k' & l' & H1 & H2 & H3)].
      * left. by eapply lands_evolves.
      * right. exists k', l'. rewrite (ev_start _ _ _ _ _ Hev) by lia. split_and!; [done| |done].
        intros [->|]%elem_of_cons; [|done]. assert (l' = l) as -> by congruence.
        rewrite Eo in H3. apply start_of_inj in H3; [|lia..]. congruence.
Qed.
End Kept.

(** An instruction is appended at the current depth. If it is a jump it lands
    already, or one of the labels made with it stands for it. *)
Lemma typed_append code g e labels more patched targets opened :
  typed code (Some (g_depth g)) labels patched targets opened ->
  encodable (g_op g) (g_operand g) -> stack_effect (g_op g) (g_operand g) = Some e ->
  0 <= g_depth g + e <= u16_max ->
  let code' := code ++ [g] in
  let cur' := next_depth (g_op g) (g_depth g) e in
  (operand_shape (g_op g) = OperandShape.Offset ->
     lands code' cur' (length code) g \/
     exists k l, (labels ++ more) !! k = Some (Some l) /\ k ∉ patched /\
       label_offset l = start_of code' (length code)) ->
  (forall k l, more !! k = Some (Some l) -> labelled code' l (length code) g) ->
  typed code' cur' (labels ++ more) patched targets opened.
Proof.
  intros T He Hs Hd code' cur' Hj Hm.
  pose proof (evolves_append [] code g cur') as Hev. fold code' in Hev. split.
  - unfold cur', next_depth. intros d. destruct (terminates _); [done|]. by intros [= <-].
  - intros i g0 Hi. apply lookup_app_Some in Hi as [Hi|[Hi1 Hi2]].
    + eapply flows_evolves; [exact Hev|]. by apply (ty_flows _ _ _ _ _ _ T).
    + apply list_lookup_singleton_Some in Hi2 as [Hz <-].
      replace i with (length code) by lia. apply flows_append; try done.
      by apply (ty_cur _ _ _ _ _ _ T).
  - intros i g0 Hi Hsh. apply lookup_app_Some in Hi as [Hi|[Hi1 Hi2]].
    + pose proof (lookup_lt_Some _ _ _ Hi).
      destruct (ty_jumps _ _ _ _ _ _ T _ _ Hi Hsh) as [Hl|(k & l & H1 & H2 & H3)].
      * left. by eapply lands_evolves.
      * right. exists k, l. unfold code'. rewrite start_of_app by lia.
        split_and!; [by apply lookup_app_l_Some|done..].
    + apply list_lookup_singleton_Some in Hi2 as [Hz <-].
      replace i with (length code) by lia. by apply Hj.
  - intros k l Hk. apply lookup_app_Some in Hk as [Hk|[Hk1 Hk2]]; [|by eauto].
    destruct (ty_labels _ _ _ _ _ _ T _ _ Hk) as (i & g0 & Hg).
    destruct (labelled_evolves _ _ _ _ _ _ _ _ Hev Hg) as [g' Hg']. eauto.
  - intros k t Hk. eapply position_evolves; [exact Hev|]. by apply (ty_targets _ _ _ _ _ _ T k).
  - intros o d Hin. eapply position_evolves; [exact Hev|]. by apply (ty_opened _ _ _ _ _ _ T).
Qed.

(** The label [emit_jump] makes with its jump. *)
Lemma typed_label code g e je labels patched targets opened l :
  typed code (Some (g_depth g)) labels patched targets opened ->
  encodable (g_op g) (g_operand g) -> stack_effect (g_op g) (g_operand g) = Some e ->
  0 <= g_depth g + e <= u16_max -> jump_taken_stack_effect (g_op g) = Some je ->
  label_offset l = start_of code (length code) -> label_depth l = g_depth g + je ->
  Forall (fun k => k < length labels)%nat patched ->
  typed (code ++ [g]) (next_depth (g_op g) (g_depth g) e) (labels ++ [Some l]) patched targets opened.
Proof.
  intros T He Hs Hd Hje Ho Hl Hp. apply typed_append; try done.
  - intros _. right. exists (length labels), l. rewrite start_of_app by done. split_and!; [|  |done].
    + by apply list_lookup_middle.
    + rewrite Forall_forall in Hp. intros Hin%Hp. lia.
  - intros k l' Hk. apply list_lookup_singleton_Some in Hk as [_ [= <-]].
    split_and!; [by rewrite lookup_app_r, Nat.sub_diag by lia|by rewrite start_of_app|eauto].
Qed.

(** ** Locations *)

Lemma locations_app pos a b :
  locations pos (a ++ b) = locations pos a ++ locations (pos + zlen (bytes_of a)) b.
Proof.
  revert pos. induction a as [|g a IH]; intros pos; cbn -[zlen bytes_of].
  { by rewrite Z.add_0_r. }
  rewrite IH, app_assoc, bytes_of_cons, zlen_app. do 2 f_equal. lia.
Qed.

Lemma locations_patch code i g r r0 pos :
  code !! i = Some g -> g_operand g = Operand.Offset r0 ->
  locations pos (patched_at code i g r) = locations pos code.
Proof.
  intros Hg Er. unfold patched_at. rewrite <- (take_drop_middle code i g Hg) at 2.
  rewrite (insert_take_drop _ _ _ (lookup_lt_Some _ _ _ Hg)), !locations_app. cbn.
  unfold g_bytes. by rewrite Er.
Qed.

Lemma locations_bounds code : forall pos e,
  e ∈ locations pos code -> pos <= bytecode_offset e < pos + zlen (bytes_of code).
Proof.
  induction code as [|g code IH]; intros pos e; cbn [locations]; [by intros ?%elem_of_nil|].
  rewrite bytes_of_cons, zlen_app. pose proof (g_bytes_pos g). pose proof (zlen_nonneg (bytes_of code)).
  intros [He|He]%elem_of_app.
  - destruct (g_loc g) as [[r f]|]; [|by apply elem_of_nil in He].
    apply list_elem_of_singleton in He as ->. cbn. lia.
  - apply IH in He. lia.
Qed.

Lemma locations_sorted code : forall pos, table_sorted (locations pos code).
Proof.
  induction code as [|g code IH]; intros pos; cbn; [intros i j x y Hi; by rewrite lookup_nil in Hi|].
  destruct (g_loc g) as [[r f]|]; [|by apply IH].
  intros [|i] [|j] x y Hi Hj Hle; cbn in *.
  - by simplify_eq.
  - simplify_eq. apply list_elem_of_lookup_2, locations_bounds in Hj. cbn.
    pose proof (g_bytes_pos g). lia.
  - lia.
  - eapply (IH _ i j); eauto with lia.
Qed.

(** The search at a byte of a located instruction finds its location. *)
Lemma location_of_instr {Value} (c : Code Value) code i g r f o :
  code_location_table c = locations 0 code -> code !! i = Some g -> g_loc g = Some (r, f) ->
  start_of code i <= o < start_of code (S i) -> o <= u32_max ->
  location_for_offset c o = Some (mkLocationEntry (start_of code i) r f).
Proof.
  intros Ht Hg Hl Ho Hu.
  assert (locations 0 code = locations 0 (take i code) ++
    mkLocationEntry (start_of code i) r f :: locations (start_of code (S i)) (drop (S i) code)) as E.
  { rewrite <- (take_drop_middle code i g Hg) at 1. rewrite locations_app. cbn.
    by rewrite Hl, (start_of_S _ _ _ Hg). }
  apply (location_found c o (length (locations 0 (take i code)))).
  - rewrite Ht. apply locations_sorted.
  - done.
  - rewrite Ht, E. by apply list_lookup_middle.
  - cbn. lia.
  - intros x. rewrite Ht, E, lookup_app_r by lia.
    replace (S (length (locations 0 (take i code))) - length (locations 0 (take i code)))%nat with 1%nat by lia.
    cbn. intros Hx%list_elem_of_lookup_2%locations_bounds. lia.
Qed.
