(* ===== verification/BuilderRun.v ===== *)
(** * Building a body

    A client of the builder, as the compiler is: it makes any sequence of calls of
    the builder's methods, keeping the labels, targets and offsets they return. The
    run stops at the first error. [run_typed] says that a run of a debug build
    leaves typed bytecode. *)
From S2P Require Import Prelude Opcode Code Builder Fetch BuilderTyping.

#[local] Open Scope Z_scope.
#[local] Open Scope monty_scope.

(** ** Calls *)

(** The calls that emit one instruction that is no jump. *)
Inductive emission : Type :=
| Emit (op : Opcode)
| EmitU8 (op : Opcode) (n : Z)
| EmitI8 (op : Opcode) (n : Z)
| EmitU8U8 (op : Opcode) (n1 n2 : Z)
| EmitU16 (op : Opcode) (n : Z)
| EmitU16U16 (op : Opcode) (n1 n2 : Z)
| EmitU16U8 (op : Opcode) (n1 n2 : Z)
| EmitU16U8U8 (op : Opcode) (n1 n2 n3 : Z)
| EmitCallBuiltinFunction (builtin_id arg_count : Z)
| EmitCallBuiltinType (type_id arg_count : Z)
| EmitCallFunctionKw (pos_count : Z) (ids : list Z)
| EmitCallAttrKw (attr_name_id pos_count : Z) (ids : list Z)
| EmitRaiseUnboundLocal (name_id : StringId)
| EmitLoadLocal (slot : Z)
| EmitLoadGlobalCallable (slot : Z) (name_id : StringId)
| EmitNameOp (op : Opcode) (slot : Z) (name_id : StringId) (flags : Z)
| EmitStoreLocal (slot : Z).

(** The arguments are within their machine types. *)
Definition emission_ranged (m : emission) : Prop :=
  match m with
  | Emit _ => True
  | EmitU8 _ n => is_u8 n
  | EmitI8 _ n => is_i8 n
  | EmitU8U8 _ a b | EmitCallBuiltinFunction a b | EmitCallBuiltinType a b => is_u8 a /\ is_u8 b
  | EmitU16 _ n | EmitLoadLocal n | EmitStoreLocal n => is_u16 n
  | EmitU16U16 _ a b => is_u16 a /\ is_u16 b
  | EmitU16U8 _ a b => is_u16 a /\ is_u8 b
  | EmitU16U8U8 _ a b c => is_u16 a /\ is_u8 b /\ is_u8 c
  | EmitCallFunctionKw p ids => is_u8 p /\ Forall is_u16 ids
  | EmitCallAttrKw a p ids => is_u16 a /\ is_u8 p /\ Forall is_u16 ids
  | EmitRaiseUnboundLocal _ => True
  | EmitLoadGlobalCallable slot _ => is_u16 slot
  | EmitNameOp _ slot _ flags => is_u16 slot /\ is_u8 flags
  end.

(** The calls; labels, targets and offsets are named by the order they were
    returned in. *)
Inductive call (Value : Type) : Type :=
| Emission (m : emission)
| SetLocation (r : CodeRange) (f : option CodeRange)
| NewCodeRegion (depth : Z)
| EmitJump (op : Opcode)
| PatchJump (k : nat)
| EmitJumpTo (op : Opcode) (k : nat)
| CurrentOffset
| CurrentJumpTarget
| RegisterLocalNames (names : list StringId)
| RegisterLocalName (slot : Z) (name : StringId)
| AddConst (v : Value)
| AddExceptionEntry (start end_ handler : nat) (depth count : Z) (kind : HandlerKind).
Arguments Emission {Value}.
Arguments SetLocation {Value}.
Arguments NewCodeRegion {Value}.
Arguments EmitJump {Value}.
Arguments PatchJump {Value}.
Arguments EmitJumpTo {Value}.
Arguments CurrentOffset {Value}.
Arguments CurrentJumpTarget {Value}.
Arguments RegisterLocalNames {Value}.
Arguments RegisterLocalName {Value}.
Arguments AddConst {Value}.
Arguments AddExceptionEntry {Value}.

Definition call_ranged {Value} (c : call Value) : Prop :=
  match c with
  | Emission m => emission_ranged m
  | NewCodeRegion depth => is_u16 depth
  | _ => True
  end.

(** The client: the builder, what its methods returned, which labels were patched
    and which regions were opened. *)
Record client (Value : Type) : Type := mkClient
  { builder : CodeBuilder Value; labels : list JumpLabel; patched : list nat;
    targets : list JumpTarget; offsets : list Z; opened : list (Z * Z) }.
Arguments mkClient {Value}.
Arguments builder {Value}.
Arguments labels {Value}.
Arguments patched {Value}.
Arguments targets {Value}.
Arguments offsets {Value}.
Arguments opened {Value}.

Section Run.
Context {Value : Type} (debug : bool).

Notation B := (M (CodeBuilder Value) Halt).
Notation C := (M (client Value) Halt).

Definition client_new : client Value := mkClient CodeBuilder_new [] [] [] [] [].

Definition set_builder (b : CodeBuilder Value) (c : client Value) : client Value :=
  mkClient b (labels c) (patched c) (targets c) (offsets c) (opened c).

(** A method call on the client's builder. *)
Definition on {A} (m : B A) : C A :=
  fun c => let (r, b) := m (builder c) in (r, set_builder b c).

Definition emission_run (m : emission) : B unit :=
  match m with
  | Emit op => emit debug op
  | EmitU8 op n => emit_u8 debug op n
  | EmitI8 op n => emit_i8 debug op n
  | EmitU8U8 op a b => emit_u8_u8 debug op a b
  | EmitU16 op n => emit_u16 debug op n
  | EmitU16U16 op a b => emit_u16_u16 debug op a b
  | EmitU16U8 op a b => emit_u16_u8 debug op a b
  | EmitU16U8U8 op a b c => emit_u16_u8_u8 debug op a b c
  | EmitCallBuiltinFunction i n => emit_call_builtin_function debug i n
  | EmitCallBuiltinType i n => emit_call_builtin_type debug i n
  | EmitCallFunctionKw p ids => emit_call_function_kw debug p ids
  | EmitCallAttrKw a p ids => emit_call_attr_kw debug a p ids
  | EmitRaiseUnboundLocal n => emit_raise_unbound_local debug n
  | EmitLoadLocal s => emit_load_local debug s
  | EmitLoadGlobalCallable s n => emit_load_global_callable debug s n
  | EmitNameOp op s n f => emit_name_op debug op s n f
  | EmitStoreLocal s => emit_store_local debug s
  end.

(** An index the client never got is a mistake of the client, not of the builder. *)
Definition picked {A} (l : list A) (k : nat) : C A :=
  match l !! k with Some a => sret a | None => sfail Panic end.

Definition perform (x : call Value) : C unit :=
  match x with
  | Emission m => on (emission_run m)
  | SetLocation r f => on (set_location r f)
  | NewCodeRegion depth =>
      do o <- on current_offset ;;
      on (new_code_region depth) ;;;
      smodify (fun c => mkClient (builder c) (labels c) (patched c) (targets c) (offsets c)
        ((o, depth) :: opened c))
  | EmitJump op =>
      do l <- on (emit_jump debug op) ;;
      smodify (fun c => mkClient (builder c) (labels c ++ [l]) (patched c) (targets c) (offsets c)
        (opened c))
  | PatchJump k =>
      do c <- sget ;;
      do l <- picked (labels c) k ;;
      on (patch_jump debug l) ;;;
      smodify (fun c => mkClient (builder c) (labels c) (k :: patched c) (targets c) (offsets c)
        (opened c))
  | EmitJumpTo op k =>
      do c <- sget ;;
      do t <- picked (targets c) k ;;
      on (emit_jump_to debug op t)
  | CurrentOffset =>
      do o <- on current_offset ;;
      smodify (fun c => mkClient (builder c) (labels c) (patched c) (targets c) (offsets c ++ [o])
        (opened c))
  | CurrentJumpTarget =>
      do t <- on current_jump_target ;;
      smodify (fun c => mkClient (builder c) (labels c) (patched c) (targets c ++ [t]) (offsets c)
        (opened c))
  | RegisterLocalNames names => on (register_local_names debug names)
  | RegisterLocalName slot name => on (register_local_name slot name)
  | AddConst v => do _ <- on (add_const v) ;; sret tt
  | AddExceptionEntry s e h depth count kind =>
      do c <- sget ;;
      do s <- picked (offsets c) s ;;
      do e <- picked (offsets c) e ;;
      do h <- picked (offsets c) h ;;
      on (add_exception_entry s e h depth count kind)
  end.

Fixpoint run (xs : list (call Value)) : C unit :=
  match xs with
  | [] => sret tt
  | x :: xs => perform x ;;; run xs
  end.
End Run.

(** ** One emission *)

(** The fields an emission leaves alone. *)
Definition same_tables {Value} (b b' : CodeBuilder Value) : Prop :=
  constants b' = constants b /\ exception_table b' = exception_table b /\
  current_location b' = current_location b /\ current_focus b' = current_focus b /\
  local_names b' = local_names b.

(** The location recorded for the next instruction. *)
Definition location_now {Value} (b : CodeBuilder Value) : option (CodeRange * option CodeRange) :=
  (fun r => (r, current_focus b)) <$> current_location b.

(** The instruction an emission in live code appends. *)
Definition emitted {Value} (op : Opcode) (operand : Operand.t) (b b' : CodeBuilder Value) : Prop :=
  (current_stack_depth b = None /\ b' = b) \/
  exists d e, current_stack_depth b = Some d /\ stack_effect op operand = Some e /\
    0 <= d + e <= u16_max /\
    match operand with
    | Operand.CallKw _ ids | Operand.CallAttrKw _ _ ids => zlen ids <= u8_max
    | _ => True
    end /\
    bytecode b' = bytecode b ++ encode op operand /\
    current_stack_depth b' = next_depth op d e /\
    location_table b' = location_table b ++
      locations (zlen (bytecode b)) [mkG op operand d (location_now b)] /\
    same_tables b b'.

Section Emitting.
Context {Value : Type}.
Implicit Types b : CodeBuilder Value.

Lemma or_limit_Ok {A} (o : option A) l b a b' :
  or_limit o l b = (Ok a, b') -> o = Some a /\ b' = b.
Proof. destruct o; [by intros [= -> ->]|done]. Qed.

Lemma unwrap_Ok {A} (o : option A) b a b' :
  unwrap o b = (Ok a, b') -> o = Some a /\ b' = b.
Proof. destruct o; [by intros [= -> ->]|done]. Qed.

Lemma debug_assert_Ok p b u b' :
  debug_assert true p b = (Ok u, b') -> p = true /\ b' = b.
Proof. destruct p; [by intros [= _ <-]|done]. Qed.

Lemma u16_try_Some n m : u16_try n = Some m -> m = n /\ is_u16 n.
Proof.
  unfold u16_try, is_u16. destruct (_ && _) eqn:E; [|done]. intros [= <-]. zbool. lia.
Qed.

Lemma u8_try_Some n m : u8_try n = Some m -> m = n /\ is_u8 n.
Proof.
  unfold u8_try, is_u8. destruct (_ && _) eqn:E; [|done]. intros [= <-]. zbool. lia.
Qed.

Lemma u32_try_Some n m : u32_try n = Some m -> m = n.
Proof. unfold u32_try. destruct (_ <=? _); [by intros [= <-]|done]. Qed.

Lemma record_location_Ok b u b' :
  record_location b = (Ok u, b') ->
  b' = set_location_table (location_table b ++ match current_location b with
    | Some r => [mkLocationEntry (zlen (bytecode b)) r (current_focus b)] | None => [] end) b.
Proof.
  unfold record_location. intros H. inv_step. inv_step.
  destruct (current_location b) as [r|] eqn:E; inv_step.
  - apply or_limit_Ok in Hm as [Hu%u32_try_Some ->]. subst. by injection H as _ <-.
  - rewrite app_nil_r. by destruct b.
Qed.

Lemma adjust_stack_Ok delta b u b' d :
  adjust_stack true delta b = (Ok u, b') -> current_stack_depth b = Some d ->
  0 <= d + delta <= u16_max /\ b' = set_depth (Some (d + delta)) b.
Proof.
  unfold adjust_stack, stack_depth. intros H Hd. repeat inv_step. rewrite Hd in H.
  inv_step. apply debug_assert_Ok in Hm as [Hp ->]. inv_step.
  apply or_limit_Ok in Hm as [[-> Hr]%u16_try_Some ->]. injection H as _ <-.
  zbool. rewrite Z.max_l in * by done. unfold is_u16 in Hr. split; [lia|done].
Qed.

Lemma emit_operand_Ok operand b u b' :
  emit_operand operand b = (Ok u, b') ->
  b' = set_bytecode (bytecode b ++ operand_bytes operand) b /\
  match operand with
  | Operand.CallKw _ ids | Operand.CallAttrKw _ _ ids => zlen ids <= u8_max
  | _ => True
  end.
Proof.
  destruct operand; cbn; intros H; try (by injection H as _ <-);
    inv_step; apply or_limit_Ok in Hm as [[_ Hr]%u8_try_Some ->]; injection H as _ <-;
    unfold is_u8 in Hr; (split; [done|lia]).
Qed.

Lemma emit_Ok op operand b u b' :
  emit_with_operand true op operand b = (Ok u, b') -> emitted op operand b b'.
Proof.
  unfold emit_with_operand, is_dead, stack_depth. intros H. repeat inv_step.
  destruct (current_stack_depth b) as [d|] eqn:Ed; case_bool_decide; try done; last first.
  { left. by injection H as _ <-. }
  right. inv_step. apply record_location_Ok in Hm as ->.
  inv_step. injection Hm as _ <-. inv_step. apply emit_operand_Ok in Hm as [-> Hk].
  inv_step. apply unwrap_Ok in Hm as [He ->]. inv_step.
  apply (adjust_stack_Ok _ _ _ _ d) in Hm as [Hr ->]; [|done].
  exists d, a2. unfold next_depth, encode, location_now.
  destruct (terminates op); injection H as _ <-; cbn; rewrite <- app_assoc;
    (split_and!; try done; try lia); by destruct (current_location b).
Qed.

(** An emission is the emission of one instruction that fits its machine types. *)
Lemma emission_Ok m b u b' :
  emission_run true m b = (Ok u, b') -> emission_ranged m ->
  exists op operand, emitted op operand b b' /\ Operand.ranged operand /\
    Operand.shape operand <> OperandShape.Offset.
Proof.
  destruct m; cbn [emission_run emission_ranged]; intros H Hr;
    try (apply emit_Ok in H; eexists _, _; split_and!; [exact H|try done|done]).
  - unfold emit_raise_unbound_local in H. inv_step.
    apply or_limit_Ok in Hm as [[-> Hn]%u16_try_Some ->]. apply emit_Ok in H. eauto 10.
  - unfold emit_load_local, emit, emit_u8, emit_u16 in H.
    repeat (destruct (_ =? _); [apply emit_Ok in H; eexists _, _; split_and!; [exact H|done..]|]).
    destruct (u8_try slot) as [n|] eqn:E; apply emit_Ok in H; eexists _, _;
      (split_and!; [exact H| |done]); [by apply u8_try_Some in E as [-> ?]|done].
  - unfold emit_load_global_callable in H. inv_step.
    apply or_limit_Ok in Hm as [[-> Hn]%u16_try_Some ->]. apply emit_Ok in H.
    eexists _, _. split_and!; [exact H|done..].
  - unfold emit_name_op in H. inv_step.
    apply or_limit_Ok in Hm as [[-> Hn]%u16_try_Some ->]. apply emit_Ok in H.
    eexists _, _. split_and!; [exact H|cbn; naive_solver|done].
  - unfold emit_store_local, emit_u8, emit_u16 in H.
    destruct (u8_try slot) as [n|] eqn:E; apply emit_Ok in H; eexists _, _;
      (split_and!; [exact H| |done]); [by apply u8_try_Some in E as [-> ?]|done].
Qed.
End Emitting.

(** ** The invariant of a run *)

Section Invariant.
Context {Value : Type}.
Implicit Types c : client Value.

Record built (c : client Value) (code : list ginstr) : Prop := mkBuilt
  { bt_bytes : bytecode (builder c) = bytes_of code;
    bt_locations : location_table (builder c) = locations 0 code;
    bt_typed : typed code (current_stack_depth (builder c)) (labels c) (patched c) (targets c)
      (opened c);
    bt_patched : Forall (fun k => k < length (labels c))%nat (patched c);
    bt_fits : forall k l, labels c !! k = Some (Some l) -> is_u16 (label_depth l);
    bt_distinct : forall k k' l l', labels c !! k = Some (Some l) -> labels c !! k' = Some (Some l') ->
      label_offset l = label_offset l' -> k = k' }.

(** The code of [c] has become that of [c'], with the jumps at [W] patched. *)
Definition onward (W : list Z) (c c' : client Value) (code : list ginstr) : Prop :=
  labels c `prefix_of` labels c' /\
  exists code', built c' code' /\
    evolves W code (current_stack_depth (builder c)) code' (current_stack_depth (builder c')).

Lemma on_Ok {A} (m : M (CodeBuilder Value) Halt A) c a c' :
  on m c = (Ok a, c') -> exists b, m (builder c) = (Ok a, b) /\ c' = set_builder b c.
Proof. unfold on. destruct (m (builder c)) as [r b]. intros [= -> <-]. eauto. Qed.

Lemma picked_Ok {A} (l : list A) k c a c' :
  picked l k c = (Ok a, c') -> l !! k = Some a /\ c' = c.
Proof. unfold picked. destruct (l !! k); [by intros [= -> ->]|done]. Qed.

(** The builder keeps its code, locations and depth. *)
Lemma built_same W c code b :
  built c code -> bytecode b = bytecode (builder c) ->
  location_table b = location_table (builder c) ->
  current_stack_depth b = current_stack_depth (builder c) ->
  onward W c (set_builder b c) code.
Proof.
  intros [Hb Hl Ht Hp Hfit Hdis] E1 E2 E3. split; [done|]. exists code. split; [|cbn; rewrite E3; apply evolves_refl].
  split; cbn; [by rewrite E1|by rewrite E2|by rewrite ?E3|done..].
Qed.

(** The code after an emission in live code. *)
Lemma emitted_built c code op operand b d :
  built c code -> emitted op operand (builder c) b -> current_stack_depth (builder c) = Some d ->
  Operand.ranged operand -> Operand.shape operand <> OperandShape.Offset ->
  exists e, stack_effect op operand = Some e /\ current_stack_depth b = next_depth op d e /\
    built (set_builder b c) (code ++ [mkG op operand d (location_now (builder c))]).
Proof.
  intros Hb He Ed Hr Hs.
  destruct He as [[Hd ->]|(d' & e & Hd & Hst & Hde & Hk & Ebc & Ecur & Eloc & _)]; [congruence|].
  assert (d' = d) as -> by congruence. exists e. split; [done|]. split; [done|].
  destruct Hb as [Hbb Hl Ht Hp Hfit Hdis]. rewrite Hd in Ht.
  pose proof (stack_effect_shape _ _ _ Hst) as Hsh.
  set (g := mkG op operand d (location_now (builder c))). split; cbn.
  - by rewrite Ebc, Hbb, bytes_of_app, bytes_of_cons, app_nil_r.
  - rewrite Eloc, Hl, Hbb, locations_app. done.
  - rewrite Ecur, <- (app_nil_r (labels c)). apply (typed_append code g e); try done.
    cbn. congruence.
  - done.
  - done.
  - done.
Qed.

Lemma emitted_onward W c code op operand b :
  built c code -> emitted op operand (builder c) b ->
  Operand.ranged operand -> Operand.shape operand <> OperandShape.Offset ->
  onward W c (set_builder b c) code.
Proof.
  intros Hb He Hr Hs. destruct (current_stack_depth (builder c)) as [d|] eqn:Ed.
  - destruct (emitted_built _ _ _ _ _ _ Hb He Ed Hr Hs) as (e & _ & Ecur & Hb').
    split; [done|]. eexists. split; [exact Hb'|]. rewrite Ed. cbn. rewrite Ecur.
    apply (evolves_append W code (mkG _ _ _ _)).
  - destruct He as [[_ ->]|(d & e & Hd & _)]; [by apply built_same|congruence].
Qed.

Lemma as_i64_Ok n (b b' : CodeBuilder Value) m : as_i64 n b = (Ok m, b') -> m = n /\ b' = b /\ n <= i64_max.
Proof. unfold as_i64. destruct (_ <=? _) eqn:E; [|done]. zbool. by intros [= <- <-]. Qed.

Lemma calculate_Ok from to (b : CodeBuilder Value) r b' :
  calculate_jump_offset true from to b = (Ok r, b') ->
  b' = b /\ label_depth from = target_depth to /\ target_offset to <= i64_max /\
  forall rel, r = Some rel ->
    rel = target_offset to - (label_offset from + JUMP_BYTECODE_SIZE) /\ is_i16 rel.
Proof.
  unfold calculate_jump_offset. intros H. inv_step. apply as_i64_Ok in Hm as (-> & -> & _).
  inv_step. apply as_i64_Ok in Hm as (-> & -> & Hmax). inv_step. apply debug_assert_Ok in Hm as [Hd ->].
  inv_step. zbool. split_and!; [done..|]. intros rel. destruct (_ && _) eqn:E; [|done].
  intros [= <-]. zbool. unfold is_i16. lia.
Qed.

Lemma lookup_snoc_dead (ls : list JumpLabel) k l :
  (ls ++ [None]) !! k = Some (Some l) -> ls !! k = Some (Some l).
Proof.
  intros [Hk|[_ Hk]]%lookup_app_Some; [done|].
  by apply list_lookup_singleton_Some in Hk as [_ Hk].
Qed.

Lemma lookup_snoc_live (ls : list JumpLabel) k l l0 :
  (ls ++ [Some l0]) !! k = Some (Some l) ->
  ls !! k = Some (Some l) \/ k = length ls /\ l0 = l.
Proof.
  intros [Hk|[Hle Hk]]%lookup_app_Some; [by left|right].
  apply list_lookup_singleton_Some in Hk as [Hz [= <-]]. split; [|done].
  apply Nat.sub_0_le in Hz. by apply Nat.le_antisymm.
Qed.

(** A dead label, a target or a region is added. *)
Lemma typed_dead_label code cur ls ps ts os :
  typed code cur ls ps ts os -> Forall (fun k => k < length ls)%nat ps ->
  typed code cur (ls ++ [None]) ps ts os.
Proof.
  intros [H1 H2 H3 H4 H5 H6] Hp. split; try done.
  - intros i g Hi Hs. destruct (H3 i g Hi Hs) as [Hl|(k & l & Hk & Hn)]; [by left|right].
    exists k, l. split; [by apply lookup_app_l_Some|done].
  - intros k l Hk%lookup_snoc_dead. eauto.
Qed.

Lemma typed_target code cur ls ps ts os (t : JumpTarget) :
  typed code cur ls ps ts os ->
  (forall t0, t = Some t0 -> position code cur (target_offset t0) (target_depth t0)) ->
  typed code cur ls ps (ts ++ [t]) os.
Proof.
  intros [H1 H2 H3 H4 H5 H6] Ht. split; try done. intros k t0 Hk.
  apply lookup_app_Some in Hk as [Hk|[_ Hk]]; [by eauto|].
  apply list_lookup_singleton_Some in Hk as [_ Hk]. auto.
Qed.

Lemma typed_region code cur ls ps ts os o d :
  typed code cur ls ps ts os -> position code cur o d -> typed code cur ls ps ts ((o, d) :: os).
Proof.
  intros [H1 H2 H3 H4 H5 H6] Ho. split; try done.
  intros o0 d0 [[= -> ->]|Hin]%elem_of_cons; auto.
Qed.

(** The end of the code is a position of the builder's depth. *)
Lemma position_end code d : position code (Some d) (zlen (bytes_of code)) d.
Proof. exists (length code). by rewrite start_of_end, depth_at_end. Qed.

Lemma current_offset_Ok (b b' : CodeBuilder Value) o :
  current_offset b = (Ok o, b') -> o = zlen (bytecode b) /\ b' = b.
Proof. by intros [= <- <-]. Qed.

Lemma current_position_Ok (b b' : CodeBuilder Value) o : current_position b = (Ok o, b') -> b' = b.
Proof. by intros [= _ <-]. Qed.

Lemma stack_depth_Ok (b b' : CodeBuilder Value) o :
  stack_depth b = (Ok o, b') -> o = current_stack_depth b /\ b' = b.
Proof. by intros [= <- <-]. Qed.

Lemma new_code_region_Ok d (b b' : CodeBuilder Value) u :
  new_code_region d b = (Ok u, b') -> current_stack_depth b = None /\ b' = set_depth (Some d) b.
Proof.
  unfold new_code_region. intros H. inv_step. apply stack_depth_Ok in Hm as [-> ->].
  destruct (current_stack_depth b); [done|]. by injection H as _ <-.
Qed.

Lemma region_onward c code d u c' :
  built c code -> is_u16 d -> perform true (NewCodeRegion d) c = (Ok u, c') -> onward [] c c' code.
Proof.
  intros [Hb Hl Ht Hp Hfit Hdis] Hd H. cbn [perform] in H. inv_step.
  apply on_Ok in Hm as (b1 & [-> ->]%current_offset_Ok & ->). inv_step.
  apply on_Ok in Hm as (b2 & [Hn ->]%new_code_region_Ok & ->). injection H as _ <-. cbn in Hn.
  rewrite Hn in Ht. destruct (typed_open _ _ _ _ [] code d Ht) as [Ht' Hev]; [done|].
  split; [done|]. exists code. cbn. rewrite Hn. split; [|done]. split; cbn; try done.
  apply typed_region; [done|]. rewrite Hb. apply position_end.
Qed.

(** A jump that is emitted with its offset. *)
Lemma jump_encodable op r :
  operand_shape op = OperandShape.Offset -> is_i16 r -> encodable op (Operand.Offset r).
Proof. intros Hs Hr. split_and!; done. Qed.

(** The labels of built code are of jumps in it. *)
Lemma label_before c code k l :
  built c code -> labels c !! k = Some (Some l) -> label_offset l < zlen (bytecode (builder c)).
Proof.
  intros Hb (i & g0 & Hg & -> & _)%(ty_labels _ _ _ _ _ _ (bt_typed _ _ Hb)).
  rewrite (bt_bytes _ _ Hb), <- start_of_end. apply start_of_lt; [by eapply lookup_lt_Some|done].
Qed.

(** The code after a jump to be patched, in live code. *)
Lemma emit_jump_built c code op u c' d :
  built c code -> perform true (EmitJump op) c = (Ok u, c') -> current_stack_depth (builder c) = Some d ->
  exists l e, built c' (code ++ [mkG op (Operand.Offset 0) d (location_now (builder c))]) /\
    current_stack_depth (builder c') = next_depth op d e /\
    labels c' = labels c ++ [Some l] /\ label_offset l = zlen (bytecode (builder c)).
Proof.
  intros Hbt H Ed. pose proof Hbt as [Hb Hl Ht Hp Hfit Hdis]. cbn [perform] in H. inv_step.
  apply on_Ok in Hm as (b & Hm & ->). injection H as _ <-. unfold emit_jump in Hm.
  inv_step. apply stack_depth_Ok in Hm0 as [-> ->]. rewrite Ed in Hm.
  inv_step. apply current_offset_Ok in Hm0 as [-> ->]. inv_step.
  apply current_position_Ok in Hm0 as ->. inv_step. apply unwrap_Ok in Hm0 as [Hje ->].
  inv_step. apply or_limit_Ok in Hm0 as [[-> Hr]%u16_try_Some ->].
  inv_step. apply emit_Ok in Hm0. inv_step.
  destruct Hm0 as [[Hn _]|(d' & e & Hd' & Hst & Hde & _ & Ebc & Ecur & Eloc & _)]; [congruence|].
  assert (d' = d) as -> by congruence.
  assert (operand_shape op = OperandShape.Offset) as Hs by (apply jump_taken_iff; eauto).
  set (g := mkG op (Operand.Offset 0) d (location_now (builder c))).
  eexists _, e. split; [|by cbn]. split; cbn.
  - by rewrite Ebc, Hb, bytes_of_app, bytes_of_cons, app_nil_r.
  - rewrite Eloc, Hl, Hb, locations_app. done.
  - rewrite Ecur. rewrite Ed in Ht. eapply (typed_label code g e);
      [done|by apply jump_encodable|done|done|exact Hje| |done|done].
    by rewrite start_of_end, <- Hb.
  - rewrite length_app. eapply Forall_impl; [exact Hp|]. cbn. lia.
  - intros k l [Hk|[_ <-]]%lookup_snoc_live; eauto.
  - intros k k' l l' [Hk|[-> <-]]%lookup_snoc_live [Hk'|[-> <-]]%lookup_snoc_live E;
      cbn in E; eauto; [apply (label_before _ _ _ _ Hbt) in Hk|apply (label_before _ _ _ _ Hbt) in Hk']; lia.
Qed.

Lemma emit_jump_onward c code op u c' :
  built c code -> perform true (EmitJump op) c = (Ok u, c') -> onward [] c c' code.
Proof.
  intros Hbt H. destruct (current_stack_depth (builder c)) as [d|] eqn:Ed.
  { destruct (emit_jump_built _ _ _ _ _ _ Hbt H Ed) as (l & e & Hb' & Ecur & El & _).
    split; [by rewrite El; eexists|]. eexists. split; [exact Hb'|]. rewrite Ed, Ecur.
    apply (evolves_append [] code (mkG op (Operand.Offset 0) d (location_now (builder c)))). }
  pose proof Hbt as [Hb Hl Ht Hp Hfit Hdis]. cbn [perform] in H. inv_step.
  apply on_Ok in Hm as (b & Hm & ->). injection H as _ <-. unfold emit_jump in Hm.
  inv_step. apply stack_depth_Ok in Hm0 as [-> ->]. rewrite Ed in Hm.
  inv_step. split; [by eexists|]. exists code. cbn. rewrite Ed. split; [|apply evolves_refl]. split; cbn; try done.
  - rewrite Ed in *. by apply typed_dead_label.
  - rewrite length_app. eapply Forall_impl; [exact Hp|]. cbn. lia.
  - intros k l Hk%lookup_snoc_dead. eauto.
  - intros k k' l l' Hk%lookup_snoc_dead Hk'%lookup_snoc_dead. eauto.
Qed.

(** The code after a jump back to a target, in live code. *)
Lemma emit_jump_to_built c code op k u c' d :
  built c code -> perform true (EmitJumpTo op k) c = (Ok u, c') -> current_stack_depth (builder c) = Some d ->
  exists t r e, targets c !! k = Some (Some t) /\
    target_offset t = zlen (bytecode (builder c)) + JUMP_BYTECODE_SIZE + r /\ target_offset t <= i64_max /\
    built c' (code ++ [mkG op (Operand.Offset r) d (location_now (builder c))]) /\
    current_stack_depth (builder c') = next_depth op d e /\ labels c' = labels c.
Proof.
  intros Hbt H Ed. pose proof Hbt as [Hb Hl Ht Hp Hfit Hdis]. cbn [perform] in H. inv_step. inv_step. inv_step.
  apply picked_Ok in Hm0 as [Hk ->]. apply on_Ok in H as (b & H & ->). unfold emit_jump_to in H.
  inv_step. apply stack_depth_Ok in Hm as [-> ->]. rewrite Ed in H.
  inv_step. apply current_offset_Ok in Hm as [-> ->]. inv_step.
  apply unwrap_Ok in Hm as [Hje ->]. inv_step. apply or_limit_Ok in Hm as [[-> Hr]%u16_try_Some ->].
  inv_step. apply current_position_Ok in Hm as ->. inv_step. apply unwrap_Ok in Hm as [-> ->].
  inv_step. apply calculate_Ok in Hm as (-> & Hd & Hmax & Hrel). inv_step.
  apply or_limit_Ok in Hm as [-> ->]. destruct (Hrel _ eq_refl) as [Er Hi]. cbn in Hd, Er.
  apply emit_Ok in H.
  destruct H as [[Hn _]|(d' & e & Hd' & Hst & Hde & _ & Ebc & Ecur & Eloc & _)]; [congruence|].
  assert (d' = d) as -> by congruence.
  assert (operand_shape op = OperandShape.Offset) as Hs by (apply jump_taken_iff; eauto).
  match type of Er with ?r = target_offset ?t - _ => exists t, r, e end.
  split; [exact Hk|]. split; [lia|]. split; [done|].
  match type of Ebc with _ = _ ++ encode _ (Operand.Offset ?r) =>
    set (g := mkG op (Operand.Offset r) d (location_now (builder c))) end.
  pose proof (evolves_append [] code g (next_depth op d e)) as Hev. rewrite Ed in Ht.
  split; [|by cbn]. split; cbn.
  - by rewrite Ebc, Hb, bytes_of_app, bytes_of_cons, app_nil_r.
  - rewrite Eloc, Hl, Hb, locations_app. done.
  - rewrite Ecur, <- (app_nil_r (labels c)). apply (typed_append code g e); try done.
    intros _. left.
      destruct (ty_targets _ _ _ _ _ _ Ht _ _ Hk) as (j & Eo & Hj).
      pose proof (depth_at_le _ _ _ _ Hj).
      eexists _, _, j, _. split_and!; [done|exact Hje| | |by apply (ev_depth _ _ _ _ _ Hev)|by cbn].
      * rewrite !(start_of_app code) by lia. rewrite <- Eo, start_of_end, <- Hb. lia.
      * by rewrite (start_of_app code), <- Eo by lia.
  - done.
  - done.
  - done.
Qed.

Lemma emit_jump_to_onward c code op k u c' :
  built c code -> perform true (EmitJumpTo op k) c = (Ok u, c') -> onward [] c c' code.
Proof.
  intros Hbt H. destruct (current_stack_depth (builder c)) as [d|] eqn:Ed.
  { destruct (emit_jump_to_built _ _ _ _ _ _ _ Hbt H Ed) as (t & r & e & _ & _ & _ & Hb' & Ecur & El).
    split; [by rewrite El|]. eexists. split; [exact Hb'|]. rewrite Ed, Ecur.
    apply (evolves_append [] code (mkG op (Operand.Offset r) d (location_now (builder c)))). }
  cbn [perform] in H. inv_step. inv_step. inv_step.
  apply picked_Ok in Hm0 as [Hk ->]. apply on_Ok in H as (b & H & ->). unfold emit_jump_to in H.
  inv_step. apply stack_depth_Ok in Hm as [-> ->]. rewrite Ed in H. inv_step. by apply built_same.
Qed.

Lemma store_byte_Ok i v (b b' : CodeBuilder Value) u :
  store_byte i v b = (Ok u, b') -> b' = set_bytecode (<[Z.to_nat i := v]> (bytecode b)) b.
Proof. unfold store_byte. intros H. repeat inv_step. destruct (_ <? _); [by injection H as _ <-|done]. Qed.

(** The depth [patch_jump] continues with. *)
Lemma patch_depth_Ok l (b b' : CodeBuilder Value) d :
  match current_stack_depth b with
  | Some depth => sret depth
  | None => new_code_region (label_depth l) ;;; sret (label_depth l)
  end b = (Ok d, b') ->
  b' = set_depth (Some d) b /\ (current_stack_depth b = Some d \/
    current_stack_depth b = None /\ d = label_depth l).
Proof.
  destruct (current_stack_depth b) as [d0|] eqn:E; intros H; [|inv_step]; inv_step.
  - split; [by destruct b; cbn in *; subst|by left].
  - apply new_code_region_Ok in Hm as [_ ->]. auto.
Qed.

(** [patch_jump] of a live label: the builder's own steps. *)
Lemma patch_live_Ok l (b b' : CodeBuilder Value) u :
  patch_jump true (Some l) b = (Ok u, b') ->
  exists r, zlen (bytecode b) = label_offset l + JUMP_BYTECODE_SIZE + r /\ is_i16 r /\
    zlen (bytecode b) <= i64_max /\
    (current_stack_depth b = Some (label_depth l) \/ current_stack_depth b = None) /\
    b' = set_bytecode (<[Z.to_nat (label_offset l + 2) := (r mod 65536) / 256]>
           (<[Z.to_nat (label_offset l + 1) := (r mod 65536) mod 256]> (bytecode b)))
         (set_depth (Some (label_depth l)) b).
Proof.
  cbn [patch_jump]. intros H. inv_step. apply stack_depth_Ok in Hm as [-> ->]. inv_step.
  apply patch_depth_Ok in Hm as [-> Hd]. inv_step. apply current_offset_Ok in Hm as [-> ->].
  inv_step. apply calculate_Ok in Hm as (-> & Ed & Hmax & Hrel).
  match type of H with match ?o with _ => _ end _ = _ => destruct o as [r|]; [|done] end.
  destruct (Hrel _ eq_refl) as [Er Hi]. cbn in Er, Ed, Hmax. exists r.
  apply sbind_Ok in H as (v & s1 & H1%store_byte_Ok & H2%store_byte_Ok). subst s1 b'. cbn.
  rewrite <- Ed in *. split_and!; [lia|apply Hi..|done|tauto|done].
Qed.

(** The code after a live label is patched. *)
Lemma patched_built c code k l u c' :
  built c code -> labels c !! k = Some (Some l) -> perform true (PatchJump k) c = (Ok u, c') ->
  exists i g r, labelled code l i g /\ built c' (patched_at code i g r) /\
    evolves [label_offset l] code (current_stack_depth (builder c)) (patched_at code i g r)
      (current_stack_depth (builder c')) /\
    zlen (bytecode (builder c)) = label_offset l + JUMP_BYTECODE_SIZE + r /\
    zlen (bytecode (builder c)) <= i64_max /\ labels c' = labels c.
Proof.
  intros [Hb Hl Ht Hp Hfit Hdis] Hk H. cbn [perform] in H. inv_step. apply sget_Ok in Hm as [-> ->].
  inv_step. apply picked_Ok in Hm as [Hk' ->]. apply (eq_trans (eq_sym Hk)) in Hk'. injection Hk' as <-.
  inv_step. apply on_Ok in Hm as (b & Hm & ->). injection H as _ <-.
  apply patch_live_Ok in Hm as (r & Hpos & Hi & Hmax & Hd & ->).
  assert (typed code (Some (label_depth l)) (labels c) (patched c) (targets c) (opened c) /\
    evolves [] code (current_stack_depth (builder c)) code (Some (label_depth l))) as [Ht1 Hev1].
  { destruct Hd as [Hd|Hd]; rewrite Hd in *; [split; [done|apply evolves_refl]|].
    apply typed_open; [done|]. by apply (Hfit k). }
  destruct (ty_labels _ _ _ _ _ _ Ht1 _ _ Hk) as (i & g & Hg).
  destruct (typed_patch _ _ _ _ code (label_depth l) i g r l k Ht1 Hk Hg eq_refl) as [Ht2 Hev2];
    [by rewrite <- Hb|done|by rewrite <- Hb|].
  pose proof Hg as (Hgi & Eo & je & Hje & _).
  pose proof (ty_flows _ _ _ _ _ _ Ht1 _ _ Hgi) as ((Hsh & _) & _).
  assert (operand_shape (g_op g) = OperandShape.Offset) as Hs by (apply jump_taken_iff; eauto).
  rewrite Hs in Hsh. destruct (g_operand g) as [| | | |r0| | | | | | |] eqn:Eg; try discriminate Hsh.
  exists i, g, r. split; [done|]. split; [|split; [|done]].
  - split; cbn; [|by rewrite (locations_patch _ _ _ _ r0)|done| |done..].
    + by rewrite (bytes_of_patch _ _ _ _ r0), <- Hb, Eo.
    + constructor; [by eapply lookup_lt_Some|done].
  - exact (evolves_trans [] _ _ _ _ _ _ _ Hev1 Hev2).
Qed.

Lemma patch_onward c code k u c' :
  built c code -> perform true (PatchJump k) c = (Ok u, c') ->
  exists l, labels c !! k = Some l /\ onward (match l with Some l => [label_offset l] | None => [] end) c c' code.
Proof.
  intros Hb H. destruct (labels c !! k) as [[l|]|] eqn:Hk.
  - exists (Some l). split; [done|].
    destruct (patched_built _ _ _ _ _ _ Hb Hk H) as (i & g & r & _ & Hb' & Hev & _ & _ & El).
    split; [by rewrite El|]. eauto.
  - exists None. split; [done|]. cbn [perform] in H. inv_step. apply sget_Ok in Hm as [-> ->].
    inv_step. apply picked_Ok in Hm as [Hk' ->]. apply (eq_trans (eq_sym Hk)) in Hk'. injection Hk' as <-.
    inv_step. apply on_Ok in Hm as (b & [= _ <-] & ->). injection H as _ <-.
    split; [done|]. exists code. split; [|apply evolves_refl].
    destruct Hb as [Hb Hl Ht Hp Hfit Hdis]. split; cbn; try done; last first.
    { constructor; [by eapply lookup_lt_Some|done]. }
    destruct Ht as [H1 H2 H3 H4 H5 H6]. split; try done. intros i g Hi Hs.
    destruct (H3 i g Hi Hs) as [|(k' & l & Hk' & Hn & Eo)]; [by left|right]. exists k', l.
    split_and!; try done. intros [->|]%elem_of_cons; [by pose proof (eq_trans (eq_sym Hk) Hk')|done].
  - cbn [perform] in H. inv_step. apply sget_Ok in Hm as [-> ->]. inv_step.
    apply picked_Ok in Hm as [Hk' _]. by pose proof (eq_trans (eq_sym Hk) Hk').
Qed.

Lemma add_const_Ok v (b b' : CodeBuilder Value) i :
  add_const v b = (Ok i, b') ->
  (i = zlen (constants b) /\ is_u16 i) /\ b' = set_constants (constants b ++ [v]) b.
Proof.
  unfold add_const. intros H. inv_step. apply sget_Ok in Hm as [-> ->]. inv_step.
  apply or_limit_Ok in Hm as [[-> Hu]%u16_try_Some ->]. inv_step. injection Hm as _ <-. by inv_step.
Qed.

(** The offsets of the jumps a call patches. *)
Definition writes (c : client Value) (x : call Value) : list Z :=
  match x with
  | PatchJump k => match labels c !! k with Some (Some l) => [label_offset l] | _ => [] end
  | _ => []
  end.

Lemma perform_onward c code x u c' :
  built c code -> call_ranged x -> perform true x c = (Ok u, c') ->
  onward (writes c x) c c' code.
Proof.
  intros Hb Hr H. destruct x; cbn [perform] in H.
  - apply on_Ok in H as (b & H & ->). apply emission_Ok in H as (op & operand & H1 & H2 & H3); [|done].
    by eapply emitted_onward.
  - apply on_Ok in H as (b & [= _ <-] & ->). by apply built_same.
  - by eapply region_onward.
  - by eapply emit_jump_onward.
  - destruct (patch_onward _ _ _ _ _ Hb H) as (l & Hk & Ho). cbn [writes]. by rewrite Hk.
  - by eapply emit_jump_to_onward.
  - inv_step. apply on_Ok in Hm as (b & [-> ->]%current_offset_Ok & ->). injection H as _ <-.
    split; [done|]. exists code. split; [|apply evolves_refl]. by destruct Hb.
  - inv_step. apply on_Ok in Hm as (b & [= <- <-] & ->). injection H as _ <-.
    split; [done|]. exists code. split; [|apply evolves_refl]. destruct Hb as [Hb Hl Ht Hp Hfit Hdis].
    split; cbn; try done. apply typed_target; [done|].
    intros t (d & -> & Hd)%fmap_Some. cbn. rewrite Hd, Hb. apply position_end.
  - apply on_Ok in H as (b & H & ->). unfold register_local_names in H. repeat inv_step.
    apply debug_assert_Ok in Hm0 as [_ ->]. injection H as _ <-. by apply built_same.
  - apply on_Ok in H as (b & [= _ <-] & ->). by apply built_same.
  - inv_step. apply on_Ok in Hm as (b & [_ ->]%add_const_Ok & ->). inv_step. by apply built_same.
  - inv_step. apply sget_Ok in Hm as [-> ->].
    do 3 (inv_step; apply picked_Ok in Hm as [_ ->]). apply on_Ok in H as (b & H & ->).
    unfold add_exception_entry in H. do 3 (inv_step; apply or_limit_Ok in Hm as [_ ->]).
    injection H as _ <-. by apply built_same.
Qed.

(** Through a run, only jumps whose labels the run patches change their offsets. *)
Lemma run_onward xs : forall c code u c',
  built c code -> Forall call_ranged xs -> run true xs c = (Ok u, c') ->
  exists W, onward W c c' code /\
    forall o, o ∈ W -> exists k l, PatchJump k ∈ xs /\ labels c' !! k = Some (Some l) /\ label_offset l = o.
Proof.
  induction xs as [|x xs IH]; intros c code u c' Hb Hr H; cbn [run] in H.
  - inv_step. exists []. split; [|by intros o ?%elem_of_nil]. split; [done|]. exists code.
    split; [done|apply evolves_refl].
  - inversion_clear Hr as [|? ? Hx Hxs]. inv_step.
    destruct (perform_onward _ _ _ _ _ Hb Hx Hm) as (Hp1 & code1 & Hb1 & Hev1).
    destruct (IH _ _ _ _ Hb1 Hxs H) as (W & (Hp2 & code2 & Hb2 & Hev2) & HW).
    exists (writes c x ++ W). split.
    + split; [by etrans|]. exists code2. split; [done|]. by eapply evolves_trans.
    + intros o [Ho|Ho]%elem_of_app.
      * destruct x; cbn [writes] in Ho; try by apply elem_of_nil in Ho.
        destruct (labels c !! k) as [[l|]|] eqn:Ek; try by apply elem_of_nil in Ho.
        apply list_elem_of_singleton in Ho as ->. exists k, l. split_and!; [by left| |done].
        eapply prefix_lookup_Some; [|exact Hp2]. by eapply prefix_lookup_Some.
      * destruct (HW o Ho) as (k & l & H1 & H2). exists k, l. split; [by right|done].
Qed.

Lemma built_new : built client_new [].
Proof. split; [done..| |by constructor|done|done]. split; try done. intros o d Hin. by apply elem_of_nil in Hin. Qed.

Lemma run_built xs u c :
  Forall call_ranged xs -> run true xs client_new = (Ok u, c) -> exists code, built c code.
Proof.
  intros Hr H. destruct (run_onward _ _ _ _ _ built_new Hr H) as (W & (_ & code & Hb & _) & _). eauto.
Qed.
End Invariant.
