(* ===== verification/BuilderProps.v ===== *)
(** * Properties of the bytecode builder

    Whatever calls a client makes, the code a debug build accepts is typed: control
    reaches every instruction with one stack depth, and never leaves the code. What
    was emitted is what the machine reads, jumps go where they were patched to, and
    tracebacks find the location each instruction was emitted under. *)
From S2P Require Import Prelude Opcode Code Builder Fetch BuilderTyping BuilderRun.

#[local] Open Scope Z_scope.
#[local] Open Scope monty_scope.

(** ** Decoding what was built *)

Lemma decode_instr code i g :
  code !! i = Some g -> encodable (g_op g) (g_operand g) ->
  decode (bytes_of code) (start_of code i) = Ok (g_op g, g_operand g, start_of code (S i)).
Proof.
  intros Hg He. rewrite (start_of_S _ _ _ Hg), (bytes_of_split _ _ _ Hg). by apply decode_encode.
Qed.

Lemma jump_to_Ok bytes next r :
  0 <= next + r <= i64_max -> jump_to bytes next r = Ok (next + r).
Proof.
  intros H. unfold jump_to, jump_relative, sbind, sget. cbn.
  unfold i64_max, usize_max, u64_max in *.
  rewrite (proj2 (Z.leb_le _ _)), (proj2 (Z.leb_le _ _)) by lia. done.
Qed.

Lemma jump_to_inv bytes next r t : jump_to bytes next r = Ok t -> t = next + r.
Proof.
  unfold jump_to, jump_relative, sbind, sget. cbn. destruct (_ && _); [by intros [= <-]|done].
Qed.

(** ** Typed code *)

(** The client is done: the code ends in dead code, every live label was patched,
    and every handler is a region opened at the depth the machine enters it with. *)
Definition finished {Value} (c : client Value) : Prop :=
  current_stack_depth (builder c) = None /\
  (forall k l, labels c !! k = Some (Some l) -> k ∈ patched c) /\
  (forall e, e ∈ exception_table (builder c) ->
     (handler e, entry_stack_depth e + if pushes_exception e then 1 else 0) ∈ opened c).

(** An instruction is there at [st], its depth is one the counter holds, and it
    neither takes the depth below zero nor jumps outside the address space. *)
Definition sound_at {Value} (c : Code Value) (st : Z * Z) : Prop :=
  exists op operand next e,
    decode (code_bytecode c) st.1 = Ok (op, operand, next) /\
    0 <= st.2 <= u16_max /\ stack_effect op operand = Some e /\
    (leaves op = false -> 0 <= st.2 + e <= u16_max) /\
    (forall r, operand = Operand.Offset r -> exists t e',
       jump_to (code_bytecode c) next r = Ok t /\ jump_taken_stack_effect op = Some e' /\
       0 <= st.2 + e' <= u16_max).

Lemma leaves_terminates op : leaves op = false -> terminates op = false.
Proof. by destruct op. Qed.

Section Typed.
Context {Value : Type} (c : client Value) (code : list ginstr).
Hypothesis Hbuilt : built c code.
Hypothesis Hfin : finished c.

Let bc : Code Value := build (builder c).

Lemma typed_final : typed code None (labels c) (patched c) (targets c) (opened c).
Proof. destruct Hfin as [E _]. rewrite <- E. apply Hbuilt. Qed.

Lemma bytes_final : code_bytecode bc = bytes_of code.
Proof. apply Hbuilt. Qed.

(** A position is an instruction. *)
Lemma position_instr o d :
  position code None o d -> exists i g, code !! i = Some g /\ o = start_of code i /\ d = g_depth g.
Proof.
  intros (i & -> & H). unfold depth_at in H. destruct (code !! i) as [g|] eqn:E.
  - injection H as <-. eauto.
  - by destruct (decide _).
Qed.

Lemma depth_range o d : position code None o d -> 0 <= d <= u16_max.
Proof.
  intros (i & g & Hg & _ & ->)%position_instr.
  by destruct (ty_flows _ _ _ _ _ _ typed_final _ _ Hg) as (_ & ? & _).
Qed.

Lemma jump_lands i g :
  code !! i = Some g -> operand_shape (g_op g) = OperandShape.Offset -> lands code None i g.
Proof.
  intros Hg Hs. destruct (ty_jumps _ _ _ _ _ _ typed_final _ _ Hg Hs) as [|(k & l & Hk & Hn & _)]; [done|].
  destruct Hfin as (_ & Hp & _). by apply Hp in Hk.
Qed.

Lemma vstep_position st st' :
  position code None st.1 st.2 -> vstep bc st st' -> position code None st'.1 st'.2.
Proof.
  intros Hpos Hst. destruct Hst as [o d op operand next e Hd Hl He|o d op r next t e Hd Ht He|o d e Hf];
    cbn [fst snd] in *.
  - destruct (position_instr _ _ Hpos) as (i & g & Hg & -> & ->).
    destruct (ty_flows _ _ _ _ _ _ typed_final _ _ Hg) as (Henc & _ & e' & He' & Hflow).
    rewrite bytes_final, (decode_instr _ _ _ Hg Henc) in Hd. injection Hd as <- <- <-.
    assert (e' = e) as -> by congruence. exists (S i). split; [done|].
    by apply Hflow, leaves_terminates.
  - destruct (position_instr _ _ Hpos) as (i & g & Hg & -> & ->).
    destruct (ty_flows _ _ _ _ _ _ typed_final _ _ Hg) as (Henc & _).
    rewrite bytes_final, (decode_instr _ _ _ Hg Henc) in Hd. injection Hd as <- Er <-.
    assert (operand_shape (g_op g) = OperandShape.Offset) as Hs by (apply jump_taken_iff; eauto).
    destruct (jump_lands _ _ Hg Hs) as (r' & e' & j & d & E1 & E2 & E3 & _ & E4 & ->).
    apply jump_to_inv in Ht as ->. exists j. assert (r' = r) as -> by congruence.
    assert (e' = e) as -> by congruence. split; [|done].
    rewrite (start_of_S _ _ _ Hg), E3. unfold g_bytes. rewrite E1, encode_jump_length. lia.
  - apply (ty_opened _ _ _ _ _ _ typed_final). destruct Hfin as (_ & _ & Hh). apply Hh.
    apply list_elem_of_In. unfold find_exception_handler in Hf. by apply List.find_some in Hf as [Hf _].
Qed.

Lemma reach_position o d st :
  (o, d) ∈ opened c -> rtc (vstep bc) (o, d) st -> position code None st.1 st.2.
Proof.
  intros Ho H. remember (o, d) as st0 eqn:E.
  assert (position code None st0.1 st0.2) as Hp.
  { subst. by apply (ty_opened _ _ _ _ _ _ typed_final). }
  clear E Ho. induction H as [|x y z Hxy _ IH]; [done|]. by apply IH, (vstep_position _ _ Hp Hxy).
Qed.

Lemma position_sound st : position code None st.1 st.2 -> sound_at bc st.
Proof.
  destruct st as [o d]. cbn. intros Hpos.
  destruct (position_instr _ _ Hpos) as (i & g & Hg & -> & ->).
  destruct (ty_flows _ _ _ _ _ _ typed_final _ _ Hg) as (Henc & Hd & e & He & Hflow).
  exists (g_op g), (g_operand g), (start_of code (S i)), e. unfold sound_at. cbn [fst snd].
  rewrite bytes_final, (decode_instr _ _ _ Hg Henc). split; [done|]. split; [done|]. split; [done|].
  split.
  - intros Hl%leaves_terminates%Hflow. eapply (depth_range (start_of code (S i))). by exists (S i).
  - intros r Er. assert (operand_shape (g_op g) = OperandShape.Offset) as Hs.
    { destruct Henc as [-> _]. by rewrite Er. }
    destruct (jump_lands _ _ Hg Hs) as (r' & e' & j & d & E1 & E2 & E3 & Hmax & E4 & ->).
    assert (r' = r) as -> by congruence.
    assert (start_of code (S i) + r = start_of code j) as E.
    { rewrite (start_of_S _ _ _ Hg), E3. unfold g_bytes. rewrite E1, encode_jump_length. lia. }
    exists (start_of code j), e'. rewrite <- E at 1. rewrite jump_to_Ok.
    + split_and!; try done; eapply (depth_range (start_of code j)); by exists j.
    + rewrite E. pose proof (start_of_nonneg code j). lia.
Qed.
End Typed.

(** C15: bytecode is typed. When a client's calls all succeed in a debug build, and
    the client has patched its labels, ended in dead code and opened the handlers it
    registered, then in every state the machine reaches from an opened region there is
    an instruction to fetch, its stack depth is within the counter, its jump stays in
    the address space, and no other path reaches that instruction with another
    depth. *)
Theorem built_code_typed {Value} (xs : list (call Value)) (c : client Value) o d st :
  run true xs client_new = (Ok tt, c) -> Forall call_ranged xs -> finished c ->
  (o, d) ∈ opened c -> rtc (vstep (build (builder c))) (o, d) st ->
  sound_at (build (builder c)) st /\
  (forall o' d' st', (o', d') ∈ opened c -> rtc (vstep (build (builder c))) (o', d') st' ->
     st'.1 = st.1 -> st'.2 = st.2).
Proof.
  intros H Hr Hf Ho Hst. destruct (run_built _ _ _ Hr H) as [code Hb].
  pose proof (reach_position _ _ Hb Hf _ _ _ Ho Hst) as Hp.
  split; [by apply (position_sound _ _ Hb Hf)|]. intros o' d' st' Ho' Hst' E.
  pose proof (reach_position _ _ Hb Hf _ _ _ Ho' Hst') as Hp'. rewrite E in Hp'.
  by apply (position_depth _ _ _ _ _ Hp').
Qed.

(** ** What is emitted is read back *)

Section Later.
Context {Value : Type}.
Implicit Types c : client Value.

(** What a run leaves of an instruction: it stays in its place, and is the same unless
    the run patches a label there. *)
Lemma instr_onward c code xs u c' i g :
  built c code -> Forall call_ranged xs -> run true xs c = (Ok u, c') -> code !! i = Some g ->
  exists code' g', built c' code' /\ code' !! i = Some g' /\ g_op g' = g_op g /\
    (forall j, (j <= length code)%nat -> start_of code' j = start_of code j) /\
    (g' = g \/ exists k l, PatchJump k ∈ xs /\ labels c' !! k = Some (Some l) /\ label_offset l = start_of code i).
Proof.
  intros Hb Hr H Hg. destruct (run_onward _ _ _ _ _ Hb Hr H) as (W & (_ & code' & Hb' & Hev) & HW).
  destruct (ev_instr _ _ _ _ _ Hev _ _ Hg) as (g' & Hg' & Eo & _ & _ & Hsame).
  exists code', g'. split_and!; [done..|apply (ev_start _ _ _ _ _ Hev)|].
  destruct (decide (start_of code i ∈ W)) as [Hin|Hn]; [right; by apply HW|left; by apply Hsame].
Qed.

(** An instruction that is no jump stays as it is through a run. *)
Lemma instr_later c code xs u c' i g :
  built c code -> Forall call_ranged xs -> run true xs c = (Ok u, c') ->
  code !! i = Some g -> operand_shape (g_op g) <> OperandShape.Offset ->
  exists code', built c' code' /\ code' !! i = Some g /\
    forall j, (j <= length code)%nat -> start_of code' j = start_of code j.
Proof.
  intros Hb Hr H Hg Hs. destruct (instr_onward _ _ _ _ _ _ _ Hb Hr H Hg) as (code' & g' & Hb' & Hg' & Eo & Hst & Hor).
  exists code'. split; [done|]. split; [|done]. destruct Hor as [->|(k & l & _ & Hk & El)]; [done|].
  destruct (ty_labels _ _ _ _ _ _ (bt_typed _ _ Hb') _ _ Hk) as (i' & g0 & Hg0 & El0 & e & He & _).
  pose proof (lookup_lt_Some _ _ _ Hg). pose proof (lookup_lt_Some _ _ _ Hg').
  pose proof (lookup_lt_Some _ _ _ Hg0).
  rewrite El0, <- Hst in El by lia. apply start_of_inj in El as ->; [|lia..].
  assert (g' = g0) as -> by congruence. destruct Hs. rewrite <- Eo. apply jump_taken_iff. eauto.
Qed.

Lemma emit_jump_label op (b b' : CodeBuilder Value) l :
  emit_jump true op b = (Ok (Some l), b') -> label_offset l = zlen (bytecode b).
Proof.
  unfold emit_jump. intros H. inv_step. apply stack_depth_Ok in Hm as [-> ->].
  destruct (current_stack_depth b); [|by inv_step]. repeat inv_step.
  apply current_offset_Ok in Hm as [-> ->]. by injection H as ->.
Qed.

(** A call returns at most one label, of the instruction it emits. *)
Lemma perform_labels x c u c' k l :
  perform true x c = (Ok u, c') -> labels c' !! k = Some (Some l) ->
  labels c !! k = Some (Some l) \/ label_offset l = zlen (bytecode (builder c)).
Proof.
  destruct x; cbn [perform]; intros H Hk; repeat inv_step;
    repeat match goal with
           | Hx : picked _ _ _ = (Ok _, _) |- _ => apply picked_Ok in Hx as [_ ->]
           | Hx : on _ _ = (Ok _, _) |- _ => apply on_Ok in Hx as (? & Hx & ->)
           | Hx : smodify _ _ = _ |- _ => injection Hx as _ <-
           end; try by left.
  cbn in Hk. apply lookup_app_Some in Hk as [Hk|[_ Hk]]; [by left|right].
  apply list_lookup_singleton_Some in Hk as [_ ->]. by eapply emit_jump_label.
Qed.

(** The labels a run returns are of instructions it emits. *)
Lemma run_labels xs : forall c code u c' k l,
  built c code -> Forall call_ranged xs -> run true xs c = (Ok u, c') -> labels c' !! k = Some (Some l) ->
  labels c !! k = Some (Some l) \/ zlen (bytecode (builder c)) <= label_offset l.
Proof.
  induction xs as [|x xs IH]; intros c code u c' k l Hb Hr H Hk; cbn [run] in H; [inv_step; by left|].
  inversion_clear Hr as [|? ? Hx Hxs]. inv_step.
  destruct (perform_onward _ _ _ _ _ Hb Hx Hm) as (_ & code1 & Hb1 & Hev).
  assert (zlen (bytecode (builder c)) <= zlen (bytecode (builder s))) as Hle.
  { rewrite (bt_bytes _ _ Hb), (bt_bytes _ _ Hb1), <- !start_of_end, <- (ev_start _ _ _ _ _ Hev) by lia.
    destruct (Nat.eq_dec (length code) (length code1)) as [->|Hne]; [done|].
    apply evolves_length in Hev. apply Z.lt_le_incl, start_of_lt; lia. }
  destruct (IH _ _ _ _ _ _ Hb1 Hxs H Hk) as [Hk1|]; [|right; lia].
  destruct (perform_labels _ _ _ _ _ _ Hm Hk1) as [|]; [by left|right; lia].
Qed.

(** The instruction just emitted, in every later code. *)
Lemma emitted_later xs1 c1 op operand b d xs2 c2 u v w :
  run true xs1 client_new = (Ok u, c1) -> Forall call_ranged xs1 ->
  current_stack_depth (builder c1) = Some d ->
  emit_with_operand true op operand (builder c1) = (Ok v, b) ->
  Operand.ranged operand -> Operand.shape operand <> OperandShape.Offset ->
  run true xs2 (set_builder b c1) = (Ok w, c2) -> Forall call_ranged xs2 ->
  exists i code, built c2 code /\ code !! i = Some (mkG op operand d (location_now (builder c1))) /\
    start_of code i = zlen (bytecode (builder c1)) /\ start_of code (S i) = zlen (bytecode b).
Proof.
  intros H1 Hr1 Hd He Hra Hs H2 Hr2. destruct (run_built _ _ _ Hr1 H1) as [code1 Hb1].
  apply emit_Ok in He. destruct (emitted_built _ _ _ _ _ _ Hb1 He Hd Hra Hs) as (e & Hst & _ & Hb).
  pose proof (stack_effect_shape _ _ _ Hst) as Hsh.
  set (g := mkG op operand d (location_now (builder c1))) in *.
  assert ((code1 ++ [g]) !! length code1 = Some g) as Hlast by (by apply list_lookup_middle).
  destruct (instr_later _ _ _ _ _ _ _ Hb Hr2 H2 Hlast) as (code & Hb' & Hg & Hst'); [cbn; congruence|].
  exists (length code1), code. rewrite !Hst' by (rewrite length_app; cbn; lia).
  split_and!; [done..| |].
  - rewrite start_of_app, start_of_end by lia. by rewrite (bt_bytes _ _ Hb1).
  - replace (S (length code1)) with (length (code1 ++ [g])) by (rewrite length_app; cbn; lia).
    rewrite start_of_end. by rewrite <- (bt_bytes _ _ Hb).
Qed.
End Later.

(** Tracebacks find their locations. For every byte of an instruction emitted
    under a location, the binary search of the finished code's table returns that
    location, whatever was emitted before and after. *)
Theorem locations_found {Value} (xs1 xs2 : list (call Value)) c1 op operand b d c2 r o :
  run true xs1 client_new = (Ok tt, c1) -> Forall call_ranged xs1 ->
  current_stack_depth (builder c1) = Some d -> current_location (builder c1) = Some r ->
  emit_with_operand true op operand (builder c1) = (Ok tt, b) ->
  Operand.ranged operand -> Operand.shape operand <> OperandShape.Offset ->
  run true xs2 (set_builder b c1) = (Ok tt, c2) -> Forall call_ranged xs2 ->
  zlen (bytecode (builder c1)) <= o < zlen (bytecode b) -> o <= u32_max ->
  location_for_offset (build (builder c2)) o
  = Some (mkLocationEntry (zlen (bytecode (builder c1))) r (current_focus (builder c1))).
Proof.
  intros H1 Hr1 Hd Hl He Hra Hs H2 Hr2 Ho Hu.
  destruct (emitted_later _ _ _ _ _ _ _ _ _ _ _ H1 Hr1 Hd He Hra Hs H2 Hr2)
    as (i & code & Hb & Hg & E1 & E2). rewrite <- E1, <- E2 in *.
  eapply (location_of_instr _ code i _ _ _ o); [apply Hb|exact Hg| |done|done].
  cbn. unfold location_now. by rewrite Hl.
Qed.

(** A jump goes where it was patched to. After a label is patched, and as long
    as it is not patched again, the machine that decodes the jump in the code built in
    the end continues at the offset the builder had when the label was patched. *)
Theorem patched_jump_lands {Value} (xs1 xs2 : list (call Value)) c1 c2 c3 k l :
  run true xs1 client_new = (Ok tt, c1) -> Forall call_ranged xs1 ->
  labels c1 !! k = Some (Some l) -> perform true (PatchJump k) c1 = (Ok tt, c2) ->
  run true xs2 c2 = (Ok tt, c3) -> Forall call_ranged xs2 -> PatchJump k ∉ xs2 ->
  exists op r next,
    decode (code_bytecode (build (builder c3))) (label_offset l) = Ok (op, Operand.Offset r, next) /\
    jump_to (code_bytecode (build (builder c3))) next r = Ok (zlen (bytecode (builder c1))).
Proof.
  intros H1 Hr1 Hk H2 H3 Hr3 Hn. destruct (run_built _ _ _ Hr1 H1) as [code1 Hb1].
  destruct (patched_built _ _ _ _ _ _ Hb1 Hk H2) as (i & g & r & Hg & Hb2 & Hev & Hpos & Hmax & El).
  destruct (run_onward _ _ _ _ _ Hb2 Hr3 H3) as (W & (Hpre & code3 & Hb3 & Hev3) & HW).
  pose proof Hg as (Hgi & Eo & _). pose proof (lookup_lt_Some _ _ _ Hgi) as Hlt.
  set (g' := mkG (g_op g) (Operand.Offset r) (g_depth g) (g_loc g)).
  assert (patched_at code1 i g r !! i = Some g') as Hg' by (by apply list_lookup_insert_eq).
  destruct (ev_instr _ _ _ _ _ Hev3 _ _ Hg') as (g3 & Hg3 & _ & _ & _ & Hsame).
  assert (start_of code3 i = label_offset l) as E3.
  { rewrite Eo, (ev_start _ _ _ _ _ Hev3), (ev_start _ _ _ _ _ Hev); [done|lia|].
    apply lookup_lt_Some in Hg'. lia. }
  rewrite Hsame in Hg3; last first.
  { rewrite <- (ev_start _ _ _ _ _ Hev3), E3 by (apply lookup_lt_Some in Hg'; lia).
    intros (k' & l' & Hin & Hk' & El')%HW. apply Hn. replace k with k'; [done|].
    eapply (bt_distinct _ _ Hb3); [exact Hk'| |exact El'].
    eapply prefix_lookup_Some; [|exact Hpre]. by rewrite El. }
  exists (g_op g), r, (start_of code3 (S i)). cbn [code_bytecode build Code_new].
  rewrite (bt_bytes _ _ Hb3), <- E3. split.
  - apply (decode_instr code3 i g' Hg3). by apply (ty_flows _ _ _ _ _ _ (bt_typed _ _ Hb3) _ _ Hg3).
  - assert (start_of code3 (S i) = label_offset l + JUMP_BYTECODE_SIZE) as ->.
    { rewrite (start_of_S _ _ _ Hg3), E3. reflexivity. }
    pose proof (zlen_nonneg (bytecode (builder c1))). rewrite jump_to_Ok; [by rewrite Hpos|lia].
Qed.

(** ** Jumps are read back *)

Section Jumps.
Context {Value : Type}.
Implicit Types c : client Value.

Lemma run_app (xs ys : list (call Value)) c : run true (xs ++ ys) c = (run true xs ;;; run true ys) c.
Proof.
  revert c. induction xs as [|x xs IH]; intros c; cbn [app run]; [done|].
  unfold sbind. destruct (perform true x c) as [[?|?] c1]; [apply IH|done].
Qed.

(** The bytecode the client has in the end. *)
Definition final_bytes c : list Z := code_bytecode (build (builder c)).

(** The jump just emitted, in every later code: it is in its place, and what it reads
    differs from what was written only if the run patched a label there. *)
Lemma jump_later c code op r d xs u c' e :
  built c (code ++ [mkG op (Operand.Offset r) d e]) -> Forall call_ranged xs -> run true xs c = (Ok u, c') ->
  exists r', decode (final_bytes c') (zlen (bytes_of code)) = Ok (op, Operand.Offset r', zlen (bytecode (builder c)))
    /\ (r' = r \/ exists k l, PatchJump k ∈ xs /\ labels c' !! k = Some (Some l) /\ label_offset l = zlen (bytes_of code)).
Proof.
  intros Hb Hr H. set (g := mkG op (Operand.Offset r) d e) in *.
  assert ((code ++ [g]) !! length code = Some g) as Hg by (by apply list_lookup_middle).
  destruct (instr_onward _ _ _ _ _ _ _ Hb Hr H Hg) as (code' & g' & Hb' & Hg' & Eo & Hst & Hor).
  pose proof (ty_flows _ _ _ _ _ _ (bt_typed _ _ Hb) _ _ Hg) as ((Hs & _) & _).
  pose proof (ty_flows _ _ _ _ _ _ (bt_typed _ _ Hb') _ _ Hg') as (Henc & _).
  pose proof Henc as [Hs' _]. rewrite Eo, Hs in Hs'.
  destruct (g_operand g') as [| | | |r'| | | | | | |] eqn:Eg; try discriminate Hs'. exists r'.
  assert (start_of (code ++ [g]) (length code) = zlen (bytes_of code)) as E1 by by rewrite start_of_app, start_of_end by lia.
  split.
  - unfold final_bytes. cbn [code_bytecode build Code_new]. rewrite (bt_bytes _ _ Hb'), <- E1, <- Hst by (rewrite length_app; cbn; lia).
    rewrite (decode_instr code' _ g' Hg') by by rewrite Eg. rewrite Eo, Eg, Hst by (rewrite length_app; cbn; lia).
    do 3 f_equal. rewrite (bt_bytes _ _ Hb). replace (S (length code)) with (length (code ++ [g])) by (rewrite length_app; cbn; lia).
    by rewrite start_of_end.
  - destruct Hor as [->|Hor]; [left; by injection Eg as <-|right]. by rewrite <- E1.
Qed.

(** A jump to be patched, after the last patch of its label. *)
Lemma emitted_jump_lands xs1 op c1 d c2 ys zs c3 c4 :
  run true xs1 client_new = (Ok tt, c1) -> Forall call_ranged xs1 -> current_stack_depth (builder c1) = Some d ->
  perform true (EmitJump op) c1 = (Ok tt, c2) -> Forall call_ranged (ys ++ PatchJump (length (labels c1)) :: zs) ->
  run true ys c2 = (Ok tt, c3) -> PatchJump (length (labels c1)) ∉ zs ->
  run true (ys ++ PatchJump (length (labels c1)) :: zs) c2 = (Ok tt, c4) ->
  exists op' r next, decode (final_bytes c4) (zlen (bytecode (builder c1))) = Ok (op', Operand.Offset r, next)
    /\ jump_to (final_bytes c4) next r = Ok (zlen (bytecode (builder c3))).
Proof.
  intros H1 Hr1 Hd He Hr H3 Hn H4. destruct (run_built _ _ _ Hr1 H1) as [code1 Hb1].
  destruct (emit_jump_built _ _ _ _ _ _ Hb1 He Hd) as (l & e & Hb2 & _ & El & <-).
  apply Forall_app in Hr as [Hry [_ Hrz]%Forall_cons].
  destruct (run_onward _ _ _ _ _ Hb2 Hry H3) as (W & (Hpre & _) & _).
  rewrite run_app in H4. unfold sbind in H4. rewrite H3 in H4. cbn [run] in H4. inv_step. destruct a.
  eapply (patched_jump_lands (xs1 ++ EmitJump op :: ys) zs c3 s c4 (length (labels c1)) l); try done.
  - rewrite run_app. unfold sbind. rewrite H1. cbn [run]. unfold sbind. by rewrite He.
  - apply Forall_app. split; [done|]. by constructor.
  - eapply prefix_lookup_Some; [|exact Hpre]. rewrite El. by apply list_lookup_middle.
Qed.

(** A jump to a target, in every later code. *)
Lemma emitted_jump_to_lands xs1 op k t c1 d c2 xs2 c3 :
  run true xs1 client_new = (Ok tt, c1) -> Forall call_ranged xs1 -> current_stack_depth (builder c1) = Some d ->
  perform true (EmitJumpTo op k) c1 = (Ok tt, c2) -> targets c1 !! k = Some (Some t) ->
  Forall call_ranged xs2 -> run true xs2 c2 = (Ok tt, c3) ->
  exists r, decode (final_bytes c3) (zlen (bytecode (builder c1))) = Ok (op, Operand.Offset r, zlen (bytecode (builder c2)))
    /\ jump_to (final_bytes c3) (zlen (bytecode (builder c2))) r = Ok (target_offset t).
Proof.
  intros H1 Hr1 Hd He Hk Hr2 H2. destruct (run_built _ _ _ Hr1 H1) as [code1 Hb1].
  destruct (emit_jump_to_built _ _ _ _ _ _ _ Hb1 He Hd) as (t' & r & e & Hk' & Et & Hmax & Hb2 & _ & El).
  assert (t' = t) as -> by congruence. rewrite (bt_bytes _ _ Hb1).
  destruct (jump_later _ _ _ _ _ _ _ _ _ Hb2 Hr2 H2) as (r' & Hdec & Hor). exists r'. split; [done|].
  assert (zlen (bytecode (builder c2)) = zlen (bytecode (builder c1)) + JUMP_BYTECODE_SIZE) as E2.
  { rewrite (bt_bytes _ _ Hb2), (bt_bytes _ _ Hb1), bytes_of_app, zlen_app. reflexivity. }
  destruct Hor as [->|(k' & l & _ & Hl & Eo)].
  - destruct (ty_targets _ _ _ _ _ _ (bt_typed _ _ Hb1) _ _ Hk) as (j & Ej & _).
    pose proof (start_of_nonneg code1 j). rewrite jump_to_Ok; [by rewrite E2, Et|lia].
  - rewrite <- (bt_bytes _ _ Hb1) in Eo. destruct (run_labels _ _ _ _ _ _ _ Hb2 Hr2 H2 Hl) as [Hl2|Hge].
    + rewrite El in Hl2. apply (label_before _ _ _ _ Hb1) in Hl2. lia.
    + unfold JUMP_BYTECODE_SIZE in E2. lia.
Qed.
End Jumps.

(** C23: what is emitted is what the machine reads. After any run of calls that succeeds
    with the debug assertions on, an instruction emitted in live code is read, in
    whatever code the client goes on to build, at the offset where it was emitted, with
    the next instruction following it. One that is no jump has the opcode and the
    operand it was emitted with. A jump to a target has its opcode and takes the
    machine to the target. A jump that is emitted to be patched has its opcode, the
    placeholder while its label is not patched, and an offset that takes the machine to
    where its label was last patched. *)
Theorem emitted_decodes {Value} (xs1 xs2 : list (call Value)) c1 c2 c3 d :
  run true xs1 client_new = (Ok tt, c1) -> Forall call_ranged xs1 ->
  current_stack_depth (builder c1) = Some d ->
  run true xs2 c2 = (Ok tt, c3) -> Forall call_ranged xs2 ->
  let next := zlen (bytecode (builder c2)) in
  let read := decode (final_bytes c3) (zlen (bytecode (builder c1))) in
  (forall op operand, on (emit_with_operand true op operand) c1 = (Ok tt, c2) ->
     Operand.ranged operand -> Operand.shape operand <> OperandShape.Offset -> read = Ok (op, operand, next))
  /\ (forall op k t, perform true (EmitJumpTo op k) c1 = (Ok tt, c2) -> targets c1 !! k = Some (Some t) ->
       exists r, read = Ok (op, Operand.Offset r, next) /\ jump_to (final_bytes c3) next r = Ok (target_offset t))
  /\ (forall op, perform true (EmitJump op) c1 = (Ok tt, c2) ->
       exists r, read = Ok (op, Operand.Offset r, next)
         /\ (PatchJump (length (labels c1)) ∉ xs2 -> r = 0)
         /\ forall ys zs c', xs2 = ys ++ PatchJump (length (labels c1)) :: zs ->
              PatchJump (length (labels c1)) ∉ zs -> run true ys c2 = (Ok tt, c') ->
              jump_to (final_bytes c3) next r = Ok (zlen (bytecode (builder c')))).
Proof.
  intros H1 Hr1 Hd H2 Hr2 next read. split_and!.
  - intros op operand (b & He & ->)%on_Ok Hra Hs.
    destruct (emitted_later _ _ _ _ _ _ _ _ _ _ _ H1 Hr1 Hd He Hra Hs H2 Hr2)
      as (i & code & Hb & Hg & Ei & Ej). unfold read, next, final_bytes. cbn [builder set_builder]. rewrite <- Ei, <- Ej.
    cbn [code_bytecode build Code_new]. rewrite (bt_bytes _ _ Hb).
    apply (decode_instr code i _ Hg). by apply (ty_flows _ _ _ _ _ _ (bt_typed _ _ Hb) _ _ Hg).
  - intros op k t He Hk. by eapply emitted_jump_to_lands.
  - intros op He. destruct (run_built _ _ _ Hr1 H1) as [code1 Hb1].
    destruct (emit_jump_built _ _ _ _ _ _ Hb1 He Hd) as (l & e & Hb2 & _ & El & Eo).
    destruct (jump_later _ _ _ _ _ _ _ _ _ Hb2 Hr2 H2) as (r & Hdec & Hor). rewrite <- (bt_bytes _ _ Hb1) in Hdec, Hor.
    exists r. split; [done|]. split.
    + intros Hn. destruct Hor as [->|(k & l' & Hin & Hl & Eo')]; [done|]. destruct Hn.
      replace (length (labels c1)) with k; [done|].
      destruct (run_onward _ _ _ _ _ Hb2 Hr2 H2) as (W & (Hpre & code3 & Hb3 & _) & _).
      eapply (bt_distinct _ _ Hb3); [exact Hl| |by rewrite Eo', <- Eo].
      eapply prefix_lookup_Some; [|exact Hpre]. rewrite El. by apply list_lookup_middle.
    + intros ys zs c' -> Hn Hy.
      destruct (emitted_jump_lands xs1 op c1 d c2 ys zs c' c3) as (op' & r' & next' & Hdec' & Hj); try done.
      unfold read in Hdec. rewrite Hdec' in Hdec. by injection Hdec as _ -> ->.
Qed.

(** ** Debug and release builds *)

(** [m'] succeeds as [m] does. *)
Definition passes {S E A} (m m' : M S E A) : Prop :=
  forall s a s', m s = (Ok a, s') -> m' s = (Ok a, s').

Lemma passes_refl {S E A} (m : M S E A) : passes m m.
Proof. by intros s a s' H. Qed.

Lemma passes_bind {S E A B} (m m' : M S E A) (k k' : A -> M S E B) :
  passes m m' -> (forall a, passes (k a) (k' a)) -> passes (sbind m k) (sbind m' k').
Proof.
  intros Hm Hk s b s2 (a & s1 & H1 & H2)%sbind_Ok. unfold sbind. rewrite (Hm _ _ _ H1). by apply Hk.
Qed.

Lemma passes_assert {Value} p : passes (debug_assert (Value := Value) true p) (debug_assert false p).
Proof. intros s a s'. by destruct p. Qed.

Lemma passes_on {Value A} (m m' : M (CodeBuilder Value) Halt A) : passes m m' -> passes (on m) (on m').
Proof.
  intros Hm c a c' (b & H & ->)%on_Ok. unfold on. by rewrite (Hm _ _ _ H).
Qed.

(** Compares two computations that differ in their assertions only. *)
Ltac passing :=
  repeat first
    [ apply passes_on
    | apply passes_assert
    | apply passes_bind; [|intros ?]
    | apply passes_refl
    | match goal with |- passes (match ?x with _ => _ end) _ => destruct x end ].

Lemma passes_emit {Value} op operand :
  passes (emit_with_operand (Value := Value) true op operand) (emit_with_operand false op operand).
Proof. unfold emit_with_operand, adjust_stack. passing. Qed.

Lemma passes_calculate {Value} from to :
  passes (calculate_jump_offset (Value := Value) true from to) (calculate_jump_offset false from to).
Proof. unfold calculate_jump_offset. passing. Qed.

Lemma passes_emission {Value} m :
  passes (emission_run (Value := Value) true m) (emission_run false m).
Proof.
  destruct m; try apply passes_emit; cbn [emission_run];
    unfold emit_raise_unbound_local, emit_load_local, emit_load_global_callable, emit_name_op,
      emit_store_local; passing; apply passes_emit.
Qed.

Lemma passes_perform {Value} (x : call Value) : passes (perform true x) (perform false x).
Proof.
  destruct x; cbn [perform]; unfold emit_jump, patch_jump, emit_jump_to, register_local_names; passing;
    first [apply passes_emission | apply passes_emit | apply passes_calculate].
Qed.

(** The assertions of the builder only check. A run of calls that succeeds in a
    debug build succeeds in a release build with the same code, tables and labels. *)
Theorem release_builds_same {Value} (xs : list (call Value)) c c' :
  run true xs c = (Ok tt, c') -> run false xs c = (Ok tt, c').
Proof.
  revert c c'. induction xs as [|x xs IH]; intros c c' H; cbn [run] in *; [done|].
  revert H. apply passes_bind; [apply passes_perform|]. intros [] s [] s' H.
  by apply IH.
Qed.

(** ** A body with a loop and a handler *)

Module Sample.
Definition here : CodeRange := mkCodeRange 1 10 20.

(** [while f: pass] and a [try] whose body raises. *)
Definition calls : list (call unit) :=
  [NewCodeRegion 0; SetLocation here None; CurrentJumpTarget;
   Emission (EmitLoadLocal 0); EmitJump JumpIfFalse; Emission (EmitU16 LoadConst 7);
   Emission (Emit Pop); EmitJumpTo Jump 0; PatchJump 0; CurrentOffset;
   Emission (EmitU8 LoadLocal 9); Emission (Emit Raise); CurrentOffset; NewCodeRegion 1;
   AddExceptionEntry 0 1 1 0 0 Consuming; Emission (Emit ReturnValue)].

Definition final : client unit := Eval vm_compute in (run true calls client_new).2.

Lemma runs : run true calls client_new = (Ok tt, final).
Proof. vm_compute. reflexivity. Qed.

Lemma ranged : Forall call_ranged calls.
Proof.
  repeat first [apply Forall_nil | apply Forall_cons; split]; cbn [call_ranged emission_ranged];
    first [exact I | unfold is_u8, is_u16, u8_max, u16_max; lia].
Qed.

Lemma done_ : finished final.
Proof.
  split; [reflexivity|]. split.
  - intros [|k] l H; [by left|]. vm_compute in H. destruct k; discriminate H.
  - intros e. replace (exception_table (builder final)) with [mkExceptionEntry 11 14 14 0 0 Consuming]
      by reflexivity.
    intros ->%list_elem_of_singleton. vm_compute. left.
Qed.

(** The same run, stopped before [LoadConst], after it, and around the patch. *)
Definition tested : client unit := Eval vm_compute in (run true (take 4 calls) client_new).2.
Definition before : client unit := Eval vm_compute in (run true (take 5 calls) client_new).2.
Definition loaded : CodeBuilder unit :=
  Eval vm_compute in (emit_with_operand true LoadConst (Operand.U16 7) (builder before)).2.
Definition unpatched : client unit := Eval vm_compute in (run true (take 8 calls) client_new).2.
Definition repatched : client unit := Eval vm_compute in (perform true (PatchJump 0) unpatched).2.

Lemma take_ranged n : Forall call_ranged (take n calls).
Proof. apply Forall_take, ranged. Qed.

Lemma drop_ranged n : Forall call_ranged (drop n calls).
Proof. apply Forall_drop, ranged. Qed.
End Sample.

Lemma built_code_typed_witness : sound_at (build (builder Sample.final)) (1, 1).
Proof.
  apply (built_code_typed Sample.calls Sample.final 0 0 (1, 1));
    [exact Sample.runs|exact Sample.ranged|exact Sample.done_|vm_compute; right; left|].
  apply rtc_once.
  apply (step_next (build (builder Sample.final)) 0 0 LoadLocal0 Operand.None 1 1); reflexivity.
Defined.

Lemma emitted_decodes_witness :
  decode (code_bytecode (build (builder Sample.final))) 4 = Ok (LoadConst, Operand.U16 7, 7)
  /\ exists r, decode (code_bytecode (build (builder Sample.final))) 1 = Ok (JumpIfFalse, Operand.Offset r, 4)
       /\ jump_to (code_bytecode (build (builder Sample.final))) 4 r = Ok 11.
Proof.
  split.
  - destruct (emitted_decodes (take 5 Sample.calls) (drop 6 Sample.calls) Sample.before
      (set_builder Sample.loaded Sample.before) Sample.final 0) as (He & _);
      [reflexivity|apply Sample.take_ranged|reflexivity|reflexivity|apply Sample.drop_ranged|].
    apply (He LoadConst (Operand.U16 7)); [reflexivity|cbn; unfold is_u16, u16_max; lia|discriminate].
  - destruct (emitted_decodes (take 4 Sample.calls) (drop 5 Sample.calls) Sample.tested Sample.before Sample.final 1)
      as (_ & _ & He); [reflexivity|apply Sample.take_ranged|reflexivity|reflexivity|apply Sample.drop_ranged|].
    destruct (He JumpIfFalse eq_refl) as (r & Hr & _ & Hl). exists r. split; [exact Hr|].
    apply (Hl (take 3 (drop 5 Sample.calls)) (drop 9 Sample.calls) Sample.unpatched); [reflexivity| |reflexivity].
    intros H. repeat (apply elem_of_cons in H as [H|H]; [discriminate H|]). by apply elem_of_nil in H.
Defined.

Lemma locations_found_witness :
  location_for_offset (build (builder Sample.final)) 6 = Some (mkLocationEntry 4 Sample.here None).
Proof.
  apply (locations_found (take 5 Sample.calls) (drop 6 Sample.calls) Sample.before LoadConst
    (Operand.U16 7) Sample.loaded 0 Sample.final Sample.here 6);
    first [reflexivity | apply Sample.take_ranged | apply Sample.drop_ranged | discriminate
          | vm_compute; easy].
Defined.

Lemma patched_jump_lands_witness :
  exists op r next,
    decode (code_bytecode (build (builder Sample.final))) 1 = Ok (op, Operand.Offset r, next) /\
    jump_to (code_bytecode (build (builder Sample.final))) next r = Ok 11.
Proof.
  apply (patched_jump_lands (take 8 Sample.calls) (drop 9 Sample.calls) Sample.unpatched
    Sample.repatched Sample.final 0 (mkLabel 1 0 Sample.here));
    first [reflexivity | apply Sample.take_ranged | apply Sample.drop_ranged | idtac].
  intros H. repeat (apply elem_of_cons in H as [H|H]; [discriminate H|]). by apply elem_of_nil in H.
Defined.

Lemma release_builds_same_witness : run false Sample.calls client_new = (Ok tt, Sample.final).
Proof. apply (release_builds_same Sample.calls client_new Sample.final). exact Sample.runs. Defined.
