(* ===== verification/Slice.v ===== *)
(** * Slices

    types/slice.rs: the indices a slice selects from a sequence of a given length,
    the bounds the searches of [str], [bytes], [list], [tuple] and [deque] take, and
    the evaluation of [s[start:stop:step]]. The values that are given as bounds are
    seen through [View], what the matches of the source see of them; [__index__]
    runs guest code and is a parameter. An iterator is the list of its items. *)
From S2P Require Import Prelude.

#[local] Open Scope Z_scope.
#[local] Open Scope monty_scope.

(** ** Machine integers *)

Definition in_i64 (n : Z) : Prop := i64_min <= n <= i64_max.

(** [i64::clamp], for bounds in order. *)
Definition clamp (n lower upper : Z) : Z := Z.min (Z.max n lower) upper.

(** [i64::saturating_add]. *)
Definition sat_add_i64 (x y : Z) : Z := clamp (x + y) i64_min i64_max.

(** [usize::try_from(n).unwrap_or(d)] of an [i64]. *)
Definition usize_or (d n : Z) : Z := if 0 <=? n then n else d.

(** [saturating_i64] of a big integer. *)
Definition saturating_i64 (n : Z) : Z := clamp n i64_min i64_max.

(** ** Indices *)

Record Slice : Type := mkSlice { start : option Z; stop : option Z; step : option Z }.

(** [normalize_index]. *)
Definition normalize_index (index length lower upper : Z) : Z :=
  let normalized := if index <? 0 then index + length else index in
  clamp normalized lower upper.

Inductive SliceError : Type := StepZero.

(** [Slice::indices]. *)
Definition indices (s : Slice) (length : Z) : result (Z * Z * Z) SliceError :=
  let step := default 1 (step s) in
  if step =? 0 then Err StepZero
  else
    let len := to_i64_sat length in
    if 0 <? step then
      Ok (from_option (fun i => normalize_index i len 0 len) 0 (start s),
          from_option (fun i => normalize_index i len 0 len) len (stop s), step)
    else
      Ok (from_option (fun i => normalize_index i len (-1) (len - 1)) (len - 1) (start s),
          from_option (fun i => normalize_index i len (-1) (len - 1)) (-1) (stop s), step).

(** [normalize_sequence_index]; [unsigned_abs] fits a [usize]. *)
Definition normalize_sequence_index (index len : Z) : Z :=
  if index <? 0 then sat_sub len (Z.abs index) else Z.min (usize_or len index) len.

(** ** Bounds given as values *)

(** What a match on a [Value] sees; [VLong] is an interned or allocated big integer. *)
Inductive View : Type := VNone | VInt (i : Z) | VBool (b : bool) | VLong (n : Z) | VOther.

Section Bounds.
Context {Value E : Type} (view : Value -> View) (py_index_impl : Value -> result (option Value) E)
  (type_error_slice_indices type_error_slice_indices_no_none : E).

(** The first three arms of [saturating_slice_index]. *)
Definition int_view (v : Value) : option Z :=
  match view v with
  | VInt i => Some i
  | VBool b => Some (if b then 1 else 0)
  | VLong n => Some (saturating_i64 n)
  | VNone | VOther => None
  end.

(** [saturating_slice_index]; [fuel] bounds its recursion, and [None] is running out. *)
Fixpoint saturating_slice_index (fuel : nat) (v : Value) : option (result (option Z) E) :=
  match int_view v with
  | Some i => Some (Ok (Some i))
  | None =>
      match py_index_impl v with
      | Err e => Some (Err e)
      | Ok None => Some (Ok None)
      | Ok (Some index) =>
          match fuel with
          | O => None
          | S fuel => saturating_slice_index fuel index
          end
      end
  end.

(** [value_to_option_i64]. *)
Definition value_to_option_i64 (fuel : nat) (v : Value) : option (result (option Z) E) :=
  match view v with
  | VNone => Some (Ok None)
  | _ => (fun r => let? o := r in match o with
                                  | Some index => Ok (Some index)
                                  | None => Err type_error_slice_indices
                                  end) <$> saturating_slice_index fuel v
  end.

(** [value_to_i64_bound]. *)
Definition value_to_i64_bound (fuel : nat) (v : Value) : option (result Z E) :=
  (fun r => let? o := r in ok_or o type_error_slice_indices_no_none)
    <$> saturating_slice_index fuel v.

(** [optional_sequence_bound]. *)
Definition optional_sequence_bound (fuel : nat) (v : Value) (d len : Z) : option (result Z E) :=
  (fun r => let? bound := r in Ok (from_option (fun i => normalize_sequence_index i len) d bound))
    <$> value_to_option_i64 fuel v.

(** [search_range]. *)
Definition search_start (fuel : nat) (v : option Value) (len : Z) : option (result Z E) :=
  match v with
  | None => Some (Ok 0)
  | Some v =>
      (fun r => let? o := r in
         let index := default 0 o in
         Ok (if index <? 0 then normalize_sequence_index index len else usize_or usize_max index))
        <$> value_to_option_i64 fuel v
  end.

Definition search_end (fuel : nat) (v : option Value) (len : Z) : option (result Z E) :=
  match v with
  | None => Some (Ok len)
  | Some v => optional_sequence_bound fuel v len len
  end.

Definition search_range (fuel : nat) (s e : option Value) (len : Z) :
    option (result (option (Z * Z)) E) :=
  match search_start fuel s len with
  | None => None
  | Some (Err x) => Some (Err x)
  | Some (Ok s) =>
      (fun r => let? e := r in Ok (if s <=? e then Some (s, e) else None))
        <$> search_end fuel e len
  end.
End Bounds.

(** ** Evaluating a slice *)

(** [Iterator::step_by]: the first item, then one after every [step - 1] others. *)
Fixpoint step_by {A} (step skip : Z) (l : list A) : list A :=
  match l with
  | [] => []
  | x :: l => if skip =? 0 then x :: step_by step (step - 1) l else step_by step (skip - 1) l
  end.

(** [.map(final_collect_op).collect()]: the check before each item may stop it. *)
Fixpoint collect {A U E} (check : Z -> result unit E) (f : A -> U) (i : Z) (l : list A) :
    result (list U) E :=
  match l with
  | [] => Ok []
  | x :: l => check i ;? let? us := collect check f (i + 1) l in Ok (f x :: us)
  end.

(** [Iterator::take] and [Iterator::skip] with a [usize]. *)
Definition itake {A} (n : Z) (l : list A) : list A := take (Z.to_nat n) l.
Definition iskip {A} (n : Z) (l : list A) : list A := drop (Z.to_nat n) l.

(** The items [slice_collect_iterator] selects; the [expect]s convert indices that
    are not negative. *)
Definition slice_items {A} (length start stop step : Z) (iter : list A) : list A :=
  if 0 <? step then step_by (usize_or usize_max step) 0 (iskip start (itake stop iter))
  else
    let step := Z.abs step in
    let normalized_start := sat_sub length (usize_or usize_max (sat_add_i64 start 1)) in
    let normalized_stop := sat_sub length (usize_or usize_max (sat_add_i64 stop 1)) in
    step_by step 0 (iskip normalized_start (itake normalized_stop (reverse iter))).

(** [slice_collect_iterator]; an error is the slice's or the check's. *)
Definition slice_collect_iterator {A U E} (check : Z -> result unit E) (on_slice : SliceError -> E)
    (s : Slice) (iter : list A) (collect_map : A -> U) : result (list U) E :=
  let length := zlen iter in
  let? (start, stop, step) := map_err on_slice (indices s length) in
  collect check collect_map 0 (slice_items length start stop step iter).

(** ** The language's definition

    A bound counts from the end when it is negative and is then cut to the sequence,
    an absent one is the end the step starts from or runs to; the items are those at
    [start], [start + step], and so on, as long as [stop] is not reached. *)
Module Python.
Definition adjust (step len : Z) (i : Z) : Z :=
  if i <? 0 then
    (if i + len <? 0 then (if step <? 0 then -1 else 0) else i + len)
  else if len <=? i then (if step <? 0 then len - 1 else len) else i.

Definition first (s : Slice) (len : Z) : Z :=
  let st := default 1 (step s) in
  from_option (adjust st len) (if st <? 0 then len - 1 else 0) (start s).

Definition limit (s : Slice) (len : Z) : Z :=
  let st := default 1 (step s) in
  from_option (adjust st len) (if st <? 0 then -1 else len) (stop s).

(** The [k]th item of [l[s]]. *)
Definition item {A} (s : Slice) (l : list A) (k : nat) : option A :=
  let st := default 1 (step s) in
  let i := first s (zlen l) + Z.of_nat k * st in
  if (if st <? 0 then limit s (zlen l) <? i else i <? limit s (zlen l))
  then l !! Z.to_nat i else None.
End Python.

Lemma normalize_adjust i len st :
  0 <= len -> st <> 0 ->
  normalize_index i len (if st <? 0 then -1 else 0) (if st <? 0 then len - 1 else len)
  = Python.adjust st len i.
Proof.
  intros Hl Hs. unfold normalize_index, Python.adjust, clamp.
  destruct (Z.ltb_spec i 0), (Z.ltb_spec st 0); repeat case_match; zbool; lia.
Qed.

(** [indices] computes the language's bounds. *)
Lemma indices_python s len :
  0 <= len <= i64_max -> default 1 (step s) <> 0 ->
  indices s len = Ok (Python.first s len, Python.limit s len, default 1 (step s)).
Proof.
  intros Hl Hs. unfold indices, Python.first, Python.limit, to_i64_sat.
  rewrite (proj2 (Z.leb_le len i64_max)) by lia. set (st := default 1 (step s)) in *.
  rewrite (proj2 (Z.eqb_neq st 0)) by done.
  pose proof (fun i => normalize_adjust i len st (proj1 Hl) Hs) as Hn.
  destruct (Z.ltb_spec 0 st), (Z.ltb_spec st 0); try lia;
    destruct (start s), (stop s); cbn; by rewrite ?Hn.
Qed.

Lemma adjust_range st len i :
  0 <= len -> (if st <? 0 then -1 <= Python.adjust st len i <= len - 1
               else 0 <= Python.adjust st len i <= len).
Proof.
  intros Hl. unfold Python.adjust. destruct (st <? 0); repeat case_match; zbool; lia.
Qed.

Lemma bounds_range s len :
  0 <= len ->
  if default 1 (step s) <? 0
  then -1 <= Python.first s len <= len - 1 /\ -1 <= Python.limit s len <= len - 1
  else 0 <= Python.first s len <= len /\ 0 <= Python.limit s len <= len.
Proof.
  intros Hl. unfold Python.first, Python.limit.
  pose proof (fun i => adjust_range (default 1 (step s)) len i Hl) as Ha.
  destruct (default 1 (step s) <? 0), (start s), (stop s); cbn; auto with lia.
Qed.

Lemma step_by_lookup {A} (l : list A) st : forall skip k,
  0 < st -> 0 <= skip -> step_by st skip l !! k = l !! Z.to_nat (skip + Z.of_nat k * st).
Proof.
  induction l as [|x l IH]; intros skip k Hs Hk; cbn [step_by]; [by rewrite !lookup_nil|].
  destruct (Z.eqb_spec skip 0) as [->|Hne].
  - destruct k as [|k]; [done|]. cbn [lookup list_lookup]. rewrite IH by lia.
    replace (Z.to_nat (0 + Z.of_nat (S k) * st)) with (S (Z.to_nat (st - 1 + Z.of_nat k * st))) by nia.
    done.
  - rewrite IH by lia.
    replace (Z.to_nat (skip + Z.of_nat k * st)) with (S (Z.to_nat (skip - 1 + Z.of_nat k * st))) by nia.
    done.
Qed.

Lemma window_lookup {A} (l : list A) a b i :
  0 <= a -> 0 <= i ->
  iskip a (itake b l) !! Z.to_nat i = if a + i <? b then l !! Z.to_nat (a + i) else None.
Proof.
  intros Ha Hi. unfold iskip, itake. rewrite lookup_drop.
  replace (Z.to_nat a + Z.to_nat i)%nat with (Z.to_nat (a + i)) by lia.
  destruct (Z.ltb_spec (a + i) b).
  - apply lookup_take_lt. lia.
  - apply lookup_take_ge. lia.
Qed.

Lemma reverse_lookup_z {A} (l : list A) i :
  0 <= i < zlen l -> reverse l !! Z.to_nat i = l !! Z.to_nat (zlen l - 1 - i).
Proof.
  unfold zlen. intros Hi. rewrite reverse_lookup by lia. f_equal. lia.
Qed.

(** The selected items are those of the language. *)
Lemma slice_items_python {A} s (l : list A) k :
  zlen l <= i64_max -> default 1 (step s) <> 0 ->
  slice_items (zlen l) (Python.first s (zlen l)) (Python.limit s (zlen l)) (default 1 (step s)) l !! k
  = Python.item s l k.
Proof.
  intros Hl Hs. pose proof (zlen_nonneg l) as Hp. pose proof (bounds_range s (zlen l) Hp) as Hb.
  unfold slice_items, Python.item. set (st := default 1 (step s)) in *.
  set (a := Python.first s (zlen l)) in *. set (b := Python.limit s (zlen l)) in *.
  destruct (Z.ltb_spec st 0), (Z.ltb_spec 0 st); try lia.
  - assert (forall x, -1 <= x <= zlen l - 1 ->
      sat_sub (zlen l) (usize_or usize_max (sat_add_i64 x 1)) = zlen l - 1 - x) as Hn.
    { intros x Hx. unfold sat_sub, usize_or, sat_add_i64, clamp, i64_min, i64_max in *.
      destruct (Z.leb_spec 0 (Z.min (Z.max (x + 1) (-9223372036854775808)) 9223372036854775807)); lia. }
    rewrite !Hn by lia. rewrite step_by_lookup by lia. rewrite Z.add_0_l, window_lookup by nia.
    replace (Z.abs st) with (- st) by lia.
    destruct (Z.ltb_spec (zlen l - 1 - a + Z.of_nat k * - st) (zlen l - 1 - b)) as [Hc|Hc];
      destruct (Z.ltb_spec b (a + Z.of_nat k * st)) as [Hd|Hd]; try lia; [|done].
    rewrite reverse_lookup_z by nia. f_equal. lia.
  - unfold usize_or. rewrite (proj2 (Z.leb_le 0 st)) by lia. rewrite step_by_lookup by lia.
    by rewrite Z.add_0_l, window_lookup by nia.
Qed.

Lemma step_by_length {A} st (l : list A) : forall skip, (length (step_by st skip l) <= length l)%nat.
Proof.
  induction l as [|x l IH]; intros skip; cbn [step_by]; [done|].
  destruct (skip =? 0); cbn; [specialize (IH (st - 1))|specialize (IH (skip - 1))]; lia.
Qed.

Lemma slice_items_length {A} n a b st (l : list A) : zlen (slice_items n a b st l) <= zlen l.
Proof.
  unfold slice_items, zlen, iskip, itake. destruct (0 <? st);
    apply inj_le; (etrans; [apply step_by_length|]);
    rewrite length_drop, length_take, ?length_reverse; lia.
Qed.

Lemma collect_Ok_inv {A U E} (check : Z -> result unit E) (f : A -> U) l us : forall i,
  collect check f i l = Ok us -> us = f <$> l.
Proof.
  revert us. induction l as [|x l IH]; intros us i H; cbn [collect] in H; [by injection H as <-|].
  inv_binds H. injection H as <-. by rewrite (IH _ _ Hm0).
Qed.

Lemma collect_Ok {A U E} (check : Z -> result unit E) (f : A -> U) l : forall i,
  (forall j, i <= j < i + zlen l -> check j = Ok tt) -> collect check f i l = Ok (f <$> l).
Proof.
  induction l as [|x l IH]; intros i Hc; cbn [collect]; [done|].
  assert (zlen (x :: l) = zlen l + 1) as E0 by (unfold zlen; cbn; lia). pose proof (zlen_nonneg l).
  rewrite Hc by lia. cbn [rbind]. rewrite IH; [done|]. intros j Hj. apply Hc. lia.
Qed.

Lemma collect_Err {A U E} (check : Z -> result unit E) (f : A -> U) l e : forall i,
  collect check f i l = Err e -> exists j, i <= j < i + zlen l /\ check j = Err e.
Proof.
  induction l as [|x l IH]; intros i H; cbn [collect] in H; [done|].
  assert (zlen (x :: l) = zlen l + 1) as E0 by (unfold zlen; cbn; lia). pose proof (zlen_nonneg l).
  destruct (check i) as [[]|e'] eqn:Ec; cbn [rbind] in H.
  - destruct (collect check f (i + 1) l) as [us|e'] eqn:El; cbn [rbind] in H; [done|].
    injection H as ->. destruct (IH _ El) as (j & Hj & Ej). exists j. split; [lia|done].
  - injection H as ->. exists i. split; [lia|done].
Qed.

(** C24: slicing selects the items the language says. For any sequence that fits the
    address space, a slice with a step other than zero yields, mapped and in order,
    the items of the language's definition when the time checks pass, and the error
    of a failing check otherwise; a zero step is refused. *)
Theorem slice_collect_correct {A U E} (check : Z -> result unit E) on_slice s (l : list A) (f : A -> U) :
  zlen l <= i64_max ->
  match slice_collect_iterator check on_slice s l f with
  | Ok us => default 1 (step s) <> 0 /\ forall k, us !! k = f <$> Python.item s l k
  | Err e => (default 1 (step s) = 0 /\ e = on_slice StepZero) \/ exists j, 0 <= j < zlen l /\ check j = Err e
  end.
Proof.
  intros Hl. pose proof (zlen_nonneg l). unfold slice_collect_iterator.
  destruct (decide (default 1 (step s) = 0)) as [Hz|Hz].
  { unfold indices. rewrite Hz. cbn. by left. }
  rewrite indices_python by (done || lia). cbn [map_err rbind].
  set (items := slice_items _ _ _ _ l).
  assert (forall k, items !! k = Python.item s l k) as Hi by (intros; by apply slice_items_python).
  assert (zlen items <= zlen l) as Hlen by apply slice_items_length.
  destruct (collect check f 0 items) as [us|e] eqn:Ec.
  - split; [done|]. apply collect_Ok_inv in Ec as ->. intros k. by rewrite list_lookup_fmap, Hi.
  - right. apply collect_Err in Ec as (j & Hj & Ej). exists j. split; [lia|done].
Qed.

(** ** Bounds *)

(** [normalize_sequence_index] counts from the end and cuts to the sequence. *)
Lemma normalize_sequence_index_clamps i len :
  0 <= len <= usize_max -> in_i64 i ->
  normalize_sequence_index i len = clamp (if i <? 0 then i + len else i) 0 len.
Proof.
  unfold normalize_sequence_index, clamp, sat_sub, usize_or, in_i64, i64_max, i64_min. intros Hl Hi.
  destruct (Z.ltb_spec i 0); [lia|]. rewrite (proj2 (Z.leb_le 0 i)) by lia. lia.
Qed.

Section BoundFacts.
Context {Value E : Type} (view : Value -> View) (py_index_impl : Value -> result (option Value) E)
  (te te' : E).

(** [__index__] returns integers only, as the interpreter validates. *)
Hypothesis index_int : forall v w, py_index_impl v = Ok (Some w) -> int_view view w <> None.

(** An integer is what the machine type says it is. *)
Hypothesis view_int : forall v i, view v = VInt i -> in_i64 i.

(** The recursion goes one level deep, so one unit of fuel decides it, and the index it
    finds is an [i64]. *)
Lemma saturating_slice_index_once v fuel :
  saturating_slice_index view py_index_impl (S fuel) v = saturating_slice_index view py_index_impl 1 v /\
  match saturating_slice_index view py_index_impl 1 v with
  | Some (Ok (Some i)) => in_i64 i
  | Some _ => True
  | None => False
  end.
Proof.
  assert (forall w i, int_view view w = Some i -> in_i64 i) as Hv.
  { intros w i. unfold int_view. destruct (view w) eqn:Ev; try done; intros [= <-].
    - by eapply view_int.
    - destruct b; unfold in_i64, i64_min, i64_max; lia.
    - unfold in_i64, saturating_i64, clamp, i64_min, i64_max. lia. }
  cbn [saturating_slice_index]. destruct (int_view view v) as [i|] eqn:Ei; [by eauto|].
  destruct (py_index_impl v) as [[w|]|e] eqn:Ep; [|done..].
  apply index_int in Ep. destruct fuel; cbn [saturating_slice_index];
    destruct (int_view view w) as [i|] eqn:Ew; try done; by eauto.
Qed.

(** A search range is within the sequence, except for a start past its end. *)
Lemma search_range_bounds s e len r :
  0 <= len <= i64_max ->
  search_range view py_index_impl te 1 s e len = Some (Ok (Some r)) ->
  0 <= r.1 <= r.2 /\ r.2 <= len.
Proof.
  intros Hl H. unfold search_range in H.
  destruct (search_start view py_index_impl te 1 s len) as [[a|]|] eqn:Es; try done.
  destruct (search_end view py_index_impl te 1 e len) as [[b|]|] eqn:Ee; try done.
  cbn in H. destruct (Z.leb_spec a b); [|done]. injection H as <-. cbn.
  assert (forall i, 0 <= normalize_sequence_index i len <= len) as Hn.
  { intros i. unfold normalize_sequence_index, sat_sub, usize_or.
    destruct (Z.ltb_spec i 0); [lia|]. rewrite (proj2 (Z.leb_le 0 i)) by lia. lia. }
  assert (0 <= a).
  { unfold search_start in Es. destruct s as [v|]; [|by injection Es as <-].
    destruct (value_to_option_i64 _ _ _ _ v) as [[o|]|]; try done. cbn in Es. injection Es as <-.
    unfold usize_or. destruct (Z.ltb_spec (default 0 o) 0); [apply Hn|].
    rewrite (proj2 (Z.leb_le _ _)) by lia. lia. }
  split; [lia|]. unfold search_end, optional_sequence_bound in Ee.
  destruct e as [v|]; [|by injection Ee as <-].
  destruct (value_to_option_i64 _ _ _ _ v) as [[[o|]|]|]; try done; cbn in Ee; injection Ee as <-.
  - apply Hn.
  - lia.
Qed.
End BoundFacts.

Lemma slice_collect_correct_witness :
  match slice_collect_iterator (fun _ => Ok tt) (fun e => e) (mkSlice (Some (-2)) None (Some (-3)))
          [10; 11; 12; 13; 14; 15] (fun x => x) with
  | Ok us => us = [14; 11] /\ us !! 1%nat = Some 11
  | Err _ => False
  end.
Proof.
  pose proof (slice_collect_correct (fun _ => Ok tt) (fun e => e) (mkSlice (Some (-2)) None (Some (-3)))
    [10; 11; 12; 13; 14; 15] (fun x => x) ltac:(vm_compute; discriminate)) as H.
  destruct (slice_collect_iterator _ _ _ _ _) as [us|e] eqn:E; [|vm_compute in E; discriminate E].
  split; [vm_compute in E; by injection E as <-|].
  destruct H as [_ H]. rewrite (H 1%nat). vm_compute. reflexivity.
Defined.
