(* ===== verification/Range.v ===== *)
(** * Ranges

    types/range.rs: ranges as the sequences they stand for. The fields are [i64]s;
    what the source computes in [i128] is computed in [Z], and [slice_fits_i128] shows
    that the wider type is wide enough. [div_ceil] is the num_integer crate's. *)
From S2P Require Import Prelude Slice.

#[local] Open Scope Z_scope.
#[local] Open Scope monty_scope.

(** [num_integer::div_ceil]: integer division rounded up. *)
Class NumInteger : Type := div_ceil : Z -> Z -> Z.

Class NumIntegerLaws `{NumInteger} : Prop := div_ceil_spec :
  forall a b, b <> 0 ->
    (0 < b -> (div_ceil a b - 1) * b < a <= div_ceil a b * b) /\
    (b < 0 -> div_ceil a b * b <= a < (div_ceil a b - 1) * b).

Record Range : Type := mkRange { r_start : Z; r_stop : Z; r_step : Z }.

Inductive RangeError : Type :=
| RangeStepZero | SliceStepZero | RangeIndexError | OverflowSsize.

(** [Range::from_stop] and [Range::from_start_stop]; [Default::default] is the empty
    range. *)
Definition from_stop (stop : Z) : Range := mkRange 0 stop 1.
Definition from_start_stop (start stop : Z) : Range := mkRange start stop 1.

(** [Range::init], for arguments already converted to [i64]. *)
Inductive InitArgs : Type := InitStop (stop : Z) | InitStartStop (start stop : Z)
| InitAll (start stop step : Z).

Definition init (args : InitArgs) : result Range RangeError :=
  match args with
  | InitStop stop => Ok (from_stop stop)
  | InitStartStop start stop => Ok (from_start_stop start stop)
  | InitAll start stop step =>
      if step =? 0 then Err RangeStepZero else Ok (mkRange start stop step)
  end.

(** [Range::contains]. *)
Definition contains (r : Range) (n : Z) : bool :=
  let in_bounds := if 0 <? r_step r then (r_start r <=? n) && (n <? r_stop r)
                   else (n <=? r_start r) && (r_stop r <? n) in
  if negb in_bounds then false else Z.rem (n - r_start r) (r_step r) =? 0.

(** [i64::try_from(n).map_err(|_| ExcType::overflow_c_ssize_t())]. *)
Definition i64_try (n : Z) : result Z RangeError :=
  if (i64_min <=? n) && (n <=? i64_max) then Ok n else Err OverflowSsize.

(** The iterator. *)
Record RangeIterator : Type := mkIter { it_next : Z; it_step : Z; remaining : Z }.

(** [py_next]: the value and the iterator after it, or the panic of an [i64]
    addition that overflows. *)
Definition py_next (it : RangeIterator) : option (option Z * RangeIterator) :=
  if remaining it =? 0 then Some (None, it)
  else
    let left := remaining it - 1 in
    if 0 <? left then
      let next := it_next it + it_step it in
      if (i64_min <=? next) && (next <=? i64_max)
      then Some (Some (it_next it), mkIter next (it_step it) left)
      else None
    else Some (Some (it_next it), mkIter (it_next it) (it_step it) left).

Section Ranges.
Context `{NumInteger}.

(** [Range::len_i128] and [Range::len]. *)
Definition len_i128 (r : Range) : Z := Z.max (div_ceil (r_stop r - r_start r) (r_step r)) 0.
Definition len (r : Range) : Z := Z.min (len_i128 r) usize_max.

(** [Range::is_empty]; [py_bool] is its negation. *)
Definition is_empty (r : Range) : bool := len r =? 0.

(** [RangeIterator::allocate]. *)
Definition iter_of (r : Range) : RangeIterator := mkIter (r_start r) (r_step r) (len r).

(** [py_getitem] with an index. *)
Definition getitem (r : Range) (index : Z) : result Z RangeError :=
  let n := len_i128 r in
  let normalized := if index <? 0 then index + n else index in
  if (normalized <? 0) || (n <=? normalized) then Err RangeIndexError
  else i64_try (r_start r + normalized * r_step r).

(** [Range::getitem_slice]. *)
Definition getitem_slice (r : Range) (s : Slice) : result Range RangeError :=
  let range_len := len r in
  let? (start, stop, step) := map_err (fun _ => SliceStepZero) (indices s range_len) in
  let new_step := r_step r * step in
  let new_start := r_start r + start * r_step r in
  let num_elements := div_ceil (stop - start) step in
  let new_stop := new_start + num_elements * new_step in
  let? new_step := i64_try new_step in
  let? new_start := i64_try new_start in
  let? new_stop := i64_try new_stop in
  Ok (mkRange new_start new_stop new_step).

(** [py_eq_impl] of two ranges. *)
Definition py_eq (a b : Range) : bool :=
  if negb (len a =? len b) then false
  else if len a =? 0 then true
  else if len a =? 1 then r_start a =? r_start b
  else (r_start a =? r_start b) && (r_step a =? r_step b).

(** What [py_hash] feeds to the hasher, in order. *)
Definition hashed (r : Range) : list Z :=
  len r :: (if 0 <? len r then
              r_start r :: (if 1 <? len r then [r_step r] else [])
            else []).

(** ** The sequence of a range *)

Definition wf_range (r : Range) : Prop :=
  in_i64 (r_start r) /\ in_i64 (r_stop r) /\ in_i64 (r_step r) /\ r_step r <> 0.

(** The [k]th element. *)
Definition element (r : Range) (k : Z) : option Z :=
  if (0 <=? k) && (k <? len_i128 r) then Some (r_start r + k * r_step r) else None.

Context `{!NumIntegerLaws}.

Lemma div_ceil_unique a b q :
  b <> 0 -> (0 < b -> (q - 1) * b < a <= q * b) -> (b < 0 -> q * b <= a < (q - 1) * b) ->
  div_ceil a b = q.
Proof.
  intros Hb H1 H2. destruct (div_ceil_spec a b Hb) as [D1 D2].
  destruct (Z.lt_total b 0) as [Hn|[?|Hp]]; [|lia|].
  - specialize (H2 Hn). specialize (D2 Hn). nia.
  - specialize (H1 Hp). specialize (D1 Hp). nia.
Qed.

(** [k] is below the length when its element has not reached the stop. *)
Lemma below_len r k :
  r_step r <> 0 -> 0 <= k ->
  k < len_i128 r <-> (if 0 <? r_step r then r_start r + k * r_step r < r_stop r
                      else r_stop r < r_start r + k * r_step r).
Proof.
  intros Hs Hk. unfold len_i128. destruct (div_ceil_spec (r_stop r - r_start r) (r_step r) Hs) as [D1 D2].
  set (q := div_ceil _ _) in *. destruct (Z.ltb_spec 0 (r_step r)).
  - specialize (D1 ltac:(lia)). nia.
  - specialize (D2 ltac:(lia)). nia.
Qed.

Lemma len_bound r : wf_range r -> 0 <= len_i128 r <= usize_max.
Proof.
  intros (H1 & H2 & H3 & Hs). split; [unfold len_i128; lia|].
  destruct (Z.leb_spec (len_i128 r) usize_max); [done|].
  assert (usize_max < len_i128 r) as Hl by lia.
  apply below_len in Hl; [|done|unfold usize_max, u64_max; lia].
  unfold in_i64, i64_min, i64_max, usize_max, u64_max in *.
  destruct (Z.ltb_spec 0 (r_step r)); nia.
Qed.

Lemma len_exact r : wf_range r -> len r = len_i128 r.
Proof. intros Hr. pose proof (len_bound r Hr). unfold len. lia. Qed.

(** Elements are [i64]s, between the start and the stop. *)
Lemma element_range r k v : wf_range r -> element r k = Some v -> in_i64 v.
Proof.
  intros (H1 & H2 & H3 & Hs) He. unfold element in He.
  destruct ((0 <=? k) && _) eqn:Eb; [|done]. injection He as <-. zbool.
  apply below_len in H5; [|done..]. unfold in_i64 in *.
  destruct (Z.ltb_spec 0 (r_step r)); nia.
Qed.

Lemma contains_element r n :
  wf_range r -> contains r n = true <-> exists k, element r k = Some n.
Proof.
  intros (H1 & H2 & H3 & Hs). unfold contains, element. split.
  - intros Hc. destruct (if 0 <? _ then _ else _) eqn:Eb; [|done]. cbn in Hc. zbool.
    apply Z.rem_divide in Hc as [k Hk]; [|done]. exists k.
    assert (0 <= k) by (destruct (Z.ltb_spec 0 (r_step r)); zbool; nia).
    assert (k < len_i128 r) as Hl.
    { apply below_len; [done..|]. rewrite <- Hk. destruct (0 <? r_step r); zbool; lia. }
    rewrite (proj2 (Z.leb_le 0 k)), (proj2 (Z.ltb_lt _ _)) by done. cbn. f_equal. lia.
  - intros [k Hk]. destruct ((0 <=? k) && _) eqn:Eb; [|done]. injection Hk as <-. zbool.
    pose proof H4 as Hl. apply below_len in H5; [|done..].
    assert ((if 0 <? r_step r
             then (r_start r <=? r_start r + k * r_step r) && (r_start r + k * r_step r <? r_stop r)
             else (r_start r + k * r_step r <=? r_start r) && (r_stop r <? r_start r + k * r_step r)) = true) as ->.
    { destruct (Z.ltb_spec 0 (r_step r)); apply andb_true_iff; rewrite Z.leb_le, Z.ltb_lt; nia. }
    cbn. replace (r_start r + k * r_step r - r_start r) with (k * r_step r) by lia.
    by rewrite Z.rem_mul.
Qed.

Lemma i64_try_Ok n m : i64_try n = Ok m <-> m = n /\ in_i64 n.
Proof.
  unfold i64_try, in_i64. destruct (_ && _) eqn:Eb; zbool.
  - split; [intros [= <-]; lia|]. by intros [-> _].
  - split; [done|]. intros [-> Hn]. apply andb_false_iff in Eb as [?|?]; zbool; lia.
Qed.

(** Indexing returns the element counted from the start or, below zero, the end, and
    never overflows. *)
Lemma getitem_element r i :
  wf_range r ->
  getitem r i = ok_or (element r (if i <? 0 then i + len_i128 r else i)) RangeIndexError.
Proof.
  intros Hr. unfold getitem. set (k := if i <? 0 then _ else _).
  destruct (element r k) as [v|] eqn:He; cbn.
  - pose proof (element_range _ _ _ Hr He) as Hv. unfold element in He.
    destruct ((0 <=? k) && _) eqn:Eb; [|done]. injection He as <-. zbool.
    rewrite (proj2 (Z.ltb_ge k 0)), (proj2 (Z.leb_gt _ k)) by lia. cbn. by apply i64_try_Ok.
  - unfold element in He. destruct ((0 <=? k) && _) eqn:Eb; [done|].
    apply andb_false_iff in Eb as [Eb|Eb]; zbool; [by rewrite (proj2 (Z.ltb_lt k 0))|].
    rewrite (proj2 (Z.leb_le _ k)) by lia. by rewrite orb_true_r.
Qed.

Lemma element_Some r k : 0 <= k < len_i128 r -> element r k = Some (r_start r + k * r_step r).
Proof. intros Hk. unfold element. by rewrite (proj2 (Z.leb_le 0 k)), (proj2 (Z.ltb_lt _ _)) by lia. Qed.

Lemma element_None r k : len_i128 r <= k -> element r k = None.
Proof. intros Hk. unfold element. by rewrite (proj2 (Z.ltb_ge k _)), andb_false_r by lia. Qed.

Lemma same_elements_len a b :
  (forall k, element a k = element b k) -> len_i128 a = len_i128 b.
Proof.
  assert (forall a b, (forall k, element a k = element b k) -> len_i128 b <= len_i128 a) as Hle.
  { intros x y He. destruct (Z.leb_spec (len_i128 y) (len_i128 x)); [done|].
    pose proof (element_None x (len_i128 x) ltac:(lia)) as Hn.
    rewrite He, element_Some in Hn; [done|]. unfold len_i128 in *. lia. }
  intros He. pose proof (Hle a b He). pose proof (Hle b a (fun k => eq_sym (He k))). lia.
Qed.

(** Equality of ranges is equality of their sequences, and equal ranges hash alike. *)
Lemma py_eq_elements a b :
  wf_range a -> wf_range b -> py_eq a b = true <-> forall k, element a k = element b k.
Proof.
  intros Ha Hb. unfold py_eq. rewrite !len_exact by done. pose proof (len_bound a Ha).
  split.
  - destruct (Z.eqb_spec (len_i128 a) (len_i128 b)) as [El|]; [|done]. cbn. intros He k.
    unfold element. rewrite <- El. destruct ((0 <=? k) && _) eqn:Ek; [|done]. zbool. f_equal.
    destruct (Z.eqb_spec (len_i128 a) 0); [lia|]. destruct (Z.eqb_spec (len_i128 a) 1); zbool.
    + replace k with 0 by lia. lia.
    + congruence.
  - intros He. pose proof (same_elements_len a b He) as El. rewrite El, Z.eqb_refl. cbn.
    destruct (Z.eqb_spec (len_i128 b) 0) as [|Hz]; [done|].
    pose proof (He 0) as Hz0. rewrite !element_Some in Hz0 by lia. injection Hz0 as Hz0.
    destruct (Z.eqb_spec (len_i128 b) 1); [apply Z.eqb_eq; lia|].
    pose proof (He 1) as Hz1. rewrite !element_Some in Hz1 by lia. injection Hz1 as Hz1.
    apply andb_true_iff. rewrite !Z.eqb_eq. lia.
Qed.

Lemma py_eq_hashed a b : py_eq a b = true -> hashed a = hashed b.
Proof.
  unfold py_eq, hashed. destruct (Z.eqb_spec (len a) (len b)) as [->|]; [|done]. cbn.
  destruct (Z.eqb_spec (len b) 0) as [->|]; [done|]. destruct (Z.eqb_spec (len b) 1) as [->|].
  - intros ->%Z.eqb_eq. done.
  - intros [->%Z.eqb_eq ->%Z.eqb_eq]%andb_true_iff. done.
Qed.

(** ** Iteration *)

(** The first [n] values of an iterator. *)
Fixpoint drain (n : nat) (it : RangeIterator) : option (list Z) :=
  match n with
  | O => Some []
  | S n =>
      match py_next it with
      | None => None
      | Some (None, _) => Some []
      | Some (Some v, it) => cons v <$> drain n it
      end
  end.

Lemma drain_elements r n : forall k,
  wf_range r -> 0 <= k <= len_i128 r ->
  exists l, drain n (mkIter (r_start r + Z.min k (Z.max 0 (len_i128 r - 1)) * r_step r) (r_step r)
                       (len_i128 r - k)) = Some l /\
    forall j, l !! j = if (j <? n)%nat then element r (k + Z.of_nat j) else None.
Proof.
  induction n as [|n IH]; intros k Hr Hk; [by exists []|]. cbn [drain]. unfold py_next. cbn [remaining it_next it_step].
  destruct (Z.eqb_spec (len_i128 r - k) 0) as [Hz|Hz].
  { exists []. split; [done|]. intros j. rewrite lookup_nil, element_None by lia. by destruct (_ <? _)%nat. }
  rewrite (Z.min_l k) by lia. rewrite (Z.max_r 0) in IH by lia.
  pose proof (element_Some r k ltac:(lia)) as Hv.
  assert (exists l, drain n (if 0 <? len_i128 r - k - 1
      then mkIter (r_start r + k * r_step r + r_step r) (r_step r) (len_i128 r - k - 1)
      else mkIter (r_start r + k * r_step r) (r_step r) (len_i128 r - k - 1)) = Some l /\
    forall j, l !! j = if (j <? n)%nat then element r (k + 1 + Z.of_nat j) else None) as (l & Hl & Hj).
  { destruct (IH (k + 1) Hr ltac:(lia)) as (l & Hl & Hj). exists l. split; [|done]. rewrite <- Hl.
    destruct (Z.ltb_spec 0 (len_i128 r - k - 1)); f_equal; f_equal; try lia;
      [rewrite (Z.min_l (k + 1)) by lia|rewrite (Z.min_r (k + 1)) by lia; replace (len_i128 r - 1) with k by lia]; lia. }
  exists (r_start r + k * r_step r :: l). split.
  - destruct (Z.ltb_spec 0 (len_i128 r - k - 1)) as [Hn|Hn]; [|by rewrite Hl].
    pose proof (element_range r (k + 1) _ Hr (element_Some r (k + 1) ltac:(lia))) as Hi.
    unfold in_i64 in Hi.
    rewrite (proj2 (Z.leb_le i64_min _)), (proj2 (Z.leb_le _ i64_max)) by lia. cbn. by rewrite Hl.
  - intros [|j]; cbn [lookup list_lookup]; [by rewrite Z.add_0_r|].
    rewrite Hj. change (S j <? S n)%nat with (j <? n)%nat.
    by replace (k + Z.of_nat (S j)) with (k + 1 + Z.of_nat j) by lia.
Qed.

(** ** Slices of ranges *)

Lemma len_of_slice start stop st :
  st <> 0 -> forall k, 0 <= k ->
  (if 0 <? st then start + k * st < stop else stop < start + k * st) <->
  k < div_ceil (stop - start) st.
Proof.
  intros Hs k Hk. destruct (div_ceil_spec (stop - start) st Hs) as [D1 D2].
  destruct (Z.ltb_spec 0 st); [specialize (D1 ltac:(lia))|specialize (D2 ltac:(lia))]; nia.
Qed.

(** A range whose stop is a whole number of steps from its start has that length. *)
Lemma len_whole start st n :
  st <> 0 -> len_i128 (mkRange start (start + n * st) st) = Z.max n 0.
Proof.
  intros Hs. unfold len_i128. cbn. f_equal. apply div_ceil_unique; [done|nia|nia].
Qed.

Lemma getitem_slice_element r s r' k :
  wf_range r -> len_i128 r <= i64_max -> getitem_slice r s = Ok r' -> 0 <= k ->
  let st := default 1 (step s) in
  let i := Python.first s (len_i128 r) + k * st in
  element r' k =
  if (if st <? 0 then Python.limit s (len_i128 r) <? i else i <? Python.limit s (len_i128 r))
  then element r i else None.
Proof.
  intros Hr Hlen Hg Hk st i. pose proof (len_bound r Hr) as Hb.
  unfold getitem_slice in Hg. rewrite len_exact in Hg by done.
  destruct (decide (st = 0)) as [Hz|Hz].
  { unfold indices in Hg. fold st in Hg. by rewrite Hz in Hg. }
  rewrite indices_python in Hg by (done || lia). cbn [map_err rbind] in Hg. fold st in Hg.
  pose proof (bounds_range s (len_i128 r) (proj1 Hb)) as Hbr. fold st in Hbr. unfold i.
  set (a := Python.first s (len_i128 r)) in *. set (b := Python.limit s (len_i128 r)) in *.
  inv_binds Hg. injection Hg as <-.
  apply i64_try_Ok in Hm as [-> _], Hm0 as [-> _], Hm1 as [-> _].
  destruct Hr as (_ & _ & _ & Hs). assert (r_step r * st <> 0) as Hst by nia.
  pose proof (len_of_slice a b st Hz k Hk) as Hin.
  unfold element at 1. rewrite len_whole by done. cbn [r_start r_step].
  rewrite (proj2 (Z.leb_le 0 k)) by done. cbn.
  destruct (Z.ltb_spec st 0), (Z.ltb_spec 0 st); try lia.
  - destruct (Z.ltb_spec b (a + k * st)); destruct (Z.ltb_spec k (Z.max (div_ceil (b - a) st) 0)); try lia; [|done].
    rewrite element_Some by nia. f_equal. lia.
  - destruct (Z.ltb_spec (a + k * st) b); destruct (Z.ltb_spec k (Z.max (div_ceil (b - a) st) 0)); try lia; [|done].
    rewrite element_Some by nia. f_equal. lia.
Qed.

Lemma i64_try_Err n e : i64_try n = Err e -> e = OverflowSsize /\ ~ in_i64 n.
Proof.
  intros Hn. split.
  - unfold i64_try in Hn. destruct (_ && _); [done|by injection Hn].
  - intros Hi. destruct (i64_try_Ok n n) as [_ Hk]. by rewrite Hk in Hn.
Qed.

(** ** The width of the computation *)

Lemma len_span r : wf_range r -> (len_i128 r - 1) * Z.abs (r_step r) <= u64_max.
Proof.
  intros Hr. pose proof (len_bound r Hr). destruct Hr as (R1 & R2 & R3 & Hs).
  destruct (Z.leb_spec (len_i128 r) 0); [unfold u64_max; nia|].
  assert (len_i128 r - 1 < len_i128 r) as Hl by lia. apply below_len in Hl; [|done|lia].
  unfold in_i64, i64_min, i64_max, u64_max in *. destruct (Z.ltb_spec 0 (r_step r)).
  - rewrite Z.abs_eq by lia. lia.
  - rewrite Z.abs_neq by lia. lia.
Qed.

(** Every intermediate value of [getitem_slice] fits an [i128]. *)
Lemma slice_fits_i128 r s a b st :
  wf_range r -> in_i64 st -> st <> 0 -> indices s (len r) = Ok (a, b, st) ->
  let num := div_ceil (b - a) st in
  Z.abs (r_step r * st) < 2 ^ 127 /\ Z.abs (r_start r + a * r_step r) < 2 ^ 127 /\
  Z.abs (num * (r_step r * st)) < 2 ^ 127 /\
  Z.abs (r_start r + a * r_step r + num * (r_step r * st)) < 2 ^ 127.
Proof.
  intros Hr Hst Hz Hi num. pose proof (len_span r Hr) as Hspan. pose proof (len_bound r Hr) as Hb.
  rewrite len_exact in Hi by done.
  assert (-1 <= a <= len_i128 r /\ -1 <= b <= len_i128 r) as [Ha Hb'].
  { unfold indices in Hi. destruct (_ =? 0); [done|].
    assert (0 <= to_i64_sat (len_i128 r) <= len_i128 r) as Ht.
    { unfold to_i64_sat. destruct (Z.leb_spec (len_i128 r) i64_max); unfold i64_max in *; lia. }
    set (L := to_i64_sat (len_i128 r)) in *.
    assert (forall o lo hi d, -1 <= lo <= hi -> hi <= L -> -1 <= d <= L ->
      -1 <= from_option (fun i => normalize_index i L lo hi) d o <= L) as Hn.
    { intros [i|] lo hi d Hlo Hhi Hd; cbn; [|lia]. unfold normalize_index, clamp. lia. }
    destruct (0 <? _); injection Hi as <- <- _; split;
      (etrans; [apply Hn; lia|lia] || (split; [apply Hn; lia|etrans; [apply Hn; lia|lia]])). }
  destruct Hr as (R1 & R2 & R3 & Hs).
  assert (Z.abs (r_step r) <= 2 ^ 63 /\ Z.abs st <= 2 ^ 63 /\ Z.abs (r_start r) <= 2 ^ 63) as (B1 & B2 & B3).
  { unfold in_i64, i64_min, i64_max in *. lia. }
  assert (forall x, -1 <= x <= len_i128 r -> Z.abs (x * r_step r) <= 2 ^ 65) as Bx.
  { intros x Hx. rewrite Z.abs_mul. unfold u64_max in Hspan. nia. }
  assert (Z.abs (num * st - (b - a)) <= 2 ^ 63) as Bn.
  { destruct (div_ceil_spec (b - a) st Hz) as [D1 D2]. fold num in D1, D2.
    destruct (Z.lt_total st 0) as [Hn|[?|Hp]]; [specialize (D2 Hn)|lia|specialize (D1 Hp)]; lia. }
  pose proof (Bx a Ha) as Ba. pose proof (Bx b Hb') as Bb.
  assert (num * (r_step r * st) = (num * st - (b - a)) * r_step r + b * r_step r - a * r_step r) as En by ring.
  assert (Z.abs ((num * st - (b - a)) * r_step r) <= 2 ^ 126) as Bm.
  { rewrite Z.abs_mul. change (2 ^ 126) with (2 ^ 63 * 2 ^ 63). apply Z.mul_le_mono_nonneg; lia. }
  assert (Z.abs (r_step r * st) <= 2 ^ 126) as Bs.
  { rewrite Z.abs_mul. change (2 ^ 126) with (2 ^ 63 * 2 ^ 63). apply Z.mul_le_mono_nonneg; lia. }
  rewrite En. split_and!; lia.
Qed.

(** C25: a range is the sequence of its elements. For every range of [i64]s with a step
    other than zero, the length is exact, membership of an integer is being an element,
    indexing returns the element counted from either end and fails with an index
    error only, iterating yields the elements in order with no overflow, and two
    ranges are equal exactly when their elements are, in which case they hash alike. *)
Theorem range_is_its_elements r :
  wf_range r ->
  len r = len_i128 r /\
  (forall n, contains r n = true <-> exists k, element r k = Some n) /\
  (forall i, getitem r i = ok_or (element r (if i <? 0 then i + len r else i)) RangeIndexError) /\
  (forall n, exists l, drain n (iter_of r) = Some l /\
     forall j, l !! j = if (j <? n)%nat then element r (Z.of_nat j) else None) /\
  (forall b, wf_range b ->
     (py_eq r b = true <-> forall k, element r k = element b k) /\
     (py_eq r b = true -> hashed r = hashed b)).
Proof.
  intros Hr. pose proof (len_exact r Hr) as El. split; [done|].
  split; [intros n; by apply contains_element|].
  split; [intros i; rewrite El; by apply getitem_element|].
  split.
  - intros n. destruct (drain_elements r n 0 Hr) as (l & Hl & Hj).
    { pose proof (len_bound r Hr). lia. }
    exists l. split; [|done]. rewrite <- Hl. unfold iter_of. rewrite El, Z.min_l by lia.
    do 2 f_equal; lia.
  - intros b Hb. split; [by apply py_eq_elements|apply py_eq_hashed].
Qed.

(** Slicing a range selects from its sequence. For a range no longer than an [i64]
    counts, a slice is a range again whose elements are those the language's slice
    selects; it is refused for a zero step, and fails with an overflow only when the
    new start, step or stop is no [i64]. *)
Theorem range_slice_correct r s :
  wf_range r -> len_i128 r <= i64_max ->
  let st := default 1 (step s) in
  let a := Python.first s (len_i128 r) in
  let b := Python.limit s (len_i128 r) in
  match getitem_slice r s with
  | Ok r' =>
      wf_range r' /\ forall k, 0 <= k ->
        element r' k =
        if (if st <? 0 then b <? a + k * st else a + k * st <? b) then element r (a + k * st) else None
  | Err e =>
      (e = SliceStepZero /\ st = 0) \/
      (e = OverflowSsize /\ ~ (in_i64 (r_step r * st) /\ in_i64 (r_start r + a * r_step r) /\
         in_i64 (r_start r + a * r_step r + div_ceil (b - a) st * (r_step r * st))))
  end.
Proof.
  intros Hr Hlen st a b. pose proof (fun r' k => getitem_slice_element r s r' k Hr Hlen) as He.
  pose proof (len_bound r Hr) as Hb. destruct (getitem_slice r s) as [r'|e] eqn:Eg.
  - split; [|intros k Hk; by apply He]. clear He. unfold getitem_slice in Eg.
    destruct (decide (st = 0)) as [Hz|Hz].
    { unfold indices in Eg. fold st in Eg. by rewrite Hz in Eg. }
    rewrite len_exact, indices_python in Eg by (done || lia). cbn [map_err rbind] in Eg.
    inv_binds Eg. injection Eg as <-. apply i64_try_Ok in Hm as [-> ?], Hm0 as [-> ?], Hm1 as [-> ?].
    destruct Hr as (_ & _ & _ & Hs). split_and!; try done. cbn. fold st. nia.
  - unfold getitem_slice in Eg. destruct (decide (st = 0)) as [Hz|Hz].
    { left. unfold indices in Eg. fold st in Eg. rewrite Hz in Eg. cbn in Eg. by injection Eg as <-. }
    right. rewrite len_exact, indices_python in Eg by (done || lia). cbn [map_err rbind] in Eg.
    fold st a b in Eg.
    destruct (i64_try (r_step r * st)) as [x|x] eqn:E1; cbn [rbind] in Eg; last first.
    { injection Eg as ->. apply i64_try_Err in E1 as [-> Hn]. split; [done|tauto]. }
    destruct (i64_try (r_start r + a * r_step r)) as [y|y] eqn:E2; cbn [rbind] in Eg; last first.
    { injection Eg as ->. apply i64_try_Err in E2 as [-> Hn]. split; [done|tauto]. }
    destruct (i64_try _) as [z|z] eqn:E3 in Eg; cbn [rbind] in Eg; [done|].
    injection Eg as ->. apply i64_try_Err in E3 as [-> Hn]. split; [done|tauto].
Qed.
End Ranges.

(** ** Concrete ranges *)

Module Concrete.
#[export] Instance rounding_up : NumInteger := fun a b => - ((- a) / b).

#[export] Instance rounding_up_laws : NumIntegerLaws.
Proof.
  intros a b Hb. unfold div_ceil, rounding_up. pose proof (Z.div_mod (- a) b Hb) as E.
  split; intros Hs; [pose proof (Z.mod_pos_bound (- a) b Hs)|pose proof (Z.mod_neg_bound (- a) b Hs)]; nia.
Qed.

Definition evens : Range := mkRange 0 10 2.

Lemma evens_wf : wf_range evens.
Proof. unfold wf_range, in_i64, i64_min, i64_max. cbn. lia. Qed.

(** A range longer than an [i64] counts is sliced against the wrong length: the last
    element is found by its index, but not by the slice that starts at it. *)
Definition everything : Range := mkRange i64_min i64_max 1.

Lemma huge_range_slice_wrong :
  getitem everything (-1) = Ok (i64_max - 1) /\
  getitem_slice everything (mkSlice (Some (-1)) None None) = Ok (mkRange (-2) (-1) 1).
Proof. split; vm_compute; reflexivity. Qed.
End Concrete.
#[local] Existing Instance Concrete.rounding_up.
#[local] Existing Instance Concrete.rounding_up_laws.

Lemma range_is_its_elements_witness :
  contains Concrete.evens 4 = true <-> exists k, element Concrete.evens k = Some 4.
Proof. exact (proj1 (proj2 (range_is_its_elements Concrete.evens Concrete.evens_wf)) 4). Defined.

Lemma range_slice_correct_witness :
  match getitem_slice Concrete.evens (mkSlice (Some (-1)) None (Some (-2))) with
  | Ok r' => r' = mkRange 8 (-4) (-4) /\ element r' 1 = Some 4
  | Err _ => False
  end.
Proof.
  assert (len_i128 Concrete.evens <= i64_max) as Hl by (vm_compute; discriminate).
  pose proof (range_slice_correct Concrete.evens (mkSlice (Some (-1)) None (Some (-2)))
    Concrete.evens_wf Hl) as H.
  destruct (getitem_slice Concrete.evens _) as [r'|e] eqn:E; [|vm_compute in E; discriminate E].
  split; [vm_compute in E; by injection E as <-|].
  destruct H as [_ H]. rewrite (H 1 ltac:(lia)). vm_compute. reflexivity.
Defined.
