(* ===== verification/Bytes.v ===== *)
(** * Bytes

    What the byte codecs of the sandbox's modules share: byte strings as lists of
    [Z], bit operations at a width, [chunks], the tables they index, the errors they
    raise, and the memory check of resource_checks.rs before a large result. *)
From S2P Require Import Prelude Resource.

#[local] Open Scope Z_scope.
#[local] Open Scope monty_scope.

(** ** Byte strings *)

Abbreviation bytes := (list Z).

Definition is_byte (b : Z) : Prop := 0 <= b < 256.

(** [b'c'] and [b"..."]. *)
Definition ch (c : ascii) : Z := Z.of_N (N_of_ascii c).
Definition blit (s : string) : bytes := ch <$> list_ascii_of_string s.
Arguments blit s%_string.
Arguments ch c%_char.

(** [x << n] at a width: the bits above it are lost. *)
Definition shl (w x n : Z) : Z := Z.shiftl x n mod 2 ^ w.

(** [table[i]]; out of range Rust panics, which the default stands for. *)
Definition index (table : bytes) (i : Z) : Z := nth (Z.to_nat i) table (-1).

(** [chunk.get(i).copied().unwrap_or(0)]. *)
Definition get_or0 (chunk : bytes) (i : nat) : Z := default 0 (chunk !! i).

(** [usize::div_ceil]. *)
Definition ceil_div (a b : Z) : Z := (a + b - 1) / b.

(** [iter().position(|c| c == byte)]. *)
Fixpoint position (byte : Z) (l : bytes) : option Z :=
  match l with
  | [] => None
  | x :: l' => if x =? byte then Some 0 else Z.succ <$> position byte l'
  end.

(** [b'a'..=b'b'] as a pattern. *)
Definition within_chars (a b : ascii) (byte : Z) : bool := (ch a <=? byte) && (byte <=? ch b).
Arguments within_chars (a b)%_char byte.

(** [to_ascii_uppercase]. *)
Definition ascii_upper (b : Z) : Z := if within_chars "a" "z" b then b - 32 else b.

(** [word.to_be_bytes()], the last [n] of them. *)
Fixpoint be_bytes (n : nat) (word : Z) : bytes :=
  match n with
  | O => []
  | S n' => be_bytes n' (Z.shiftr word 8) ++ [Z.land word 255]
  end.

(** [slice.chunks(n)] for a positive [n]: the length bounds the number of chunks. *)
Fixpoint chunks_aux {A} (fuel n : nat) (l : list A) : list (list A) :=
  match fuel with
  | O => []
  | S fuel' => match l with [] => [] | _ => take n l :: chunks_aux fuel' n (drop n l) end
  end.
Definition chunks {A} (n : nat) (l : list A) : list (list A) := chunks_aux (length l) n l.

(** A loop over the items of an iterator that may return early. *)
Fixpoint try_fold {A B E} (f : A -> B -> result A E) (l : list B) (a : A) : result A E :=
  match l with
  | [] => Ok a
  | x :: l' => let? a' := f a x in try_fold f l' a'
  end.

(** Bytes read as a big-endian word of [w] bits, missing ones as zero. *)
Definition be_word (w : Z) (n : nat) (chunk : bytes) : Z :=
  foldl (fun word i => Z.lor (shl w word 8) (get_or0 chunk i)) 0 (seq 0 n).

(** [out.truncate(out.len() - n)]. *)
Definition truncate_by {A} (n : nat) (out : list A) : list A := take (length out - n) out.

(** Pieces with a byte between them. *)
Definition joined_with (sep : Z) (pieces : list bytes) : bytes :=
  match pieces with [] => [] | piece :: rest => piece ++ mjoin (cons sep <$> rest) end.

(** ** Errors *)

(** The exceptions the codecs raise; a text that quotes a number has it as data. *)
Inductive CodecError : Type :=
| ResourceErr (e : ResourceError)
| BinasciiError (message : string)
| InvalidDataCharacters (data_chars : Z)
| ValueError (message : string)
| BadCharacter (codec : string) (position : Z)
| HunkOverflow (codec : string) (start : Z)
| NonDigit (byte : Z)
| AssertionError (repr : bytes)
| GuestError (code : Z).

(** [check_estimated_size]. *)
Definition LARGE_RESULT_THRESHOLD : Z := 100000.

Section Check.
Context {W : Type} `{Machine W}.

Definition check_estimated_size (estimated_bytes : Z) (tracker : ResourceTracker) (w : W) :
    result unit CodecError :=
  if LARGE_RESULT_THRESHOLD <? estimated_bytes
  then map_err ResourceErr (check_large_result tracker w estimated_bytes)
  else Ok tt.

End Check.

(** ** Chunks *)

Lemma mjoin_cons {A} (x : list A) l : mjoin (x :: l) = x ++ mjoin l.
Proof. done. Qed.

Lemma chunks_aux_enough {A} n (l : list A) fuel :
  (0 < n)%nat -> (length l <= fuel)%nat -> chunks_aux fuel n l = chunks n l.
Proof.
  intros Hn. unfold chunks. remember (length l) as k eqn:Hk.
  revert fuel l Hk. induction (lt_wf k) as [k _ IH]; intros fuel l Hk Hf.
  destruct fuel as [|fuel]; [destruct l; cbn in *; [by subst|lia]|]. destruct l as [|x l]; [by subst|].
  subst k. cbn [chunks_aux length] in *. f_equal.
  assert (length (drop n (x :: l)) <= length l)%nat by (rewrite length_drop; cbn; lia).
  rewrite (IH (length (drop n (x :: l)))) by (try done; lia).
  symmetry. apply IH; [lia|done|lia].
Qed.

Lemma chunks_nil {A} n : @chunks A n [] = [].
Proof. done. Qed.

Lemma chunks_cons {A} n (l : list A) :
  (0 < n)%nat -> l <> [] -> chunks n l = take n l :: chunks n (drop n l).
Proof.
  intros Hn Hl. unfold chunks at 1. destruct l as [|x l]; [done|]. cbn [length chunks_aux]. f_equal.
  apply chunks_aux_enough; [done|]. rewrite length_drop. cbn. lia.
Qed.

Lemma chunks_app {A} n (a l : list A) :
  (0 < n)%nat -> length a = n -> chunks n (a ++ l) = a :: chunks n l.
Proof.
  intros Hn Ha. assert (a ++ l <> []) by (destruct a; cbn in *; [lia|done]).
  rewrite chunks_cons by done.
  by rewrite take_app_length', drop_app_length' by done.
Qed.

Lemma chunks_short {A} n (l : list A) :
  l <> [] -> (length l <= n)%nat -> chunks n l = [l].
Proof.
  intros Hl Hn. assert (0 < n)%nat by (destruct l; cbn in *; [done|lia]).
  rewrite chunks_cons by done.
  by rewrite take_ge, drop_ge by done.
Qed.

(** Induction by whole chunks, with a last one that may be short. *)
Lemma chunk_ind {A} (n : nat) (P : list A -> Prop) :
  (0 < n)%nat ->
  (forall l, (length l < n)%nat -> P l) ->
  (forall a l, length a = n -> P l -> P (a ++ l)) ->
  forall l, P l.
Proof.
  intros Hn H0 HS l. remember (length l) as k eqn:Hk. revert l Hk.
  induction (lt_wf k) as [k _ IH]; intros l ->.
  destruct (Nat.lt_ge_cases (length l) n); [by apply H0|].
  rewrite <- (take_drop n l). apply HS; [rewrite length_take; lia|].
  eapply IH; [|done]. rewrite length_drop. lia.
Qed.

Lemma length_chunks {A} n (l : list A) :
  (0 < n)%nat -> zlen (chunks n l) = ceil_div (zlen l) (Z.of_nat n).
Proof.
  intros Hn. unfold ceil_div. revert l. apply (chunk_ind n); [done| |].
  - intros [|x l] Hl; [rewrite chunks_nil; unfold zlen; cbn -[Z.div]; symmetry; apply Z.div_small; lia|].
    rewrite chunks_short by (done || (cbn in *; lia)). unfold zlen. cbn [length] in *.
    apply Z.div_unique with (r := Z.of_nat (length l)); lia.
  - intros a l Ha IH. rewrite chunks_app by done. unfold zlen in *. cbn [length]. rewrite length_app, Ha.
    replace (Z.of_nat (n + length l) + Z.of_nat n - 1) with (1 * Z.of_nat n + (Z.of_nat (length l) + Z.of_nat n - 1)) by lia.
    rewrite Z.div_add_l by lia. lia.
Qed.

(** ** Bits as arithmetic *)

Lemma shl_mul w x n : 0 <= n -> shl w x n = (x * 2 ^ n) mod 2 ^ w.
Proof. intros. unfold shl. by rewrite Z.shiftl_mul_pow2. Qed.

Lemma land_mod x m k : m = 2 ^ k - 1 -> 0 <= k -> Z.land x m = x mod 2 ^ k.
Proof. intros -> Hk. rewrite <- Z.land_ones, Z.ones_equiv by done. done. Qed.

(** Disjoint bits: [or] is addition, and exclusive. *)
Lemma land_disjoint k x y : 0 <= k -> 0 <= y < 2 ^ k -> Z.land (x * 2 ^ k) y = 0.
Proof.
  intros Hk Hy. rewrite <- Z.shiftl_mul_pow2 by done. apply Z.bits_inj'. intros n Hn.
  rewrite Z.land_spec, Z.bits_0, Z.shiftl_spec by done. destruct (Z.lt_ge_cases n k); [by rewrite Z.testbit_neg_r by lia|].
  rewrite <- (Z.mod_small y (2 ^ k)), Z.mod_pow2_bits_high by (done || lia). apply andb_false_r.
Qed.

Lemma lxor_add k x y : 0 <= k -> 0 <= y < 2 ^ k -> Z.lxor (x * 2 ^ k) y = x * 2 ^ k + y.
Proof. intros. symmetry. by apply Z.add_nocarry_lxor, land_disjoint. Qed.

Lemma lor_add k x y : 0 <= k -> 0 <= y < 2 ^ k -> Z.lor (x * 2 ^ k) y = x * 2 ^ k + y.
Proof. intros. rewrite <- Z.lxor_lor by (by apply land_disjoint). by apply lxor_add. Qed.

Lemma lor_shiftl x n y : 0 <= n -> 0 <= y < 2 ^ n -> Z.lor (Z.shiftl x n) y = x * 2 ^ n + y.
Proof. intros. rewrite Z.shiftl_mul_pow2 by done. by apply lor_add. Qed.

Lemma lor_shl w x n y :
  0 <= n -> 0 <= y < 2 ^ n -> 0 <= x -> x * 2 ^ n < 2 ^ w -> Z.lor (shl w x n) y = x * 2 ^ n + y.
Proof. intros. rewrite shl_mul, Z.mod_small by nia. by apply lor_add. Qed.

(** Linear arithmetic with division by constants, and bit operations turned into it. *)
Ltac dlia := unfold is_byte in *; Z.to_euclidean_division_equations; lia.

Ltac bits := repeat first
  [ rewrite (land_mod _ 255 8) by lia | rewrite (land_mod _ 63 6) by lia | rewrite (land_mod _ 31 5) by lia
  | rewrite (land_mod _ 15 4) by lia | rewrite (land_mod _ 3 2) by lia
  | rewrite Z.shiftr_div_pow2 by lia | rewrite lor_shiftl by dlia | rewrite lor_shl by dlia ].

(** ** Tables *)

Lemma below_forall (n : nat) (p : Z -> bool) :
  forallb p (seqZ 0 (Z.of_nat n)) = true -> forall v, 0 <= v < Z.of_nat n -> p v = true.
Proof. intros H v Hv. rewrite forallb_forall in H. apply H. apply list_elem_of_In, elem_of_seqZ. lia. Qed.

(** A statement about the numbers below a bound, decided for each of them. *)
Ltac below n :=
  match goal with
  | |- forall v, 0 <= v < _ -> @?P v =>
      let H := fresh in
      assert (forall v, 0 <= v < Z.of_nat n -> bool_decide (P v) = true) as H
        by (apply (below_forall n (fun v => bool_decide (P v))); vm_compute; reflexivity);
      intros v Hv; specialize (H v Hv); by apply bool_decide_eq_true in H
  end.

Lemma be_bytes_length n x : length (be_bytes n x) = n.
Proof. revert x. induction n; intros; cbn; [done|]. rewrite length_app, IHn. cbn. lia. Qed.

Lemma try_fold_app {A B E} (f : A -> B -> result A E) l k a :
  try_fold f (l ++ k) a = rbind (try_fold f l a) (try_fold f k).
Proof. revert a. induction l as [|x l IH]; intros a; cbn; [done|]. destruct (f a x); cbn; [apply IH|done]. Qed.

Lemma index_lookup table i b : 0 <= i -> table !! Z.to_nat i = Some b -> index table i = b.
Proof. intros Hi. unfold index. by apply nth_lookup_Some. Qed.

Lemma chunks_le {A} n (l : list A) : (0 < n)%nat -> Forall (fun c => 0 < length c <= n)%nat (chunks n l).
Proof.
  intros Hn. revert l. apply (chunk_ind n); [done| |].
  - intros [|x l] Hl; [by rewrite chunks_nil|]. rewrite chunks_short by (done || lia).
    constructor; [cbn in *; lia|constructor].
  - intros a l Ha IH. rewrite chunks_app by done. constructor; [lia|done].
Qed.

Lemma mjoin_chunks {A} n (l : list A) : (0 < n)%nat -> mjoin (chunks n l) = l.
Proof.
  intros Hn. revert l. apply (chunk_ind n); [done| |].
  - intros [|x l] Hl; [done|]. rewrite chunks_short by (done || lia). cbn. by rewrite app_nil_r.
  - intros a l Ha IH. rewrite chunks_app by done. cbn [mjoin list_join]. f_equal. exact IH.
Qed.

Lemma chunks_Forall {A} (P : A -> Prop) n (l : list A) : (0 < n)%nat -> Forall P l -> Forall (Forall P) (chunks n l).
Proof.
  intros Hn. revert l. apply (chunk_ind n (fun l => Forall P l -> _)); [done| |].
  - intros [|x l] Hl HF; [by rewrite chunks_nil|]. rewrite chunks_short by (done || lia). by constructor.
  - intros a l Ha IH [HFa HFl]%Forall_app. rewrite chunks_app by done. constructor; auto.
Qed.

Lemma truncate_by_app {A} n (a l : list A) : (n <= length l)%nat -> truncate_by n (a ++ l) = a ++ truncate_by n l.
Proof.
  intros Hn. unfold truncate_by. rewrite length_app, take_app. f_equal; [apply take_ge; lia|]. f_equal. lia.
Qed.

Lemma truncate_by_0 {A} (l : list A) : truncate_by 0 l = l.
Proof. unfold truncate_by. apply take_ge. lia. Qed.

(** [(n - len % n) % n], the bytes that complete a last chunk. *)
Definition padding (n : nat) (l : bytes) : nat := Z.to_nat ((Z.of_nat n - zlen l mod Z.of_nat n) mod Z.of_nat n).

Lemma padding_app n a l : (0 < n)%nat -> length a = n -> padding n (a ++ l) = padding n l.
Proof.
  intros Hn Ha. unfold padding. rewrite zlen_app, Z.add_comm. unfold zlen at 2. rewrite Ha.
  do 3 f_equal. rewrite <- (Z.mul_1_l (Z.of_nat n)) at 1. by rewrite Z.mod_add by lia.
Qed.

Lemma padding_short n l : (0 < length l <= n)%nat -> padding n l = (n - length l)%nat.
Proof.
  intros Hl. unfold padding, zlen. destruct (Nat.eq_dec (length l) n) as [->|].
  - rewrite Z.mod_same, Z.sub_0_r, Z.mod_same by lia. lia.
  - rewrite (Z.mod_small (Z.of_nat (length l))), Z.mod_small by lia. lia.
Qed.

Lemma padding_nil n : (0 < n)%nat -> padding n [] = O.
Proof. intros. unfold padding. change (zlen (@nil Z)) with 0. by rewrite Z.mod_0_l, Z.sub_0_r, Z.mod_same by lia. Qed.

Lemma get_or0_zeros l k i : get_or0 (l ++ replicate k 0) i = get_or0 l i.
Proof.
  unfold get_or0. destruct (l !! i) eqn:Hi; [by rewrite (lookup_app_l_Some _ _ _ _ Hi)|].
  rewrite lookup_app_r by (by apply lookup_ge_None_1). destruct (replicate k 0 !! _) eqn:Hr; [|done].
  by apply lookup_replicate in Hr as [-> _].
Qed.

Lemma be_word_zeros w n l k : be_word w n (l ++ replicate k 0) = be_word w n l.
Proof.
  unfold be_word. generalize 0 at 2 3 as acc. induction (seq 0 n) as [|i js IH]; intros acc; cbn; [done|].
  by rewrite get_or0_zeros, IH.
Qed.

(** Whole chunks and a rest. *)
Lemma chunks_split {A} n (l : list A) :
  (0 < n)%nat -> exists whole tail, l = whole ++ tail /\ (length whole mod n = 0)%nat /\ (length tail < n)%nat.
Proof.
  intros Hn. exists (take (n * (length l / n)) l), (drop (n * (length l / n)) l).
  pose proof (Nat.div_mod_eq (length l) n). pose proof (Nat.mod_upper_bound (length l) n).
  rewrite take_drop, length_take, length_drop, Nat.min_l by lia. split; [done|]. split; [|lia].
  rewrite Nat.mul_comm. apply Nat.Div0.mod_mul.
Qed.

(** Induction over whole chunks. *)
Lemma whole_ind {A} (n : nat) (P : list A -> Prop) :
  (0 < n)%nat -> P [] -> (forall a l, length a = n -> P l -> P (a ++ l)) ->
  forall l, (length l mod n = 0)%nat -> P l.
Proof.
  intros Hn H0 HS. apply (chunk_ind n (fun l => _ -> P l)); [done| |].
  - intros l Hl Hm. rewrite Nat.mod_small in Hm by done. by destruct l.
  - intros a l Ha IH Hm. apply HS; [done|]. apply IH. rewrite length_app, Ha in Hm.
    replace (n + length l)%nat with (length l + 1 * n)%nat in Hm by lia. by rewrite Nat.Div0.mod_add in Hm.
Qed.

Lemma chunks_whole_app {A} n (whole tail : list A) :
  (0 < n)%nat -> (length whole mod n = 0)%nat -> chunks n (whole ++ tail) = chunks n whole ++ chunks n tail.
Proof.
  intros Hn. revert whole. apply (whole_ind n); [done|done|]. intros a l Ha IH.
  by rewrite <- app_assoc, (chunks_app n a (l ++ tail)), (chunks_app n a l), IH by done.
Qed.
