(* ===== verification/Base64.v ===== *)
(** * The base64 module

    modules/base64.rs: base64, base32, base16, base85, Z85 and Ascii85 over byte
    strings, with the memory check each encoder makes before it reserves its output.
    The functions of the module are modelled on arguments that are already bytes,
    flags and integers; the coercions of Python values to these are not. *)
From S2P Require Import Prelude Resource Bytes.

#[local] Open Scope Z_scope.
#[local] Open Scope monty_scope.

Definition B64_ALPHABET : bytes := blit "ABCDEFGHIJKLMNOPQRSTUVWXYZabcdefghijklmnopqrstuvwxyz0123456789+/".
Definition B32_ALPHABET : bytes := blit "ABCDEFGHIJKLMNOPQRSTUVWXYZ234567".
Definition B85_ALPHABET : bytes :=
  blit "0123456789ABCDEFGHIJKLMNOPQRSTUVWXYZabcdefghijklmnopqrstuvwxyz!#$%&()*+-;<=>?@^_`{|}~".
Definition Z85_ALPHABET : bytes :=
  blit "0123456789abcdefghijklmnopqrstuvwxyzABCDEFGHIJKLMNOPQRSTUVWXYZ.-:+=^!/*?&<>()[]{}@%$#".
Definition A85_FIRST_DIGIT : Z := ch "!".
Definition A85_LAST_DIGIT : Z := ch "u".
Definition A85_ADOBE_START : bytes := blit "<~".
Definition A85_ADOBE_END : bytes := blit "~>".
Definition B32HEX_ALPHABET : bytes := blit "0123456789ABCDEFGHIJKLMNOPQRSTUV".
Definition MAX_BIN_SIZE : nat := 57.
Definition MAX_LINE_SIZE : nat := 76.

Definition newline : Z := 10.
Definition pad_char : Z := ch "=".

Definition incorrect_padding : CodecError := BinasciiError "Incorrect padding".

(** ** Translation *)

(** [translate]: the table starts as the identity. *)
Definition translate_table (from to : bytes) : bytes :=
  foldl (fun table '(src, dst) => <[Z.to_nat src := dst]> table) (seqZ 0 256) (zip from to).

Definition translate (data from to : bytes) : bytes := index (translate_table from to) <$> data.

Section Codecs.
Context {W : Type} `{Machine W}.
Variables (tracker : ResourceTracker) (w : W).

(** ** Base64 *)

(** The body of the loop of [b64_encode_reserving]. *)
Definition b64_encode_chunk (chunk : bytes) : bytes :=
  let b0 := get_or0 chunk 0 in
  let b1 := get_or0 chunk 1 in
  let b2 := get_or0 chunk 2 in
  [ index B64_ALPHABET (Z.shiftr b0 2);
    index B64_ALPHABET (Z.lor (Z.shiftl (Z.land b0 3) 4) (Z.shiftr b1 4));
    (if (1 <? length chunk)%nat
     then index B64_ALPHABET (Z.lor (Z.shiftl (Z.land b1 15) 2) (Z.shiftr b2 6)) else pad_char);
    (if (2 <? length chunk)%nat then index B64_ALPHABET (Z.land b2 63) else pad_char) ].

Definition b64_encode_reserving (data : bytes) (extra : Z) : result bytes CodecError :=
  let capacity := ceil_div (zlen data) 3 * 4 + extra in
  check_estimated_size capacity tracker w ;?
  Ok (mjoin (b64_encode_chunk <$> chunks 3 data)).

Definition b64_encode (data : bytes) : result bytes CodecError := b64_encode_reserving data 0.

Definition b64_value (byte : Z) : option Z :=
  if within_chars "A" "Z" byte then Some (byte - ch "A")
  else if within_chars "a" "z" byte then Some (byte - ch "a" + 26)
  else if within_chars "0" "9" byte then Some (byte - ch "0" + 52)
  else if byte =? ch "+" then Some 62
  else if byte =? ch "/" then Some 63
  else None.

Definition invalid_data_characters (decoded_len : Z) : CodecError :=
  InvalidDataCharacters (decoded_len / 3 * 4 + 1).

(** The variables of the loop of [b64_decode]. *)
Record Quad : Type := mkQuad {
  out : bytes; quad_pos : Z; leftchar : Z; pads : Z; padding_started : bool; quad_closed : bool }.

Definition b64_pad (strict : bool) (q : Quad) : result Quad CodecError :=
  if strict && (quad_closed q || (quad_pos q =? 0)) then Err (BinasciiError "Excess padding not allowed")
  else if strict && (quad_pos q =? 1) then Err (invalid_data_characters (zlen (out q)))
  else
    if (2 <=? quad_pos q) && negb (quad_closed q) then
      let pads := pads q + 1 in
      Ok (mkQuad (out q) (quad_pos q) (leftchar q) pads true (4 <=? quad_pos q + pads))
    else Ok (mkQuad (out q) (quad_pos q) (leftchar q) (pads q) true (quad_closed q)).

Definition b64_sextet (q : Quad) (sextet : Z) : Quad :=
  let put bs pos left := mkQuad (out q ++ bs) pos left 0 (padding_started q) false in
  if quad_pos q =? 0 then put [] 1 sextet
  else if quad_pos q =? 1 then put [Z.lor (shl 8 (leftchar q) 2) (Z.shiftr sextet 4)] 2 (Z.land sextet 15)
  else if quad_pos q =? 2 then put [Z.lor (shl 8 (leftchar q) 4) (Z.shiftr sextet 2)] 3 (Z.land sextet 3)
  else put [Z.lor (shl 8 (leftchar q) 6) sextet] 0 0.

Definition b64_decode_byte (strict : bool) (q : Quad) (byte : Z) : result Quad CodecError :=
  if byte =? pad_char then b64_pad strict q
  else match b64_value byte with
       | None => if strict then Err (BinasciiError "Only base64 data is allowed") else Ok q
       | Some sextet =>
           if strict && quad_closed q then Err (BinasciiError "Excess data after padding")
           else if strict && padding_started q then Err (BinasciiError "Discontinuous padding not allowed")
           else Ok (b64_sextet q sextet)
       end.

Definition b64_decode_end (q : Quad) : result bytes CodecError :=
  if (quad_pos q =? 0) || quad_closed q then Ok (out q)
  else if quad_pos q =? 1 then Err (invalid_data_characters (zlen (out q)))
  else Err incorrect_padding.

Definition b64_decode (data : bytes) (strict : bool) : result bytes CodecError :=
  if strict && bool_decide (head data = Some pad_char) then Err (BinasciiError "Leading padding not allowed")
  else
    let? q := try_fold (b64_decode_byte strict) data (mkQuad [] 0 0 0 false false) in
    b64_decode_end q.

(** [assert_len_bytes]. *)
Definition assert_len_bytes (b : bytes) (expected : nat) : result unit CodecError :=
  if (length b =? expected)%nat then Ok tt else Err (AssertionError b).

Definition call_b64encode (s : bytes) (altchars : option bytes) : result bytes CodecError :=
  let? encoded := b64_encode s in
  match altchars with
  | None => Ok encoded
  | Some alt => assert_len_bytes alt 2 ;? Ok (translate encoded (blit "+/") alt)
  end.

Definition call_b64decode (s : bytes) (altchars : option bytes) (validate : bool) : result bytes CodecError :=
  let? data := match altchars with
               | None => Ok s
               | Some alt => assert_len_bytes alt 2 ;? Ok (translate s alt (blit "+/"))
               end in
  b64_decode data validate.

Definition call_standard_b64encode (s : bytes) : result bytes CodecError := b64_encode s.
Definition call_standard_b64decode (s : bytes) : result bytes CodecError := b64_decode s false.

Definition call_urlsafe_b64encode (s : bytes) : result bytes CodecError :=
  let? encoded := b64_encode s in Ok (translate encoded (blit "+/") (blit "-_")).
Definition call_urlsafe_b64decode (s : bytes) : result bytes CodecError :=
  b64_decode (translate s (blit "-_") (blit "+/")) false.

(** One line of [encodebytes] after the others. *)
Definition encodebytes_line (encoded chunk : bytes) : result bytes CodecError :=
  let? line := b64_encode chunk in Ok (encoded ++ line ++ [newline]).

Definition call_encodebytes (data : bytes) : result bytes CodecError :=
  let capacity := sat_mul (ceil_div (zlen data) (Z.of_nat MAX_BIN_SIZE)) (Z.of_nat MAX_LINE_SIZE + 1) in
  check_estimated_size capacity tracker w ;?
  try_fold encodebytes_line (chunks MAX_BIN_SIZE data) [].

Definition call_decodebytes (s : bytes) : result bytes CodecError := b64_decode s false.

(** ** Base32 *)

Definition b32_encode_chunk (alphabet chunk : bytes) : bytes :=
  let acc := be_word 64 5 chunk in
  let encoded_len := match length chunk with 1 => 2 | 2 => 4 | 3 => 5 | 4 => 7 | _ => 8 end%nat in
  (fun i => if (i <? encoded_len)%nat
            then index alphabet (Z.land (Z.shiftr acc (35 - Z.of_nat i * 5)) 31)
            else pad_char) <$> seq 0 8.

Definition b32_encode (data alphabet : bytes) : result bytes CodecError :=
  let capacity := ceil_div (zlen data) 5 * 8 in
  check_estimated_size capacity tracker w ;?
  Ok (mjoin (b32_encode_chunk alphabet <$> chunks 5 data)).

(** The slice up to the last byte that is not [=]: the loop on [end]. *)
Fixpoint strip_pads (n : nat) (folded : bytes) : nat :=
  match n with
  | O => O
  | S n' => if bool_decide (folded !! n' = Some pad_char) then strip_pads n' folded else n
  end.

Definition b32_digit (alphabet : bytes) (acc byte : Z) : result Z CodecError :=
  match position byte alphabet with
  | None => Err (BinasciiError "Non-base32 digit found")
  | Some value => Ok (Z.lor (shl 64 acc 5) value)
  end.

Definition b32_group (alphabet : bytes) (st : bytes * Z) (group : bytes) : result (bytes * Z) CodecError :=
  let? acc := try_fold (b32_digit alphabet) group 0 in
  Ok (st.1 ++ be_bytes 5 acc, acc).

Definition b32_decode (data alphabet : bytes) (casefold : bool) : result bytes CodecError :=
  let folded := if casefold then ascii_upper <$> data else data in
  let stripped := take (strip_pads (length folded) folded) folded in
  let pad_chars := Z.of_nat (length folded - length stripped) in
  let? (out, last_acc) := try_fold (b32_group alphabet) (chunks 8 stripped) ([], 0) in
  if negb (bool_decide (pad_chars ∈ [0; 1; 3; 4; 6])) then Err incorrect_padding
  else if (0 <? pad_chars) && negb (bool_decide (out = [])) then
    let shifted := shl 64 last_acc (5 * pad_chars) in
    let leftover := Z.to_nat ((43 - 5 * pad_chars) / 8) in
    Ok (truncate_by 5 out ++ take leftover (be_bytes 5 shifted))
  else Ok out.

Definition call_b32encode (s : bytes) : result bytes CodecError := b32_encode s B32_ALPHABET.

Definition call_b32decode (s : bytes) (casefold : bool) (map01 : option bytes) : result bytes CodecError :=
  if negb (zlen s mod 8 =? 0) then Err incorrect_padding
  else
    let? data := match map01 with
                 | None => Ok s
                 | Some m => assert_len_bytes m 1 ;? Ok (translate s (blit "01") [ch "O"; get_or0 m 0])
                 end in
    b32_decode data B32_ALPHABET casefold.

Definition call_b32hexencode (s : bytes) : result bytes CodecError := b32_encode s B32HEX_ALPHABET.

Definition call_b32hexdecode (s : bytes) (casefold : bool) : result bytes CodecError :=
  if negb (zlen s mod 8 =? 0) then Err incorrect_padding else b32_decode s B32HEX_ALPHABET casefold.

(** ** Base16 *)

Definition B16_HEX : bytes := blit "0123456789ABCDEF".

Definition b16_encode (data : bytes) : result bytes CodecError :=
  let capacity := zlen data * 2 in
  check_estimated_size capacity tracker w ;?
  Ok (mjoin ((fun byte => [index B16_HEX (Z.shiftr byte 4); index B16_HEX (Z.land byte 15)]) <$> data)).

Definition hex_value (byte : Z) : Z :=
  if within_chars "0" "9" byte then byte - ch "0" else byte - ch "A" + 10.

Definition b16_decode (data : bytes) (casefold : bool) : result bytes CodecError :=
  let folded := if casefold then ascii_upper <$> data else data in
  if existsb (fun b => negb (within_chars "0" "9" b || within_chars "A" "F" b)) folded
  then Err (BinasciiError "Non-base16 digit found")
  else if negb (zlen folded mod 2 =? 0) then Err (BinasciiError "Odd-length string")
  else Ok ((fun pair => Z.lor (shl 8 (hex_value (get_or0 pair 0)) 4) (hex_value (get_or0 pair 1))) <$> chunks 2 folded).

Definition call_b16encode (s : bytes) : result bytes CodecError := b16_encode s.
Definition call_b16decode (s : bytes) (casefold : bool) : result bytes CodecError := b16_decode s casefold.

(** ** Base85 and Z85 *)

(** [n] base-85 digits of a word, most significant first. *)
Fixpoint digits85 (digit : Z -> Z) (n : nat) (word : Z) : bytes :=
  match n with
  | O => []
  | S n' => digits85 digit n' (word / 85) ++ [digit (word mod 85)]
  end.

(** [(4 - data.len() % 4) % 4]. *)
Definition padding4 (data : bytes) : nat := Z.to_nat ((4 - zlen data mod 4) mod 4).

Definition b85_encode (data alphabet : bytes) (pad : bool) : result bytes CodecError :=
  let padding := padding4 data in
  let capacity := ceil_div (zlen data) 4 * 5 in
  check_estimated_size capacity tracker w ;?
  let out := mjoin ((fun chunk => digits85 (index alphabet) 5 (be_word 32 4 chunk)) <$> chunks 4 data) in
  Ok (if pad then out else truncate_by padding out).

Definition base85_table (alphabet : bytes) : list (option Z) :=
  foldl (fun table '(value, byte) => <[Z.to_nat byte := Some value]> table)
        (replicate 256 None) (zip (seqZ 0 (zlen alphabet)) alphabet).

Definition b85_digit (table : list (option Z)) (codec : string) (start : Z) (chunk : bytes) (acc : Z) (offset : nat) :
    result Z CodecError :=
  let? value := match chunk !! offset with
                | Some byte => ok_or (mjoin (table !! Z.to_nat byte)) (BadCharacter codec (start + Z.of_nat offset))
                | None => Ok 84
                end in
  Ok (acc * 85 + value).

Definition b85_hunk (table : list (option Z)) (codec : string) (st : bytes * Z) (chunk : bytes) :
    result (bytes * Z) CodecError :=
  let '(out, start) := st in
  let? acc := try_fold (b85_digit table codec start chunk) (seq 0 5) 0 in
  if acc <? 2 ^ 32 then Ok (out ++ be_bytes 4 acc, start + 5) else Err (HunkOverflow codec start).

Definition b85_decode (data alphabet : bytes) (codec : string) : result bytes CodecError :=
  let table := base85_table alphabet in
  let padding := Z.to_nat ((5 - zlen data mod 5) mod 5) in
  let? (out, _) := try_fold (b85_hunk table codec) (chunks 5 data) ([], 0) in
  Ok (truncate_by padding out).

Definition call_b85encode (b : bytes) (pad : bool) : result bytes CodecError := b85_encode b B85_ALPHABET pad.
Definition call_b85decode (b : bytes) : result bytes CodecError := b85_decode b B85_ALPHABET "base85".
Definition call_z85encode (s : bytes) : result bytes CodecError := b85_encode s Z85_ALPHABET false.
Definition call_z85decode (s : bytes) : result bytes CodecError := b85_decode s Z85_ALPHABET "z85".

(** ** Encoding Ascii85 *)

(** The body of the loop: what a word is written as. *)
Definition a85_word (foldspaces : bool) (chunk : bytes) : bytes :=
  let word := be_word 32 4 chunk in
  if word =? 0 then [ch "z"]
  else if foldspaces && (word =? 0x20202020) then [ch "y"]
  else digits85 (fun v => A85_FIRST_DIGIT + v) 5 word.

(** One turn of the loop: the output so far and [last_start]. *)
Definition a85_put (foldspaces : bool) (st : bytes * nat) (chunk : bytes) : bytes * nat :=
  (st.1 ++ a85_word foldspaces chunk, length st.1).

Definition a85_encode (data : bytes) (pad foldspaces : bool) (extra : Z) : result bytes CodecError :=
  let padding := padding4 data in
  let capacity := ceil_div (zlen data) 4 * 5 + extra in
  check_estimated_size capacity tracker w ;?
  let '(out, last_start) := foldl (a85_put foldspaces) ([], O) (chunks 4 data) in
  Ok (if negb (padding =? 0)%nat && negb pad then
        let out := if bool_decide (drop last_start out = [ch "z"])
                   then take last_start out ++ replicate 5 A85_FIRST_DIGIT else out in
        truncate_by padding out
      else out).

(** The lines of a wrapped text; a chunk is never longer than the text. *)
Definition lines_of (width : Z) (result : bytes) : list bytes :=
  chunks (Z.to_nat (Z.min width (zlen result + 1))) result.

(** One turn of the loop of [a85_wrap]: [index], the output and [last_len]. *)
Definition a85_wrap_line (st : Z * bytes * Z) (line : bytes) : Z * bytes * Z :=
  let '(index, out, _) := st in
  (index + 1, (if 0 <? index then out ++ [newline] else out) ++ line, zlen line).

Definition a85_wrap (result : bytes) (width : Z) (adobe : bool) : Prelude.result bytes CodecError :=
  let closing := if adobe then zlen A85_ADOBE_END else 0 in
  let capacity := zlen result + zlen result / width + 1 + closing in
  check_estimated_size capacity tracker w ;?
  let '(_, out, last_len) := foldl a85_wrap_line (0, [], 0) (lines_of width result) in
  Ok (if adobe && (width <? last_len + zlen A85_ADOBE_END) then out ++ [newline] else out).

(** [a85_wrapcol] and [a85_width] on an integer: one beyond an [i64] is the widest line. *)
Definition a85_wrapcol (wrapcol floor : Z) : Z :=
  if floor <? wrapcol then (if wrapcol <=? i64_max then wrapcol else usize_max) else floor.

Definition call_a85encode (data : bytes) (foldspaces : bool) (wrapcol : Z) (pad adobe : bool) : result bytes CodecError :=
  let keep_padding := negb (zlen data mod 4 =? 0) && pad in
  let framing := if adobe then zlen A85_ADOBE_START + zlen A85_ADOBE_END else 0 in
  let? encoded := a85_encode data keep_padding foldspaces framing in
  let encoded := if adobe then A85_ADOBE_START ++ encoded else encoded in
  let? encoded := if negb (wrapcol =? 0)
                  then a85_wrap encoded (a85_wrapcol wrapcol (if adobe then 2 else 1)) adobe
                  else Ok encoded in
  Ok (if adobe then encoded ++ A85_ADOBE_END else encoded).

(** ** Decoding Ascii85 *)

Definition starts_with (p l : bytes) : bool := bool_decide (take (length p) l = p).
Definition ends_with (p l : bytes) : bool := bool_decide (drop (length l - length p) l = p /\ (length p <= length l)%nat).

(** A slice [start..end] that is out of range is the empty one. *)
Definition a85_strip_adobe (data : bytes) (adobe : bool) : result bytes CodecError :=
  if negb adobe then Ok data
  else if ends_with A85_ADOBE_END data then
    let end_ := (length data - length A85_ADOBE_END)%nat in
    let start := if starts_with A85_ADOBE_START data then length A85_ADOBE_START else O in
    Ok (if (start <=? end_)%nat then drop start (take end_ data) else [])
  else Err (ValueError "Ascii85 encoded byte sequences must end with b'~>'").

Definition is_a85_digit (byte : Z) : bool := (A85_FIRST_DIGIT <=? byte) && (byte <=? A85_LAST_DIGIT).

Definition a85_decoded_size (data : bytes) (foldspaces : bool) : Z :=
  let digits := zlen (filter (fun byte => is_a85_digit byte = true) data) in
  let words := zlen (filter (fun byte => (byte =? ch "z") || (foldspaces && (byte =? ch "y")) = true) data) in
  sat_mul (sat_add (ceil_div digits 5) words) 4.

End Codecs.

Section A85Decode.
Context {W : Type} `{Machine W}.

Abbreviation VM := (ResourceTracker * W)%type.

(** [Given] holds the answers of [in] on the object the caller passed, which runs
    guest code. *)
Inductive IgnoreChars : Type := Default | Given (py_contains : Z -> M VM CodecError bool).

Definition skips (ignore : IgnoreChars) (byte : Z) : M VM CodecError bool :=
  match ignore with
  | Default => sret (bool_decide (byte ∈ [ch " "; 9; 10; 13; 11]))
  | Given py_contains => py_contains byte
  end.

(** The variables of the loop. *)
Record A85 : Type := mkA85 { a_out : bytes; a_acc : Z; a_digits : Z; a_ignored : Z }.

Definition a85_decode_byte (foldspaces : bool) (ignore : IgnoreChars) (st : A85) (byte : Z) : M VM CodecError A85 :=
  if is_a85_digit byte then
    let acc := a_acc st * 85 + (byte - A85_FIRST_DIGIT) in
    let digits := a_digits st + 1 in
    if digits =? 5 then
      if acc <? 2 ^ 32 then sret (mkA85 (a_out st ++ be_bytes 4 acc) 0 0 (a_ignored st))
      else sfail (ValueError "Ascii85 overflow")
    else sret (mkA85 (a_out st) acc digits (a_ignored st))
  else if byte =? ch "z" then
    if negb (a_digits st =? 0) then sfail (ValueError "z inside Ascii85 5-tuple")
    else sret (mkA85 (a_out st ++ replicate 4 0) (a_acc st) (a_digits st) (a_ignored st))
  else if foldspaces && (byte =? ch "y") then
    if negb (a_digits st =? 0) then sfail (ValueError "y inside Ascii85 5-tuple")
    else sret (mkA85 (a_out st ++ blit "    ") (a_acc st) (a_digits st) (a_ignored st))
  else
    (fun s => let '(r, s') := check_time_every (a_ignored st) s in (map_err ResourceErr r, s')) ;;;
    do skip <- skips ignore byte ;;
    if (skip : bool) then sret (mkA85 (a_out st) (a_acc st) (a_digits st) (a_ignored st + 1))
    else sfail (NonDigit byte).

Fixpoint a85_decode_bytes (foldspaces : bool) (ignore : IgnoreChars) (data : bytes) (st : A85) : M VM CodecError A85 :=
  match data with
  | [] => sret st
  | byte :: data' => do st' <- a85_decode_byte foldspaces ignore st byte ;; a85_decode_bytes foldspaces ignore data' st'
  end.

Definition a85_decode (data : bytes) (foldspaces : bool) (ignore : IgnoreChars) : M VM CodecError bytes :=
  let capacity := a85_decoded_size data foldspaces in
  (fun s => (check_estimated_size capacity s.1 s.2, s)) ;;;
  do st <- a85_decode_bytes foldspaces ignore (data ++ replicate 4 A85_LAST_DIGIT) (mkA85 [] 0 0 0) ;;
  sret (truncate_by (Z.to_nat (4 - a_digits st)) (a_out st)).

Definition call_a85decode (data : bytes) (foldspaces adobe : bool) (ignorechars : IgnoreChars) : M VM CodecError bytes :=
  do framed <- slift (a85_strip_adobe data adobe) ;;
  a85_decode framed foldspaces ignorechars.

End A85Decode.
