(* ===== verification/Base64Props.v ===== *)
(** * Theorems about the base64 module  *)
From S2P Require Import Prelude Resource Bytes Base64.
#[local] Open Scope Z_scope.
#[local] Open Scope monty_scope.

(** ** Base64 *)

Lemma b64_value_alphabet v :
  0 <= v < 64 -> b64_value (index B64_ALPHABET v) = Some v /\ index B64_ALPHABET v <> pad_char.
Proof.
  revert v. below 64%nat.
Qed.

Lemma b64_char strict q v :
  0 <= v < 64 -> quad_closed q = false -> padding_started q = false ->
  b64_decode_byte strict q (index B64_ALPHABET v) = Ok (b64_sextet q v).
Proof.
  intros Hv Hc Hp. destruct (b64_value_alphabet v Hv) as [Hb Hn]. unfold b64_decode_byte.
  apply Z.eqb_neq in Hn. rewrite Hn, Hb, Hc, Hp. by destruct strict.
Qed.

(** What the characters of a quad decode to, whatever follows them. *)
Lemma b64_sextets strict o v0 v1 v2 v3 k :
  0 <= v0 < 64 -> 0 <= v1 < 64 -> 0 <= v2 < 64 -> 0 <= v3 < 64 ->
  let run := try_fold (b64_decode_byte strict) in
  let start := mkQuad o 0 0 0 false false in
  let c := index B64_ALPHABET in
  let q2 := mkQuad (o ++ [v0 * 4 + v1 / 16]) 2 (v1 mod 16) 0 false false in
  let q3 := mkQuad (out q2 ++ [v1 mod 16 * 16 + v2 / 4]) 3 (v2 mod 4) 0 false false in
  run (c v0 :: c v1 :: k) start = run k q2
  /\ run (c v0 :: c v1 :: c v2 :: k) start = run k q3
  /\ run (c v0 :: c v1 :: c v2 :: c v3 :: k) start
    = run k (mkQuad (out q3 ++ [v2 mod 4 * 64 + v3]) 0 0 0 false false).
Proof.
  intros H0 H1 H2 H3. cbn [try_fold out].
  repeat (rewrite b64_char by done; cbn [rbind]; unfold b64_sextet at 1; cbn -[index Z.lor shl Z.shiftr Z.land Z.div Z.modulo]).
  rewrite !app_nil_r. bits. done.
Qed.

(** The bounds of the bytes of a concrete list. *)
Ltac byte_bounds :=
  repeat match goal with H : Forall is_byte (_ :: _) |- _ => apply Forall_cons in H as [? H] end.

Ltac same_bytes := rewrite <- ?app_assoc; cbn [app]; repeat f_equal; dlia.

Lemma b64_chunk_decodes strict (o chunk : bytes) :
  Forall is_byte chunk -> length chunk = 3%nat ->
  try_fold (b64_decode_byte strict) (b64_encode_chunk chunk) (mkQuad o 0 0 0 false false)
  = Ok (mkQuad (o ++ chunk) 0 0 0 false false).
Proof.
  intros HF Hl. destruct chunk as [|b0 [|b1 [|b2 [|]]]]; try discriminate. byte_bounds.
  unfold b64_encode_chunk, get_or0. cbn [lookup list_lookup default from_option id length Nat.ltb Nat.leb]. bits.
  etrans; [apply (b64_sextets strict o (b0 / 4) (b0 mod 4 * 16 + b1 / 16) (b1 mod 16 * 4 + b2 / 64) (b2 mod 64) []); dlia|].
  cbn [out try_fold]. do 2 f_equal. same_bytes.
Qed.

(** A short last chunk is closed by its padding. *)
Lemma b64_pads_close strict o left :
  rbind (try_fold (b64_decode_byte strict) [pad_char; pad_char] (mkQuad o 2 left 0 false false)) b64_decode_end = Ok o
  /\ rbind (try_fold (b64_decode_byte strict) [pad_char] (mkQuad o 3 left 0 false false)) b64_decode_end = Ok o.
Proof. by destruct strict. Qed.

Lemma b64_last_decodes strict (o chunk : bytes) :
  Forall is_byte chunk -> (0 < length chunk < 3)%nat ->
  rbind (try_fold (b64_decode_byte strict) (b64_encode_chunk chunk) (mkQuad o 0 0 0 false false)) b64_decode_end
  = Ok (o ++ chunk).
Proof.
  intros HF Hl. destruct chunk as [|b0 [|b1 [|]]]; cbn in Hl; try lia; byte_bounds;
    unfold b64_encode_chunk, get_or0; cbn [lookup list_lookup default from_option id length Nat.ltb Nat.leb]; bits.
  - set (v1 := _ + _ / 2 ^ 4). destruct (b64_sextets strict o (b0 / 4) v1 0 0 [pad_char; pad_char]) as [Hs _]; [subst v1; dlia..|].
    setoid_rewrite Hs. etrans; [apply b64_pads_close|]. do 2 f_equal. subst v1. same_bytes.
  - set (v1 := _ + b1 / 2 ^ 4). set (v2 := _ + 0 / _).
    destruct (b64_sextets strict o (b0 / 4) v1 v2 0 [pad_char]) as [_ [Hs _]]; [subst v1 v2; dlia..|].
    setoid_rewrite Hs. etrans; [apply b64_pads_close|]. cbn [out]. f_equal. subst v1 v2. same_bytes.
Qed.

Abbreviation b64_text data := (mjoin (b64_encode_chunk <$> chunks 3 data)).

Lemma b64_text_app (a l : bytes) : length a = 3%nat -> b64_text (a ++ l) = b64_encode_chunk a ++ b64_text l.
Proof. intros. by rewrite chunks_app by (done || lia). Qed.

Lemma b64_text_decodes strict data o :
  Forall is_byte data ->
  rbind (try_fold (b64_decode_byte strict) (b64_text data) (mkQuad o 0 0 0 false false)) b64_decode_end = Ok (o ++ data).
Proof.
  revert data o. apply (chunk_ind 3 (fun data => forall o, Forall is_byte data -> _)); [lia| |].
  - intros l Hl o HF. destruct (decide (l = [])) as [->|Hn]; [cbn; by rewrite app_nil_r|].
    rewrite chunks_short by (done || lia). rewrite fmap_cons, mjoin_cons, app_nil_r.
    apply b64_last_decodes; [done|]. destruct l; cbn in *; [done|lia].
  - intros a l Ha IH o HF. apply Forall_app in HF as [HFa HFl].
    rewrite b64_text_app, try_fold_app, b64_chunk_decodes by done. cbn [rbind]. rewrite IH by done. by rewrite <- app_assoc.
Qed.

(** The first character of a text is not a pad. *)
Lemma b64_text_head data : Forall is_byte data -> head (b64_text data) <> Some pad_char.
Proof.
  intros HF. destruct data as [|b l]; [done|]. rewrite chunks_cons by (done || lia).
  unfold b64_encode_chunk at 1. cbn [take fmap list_fmap mjoin list_join app head get_or0 lookup list_lookup default from_option id].
  byte_bounds. unfold get_or0. cbn. injection as Heq. revert Heq. apply b64_value_alphabet. bits. dlia.
Qed.

Lemma b64_decode_text strict data : Forall is_byte data -> b64_decode (b64_text data) strict = Ok data.
Proof.
  intros HF. unfold b64_decode. rewrite bool_decide_false by (by apply b64_text_head). rewrite andb_false_r.
  by apply (b64_text_decodes strict data []).
Qed.

Lemma check_then_Ok {W} `{Machine W} n tr (w : W) (x t : bytes) :
  (check_estimated_size n tr w ;? Ok x) = Ok t -> t = x.
Proof. destruct (check_estimated_size n tr w); cbn; [by intros [= ->]|done]. Qed.

Lemma check_Err {W} `{Machine W} n tr (w : W) e :
  check_estimated_size n tr w = Err e -> exists r, e = ResourceErr r.
Proof.
  unfold check_estimated_size. destruct (_ <? n); [|done].
  destruct (check_large_result tr w n); cbn; [done|]. intros [= <-]. eauto.
Qed.

(** A whole number of chunks leaves the decoder at the start of a quad. *)
Lemma b64_whole_decodes strict data o k :
  Forall is_byte data -> (length data mod 3 = 0)%nat ->
  try_fold (b64_decode_byte strict) (b64_text data ++ k) (mkQuad o 0 0 0 false false)
  = try_fold (b64_decode_byte strict) k (mkQuad (o ++ data) 0 0 0 false false).
Proof.
  intros HF Hm. revert data Hm o HF. apply (whole_ind 3 (fun data => forall o, _ -> _)); [lia|intros o _; cbn; by rewrite app_nil_r|].
  intros a l Ha IH o [HFa HFl]%Forall_app.
  rewrite b64_text_app, <- app_assoc, try_fold_app, b64_chunk_decodes by done. cbn [rbind].
  by rewrite IH, <- app_assoc by done.
Qed.

(** Decoding leniently skips what is no character of the code. *)
Definition b64_relevant (byte : Z) : bool := (byte =? pad_char) || bool_decide (is_Some (b64_value byte)).

Lemma b64_skip q byte : b64_relevant byte = false -> b64_decode_byte false q byte = Ok q.
Proof.
  unfold b64_relevant, b64_decode_byte. intros [-> H2]%orb_false_iff.
  by destruct (b64_value byte).
Qed.

Lemma b64_decode_skips data :
  b64_decode data false = b64_decode (List.filter b64_relevant data) false.
Proof.
  unfold b64_decode. cbn [andb]. generalize (mkQuad [] 0 0 0 false false) as q.
  induction data as [|b data IH]; intros q; [done|]. cbn [List.filter try_fold].
  destruct (b64_relevant b) eqn:Hb; cbn [try_fold].
  - destruct (b64_decode_byte false q b); cbn; [apply IH|done].
  - rewrite b64_skip by done. cbn. apply IH.
Qed.

(** What strict decoding accepts, lenient decoding reads alike. *)
Lemma b64_strict_byte q byte q' : b64_decode_byte true q byte = Ok q' -> b64_decode_byte false q byte = Ok q'.
Proof.
  unfold b64_decode_byte, b64_pad. destruct (byte =? pad_char).
  - cbn [andb]. destruct (quad_closed q || _); [done|]. by destruct (quad_pos q =? 1).
  - destruct (b64_value byte); [|done]. cbn [andb]. destruct (quad_closed q); [done|]. by destruct (padding_started q).
Qed.

Lemma b64_strict_lenient data t : b64_decode data true = Ok t -> b64_decode data false = Ok t.
Proof.
  unfold b64_decode. cbn [andb]. case_bool_decide as Hh; [done|]. clear Hh. intros (q & Hq & <-)%rbind_Ok.
  revert Hq. generalize (mkQuad [] 0 0 0 false false) as q0. induction data as [|b data IH]; cbn; intros q0.
  - by intros [= ->].
  - intros (q1 & ->%b64_strict_byte & Hq)%rbind_Ok. cbn. by apply IH.
Qed.

(** ** Translation *)

Lemma translate_two x y a b c :
  is_byte x -> is_byte y -> is_byte c ->
  index (translate_table [x; y] [a; b]) c = if c =? y then b else if c =? x then a else c.
Proof.
  intros Hx Hy Hc. unfold translate_table. cbn [zip zip_with foldl].
  apply index_lookup; [dlia|].
  assert (length (seqZ 0 256) = 256%nat) as Hlen by (by vm_compute).
  destruct (Z.eqb_spec c y) as [->|Hcy]; [apply list_lookup_insert_eq; rewrite length_insert, Hlen; dlia|].
  rewrite list_lookup_insert_ne by dlia.
  destruct (Z.eqb_spec c x) as [->|Hcx]; [apply list_lookup_insert_eq; rewrite Hlen; dlia|].
  rewrite list_lookup_insert_ne by dlia. apply lookup_seqZ. dlia.
Qed.

(** Every character of a text is in the alphabet or a pad. *)
Definition b64_letter (c : Z) : Prop := c ∈ B64_ALPHABET ++ [pad_char].

Lemma b64_chunk_letters chunk : Forall is_byte chunk -> Forall b64_letter (b64_encode_chunk chunk).
Proof.
  assert (forall v, 0 <= v < 64 -> b64_letter (index B64_ALPHABET v)) as Hin.
  { intros v Hv. apply elem_of_app. left. apply list_elem_of_In, nth_In. change (length B64_ALPHABET) with 64%nat. lia. }
  assert (b64_letter pad_char) by (apply elem_of_app; right; by apply list_elem_of_singleton).
  intros HF. assert (forall i, is_byte (get_or0 chunk i)) as Hb.
  { intros i. unfold get_or0. destruct (chunk !! i) eqn:Hi; cbn; [by eapply Forall_lookup_1|unfold is_byte; lia]. }
  pose proof (Hb 0%nat). pose proof (Hb 1%nat). pose proof (Hb 2%nat). unfold b64_encode_chunk. bits.
  rewrite !Forall_cons. split_and!; repeat case_match; try done; apply Hin; dlia.
Qed.

Lemma b64_text_letters data : Forall is_byte data -> Forall b64_letter (b64_text data).
Proof.
  revert data. apply (chunk_ind 3 (fun data => Forall is_byte data -> _)); [lia| |].
  - intros [|x l] Hl HF; [done|]. rewrite chunks_short by (done || lia). rewrite fmap_cons, mjoin_cons, app_nil_r. by apply b64_chunk_letters.
  - intros a l Ha IH [HFa HFl]%Forall_app. rewrite b64_text_app by done. apply Forall_app; auto using b64_chunk_letters.
Qed.

(** Substitutes for [+] and [/] that no other character of the code uses. *)
Definition alt_free (c : Z) : Prop := is_byte c /\ c ∉ take 62 B64_ALPHABET ++ [pad_char].
Definition good_alt (alt : option bytes) : Prop :=
  match alt with
  | None => True
  | Some l => exists a b, l = [a; b] /\ alt_free a /\ alt_free b /\ a <> b
  end.

Lemma b64_letter_byte c : b64_letter c -> is_byte c.
Proof.
  assert (forallb (fun c => (0 <=? c) && (c <? 256)) (B64_ALPHABET ++ [pad_char]) = true) as HF by (vm_compute; reflexivity).
  intros Hc. rewrite forallb_forall in HF. by apply list_elem_of_In, HF, andb_prop in Hc as [?%Z.leb_le ?%Z.ltb_lt].
Qed.

Lemma translate_back text a b :
  Forall b64_letter text -> alt_free a -> alt_free b -> a <> b ->
  translate (translate text (blit "+/") [a; b]) [a; b] (blit "+/") = text.
Proof.
  intros HF [Ha Ha'] [Hb Hb'] Hab. unfold translate. rewrite <- list_fmap_compose.
  rewrite <- (list_fmap_id text) at 2. apply list_fmap_ext. intros i c Hc. unfold compose, id.
  rewrite Forall_lookup in HF. specialize (HF i c Hc). pose proof (b64_letter_byte c HF) as Hcb.
  change (blit "+/") with [43; 47].
  rewrite (translate_two 43 47 a b c) by done.
  rewrite translate_two by (done || (repeat case_match; done)).
  assert (c ∈ take 62 B64_ALPHABET ++ [pad_char] \/ c = 43 \/ c = 47) as [Hin|[->| ->]].
  { apply elem_of_app in HF as [HF|HF]; [|left; apply elem_of_app; by right].
    rewrite <- (take_drop 62 B64_ALPHABET) in HF. apply elem_of_app in HF as [HF|HF]; [left; apply elem_of_app; by left|].
    change (drop 62 B64_ALPHABET) with [43; 47] in HF. right.
    apply elem_of_cons in HF as [->|HF%list_elem_of_singleton]; auto. }
  - assert (c <> 43 /\ c <> 47 /\ c <> a /\ c <> b) as (?&?&?&?).
    { assert (~ 43 ∈ take 62 B64_ALPHABET ++ [pad_char] /\ ~ 47 ∈ take 62 B64_ALPHABET ++ [pad_char]) as [? ?]
        by (split; by apply (bool_decide_eq_false_1 _); vm_compute).
      split_and!; congruence. }
    destruct (Z.eqb_spec c 47), (Z.eqb_spec c 43), (Z.eqb_spec c b), (Z.eqb_spec c a); congruence.
  - cbn. destruct (Z.eqb_spec a b); [done|]. by rewrite Z.eqb_refl.
  - cbn. by rewrite Z.eqb_refl.
Qed.

(** ** Lines *)

Definition mime_line (chunk : bytes) : bytes := b64_text chunk ++ [newline].

Section Lines.
Context {W : Type} `{Machine W}.
Variables (tr : ResourceTracker) (w : W).

Lemma encodebytes_lines l acc :
  Forall (fun c => 0 < length c <= MAX_BIN_SIZE)%nat l ->
  try_fold (encodebytes_line tr w) l acc = Ok (acc ++ mjoin (mime_line <$> l)).
Proof.
  revert acc. induction l as [|c l IH]; intros acc HF; cbn; [by rewrite app_nil_r|].
  apply Forall_cons in HF as [Hc HF]. unfold encodebytes_line at 1, b64_encode, b64_encode_reserving, check_estimated_size.
  rewrite (proj2 (Z.ltb_ge _ _)); [cbn; rewrite IH by done; unfold mime_line; by rewrite <- !app_assoc|].
  unfold ceil_div, zlen, LARGE_RESULT_THRESHOLD, MAX_BIN_SIZE in *. dlia.
Qed.

Lemma mime_text_decodes data o :
  Forall is_byte data ->
  rbind (try_fold (b64_decode_byte false) (mjoin (mime_line <$> chunks MAX_BIN_SIZE data)) (mkQuad o 0 0 0 false false))
        b64_decode_end = Ok (o ++ data).
Proof.
  revert data o. apply (chunk_ind MAX_BIN_SIZE (fun data => forall o, Forall is_byte data -> _)); [unfold MAX_BIN_SIZE; lia| |].
  - intros l Hl o HF. destruct (decide (l = [])) as [->|Hn]; [cbn; by rewrite app_nil_r|].
    rewrite chunks_short by (done || lia). rewrite fmap_cons, mjoin_cons. unfold mime_line.
    rewrite app_nil_r, try_fold_app. pose proof (b64_text_decodes false l o HF) as Hd.
    destruct (try_fold _ (b64_text l) _) as [q|]; [|done]. exact Hd.
  - intros a l Ha IH o HF. apply Forall_app in HF as [HFa HFl]. unfold MAX_BIN_SIZE in Ha.
    rewrite chunks_app by (done || (unfold MAX_BIN_SIZE; lia)). rewrite fmap_cons, mjoin_cons. unfold mime_line at 1.
    rewrite <- app_assoc, b64_whole_decodes by (done || by rewrite Ha). cbn [app try_fold].
    rewrite b64_skip by done. cbn [rbind]. rewrite IH by done. by rewrite <- app_assoc.
Qed.

Lemma b64_text_length data : zlen (b64_text data) = ceil_div (zlen data) 3 * 4.
Proof.
  rewrite <- (length_chunks 3) by lia. induction (chunks 3 data) as [|c l IH]; [done|].
  rewrite fmap_cons, mjoin_cons, zlen_app, IH. unfold zlen. cbn [length b64_encode_chunk]. lia.
Qed.

Lemma mime_line_ok c :
  (0 < length c <= MAX_BIN_SIZE)%nat -> Forall is_byte c -> (length (b64_text c) <= MAX_LINE_SIZE)%nat /\ newline ∉ b64_text c.
Proof.
  intros Hc HF. split.
  - pose proof (b64_text_length c) as Hl. unfold ceil_div, zlen, MAX_BIN_SIZE, MAX_LINE_SIZE in *. dlia.
  - intros Hin. pose proof (b64_text_letters c HF) as HL. rewrite Forall_forall in HL. apply HL in Hin. revert Hin.
    apply (bool_decide_eq_false_1 (newline ∈ B64_ALPHABET ++ [pad_char])). by vm_compute.
Qed.

(** Only the memory limit stops an encoder. *)
Definition within_limit {A} (r : result A CodecError) (P : A -> Prop) : Prop :=
  match r with Ok a => P a | Err e => exists e', e = ResourceErr e' end.

Lemma within_limit_check n (x : bytes) (P : bytes -> Prop) :
  P x -> within_limit (check_estimated_size n tr w ;? Ok x) P.
Proof. intros HP. destruct (check_estimated_size n tr w) eqn:Hc; cbn; [done|]. by eapply check_Err. Qed.

Lemma within_limit_bind {A B} (m : result A CodecError) (k : A -> result B CodecError) P Q :
  within_limit m P -> (forall a, P a -> within_limit (k a) Q) -> within_limit (rbind m k) Q.
Proof. destruct m; cbn; auto. Qed.

Lemma within_limit_mono {A} (m : result A CodecError) (P Q : A -> Prop) :
  within_limit m P -> (forall a, P a -> Q a) -> within_limit m Q.
Proof. destruct m; cbn; auto. Qed.

Lemma b64_encode_text data extra : within_limit (b64_encode_reserving tr w data extra) (eq (b64_text data)).
Proof. by apply within_limit_check. Qed.

(** C26: Base64 loses nothing. Unless the memory limit refuses the result, what
    [b64encode] returns for a byte string decodes, strictly or not, to that string, with
    any substitutes for [+] and [/] that are distinct and not otherwise used; so do the
    URL-safe pair, and [encodebytes], whose lines are of at most 76 characters. Decoding
    that is not strict skips every byte that is no character of the code, and reads alike
    what strict decoding accepts. *)
Theorem base64_roundtrip data alt validate :
  Forall is_byte data -> good_alt alt ->
  within_limit (call_b64encode tr w data alt) (fun text => call_b64decode text alt validate = Ok data)
  /\ within_limit (call_urlsafe_b64encode tr w data) (fun text => call_urlsafe_b64decode text = Ok data)
  /\ within_limit (call_encodebytes tr w data)
       (fun text => call_decodebytes text = Ok data
          /\ exists lines, text = mjoin ((fun l => l ++ [newline]) <$> lines)
                           /\ Forall (fun l => length l <= MAX_LINE_SIZE /\ newline ∉ l)%nat lines)
  /\ (forall text, b64_decode text false = b64_decode (List.filter b64_relevant text) false)
  /\ (forall text out, b64_decode text true = Ok out -> b64_decode text false = Ok out).
Proof.
  intros HF Halt. split_and!; [| | |apply b64_decode_skips|apply b64_strict_lenient].
  - eapply within_limit_bind; [apply b64_encode_text|]. intros text <-. destruct alt as [l|]; cbn [good_alt] in Halt.
    + destruct Halt as (a & b & -> & Ha & Hb & Hab). unfold call_b64decode. cbn [assert_len_bytes length Nat.eqb rbind within_limit].
      rewrite translate_back by auto using b64_text_letters. by apply b64_decode_text.
    + by apply b64_decode_text.
  - eapply within_limit_bind; [apply b64_encode_text|]. intros text <-. cbn [within_limit]. unfold call_urlsafe_b64decode.
    change (blit "-_") with [45; 95]. rewrite translate_back; [by apply b64_decode_text|by apply b64_text_letters|..|done];
      (split; [done|apply (bool_decide_eq_false_1 _); by vm_compute]).
  - unfold call_encodebytes. rewrite encodebytes_lines by (apply chunks_le; unfold MAX_BIN_SIZE; lia).
    apply within_limit_check. split; [by apply (mime_text_decodes data [])|].
    exists ((fun c => b64_text c) <$> chunks MAX_BIN_SIZE data). split; [by rewrite <- list_fmap_compose|].
    assert (0 < MAX_BIN_SIZE)%nat as Hn by (unfold MAX_BIN_SIZE; lia).
    pose proof (chunks_le MAX_BIN_SIZE data Hn) as Hle. pose proof (chunks_Forall is_byte MAX_BIN_SIZE data Hn HF) as HFc.
    apply Forall_fmap. eapply Forall_impl; [apply Forall_and; split; [apply Hle|apply HFc]|]. cbn. intros c [Hc Hb].
    by apply mime_line_ok.
Qed.
End Lines.

(** ** Witnesses *)

Lemma bytes_checked (l : bytes) : forallb (fun b => (0 <=? b) && (b <? 256)) l = true -> Forall is_byte l.
Proof.
  intros Hl. apply Forall_forall. intros b Hb. rewrite forallb_forall in Hl.
  apply list_elem_of_In, Hl, andb_prop in Hb as [?%Z.leb_le ?%Z.ltb_lt]. done.
Qed.

Definition free_tracker : ResourceTracker := new_tracker default_limits.

Lemma base64_roundtrip_witness :
  Forall is_byte (blit "hi?>") /\ good_alt (Some (blit "-_"))
  /\ call_b64encode free_tracker sim_start (blit "hi?>") (Some (blit "-_")) = Ok (blit "aGk_Pg==")
  /\ call_b64decode (blit "aGk_Pg==") (Some (blit "-_")) true = Ok (blit "hi?>").
Proof.
  assert (Forall is_byte (blit "hi?>")) as HF by (by apply bytes_checked).
  assert (good_alt (Some (blit "-_"))) as HA.
  { exists 45, 95. split_and!; [done|split; [done|by apply (bool_decide_eq_false_1 _)]
                               |split; [done|by apply (bool_decide_eq_false_1 _)]|done]. }
  split_and!; [exact HF|exact HA|by vm_compute|].
  exact (proj1 (base64_roundtrip free_tracker sim_start (blit "hi?>") (Some (blit "-_")) true HF HA)).
Defined.

(** * Numbers in a base

    The digits of a number and the number of its digits, most significant first: what
    the big-endian words of the codecs and their base-32 and base-85 digits have in
    common. *)
#[local] Open Scope Z_scope.

Fixpoint digits (B : Z) (n : nat) (x : Z) : list Z :=
  match n with
  | O => []
  | S n' => digits B n' (x / B) ++ [x mod B]
  end.

Definition undigits (B : Z) (l : list Z) : Z := foldl (fun acc d => acc * B + d) 0 l.

Section Base.
Context (B : Z) (HB : 1 < B).

Lemma digits_length n x : length (digits B n x) = n.
Proof. revert x. induction n as [|n IH]; intros x; cbn; [done|]. rewrite length_app, IH. cbn. lia. Qed.

Lemma digits_bound n x : Forall (fun d => 0 <= d < B) (digits B n x).
Proof.
  revert x. induction n as [|n IH]; intros x; cbn; [done|]. apply Forall_app. split; [apply IH|].
  repeat constructor; apply Z.mod_pos_bound; lia.
Qed.

Lemma undigits_snoc l d : undigits B (l ++ [d]) = undigits B l * B + d.
Proof. unfold undigits. by rewrite foldl_app. Qed.

Lemma undigits_app l k : undigits B (l ++ k) = undigits B l * B ^ zlen k + undigits B k.
Proof.
  induction k as [|d k IH] using rev_ind; [rewrite app_nil_r; change (undigits B []) with 0; change (B ^ zlen []) with 1; lia|].
  rewrite app_assoc, !undigits_snoc, IH, zlen_snoc, Z.pow_add_r by (pose proof (zlen_nonneg k); lia). lia.
Qed.

Lemma undigits_bound l : Forall (fun d => 0 <= d < B) l -> 0 <= undigits B l < B ^ zlen l.
Proof.
  induction l as [|d l IH] using rev_ind; intros HF; [change (undigits B []) with 0; change (B ^ zlen []) with 1; lia|].
  apply Forall_app in HF as [HF Hd]. inversion_clear Hd as [|?? Hd' _]. specialize (IH HF).
  rewrite undigits_snoc, zlen_snoc, Z.pow_add_r by (pose proof (zlen_nonneg l); lia). nia.
Qed.

Lemma undigits_digits n x : 0 <= x < B ^ Z.of_nat n -> undigits B (digits B n x) = x.
Proof.
  revert x. induction n as [|n IH]; intros x Hx; [change (B ^ Z.of_nat 0) with 1 in Hx; change (undigits B (digits B 0 x)) with 0; lia|]. cbn [digits].
  rewrite undigits_snoc, IH; [pose proof (Z.div_mod x B); lia|].
  rewrite Nat2Z.inj_succ, Z.pow_succ_r in Hx by lia. split; [apply Z.div_pos; lia|apply Z.div_lt_upper_bound; lia].
Qed.

Lemma digits_undigits l : Forall (fun d => 0 <= d < B) l -> digits B (length l) (undigits B l) = l.
Proof.
  induction l as [|d l IH] using rev_ind; intros HF; [done|].
  apply Forall_app in HF as [HF Hd]. inversion_clear Hd as [|?? Hd' _].
  rewrite length_app, Nat.add_comm. cbn [length Nat.add digits]. rewrite undigits_snoc.
  rewrite Z.div_add_l, (Z.div_small d), Z.add_0_r, IH by (done || lia).
  by rewrite Z.add_comm, Z.mod_add, Z.mod_small by lia.
Qed.

(** The leading digits are the digits of the quotient. *)
Lemma digits_take k m x : take k (digits B (k + m) x) = digits B k (x / B ^ Z.of_nat m).
Proof.
  revert x. induction m as [|m IH]; intros x.
  - rewrite Nat.add_0_r, Z.div_1_r. apply take_ge. by rewrite digits_length.
  - replace (k + S m)%nat with (S (k + m)) by lia. cbn [digits].
    rewrite take_app_le by (rewrite digits_length; lia). rewrite IH.
    rewrite Nat2Z.inj_succ, Z.pow_succ_r, Z.div_div by lia. done.
Qed.

Lemma digits_zeros k x : 0 <= x -> digits B k (x * B ^ Z.of_nat k) = replicate k 0.
Proof.
  intros Hx. revert x Hx. induction k as [|k IH]; intros x Hx; [done|].
  rewrite replicate_S_end. cbn [digits].
  rewrite Nat2Z.inj_succ, Z.pow_succ_r by lia. replace (x * (B * B ^ Z.of_nat k)) with (x * B ^ Z.of_nat k * B) by lia.
  rewrite Z.div_mul, Z.mod_mul by lia. by rewrite IH.
Qed.

(** Number by number. *)
Lemma digits_add k m x y :
  0 <= y < B ^ Z.of_nat m -> digits B (k + m) (x * B ^ Z.of_nat m + y) = digits B k x ++ digits B m y.
Proof.
  revert x y. induction m as [|m IH]; intros x y Hy.
  - change (B ^ Z.of_nat 0) with 1 in *. assert (y = 0) as -> by lia. rewrite Nat.add_0_r.
    change (digits B 0 0) with (@nil Z). rewrite app_nil_r. f_equal. lia.
  - replace (k + S m)%nat with (S (k + m)) by lia. cbn [digits]. rewrite app_assoc.
    rewrite Nat2Z.inj_succ, Z.pow_succ_r in * by lia.
    replace (x * (B * B ^ Z.of_nat m) + y) with (x * B ^ Z.of_nat m * B + y) by lia.
    rewrite Z.div_add_l by lia. rewrite IH by (split; [apply Z.div_pos; lia|apply Z.div_lt_upper_bound; lia]).
    by rewrite (Z.add_comm _ y), Z.mod_add by lia.
Qed.

End Base.

(** ** The words of the codecs *)

Lemma be_bytes_digits n x : be_bytes n x = digits 256 n x.
Proof.
  revert x. induction n as [|n IH]; intros x; cbn [be_bytes digits]; [done|].
  rewrite IH, Z.shiftr_div_pow2, (land_mod x 255 8) by lia. done.
Qed.

Lemma digits85_digits f n x : digits85 f n x = f <$> digits 85 n x.
Proof. revert x. induction n as [|n IH]; intros x; cbn [digits85 digits]; [done|]. by rewrite IH, fmap_app. Qed.

Lemma be_word_undigits w n chunk :
  Forall is_byte chunk -> (length chunk <= n)%nat -> 256 ^ Z.of_nat n <= 2 ^ w ->
  be_word w n chunk = undigits 256 (chunk ++ replicate (n - length chunk) 0).
Proof.
  intros HF Hl Hw. unfold be_word, undigits.
  set (l := chunk ++ replicate (n - length chunk) 0).
  assert (forall i, (i < n)%nat -> l !! i = Some (get_or0 chunk i)) as Hget.
  { intros i Hi. unfold l, get_or0. destruct (Nat.lt_ge_cases i (length chunk)) as [Hc|Hc].
    - rewrite lookup_app_l by done. by destruct (lookup_lt_is_Some_2 chunk i Hc) as [b ->].
    - rewrite lookup_app_r, (lookup_ge_None_2 chunk) by done. apply lookup_replicate_2. lia. }
  assert (Forall is_byte l) as HFl by (apply Forall_app; split; [done|apply Forall_replicate; unfold is_byte; lia]).
  assert (length l = n) as Hll by (unfold l; rewrite length_app, length_replicate; lia).
  assert (forall k, (k <= n)%nat ->
    foldl (fun word i => Z.lor (shl w word 8) (get_or0 chunk i)) 0 (seq 0 k) = undigits 256 (take k l)) as Hk;
    [|rewrite Hk, take_ge by lia; done].
  induction k as [|k IH]; intros Hkn; [done|].
  rewrite seq_S, foldl_app, IH by lia. cbn [foldl Nat.add].
  rewrite (take_S_r l k (get_or0 chunk k)) by (apply Hget; lia). rewrite undigits_snoc by lia.
  assert (is_byte (get_or0 chunk k)) as Hb by (eapply Forall_lookup_1; [exact HFl|apply Hget; lia]).
  pose proof (undigits_bound 256 ltac:(lia) (take k l) (Forall_take _ k _ HFl)) as Hu.
  assert (zlen (take k l) = Z.of_nat k) as Hzl by (unfold zlen; rewrite length_take; lia). rewrite Hzl in Hu.
  assert (256 ^ Z.of_nat k * 256 <= 2 ^ w) as Hpw.
  { transitivity (256 ^ Z.of_nat n); [|done]. replace (256 ^ Z.of_nat k * 256) with (256 ^ Z.of_nat (S k)) by (rewrite Nat2Z.inj_succ, Z.pow_succ_r; lia).
    apply Z.pow_le_mono_r; lia. }
  apply lor_shl; [lia|exact Hb|lia|]. change (2 ^ 8) with 256. nia.
Qed.

Lemma undigits_zeros B l k : undigits B (l ++ replicate k 0) = undigits B l * B ^ Z.of_nat k.
Proof.
  induction k as [|k IH]; [cbn [replicate]; rewrite app_nil_r; change (B ^ Z.of_nat 0) with 1; lia|].
  rewrite replicate_S_end, app_assoc, undigits_snoc, IH, Nat2Z.inj_succ, Z.pow_succ_r by lia. lia.
Qed.
