(* ===== verification/BaseNProps.v ===== *)
(** * Round trips of base16, base32, base85 and Z85 *)
From S2P Require Import Prelude Resource Bytes Base64 Base64Props.

#[local] Open Scope Z_scope.
#[local] Open Scope monty_scope.

(** ** Base16 *)

Definition b16_text (data : bytes) : bytes :=
  mjoin ((fun byte => [index B16_HEX (Z.shiftr byte 4); index B16_HEX (Z.land byte 15)]) <$> data).

Definition is_hex (b : Z) : bool := within_chars "0" "9" b || within_chars "A" "F" b.

Lemma b16_digit : forall v, 0 <= v < 16 ->
  (is_hex (index B16_HEX v) = true /\ ascii_upper (index B16_HEX v) = index B16_HEX v /\ hex_value (index B16_HEX v) = v).
Proof. below 16%nat. Qed.

Lemma b16_text_hex data : Forall is_byte data ->
  Forall (fun c => is_hex c = true /\ ascii_upper c = c) (b16_text data) /\ length (b16_text data) = (length data * 2)%nat.
Proof.
  induction 1 as [|b data Hb _ [IH IHl]]; [done|]. unfold b16_text. rewrite fmap_cons, mjoin_cons, length_app. fold (b16_text data).
  split; [|cbn; lia]. repeat apply Forall_cons_2; [..|exact IH]; bits; split; eapply b16_digit; dlia.
Qed.

Lemma b16_pairs data : Forall is_byte data ->
  (fun pair => Z.lor (shl 8 (hex_value (get_or0 pair 0)) 4) (hex_value (get_or0 pair 1))) <$> chunks 2 (b16_text data) = data.
Proof.
  induction 1 as [|b data Hb _ IH]; [done|]. unfold b16_text. rewrite fmap_cons, mjoin_cons. fold (b16_text data).
  rewrite chunks_app by (done || lia). rewrite fmap_cons. f_equal; [|exact IH].
  unfold get_or0. cbn [lookup list_lookup default from_option id]. bits.
  rewrite !(fun v H => proj2 (proj2 (b16_digit v H))) by dlia. bits. dlia.
Qed.

Lemma upper_id (l : bytes) (casefold : bool) :
  Forall (fun c => ascii_upper c = c) l -> (if casefold then ascii_upper <$> l else l) = l.
Proof. intros HF. destruct casefold; [|done]. induction HF as [|c l Hc _ IH]; cbn; by rewrite ?Hc, ?IH. Qed.

Lemma b16_text_decodes data casefold : Forall is_byte data -> b16_decode (b16_text data) casefold = Ok data.
Proof.
  intros HF. destruct (b16_text_hex data HF) as [Hx Hl]. unfold b16_decode.
  rewrite upper_id by (eapply Forall_impl; [exact Hx|by intros ? []]).
  assert (existsb (fun b => negb (is_hex b)) (b16_text data) = false) as He.
  { clear Hl. induction Hx as [|c l [Hc _] _ IH]; cbn; [done|]. by rewrite Hc, IH. }
  unfold is_hex in He. rewrite He. unfold zlen. rewrite Hl, Nat2Z.inj_mul, Z.mod_mul by lia. cbn [Z.eqb negb].
  by rewrite b16_pairs.
Qed.

(** ** Base32 *)

(** What base32 needs of its alphabet. *)
Record b32_alphabet (alphabet : bytes) : Prop := {
  b32_position : forall v, 0 <= v < 32 -> position (index alphabet v) alphabet = Some v;
  b32_plain : forall v, 0 <= v < 32 ->
    index alphabet v <> pad_char /\ ascii_upper (index alphabet v) = index alphabet v /\ is_byte (index alphabet v) }.

Lemma b32_standard : b32_alphabet B32_ALPHABET.
Proof. split; unfold is_byte; below 32%nat. Qed.
Lemma b32_hex : b32_alphabet B32HEX_ALPHABET.
Proof. split; unfold is_byte; below 32%nat. Qed.

(** The characters a chunk of some length is written with, and its pads. *)
Definition b32_len (n : nat) : nat := match n with 1 => 2 | 2 => 4 | 3 => 5 | 4 => 7 | _ => 8 end%nat.

Section Base32.
Context (alphabet : bytes) (Ha : b32_alphabet alphabet).

Lemma b32_chunk_digits chunk :
  Forall is_byte chunk -> (0 < length chunk <= 5)%nat ->
  b32_encode_chunk alphabet chunk =
    (index alphabet <$> take (b32_len (length chunk)) (digits 32 8 (be_word 64 5 chunk)))
    ++ replicate (8 - b32_len (length chunk)) pad_char.
Proof.
  intros HF Hl. unfold b32_encode_chunk. set (acc := be_word 64 5 chunk). fold (b32_len (length chunk)).
  assert (digits 32 8 acc = (fun i => Z.land (Z.shiftr acc (35 - Z.of_nat i * 5)) 31) <$> seq 0 8) as ->.
  { cbn -[Z.div Z.modulo Z.land Z.shiftr]. bits. rewrite ?Z.div_div by lia. by rewrite Z.div_1_r. }
  by destruct chunk as [|? [|? [|? [|? [|? [|]]]]]]; cbn in Hl; try lia.
Qed.

Lemma b32_digits_fold vs acc :
  Forall (fun d => 0 <= d < 32) vs -> 0 <= acc -> acc * 32 ^ zlen vs + 32 ^ zlen vs <= 2 ^ 64 ->
  try_fold (b32_digit alphabet) (index alphabet <$> vs) acc = Ok (acc * 32 ^ zlen vs + undigits 32 vs).
Proof.
  intros HF. revert acc. induction HF as [|v vs Hv HF IH]; intros acc H0 Hacc.
  - change (zlen []) with 0. change (undigits 32 []) with 0. cbn [fmap list_fmap try_fold]. f_equal. lia.
  - rewrite fmap_cons. cbn [try_fold]. unfold b32_digit at 1. rewrite (b32_position _ Ha) by done. cbn [rbind].
    assert (zlen (v :: vs) = zlen vs + 1) as Hz by (unfold zlen; cbn; lia). pose proof (zlen_nonneg vs).
    rewrite Hz, Z.pow_add_r in * by lia. change (32 ^ 1) with 32 in *.
    assert (1 <= 32 ^ zlen vs) by (apply (Z.pow_le_mono_r 32 0); lia).
    rewrite lor_shl by (lia || (change (2 ^ 5) with 32; nia)). change (2 ^ 5) with 32.
    rewrite IH by nia. f_equal. change (v :: vs) with ([v] ++ vs). rewrite undigits_app by lia.
    change (undigits 32 [v]) with v. lia.
Qed.

Lemma strip_pads_app a p : last a <> Some pad_char ->
  strip_pads (length (a ++ replicate p pad_char)) (a ++ replicate p pad_char) = length a.
Proof.
  intros Hl. rewrite length_app, length_replicate.
  assert (forall k, (k <= p)%nat -> strip_pads (length a + k) (a ++ replicate p pad_char) = length a) as H; [|by apply H].
  induction k as [|k IH]; intros Hk.
  - rewrite Nat.add_0_r. destruct a as [|x a'] using rev_ind; [done|]. clear IHa'.
    rewrite length_app, Nat.add_comm. cbn [length Nat.add strip_pads].
    rewrite bool_decide_false; [done|]. rewrite <- app_assoc, lookup_app_r, Nat.sub_diag by lia. cbn.
    by rewrite last_snoc in Hl.
  - rewrite Nat.add_succ_r. cbn [strip_pads]. rewrite bool_decide_true; [apply IH; lia|].
    rewrite lookup_app_r by lia. apply lookup_replicate_2. lia.
Qed.

(** The characters of a text before its padding, and the padding. *)
Definition b32_chars (chunk : bytes) : bytes :=
  index alphabet <$> take (b32_len (length chunk)) (digits 32 8 (be_word 64 5 chunk)).
Definition b32_letters (data : bytes) : bytes := mjoin (b32_chars <$> chunks 5 data).
Definition b32_pads (data : bytes) : nat := match (length data mod 5)%nat with 1 => 6 | 2 => 4 | 3 => 3 | 4 => 1 | _ => 0 end%nat.

Lemma b32_letters_app a l : length a = 5%nat -> b32_letters (a ++ l) = b32_chars a ++ b32_letters l.
Proof. intros. unfold b32_letters. rewrite chunks_app by (done || lia). by rewrite fmap_cons, mjoin_cons. Qed.

Lemma b32_pads_app (a l : bytes) : length a = 5%nat -> b32_pads (a ++ l) = b32_pads l.
Proof.
  intros Hl. unfold b32_pads. rewrite length_app, Hl. replace (5 + length l)%nat with (length l + 1 * 5)%nat by lia.
  by rewrite Nat.Div0.mod_add.
Qed.

Lemma b32_letters_short l : (0 < length l <= 5)%nat -> b32_letters l = b32_chars l.
Proof.
  intros Hl. unfold b32_letters. rewrite chunks_short; [|by destruct l; cbn in *; [lia|]|lia].
  rewrite fmap_cons, mjoin_cons. apply app_nil_r.
Qed.

Lemma b32_text_split data :
  Forall is_byte data ->
  mjoin (b32_encode_chunk alphabet <$> chunks 5 data) = b32_letters data ++ replicate (b32_pads data) pad_char.
Proof.
  revert data. apply (chunk_ind 5 (fun data => Forall is_byte data -> _)); [lia| |].
  - intros l Hl HF. destruct (decide (l = [])) as [->|Hn]; [done|].
    assert (0 < length l)%nat by (destruct l; cbn; [done|lia]).
    rewrite b32_letters_short, chunks_short by (done || lia). rewrite fmap_cons, mjoin_cons, app_nil_r.
    rewrite b32_chunk_digits by (done || lia). unfold b32_chars, b32_pads. rewrite Nat.mod_small by lia.
    by destruct (length l) as [|[|[|[|[|]]]]]; try lia.
  - intros a l Hl IH [HFa HFl]%Forall_app. rewrite chunks_app by (done || lia).
    rewrite fmap_cons, mjoin_cons, IH, b32_letters_app, b32_pads_app, <- app_assoc by done. f_equal.
    rewrite b32_chunk_digits by (done || lia). unfold b32_chars. rewrite Hl. apply app_nil_r.
Qed.

(** What [b32_decode] does after its loop. *)
Definition b32_finish (pad_chars : Z) (st : bytes * Z) : result bytes CodecError :=
  if negb (bool_decide (pad_chars ∈ [0; 1; 3; 4; 6])) then Err incorrect_padding
  else if (0 <? pad_chars) && negb (bool_decide (st.1 = [])) then
    let shifted := shl 64 st.2 (5 * pad_chars) in
    let leftover := Z.to_nat ((43 - 5 * pad_chars) / 8) in
    Ok (truncate_by 5 st.1 ++ take leftover (be_bytes 5 shifted))
  else Ok st.1.

Lemma b32_chars_group chunk o la :
  Forall is_byte chunk -> (0 < length chunk <= 5)%nat ->
  let word := undigits 256 chunk * 256 ^ Z.of_nat (5 - length chunk) in
  let acc := word / 32 ^ Z.of_nat (8 - b32_len (length chunk)) in
  b32_group alphabet (o, la) (b32_chars chunk) = Ok (o ++ be_bytes 5 acc, acc).
Proof.
  intros HF Hl word acc. unfold b32_group, b32_chars.
  rewrite be_word_undigits, undigits_zeros by (done || lia). fold word.
  set (k := b32_len (length chunk)) in *. set (p := (8 - k)%nat) in *.
  assert (k + p = 8)%nat as Hkp by (subst k p; destruct (length chunk) as [|[|[|[|[|]]]]]; cbn; lia).
  assert (0 <= word < 32 ^ 8) as Hw.
  { pose proof (undigits_bound 256 ltac:(lia) chunk HF) as Hu. subst word. unfold zlen in Hu.
    change (32 ^ 8) with (256 ^ (Z.of_nat 5)). replace (Z.of_nat 5) with (Z.of_nat (length chunk) + Z.of_nat (5 - length chunk)) by lia.
    rewrite Z.pow_add_r by lia. nia. }
  rewrite <- Hkp, digits_take by lia. fold acc.
  assert (0 <= acc < 32 ^ Z.of_nat k) as Hacc.
  { subst acc. split; [apply Z.div_pos; lia|]. apply Z.div_lt_upper_bound; [lia|]. rewrite <- Z.pow_add_r by lia.
    replace (Z.of_nat p + Z.of_nat k) with 8 by lia. lia. }
  assert (zlen (digits 32 k acc) = Z.of_nat k) as Hz by (unfold zlen; by rewrite digits_length).
  assert (32 ^ Z.of_nat k <= 32 ^ 8) by (apply Z.pow_le_mono_r; lia).
  rewrite b32_digits_fold; [|by apply digits_bound|lia|rewrite Hz; lia].
  cbn [rbind fst]. rewrite undigits_digits by (done || lia). by rewrite Z.mul_0_l.
Qed.

Lemma b32_tail_finish chunk o la :
  Forall is_byte chunk -> (0 < length chunk < 5)%nat ->
  rbind (b32_group alphabet (o, la) (b32_chars chunk)) (b32_finish (Z.of_nat (b32_pads chunk))) = Ok (o ++ chunk).
Proof.
  intros HF Hl. rewrite b32_chars_group by (done || lia). cbn [rbind].
  pose proof (undigits_bound 256 ltac:(lia) chunk HF) as Hu. set (U := undigits 256 chunk) in *.
  set (word := U * 256 ^ Z.of_nat (5 - length chunk)).
  assert (take (length chunk) (be_bytes 5 word) = chunk) as Hchunk.
  { rewrite be_bytes_digits. replace 5%nat with (length chunk + (5 - length chunk))%nat at 1 by lia.
    rewrite digits_take by lia. subst word. rewrite Z.div_mul by lia. apply digits_undigits; [lia|done]. }
  set (acc := word / _). unfold b32_finish. cbn [fst snd].
  assert (truncate_by 5 (o ++ be_bytes 5 acc) = o) as Htr.
  { unfold truncate_by. rewrite length_app, be_bytes_length, Nat.add_sub. apply take_app_length. }
  rewrite (bool_decide_false (o ++ _ = [])) by (intros [_ ?]%app_eq_nil; by apply (f_equal length) in H; rewrite be_bytes_length in H).
  rewrite Htr. unfold b32_pads. rewrite Nat.mod_small by lia. unfold zlen in Hu.
  destruct (length chunk) as [|[|[|[|[|]]]]] eqn:Hn; try lia; cbn [Z.of_nat Pos.of_succ_nat Pos.succ];
    rewrite bool_decide_true by set_solver; cbn [negb andb Z.ltb Z.compare];
    (rewrite shl_mul by lia;
     match goal with |- context [be_bytes 5 ?x] => replace x with word end;
     [do 2 f_equal; exact Hchunk|subst acc word; cbn -[Z.div Z.modulo Z.mul Z.pow] in *; dlia]).
Qed.
Lemma b32_letters_decode data o la :
  Forall is_byte data ->
  rbind (try_fold (b32_group alphabet) (chunks 8 (b32_letters data)) (o, la)) (b32_finish (Z.of_nat (b32_pads data)))
  = Ok (o ++ data).
Proof.
  revert data o la. apply (chunk_ind 5 (fun data => forall o la, Forall is_byte data -> _)); [lia| |].
  - intros l Hl o la HF. destruct (decide (l = [])) as [->|Hn]; [cbn; by rewrite app_nil_r|].
    assert (0 < length l)%nat by (destruct l; cbn; [done|lia]). rewrite b32_letters_short by lia.
    assert (length (b32_chars l) = b32_len (length l)) as Hc.
    { unfold b32_chars. rewrite length_fmap, length_take, digits_length. destruct (length l) as [|[|[|[|[|]]]]]; cbn; lia. }
    rewrite chunks_short; [|intros He; rewrite He in Hc|rewrite Hc];
      [|destruct (length l) as [|[|[|[|[|]]]]]; cbn in *; lia..].
    cbn [try_fold]. rewrite <- (b32_tail_finish l o la) by (done || lia).
    by destruct (b32_group alphabet (o, la) (b32_chars l)).
  - intros a l Hl IH o la [HFa HFl]%Forall_app. rewrite b32_letters_app, b32_pads_app by done.
    rewrite chunks_app; [|lia|unfold b32_chars; by rewrite Hl, length_fmap, length_take, digits_length].
    cbn [try_fold]. rewrite b32_chars_group by (done || lia). cbn [rbind]. rewrite IH, <- app_assoc by done. do 2 f_equal.
    rewrite Hl. cbn [b32_len Nat.sub Z.of_nat]. rewrite Z.mul_1_r, Z.div_1_r, be_bytes_digits, <- Hl.
    rewrite digits_undigits by (done || lia). done.
Qed.

Lemma b32_letters_plain data :
  Forall (fun c => c <> pad_char /\ ascii_upper c = c /\ is_byte c /\ exists v, 0 <= v < 32 /\ c = index alphabet v) (b32_letters data).
Proof.
  unfold b32_letters. induction (chunks 5 data) as [|c l IH]; [done|]. rewrite fmap_cons, mjoin_cons.
  apply Forall_app. split; [|exact IH]. apply Forall_fmap, Forall_take. eapply Forall_impl; [by apply digits_bound|].
  cbn. intros v Hv. destruct (b32_plain _ Ha v Hv) as (?&?&?). by split_and!; [..|exists v].
Qed.

Lemma b32_text_decodes data casefold :
  Forall is_byte data ->
  b32_decode (mjoin (b32_encode_chunk alphabet <$> chunks 5 data)) alphabet casefold = Ok data.
Proof.
  intros HF. rewrite b32_text_split by done. pose proof (b32_letters_plain data) as HL.
  set (letters := b32_letters data) in *. set (p := b32_pads data). unfold b32_decode.
  rewrite upper_id; [|apply Forall_app; split; [by eapply Forall_impl; [exact HL|intros ? (_&?&_)]|by apply Forall_replicate]].
  rewrite strip_pads_app, take_app_length, length_app, length_replicate.
  2:{ intros Hlast. apply last_Some_elem_of in Hlast. rewrite Forall_forall in HL. by apply HL in Hlast as [? _]. }
  replace (length letters + p - length letters)%nat with p by lia.
  etrans; [|exact (b32_letters_decode data [] 0 HF)]. fold letters p. by destruct (try_fold _ _ _) as [[out la]|].
Qed.

Lemma b32_text_length data : zlen (mjoin (b32_encode_chunk alphabet <$> chunks 5 data)) mod 8 = 0.
Proof.
  assert (zlen (mjoin (b32_encode_chunk alphabet <$> chunks 5 data)) = zlen (chunks 5 data) * 8) as ->; [|apply Z.mod_mul; lia].
  induction (chunks 5 data) as [|c l IH]; [done|]. rewrite fmap_cons, mjoin_cons, zlen_app, IH. unfold zlen. cbn [length].
  unfold b32_encode_chunk. rewrite length_fmap, length_seq. lia.
Qed.

End Base32.

(** ** Base85 and Z85 *)

Record b85_alphabet (alphabet : bytes) : Prop := {
  b85_lookup : forall v, 0 <= v < 85 -> mjoin (base85_table alphabet !! Z.to_nat (index alphabet v)) = Some v }.

Lemma b85_standard : b85_alphabet B85_ALPHABET.
Proof. split. below 85%nat. Qed.
Lemma b85_z85 : b85_alphabet Z85_ALPHABET.
Proof. split. below 85%nat. Qed.

(** A word of fewer than four bytes, cut to the digits that matter and completed with
    the highest digit, still starts with its bytes. *)
Lemma word_completed U n p :
  (n + p = 4)%nat -> (0 < n)%nat -> 0 <= U < 256 ^ Z.of_nat n ->
  let word := U * 256 ^ Z.of_nat p in
  let acc := word / 85 ^ Z.of_nat p * 85 ^ Z.of_nat p + (85 ^ Z.of_nat p - 1) in
  0 <= acc < 2 ^ 32 /\ acc / 256 ^ Z.of_nat p = U.
Proof.
  intros Hnp Hn HU word acc. subst word acc.
  destruct p as [|[|[|[|]]]]; try lia; replace n with (4 - n + n + n - 4)%nat in HU by lia;
    (destruct n as [|[|[|[|[|]]]]]; try lia); cbn -[Z.div Z.mul Z.pow] in *; dlia.
Qed.

Lemma undigits_84 p : (p < 4)%nat -> undigits 85 (replicate p 84) = 85 ^ Z.of_nat p - 1.
Proof. intros Hp. destruct p as [|[|[|[|]]]]; [done..|lia]. Qed.

Section Base85.
Context (alphabet : bytes) (Ha : b85_alphabet alphabet).

Lemma b85_digits_fold codec start vs :
  Forall (fun d => 0 <= d < 85) vs -> (length vs <= 5)%nat ->
  try_fold (b85_digit (base85_table alphabet) codec start (index alphabet <$> vs)) (seq 0 5) 0
  = Ok (undigits 85 (vs ++ replicate (5 - length vs) 84)).
Proof.
  intros HF Hl. set (l := vs ++ replicate (5 - length vs) 84).
  assert (length l = 5%nat) as Hll by (unfold l; rewrite length_app, length_replicate; lia).
  assert (forall k, (k <= 5)%nat ->
    try_fold (b85_digit (base85_table alphabet) codec start (index alphabet <$> vs)) (seq 0 k) 0 = Ok (undigits 85 (take k l))) as H;
    [|rewrite H, take_ge by lia; done].
  induction k as [|k IH]; intros Hk; [done|].
  rewrite seq_S, try_fold_app, IH by lia. cbn [rbind try_fold Nat.add]. unfold b85_digit. rewrite list_lookup_fmap.
  destruct (lookup_lt_is_Some_2 l k ltac:(lia)) as [d Hd].
  rewrite (take_S_r l k d Hd), undigits_snoc by lia. unfold l in Hd.
  destruct (vs !! k) as [v|] eqn:Hv; cbn [fmap option_fmap option_map].
  - rewrite (lookup_app_l_Some _ _ _ _ Hv) in Hd. injection Hd as <-.
    rewrite (b85_lookup _ Ha) by (by eapply Forall_lookup_1 in HF). done.
  - rewrite lookup_app_r in Hd by (by apply lookup_ge_None_1). by apply lookup_replicate in Hd as [-> _].
Qed.

(** The characters of a text before its padding, and with it. *)
Definition b85_chars (chunk : bytes) : bytes :=
  index alphabet <$> take (S (length chunk)) (digits 85 5 (be_word 32 4 chunk)).
Definition b85_letters (data : bytes) : bytes := mjoin (b85_chars <$> chunks 4 data).
Definition b85_full (data : bytes) : bytes :=
  mjoin ((fun chunk => digits85 (index alphabet) 5 (be_word 32 4 chunk)) <$> chunks 4 data).

Lemma b85_full_app a l : length a = 4%nat -> b85_full (a ++ l) = b85_chars a ++ b85_full l.
Proof.
  intros Hl. unfold b85_full. rewrite chunks_app, fmap_cons, mjoin_cons by (done || lia). f_equal.
  unfold b85_chars. rewrite digits85_digits, Hl, take_ge by (rewrite digits_length; lia). done.
Qed.

Lemma b85_letters_app a l : length a = 4%nat -> b85_letters (a ++ l) = b85_chars a ++ b85_letters l.
Proof. intros. unfold b85_letters. rewrite chunks_app by (done || lia). by rewrite fmap_cons, mjoin_cons. Qed.

Lemma b85_short l : (0 < length l <= 4)%nat ->
  b85_letters l = b85_chars l /\ b85_full l = digits85 (index alphabet) 5 (be_word 32 4 l).
Proof.
  intros Hl. assert (l <> []) by (destruct l; cbn in *; [lia|done]). unfold b85_letters, b85_full.
  rewrite chunks_short by (done || lia). rewrite !fmap_cons, !mjoin_cons. by rewrite !app_nil_r.
Qed.

Lemma b85_full_length data : length (b85_full data) = (5 * length (chunks 4 data))%nat.
Proof.
  unfold b85_full. induction (chunks 4 data) as [|c l IH]; [done|].
  rewrite fmap_cons, mjoin_cons, length_app, IH, digits85_digits, length_fmap, digits_length. cbn. lia.
Qed.

Lemma padding4_le data : (padding 4 data <= length (b85_full data))%nat.
Proof.
  rewrite b85_full_length. destruct data as [|x l]; [rewrite padding_nil; lia|].
  rewrite chunks_cons by (done || lia). cbn [length]. unfold padding. dlia.
Qed.

Lemma b85_truncated data : truncate_by (padding 4 data) (b85_full data) = b85_letters data.
Proof.
  revert data. apply (chunk_ind 4); [lia| |].
  - intros l Hl. destruct (decide (l = [])) as [->|Hn]; [done|].
    assert (0 < length l)%nat by (destruct l; cbn; [done|lia]). destruct (b85_short l) as [-> ->]; [lia|].
    rewrite padding_short by lia. unfold truncate_by, b85_chars.
    rewrite digits85_digits, length_fmap, digits_length, fmap_take. f_equal. lia.
  - intros a l Hl IH. rewrite padding_app, b85_full_app, b85_letters_app, truncate_by_app, IH by (done || lia || apply padding4_le).
    done.
Qed.

Lemma b85_chars_hunk codec o start chunk :
  Forall is_byte chunk -> (0 < length chunk <= 4)%nat ->
  exists word, b85_hunk (base85_table alphabet) codec (o, start) (b85_chars chunk) = Ok (o ++ word, start + 5)
    /\ length word = 4%nat /\ take (length chunk) word = chunk.
Proof.
  intros HF Hl. set (p := (4 - length chunk)%nat). set (U := undigits 256 chunk).
  pose proof (undigits_bound 256 ltac:(lia) chunk HF) as HU. fold U in HU. unfold zlen in HU.
  destruct (word_completed U (length chunk) p) as [Hacc Hdiv]; [lia..|]. set (word := U * 256 ^ Z.of_nat p) in *.
  set (acc := _ + _) in *. exists (be_bytes 4 acc). split_and!; [|apply be_bytes_length|].
  - unfold b85_hunk, b85_chars. rewrite be_word_undigits, undigits_zeros by (done || lia). fold p U word.
    replace 5%nat with (S (length chunk) + p)%nat at 1 by lia. rewrite digits_take by lia.
    assert (0 <= word < 256 ^ 4) as Hw.
    { subst word. change (256 ^ 4) with (256 ^ Z.of_nat 4). replace 4%nat with (length chunk + p)%nat by lia.
      rewrite Nat2Z.inj_add, Z.pow_add_r by lia. nia. }
    rewrite b85_digits_fold; [|by apply digits_bound|rewrite digits_length; lia].
    rewrite digits_length. replace (5 - S (length chunk))%nat with p by lia. cbn [rbind].
    rewrite undigits_app, undigits_digits by (lia || (split; [apply Z.div_pos; lia|];
      apply Z.div_lt_upper_bound; [lia|]; rewrite <- Z.pow_add_r by lia;
      replace (Z.of_nat p + Z.of_nat (S (length chunk))) with 5 by lia; lia)).
    rewrite undigits_84 by lia. unfold zlen. rewrite length_replicate. fold acc. rewrite (proj2 (Z.ltb_lt acc (2 ^ 32))) by lia. done.
  - rewrite be_bytes_digits. replace 4%nat with (length chunk + p)%nat at 1 by lia. rewrite digits_take, Hdiv by lia.
    by apply digits_undigits.
Qed.

Lemma b85_letters_decode codec data o start :
  Forall is_byte data ->
  rbind (try_fold (b85_hunk (base85_table alphabet) codec) (chunks 5 (b85_letters data)) (o, start))
        (fun '(out, _) => Ok (truncate_by (padding 5 (b85_letters data)) out)) = Ok (o ++ data).
Proof.
  revert data o start. apply (chunk_ind 4 (fun data => forall o start, Forall is_byte data -> _)); [lia| |].
  - intros l Hl o start HF. destruct (decide (l = [])) as [->|Hn]; [cbn; by rewrite app_nil_r, truncate_by_0|].
    assert (0 < length l)%nat by (destruct l; cbn; [done|lia]). destruct (b85_short l) as [-> _]; [lia|].
    assert (length (b85_chars l) = S (length l)) as Hc.
    { unfold b85_chars. rewrite length_fmap, length_take, digits_length. lia. }
    rewrite chunks_short by (lia || (intros He; by rewrite He in Hc)).
    destruct (b85_chars_hunk codec o start l) as (word & Hh & Hw & Ht); [done|lia|]. cbn [try_fold]. rewrite Hh.
    cbn [rbind]. rewrite padding_short, Hc, truncate_by_app by lia. unfold truncate_by. rewrite Hw.
    by replace (4 - (5 - S (length l)))%nat with (length l) by lia; rewrite Ht.
  - intros a l Hl IH o start [HFa HFl]%Forall_app. rewrite b85_letters_app by done.
    assert (length (b85_chars a) = 5%nat) as Hc.
    { unfold b85_chars. rewrite length_fmap, length_take, digits_length. lia. }
    rewrite chunks_app, padding_app by (done || lia). cbn [try_fold].
    destruct (b85_chars_hunk codec o start a) as (word & -> & Hw & Ht); [done|lia|]. cbn [rbind].
    rewrite IH, <- app_assoc by done. by rewrite take_ge in Ht by lia; subst.
Qed.

Lemma b85_letters_roundtrip codec data : Forall is_byte data -> b85_decode (b85_letters data) alphabet codec = Ok data.
Proof. intros HF. exact (b85_letters_decode codec data [] 0 HF). Qed.

(** Zeros complete the last word as the encoder does. *)
Lemma b85_full_zeros data : b85_full data = b85_letters (data ++ replicate (padding 4 data) 0).
Proof.
  revert data. apply (chunk_ind 4); [lia| |].
  - intros l Hl. destruct (decide (l = [])) as [->|Hn]; [done|].
    assert (0 < length l)%nat by (destruct l; cbn; [done|lia]). rewrite padding_short by lia.
    destruct (b85_short l) as [_ ->]; [lia|]. set (l' := l ++ _).
    assert (length l' = 4%nat) as Hl' by (unfold l'; rewrite length_app, length_replicate; lia).
    destruct (b85_short l') as [-> _]; [lia|]. unfold b85_chars. rewrite digits85_digits, Hl', take_ge by (rewrite digits_length; lia).
    unfold l'. by rewrite be_word_zeros.
  - intros a l Hl IH. by rewrite padding_app, b85_full_app, <- app_assoc, b85_letters_app, IH by (done || lia).
Qed.

End Base85.

(** ** The functions of the module *)

Lemma map01_id data m :
  Forall is_byte data ->
  let text := mjoin (b32_encode_chunk B32_ALPHABET <$> chunks 5 data) in
  translate text (blit "01") [ch "O"; m] = text.
Proof.
  intros HF text. unfold translate. rewrite <- (list_fmap_id text) at 2. apply list_fmap_ext. intros i c Hc.
  assert (is_byte c /\ c <> 48 /\ c <> 49) as (Hb & H48 & H49).
  { apply list_elem_of_lookup_2 in Hc. unfold text in Hc. rewrite b32_text_split in Hc by done.
    apply elem_of_app in Hc as [Hc|Hc%elem_of_replicate_inv]; [|subst; done].
    pose proof (b32_letters_plain _ b32_standard data) as HL. rewrite Forall_forall in HL.
    apply HL in Hc as (_ & _ & Hb & v & Hv & ->). split; [done|]. revert v Hv Hb.
    assert (forall v, 0 <= v < 32 -> index B32_ALPHABET v <> 48 /\ index B32_ALPHABET v <> 49) as H by below 32%nat. auto. }
  change (blit "01") with [48; 49]. rewrite translate_two by done. unfold id.
  by rewrite (proj2 (Z.eqb_neq c 49) H49), (proj2 (Z.eqb_neq c 48) H48).
Qed.

Section Module_functions.
Context {W : Type} `{Machine W}.
Variables (tr : ResourceTracker) (w : W).

Lemma b85_encode_roundtrip alphabet codec data pad :
  b85_alphabet alphabet -> Forall is_byte data ->
  within_limit (b85_encode tr w data alphabet pad)
    (fun text => b85_decode text alphabet codec = Ok (data ++ if pad then replicate (padding 4 data) 0 else [])).
Proof.
  intros Ha HF. unfold b85_encode. apply within_limit_check. fold (b85_full alphabet data). change (padding4 data) with (padding 4 data).
  destruct pad.
  - rewrite b85_full_zeros. apply b85_letters_roundtrip; [done|]. apply Forall_app. split; [done|].
    apply Forall_replicate. unfold is_byte. lia.
  - rewrite b85_truncated, app_nil_r. by apply b85_letters_roundtrip.
Qed.

(** C27: The other bases lose nothing either. Unless the memory limit refuses the
    result, base16, base32 with either alphabet, base85 and Z85 decode what they encode to
    the same byte string, with case folding or without, and, for base32, with the digits
    [0] and [1] mapped or not; base85 written with its padding decodes to the string
    completed with zeros to a multiple of four bytes. *)
Theorem base_n_roundtrip data casefold map01 pad :
  Forall is_byte data -> match map01 with Some m => length m = 1%nat | None => True end ->
  within_limit (call_b16encode tr w data) (fun text => call_b16decode text casefold = Ok data)
  /\ within_limit (call_b32encode tr w data) (fun text => call_b32decode text casefold map01 = Ok data)
  /\ within_limit (call_b32hexencode tr w data) (fun text => call_b32hexdecode text casefold = Ok data)
  /\ within_limit (call_b85encode tr w data pad)
       (fun text => call_b85decode text = Ok (data ++ if pad then replicate (padding 4 data) 0 else []))
  /\ within_limit (call_z85encode tr w data) (fun text => call_z85decode text = Ok data).
Proof.
  intros HF Hm. split_and!.
  - apply within_limit_check. by apply b16_text_decodes.
  - apply within_limit_check. unfold call_b32decode. rewrite b32_text_length. cbn [Z.eqb negb].
    destruct map01 as [m|]; [|apply b32_text_decodes; [apply b32_standard|done]].
    unfold assert_len_bytes. rewrite Hm. cbn [Nat.eqb rbind]. rewrite map01_id by done.
    apply b32_text_decodes; [apply b32_standard|done].
  - apply within_limit_check. unfold call_b32hexdecode. rewrite b32_text_length. cbn [Z.eqb negb].
    apply b32_text_decodes; [apply b32_hex|done].
  - apply b85_encode_roundtrip; [apply b85_standard|done].
  - eapply within_limit_mono; [apply (b85_encode_roundtrip Z85_ALPHABET "z85" data false); [apply b85_z85|done]|].
    intros text Ht. by rewrite app_nil_r in Ht.
Qed.

End Module_functions.

Lemma base_n_roundtrip_witness :
  Forall is_byte (blit "monty")
  /\ call_b32encode free_tracker sim_start (blit "monty") = Ok (blit "NVXW45DZ")
  /\ call_b85encode free_tracker sim_start (blit "monty") true = Ok (blit "ZEtRLc>n+a")
  /\ call_b85decode (blit "ZEtRLc>n+a") = Ok (blit "monty" ++ [0; 0; 0]).
Proof.
  assert (Forall is_byte (blit "monty")) as HF by (by apply bytes_checked).
  split_and!; [exact HF|by vm_compute..|].
  exact (proj1 (proj2 (proj2 (proj2 (base_n_roundtrip free_tracker sim_start (blit "monty") true (Some (blit "L")) true HF eq_refl))))).
Defined.
