(* ===== verification/A85Props.v ===== *)
(** * Theorems about Ascii85 *)
From S2P Require Import Prelude Resource Bytes Base64 Base64Props BaseNProps.

#[local] Open Scope Z_scope.
#[local] Open Scope monty_scope.

Definition a85_digit (v : Z) : Z := A85_FIRST_DIGIT + v.

Section Decode.
Context {W : Type} `{Machine W}.
Abbreviation VM := (ResourceTracker * W)%type.
Implicit Types (s : VM) (st : A85) (ignore : IgnoreChars (W := W)).

(** ** How much is written *)

Definition is_word (foldspaces : bool) (byte : Z) : bool := (byte =? ch "z") || (foldspaces && (byte =? ch "y")).
Definition count (p : Z -> bool) (l : bytes) : Z := zlen (filter (fun byte => p byte = true) l).

Lemma count_cons p b l : count p (b :: l) = (if p b then 1 else 0) + count p l.
Proof.
  unfold count. rewrite filter_cons. destruct (p b) eqn:Hb; [rewrite decide_True by done|rewrite decide_False by done];
    unfold zlen; cbn [length]; lia.
Qed.

Lemma count_app p l k : count p (l ++ k) = count p l + count p k.
Proof. unfold count. by rewrite filter_app, zlen_app. Qed.

Lemma is_word_digit fold b : is_word fold b = true -> is_a85_digit b = false.
Proof.
  unfold is_word, is_a85_digit. intros [Hz|[_ Hy]%andb_prop]%orb_prop; [apply Z.eqb_eq in Hz as ->|apply Z.eqb_eq in Hy as ->]; done.
Qed.

(** A digit counts four, and four bytes twenty: what is read is written or held. *)
Lemma a85_byte_amount fold ignore st byte s st' s' :
  a85_decode_byte fold ignore st byte s = (Ok st', s') -> 0 <= a_digits st < 5 ->
  0 <= a_digits st' < 5 /\
  5 * zlen (a_out st') + 4 * a_digits st'
  = 5 * zlen (a_out st) + 4 * a_digits st + 4 * (if is_a85_digit byte then 1 else 0) + 20 * (if is_word fold byte then 1 else 0).
Proof.
  intros Hr Hd. unfold a85_decode_byte in Hr.
  destruct (is_a85_digit byte) eqn:Hdig.
  { assert (is_word fold byte = false) as -> by (destruct (is_word fold byte) eqn:Hw; [by rewrite (is_word_digit fold) in Hdig|done]).
    destruct (Z.eqb_spec (a_digits st + 1) 5); [destruct (_ <? 2 ^ 32); [|done]|];
      injection Hr as <- _; cbn [a_digits a_out]; rewrite ?zlen_app; [|lia].
    unfold zlen. cbn -[Z.mul Z.add]. lia. }
  unfold is_word. destruct (byte =? ch "z"); cbn [orb].
  { destruct (Z.eqb_spec (a_digits st) 0); [|done]. injection Hr as <- _. cbn [a_digits a_out].
    rewrite zlen_app. unfold zlen. cbn [length replicate]. lia. }
  destruct (fold && (byte =? ch "y")).
  { destruct (Z.eqb_spec (a_digits st) 0); [|done]. injection Hr as <- _. cbn [a_digits a_out].
    rewrite zlen_app. unfold zlen. cbn -[Z.mul Z.add]. lia. }
  unfold sbind in Hr. destruct (check_time_every _ s) as [[[]|] s1]; cbn in Hr; [|done].
  destruct (skips ignore byte s1) as [[[]|] s2]; cbn in Hr; try done. injection Hr as <- _. cbn [a_digits a_out]. lia.
Qed.

Lemma a85_bytes_amount fold ignore l st s st' s' :
  a85_decode_bytes fold ignore l st s = (Ok st', s') -> 0 <= a_digits st < 5 ->
  0 <= a_digits st' < 5 /\
  5 * zlen (a_out st') + 4 * a_digits st'
  = 5 * zlen (a_out st) + 4 * a_digits st + 4 * count is_a85_digit l + 20 * count (is_word fold) l.
Proof.
  revert st s. induction l as [|b l IH]; intros st s Hr Hd; cbn in Hr.
  - injection Hr as <- _. change (count _ []) with 0. lia.
  - unfold sbind in Hr. destruct (a85_decode_byte fold ignore st b s) as [[st1|] s1] eqn:Hb; [|done].
    apply a85_byte_amount in Hb as [Hd1 Hb]; [|done]. apply IH in Hr as [? Hr]; [|done]. rewrite !count_cons. lia.
Qed.

(** ** Digits *)

Lemma a85_digit_is v : 0 <= v < 85 -> is_a85_digit (a85_digit v) = true.
Proof.
  intros Hv. unfold is_a85_digit, a85_digit. change A85_FIRST_DIGIT with 33. change A85_LAST_DIGIT with 117.
  apply andb_true_intro. split; apply Z.leb_le; lia.
Qed.

(** Digits that do not complete a word. *)
Lemma a85_digits_held fold ignore vs o acc d i k s :
  Forall (fun v => 0 <= v < 85) vs -> d + zlen vs < 5 ->
  a85_decode_bytes fold ignore ((a85_digit <$> vs) ++ k) (mkA85 o acc d i) s
  = a85_decode_bytes fold ignore k (mkA85 o (acc * 85 ^ zlen vs + undigits 85 vs) (d + zlen vs) i) s.
Proof.
  intros HF. revert acc d. induction HF as [|v vs Hv HF IH]; intros acc d Hd.
  - cbn [fmap list_fmap app]. change (zlen []) with 0. change (undigits 85 []) with 0. f_equal. f_equal; lia.
  - rewrite fmap_cons. cbn [app a85_decode_bytes]. unfold sbind, a85_decode_byte at 1. rewrite a85_digit_is by done.
    assert (zlen (v :: vs) = 1 + zlen vs) as Hz by (unfold zlen; cbn; lia). rewrite Hz in *. pose proof (zlen_nonneg vs).
    cbn [a_digits a_acc a_out a_ignored]. rewrite (proj2 (Z.eqb_neq (d + 1) 5)) by lia. cbn [sret].
    rewrite IH by lia. f_equal. change (v :: vs) with ([v] ++ vs). rewrite undigits_app by lia.
    change (undigits 85 [v]) with v. unfold a85_digit. rewrite Z.pow_add_r by lia. f_equal; lia.
Qed.

(** Digits that complete one. *)
Lemma a85_digits_word fold ignore vs o acc d i k s :
  Forall (fun v => 0 <= v < 85) vs -> vs <> [] -> d + zlen vs = 5 ->
  let word := acc * 85 ^ zlen vs + undigits 85 vs in
  word < 2 ^ 32 ->
  a85_decode_bytes fold ignore ((a85_digit <$> vs) ++ k) (mkA85 o acc d i) s
  = a85_decode_bytes fold ignore k (mkA85 (o ++ be_bytes 4 word) 0 0 i) s.
Proof.
  intros HF Hne Hd word Hw. destruct vs as [|v vs _] using rev_ind; [done|].
  apply Forall_app in HF as [HF Hv]. inversion_clear Hv as [|?? Hv' _]. rewrite fmap_app, <- app_assoc.
  rewrite zlen_snoc in Hd. rewrite a85_digits_held by (done || lia). cbn [fmap list_fmap app a85_decode_bytes].
  unfold sbind, a85_decode_byte at 1. rewrite a85_digit_is by done. cbn [a_digits a_acc a_out a_ignored].
  rewrite (proj2 (Z.eqb_eq (d + zlen vs + 1) 5)) by lia. pose proof (zlen_nonneg vs).
  assert ((acc * 85 ^ zlen vs + undigits 85 vs) * 85 + (a85_digit v - A85_FIRST_DIGIT) = word) as ->.
  { subst word. rewrite zlen_snoc, Z.pow_add_r, undigits_snoc by lia. unfold a85_digit. lia. }
  by rewrite (proj2 (Z.ltb_lt word (2 ^ 32))) by lia.
Qed.

(** ** Words *)

Lemma four_bytes_word chunk :
  Forall is_byte chunk -> length chunk = 4%nat ->
  0 <= be_word 32 4 chunk < 2 ^ 32 /\ be_bytes 4 (be_word 32 4 chunk) = chunk.
Proof.
  intros HF Hl. rewrite be_word_undigits by (done || lia). rewrite Hl, app_nil_r.
  split; [|rewrite be_bytes_digits, <- Hl; by apply digits_undigits].
  pose proof (undigits_bound 256 ltac:(lia) chunk HF) as Hb. unfold zlen in Hb. by rewrite Hl in Hb.
Qed.

Lemma a85_word_decodes fold ignore chunk o i k s :
  Forall is_byte chunk -> length chunk = 4%nat ->
  a85_decode_bytes fold ignore (a85_word fold chunk ++ k) (mkA85 o 0 0 i) s
  = a85_decode_bytes fold ignore k (mkA85 (o ++ chunk) 0 0 i) s.
Proof.
  intros HF Hl. destruct (four_bytes_word chunk HF Hl) as [Hw Hb]. unfold a85_word. set (word := be_word 32 4 chunk) in *.
  destruct (Z.eqb_spec word 0) as [H0|H0]; [by rewrite <- Hb, H0|].
  destruct (fold && (word =? 0x20202020)) eqn:Hy.
  - apply andb_prop in Hy as [-> Hy%Z.eqb_eq]. by rewrite <- Hb, Hy.
  - rewrite digits85_digits. change (fun v => A85_FIRST_DIGIT + v) with a85_digit.
    assert (zlen (digits 85 5 word) = 5) as Hz by (unfold zlen; by rewrite digits_length).
    assert (undigits 85 (digits 85 5 word) = word) as Hu by (apply undigits_digits; [lia|]; lia).
    rewrite a85_digits_word; [|by apply digits_bound|by intros He; rewrite He in Hz|lia|rewrite Hu; lia].
    by rewrite Hu, Z.mul_0_l, Z.add_0_l, Hb.
Qed.
(** ** Texts *)

Lemma a85_whole_decodes fold ignore data o i k s :
  Forall is_byte data -> (length data mod 4 = 0)%nat ->
  a85_decode_bytes fold ignore (mjoin (a85_word fold <$> chunks 4 data) ++ k) (mkA85 o 0 0 i) s
  = a85_decode_bytes fold ignore k (mkA85 (o ++ data) 0 0 i) s.
Proof.
  intros HF Hm. revert data Hm o HF. apply (whole_ind 4 (fun data => forall o, _ -> _)); [lia|intros o _; by rewrite app_nil_r|].
  intros a l Ha IH o [HFa HFl]%Forall_app.
  rewrite chunks_app, fmap_cons, mjoin_cons, <- app_assoc, a85_word_decodes, IH by (done || lia).
  by rewrite <- app_assoc.
Qed.

(** What is written of a short last chunk. *)
Definition a85_tail (fold pad : bool) (tail : bytes) : bytes :=
  if bool_decide (tail = []) then []
  else if pad then a85_word fold tail
  else a85_digit <$> take (S (length tail)) (digits 85 5 (be_word 32 4 tail)).

Definition a85_text (fold pad : bool) (whole tail : bytes) : bytes :=
  mjoin (a85_word fold <$> chunks 4 whole) ++ a85_tail fold pad tail.

Definition flush : bytes := replicate 4 A85_LAST_DIGIT.
Definition a85_finish (st : A85) : bytes := truncate_by (Z.to_nat (4 - a_digits st)) (a_out st).

Lemma flush_word_start fold ignore o i s :
  a85_decode_bytes fold ignore flush (mkA85 o 0 0 i) s = (Ok (mkA85 o (undigits 85 (replicate 4 84)) 4 i), s).
Proof.
  change flush with ((a85_digit <$> replicate 4 84) ++ []). rewrite a85_digits_held; [|by repeat constructor|done]. done.
Qed.

(** The digits of a word that is cut short, completed by the flush. *)
Lemma a85_cut_decodes fold ignore tail o i s :
  Forall is_byte tail -> (0 < length tail < 4)%nat ->
  exists st,
    a85_decode_bytes fold ignore ((a85_digit <$> take (S (length tail)) (digits 85 5 (be_word 32 4 tail))) ++ flush)
      (mkA85 o 0 0 i) s = (Ok st, s)
    /\ a85_finish st = o ++ tail.
Proof.
  intros HF Hl. set (p := (4 - length tail)%nat).
  set (U := undigits 256 tail). pose proof (undigits_bound 256 ltac:(lia) tail HF) as HU. fold U in HU. unfold zlen in HU.
  destruct (word_completed U (length tail) p) as [Hacc Hdiv]; [lia..|].
  rewrite be_word_undigits, undigits_zeros by (done || lia). fold p U. set (word := U * 256 ^ Z.of_nat p) in *.
  set (acc := _ + _) in *. replace 5%nat with (S (length tail) + p)%nat by lia. rewrite digits_take by lia.
  set (vs := digits 85 _ _).
  assert (flush = (a85_digit <$> replicate p 84) ++ (a85_digit <$> replicate (length tail) 84)) as ->.
  { rewrite <- fmap_app, <- replicate_add. replace (p + length tail)%nat with 4%nat by lia. done. }
  rewrite app_assoc, <- fmap_app.
  assert (zlen (replicate p 84) = Z.of_nat p) as Hzp by (unfold zlen; by rewrite length_replicate).
  assert (zlen vs = Z.of_nat (S (length tail))) as Hzv by (unfold zlen; subst vs; by rewrite digits_length).
  assert (0 <= word < 256 ^ 4) as Hword.
  { subst word. change (256 ^ 4) with (256 ^ Z.of_nat 4). replace 4%nat with (length tail + p)%nat by lia.
    rewrite Nat2Z.inj_add, Z.pow_add_r by lia. nia. }
  assert (undigits 85 (vs ++ replicate p 84) = acc) as Hund.
  { rewrite undigits_app, undigits_84, Hzp by lia. subst vs acc. rewrite undigits_digits; [lia..|].
    split; [apply Z.div_pos; lia|]. apply Z.div_lt_upper_bound; [lia|]. rewrite <- Z.pow_add_r by lia.
    replace (Z.of_nat p + Z.of_nat (S (length tail))) with 5 by lia. lia. }
  rewrite a85_digits_word, Hund, Z.mul_0_l, Z.add_0_l;
    [|apply Forall_app; split; [by apply digits_bound|by apply Forall_replicate]
     |intros He%(f_equal zlen); rewrite zlen_app, Hzv in He; pose proof (zlen_nonneg (replicate p 84)); change (zlen []) with 0 in He; lia
     |rewrite zlen_app; lia|rewrite Hund; lia].
  rewrite <- (app_nil_r (a85_digit <$> replicate (length tail) 84)), a85_digits_held;
    [|by apply Forall_replicate|unfold zlen; rewrite length_replicate; lia].
  eexists. split; [done|]. unfold a85_finish. cbn [a_digits a_out].
  unfold zlen at 1. rewrite length_replicate, Z.add_0_l. replace (Z.to_nat (4 - Z.of_nat (length tail))) with p by lia.
  rewrite truncate_by_app by (rewrite be_bytes_length; lia). f_equal. unfold truncate_by. rewrite be_bytes_length.
  replace (4 - p)%nat with (length tail) by lia. rewrite be_bytes_digits. replace 4%nat with (length tail + p)%nat by lia.
  rewrite digits_take, Hdiv by lia. by apply digits_undigits.
Qed.
Lemma a85_tail_decodes fold ignore pad tail o i s :
  Forall is_byte tail -> (length tail < 4)%nat ->
  exists st, a85_decode_bytes fold ignore (a85_tail fold pad tail ++ flush) (mkA85 o 0 0 i) s = (Ok st, s)
    /\ a85_finish st = o ++ tail ++ (if pad then replicate (padding 4 tail) 0 else []).
Proof.
  intros HF Hl. destruct (decide (tail = [])) as [->|Hn].
  { change (a85_tail fold pad [] ++ flush) with flush. rewrite flush_word_start. eexists. split; [done|]. unfold a85_finish. cbn [a_digits a_out].
    change (Z.to_nat (4 - 4)) with 0%nat. rewrite truncate_by_0. destruct pad; cbn; by rewrite app_nil_r. }
  assert (0 < length tail)%nat as H0 by (destruct tail; cbn; [done|lia]).
  rewrite padding_short by lia. set (p := (4 - length tail)%nat). unfold a85_tail.
  rewrite bool_decide_false by done. destruct pad.
  - assert (a85_word fold tail = a85_word fold (tail ++ replicate p 0)) as ->
      by (unfold a85_word; by rewrite be_word_zeros).
    rewrite a85_word_decodes, flush_word_start;
      [|apply Forall_app; split; [done|apply Forall_replicate; unfold is_byte; lia]|rewrite length_app, length_replicate; lia].
    eexists. split; [done|]. unfold a85_finish. cbn [a_digits a_out]. change (Z.to_nat (4 - 4)) with 0%nat.
    by rewrite truncate_by_0.
  - rewrite app_nil_r. by apply a85_cut_decodes.
Qed.

(** ** Newlines *)

Definition not_newline (b : Z) : bool := negb (b =? newline).

Definition a85_like st st' : Prop := (a_out st, a_acc st, a_digits st) = (a_out st', a_acc st', a_digits st').

(** Only a limit that is set stops a computation. *)
Definition stopped_by {A} (limited : Prop) (r : result A CodecError) (P : A -> Prop) : Prop :=
  match r with Ok a => P a | Err e => limited /\ exists e', e = ResourceErr e' end.

Lemma check_time_every_unlimited i s : has_time_limit s.1 = false -> check_time_every i s = (Ok tt, s).
Proof. intros Hs. unfold check_time_every. destruct (_ =? _); [|done]. unfold check_time. by rewrite Hs. Qed.

Lemma a85_byte_like fold ignore st st' byte s s' :
  a85_like st st' -> byte <> newline ->
  is_a85_digit byte || is_word fold byte = true ->
  match a85_decode_byte fold ignore st byte s, a85_decode_byte fold ignore st' byte s' with
  | (Ok a, t), (Ok a', t') => a85_like a a' /\ t = s /\ t' = s'
  | (Err e, t), (Err e', t') => e = e' /\ t = s /\ t' = s'
  | _, _ => False
  end.
Proof.
  intros Hl Hn Hb. injection Hl as Ho Hacc Hd. unfold a85_decode_byte. rewrite Ho, Hacc, Hd.
  destruct (is_a85_digit byte).
  - destruct (_ =? 5); [destruct (_ <? 2 ^ 32)|]; cbn; unfold a85_like; cbn; by rewrite ?Ho.
  - cbn in Hb. unfold is_word in Hb. destruct (byte =? ch "z"); [destruct (negb _); cbn; unfold a85_like; cbn; by rewrite ?Ho, ?Hacc, ?Hd|].
    cbn in Hb. rewrite Hb. destruct (negb _); cbn; unfold a85_like; cbn; by rewrite ?Ho, ?Hacc, ?Hd.
Qed.

Lemma a85_skip_newline fold st s :
  let r := a85_decode_byte fold Default st newline s in
  match r.1 with
  | Ok st' => a85_like st' st /\ (has_time_limit s.1 = false -> r.2 = s)
  | Err e => has_time_limit s.1 = true /\ exists e', e = ResourceErr e'
  end.
Proof.
  unfold a85_decode_byte. change (is_a85_digit newline) with false. change (newline =? ch "z") with false.
  change (newline =? ch "y") with false. rewrite andb_false_r. unfold sbind.
  destruct (has_time_limit s.1) eqn:Ht.
  - destruct (check_time_every _ s) as [[[]|e] s1]; cbn; [done|]. eauto.
  - rewrite check_time_every_unlimited by done. cbn. done.
Qed.

(** Newlines do not change what a text decodes to. *)
Lemma a85_newlines_skipped fold (limited : Prop) l st st' s s' st1 s1' :
  a85_like st st' -> (has_time_limit s.1 = true -> limited) ->
  Forall (fun b => b = newline \/ is_a85_digit b || is_word fold b = true) l ->
  a85_decode_bytes fold Default (List.filter not_newline l) st' s' = (Ok st1, s1') ->
  stopped_by limited (a85_decode_bytes fold Default l st s).1 (fun a => a85_like a st1).
Proof.
  revert st st' s s'. induction l as [|b l IH]; intros st st' s s' Hlike Hlim HF Hrun.
  - cbn in Hrun. injection Hrun as <- _. exact Hlike.
  - apply Forall_cons in HF as [Hb HF]. cbn [List.filter] in Hrun. unfold not_newline at 1 in Hrun.
    cbn [a85_decode_bytes]. unfold sbind. destruct (Z.eqb_spec b newline) as [->|Hn]; cbn [negb] in Hrun.
    + pose proof (a85_skip_newline fold st s) as Hskip. cbn in Hskip.
      destruct (a85_decode_byte fold Default st newline s) as [[a|e] t]; cbn in *.
      * destruct Hskip as [Ha Ht]. eapply IH; [|..|done|exact Hrun]; [exact (eq_trans Ha Hlike)|].
        intros Htl. apply Hlim. destruct (has_time_limit s.1) eqn:E; [done|]. by rewrite Ht, E in Htl.
      * destruct Hskip as [Ht ?]. auto.
    + destruct Hb as [->|Hb]; [done|]. cbn [a85_decode_bytes] in Hrun. unfold sbind in Hrun.
      pose proof (a85_byte_like fold Default st st' b s s' Hlike Hn Hb) as Hstep.
      destruct (a85_decode_byte fold Default st b s) as [[a|e] t], (a85_decode_byte fold Default st' b s') as [[a'|e'] t'];
        try done. destruct Hstep as (Ha & -> & ->). by eapply IH.
Qed.
End Decode.

(** ** Encoding *)

Definition a85_letter (fold : bool) (b : Z) : Prop := is_a85_digit b || is_word fold b = true.

Lemma a85_digits_letters fold vs : Forall (fun v => 0 <= v < 85) vs -> Forall (a85_letter fold) (a85_digit <$> vs).
Proof. intros HF. apply Forall_fmap. eapply Forall_impl; [exact HF|]. intros v Hv. unfold a85_letter. cbn. by rewrite a85_digit_is. Qed.

Lemma a85_word_letters fold chunk : Forall (a85_letter fold) (a85_word fold chunk).
Proof.
  unfold a85_word. destruct (_ =? 0); [by repeat constructor|]. destruct (fold && _) eqn:Hy.
  - apply andb_prop in Hy as [-> _]. by repeat constructor.
  - rewrite digits85_digits. change (fun v => A85_FIRST_DIGIT + v) with a85_digit. by apply a85_digits_letters, digits_bound.
Qed.

Lemma a85_text_letters fold pad whole tail : Forall (a85_letter fold) (a85_text fold pad whole tail).
Proof.
  unfold a85_text. apply Forall_app. split.
  - induction (chunks 4 whole) as [|c l IH]; [done|]. rewrite fmap_cons, mjoin_cons. apply Forall_app. split; [apply a85_word_letters|exact IH].
  - unfold a85_tail. case_bool_decide; [done|]. destruct pad; [apply a85_word_letters|].
    apply a85_digits_letters, Forall_take. by apply digits_bound.
Qed.

Lemma a85_put_all fold l o ls : (foldl (a85_put fold) (o, ls) l).1 = o ++ mjoin (a85_word fold <$> l).
Proof.
  revert o ls. induction l as [|c l IH]; intros o ls; cbn [foldl]; [by rewrite app_nil_r|].
  unfold a85_put at 2. cbn [fst]. rewrite IH, fmap_cons, mjoin_cons. by rewrite app_assoc.
Qed.

(** The last word cut to the digits that matter, also where it was folded. *)
Lemma a85_cut fold X tail :
  Forall is_byte tail -> (0 < length tail < 4)%nat ->
  let out := X ++ a85_word fold tail in
  truncate_by (4 - length tail)
    (if bool_decide (drop (length X) out = [ch "z"]) then take (length X) out ++ replicate 5 A85_FIRST_DIGIT else out)
  = X ++ a85_tail fold false tail.
Proof.
  intros HF Hl out. subst out. rewrite drop_app_length, take_app_length.
  assert (tail <> []) by (destruct tail; cbn in *; [lia|done]). unfold a85_tail. rewrite (bool_decide_false (tail = [])) by done.
  set (word := be_word 32 4 tail). unfold a85_word. fold word.
  assert (forall ds, length ds = 5%nat -> truncate_by (4 - length tail) (X ++ (a85_digit <$> ds)) = X ++ (a85_digit <$> take (S (length tail)) ds)) as Hcut.
  { intros ds Hds. rewrite truncate_by_app by (rewrite length_fmap; lia). f_equal. unfold truncate_by.
    rewrite length_fmap, Hds, fmap_take. f_equal. lia. }
  destruct (Z.eqb_spec word 0) as [H0|H0].
  - rewrite bool_decide_true by done. rewrite H0. change (replicate 5 A85_FIRST_DIGIT) with (a85_digit <$> digits 85 5 0).
    by rewrite Hcut.
  - assert (word <> 0x20202020) as Hy.
    { subst word. rewrite be_word_undigits, undigits_zeros by (done || lia).
      replace (4 - length tail)%nat with (S (3 - length tail)) by lia. rewrite Nat2Z.inj_succ, Z.pow_succ_r by lia.
      intros Heq. apply (f_equal (fun x => x mod 256)) in Heq. revert Heq.
      replace (undigits 256 tail * (256 * 256 ^ Z.of_nat (3 - length tail)))
        with (undigits 256 tail * 256 ^ Z.of_nat (3 - length tail) * 256) by lia. by rewrite Z.mod_mul by lia. }
    rewrite (proj2 (Z.eqb_neq word _) Hy), andb_false_r, digits85_digits.
    change (fun v => A85_FIRST_DIGIT + v) with a85_digit.
    rewrite bool_decide_false by (intros He%(f_equal length); rewrite length_fmap, digits_length in He; done).
    apply Hcut, digits_length.
Qed.

Lemma padding_whole whole tail : (length whole mod 4 = 0)%nat -> padding 4 (whole ++ tail) = padding 4 tail.
Proof. revert whole. apply (whole_ind 4); [lia|done|]. intros a l Ha IH. by rewrite <- app_assoc, padding_app by (done || lia). Qed.

Section Encode.
Context {W : Type} `{Machine W}.
Variables (tr : ResourceTracker) (w : W).

Lemma a85_encode_text fold pad extra whole tail :
  Forall is_byte tail -> (length whole mod 4 = 0)%nat -> (length tail < 4)%nat ->
  within_limit (a85_encode tr w (whole ++ tail) pad fold extra) (eq (a85_text fold pad whole tail)).
Proof.
  intros HF Hw Ht. unfold a85_encode. change (padding4 (whole ++ tail)) with (padding 4 (whole ++ tail)).
  rewrite chunks_whole_app by (done || lia).
  rewrite padding_whole by done.
  unfold a85_text. destruct (decide (tail = [])) as [->|Hn].
  - rewrite chunks_nil, !app_nil_r, padding_nil by lia. pose proof (a85_put_all fold (chunks 4 whole) [] 0) as Hp.
    destruct (foldl _ _ _) as [out ls]. cbn in Hp. subst out. change (a85_tail fold pad []) with (@nil Z). cbn [Nat.eqb negb andb].
    apply within_limit_check. rewrite ?app_nil_r. done.
  - assert (0 < length tail)%nat by (destruct tail; cbn; [done|lia]).
    rewrite (chunks_short 4 tail), padding_short by (done || lia). rewrite foldl_app.
    pose proof (a85_put_all fold (chunks 4 whole) [] 0) as Hp. destruct (foldl _ _ (chunks 4 whole)) as [X ls]. cbn in Hp. subst X.
    cbn [foldl]. unfold a85_put. cbn [fst]. rewrite (proj2 (Nat.eqb_neq (4 - length tail) 0)) by lia. cbn [negb andb].
    apply within_limit_check. destruct pad; cbn [negb].
    + unfold a85_tail. by rewrite bool_decide_false.
    + rewrite a85_cut by (done || lia). done.
Qed.
End Encode.

(** ** Lines and framing *)

Abbreviation joined := (joined_with newline).

Lemma a85_wrap_rest i o n lines :
  0 < i ->
  foldl a85_wrap_line (i, o, n) lines
  = (i + zlen lines, o ++ mjoin (cons newline <$> lines), default n (zlen <$> last lines)).
Proof.
  revert i o n. induction lines as [|l lines IH]; intros i o n Hi.
  - cbn [foldl fmap list_fmap]. rewrite app_nil_r. change (zlen []) with 0. by rewrite Z.add_0_r.
  - cbn [foldl]. unfold a85_wrap_line at 2. rewrite (proj2 (Z.ltb_lt 0 i) Hi), IH by lia.
    rewrite fmap_cons, mjoin_cons, <- !app_assoc. f_equal; [f_equal; unfold zlen; cbn [length]; lia|].
    rewrite last_cons. by destruct (last lines).
Qed.

Lemma a85_wrap_lines lines :
  foldl a85_wrap_line (0, [], 0) lines = (zlen lines, joined lines, default 0 (zlen <$> last lines)).
Proof.
  destruct lines as [|l lines]; [done|]. cbn [foldl]. unfold a85_wrap_line at 2. cbn [Z.ltb Z.compare app].
  rewrite a85_wrap_rest by lia. cbn [joined_with]. f_equal; [f_equal; unfold zlen; cbn [length]; lia|].
  rewrite last_cons. by destruct (last lines).
Qed.

Lemma filter_rest lines : List.filter not_newline (mjoin (cons newline <$> lines)) = List.filter not_newline (mjoin lines).
Proof.
  induction lines as [|l lines IH]; [done|]. rewrite fmap_cons, !mjoin_cons. cbn [app List.filter]. unfold not_newline at 1.
  rewrite Z.eqb_refl. cbn [negb]. rewrite !List.filter_app. f_equal. exact IH.
Qed.

Lemma rest_chars (P : Z -> Prop) lines :
  Forall P (mjoin lines) -> Forall (fun b => b = newline \/ P b) (mjoin (cons newline <$> lines)).
Proof.
  induction lines as [|l lines IH]; [done|]. rewrite fmap_cons, !mjoin_cons. intros [HF1 HF2]%Forall_app.
  cbn [app]. constructor; [by left|]. apply Forall_app. split; [eapply Forall_impl; [exact HF1|by right]|by apply IH].
Qed.

Lemma filter_plain text : Forall (fun b => b <> newline) text -> List.filter not_newline text = text.
Proof.
  induction 1 as [|b l Hb _ IH]; [done|]. cbn. unfold not_newline at 1. rewrite (proj2 (Z.eqb_neq b newline) Hb). cbn.
  by rewrite IH.
Qed.

(** A text without newlines, wrapped, behind a prefix that fits the first line. *)
Lemma wrapped_body width prefix text (P : Z -> Prop) :
  zlen prefix <= width -> 0 < width -> Forall P text -> Forall (fun b => b <> newline) text ->
  exists body, joined (lines_of width (prefix ++ text)) = prefix ++ body
    /\ List.filter not_newline body = text /\ Forall (fun b => b = newline \/ P b) body.
Proof.
  intros Hp Hw HP Hn. pose proof (filter_plain text Hn) as Hft.
  unfold lines_of. set (n := Z.to_nat _).
  assert (0 < n)%nat as Hn0 by (subst n; unfold zlen; lia).
  destruct (decide (prefix ++ text = [])) as [He|He].
  { rewrite He. apply app_eq_nil in He as [-> ->]. by exists []. }
  rewrite chunks_cons by done. cbn [joined_with].
  assert (length prefix <= n)%nat as Hpn by (subst n; rewrite zlen_app; unfold zlen in *; lia).
  rewrite take_app_ge, drop_app_ge by done. set (m := (n - length prefix)%nat).
  exists (take m text ++ mjoin (cons newline <$> chunks n (drop m text))). split; [by rewrite <- app_assoc|].
  rewrite List.filter_app, filter_rest, mjoin_chunks, <- List.filter_app, take_drop by done. split; [done|].
  apply Forall_app. split; [eapply Forall_impl; [apply Forall_take; exact HP|by right]|].
  apply rest_chars. rewrite mjoin_chunks by done. by apply Forall_drop.
Qed.

Lemma strip_framed body : a85_strip_adobe (A85_ADOBE_START ++ body ++ A85_ADOBE_END) true = Ok body.
Proof.
  unfold a85_strip_adobe. cbn [negb]. set (d := A85_ADOBE_START ++ body ++ A85_ADOBE_END).
  assert (length d = (2 + length body + 2)%nat) as Hd by (subst d; rewrite !length_app; cbn; lia).
  assert (ends_with A85_ADOBE_END d = true) as ->.
  { unfold ends_with. apply bool_decide_eq_true. split; [|rewrite Hd; cbn; lia]. subst d.
    rewrite app_assoc. rewrite length_app, Nat.add_sub. apply drop_app_length. }
  assert (starts_with A85_ADOBE_START d = true) as -> by (apply bool_decide_eq_true; subst d; apply take_app_length).
  change (length A85_ADOBE_START) with 2%nat. change (length A85_ADOBE_END) with 2%nat. rewrite Hd.
  rewrite Nat.add_sub, (proj2 (Nat.leb_le _ _)) by lia. f_equal. subst d.
  rewrite app_assoc, take_app_length' by (rewrite length_app; cbn; lia). apply drop_app_length'. done.
Qed.

Lemma joined_snoc lines x : lines <> [] -> joined (lines ++ [x]) = joined lines ++ newline :: x.
Proof.
  destruct lines as [|l lines]; [done|]. intros _. cbn [app joined_with]. rewrite fmap_app, <- app_assoc. f_equal.
  induction lines as [|k lines IH]; cbn [app]; [cbn; by rewrite app_nil_r|].
  rewrite fmap_cons. cbn [app]. rewrite !mjoin_cons. cbn [app]. f_equal. rewrite <- app_assoc. f_equal. exact IH.
Qed.

Lemma joined_extend lines l e : joined (lines ++ [l]) ++ e = joined (lines ++ [l ++ e]).
Proof.
  destruct lines as [|k lines]; [cbn; by rewrite !app_nil_r|]. rewrite !joined_snoc by done. by rewrite <- app_assoc.
Qed.

(** The closing marker goes on the last line where it fits, and on its own line else. *)
Lemma closing_fits width lines :
  2 <= width -> lines <> [] -> Forall (fun l => zlen l <= width) lines ->
  exists lines',
    joined lines ++ (if width <? default 0 (zlen <$> last lines) + zlen A85_ADOBE_END then [newline] else []) ++ A85_ADOBE_END
      = joined lines' /\ Forall (fun l => zlen l <= width) lines'.
Proof.
  intros Hw Hn HF. destruct lines as [|l lines _] using rev_ind; [done|]. rewrite last_snoc. cbn [default fmap option_fmap option_map from_option id].
  change (zlen A85_ADOBE_END) with 2. destruct (Z.ltb_spec width (zlen l + 2)).
  - exists ((lines ++ [l]) ++ [A85_ADOBE_END]). split; [rewrite (joined_snoc (lines ++ [l])); [done|by destruct lines]|]. apply Forall_app. split; [done|]. constructor; [by change (zlen A85_ADOBE_END) with 2|constructor].
  - exists (lines ++ [l ++ A85_ADOBE_END]). split; [apply joined_extend|]. apply Forall_app in HF as [HF _].
    apply Forall_app. split; [done|]. constructor; [|constructor]. rewrite zlen_app. change (zlen A85_ADOBE_END) with 2. lia.
Qed.

Lemma lines_of_le width text : 0 < width -> Forall (fun l => zlen l <= width) (lines_of width text).
Proof.
  intros Hw. unfold lines_of. eapply Forall_impl; [apply chunks_le; unfold zlen; lia|]. cbn. intros l [_ Hl]. unfold zlen in *. lia.
Qed.

Lemma a85_letter_plain fold b : a85_letter fold b -> b <> newline.
Proof. intros Hb ->. revert Hb. unfold a85_letter, is_word. destruct fold; by vm_compute. Qed.

(** ** Round trip and size *)

Section Claims.
Context {W : Type} `{Machine W}.
Variables (tr : ResourceTracker) (w : W).
Implicit Types (s : ResourceTracker * W).

(** Some limit is set. *)
Definition limited s : Prop := has_time_limit s.1 = true \/ max_memory (limits s.1) <> None.

Lemma check_limited n s e : check_estimated_size n s.1 s.2 = Err e -> limited s /\ exists e', e = ResourceErr e'.
Proof.
  intros Hc. split; [|by eapply check_Err]. right. intros Hm. revert Hc. unfold check_estimated_size.
  destruct (_ <? n); [|done]. unfold check_large_result, check_allocation. by rewrite Hm.
Qed.

Lemma a85_body_decodes fold pad whole tail body s :
  Forall is_byte whole -> Forall is_byte tail -> (length whole mod 4 = 0)%nat -> (length tail < 4)%nat ->
  List.filter not_newline body = a85_text fold pad whole tail ->
  Forall (fun b => b = newline \/ a85_letter fold b) body ->
  stopped_by (limited s) (a85_decode body fold Default s).1
    (eq (whole ++ tail ++ (if pad then replicate (padding 4 tail) 0 else []))).
Proof.
  intros HFw HFt Hw Ht Hbody HF. unfold a85_decode, sbind at 1.
  destruct (check_estimated_size _ s.1 s.2) as [[]|e] eqn:Hc; [|by eapply check_limited].
  destruct (a85_tail_decodes fold Default pad tail whole 0 s HFt Ht) as (st & Hrun & Hfin).
  assert (stopped_by (limited s) (a85_decode_bytes fold Default (body ++ flush) (mkA85 [] 0 0 0) s).1 (fun a => a85_like a st)) as Hst.
  { eapply a85_newlines_skipped; [done|by left|..].
    - apply Forall_app. split; [exact HF|]. by repeat constructor; right.
    - rewrite List.filter_app, Hbody. change (List.filter not_newline flush) with flush. unfold a85_text.
      rewrite <- app_assoc, a85_whole_decodes by done. exact Hrun. }
  clear Hrun. unfold sbind. fold flush. destruct (a85_decode_bytes _ _ _ _ _) as [[a|e] t]; cbn in Hst |- *; [|done].
  injection Hst as Ho _ Hd. unfold a85_finish in Hfin. by rewrite Ho, Hd.
Qed.

(** The text of the encoder is the plain text, wrapped and framed. *)
Lemma call_a85encode_text fold wrapcol pad (adobe : bool) (whole tail : bytes) :
  Forall is_byte tail -> (length whole mod 4 = 0)%nat -> (length tail < 4)%nat ->
  let width := a85_wrapcol wrapcol (if adobe then 2 else 1) in
  within_limit (call_a85encode tr w (whole ++ tail) fold wrapcol pad adobe) (fun text : bytes =>
    (exists body, text = (if adobe then A85_ADOBE_START ++ body ++ A85_ADOBE_END else body)
       /\ List.filter not_newline body = a85_text fold pad whole tail
       /\ Forall (fun b => b = newline \/ a85_letter fold b) body)
    /\ (wrapcol <> 0 -> exists lines, text = joined lines /\ Forall (fun l => zlen l <= width) lines)).
Proof.
  intros HF Hw Ht width. unfold call_a85encode.
  eapply within_limit_bind; [by apply a85_encode_text|]. intros text <-.
  assert (forall p, a85_text fold (negb (zlen (whole ++ tail) mod 4 =? 0) && p) whole tail = a85_text fold p whole tail) as ->.
  { intros p. unfold a85_text. f_equal. unfold a85_tail. case_bool_decide as Hn; [done|].
    rewrite (proj2 (Z.eqb_neq _ 0)); [done|]. unfold zlen. rewrite length_app.
    assert (0 < length tail)%nat by (destruct tail; cbn; [done|lia]). pose proof (Nat.div_mod_eq (length whole) 4). dlia. }
  set (text := a85_text fold pad whole tail). pose proof (a85_text_letters fold pad whole tail) as HL. fold text in HL.
  assert (Forall (fun b => b <> newline) text) as HN by (eapply Forall_impl; [exact HL|apply a85_letter_plain]).
  assert (0 < width /\ (adobe = true -> 2 <= width)) as [Hw0 Hw2].
  { subst width. unfold a85_wrapcol, i64_max, usize_max, u64_max. destruct adobe; repeat case_match; split; intros; lia. }
  destruct (Z.eqb_spec wrapcol 0) as [H0|H0]; cbn [negb].
  - cbn [rbind within_limit]. split; [|done]. exists text. split; [by destruct adobe; rewrite ?app_assoc|].
    split; [by apply filter_plain|]. eapply Forall_impl; [exact HL|by right].
  - fold width. set (prefix := if adobe then A85_ADOBE_START else []).
    assert ((if adobe then A85_ADOBE_START ++ text else text) = prefix ++ text) as -> by (by destruct adobe).
    destruct (wrapped_body width prefix text (a85_letter fold)) as (body & Hj & Hb & HFb); [|done..|].
    { subst prefix. clearbody width. destruct adobe; [by apply Hw2|change (zlen (@nil Z)) with 0; lia]. }
    pose proof (lines_of_le width (prefix ++ text) Hw0) as Hle. unfold a85_wrap. rewrite a85_wrap_lines.
    assert (adobe = true -> lines_of width (prefix ++ text) <> []) as Hne.
    { intros ->. intros He. rewrite He in Hj. done. }
    set (lines := lines_of width (prefix ++ text)) in *. clearbody lines width. subst prefix.
    destruct (check_estimated_size _ tr w) eqn:Hc; cbn [rbind within_limit]; [|by eapply check_Err].
    destruct adobe; cbn [andb].
    + destruct (closing_fits width lines) as (lines' & Hl' & HFl'); [by apply Hw2|by apply Hne|done|]. split; [|intros _; exists lines'].
      2:{ split; [|done]. rewrite <- Hl'. by destruct (width <? _); rewrite <- ?app_assoc. }
      rewrite Hj. destruct (width <? _).
      * exists (body ++ [newline]). split; [by rewrite <- !app_assoc|]. rewrite List.filter_app, Hb, app_nil_r. split; [done|].
        apply Forall_app. split; [done|]. constructor; [by left|done].
      * exists body. by rewrite <- app_assoc.
    + split; [exists body; by rewrite Hj|]. intros _. by exists lines.
Qed.

(** Ascii85 loses nothing. Unless the memory limit refuses the result, decoding what
    [a85encode] returns, with the same [foldspaces] and [adobe], gives the byte string back,
    for every line width and with the framing or without it; written with its padding, the
    string comes back completed with zeros to a multiple of four bytes. Decoding is stopped
    only by a limit that is set. Where the text is wrapped, no line is wider than asked,
    the closing marker included. *)
Theorem a85_roundtrip fold wrapcol pad (adobe : bool) data :
  Forall is_byte data ->
  within_limit (call_a85encode tr w data fold wrapcol pad adobe) (fun text =>
    (forall s, stopped_by (limited s) (call_a85decode text fold adobe Default s).1
                 (eq (data ++ if pad then replicate (padding 4 data) 0 else [])))
    /\ (wrapcol <> 0 -> exists lines, text = joined lines
          /\ Forall (fun l => zlen l <= a85_wrapcol wrapcol (if adobe then 2 else 1)) lines)).
Proof.
  intros HF. destruct (chunks_split 4 data) as (whole & tail & -> & Hw & Ht); [lia|]. apply Forall_app in HF as [HFw HFt].
  eapply within_limit_mono; [by apply call_a85encode_text|]. cbv beta. intros text [(body & -> & Hb & HFb) Hl]. split; [|exact Hl].
  intros s. rewrite padding_whole, <- app_assoc by (done || lia). unfold call_a85decode, sbind, slift.
  destruct adobe; [rewrite strip_framed|]; by apply a85_body_decodes.
Qed.

(** The size [a85_decode] reserves is what it writes. Whatever the caller ignores, the
    loop never writes more than [a85_decoded_size] of the input, and when it ends it has
    written exactly that many bytes (where that is a [usize]); then there are as many bytes
    as the last trim removes. *)
Theorem a85_decoded_size_exact fold ignore data prefix rest s st s' :
  data ++ flush = prefix ++ rest ->
  8 * (zlen data + 1) <= usize_max ->
  a85_decode_bytes fold ignore prefix (mkA85 [] 0 0 0) s = (Ok st, s') ->
  zlen (a_out st) <= a85_decoded_size data fold
  /\ (rest = [] -> zlen (a_out st) = a85_decoded_size data fold /\ 0 <= 4 - a_digits st <= zlen (a_out st)).
Proof.
  intros Hsplit Hmax Hrun. apply a85_bytes_amount in Hrun as [Hd Hrun]; [|cbn; lia]. cbn [a_out a_digits] in Hrun.
  change (zlen (@nil Z)) with 0 in Hrun.
  assert (forall p, count p data + count p flush = count p prefix + count p rest) as Hc
    by (intros p; by rewrite <- !count_app, Hsplit).
  pose proof (Hc is_a85_digit) as Hdig. pose proof (Hc (is_word fold)) as Hword.
  change (count is_a85_digit flush) with 4 in Hdig.
  assert (count (is_word fold) flush = 0) as Hfl by (by destruct fold). rewrite Hfl in Hword.
  assert (forall p l, 0 <= count p l <= zlen l) as Hcount.
  { intros p l. unfold count, zlen. pose proof (length_filter (fun b => p b = true) l). lia. }
  pose proof (Hcount is_a85_digit rest). pose proof (Hcount (is_word fold) rest).
  pose proof (Hcount is_a85_digit data). pose proof (Hcount (is_word fold) data).
  assert (a85_decoded_size data fold = (ceil_div (count is_a85_digit data) 5 + count (is_word fold) data) * 4) as ->.
  { change (a85_decoded_size data fold) with (sat_mul (sat_add (ceil_div (count is_a85_digit data) 5) (count (is_word fold) data)) 4).
    unfold sat_mul, sat_add, ceil_div, usize_max in *. dlia. }
  unfold ceil_div. split; [dlia|]. intros ->. change (count is_a85_digit []) with 0 in *. change (count (is_word fold) []) with 0 in *. dlia.
Qed.
End Claims.

Lemma a85_roundtrip_witness :
  Forall is_byte (blit "hello") /\ ~ limited (free_tracker, sim_start)
  /\ call_a85encode free_tracker sim_start (blit "hello") true 4 false true = Ok (blit "<~BO" ++ newline :: blit "u!rD" ++ newline :: blit "Z~>")
  /\ stopped_by (limited (free_tracker, sim_start))
       (call_a85decode (blit "<~BO" ++ newline :: blit "u!rD" ++ newline :: blit "Z~>") true true Default (free_tracker, sim_start)).1
       (eq (blit "hello")).
Proof.
  assert (Forall is_byte (blit "hello")) as HF by (by apply bytes_checked).
  split; [exact HF|]. split; [intros [Hd|Hd]; [discriminate Hd|by apply Hd]|]. 
  pose proof (a85_roundtrip free_tracker sim_start true 4 false true (blit "hello") HF) as Hr.
  assert (call_a85encode free_tracker sim_start (blit "hello") true 4 false true
          = Ok (blit "<~BO" ++ newline :: blit "u!rD" ++ newline :: blit "Z~>")) as Henc by (vm_compute; reflexivity).
  split; [exact Henc|]. rewrite Henc in Hr. cbn [within_limit] in Hr.
  pose proof (proj1 Hr (free_tracker, sim_start)) as Hs. rewrite app_nil_r in Hs. exact Hs.
Defined.

Lemma a85_decoded_size_exact_witness :
  let data := blit "zBOu!rDZ" in
  data ++ flush = (data ++ flush) ++ [] /\ 8 * (zlen data + 1) <= usize_max
  /\ a85_decoded_size data false = 12.
Proof.
  cbv zeta. split; [symmetry; apply app_nil_r|]. split; [apply Z.leb_le; reflexivity|].
  refine (eq_trans (eq_sym (proj1 (proj2 (a85_decoded_size_exact false Default (blit "zBOu!rDZ") (blit "zBOu!rDZ" ++ flush) [] (free_tracker, sim_start)
    (mkA85 [0; 0; 0; 0; 104; 101; 108; 108; 111; 5; 165; 228] 84 1 0) (free_tracker, sim_start) _ _ _) eq_refl))) _);
    [symmetry; apply app_nil_r|apply Z.leb_le; reflexivity|vm_compute; reflexivity|reflexivity].
Defined.
