(* ===== verification/Binascii.v ===== *)
(** * The binascii module

    modules/binascii.rs: hexadecimal with separators, the two checksums, uuencoded
    lines and quoted-printable text, over byte strings. The functions of the module are
    modelled on arguments that are already bytes, flags and integers. *)
From S2P Require Import Prelude Resource Bytes Base64.

#[local] Open Scope Z_scope.
#[local] Open Scope monty_scope.

Definition HEX_DIGITS : bytes := blit "0123456789abcdef".

(** Carriage return and newline. *)
Definition cr : Z := 13.
Definition nl : Z := 10.

(** ** Hexadecimal *)

Definition hex_digit (byte : Z) : option Z :=
  if within_chars "0" "9" byte then Some (byte - ch "0")
  else if within_chars "a" "f" byte then Some (byte - ch "a" + 10)
  else if within_chars "A" "F" byte then Some (byte - ch "A" + 10)
  else None.

(** How many bytes are between two separators. *)
Definition hex_group (data : bytes) (sep : option Z) (bytes_per_sep : Z) : Z :=
  match sep with
  | Some _ => if negb (bytes_per_sep =? 0) && negb (zlen data =? 0)
              then Z.min (Z.abs bytes_per_sep) (zlen data)
              else Z.max (zlen data) 1
  | None => Z.max (zlen data) 1
  end.

(** How many are before the first one. *)
Definition hex_lead (data : bytes) (group bytes_per_sep : Z) : Z :=
  if 0 <? bytes_per_sep then
    let remainder := zlen data mod group in
    if remainder =? 0 then group else remainder
  else group.

(** The body of the loop. *)
Definition hex_byte (sep : option Z) (lead group : Z) (index : nat) (byte : Z) : bytes :=
  (match sep with
   | Some sep => if (Z.of_nat index =? lead) || ((lead <? Z.of_nat index) && ((Z.of_nat index - lead) mod group =? 0))
                 then [sep] else []
   | None => []
   end) ++ [Bytes.index HEX_DIGITS (Z.shiftr byte 4); Bytes.index HEX_DIGITS (Z.land byte 15)].

Section Encoders.
Context {W : Type} `{Machine W}.
Variables (tracker : ResourceTracker) (w : W).

Definition hex_encode (data : bytes) (sep : option Z) (bytes_per_sep : Z) : result bytes CodecError :=
  let group := hex_group data sep bytes_per_sep in
  let lead := hex_lead data group bytes_per_sep in
  let capacity := zlen data * 2 + zlen data / group in
  check_estimated_size capacity tracker w ;?
  Ok (mjoin (imap (hex_byte sep lead group) data)).

End Encoders.

Definition hex_pair (out pair : bytes) : result bytes CodecError :=
  match hex_digit (get_or0 pair 0), hex_digit (get_or0 pair 1) with
  | Some hi, Some lo => Ok (out ++ [Z.lor (shl 8 hi 4) lo])
  | _, _ => Err (BinasciiError "Non-hexadecimal digit found")
  end.

Definition hex_decode (data : bytes) : result bytes CodecError :=
  if zlen data mod 2 =? 0 then try_fold hex_pair (chunks 2 data) []
  else Err (BinasciiError "Odd-length string").

(** ** Checksums *)

Definition u32_mask : Z := 0xffffffff.

Definition NIBBLE_TABLE : list Z :=
  [ 0x00000000; 0x1db71064; 0x3b6e20c8; 0x26d930ac; 0x76dc4190; 0x6b6b51f4; 0x4db26158; 0x5005713c;
    0xedb88320; 0xf00f9344; 0xd6d6a3e8; 0xcb61b38c; 0x9b64c2b0; 0x86d3d2d4; 0xa00ae278; 0xbdbdf21c ].

Definition crc_nibble (crc : Z) : Z := Z.lxor (Z.shiftr crc 4) (Bytes.index NIBBLE_TABLE (Z.land crc 15)).

Definition crc_byte (crc byte : Z) : Z := crc_nibble (crc_nibble (Z.lxor crc byte)).

Definition crc32 (data : bytes) (seed : Z) : Z :=
  Z.lxor (foldl crc_byte (Z.lxor seed u32_mask) data) u32_mask.

Definition hqx_bit (crc : Z) : Z :=
  if Z.land crc 0x8000 =? 0 then shl 16 crc 1 else Z.lxor (shl 16 crc 1) 0x1021.

Definition hqx_byte (crc byte : Z) : Z := Nat.iter 8 hqx_bit (Z.lxor crc (shl 16 byte 8)).

Definition crc_hqx (data : bytes) (seed : Z) : Z := foldl hqx_byte seed data.

(** ** Uuencoded lines *)

Definition UU_MAX_LINE : nat := 45.

Definition uu_sextet (backtick : bool) (value : Z) : Z :=
  let value := Z.land value 63 in
  if (value =? 0) && backtick then ch "`" else value + ch " ".

Definition uu_chunk (backtick : bool) (chunk : bytes) : bytes :=
  let word := be_word 32 3 chunk in
  (fun shift => uu_sextet backtick (Z.land (Z.shiftr word shift) 63)) <$> [18; 12; 6; 0].

Definition uu_encode (data : bytes) (backtick : bool) : result bytes CodecError :=
  if (UU_MAX_LINE <? length data)%nat then Err (BinasciiError "At most 45 bytes at once")
  else Ok (uu_sextet backtick (zlen data) :: mjoin (uu_chunk backtick <$> chunks 3 data) ++ [nl]).

(** What the next group of a line is, and the line after it. *)
Definition uu_next (rest : bytes) : result (Z * bytes) CodecError :=
  match rest with
  | [] => Ok (0, [])
  | byte :: tail =>
      if (byte =? nl) || (byte =? cr) then Ok (0, tail)
      else if (byte =? ch " ") || (byte =? ch "`") then Ok (0, tail)
      else if within_chars "!" "_" byte then Ok (byte - ch " ", tail)
      else Err (BinasciiError "Illegal char")
  end.

(** The variables of the loop of [uu_decode]. *)
Record Uu : Type := mkUu { u_rest : bytes; u_out : bytes; u_leftover : Z; u_bits : Z }.

Definition uu_turn (u : Uu) : result Uu CodecError :=
  let? (sextet, rest) := uu_next (u_rest u) in
  let leftover := Z.lor (shl 32 (u_leftover u) 6) sextet in
  let bits := u_bits u + 6 in
  if 8 <=? bits then
    let bits := bits - 8 in
    Ok (mkUu rest (u_out u ++ [Z.land (Z.shiftr leftover bits) 255]) (Z.land leftover (Z.shiftl 1 bits - 1)) bits)
  else Ok (mkUu rest (u_out u) leftover bits).

(** The loop; a byte takes at most two turns. *)
Fixpoint uu_loop (fuel : nat) (remaining : nat) (u : Uu) : result Uu CodecError :=
  match fuel with
  | O => Ok u
  | S fuel' => if (length (u_out u) <? remaining)%nat then let? u' := uu_turn u in uu_loop fuel' remaining u' else Ok u
  end.

Definition uu_blank (byte : Z) : bool := (byte =? ch " ") || (byte =? ch "`") || (byte =? nl) || (byte =? cr).

Definition uu_decode (data : bytes) : result bytes CodecError :=
  match data with
  | [] => Err (BinasciiError "Missing length byte")
  | length_byte :: rest =>
      let remaining := Z.to_nat (Z.land ((length_byte - ch " ") mod 256) 63) in
      let? u := uu_loop (2 * remaining) remaining (mkUu rest [] 0 0) in
      if forallb uu_blank (u_rest u) then Ok (u_out u) else Err (BinasciiError "Trailing garbage")
  end.

(** ** Quoted-printable *)

Definition QP_MAX_LINE : Z := 76.

Record QpOptions : Type := mkQpOptions { quotetabs : bool; istext : bool; header : bool }.

Definition is_blank (byte : Z) : bool := (byte =? ch " ") || (byte =? 9).

Definition qp_always_quotes (byte : Z) (options : QpOptions) : bool :=
  (126 <? byte) || (byte =? ch "=") || (header options && (byte =? ch "_"))
  || (negb (istext options) && ((byte =? cr) || (byte =? nl)))
  || ((byte <? 33) && negb (byte =? cr) && negb (byte =? nl) && (quotetabs options || negb (is_blank byte))).

(** [matches!(next, None | Some(b'\n' | b'\r' | b'\0'))]. *)
Definition ends_line (next : option Z) : bool :=
  match next with None => true | Some b => (b =? nl) || (b =? cr) || (b =? 0) end.

Definition qp_needs_quoting (data : bytes) (index : nat) (linelen : Z) (options : QpOptions) : bool :=
  let byte := get_or0 data index in
  let last := (S index =? length data)%nat in
  let leading_dot := (byte =? ch ".") && (linelen =? 0) && ends_line (data !! S index) in
  qp_always_quotes byte options || leading_dot || (is_blank byte && last).

Definition UPPER_HEX : bytes := blit "0123456789ABCDEF".
Definition qp_hex (byte : Z) : bytes :=
  [Bytes.index UPPER_HEX (Z.shiftr byte 4); Bytes.index UPPER_HEX (Z.land byte 15)].

Definition eol (crlf : bool) : bytes := if crlf then [cr; nl] else [nl].

Definition qp_soft_break (crlf : bool) : bytes := ch "=" :: eol crlf.

(** The extra bytes the one at an index may take. *)
Definition qp_extra (data : bytes) (options : QpOptions) (crlf : bool) (index : nat) (byte : Z) : Z :=
  if istext options && (byte =? nl) then
    let start := match index with S i => if get_or0 data i =? cr then i else index | O => index end in
    let bare := if crlf && (start =? index)%nat then 1 else 0 in
    let trailing := match start with S i => is_blank (get_or0 data i) | O => false end in
    bare + 2 * (if trailing then 1 else 0)
  else if qp_always_quotes byte options || ((byte =? ch ".") && ends_line (data !! S index)) then 2
  else 0.

Definition qp_encoded_size (data : bytes) (options : QpOptions) (crlf : bool) : Z :=
  let extra := 2 * (if from_option is_blank false (last data) then 1 else 0) in
  let extra := foldl Z.add extra (imap (qp_extra data options crlf) data) in
  let body := sat_add (zlen data) extra in
  let breaks := body / (QP_MAX_LINE - 3) + 1 in
  sat_add body (sat_mul breaks 3).

(** The variables of the loop of [qp_encode]. *)
Record Qp : Type := mkQp { q_out : bytes; q_linelen : Z; q_index : nat }.

Definition is_break (data : bytes) (index : nat) : bool :=
  let byte := get_or0 data index in
  (byte =? nl) || ((byte =? cr) && bool_decide (data !! S index = Some nl)).

Definition qp_turn (data : bytes) (options : QpOptions) (crlf : bool) (q : Qp) : Qp :=
  let '(mkQp out linelen index) := q in
  let byte := get_or0 data index in
  if qp_needs_quoting data index linelen options then
    let broken := QP_MAX_LINE <=? linelen + 3 in
    let out := if broken then out ++ qp_soft_break crlf else out in
    let linelen := if broken then 0 else linelen in
    mkQp (out ++ ch "=" :: qp_hex byte) (linelen + 3) (S index)
  else if istext options && is_break data index then
    let out := match last out with
               | Some b => if is_blank b then truncate_by 1 out ++ ch "=" :: qp_hex b else out
               | None => out
               end in
    mkQp (out ++ eol crlf) 0 (if byte =? cr then S (S index) else S index)
  else
    let broken := negb (S index =? length data)%nat && negb (bool_decide (data !! S index = Some nl))
                  && (QP_MAX_LINE <=? linelen + 1) in
    let out := if broken then out ++ qp_soft_break crlf else out in
    let linelen := if broken then 0 else linelen in
    mkQp (out ++ [if header options && (byte =? ch " ") then ch "_" else byte]) (linelen + 1) (S index).

(** The loop: the index grows with every turn. *)
Fixpoint qp_loop (fuel : nat) (data : bytes) (options : QpOptions) (crlf : bool) (q : Qp) : Qp :=
  match fuel with
  | O => q
  | S fuel' => if (q_index q <? length data)%nat then qp_loop fuel' data options crlf (qp_turn data options crlf q) else q
  end.

Definition qp_crlf (data : bytes) : bool :=
  match position nl data with
  | Some i => (0 <? i) && (get_or0 data (Z.to_nat (i - 1)) =? cr)
  | None => false
  end.

Section QpEncode.
Context {W : Type} `{Machine W}.
Variables (tracker : ResourceTracker) (w : W).

Definition qp_encode (data : bytes) (options : QpOptions) : result bytes CodecError :=
  let crlf := qp_crlf data in
  let capacity := qp_encoded_size data options crlf in
  check_estimated_size capacity tracker w ;?
  Ok (q_out (qp_loop (length data) data options crlf (mkQp [] 0 O))).

End QpEncode.

(** What is left after the next newline. *)
Fixpoint skip_line (rest : bytes) : bytes :=
  match rest with
  | [] => []
  | b :: tail => if b =? nl then tail else skip_line tail
  end.

(** One turn of the loop of [qp_decode], on what is left of the input: what it writes
    and what is left after it; [None] is the [break]. *)
Definition qp_decode_turn (header : bool) (byte : Z) (tail : bytes) : option (bytes * bytes) :=
  if byte =? ch "=" then
    match tail with
    | [] => None
    | first :: tail' =>
        if (first =? nl) || (first =? cr) then Some ([], skip_line tail)
        else if first =? ch "=" then Some ([ch "="], tail')
        else match hex_digit first, (match tail' with b :: _ => hex_digit b | [] => None end) with
             | Some hi, Some lo => Some ([Z.lor (shl 8 hi 4) lo], drop 1 tail')
             | _, _ => Some ([ch "="], tail)
             end
    end
  else if header && (byte =? ch "_") then Some ([ch " "], tail)
  else Some ([byte], tail).

Fixpoint qp_decode_loop (fuel : nat) (header : bool) (rest out : bytes) : bytes :=
  match fuel, rest with
  | S fuel', byte :: tail =>
      match qp_decode_turn header byte tail with
      | None => out
      | Some (bs, rest') => qp_decode_loop fuel' header rest' (out ++ bs)
      end
  | _, _ => out
  end.

Definition qp_decode (data : bytes) (header : bool) : bytes := qp_decode_loop (length data) header data [].

Section Functions.
Context {W : Type} `{Machine W}.
Variables (tracker : ResourceTracker) (w : W).

(** [wrapping_u32] of an integer. *)
Definition wrapping_u32 (n : Z) : Z := n mod 2 ^ 32.

Definition call_hexlify (data : bytes) (sep : option Z) (bytes_per_sep : Z) : result bytes CodecError :=
  hex_encode tracker w data sep bytes_per_sep.
Definition call_unhexlify (hexstr : bytes) : result bytes CodecError := hex_decode hexstr.
Definition call_b2a_base64 (data : bytes) (newline : bool) : result bytes CodecError :=
  let? encoded := b64_encode_reserving tracker w data (if newline then 1 else 0) in
  Ok (if newline then encoded ++ [nl] else encoded).
Definition call_a2b_base64 (data : bytes) (strict_mode : bool) : result bytes CodecError := b64_decode data strict_mode.
Definition call_crc32 (data : bytes) (crc : option Z) : Z := crc32 data (from_option wrapping_u32 0 crc).
Definition call_crc_hqx (data : bytes) (crc : Z) : Z := crc_hqx data (Z.land (wrapping_u32 crc) 0xffff).
Definition call_b2a_uu (data : bytes) (backtick : bool) : result bytes CodecError := uu_encode data backtick.
Definition call_a2b_uu (data : bytes) : result bytes CodecError := uu_decode data.
Definition call_b2a_qp (data : bytes) (quotetabs istext header : bool) : result bytes CodecError :=
  qp_encode tracker w data (mkQpOptions quotetabs istext header).
Definition call_a2b_qp (data : bytes) (header : bool) : bytes := qp_decode data header.

End Functions.
