(* ===== verification/HexUuProps.v ===== *)
(** * Theorems about hexadecimal and uuencoded lines, and checksums *)
From S2P Require Import Prelude Resource Bytes Base64 Base64Props Binascii.

#[local] Open Scope Z_scope.
#[local] Open Scope monty_scope.

(** ** Hexadecimal *)

Definition hex_pair_of (byte : Z) : bytes := [index HEX_DIGITS (Z.shiftr byte 4); index HEX_DIGITS (Z.land byte 15)].
Definition hexes (data : bytes) : bytes := mjoin (hex_pair_of <$> data).

Lemma hex_digit_digits : forall v, 0 <= v < 16 -> hex_digit (index HEX_DIGITS v) = Some v.
Proof. below 16%nat. Qed.

Lemma hexes_cons b data : hexes (b :: data) = hex_pair_of b ++ hexes data.
Proof. done. Qed.

Lemma hexes_app a b : hexes (a ++ b) = hexes a ++ hexes b.
Proof. induction a as [|x a IH]; [done|]. cbn [app]. by rewrite !hexes_cons, IH, app_assoc. Qed.

Lemma hexes_length data : zlen (hexes data) = 2 * zlen data.
Proof. induction data as [|b data IH]; [done|]. rewrite hexes_cons, zlen_app, IH. unfold zlen. cbn [length hex_pair_of]. lia. Qed.

Lemma hexes_fold data o : Forall is_byte data -> try_fold hex_pair (chunks 2 (hexes data)) o = Ok (o ++ data).
Proof.
  intros HF. revert o. induction HF as [|b data Hb HF IH]; intros o; [cbn; by rewrite app_nil_r|].
  rewrite hexes_cons, chunks_app by (done || lia). cbn [try_fold]. unfold hex_pair at 1, hex_pair_of, get_or0.
  cbn [lookup list_lookup default from_option id]. bits. rewrite !hex_digit_digits by dlia. cbn [rbind].
  rewrite IH, <- app_assoc. do 2 f_equal. cbn [app]. f_equal. bits. dlia.
Qed.

Lemma hexes_decode data : Forall is_byte data -> hex_decode (hexes data) = Ok data.
Proof.
  intros HF. unfold hex_decode. rewrite hexes_length, Z.mul_comm, Z.mod_mul by lia. by apply (hexes_fold data []).
Qed.

(** *** Separators *)

Definition hex_sep_byte (sep : Z) (group : nat) (n : nat) (byte : Z) : bytes :=
  (if (n mod group =? 0)%nat then [sep] else []) ++ hex_pair_of byte.

Lemma imap_plain f (l : bytes) :
  (forall i x, (i < length l)%nat -> f i x = hex_pair_of x) -> mjoin (imap f l) = hexes l.
Proof.
  intros Hf. rewrite (imap_ext f (fun _ => hex_pair_of)) by (intros i x Hi%lookup_lt_Some; by apply Hf).
  unfold hexes. f_equal. clear Hf. induction l as [|x l IH]; cbn; [done|]. f_equal. apply IH.
Qed.

Lemma first_group sep group a :
  (0 < length a <= group)%nat -> mjoin (imap (hex_sep_byte sep group) a) = sep :: hexes a.
Proof.
  destruct a as [|x l]; cbn [length]; intros Hl; [lia|]. cbn [imap]. rewrite mjoin_cons.
  unfold hex_sep_byte at 1. rewrite Nat.Div0.mod_0_l. cbn [Nat.eqb app]. rewrite hexes_cons. cbn [app]. do 3 f_equal.
  apply imap_plain. intros i y Hi. unfold hex_sep_byte, compose. by rewrite Nat.mod_small by lia.
Qed.

Lemma separated_chunks sep group l :
  (0 < group)%nat -> mjoin (imap (hex_sep_byte sep group) l) = mjoin (cons sep <$> (hexes <$> chunks group l)).
Proof.
  intros Hg. revert l. apply (chunk_ind group); [done| |].
  - intros l Hl. destruct (decide (l = [])) as [->|Hn]; [done|].
    assert (0 < length l)%nat by (destruct l; cbn; [done|lia]).
    rewrite first_group, chunks_short by (done || lia). cbn. by rewrite app_nil_r.
  - intros a l Ha IH. rewrite chunks_app, !fmap_cons, mjoin_cons, <- IH, imap_app, join_app, first_group by (done || lia).
    f_equal. f_equal. apply imap_ext. intros i x _. unfold hex_sep_byte. rewrite Ha.
    replace (group + i)%nat with (i + 1 * group)%nat by lia. by rewrite Nat.Div0.mod_add.
Qed.

(** The groups a separator is put between. *)
Definition hex_pieces (data : bytes) (lead group : nat) : list bytes := take lead data :: chunks group (drop lead data).

Lemma hex_text_pieces sep (lead group : nat) data :
  (0 < group)%nat -> (0 < lead <= length data)%nat ->
  mjoin (imap (hex_byte (Some sep) (Z.of_nat lead) (Z.of_nat group)) data)
  = joined_with sep (hexes <$> hex_pieces data lead group).
Proof.
  intros Hg Hl. unfold hex_pieces. rewrite fmap_cons. cbn [joined_with]. rewrite <- separated_chunks by done.
  rewrite <- (take_drop lead data) at 1. rewrite imap_app, join_app. f_equal.
  - apply imap_plain. intros i x Hi. rewrite length_take in Hi. unfold hex_byte.
    rewrite (proj2 (Z.eqb_neq _ _)), (proj2 (Z.ltb_ge _ _)) by lia. done.
  - f_equal. apply imap_ext. intros i x _. rewrite length_take, Nat.min_l by lia. unfold hex_byte, hex_sep_byte. f_equal.
    replace (Z.of_nat (lead + i) - Z.of_nat lead) with (Z.of_nat i) by lia. rewrite <- Nat2Z.inj_mod.
    destruct (Z.eqb_spec (Z.of_nat (lead + i)) (Z.of_nat lead)) as [He|He].
    + assert (i = 0%nat) as -> by lia. by rewrite Nat.Div0.mod_0_l.
    + rewrite (proj2 (Z.ltb_lt _ _)) by lia. cbn [orb andb].
      destruct (Nat.eqb_spec (i mod group) 0) as [->|]; [done|]. by rewrite (proj2 (Z.eqb_neq _ _)) by lia.
Qed.

(** What [hexlify] returns: the bytes in pairs of digits, in groups. *)
Lemma hex_text_none data bps :
  mjoin (imap (hex_byte None (hex_lead data (hex_group data None bps) bps) (hex_group data None bps)) data) = hexes data.
Proof. by apply imap_plain. Qed.

(** The groups are complete but the first, or but the last. *)
Definition grouped (bps : Z) (pieces : list bytes) : Prop :=
  let n := Z.abs bps in
  if 0 <? bps then Forall (fun p => zlen p = n) (tail pieces) /\ Forall (fun p => 0 < zlen p <= n) (take 1 pieces)
  else exists front final, pieces = front ++ [final] /\ Forall (fun p => zlen p = n) front /\ 0 < zlen final <= n.

Lemma chunks_whole_eq {A} n (l : list A) :
  (0 < n)%nat -> (length l mod n = 0)%nat -> Forall (fun c => length c = n) (chunks n l).
Proof.
  intros Hn. revert l. apply (whole_ind n); [done|done|]. intros a l Ha IH. rewrite chunks_app by done. by constructor.
Qed.

Lemma chunks_front {A} n (l : list A) :
  (0 < n)%nat -> l <> [] ->
  exists front final, chunks n l = front ++ [final] /\ Forall (fun c => length c = n) front /\ (0 < length final <= n)%nat.
Proof.
  intros Hn. revert l. apply (chunk_ind n (fun l => l <> [] -> _)); [done| |].
  - intros l Hl Hne. exists [], l. rewrite chunks_short by (done || lia). split_and!; [done|done| |lia]. destruct l; cbn; [done|lia].
  - intros a l Ha IH _. rewrite chunks_app by done. destruct (decide (l = [])) as [->|Hne].
    + exists [], a. split_and!; [done..|lia|lia].
    + destruct (IH Hne) as (front & final & -> & HF & Hf). exists (a :: front), final. split_and!; [done|by constructor|lia..].
Qed.

Section Hexlify.
Context (data : bytes) (sep bps : Z) (Hbps : bps <> 0) (Hdata : data <> []).

Let group := hex_group data (Some sep) bps.
Let lead := hex_lead data group bps.

Lemma hex_group_eq : group = Z.min (Z.abs bps) (zlen data) /\ 0 < group.
Proof.
  assert (0 < zlen data) by (destruct data; [done|]; unfold zlen; cbn [length]; lia).
  unfold group, hex_group. rewrite (proj2 (Z.eqb_neq bps 0)), (proj2 (Z.eqb_neq (zlen data) 0)) by lia. cbn [negb andb]. lia.
Qed.

Lemma hex_lead_bounds : 0 < lead <= group /\ lead <= zlen data.
Proof.
  destruct hex_group_eq as [Hg Hg0]. unfold lead, hex_lead.
  destruct (0 <? bps); [|lia]. destruct (Z.eqb_spec (zlen data mod group) 0); [lia|].
  pose proof (Z.mod_pos_bound (zlen data) group Hg0). pose proof (Z.mod_le (zlen data) group). pose proof (zlen_nonneg data). lia.
Qed.

Lemma hexlify_text :
  mjoin (imap (hex_byte (Some sep) lead group) data)
  = joined_with sep (hexes <$> hex_pieces data (Z.to_nat lead) (Z.to_nat group)).
Proof.
  destruct hex_group_eq, hex_lead_bounds. rewrite <- hex_text_pieces by (unfold zlen in *; lia).
  by rewrite !Z2Nat.id by lia.
Qed.

Lemma mjoin_pieces (l g : nat) : (0 < g)%nat -> mjoin (hex_pieces data l g) = data.
Proof. intros Hg. unfold hex_pieces. rewrite mjoin_cons, mjoin_chunks by done. apply take_drop. Qed.

(** After the lead the rest is whole groups, when groups are counted from the right. *)
Lemma hex_rest_whole : 0 < bps -> (zlen data - lead) mod group = 0.
Proof.
  intros Hpos. destruct hex_group_eq as [_ Hg0]. unfold lead, hex_lead. rewrite (proj2 (Z.ltb_lt 0 bps) Hpos).
  destruct (Z.eqb_spec (zlen data mod group) 0) as [Hz|Hz].
  - rewrite Zminus_mod, Hz, Z.mod_same by lia. done.
  - rewrite Zminus_mod, Z.mod_mod, Z.sub_diag by lia. done.
Qed.

Lemma hex_grouped : grouped bps (hex_pieces data (Z.to_nat lead) (Z.to_nat group)).
Proof.
  destruct hex_group_eq as [Hg Hg0], hex_lead_bounds as [Hl Hl']. unfold grouped. destruct (Z.ltb_spec 0 bps) as [Hpos|Hneg].
  - unfold hex_pieces. cbn [tail take]. split.
    + destruct (Z.le_gt_cases (zlen data) (Z.abs bps)) as [Hle|Hgt].
      * assert (group = zlen data) as Hgz by lia. pose proof (hex_rest_whole Hpos) as Hw. rewrite Hgz in Hw.
        assert (lead = zlen data) as Hlz; [|rewrite drop_ge by (unfold zlen in *; lia); constructor].
        destruct (Z.eq_dec (zlen data - lead) 0); [lia|]. rewrite Z.mod_small in Hw by lia. lia.
      * assert (group = Z.abs bps) as Hgz by lia. pose proof (hex_rest_whole Hpos) as Hw.
        eapply Forall_impl; [apply (chunks_whole_eq (Z.to_nat group)); [lia|]|intros c Hcn; cbv beta in *; unfold zlen; lia].
        rewrite length_drop. apply Nat2Z.inj. rewrite Nat2Z.inj_mod, Nat2Z.inj_sub, !Z2Nat.id by (unfold zlen in *; lia).
        exact Hw.
    + constructor; [|constructor]. unfold zlen in *. rewrite length_take. lia.
  - assert (lead = group) as Hlg by (unfold lead, hex_lead; by rewrite (proj2 (Z.ltb_ge 0 bps)) by lia).
    unfold hex_pieces. rewrite Hlg, <- chunks_cons by (done || lia).
    destruct (chunks_front (Z.to_nat group) data) as (front & final & Hc & HF & Hfin); [lia|done|].
    exists front, final. split; [done|]. split; [|unfold zlen; lia].
    destruct (Z.le_gt_cases (zlen data) (Z.abs bps)) as [Hle|Hgt]; [|eapply Forall_impl; [exact HF|intros c Hcn; cbv beta in *; unfold zlen; lia]].
    rewrite chunks_short in Hc by (done || (unfold zlen in *; lia)).
    destruct front as [|f front]; [constructor|]. apply (f_equal length) in Hc. rewrite length_app in Hc. cbn in Hc. lia.
Qed.

Lemma hex_count : zlen (chunks (Z.to_nat group) (drop (Z.to_nat lead) data)) <= zlen data / group.
Proof.
  destruct hex_group_eq as [Hg Hg0], hex_lead_bounds as [Hl Hl']. rewrite length_chunks, Z2Nat.id by lia. unfold ceil_div.
  assert (zlen (drop (Z.to_nat lead) data) = zlen data - lead) as -> by (unfold zlen in *; rewrite length_drop; lia).
  destruct (Z.ltb_spec 0 bps) as [Hpos|Hneg].
  - pose proof (hex_rest_whole Hpos) as Hw. apply Z.div_exact in Hw; [|lia]. rewrite Hw.
    set (q := (zlen data - lead) / group) in *. replace (group * q + group - 1) with (q * group + (group - 1)) by lia.
    rewrite Z.div_add_l, (Z.div_small (group - 1)), Z.add_0_r by lia. apply Z.div_le_lower_bound; lia.
  - assert (lead = group) as -> by (unfold lead, hex_lead; by rewrite (proj2 (Z.ltb_ge 0 bps)) by lia).
    apply Z.div_le_mono; lia.
Qed.
End Hexlify.

Lemma joined_length sep piece rest :
  zlen (joined_with sep (piece :: rest)) = zlen (mjoin (piece :: rest)) + zlen rest.
Proof.
  cbn [joined_with]. rewrite mjoin_cons, !zlen_app. assert (zlen (mjoin (cons sep <$> rest)) = zlen (mjoin rest) + zlen rest); [|lia].
  induction rest as [|p rest IH]; [done|]. rewrite fmap_cons, !mjoin_cons, !zlen_app, IH. unfold zlen. cbn [length]. lia.
Qed.

Lemma hexes_mjoin pieces : mjoin (hexes <$> pieces) = hexes (mjoin pieces).
Proof. induction pieces as [|p pieces IH]; [done|]. by rewrite fmap_cons, !mjoin_cons, IH, hexes_app. Qed.

(** ** Uuencoded lines *)

Lemma uu_sextet_next backtick v k : 0 <= v < 64 -> uu_next (uu_sextet backtick v :: k) = Ok (v, k).
Proof.
  intros Hv. assert (rok (uu_next [uu_sextet backtick v]) = Some (v, [])) as H1.
  { revert v Hv. destruct backtick; below 64%nat. }
  revert H1. unfold uu_next, rok. repeat case_match; congruence.
Qed.

Lemma uu_length_byte backtick : forall v, 0 <= v < 64 -> Z.land ((uu_sextet backtick v - ch " ") mod 256) 63 = v.
Proof. destruct backtick; below 64%nat. Qed.

Lemma uu_zero_blank backtick : uu_blank (uu_sextet backtick 0) = true.
Proof. by destruct backtick. Qed.

(** What the four characters of a chunk add, the first bits first. *)
Section Turns.
Context (backtick : bool) (o k : bytes) (v x : Z).
Abbreviation c := (uu_sextet backtick v).

Ltac uu_turn_tac :=
  intros; unfold uu_turn; cbn [u_rest u_out u_leftover u_bits]; rewrite uu_sextet_next by done;
  cbn [rbind]; rewrite lor_shl by (lia || (change (2 ^ 6) with 64; lia)); change (2 ^ 6) with 64;
  cbn -[Z.mul Z.shiftr Z.land Z.modulo Z.div];
  rewrite ?Z.shiftr_div_pow2, ?(land_mod _ 255 8), ?(land_mod _ 15 4), ?(land_mod _ 3 2), ?Z.land_0_r by lia;
  f_equal; f_equal; first [dlia|f_equal; f_equal; dlia].

Lemma uu_turn_0 : 0 <= v < 64 -> uu_turn (mkUu (c :: k) o 0 0) = Ok (mkUu k o v 6).
Proof. uu_turn_tac. Qed.

Lemma uu_turn_6 : 0 <= v < 64 -> 0 <= x < 64 ->
  uu_turn (mkUu (c :: k) o x 6) = Ok (mkUu k (o ++ [x * 4 + v / 16]) (v mod 16) 4).
Proof. uu_turn_tac. Qed.

Lemma uu_turn_4 : 0 <= v < 64 -> 0 <= x < 16 ->
  uu_turn (mkUu (c :: k) o x 4) = Ok (mkUu k (o ++ [x * 16 + v / 4]) (v mod 4) 2).
Proof. uu_turn_tac. Qed.

Lemma uu_turn_2 : 0 <= v < 64 -> 0 <= x < 4 -> uu_turn (mkUu (c :: k) o x 2) = Ok (mkUu k (o ++ [x * 64 + v]) 0 0).
Proof. uu_turn_tac. Qed.
End Turns.

Lemma uu_loop_turn f remaining u :
  (length (u_out u) < remaining)%nat -> uu_loop (S f) remaining u = rbind (uu_turn u) (uu_loop f remaining).
Proof. intros Hl. cbn [uu_loop]. by rewrite (proj2 (Nat.ltb_lt _ _) Hl). Qed.

Lemma uu_loop_done f remaining u : (remaining <= length (u_out u))%nat -> uu_loop f remaining u = Ok u.
Proof. intros Hl. destruct f; cbn [uu_loop]; [done|]. by rewrite (proj2 (Nat.ltb_ge _ _) Hl). Qed.

(** The sextets of a chunk. *)
Lemma uu_chunk_sextets backtick b0 b1 b2 :
  is_byte b0 -> is_byte b1 -> is_byte b2 ->
  be_word 32 3 [b0; b1; b2] = b0 * 65536 + b1 * 256 + b2 /\
  uu_chunk backtick [b0; b1; b2] = uu_sextet backtick <$> [b0 / 4; b0 mod 4 * 16 + b1 / 16; b1 mod 16 * 4 + b2 / 64; b2 mod 64].
Proof.
  intros H0 H1 H2. assert (be_word 32 3 [b0; b1; b2] = b0 * 65536 + b1 * 256 + b2) as Hw.
  { rewrite be_word_undigits; [|do 3 (apply Forall_cons_2; [done|]); apply Forall_nil_2|cbn; lia|lia]. cbn -[Z.mul Z.add]. lia. }
  split; [done|]. unfold uu_chunk. rewrite Hw. cbn [fmap list_fmap].
  do 3 (f_equal; [f_equal; bits; dlia|]). f_equal. f_equal. bits. dlia.
Qed.

Lemma uu_chunk_decodes backtick chunk o k f remaining :
  Forall is_byte chunk -> length chunk = 3%nat -> (length o + 3 <= remaining)%nat ->
  uu_loop (4 + f) remaining (mkUu (uu_chunk backtick chunk ++ k) o 0 0) = uu_loop f remaining (mkUu k (o ++ chunk) 0 0).
Proof.
  intros HF Hl Hr. destruct chunk as [|b0 [|b1 [|b2 [|]]]]; try discriminate. byte_bounds.
  destruct (uu_chunk_sextets backtick b0 b1 b2) as [_ ->]; [done..|]. cbn [fmap list_fmap app Nat.add].
  rewrite uu_loop_turn by (cbn [u_out]; lia). rewrite uu_turn_0 by dlia. cbn [rbind].
  rewrite uu_loop_turn by (cbn [u_out]; lia). rewrite uu_turn_6 by dlia. cbn [rbind].
  rewrite uu_loop_turn by (cbn [u_out]; rewrite length_app; cbn; lia).
  rewrite uu_turn_4 by dlia. cbn [rbind].
  rewrite uu_loop_turn by (cbn [u_out]; rewrite !length_app; cbn; lia).
  rewrite uu_turn_2 by dlia. cbn [rbind].
  do 2 f_equal. same_bytes.
Qed.

Lemma uu_tail_decodes backtick chunk o k f remaining :
  Forall is_byte chunk -> (0 < length chunk < 3)%nat -> (length o + length chunk = remaining)%nat -> forallb uu_blank k = true ->
  exists u, uu_loop (2 * length chunk + f) remaining (mkUu (uu_chunk backtick chunk ++ k) o 0 0) = Ok u
    /\ u_out u = o ++ chunk /\ forallb uu_blank (u_rest u) = true.
Proof.
  intros HF Hl Hr Hk.
  assert (uu_chunk backtick chunk = uu_chunk backtick (chunk ++ replicate (3 - length chunk) 0)) as ->
    by (unfold uu_chunk; by rewrite be_word_zeros).
  assert (is_byte 0) as Hz by (unfold is_byte; lia).
  destruct chunk as [|b0 [|b1 [|]]]; cbn [length] in *; try lia; byte_bounds; cbn [Nat.sub replicate app].
  - destruct (uu_chunk_sextets backtick b0 0 0) as [_ ->]; [done..|]. cbn [fmap list_fmap app Nat.mul Nat.add].
    rewrite uu_loop_turn by (cbn [u_out]; lia). rewrite uu_turn_0 by dlia. cbn [rbind].
    rewrite uu_loop_turn by (cbn [u_out]; lia). rewrite uu_turn_6 by dlia. cbn [rbind].
    rewrite uu_loop_done by (cbn [u_out]; rewrite length_app; cbn; lia). eexists. split; [done|]. split; [cbn [u_out]; same_bytes|].
    cbn [u_rest forallb]. change (0 mod 16 * 4 + 0 / 64) with 0. change (0 mod 64) with 0.
    by rewrite !(uu_zero_blank backtick), Hk.
  - destruct (uu_chunk_sextets backtick b0 b1 0) as [_ ->]; [done..|]. cbn [fmap list_fmap app Nat.mul Nat.add].
    rewrite uu_loop_turn by (cbn [u_out]; lia). rewrite uu_turn_0 by dlia. cbn [rbind].
    rewrite uu_loop_turn by (cbn [u_out]; lia). rewrite uu_turn_6 by dlia. cbn [rbind].
    rewrite uu_loop_turn by (cbn [u_out]; rewrite length_app; cbn; lia).
    rewrite uu_turn_4 by dlia. cbn [rbind].
    rewrite uu_loop_done by (cbn [u_out]; rewrite !length_app; cbn; lia). eexists. split; [done|]. split; [cbn [u_out]; same_bytes|].
    cbn [u_rest forallb]. change (0 mod 64) with 0. by rewrite (uu_zero_blank backtick), Hk.
Qed.

Lemma uu_text_decodes backtick remaining data o f :
  Forall is_byte data -> (length o + length data = remaining)%nat ->
  exists u, uu_loop (2 * length data + f) remaining (mkUu (mjoin (uu_chunk backtick <$> chunks 3 data) ++ [nl]) o 0 0) = Ok u
    /\ u_out u = o ++ data /\ forallb uu_blank (u_rest u) = true.
Proof.
  revert data o f. apply (chunk_ind 3 (fun data => forall o f, Forall is_byte data -> _ -> _)); [lia| |].
  - intros l Hl o f HF Hr. destruct (decide (l = [])) as [->|Hn].
    { eexists. rewrite uu_loop_done by (cbn [u_out]; cbn in Hr; lia). split; [done|]. cbn. by rewrite app_nil_r. }
    assert (0 < length l)%nat by (destruct l; cbn; [done|lia]).
    rewrite chunks_short by (done || lia). rewrite fmap_cons, mjoin_cons, app_nil_r. by apply uu_tail_decodes.
  - intros a l Ha IH o f [HFa HFl]%Forall_app Hr. rewrite length_app, Ha in *.
    rewrite chunks_app, fmap_cons, mjoin_cons, <- app_assoc by (done || lia).
    replace (2 * (3 + length l) + f)%nat with (4 + (2 * length l + (2 + f)))%nat by lia.
    rewrite uu_chunk_decodes by (done || lia). rewrite (app_assoc o a l). apply IH; [done|]. rewrite length_app. lia.
Qed.

Lemma uu_roundtrip_text data backtick :
  Forall is_byte data -> (length data <= UU_MAX_LINE)%nat ->
  exists text, uu_encode data backtick = Ok text /\ uu_decode text = Ok data.
Proof.
  intros HF Hl. unfold uu_encode. rewrite (proj2 (Nat.ltb_ge _ _)) by lia. eexists. split; [done|]. unfold uu_decode.
  rewrite uu_length_byte by (unfold UU_MAX_LINE, zlen in *; lia).
  replace (Z.to_nat (zlen data)) with (length data) by (unfold zlen; lia).
  destruct (uu_text_decodes backtick (length data) data [] 0 HF) as (u & Hu & Ho & Hb); [done|].
  rewrite Nat.add_0_r in Hu. rewrite Hu. cbn [rbind]. by rewrite Hb, Ho.
Qed.

(** The loop is not ended by its bound: six bits a turn, and a byte at a time. *)
Definition uu_ok (remaining : nat) (u : Uu) : Prop :=
  (length (u_out u) <= remaining)%nat /\ 0 <= u_bits u <= 6 /\ u_bits u mod 2 = 0.
Definition uu_amount (u : Uu) : Z := 8 * zlen (u_out u) + u_bits u.

Lemma uu_turn_amount remaining u u' :
  uu_turn u = Ok u' -> uu_ok remaining u -> (length (u_out u) < remaining)%nat ->
  uu_ok remaining u' /\ uu_amount u' = uu_amount u + 6.
Proof.
  unfold uu_turn, uu_ok, uu_amount. intros ([v rest] & _ & Hu)%rbind_Ok (Hl & Hb & He) Hlt.
  destruct (Z.leb_spec 8 (u_bits u + 6)); injection Hu as <-; cbn [u_out u_bits]; rewrite ?length_app, ?zlen_snoc; cbn [length]; dlia.
Qed.

Lemma uu_loop_amount f remaining u u' :
  uu_loop f remaining u = Ok u' -> uu_ok remaining u ->
  uu_ok remaining u' /\ (length (u_out u') = remaining \/ uu_amount u' = uu_amount u + 6 * Z.of_nat f).
Proof.
  revert u. induction f as [|f IH]; intros u Hr Hok; cbn [uu_loop] in Hr; [injection Hr as <-; split; [done|right; lia]|].
  destruct (Nat.ltb_spec (length (u_out u)) remaining) as [Hl|Hl].
  - apply rbind_Ok in Hr as (u1 & Ht & Hr). eapply uu_turn_amount in Ht as [Hok1 Ha]; [|done..].
    apply IH in Hr as [Hok' [?|Hr]]; [auto| |done]. split; [done|]. right. lia.
  - injection Hr as <-. split; [done|]. left. destruct Hok. lia.
Qed.

Lemma uu_decode_length length_byte rest out :
  uu_decode (length_byte :: rest) = Ok out -> zlen out = Z.land ((length_byte - ch " ") mod 256) 63.
Proof.
  unfold uu_decode. set (n := Z.land _ 63). intros (u & Hu & Hout)%rbind_Ok. destruct (forallb _ _); [|done]. injection Hout as <-.
  assert (0 <= n) as Hn by (subst n; rewrite (land_mod _ 63 6) by lia; apply Z.mod_pos_bound; lia).
  apply uu_loop_amount in Hu as [(Hl & Hb & He) Hu]; [|unfold uu_ok; cbn [u_out u_bits length]; dlia]. unfold uu_amount in Hu. cbn [u_out u_bits] in Hu.
  change (zlen (@nil Z)) with 0 in Hu. unfold zlen in *. destruct Hu as [->|Hu]; lia.
Qed.

(** ** The functions of the module *)

Section Module_functions.
Context {W : Type} `{Machine W}.
Variables (tr : ResourceTracker) (w : W).

(** What [hexlify] promises of its result. *)
Definition hexlified (data : bytes) (sep : option Z) (bps : Z) (text : bytes) : Prop :=
  match sep with
  | Some c =>
      if bps =? 0 then call_unhexlify text = Ok data
      else exists pieces, mjoin pieces = data /\ text = joined_with c (hexes <$> pieces)
             /\ (data <> [] -> grouped bps pieces) /\ Forall (fun p => call_unhexlify (hexes p) = Ok p) pieces
  | None => call_unhexlify text = Ok data
  end.

Lemma Forall_mjoin (P : Z -> Prop) ls : Forall P (mjoin ls) -> Forall (Forall P) ls.
Proof. induction ls as [|l ls IH]; [constructor|]. rewrite mjoin_cons. intros [? ?]%Forall_app. constructor; auto. Qed.

Lemma call_hexlify_ok data sep bps :
  Forall is_byte data ->
  within_limit (call_hexlify tr w data sep bps) (fun text =>
    hexlified data sep bps text /\ zlen text <= zlen data * 2 + zlen data / hex_group data sep bps).
Proof.
  intros HF. unfold call_hexlify, hex_encode. apply within_limit_check.
  assert (forall g, 0 < g -> 0 <= zlen data / g) as Hdiv by (intros; apply Z.div_pos; [apply zlen_nonneg|lia]).
  destruct sep as [c|]; cbn [hexlified].
  2:{ rewrite hex_text_none. split; [by apply hexes_decode|]. rewrite hexes_length. specialize (Hdiv (hex_group data None bps)). cbn in *. lia. }
  destruct (decide (data = [])) as [->|Hne].
  { split; [|by destruct (hex_group _ _ _)]. destruct (bps =? 0); [done|]. exists []. by split_and!. }
  destruct (Z.eqb_spec bps 0) as [->|Hbps].
  - rewrite imap_plain; [split; [by apply hexes_decode|]|].
    + rewrite hexes_length. specialize (Hdiv (hex_group data (Some c) 0)). cbn in *. lia.
    + intros i x Hi. unfold hex_byte, hex_lead, hex_group. cbn [Z.eqb negb andb Z.ltb Z.compare].
      rewrite (proj2 (Z.eqb_neq _ _)), (proj2 (Z.ltb_ge _ _)) by (unfold zlen; lia). done.
  - rewrite hexlify_text by done. pose proof (hex_count data c bps Hbps Hne) as Hcount.
    destruct (hex_group_eq data c bps Hbps Hne) as [_ Hg0].
    set (g := hex_group data (Some c) bps) in *. set (l := hex_lead data g bps) in *. split.
    + exists (hex_pieces data (Z.to_nat l) (Z.to_nat g)). rewrite mjoin_pieces by lia. split_and!; [done..| |].
      * intros _. by apply hex_grouped.
      * eapply Forall_impl; [apply Forall_mjoin; rewrite mjoin_pieces by lia; exact HF|]. apply hexes_decode.
    + unfold hex_pieces. rewrite fmap_cons, joined_length, <- fmap_cons, hexes_mjoin. fold (hex_pieces data (Z.to_nat l) (Z.to_nat g)).
      rewrite mjoin_pieces, hexes_length by lia. unfold zlen at 2. rewrite length_fmap. fold (zlen (chunks (Z.to_nat g) (drop (Z.to_nat l) data))). lia.
Qed.

(** Hexadecimal and uuencoded lines lose nothing. [hexlify] writes two digits a byte,
    which [unhexlify] reads back, with the separator between groups that are complete but
    the first, or but the last if counted from the left, and never more bytes than it
    reserved; [b2a_uu] encodes every line of at most 45 bytes and refuses others, and
    [a2b_uu] reads it back with either convention for zeros; a line it accepts decodes to
    as many bytes as its first byte says; and [a2b_base64] reads what [b2a_base64] writes. *)
Theorem hex_uu_roundtrip data sep bps backtick newline :
  Forall is_byte data ->
  within_limit (call_hexlify tr w data sep bps) (fun text =>
    hexlified data sep bps text /\ zlen text <= zlen data * 2 + zlen data / hex_group data sep bps)
  /\ (if (length data <=? UU_MAX_LINE)%nat
      then exists text, call_b2a_uu data backtick = Ok text /\ call_a2b_uu text = Ok data
      else call_b2a_uu data backtick = Err (BinasciiError "At most 45 bytes at once"))
  /\ (forall b rest out, call_a2b_uu (b :: rest) = Ok out -> zlen out = Z.land ((b - ch " ") mod 256) 63)
  /\ within_limit (call_b2a_base64 tr w data newline) (fun text => call_a2b_base64 text false = Ok data).
Proof.
  intros HF. split_and!; [by apply call_hexlify_ok| |apply uu_decode_length|].
  - destruct (Nat.leb_spec (length data) UU_MAX_LINE); [by apply uu_roundtrip_text|].
    unfold call_b2a_uu, uu_encode. by rewrite (proj2 (Nat.ltb_lt _ _)) by lia.
  - eapply within_limit_bind; [apply b64_encode_text|]. intros text <-. cbn [within_limit]. unfold call_a2b_base64.
    destruct newline; [|by apply b64_decode_text]. rewrite b64_decode_skips, List.filter_app, app_nil_r, <- b64_decode_skips.
    by apply b64_decode_text.
Qed.
End Module_functions.

(** ** The register, a bit at a time

    The CRC-32 of the reflected polynomial [0xedb88320]: the definition the table of
    the code abbreviates. *)

Definition POLYNOMIAL : Z := 0xedb88320.

Definition crc_bit (x : Z) : Z := if Z.odd x then Z.lxor (Z.shiftr x 1) POLYNOMIAL else Z.shiftr x 1.
Abbreviation crc_bits n := (Nat.iter n crc_bit).

Definition crc_ref_byte (crc byte : Z) : Z := crc_bits 8 (Z.lxor crc byte).
Definition crc32_ref (data : bytes) (seed : Z) : Z :=
  Z.lxor (foldl crc_ref_byte (Z.lxor seed u32_mask) data) u32_mask.

(** Equations of exclusive or, bit by bit. *)
Ltac xor_bits :=
  apply Z.bits_inj'; intros ?n ?Hn; rewrite ?Z.lxor_spec, ?Z.bits_0;
  repeat match goal with |- context [Z.testbit ?a ?b] => destruct (Z.testbit a b) end; reflexivity.

Lemma lxor_bound n a b : 0 <= n -> 0 <= a < 2 ^ n -> 0 <= b < 2 ^ n -> 0 <= Z.lxor a b < 2 ^ n.
Proof.
  intros Hn Ha Hb. assert (Z.lxor a b = Z.lxor a b mod 2 ^ n) as ->; [|apply Z.mod_pos_bound, Z.pow_pos_nonneg; lia].
  apply Z.bits_inj'. intros k Hk. destruct (Z.lt_ge_cases k n); [by rewrite Z.mod_pow2_bits_low|].
  rewrite Z.mod_pow2_bits_high by lia. rewrite <- (Z.mod_small a (2 ^ n)), <- (Z.mod_small b (2 ^ n)) by done.
  by rewrite Z.lxor_spec, !Z.mod_pow2_bits_high by lia.
Qed.

(** *** The register is linear *)

Lemma crc_bit_lxor x y : crc_bit (Z.lxor x y) = Z.lxor (crc_bit x) (crc_bit y).
Proof.
  unfold crc_bit. rewrite <- !Z.bit0_odd, Z.lxor_spec, !Z.bit0_odd, Z.shiftr_lxor.
  destruct (Z.odd x), (Z.odd y); cbn [xorb]; xor_bits.
Qed.

Lemma crc_bits_lxor n x y : crc_bits n (Z.lxor x y) = Z.lxor (crc_bits n x) (crc_bits n y).
Proof. induction n as [|n IH]; [done|]. by rewrite !Nat.iter_succ, IH, crc_bit_lxor. Qed.

Lemma crc_bits_shift n x : crc_bits n (Z.shiftl x (Z.of_nat n)) = x.
Proof.
  induction n as [|n IH]; [apply Z.shiftl_0_r|]. rewrite Nat.iter_succ_r.
  replace (crc_bit (Z.shiftl x (Z.of_nat (S n)))) with (Z.shiftl x (Z.of_nat n)); [done|].
  unfold crc_bit. rewrite !Z.shiftl_mul_pow2, Nat2Z.inj_succ, Z.pow_succ_r by lia.
  replace (x * (2 * 2 ^ Z.of_nat n)) with (2 * (x * 2 ^ Z.of_nat n)) by lia.
  rewrite Z.odd_mul. cbn [Z.odd andb]. rewrite Z.shiftr_div_pow2 by lia.
  change (2 ^ 1) with 2. by rewrite (Z.mul_comm 2), Z.div_mul by lia.
Qed.

(** *** The table *)

Lemma nibble_table : forall v, 0 <= v < 16 -> index NIBBLE_TABLE v = crc_bits 4 v.
Proof. below 16%nat. Qed.

Lemma crc_nibble_bits x : crc_nibble x = crc_bits 4 x.
Proof.
  assert (x = Z.lxor (Z.shiftl (Z.shiftr x 4) 4) (Z.land x 15)) as Hx.
  { apply Z.bits_inj'. intros n Hn. rewrite Z.lxor_spec, Z.land_spec, Z.shiftl_spec by done.
    change 15 with (Z.ones 4). destruct (Z.lt_ge_cases n 4).
    - rewrite (Z.testbit_neg_r (Z.shiftr x 4)), Z.ones_spec_low, andb_true_r by lia. by destruct (Z.testbit x n).
    - rewrite Z.shiftr_spec, Z.ones_spec_high, andb_false_r, xorb_false_r by lia. f_equal. lia. }
  rewrite Hx at 2. rewrite crc_bits_lxor, (crc_bits_shift 4). unfold crc_nibble. f_equal. apply nibble_table.
  rewrite (land_mod x 15 4) by lia. apply Z.mod_pos_bound. lia.
Qed.

Lemma crc_byte_ref crc byte : crc_byte crc byte = crc_ref_byte crc byte.
Proof. unfold crc_byte. by rewrite !crc_nibble_bits. Qed.

(** *** The register is invertible *)

Definition u32 (x : Z) : Prop := 0 <= x < 2 ^ 32.

Lemma crc_bit_range x : u32 x -> u32 (crc_bit x).
Proof.
  intros Hx. unfold crc_bit, u32 in *. assert (0 <= Z.shiftr x 1 < 2 ^ 31) by (rewrite Z.shiftr_div_pow2 by lia; dlia).
  destruct (Z.odd x); [|lia]. apply lxor_bound; [lia..|]. unfold POLYNOMIAL. lia.
Qed.

Lemma crc_bits_range n x : u32 x -> u32 (crc_bits n x).
Proof. intros. induction n; [done|]. rewrite Nat.iter_succ. auto using crc_bit_range. Qed.

(** The top bit tells which branch was taken. *)
Lemma crc_bit_top x : u32 x -> Z.testbit (crc_bit x) 31 = Z.odd x.
Proof.
  intros Hx. assert (Z.testbit (Z.shiftr x 1) 31 = false) as Ht.
  { rewrite Z.shiftr_spec by lia. change (31 + 1) with 32. unfold u32 in Hx. rewrite <- (Z.mod_small x (2 ^ 32)) by done.
    apply Z.mod_pow2_bits_high. lia. }
  unfold crc_bit. destruct (Z.odd x); [|done]. by rewrite Z.lxor_spec, Ht.
Qed.

Lemma crc_bit_inj x y : u32 x -> u32 y -> crc_bit x = crc_bit y -> x = y.
Proof.
  intros Hx Hy Heq. assert (Z.odd x = Z.odd y) as Ho by (by rewrite <- !crc_bit_top, Heq).
  assert (Z.shiftr x 1 = Z.shiftr y 1) as Hs.
  { unfold crc_bit in Heq. rewrite Ho in Heq. destruct (Z.odd y); [|done].
    apply (f_equal (fun v => Z.lxor v POLYNOMIAL)) in Heq. by rewrite !Z.lxor_assoc, Z.lxor_nilpotent, !Z.lxor_0_r in Heq. }
  rewrite !Z.shiftr_div_pow2 in Hs by lia. change (2 ^ 1) with 2 in Hs.
  rewrite (Z.div_mod x 2), (Z.div_mod y 2), Hs, !Zmod_odd, Ho by lia. done.
Qed.

Lemma crc_bits_inj n x y : u32 x -> u32 y -> crc_bits n x = crc_bits n y -> x = y.
Proof. intros Hx Hy. induction n as [|n IH]; [done|]. rewrite !Nat.iter_succ. intros Heq%crc_bit_inj; auto using crc_bits_range. Qed.

Lemma lxor_inj a x y : Z.lxor a x = Z.lxor a y -> x = y.
Proof.
  intros Heq. apply (f_equal (Z.lxor a)) in Heq. by rewrite <- !Z.lxor_assoc, Z.lxor_nilpotent, !Z.lxor_0_l in Heq.
Qed.

(** ** Words

    Feeding bytes is adding their little-endian word, then shifting it through. *)

Fixpoint le_word (l : bytes) : Z :=
  match l with [] => 0 | b :: l' => le_word l' * 256 + b end.

Lemma le_word_bound l : Forall is_byte l -> 0 <= le_word l < 2 ^ (8 * zlen l).
Proof.
  induction 1 as [|b l Hb _ IH]; [done|]. cbn [le_word]. replace (8 * zlen (b :: l)) with (8 * zlen l + 8) by (unfold zlen; cbn [length]; lia).
  rewrite Z.pow_add_r by (pose proof (zlen_nonneg l); lia). unfold is_byte in Hb. change (2 ^ 8) with 256. nia.
Qed.

Lemma le_word_inj u v : Forall is_byte u -> Forall is_byte v -> length u = length v -> le_word u = le_word v -> u = v.
Proof.
  intros Hu. revert v. induction Hu as [|b u Hb Hu IH]; intros v Hv Hl Heq; destruct v as [|c v]; try done.
  apply Forall_cons in Hv as [Hc Hv]. cbn [le_word] in Heq. unfold is_byte in Hb, Hc.
  assert (b = c) as -> by dlia. f_equal. apply IH; [done|by injection Hl|lia].
Qed.

Lemma crc_ref_word l s : Forall is_byte l -> foldl crc_ref_byte s l = crc_bits (8 * length l) (Z.lxor s (le_word l)).
Proof.
  intros HF. revert s. induction HF as [|b l Hb HF IH]; intros s; [cbn; by rewrite Z.lxor_0_r|].
  cbn [foldl]. rewrite IH. unfold crc_ref_byte.
  replace (8 * length (b :: l))%nat with (8 * length l + 8)%nat by (cbn [length]; lia). rewrite Nat.iter_add. f_equal.
  replace (Z.lxor s (le_word (b :: l))) with (Z.lxor (Z.lxor s b) (Z.shiftl (le_word l) 8)).
  - rewrite (crc_bits_lxor 8 (Z.lxor s b)). f_equal. symmetry. apply (crc_bits_shift 8).
  - cbn [le_word]. change (le_word l * 256) with (le_word l * 2 ^ 8). rewrite <- lxor_add, Z.shiftl_mul_pow2 by (done || lia).
    xor_bits.
Qed.

Lemma crc_ref_range l s : Forall is_byte l -> u32 s -> u32 (foldl crc_ref_byte s l).
Proof.
  intros HF. revert s. induction HF as [|b l Hb HF IH]; intros s Hs; [done|]. apply IH. apply crc_bits_range.
  apply lxor_bound; [lia|done|]. unfold is_byte in Hb. lia.
Qed.

Lemma crc_ref_inj l s t : Forall is_byte l -> u32 s -> u32 t -> foldl crc_ref_byte s l = foldl crc_ref_byte t l -> s = t.
Proof.
  intros HF. revert s t. induction HF as [|b l Hb HF IH]; intros s t Hs Ht Heq; [done|].
  assert (u32 b) by (unfold is_byte, u32 in *; lia).
  apply IH in Heq; [|by apply crc_bits_range, lxor_bound..]. apply crc_bits_inj in Heq; [|by apply lxor_bound..].
  rewrite !(Z.lxor_comm _ b) in Heq. by apply lxor_inj in Heq.
Qed.

Lemma crc32_eq_ref data seed : crc32 data seed = crc32_ref data seed.
Proof.
  unfold crc32, crc32_ref. f_equal. generalize (Z.lxor seed u32_mask) as s.
  induction data as [|b data IH]; intros s; cbn [foldl]; [done|]. by rewrite crc_byte_ref, IH.
Qed.

(** C28: The checksum is the CRC-32. It is what the register of the polynomial computes bit
    by bit, a [u32]; it is resumable; and it detects errors: two messages of one length that
    differ only within four bytes in a row have different checksums. *)
Theorem crc32_correct data seed :
  Forall is_byte data -> u32 seed ->
  crc32 data seed = crc32_ref data seed
  /\ u32 (crc32 data seed)
  /\ (forall more, crc32 (data ++ more) seed = crc32 more (crc32 data seed))
  /\ (forall u v rest, Forall is_byte u -> Forall is_byte v -> Forall is_byte rest ->
        length u = length v -> (length u <= 4)%nat -> u <> v ->
        crc32 (data ++ u ++ rest) seed <> crc32 (data ++ v ++ rest) seed).
Proof.
  intros HF Hs. assert (u32 u32_mask) as Hm by done.
  assert (u32 (Z.lxor seed u32_mask)) as Hs' by (by apply lxor_bound).
  split_and!; [apply crc32_eq_ref| | |].
  - rewrite crc32_eq_ref. apply lxor_bound; [lia|by apply crc_ref_range|done].
  - intros more. unfold crc32. rewrite foldl_app. do 2 f_equal. by rewrite Z.lxor_assoc, Z.lxor_nilpotent, Z.lxor_0_r.
  - intros u v rest Hu Hv Hr Hl H4 Hne Heq. rewrite !crc32_eq_ref in Heq. unfold crc32_ref in Heq.
    rewrite !(Z.lxor_comm _ u32_mask) in Heq. apply lxor_inj in Heq. rewrite !foldl_app in Heq.
    rewrite (Z.lxor_comm u32_mask) in Heq. set (s := foldl crc_ref_byte _ data) in *.
    assert (u32 s) as Hss by (by apply crc_ref_range).
    apply crc_ref_inj in Heq; [|done|by apply crc_ref_range..]. rewrite !crc_ref_word, Hl in Heq by done.
    assert (forall x, Forall is_byte x -> length x = length v -> u32 (Z.lxor s (le_word x))) as Hx.
    { intros x HFx Hlx. apply lxor_bound; [lia|done|]. pose proof (le_word_bound x HFx) as [? Hb].
      split; [done|]. eapply Z.lt_le_trans; [exact Hb|]. apply Z.pow_le_mono_r; [lia|]. unfold zlen. lia. }
    apply crc_bits_inj in Heq; [|by apply Hx..]. apply lxor_inj in Heq. by apply Hne, le_word_inj.
Qed.

Lemma crc32_correct_witness :
  Forall is_byte (blit "mon") /\ u32 0 /\ crc32 (blit "monty") 0 = 3825610996
  /\ crc32 (blit "mon" ++ blit "ty" ++ []) 0 <> crc32 (blit "mon" ++ blit "tz" ++ []) 0.
Proof.
  assert (forall c d, is_byte c -> is_byte d -> Forall is_byte [c; d]) as H2 by (intros; by repeat apply Forall_cons_2).
  assert (Forall is_byte (blit "mon")) as HF by (repeat apply Forall_cons_2; done).
  split_and!; [exact HF|done|by vm_compute|].
  refine (proj2 (proj2 (proj2 (crc32_correct (blit "mon") 0 HF _))) (blit "ty") (blit "tz") [] _ _ _ _ _ _);
    [done|by apply H2|by apply H2|done|done|cbn; lia|done].
Defined.

(** [crc_hqx] is resumable too. *)
Theorem crc_hqx_resumes a b seed : crc_hqx (a ++ b) seed = crc_hqx b (crc_hqx a seed).
Proof. apply foldl_app. Qed.
