(* ===== verification/QpProps.v ===== *)
(** * Theorems about quoted-printable text *)
From S2P Require Import Prelude Resource Bytes Base64 Base64Props Binascii.

#[local] Open Scope Z_scope.
#[local] Open Scope monty_scope.

(** ** Decoding *)

Lemma skip_line_length rest : (length (skip_line rest) <= length rest)%nat.
Proof. induction rest as [|b rest IH]; cbn; [lia|]. destruct (b =? nl); lia. Qed.

Lemma qp_turn_shorter header byte tail bs rest :
  qp_decode_turn header byte tail = Some (bs, rest) -> (length rest <= length tail)%nat.
Proof.
  unfold qp_decode_turn. destruct (byte =? ch "="); [|destruct (header && _); intros [= _ <-]; lia].
  destruct tail as [|first tail']; [done|]. destruct (_ || _).
  { intros [= _ <-]. apply (skip_line_length (first :: tail')). }
  destruct (first =? ch "="); [intros [= _ <-]; cbn; lia|].
  destruct (hex_digit first); [destruct (match tail' with [] => _ | _ => _ end)|]; intros [= _ <-]; cbn [length]; rewrite ?length_drop; lia.
Qed.

Lemma qp_decode_enough fuel header rest out :
  (length rest <= fuel)%nat -> qp_decode_loop fuel header rest out = qp_decode_loop (length rest) header rest out.
Proof.
  remember (length rest) as n eqn:Hn. revert fuel rest out Hn. induction (lt_wf n) as [n _ IH]; intros fuel rest out Hn Hf.
  destruct rest as [|b tl]; [by destruct fuel, n|]. destruct fuel as [|fuel]; [cbn in *; lia|]. subst n. cbn [length qp_decode_loop].
  destruct (qp_decode_turn header b tl) as [[bs r]|] eqn:Ht; [|done]. apply qp_turn_shorter in Ht. cbn [length] in *.
  rewrite (IH (length r)) by (done || lia). symmetry. apply IH; (done || lia).
Qed.

(** The decoder without its bound. *)
Definition qp_dec (header : bool) (rest out : bytes) : bytes := qp_decode_loop (length rest) header rest out.

Lemma qp_dec_cons header b tl out :
  qp_dec header (b :: tl) out
  = match qp_decode_turn header b tl with None => out | Some (bs, rest) => qp_dec header rest (out ++ bs) end.
Proof.
  unfold qp_dec. cbn [length qp_decode_loop]. destruct (qp_decode_turn header b tl) as [[bs r]|] eqn:Ht; [|done].
  apply qp_decode_enough. by eapply qp_turn_shorter.
Qed.

(** ** Coded text

    What an encoder writes, token by token, with the bytes it stands for. *)
Inductive qp_coded (header : bool) : bytes -> bytes -> Prop :=
| coded_nil : qp_coded header [] []
| coded_literal o t b : qp_coded header o t -> b <> ch "=" -> (header = true -> b <> ch "_") -> qp_coded header (o ++ [b]) (t ++ [b])
| coded_space o t : qp_coded header o t -> header = true -> qp_coded header (o ++ [ch "_"]) (t ++ [ch " "])
| coded_escape o t b : qp_coded header o t -> is_byte b -> qp_coded header (o ++ ch "=" :: qp_hex b) (t ++ [b])
| coded_break o t crlf : qp_coded header o t -> qp_coded header (o ++ qp_soft_break crlf) t.

Lemma upper_hex : forall v, 0 <= v < 16 ->
  hex_digit (index UPPER_HEX v) = Some v /\ index UPPER_HEX v <> nl /\ index UPPER_HEX v <> cr
  /\ index UPPER_HEX v <> ch "=" /\ is_blank (index UPPER_HEX v) = false.
Proof. below 16%nat. Qed.

Lemma qp_hex_digits b : is_byte b ->
  exists hi lo, 0 <= hi < 16 /\ 0 <= lo < 16 /\ b = hi * 16 + lo /\ qp_hex b = [index UPPER_HEX hi; index UPPER_HEX lo].
Proof. intros Hb. exists (b / 16), (b mod 16). unfold qp_hex. bits. split_and!; [dlia..|done]. Qed.

Lemma qp_dec_escape header b k out : is_byte b -> qp_dec header (ch "=" :: qp_hex b ++ k) out = qp_dec header k (out ++ [b]).
Proof.
  intros Hb. destruct (qp_hex_digits b Hb) as (hi & lo & Hhi & Hlo & Heq & ->). rewrite qp_dec_cons. unfold qp_decode_turn.
  rewrite Z.eqb_refl. cbn [app]. destruct (upper_hex hi Hhi) as (Hd & Hnl & Hcr & He & _).
  rewrite (proj2 (Z.eqb_neq _ _) Hnl), (proj2 (Z.eqb_neq _ _) Hcr), (proj2 (Z.eqb_neq _ _) He), Hd. cbn [orb].
  destruct (upper_hex lo Hlo) as (-> & _). cbn [drop]. rewrite lor_shl by (lia || (change (2 ^ 4) with 16; lia)).
  do 3 f_equal. subst b. change (2 ^ 4) with 16. lia.
Qed.

Lemma qp_dec_break header crlf k out : qp_dec header (qp_soft_break crlf ++ k) out = qp_dec header k out.
Proof.
  unfold qp_soft_break. cbn [app]. rewrite qp_dec_cons.
  assert (qp_decode_turn header (ch "=") (eol crlf ++ k) = Some ([], k)) as -> by (by destruct crlf). by rewrite app_nil_r.
Qed.

Lemma qp_coded_decodes header o t : qp_coded header o t -> forall k out, qp_dec header (o ++ k) out = qp_dec header k (out ++ t).
Proof.
  induction 1 as [|o t b _ IH Hne Hh|o t _ IH Hh|o t b _ IH Hb|o t crlf _ IH]; intros k out.
  - by rewrite app_nil_r.
  - rewrite <- !app_assoc, IH. cbn [app]. rewrite qp_dec_cons. unfold qp_decode_turn.
    rewrite (proj2 (Z.eqb_neq _ _) Hne). destruct (Z.eqb_spec b (ch "_")) as [->|]; [|by rewrite andb_false_r, <- app_assoc].
    destruct header; [by destruct Hh|]. cbn [andb]. by rewrite <- app_assoc.
  - subst header. rewrite <- !app_assoc, IH. cbn [app]. rewrite qp_dec_cons.
    change (qp_decode_turn true (ch "_") k) with (Some ([ch " "], k)). cbv beta iota. by rewrite <- app_assoc.
  - rewrite <- !app_assoc, IH. cbn [app]. by rewrite qp_dec_escape, <- app_assoc.
  - rewrite <- app_assoc, IH. apply qp_dec_break.
Qed.

(** A blank at the end of a coded text stands for itself. *)
Lemma qp_coded_blank header o b t :
  qp_coded header (o ++ [b]) t -> is_blank b = true -> exists t', t = t' ++ [b] /\ qp_coded header o t'.
Proof.
  intros Hc Hb. remember (o ++ [b]) as ob eqn:Hob. destruct Hc as [|o' t b' Hc _ _|o' t Hc _|o' t b' Hc Hb'|o' t crlf Hc].
  - by destruct o.
  - apply app_inj_tail in Hob as [-> ->]. eauto.
  - apply app_inj_tail in Hob as [-> <-]. done.
  - destruct (qp_hex_digits b' Hb') as (hi & lo & _ & Hlo & _ & Hh). rewrite Hh in Hob.
    change (o' ++ [ch "="; index UPPER_HEX hi; index UPPER_HEX lo] = o ++ [b]) in Hob.
    rewrite (app_assoc o' [ch "="; index UPPER_HEX hi] [index UPPER_HEX lo] : o' ++ [_; _; _] = _) in Hob.
    apply app_inj_tail in Hob as [_ <-]. by destruct (upper_hex lo Hlo) as (_ & _ & _ & _ & ?); congruence.
  - destruct crlf.
    + change (o' ++ qp_soft_break true) with (o' ++ [ch "="; cr] ++ [nl]) in Hob. rewrite app_assoc in Hob.
      by apply app_inj_tail in Hob as [_ <-].
    + change (o' ++ qp_soft_break false) with (o' ++ [ch "="] ++ [nl]) in Hob. rewrite app_assoc in Hob.
      by apply app_inj_tail in Hob as [_ <-].
Qed.

(** ** Encoding *)

(** What an encoded text means: in text mode every line ends the same way. *)
Fixpoint same_ends (crlf : bool) (data : bytes) : bytes :=
  match data with
  | [] => []
  | b :: rest =>
      if b =? nl then eol crlf ++ same_ends crlf rest
      else if b =? cr then
        match rest with
        | c :: rest' => if c =? nl then eol crlf ++ same_ends crlf rest' else b :: same_ends crlf rest
        | [] => [b]
        end
      else b :: same_ends crlf rest
  end.

Section Encode.
Context (data : bytes) (options : QpOptions) (crlf : bool) (HF : Forall is_byte data).

Definition qp_meaning (l : bytes) : bytes := if istext options then same_ends crlf l else l.

Lemma here index : (index < length data)%nat ->
  is_byte (get_or0 data index) /\ drop index data = get_or0 data index :: drop (S index) data
  /\ data !! S index = head (drop (S index) data).
Proof.
  intros Hi. destruct (lookup_lt_is_Some_2 data index Hi) as [b Hb]. unfold get_or0. rewrite Hb. cbn.
  split; [by eapply Forall_lookup_1|]. split; [by apply drop_S|]. by rewrite head_lookup, lookup_drop, Nat.add_0_r.
Qed.

Lemma quoted_text index linelen :
  qp_needs_quoting data index linelen options = true -> istext options = true ->
  get_or0 data index <> nl /\ get_or0 data index <> cr.
Proof.
  unfold qp_needs_quoting, qp_always_quotes. intros Hq Hi. rewrite Hi in Hq. split; intros He; rewrite He in Hq; revert Hq;
    destruct (header options), (quotetabs options), (linelen =? 0), (S index =? length data)%nat; done.
Qed.

Lemma meaning_plain b rest :
  (istext options = true -> b <> nl /\ ~ (b = cr /\ head rest = Some nl)) -> qp_meaning (b :: rest) = b :: qp_meaning rest.
Proof.
  intros Hb. unfold qp_meaning. destruct (istext options); [|done]. destruct (Hb eq_refl) as [Hnl Hcr]. cbn [same_ends].
  rewrite (proj2 (Z.eqb_neq b nl) Hnl). destruct (Z.eqb_spec b cr); [|done]. destruct rest as [|c rest]; [done|].
  destruct (Z.eqb_spec c nl) as [->|]; [|done]. by destruct Hcr.
Qed.

(** The coded text so far, and what is left to encode. *)
Definition qp_inv (q : Qp) : Prop :=
  (q_index q <= length data)%nat /\
  exists t, qp_coded (header options) (q_out q) t /\ t ++ qp_meaning (drop (q_index q) data) = qp_meaning data.

Lemma coded_eol o t : qp_coded (header options) o t -> qp_coded (header options) (o ++ eol crlf) (t ++ eol crlf).
Proof.
  intros Hc. destruct crlf; cbn [eol]; [|by apply coded_literal].
  change [cr; nl] with ([cr] ++ [nl]). rewrite !app_assoc. by do 2 (apply coded_literal; [|done..]).
Qed.

(** Quoting the blank before a line end. *)
Definition quote_last (out : bytes) : bytes :=
  match last out with
  | Some b => if is_blank b then truncate_by 1 out ++ ch "=" :: qp_hex b else out
  | None => out
  end.

Lemma coded_quote_last o t : qp_coded (header options) o t -> qp_coded (header options) (quote_last o) t.
Proof.
  intros Hc. unfold quote_last. destruct o as [|b o _] using rev_ind; [done|]. rewrite last_snoc.
  destruct (is_blank b) eqn:Hb; [|done]. destruct (qp_coded_blank _ _ _ _ Hc Hb) as (t' & -> & Hc').
  unfold truncate_by. rewrite length_app, Nat.add_sub, take_app_length. apply coded_escape; [done|].
  unfold is_blank in Hb. apply orb_prop in Hb as [->%Z.eqb_eq| ->%Z.eqb_eq]; done.
Qed.

Lemma coded_soft (broken : bool) o t :
  qp_coded (header options) o t -> qp_coded (header options) (if broken then o ++ qp_soft_break crlf else o) t.
Proof. intros. destruct broken; [by apply coded_break|done]. Qed.

Lemma unquoted_plain index linelen :
  qp_needs_quoting data index linelen options = false ->
  get_or0 data index <> ch "=" /\ (header options = true -> get_or0 data index <> ch "_").
Proof.
  unfold qp_needs_quoting. intros [[Hq _]%orb_false_elim _]%orb_false_elim. unfold qp_always_quotes in Hq. split.
  - intros He. rewrite He in Hq. revert Hq. rewrite Z.eqb_refl. by rewrite orb_true_r.
  - intros Hh He. rewrite Hh, He in Hq. revert Hq. rewrite Z.eqb_refl. cbn [andb]. by rewrite !orb_true_r.
Qed.

Lemma qp_turn_inv q : qp_inv q -> (q_index q < length data)%nat -> qp_inv (qp_turn data options crlf q).
Proof.
  destruct q as [o linelen index]. intros (_ & t & Hc & Ht) Hi. cbn [q_out q_index] in *.
  destruct (here index Hi) as (Hb & Hd & Hn). unfold qp_turn. set (b := get_or0 data index) in *.
  destruct (qp_needs_quoting data index linelen options) eqn:Hq; [|destruct (istext options && is_break data index) eqn:Hbr].
  - split; cbn [q_index q_out]; [lia|]. exists (t ++ [b]). split; [by apply coded_escape; [apply coded_soft|]|].
    rewrite <- Ht, Hd, <- app_assoc, meaning_plain; [done|]. intros Htx. destruct (quoted_text _ _ Hq Htx). naive_solver.
  - apply andb_prop in Hbr as [Htx Hbr]. fold (quote_last o). unfold is_break in Hbr. fold b in Hbr.
    destruct (Z.eqb_spec b nl) as [Hnl|Hnl]; cbn [orb andb] in Hbr.
    + rewrite (proj2 (Z.eqb_neq b cr)) by (by rewrite Hnl). split; cbn [q_index q_out]; [lia|]. exists (t ++ eol crlf).
      split; [by apply coded_eol, coded_quote_last|]. rewrite <- Ht, Hd, <- app_assoc. f_equal. unfold qp_meaning. rewrite Htx.
      cbn [same_ends]. by rewrite (proj2 (Z.eqb_eq b nl) Hnl).
    + apply andb_prop in Hbr as [Hcr Hnext%bool_decide_eq_true]. rewrite Hcr. pose proof (lookup_lt_Some _ _ _ Hnext) as Hlt.
      split; cbn [q_index q_out]; [lia|]. exists (t ++ eol crlf). split; [by apply coded_eol, coded_quote_last|].
      rewrite <- Ht, Hd, <- app_assoc. f_equal. unfold qp_meaning. rewrite Htx. cbn [same_ends].
      rewrite (proj2 (Z.eqb_neq b nl) Hnl), Hcr, (drop_S data nl (S index)) by done. by rewrite Z.eqb_refl.
  - split; cbn [q_index q_out]; [lia|]. exists (t ++ [b]). destruct (unquoted_plain _ _ Hq) as [He Hh]. fold b in He, Hh. split.
    + destruct (header options && (b =? ch " ")) eqn:Hsp; [|by apply coded_literal; [apply coded_soft|..]].
      apply andb_prop in Hsp as [Hhd ->%Z.eqb_eq]. by apply coded_space; [apply coded_soft|].
    + rewrite <- Ht, Hd, <- app_assoc, meaning_plain; [done|]. intros Htx. rewrite Htx in Hbr. unfold is_break in Hbr. fold b in Hbr.
      apply orb_false_elim in Hbr as [Hnl%Z.eqb_neq Hcr]. split; [done|]. intros [Hbc Hhead]. rewrite Hbc, Hn, Hhead in Hcr. done.
Qed.

Lemma qp_turn_index q : (q_index q < q_index (qp_turn data options crlf q))%nat.
Proof. destruct q as [o l i]. unfold qp_turn. cbn [q_index]. repeat case_match; cbn [q_index]; lia. Qed.

Lemma qp_loop_inv (P : Qp -> Prop) fuel q :
  (forall q, P q -> (q_index q < length data)%nat -> P (qp_turn data options crlf q)) ->
  P q -> (length data - q_index q <= fuel)%nat ->
  P (qp_loop fuel data options crlf q) /\ (length data <= q_index (qp_loop fuel data options crlf q))%nat.
Proof.
  intros HP. revert q. induction fuel as [|fuel IH]; intros q Hq Hf; cbn [qp_loop]; [split; [done|lia]|].
  destruct (Nat.ltb_spec (q_index q) (length data)) as [Hl|Hl]; [|done].
  apply IH; [by apply HP|]. pose proof (qp_turn_index q). lia.
Qed.

Lemma qp_loop_coded :
  qp_coded (header options) (q_out (qp_loop (length data) data options crlf (mkQp [] 0 0))) (qp_meaning data).
Proof.
  destruct (qp_loop_inv qp_inv (length data) (mkQp [] 0 0)) as [(Hi & t & Hc & Ht) Hend]; [apply qp_turn_inv| |cbn; lia|].
  - split; cbn [q_index q_out]; [lia|]. exists []. split; [constructor|done].
  - rewrite drop_ge in Ht by lia. assert (qp_meaning [] = []) as Hnil by (unfold qp_meaning; by destruct (istext options)).
    rewrite Hnil, app_nil_r in Ht. by subst t.
Qed.

Lemma qp_loop_decodes :
  qp_decode (q_out (qp_loop (length data) data options crlf (mkQp [] 0 0))) (header options) = qp_meaning data.
Proof.
  pose proof (qp_coded_decodes _ _ _ qp_loop_coded [] []) as Hd. rewrite app_nil_r in Hd. exact Hd.
Qed.

(** ** How much is written *)

Abbreviation extra i := (qp_extra data options crlf i (get_or0 data i)).

(** The most the bytes before an index take, soft breaks apart. *)
Fixpoint qp_cost (n : nat) : Z :=
  match n with O => 0 | S n' => qp_cost n' + 1 + extra n' end.

Definition last_cost : Z := 2 * (if from_option is_blank false (last data) then 1 else 0).
Definition cost_at (index : nat) : Z := qp_cost index + (if (index =? length data)%nat then last_cost else 0).

Lemma extra_nonneg i : 0 <= extra i.
Proof. unfold qp_extra. repeat case_match; lia. Qed.

Lemma qp_cost_nonneg n : 0 <= qp_cost n.
Proof. induction n as [|n IH]; [done|]. cbn [qp_cost]. pose proof (extra_nonneg n). lia. Qed.

Lemma cost_before index : (index < length data)%nat -> cost_at index = qp_cost index.
Proof. intros Hi. unfold cost_at. rewrite (proj2 (Nat.eqb_neq _ _)) by lia. lia. Qed.

Lemma cost_after index : qp_cost index <= cost_at index.
Proof. unfold cost_at, last_cost. repeat case_match; lia. Qed.

(** A quoted byte was counted. *)
Lemma quoted_cost index linelen :
  (index < length data)%nat -> qp_needs_quoting data index linelen options = true ->
  qp_cost index + 3 <= cost_at (S index).
Proof.
  intros Hi Hq. pose proof (cost_after (S index)) as Ha. pose proof (extra_nonneg index) as He.
  set (b := get_or0 data index) in *.
  assert (istext options && (b =? nl) = false) as Hnl.
  { destruct (istext options) eqn:Htx; [|done]. by apply Z.eqb_neq, (quoted_text index linelen Hq Htx). }
  cbn [qp_cost] in Ha. unfold qp_needs_quoting in Hq. fold b in Hq, Ha.
  apply orb_prop in Hq as [Hq|[Hbl Hlast%Nat.eqb_eq]%andb_prop].
  - assert (qp_extra data options crlf index b = 2) as He2; [|lia]. unfold qp_extra. rewrite Hnl.
    apply orb_prop in Hq as [->|[[Hdot _]%andb_prop Hends]%andb_prop]; [done|]. by rewrite Hdot, Hends, orb_true_r.
  - assert (last_cost = 2) as Hl2.
    { unfold last_cost. rewrite last_lookup, <- Hlast. cbn [Nat.pred]. destruct (lookup_lt_is_Some_2 data index Hi) as [x Hx].
      rewrite Hx. cbn. unfold b, get_or0 in Hbl. rewrite Hx in Hbl. cbn in Hbl. by rewrite Hbl. }
    unfold cost_at. rewrite (proj2 (Nat.eqb_eq _ _) Hlast). cbn [qp_cost]. fold b. lia.
Qed.

(** What the size of the output rests on. *)
Record qp_fits (q : Qp) : Prop := {
  fits_index : (q_index q <= length data)%nat;
  fits_linelen : 0 <= q_linelen q;
  fits_size : exists breaks, zlen (q_out q) <= cost_at (q_index q) + 3 * breaks /\ 73 * breaks + q_linelen q <= cost_at (q_index q);
  fits_blank : forall b, last (q_out q) = Some b -> is_blank b = true ->
    exists i, q_index q = S i /\ is_blank (get_or0 data i) = true;
  fits_cr : istext options = true -> forall i, q_index q = S i -> get_or0 data i = cr -> data !! S i <> Some nl }.

Lemma last_hex o b : is_byte b -> exists d, last (o ++ ch "=" :: qp_hex b) = Some d /\ is_blank d = false.
Proof.
  intros Hb. destruct (qp_hex_digits b Hb) as (hi & lo & _ & Hlo & _ & ->). exists (index UPPER_HEX lo).
  split; [|by destruct (upper_hex lo Hlo) as (_ & _ & _ & _ & ?)].
  rewrite (app_assoc o [ch "="; index UPPER_HEX hi] [index UPPER_HEX lo] : o ++ [_; _; _] = _). apply last_snoc.
Qed.

Lemma last_eol o : last (o ++ eol crlf) = Some nl.
Proof. destruct crlf; cbn [eol]; [rewrite (app_assoc o [cr] [nl] : o ++ [_; _] = _)|]; apply last_snoc. Qed.

Lemma zlen_eol : 1 <= zlen (eol crlf) <= 2 /\ (crlf = false -> zlen (eol crlf) = 1).
Proof. destruct crlf; cbn; unfold zlen; cbn; split; [lia|done|lia|done]. Qed.

Lemma zlen_soft (broken : bool) o : zlen (if broken then o ++ qp_soft_break crlf else o) <= zlen o + (if broken then 3 else 0).
Proof. destruct broken; [|lia]. rewrite zlen_app. destruct crlf; cbn; unfold zlen; cbn; lia. Qed.

Lemma zlen_quote_last o :
  zlen (quote_last o) <= zlen o + (match last o with Some b => if is_blank b then 2 else 0 | None => 0 end).
Proof.
  unfold quote_last. destruct o as [|b o _] using rev_ind; [done|]. rewrite last_snoc. destruct (is_blank b); [|lia].
  unfold truncate_by. rewrite length_app, Nat.add_sub, take_app_length, !zlen_app. unfold zlen. cbn [length qp_hex]. lia.
Qed.

(** The line end at an index, with the blank before it quoted, was counted. *)
Lemma break_cost q :
  qp_fits q -> (q_index q < length data)%nat -> istext options = true -> is_break data (q_index q) = true ->
  let next := if get_or0 data (q_index q) =? cr then S (S (q_index q)) else S (q_index q) in
  zlen (quote_last (q_out q)) + zlen (eol crlf) - zlen (q_out q) <= qp_cost next - qp_cost (q_index q)
  /\ (q_index q < next <= length data)%nat /\ (forall i, next = S i -> get_or0 data i = nl).
Proof.
  destruct q as [o linelen index]. intros [_ _ _ Hblank Hcr] Hi Htx Hbr. cbn [q_out q_index] in *. unfold is_break in Hbr.
  pose proof (zlen_quote_last o) as Hz. set (b := get_or0 data index) in *.
  assert (zlen (quote_last o) <= zlen o + 2 * (match index with S i => if is_blank (get_or0 data i) then 1 else 0 | O => 0 end)) as Hq.
  { destruct (last o) as [c|] eqn:Hl; [destruct (is_blank c) eqn:Hbl|].
    - destruct (Hblank c eq_refl Hbl) as (i & -> & ->). lia.
    - repeat case_match; lia.
    - repeat case_match; lia. }
  clear Hz. destruct zlen_eol as [He He'].
  destruct (Z.eqb_spec b nl) as [Hnl|Hnl]; cbn [orb] in Hbr.
  - rewrite (proj2 (Z.eqb_neq b cr)) by (by rewrite Hnl). cbn zeta. split; [|split; [lia|by intros i [= <-]]].
    cbn [qp_cost]. unfold qp_extra. fold b. rewrite Htx, (proj2 (Z.eqb_eq b nl) Hnl). cbn [andb].
    assert (match index with S i => if get_or0 data i =? cr then i else index | O => index end = index) as ->.
    { destruct index as [|i]; [done|]. destruct (Z.eqb_spec (get_or0 data i) cr) as [Hc|]; [|done]. exfalso.
      apply (Hcr Htx i eq_refl Hc). destruct (lookup_lt_is_Some_2 data (S i) Hi) as [x Hx]. unfold b, get_or0 in Hnl.
      rewrite Hx in Hnl |- *. cbn in Hnl. by rewrite Hnl. }
    rewrite Nat.eqb_refl, andb_true_r. destruct crlf; destruct index; repeat case_match; try lia; specialize (He' eq_refl); lia.
  - apply andb_prop in Hbr as [Hbc Hnext%bool_decide_eq_true]. rewrite Hbc. cbn zeta.
    pose proof (lookup_lt_Some _ _ _ Hnext) as Hlt.
    assert (get_or0 data (S index) = nl) as Hn by (unfold get_or0; by rewrite Hnext).
    split; [|split; [lia|by intros i [= <-]]].
    change (qp_cost (S (S index))) with (qp_cost index + 1 + extra index + 1 + extra (S index)).
    pose proof (extra_nonneg index). assert (extra (S index) = 2 * (match index with S i => if is_blank (get_or0 data i) then 1 else 0 | O => 0 end)) as ->.
    { unfold qp_extra. rewrite Hn, Htx. cbn [andb]. change (nl =? nl) with true. cbn iota. fold b. rewrite Hbc.
      rewrite (proj2 (Nat.eqb_neq index (S index))) by lia. rewrite andb_false_r. destruct index; lia. }
    lia.
Qed.

Lemma quoted_fits q :
  qp_fits q -> (q_index q < length data)%nat -> qp_needs_quoting data (q_index q) (q_linelen q) options = true ->
  qp_fits (qp_turn data options crlf q).
Proof.
  destruct q as [o linelen index]. intros [_ Hl (k & Hz & Hk) _ _] Hi Hq. cbn [q_out q_index q_linelen] in *.
  unfold qp_turn. rewrite Hq. destruct (here index Hi) as (Hb & _). set (b := get_or0 data index) in *.
  pose proof (quoted_cost index linelen Hi Hq) as Hcost. rewrite cost_before in Hz, Hk by done.
  set (broken := QP_MAX_LINE <=? linelen + 3). pose proof (zlen_soft broken o) as Hs.
  split; cbn [q_out q_index q_linelen]; [lia|by destruct broken; lia| | |].
  - exists (k + if broken then 1 else 0). rewrite zlen_app. change (zlen (ch "=" :: qp_hex b)) with 3.
    destruct broken eqn:Hbr; [|lia]. apply Z.leb_le in Hbr. unfold QP_MAX_LINE in Hbr. lia.
  - intros c Hc. destruct (last_hex (if broken then o ++ qp_soft_break crlf else o) b Hb) as (d & Hd & Hnb). congruence.
  - intros Htx i [= <-] Hc. by destruct (quoted_text index linelen Hq Htx) as [_ ?].
Qed.

Lemma break_fits q :
  qp_fits q -> (q_index q < length data)%nat -> qp_needs_quoting data (q_index q) (q_linelen q) options = false ->
  istext options && is_break data (q_index q) = true -> qp_fits (qp_turn data options crlf q).
Proof.
  intros Hfits Hi Hq Hbr. pose proof Hbr as [Htx Hb]%andb_prop. pose proof (break_cost q Hfits Hi Htx Hb) as (Hc & Hn & Hnl).
  destruct q as [o linelen index]. cbn [q_out q_index q_linelen] in *. destruct Hfits as [_ Hl (k & Hz & Hk) _ _]. cbn [q_out q_index q_linelen] in *.
  unfold qp_turn. rewrite Hq, Hbr. fold (quote_last o). set (next := if get_or0 data index =? cr then S (S index) else S index) in *. rewrite cost_before in Hz, Hk by done.
  pose proof (cost_after next) as Ha. split; cbn [q_out q_index q_linelen]; [lia|lia| | |].
  - exists k. rewrite zlen_app. pose proof (zlen_nonneg (quote_last o)).
    assert (qp_cost index <= qp_cost next) by (subst next; destruct (_ =? cr); cbn [qp_cost]; pose proof (extra_nonneg index); pose proof (extra_nonneg (S index)); lia).
    lia.
  - intros c Hlast. rewrite last_eol in Hlast. by injection Hlast as <-.
  - intros _ i He Hcr. rewrite (Hnl i He) in Hcr. done.
Qed.

Lemma literal_fits q :
  qp_fits q -> (q_index q < length data)%nat -> qp_needs_quoting data (q_index q) (q_linelen q) options = false ->
  istext options && is_break data (q_index q) = false -> qp_fits (qp_turn data options crlf q).
Proof.
  destruct q as [o linelen index]. intros [_ Hl (k & Hz & Hk) _ _] Hi Hq Hbr. cbn [q_out q_index q_linelen] in *.
  unfold qp_turn. rewrite Hq, Hbr. set (broken := negb _ && _ && _). pose proof (zlen_soft broken o) as Hs.
  rewrite cost_before in Hz, Hk by done. pose proof (cost_after (S index)) as Ha. cbn [qp_cost] in Ha. pose proof (extra_nonneg index).
  split; cbn [q_out q_index q_linelen]; [lia|by destruct broken; lia| | |].
  - exists (k + if broken then 1 else 0). rewrite zlen_snoc.
    destruct broken eqn:Hb; [|lia]. apply andb_prop in Hb as [_ Hb%Z.leb_le]. unfold QP_MAX_LINE in Hb. lia.
  - intros c. rewrite last_snoc. intros [= <-] Hbl. exists index. split; [done|].
    destruct (header options && (get_or0 data index =? ch " ")) eqn:Hsp; [|done]. by apply andb_prop in Hsp as [_ ->%Z.eqb_eq].
  - intros Htx i [= <-] Hcr Hn. rewrite Htx in Hbr. unfold is_break in Hbr. rewrite Hcr in Hbr.
    by rewrite (bool_decide_true _ Hn) in Hbr.
Qed.

Lemma qp_turn_fits q : qp_fits q -> (q_index q < length data)%nat -> qp_fits (qp_turn data options crlf q).
Proof.
  intros Hf Hi. destruct (qp_needs_quoting data (q_index q) (q_linelen q) options) eqn:Hq; [by apply quoted_fits|].
  destruct (istext options && is_break data (q_index q)) eqn:Hb; [by apply break_fits|by apply literal_fits].
Qed.

Lemma qp_cost_sum n e :
  (n <= length data)%nat -> foldl Z.add e (imap (qp_extra data options crlf) (take n data)) = e + qp_cost n - Z.of_nat n.
Proof.
  induction n as [|n IH]; intros Hn; [change (e = e + 0 - 0); lia|]. destruct (lookup_lt_is_Some_2 data n Hn) as [x Hx].
  rewrite (take_S_r data n x Hx), imap_app, foldl_app, IH by lia. cbn [imap foldl].
  rewrite length_take, Nat.min_l, Nat.add_0_r by lia. cbn [qp_cost]. unfold get_or0. rewrite Hx. cbn [default from_option id]. lia.
Qed.

Lemma qp_loop_size :
  Z.min (zlen (q_out (qp_loop (length data) data options crlf (mkQp [] 0 0)))) usize_max <= qp_encoded_size data options crlf.
Proof.
  destruct (qp_loop_inv qp_fits (length data) (mkQp [] 0 0)) as [[Hi Hl (k & Hz & Hk) _ _] Hend]; [apply qp_turn_fits| |cbn; lia|].
  { split; cbn [q_out q_index q_linelen]; [lia|lia| |done|done]. exists 0. change (zlen (@nil Z)) with 0. pose proof (cost_after 0) as Ha. cbn [qp_cost] in Ha. lia. }
  set (q := qp_loop _ _ _ _ _) in *. assert (q_index q = length data) as Hqi by lia. rewrite Hqi in Hz, Hk.
  unfold cost_at in Hz, Hk. rewrite Nat.eqb_refl in Hz, Hk. unfold qp_encoded_size. fold last_cost.
  pose proof (qp_cost_sum (length data) last_cost ltac:(lia)) as Hsum. rewrite firstn_all in Hsum. rewrite Hsum. unfold QP_MAX_LINE.
  set (C := qp_cost (length data)) in *. unfold sat_add, sat_mul, usize_max. change (76 - 3) with 73.
  change (Z.of_nat (length data)) with (zlen data). replace (zlen data + (last_cost + C - zlen data)) with (C + last_cost) by lia.
  assert (0 <= C + last_cost) by (pose proof (qp_cost_nonneg (length data)); unfold last_cost; case_match; lia).
  set (B := C + last_cost) in *. assert (k <= B / 73) as Hkb by (apply Z.div_le_lower_bound; lia).
  clear Hsum. clearbody C B q. unfold u64_max. destruct (Z.le_gt_cases B 18446744073709551615).
  - rewrite (Z.min_l B) by done. clear Hk. generalize dependent (B / 73). intros. lia.
  - rewrite (Z.min_r B) by lia. dlia.
Qed.

(** ** Lines *)

(** The lines written, the last one not ended; how long it is, and why it may be full. *)
Definition line_ok (l : bytes) : Prop := zlen l <= 78 /\ nl ∉ l.

Record qp_lined (q : Qp) : Prop := {
  lined_out : exists lines final, q_out q = mjoin ((fun l => l ++ eol crlf) <$> lines) ++ final
    /\ Forall line_ok lines /\ nl ∉ final /\ zlen final = q_linelen q;
  lined_full : q_linelen q <= 76 /\ (q_linelen q = 76 -> forall b, data !! q_index q = Some b -> b = nl) }.

Lemma ended_lines lines final :
  mjoin ((fun l => l ++ eol crlf) <$> lines) ++ (final ++ eol crlf)
  = mjoin ((fun l => l ++ eol crlf) <$> (lines ++ [final])).
Proof. rewrite fmap_app, join_app. cbn [fmap list_fmap mjoin list_join]. by rewrite app_nil_r. Qed.

(** A soft break, where one is due, ends the line. *)
Lemma soft_lined (broken : bool) o lines final linelen :
  o = mjoin ((fun l => l ++ eol crlf) <$> lines) ++ final -> Forall line_ok lines -> nl ∉ final -> zlen final = linelen -> linelen <= 76 ->
  exists lines' final', (if broken then o ++ qp_soft_break crlf else o) = mjoin ((fun l => l ++ eol crlf) <$> lines') ++ final'
    /\ Forall line_ok lines' /\ nl ∉ final' /\ zlen final' = (if broken then 0 else linelen).
Proof.
  intros -> HL Hn Hz Hle. destruct broken; [|by exists lines, final].
  exists (lines ++ [final ++ [ch "="]]), []. split_and!.
  - rewrite app_nil_r, <- ended_lines, <- !app_assoc. done.
  - apply Forall_app. split; [done|]. constructor; [|constructor]. split; [rewrite zlen_snoc; lia|].
    intros [Hi|Hi%list_elem_of_singleton]%elem_of_app; [done|]. done.
  - apply not_elem_of_nil.
  - done.
Qed.

Lemma hex_no_newline b : is_byte b -> nl ∉ ch "=" :: qp_hex b.
Proof.
  intros Hb. destruct (qp_hex_digits b Hb) as (hi & lo & Hhi & Hlo & _ & ->). rewrite !not_elem_of_cons.
  destruct (upper_hex hi Hhi) as (_ & ? & _), (upper_hex lo Hlo) as (_ & ? & _). split_and!; [done|congruence|congruence|apply not_elem_of_nil].
Qed.

(** Quoting the last blank stays in the line. *)
Lemma quote_last_lined lines final :
  nl ∉ final -> exists final', quote_last (mjoin ((fun l => l ++ eol crlf) <$> lines) ++ final)
    = mjoin ((fun l => l ++ eol crlf) <$> lines) ++ final' /\ nl ∉ final' /\ zlen final' <= zlen final + 2.
Proof.
  intros Hn. unfold quote_last. destruct final as [|b final _] using rev_ind.
  - rewrite app_nil_r. exists []. assert (match last (mjoin ((fun l => l ++ eol crlf) <$> lines)) with Some b => is_blank b = false | None => True end) as Hb.
    { destruct lines as [|l lines _] using rev_ind; [done|]. rewrite <- ended_lines, app_assoc, last_eol. done. }
    destruct (last _) as [b|]; [rewrite Hb|]; rewrite app_nil_r; split_and!; (done || apply not_elem_of_nil).
  - rewrite app_assoc, last_snoc. destruct (is_blank b) eqn:Hb; [|exists (final ++ [b]); rewrite app_assoc; split_and!; [done..|lia]].
    unfold truncate_by. rewrite (length_app _ [b]), Nat.add_sub, take_app_length, <- app_assoc.
    exists (final ++ ch "=" :: qp_hex b). split; [done|]. apply not_elem_of_app in Hn as [Hn _]. split.
    + apply not_elem_of_app. split; [done|]. apply hex_no_newline. unfold is_blank in Hb. apply orb_prop in Hb as [->%Z.eqb_eq| ->%Z.eqb_eq]; done.
    + rewrite !zlen_app. unfold zlen. cbn [length qp_hex]. lia.
Qed.

Lemma qp_turn_lined q : qp_lined q -> (q_index q < length data)%nat -> qp_lined (qp_turn data options crlf q).
Proof.
  destruct q as [o linelen index]. intros [(lines & final & Ho & HL & Hn & Hz) [Hle Hfull]] Hi. cbn [q_out q_index q_linelen] in *.
  destruct (here index Hi) as (Hb & _). unfold qp_turn. set (b := get_or0 data index) in *.
  destruct (qp_needs_quoting data index linelen options) eqn:Hq; [|destruct (istext options && is_break data index) eqn:Hbr].
  - set (broken := QP_MAX_LINE <=? linelen + 3).
    destruct (soft_lined broken o lines final linelen Ho HL Hn Hz Hle) as (lines' & final' & Ho' & HL' & Hn' & Hz').
    assert ((if broken then 0 else linelen) <= 72) as Hlt.
    { destruct broken eqn:Hbk; [lia|]. apply Z.leb_gt in Hbk. unfold QP_MAX_LINE in Hbk. lia. }
    split; cbn [q_out q_index q_linelen]; [|split; lia].
    exists lines', (final' ++ ch "=" :: qp_hex b). rewrite Ho', <- app_assoc. split_and!; [done..| |].
    + apply not_elem_of_app. split; [done|by apply hex_no_newline].
    + rewrite zlen_app, Hz'. done.
  - fold (quote_last o). split; cbn [q_out q_index q_linelen]; [|split; [lia|done]].
    destruct (quote_last_lined lines final Hn) as (final' & Hql & Hn' & Hz'). rewrite <- Ho in Hql.
    exists (lines ++ [final']), []. rewrite Hql, <- app_assoc, ended_lines, app_nil_r. split_and!; [done| |apply not_elem_of_nil|done].
    apply Forall_app. split; [done|]. constructor; [|constructor]. split; [lia|done].
  - set (broken := negb _ && _ && _).
    assert (b <> nl) as Hbn.
    { intros Hbn. destruct (istext options) eqn:Htx.
      - unfold is_break in Hbr. fold b in Hbr. by rewrite (proj2 (Z.eqb_eq b nl) Hbn) in Hbr.
      - unfold qp_needs_quoting, qp_always_quotes in Hq. fold b in Hq. rewrite Htx, Hbn in Hq. revert Hq.
        cbn. by rewrite ?orb_true_r. }
    destruct (soft_lined broken o lines final linelen Ho HL Hn Hz Hle) as (lines' & final' & Ho' & HL' & Hn' & Hz').
    assert (linelen <> 76) as H76.
    { intros H76. apply Hbn. destruct (lookup_lt_is_Some_2 data index Hi) as [x Hx]. unfold b, get_or0. rewrite Hx. by apply (Hfull H76). }
    split; cbn [q_out q_index q_linelen].
    + exists lines', (final' ++ [if header options && (b =? ch " ") then ch "_" else b]). rewrite Ho', <- app_assoc. split_and!; [done..| |].
      * apply not_elem_of_app. split; [done|]. intros Hin%list_elem_of_singleton. by destruct (header options && _).
      * by rewrite zlen_snoc, Hz'.
    + destruct broken eqn:Hbk; [split; lia|]. split; [lia|]. intros He x Hx. subst broken.
      assert (linelen = 75) as -> by lia. rewrite (proj2 (Z.leb_le QP_MAX_LINE (75 + 1))), andb_true_r in Hbk by (unfold QP_MAX_LINE; lia).
      apply lookup_lt_Some in Hx as Hlt. rewrite (proj2 (Nat.eqb_neq _ _)) in Hbk by lia. cbn [negb andb] in Hbk.
      apply negb_false_iff, bool_decide_eq_true in Hbk. congruence.
Qed.

Lemma qp_loop_lined : exists lines,
  q_out (qp_loop (length data) data options crlf (mkQp [] 0 0)) ++ eol crlf = mjoin ((fun l => l ++ eol crlf) <$> lines)
  /\ Forall line_ok lines.
Proof.
  destruct (qp_loop_inv qp_lined (length data) (mkQp [] 0 0)) as [[(lines & final & -> & HL & Hn & Hz) [Hle _]] _]; [apply qp_turn_lined| |cbn; lia|].
  { split; cbn [q_out q_index q_linelen]; [|split; [lia|done]]. exists [], []. split_and!; [done|constructor|apply not_elem_of_nil|done]. }
  exists (lines ++ [final]). rewrite <- app_assoc, ended_lines. split; [done|]. apply Forall_app. split; [done|].
  constructor; [|constructor]. split; [lia|done].
Qed.
End Encode.

(** ** The functions of the module *)

(** A text without carriage returns keeps its line ends. *)
Lemma same_ends_plain data : cr ∉ data -> same_ends (qp_crlf data) data = data.
Proof.
  intros Hcr. assert (qp_crlf data = false) as ->.
  { unfold qp_crlf. destruct (position nl data) as [i|]; [|done]. apply andb_false_intro2, Z.eqb_neq. unfold get_or0.
    destruct (data !! Z.to_nat (i - 1)) as [b|] eqn:Hb; [|done]. cbn. apply list_elem_of_lookup_2 in Hb. congruence. }
  induction data as [|b data IH]; [done|]. apply not_elem_of_cons in Hcr as [Hb Hcr]. cbn [same_ends].
  rewrite (proj2 (Z.eqb_neq b cr)), IH by congruence. by destruct (Z.eqb_spec b nl) as [->|].
Qed.

Section Module_functions.
Context {W : Type} `{Machine W}.
Variables (tr : ResourceTracker) (w : W).

(** C29: Quoted-printable loses nothing. Unless the memory limit refuses the result, what
    [b2a_qp] writes for a byte string decodes, with the same [header], to that string,
    whatever is quoted and wherever lines are broken; in text mode line ends come back all
    alike, as the first one was, which is as they were if there is no carriage return. *)
Theorem qp_roundtrip data quotetabs istext header :
  Forall is_byte data ->
  within_limit (call_b2a_qp tr w data quotetabs istext header)
    (fun text => call_a2b_qp text header = if (istext : bool) then same_ends (qp_crlf data) data else data)
  /\ (cr ∉ data -> same_ends (qp_crlf data) data = data).
Proof.
  intros HF. split; [|apply same_ends_plain]. apply within_limit_check.
  exact (qp_loop_decodes data (mkQpOptions quotetabs istext header) (qp_crlf data) HF).
Qed.

(** The output of [b2a_qp] is bounded. It is never longer than the size reserved for it
    (or than a [usize] counts), and no line of it is longer than 78 bytes. *)
Theorem qp_bounds data quotetabs istext header :
  Forall is_byte data ->
  let options := mkQpOptions quotetabs istext header in
  let crlf := qp_crlf data in
  within_limit (call_b2a_qp tr w data quotetabs istext header) (fun text =>
    Z.min (zlen text) usize_max <= qp_encoded_size data options crlf
    /\ exists lines, text ++ eol crlf = mjoin ((fun l => l ++ eol crlf) <$> lines) /\ Forall line_ok lines).
Proof.
  intros HF options crlf. apply within_limit_check. split; [by apply qp_loop_size|by apply qp_loop_lined].
Qed.

(** The bound is met: a blank before a line end is quoted where the line is already full,
    so that lines are longer than [QP_MAX_LINE]. *)
Lemma qp_line_over :
  call_b2a_qp free_tracker sim_start (replicate 75 (ch "a") ++ [ch " "; nl]) false true false
  = Ok (replicate 75 (ch "a") ++ blit "=20" ++ [nl])
  /\ zlen (replicate 75 (ch "a") ++ blit "=20") = 78.
Proof. by vm_compute. Qed.
End Module_functions.

Lemma qp_roundtrip_witness :
  let data := blit "a=b " ++ [nl; 255] in
  Forall is_byte data
  /\ call_b2a_qp free_tracker sim_start data false true false = Ok (blit "a=3Db=20" ++ [nl] ++ blit "=FF")
  /\ call_a2b_qp (blit "a=3Db=20" ++ [nl] ++ blit "=FF") false = data.
Proof.
  assert (Forall is_byte (blit "a=b " ++ [nl; 255])) as HF by (by apply bytes_checked).
  split_and!; [exact HF|by vm_compute|].
  exact (proj1 (qp_roundtrip free_tracker sim_start (blit "a=b " ++ [nl; 255]) false true false HF)).
Defined.

Lemma qp_bounds_witness :
  let data := blit "a=b " ++ [nl; 255] in
  Forall is_byte data
  /\ Z.min (zlen (blit "a=3Db=20" ++ [nl] ++ blit "=FF")) usize_max <= qp_encoded_size data (mkQpOptions false true false) false.
Proof.
  assert (Forall is_byte (blit "a=b " ++ [nl; 255])) as HF by (by apply bytes_checked).
  split; [exact HF|].
  exact (proj1 (qp_bounds free_tracker sim_start (blit "a=b " ++ [nl; 255]) false true false HF)).
Defined.
